(* ===== verification/_CoqProject ===== *)
-Q . S2P
Prelude.v
GoString.v
AgentIds.v
Routing.v
Cooldown.v
Fallback.v
AuthLimiter.v
SessionTokens.v
Eviction.v
Cron.v
SessionDispatch.v
MessageSplit.v
McpHealth.v
ForumConfig.v
ForumLog.v
ForumStore.v
ForumController.v
JsonPointer.v
ForumRouter.v
ForumValidate.v
ForumTurns.v
ForumAttempts.v
NamedTokens.v
MessageTokens.v
Filepath.v
WriteScope.v
FileEdits.v
FileReads.v
InboundRoute.v
DeviceStore.v
DeviceAuth.v
DeviceSessions.v
AgentLifecycle.v
TurnLoop.v
ChannelSend.v
ChannelPlan.v
ChannelManager.v
ChannelControl.v
ChannelOrder.v
ChannelRuns.v
Asks.v
AskRuns.v
AskReplies.v
AskProgress.v
