(* ===== verification/Prelude.v ===== *)
(** * Verification of the ClawEh runtime

    ClawEh hosts agents: messages arrive on channels (Telegram, Slack, devices,
    the web interface, a scheduler), are routed to an agent, run one turn at a
    time per session against a chain of language models, may call tools over
    MCP, and the replies go back to the channel. This development models the
    parts of the Go code that decide: who handles a message, in which order,
    with which model, under which token, what a tool may write, when a job runs,
    what is delivered and what is told to the administrator. File and function
    names below are under src/.

    ** The parts and how they interact

    Shared:
    - GoString: the strings and runes of Go as the code uses them (UTF-8,
      trimming, splitting, joining, case), over [String.string] as bytes. What
      it needs of the Unicode tables beyond ASCII is the class [UnicodeData].
    - AgentIds (config/agent_id.go, routing/agent_id.go, routing/session_key.go):
      normalised ids, comparing them, the search for a free id, session keys.

    From a message to a turn:
    - Routing (routing/route.go, config/human.go): [ResolveRoute] with its eight
      tiers of bindings, the default agent, [Reaches]. It uses AgentIds.
    - InboundRoute (agentreg/registry.go, agent/routing.go, channels/base.go): the
      registry as it is built, mentions, and the agent and session a message gets
      ([take_message]), over Routing.
    - AgentLifecycle (agentreg/registry.go, agentreg/temp.go): the instances in
      that registry from build to close; a state is what the goroutines share and
      what each has still to do ([Task]), a step what is done under one lock or in
      one atomic operation.
    - SessionDispatch (agent/session_dispatch.go, commands/request.go,
      bus/types.go): the queue of one session. [takeBatch] and [mergeMessages]
      are functions; the goroutines of one key are threads whose program points
      are [pc], stepped by one definition per Go procedure
      ([processSessionMessage], [drainSession], [runQueuedTurn], ...).
    - Eviction (agent/eviction.go, agent/context_manager.go): the cached context
      of one session, its reference count and its build slot, as threads in the
      same way. It is a client of the interface [TokenIssuer] of SessionTokens.
    - TurnLoop (agent/llm_iteration.go, llm_dispatch.go, tool_exec.go,
      tool_result_cap.go, loop_turn.go): the turn that SessionDispatch's threads
      run, a computation over what the code keeps in [llmTurn] and the world
      outside (class [TurnHost]).
    - Asks (agent/ask.go, turn_slot.go, turn_reply.go, tools/turnscope.go, part of
      agent/messenger.go): what an ask between agents is made of: its chain and
      depth, the graph of waits and its search ([waits_begin]), the registry, the
      slot a waiting turn lends, the answer a turn's end decides. AskRuns is their
      step system ([step]): turns, the sessions' queues of SessionDispatch's
      messages, and the calls in flight. AskReplies says where each ask is,
      AskProgress that something can always go on.

    Models:
    - Cooldown (providers/cooldown.go): the tracker of failing models; the
      instance of [CooldownGate].
    - Fallback (providers/fallback.go): the chain of candidates, a client of
      [CooldownGate]; [run_candidate], [exec_loop] and [ExecuteWithNotify] are
      the two loops and the call.

    Delivery:
    - MessageSplit (channels/split.go): cutting a reply to a channel's limit.
    - ChannelSend (channels/manager.go, errors.go, tuning.go): what a worker does
      with one message, in the world [ChannelHost]; it uses MessageSplit.
    - ChannelPlan (channels/plan.go, config/channels.go): the channels a
      configuration asks for.
    - ChannelManager (channels/manager.go, lifecycle.go, reload.go): dispatchers,
      workers, holds, starts with their retries, reloads to the specs of
      ChannelPlan and the shutdown, one label of [step] per blocking point or
      critical section. ChannelControl holds what each step keeps, ChannelOrder
      the line in which a channel's messages stand, ChannelRuns what every run
      has.

    Tokens and logins:
    - SessionTokens (mcpserver/session_tokens.go, internal/tokenhash): the token
      store with its two indexes; the instance of [TokenIssuer].
    - NamedTokens (msgtoken/named.go) and MessageTokens (msgtoken/manager.go,
      agent/loop_message_tokens.go): the tokens external programs post with, their
      limiter and files, and the check of a token over both.
    - AuthLimiter (web/backend/middleware/auth_limiter.go and the login handler of
      web/backend/api/auth.go): the two lock tables and the limiter.
    - DeviceStore (channels/device/store.go), DeviceAuth (channels/device/server.go
      and throttle.go, gatewayproto) and DeviceSessions (server.go, gateway.go,
      internal/gateway/device_query.go): pairing, the handshake, and what a
      connected device may ask; DeviceSessions uses the records of DeviceStore,
      and InboundRoute for the turn.

    Tools, jobs and servers:
    - Filepath (Go's path/filepath), WriteScope (tools/files/filesystem.go,
      mounts.go): where a writing tool writes, links followed. FileEdits
      (edit.go, rangeedit.go, backup.go): what it writes. FileReads
      (filesystem.go, search.go): reading in pages and searching, by the line
      numbers that FileEdits takes.
    - Cron (cron/service.go): the job store, its file, the due check, a job's
      execution around its handler, and every call.
    - McpHealth (mcp/health.go, mcp/resilience.go): failures, backoff, alerts,
      status and stderr of the MCP servers.

    The forum (forum/), a run of layers in which agents take turns:
    - ForumConfig holds the configuration and the records, ForumValidate every
      static check of the configuration. ForumLog is the commit log: its index,
      the check of every commit ([checkCommit]) and [replay], which folds a log
      into the state of the run. ForumStore is the log and the attempts on disk,
      where any write may fail before or after its file appears; what it needs of
      JSON is the class [ForumCodec]. ForumController steps the run: every change
      of state is one [commitWhen] with its guard, and a crash may come between
      any two. JsonPointer and ForumRouter decide what each participant receives
      from sources and earlier layers ([Resolve]); ForumTurns which events of its
      own layer and which private messages a message carries; ForumAttempts is the
      attempt loop of one turn ([perform]), called again after each restart.

    Mutable state is a record passed explicitly, one function per Go function;
    maps are [gmap]; the order in which Go ranges over a map is any
    enumeration (class [GoRange], below), and the theorems hold for each. A
    [time.Time] is an integer with 0 for the zero time; integers are Z, with
    their 64-bit wrap-around written out where it can be reached. Errors are
    values of [result], [option] or a type of the file. Goroutines are steps
    taken in any order.

    ** What is shown

    - The forum: whatever is asked of a run, with any write failing and a crash
      anywhere, its log replays and is what memory says; limits hold across
      restarts; a cancelled run sends and publishes nothing more; nobody
      receives a record that no route gives them, nor the author of an anonymous
      one, and a projection shows nothing that was not selected; a participant
      is told every event by others once, and none of an unpublished round; a
      turn ends within its attempts. A configuration the checks accept is well
      formed, keeps anonymous authors unknown, and its routes resolve.
    - Delivery, for every interleaving: no message is lost or told twice; a
      channel's messages are sent in the order they came unless a worker had to
      be left behind; no channel is left running, and a shutdown ends whatever a
      send does. A long message goes out in chunks that fit, each tried at most
      four times, with one answer to its sender.
    - Concurrency, for every interleaving: an entry in use is cached, open and
      its token accepted, nothing is left open, the build slot is always freed
      (Eviction); turns of one session do not overlap, each chat's messages
      leave the queue in order and none is lost, the queue drains, /cancel
      reaches all of it (SessionDispatch); an agent's instance is closed once and
      not in a turn, none is forgotten, and the work left runs out
      (AgentLifecycle); jobs start at most once per due time (Cron); agents never
      wait for one another in a circle, turns hold no more slots than there are,
      an ask is in one place and gets one reply, and once nobody asks anything
      new every ask in a turn is answered and every turn ends (AskReplies,
      AskProgress).
    - Security: what a tool writes stays in its folders with links resolved; a
      device is let in only paired, signed and with a live token, and reads and
      writes only its agents; tokens are accepted exactly from issue to
      revocation; passwords and device secrets tried per time are bounded.
    - A turn stores a conversation a provider takes, whatever fails, asks the
      model a bounded number of times, and answers unless told not to.
    - Functional behaviour on every branch: the routing cascade against an
      independently stated priority, the agent of a message, the chain's
      accounting of its candidates, escalation of cooldowns, the plan of
      channels, edits by line, the due check, alerts of an outage.
    - Bounds, round trips, equivalences: queues and holds, message chunks, pages of
      a file, tool results, backoff without overflow; pages make up the file and
      a transcript, the scheduler's file, session keys; the limiter is the plain
      definition of its limit.
    - Where the code does not do what it says, an [Example] runs it:
      [Routing.default_agent_human_main], [Routing.Reaches_peer_and_guild],
      [Routing.account_id_not_normalised],
      [Cooldown.ignored_failure_creates_entry], [ForumTurns.directed_lost],
      [ForumRouter.anonymous_deal_uneven], [ForumLog.after_end_checked],
      [MessageSplit.SplitMessage_stuck], [NamedTokens.block_overflow],
      [WriteScope.replaced_link_escapes], [FileReads.long_line_unread],
      [FileReads.count_wraps], [FileReads.walk_goes_on],
      [FileEdits.end_overflow], [FileEdits.last_line_deleted],
      [FileEdits.overlap_accepted], [DeviceSessions.main_escapes],
      [DeviceSessions.switch_without_effect], [DeviceSessions.run_taken_over],
      [InboundRoute.session_of_another], [AgentLifecycle.begins_after_close],
      [TurnLoop.vision_unset_not_described], [TurnLoop.panic_not_an_error],
      [TurnLoop.limit_reason_lost], [ChannelRuns.stranded],
      [ChannelRuns.reload_stuck], [ChannelRuns.late_start],
      [ChannelSend.undo_overwritten], [AskProgress.mcp_stalls] and
      [AskProgress.clone_circle], each in its file or the module of examples
      at its end.

    ** Bounds and fuel

    - [freeAgentID]: a theorem gives fuel that is enough for any finite set of
      ids taken. [run_candidate]: 2, as the code tries a candidate at most twice.
      [Fields]: one more than the length ([fields_go_fuel]). [SplitMessage] and
      [sendSplit]: the number of iterations; theorems say when the length plus one
      is enough and when none is. The forum log's theorems hold below 10^8 commits,
      where the eight digits of a file name end ([ForumStore.name_overflow]).
      [responseLabel]: as many turns as the number. [perform_loop] follows the list
      of answers; a theorem says how many are enough. [solo] in Eviction (12) and
      SessionDispatch (linear in the queue) counts one thread's steps in a liveness
      statement. The search of the wait graph: one more than the graph's agents
      ([reaches_iff]). Runs of AgentLifecycle, ChannelManager and AskRuns are
      lists of labels of any length.

    ** Assumptions and what is left out

    - Login requests, and handshakes for the bound on guesses, are handled one
      after the other. Eviction and SessionDispatch model one key each, which the
      code's per-key maps keep apart; calls for other keys appear in Eviction as
      steps that respect the token interface. A database transaction happens whole
      or not at all. Nothing else changes the workspace during a write. Client
      sequence numbers stay below the word's width; new random ids are fresh; no
      configured agent has the id of a temporary one; the gateway calls StartAll
      once. During a run of AskRuns the registry of agents is fixed, a queued
      message is still routed to the agent it was queued for or to none, and an ask
      that ends at its asker's deadline counts as ended after its asker gave up.
    - Parameters: SHA-256, ed25519, base64 and the random source, the
      cron-expression library and JSON encoding, address parsing, regular
      expressions, model calls, tools, platforms of channels, the bus, the clock,
      the jitter of a delay, the random generator of a deal, the outcome of each
      write of a run's files, the words of a forum's messages.
    - Not modelled, because it is I/O or calls into libraries: the adapters of
      channels and providers, the MCP client and host, compaction of a context,
      the forum's service, its walk over layers and its files beyond log and
      attempts, shell, web and messaging tools, decoding the configuration, the
      web interface, probes of the scheduler and MCP servers, skills, cards,
      reports, backup, installation and certificates. Of modelled parts: the
      agent loop around a turn with its recovery, requests to people, whispers and
      the end of turns at shutdown, reads in the sandbox, sockets and voice of the device gateway, the context each channel was
      started with, and the calls of the channel manager that nothing makes
      ([RegisterChannel], [SendToChannel] and their like). *)

From stdpp Require Import base gmap strings list fin_maps sorting.
From Stdlib Require Import ZArith Lia.

Open Scope Z_scope.

(** ** Results of fallible code *)

Inductive result (A E : Type) : Type :=
| Ok (a : A)
| Err (e : E).

Arguments Ok {A E} a.
Arguments Err {A E} e.

Definition is_ok {A E} (r : result A E) : bool :=
  match r with Ok _ => true | Err _ => false end.

Declare Scope go_scope.
Delimit Scope go_scope with go.

Notation "'let*' p ':=' c 'in' d" :=
  (match c with Ok p => d | Err e => Err e end)
  (at level 10, p pattern, c at level 100, d at level 200) : go_scope.

Lemma let_ok_inv {A B E} (c : result A E) (k : A → result B E) (b : B) :
  (let* x := c in k x)%go = Ok b → ∃ a, c = Ok a ∧ k a = Ok b.
Proof. destruct c as [a|e]; [eauto|discriminate]. Qed.

(** ** Machine integers

    Go's [int] and [int64] are 64-bit two's complement. *)

Definition min_int64 : Z := - 2 ^ 63.
Definition max_int64 : Z := 2 ^ 63 - 1.

Definition in_int64 (z : Z) : Prop := min_int64 ≤ z ≤ max_int64.

Definition wrap64 (z : Z) : Z := (z + 2 ^ 63) mod 2 ^ 64 - 2 ^ 63.

Lemma wrap64_id z : in_int64 z → wrap64 z = z.
Proof.
  unfold in_int64, min_int64, max_int64, wrap64. intros H.
  rewrite Z.mod_small; lia.
Qed.

Lemma wrap64_range z : in_int64 (wrap64 z).
Proof.
  unfold in_int64, min_int64, max_int64, wrap64.
  pose proof (Z.mod_pos_bound (z + 2 ^ 63) (2 ^ 64) ltac:(lia)). lia.
Qed.

(** ** Time

    A [time.Time] is the number of nanoseconds since Go's zero time (1 January
    of year 1, UTC), so [IsZero] is equality with 0. A [time.Duration] is a
    signed 64-bit number of nanoseconds; [Time.Sub] saturates. *)

Module GoTime.

Definition nanosecond : Z := 1.
Definition millisecond : Z := 1000 * 1000.
Definition second : Z := 1000 * millisecond.
Definition minute : Z := 60 * second.
Definition hour : Z := 60 * minute.

Definition zero_time : Z := 0.
Definition is_zero (t : Z) : bool := t =? 0.
Definition before (t u : Z) : bool := t <? u.
Definition after (t u : Z) : bool := u <? t.
Definition add (t d : Z) : Z := t + d.
Definition sub (t u : Z) : Z := Z.max min_int64 (Z.min max_int64 (t - u)).

(** [Duration.Round]: the nearest multiple of [m], halves away from zero;
    results that do not fit saturate. *)
Definition round (d m : Z) : Z :=
  if m <=? 0 then d
  else let r := Z.rem d m in
       if d <? 0 then
         if (- r) + (- r) <? m then d - r
         else Z.max min_int64 (d - r - m)
       else if r + r <? m then d - r
       else Z.min max_int64 (d - r + m).

Lemma sub_le_iff t u d :
  min_int64 ≤ d < max_int64 → (sub t u ≤ d ↔ t - u ≤ d).
Proof. unfold sub, min_int64, max_int64. lia. Qed.

Lemma sub_lt_iff t u d :
  min_int64 < d ≤ max_int64 → (sub t u < d ↔ t - u < d).
Proof. unfold sub, min_int64, max_int64. lia. Qed.

Lemma before_iff t u : before t u = true ↔ t < u.
Proof. unfold before. apply Z.ltb_lt. Qed.

Lemma after_iff t u : after t u = true ↔ u < t.
Proof. unfold after. apply Z.ltb_lt. Qed.

Lemma is_zero_false t : 0 < t → is_zero t = false.
Proof. unfold is_zero. intros H. apply Z.eqb_neq. lia. Qed.

End GoTime.

(** ** Go maps

    A [map[string]V] is a finite map. [range] visits the entries in an
    unspecified order: an enumeration of the map, chosen by the
    implementation. Definitions that range over a map take the order from this
    class, and the theorems hold for every instance. *)

Class GoRange := {
  go_range : ∀ {V : Type}, gmap string V → list (string * V);
  go_range_perm : ∀ {V : Type} (m : gmap string V), go_range m ≡ₚ map_to_list m
}.

#[export] Instance ordered_range : GoRange | 100 := {|
  go_range := λ V m, map_to_list m;
  go_range_perm := λ V m, reflexivity (map_to_list m)
|}.

Section go_range.
Context `{GoRange} {V : Type}.
Implicit Types m : gmap string V.

Lemma elem_of_go_range m k v : (k, v) ∈ go_range m ↔ m !! k = Some v.
Proof. rewrite go_range_perm. apply elem_of_map_to_list. Qed.

Lemma go_range_NoDup m : NoDup (go_range m).*1.
Proof. rewrite go_range_perm. apply NoDup_fst_map_to_list. Qed.

Lemma go_range_list_to_map m : list_to_map (go_range m) = m.
Proof.
    rewrite <- (list_to_map_to_list m) at 2.
    apply list_to_map_proper; [apply go_range_NoDup | apply go_range_perm].
Qed.
End go_range.

(** ** Tactics *)

(** Case analysis on the boolean conditions of a goal, remembering each as an
    (in)equality on integers where it is one. *)
Ltac zb :=
  repeat match goal with
  | H : (_ =? _) = true |- _ => apply Z.eqb_eq in H
  | H : (_ =? _) = false |- _ => apply Z.eqb_neq in H
  | H : (_ <? _) = true |- _ => apply Z.ltb_lt in H
  | H : (_ <? _) = false |- _ => apply Z.ltb_ge in H
  | H : (_ <=? _) = true |- _ => apply Z.leb_le in H
  | H : (_ <=? _) = false |- _ => apply Z.leb_gt in H
  | H : _ && _ = true |- _ => apply andb_true_iff in H as [? ?]
  | H : _ || _ = false |- _ => apply orb_false_iff in H as [? ?]
  | H : negb _ = true |- _ => apply negb_true_iff in H
  | H : negb _ = false |- _ => apply negb_false_iff in H
  end.

Ltac case_if :=
  match goal with
  | |- context [if ?b then _ else _] =>
      lazymatch type of b with bool => destruct b eqn:? end
  end.

Ltac case_if_in H :=
  match type of H with
  | context [if ?b then _ else _] =>
      lazymatch type of b with bool => destruct b eqn:? end
  end.

(** Split every boolean condition of the goal, then arithmetic. *)
Ltac cases_lia := repeat case_if; zb; try lia.

Create HintDb claw.
#[export] Hint Resolve wrap64_range : claw.

(** ** Lists *)

Section lists.
Context {A : Type}.
Implicit Types l : list A.

  (** [for i := range l { if p(l[i]) { return &l[i] } }]: the first element
      satisfying [p]. *)
Fixpoint find_first (p : A → bool) (l : list A) : option A :=
    match l with
    | [] => None
    | x :: l' => if p x then Some x else find_first p l'
    end.

Lemma find_first_Some p l x :
    find_first p l = Some x ↔
    ∃ l1 l2, l = l1 ++ x :: l2 ∧ p x = true ∧ Forall (λ y, p y = false) l1.
Proof.
    induction l as [|y l IH]; simpl.
    - split; [done|]. intros (l1 & l2 & H & _). by destruct l1.
    - destruct (p y) eqn:Hy.
      + split.
        * intros [= <-]. exists [], l. by rewrite Forall_nil.
        * intros ([|z l1] & l2 & [= -> H] & Hx & Hall); [done|].
          apply Forall_cons in Hall as [? _]. congruence.
      + rewrite IH. split.
        * intros (l1 & l2 & -> & Hx & Hall). exists (y :: l1), l2.
          by rewrite Forall_cons.
        * intros ([|z l1] & l2 & [= -> H] & Hx & Hall); [congruence|].
          apply Forall_cons in Hall as [_ ?]. naive_solver.
Qed.

Lemma find_first_None p l : find_first p l = None ↔ Forall (λ y, p y = false) l.
Proof.
    induction l as [|y l IH]; simpl; [by rewrite Forall_nil|].
    rewrite Forall_cons. destruct (p y); naive_solver.
Qed.

Lemma find_first_ext (p q : A → bool) l :
    (∀ x, x ∈ l → p x = q x) → find_first p l = find_first q l.
Proof.
    induction l as [|y l IH]; intros Hpq; simpl; [done|].
    rewrite (Hpq y) by set_solver. case_if; [done|]. apply IH. set_solver.
Qed.

  (** Go's boolean filter loop. *)
Fixpoint keep (p : A → bool) (l : list A) : list A :=
    match l with
    | [] => []
    | x :: l' => if p x then x :: keep p l' else keep p l'
    end.

Lemma elem_of_keep p l x : x ∈ keep p l ↔ x ∈ l ∧ p x = true.
Proof.
    induction l as [|y l IH]; simpl; [set_solver|].
    destruct (p y) eqn:Hy; rewrite ?elem_of_cons, IH; naive_solver congruence.
Qed.

Lemma keep_sublist p l : keep p l `sublist_of` l.
Proof. induction l; simpl; [done|]. case_if; by constructor. Qed.

Lemma keep_id p l : Forall (λ x, p x = true) l → keep p l = l.
Proof. induction 1 as [|x l Hx _ IH]; simpl; [done|]. by rewrite Hx, IH. Qed.

Lemma keep_keep f g l : keep f (keep g l) = keep (λ x, g x && f x) l.
Proof.
  induction l as [|x l IH]; simpl; [done|].
  destruct (g x) eqn:Hg; simpl; rewrite ?Hg; [destruct (f x); by rewrite IH|done].
Qed.

Lemma keep_ext f g l : (∀ x, f x = g x) → keep f l = keep g l.
Proof. intros Hfg. induction l as [|x l IH]; simpl; [done|]. by rewrite Hfg, IH. Qed.

Lemma keep_app p l1 l2 : keep p (l1 ++ l2) = keep p l1 ++ keep p l2.
Proof. induction l1 as [|x l1 IH]; simpl; [done|]. case_if; [by rewrite IH|done]. Qed.

  (** How many elements satisfy [p]. *)
Definition count (p : A → bool) (l : list A) : Z := Z.of_nat (length (keep p l)).

Lemma count_snoc p l x : count p (l ++ [x]) = count p l + (if p x then 1 else 0).
Proof. unfold count. rewrite keep_app, length_app. simpl. case_if; simpl; lia. Qed.

Lemma count_nonneg p l : 0 ≤ count p l.
Proof. unfold count. lia. Qed.

Lemma count_pos p l : 0 < count p l ↔ ∃ x, x ∈ l ∧ p x = true.
Proof.
    unfold count. split.
    - intros H. destruct (keep p l) as [|x l'] eqn:E; [simpl in H; lia|].
      exists x. apply elem_of_keep. rewrite E. set_solver.
    - intros (x & Hx & Hp). assert (x ∈ keep p l) as Hk by by apply elem_of_keep.
      destruct (keep p l); [by apply elem_of_nil in Hk|]. simpl. lia.
Qed.

Lemma count_zero p l : count p l = 0 ↔ Forall (λ x, p x = false) l.
Proof.
    pose proof (count_nonneg p l) as H0. rewrite Forall_forall. split.
    - intros H x Hx. destruct (p x) eqn:Hp; [|done].
      assert (0 < count p l) by (apply count_pos; eauto). lia.
    - intros H. destruct (decide (0 < count p l)) as [(x & Hx & Hp)%count_pos|]; [|lia].
      rewrite (H x Hx) in Hp. done.
Qed.

Lemma count_ext f g l : (∀ x, x ∈ l → f x = g x) → count f l = count g l.
Proof.
    intros H. unfold count. do 2 f_equal. induction l as [|x l IH]; simpl; [done|].
    rewrite (H x), IH by set_solver. done.
Qed.

Lemma count_update f g l x :
    NoDup l → x ∈ l → (∀ y, y ≠ x → f y = g y) → g x = false →
    count f l = count g l + (if f x then 1 else 0).
Proof.
    intros Hnd Hx Hne Hg. apply list_elem_of_split in Hx as (l1 & l2 & ->).
    apply NoDup_app in Hnd as (_ & Hd & Hnd). apply NoDup_cons in Hnd as [H2 _].
    assert (Heq : ∀ l', x ∉ l' → count f l' = count g l').
    { intros l' Hx'. apply count_ext. intros y Hy. apply Hne. set_solver. }
    pose proof (Heq l1 ltac:(set_solver)) as E1. pose proof (Heq l2 H2) as E2.
    unfold count in *. rewrite !keep_app, !length_app. simpl. rewrite Hg.
    destruct (f x); simpl; lia.
Qed.

Lemma count_cons p x l : count p (x :: l) = (if p x then 1 else 0) + count p l.
Proof. unfold count. simpl. destruct (p x); simpl; lia. Qed.

Lemma count_plus p l1 l2 : count p (l1 ++ l2) = count p l1 + count p l2.
Proof. unfold count. rewrite keep_app, length_app. lia. Qed.

Lemma count_perm p l1 l2 : l1 ≡ₚ l2 → count p l1 = count p l2.
Proof. induction 1; rewrite ?count_cons; try lia; try congruence; done. Qed.

Lemma forallb_Forall p l : forallb p l = true ↔ Forall (λ x, p x = true) l.
Proof.
    induction l as [|y l IH]; simpl; [by rewrite Forall_nil|].
    by rewrite Forall_cons, andb_true_iff, IH.
Qed.

Lemma existsb_Exists p l : existsb p l = true ↔ ∃ x, x ∈ l ∧ p x = true.
Proof.
    induction l as [|y l IH]; simpl; [set_solver|].
    rewrite orb_true_iff, IH. set_solver.
Qed.
End lists.

(** [flat_map]: what the elements of a list hold together. *)
Section flat_map.
Context {A B C : Type}.

Lemma flat_map_perm (f : A → list B) l1 l2 : l1 ≡ₚ l2 → flat_map f l1 ≡ₚ flat_map f l2.
Proof.
  induction 1; simpl; [done|by apply Permutation_app_head| |by etrans].
  rewrite !app_assoc. apply Permutation_app_tail, Permutation_app_comm.
Qed.

Lemma flat_map_map (f : A → B) (g : B → list C) l : flat_map g (map f l) = flat_map (λ x, g (f x)) l.
Proof. induction l as [|x l IH]; simpl; [done|by rewrite IH]. Qed.

Lemma flat_map_single (l : list A) : flat_map (λ x, [x]) l = l.
Proof. induction l as [|x l IH]; simpl; [done|by rewrite IH]. Qed.

Lemma flat_map_nil (l : list A) : flat_map (λ _, [] : list B) l = [].
Proof. by induction l. Qed.

Lemma elem_of_flat_map (f : A → list B) l x : x ∈ flat_map f l ↔ ∃ y, y ∈ l ∧ x ∈ f y.
Proof.
  induction l as [|y l IH]; simpl.
  - split; [by intros ?%elem_of_nil|]. by intros (y & ?%elem_of_nil & _).
  - rewrite elem_of_app, IH. setoid_rewrite elem_of_cons. naive_solver.
Qed.
End flat_map.

(** [slices.Index] on strings: the first position, or -1. *)
Fixpoint Index (l : list string) (x : string) : Z :=
  match l with
  | [] => -1
  | y :: l' =>
      if bool_decide (y = x) then 0
      else let i := Index l' x in if i <? 0 then -1 else 1 + i
  end.

Lemma Index_range l x : -1 ≤ Index l x < Z.of_nat (length l).
Proof. induction l as [|y l IH]; simpl length; simpl Index; [lia|]. case_bool_decide; [lia|]. cases_lia. Qed.

Lemma Index_neg l x : Index l x < 0 ↔ x ∉ l.
Proof.
  induction l as [|y l IH]; simpl; [split; [set_solver|lia]|]. rewrite not_elem_of_cons, <- IH.
  case_bool_decide as Hy; [subst; split; [lia|naive_solver]|].
  case_if; zb; split; intros H; [split; [done|lia]|lia|lia|destruct H; lia].
Qed.

Lemma Index_lookup l x : x ∈ l → l !! Z.to_nat (Index l x) = Some x.
Proof.
  induction l as [|y l IH]; intros Hx; [by apply not_elem_of_nil in Hx|]. simpl.
  case_bool_decide; [by subst|]. assert (x ∈ l) as Hl by set_solver. pose proof (Index_neg l x).
  case_if; zb; [tauto|]. rewrite Z2Nat.inj_add by lia. by apply IH.
Qed.

Lemma Index_le l i x : l !! i = Some x → Index l x ≤ Z.of_nat i.
Proof.
  revert i. induction l as [|y l IH]; intros [|i]; simpl; try done.
  - intros [= ->]. rewrite bool_decide_true by done. lia.
  - intros Hi. specialize (IH i Hi). case_bool_decide; [lia|]. cases_lia.
Qed.

Lemma Index_inj l x y : x ∈ l → Index l x = Index l y → x = y.
Proof.
  induction l as [|z l IH]; simpl; [set_solver|]. intros Hx.
  pose proof (Index_range l x) as Rx. pose proof (Index_range l y) as Ry.
  case_bool_decide as Hz; [case_bool_decide; [congruence|cases_lia]|].
  assert (Hin : x ∈ l) by set_solver.
  assert (¬ Index l x < 0) by (rewrite Index_neg; auto).
  case_bool_decide; [cases_lia|]. intros H2. apply IH; [done|]. revert H2. cases_lia.
Qed.

(** ** Stable sorting

    [slices.SortStableFunc] and [sort.SliceStable]: the result they document,
    as insertion sort. [le x y] says that [y] is not before [x]. *)

Section stable_sort.
Context {A : Type} (le : A → A → bool).
Implicit Types l : list A.

Fixpoint stable_insert (x : A) (l : list A) : list A :=
  match l with
  | [] => [x]
  | y :: l' => if le x y then x :: y :: l' else y :: stable_insert x l'
  end.

Definition stable_sort (l : list A) : list A := foldr stable_insert [] l.

Lemma stable_insert_perm x l : stable_insert x l ≡ₚ x :: l.
Proof. induction l as [|y l IH]; simpl; [done|]. case_if; [done|]. rewrite IH. apply Permutation_swap. Qed.

Lemma stable_sort_perm l : stable_sort l ≡ₚ l.
Proof. induction l as [|x l IH]; simpl; [done|]. by rewrite stable_insert_perm, IH. Qed.

Context (le_total : ∀ x y, le x y = true ∨ le y x = true).
Context (le_trans : ∀ x y z, le x y = true → le y z = true → le x z = true).

Lemma stable_insert_sorted x l :
  StronglySorted (λ x y, le x y = true) l → StronglySorted (λ x y, le x y = true) (stable_insert x l).
Proof.
  induction 1 as [|y l Hl IH Hy]; simpl; [by repeat constructor|]. case_if.
  - constructor; [by constructor|]. constructor; [done|]. eapply Forall_impl; [exact Hy|]. eauto.
  - constructor; [done|]. rewrite stable_insert_perm. constructor; [|done].
    destruct (le_total x y); congruence.
Qed.

Lemma stable_sort_sorted l : StronglySorted (λ x y, le x y = true) (stable_sort l).
Proof. induction l; simpl; [constructor|]. by apply stable_insert_sorted. Qed.

(** Equal elements keep their order. *)
Lemma stable_sort_stable x l :
  keep (λ y, le x y && le y x) (stable_sort l) = keep (λ y, le x y && le y x) l.
Proof.
  induction l as [|z l IH]; simpl; [done|]. rewrite <- IH. clear IH. generalize (stable_sort l). intros s.
  induction s as [|y s IHs]; simpl; [done|]. destruct (le z y) eqn:Hzy; simpl; [done|]. rewrite IHs.
  destruct (le x y && le y x) eqn:Hy, (le x z && le z x) eqn:Hz; try done. zb.
  by rewrite (le_trans z x y) in Hzy.
Qed.

(** The order of the input does not matter when no two elements are equal. *)
Lemma stable_sort_unique l1 l2 :
  l1 ≡ₚ l2 → (∀ x y, x ∈ l1 → y ∈ l1 → le x y = true → le y x = true → x = y) →
  stable_sort l1 = stable_sort l2.
Proof.
  intros Hp Hanti. apply (StronglySorted_unique_strong (λ x y, le x y = true)); [|apply stable_sort_sorted..|].
  - intros x y. rewrite (stable_sort_perm l1), (stable_sort_perm l2), <- Hp. auto.
  - by rewrite !stable_sort_perm.
Qed.
End stable_sort.

(** ** Threads

    A system of threads is a map from thread ids to program points; [tally]
    sums a number each point counts for, such as the references it holds. *)

Section tally.
Context {P : Type} (w : P → Z).
Implicit Types T : gmap nat P.

Definition tally T : Z := map_fold (λ _ p n, w p + n) 0 T.

Lemma tally_insert_new T t p : T !! t = None → tally (<[t := p]> T) = w p + tally T.
Proof. intros Ht. unfold tally. rewrite map_fold_insert_L; [done| |done]. intros. lia. Qed.

Lemma tally_insert T t p p' :
  T !! t = Some p → tally (<[t := p']> T) = tally T - w p + w p'.
Proof.
  intros Ht. rewrite <- insert_delete_eq, tally_insert_new by apply lookup_delete_eq.
  rewrite <- (insert_id T t p Ht) at 2.
  rewrite <- insert_delete_eq, tally_insert_new by apply lookup_delete_eq. lia.
Qed.

Hypothesis w_nonneg : ∀ p, 0 ≤ w p.

Lemma tally_nonneg T : 0 ≤ tally T.
Proof.
  induction T as [|t p T Ht IH] using map_ind; [done|].
  rewrite tally_insert_new by done. specialize (w_nonneg p). lia.
Qed.

Lemma tally_ge T t p : T !! t = Some p → w p ≤ tally T.
Proof.
  intros Ht. rewrite <- (insert_id T t p Ht), <- insert_delete_eq.
  rewrite tally_insert_new by apply lookup_delete_eq.
  pose proof (tally_nonneg (delete t T)). lia.
Qed.

Lemma tally_two T t t' p p' :
  t ≠ t' → T !! t = Some p → T !! t' = Some p' → w p + w p' ≤ tally T.
Proof.
  intros Hne Ht Ht'. rewrite <- (insert_id T t p Ht), <- insert_delete_eq.
  rewrite tally_insert_new by apply lookup_delete_eq.
  assert (Hd : delete t T !! t' = Some p') by (rewrite lookup_delete_ne by done; exact Ht').
  pose proof (tally_ge _ _ _ Hd). lia.
Qed.

Lemma tally_zero T : (∀ t p, T !! t = Some p → w p = 0) → tally T = 0.
Proof.
  induction T as [|t p T Ht IH] using map_ind; intros Hall; [done|].
  rewrite tally_insert_new, (Hall t p) by (done || apply lookup_insert_eq).
  rewrite IH; [done|]. intros t' p' Hp'. apply (Hall t'). rewrite lookup_insert_ne; congruence.
Qed.
End tally.
