(* ===== verification/GoString.v ===== *)
(** * Go strings

    A Go string is a sequence of bytes; here a Rocq [string], one [ascii] per
    byte. This file defines the functions of Go's [strings], [unicode/utf8] and
    [regexp] packages the modelled code uses: UTF-8 decoding and encoding, trimming,
    case mapping, splitting, joining and search. The Unicode character
    database is data outside the language, so the case mappings of the
    characters beyond ASCII are the fields of the class [UnicodeData]. *)

From stdpp Require Import base gmap strings list pretty.
From Stdlib Require Import ZArith Lia Ascii.
From S2P Require Import Prelude.

Open Scope string_scope.
Open Scope list_scope.
Open Scope Z_scope.

(** ** Bytes *)

Definition byte_val (c : ascii) : Z := Z.of_N (N_of_ascii c).
Definition byte_of (z : Z) : ascii := ascii_of_N (Z.to_N (z mod 256)).

Definition bytes (s : string) : list ascii := String.list_ascii_of_string s.
Definition of_bytes (l : list ascii) : string := String.string_of_list_ascii l.

(** [len(s)]. *)
Definition len (s : string) : Z := Z.of_nat (String.length s).

Definition in_range (lo hi b : Z) : bool := (lo <=? b) && (b <=? hi).

(** ** UTF-8 *)

Definition rune_error : Z := 65533.

(** [utf8.DecodeRuneInString] on a non-empty string: the rune and its width in
    bytes; [(RuneError, 1)] for an invalid encoding. *)
Definition decode_rune (s : string) : Z * nat :=
  match s with
  | EmptyString => (rune_error, 0%nat)
  | String c0 s1 =>
    let b0 := byte_val c0 in
    let bad := (rune_error, 1%nat) in
    if b0 <? 128 then (b0, 1%nat)
    else match s1 with
    | EmptyString => bad
    | String c1 s2 =>
      let b1 := byte_val c1 in
      if in_range 194 223 b0 then
        if in_range 128 191 b1
        then (Z.lor (Z.shiftl (Z.land b0 31) 6) (Z.land b1 63), 2%nat)
        else bad
      else match s2 with
      | EmptyString => bad
      | String c2 s3 =>
        let b2 := byte_val c2 in
        if in_range 224 239 b0 then
          let lo := if b0 =? 224 then 160 else 128 in
          let hi := if b0 =? 237 then 159 else 191 in
          if in_range lo hi b1 && in_range 128 191 b2
          then (Z.lor (Z.shiftl (Z.land b0 15) 12)
                  (Z.lor (Z.shiftl (Z.land b1 63) 6) (Z.land b2 63)), 3%nat)
          else bad
        else match s3 with
        | EmptyString => bad
        | String c3 _ =>
          let b3 := byte_val c3 in
          let lo := if b0 =? 240 then 144 else 128 in
          let hi := if b0 =? 244 then 143 else 191 in
          if in_range 240 244 b0 && in_range lo hi b1
             && in_range 128 191 b2 && in_range 128 191 b3
          then (Z.lor (Z.shiftl (Z.land b0 7) 18)
                  (Z.lor (Z.shiftl (Z.land b1 63) 12)
                    (Z.lor (Z.shiftl (Z.land b2 63) 6) (Z.land b3 63))), 4%nat)
          else bad
        end
      end
    end
  end.

(** [[]rune(s)]: [skip] counts the bytes left of the rune last decoded. *)
Fixpoint runes_skip (skip : nat) (s : string) : list Z :=
  match s with
  | EmptyString => []
  | String c s' =>
    match skip with
    | S k => runes_skip k s'
    | O => let '(r, w) := decode_rune s in r :: runes_skip (w - 1) s'
    end
  end.

Definition runes (s : string) : list Z := runes_skip 0 s.

(** [utf8.AppendRune] / [string(r)]. *)
Definition encode_rune (r : Z) : string :=
  let b z := byte_of z in
  let cont z := b (Z.lor 128 (Z.land z 63)) in
  if in_range 0 127 r then String (b r) ""
  else if in_range 128 2047 r then
    String (b (Z.lor 192 (Z.shiftr r 6))) (String (cont r) "")
  else if in_range 2048 65535 r && negb (in_range 55296 57343 r) then
    String (b (Z.lor 224 (Z.shiftr r 12)))
      (String (cont (Z.shiftr r 6)) (String (cont r) ""))
  else if in_range 65536 1114111 r then
    String (b (Z.lor 240 (Z.shiftr r 18)))
      (String (cont (Z.shiftr r 12))
        (String (cont (Z.shiftr r 6)) (String (cont r) "")))
  else String (b 239) (String (b 191) (String (b 189) "")).

(** [string(rs)]. *)
Definition of_runes (rs : list Z) : string :=
  foldr (λ r acc, encode_rune r +:+ acc) "" rs.

Definition is_ascii (s : string) : bool :=
  forallb (λ c, byte_val c <? 128) (bytes s).

(** ** Case mapping *)

(** The part of the Unicode character database the code reaches through
    [unicode.ToLower] and [unicode.SimpleFold]: the lower case of a character
    beyond ASCII, and whether two characters, one of them beyond ASCII, are
    equal under simple case folding. *)
Class UnicodeData := {
  lower_ext : Z → Z;
  fold_ext : Z → Z → bool
}.

(** The instance used where a concrete one is needed: no character beyond ASCII has
    a case. *)
Definition ascii_only : UnicodeData :=
  {| lower_ext := λ r, r; fold_ext := λ a b, a =? b |}.

Definition is_upper (b : Z) : bool := in_range 65 90 b.
Definition is_lower (b : Z) : bool := in_range 97 122 b.
Definition is_digit (b : Z) : bool := in_range 48 57 b.

Definition lower_byte (c : ascii) : ascii :=
  if is_upper (byte_val c) then byte_of (byte_val c + 32) else c.

Section unicode.
Context `{UnicodeData}.

Definition rune_lower (r : Z) : Z :=
    if r <? 128 then (if is_upper r then r + 32 else r) else lower_ext r.

  (** [strings.ToLower]: bytewise on an ASCII string, rune by rune otherwise
      (an invalid byte becomes U+FFFD). *)
Definition ToLower (s : string) : string :=
    if is_ascii s then of_bytes (map lower_byte (bytes s))
    else of_runes (map rune_lower (runes s)).

Definition rune_fold_eq (a b : Z) : bool :=
    (a =? b) ||
    (if (a <? 128) && (b <? 128) then rune_lower a =? rune_lower b
     else fold_ext a b).

Fixpoint fold_eq_runes (xs ys : list Z) : bool :=
    match xs, ys with
    | [], [] => true
    | x :: xs', y :: ys' => rune_fold_eq x y && fold_eq_runes xs' ys'
    | _, _ => false
    end.

  (** [strings.EqualFold]. *)
Definition EqualFold (s t : string) : bool := fold_eq_runes (runes s) (runes t).
End unicode.

(** ** Trimming *)

Definition ascii_space (c : ascii) : bool :=
  in_range 9 13 (byte_val c) || (byte_val c =? 32).

(** The UTF-8 encodings of the white space beyond ASCII ([unicode.IsSpace]):
    U+0085, U+00A0; U+1680, U+2000 to U+200A, U+2028, U+2029, U+202F, U+205F,
    U+3000. *)
Definition space2 (c0 c1 : ascii) : bool :=
  (byte_val c0 =? 194) && ((byte_val c1 =? 133) || (byte_val c1 =? 160)).

Definition space3 (c0 c1 c2 : ascii) : bool :=
  let b0 := byte_val c0 in let b1 := byte_val c1 in let b2 := byte_val c2 in
  ((b0 =? 225) && (b1 =? 154) && (b2 =? 128))
  || ((b0 =? 226) && (b1 =? 128) &&
        (in_range 128 138 b2 || (b2 =? 168) || (b2 =? 169) || (b2 =? 175)))
  || ((b0 =? 226) && (b1 =? 129) && (b2 =? 159))
  || ((b0 =? 227) && (b1 =? 128) && (b2 =? 128)).

Section trim.
Variables (sp1 : ascii → bool) (sp2 : ascii → ascii → bool)
            (sp3 : ascii → ascii → ascii → bool).

Fixpoint drop_space (l : list ascii) : list ascii :=
    match l with
    | [] => []
    | c0 :: l1 =>
      if sp1 c0 then drop_space l1
      else match l1 with
      | [] => l
      | c1 :: l2 =>
        if sp2 c0 c1 then drop_space l2
        else match l2 with
        | [] => l
        | c2 :: l3 => if sp3 c0 c1 c2 then drop_space l3 else l
        end
      end
    end.
End trim.

Definition trim_left_space (l : list ascii) : list ascii :=
  drop_space ascii_space space2 space3 l.

(** Trimming on the right is trimming the reversed bytes on the left. *)
Definition trim_right_space (l : list ascii) : list ascii :=
  rev (drop_space ascii_space (λ a b, space2 b a) (λ a b c, space3 c b a) (rev l)).

(** [strings.TrimSpace]. *)
Definition TrimSpace (s : string) : string :=
  of_bytes (trim_right_space (trim_left_space (bytes s))).

(** Whether white space starts here. *)
Definition starts_space (l : list ascii) : bool :=
  match l with
  | [] => false
  | c0 :: l1 =>
    ascii_space c0
    || match l1 with
       | [] => false
       | c1 :: l2 =>
         space2 c0 c1 || match l2 with [] => false | c2 :: _ => space3 c0 c1 c2 end
       end
  end.

(** The token at the front and what follows it. *)
Fixpoint take_token (l : list ascii) : list ascii * list ascii :=
  match l with
  | [] => ([], [])
  | c :: l' =>
    if starts_space l then ([], l)
    else let '(tok, rest) := take_token l' in (c :: tok, rest)
  end.

(** [strings.Fields]; the fuel, one more than the length, is enough: [fields_go_fuel]. *)
Fixpoint fields_go (fuel : nat) (l : list ascii) : list string :=
  match fuel with
  | O => []
  | S fuel' =>
    match trim_left_space l with
    | [] => []
    | l' => let '(tok, rest) := take_token l' in of_bytes tok :: fields_go fuel' rest
    end
  end.

Definition Fields (s : string) : list string := fields_go (S (String.length s)) (bytes s).

Fixpoint drop_while (p : ascii → bool) (l : list ascii) : list ascii :=
  match l with
  | [] => []
  | c :: l' => if p c then drop_while p l' else l
  end.

Definition in_cutset (cut : string) (c : ascii) : bool :=
  existsb (Ascii.eqb c) (bytes cut).

(** [strings.TrimLeft], [strings.TrimRight] and [strings.Trim] with an ASCII
    cutset. *)
Definition TrimLeft (s cut : string) : string :=
  of_bytes (drop_while (in_cutset cut) (bytes s)).
Definition TrimRight (s cut : string) : string :=
  of_bytes (rev (drop_while (in_cutset cut) (rev (bytes s)))).
Definition Trim (s cut : string) : string := TrimRight (TrimLeft s cut) cut.

(** ** Search, splitting and joining *)

Fixpoint HasPrefix (s p : string) : bool :=
  match p, s with
  | EmptyString, _ => true
  | String a p', String b s' => Ascii.eqb a b && HasPrefix s' p'
  | _, EmptyString => false
  end.

(** [strings.Split] with a one-byte separator: never empty. *)
Fixpoint split_byte (sep : ascii) (l : list ascii) : list (list ascii) :=
  match l with
  | [] => [[]]
  | c :: l' =>
    if Ascii.eqb c sep then [] :: split_byte sep l'
    else match split_byte sep l' with
         | w :: ws => (c :: w) :: ws
         | [] => [[c]]
         end
  end.

Definition Split (s : string) (sep : ascii) : list string :=
  map of_bytes (split_byte sep (bytes s)).

(** [strings.SplitN] with a one-byte separator and [n > 0]. *)
Fixpoint splitn_byte (n : nat) (sep : ascii) (l : list ascii) : list (list ascii) :=
  match n with
  | O => []
  | 1%nat => [l]
  | S n' =>
    (fix go (acc l : list ascii) : list (list ascii) :=
       match l with
       | [] => [rev acc]
       | c :: l' => if Ascii.eqb c sep then rev acc :: splitn_byte n' sep l'
                    else go (c :: acc) l'
       end) [] l
  end.

Definition SplitN (s : string) (sep : ascii) (n : nat) : list string :=
  map of_bytes (splitn_byte n sep (bytes s)).

(** [strings.Join]. *)
Fixpoint Join (l : list string) (sep : string) : string :=
  match l with
  | [] => ""
  | [s] => s
  | s :: l' => s +:+ sep +:+ Join l' sep
  end.

(** Decimal rendering of an integer ([strconv.Itoa], [%d]). *)
Definition itoa (z : Z) : string := pretty z.

(** [re.ReplaceAllString(s, r)] for an expression [[^...]+] that matches the
    maximal runs of characters outside a set of ASCII characters. Every byte of
    a character beyond ASCII, and every invalid byte, is 128 or more, so the
    runs of characters are the runs of bytes outside the set. *)
Fixpoint replace_runs (bad : ascii → bool) (r : list ascii) (in_run : bool)
    (l : list ascii) : list ascii :=
  match l with
  | [] => []
  | c :: l' =>
    if bad c then (if in_run then [] else r) ++ replace_runs bad r true l'
    else c :: replace_runs bad r false l'
  end.

(** ** Lemmas *)

Lemma of_bytes_bytes s : of_bytes (bytes s) = s.
Proof. apply String.string_of_list_ascii_of_string. Qed.

Lemma bytes_of_bytes l : bytes (of_bytes l) = l.
Proof. apply String.list_ascii_of_string_of_list_ascii. Qed.

Lemma bytes_length s : length (bytes s) = String.length s.
Proof. induction s as [|c s IH]; [done|]. simpl. by f_equal. Qed.

Lemma of_bytes_length l : String.length (of_bytes l) = length l.
Proof. by rewrite <- bytes_length, bytes_of_bytes. Qed.

Lemma len_of_bytes l : len (of_bytes l) = Z.of_nat (length l).
Proof. unfold len. by rewrite of_bytes_length. Qed.

Lemma len_bytes s : len s = Z.of_nat (length (bytes s)).
Proof. unfold len. by rewrite bytes_length. Qed.

Lemma of_bytes_inj l1 l2 : of_bytes l1 = of_bytes l2 → l1 = l2.
Proof. intros H. by rewrite <- (bytes_of_bytes l1), H, bytes_of_bytes. Qed.

Lemma bytes_inj s t : bytes s = bytes t → s = t.
Proof. intros H. by rewrite <- (of_bytes_bytes s), H, of_bytes_bytes. Qed.

Lemma bytes_app s t : bytes (s +:+ t) = (bytes s ++ bytes t)%list.
Proof. induction s as [|c s IH]; [done|]. change (c :: bytes (s +:+ t) = (c :: bytes s ++ bytes t)%list). by rewrite IH. Qed.

Lemma len_nonneg s : 0 ≤ len s.
Proof. unfold len. lia. Qed.

Lemma drop_while_Forall p (l : list ascii) (Q : ascii → Prop) :
  Forall Q l → Forall Q (drop_while p l).
Proof.
  induction 1 as [|c l Hc Hl IH]; simpl; [done|]. case_if; [done|]. by constructor.
Qed.

Lemma drop_while_length p (l : list ascii) : (length (drop_while p l) ≤ length l)%nat.
Proof. induction l as [|c l IH]; simpl; [lia|]. case_if; simpl; lia. Qed.

Lemma drop_while_hd p (l : list ascii) c l' :
  drop_while p l = c :: l' → p c = false.
Proof. induction l as [|d l IH]; simpl; [done|]. case_if; [done|]. naive_solver. Qed.

Lemma drop_while_id p (l : list ascii) :
  (∀ c l', l = c :: l' → p c = false) → drop_while p l = l.
Proof. destruct l as [|c l]; intros H; simpl; [done|]. by rewrite (H c l). Qed.

Lemma byte_of_val c : byte_of (byte_val c) = c.
Proof.
  unfold byte_of, byte_val. pose proof (N_ascii_bounded c).
  rewrite Z.mod_small, N2Z.id by lia. apply ascii_N_embedding.
Qed.

Lemma byte_val_of z : 0 ≤ z < 256 → byte_val (byte_of z) = z.
Proof.
  intros Hz. unfold byte_of, byte_val. rewrite Z.mod_small by lia.
  rewrite N_ascii_embedding by lia. lia.
Qed.

Lemma byte_val_inj c d : byte_val c = byte_val d → c = d.
Proof. intros H. by rewrite <- (byte_of_val c), H, byte_of_val. Qed.

Lemma byte_val_range c : 0 ≤ byte_val c < 256.
Proof. unfold byte_val. pose proof (N_ascii_bounded c). lia. Qed.

(** *** ASCII strings *)

Definition ascii_byte (c : ascii) : Prop := byte_val c < 128.

Lemma runes_ascii (l : list ascii) :
  Forall ascii_byte l → runes (of_bytes l) = map byte_val l.
Proof.
  unfold runes. induction 1 as [|c l Hc _ IH]; [done|].
  unfold ascii_byte in Hc. cbn.
  rewrite (proj2 (Z.ltb_lt _ _) Hc). cbn. by f_equal.
Qed.

Lemma encode_rune_ascii r : 0 ≤ r < 128 → encode_rune r = String (byte_of r) "".
Proof.
  intros Hr. unfold encode_rune, in_range.
  rewrite (proj2 (Z.leb_le 0 r)), (proj2 (Z.leb_le r 127)) by lia. done.
Qed.

Lemma of_runes_ascii (rs : list Z) :
  Forall (λ r, 0 ≤ r < 128) rs → of_runes rs = of_bytes (map byte_of rs).
Proof.
  induction 1 as [|r rs Hr _ IH]; [done|].
  change (of_runes (r :: rs)) with (encode_rune r +:+ of_runes rs).
  by rewrite encode_rune_ascii, IH by done.
Qed.

(** *** Trimming with a cutset *)

Definition trim_right_bytes (p : ascii → bool) (l : list ascii) : list ascii :=
  rev (drop_while p (rev l)).

Lemma trim_right_prefix p l : ∃ k, l = trim_right_bytes p l ++ k.
Proof.
  unfold trim_right_bytes.
  assert (H : ∀ m : list ascii, ∃ k, m = k ++ drop_while p m).
  { induction m as [|c m [k IH]]; simpl; [by exists []|].
    case_if; [exists (c :: k); simpl; by f_equal | by exists []]. }
  destruct (H (rev l)) as [k Hk]. exists (rev k).
  by rewrite <- rev_app_distr, <- Hk, rev_involutive.
Qed.

Lemma trim_right_Forall p (Q : ascii → Prop) l :
  Forall Q l → Forall Q (trim_right_bytes p l).
Proof.
  destruct (trim_right_prefix p l) as [k Hk]. rewrite Hk at 1.
  by intros [? _]%Forall_app.
Qed.

Lemma trim_right_length p l :
  (List.length (trim_right_bytes p l) ≤ List.length l)%nat.
Proof.
  unfold trim_right_bytes. rewrite length_rev.
  etrans; [apply drop_while_length|]. by rewrite length_rev.
Qed.

(** A first byte outside the cutset survives trimming on the right. *)
Lemma trim_right_keeps_head p c l :
  p c = false → ∃ l', trim_right_bytes p (c :: l) = c :: l'.
Proof.
  intros Hc. unfold trim_right_bytes. simpl.
  assert (H : ∀ m : list ascii, ∃ m', drop_while p (m ++ [c]) = m' ++ [c]).
  { induction m as [|d m [m' IH]]; simpl; [exists []; by rewrite Hc|].
    case_if; [by exists m' | by exists (d :: m)]. }
  destruct (H (rev l)) as [m' ->]. exists (rev m'). by rewrite rev_app_distr.
Qed.

Lemma trim_right_nil p : trim_right_bytes p [] = [].
Proof. done. Qed.

Lemma TrimRight_bytes s cut :
  TrimRight s cut = of_bytes (trim_right_bytes (in_cutset cut) (bytes s)).
Proof. done. Qed.

Lemma Trim_bytes s cut :
  bytes (Trim s cut) =
  trim_right_bytes (in_cutset cut) (drop_while (in_cutset cut) (bytes s)).
Proof. unfold Trim, TrimLeft, TrimRight. by rewrite !bytes_of_bytes. Qed.

Lemma replace_runs_Forall bad r b (Q : ascii → Prop) l :
  Forall Q r → (∀ c, bad c = false → Q c) → Forall Q (replace_runs bad r b l).
Proof.
  intros Hr HQ. revert b. induction l as [|c l IH]; intros b; simpl; [done|].
  destruct (bad c) eqn:Hc; [|constructor; auto].
  apply Forall_app. split; [by destruct b|]. apply IH.
Qed.

(** *** Trimming white space *)

Definition plain_byte (c : ascii) : Prop := ascii_byte c ∧ ascii_space c = false.

Lemma space2_ascii c0 c1 : ascii_byte c0 ∨ ascii_byte c1 → space2 c0 c1 = false.
Proof.
  unfold ascii_byte, space2. intros H. apply not_true_is_false.
  rewrite andb_true_iff, orb_true_iff, !Z.eqb_eq. lia.
Qed.

Lemma space3_ascii c0 c1 c2 : ascii_byte c0 ∨ ascii_byte c2 → space3 c0 c1 c2 = false.
Proof.
  unfold ascii_byte, space3, in_range. intros H. apply not_true_is_false.
  rewrite !orb_true_iff, !andb_true_iff, !orb_true_iff, !andb_true_iff, !Z.leb_le, !Z.eqb_eq.
  lia.
Qed.

Lemma drop_space_id sp2 sp3 c l :
  ascii_space c = false → (∀ d, sp2 c d = false) → (∀ d e, sp3 c d e = false) →
  drop_space ascii_space sp2 sp3 (c :: l) = c :: l.
Proof.
  intros Hc H2 H3. simpl. rewrite Hc. destruct l as [|d l]; [done|].
  rewrite H2. destruct l as [|e l]; [done|]. by rewrite H3.
Qed.

(** A string that starts and ends with a plain ASCII character is unchanged. *)
Lemma TrimSpace_id (l : list ascii) c d l1 l2 :
  l = c :: l1 → l = l2 ++ [d] → plain_byte c → plain_byte d →
  TrimSpace (of_bytes l) = of_bytes l.
Proof.
  intros Hl1 Hl2 [Hc Hcs] [Hd Hds]. unfold TrimSpace, trim_left_space, trim_right_space.
  rewrite bytes_of_bytes. f_equal.
  assert (drop_space ascii_space space2 space3 l = l) as ->.
  { rewrite Hl1. apply drop_space_id; intros; [done|apply space2_ascii|apply space3_ascii]; auto. }
  rewrite Hl2, rev_app_distr. change (rev [d] ++ rev l2) with (d :: rev l2).
  rewrite drop_space_id; intros.
  - simpl. by rewrite rev_involutive.
  - done.
  - apply space2_ascii; auto.
  - apply space3_ascii; auto.
Qed.

(** *** Fields *)

Lemma trim_left_space_spec l :
  (length (trim_left_space l) ≤ length l)%nat ∧ starts_space (trim_left_space l) = false.
Proof.
  unfold trim_left_space. remember (length l) as n eqn:Hn.
  revert l Hn. induction n as [n IH] using lt_wf_ind. intros l ->.
  destruct l as [|c0 l1]; [done|]. cbn [drop_space].
  destruct (ascii_space c0) eqn:H0.
  { destruct (IH (length l1) ltac:(simpl; lia) l1 eq_refl) as [? ?]. split; [simpl; lia|done]. }
  destruct l1 as [|c1 l2]; [simpl; by rewrite H0|].
  destruct (space2 c0 c1) eqn:H1.
  { destruct (IH (length l2) ltac:(simpl; lia) l2 eq_refl) as [? ?]. split; [simpl; lia|done]. }
  destruct l2 as [|c2 l3]; [simpl; by rewrite H0, H1|].
  destruct (space3 c0 c1 c2) eqn:H2.
  { destruct (IH (length l3) ltac:(simpl; lia) l3 eq_refl) as [? ?]. split; [simpl; lia|done]. }
  split; [done|]. simpl. by rewrite H0, H1, H2.
Qed.

Lemma take_token_length l : (length (take_token l).2 ≤ length l)%nat.
Proof.
  induction l as [|c l IH]; [done|]. cbn [take_token]. destruct (starts_space (c :: l)); [done|].
  destruct (take_token l). simpl in *. lia.
Qed.

(** More fuel than bytes gives the fields. *)
Lemma fields_go_fuel fuel fuel' l :
  (length l < fuel)%nat → (length l < fuel')%nat → fields_go fuel l = fields_go fuel' l.
Proof.
  revert fuel' l. induction fuel as [|fuel IH]; intros fuel' l Hl Hl'; [lia|].
  destruct fuel' as [|fuel']; [lia|]. cbn [fields_go].
  destruct (trim_left_space_spec l) as [Hlen Hs].
  destruct (trim_left_space l) as [|c l1]; [done|].
  cbn [take_token]. rewrite Hs. pose proof (take_token_length l1).
  destruct (take_token l1) as [tok rest]. simpl in *. f_equal. apply IH; lia.
Qed.

(** *** Splitting *)

Lemma split_byte_app sep l1 l2 :
  sep ∉ l1 → split_byte sep (l1 ++ sep :: l2) = l1 :: split_byte sep l2.
Proof.
  induction l1 as [|c l1 IH]; intros Hni; simpl.
  - by rewrite Ascii.eqb_refl.
  - rewrite not_elem_of_cons in Hni. destruct Hni as [Hne Hni].
    destruct (Ascii.eqb_spec c sep); [congruence|]. by rewrite IH.
Qed.

Lemma split_byte_none sep l : sep ∉ l → split_byte sep l = [l].
Proof.
  induction l as [|c l IH]; intros Hni; simpl; [done|].
  rewrite not_elem_of_cons in Hni. destruct Hni as [Hne Hni].
  destruct (Ascii.eqb_spec c sep); [congruence|]. by rewrite IH.
Qed.

(** *** Decimal digits *)

Lemma app_sep_inj (x : ascii) l1 l2 d1 d2 :
  l1 ++ x :: d1 = l2 ++ x :: d2 → x ∉ d1 → x ∉ d2 → d1 = d2.
Proof.
  revert l2. induction l1 as [|c l1 IH]; intros [|c' l2]; simpl; intros H H1 H2;
    injection H; intros; subst; set_solver.
Qed.

Lemma pretty_N_char_digit n : is_digit (byte_val (pretty_N_char n)) = true.
Proof. destruct n as [|p]; [done|]. do 4 (try (destruct p as [p|p|]; try reflexivity)). Qed.

Lemma pretty_N_go_digits (k : nat) (x : N) (s : string) :
  (x < 10 ^ N.of_nat k)%N →
  ∃ d, bytes (pretty_N_go x s) = d ++ bytes s ∧ (List.length d ≤ k)%nat ∧
       Forall (λ c, is_digit (byte_val c) = true) d ∧ (x ≠ 0%N → d ≠ []).
Proof.
  revert x s. induction k as [|k IH]; intros x s Hx.
  - assert (x = 0%N) as -> by (simpl in Hx; lia).
    exists []. rewrite pretty_N_go_0. by repeat split; [simpl; lia|constructor|].
  - destruct (decide (x = 0%N)) as [->|Hne].
    { exists []. rewrite pretty_N_go_0. by repeat split; [simpl; lia|constructor|]. }
    rewrite pretty_N_go_step by lia.
    destruct (IH (x `div` 10)%N (String (pretty_N_char (x `mod` 10)) s)) as (d & Hd & Hlen & Hall & _).
    { rewrite Nat2N.inj_succ, N.pow_succ_r' in Hx.
      apply N.Div0.div_lt_upper_bound; lia. }
    exists (d ++ [pretty_N_char (x `mod` 10)]). repeat split.
    + rewrite Hd, <- app_assoc. done.
    + rewrite length_app. simpl. lia.
    + apply Forall_app. split; [done|]. constructor; [apply pretty_N_char_digit|constructor].
    + intros _. by destruct d.
Qed.

(** [strconv.Itoa] of a non-negative number below [10 ^ k] is at most [k]
    digits, [k > 0]. *)
Lemma itoa_digits (k : nat) z :
  0 ≤ z < 10 ^ Z.of_nat k → (0 < k)%nat →
  (List.length (bytes (itoa z)) ≤ k)%nat ∧ bytes (itoa z) ≠ [] ∧
  Forall (λ c, is_digit (byte_val c) = true) (bytes (itoa z)).
Proof.
  intros Hz Hk. destruct z as [|p|p]; [|clear Hk|lia].
  - split; [simpl; lia|]. split; [done|]. by repeat constructor.
  - change (itoa (Zpos p)) with (pretty_N_go (Npos p) "").
    destruct (pretty_N_go_digits k (Npos p) "") as (d & -> & Hlen & Hall & Hne); [lia|].
    rewrite app_nil_r. auto with lia.
Qed.

Lemma itoa_inj x y : itoa x = itoa y → x = y.
Proof. apply (inj pretty). Qed.

(** *** The value of decimal digits

    [strconv.Atoi] of a string of digits that fits. *)

Definition dec_value (l : list ascii) : Z := foldl (λ v c, 10 * v + (byte_val c - 48)) 0 l.

Lemma dec_value_snoc l c : dec_value (l ++ [c]) = 10 * dec_value l + (byte_val c - 48).
Proof. unfold dec_value. by rewrite foldl_app. Qed.

Lemma dec_value_zeros n l : dec_value (replicate n "0"%char ++ l) = dec_value l.
Proof.
  unfold dec_value. rewrite foldl_app. f_equal.
  induction n as [|n IH]; simpl; [done|]. exact IH.
Qed.

Lemma pretty_N_char_value n : (n < 10)%N → byte_val (pretty_N_char n) = 48 + Z.of_N n.
Proof.
  intros Hn. assert (n ∈ [0;1;2;3;4;5;6;7;8;9]%N) as Hin.
  { apply list_elem_of_In. simpl. lia. }
  repeat (apply elem_of_cons in Hin as [->|Hin]; [done|]). by apply elem_of_nil in Hin.
Qed.

Lemma pretty_N_go_value (k : nat) (x : N) (s : string) :
  (x < 10 ^ N.of_nat k)%N →
  ∃ d, bytes (pretty_N_go x s) = d ++ bytes s ∧ dec_value d = Z.of_N x.
Proof.
  revert x s. induction k as [|k IH]; intros x s Hx.
  - assert (x = 0%N) as -> by (simpl in Hx; lia). exists []. by rewrite pretty_N_go_0.
  - destruct (decide (x = 0%N)) as [->|Hne]; [exists []; by rewrite pretty_N_go_0|].
    rewrite pretty_N_go_step by lia.
    destruct (IH (x `div` 10)%N (String (pretty_N_char (x `mod` 10)) s)) as (d & Hd & Hv).
    { rewrite Nat2N.inj_succ, N.pow_succ_r' in Hx.
      apply N.Div0.div_lt_upper_bound; lia. }
    exists (d ++ [pretty_N_char (x `mod` 10)]). split; [by rewrite Hd, <- app_assoc|].
    rewrite dec_value_snoc, Hv, pretty_N_char_value by (apply N.mod_lt; lia).
    pose proof (N.div_mod' x 10). lia.
Qed.

Lemma dec_value_itoa z : 0 ≤ z → dec_value (bytes (itoa z)) = z.
Proof.
  intros Hz. destruct z as [|p|p]; [done| |lia].
  change (itoa (Zpos p)) with (pretty_N_go (Npos p) "").
  destruct (pretty_N_go_value (S (N.to_nat (Npos p))) (Npos p) "") as (d & -> & Hv).
  { rewrite Nat2N.inj_succ, N2Nat.id.
    apply N.lt_trans with (N.succ (Npos p)); [lia|]. apply N.pow_gt_lin_r. lia. }
  by rewrite app_nil_r.
Qed.

(** [fmt.Sprintf("%0wd", z)]: at least [w] characters, zeros after the sign. *)
Definition zero_pad (w : nat) (z : Z) : string :=
  let digits := itoa (Z.abs z) in
  let sign := if z <? 0 then "-" else "" in
  sign +:+ of_bytes (replicate (w - String.length sign - String.length digits) "0"%char) +:+ digits.

Lemma zero_pad_bytes w z :
  0 ≤ z → bytes (zero_pad w z) = replicate (w - List.length (bytes (itoa z))) "0"%char ++ bytes (itoa z).
Proof.
  intros Hz. unfold zero_pad. rewrite Z.abs_eq by done.
  destruct (z <? 0) eqn:Hs; zb; [lia|].
  change ("" +:+ ?x) with x. rewrite bytes_app, bytes_of_bytes, bytes_length.
  do 2 f_equal. simpl. lia.
Qed.

Lemma zero_pad_value w z : 0 ≤ z → dec_value (bytes (zero_pad w z)) = z.
Proof. intros Hz. by rewrite zero_pad_bytes, dec_value_zeros, dec_value_itoa. Qed.

Lemma zero_pad_inj w x y : 0 ≤ x → 0 ≤ y → zero_pad w x = zero_pad w y → x = y.
Proof.
  intros Hx Hy H. rewrite <- (zero_pad_value w x), <- (zero_pad_value w y) by done. by rewrite H.
Qed.

Lemma itoa_all_digits z : 0 ≤ z → Forall (λ c, is_digit (byte_val c) = true) (bytes (itoa z)).
Proof.
  intros Hz. destruct (itoa_digits (S (Z.to_nat z)) z) as (_ & _ & H); [|lia|done].
  split; [done|]. rewrite Nat2Z.inj_succ, Z2Nat.id by done.
  apply Z.lt_trans with (Z.succ z); [lia|]. apply Z.pow_gt_lin_r; lia.
Qed.

Lemma zero_pad_digits w z : 0 ≤ z → Forall (λ c, is_digit (byte_val c) = true) (bytes (zero_pad w z)).
Proof.
  intros Hz. rewrite zero_pad_bytes by done. apply Forall_app. split; [|by apply itoa_all_digits].
  by apply Forall_replicate.
Qed.

Lemma zero_pad_length w z :
  0 ≤ z < 10 ^ Z.of_nat w → (0 < w)%nat → List.length (bytes (zero_pad w z)) = w.
Proof.
  intros Hz Hw. rewrite zero_pad_bytes by lia. rewrite length_app, length_replicate.
  destruct (itoa_digits w z Hz Hw) as (Hlen & _). lia.
Qed.

(** *** Prefixes and the order of names *)

Lemma HasPrefix_bytes s p : HasPrefix s p = true ↔ ∃ k, bytes s = bytes p ++ k.
Proof.
  revert s. induction p as [|c p IH]; intros s.
  { split; [|by destruct s]. intros _. by exists (bytes s). }
  destruct s as [|c' s]; [split; [done|]; by intros (k & ?)|].
  change (HasPrefix (String c' s) (String c p)) with (Ascii.eqb c c' && HasPrefix s p).
  rewrite andb_true_iff, Ascii.eqb_eq, IH. split.
  - intros (-> & k & Hk). exists k. simpl. by f_equal.
  - intros (k & Hk). injection Hk as -> Hk. eauto.
Qed.

Lemma dec_value_from v l :
  foldl (λ v c, 10 * v + (byte_val c - 48)) v l = v * 10 ^ Z.of_nat (List.length l) + dec_value l.
Proof.
  unfold dec_value. induction l as [|c l IH] using rev_ind; [simpl; lia|].
  rewrite !foldl_app, length_app. simpl. rewrite IH.
  rewrite Nat2Z.inj_add, Z.pow_add_r by lia. simpl. lia.
Qed.

Lemma dec_value_cons c l : dec_value (c :: l) = (byte_val c - 48) * 10 ^ Z.of_nat (List.length l) + dec_value l.
Proof.
  change (dec_value (c :: l)) with (foldl (λ v c, 10 * v + (byte_val c - 48)) (10 * 0 + (byte_val c - 48)) l).
  rewrite dec_value_from. lia.
Qed.

Lemma dec_value_range l :
  Forall (λ c, is_digit (byte_val c) = true) l → 0 ≤ dec_value l < 10 ^ Z.of_nat (List.length l).
Proof.
  induction 1 as [|c l Hc _ IH]; [split; [done|reflexivity]|].
  rewrite dec_value_cons. unfold is_digit, in_range in Hc. simpl List.length.
  rewrite Nat2Z.inj_succ, Z.pow_succ_r by lia. zb.
  remember (10 ^ Z.of_nat (List.length l)) as p. clear Heqp.
  remember (byte_val c - 48) as b. assert (0 ≤ b ≤ 9) by lia. nia.
Qed.

(** Numbers written with the same number of digits sort as names in the order
    of their values. *)
Lemma digits_name_le l1 l2 u :
  Forall (λ c, is_digit (byte_val c) = true) l1 → Forall (λ c, is_digit (byte_val c) = true) l2 →
  List.length l1 = List.length l2 → dec_value l1 ≤ dec_value l2 →
  String.le (of_bytes (l1 ++ u)) (of_bytes (l2 ++ u)).
Proof.
  intros H1. revert l2. induction H1 as [|c1 l1 Hc1 H1 IH]; intros l2 H2 Hlen Hle.
  { destruct l2; [reflexivity|done]. }
  destruct H2 as [|c2 l2 Hc2 H2]; [done|]. injection Hlen as Hlen.
  rewrite !dec_value_cons, Hlen in Hle.
  pose proof (dec_value_range _ H1) as R1. pose proof (dec_value_range _ H2) as R2. rewrite Hlen in R1.
  change (Is_true (String.leb (String c1 (of_bytes (l1 ++ u))) (String c2 (of_bytes (l2 ++ u))))).
  unfold String.leb. simpl. destruct (Ascii.compare c1 c2) eqn:Hc.
  - apply Ascii.compare_eq_iff in Hc as ->. apply IH; [done..|]. nia.
  - done.
  - exfalso. unfold Ascii.compare in Hc. apply N.compare_gt_iff in Hc. unfold byte_val in *.
    assert (Z.of_N (N_of_ascii c2) + 1 ≤ Z.of_N (N_of_ascii c1)) by lia. nia.
Qed.
