(* ===== verification/AgentIds.v ===== *)
(** * Agent identifiers (config/agent_id.go, routing/agent_id.go, routing/session_key.go)

    An agent id is normalised once into its identity and every comparison goes
    through that identity. Shown here: the normalised id is always valid and
    normalising is idempotent, comparing ids is a partial equivalence, the
    search for a free id ends and gives a valid unused id, and the session key
    built from an id gives the id back. *)

From stdpp Require Import base gmap strings list pretty.
From Stdlib Require Import ZArith Lia Ascii.
From S2P Require Import Prelude GoString.

Open Scope string_scope.
Open Scope list_scope.
Open Scope Z_scope.

(** ** The agent id rule *)

Definition defaultAgentID : string := "main".
Definition maxAgentIDLength : Z := 64.

(** The characters of [asciiSpace], as bytes: space, tab, newline, vertical tab, form feed,
    carriage return. *)
Definition asciiSpace : string := of_bytes (map byte_of [32; 9; 10; 11; 12; 13]).

Definition id_alnum (c : ascii) : bool :=
  is_lower (byte_val c) || is_upper (byte_val c) || is_digit (byte_val c).

Definition id_dash (c : ascii) : bool := (byte_val c =? 45) || (byte_val c =? 95).

Definition id_char (c : ascii) : bool := id_alnum c || id_dash c.

(** The loop of [ValidAgentID] from index [i]. *)
Fixpoint valid_from (i : Z) (l : list ascii) : bool :=
  match l with
  | [] => true
  | c :: l' =>
    if id_alnum c then valid_from (i + 1) l'
    else if id_dash c && (0 <? i) then valid_from (i + 1) l'
    else false
  end.

Definition ValidAgentID (id : string) : bool :=
  if bool_decide (id = "") || (maxAgentIDLength <? len id) then false
  else valid_from 0 (bytes id).

Definition asciiLower (s : string) : string :=
  of_runes (map (λ r, if is_upper r then r + 32 else r) (runes s)).

(** [agentIDInvalidCharsRe.ReplaceAllString(id, "-")]. *)
Definition replace_invalid (l : list ascii) : list ascii :=
  replace_runs (λ c, negb (id_char c)) (bytes "-") false l.

Definition repairAgentID (id : string) : string :=
  let result := Trim (of_bytes (replace_invalid (bytes id))) "-_" in
  if maxAgentIDLength <? len result
  then TrimRight (of_bytes (take (Z.to_nat maxAgentIDLength) (bytes result))) "-_"
  else result.

Definition NormalizeAgentID (id : string) : string :=
  if ValidAgentID id then asciiLower id
  else let repaired := repairAgentID id in
       if bool_decide (repaired = "") then defaultAgentID
       else asciiLower repaired.

Definition SameAgentID (a b : string) : bool :=
  if bool_decide (Trim a asciiSpace = "") || bool_decide (Trim b asciiSpace = "")
  then false
  else bool_decide (NormalizeAgentID a = NormalizeAgentID b).

(** [SubagentsConfig.Allows]; [None] is the nil receiver. *)
Fixpoint allow_list (l : list string) (agentID : string) : bool :=
  match l with
  | [] => false
  | allowed :: l' =>
    if bool_decide (allowed = "*") || SameAgentID allowed agentID then true
    else allow_list l' agentID
  end.

Definition Allows (AllowAgents : option (list string)) (agentID : string) : bool :=
  match AllowAgents with
  | None => false
  | Some l => allow_list l agentID
  end.

(** ** Free ids *)

(** The candidate [freeAgentID] tries for [n]. *)
Definition free_candidate (id : string) (n : Z) : string :=
  let suffix := "-" +:+ itoa n in
  let base :=
    if maxAgentIDLength <? len id + len suffix
    then TrimRight (of_bytes (take (Z.to_nat (maxAgentIDLength - len suffix)) (bytes id))) "-_"
    else id in
  base +:+ suffix.

(** The loop [for n := 2; ; n++], with fuel. *)
Fixpoint free_loop (fuel : nat) (id : string) (taken : string → bool) (n : Z)
    : option string :=
  match fuel with
  | O => None
  | S fuel' =>
    let candidate := free_candidate id n in
    if negb (taken candidate) then Some candidate
    else free_loop fuel' id taken (n + 1)
  end.

Definition freeAgentID (fuel : nat) (id : string) (taken : string → bool)
    : option string :=
  if negb (taken id) then Some id else free_loop fuel id taken 2.

(** [otherAgentHas]: [ids] are the ids of [agents.list], [skip] an index. *)
Definition otherAgentHas (ids : list string) (skip : nat) (id : string) : bool :=
  existsb (λ p, negb (Nat.eqb p.1 skip) && SameAgentID p.2 id)
    (combine (seq 0 (List.length ids)) ids).

(** ** Account ids and session keys *)

Definition DefaultAgentID : string := "main".
Definition DefaultMainKey : string := "main".
Definition DefaultAccountID : string := "default".
Definition MaxAgentIDLength : Z := 64.

Definition account_alnum (c : ascii) : bool :=
  is_lower (byte_val c) || is_digit (byte_val c).

Definition account_char (c : ascii) : bool := account_alnum c || id_dash c.

(** [validIDRe.MatchString]: [^[a-z0-9][a-z0-9_-]{0,63}$]. *)
Definition validIDRe (s : string) : bool :=
  match bytes s with
  | [] => false
  | c :: l => account_alnum c && forallb account_char l && (len s <=? 64)
  end.

Definition is_dash (c : ascii) : bool := byte_val c =? 45.

Definition NormalizeAccountID `{UnicodeData} (id : string) : string :=
  let trimmed := TrimSpace id in
  if bool_decide (trimmed = "") then DefaultAccountID
  else
    let lower := ToLower trimmed in
    if validIDRe lower then lower
    else
      let l := replace_runs (λ c, negb (account_char c)) (bytes "-") false (bytes lower) in
      let l := drop_while is_dash l in
      let l := rev (drop_while is_dash (rev l)) in
      let l := if MaxAgentIDLength <? Z.of_nat (List.length l)
               then take (Z.to_nat MaxAgentIDLength) l else l in
      let result := of_bytes l in
      if bool_decide (result = "") then DefaultAccountID else result.

Definition BuildAgentMainSessionKey (agentID : string) : string :=
  "agent:" +:+ NormalizeAgentID agentID +:+ ":" +:+ DefaultMainKey.

Definition ResolveAgentSessionKey (agentID requested : string) : string :=
  BuildAgentMainSessionKey agentID.

Definition colon : ascii := ":"%char.

Definition AgentIDFromSessionKey (sessionKey : string) : string :=
  let parts := Split (TrimSpace sessionKey) colon in
  match parts with
  | p0 :: p1 :: _ =>
    if negb (bool_decide (p0 = "agent")) then ""
    else let id := TrimSpace p1 in
         if bool_decide (id = "") || bool_decide (id = DefaultMainKey) then "" else id
  | _ => ""
  end.

Definition ParseAgentSessionKey (sessionKey : string) : option (string * string) :=
  let raw := TrimSpace sessionKey in
  if bool_decide (raw = "") then None
  else match SplitN raw colon 3 with
  | [p0; p1; rest] =>
    if negb (bool_decide (p0 = "agent")) then None
    else let agentID := TrimSpace p1 in
         if bool_decide (agentID = "") || bool_decide (rest = "") then None
         else Some (agentID, rest)
  | _ => None
  end.

Example norm_mixed : NormalizeAgentID "Bob" = "bob".
Proof. reflexivity. Qed.
Example norm_repair : NormalizeAgentID " My Agent! " = "my-agent".
Proof. reflexivity. Qed.
Example norm_blank : NormalizeAgentID "///" = "main".
Proof. reflexivity. Qed.
Example free_bob : freeAgentID 3 "bob" (otherAgentHas ["Bob"; "bob-2"; "x"] 2) = Some "bob-3".
Proof. reflexivity. Qed.
Example key_bob : AgentIDFromSessionKey (BuildAgentMainSessionKey "Bob") = "bob".
Proof. reflexivity. Qed.
Example acct : @NormalizeAccountID ascii_only "My Bot" = "my-bot".
Proof. reflexivity. Qed.

(** ** Lemmas *)

Ltac byte_lia :=
  unfold id_char, id_dash, id_alnum, is_lower, is_upper, is_digit, in_range,
    lower_byte, ascii_byte in *; zb; try lia.

Lemma id_char_ascii c : id_char c = true → ascii_byte c.
Proof.
  unfold id_char, id_dash, id_alnum, is_lower, is_upper, is_digit, in_range, ascii_byte.
  rewrite !orb_true_iff, !andb_true_iff, !Z.leb_le, !Z.eqb_eq. lia.
Qed.

Lemma id_alnum_char c : id_alnum c = true → id_char c = true.
Proof. unfold id_char. by intros ->. Qed.

Lemma lower_byte_val c : ascii_byte c →
  byte_val (lower_byte c) = if is_upper (byte_val c) then byte_val c + 32 else byte_val c.
Proof.
  unfold ascii_byte, lower_byte. intros Hc. pose proof (byte_val_range c).
  case_if; [|done]. apply byte_val_of. lia.
Qed.

Lemma id_alnum_spec c : id_alnum c = true ↔
  97 ≤ byte_val c ≤ 122 ∨ 65 ≤ byte_val c ≤ 90 ∨ 48 ≤ byte_val c ≤ 57.
Proof.
  unfold id_alnum, is_lower, is_upper, is_digit, in_range.
  rewrite !orb_true_iff, !andb_true_iff, !Z.leb_le. lia.
Qed.

Lemma id_char_spec c : id_char c = true ↔
  97 ≤ byte_val c ≤ 122 ∨ 65 ≤ byte_val c ≤ 90 ∨ 48 ≤ byte_val c ≤ 57
  ∨ byte_val c = 45 ∨ byte_val c = 95.
Proof.
  unfold id_char, id_dash. rewrite !orb_true_iff, id_alnum_spec, !Z.eqb_eq. lia.
Qed.

Lemma is_upper_spec b : is_upper b = true ↔ 65 ≤ b ≤ 90.
Proof. unfold is_upper, in_range. rewrite andb_true_iff, !Z.leb_le. lia. Qed.

Lemma lower_byte_id_alnum c : id_alnum c = true → id_alnum (lower_byte c) = true.
Proof.
  intros Hc. pose proof (id_char_ascii _ (id_alnum_char _ Hc)) as Ha.
  rewrite id_alnum_spec in *. rewrite lower_byte_val by done.
  destruct (is_upper (byte_val c)) eqn:Hu; [rewrite is_upper_spec in Hu|]; lia.
Qed.

Lemma lower_byte_id_char c : id_char c = true → id_char (lower_byte c) = true.
Proof.
  intros Hc. pose proof (id_char_ascii _ Hc) as Ha.
  rewrite id_char_spec in *. rewrite lower_byte_val by done.
  destruct (is_upper (byte_val c)) eqn:Hu; [rewrite is_upper_spec in Hu|]; lia.
Qed.

Lemma lower_byte_idemp c : ascii_byte c → lower_byte (lower_byte c) = lower_byte c.
Proof.
  intros Ha. unfold lower_byte at 1. rewrite lower_byte_val by done.
  destruct (is_upper (byte_val c)) eqn:Hu; [|by rewrite Hu].
  rewrite is_upper_spec in Hu.
  destruct (is_upper (byte_val c + 32)) eqn:Hv; [rewrite is_upper_spec in Hv; lia|done].
Qed.

Lemma asciiLower_bytes s :
  Forall ascii_byte (bytes s) → asciiLower s = of_bytes (map lower_byte (bytes s)).
Proof.
  intros H. unfold asciiLower. rewrite <- (of_bytes_bytes s) at 1.
  rewrite runes_ascii, map_map by done.
  rewrite of_runes_ascii.
  - rewrite map_map. f_equal. induction H as [|c l Hc _ IH]; [done|].
    simpl. f_equal; [|done]. unfold lower_byte. case_if; [done|apply byte_of_val].
  - rewrite Forall_map. eapply Forall_impl; [apply H|]. intros c Hc. simpl.
    pose proof (byte_val_range c). unfold ascii_byte in Hc.
    destruct (is_upper (byte_val c)) eqn:Hu; [rewrite is_upper_spec in Hu|]; lia.
Qed.

Lemma valid_from_pos i l : 0 < i → valid_from i l = forallb id_char l.
Proof.
  revert i. induction l as [|c l IH]; intros i Hi; simpl; [done|].
  unfold id_char at 1. rewrite (proj2 (Z.ltb_lt 0 i) Hi), andb_true_r.
  destruct (id_alnum c); simpl; [by rewrite IH by lia|].
  destruct (id_dash c); simpl; [by rewrite IH by lia|done].
Qed.

(** The shape of a valid id. *)
Inductive valid_id (l : list ascii) : Prop :=
| valid_id_intro c l' :
    l = c :: l' → id_alnum c = true → Forall (λ d, id_char d = true) l →
    (List.length l ≤ 64)%nat → valid_id l.

Lemma ValidAgentID_iff id : ValidAgentID id = true ↔ valid_id (bytes id).
Proof.
  unfold ValidAgentID, maxAgentIDLength. rewrite len_bytes. split.
  - case_if; [done|]. intros Hv. zb. rewrite bool_decide_eq_false in *.
    destruct (bytes id) as [|c l] eqn:Hb; [by destruct id|].
    simpl in Hv. rewrite andb_false_r, valid_from_pos in Hv by lia.
    destruct (id_alnum c) eqn:Hc; [|done].
    econstructor; [done|done| |simpl in *; lia].
    constructor; [by apply id_alnum_char|].
    by apply forallb_Forall.
  - intros [c l Hl Hc Hall Hlen]. rewrite Hl in *.
    rewrite bool_decide_eq_false_2 by (by intros ->).
    rewrite (proj2 (Z.ltb_ge _ _)) by lia. simpl. rewrite Hc.
    rewrite valid_from_pos by lia. apply forallb_Forall.
    by apply Forall_cons in Hall as [_ ?].
Qed.

Lemma valid_id_ascii l : valid_id l → Forall ascii_byte l.
Proof. intros [c l' _ _ H _]. eapply Forall_impl; [apply H|]. apply id_char_ascii. Qed.

Lemma valid_id_lower l : valid_id l → valid_id (map lower_byte l).
Proof.
  intros [c l' -> Hc Hall Hlen]. econstructor; [done|by apply lower_byte_id_alnum| |].
  - change (Forall (λ d, id_char d = true) (map lower_byte (c :: l'))).
    rewrite Forall_map. eapply Forall_impl; [apply Hall|]. apply lower_byte_id_char.
  - simpl in *. by rewrite length_map.
Qed.

(** Trimming "-" and "_" from id characters leaves nothing, or a first
    character that is a letter or digit. *)
Definition in_dashes (c : ascii) : bool := in_cutset "-_" c.

Lemma in_dashes_spec c : in_dashes c = id_dash c.
Proof. by destruct c as [[] [] [] [] [] [] [] []]. Qed.

Lemma trim_dashes_shape l :
  Forall (λ c, id_char c = true) l →
  trim_right_bytes in_dashes (drop_while in_dashes l) = [] ∨
  ∃ c l', trim_right_bytes in_dashes (drop_while in_dashes l) = c :: l' ∧
    id_alnum c = true ∧ Forall (λ d, id_char d = true) (c :: l').
Proof.
  intros Hl. pose proof (drop_while_Forall in_dashes _ _ Hl) as Hd.
  destruct (drop_while in_dashes l) as [|c m] eqn:Hm; [by left|right].
  pose proof (drop_while_hd _ _ _ _ Hm) as Hc.
  destruct (trim_right_keeps_head in_dashes c m Hc) as [m' Hm'].
  exists c, m'. split; [done|]. rewrite <- Hm'.
  split; [|by apply trim_right_Forall].
  apply Forall_cons in Hd as [Hd _]. unfold id_char in Hd.
  rewrite in_dashes_spec in Hc. by rewrite Hc, orb_false_r in Hd.
Qed.

Lemma repairAgentID_shape id : repairAgentID id = "" ∨ valid_id (bytes (repairAgentID id)).
Proof.
  unfold repairAgentID, maxAgentIDLength. rewrite TrimRight_bytes, !len_bytes, !bytes_of_bytes.
  assert (Hall : Forall (λ c, id_char c = true) (replace_invalid (bytes id))).
  { apply replace_runs_Forall; [by repeat constructor|]. intros c. by rewrite negb_false_iff. }
  rewrite Trim_bytes, bytes_of_bytes.
  destruct (trim_dashes_shape _ Hall) as [Hr|(c & l & Hr & Hc & Hcl)];
    fold in_dashes; change (in_cutset "-_") with in_dashes; rewrite Hr.
  - left. simpl. apply bytes_inj. by rewrite Trim_bytes, bytes_of_bytes.
  - right. case_if; zb.
    + rewrite bytes_of_bytes. change (Z.to_nat 64) with 64%nat. cbn [take].
      destruct (trim_right_keeps_head in_dashes c (take 63 l)) as [m Hm].
      { rewrite in_dashes_spec. rewrite id_alnum_spec in Hc. unfold id_dash.
        apply orb_false_iff. rewrite !Z.eqb_neq. lia. }
      rewrite Hm. econstructor; [done|done| |].
      * rewrite <- Hm. apply trim_right_Forall. apply (Forall_take _ 64%nat) in Hcl.
        done.
      * rewrite <- Hm. etrans; [apply trim_right_length|]. simpl.
        rewrite length_take. lia.
    + rewrite Trim_bytes, bytes_of_bytes. change (in_cutset "-_") with in_dashes.
      rewrite Hr. econstructor; [done|done|done|lia].
Qed.

Lemma NormalizeAgentID_shape id :
  ∃ l, valid_id l ∧ NormalizeAgentID id = of_bytes (map lower_byte l).
Proof.
  unfold NormalizeAgentID. case_if.
  - rewrite ValidAgentID_iff in *. exists (bytes id).
    split; [done|]. by apply asciiLower_bytes, valid_id_ascii.
  - case_if.
    + exists (bytes "main"). split; [|done].
      by apply ValidAgentID_iff.
    + rewrite bool_decide_eq_false in *.
      destruct (repairAgentID_shape id) as [?|Hv]; [done|].
      eexists. split; [apply Hv|]. by apply asciiLower_bytes, valid_id_ascii.
Qed.

Lemma NormalizeAgentID_valid_id id : valid_id (bytes (NormalizeAgentID id)).
Proof.
  destruct (NormalizeAgentID_shape id) as (l & Hl & ->).
  rewrite bytes_of_bytes. by apply valid_id_lower.
Qed.

Lemma NormalizeAgentID_idemp id :
  NormalizeAgentID (NormalizeAgentID id) = NormalizeAgentID id.
Proof.
  pose proof (NormalizeAgentID_valid_id id) as Hv.
  unfold NormalizeAgentID at 1. rewrite (proj2 (ValidAgentID_iff _) Hv).
  rewrite asciiLower_bytes by (by apply valid_id_ascii).
  destruct (NormalizeAgentID_shape id) as (l & Hl & ->). rewrite bytes_of_bytes.
  f_equal. rewrite map_map. apply valid_id_ascii in Hl.
  induction Hl as [|c l Hc _ IH]; [done|]. simpl. f_equal; [by apply lower_byte_idemp|done].
Qed.

(** *** Free ids *)

Lemma id_alnum_digit c : is_digit (byte_val c) = true → id_alnum c = true.
Proof. unfold id_alnum. intros ->. apply orb_true_r. Qed.

Lemma lower_byte_digit c : is_digit (byte_val c) = true → lower_byte c = c.
Proof.
  unfold lower_byte, is_digit, in_range. intros H. zb.
  destruct (is_upper (byte_val c)) eqn:Hu; [rewrite is_upper_spec in Hu; lia|done].
Qed.

Definition dash : ascii := "-"%char.

(** The number of candidates considered: a Go [int] counter. *)
Definition counter_bound : Z := 2 ^ 63.

Lemma itoa_counter n :
  0 ≤ n < counter_bound →
  (List.length (bytes (itoa n)) ≤ 19)%nat ∧
  Forall (λ c, is_digit (byte_val c) = true) (bytes (itoa n)).
Proof.
  intros Hn. destruct (itoa_digits 19 n) as (? & _ & ?); [|lia|done].
  unfold counter_bound in Hn. change (Z.of_nat 19) with 19. lia.
Qed.

Lemma len_suffix n : len ("-" +:+ itoa n) = 1 + Z.of_nat (List.length (bytes (itoa n))).
Proof. rewrite len_bytes, bytes_app, length_app. simpl. lia. Qed.

(** The base of a candidate is a valid id, short enough for its suffix. *)
Lemma free_candidate_shape id n :
  valid_id (bytes id) → 0 ≤ n < counter_bound →
  ∃ c base, bytes (free_candidate id n) = (c :: base) ++ dash :: bytes (itoa n) ∧
    id_alnum c = true ∧ Forall (λ d, id_char d = true) (c :: base) ∧
    Z.of_nat (List.length (c :: base)) + len ("-" +:+ itoa n) ≤ 64.
Proof.
  intros [c l Hl Hc Hall Hlen] Hn. unfold free_candidate, maxAgentIDLength.
  destruct (itoa_counter n Hn) as [Hd _].
  rewrite bytes_app. rewrite (bytes_app "-" (itoa n)). change (bytes "-") with [dash].
  pose proof (len_suffix n) as Hsuf.
  case_if; zb.
  - rewrite TrimRight_bytes, !bytes_of_bytes, Hl.
    destruct (Z.to_nat (64 - len ("-" +:+ itoa n))) as [|k] eqn:Hk; [lia|]. simpl.
    destruct (trim_right_keeps_head (in_cutset "-_") c (take k l)) as [m Hm].
    { change (in_cutset "-_" c) with (in_dashes c). rewrite in_dashes_spec.
      rewrite id_alnum_spec in Hc. unfold id_dash.
      apply orb_false_iff. rewrite !Z.eqb_neq. lia. }
    exists c, m. rewrite Hm. split_and!; [done|done| |].
    + rewrite <- Hm. apply trim_right_Forall. rewrite Hl in Hall.
      by apply (Forall_take _ (S k)) in Hall.
    + pose proof (trim_right_length (in_cutset "-_") (c :: take k l)) as Hle.
      rewrite Hm in Hle. simpl in *. rewrite length_take in Hle. lia.
  - exists c, l. rewrite Hl in *. rewrite len_bytes, Hl in Heqb. split_and!; [done|done|done|lia].
Qed.

Lemma free_candidate_valid id n :
  valid_id (bytes id) → 0 ≤ n < counter_bound → valid_id (bytes (free_candidate id n)).
Proof.
  intros Hid Hn. destruct (free_candidate_shape id n Hid Hn) as (c & b & Hb & Hc & Hall & Hlen).
  destruct (itoa_counter n Hn) as [_ Hd].
  econstructor; [rewrite Hb; done|done| |].
  - rewrite Hb. apply Forall_app. split; [done|]. constructor; [done|].
    eapply Forall_impl; [apply Hd|]. intros d Hdd. by apply id_alnum_char, id_alnum_digit.
  - rewrite Hb, length_app. rewrite len_suffix in Hlen. simpl in *. lia.
Qed.

(** Different counters give candidates that name different agents. *)
Lemma free_candidate_inj id n m :
  valid_id (bytes id) → 0 ≤ n < counter_bound → 0 ≤ m < counter_bound →
  NormalizeAgentID (free_candidate id n) = NormalizeAgentID (free_candidate id m) → n = m.
Proof.
  intros Hid Hn Hm.
  pose proof (free_candidate_valid id n Hid Hn) as Hvn.
  pose proof (free_candidate_valid id m Hid Hm) as Hvm.
  unfold NormalizeAgentID.
  rewrite (proj2 (ValidAgentID_iff _) Hvn), (proj2 (ValidAgentID_iff _) Hvm).
  rewrite !asciiLower_bytes by (by apply valid_id_ascii).
  intros Heq%of_bytes_inj.
  destruct (free_candidate_shape id n Hid Hn) as (c1 & b1 & Hb1 & _).
  destruct (free_candidate_shape id m Hid Hm) as (c2 & b2 & Hb2 & _).
  rewrite Hb1, Hb2, !map_app in Heq. simpl in Heq.
  assert (Hlow : ∀ k, 0 ≤ k < counter_bound →
    map lower_byte (bytes (itoa k)) = bytes (itoa k) ∧ dash ∉ bytes (itoa k)).
  { intros k Hk. destruct (itoa_counter k Hk) as [_ Hd]. split.
    - induction Hd as [|d l Hd1 _ IH]; [done|]. simpl. by rewrite lower_byte_digit, IH.
    - intros Hin. rewrite Forall_forall in Hd. by apply Hd in Hin. }
  destruct (Hlow n Hn) as [En ?]. destruct (Hlow m Hm) as [Em ?]. rewrite En, Em in Heq.
  change (lower_byte "-") with dash in Heq.
  apply (app_sep_inj dash (lower_byte c1 :: map lower_byte b1)
           (lower_byte c2 :: map lower_byte b2)) in Heq; [|done|done].
  by apply itoa_inj, bytes_inj.
Qed.

Lemma SameAgentID_norm a b :
  SameAgentID a b = true → NormalizeAgentID a = NormalizeAgentID b.
Proof. unfold SameAgentID. case_if; [done|]. by rewrite bool_decide_eq_true. Qed.

(** While the loop finds every candidate taken, each is taken by its own
    member of the list. *)
Lemma free_loop_result fuel id taken n :
  (∃ k, (k < fuel)%nat ∧ free_loop fuel id taken n = Some (free_candidate id (n + Z.of_nat k)) ∧
        taken (free_candidate id (n + Z.of_nat k)) = false) ∨
  (free_loop fuel id taken n = None ∧
   ∀ k, (k < fuel)%nat → taken (free_candidate id (n + Z.of_nat k)) = true).
Proof.
  revert n. induction fuel as [|fuel IH]; intros n; simpl.
  - right. split; [done|]. lia.
  - destruct (taken (free_candidate id n)) eqn:Ht; simpl.
    + destruct (IH (n + 1)) as [(k & Hk & Hr & Hf)|[Hr Hall]].
      * left. exists (S k). replace (n + Z.of_nat (S k)) with (n + 1 + Z.of_nat k) by lia.
        split; [lia|done].
      * right. split; [done|]. intros [|k] Hk; [by rewrite Z.add_0_r|].
        replace (n + Z.of_nat (S k)) with (n + 1 + Z.of_nat k) by lia. apply Hall. lia.
    + left. exists 0%nat. rewrite Z.add_0_r. split; [lia|done].
Qed.

Lemma otherAgentHas_elem ids skip id :
  otherAgentHas ids skip id = true → ∃ x, x ∈ ids ∧ SameAgentID x id = true.
Proof.
  unfold otherAgentHas. rewrite existsb_Exists. intros ([i x] & Hin & Hp).
  exists x. simpl in Hp. zb. split; [|done].
  rewrite list_elem_of_In in Hin. apply list_elem_of_In. by eapply in_combine_r.
Qed.

(** The candidates for 2, 3, ... up to one more than the number of agents
    cannot all be taken. *)
Lemma free_loop_total ids skip id :
  valid_id (bytes id) → Z.of_nat (List.length ids) + 3 < counter_bound →
  free_loop (S (List.length ids)) id (otherAgentHas ids skip) 2 ≠ None.
Proof.
  intros Hid Hlen Hnone.
  destruct (free_loop_result (S (List.length ids)) id (otherAgentHas ids skip) 2)
    as [(k & _ & Hr & _)|[_ Hall]]; [congruence|].
  set (cands := map (λ k, NormalizeAgentID (free_candidate id (2 + Z.of_nat k)))
                    (seq 0 (S (List.length ids)))).
  assert (Hnd : NoDup cands).
  { apply NoDup_fmap_2_strong; [|apply NoDup_seq].
    intros x y Hx%elem_of_seq Hy%elem_of_seq Heq.
    apply free_candidate_inj in Heq; [lia|done|lia|lia]. }
  assert (Hsub : cands ⊆ map NormalizeAgentID ids).
  { intros c Hc. apply list_elem_of_fmap in Hc as (k & -> & Hk%elem_of_seq).
    destruct (otherAgentHas_elem _ _ _ (Hall k ltac:(lia))) as (x & Hx & Hsame).
    apply list_elem_of_fmap. exists x. split; [|done]. symmetry. by apply SameAgentID_norm. }
  pose proof (submseteq_length _ _ (NoDup_submseteq _ _ Hnd Hsub)) as Hle.
  unfold cands in Hle. rewrite !length_map, length_seq in Hle. lia.
Qed.

(** *** Session keys *)

Lemma valid_id_plain l c :
  valid_id l → c ∈ l → plain_byte c ∧ c ≠ colon.
Proof.
  intros [d l' _ _ Hall _] Hin. rewrite Forall_forall in Hall.
  specialize (Hall c Hin). pose proof (id_char_ascii _ Hall) as Ha.
  rewrite id_char_spec in Hall. split; [split; [done|]|].
  - unfold ascii_space, in_range. apply orb_false_iff. rewrite andb_false_iff, !Z.leb_gt, Z.eqb_neq. lia.
  - intros ->. change (byte_val colon) with 58 in Hall. lia.
Qed.

Lemma valid_id_trim l : valid_id l → TrimSpace (of_bytes l) = of_bytes l.
Proof.
  intros Hv. pose proof Hv as [c l' Hl _ _ _].
  destruct (exists_last (l:=l)) as (l2 & d & Hd); [by rewrite Hl|].
  eapply TrimSpace_id; [apply Hl|apply Hd| |].
  - apply (valid_id_plain l); [done|rewrite Hl; set_solver].
  - apply (valid_id_plain l); [done|rewrite Hd; set_solver].
Qed.

Lemma main_key_bytes id :
  bytes (BuildAgentMainSessionKey id) =
  bytes "agent" ++ colon :: bytes (NormalizeAgentID id) ++ colon :: bytes "main".
Proof. unfold BuildAgentMainSessionKey. by rewrite !bytes_app. Qed.

Lemma main_key_trim id :
  TrimSpace (BuildAgentMainSessionKey id) = BuildAgentMainSessionKey id.
Proof.
  rewrite <- (of_bytes_bytes (BuildAgentMainSessionKey id)).
  eapply (TrimSpace_id _ "a"%char "n"%char).
  - rewrite main_key_bytes. reflexivity.
  - rewrite main_key_bytes. change (bytes "main") with (bytes "mai" ++ ["n"%char]).
    rewrite app_comm_cons, !app_assoc, app_comm_cons, !app_assoc. reflexivity.
  - done.
  - done.
Qed.

Lemma main_key_split id :
  split_byte colon (bytes (BuildAgentMainSessionKey id)) =
  [bytes "agent"; bytes (NormalizeAgentID id); bytes "main"].
Proof.
  rewrite main_key_bytes, split_byte_app by (by vm_compute; set_solver).
  rewrite split_byte_app; [done|]. intros Hin.
  by apply (valid_id_plain _ _ (NormalizeAgentID_valid_id id)) in Hin as [_ ?].
Qed.

Lemma NormalizeAgentID_nonempty id : NormalizeAgentID id ≠ "".
Proof. destruct (NormalizeAgentID_valid_id id) as [c l Hl _ _ _]. intros H. by rewrite H in Hl. Qed.

Lemma NormalizeAgentID_trim id : TrimSpace (NormalizeAgentID id) = NormalizeAgentID id.
Proof.
  pose proof (valid_id_trim _ (NormalizeAgentID_valid_id id)) as H.
  by rewrite of_bytes_bytes in H.
Qed.

Lemma splitn_go_app n sep acc l1 l2 :
  sep ∉ l1 →
  (fix go (acc l : list ascii) : list (list ascii) :=
     match l with
     | [] => [rev acc]
     | c :: l' => if Ascii.eqb c sep then rev acc :: splitn_byte n sep l'
                  else go (c :: acc) l'
     end) acc (l1 ++ sep :: l2) = (rev acc ++ l1) :: splitn_byte n sep l2.
Proof.
  revert acc. induction l1 as [|c l1 IH]; intros acc Hni; simpl.
  - by rewrite Ascii.eqb_refl, app_nil_r.
  - rewrite not_elem_of_cons in Hni. destruct Hni as [Hne Hni].
    destruct (Ascii.eqb_spec c sep); [congruence|].
    rewrite IH by done. simpl. by rewrite <- app_assoc.
Qed.

Lemma splitn_byte_app n sep l1 l2 :
  sep ∉ l1 → splitn_byte (S (S n)) sep (l1 ++ sep :: l2) = l1 :: splitn_byte (S n) sep l2.
Proof. intros H. exact (splitn_go_app (S n) sep [] l1 l2 H). Qed.

Lemma main_key_splitn id :
  splitn_byte 3 colon (bytes (BuildAgentMainSessionKey id)) =
  [bytes "agent"; bytes (NormalizeAgentID id); bytes "main"].
Proof.
  rewrite main_key_bytes, splitn_byte_app by (by vm_compute; set_solver).
  rewrite splitn_byte_app; [done|]. intros Hin.
  by apply (valid_id_plain _ _ (NormalizeAgentID_valid_id id)) in Hin as [_ ?].
Qed.

Lemma main_key_eq id id' :
  BuildAgentMainSessionKey id = BuildAgentMainSessionKey id' ↔
  NormalizeAgentID id = NormalizeAgentID id'.
Proof.
  split; [|unfold BuildAgentMainSessionKey; by intros ->].
  intros H. apply (f_equal (λ s, split_byte colon (bytes s))) in H.
  rewrite !main_key_split in H. injection H as H. by apply bytes_inj.
Qed.

Lemma SameAgentID_true a b :
  SameAgentID a b = true ↔
  Trim a asciiSpace ≠ "" ∧ Trim b asciiSpace ≠ "" ∧ NormalizeAgentID a = NormalizeAgentID b.
Proof.
  unfold SameAgentID.
  destruct (bool_decide (Trim a asciiSpace = "")) eqn:Ha;
    destruct (bool_decide (Trim b asciiSpace = "")) eqn:Hb; simpl;
    rewrite ?bool_decide_eq_true, ?bool_decide_eq_false in *; naive_solver.
Qed.

(** ** Properties *)

(** [NormalizeAgentID] turns any input into an id that satisfies the agent
    id rule and has no upper-case letter, and normalising again changes
    nothing: an agent has exactly one identity. *)
Theorem NormalizeAgentID_canonical (id : string) :
  ValidAgentID (NormalizeAgentID id) = true ∧
  NormalizeAgentID (NormalizeAgentID id) = NormalizeAgentID id ∧
  Forall (λ c, is_upper (byte_val c) = false) (bytes (NormalizeAgentID id)).
Proof.
  split_and!.
  - by apply ValidAgentID_iff, NormalizeAgentID_valid_id.
  - apply NormalizeAgentID_idemp.
  - destruct (NormalizeAgentID_shape id) as (l & Hl & ->).
    rewrite bytes_of_bytes, Forall_map. eapply Forall_impl; [by apply valid_id_ascii|].
    intros c Hc. simpl. rewrite lower_byte_val by done.
    destruct (is_upper (byte_val c)) eqn:Hu; [|done].
    apply is_upper_spec in Hu. apply not_true_is_false. rewrite is_upper_spec. lia.
Qed.

(** The search for a free agent id ends after at most one candidate more
    than there are agents, and gives a valid id no other agent has. *)
Theorem freeAgentID_finds (ids : list string) (skip : nat) (id : string)
  (Hid : ValidAgentID id = true)
  (Hlen : Z.of_nat (List.length ids) + 3 < counter_bound) :
  ∃ r, freeAgentID (S (List.length ids)) id (otherAgentHas ids skip) = Some r ∧
    otherAgentHas ids skip r = false ∧ ValidAgentID r = true.
Proof.
  unfold freeAgentID. destruct (otherAgentHas ids skip id) eqn:Ht; simpl negb.
  - apply ValidAgentID_iff in Hid.
    destruct (free_loop_result (S (List.length ids)) id (otherAgentHas ids skip) 2)
      as [(k & Hk & Hr & Hf)|[Hr _]]; [|by apply free_loop_total in Hr].
    eexists. split; [apply Hr|]. split; [done|].
    apply ValidAgentID_iff, free_candidate_valid; [done|lia].
  - eauto.
Qed.

Lemma freeAgentID_finds_witness :
  ∃ r, freeAgentID 4 "bob" (otherAgentHas ["Bob"; "BOB-2"; "x"] 2) = Some r ∧
    otherAgentHas ["Bob"; "BOB-2"; "x"] 2 r = false ∧ ValidAgentID r = true.
Proof.
  apply (freeAgentID_finds ["Bob"; "BOB-2"; "x"] 2 "bob"); [reflexivity|].
  unfold counter_bound. simpl. lia.
Defined.

(** The session key of an agent's one conversation determines the agent's
    identity: both parsers give the normalised id back (the short one answers
    the empty string for "main", so its caller uses the default), any
    requested session resolves to that same key, and two agents share a key
    exactly when they are the same agent. *)
Theorem session_key_roundtrip (id id' requested : string) :
  ParseAgentSessionKey (BuildAgentMainSessionKey id) = Some (NormalizeAgentID id, "main") ∧
  AgentIDFromSessionKey (ResolveAgentSessionKey id requested) =
    (if bool_decide (NormalizeAgentID id = "main") then "" else NormalizeAgentID id) ∧
  (BuildAgentMainSessionKey id = BuildAgentMainSessionKey id' ↔
   NormalizeAgentID id = NormalizeAgentID id').
Proof.
  pose proof (NormalizeAgentID_nonempty id) as Hne.
  split_and!; [| |apply main_key_eq].
  - unfold ParseAgentSessionKey, SplitN. rewrite main_key_trim, main_key_splitn.
    rewrite bool_decide_eq_false_2 by done. simpl map. rewrite !of_bytes_bytes, NormalizeAgentID_trim.
    by rewrite (bool_decide_eq_false_2 (NormalizeAgentID id = "")).
  - unfold AgentIDFromSessionKey, ResolveAgentSessionKey, Split.
    rewrite main_key_trim, main_key_split. simpl map. rewrite !of_bytes_bytes, NormalizeAgentID_trim.
    by rewrite (bool_decide_eq_false_2 (NormalizeAgentID id = "")).
Qed.
