(* ===== verification/Routing.v ===== *)
(** * Message routing (routing/route.go, config/human.go)

    Which agent handles an inbound message: the bindings of the message's
    channel and account are tried against eight criteria in order of priority,
    and the default agent takes what none matches. Shown here: the cascade
    implements the priority order as specified independently, the agent chosen
    is always a configured identity and the session is that agent's one
    conversation, the default agent is never a person where the configuration
    names another, and [Reaches] accepts every agent a message can be routed to. *)

From stdpp Require Import base gmap strings list.
From Stdlib Require Import ZArith Lia Ascii.
From S2P Require Import Prelude GoString AgentIds.

Open Scope string_scope.
Open Scope list_scope.
Open Scope Z_scope.

(** ** Configuration *)

Record PeerMatch := { pm_Kind : string; pm_ID : string }.

Record BindingMatch := {
  Channel : string;
  AccountID : string;
  Peer : option PeerMatch;
  GuildID : string;
  TeamID : string
}.

Record AgentBinding := {
  b_AgentID : string;
  AgentMentions : list string;
  Match : BindingMatch
}.

Record AgentConfig := {
  a_ID : string;
  a_Name : string;
  a_Enabled : option bool;
  a_Default : bool;
  a_Models : list string
}.

Record ModelConfig := { ModelName : string; m_Provider : string }.

Record Provider := { p_Name : string; Protocol : string }.

Record Config := {
  AgentsList : list AgentConfig;
  Bindings : list AgentBinding;
  Models : list ModelConfig;
  Providers : list Provider
}.

(** ** Human agents *)

Definition HumanProtocol : string := "human".

Definition IsHumanProtocol (protocol : string) : bool := bool_decide (protocol = HumanProtocol).

Definition GetProvider (c : Config) (name : string) : option Provider :=
  find_first (λ p, bool_decide (p_Name p = name)) (Providers c).

Definition modelIsHuman (c : Config) (m : ModelConfig) : bool :=
  match GetProvider c (m_Provider m) with
  | Some p => IsHumanProtocol (Protocol p)
  | None => false
  end.

Definition IsHumanModel (c : Config) (name : string) : bool :=
  let name := TrimSpace name in
  if bool_decide (name = "") then false
  else existsb (λ m, bool_decide (ModelName m = name) && modelIsHuman c m) (Models c).

Definition HumanModelOf (c : Config) (ac : option AgentConfig) : option string :=
  match ac with
  | None => None
  | Some ac => find_first (IsHumanModel c) (a_Models ac)
  end.

Definition AgentByID (c : Config) (agentID : string) : option AgentConfig :=
  find_first (λ a, SameAgentID (a_ID a) agentID) (AgentsList c).

Definition IsHumanAgent (c : Config) (agentID : string) : bool :=
  match HumanModelOf c (AgentByID c agentID) with Some _ => true | None => false end.

(** ** Routing *)

Record RoutePeer := { rp_Kind : string; rp_ID : string }.

Record RouteInput := {
  in_Channel : string;
  in_AccountID : string;
  in_Peer : option RoutePeer;
  in_ParentPeer : option RoutePeer;
  in_GuildID : string;
  in_TeamID : string;
  MentionedAgent : string
}.

Record ResolvedRoute := {
  r_AgentID : string;
  r_Channel : string;
  r_AccountID : string;
  SessionKey : string;
  MatchedBy : string
}.

Section routing.
Context `{UnicodeData}.

Definition matchesAccountID (matchAccountID actual : string) : bool :=
  let trimmed := TrimSpace matchAccountID in
  if bool_decide (trimmed = "") then bool_decide (actual = DefaultAccountID)
  else if bool_decide (trimmed = "*") then true
  else EqualFold trimmed actual.

Definition filterBindings (c : Config) (channel accountID : string) : list AgentBinding :=
  keep (λ b,
    let matchChannel := ToLower (TrimSpace (Channel (Match b))) in
    if bool_decide (matchChannel = "") || negb (bool_decide (matchChannel = channel))
    then false
    else matchesAccountID (AccountID (Match b)) accountID) (Bindings c).

Definition peer_matches (peer : RoutePeer) (b : AgentBinding) : bool :=
  match Peer (Match b) with
  | None => false
  | Some m =>
    let peerKind := ToLower (TrimSpace (pm_Kind m)) in
    let peerID := TrimSpace (pm_ID m) in
    if bool_decide (peerKind = "") || bool_decide (peerID = "") then false
    else bool_decide (peerKind = ToLower (rp_Kind peer)) && bool_decide (peerID = rp_ID peer)
  end.

Definition findPeerMatch (bindings : list AgentBinding) (peer : RoutePeer) : option AgentBinding :=
  find_first (peer_matches peer) bindings.

Definition peerKindOnlyMatches (m : option PeerMatch) (peer : option RoutePeer) : bool :=
  match m, peer with
  | Some m, Some peer =>
    if negb (bool_decide (TrimSpace (pm_ID m) = "")) then false
    else let kind := ToLower (TrimSpace (pm_Kind m)) in
         negb (bool_decide (kind = "")) &&
         bool_decide (kind = ToLower (TrimSpace (rp_Kind peer)))
  | _, _ => false
  end.

Definition findPeerKindMatch (bindings : list AgentBinding) (peer : RoutePeer)
    : option AgentBinding :=
  find_first (λ b, peerKindOnlyMatches (Peer (Match b)) (Some peer)) bindings.

Definition guild_matches (guildID : string) (b : AgentBinding) : bool :=
  let matchGuild := TrimSpace (GuildID (Match b)) in
  negb (bool_decide (matchGuild = "")) && bool_decide (matchGuild = guildID).

Definition findGuildMatch (bindings : list AgentBinding) (guildID : string)
    : option AgentBinding :=
  find_first (guild_matches guildID) bindings.

Definition team_matches (teamID : string) (b : AgentBinding) : bool :=
  let matchTeam := TrimSpace (TeamID (Match b)) in
  negb (bool_decide (matchTeam = "")) && bool_decide (matchTeam = teamID).

Definition findTeamMatch (bindings : list AgentBinding) (teamID : string)
    : option AgentBinding :=
  find_first (team_matches teamID) bindings.

(** A binding with no peer, guild or team criterion. *)
Definition broad (b : AgentBinding) : bool :=
  match Peer (Match b) with
  | Some _ => false
  | None => bool_decide (GuildID (Match b) = "") && bool_decide (TeamID (Match b) = "")
  end.

Definition account_matches (b : AgentBinding) : bool :=
  if bool_decide (TrimSpace (AccountID (Match b)) = "*") then false else broad b.

Definition findAccountMatch (bindings : list AgentBinding) : option AgentBinding :=
  find_first account_matches bindings.

Definition wildcard_matches (b : AgentBinding) : bool :=
  if negb (bool_decide (TrimSpace (AccountID (Match b)) = "*")) then false else broad b.

Definition findChannelWildcardMatch (bindings : list AgentBinding) : option AgentBinding :=
  find_first wildcard_matches bindings.

(** The first loop of [resolveDefaultAgentID]. *)
Definition marked_default (c : Config) (a : AgentConfig) : bool :=
  a_Default a && negb (IsHumanAgent c (a_ID a)) && negb (bool_decide (a_ID a = "")).

(** Its second loop: the first agent that is not human, if it has an id. *)
Fixpoint first_agent (c : Config) (l : list AgentConfig) : string :=
  match l with
  | [] => DefaultAgentID
  | a :: l' =>
    if IsHumanAgent c (a_ID a) then first_agent c l'
    else if negb (bool_decide (a_ID a = "")) then NormalizeAgentID (a_ID a)
    else DefaultAgentID
  end.

Definition resolveDefaultAgentID (c : Config) : string :=
  match AgentsList c with
  | [] => DefaultAgentID
  | agents =>
    match find_first (marked_default c) agents with
    | Some a => NormalizeAgentID (a_ID a)
    | None => first_agent c agents
    end
  end.

Definition pickAgentID (c : Config) (agentID : string) : string :=
  let trimmed := TrimSpace agentID in
  if bool_decide (trimmed = "") then resolveDefaultAgentID c
  else
    let normalized := NormalizeAgentID trimmed in
    match AgentsList c with
    | [] => normalized
    | agents =>
      if existsb (λ a, SameAgentID (a_ID a) normalized) agents then normalized
      else resolveDefaultAgentID c
    end.

(** The agent a binding's [agent_mentions] give a message that mentions one;
    [def] is the binding's own agent. *)
Fixpoint mention_override (mentions : list string) (mentioned def : string) : string :=
  match mentions with
  | [] => def
  | m :: mentions' =>
    if bool_decide (m = "*") then mentioned
    else if SameAgentID m mentioned then m
    else mention_override mentions' mentioned def
  end.

Definition mentioned_agent (input : RouteInput) (b : AgentBinding) : string :=
  if negb (bool_decide (MentionedAgent input = "")) && negb (bool_decide (AgentMentions b = []))
  then mention_override (AgentMentions b) (MentionedAgent input) (b_AgentID b)
  else b_AgentID b.

(** Whether [p] is present with an id that is not blank. *)
Definition peer_given (p : option RoutePeer) : option RoutePeer :=
  match p with
  | Some p => if bool_decide (TrimSpace (rp_ID p) = "") then None else Some p
  | None => None
  end.

Definition ResolveRoute (c : Config) (input : RouteInput) : ResolvedRoute :=
  let channel := ToLower (TrimSpace (in_Channel input)) in
  let accountID := NormalizeAccountID (in_AccountID input) in
  let bindings := filterBindings c channel accountID in
  let choose agentID matchedBy :=
    let resolvedAgentID := pickAgentID c agentID in
    {| r_AgentID := resolvedAgentID; r_Channel := channel; r_AccountID := accountID;
       SessionKey := ToLower (BuildAgentMainSessionKey resolvedAgentID);
       MatchedBy := matchedBy |} in
  let chooseWithMention b matchedBy := choose (mentioned_agent input b) matchedBy in
  (* Priority 1: peer binding *)
  match peer_given (in_Peer input) ≫= findPeerMatch bindings with
  | Some b => chooseWithMention b "binding.peer"
  | None =>
  (* Priority 2: parent peer binding *)
  match peer_given (in_ParentPeer input) ≫= findPeerMatch bindings with
  | Some b => chooseWithMention b "binding.peer.parent"
  | None =>
  (* Priority 3: peer kind binding *)
  match in_Peer input ≫= findPeerKindMatch bindings with
  | Some b => chooseWithMention b "binding.peer.kind"
  | None =>
  (* Priority 4: guild binding *)
  let guildID := TrimSpace (in_GuildID input) in
  match (if bool_decide (guildID = "") then None else findGuildMatch bindings guildID) with
  | Some b => chooseWithMention b "binding.guild"
  | None =>
  (* Priority 5: team binding *)
  let teamID := TrimSpace (in_TeamID input) in
  match (if bool_decide (teamID = "") then None else findTeamMatch bindings teamID) with
  | Some b => chooseWithMention b "binding.team"
  | None =>
  (* Priority 6: account binding *)
  match findAccountMatch bindings with
  | Some b => chooseWithMention b "binding.account"
  | None =>
  (* Priority 7: channel wildcard binding *)
  match findChannelWildcardMatch bindings with
  | Some b => chooseWithMention b "binding.channel"
  | None =>
  (* Priority 8: default agent *)
  choose (resolveDefaultAgentID c) "default"
  end end end end end end end.

Definition bindingMatches (b : AgentBinding) (input : RouteInput) : bool :=
  match Peer (Match b) with
  | Some m =>
    let kind := ToLower (TrimSpace (pm_Kind m)) in
    let id := TrimSpace (pm_ID m) in
    if bool_decide (kind = "") then false
    else if bool_decide (id = "") then peerKindOnlyMatches (Some m) (in_Peer input)
    else existsb (λ p,
           match p with
           | Some p => bool_decide (ToLower (rp_Kind p) = kind) && bool_decide (rp_ID p = id)
           | None => false
           end) [in_Peer input; in_ParentPeer input]
  | None =>
    if negb (bool_decide (TrimSpace (GuildID (Match b)) = ""))
    then bool_decide (TrimSpace (GuildID (Match b)) = TrimSpace (in_GuildID input))
    else if negb (bool_decide (TrimSpace (TeamID (Match b)) = ""))
    then bool_decide (TrimSpace (TeamID (Match b)) = TrimSpace (in_TeamID input))
    else true
  end.

Definition without_mention (input : RouteInput) : RouteInput :=
  {| in_Channel := in_Channel input; in_AccountID := in_AccountID input;
     in_Peer := in_Peer input; in_ParentPeer := in_ParentPeer input;
     in_GuildID := in_GuildID input; in_TeamID := in_TeamID input; MentionedAgent := "" |}.

Definition Reaches (c : Config) (input : RouteInput) (agentID : string) : bool :=
  let target := NormalizeAgentID agentID in
  let input := without_mention input in
  if bool_decide (r_AgentID (ResolveRoute c input) = target) then true
  else
    let channel := ToLower (TrimSpace (in_Channel input)) in
    existsb (λ b,
      bindingMatches b input &&
      (bool_decide (pickAgentID c (b_AgentID b) = target) ||
       existsb (λ m, bool_decide (m = "*") || SameAgentID m target) (AgentMentions b)))
      (filterBindings c channel (NormalizeAccountID (in_AccountID input))).

End routing.

(** ** The priority order, specified apart from the cascade *)

Section spec.
Context `{UnicodeData}.
Implicit Types (c : Config) (input : RouteInput) (b : AgentBinding).

Definition from_peer (p : option RoutePeer) (f : RoutePeer → AgentBinding → bool)
      (b : AgentBinding) : bool :=
    match p with Some p => f p b | None => false end.

Definition from_id (id : string) (f : string → AgentBinding → bool)
      (b : AgentBinding) : bool :=
    if bool_decide (id = "") then false else f id b.

  (** The seven binding criteria, highest priority first. *)
Definition criteria input : list (string * (AgentBinding → bool)) :=
    [ ("binding.peer", from_peer (peer_given (in_Peer input)) peer_matches);
      ("binding.peer.parent", from_peer (peer_given (in_ParentPeer input)) peer_matches);
      ("binding.peer.kind",
        from_peer (in_Peer input) (λ p b, peerKindOnlyMatches (Peer (Match b)) (Some p)));
      ("binding.guild", from_id (TrimSpace (in_GuildID input)) guild_matches);
      ("binding.team", from_id (TrimSpace (in_TeamID input)) team_matches);
      ("binding.account", account_matches);
      ("binding.channel", wildcard_matches) ].

Definition candidates c input : list AgentBinding :=
    filterBindings c (ToLower (TrimSpace (in_Channel input)))
      (NormalizeAccountID (in_AccountID input)).

  (** [routed c input ob name]: the highest-priority criterion that some
      candidate binding meets is [name], and [ob] is the first binding that
      meets it; or no binding meets any and [name] is "default". *)
Inductive routed c input : option AgentBinding → string → Prop :=
  | routed_binding i name p b l1 l2 :
      criteria input !! i = Some (name, p) →
      candidates c input = l1 ++ b :: l2 →
      p b = true → Forall (λ b', p b' = false) l1 →
      (∀ j q, (j < i)%nat → criteria input !! j = Some q →
        Forall (λ b', q.2 b' = false) (candidates c input)) →
      routed c input (Some b) name
  | routed_default :
      Forall (λ q, Forall (λ b', q.2 b' = false) (candidates c input)) (criteria input) →
      routed c input None "default".

Fixpoint first_match (crits : list (string * (AgentBinding → bool)))
      (bs : list AgentBinding) : option (string * AgentBinding) :=
    match crits with
    | [] => None
    | (name, p) :: crits' =>
      match find_first p bs with
      | Some b => Some (name, b)
      | None => first_match crits' bs
      end
    end.

Lemma first_match_Some crits bs name b :
    first_match crits bs = Some (name, b) →
    ∃ i p l1 l2, crits !! i = Some (name, p) ∧ bs = l1 ++ b :: l2 ∧ p b = true ∧
      Forall (λ b', p b' = false) l1 ∧
      ∀ j q, (j < i)%nat → crits !! j = Some q → Forall (λ b', q.2 b' = false) bs.
Proof.
    induction crits as [|[n p] crits IH]; simpl; [done|].
    destruct (find_first p bs) as [b'|] eqn:Hf.
    - intros [= -> ->]. apply find_first_Some in Hf as (l1 & l2 & -> & ? & ?).
      exists 0%nat, p, l1, l2. split_and!; try done. lia.
    - intros Hm. apply find_first_None in Hf.
      destruct (IH Hm) as (i & p' & l1 & l2 & ? & ? & ? & ? & Hj).
      exists (S i), p', l1, l2. split_and!; try done.
      intros [|j] q Hlt Hq; simpl in Hq; [by simplify_eq|]. apply (Hj j); [lia|done].
Qed.

Lemma first_match_None crits bs :
    first_match crits bs = None →
    Forall (λ q, Forall (λ b', q.2 b' = false) bs) crits.
Proof.
    induction crits as [|[n p] crits IH]; simpl; [done|].
    destruct (find_first p bs) as [b'|] eqn:Hf; [done|]. intros Hm.
    constructor; [by apply find_first_None|]. by apply IH.
Qed.

Lemma find_false {A} (l : list A) : find_first (λ _, false) l = None.
Proof. by induction l. Qed.

Lemma from_peer_find p f bs :
    (p ≫= λ p, find_first (f p) bs) = find_first (from_peer p f) bs.
Proof. destruct p; simpl; [done|]. symmetry. apply find_false. Qed.

Lemma from_id_find id f bs :
    (if bool_decide (id = "") then None else find_first (f id) bs) =
    find_first (from_id id f) bs.
Proof.
    unfold from_id. destruct (bool_decide (id = "")); [|done].
    symmetry. apply find_false.
Qed.

  (** The agent name the route of [input] is chosen from. *)
Definition chosen c input (ob : option AgentBinding) : string :=
    match ob with
    | Some b => mentioned_agent input b
    | None => resolveDefaultAgentID c
    end.

Definition route_of c input (ob : option AgentBinding) (name : string) : ResolvedRoute :=
    let id := pickAgentID c (chosen c input ob) in
    {| r_AgentID := id; r_Channel := ToLower (TrimSpace (in_Channel input));
       r_AccountID := NormalizeAccountID (in_AccountID input);
       SessionKey := ToLower (BuildAgentMainSessionKey id); MatchedBy := name |}.

Lemma ResolveRoute_first_match c input :
    ResolveRoute c input =
    match first_match (criteria input) (candidates c input) with
    | Some (name, b) => route_of c input (Some b) name
    | None => route_of c input None "default"
    end.
Proof.
    unfold ResolveRoute, criteria. cbv zeta. fold (candidates c input).
    unfold findPeerMatch, findPeerKindMatch, findGuildMatch, findTeamMatch,
      findAccountMatch, findChannelWildcardMatch.
    rewrite !from_peer_find, !from_id_find.
    simpl first_match.
    repeat match goal with
    | |- context [match find_first ?p ?l with _ => _ end] => destruct (find_first p l)
    end; reflexivity.
Qed.

Lemma ResolveRoute_routed c input :
    ∃ ob, routed c input ob (MatchedBy (ResolveRoute c input)) ∧
          ResolveRoute c input = route_of c input ob (MatchedBy (ResolveRoute c input)).
Proof.
    rewrite ResolveRoute_first_match.
    destruct (first_match (criteria input) (candidates c input)) as [[name b]|] eqn:Hm.
    - exists (Some b). split; [|done]. simpl.
      apply first_match_Some in Hm as (i & p & l1 & l2 & ? & ? & ? & ? & ?).
      by eapply routed_binding.
    - exists None. split; [|done]. by apply routed_default, first_match_None.
Qed.

Lemma criteria_names_NoDup input : NoDup (criteria input).*1.
Proof. simpl. apply (bool_decide_unpack _). vm_compute. done. Qed.

Lemma criteria_not_default input q : q ∈ criteria input → q.1 ≠ "default".
Proof.
    intros Hq He. apply (list_elem_of_fmap_2 fst) in Hq. rewrite He in Hq.
    revert Hq. simpl. apply (bool_decide_unpack _). vm_compute. done.
Qed.

Lemma routed_first c input ob name :
    routed c input ob name →
    match ob with
    | Some b => first_match (criteria input) (candidates c input) = Some (name, b)
    | None => first_match (criteria input) (candidates c input) = None ∧ name = "default"
    end.
Proof.
    destruct 1 as [i name p b l1 l2 Hi Hl Hp Hall Hj|Hall].
    - revert i Hi Hj. generalize (criteria input). intros crits.
      induction crits as [|[n q] crits IH]; intros [|i] Hi Hj; simpl in *; try done.
      + simplify_eq. assert (find_first p (candidates c input) = Some b) as ->; [|done].
        apply find_first_Some. eauto 10.
      + assert (find_first q (candidates c input) = None) as ->.
        { apply find_first_None, (Hj 0%nat (n, q)); [lia|done]. }
        apply (IH i Hi).
        intros j q' Hlt Hq. apply (Hj (S j)); [lia|done].
    - split; [|done]. induction Hall as [|[n q] crits Hq _ IH]; simpl; [done|].
      apply find_first_None in Hq. simpl in Hq. by rewrite Hq.
Qed.

  (** *** Lower-case keys *)

Lemma ToLower_main_key id :
    ToLower (BuildAgentMainSessionKey id) = BuildAgentMainSessionKey id.
Proof.
    destruct (NormalizeAgentID_shape id) as (l & Hl & Hid).
    pose proof (NormalizeAgentID_valid_id id) as Hv.
    assert (Hasc : Forall ascii_byte (bytes (BuildAgentMainSessionKey id))).
    { rewrite main_key_bytes. apply Forall_app. split; [by repeat constructor|].
      constructor; [done|]. apply Forall_app. split; [by apply valid_id_ascii|].
      by repeat constructor. }
    unfold ToLower, is_ascii. rewrite (proj2 (forallb_Forall _ _)).
    2:{ eapply Forall_impl; [apply Hasc|]. intros c Hc. by apply Z.ltb_lt. }
    apply bytes_inj. rewrite bytes_of_bytes, main_key_bytes, Hid, bytes_of_bytes.
    rewrite !map_app. simpl. f_equal. do 6 f_equal. rewrite map_app, map_map. f_equal.
    apply map_ext_in. intros d Hd%list_elem_of_In.
    apply valid_id_ascii in Hl. rewrite Forall_forall in Hl.
    by apply lower_byte_idemp, Hl.
Qed.

  (** *** The default agent *)

Lemma valid_id_nonblank id : ValidAgentID id = true → Trim id asciiSpace ≠ "".
Proof.
    intros [c l Hl Hc _ _]%ValidAgentID_iff Ht.
    apply (f_equal bytes) in Ht. rewrite Trim_bytes, Hl in Ht.
    assert (Hcut : in_cutset asciiSpace c = false).
    { destruct c as [[] [] [] [] [] [] [] []]; vm_compute in Hc |- *; congruence. }
    simpl in Ht. rewrite Hcut in Ht.
    destruct (trim_right_keeps_head (in_cutset asciiSpace) c l Hcut) as [l' Hl'].
    rewrite Hl' in Ht. done.
Qed.

Lemma resolveDefaultAgentID_norm c :
    NormalizeAgentID (resolveDefaultAgentID c) = resolveDefaultAgentID c.
Proof.
    unfold resolveDefaultAgentID. destruct (AgentsList c) as [|a l]; [done|].
    destruct (find_first _ _); [apply NormalizeAgentID_idemp|].
    generalize (a :: l). clear. intros l. induction l as [|a l IH]; simpl; [done|].
    repeat case_if; [done|apply NormalizeAgentID_idemp|done].
Qed.

Lemma resolveDefaultAgentID_cases c :
    resolveDefaultAgentID c = DefaultAgentID ∨
    ∃ a, a ∈ AgentsList c ∧ IsHumanAgent c (a_ID a) = false ∧
         resolveDefaultAgentID c = NormalizeAgentID (a_ID a).
Proof.
    unfold resolveDefaultAgentID. destruct (AgentsList c) as [|a0 l0] eqn:Hl; [by left|].
    rewrite <- Hl. clear Hl a0 l0.
    destruct (find_first (marked_default c) (AgentsList c)) as [a|] eqn:Hf.
    - right. apply find_first_Some in Hf as (l1 & l2 & Hl & Hd & _).
      unfold marked_default in Hd. zb. exists a. rewrite Hl. set_solver.
    - clear Hf. induction (AgentsList c) as [|a l IH]; simpl; [by left|].
      destruct (IsHumanAgent c (a_ID a)) eqn:Hh.
      + destruct IH as [?|(a' & ? & ? & ?)]; [by left|right]. exists a'. set_solver.
      + case_if; [right; exists a; set_solver|by left].
Qed.

Lemma first_agent_exists c l :
    Forall (λ a, ValidAgentID (a_ID a) = true) l →
    (∃ a, a ∈ l ∧ IsHumanAgent c (a_ID a) = false) →
    ∃ a, a ∈ l ∧ IsHumanAgent c (a_ID a) = false ∧
         first_agent c l = NormalizeAgentID (a_ID a).
Proof.
    induction 1 as [|a l Ha Hl IH]; intros (a' & Hin & Hh); [set_solver|]. simpl.
    destruct (IsHumanAgent c (a_ID a)) eqn:Hha.
    - apply elem_of_cons in Hin as [->|Hin]; [congruence|].
      destruct IH as (x & ? & ? & ?); [by eauto|]. exists x.
      rewrite elem_of_cons. auto.
    - rewrite bool_decide_eq_false_2 by (intros He; by rewrite He in Ha).
      exists a. rewrite elem_of_cons. auto.
Qed.

Lemma AgentByID_norm c id :
    Trim id asciiSpace ≠ "" → AgentByID c (NormalizeAgentID id) = AgentByID c id.
Proof.
    intros Hid. unfold AgentByID. apply find_first_ext. intros a _.
    apply eq_true_iff_eq. rewrite !SameAgentID_true, NormalizeAgentID_idemp.
    pose proof (valid_id_nonblank (NormalizeAgentID id)
      (proj2 (ValidAgentID_iff _) (NormalizeAgentID_valid_id id))). naive_solver.
Qed.

Lemma IsHumanAgent_norm c id :
    Trim id asciiSpace ≠ "" → IsHumanAgent c (NormalizeAgentID id) = IsHumanAgent c id.
Proof. intros Hid. unfold IsHumanAgent. by rewrite AgentByID_norm. Qed.

  (** *** The chosen agent *)

Lemma pickAgentID_cases c id :
    pickAgentID c id = resolveDefaultAgentID c ∨
    pickAgentID c id = NormalizeAgentID (TrimSpace id) ∧
    (AgentsList c = [] ∨
     ∃ a, a ∈ AgentsList c ∧ SameAgentID (a_ID a) (pickAgentID c id) = true).
Proof.
    unfold pickAgentID. case_if; [by left|].
    destruct (AgentsList c) as [|a0 l0] eqn:Hl; [by right; auto|].
    case_if; [|by left]. right. split; [done|right].
    apply existsb_Exists in Heqb0 as (a & ? & ?). eauto.
Qed.

Lemma pickAgentID_norm c id : NormalizeAgentID (pickAgentID c id) = pickAgentID c id.
Proof.
    destruct (pickAgentID_cases c id) as [->|[-> _]];
      [apply resolveDefaultAgentID_norm|apply NormalizeAgentID_idemp].
Qed.
End spec.

(** ** Reaching an agent *)

Section reaches.
Context `{UnicodeData}.
Implicit Types (c : Config) (input : RouteInput) (b : AgentBinding).

  (** A binding names at most one of a peer, a guild and a team. *)
Definition one_criterion b : bool :=
    match Peer (Match b) with
    | Some _ => bool_decide (TrimSpace (GuildID (Match b)) = "")
                && bool_decide (TrimSpace (TeamID (Match b)) = "")
    | None => bool_decide (TrimSpace (GuildID (Match b)) = "")
              || bool_decide (TrimSpace (TeamID (Match b)) = "")
    end.

  (** The mentions the configuration accepts ([Config.AgentIDErrors]). *)
Definition mentions_ok b : bool :=
    forallb (λ m, bool_decide (m = "*") || ValidAgentID m) (AgentMentions b).

Definition configured c (id : string) : bool :=
    existsb (λ a, SameAgentID (a_ID a) id) (AgentsList c).

Lemma criteria_without input : criteria (without_mention input) = criteria input.
Proof. done. Qed.

Lemma candidates_without c input :
    candidates c (without_mention input) = candidates c input.
Proof. done. Qed.

Lemma from_peer_true p f b :
    from_peer p f b = true → ∃ x, p = Some x ∧ f x b = true.
Proof. destruct p; simpl; [eauto|done]. Qed.

Lemma peer_given_Some p x : peer_given p = Some x → p = Some x.
Proof. destruct p; simpl; [case_if; congruence|done]. Qed.

Lemma peer_matches_binding input x b :
    in_Peer input = Some x ∨ in_ParentPeer input = Some x →
    peer_matches x b = true → bindingMatches b input = true.
Proof.
    intros Hx. unfold peer_matches, bindingMatches.
    destruct (Peer (Match b)) as [m|]; [|done].
    destruct (_ || _) eqn:Hn; [done|]. apply orb_false_iff in Hn as [-> ->].
    intros [Hk Hi]%andb_true_iff. rewrite bool_decide_eq_true in Hk, Hi.
    apply existsb_Exists. exists (Some x).
    split; [destruct Hx as [->| ->]; set_solver|].
    by rewrite Hk, Hi, !bool_decide_eq_true_2.
Qed.

Lemma broad_binding input b : broad b = true → bindingMatches b input = true.
Proof.
    unfold broad, bindingMatches. destruct (Peer (Match b)); [done|].
    intros [Hg Ht]%andb_true_iff. rewrite bool_decide_eq_true in Hg, Ht.
    by rewrite Hg, Ht.
Qed.

  (** Under one criterion per binding, a binding met by any of the criteria
      matches the message. *)
Lemma criterion_binding input q b :
    q ∈ criteria input → q.2 b = true → one_criterion b = true →
    bindingMatches b input = true.
Proof.
    intros Hq Hb Hone. unfold criteria in Hq.
    repeat apply elem_of_cons in Hq as [->|Hq]; [..|set_solver]; simpl in Hb.
    - apply from_peer_true in Hb as (x & Hx%peer_given_Some & Hb).
      apply (peer_matches_binding _ x); auto.
    - apply from_peer_true in Hb as (x & Hx%peer_given_Some & Hb).
      apply (peer_matches_binding _ x); auto.
    - apply from_peer_true in Hb as (x & Hx & Hb). unfold bindingMatches.
      destruct (Peer (Match b)) as [m|] eqn:Hp; [|done]. rewrite Hx.
      pose proof Hb as Hb'. simpl in Hb'. destruct (negb _) eqn:Hid in Hb'; [done|].
      apply negb_false_iff in Hid. apply andb_true_iff in Hb' as [Hk%negb_true_iff _].
      by rewrite Hk, Hid.
    - unfold from_id in Hb. case_if_in Hb; [done|]. unfold guild_matches in Hb.
      apply andb_true_iff in Hb as [Hne%negb_true_iff Heq].
      unfold bindingMatches, one_criterion in *.
      destruct (Peer (Match b)); [by rewrite Hne in Hone|]. by rewrite Hne.
    - unfold from_id in Hb. case_if_in Hb; [done|]. unfold team_matches in Hb.
      apply andb_true_iff in Hb as [Hne%negb_true_iff Heq].
      unfold bindingMatches, one_criterion in *. rewrite Hne in Hone |- *.
      destruct (Peer (Match b)); [by rewrite andb_false_r in Hone|].
      rewrite orb_false_r in Hone. by rewrite Hone.
    - unfold account_matches in Hb. case_if_in Hb; [done|]. by apply broad_binding.
    - unfold wildcard_matches in Hb. case_if_in Hb; [done|]. by apply broad_binding.
Qed.

Lemma mention_override_cases mentions mentioned def :
    mention_override mentions mentioned def = def ∨
    "*" ∈ mentions ∨
    ∃ m, m ∈ mentions ∧ m ≠ "*" ∧ SameAgentID m mentioned = true ∧
         mention_override mentions mentioned def = m.
Proof.
    induction mentions as [|m l IH]; simpl; [by left|].
    case_if; [rewrite bool_decide_eq_true in *; set_solver|].
    rewrite bool_decide_eq_false in *.
    destruct (SameAgentID m mentioned) eqn:Hm; [right; right; exists m; set_solver|].
    destruct IH as [IH|[IH|(x & ? & ? & ? & ?)]]; [by left|set_solver|].
    right; right. exists x. set_solver.
Qed.

Lemma configured_same c id id' :
    configured c id = true → NormalizeAgentID id = NormalizeAgentID id' →
    Trim id' asciiSpace ≠ "" → configured c id' = true.
Proof.
    unfold configured. rewrite !existsb_Exists. intros (a & Hin & Hs) He Hid'.
    exists a. split; [done|]. rewrite SameAgentID_true in *. naive_solver congruence.
Qed.

  (** A configured id that is a valid agent id is picked as it is. *)
Lemma pickAgentID_configured c m :
    ValidAgentID m = true → configured c m = true →
    pickAgentID c m = NormalizeAgentID m.
Proof.
    intros Hv Hc. unfold pickAgentID.
    assert (TrimSpace m = m) as ->.
    { rewrite <- (of_bytes_bytes m). apply valid_id_trim. by apply ValidAgentID_iff. }
    rewrite bool_decide_eq_false_2 by (intros He; by rewrite He in Hv).
    destruct (AgentsList c) as [|a l] eqn:Hl; [done|].
    assert (configured c (NormalizeAgentID m) = true) as Hn.
    { apply (configured_same c m); [done|by rewrite NormalizeAgentID_idemp|].
      apply valid_id_nonblank, ValidAgentID_iff, NormalizeAgentID_valid_id. }
    unfold configured in Hn. rewrite Hl in Hn. by rewrite Hn.
Qed.

Lemma Reaches_binding c input agentID b :
    b ∈ candidates c input → bindingMatches b input = true →
    (∃ m, m ∈ AgentMentions b ∧ (m = "*" ∨ SameAgentID m (NormalizeAgentID agentID) = true)) →
    Reaches c input agentID = true.
Proof.
    intros Hin Hb (m & Hm & Hms). unfold Reaches. case_if; [done|].
    apply existsb_Exists. exists b. split; [exact Hin|].
    change (bindingMatches b (without_mention input)) with (bindingMatches b input).
    rewrite Hb. apply orb_true_iff. right. apply existsb_Exists. exists m.
    split; [done|]. rewrite orb_true_iff, bool_decide_eq_true. done.
Qed.

Lemma Reaches_own c input :
    r_AgentID (ResolveRoute c input) = r_AgentID (ResolveRoute c (without_mention input)) →
    Reaches c input (r_AgentID (ResolveRoute c input)) = true.
Proof.
    intros He. unfold Reaches. rewrite bool_decide_eq_true_2; [done|].
    rewrite <- He. rewrite ResolveRoute_first_match.
    destruct (first_match _ _) as [[? ?]|]; simpl; by rewrite pickAgentID_norm.
Qed.

Lemma Reaches_mention c input b name :
    first_match (criteria input) (candidates c input) = Some (name, b) →
    one_criterion b = true → mentions_ok b = true →
    configured c (MentionedAgent input) = true →
    Reaches c input (pickAgentID c (mentioned_agent input b)) = true.
Proof.
    intros Hf Hone Hok Hc.
    pose proof (ResolveRoute_first_match c input) as Hr.
    pose proof (ResolveRoute_first_match c (without_mention input)) as Hr'.
    rewrite criteria_without, candidates_without in Hr'. rewrite Hf in Hr, Hr'.
    apply first_match_Some in Hf as (i & p & l1 & l2 & Hi & Hl & Hp & _ & _).
    assert (Hb : bindingMatches b input = true).
    { apply (criterion_binding input (name, p)); [by eapply list_elem_of_lookup_2|done|done]. }
    assert (Hin : b ∈ candidates c input) by (rewrite Hl; set_solver).
    assert (Hown : mentioned_agent input b = b_AgentID b →
      Reaches c input (pickAgentID c (mentioned_agent input b)) = true).
    { intros He. apply (f_equal r_AgentID) in Hr, Hr'. simpl in Hr, Hr'.
      rewrite <- Hr. apply Reaches_own. by rewrite Hr, Hr', He. }
    destruct (decide (mentioned_agent input b = b_AgentID b)) as [He|Hne]; [by apply Hown|].
    unfold mentioned_agent in *. case_if; [|done].
    destruct (mention_override_cases (AgentMentions b) (MentionedAgent input) (b_AgentID b))
      as [He|[Hstar|(m & Hm & Hns & Hs & ->)]]; [done| |].
    - apply (Reaches_binding c input _ b); eauto.
    - apply (Reaches_binding c input _ b); [done|done|]. exists m. split; [done|right].
      unfold mentions_ok in Hok. apply forallb_Forall in Hok.
      rewrite Forall_forall in Hok. specialize (Hok m Hm).
      rewrite bool_decide_eq_false_2 in Hok by done. simpl in Hok.
      apply SameAgentID_true in Hs as (Hmn & Han & Heq).
      rewrite pickAgentID_configured; [|done|by eapply configured_same].
      rewrite NormalizeAgentID_idemp. apply SameAgentID_true. split_and!; [done| |].
      + apply valid_id_nonblank, ValidAgentID_iff, NormalizeAgentID_valid_id.
      + by rewrite NormalizeAgentID_idemp.
Qed.
End reaches.

(** ** Properties *)

Section properties.
Context `{UnicodeData}.

  (** C35. [ResolveRoute] implements the documented priority cascade: it takes
      the highest-priority criterion some binding of the message's channel and
      account meets, the first such binding in configuration order, and that
      binding's agent (or the mentioned agent its [agent_mentions] allow); with
      none it takes the default agent. The specification [routed] determines
      the binding and the reason uniquely. *)
Theorem ResolveRoute_priority (c : Config) (input : RouteInput) :
    ∃ ob, routed c input ob (MatchedBy (ResolveRoute c input)) ∧
      ResolveRoute c input = route_of c input ob (MatchedBy (ResolveRoute c input)) ∧
      ∀ ob' name', routed c input ob' name' →
        ob' = ob ∧ name' = MatchedBy (ResolveRoute c input).
Proof.
    destruct (ResolveRoute_routed c input) as (ob & Hr & He). exists ob.
    split_and!; [done|done|]. intros ob' name' Hr'.
    apply routed_first in Hr. apply routed_first in Hr'.
    destruct ob, ob'; naive_solver congruence.
Qed.

  (** A routed message runs in the one conversation of the agent it was
      routed to, under a valid agent id that is "main", or names a configured
      agent when any is configured. *)
Theorem ResolveRoute_agent (c : Config) (input : RouteInput) :
    SessionKey (ResolveRoute c input) =
      BuildAgentMainSessionKey (r_AgentID (ResolveRoute c input)) ∧
    ValidAgentID (r_AgentID (ResolveRoute c input)) = true ∧
    (r_AgentID (ResolveRoute c input) = DefaultAgentID ∨ AgentsList c = [] ∨
     ∃ a, a ∈ AgentsList c ∧
       NormalizeAgentID (a_ID a) = r_AgentID (ResolveRoute c input)).
Proof.
    destruct (ResolveRoute_routed c input) as (ob & _ & ->). simpl.
    rewrite ToLower_main_key. set (id := chosen c input ob). split_and!; [done| |].
    - rewrite <- pickAgentID_norm. by apply ValidAgentID_iff, NormalizeAgentID_valid_id.
    - destruct (pickAgentID_cases c id) as [->|[Hn [Hl|(a & Ha & Hs)]]]; [|by auto|].
      + destruct (resolveDefaultAgentID_cases c) as [?|(a & ? & ? & ?)]; eauto 6.
      + right; right. exists a. split; [done|].
        rewrite (SameAgentID_norm _ _ Hs). apply pickAgentID_norm.
Qed.

  (** When the agent ids are valid and some agent is not a person, the
      default agent is a configured agent that is not a person: an unaddressed
      message is not posted to a person. *)
Theorem default_agent_not_human (c : Config)
    (Hids : Forall (λ a, ValidAgentID (a_ID a) = true) (AgentsList c))
    (Hmodel : ∃ a, a ∈ AgentsList c ∧ IsHumanAgent c (a_ID a) = false) :
    IsHumanAgent c (resolveDefaultAgentID c) = false ∧
    ∃ a, a ∈ AgentsList c ∧ resolveDefaultAgentID c = NormalizeAgentID (a_ID a).
Proof.
    enough (∃ a, a ∈ AgentsList c ∧ IsHumanAgent c (a_ID a) = false ∧
      resolveDefaultAgentID c = NormalizeAgentID (a_ID a)) as (a & Ha & Hh & He).
    { split; [|by eauto]. rewrite He, IsHumanAgent_norm; [done|].
      rewrite Forall_forall in Hids. by apply valid_id_nonblank, Hids. }
    unfold resolveDefaultAgentID.
    destruct (AgentsList c) as [|a0 l0] eqn:Hl; [destruct Hmodel as (? & ?%elem_of_nil & _); done|].
    rewrite <- Hl in *.
    destruct (find_first (marked_default c) (AgentsList c)) as [a|] eqn:Hf;
      [|by apply first_agent_exists].
    apply find_first_Some in Hf as (l1 & l2 & Hl' & Hd & _).
    unfold marked_default in Hd.
    apply andb_true_iff in Hd as [[_ Hh%negb_true_iff]%andb_true_iff _].
    exists a. rewrite Hl'. set_solver.
Qed.

  (** [Reaches] accepts every agent a message can be handled by: whatever
      agent a message is routed to, also through a mention of a configured
      agent, the sender reaches that agent, when each binding names at most
      one of a peer, a guild and a team and its mentions are valid ids. *)
Theorem Reaches_routed (c : Config) (input : RouteInput)
    (Hone : forallb one_criterion (Bindings c) = true)
    (Hmen : forallb mentions_ok (Bindings c) = true)
    (Hc : MentionedAgent input = "" ∨ configured c (MentionedAgent input) = true) :
    Reaches c input (r_AgentID (ResolveRoute c input)) = true.
Proof.
    destruct (decide (MentionedAgent input = "")) as [He|Hne].
    { apply Reaches_own. by destruct input; simpl in *; subst. }
    destruct Hc as [?|Hc]; [done|].
    pose proof (ResolveRoute_first_match c input) as Hr.
    destruct (first_match (criteria input) (candidates c input)) as [[name b]|] eqn:Hf.
    - rewrite Hr. simpl. assert (Hb : b ∈ Bindings c).
      { apply first_match_Some in Hf as (? & ? & l1 & l2 & _ & Hl & _).
        assert (Hin : b ∈ candidates c input) by (rewrite Hl; set_solver).
        by apply elem_of_keep in Hin as [? _]. }
      apply forallb_Forall in Hone, Hmen. rewrite Forall_forall in Hone, Hmen.
      eapply Reaches_mention; eauto.
    - apply Reaches_own. rewrite Hr, ResolveRoute_first_match.
      by rewrite criteria_without, candidates_without, Hf.
Qed.
End properties.

(** ** Witnesses *)

Section witnesses.
#[local] Existing Instance ascii_only.

Definition ex_binding (agent : string) (mentions : list string) (m : BindingMatch) : AgentBinding :=
  {| b_AgentID := agent; AgentMentions := mentions; Match := m |}.

Definition ex_match (p : option PeerMatch) (guild : string) : BindingMatch :=
  {| Channel := "Discord"; AccountID := "*"; Peer := p; GuildID := guild; TeamID := "" |}.

Definition ex_agent (id : string) (models : list string) : AgentConfig :=
  {| a_ID := id; a_Name := ""; a_Enabled := None; a_Default := false; a_Models := models |}.

Definition ex_config (agents : list AgentConfig) (bindings : list AgentBinding) : Config :=
  {| AgentsList := agents; Bindings := bindings;
     Models := [{| ModelName := "eric"; m_Provider := "people" |}];
     Providers := [{| p_Name := "people"; Protocol := "human" |}] |}.

Definition ex_input (guild mention : string) : RouteInput :=
  {| in_Channel := "discord"; in_AccountID := ""; in_Peer := Some {| rp_Kind := "channel"; rp_ID := "7" |};
     in_ParentPeer := None; in_GuildID := guild; in_TeamID := ""; MentionedAgent := mention |}.

Definition ex_office : Config :=
  ex_config [ex_agent "Eric" ["eric"]; ex_agent "Alice" []; ex_agent "bob" []]
    [ex_binding "alice" ["Bob"] (ex_match None "G1")].

Example route_guild_mention :
  r_AgentID (ResolveRoute ex_office (ex_input "G1" "bob")) = "bob" ∧
  MatchedBy (ResolveRoute ex_office (ex_input "G1" "bob")) = "binding.guild".
Proof. split; reflexivity. Qed.

Lemma default_agent_not_human_witness :
  IsHumanAgent ex_office (resolveDefaultAgentID ex_office) = false ∧
  ∃ a, a ∈ AgentsList ex_office ∧ resolveDefaultAgentID ex_office = NormalizeAgentID (a_ID a).
Proof.
  apply (default_agent_not_human ex_office).
  - repeat constructor.
  - exists (ex_agent "Alice" []). split; [|reflexivity].
    simpl. apply elem_of_cons; right. apply elem_of_cons; by left.
Defined.

Lemma Reaches_routed_witness :
  Reaches ex_office (ex_input "G1" "bob")
    (r_AgentID (ResolveRoute ex_office (ex_input "G1" "bob"))) = true.
Proof. apply (Reaches_routed ex_office (ex_input "G1" "bob")); [reflexivity..|right; reflexivity]. Defined.

(** *** What the code does where the documentation says otherwise *)

(** With every agent a person and one of them called "main", the default agent
    is that person, although a human agent is documented to be never the default. *)
Lemma default_agent_human_main :
  let c := ex_config [ex_agent "main" ["eric"]] [] in
  resolveDefaultAgentID c = "main" ∧ IsHumanAgent c (resolveDefaultAgentID c) = true ∧
  r_AgentID (ResolveRoute c (ex_input "" "")) = "main".
Proof. split_and!; reflexivity. Qed.

(** A binding with both a peer and a guild is routed by on its guild alone, but
    [Reaches] asks for its peer. *)
Lemma Reaches_peer_and_guild :
  let b := ex_binding "alice" ["bob"]
    (ex_match (Some {| pm_Kind := "channel"; pm_ID := "8" |}) "G1") in
  let c := ex_config [ex_agent "carol" []; ex_agent "alice" []; ex_agent "bob" []] [b] in
  r_AgentID (ResolveRoute c (ex_input "G1" "bob")) = "bob" ∧
  Reaches c (ex_input "G1" "bob") "bob" = false.
Proof. split; reflexivity. Qed.

(** A message's account id is normalised and a binding's is not, so a binding
    for the account "My Bot" does not match that account's own messages. *)
Lemma account_id_not_normalised :
  matchesAccountID "My Bot" (NormalizeAccountID "My Bot") = false.
Proof. reflexivity. Qed.

End witnesses.
