(* ===== verification/Cooldown.v ===== *)
(** * Model cooldowns (providers/cooldown.go)

    The process-wide tracker that parks a failing provider+model: the escalation of
    cooldown times, the failure counts, and what the fallback chain and the
    summarisation chain ask of it. The file ends with the interface
    [CooldownGate] those two clients are proved against, and the proof that the
    tracker implements it. *)

From stdpp Require Import base gmap strings list fin_maps sorting.
From Stdlib Require Import ZArith Lia Ascii.
From S2P Require Import Prelude GoString.

Open Scope string_scope.
Open Scope list_scope.
Open Scope Z_scope.

(** ** The provider library

    [ModelKey], [SplitModelKey] and the failure reasons are exported by the
    spawnllm module. A reason is a string type there. *)
Class SpawnLLM := {
  ModelKey : string → string → string;
  splitModelKey : string → string * string;
  FailoverAuth : string;
  FailoverBilling : string;
  FailoverFormat : string;
  FailoverContextLimit : string
}.

(** An instance for concrete runs. *)
Definition slash_keys : SpawnLLM := {|
  ModelKey := λ p m, p +:+ "/" +:+ m;
  splitModelKey := λ k,
    match SplitN k "/"%char 2 with [p; m] => (p, m) | _ => ("", k) end;
  FailoverAuth := "auth"; FailoverBilling := "billing";
  FailoverFormat := "format"; FailoverContextLimit := "context_limit"
|}.

(** ** Policy *)

Definition defaultFailureWindow : Z := 24 * GoTime.hour.
Definition maxRetryAfterCooldown : Z := 5 * GoTime.minute.

Definition cooldownEscalation : list Z :=
  [1 * GoTime.minute; 3 * GoTime.minute; 5 * GoTime.minute].

Record CooldownPolicy := {
  BillingAuth : Z;
  RateLimit : Z;
  BadRequest : Z;
  ClientError : Z;
  ServerError : Z
}.

Definition DefaultCooldownPolicy : CooldownPolicy := {|
  BillingAuth := 30 * GoTime.minute;
  RateLimit := 10 * GoTime.minute;
  BadRequest := 0;
  ClientError := 10 * GoTime.minute;
  ServerError := 10 * GoTime.minute
|}.

Definition CategoryCooldown (p : CooldownPolicy) (status : Z) : Z :=
  if status =? 413 then 0
  else if (status =? 401) || (status =? 402) || (status =? 403) then BillingAuth p
  else if status =? 429 then RateLimit p
  else if status =? 400 then BadRequest p
  else if (400 <=? status) && (status <? 500) then ClientError p
  else if (500 <=? status) && (status <? 600) then ServerError p
  else 0.

Definition escalation_steps : Z := Z.of_nat (length cooldownEscalation).

Definition cooldownForFailure (p : CooldownPolicy) (errorCount status : Z) : Z :=
  let cat := CategoryCooldown p status in
  if cat =? 0 then 0
  else if (status =? 401) || (status =? 402) || (status =? 403) then cat
  else if (1 <=? errorCount) && (errorCount <=? escalation_steps)
  then nth (Z.to_nat (errorCount - 1)) cooldownEscalation 0
  else cat.

(** ** State *)

Record cooldownEntry := {
  e_ErrorCount : Z;
  e_FailureCounts : gmap string Z;
  e_CooldownEnd : Z;
  e_LastReason : string;
  e_LastFailure : Z
}.

(** The alert's description is [fmt.Sprintf] of these values. *)
Record Alert := {
  Title : string;
  Description : string * Z * Z * string * Z;
  EventID : string
}.

(** [ct_alerts] holds the alerts sent; [ct_alerter] tells whether an alerter is
    set. *)
Record CooldownTracker := {
  ct_alerter : bool;
  ct_alerts : list Alert;
  ct_entries : gmap string cooldownEntry;
  ct_failureWindow : Z;
  ct_policy : CooldownPolicy
}.

Definition NewCooldownTrackerWithPolicy (policy : CooldownPolicy) : CooldownTracker := {|
  ct_alerter := false; ct_alerts := []; ct_entries := ∅;
  ct_failureWindow := defaultFailureWindow; ct_policy := policy
|}.

Definition NewCooldownTracker : CooldownTracker :=
  NewCooldownTrackerWithPolicy DefaultCooldownPolicy.

Definition with_entries (ct : CooldownTracker) (m : gmap string cooldownEntry) : CooldownTracker :=
  {| ct_alerter := ct_alerter ct; ct_alerts := ct_alerts ct; ct_entries := m;
     ct_failureWindow := ct_failureWindow ct; ct_policy := ct_policy ct |}.

Definition zero_entry : cooldownEntry :=
  {| e_ErrorCount := 0; e_FailureCounts := ∅; e_CooldownEnd := GoTime.zero_time;
     e_LastReason := ""; e_LastFailure := GoTime.zero_time |}.

(** The entry [getOrCreate] returns; the caller stores it. *)
Definition getOrCreate (ct : CooldownTracker) (key : string) : cooldownEntry :=
  default zero_entry (ct_entries ct !! key).

(** ** Operations *)

Section cooldown.
Context `{SpawnLLM}.

(** A map read of a missing key gives 0. *)
Definition count_of (counts : gmap string Z) (r : string) : Z := default 0 (counts !! r).

(** [alert]. *)
Definition send_alert (ct : CooldownTracker) (provider model reason : string)
    (status failures cooldown : Z) : CooldownTracker :=
  if negb (ct_alerter ct) then ct
  else
    let id := ModelKey provider model in
    let desc := (id, GoTime.round cooldown GoTime.second, failures, reason, status) in
    let send title :=
      {| ct_alerter := ct_alerter ct;
         ct_alerts := ct_alerts ct ++ [{| Title := title; Description := desc; EventID := id |}];
         ct_entries := ct_entries ct; ct_failureWindow := ct_failureWindow ct;
         ct_policy := ct_policy ct |} in
    if bool_decide (reason = FailoverAuth) || bool_decide (reason = FailoverBilling)
    then send "Model authentication or billing failure"
    else if escalation_steps <? failures
    then send "Model parked after repeated failures"
    else ct.

(** The entry after the failure-window reset at the start of [MarkFailure]. *)
Definition window_reset (ct : CooldownTracker) (now : Z) (e : cooldownEntry) : cooldownEntry :=
  if negb (GoTime.is_zero (e_LastFailure e))
     && (ct_failureWindow ct <? GoTime.sub now (e_LastFailure e))
  then {| e_ErrorCount := 0; e_FailureCounts := ∅; e_CooldownEnd := e_CooldownEnd e;
          e_LastReason := e_LastReason e; e_LastFailure := e_LastFailure e |}
  else e.

(** The cooldown a counted failure sets: the server's Retry-After, capped, or
    the policy's. *)
Definition failure_cooldown (p : CooldownPolicy) (errorCount status retryAfter : Z) : Z :=
  if 0 <? retryAfter
  then (if maxRetryAfterCooldown <? retryAfter then maxRetryAfterCooldown else retryAfter)
  else cooldownForFailure p errorCount status.

Definition MarkFailure (ct : CooldownTracker) (now : Z) (provider model reason : string)
    (status retryAfter : Z) : CooldownTracker :=
  let key := ModelKey provider model in
  let entry := window_reset ct now (getOrCreate ct key) in
  if CategoryCooldown (ct_policy ct) status =? 0
  then with_entries ct (<[key := entry]> (ct_entries ct))
  else
    let errors := e_ErrorCount entry + 1 in
    let cooldown := failure_cooldown (ct_policy ct) errors status retryAfter in
    let entry' :=
      {| e_ErrorCount := errors;
         e_FailureCounts :=
           <[reason := count_of (e_FailureCounts entry) reason + 1]> (e_FailureCounts entry);
         e_CooldownEnd := GoTime.add now cooldown;
         e_LastReason := reason;
         e_LastFailure := now |} in
    send_alert (with_entries ct (<[key := entry']> (ct_entries ct)))
      provider model reason status errors cooldown.

Definition SetAlerter (ct : CooldownTracker) : CooldownTracker :=
  {| ct_alerter := true; ct_alerts := ct_alerts ct; ct_entries := ct_entries ct;
     ct_failureWindow := ct_failureWindow ct; ct_policy := ct_policy ct |}.

Definition MarkSuccess (ct : CooldownTracker) (provider model : string) : CooldownTracker :=
  let key := ModelKey provider model in
  match ct_entries ct !! key with
  | None => ct
  | Some entry =>
    with_entries ct (<[key :=
      {| e_ErrorCount := 0; e_FailureCounts := ∅; e_CooldownEnd := GoTime.zero_time;
         e_LastReason := ""; e_LastFailure := e_LastFailure entry |}]> (ct_entries ct))
  end.

Definition entry_available (now : Z) (entry : cooldownEntry) : bool :=
  GoTime.is_zero (e_CooldownEnd entry) || negb (GoTime.before now (e_CooldownEnd entry)).

Definition IsAvailable (ct : CooldownTracker) (now : Z) (provider model : string) : bool :=
  match ct_entries ct !! ModelKey provider model with
  | None => true
  | Some entry => entry_available now entry
  end.

Definition CooldownRemaining (ct : CooldownTracker) (now : Z) (provider model : string) : Z :=
  match ct_entries ct !! ModelKey provider model with
  | None => 0
  | Some entry =>
    if negb (GoTime.is_zero (e_CooldownEnd entry)) && GoTime.before now (e_CooldownEnd entry)
    then GoTime.sub (e_CooldownEnd entry) now
    else 0
  end.

(** The loop of [dominantReason] over the entries of a map in range order. *)
Fixpoint dominant_loop (l : list (string * Z)) (top : string) (best : Z) : string :=
  match l with
  | [] => top
  | (r, n) :: l' => if best <? n then dominant_loop l' r n else dominant_loop l' top best
  end.

Definition dominantReason `{GoRange} (counts : gmap string Z) : string :=
  dominant_loop (go_range counts) "" 0.

Definition LastReason `{GoRange} (ct : CooldownTracker) (provider model : string) : string :=
  match ct_entries ct !! ModelKey provider model with
  | None => ""
  | Some entry =>
    if negb (bool_decide (e_LastReason entry = "")) then e_LastReason entry
    else dominantReason (e_FailureCounts entry)
  end.

Definition ErrorCount (ct : CooldownTracker) (provider model : string) : Z :=
  match ct_entries ct !! ModelKey provider model with
  | None => 0
  | Some entry => e_ErrorCount entry
  end.

Definition FailureCount (ct : CooldownTracker) (provider model reason : string) : Z :=
  match ct_entries ct !! ModelKey provider model with
  | None => 0
  | Some entry => count_of (e_FailureCounts entry) reason
  end.

Definition Reset (ct : CooldownTracker) : CooldownTracker := with_entries ct ∅.

Definition SetPolicy (ct : CooldownTracker) (p : CooldownPolicy) : CooldownTracker :=
  {| ct_alerter := ct_alerter ct; ct_alerts := ct_alerts ct; ct_entries := ct_entries ct;
     ct_failureWindow := ct_failureWindow ct; ct_policy := p |}.

Definition Clear (ct : CooldownTracker) (provider model : string) : CooldownTracker * bool :=
  let key := ModelKey provider model in
  match ct_entries ct !! key with
  | None => (ct, false)
  | Some _ => (with_entries ct (delete key (ct_entries ct)), true)
  end.

Definition ClearAll (ct : CooldownTracker) : CooldownTracker := Reset ct.

Record CooldownStatus := {
  s_Provider : string;
  s_Model : string;
  s_Reason : string;
  s_Since : Z;
  s_Until : Z
}.

(** What [Snapshot] appends for one key. *)
Definition snapshot_entry `{GoRange} (now : Z) (k : string) (entry : cooldownEntry)
    : list CooldownStatus :=
  if negb (GoTime.is_zero (e_CooldownEnd entry)) && GoTime.before now (e_CooldownEnd entry)
  then
    let reason := if bool_decide (e_LastReason entry = "")
                  then dominantReason (e_FailureCounts entry) else e_LastReason entry in
    let '(provider, model) := splitModelKey k in
    [{| s_Provider := provider; s_Model := model; s_Reason := reason;
        s_Since := e_LastFailure entry; s_Until := e_CooldownEnd entry |}]
  else [].

Definition sorted_keys `{GoRange} (ct : CooldownTracker) : list string :=
  merge_sort String.le (go_range (ct_entries ct)).*1.

Definition Snapshot `{GoRange} (ct : CooldownTracker) (now : Z) : list CooldownStatus :=
  sorted_keys ct ≫= λ k,
    match ct_entries ct !! k with
    | None => []
    | Some entry => snapshot_entry now k entry
    end.

End cooldown.

#[local] Existing Instance slash_keys.

Definition ex_failed : CooldownTracker :=
  MarkFailure (MarkFailure (SetAlerter NewCooldownTracker) 1000 "or" "m" "server" 500 0)
    2000 "or" "m" "server" 503 0.

Example ex_failed_until :
  CooldownRemaining ex_failed 2000 "or" "m" = 3 * GoTime.minute ∧
  IsAvailable ex_failed (2000 + 3 * GoTime.minute) "or" "m" = true ∧
  ErrorCount ex_failed "or" "m" = 2 ∧ ct_alerts ex_failed = [].
Proof. split_and!; reflexivity. Qed.

(** ** Lemmas *)

(** A policy's durations are durations, and none is negative. *)
Definition duration_ok (d : Z) : Prop := 0 ≤ d ≤ max_int64.

Definition policy_ok (p : CooldownPolicy) : Prop :=
  duration_ok (BillingAuth p) ∧ duration_ok (RateLimit p) ∧ duration_ok (BadRequest p) ∧
  duration_ok (ClientError p) ∧ duration_ok (ServerError p).

Lemma CategoryCooldown_range p status : policy_ok p → duration_ok (CategoryCooldown p status).
Proof.
  intros (? & ? & ? & ? & ?). unfold CategoryCooldown.
  repeat case_if; auto; unfold duration_ok, max_int64; lia.
Qed.

Lemma CategoryCooldown_nonneg p status : policy_ok p → 0 ≤ CategoryCooldown p status.
Proof. intros Hp. apply (CategoryCooldown_range p status Hp). Qed.

Lemma cooldownEscalation_pos i :
  0 ≤ i < escalation_steps → 0 < nth (Z.to_nat i) cooldownEscalation 0.
Proof.
  unfold escalation_steps. simpl. intros Hi.
  assert (i = 0 ∨ i = 1 ∨ i = 2) as [->|[->| ->]] by lia; reflexivity.
Qed.

Lemma cooldownForFailure_pos p n status :
  policy_ok p → CategoryCooldown p status ≠ 0 → 0 < cooldownForFailure p n status.
Proof.
  intros Hp Hc. pose proof (CategoryCooldown_nonneg p status Hp).
  unfold cooldownForFailure. rewrite (proj2 (Z.eqb_neq _ _) Hc).
  repeat case_if; try lia. zb. apply cooldownEscalation_pos. lia.
Qed.

Lemma failure_cooldown_pos p n status ra :
  policy_ok p → CategoryCooldown p status ≠ 0 → 0 < failure_cooldown p n status ra.
Proof.
  intros Hp Hc. unfold failure_cooldown. repeat case_if; zb; try done.
  by apply cooldownForFailure_pos.
Qed.

Section lemmas.
Context `{SpawnLLM}.
Implicit Types ct : CooldownTracker.

Lemma send_alert_fields ct provider model reason status n d :
  ct_entries (send_alert ct provider model reason status n d) = ct_entries ct ∧
  ct_failureWindow (send_alert ct provider model reason status n d) = ct_failureWindow ct ∧
  ct_policy (send_alert ct provider model reason status n d) = ct_policy ct ∧
  ct_alerter (send_alert ct provider model reason status n d) = ct_alerter ct.
Proof. unfold send_alert. repeat case_if; done. Qed.

(** The entry of the failed model after a failure. *)
Definition failed_entry ct now provider model reason status ra : cooldownEntry :=
  let entry := window_reset ct now (getOrCreate ct (ModelKey provider model)) in
  if CategoryCooldown (ct_policy ct) status =? 0 then entry
  else
    {| e_ErrorCount := e_ErrorCount entry + 1;
       e_FailureCounts :=
         <[reason := count_of (e_FailureCounts entry) reason + 1]> (e_FailureCounts entry);
       e_CooldownEnd :=
         GoTime.add now (failure_cooldown (ct_policy ct) (e_ErrorCount entry + 1) status ra);
       e_LastReason := reason;
       e_LastFailure := now |}.

Lemma MarkFailure_entries ct now provider model reason status ra :
  ct_entries (MarkFailure ct now provider model reason status ra) =
  <[ModelKey provider model := failed_entry ct now provider model reason status ra]>
    (ct_entries ct).
Proof.
  unfold MarkFailure, failed_entry. cbv zeta. case_if; [done|].
  by rewrite (proj1 (send_alert_fields _ _ _ _ _ _ _)).
Qed.

Lemma MarkFailure_config ct now provider model reason status ra :
  ct_policy (MarkFailure ct now provider model reason status ra) = ct_policy ct ∧
  ct_failureWindow (MarkFailure ct now provider model reason status ra) = ct_failureWindow ct.
Proof.
  unfold MarkFailure. cbv zeta. case_if; [done|].
  destruct (send_alert_fields (with_entries ct (<[ModelKey provider model :=
    failed_entry ct now provider model reason status ra]> (ct_entries ct)))
    provider model reason status
    (e_ErrorCount (window_reset ct now (getOrCreate ct (ModelKey provider model))) + 1)
    (failure_cooldown (ct_policy ct)
      (e_ErrorCount (window_reset ct now (getOrCreate ct (ModelKey provider model))) + 1)
      status ra)) as (_ & Hw & Hp & _).
  unfold failed_entry in Hw, Hp. rewrite Heqb in Hw, Hp. by rewrite Hp, Hw.
Qed.

Lemma MarkFailure_lookup ct now provider model reason status ra k :
  ct_entries (MarkFailure ct now provider model reason status ra) !! k =
  if decide (ModelKey provider model = k)
  then Some (failed_entry ct now provider model reason status ra)
  else ct_entries ct !! k.
Proof. by rewrite MarkFailure_entries, lookup_insert. Qed.

Lemma entry_available_spec now e :
  entry_available now e = true ↔ e_CooldownEnd e = 0 ∨ e_CooldownEnd e ≤ now.
Proof.
  unfold entry_available, GoTime.is_zero, GoTime.before, GoTime.zero_time.
  rewrite orb_true_iff, negb_true_iff, Z.eqb_eq, Z.ltb_ge. done.
Qed.

Lemma entry_available_mono now now' e :
  now ≤ now' → entry_available now e = true → entry_available now' e = true.
Proof. rewrite !entry_available_spec. lia. Qed.

Lemma window_reset_end ct now e :
  e_CooldownEnd (window_reset ct now e) = e_CooldownEnd e.
Proof. unfold window_reset. by case_if. Qed.

Lemma zero_entry_available now : entry_available now zero_entry = true.
Proof. done. Qed.

Lemma IsAvailable_default ct now p m :
  IsAvailable ct now p m = entry_available now (getOrCreate ct (ModelKey p m)).
Proof. unfold IsAvailable, getOrCreate. by destruct (ct_entries ct !! _). Qed.

(** *** Failure counts *)

Definition total (m : gmap string Z) : Z := map_fold (λ _ n acc, n + acc) 0 m.

Lemma total_insert_new m r n : m !! r = None → total (<[r := n]> m) = n + total m.
Proof. intros Hr. unfold total. rewrite map_fold_insert_L; [done| |done]. intros. lia. Qed.

Lemma total_succ m r : total (<[r := count_of m r + 1]> m) = total m + 1.
Proof.
  unfold count_of. destruct (m !! r) as [n|] eqn:Hr; simpl.
  - rewrite <- insert_delete_eq, total_insert_new by apply lookup_delete_eq.
    rewrite <- (insert_id m r n Hr) at 2.
    rewrite <- insert_delete_eq, total_insert_new by apply lookup_delete_eq. lia.
  - rewrite total_insert_new by done. lia.
Qed.

(** *** The invariant *)

(** What every entry of a tracker satisfies. *)
Record entry_inv (e : cooldownEntry) : Prop := {
  inv_total : e_ErrorCount e = total (e_FailureCounts e);
  inv_count : 0 ≤ e_ErrorCount e;
  inv_end : e_CooldownEnd e = 0 ∨ 0 < e_LastFailure e < e_CooldownEnd e;
  inv_reason : e_LastReason e = "" → e_FailureCounts e = ∅
}.

Record tracker_inv ct : Prop := {
  inv_policy : policy_ok (ct_policy ct);
  inv_entries : map_Forall (λ _, entry_inv) (ct_entries ct)
}.

Lemma zero_entry_inv : entry_inv zero_entry.
Proof. split; simpl; auto; lia. Qed.

Lemma getOrCreate_inv ct k : tracker_inv ct → entry_inv (getOrCreate ct k).
Proof.
  intros [_ Hm]. unfold getOrCreate. destruct (ct_entries ct !! k) as [e|] eqn:He; simpl.
  - by apply (Hm k e).
  - apply zero_entry_inv.
Qed.

Lemma window_reset_inv ct now e : entry_inv e → entry_inv (window_reset ct now e).
Proof.
  intros He. unfold window_reset. case_if; [|done]. destruct He. split; simpl; auto; lia.
Qed.

Lemma failed_entry_inv ct now provider model reason status ra :
  tracker_inv ct → 0 < now → reason ≠ "" →
  entry_inv (failed_entry ct now provider model reason status ra).
Proof.
  intros Hct Hnow Hr. unfold failed_entry. cbv zeta.
  pose proof (window_reset_inv ct now _ (getOrCreate_inv ct (ModelKey provider model) Hct)) as He.
  case_if; [done|]. zb. destruct He. split; simpl.
  - by rewrite total_succ, inv_total0.
  - lia.
  - right. unfold GoTime.add.
    pose proof (failure_cooldown_pos (ct_policy ct)
      (e_ErrorCount (window_reset ct now (getOrCreate ct (ModelKey provider model))) + 1)
      status ra (inv_policy _ Hct) Heqb). lia.
  - done.
Qed.

Lemma MarkFailure_inv ct now provider model reason status ra :
  tracker_inv ct → 0 < now → reason ≠ "" →
  tracker_inv (MarkFailure ct now provider model reason status ra).
Proof.
  intros Hct Hnow Hr.
  destruct (MarkFailure_config ct now provider model reason status ra) as [Hp _].
  split; [rewrite Hp; apply Hct|]. rewrite MarkFailure_entries.
  apply map_Forall_insert_2; [by apply failed_entry_inv|apply Hct].
Qed.

Lemma MarkSuccess_inv ct provider model :
  tracker_inv ct → tracker_inv (MarkSuccess ct provider model).
Proof.
  intros [Hp Hm]. unfold MarkSuccess. destruct (ct_entries ct !! _); [|done].
  split; [done|]. simpl. apply map_Forall_insert_2; [|done]. split; simpl; auto; lia.
Qed.

Lemma Clear_inv ct provider model : tracker_inv ct → tracker_inv (Clear ct provider model).1.
Proof.
  intros [Hp Hm]. unfold Clear. destruct (ct_entries ct !! _); [|done].
  split; [done|]. simpl. by apply map_Forall_delete.
Qed.

Lemma Reset_inv ct : tracker_inv ct → tracker_inv (Reset ct).
Proof. intros [Hp Hm]. split; [done|]. simpl. apply map_Forall_empty. Qed.

(** *** Traces of calls *)

Inductive call :=
| CFailure (now : Z) (provider model reason : string) (status retryAfter : Z)
| CSuccess (provider model : string)
| CClear (provider model : string)
| CReset
| CPolicy (p : CooldownPolicy)
| CAlerter.

Definition apply_call ct (c : call) : CooldownTracker :=
  match c with
  | CFailure now provider model reason status ra =>
      MarkFailure ct now provider model reason status ra
  | CSuccess provider model => MarkSuccess ct provider model
  | CClear provider model => (Clear ct provider model).1
  | CReset => Reset ct
  | CPolicy p => SetPolicy ct p
  | CAlerter => SetAlerter ct
  end.

(** The calls the program makes: after the zero time, with a reason, and with
    policies that have no negative duration. *)
Definition call_ok (c : call) : Prop :=
  match c with
  | CFailure now _ _ reason _ _ => 0 < now ∧ reason ≠ ""
  | CPolicy p => policy_ok p
  | _ => True
  end.

Definition run_calls ct (cs : list call) : CooldownTracker := fold_left apply_call cs ct.

Lemma apply_call_inv ct c : tracker_inv ct → call_ok c → tracker_inv (apply_call ct c).
Proof.
  intros Hct Hc. destruct c; simpl in *.
  - destruct Hc. by apply MarkFailure_inv.
  - by apply MarkSuccess_inv.
  - by apply Clear_inv.
  - by apply Reset_inv.
  - split; [done|apply Hct].
  - split; apply Hct.
Qed.

Lemma run_calls_inv ct cs :
  tracker_inv ct → Forall call_ok cs → tracker_inv (run_calls ct cs).
Proof.
  revert ct. induction cs as [|c cs IH]; intros ct Hct Hcs; [done|].
  apply Forall_cons in Hcs as [Hc Hcs]. simpl. apply IH; [by apply apply_call_inv|done].
Qed.

Lemma new_tracker_inv p : policy_ok p → tracker_inv (NewCooldownTrackerWithPolicy p).
Proof. intros Hp. split; [done|]. simpl. apply map_Forall_empty. Qed.

(** *** Reasons *)

Lemma dominantReason_empty `{GoRange} : dominantReason ∅ = "".
Proof.
  unfold dominantReason. assert (go_range (∅ : gmap string Z) = []) as ->; [|done].
  apply Permutation_nil_r. rewrite go_range_perm, map_to_list_empty. done.
Qed.


(** *** Consecutive failures *)

(** The step of the escalation for the [n]-th consecutive failure. *)
Definition escalation_step (cat n : Z) : Z :=
  if n =? 1 then 1 * GoTime.minute
  else if n =? 2 then 3 * GoTime.minute
  else if n =? 3 then 5 * GoTime.minute
  else cat.

Lemma cooldownForFailure_step p n status :
  1 ≤ n → CategoryCooldown p status ≠ 0 →
  status ≠ 401 → status ≠ 402 → status ≠ 403 →
  cooldownForFailure p n status = escalation_step (CategoryCooldown p status) n.
Proof.
  intros Hn Hc H1 H2 H3. unfold cooldownForFailure, escalation_step.
  rewrite (proj2 (Z.eqb_neq _ _) Hc), (proj2 (Z.eqb_neq _ _) H1),
    (proj2 (Z.eqb_neq _ _) H2), (proj2 (Z.eqb_neq _ _) H3). simpl orb. cbv iota.
  rewrite (proj2 (Z.leb_le _ _) Hn). change escalation_steps with 3. simpl andb.
  destruct (n <=? 3) eqn:H4; zb.
  - assert (n = 1 ∨ n = 2 ∨ n = 3) as [->|[->| ->]] by lia; reflexivity.
  - by repeat case_if; zb; try lia.
Qed.

(** A failure of one model, as (time, reason, status). *)
Definition failure_call (provider model : string) (f : Z * string * Z) : call :=
  let '(now, reason, status) := f in CFailure now provider model reason status 0.

(** Failures later than [prev], each within the failure window of the one before. *)
Fixpoint spaced (prev : Z) (fs : list (Z * string * Z)) : Prop :=
  match fs with
  | [] => True
  | (now, _, _) :: fs' => prev < now ≤ prev + defaultFailureWindow ∧ spaced now fs'
  end.

(** [n] failures counted, the last at [prev]; the first may come any time. *)
Record streak (p : CooldownPolicy) (key : string) (n prev : Z) ct : Prop := {
  st_policy : ct_policy ct = p;
  st_window : ct_failureWindow ct = defaultFailureWindow;
  st_count : e_ErrorCount (getOrCreate ct key) = n;
  st_last : e_LastFailure (getOrCreate ct key) = prev ∧ 0 ≤ prev
}.

Lemma streak_failure p provider model n prev ct now reason status :
  streak p (ModelKey provider model) n prev ct →
  prev < now ≤ prev + defaultFailureWindow ∨ prev = 0 ∧ 0 < now →
  CategoryCooldown p status ≠ 0 →
  streak p (ModelKey provider model) (n + 1) now
    (MarkFailure ct now provider model reason status 0) ∧
  e_CooldownEnd (getOrCreate (MarkFailure ct now provider model reason status 0)
    (ModelKey provider model)) = now + cooldownForFailure p (n + 1) status.
Proof.
  intros [Hp Hw Hn [Hl Hl0]] Ht Hc.
  assert (Hwr : window_reset ct now (getOrCreate ct (ModelKey provider model)) =
                getOrCreate ct (ModelKey provider model)).
  { unfold window_reset, GoTime.is_zero. rewrite Hw, Hl.
    destruct (prev =? 0) eqn:H0; simpl; [done|]. zb.
    rewrite (proj2 (Z.ltb_ge _ _)); [done|].
    apply GoTime.sub_le_iff; [by vm_compute|lia]. }
  assert (Hg : getOrCreate (MarkFailure ct now provider model reason status 0)
    (ModelKey provider model) = failed_entry ct now provider model reason status 0).
  { unfold getOrCreate. by rewrite MarkFailure_lookup, decide_True. }
  destruct (MarkFailure_config ct now provider model reason status 0) as [Hp' Hw'].
  unfold failed_entry in Hg. rewrite Hwr, Hp in Hg.
  rewrite (proj2 (Z.eqb_neq _ _) Hc) in Hg. split; [split|].
  - by rewrite Hp'.
  - by rewrite Hw'.
  - rewrite Hg. simpl. by rewrite Hn.
  - rewrite Hg. simpl. lia.
  - rewrite Hg. simpl. by rewrite Hn.
Qed.

Lemma streak_failures p provider model n prev ct fs gs :
  streak p (ModelKey provider model) n prev ct →
  spaced prev (fs ++ gs) → Forall (λ f, CategoryCooldown p f.2 ≠ 0) fs →
  ∃ prev', streak p (ModelKey provider model) (n + Z.of_nat (length fs)) prev'
    (run_calls ct (map (failure_call provider model) fs)) ∧ spaced prev' gs.
Proof.
  revert n prev ct. induction fs as [|[[now reason] status] fs IH]; intros n prev ct Hs Hsp Hc.
  - exists prev. simpl. by rewrite Z.add_0_r.
  - destruct Hsp as [Ht Hsp]. apply Forall_cons in Hc as [Hc Hcs].
    destruct (streak_failure p provider model n prev ct now reason status Hs (or_introl Ht) Hc)
      as [Hs' _].
    destruct (IH _ _ _ Hs' Hsp Hcs) as (prev' & Hs'' & Hp').
    exists prev'. split; [|done].
    simpl length. rewrite Nat2Z.inj_succ. replace (n + Z.succ (Z.of_nat (length fs)))
      with (n + 1 + Z.of_nat (length fs)) by lia. exact Hs''.
Qed.

Lemma streak_new p key : streak p key 0 0 (NewCooldownTrackerWithPolicy p).
Proof. by split. Qed.

(** *** Snapshots *)

Lemma snapshot_entry_cases `{GoRange} now k e :
  (entry_available now e = true ∧ snapshot_entry now k e = []) ∨
  (entry_available now e = false ∧ ∃ st, snapshot_entry now k e = [st] ∧
    (s_Provider st, s_Model st) = splitModelKey k ∧ s_Until st = e_CooldownEnd e ∧ now < s_Until st).
Proof.
  unfold snapshot_entry, entry_available, GoTime.before.
  destruct (GoTime.is_zero (e_CooldownEnd e)); simpl; [by left|].
  destruct (now <? e_CooldownEnd e) eqn:Hb; simpl; [right|by left].
  split; [done|]. zb. destruct (splitModelKey k) as [pr mo]. eexists. by split.
Qed.

(** The keys [Snapshot] reports. *)
Definition parked_key ct (now : Z) (k : string) : bool :=
  match ct_entries ct !! k with
  | None => false
  | Some e => negb (entry_available now e)
  end.

Lemma Snapshot_keys `{GoRange} ct now :
  map (λ st, (s_Provider st, s_Model st)) (Snapshot ct now) =
  map splitModelKey (keep (parked_key ct now) (sorted_keys ct)).
Proof.
  unfold Snapshot. set (f := λ k, _ : list CooldownStatus).
  induction (sorted_keys ct) as [|k ks IH]; [done|].
  change ((k :: ks) ≫= f) with (f k ++ (ks ≫= f)).
  rewrite map_app, IH. unfold f at 1. simpl keep. unfold parked_key at 2.
  destruct (ct_entries ct !! k) as [e|]; [|done].
  destruct (snapshot_entry_cases now k e) as [[-> ->]|[-> (st & -> & Hk & _)]]; simpl; [done|].
  by rewrite Hk.
Qed.

Lemma elem_of_sorted_keys `{GoRange} ct k :
  k ∈ sorted_keys ct ↔ is_Some (ct_entries ct !! k).
Proof.
  unfold sorted_keys. rewrite merge_sort_Permutation. rewrite list_elem_of_fmap. split.
  - intros ([k' e] & -> & Hin%elem_of_go_range). simpl. by eexists.
  - intros [e He]. exists (k, e). split; [done|]. by apply elem_of_go_range.
Qed.

Lemma sorted_keys_sorted `{GoRange} ct :
  StronglySorted String.le (sorted_keys ct) ∧ NoDup (sorted_keys ct).
Proof.
  unfold sorted_keys. split; [apply StronglySorted_merge_sort; apply _|].
  rewrite merge_sort_Permutation. apply go_range_NoDup.
Qed.

End lemmas.

(** ** The interface of a cooldown tracker

    What the fallback chain and the summarisation chain ask of a tracker, and
    what they may rely on. [gate_ok] is the tracker's invariant. *)
Class CooldownGate (T : Type) := {
  gate_available : T → Z → string → string → bool;
  gate_remaining : T → Z → string → string → Z;
  gate_reason : T → string → string → string;
  gate_fail : T → Z → string → string → string → Z → Z → T;
  gate_success : T → string → string → T;
  gate_cools : T → Z → bool;
  gate_key : string → string → string;
  gate_ok : T → Prop
}.

Class CooldownGateLaws (T : Type) `{CooldownGate T} := {
  gate_success_ok : ∀ t p m, gate_ok t → gate_ok (gate_success t p m);
  gate_success_available : ∀ t now p m,
    gate_available (gate_success t p m) now p m = true;
  gate_success_other : ∀ t now p m p' m',
    gate_key p m ≠ gate_key p' m' →
    gate_available (gate_success t p m) now p' m' = gate_available t now p' m';
  gate_fail_ok : ∀ t now p m r s ra,
    gate_ok t → 0 < now → r ≠ "" → gate_ok (gate_fail t now p m r s ra);
  gate_fail_parks : ∀ t now p m r s ra,
    gate_ok t → 0 < now → gate_cools t s = true →
    gate_available (gate_fail t now p m r s ra) now p m = false;
  gate_fail_ignored : ∀ t now now' p m r s ra p' m',
    gate_cools t s = false →
    gate_available (gate_fail t now p m r s ra) now' p' m' = gate_available t now' p' m';
  gate_fail_other : ∀ t now now' p m r s ra p' m',
    gate_key p m ≠ gate_key p' m' →
    gate_available (gate_fail t now p m r s ra) now' p' m' = gate_available t now' p' m';
  gate_fail_cools : ∀ t now p m r s ra s',
    gate_cools (gate_fail t now p m r s ra) s' = gate_cools t s';
  gate_available_mono : ∀ t now now' p m,
    now ≤ now' → gate_available t now p m = true → gate_available t now' p m = true
}.

#[export] Instance tracker_gate `{SpawnLLM} `{GoRange} : CooldownGate CooldownTracker := {|
  gate_available := IsAvailable;
  gate_remaining := CooldownRemaining;
  gate_reason := LastReason;
  gate_fail := MarkFailure;
  gate_success := MarkSuccess;
  gate_cools := λ ct s, negb (CategoryCooldown (ct_policy ct) s =? 0);
  gate_key := ModelKey;
  gate_ok := tracker_inv
|}.

Section properties.
Context `{SpawnLLM}.

Lemma MarkFailure_IsAvailable ct now now' p m r s ra p' m' :
  IsAvailable (MarkFailure ct now p m r s ra) now' p' m' =
  if decide (ModelKey p m = ModelKey p' m')
  then entry_available now' (failed_entry ct now p m r s ra)
  else IsAvailable ct now' p' m'.
Proof. unfold IsAvailable. rewrite MarkFailure_lookup. by case_decide. Qed.

Lemma MarkFailure_ignored ct now now' p m r s ra p' m' :
  CategoryCooldown (ct_policy ct) s = 0 →
  IsAvailable (MarkFailure ct now p m r s ra) now' p' m' = IsAvailable ct now' p' m'.
Proof.
  intros Hs. rewrite MarkFailure_IsAvailable. case_decide as Hk; [|done].
  rewrite IsAvailable_default, <- Hk. unfold failed_entry. rewrite Hs. simpl.
  apply eq_true_iff_eq. rewrite !entry_available_spec, window_reset_end. done.
Qed.

Lemma MarkFailure_until ct now now' p m r s ra :
  policy_ok (ct_policy ct) → 0 < now → CategoryCooldown (ct_policy ct) s ≠ 0 →
  IsAvailable (MarkFailure ct now p m r s ra) now' p m =
  (e_CooldownEnd (failed_entry ct now p m r s ra) <=? now').
Proof.
  intros Hp Hnow Hs. rewrite MarkFailure_IsAvailable, decide_True by done.
  apply eq_true_iff_eq. rewrite entry_available_spec, Z.leb_le.
  unfold failed_entry. rewrite (proj2 (Z.eqb_neq _ _) Hs). simpl. unfold GoTime.add.
  pose proof (failure_cooldown_pos (ct_policy ct)
    (e_ErrorCount (window_reset ct now (getOrCreate ct (ModelKey p m))) + 1) s ra Hp Hs). lia.
Qed.

Lemma MarkSuccess_IsAvailable ct now p m p' m' :
  IsAvailable (MarkSuccess ct p m) now p' m' =
  if decide (ModelKey p m = ModelKey p' m') then true else IsAvailable ct now p' m'.
Proof.
  unfold MarkSuccess, IsAvailable. destruct (ct_entries ct !! ModelKey p m) as [e|] eqn:He; simpl.
  - rewrite lookup_insert. case_decide; done.
  - case_decide as Hk; [|done]. by rewrite <- Hk, He.
Qed.

#[export] Instance tracker_gate_laws `{GoRange} : CooldownGateLaws CooldownTracker.
Proof.
  split; simpl.
  - intros. by apply MarkSuccess_inv.
  - intros. by rewrite MarkSuccess_IsAvailable, decide_True.
  - intros. by rewrite MarkSuccess_IsAvailable, decide_False.
  - intros. by apply MarkFailure_inv.
  - intros t now p m r s ra Hok Hnow Hs. zb.
    rewrite MarkFailure_until; [|apply Hok|done|done]. apply Z.leb_gt.
    unfold failed_entry. rewrite (proj2 (Z.eqb_neq _ _) Hs). simpl. unfold GoTime.add.
    pose proof (failure_cooldown_pos (ct_policy t)
      (e_ErrorCount (window_reset t now (getOrCreate t (ModelKey p m))) + 1) s ra
      (inv_policy _ Hok) Hs). lia.
  - intros t now now' p m r s ra p' m' Hs. zb. by apply MarkFailure_ignored.
  - intros. by rewrite MarkFailure_IsAvailable, decide_False.
  - intros t now p m r s ra s'.
    by rewrite (proj1 (MarkFailure_config t now p m r s ra)).
  - intros t now now' p m Hle. rewrite !IsAvailable_default. by apply entry_available_mono.
Qed.

(** A failure with a status that cools parks exactly that model: from the
    failure it is unavailable until the failure time plus the cooldown, which
    is positive, is the server's Retry-After capped at five minutes when one
    was given, and is available from then on; every other model is unaffected. *)
Theorem MarkFailure_parks (ct : CooldownTracker) (now : Z) (p m r : string) (s ra : Z)
  (Hinv : tracker_inv ct) (Hnow : 0 < now)
  (Hcool : CategoryCooldown (ct_policy ct) s ≠ 0) :
  let ct' := MarkFailure ct now p m r s ra in
  let d := failure_cooldown (ct_policy ct) (ErrorCount ct' p m) s ra in
  0 < d ∧ (0 < ra → d = Z.min ra maxRetryAfterCooldown) ∧
  (∀ t, IsAvailable ct' t p m = (now + d <=? t)) ∧
  (∀ t p' m', ModelKey p m ≠ ModelKey p' m' →
     IsAvailable ct' t p' m' = IsAvailable ct t p' m').
Proof.
  cbv zeta. assert (He : ErrorCount (MarkFailure ct now p m r s ra) p m =
    e_ErrorCount (window_reset ct now (getOrCreate ct (ModelKey p m))) + 1).
  { unfold ErrorCount. rewrite MarkFailure_lookup, decide_True by done.
    unfold failed_entry. by rewrite (proj2 (Z.eqb_neq _ _) Hcool). }
  rewrite He. split_and!.
  - apply failure_cooldown_pos; [apply Hinv|done].
  - intros Hra. unfold failure_cooldown. rewrite (proj2 (Z.ltb_lt _ _) Hra).
    case_if; zb; lia.
  - intros t. rewrite MarkFailure_until; [|apply Hinv|done|done].
    unfold failed_entry. by rewrite (proj2 (Z.eqb_neq _ _) Hcool).
  - intros t p' m' Hk. by rewrite MarkFailure_IsAvailable, decide_False.
Qed.

(** The escalation: the [n]-th consecutive failure of a model of a fresh
    tracker, with failures no further apart than the failure window, no
    Retry-After and a status that is not an authentication or billing failure,
    parks it for 1, 3 and 5 minutes and from the fourth on for the category's
    cooldown. *)
Theorem cooldown_escalation (p : CooldownPolicy) (provider model : string)
  (t0 : Z) (r0 : string) (s0 : Z) (fs : list (Z * string * Z)) (now : Z) (r : string) (s : Z)
  (Hp : policy_ok p) (H0 : 0 < t0)
  (Hsp : spaced t0 (fs ++ [(now, r, s)]))
  (Hcool : Forall (λ f, CategoryCooldown p f.2 ≠ 0) ((t0, r0, s0) :: fs ++ [(now, r, s)]))
  (Hs : s ≠ 401 ∧ s ≠ 402 ∧ s ≠ 403) :
  CooldownRemaining
    (run_calls (NewCooldownTrackerWithPolicy p)
      (map (failure_call provider model) ((t0, r0, s0) :: fs ++ [(now, r, s)])))
    now provider model =
  escalation_step (CategoryCooldown p s) (Z.of_nat (length fs) + 2).
Proof.
  apply Forall_cons in Hcool as [Hc0 Hcool]. apply Forall_app in Hcool as [Hcs Hc].
  apply Forall_cons in Hc as [Hc _]. simpl in Hc0, Hc.
  destruct (streak_failure p provider model 0 0 (NewCooldownTrackerWithPolicy p) t0 r0 s0)
    as [Hst _]; [apply streak_new|by right|done|].
  destruct (streak_failures p provider model _ _ _ fs _ Hst Hsp Hcs) as (prev & Hst' & Hsp').
  simpl in Hsp'. destruct Hsp' as [Ht _].
  destruct (streak_failure p provider model _ _ _ now r s Hst' (or_introl Ht) Hc) as [[] He].
  simpl map. unfold run_calls in *. simpl fold_left. rewrite map_app, fold_left_app.
  simpl fold_left.
  rewrite cooldownForFailure_step in He by (try lia; tauto).
  replace (0 + 1 + Z.of_nat (length fs) + 1) with (Z.of_nat (length fs) + 2) in He by lia.
  set (ct := fold_left _ _ _) in *. set (d := escalation_step _ _) in *.
  assert (Hd : 0 < d ≤ max_int64).
  { pose proof (CategoryCooldown_range p s Hp) as [? ?]. unfold d, escalation_step.
    repeat case_if; zb; try lia; by vm_compute. }
  unfold CooldownRemaining. rewrite MarkFailure_lookup, decide_True by done.
  unfold getOrCreate in He. rewrite MarkFailure_lookup, decide_True in He by done. simpl in He.
  rewrite He. unfold GoTime.is_zero, GoTime.before, GoTime.sub, min_int64 in *.
  destruct st_last0 as [_ Hn]. simpl in Hn.
  rewrite (proj2 (Z.eqb_neq _ _)), (proj2 (Z.ltb_lt _ _)) by lia. simpl. lia.
Qed.

(** Whatever sequence of calls the program makes, each model's error count is the
    sum of its failures by reason, an active cooldown ends after the failure
    that set it, and the reason reported does not depend on the order in which
    the map of counts is visited. *)
Theorem tracker_reachable_inv (p : CooldownPolicy) (cs : list call)
  (Hp : policy_ok p) (Hcs : Forall call_ok cs) (range1 range2 : GoRange) :
  let ct := run_calls (NewCooldownTrackerWithPolicy p) cs in
  map_Forall (λ _ e, e_ErrorCount e = total (e_FailureCounts e) ∧
    (e_CooldownEnd e = 0 ∨ e_LastFailure e < e_CooldownEnd e)) (ct_entries ct) ∧
  ∀ provider model,
    @LastReason _ range1 ct provider model = @LastReason _ range2 ct provider model.
Proof.
  intros ct. pose proof (run_calls_inv _ cs (new_tracker_inv p Hp) Hcs) as [_ Hm].
  fold ct in Hm. split.
  - intros k e He. destruct (Hm k e He) as [? ? Hend _]. split; [done|].
    destruct Hend; [by left|right; lia].
  - intros provider model. unfold LastReason.
    destruct (ct_entries ct !! ModelKey provider model) as [e|] eqn:He; [|done].
    destruct (Hm _ e He) as [_ _ _ Hr].
    case_bool_decide as Hl; [|done]. rewrite Hr by done. simpl.
    by rewrite !dominantReason_empty.
Qed.

(** [Snapshot] lists exactly the models that are not available, once each
    and in the order of their keys. *)
Lemma Snapshot_spec `{GoRange} (ct : CooldownTracker) (now : Z) :
  ∃ ks, StronglySorted String.le ks ∧ NoDup ks ∧
    map (λ st, (s_Provider st, s_Model st)) (Snapshot ct now) = map splitModelKey ks ∧
    ∀ k, k ∈ ks ↔ ∃ e, ct_entries ct !! k = Some e ∧ entry_available now e = false.
Proof.
  destruct (sorted_keys_sorted ct) as [Hs Hn].
  exists (keep (parked_key ct now) (sorted_keys ct)). split_and!.
  - induction Hs as [|k ks Hs IH Hall]; simpl; [constructor|].
    apply NoDup_cons in Hn as [_ Hn]. case_if; [|by apply IH]. constructor; [by apply IH|].
    rewrite Forall_forall in Hall |- *. intros k' [Hk' _]%elem_of_keep. by apply Hall.
  - eapply sublist_NoDup; [done|apply keep_sublist].
  - apply Snapshot_keys.
  - intros k. rewrite elem_of_keep, elem_of_sorted_keys. unfold parked_key. split.
    + intros [[e He] Hp]. rewrite He in Hp. exists e. split; [done|]. by zb.
    + intros (e & -> & He). by rewrite He.
Qed.

End properties.

(** ** Witnesses *)

Lemma MarkFailure_parks_witness :
  let ct' := MarkFailure NewCooldownTracker 1000 "or" "m" "rate_limit" 429 (7 * GoTime.minute) in
  let d := failure_cooldown DefaultCooldownPolicy (ErrorCount ct' "or" "m") 429 (7 * GoTime.minute) in
  0 < d ∧ (0 < 7 * GoTime.minute → d = Z.min (7 * GoTime.minute) maxRetryAfterCooldown) ∧
  (∀ t, IsAvailable ct' t "or" "m" = (1000 + d <=? t)) ∧
  (∀ t p' m', ModelKey "or" "m" ≠ ModelKey p' m' →
     IsAvailable ct' t p' m' = IsAvailable NewCooldownTracker t p' m').
Proof.
  apply (MarkFailure_parks NewCooldownTracker 1000 "or" "m" "rate_limit" 429 (7 * GoTime.minute)).
  - apply new_tracker_inv. unfold policy_ok, duration_ok. vm_compute. intuition discriminate.
  - lia.
  - discriminate.
Defined.

Lemma cooldown_escalation_witness :
  CooldownRemaining
    (run_calls (NewCooldownTrackerWithPolicy DefaultCooldownPolicy)
      (map (failure_call "or" "m") ((1000, "server", 500) :: [(2000, "server", 503)] ++ [(3000, "server", 500)])))
    3000 "or" "m" =
  escalation_step (CategoryCooldown DefaultCooldownPolicy 500) (Z.of_nat (length [(2000, "server", 503)]) + 2).
Proof.
  apply (cooldown_escalation DefaultCooldownPolicy "or" "m" 1000 "server" 500
    [(2000, "server", 503)] 3000 "server" 500).
  - unfold policy_ok, duration_ok. vm_compute. intuition discriminate.
  - lia.
  - vm_compute. intuition discriminate.
  - repeat constructor; discriminate.
  - repeat split; discriminate.
Defined.

Lemma tracker_reachable_inv_witness :
  let ct := run_calls (NewCooldownTrackerWithPolicy DefaultCooldownPolicy)
    [CAlerter; CFailure 1000 "or" "m" "billing" 402 0; CSuccess "or" "n"] in
  map_Forall (λ _ e, e_ErrorCount e = total (e_FailureCounts e) ∧
    (e_CooldownEnd e = 0 ∨ e_LastFailure e < e_CooldownEnd e)) (ct_entries ct) ∧
  ∀ provider model,
    @LastReason _ ordered_range ct provider model = @LastReason _ ordered_range ct provider model.
Proof.
  apply (tracker_reachable_inv DefaultCooldownPolicy
    [CAlerter; CFailure 1000 "or" "m" "billing" 402 0; CSuccess "or" "n"]).
  - unfold policy_ok, duration_ok. vm_compute. intuition discriminate.
  - repeat constructor; done.
Defined.

(** A failure with a status that never cools is documented as ignored entirely;
    it creates an entry all the same, so clearing the model then reports that a
    cooldown was found. *)
Lemma ignored_failure_creates_entry :
  (Clear NewCooldownTracker "or" "m").2 = false ∧
  (Clear (MarkFailure NewCooldownTracker 1000 "or" "m" "context_limit" 413 0) "or" "m").2 = true.
Proof. split; reflexivity. Qed.
