(* ===== verification/Fallback.v ===== *)
(** * The fallback chain (providers/fallback.go)

    Candidates are tried in order; parked ones are skipped, a failed one is
    recorded with the tracker and the chain moves on. The chain is defined and
    proved against the interface [CooldownGate] of the tracker. The provider
    call, the clock, the request's context and the error classifier are
    parameters; every call may change the environment and, because other
    goroutines share it, the tracker. *)

From stdpp Require Import base gmap strings list.
From Stdlib Require Import ZArith Lia.
From S2P Require Import Prelude GoString Cooldown.

Open Scope string_scope.
Open Scope list_scope.
Open Scope Z_scope.

Definition maxSameModelRetryWait : Z := 3 * GoTime.second.

Record FallbackCandidate := {
  c_Provider : string;
  c_Model : string;
  c_Alias : string
}.

#[export] Instance FallbackCandidate_eq_dec : EqDecision FallbackCandidate.
Proof. solve_decision. Defined.

(** [spawnllm.FailoverError], with the error it wraps. *)
Record FailoverError (Er : Type) := {
  fe_Reason : string;
  fe_Provider : string;
  fe_Model : string;
  fe_Status : Z;
  fe_RetryAfter : Z;
  fe_Wrapped : Er
}.

Arguments fe_Reason {Er}. Arguments fe_Provider {Er}. Arguments fe_Model {Er}.
Arguments fe_Status {Er}. Arguments fe_RetryAfter {Er}. Arguments fe_Wrapped {Er}.

(** [ctx.Err()]. *)
Inductive CtxError := Canceled | DeadlineExceeded.

(** The environment of a call: the chain's parameters that are not code of the
    repository. [E] is the state of everything outside the chain and the
    tracker; [sleep e t d] waits for [d] or for the context to end, and gives the
    context's error when it was the context that ended. *)
Class ChainEnv (Tr E Resp Er : Type) := {
  run : E → Tr → FallbackCandidate → E * Tr * (Resp + Er);
  sleep : E → Tr → Z → E * Tr * option CtxError;
  clock : E → Z;
  ctx_err : E → option CtxError;
  ClassifyError : Er → string → string → option (FailoverError Er);
  IsRetriable : FailoverError Er → bool;
  error_text : Er → string;
  IsImageDimensionError : string → bool;
  IsImageSizeError : string → bool
}.

(** The error recorded for an attempt. *)
Inductive AttemptError (Er : Type) :=
| InCooldown (provider model : string) (remaining : Z)
| RunError (e : Er)
| Classified (fe : FailoverError Er).

Arguments InCooldown {Er}. Arguments RunError {Er}. Arguments Classified {Er}.

Record FallbackAttempt (Er : Type) := {
  at_Provider : string;
  at_Model : string;
  at_Alias : string;
  at_Error : AttemptError Er;
  at_Reason : string;
  at_Duration : Z;
  at_Skipped : bool;
  at_Remaining : Z
}.

Arguments at_Provider {Er}. Arguments at_Model {Er}. Arguments at_Alias {Er}.
Arguments at_Error {Er}. Arguments at_Reason {Er}. Arguments at_Duration {Er}.
Arguments at_Skipped {Er}. Arguments at_Remaining {Er}.

Record FallbackResult (Resp Er : Type) := {
  Response : Resp;
  res_Provider : string;
  res_Model : string;
  res_Alias : string;
  Attempts : list (FallbackAttempt Er)
}.

Arguments Response {Resp Er}. Arguments res_Provider {Resp Er}. Arguments res_Model {Resp Er}.
Arguments res_Alias {Resp Er}. Arguments Attempts {Resp Er}.

Inductive ExecError (Er : Type) :=
| NoCandidates
| ContextError (c : CtxError)
| Unclassified (provider model : string) (e : Er)
| Failover (fe : FailoverError Er)
| Exhausted (attempts : list (FallbackAttempt Er))
| Stuck.

Arguments NoCandidates {Er}. Arguments ContextError {Er}. Arguments Unclassified {Er}.
Arguments Failover {Er}. Arguments Exhausted {Er}. Arguments Stuck {Er}.

(** What the chain did to the outside, in order: provider calls, each with the
    tracker and the time it was made at, and notices. *)
Inductive event (Tr Er : Type) :=
| Ran (c : FallbackCandidate) (t : Tr) (now : Z)
| Notified (passed : list (FallbackAttempt Er)) (next : FallbackCandidate).

Arguments Ran {Tr Er}. Arguments Notified {Tr Er}.

Definition ctx_canceled (o : option CtxError) : bool :=
  match o with Some Canceled => true | _ => false end.

Section chain.
Context {Tr E Resp Er : Type} `{CooldownGate Tr} `{ChainEnv Tr E Resp Er}
  `{SpawnLLM} `{UnicodeData}.

Notation candidate := FallbackCandidate.
Notation attempt := (FallbackAttempt Er).
Notation trace := (list (event Tr Er)).

(** How running one candidate ends. *)
Inductive run_outcome :=
| RSuccess (resp : Resp)
| RCanceled
| RUnclassified (e : Er)
| RNotRetriable (fe : FailoverError Er)
| RContextDone (c : CtxError)
| RRetriable (fe : FailoverError Er) (elapsed : Z)
| RStuck.

(** The [for] loop that calls a candidate and retries it once on a short
    Retry-After; [attempts] counts the calls so far. *)
Fixpoint run_candidate (fuel : nat) (attempts : Z) (c : candidate) (e : E) (t : Tr)
    (tr : trace) : E * Tr * trace * run_outcome :=
  match fuel with
  | O => (e, t, tr, RStuck)
  | S fuel' =>
    let attempts := attempts + 1 in
    let start := clock e in
    let tr := tr ++ [Ran c t start] in
    let '(e, t, res) := run e t c in
    let elapsed := GoTime.sub (clock e) start in
    match res with
    | inl resp => (e, gate_success t (c_Provider c) (c_Model c), tr, RSuccess resp)
    | inr err =>
      if ctx_canceled (ctx_err e) then (e, t, tr, RCanceled)
      else match ClassifyError err (c_Provider c) (c_Model c) with
      | None => (e, t, tr, RUnclassified err)
      | Some fe =>
        if negb (IsRetriable fe) then (e, t, tr, RNotRetriable fe)
        else if (attempts =? 1) && (0 <? fe_RetryAfter fe)
                && (fe_RetryAfter fe <=? maxSameModelRetryWait)
        then
          let '(e, t, done) := sleep e t (fe_RetryAfter fe) in
          match done with
          | None => run_candidate fuel' attempts c e t tr
          | Some oc => (e, t, tr, RContextDone oc)
          end
        else (e, t, tr, RRetriable fe elapsed)
      end
    end
  end.

(** The notice callback, [None] when the caller passed none. *)
Variable notify : option (E → Tr → list attempt → candidate → E * Tr).

Definition send_notice (e : E) (t : Tr) (passed : list attempt) (next : candidate) (tr : trace)
    : E * Tr * trace :=
  match notify with
  | None => (e, t, tr)
  | Some f => let '(e, t) := f e t passed next in (e, t, tr ++ [Notified passed next])
  end.

Definition skipped_attempt (e : E) (t : Tr) (c : candidate) : attempt :=
  let remaining := gate_remaining t (clock e) (c_Provider c) (c_Model c) in
  {| at_Provider := c_Provider c; at_Model := c_Model c; at_Alias := c_Alias c;
     at_Error := InCooldown (c_Provider c) (c_Model c) (GoTime.round remaining GoTime.second);
     at_Reason := gate_reason t (c_Provider c) (c_Model c); at_Duration := 0;
     at_Skipped := true; at_Remaining := remaining |}.

Definition failed_attempt (c : candidate) (fe : FailoverError Er) (elapsed : Z) : attempt :=
  {| at_Provider := c_Provider c; at_Model := c_Model c; at_Alias := c_Alias c;
     at_Error := Classified fe; at_Reason := fe_Reason fe; at_Duration := elapsed;
     at_Skipped := false; at_Remaining := 0 |}.

Definition exec_result : Type := E * Tr * trace * (FallbackResult Resp Er + ExecError Er).

(** The loop over the candidates from some index on; [attempts] and [pending]
    are [result.Attempts] and [pendingSkips] so far. *)
Fixpoint exec_loop (cs : list candidate) (e : E) (t : Tr) (attempts pending : list attempt)
    (tr : trace) : exec_result :=
  match cs with
  | [] => (e, t, tr, inr (Exhausted attempts))
  | c :: rest =>
    if ctx_canceled (ctx_err e) then (e, t, tr, inr (ContextError Canceled))
    else if negb (gate_available t (clock e) (c_Provider c) (c_Model c)) then
      let a := skipped_attempt e t c in
      exec_loop rest e t (attempts ++ [a]) (pending ++ [a]) tr
    else
      let '(e, t, tr) :=
        match pending with [] => (e, t, tr) | _ => send_notice e t pending c tr end in
      let '(e, t, tr, out) := run_candidate 2 0 c e t tr in
      match out with
      | RSuccess resp =>
        (e, t, tr, inl {| Response := resp; res_Provider := c_Provider c; res_Model := c_Model c;
                          res_Alias := c_Alias c; Attempts := attempts |})
      | RCanceled => (e, t, tr, inr (ContextError Canceled))
      | RUnclassified err => (e, t, tr, inr (Unclassified (c_Provider c) (c_Model c) err))
      | RNotRetriable fe => (e, t, tr, inr (Failover fe))
      | RContextDone oc => (e, t, tr, inr (ContextError oc))
      | RRetriable fe elapsed =>
        let t := gate_fail t (clock e) (c_Provider c) (c_Model c)
                   (fe_Reason fe) (fe_Status fe) (fe_RetryAfter fe) in
        let a := failed_attempt c fe elapsed in
        match rest with
        | [] => (e, t, tr, inr (Exhausted (attempts ++ [a])))
        | next :: _ =>
          let '(e, t, tr) := send_notice e t [a] next tr in
          exec_loop rest e t (attempts ++ [a]) [] tr
        end
      | RStuck => (e, t, tr, inr Stuck)
      end
  end.

Definition ExecuteWithNotify (candidates : list candidate) (e : E) (t : Tr) : exec_result :=
  match candidates with
  | [] => (e, t, [], inr NoCandidates)
  | _ => exec_loop candidates e t [] [] []
  end.

Definition image_error (err : Er) : bool :=
  let errMsg := ToLower (error_text err) in
  IsImageDimensionError errMsg || IsImageSizeError errMsg.

(** [ExecuteImage]'s loop: no cooldowns, and image errors abort. *)
Fixpoint image_loop (cs : list candidate) (e : E) (t : Tr) (attempts : list attempt) (tr : trace)
    : exec_result :=
  match cs with
  | [] => (e, t, tr, inr (Exhausted attempts))
  | c :: rest =>
    if ctx_canceled (ctx_err e) then (e, t, tr, inr (ContextError Canceled))
    else
      let start := clock e in
      let tr := tr ++ [Ran c t start] in
      let '(e, t, res) := run e t c in
      let elapsed := GoTime.sub (clock e) start in
      match res with
      | inl resp =>
        (e, t, tr, inl {| Response := resp; res_Provider := c_Provider c; res_Model := c_Model c;
                          res_Alias := c_Alias c; Attempts := attempts |})
      | inr err =>
        if ctx_canceled (ctx_err e) then (e, t, tr, inr (ContextError Canceled))
        else if image_error err then
          (e, t, tr, inr (Failover
             {| fe_Reason := FailoverFormat; fe_Provider := c_Provider c; fe_Model := c_Model c;
                fe_Status := 0; fe_RetryAfter := 0; fe_Wrapped := err |}))
        else
          let a := {| at_Provider := c_Provider c; at_Model := c_Model c; at_Alias := "";
                      at_Error := RunError err; at_Reason := ""; at_Duration := elapsed;
                      at_Skipped := false; at_Remaining := 0 |} in
          image_loop rest e t (attempts ++ [a]) tr
      end
  end.

Definition ExecuteImage (candidates : list candidate) (e : E) (t : Tr) : exec_result :=
  match candidates with
  | [] => (e, t, [], inr NoCandidates)
  | _ => image_loop candidates e t [] []
  end.

End chain.

Arguments exec_result : clear implicits.
Arguments run_outcome : clear implicits.

(** [Execute]: no notices. *)
Definition Execute {Tr E Resp Er} `{CooldownGate Tr} `{ChainEnv Tr E Resp Er}
    (candidates : list FallbackCandidate) (e : E) (t : Tr) : exec_result Tr E Resp Er :=
  ExecuteWithNotify None candidates e t.

(** [FallbackExhaustedError.AllContextLimit]: the loop, with the count of
    attempts that were not skipped. *)
Fixpoint all_context_loop `{SpawnLLM} {Er} (l : list (FallbackAttempt Er)) (nonSkipped : Z)
    : bool :=
  match l with
  | [] => 0 <? nonSkipped
  | a :: l' =>
    if at_Skipped a then all_context_loop l' nonSkipped
    else if negb (bool_decide (at_Reason a = FailoverContextLimit)) then false
    else all_context_loop l' (nonSkipped + 1)
  end.

Definition AllContextLimit `{SpawnLLM} {Er} (attempts : list (FallbackAttempt Er)) : bool :=
  all_context_loop attempts 0.

(** ** Candidates *)

Section candidates.
Context `{SpawnLLM}.
(** [spawnllm.ParseModelRef]: the provider and model a bare reference names. *)
Variable ParseModelRef : string → string → option (string * string).
(** The alias, model and provider [lookup] gives; [None] is a nil function. *)
Variable lookup : option (string → option (string * string * string)).
Variable defaultProvider : string.

Definition candidate_key (c : FallbackCandidate) : string :=
  ModelKey (c_Provider c) (c_Model c) +:+ "#" +:+ c_Alias c.

(** The candidate [addCandidate] would add for a configured string. *)
Definition resolve_raw (raw : string) : option FallbackCandidate :=
  let original := TrimSpace raw in
  if bool_decide (original = "") then None
  else match lookup with
  | Some f =>
    match f original with
    | None => None
    | Some (alias, model, provider) =>
      Some {| c_Provider := provider; c_Model := model; c_Alias := alias |}
    end
  | None =>
    match ParseModelRef original defaultProvider with
    | None => None
    | Some (provider, model) =>
      Some {| c_Provider := provider; c_Model := model; c_Alias := "" |}
    end
  end.

Fixpoint resolve_loop (models : list string) (seen : gset string)
    (candidates : list FallbackCandidate) : list FallbackCandidate :=
  match models with
  | [] => candidates
  | m :: models' =>
    match resolve_raw m with
    | None => resolve_loop models' seen candidates
    | Some c =>
      let key := candidate_key c in
      if bool_decide (key ∈ seen) then resolve_loop models' seen candidates
      else resolve_loop models' ({[key]} ∪ seen) (candidates ++ [c])
    end
  end.

Definition ResolveCandidatesWithLookup (models : list string) : list FallbackCandidate :=
  resolve_loop models ∅ [].
End candidates.

(** [ResolveCandidates]: no lookup. *)
Definition ResolveCandidates `{SpawnLLM}
    (ParseModelRef : string → string → option (string * string))
    (models : list string) (defaultProvider : string) : list FallbackCandidate :=
  ResolveCandidatesWithLookup ParseModelRef None defaultProvider models.

(** [Clear], [Reset] and [CooldownSnapshot] of a chain, whose tracker may be
    nil. *)
Definition chain_Reset (fc : option CooldownTracker) : option CooldownTracker :=
  option_map Reset fc.

Definition chain_Clear `{SpawnLLM} (fc : option CooldownTracker) (provider model : string)
    : option CooldownTracker * bool :=
  match fc with
  | None => (None, false)
  | Some ct => let '(ct, found) := Clear ct provider model in (Some ct, found)
  end.

Definition CooldownSnapshot `{SpawnLLM} `{GoRange} (fc : option CooldownTracker) (now : Z)
    : list CooldownStatus :=
  match fc with
  | None => []
  | Some ct => Snapshot ct now
  end.

(** ** The chain's account of what it did *)

(** The candidates called, in order. *)
Definition calls {Tr Er} (tr : list (event Tr Er)) : list FallbackCandidate :=
  omap (λ ev, match ev with Ran c _ _ => Some c | _ => None end) tr.

Definition notice_ok {Tr Er} (ev : event Tr Er) : Prop :=
  match ev with Notified passed _ => passed ≠ [] | _ => True end.

Definition attempted {Er} (a : FallbackAttempt Er) : string * string * string :=
  (at_Provider a, at_Model a, at_Alias a).

Definition named (c : FallbackCandidate) : string * string * string :=
  (c_Provider c, c_Model c, c_Alias c).

(** [cs] called in order, each not at all, once or twice. *)
Inductive called_in_order : list FallbackCandidate → list FallbackCandidate → Prop :=
| called_nil cs : called_in_order cs []
| called_skip c cs l : called_in_order cs l → called_in_order (c :: cs) l
| called_once c cs l : called_in_order cs l → called_in_order (c :: cs) (c :: l)
| called_twice c cs l : called_in_order cs l → called_in_order (c :: cs) (c :: c :: l).

Lemma called_in_order_length cs l :
  called_in_order cs l → (length l ≤ 2 * length cs)%nat.
Proof. induction 1; simpl; lia. Qed.

(** The first call a candidate gets. *)
Lemma called_first c cs l r :
  l = [c] ∨ l = [c; c] → called_in_order cs r → called_in_order (c :: cs) (l ++ r).
Proof. intros [-> | ->] Hr; simpl; by constructor. Qed.

(** What a result says of the candidates: a success names one of them, after an
    attempt for each one before; an exhausted chain has an attempt for each. *)
Definition accounts {Resp Er} (cs : list FallbackCandidate) (prev : list (FallbackAttempt Er))
    (l : list FallbackCandidate) (res : FallbackResult Resp Er + ExecError Er) : Prop :=
  match res with
  | inl r =>
    ∃ pre c post, cs = pre ++ c :: post ∧ last l = Some c ∧
      named c = (res_Provider r, res_Model r, res_Alias r) ∧
      map attempted (Attempts r) = map attempted prev ++ map named pre
  | inr (Exhausted attempts) => map attempted attempts = map attempted prev ++ map named cs
  | inr Stuck => False
  | inr _ => True
  end.

Lemma calls_app {Tr Er} (tr tr' : list (event Tr Er)) : calls (tr ++ tr') = calls tr ++ calls tr'.
Proof. apply omap_app. Qed.

(** One candidate more at the front. *)
Lemma accounts_cons {Resp Er} c cs prev (a : FallbackAttempt Er) l l'
    (res : FallbackResult Resp Er + ExecError Er) :
  attempted a = named c →
  accounts cs (prev ++ [a]) l res → accounts (c :: cs) prev (l' ++ l) res.
Proof.
  intros Ha. destruct res as [r|[]]; simpl; try done.
  - intros (pre & d & post & -> & Hl & Hd & Hp). exists (c :: pre), d, post.
    split_and!; [done| |done|].
    + destruct l; [done|]. by rewrite last_app_cons.
    + rewrite Hp, map_app. simpl. by rewrite Ha, <- app_assoc.
  - intros ->. rewrite map_app. simpl. by rewrite Ha, <- app_assoc.
Qed.

Section account.
Context {Tr E Resp Er : Type} `{CooldownGate Tr} `{ChainEnv Tr E Resp Er}
  `{SpawnLLM} `{UnicodeData}.
Variable notify : option (E → Tr → list (FallbackAttempt Er) → FallbackCandidate → E * Tr).

Lemma send_notice_trace e t passed next tr e' t' tr' :
  passed ≠ [] → send_notice notify e t passed next tr = (e', t', tr') →
  ∃ ns, tr' = tr ++ ns ∧ calls ns = [] ∧ Forall notice_ok ns.
Proof.
  intros Hp. unfold send_notice. destruct notify as [f|].
  - destruct (f e t passed next) as [e1 t1]. intros [= _ _ <-].
    exists [Notified passed next]. split_and!; [done..|]. by repeat constructor.
  - intros [= _ _ <-]. exists []. rewrite app_nil_r. by split_and!.
Qed.

(** One call of a candidate: it decides the outcome, or it was the first and the
    candidate is called again. *)
Lemma run_candidate_step f k c e t tr e' t' tr' out :
  run_candidate (S f) k c e t tr = (e', t', tr', out) →
  (tr' = tr ++ [Ran c t (clock e)] ∧ out ≠ RStuck) ∨
  (k = 0 ∧ ∃ e1 t1,
    run_candidate f 1 c e1 t1 (tr ++ [Ran c t (clock e)]) = (e', t', tr', out)).
Proof.
  simpl run_candidate. destruct (run e t c) as [[e1 t1] [resp|err]];
    repeat case_match; subst; try (intros [= _ _ <- <-]; by left).
  assert (k = 0) as ->.
  { repeat match goal with H : _ && _ = true |- _ => apply andb_true_iff in H as [??] end.
    zb. lia. }
  intros Hr. right. eauto.
Qed.

(** A candidate is called once or twice. *)
Lemma run_candidate_trace c e t tr e' t' tr' out :
  run_candidate 2 0 c e t tr = (e', t', tr', out) →
  ∃ es, tr' = tr ++ es ∧ Forall notice_ok es ∧ out ≠ RStuck ∧
    (calls es = [c] ∨ calls es = [c; c]).
Proof.
  intros [[-> Ho]|(_ & e1 & t1 & Hr)]%run_candidate_step.
  - exists [Ran c t (clock e)]. split_and!; auto. by repeat constructor.
  - apply run_candidate_step in Hr as [[-> Ho]|[? _]]; [|done].
    exists [Ran c t (clock e); Ran c t1 (clock e1)]. rewrite <- app_assoc.
    split_and!; auto. by repeat constructor.
Qed.

(** The notice for the skips that precede a call. *)
Lemma pending_trace e t pending c tr e' t' tr' :
  match pending with [] => (e, t, tr) | _ => send_notice notify e t pending c tr end =
    (e', t', tr') →
  ∃ ns, tr' = tr ++ ns ∧ calls ns = [] ∧ Forall notice_ok ns.
Proof.
  destruct pending as [|a p].
  - intros [= _ _ <-]. exists []. by rewrite app_nil_r.
  - by apply send_notice_trace.
Qed.

Lemma exec_loop_account cs e t attempts pending tr e' t' tr' res :
  exec_loop notify cs e t attempts pending tr = (e', t', tr', res) →
  ∃ es, tr' = tr ++ es ∧ Forall notice_ok es ∧ called_in_order cs (calls es) ∧
    accounts cs attempts (calls es) res.
Proof.
  revert e t attempts pending tr.
  induction cs as [|c cs IH]; intros e t attempts pending tr;
    cbn [exec_loop].
  { intros [= _ _ <- <-]. exists []. rewrite app_nil_r. split_and!; simpl; auto.
    - constructor.
    - by rewrite app_nil_r. }
  destruct (ctx_canceled (ctx_err e)).
  { intros [= _ _ <- <-]. exists []. rewrite app_nil_r. split_and!; simpl; auto. constructor. }
  destruct (negb _).
  { intros (es & -> & Hn & Hc & Ha)%IH. exists es. split_and!; auto.
    - by constructor.
    - by apply (accounts_cons c cs attempts (skipped_attempt e t c) _ []). }
  destruct (match pending with [] => _ | _ => _ end) as [[e1 t1] tr1] eqn:Hpend.
  apply pending_trace in Hpend as (ns & -> & Hns & Hnn).
  destruct (run_candidate 2 0 c e1 t1 (tr ++ ns)) as [[[e2 t2] tr2] out] eqn:Hrun.
  apply run_candidate_trace in Hrun as (rs & -> & Hrn & Hout & Hcall').
  assert (Hone : ∀ r, called_in_order cs r → called_in_order (c :: cs) (calls rs ++ r))
    by (intros; by apply called_first).
  assert (Hend : called_in_order (c :: cs) (calls rs)).
  { rewrite <- (app_nil_r (calls rs)). apply Hone. constructor. }
  assert (Hlast : last (calls rs) = Some c) by (destruct Hcall' as [-> | ->]; done).
  assert (Hsimple : ∀ e'' t'' (o : FallbackResult Resp Er + ExecError Er),
    accounts (c :: cs) attempts (calls rs) o →
    (e'', t'', (tr ++ ns) ++ rs, o) = (e', t', tr', res) →
    ∃ es, tr' = tr ++ es ∧ Forall notice_ok es ∧ called_in_order (c :: cs) (calls es) ∧
      accounts (c :: cs) attempts (calls es) res).
  { intros e'' t'' o Ho [= _ _ <- <-]. exists (ns ++ rs). rewrite calls_app, Hns, <- app_assoc.
    split_and!; auto. by apply Forall_app. }
  destruct out as [resp| | | | |fe elapsed|]; try done;
    try (apply Hsimple; simpl; done).
  - apply Hsimple. simpl. exists [], c, cs. split_and!; auto. simpl. by rewrite app_nil_r.
  - destruct cs as [|next cs].
    + apply Hsimple. simpl. by rewrite map_app.
    + destruct (send_notice notify e2 _ _ _ _) as [[e3 t3] tr3] eqn:Hsend.
      apply send_notice_trace in Hsend as (ms & -> & Hms & Hmn); [|done].
      intros (es & -> & Hn & Hc & Ha)%IH.
      exists (ns ++ rs ++ ms ++ es). rewrite <- !app_assoc. split; [done|].
      rewrite !calls_app, Hns, Hms. simpl app. split_and!.
      * apply Forall_app_2; [done|]. apply Forall_app_2; [done|]. by apply Forall_app_2.
      * by apply Hone.
      * eapply accounts_cons; [|exact Ha]. done.
Qed.

(** The chain ends with a result or an error of its own, calls the
    candidates in the configured order and none more than twice, never sends a
    notice about nothing, and accounts for what it did: the candidate that
    answers is the last one called and every candidate before it has exactly
    one attempt, and an exhausted chain has one attempt per candidate. *)
Theorem ExecuteWithNotify_accounts (cs : list FallbackCandidate) (e : E) (t : Tr) :
  let '(_, _, tr, res) := ExecuteWithNotify notify cs e t in
  called_in_order cs (calls tr) ∧ (length (calls tr) ≤ 2 * length cs)%nat ∧
  Forall notice_ok tr ∧ accounts cs [] (calls tr) res.
Proof.
  destruct (ExecuteWithNotify notify cs e t) as [[[e' t'] tr] res] eqn:Hx.
  unfold ExecuteWithNotify in Hx. destruct cs as [|c cs].
  - injection Hx as <- <- <- <-. repeat constructor.
  - apply exec_loop_account in Hx as (es & -> & Hn & Hc & Ha). simpl app.
    split_and!; auto. by apply called_in_order_length.
Qed.

Lemma exec_loop_skips pre rest e t attempts pending tr :
  ctx_canceled (ctx_err e) = false →
  Forall (λ c, gate_available t (clock e) (c_Provider c) (c_Model c) = false) pre →
  exec_loop notify (pre ++ rest) e t attempts pending tr =
  exec_loop notify rest e t (attempts ++ map (skipped_attempt e t) pre)
    (pending ++ map (skipped_attempt e t) pre) tr.
Proof.
  intros He. revert attempts pending.
  induction pre as [|c pre IH]; intros attempts pending Hpre; simpl app.
  { by rewrite !app_nil_r. }
  apply Forall_cons in Hpre as [Hc Hpre]. cbn [exec_loop]. rewrite He, Hc. simpl negb. cbv iota.
  rewrite IH by done. simpl map. by rewrite <- !app_assoc.
Qed.

(** A chain whose candidates are all parked changes nothing: no provider is
    called, no notice is sent, and the error carries one skipped attempt per
    candidate with the reason and the remaining time the tracker gives. *)
Theorem ExecuteWithNotify_all_parked (cs : list FallbackCandidate) (e : E) (t : Tr)
  (Hne : cs ≠ []) (Hctx : ctx_canceled (ctx_err e) = false)
  (Hparked : Forall (λ c, gate_available t (clock e) (c_Provider c) (c_Model c) = false) cs) :
  ExecuteWithNotify notify cs e t =
  (e, t, [], inr (Exhausted (map (skipped_attempt e t) cs))).
Proof.
  unfold ExecuteWithNotify. destruct cs as [|c cs]; [done|].
  rewrite <- (app_nil_r (c :: cs)). rewrite exec_loop_skips by done.
  by rewrite app_nil_r.
Qed.

(** C38. Parked candidates at the head of the chain are announced in one notice
    that names the first available one; when that one answers, it is the result
    and its own cooldown, and only its own, is over. *)
Theorem ExecuteWithNotify_first_available `{!CooldownGateLaws Tr}
  (pre : list FallbackCandidate) (c : FallbackCandidate) (post : list FallbackCandidate)
  (e : E) (t : Tr) (e' : E) (t' : Tr) (resp : Resp)
  (Hctx : ctx_canceled (ctx_err e) = false)
  (Hparked : Forall (λ d, gate_available t (clock e) (c_Provider d) (c_Model d) = false) pre)
  (Hc : gate_available t (clock e) (c_Provider c) (c_Model c) = true)
  (Hquiet : ∀ f passed next, notify = Some f → f e t passed next = (e, t))
  (Hrun : run e t c = (e', t', inl resp)) :
  ∃ t'', ExecuteWithNotify notify (pre ++ c :: post) e t =
    (e', t'',
     (if notify is Some _ then
        if decide (pre = []) then [] else [Notified (map (skipped_attempt e t) pre) c]
      else []) ++ [Ran c t (clock e)],
     inl {| Response := resp; res_Provider := c_Provider c; res_Model := c_Model c;
            res_Alias := c_Alias c; Attempts := map (skipped_attempt e t) pre |}) ∧
    (∀ now, gate_available t'' now (c_Provider c) (c_Model c) = true) ∧
    (∀ now p m, gate_key (c_Provider c) (c_Model c) ≠ gate_key p m →
      gate_available t'' now p m = gate_available t' now p m).
Proof.
  exists (gate_success t' (c_Provider c) (c_Model c)). split_and!.
  - unfold ExecuteWithNotify. destruct (pre ++ c :: post) eqn:Hl; [by destruct pre|].
    rewrite <- Hl, exec_loop_skips by done. cbn [exec_loop]. rewrite Hctx, Hc. simpl negb. cbv iota.
    assert (Hs : match [] ++ map (skipped_attempt e t) pre with
        [] => (e, t, []) | _ => send_notice notify e t ([] ++ map (skipped_attempt e t) pre) c [] end =
      (e, t, if notify is Some _ then
        if decide (pre = []) then [] else [Notified (map (skipped_attempt e t) pre) c] else [])).
    { unfold send_notice. destruct pre; simpl; destruct notify; try done. by rewrite Hquiet. }
    rewrite Hs. cbn [run_candidate]. by rewrite Hrun.
  - intros now. apply gate_success_available.
  - intros now p m Hk. by apply gate_success_other.
Qed.

(** After a call that failed with a retriable error and a status that
    cools, and while the clock stands still, the next call does not reach the
    model: it is skipped. *)
Theorem ExecuteWithNotify_failure_parks `{!CooldownGateLaws Tr}
  (c : FallbackCandidate) (e : E) (t : Tr) (e' : E) (t' : Tr) (err : Er) (fe : FailoverError Er)
  (Hctx : ctx_canceled (ctx_err e') = false ∧ ctx_canceled (ctx_err e) = false)
  (Hc : gate_available t (clock e) (c_Provider c) (c_Model c) = true)
  (Hrun : run e t c = (e', t', inr err)) (Hok : gate_ok t') (Hclock : 0 < clock e')
  (Hfe : ClassifyError err (c_Provider c) (c_Model c) = Some fe ∧ IsRetriable fe = true)
  (Hra : fe_RetryAfter fe ≤ 0 ∨ maxSameModelRetryWait < fe_RetryAfter fe)
  (Hcool : gate_cools t' (fe_Status fe) = true) :
  ∃ t'' a b, ExecuteWithNotify notify [c] e t = (e', t'', [Ran c t (clock e)], inr (Exhausted [a])) ∧
    at_Skipped a = false ∧ at_Reason a = fe_Reason fe ∧
    ExecuteWithNotify notify [c] e' t'' = (e', t'', [], inr (Exhausted [b])) ∧
    at_Skipped b = true ∧ at_Reason b = gate_reason t'' (c_Provider c) (c_Model c).
Proof.
  destruct Hctx as [He' He], Hfe as [Hfe Hret].
  exists (gate_fail t' (clock e') (c_Provider c) (c_Model c)
    (fe_Reason fe) (fe_Status fe) (fe_RetryAfter fe)).
  eexists (failed_attempt c fe _), _. split_and!.
  - unfold ExecuteWithNotify. cbn [exec_loop]. rewrite He, Hc. simpl negb. cbv iota.
    cbn [run_candidate]. rewrite Hrun, He', Hfe, Hret. simpl negb. cbv iota.
    assert ((0 + 1 =? 1) && (0 <? fe_RetryAfter fe) &&
            (fe_RetryAfter fe <=? maxSameModelRetryWait) = false) as ->; [|done].
    apply andb_false_iff. destruct Hra; [left|right].
    + apply andb_false_iff. right. by apply Z.ltb_ge.
    + by apply Z.leb_gt.
  - done.
  - done.
  - unfold ExecuteWithNotify. cbn [exec_loop]. rewrite He', gate_fail_parks by done. done.
  - done.
  - done.
Qed.

(** *** Images *)

(** The image chain's account: [l] are the candidates called. *)
Definition image_accounts (cs l : list FallbackCandidate)
    (res : FallbackResult Resp Er + ExecError Er) : Prop :=
  match res with
  | inl r => ∃ pre c post, cs = pre ++ c :: post ∧ l = pre ++ [c] ∧
      named c = (res_Provider r, res_Model r, res_Alias r)
  | inr (Exhausted _) => l = cs
  | inr Stuck => False
  | inr _ => True
  end.

Lemma image_loop_account cs e t attempts tr e' t' tr' res :
  image_loop cs e t attempts tr = (e', t', tr', res) →
  ∃ es, tr' = tr ++ es ∧ calls es `prefix_of` cs ∧ image_accounts cs (calls es) res.
Proof.
  revert e t attempts tr. induction cs as [|c cs IH]; intros e t attempts tr; simpl.
  { intros [= _ _ <- <-]. exists []. by rewrite app_nil_r. }
  assert (Hone : [c] `prefix_of` c :: cs) by (apply prefix_cons, prefix_nil).
  destruct (ctx_canceled (ctx_err e)).
  { intros [= _ _ <- <-]. exists []. rewrite app_nil_r. split_and!; [done|apply prefix_nil|done]. }
  destruct (run e t c) as [[e1 t1] [resp|err]].
  { intros [= _ _ <- <-]. exists [Ran c t (clock e)]. split_and!; try done. by exists [], c, cs. }
  destruct (ctx_canceled (ctx_err e1)).
  { intros [= _ _ <- <-]. exists [Ran c t (clock e)]. by split_and!. }
  destruct (image_error err).
  { intros [= _ _ <- <-]. exists [Ran c t (clock e)]. by split_and!. }
  intros (es & -> & Hp & Hres)%IH. exists (Ran c t (clock e) :: es). rewrite <- app_assoc.
  split_and!; [done|by apply prefix_cons|].
  destruct res as [r|[]]; simpl; try done.
  - destruct Hres as (pre & d & post & -> & -> & Hd). by exists (c :: pre), d, post.
  - by f_equal.
Qed.

(** The image chain ignores cooldowns: it calls the candidates in order, each
    once, stops at the first that answers, whose name the result carries, and
    is exhausted only after calling them all. *)
Lemma ExecuteImage_accounts (cs : list FallbackCandidate) (e : E) (t : Tr) :
  let '(_, _, tr, res) := ExecuteImage cs e t in
  calls tr `prefix_of` cs ∧ image_accounts cs (calls tr) res.
Proof.
  destruct (ExecuteImage cs e t) as [[[e' t'] tr] res] eqn:Hx.
  unfold ExecuteImage in Hx. destruct cs as [|c cs].
  - injection Hx as <- <- <- <-. by split.
  - by apply image_loop_account in Hx as (es & -> & ? & ?).
Qed.

End account.

(** [AllContextLimit] holds exactly when some attempt was not skipped and each
    of those ran out of context. *)
Lemma all_context_loop_spec `{SpawnLLM} {Er} (l : list (FallbackAttempt Er)) n :
  0 ≤ n →
  all_context_loop l n = true ↔
  Forall (λ a, at_Skipped a = false → at_Reason a = FailoverContextLimit) l ∧
  (0 < n ∨ Exists (λ a, at_Skipped a = false) l).
Proof.
  revert n. induction l as [|a l IH]; intros n Hn; simpl.
  { rewrite Z.ltb_lt, Exists_nil. split; [by auto|]. intros [_ [?|[]]]. done. }
  rewrite Forall_cons, Exists_cons. destruct (at_Skipped a) eqn:Ha.
  { rewrite IH by done. naive_solver. }
  case_bool_decide as Hr; simpl.
  - rewrite IH by lia. naive_solver lia.
  - naive_solver.
Qed.

Lemma AllContextLimit_spec `{SpawnLLM} {Er} (l : list (FallbackAttempt Er)) :
  AllContextLimit l = true ↔
  Forall (λ a, at_Skipped a = false → at_Reason a = FailoverContextLimit) l ∧
  Exists (λ a, at_Skipped a = false) l.
Proof. unfold AllContextLimit. rewrite all_context_loop_spec by done. naive_solver lia. Qed.

(** ** Deduplicated candidates *)

Section dedup.
Context `{SpawnLLM}.
Variable ParseModelRef : string → string → option (string * string).
Variable lookup : option (string → option (string * string * string)).
Variable defaultProvider : string.

(** The reference: the first candidate of each key, in order. *)
Fixpoint first_by_key (l : list FallbackCandidate) : list FallbackCandidate :=
  match l with
  | [] => []
  | c :: l' => c :: keep (λ d, negb (bool_decide (candidate_key d = candidate_key c))) (first_by_key l')
  end.

Lemma resolve_loop_spec models seen cs :
  resolve_loop ParseModelRef lookup defaultProvider models seen cs =
  cs ++ keep (λ c, negb (bool_decide (candidate_key c ∈ seen)))
          (first_by_key (omap (resolve_raw ParseModelRef lookup defaultProvider) models)).
Proof.
  revert seen cs. induction models as [|m models IH]; intros seen cs; simpl.
  { by rewrite app_nil_r. }
  destruct (resolve_raw _ _ _ m) as [c|]; [|apply IH]. simpl.
  rewrite keep_keep. case_bool_decide as Hin; rewrite IH; simpl.
  - f_equal. apply keep_ext. intros d.
    destruct (decide (candidate_key d = candidate_key c)) as [Hd|Hd].
    + by rewrite Hd, (bool_decide_eq_true_2 _ Hin), (bool_decide_eq_true_2 _ eq_refl).
    + by rewrite (bool_decide_eq_false_2 _ Hd).
  - rewrite <- app_assoc. simpl. do 2 f_equal. apply keep_ext. intros d.
    rewrite <- negb_orb. f_equal. rewrite <- bool_decide_or. apply bool_decide_ext. set_solver.
Qed.

Lemma first_by_key_sub l : first_by_key l `sublist_of` l.
Proof.
  induction l as [|c l IH]; simpl; [done|]. apply sublist_skip.
  etrans; [apply keep_sublist|done].
Qed.

Lemma first_by_key_NoDup l : NoDup (map candidate_key (first_by_key l)).
Proof.
  induction l as [|c l IH]; simpl; [constructor|]. constructor.
  - intros (d & Hd & [_ Hk]%elem_of_keep)%list_elem_of_fmap.
    by rewrite bool_decide_eq_true_2 in Hk.
  - eapply sublist_NoDup; [exact IH|]. apply fmap_sublist, keep_sublist.
Qed.

Lemma first_by_key_complete l c :
  c ∈ l → ∃ d, d ∈ first_by_key l ∧ candidate_key d = candidate_key c.
Proof.
  induction l as [|c' l IH]; [by intros ?%elem_of_nil|]. intros [->|Hc]%elem_of_cons; simpl.
  - exists c'. split; [left|done].
  - destruct (IH Hc) as (d & Hd & Hk).
    destruct (decide (candidate_key d = candidate_key c')) as [He|He].
    + exists c'. split; [left|congruence].
    + exists d. split; [|done]. right. apply elem_of_keep. split; [done|].
      by rewrite bool_decide_eq_false_2.
Qed.

(** The candidate list is the configured strings that resolve, in the
    configured order, with the first of each provider, model and alias kept:
    no key occurs twice and no resolvable string is lost. *)
Theorem ResolveCandidates_spec (models : list string) :
  let raws := omap (resolve_raw ParseModelRef lookup defaultProvider) models in
  let cs := ResolveCandidatesWithLookup ParseModelRef lookup defaultProvider models in
  cs = first_by_key raws ∧ cs `sublist_of` raws ∧ NoDup (map candidate_key cs) ∧
  ∀ c, c ∈ raws → ∃ d, d ∈ cs ∧ candidate_key d = candidate_key c.
Proof.
  cbv zeta. unfold ResolveCandidatesWithLookup. rewrite resolve_loop_spec. simpl app.
  rewrite keep_id by (apply Forall_true; intros c; by rewrite bool_decide_eq_false_2 by set_solver).
  split_and!; [done|apply first_by_key_sub|apply first_by_key_NoDup|].
  intros c. apply first_by_key_complete.
Qed.

End dedup.

(** ** Witnesses

    A concrete environment: the state is the clock, one provider answers and the
    others fail with status 503. *)

#[local] Existing Instance slash_keys.

#[local] Instance ex_env : ChainEnv CooldownTracker Z string Z := {|
  run := λ e t c,
    (e + 5, t, if bool_decide (c_Provider c = "up") then inl "hello" else inr 503);
  sleep := λ e t d, (e + d, t, None);
  clock := λ e, e;
  ctx_err := λ _, None;
  ClassifyError := λ er p m,
    Some {| fe_Reason := "server"; fe_Provider := p; fe_Model := m; fe_Status := er;
            fe_RetryAfter := 0; fe_Wrapped := er |};
  IsRetriable := λ _, true;
  error_text := λ _, "down";
  IsImageDimensionError := λ _, false;
  IsImageSizeError := λ _, false
|}.

Definition ex_down : FallbackCandidate := {| c_Provider := "down"; c_Model := "m"; c_Alias := "d" |}.
Definition ex_up : FallbackCandidate := {| c_Provider := "up"; c_Model := "m"; c_Alias := "u" |}.

Definition ex_notify : option (Z → CooldownTracker → list (FallbackAttempt Z) → FallbackCandidate →
    Z * CooldownTracker) := Some (λ e t _ _, (e, t)).

(** The tracker after [ex_down] failed. *)
Definition ex_parked : CooldownTracker :=
  MarkFailure NewCooldownTracker 1000 "down" "m" "server" 503 0.

Example ex_chain_fails_over :
  let '(_, t, tr, res) := ExecuteWithNotify ex_notify [ex_down; ex_up] 1000 NewCooldownTracker in
  calls tr = [ex_down; ex_up] ∧ IsAvailable t 2000 "down" "m" = false ∧
  match res with inl r => Response r = "hello" ∧ res_Alias r = "u" | inr _ => False end.
Proof. vm_compute. split_and!; reflexivity. Qed.

Lemma ExecuteWithNotify_all_parked_witness :
  ExecuteWithNotify ex_notify [ex_down; ex_down] 2000 ex_parked =
  (2000, ex_parked, [],
   inr (Exhausted (map (skipped_attempt (Resp := string) 2000 ex_parked) [ex_down; ex_down]))).
Proof.
  apply ExecuteWithNotify_all_parked; [discriminate|reflexivity|].
  repeat constructor; reflexivity.
Defined.

Lemma ExecuteWithNotify_first_available_witness :
  ∃ t'', ExecuteWithNotify ex_notify ([ex_down] ++ ex_up :: []) 2000 ex_parked =
    (2005, t'',
     (if ex_notify is Some _ then
        if decide ([ex_down] = []) then []
        else [Notified (map (skipped_attempt (Resp := string) 2000 ex_parked) [ex_down]) ex_up]
      else []) ++ [Ran ex_up ex_parked 2000],
     inl {| Response := "hello"; res_Provider := "up"; res_Model := "m"; res_Alias := "u";
            Attempts := map (skipped_attempt (Resp := string) 2000 ex_parked) [ex_down] |}) ∧
    (∀ now, IsAvailable t'' now "up" "m" = true) ∧
    (∀ now p m, ModelKey "up" "m" ≠ ModelKey p m →
      IsAvailable t'' now p m = IsAvailable ex_parked now p m).
Proof.
  refine (ExecuteWithNotify_first_available ex_notify [ex_down] ex_up [] 2000 ex_parked 2005
    ex_parked "hello" _ _ _ _ _).
  - reflexivity.
  - repeat constructor; reflexivity.
  - reflexivity.
  - intros f passed next [= <-]. reflexivity.
  - reflexivity.
Defined.

Lemma ExecuteWithNotify_failure_parks_witness :
  ∃ t'' a b,
    ExecuteWithNotify ex_notify [ex_down] 1000 NewCooldownTracker =
      (1005, t'', [Ran ex_down NewCooldownTracker 1000], inr (Exhausted [a])) ∧
    at_Skipped a = false ∧ at_Reason a = "server" ∧
    ExecuteWithNotify ex_notify [ex_down] 1005 t'' = (1005, t'', [], inr (Exhausted [b])) ∧
    at_Skipped b = true ∧ at_Reason b = LastReason t'' "down" "m".
Proof.
  refine (ExecuteWithNotify_failure_parks ex_notify ex_down 1000 NewCooldownTracker 1005
    NewCooldownTracker 503
    {| fe_Reason := "server"; fe_Provider := "down"; fe_Model := "m"; fe_Status := 503;
       fe_RetryAfter := 0; fe_Wrapped := 503 |} _ _ _ _ _ _ _ _).
  - split; reflexivity.
  - reflexivity.
  - reflexivity.
  - apply new_tracker_inv. unfold policy_ok, duration_ok. vm_compute. intuition discriminate.
  - reflexivity.
  - split; reflexivity.
  - by left.
  - reflexivity.
Defined.
