(* ===== verification/AuthLimiter.v ===== *)
(** * Login lockout (web/backend/middleware/auth_limiter.go, web/backend/api/auth.go)

    Failed logins are counted per client address and per submitted username; at
    the threshold the address or username is locked, and every attempt while it
    is locked restarts the lock. The file models the two tables, the limiter
    and the login handler, and shows that sweeping quiet entries is invisible,
    how a lock ends, and how many passwords can be tried in a given time. *)

From stdpp Require Import base gmap strings list fin_maps.
From Stdlib Require Import ZArith Lia.
From S2P Require Import Prelude.

Open Scope string_scope.
Open Scope list_scope.
Open Scope Z_scope.

Definition LoginIPFailures : Z := 10.
Definition LoginIPLockout : Z := 5 * GoTime.minute.
Definition LoginUserFailures : Z := 10.
Definition LoginUserLockout : Z := 10 * GoTime.minute.
Definition loginFailureWindow : Z := 10 * GoTime.minute.
Definition loginPruneInterval : Z := GoTime.minute.

Record LockStart := {
  Account : bool;
  Key : string;
  For : Z
}.

(** ** One table *)

Record lockEntry := {
  failures : list Z;
  lockedUntil : Z
}.

Definition zero_lock : lockEntry := {| failures := []; lockedUntil := GoTime.zero_time |}.

Record lockTable := {
  threshold : Z;
  lockout : Z;
  entries : gmap string lockEntry
}.

Definition newLockTable (threshold lockout : Z) : lockTable :=
  {| threshold := threshold; lockout := lockout; entries := ∅ |}.

Definition set_entry (t : lockTable) (key : string) (e : lockEntry) : lockTable :=
  {| threshold := threshold t; lockout := lockout t; entries := <[key := e]> (entries t) |}.

Fixpoint dropBefore (ts : list Z) (cutoff : Z) : list Z :=
  match ts with
  | [] => []
  | t :: ts' => if GoTime.before t cutoff then dropBefore ts' cutoff else t :: ts'
  end.

Definition touchLocked (t : lockTable) (key : string) (now : Z) : lockTable * bool :=
  match entries t !! key with
  | None => (t, false)
  | Some e =>
    if negb (GoTime.after (lockedUntil e) now) then (t, false)
    else (set_entry t key
            {| failures := failures e; lockedUntil := GoTime.add now (lockout t) |}, true)
  end.

Definition failure (t : lockTable) (key : string) (now : Z) : lockTable * bool :=
  let e := default zero_lock (entries t !! key) in
  let fs := dropBefore (failures e) (GoTime.add now (- loginFailureWindow)) ++ [now] in
  if Z.of_nat (length fs) <? threshold t
  then (set_entry t key {| failures := fs; lockedUntil := lockedUntil e |}, false)
  else (set_entry t key {| failures := []; lockedUntil := GoTime.add now (lockout t) |}, true).

(** The loop of [prune] on one entry; [None] deletes it. *)
Definition prune_entry (now : Z) (e : lockEntry) : option lockEntry :=
  let fs := dropBefore (failures e) (GoTime.add now (- loginFailureWindow)) in
  if bool_decide (fs = []) && negb (GoTime.after (lockedUntil e) now) then None
  else Some {| failures := fs; lockedUntil := lockedUntil e |}.

Definition prune (t : lockTable) (now : Z) : lockTable :=
  {| threshold := threshold t; lockout := lockout t;
     entries := omap (prune_entry now) (entries t) |}.

Definition delete_entry (t : lockTable) (key : string) : lockTable :=
  {| threshold := threshold t; lockout := lockout t; entries := delete key (entries t) |}.

(** ** The limiter

    The exempt set is the predicate [LockoutExemptSet.Contains]. *)

Record LoginLimiter := {
  ips : lockTable;
  users : lockTable;
  exempt : string → bool;
  lastPrune : Z;
  credGen : Z
}.

Definition NewLoginLimiter (loopback : string → bool) : LoginLimiter := {|
  ips := newLockTable LoginIPFailures LoginIPLockout;
  users := newLockTable LoginUserFailures LoginUserLockout;
  exempt := loopback; lastPrune := GoTime.zero_time; credGen := 0
|}.

Definition with_tables (l : LoginLimiter) (i u : lockTable) : LoginLimiter :=
  {| ips := i; users := u; exempt := exempt l; lastPrune := lastPrune l; credGen := credGen l |}.

Definition SetExempt (l : LoginLimiter) (set : string → bool) : LoginLimiter :=
  {| ips := ips l; users := users l; exempt := set; lastPrune := lastPrune l;
     credGen := credGen l |}.

Definition SyncCredentials (l : LoginLimiter) (gen : Z) : LoginLimiter * bool :=
  if gen =? credGen l then (l, false)
  else ({| ips := newLockTable LoginIPFailures LoginIPLockout;
           users := newLockTable LoginUserFailures LoginUserLockout;
           exempt := exempt l; lastPrune := lastPrune l; credGen := gen |}, true).

Definition pruneLocked (l : LoginLimiter) (now : Z) : LoginLimiter :=
  if GoTime.sub now (lastPrune l) <? loginPruneInterval then l
  else {| ips := prune (ips l) now; users := prune (users l) now; exempt := exempt l;
          lastPrune := now; credGen := credGen l |}.

(** [Attempt] after the sweep. *)
Definition attempt_core (l : LoginLimiter) (now : Z) (ip username : string) : LoginLimiter * Z :=
  let '(i, ip_locked) :=
    if exempt l ip then (ips l, false) else touchLocked (ips l) ip now in
  let wait := if ip_locked : bool then lockout (ips l) else 0 in
  let '(u, user_locked) := touchLocked (users l) username now in
  let wait := if user_locked : bool then Z.max wait (lockout (users l)) else wait in
  (with_tables l i u, wait).

Definition Attempt (l : LoginLimiter) (now : Z) (ip username : string) : LoginLimiter * Z :=
  attempt_core (pruneLocked l now) now ip username.

(** [Failure] after the sweep. *)
Definition failure_core (l : LoginLimiter) (now : Z) (ip username : string)
    : LoginLimiter * list LockStart :=
  let '(i, ip_started) :=
    if exempt l ip then (ips l, false) else failure (ips l) ip now in
  let started :=
    if ip_started : bool then [{| Account := false; Key := ip; For := lockout (ips l) |}] else [] in
  let '(u, user_started) := failure (users l) username now in
  let started :=
    if user_started : bool
    then started ++ [{| Account := true; Key := username; For := lockout (users l) |}]
    else started in
  (with_tables l i u, started).

Definition Failure (l : LoginLimiter) (now : Z) (ip username : string)
    : LoginLimiter * list LockStart :=
  failure_core (pruneLocked l now) now ip username.

Definition Success (l : LoginLimiter) (ip username : string) : LoginLimiter :=
  with_tables l (delete_entry (ips l) ip) (delete_entry (users l) username).

(** ** The login handler

    A request with what the handler reads: the store's credentials generation
    and whether it is configured, the client address, the decoded body, the
    clock at [Attempt] and at [Failure], and the store's verdict on the
    password. *)
Record LoginRequest := {
  rq_gen : Z;
  rq_configured : bool;
  rq_ip : string;
  rq_body : option (string * string);
  rq_attempt_at : Z;
  rq_failure_at : Z;
  rq_verdict : string → string → bool
}.

Inductive LoginResponse :=
| NotConfigured
| BadBody
| LockedOut (wait : Z)
| WrongPassword (started : list LockStart)
| LoggedIn.

Definition handleAuthLogin (l : LoginLimiter) (rq : LoginRequest) : LoginLimiter * LoginResponse :=
  let '(l, _) := SyncCredentials l (rq_gen rq) in
  if negb (rq_configured rq) then (l, NotConfigured)
  else match rq_body rq with
  | None => (l, BadBody)
  | Some (username, password) =>
    let '(l, wait) := Attempt l (rq_attempt_at rq) (rq_ip rq) username in
    if 0 <? wait then (l, LockedOut wait)
    else if negb (rq_verdict rq username password) then
      let '(l, started) := Failure l (rq_failure_at rq) (rq_ip rq) username in
      (l, WrongPassword started)
    else (Success l (rq_ip rq) username, LoggedIn)
  end.

Definition ex_request (at_ : Z) : LoginRequest := {|
  rq_gen := 0; rq_configured := true; rq_ip := "10.0.0.9"; rq_body := Some ("root", "guess");
  rq_attempt_at := at_; rq_failure_at := at_ + 1; rq_verdict := λ _ _, false
|}.

(** The requests one after another, with their responses. *)
Fixpoint serve (l : LoginLimiter) (rqs : list LoginRequest)
    : LoginLimiter * list (LoginRequest * LoginResponse) :=
  match rqs with
  | [] => (l, [])
  | rq :: rqs' =>
    let '(l, resp) := handleAuthLogin l rq in
    let '(l, rest) := serve l rqs' in
    (l, (rq, resp) :: rest)
  end.

Example ex_lock_after_ten :
  map snd (serve (NewLoginLimiter (λ _, false)) (map ex_request [1; 2; 3; 4; 5; 6; 7; 8; 9; 10; 11])).2
  = repeat (WrongPassword []) 9 ++
    [WrongPassword [{| Account := false; Key := "10.0.0.9"; For := LoginIPLockout |};
                    {| Account := true; Key := "root"; For := LoginUserLockout |}];
     LockedOut LoginUserLockout].
Proof. vm_compute. reflexivity. Qed.

(** ** Lemmas on one table *)

Lemma dropBefore_twice ts c c' : c ≤ c' → dropBefore (dropBefore ts c) c' = dropBefore ts c'.
Proof.
  intros Hc. induction ts as [|t ts IH]; simpl; [done|]. unfold GoTime.before in *.
  destruct (t <? c) eqn:H1; simpl; unfold GoTime.before.
  - rewrite IH. zb. by rewrite (proj2 (Z.ltb_lt t c')) by lia.
  - done.
Qed.

Lemma dropBefore_split ts c :
  ∃ d, ts = d ++ dropBefore ts c ∧ Forall (λ y, y < c) d.
Proof.
  induction ts as [|t ts (d & Hd & Hall)]; simpl; [by exists []|].
  unfold GoTime.before. destruct (t <? c) eqn:Ht.
  - zb. exists (t :: d). simpl. rewrite <- Hd. auto.
  - by exists [].
Qed.

(** *** Sweeping

    What an entry says from [now] on: the failures still in the window and the
    lock if it is still on. Two tables that say the same are the same to every
    operation. *)

Definition visible (now : Z) (o : option lockEntry) : list Z * option Z :=
  let e := default zero_lock o in
  (dropBefore (failures e) (now - loginFailureWindow),
   if now <? lockedUntil e then Some (lockedUntil e) else None).

Record same_table (now : Z) (t t' : lockTable) : Prop := {
  same_threshold : threshold t = threshold t';
  same_lockout : lockout t = lockout t';
  same_visible : ∀ k, visible now (entries t !! k) = visible now (entries t' !! k)
}.

#[export] Instance same_table_equiv now : Equivalence (same_table now).
Proof.
  split.
  - by intros t.
  - intros t t' [? ? Hv]. split; [done..|]. intros k. by rewrite Hv.
  - intros t t' t'' [? ? Hv] [? ? Hv']. split; [congruence..|]. intros k. by rewrite Hv, Hv'.
Qed.

Lemma visible_later now now' o o' :
  now ≤ now' → visible now o = visible now o' → visible now' o = visible now' o'.
Proof.
  unfold visible. intros Hle Heq. injection Heq as Hf Hl. f_equal.
  - rewrite <- (dropBefore_twice (failures (default zero_lock o)) (now - loginFailureWindow)) by lia.
    rewrite Hf. apply dropBefore_twice. lia.
  - revert Hl. repeat case_if; intros Hl; zb; try congruence; try (injection Hl as Hl); lia.
Qed.

Lemma same_table_later now now' t t' :
  now ≤ now' → same_table now t t' → same_table now' t t'.
Proof. intros Hle [? ? Hv]. split; auto. intros k. by apply (visible_later now). Qed.

Lemma visible_pruned now e :
  0 ≤ now → visible now (prune_entry now e) = visible now (Some e).
Proof.
  intros Hn. unfold prune_entry, visible, GoTime.add, GoTime.after. simpl.
  change (now + - loginFailureWindow) with (now - loginFailureWindow).
  case_if; simpl.
  - apply andb_true_iff in Heqb as [Hf%bool_decide_eq_true Hl]. zb.
    rewrite Hf, (proj2 (Z.ltb_ge now (lockedUntil e))) by lia.
    by rewrite (proj2 (Z.ltb_ge now GoTime.zero_time)).
  - by rewrite dropBefore_twice.
Qed.

Lemma prune_same now t : 0 ≤ now → same_table now (prune t now) t.
Proof.
  intros Hn. split; [done..|]. intros k. simpl. rewrite lookup_omap.
  destruct (entries t !! k) as [e|]; simpl; [|done].
  by apply visible_pruned.
Qed.

Lemma set_entry_same now t t' key e e' :
  same_table now t t' → visible now (Some e) = visible now (Some e') →
  same_table now (set_entry t key e) (set_entry t' key e').
Proof.
  intros [? ? Hv] He. split; [done..|]. intros k. simpl. rewrite !lookup_insert.
  by case_decide.
Qed.

Lemma delete_entry_same now t t' key :
  same_table now t t' → same_table now (delete_entry t key) (delete_entry t' key).
Proof.
  intros [? ? Hv]. split; [done..|]. intros k. simpl. rewrite !lookup_delete. by case_decide.
Qed.

(** A key's lock, read off what is visible. *)
Lemma touchLocked_visible t key now :
  0 ≤ now →
  (touchLocked t key now).2 = if (visible now (entries t !! key)).2 then true else false.
Proof.
  intros Hn. unfold touchLocked, visible, GoTime.after. destruct (entries t !! key) as [e|]; simpl.
  - by destruct (now <? lockedUntil e).
  - by rewrite (proj2 (Z.ltb_ge now GoTime.zero_time)).
Qed.

Lemma touchLocked_same now t t' key :
  0 ≤ now → same_table now t t' →
  (touchLocked t key now).2 = (touchLocked t' key now).2 ∧
  same_table now (touchLocked t key now).1 (touchLocked t' key now).1.
Proof.
  intros Hn Hs. assert (Hr : (touchLocked t key now).2 = (touchLocked t' key now).2)
    by (rewrite !touchLocked_visible, (same_visible _ _ _ Hs) by done; done).
  split; [done|]. revert Hr. pose proof (same_visible _ _ _ Hs key) as Hk. unfold touchLocked.
  destruct (entries t !! key) as [e|], (entries t' !! key) as [e'|]; simpl;
    repeat case_if; simpl; try done; intros _.
  apply set_entry_same; [done|]. unfold visible in *. simpl in *.
  injection Hk as -> _. by rewrite (same_lockout _ _ _ Hs).
Qed.

Lemma failure_same now t t' key :
  same_table now t t' →
  (failure t key now).2 = (failure t' key now).2 ∧
  same_table now (failure t key now).1 (failure t' key now).1.
Proof.
  intros Hs. pose proof (same_visible _ _ _ Hs key) as Hk. unfold visible in Hk.
  injection Hk as Hf Hl. unfold failure, GoTime.add.
  change (now + - loginFailureWindow) with (now - loginFailureWindow).
  rewrite Hf, (same_threshold _ _ _ Hs), (same_lockout _ _ _ Hs). case_if; simpl.
  - split; [done|]. apply set_entry_same; [done|]. unfold visible. simpl. by rewrite Hl.
  - split; [done|]. by apply set_entry_same.
Qed.

Record same_limiter (now : Z) (l l' : LoginLimiter) : Prop := {
  same_ips : same_table now (ips l) (ips l');
  same_users : same_table now (users l) (users l');
  same_exempt : exempt l = exempt l';
  same_gen : credGen l = credGen l'
}.

Lemma pruneLocked_same now l : 0 ≤ now → same_limiter now (pruneLocked l now) l.
Proof.
  intros Hn. unfold pruneLocked. case_if; split; simpl; try done; by apply prune_same.
Qed.

Lemma same_limiter_trans now l l' l'' :
  same_limiter now l l' → same_limiter now l' l'' → same_limiter now l l''.
Proof. intros [] []. split; etrans; eauto. Qed.

Lemma attempt_core_same now l l' ip u :
  0 ≤ now → same_limiter now l l' →
  (attempt_core l now ip u).2 = (attempt_core l' now ip u).2 ∧
  same_limiter now (attempt_core l now ip u).1 (attempt_core l' now ip u).1.
Proof.
  intros Hn [Hi Hu He Hg]. unfold attempt_core. rewrite He.
  destruct (touchLocked_same now _ _ ip Hn Hi) as [Hri Hsi].
  destruct (touchLocked_same now _ _ u Hn Hu) as [Hru Hsu].
  rewrite (same_lockout _ _ _ Hi), (same_lockout _ _ _ Hu).
  destruct (touchLocked (ips l) ip now), (touchLocked (ips l') ip now),
    (touchLocked (users l) u now), (touchLocked (users l') u now); simpl in *; subst.
  by destruct (exempt l' ip).
Qed.

Lemma failure_core_same now l l' ip u :
  same_limiter now l l' →
  (failure_core l now ip u).2 = (failure_core l' now ip u).2 ∧
  same_limiter now (failure_core l now ip u).1 (failure_core l' now ip u).1.
Proof.
  intros [Hi Hu He Hg]. unfold failure_core. rewrite He.
  destruct (failure_same now _ _ ip Hi) as [Hri Hsi].
  destruct (failure_same now _ _ u Hu) as [Hru Hsu].
  rewrite (same_lockout _ _ _ Hi), (same_lockout _ _ _ Hu).
  destruct (failure (ips l) ip now), (failure (ips l') ip now),
    (failure (users l) u now), (failure (users l') u now); simpl in *; subst.
  by destruct (exempt l' ip).
Qed.

(** *** Sequences of calls *)

Inductive limiter_call :=
| LAttempt (now : Z) (ip username : string)
| LFailure (now : Z) (ip username : string)
| LSuccess (ip username : string)
| LSync (gen : Z)
| LExempt (set : string → bool).

Inductive limiter_answer :=
| AWait (d : Z)
| AStarted (l : list LockStart)
| ACleared (b : bool)
| ADone.

(** One call; [sweep] is what [Attempt] and [Failure] do first. *)
Definition limiter_step (sweep : LoginLimiter → Z → LoginLimiter) (l : LoginLimiter)
    (c : limiter_call) : LoginLimiter * limiter_answer :=
  match c with
  | LAttempt now ip u => let '(l, d) := attempt_core (sweep l now) now ip u in (l, AWait d)
  | LFailure now ip u => let '(l, s) := failure_core (sweep l now) now ip u in (l, AStarted s)
  | LSuccess ip u => (Success l ip u, ADone)
  | LSync gen => let '(l, b) := SyncCredentials l gen in (l, ACleared b)
  | LExempt set => (SetExempt l set, ADone)
  end.

Fixpoint limiter_run sweep (l : LoginLimiter) (cs : list limiter_call) : list limiter_answer :=
  match cs with
  | [] => []
  | c :: cs' => let '(l, a) := limiter_step sweep l c in a :: limiter_run sweep l cs'
  end.

(** The clock does not go back from one call to the next. *)
Fixpoint calls_ordered (last : Z) (cs : list limiter_call) : Prop :=
  match cs with
  | [] => True
  | LAttempt now _ _ :: cs' | LFailure now _ _ :: cs' => last ≤ now ∧ calls_ordered now cs'
  | _ :: cs' => calls_ordered last cs'
  end.

Lemma limiter_step_same last l l' c cs :
  0 ≤ last → same_limiter last l l' → calls_ordered last (c :: cs) →
  ∃ last', 0 ≤ last' ∧ calls_ordered last' cs ∧
    (limiter_step pruneLocked l c).2 = (limiter_step (λ l _, l) l' c).2 ∧
    same_limiter last' (limiter_step pruneLocked l c).1 (limiter_step (λ l _, l) l' c).1.
Proof.
  intros Hlast Hs Ho.
  assert (Hswept : ∀ now, last ≤ now → same_limiter now (pruneLocked l now) l').
  { intros now Hle. apply (same_limiter_trans now _ l); [apply pruneLocked_same; lia|].
    destruct Hs. split; auto; by apply (same_table_later last). }
  destruct c as [now ip u|now ip u|ip u|gen|set]; simpl in *.
  - destruct Ho as [Hle Ho]. exists now. split_and!; [lia|done| |];
      destruct (attempt_core_same now _ _ ip u ltac:(lia) (Hswept now Hle)) as [Hr Hl];
      destruct (attempt_core (pruneLocked l now) _ _ _), (attempt_core l' _ _ _);
      simpl in *; congruence.
  - destruct Ho as [Hle Ho]. exists now. split_and!; [lia|done| |];
      destruct (failure_core_same now _ _ ip u (Hswept now Hle)) as [Hr Hl];
      destruct (failure_core (pruneLocked l now) _ _ _), (failure_core l' _ _ _);
      simpl in *; congruence.
  - exists last. split_and!; try done. destruct Hs. split; auto; by apply delete_entry_same.
  - exists last. split_and!; try done; unfold SyncCredentials; rewrite (same_gen _ _ _ Hs);
      case_if; try done. by destruct Hs.
  - exists last. split_and!; try done. by destruct Hs.
Qed.

Lemma limiter_run_same last l l' cs :
  0 ≤ last → same_limiter last l l' → calls_ordered last cs →
  limiter_run pruneLocked l cs = limiter_run (λ l _, l) l' cs.
Proof.
  revert last l l'. induction cs as [|c cs IH]; intros last l l' Hn Hs Ho; [done|].
  destruct (limiter_step_same last l l' c cs Hn Hs Ho) as (last' & Hn' & Ho' & Hr & Hs').
  cbn [limiter_run].
  destruct (limiter_step pruneLocked l c), (limiter_step (λ l _, l) l' c). simpl in *.
  subst. f_equal. by apply (IH last').
Qed.

(** Sweeping quiet entries is invisible: for every sequence of calls with a
    clock that does not go back, the limiter answers exactly as one that never
    sweeps. *)
Theorem sweep_invisible (loopback : string → bool) (cs : list limiter_call)
  (Ho : calls_ordered 0 cs) :
  limiter_run pruneLocked (NewLoginLimiter loopback) cs =
  limiter_run (λ l _, l) (NewLoginLimiter loopback) cs.
Proof. apply (limiter_run_same 0); [lia|by split|done]. Qed.

(** *** Locks *)

(** The limiter after a sequence of calls. *)
Definition limiter_after (l : LoginLimiter) (cs : list limiter_call) : LoginLimiter :=
  fold_left (λ l c, (limiter_step pruneLocked l c).1) cs l.

(** The tables keep their thresholds and lock times. *)
Record limiter_ok (l : LoginLimiter) : Prop := {
  ok_ips : threshold (ips l) = LoginIPFailures ∧ lockout (ips l) = LoginIPLockout;
  ok_users : threshold (users l) = LoginUserFailures ∧ lockout (users l) = LoginUserLockout
}.

Lemma touchLocked_config t key now :
  threshold (touchLocked t key now).1 = threshold t ∧ lockout (touchLocked t key now).1 = lockout t.
Proof. unfold touchLocked. destruct (entries t !! key); [case_if|]; done. Qed.

Lemma failure_config t key now :
  threshold (failure t key now).1 = threshold t ∧ lockout (failure t key now).1 = lockout t.
Proof. unfold failure. by case_if. Qed.

Lemma pruneLocked_ok l now : limiter_ok l → limiter_ok (pruneLocked l now).
Proof. intros [Hi Hu]. unfold pruneLocked. by case_if. Qed.

Lemma attempt_core_ok l now ip u : limiter_ok l → limiter_ok (attempt_core l now ip u).1.
Proof.
  intros [Hi Hu]. unfold attempt_core.
  destruct (touchLocked_config (ips l) ip now) as [H1 H2],
    (touchLocked_config (users l) u now) as [H3 H4].
  destruct (touchLocked (ips l) ip now), (touchLocked (users l) u now). simpl in *.
  destruct (exempt l ip); split; simpl; rewrite ?H1, ?H2, ?H3, ?H4; done.
Qed.

Lemma failure_core_ok l now ip u : limiter_ok l → limiter_ok (failure_core l now ip u).1.
Proof.
  intros [Hi Hu]. unfold failure_core.
  destruct (failure_config (ips l) ip now) as [H1 H2],
    (failure_config (users l) u now) as [H3 H4].
  destruct (failure (ips l) ip now), (failure (users l) u now). simpl in *.
  destruct (exempt l ip); split; simpl; rewrite ?H1, ?H2, ?H3, ?H4; done.
Qed.

Lemma SyncCredentials_ok l gen : limiter_ok l → limiter_ok (SyncCredentials l gen).1.
Proof. intros Hl. unfold SyncCredentials. case_if; done. Qed.

Lemma limiter_after_ok l cs : limiter_ok l → limiter_ok (limiter_after l cs).
Proof.
  revert l. induction cs as [|c cs IH]; intros l Hl; [done|]. simpl. apply IH.
  destruct c as [now ip u|now ip u|ip u|gen|set]; simpl.
  - pose proof (attempt_core_ok _ now ip u (pruneLocked_ok l now Hl)).
    by destruct (attempt_core _ _ _ _).
  - pose proof (failure_core_ok _ now ip u (pruneLocked_ok l now Hl)).
    by destruct (failure_core _ _ _ _).
  - by destruct Hl.
  - pose proof (SyncCredentials_ok l gen Hl). by destruct (SyncCredentials _ _).
  - by destruct Hl.
Qed.

(** Whether a key is locked. *)
Definition locked_at (t : lockTable) (key : string) (now : Z) : bool := (touchLocked t key now).2.

Lemma locked_at_spec t key now :
  locked_at t key now = true ↔ ∃ e, entries t !! key = Some e ∧ now < lockedUntil e.
Proof.
  unfold locked_at, touchLocked, GoTime.after. destruct (entries t !! key) as [e|]; simpl.
  - destruct (now <? lockedUntil e) eqn:Hl; simpl; zb; split; try done.
    + intros _. by exists e.
    + intros (e' & [= <-] & ?). lia.
  - split; [done|]. by intros (e & ? & _).
Qed.

Lemma touchLocked_after t key now now' :
  locked_at t key now = true →
  locked_at (touchLocked t key now).1 key now' = (now' <? now + lockout t).
Proof.
  intros (e & He & Hl)%locked_at_spec. apply eq_true_iff_eq. rewrite Z.ltb_lt.
  assert (Ht : (touchLocked t key now).1 = set_entry t key
    {| failures := failures e; lockedUntil := now + lockout t |}).
  { unfold touchLocked, GoTime.after. by rewrite He, (proj2 (Z.ltb_lt _ _) Hl). }
  rewrite Ht, locked_at_spec. simpl. rewrite lookup_insert_eq. split.
  - by intros (? & [= <-] & ?).
  - intros ?. by eexists.
Qed.

Lemma untouched t key now : locked_at t key now = false → (touchLocked t key now).1 = t.
Proof.
  unfold locked_at, touchLocked. destruct (entries t !! key); [case_if|]; done.
Qed.

Lemma locked_at_later t key now now' :
  now ≤ now' → locked_at t key now = false → locked_at t key now' = false.
Proof.
  intros Hle Hl. apply not_true_iff_false. intros (e & He & Hl')%locked_at_spec.
  apply not_true_iff_false in Hl. apply Hl. apply locked_at_spec. exists e. split; [done|lia].
Qed.

(** The wait [Attempt] returns, in terms of the locks that apply. *)
Lemma attempt_core_wait l now ip u :
  limiter_ok l →
  (attempt_core l now ip u).2 =
  if locked_at (users l) u now then LoginUserLockout
  else if negb (exempt l ip) && locked_at (ips l) ip now then LoginIPLockout else 0.
Proof.
  intros [[_ Hi] [_ Hu]]. unfold attempt_core, locked_at. rewrite Hi, Hu.
  destruct (touchLocked (ips l) ip now) as [? bi], (touchLocked (users l) u now) as [? bu].
  simpl. destruct (exempt l ip), bi, bu; done.
Qed.

Lemma Attempt_wait l now ip u :
  0 ≤ now → limiter_ok l → (Attempt l now ip u).2 = (attempt_core l now ip u).2.
Proof.
  intros Hn _. apply attempt_core_same; [done|]. by apply pruneLocked_same.
Qed.

(** The locks after an attempt. *)
Lemma attempt_core_locks l now ip u now' :
  limiter_ok l → now ≤ now' →
  exempt (attempt_core l now ip u).1 = exempt l ∧
  locked_at (users (attempt_core l now ip u).1) u now' =
    (locked_at (users l) u now && (now' <? now + LoginUserLockout)) ∧
  negb (exempt l ip) && locked_at (ips (attempt_core l now ip u).1) ip now' =
    (negb (exempt l ip) && (locked_at (ips l) ip now && (now' <? now + LoginIPLockout))).
Proof.
  intros [[_ Hi] [_ Hu]] Hle.
  assert (Hone : ∀ t k, locked_at (touchLocked t k now).1 k now' =
    (locked_at t k now && (now' <? now + lockout t))).
  { intros t k. destruct (locked_at t k now) eqn:Hl; simpl.
    - by apply touchLocked_after.
    - rewrite untouched by done. by apply (locked_at_later t k now). }
  pose proof (Hone (ips l) ip) as H1. pose proof (Hone (users l) u) as H2.
  rewrite Hi in H1. rewrite Hu in H2. unfold attempt_core.
  destruct (touchLocked (ips l) ip now), (touchLocked (users l) u now).
  destruct (exempt l ip) eqn:He; simpl in *; auto.
Qed.

(** How a lock ends. Whatever happened before, when an attempt is told to
    wait it is told one of the two lock times, and an attempt by the same client
    for the same username, if none comes between, is again refused exactly
    until that time has passed since the last one. *)
Theorem lock_restarts (loopback : string → bool) (cs : list limiter_call)
  (now t : Z) (ip u : string) (Hnow : 0 ≤ now) (Ht : now ≤ t) :
  let l := limiter_after (NewLoginLimiter loopback) cs in
  let '(l', w) := Attempt l now ip u in
  0 < w → (w = LoginIPLockout ∨ w = LoginUserLockout) ∧
    (0 < (Attempt l' t ip u).2 ↔ t < now + w).
Proof.
  intros l. assert (Hl : limiter_ok l) by (by apply limiter_after_ok).
  unfold Attempt at 1. pose proof (pruneLocked_ok l now Hl) as Hp.
  pose proof (attempt_core_wait (pruneLocked l now) now ip u Hp) as Hw.
  pose proof (attempt_core_ok _ now ip u Hp) as Hl'.
  pose proof (attempt_core_locks (pruneLocked l now) now ip u t Hp Ht) as (He & Hu & Hi).
  destruct (attempt_core (pruneLocked l now) now ip u) as [l' w]. simpl in *.
  rewrite Attempt_wait by (done || lia). rewrite attempt_core_wait by done.
  rewrite Hu, He, Hi. intros Hpos. subst w.
  destruct (locked_at (users (pruneLocked l now)) u now); simpl.
  - split; [by right|]. destruct (t <? now + LoginUserLockout) eqn:H1; zb.
    + split; [done|]. by intros _.
    + assert (LoginIPLockout ≤ LoginUserLockout) by done.
      rewrite (proj2 (Z.ltb_ge t (now + LoginIPLockout))), !andb_false_r by lia. lia.
  - destruct (negb (exempt (pruneLocked l now) ip) && locked_at (ips (pruneLocked l now)) ip now)
      eqn:Hb; [|lia].
    apply andb_true_iff in Hb as [-> ->]. split; [by left|]. simpl.
    destruct (t <? now + LoginIPLockout) eqn:H1; zb; [by split|lia].
Qed.

(** *** How many passwords can be tried

    [count h w d] is the number of times of [h] in the interval of length [d]
    that starts at [w]. *)

Definition count (h : list Z) (w d : Z) : Z :=
  Z.of_nat (length (keep (λ y, (w <=? y) && (y <? w + d)) h)).

Lemma count_app h h' w d : count (h ++ h') w d = count h w d + count h' w d.
Proof.
  unfold count. rewrite <- Nat2Z.inj_add, <- length_app. do 2 f_equal.
  induction h as [|y h IH]; simpl; [done|]. case_if; simpl; by rewrite IH.
Qed.

Lemma count_le_length h w d : count h w d ≤ Z.of_nat (length h).
Proof. unfold count. apply inj_le, sublist_length, keep_sublist. Qed.

Lemma count_before h w d : Forall (λ y, y < w) h → count h w d = 0.
Proof.
  induction 1 as [|y h Hy _ IH]; [done|]. unfold count in *. simpl.
  rewrite (proj2 (Z.leb_gt w y) Hy). exact IH.
Qed.

Definition entry_of (t : lockTable) (key : string) : lockEntry :=
  default zero_lock (entries t !! key).

(** [h] are the failures recorded for [key] up to [last]: those no longer in the
    entry are a length [d] behind the lock or behind [last], and no interval of
    length [d] holds more than the threshold. *)
Record rate_inv (d : Z) (h : list Z) (last : Z) (t : lockTable) (key : string) : Prop := {
  ri_few : Z.of_nat (length (failures (entry_of t key))) < threshold t;
  ri_split : ∃ old, h = old ++ failures (entry_of t key) ∧
    Forall (λ y, y + d ≤ Z.max (lockedUntil (entry_of t key)) last) old;
  ri_past : Forall (λ y, y ≤ last) h;
  ri_lock : lockedUntil (entry_of t key) ≤ last + lockout t;
  ri_bound : ∀ w, count h w d ≤ threshold t
}.

Lemma rate_inv_entry d h last t t' key :
  entries t' !! key = entries t !! key → threshold t' = threshold t → lockout t' = lockout t →
  rate_inv d h last t key → rate_inv d h last t' key.
Proof.
  intros He Ht Hl []. split; unfold entry_of in *; rewrite ?He, ?Ht, ?Hl; auto.
Qed.

Lemma rate_inv_later d h last now t key :
  last ≤ now → rate_inv d h last t key → rate_inv d h now t key.
Proof.
  intros Hle [? (old & ? & Hold) Hp ? ?]. split; auto; try lia.
  - exists old. split; [done|]. eapply Forall_impl; [exact Hold|]. simpl. lia.
  - eapply Forall_impl; [exact Hp|]. simpl. lia.
Qed.

Lemma rate_inv_prune d h last now t key :
  0 ≤ now → 0 < threshold t → 0 ≤ lockout t → d ≤ loginFailureWindow → last ≤ now →
  rate_inv d h last t key → rate_inv d h now (prune t now) key.
Proof.
  intros Hn Ht Hlo Hd Hle Hi. apply (rate_inv_later _ _ last now) in Hi; [|done].
  destruct Hi as [Hf (old & -> & Hold) Hp Hl Hb].
  assert (He : entry_of (prune t now) key =
    default zero_lock (entries t !! key ≫= prune_entry now)).
  { unfold entry_of. simpl. by rewrite lookup_omap. }
  change (entry_of t key) with (default zero_lock (entries t !! key)) in *.
  destruct (entries t !! key) as [e|]; simpl in *.
  2: { split; rewrite ?He; simpl; auto; try lia. exists old. split; [done|exact Hold]. }
  unfold prune_entry, GoTime.add, GoTime.after in He.
  destruct (dropBefore_split (failures e) (now + - loginFailureWindow)) as (gone & Hg & Hgone).
  assert (Hold' : Forall (λ y, y + d ≤ Z.max (lockedUntil e) now) (old ++ gone)).
  { apply Forall_app_2; [done|]. eapply Forall_impl; [exact Hgone|]. simpl. lia. }
  assert (Hlen : (length (dropBefore (failures e) (now + - loginFailureWindow))
                  ≤ length (failures e))%nat) by (rewrite Hg at 2; rewrite length_app; lia).
  case_if_in He; [apply andb_true_iff in Heqb as [Hnil%bool_decide_eq_true Hu]; zb|].
  - split; rewrite ?He; simpl; auto; unfold GoTime.zero_time; try lia.
    exists (old ++ gone). rewrite Hg at 1. rewrite Hnil, <- app_assoc. split; [done|].
    eapply Forall_impl; [exact Hold'|]. unfold GoTime.zero_time. simpl. lia.
  - split; rewrite ?He; simpl; auto; try lia.
    exists (old ++ gone). rewrite Hg at 1. by rewrite <- app_assoc.
Qed.

Lemma rate_inv_touch d h last now t key key' :
  last ≤ now → rate_inv d h last t key → rate_inv d h now (touchLocked t key' now).1 key.
Proof.
  intros Hle Hi. apply (rate_inv_later _ _ last now) in Hi; [|done].
  unfold touchLocked. destruct (entries t !! key') as [e|] eqn:He; [|done].
  case_if; [done|]. simpl. destruct (decide (key' = key)) as [->|Hk].
  - destruct Hi as [Hf (old & -> & Hold) Hp Hl Hb].
    unfold entry_of in *. rewrite He in *. simpl in *.
    split; unfold entry_of; simpl; rewrite ?lookup_insert_eq; simpl; unfold GoTime.add;
      auto; try lia.
    exists old. split; [done|]. eapply Forall_impl; [exact Hold|]. simpl. lia.
  - apply (rate_inv_entry d h now t); try done. simpl. by rewrite lookup_insert_ne.
Qed.

Lemma rate_inv_failure_other d h last t key key' now :
  key' ≠ key → rate_inv d h last t key → rate_inv d h last (failure t key' now).1 key.
Proof.
  intros Hk Hi. unfold failure. cbv zeta. case_if; simpl;
    (apply (rate_inv_entry d h last t); try done; simpl; by rewrite lookup_insert_ne).
Qed.

Lemma rate_inv_delete_other d h last t key key' :
  key' ≠ key → rate_inv d h last t key → rate_inv d h last (delete_entry t key') key.
Proof.
  intros Hk Hi. apply (rate_inv_entry d h last t); try done. simpl. by rewrite lookup_delete_ne.
Qed.

(** One failure more, of a key that is not locked. *)
Lemma rate_inv_failure d h last now t key :
  d ≤ loginFailureWindow → d ≤ lockout t → 0 < threshold t → last ≤ now → 0 ≤ now →
  locked_at t key now = false →
  rate_inv d h last t key → rate_inv d (h ++ [now]) now (failure t key now).1 key.
Proof.
  intros Hd Hlo Ht Hle Hn Hfree Hi. apply (rate_inv_later _ _ last now) in Hi; [|done].
  destruct Hi as [Hf (old & -> & Hold) Hp Hl Hb].
  assert (Hu : lockedUntil (entry_of t key) ≤ now).
  { unfold entry_of. destruct (entries t !! key) as [e|] eqn:He; simpl; [|done].
    apply not_true_iff_false in Hfree. apply Z.nlt_ge. intros Hlt. apply Hfree.
    apply locked_at_spec. by exists e. }
  assert (Hpast : Forall (λ y, y ≤ now) ((old ++ failures (entry_of t key)) ++ [now]))
    by (apply Forall_app_2; [done|by repeat constructor]).
  assert (Hcount : ∀ w, count ((old ++ failures (entry_of t key)) ++ [now]) w d ≤ threshold t).
  { intros w. rewrite count_app. destruct (decide (w ≤ now < w + d)) as [Hw|Hw].
    - rewrite count_app, (count_before old).
      + pose proof (count_le_length (failures (entry_of t key)) w d).
        pose proof (count_le_length [now] w d). simpl in *. lia.
      + eapply Forall_impl; [exact Hold|]. simpl. lia.
    - assert (count [now] w d = 0) as ->; [|specialize (Hb w); lia].
      unfold count. simpl. destruct (w <=? now) eqn:H1, (now <? w + d) eqn:H2; try done.
      zb. lia. }
  destruct (dropBefore_split (failures (entry_of t key)) (now + - loginFailureWindow))
    as (gone & Hg & Hgone).
  unfold failure. fold (entry_of t key). cbv zeta. unfold GoTime.add.
  case_if; simpl; (split; unfold entry_of; simpl; rewrite ?lookup_insert_eq; simpl);
    fold (entry_of t key); auto; try lia.
  - exists (old ++ gone). split; [rewrite Hg at 1; by rewrite <- !app_assoc|].
    apply Forall_app_2; [done|]. eapply Forall_impl; [exact Hgone|]. simpl. lia.
  - eexists. split; [by rewrite app_nil_r|].
    eapply Forall_impl; [exact Hpast|]. simpl. lia.
Qed.

Lemma rate_inv_new d th lo key : 0 < th → 0 ≤ lo → rate_inv d [] 0 (newLockTable th lo) key.
Proof.
  intros Ht Hl. split; unfold entry_of; simpl; try done; try lia.
  - by exists [].
  - intros w. unfold count. simpl. lia.
Qed.

(** The tables of the limiter after a call. *)
Lemma attempt_core_tables l now ip u :
  users (attempt_core l now ip u).1 = (touchLocked (users l) u now).1 ∧
  ips (attempt_core l now ip u).1 =
    (if exempt l ip then ips l else (touchLocked (ips l) ip now).1) ∧
  exempt (attempt_core l now ip u).1 = exempt l ∧
  credGen (attempt_core l now ip u).1 = credGen l.
Proof.
  unfold attempt_core. destruct (exempt l ip);
    destruct (touchLocked (ips l) ip now), (touchLocked (users l) u now); by split_and!.
Qed.

Lemma failure_core_tables l now ip u :
  users (failure_core l now ip u).1 = (failure (users l) u now).1 ∧
  ips (failure_core l now ip u).1 =
    (if exempt l ip then ips l else (failure (ips l) ip now).1) ∧
  exempt (failure_core l now ip u).1 = exempt l ∧
  credGen (failure_core l now ip u).1 = credGen l.
Proof.
  unfold failure_core. destruct (exempt l ip);
    destruct (failure (ips l) ip now), (failure (users l) u now); by split_and!.
Qed.

Lemma pruneLocked_fields l now :
  exempt (pruneLocked l now) = exempt l ∧ credGen (pruneLocked l now) = credGen l.
Proof. unfold pruneLocked. by case_if. Qed.

Lemma limiter_ok_bounds l :
  limiter_ok l →
  0 < threshold (users l) ∧ LoginUserLockout ≤ lockout (users l) ∧ 0 ≤ lockout (users l) ∧
  0 < threshold (ips l) ∧ LoginIPLockout ≤ lockout (ips l) ∧ 0 ≤ lockout (ips l).
Proof. intros [[-> ->] [-> ->]]. by split_and!. Qed.

Lemma pruneLocked_rate d h last now l k :
  0 ≤ now → last ≤ now → d ≤ loginFailureWindow → limiter_ok l →
  (rate_inv d h last (users l) k → rate_inv d h now (users (pruneLocked l now)) k) ∧
  (rate_inv d h last (ips l) k → rate_inv d h now (ips (pruneLocked l now)) k).
Proof.
  intros Hn Hle Hd (? & ? & ? & ? & ? & ?)%limiter_ok_bounds. unfold pruneLocked.
  case_if; simpl; split; intros Hi.
  - by apply (rate_inv_later _ _ last).
  - by apply (rate_inv_later _ _ last).
  - by apply (rate_inv_prune _ _ last).
  - by apply (rate_inv_prune _ _ last).
Qed.

(** The state of the bound for one username and one address after some requests
    the last of which was at [last]. *)
Record watched (u ip : string) (hu hi : list Z) (gen last : Z) (l : LoginLimiter) : Prop := {
  w_ok : limiter_ok l;
  w_gen : credGen l = gen;
  w_exempt : exempt l ip = false;
  w_user : rate_inv LoginUserLockout hu last (users l) u;
  w_ip : rate_inv LoginIPLockout hi last (ips l) ip
}.

Lemma watched_pruned u ip hu hi gen last now l :
  0 ≤ now → last ≤ now → watched u ip hu hi gen last l →
  watched u ip hu hi gen now (pruneLocked l now).
Proof.
  intros Hn Hle [Hok Hg He Hu Hi].
  destruct (pruneLocked_fields l now) as [Hex Hgen]. split.
  - by apply pruneLocked_ok.
  - by rewrite Hgen.
  - by rewrite Hex.
  - by apply (proj1 (pruneLocked_rate LoginUserLockout hu last now l u Hn Hle ltac:(done) Hok)).
  - by apply (proj2 (pruneLocked_rate LoginIPLockout hi last now l ip Hn Hle ltac:(done) Hok)).
Qed.

Lemma watched_Attempt u ip hu hi gen last now l ip' u' :
  0 ≤ now → last ≤ now → watched u ip hu hi gen last l →
  watched u ip hu hi gen now (Attempt l now ip' u').1 ∧
  ((Attempt l now ip' u').2 ≤ 0 →
    locked_at (users (Attempt l now ip' u').1) u' now = false ∧
    (ip' = ip → locked_at (ips (Attempt l now ip' u').1) ip now = false)).
Proof.
  intros Hn Hle Hw. apply (watched_pruned _ _ _ _ _ last now) in Hw; [|done..].
  unfold Attempt. destruct Hw as [Hok Hg He Hu Hi].
  destruct (attempt_core_tables (pruneLocked l now) now ip' u') as (Htu & Hti & Hte & Htg).
  split; [split|].
  - by apply attempt_core_ok.
  - by rewrite Htg.
  - by rewrite Hte.
  - rewrite Htu. by apply (rate_inv_touch _ _ now).
  - rewrite Hti. case_if; [done|]. by apply (rate_inv_touch _ _ now).
  - rewrite attempt_core_wait by done. intros Hwait.
    destruct (locked_at (users (pruneLocked l now)) u' now) eqn:Hlu; [by vm_compute in Hwait|].
    rewrite Htu, untouched by done. split; [done|]. intros ->. rewrite Hti, He in *.
    simpl in Hwait. destruct (locked_at (ips (pruneLocked l now)) ip now) eqn:Hli;
      [by vm_compute in Hwait|]. by rewrite untouched.
Qed.

Lemma locked_at_pruned l now now' k :
  now ≤ now' → 0 ≤ now' →
  (locked_at (users l) k now = false → locked_at (users (pruneLocked l now')) k now' = false) ∧
  (locked_at (ips l) k now = false → locked_at (ips (pruneLocked l now')) k now' = false).
Proof.
  intros Hle Hn. destruct (pruneLocked_same now' l Hn) as [Hi Hu _ _]. split; intros Hl;
    apply (locked_at_later _ _ _ _ Hle) in Hl; rewrite <- Hl; by apply touchLocked_same.
Qed.

(** The failures a request adds to a history. *)
Definition adds (b : bool) (now : Z) (h : list Z) : list Z := if b then h ++ [now] else h.

Lemma watched_Failure u ip hu hi gen last now l ip' u' :
  0 ≤ now → last ≤ now → watched u ip hu hi gen last l →
  locked_at (users l) u' last = false →
  (ip' = ip → locked_at (ips l) ip last = false) →
  watched u ip (adds (bool_decide (u' = u)) now hu) (adds (bool_decide (ip' = ip)) now hi) gen now
    (Failure l now ip' u').1.
Proof.
  intros Hn Hle Hw Hlu Hli. apply (watched_pruned _ _ _ _ _ last now) in Hw; [|done..].
  apply (proj1 (locked_at_pruned l last now u' Hle Hn)) in Hlu.
  unfold Failure. destruct Hw as [Hok Hg He Hu Hi].
  destruct (failure_core_tables (pruneLocked l now) now ip' u') as (Htu & Hti & Hte & Htg).
  pose proof (limiter_ok_bounds _ Hok) as (? & ? & ? & ? & ? & ?).
  split.
  - by apply failure_core_ok.
  - by rewrite Htg.
  - by rewrite Hte.
  - rewrite Htu. unfold adds. case_bool_decide as Hk.
    + subst u'. by apply (rate_inv_failure _ _ now).
    + by apply rate_inv_failure_other.
  - rewrite Hti. unfold adds. case_bool_decide as Hk.
    + subst ip'. rewrite He. apply (rate_inv_failure _ _ now); try done.
      apply (proj2 (locked_at_pruned l last now ip Hle Hn)). by apply Hli.
    + case_if; [done|]. by apply rate_inv_failure_other.
Qed.

Lemma watched_Success u ip hu hi gen last l ip' u' :
  u' ≠ u → ip' ≠ ip → watched u ip hu hi gen last l →
  watched u ip hu hi gen last (Success l ip' u').
Proof.
  intros Hu' Hi' [[] ? ? ? ?]. split; simpl; auto using rate_inv_delete_other. by split.
Qed.

(** Requests one after another under unchanged credentials, the clock not going
    back. *)
Fixpoint requests_ordered (gen last : Z) (rqs : list LoginRequest) : Prop :=
  match rqs with
  | [] => True
  | rq :: rqs' =>
    rq_gen rq = gen ∧ last ≤ rq_attempt_at rq ≤ rq_failure_at rq ∧
    requests_ordered gen (rq_failure_at rq) rqs'
  end.

Definition names_user (u : string) (rq : LoginRequest) : bool :=
  match rq_body rq with Some (u', _) => bool_decide (u' = u) | None => false end.

Definition comes_from (ip : string) (rq : LoginRequest) : bool := bool_decide (rq_ip rq = ip).

(** Whether the password was checked and found wrong. *)
Definition rejected (resp : LoginResponse) : bool :=
  match resp with WrongPassword _ => true | _ => false end.

(** When the wrong passwords of the requests [p] holds of were tried. *)
Definition wrong_at (p : LoginRequest → bool) (served : list (LoginRequest * LoginResponse))
    : list Z :=
  omap (λ '(rq, resp), if p rq && rejected resp then Some (rq_failure_at rq) else None) served.

(** The password given for [u], or from [ip], is wrong. *)
Definition guesses (u ip : string) (rq : LoginRequest) : Prop :=
  ∀ u' p, rq_body rq = Some (u', p) → u' = u ∨ rq_ip rq = ip → rq_verdict rq u' p = false.

Lemma watched_request u ip hu hi gen last l rq :
  0 ≤ last → last ≤ rq_attempt_at rq ≤ rq_failure_at rq → rq_gen rq = gen →
  guesses u ip rq → watched u ip hu hi gen last l →
  let '(l', resp) := handleAuthLogin l rq in
  watched u ip (adds (names_user u rq && rejected resp) (rq_failure_at rq) hu)
    (adds (comes_from ip rq && rejected resp) (rq_failure_at rq) hi) gen (rq_failure_at rq) l'.
Proof.
  intros Hlast Ht Hgen Hg Hw.
  assert (Hlater : ∀ now l, last ≤ now → now ≤ rq_failure_at rq → watched u ip hu hi gen now l →
    watched u ip hu hi gen (rq_failure_at rq) l).
  { intros now l0 ? ? []. split; auto; by apply (rate_inv_later _ _ now). }
  unfold handleAuthLogin, SyncCredentials. rewrite Hgen, (w_gen _ _ _ _ _ _ _ Hw), Z.eqb_refl.
  destruct (rq_configured rq); simpl; [|rewrite !andb_false_r; apply (Hlater last); auto; lia].
  unfold names_user, guesses in *. destruct (rq_body rq) as [[u' p]|]; simpl;
    [|rewrite !andb_false_r; apply (Hlater last); auto; lia].
  destruct (watched_Attempt u ip hu hi gen last (rq_attempt_at rq) l (rq_ip rq) u')
    as [Hw' Hfree]; [lia|lia|done|].
  destruct (Attempt l (rq_attempt_at rq) (rq_ip rq) u') as [l1 wait]. simpl in *.
  destruct (0 <? wait) eqn:Hwait; simpl;
    [rewrite !andb_false_r; apply (Hlater (rq_attempt_at rq)); auto; lia|].
  zb. destruct (Hfree Hwait) as [Hlu Hli].
  destruct (rq_verdict rq u' p) eqn:Hv; simpl.
  - rewrite !andb_false_r. specialize (Hg u' p eq_refl).
    apply watched_Success; [|intros Hi; rewrite Hg in Hv by auto; done|].
    + intros Hu. rewrite Hg in Hv by auto. done.
    + apply (Hlater (rq_attempt_at rq)); auto; lia.
  - assert (Hli' : rq_ip rq = ip → locked_at (ips l1) ip (rq_attempt_at rq) = false) by done.
    pose proof (watched_Failure u ip hu hi gen (rq_attempt_at rq) (rq_failure_at rq) l1 (rq_ip rq)
      u' ltac:(lia) ltac:(lia) Hw' Hlu Hli') as Hf.
    destruct (Failure l1 (rq_failure_at rq) (rq_ip rq) u') as [l2 started]. simpl in *.
    by rewrite !andb_true_r.
Qed.

Lemma serve_watched u ip hu hi gen last l rqs :
  0 ≤ last → requests_ordered gen last rqs → Forall (guesses u ip) rqs →
  watched u ip hu hi gen last l →
  let '(l', served) := serve l rqs in
  ∃ last', watched u ip (hu ++ wrong_at (names_user u) served)
    (hi ++ wrong_at (comes_from ip) served) gen last' l'.
Proof.
  revert hu hi last l. induction rqs as [|rq rqs IH]; intros hu hi last l Hlast Ho Hg Hw; simpl.
  { exists last. by rewrite !app_nil_r. }
  destruct Ho as (Hgen & Ht & Ho). apply Forall_cons in Hg as [Hg Hgs].
  pose proof (watched_request u ip hu hi gen last l rq Hlast Ht Hgen Hg Hw) as Hw'.
  destruct (handleAuthLogin l rq) as [l1 resp].
  specialize (IH _ _ (rq_failure_at rq) l1 ltac:(lia) Ho Hgs Hw').
  destruct (serve l1 rqs) as [l2 rest]. destruct IH as [last' IH]. exists last'. unfold adds in IH.
  simpl. destruct (names_user u rq && rejected resp), (comes_from ip rq && rejected resp);
    rewrite <- ?app_assoc in IH; exact IH.
Qed.


(** *** Witnesses *)

Lemma sweep_invisible_witness :
  let cs := [LFailure 5 "a" "u"; LAttempt (20 * GoTime.minute) "a" "u"; LSuccess "a" "u"] in
  limiter_run pruneLocked (NewLoginLimiter (λ _, false)) cs =
  limiter_run (λ l _, l) (NewLoginLimiter (λ _, false)) cs.
Proof. apply sweep_invisible. repeat split; discriminate. Defined.

Lemma lock_restarts_witness :
  let l := limiter_after (NewLoginLimiter (λ _, false)) (repeat (LFailure 5 "a" "u") 10) in
  let '(l', w) := Attempt l 7 "a" "u" in
  0 < w → (w = LoginIPLockout ∨ w = LoginUserLockout) ∧
    (0 < (Attempt l' (4 * GoTime.minute) "a" "u").2 ↔ 4 * GoTime.minute < 7 + w).
Proof.
  apply (lock_restarts (λ _, false) (repeat (LFailure 5 "a" "u") 10) 7 (4 * GoTime.minute) "a" "u");
    discriminate.
Defined.

