(* ===== verification/SessionTokens.v ===== *)
(** * Session tokens (mcpserver/session_tokens.go, internal/tokenhash)

    The store that maps bearer tokens to sessions, with its two indexes: the
    conversation token of each session and the service token of each agent. The
    file shows that the indexes and the records stay consistent in every
    reachable store, what rotation, synchronisation and revocation do to every
    token, and how a token kept as a hash authenticates. It ends with the
    interface [TokenIssuer] the agent loop uses, and the proof that the store
    implements it. *)

From stdpp Require Import base gmap strings list fin_maps relations.
From Stdlib Require Import ZArith Lia Ascii.
From S2P Require Import Prelude GoString AgentIds.

Open Scope string_scope.
Open Scope list_scope.
Open Scope Z_scope.

(** ** Token hashes and token generation

    [Sum256] is the standard library's digest. *)
Class Sha256 := { Sum256 : list ascii → list ascii }.

Definition hex_digit (n : Z) : ascii :=
  byte_of (if n <? 10 then 48 + n else 97 + (n - 10)).

(** [hex.EncodeToString]. *)
Definition EncodeToString (l : list ascii) : string :=
  of_bytes (l ≫= λ c, [hex_digit (byte_val c / 16); hex_digit (byte_val c mod 16)]).

Definition Prefix : string := "sha256:".

Definition Hash `{Sha256} (plain : string) : string :=
  Prefix +:+ EncodeToString (Sum256 (bytes plain)).

Definition IsHashed (stored : string) : bool := HasPrefix stored Prefix.

Definition sessionTokenPrefix : string := "SST".

(** [raw] is what [rand.Read] filled in, [None] its error. *)
Definition generateSessionToken (raw : option (list ascii)) : option string :=
  option_map (λ b, sessionTokenPrefix +:+ EncodeToString b) raw.

(** ** The store *)

Record sessionRecord := {
  agentID : string;
  sessionKey : string;
  archiveDir : string;
  channel : string;
  chatID : string;
  homeID : string;
  depth : Z;
  askChain : list string;
  pinned : bool;
  hashed : bool
}.

Definition zero_record : sessionRecord := {|
  agentID := ""; sessionKey := ""; archiveDir := ""; channel := ""; chatID := ""; homeID := "";
  depth := 0; askChain := []; pinned := false; hashed := false
|}.

Record SessionTokenStore := {
  tokens : gmap string sessionRecord;
  bySess : gmap string string;
  bySvc : gmap string string;
  home : option (string → string)
}.

Definition newSessionTokenStore : SessionTokenStore :=
  {| tokens := ∅; bySess := ∅; bySvc := ∅; home := None |}.

Definition SetHomeResolver (s : SessionTokenStore) (fn : string → string) : SessionTokenStore :=
  {| tokens := tokens s; bySess := bySess s; bySvc := bySvc s; home := Some fn |}.

Definition with_tokens (s : SessionTokenStore) (t : gmap string sessionRecord)
    (sess svc : gmap string string) : SessionTokenStore :=
  {| tokens := t; bySess := sess; bySvc := svc; home := home s |}.

(** The home agent a new record gets. *)
Definition home_of (s : SessionTokenStore) (agent : string) : string :=
  match home s with
  | None => ""
  | Some fn =>
    let h := fn agent in
    if negb (bool_decide (h = "")) && negb (bool_decide (h = agent)) then h else ""
  end.

Definition Issue (s : SessionTokenStore) (gen : option string) (agent key dir : string)
    : SessionTokenStore * string :=
  match gen with
  | None => (s, "")
  | Some tok =>
    let fresh chan chat d chain :=
      {| agentID := agent; sessionKey := key; archiveDir := dir; channel := chan; chatID := chat;
         homeID := home_of s agent; depth := d; askChain := chain; pinned := false;
         hashed := false |} in
    match bySess s !! key with
    | Some old =>
      let o := default zero_record (tokens s !! old) in
      if pinned o then (s, old)
      else (with_tokens s
              (<[tok := fresh (channel o) (chatID o) (depth o) (askChain o)]>
                 (delete old (tokens s)))
              (<[key := tok]> (bySess s)) (bySvc s), tok)
    | None =>
      (with_tokens s (<[tok := fresh "" "" 0 []]> (tokens s)) (<[key := tok]> (bySess s)) (bySvc s),
       tok)
    end
  end.

Definition pinned_record (agent key dir : string) (h : bool) : sessionRecord :=
  {| agentID := agent; sessionKey := key; archiveDir := dir; channel := ""; chatID := "";
     homeID := ""; depth := 0; askChain := []; pinned := true; hashed := h |}.

(** Deleting the token an index holds, if any. *)
Definition delete_old (t : gmap string sessionRecord) (old : option string)
    : gmap string sessionRecord :=
  match old with Some o => delete o t | None => t end.

Definition Register (s : SessionTokenStore) (token agent key dir : string) : SessionTokenStore :=
  with_tokens s
    (<[token := pinned_record agent key dir false]> (delete_old (tokens s) (bySess s !! key)))
    (<[key := token]> (bySess s)) (bySvc s).

Definition RegisterService (s : SessionTokenStore) (token agent dir : string)
    : SessionTokenStore :=
  with_tokens s
    (<[token := pinned_record agent (BuildAgentMainSessionKey agent) dir false]>
       (delete_old (tokens s) (bySvc s !! agent)))
    (bySess s) (<[agent := token]> (bySvc s)).

(** The first loop of [SyncServiceTokens], over the service tokens in range
    order. *)
Definition drop_services `{GoRange} (s : SessionTokenStore) : SessionTokenStore :=
  fold_left (λ s '(agent, tok),
    with_tokens s (delete tok (tokens s)) (bySess s) (delete agent (bySvc s)))
    (go_range (bySvc s)) s.

(** The body of its second loop. *)
Definition sync_one (archiveDirFor : string → string) (s : SessionTokenStore)
    (p : string * string) : SessionTokenStore :=
  let '(agent, tok) := p in
  let dir := archiveDirFor agent in
  if bool_decide (dir = "") then s
  else with_tokens s
    (<[tok := pinned_record agent (BuildAgentMainSessionKey agent) dir (IsHashed tok)]> (tokens s))
    (bySess s) (<[agent := tok]> (bySvc s)).

Definition SyncServiceTokens `{GoRange} (s : SessionTokenStore) (m : gmap string string)
    (archiveDirFor : string → string) : SessionTokenStore :=
  fold_left (sync_one archiveDirFor) (go_range m) (drop_services s).

Definition updateRecord (s : SessionTokenStore) (key : string)
    (update : sessionRecord → sessionRecord) : SessionTokenStore :=
  if bool_decide (key = "") then s
  else match bySess s !! key with
  | None => s
  | Some tok =>
    match tokens s !! tok with
    | None => s
    | Some rec => with_tokens s (<[tok := update rec]> (tokens s)) (bySess s) (bySvc s)
    end
  end.

Definition set_source (chan chat : string) (r : sessionRecord) : sessionRecord :=
  {| agentID := agentID r; sessionKey := sessionKey r; archiveDir := archiveDir r;
     channel := chan; chatID := chat; homeID := homeID r; depth := depth r;
     askChain := askChain r; pinned := pinned r; hashed := hashed r |}.

Definition set_depth (d : Z) (r : sessionRecord) : sessionRecord :=
  {| agentID := agentID r; sessionKey := sessionKey r; archiveDir := archiveDir r;
     channel := channel r; chatID := chatID r; homeID := homeID r; depth := d;
     askChain := askChain r; pinned := pinned r; hashed := hashed r |}.

Definition set_scope (chain : list string) (r : sessionRecord) : sessionRecord :=
  {| agentID := agentID r; sessionKey := sessionKey r; archiveDir := archiveDir r;
     channel := channel r; chatID := chatID r; homeID := homeID r; depth := depth r;
     askChain := chain; pinned := pinned r; hashed := hashed r |}.

Definition SetSource (s : SessionTokenStore) (key chan chat : string) : SessionTokenStore :=
  updateRecord s key (set_source chan chat).

Definition SetDepth (s : SessionTokenStore) (key : string) (d : Z) : SessionTokenStore :=
  updateRecord s key (set_depth d).

Definition SetTurnScope (s : SessionTokenStore) (key : string) (chain : list string)
    : SessionTokenStore := updateRecord s key (set_scope chain).

Definition Source (s : SessionTokenStore) (key : string) : string * string :=
  match bySess s !! key with
  | None => ("", "")
  | Some tok => let rec := default zero_record (tokens s !! tok) in (channel rec, chatID rec)
  end.

Definition Resolve `{Sha256} (s : SessionTokenStore) (token : string) : option sessionRecord :=
  let second :=
    match tokens s !! Hash token with
    | Some rec => if hashed rec then Some rec else None
    | None => None
    end in
  match tokens s !! token with
  | Some rec => if negb (hashed rec) then Some rec else second
  | None => second
  end.

Definition Revoke (s : SessionTokenStore) (key : string) : SessionTokenStore :=
  match bySess s !! key with
  | None => s
  | Some tok => with_tokens s (delete tok (tokens s)) (delete key (bySess s)) (bySvc s)
  end.

(** The body of [RevokeAgent]'s loop. *)
Definition revoke_one (agent : string) (s : SessionTokenStore) (p : string * sessionRecord)
    : SessionTokenStore :=
  let '(tok, rec) := p in
  if bool_decide (agentID rec = agent)
  then with_tokens s (delete tok (tokens s)) (delete (sessionKey rec) (bySess s)) (bySvc s)
  else s.

Definition RevokeAgent `{GoRange} (s : SessionTokenStore) (agent : string) : SessionTokenStore :=
  let s' := fold_left (revoke_one agent) (go_range (tokens s)) s in
  with_tokens s' (tokens s') (bySess s') (delete agent (bySvc s')).

Example ex_issue_rotates :
  let '(s1, t1) := Issue newSessionTokenStore (Some "SST1") "bob" "agent:bob:main" "/d" in
  let s2 := SetSource s1 "agent:bob:main" "telegram" "42" in
  let '(s3, t2) := Issue s2 (Some "SST2") "bob" "agent:bob:main" "/d" in
  t1 = "SST1" ∧ t2 = "SST2" ∧ tokens s3 !! "SST1" = None ∧
  Source s3 "agent:bob:main" = ("telegram", "42").
Proof. by vm_compute. Qed.

Example ex_generate : generateSessionToken (Some (bytes "Az")) = Some "SST417a".
Proof. reflexivity. Qed.

(** ** The loops *)

Section loops.
Context `{GoRange}.
Implicit Types s : SessionTokenStore.

Lemma drop_fold s l :
  let r := fold_left (λ s '(agent, tok),
    with_tokens s (delete tok (tokens s)) (bySess s) (delete agent (bySvc s))) l s in
  bySess r = bySess s ∧ home r = home s ∧
  (∀ t, tokens r !! t = if decide (t ∈ l.*2) then None else tokens s !! t) ∧
  (∀ a, bySvc r !! a = if decide (a ∈ l.*1) then None else bySvc s !! a).
Proof.
  revert s. induction l as [|[a0 t0] l IH]; intros s; simpl.
  { split_and!; try done; intros; by rewrite decide_False by apply not_elem_of_nil. }
  destruct (IH (with_tokens s (delete t0 (tokens s)) (bySess s) (delete a0 (bySvc s))))
    as (-> & -> & Ht & Ha). split_and!; [done..| |].
  - intros t. rewrite Ht. simpl. rewrite lookup_delete. repeat case_decide; set_solver.
  - intros a. rewrite Ha. simpl. rewrite lookup_delete. repeat case_decide; set_solver.
Qed.

(** Whether a token is some agent's service token. *)
Definition is_service s (t : string) : Prop := ∃ a, bySvc s !! a = Some t.

Lemma drop_services_spec s :
  bySess (drop_services s) = bySess s ∧ home (drop_services s) = home s ∧
  bySvc (drop_services s) = ∅ ∧
  (∀ t, is_service s t → tokens (drop_services s) !! t = None) ∧
  (∀ t, ¬ is_service s t → tokens (drop_services s) !! t = tokens s !! t).
Proof.
  destruct (drop_fold s (go_range (bySvc s))) as (Hs & Hh & Ht & Ha).
  fold (drop_services s) in *. split_and!; [done|done| | |].
  - apply map_eq. intros a. rewrite Ha, lookup_empty. case_decide as Hd; [done|].
    destruct (bySvc s !! a) as [t|] eqn:E; [|done]. destruct Hd.
    apply list_elem_of_fmap. exists (a, t). split; [done|]. by apply elem_of_go_range.
  - intros t [a E]. rewrite Ht, decide_True; [done|].
    apply list_elem_of_fmap. exists (a, t). split; [done|]. by apply elem_of_go_range.
  - intros t Hn. rewrite Ht, decide_False; [done|].
    intros ([a t'] & -> & Hin%elem_of_go_range)%list_elem_of_fmap. apply Hn. by exists a.
Qed.

(** The record [SyncServiceTokens] stores. *)
Definition service_record (dirs : string → string) (agent tok : string) : sessionRecord :=
  pinned_record agent (BuildAgentMainSessionKey agent) (dirs agent) (IsHashed tok).

Lemma sync_fold dirs s l :
  NoDup l.*1 → NoDup l.*2 →
  let r := fold_left (sync_one dirs) l s in
  bySess r = bySess s ∧ home r = home s ∧
  (∀ a t, (a, t) ∈ l → dirs a ≠ "" →
     tokens r !! t = Some (service_record dirs a t) ∧ bySvc r !! a = Some t) ∧
  (∀ t, (∀ a, (a, t) ∈ l → dirs a = "") → tokens r !! t = tokens s !! t) ∧
  (∀ a, (∀ t, (a, t) ∈ l → dirs a = "") → bySvc r !! a = bySvc s !! a).
Proof.
  revert s. induction l as [|[a0 t0] l IH]; intros s Hn1 Hn2; simpl.
  { split_and!; try done. intros a t []%elem_of_nil. }
  simpl in Hn1, Hn2. apply NoDup_cons in Hn1 as [Hna Hn1], Hn2 as [Hnt Hn2].
  assert (Hfresh_t : ∀ a, (a, t0) ∉ l)
    by (intros a Hin; apply Hnt, list_elem_of_fmap; by exists (a, t0)).
  assert (Hfresh_a : ∀ t, (a0, t) ∉ l)
    by (intros t Hin; apply Hna, list_elem_of_fmap; by exists (a0, t)).
  destruct (IH (sync_one dirs s (a0, t0)) Hn1 Hn2) as (Hs & Hh & Hin & Ht & Ha). clear IH.
  set (r := fold_left _ l _) in *. clearbody r. unfold sync_one in Hs, Hh, Ht, Ha.
  destruct (bool_decide (dirs a0 = "")) eqn:Hd;
    [apply bool_decide_eq_true in Hd|apply bool_decide_eq_false in Hd];
    simpl in *; split_and!; try done.
  - intros a t [[= -> ->]|Hl]%elem_of_cons Hne; [done|by apply Hin].
  - intros t Hall. apply Ht. intros a Hl. apply Hall. by right.
  - intros a Hall. apply Ha. intros t Hl. apply (Hall t). by right.
  - intros a t [[= -> ->]|Hl]%elem_of_cons Hne; [|by apply Hin].
    rewrite Ht, Ha by (intros; exfalso; naive_solver). by rewrite !lookup_insert_eq.
  - intros t Hall. rewrite Ht by (intros a Hl; apply Hall; by right).
    apply lookup_insert_ne. intros ->. apply Hd, (Hall a0). by left.
  - intros a Hall. rewrite Ha by (intros t Hl; apply (Hall t); by right).
    apply lookup_insert_ne. intros ->. apply Hd, (Hall t0). by left.
Qed.

Lemma revoke_fold agent s l :
  let r := fold_left (revoke_one agent) l s in
  bySvc r = bySvc s ∧ home r = home s ∧
  (∀ t, (∃ rec, (t, rec) ∈ l ∧ agentID rec = agent) → tokens r !! t = None) ∧
  (∀ t, (∀ rec, (t, rec) ∈ l → agentID rec ≠ agent) → tokens r !! t = tokens s !! t) ∧
  (∀ k, (∃ t rec, (t, rec) ∈ l ∧ agentID rec = agent ∧ sessionKey rec = k) →
     bySess r !! k = None) ∧
  (∀ k, (∀ t rec, (t, rec) ∈ l → agentID rec = agent → sessionKey rec ≠ k) →
     bySess r !! k = bySess s !! k).
Proof.
  revert s. induction l as [|[t0 r0] l IH] using rev_ind; intros s; simpl.
  { split_and!; try done; intros ? Hex; exfalso; set_solver. }
  rewrite fold_left_app. simpl.
  destruct (IH s) as (Hv & Hh & Ht1 & Ht2 & Hk1 & Hk2). clear IH.
  set (r := fold_left _ _ _) in *. unfold revoke_one.
  case_bool_decide as Ha; simpl; split_and!; try done.
  - intros t (rec & [Hl|[= -> ->]%list_elem_of_singleton]%elem_of_app & Hr).
    + rewrite lookup_delete. case_decide; [done|]. apply Ht1. by exists rec.
    + by rewrite lookup_delete_eq.
  - intros t Hall. rewrite lookup_delete_ne.
    + apply Ht2. intros rec Hl. apply Hall, elem_of_app. by left.
    + intros ->. apply (Hall r0); [|done]. apply elem_of_app. right. by apply list_elem_of_singleton.
  - intros k (t & rec & [Hl|[= -> ->]%list_elem_of_singleton]%elem_of_app & Hr & Hk).
    + rewrite lookup_delete. case_decide; [done|]. apply Hk1. by exists t, rec.
    + by rewrite Hk, lookup_delete_eq.
  - intros k Hall. rewrite lookup_delete_ne.
    + apply Hk2. intros t rec Hl. apply (Hall t), elem_of_app. by left.
    + apply (Hall t0 r0); [|done]. apply elem_of_app. right. by apply list_elem_of_singleton.
  - intros t (rec & [Hl|[= -> ->]%list_elem_of_singleton]%elem_of_app & Hr); [|done].
    apply Ht1. by exists rec.
  - intros t Hall. apply Ht2. intros rec Hl. apply Hall, elem_of_app. by left.
  - intros k (t & rec & [Hl|[= -> ->]%list_elem_of_singleton]%elem_of_app & Hr & Hk); [|done].
    apply Hk1. by exists t, rec.
  - intros k Hall. apply Hk2. intros t rec Hl. apply (Hall t), elem_of_app. by left.
Qed.

Lemma RevokeAgent_spec s agent :
  let r := RevokeAgent s agent in
  bySvc r = delete agent (bySvc s) ∧
  (∀ t rec, tokens r !! t = Some rec ↔ tokens s !! t = Some rec ∧ agentID rec ≠ agent) ∧
  (∀ k t, bySess r !! k = Some t ↔ bySess s !! k = Some t ∧
     ∀ t' rec, tokens s !! t' = Some rec → agentID rec = agent → sessionKey rec ≠ k).
Proof.
  unfold RevokeAgent. cbv zeta.
  destruct (revoke_fold agent s (go_range (tokens s))) as (Hv & _ & Ht1 & Ht2 & Hk1 & Hk2).
  set (r := fold_left _ _ _) in *. simpl. rewrite Hv. split_and!; [done| |].
  - intros t rec. destruct (tokens s !! t) as [rec'|] eqn:Ht.
    + destruct (decide (agentID rec' = agent)) as [Ha|Ha].
      * rewrite Ht1; [naive_solver|]. exists rec'. split; [by apply elem_of_go_range|done].
      * rewrite Ht2, Ht; [naive_solver|]. intros rec'' Hl%elem_of_go_range. naive_solver.
    + rewrite Ht2, Ht; [naive_solver|]. intros rec'' Hl%elem_of_go_range. naive_solver.
  - intros k t. split.
    + intros Hk. assert (Hno : ∀ t' rec, tokens s !! t' = Some rec → agentID rec = agent →
        sessionKey rec ≠ k).
      { intros t' rec Ht Ha Hsk. rewrite Hk1 in Hk; [done|]. exists t', rec.
        split; [by apply elem_of_go_range|done]. }
      split; [|done]. rewrite <- Hk2; [done|]. intros t' rec Hl%elem_of_go_range. by apply (Hno t').
    + intros [Hk Hno]. rewrite Hk2; [done|]. intros t' rec Hl%elem_of_go_range. by apply (Hno t').
Qed.
End loops.

(** ** Reachable stores *)

Section store.
Context `{GoRange}.
(** The agent whose conversation a session key names. *)
Variable agent_of : string → string.
Implicit Types s : SessionTokenStore.

Definition owned (a k : string) : Prop := agent_of k = a.

(** The calls the program makes. A generated token is one the store does not
    hold, a registered one is new or the one it replaces, the stored service
    tokens are distinct and none is a conversation token, and a session is
    always named with the agent it belongs to. *)
Inductive store_step : SessionTokenStore → SessionTokenStore → Prop :=
| step_issue s gen a k d :
    (∀ tok, gen = Some tok → tokens s !! tok = None) → owned a k →
    store_step s (Issue s gen a k d).1
| step_register s tok a k d :
    tokens s !! tok = None ∨ bySess s !! k = Some tok → owned a k →
    store_step s (Register s tok a k d)
| step_register_service s tok a d :
    tokens s !! tok = None ∨ bySvc s !! a = Some tok → owned a (BuildAgentMainSessionKey a) →
    store_step s (RegisterService s tok a d)
| step_sync s m dirs :
    (∀ a a' t, m !! a = Some t → m !! a' = Some t → a = a') →
    (∀ a t k, m !! a = Some t → bySess s !! k ≠ Some t) →
    (∀ a t, m !! a = Some t → owned a (BuildAgentMainSessionKey a)) →
    store_step s (SyncServiceTokens s m dirs)
| step_source s k chan chat : store_step s (SetSource s k chan chat)
| step_depth s k d : store_step s (SetDepth s k d)
| step_scope s k chain : store_step s (SetTurnScope s k chain)
| step_home s fn : store_step s (SetHomeResolver s fn)
| step_revoke s k : store_step s (Revoke s k)
| step_revoke_agent s a : store_step s (RevokeAgent s a).

Definition store_reachable s : Prop := rtc store_step newSessionTokenStore s.

(** Every index entry names a record of its session or agent, every record has
    its index entry, no token is in both indexes, and a service token's record
    is as registered: pinned, at depth 0 and without an ask chain. *)
Record store_inv s : Prop := {
  i_sess : ∀ k t, bySess s !! k = Some t →
    ∃ r, tokens s !! t = Some r ∧ sessionKey r = k ∧ hashed r = false;
  i_svc : ∀ a t, bySvc s !! a = Some t →
    ∃ d h, tokens s !! t = Some (pinned_record a (BuildAgentMainSessionKey a) d h);
  i_idx : ∀ t r, tokens s !! t = Some r →
    bySess s !! sessionKey r = Some t ∨ bySvc s !! agentID r = Some t;
  i_disj : ∀ k a t, bySess s !! k = Some t → bySvc s !! a ≠ Some t;
  i_owner : ∀ t r, tokens s !! t = Some r → owned (agentID r) (sessionKey r)
}.

Lemma i_sess_inj s k k' t :
  store_inv s → bySess s !! k = Some t → bySess s !! k' = Some t → k = k'.
Proof. intros Hs (? & ? & <- & _)%(i_sess _ Hs) (? & ? & <- & _)%(i_sess _ Hs). congruence. Qed.

Lemma i_svc_inj s a a' t :
  store_inv s → bySvc s !! a = Some t → bySvc s !! a' = Some t → a = a'.
Proof. intros Hs (? & ? & Ht)%(i_svc _ Hs) (? & ? & Ht')%(i_svc _ Hs). unfold pinned_record in *. congruence. Qed.

Lemma delete_old_lookup m old t :
  delete_old m old !! t = if decide (old = Some t) then None else m !! t.
Proof.
  destruct old as [o|]; [|by rewrite decide_False].
  unfold delete_old. rewrite lookup_delete. repeat case_decide; naive_solver.
Qed.

(** A conversation token put in place of the session's previous one. *)
Lemma put_conversation s t r :
  store_inv s → tokens s !! t = None ∨ bySess s !! sessionKey r = Some t →
  hashed r = false → owned (agentID r) (sessionKey r) →
  store_inv (with_tokens s
    (<[t := r]> (delete_old (tokens s) (bySess s !! sessionKey r)))
    (<[sessionKey r := t]> (bySess s)) (bySvc s)).
Proof.
  intros Hs Ht Hh Ho. split; simpl.
  - intros k t'. rewrite lookup_insert. case_decide as Hk.
    + intros [= <-]. exists r. by rewrite lookup_insert_eq.
    + intros Hk'. destruct (i_sess _ Hs _ _ Hk') as (r' & Hr' & Hkr & Hhr). exists r'.
      rewrite lookup_insert_ne, delete_old_lookup, decide_False; [done| |].
      * intros Hold. destruct Hk. by apply (i_sess_inj s _ _ t').
      * intros ->. destruct Ht as [Ht|Ht]; [congruence|]. destruct Hk. by apply (i_sess_inj s _ _ t').
  - intros a t' Ha. destruct (i_svc _ Hs _ _ Ha) as (d & h & Hr). exists d, h.
    rewrite lookup_insert_ne, delete_old_lookup, decide_False; [done| |].
    + intros Hold. by apply (i_disj _ Hs _ a t' Hold).
    + intros ->. destruct Ht as [Ht|Ht]; [congruence|]. by apply (i_disj _ Hs _ a t' Ht).
  - intros t' r'. rewrite lookup_insert. case_decide as Hk.
    + intros [= <-]. left. by rewrite Hk, lookup_insert_eq.
    + rewrite delete_old_lookup. case_decide as Hold; [done|]. intros Hr.
      destruct (i_idx _ Hs _ _ Hr) as [Hi|Hi]; [left|by right].
      rewrite lookup_insert_ne; [done|]. intros He. by rewrite He in Hold.
  - intros k a t' Hk Ha. revert Hk. rewrite lookup_insert. case_decide.
    + intros [= <-]. destruct Ht as [Ht|Ht].
      * destruct (i_svc _ Hs _ _ Ha) as (? & ? & ?). congruence.
      * by apply (i_disj _ Hs _ a t Ht).
    + intros Hk. by apply (i_disj _ Hs _ a t' Hk).
  - intros t' r'. rewrite lookup_insert. case_decide; [by intros [= <-]|].
    rewrite delete_old_lookup. case_decide; [done|]. apply (i_owner _ Hs).
Qed.

(** A service token put in place of the agent's previous one. *)
Lemma put_service s t a d h :
  store_inv s → tokens s !! t = None ∨ bySvc s !! a = Some t →
  owned a (BuildAgentMainSessionKey a) →
  store_inv (with_tokens s
    (<[t := pinned_record a (BuildAgentMainSessionKey a) d h]>
       (delete_old (tokens s) (bySvc s !! a)))
    (bySess s) (<[a := t]> (bySvc s))).
Proof.
  intros Hs Ht Ho. split; simpl.
  - intros k t' Hk. destruct (i_sess _ Hs _ _ Hk) as (r & Hr & Hkr & Hhr). exists r.
    rewrite lookup_insert_ne, delete_old_lookup, decide_False; [done| |].
    + intros Hold. by apply (i_disj _ Hs _ a t' Hk).
    + intros ->. destruct Ht as [Ht|Ht]; [congruence|]. by apply (i_disj _ Hs _ a t' Hk).
  - intros a' t'. rewrite lookup_insert. case_decide as Ha.
    + intros [= <-]. exists d, h. by rewrite lookup_insert_eq, Ha.
    + intros Ha'. destruct (i_svc _ Hs _ _ Ha') as (d' & h' & Hr). exists d', h'.
      rewrite lookup_insert_ne, delete_old_lookup, decide_False; [done| |].
      * intros Hold. destruct Ha. by apply (i_svc_inj s _ _ t').
      * intros ->. destruct Ht as [Ht|Ht]; [congruence|]. destruct Ha. by apply (i_svc_inj s _ _ t').
  - intros t' r'. rewrite lookup_insert. case_decide as Hk.
    + intros [= <-]. right. simpl. by rewrite Hk, lookup_insert_eq.
    + rewrite delete_old_lookup. case_decide as Hold; [done|]. intros Hr.
      destruct (i_idx _ Hs _ _ Hr) as [Hi|Hi]; [by left|right].
      rewrite lookup_insert_ne; [done|]. intros He. by rewrite He in Hold.
  - intros k a' t' Hk. rewrite lookup_insert. case_decide.
    + intros [= <-]. destruct Ht as [Ht|Ht].
      * destruct (i_sess _ Hs _ _ Hk) as (? & ? & _). congruence.
      * by apply (i_disj _ Hs _ a t Hk).
    + by apply (i_disj _ Hs _ a' t' Hk).
  - intros t' r'. rewrite lookup_insert. case_decide; [by intros [= <-]|].
    rewrite delete_old_lookup. case_decide; [done|]. apply (i_owner _ Hs).
Qed.

Lemma new_store_inv : store_inv newSessionTokenStore.
Proof. split; simpl; intros *; by rewrite ?lookup_empty. Qed.

Lemma Issue_inv s gen a k d :
  store_inv s → (∀ tok, gen = Some tok → tokens s !! tok = None) → owned a k →
  store_inv (Issue s gen a k d).1.
Proof.
  intros Hs Hg Ho. unfold Issue. destruct gen as [tok|]; [|done].
  specialize (Hg tok eq_refl). destruct (bySess s !! k) as [old|] eqn:Hk; [case_if; [done|]|]; simpl.
  - pose proof (put_conversation s tok
      {| agentID := a; sessionKey := k; archiveDir := d;
         channel := channel (default zero_record (tokens s !! old));
         chatID := chatID (default zero_record (tokens s !! old)); homeID := home_of s a;
         depth := depth (default zero_record (tokens s !! old));
         askChain := askChain (default zero_record (tokens s !! old)); pinned := false;
         hashed := false |} Hs (or_introl Hg) eq_refl Ho) as Hp.
    simpl in Hp. by rewrite Hk in Hp.
  - pose proof (put_conversation s tok
      {| agentID := a; sessionKey := k; archiveDir := d; channel := ""; chatID := "";
         homeID := home_of s a; depth := 0; askChain := []; pinned := false; hashed := false |}
      Hs (or_introl Hg) eq_refl Ho) as Hp.
    simpl in Hp. by rewrite Hk in Hp.
Qed.

Lemma drop_services_inv s : store_inv s → store_inv (drop_services s).
Proof.
  intros Hs. destruct (drop_services_spec s) as (Hb & _ & Hv & Ht1 & Ht2).
  assert (Hkeep : ∀ t r, tokens (drop_services s) !! t = Some r →
    tokens s !! t = Some r ∧ ¬ is_service s t).
  { intros t r Hr. destruct (decide (t ∈ (go_range (bySvc s)).*2)) as [Hin|Hin].
    - apply list_elem_of_fmap in Hin as ([a t'] & -> & Hin%elem_of_go_range).
      rewrite Ht1 in Hr; [done|]. by exists a.
    - assert (Hns : ¬ is_service s t).
      { intros [a Ha]. apply Hin, list_elem_of_fmap. exists (a, t). split; [done|].
        by apply elem_of_go_range. }
      rewrite Ht2 in Hr by done. done. }
  split.
  - intros k t. rewrite Hb. intros Hk. destruct (i_sess _ Hs _ _ Hk) as (r & Hr & ? & ?).
    exists r. rewrite Ht2; [done|]. intros [a Ha]. by apply (i_disj _ Hs k a t).
  - intros a t. rewrite Hv. by rewrite lookup_empty.
  - intros t r [Hr Hns]%Hkeep. rewrite Hb. left.
    destruct (i_idx _ Hs _ _ Hr) as [?|?]; [done|]. destruct Hns. by exists (agentID r).
  - intros k a t _. rewrite Hv. by rewrite lookup_empty.
  - intros t r [Hr _]%Hkeep. by apply (i_owner _ Hs t).
Qed.

Lemma sync_fold_inv dirs s l :
  store_inv s → NoDup l.*1 → NoDup l.*2 →
  (∀ a t, (a, t) ∈ l → tokens s !! t = None ∧ bySvc s !! a = None ∧
     owned a (BuildAgentMainSessionKey a)) →
  store_inv (fold_left (sync_one dirs) l s).
Proof.
  revert s. induction l as [|[a0 t0] l IH]; intros s Hs Hn1 Hn2 Hl; simpl; [done|].
  simpl in Hn1, Hn2. apply NoDup_cons in Hn1 as [Hna Hn1], Hn2 as [Hnt Hn2].
  destruct (Hl a0 t0 ltac:(left)) as (Ht0 & Ha0 & Ho0). case_if.
  { apply IH; auto. intros a t Hin. apply Hl. by right. }
  pose proof (put_service s t0 a0 (dirs a0) (IsHashed t0) Hs (or_introl Ht0) Ho0) as Hp.
  rewrite Ha0 in Hp. simpl in Hp. apply IH; auto. simpl. intros a t Hin.
  destruct (Hl a t ltac:(by right)) as (Ht & Ha & Ho).
  rewrite !lookup_insert_ne; [done| |].
  - intros <-. apply Hna, list_elem_of_fmap. by exists (a0, t).
  - intros <-. apply Hnt, list_elem_of_fmap. by exists (a, t0).
Qed.

(** The values of an injective map, in any order. *)
Lemma go_range_values_NoDup (m : gmap string string) :
  (∀ a a' t, m !! a = Some t → m !! a' = Some t → a = a') → NoDup (go_range m).*2.
Proof.
  intros Hinj. apply NoDup_fmap_2_strong.
  - intros [a t] [a' t'] Hin%elem_of_go_range Hin'%elem_of_go_range. simpl. intros <-.
    by rewrite (Hinj a a' t).
  - apply (NoDup_fmap_1 fst), go_range_NoDup.
Qed.

Lemma SyncServiceTokens_inv s m dirs :
  store_inv s →
  (∀ a a' t, m !! a = Some t → m !! a' = Some t → a = a') →
  (∀ a t k, m !! a = Some t → bySess s !! k ≠ Some t) →
  (∀ a t, m !! a = Some t → owned a (BuildAgentMainSessionKey a)) →
  store_inv (SyncServiceTokens s m dirs).
Proof.
  intros Hs Hinj Hconv Ho. apply sync_fold_inv.
  - by apply drop_services_inv.
  - apply go_range_NoDup.
  - by apply go_range_values_NoDup.
  - intros a t Hin%elem_of_go_range. destruct (drop_services_spec s) as (Hb & _ & Hv & _ & _).
    split_and!; [|by rewrite Hv, lookup_empty|by eapply Ho].
    apply eq_None_not_Some. intros [r Hr].
    destruct (i_idx _ (drop_services_inv s Hs) _ _ Hr) as [Hi|Hi].
    + rewrite Hb in Hi. by apply (Hconv a t (sessionKey r)).
    + by rewrite Hv, lookup_empty in Hi.
Qed.

(** An update of the fields a turn sets. *)
Definition turn_update (f : sessionRecord → sessionRecord) : Prop :=
  ∀ r, agentID (f r) = agentID r ∧ sessionKey (f r) = sessionKey r ∧ hashed (f r) = hashed r.

Lemma updateRecord_inv s k f : store_inv s → turn_update f → store_inv (updateRecord s k f).
Proof.
  intros Hs Hf. unfold updateRecord. case_bool_decide; [done|].
  destruct (bySess s !! k) as [t|] eqn:Hk; [|done].
  destruct (tokens s !! t) as [r|] eqn:Ht; [|done]. destruct (Hf r) as (Hfa & Hfk & Hfh).
  split; simpl.
  - intros k' t' Hk'. destruct (i_sess _ Hs _ _ Hk') as (r' & Hr' & ? & ?).
    destruct (decide (t = t')) as [<-|Hne].
    + assert (r' = r) as -> by congruence. exists (f r). by rewrite lookup_insert_eq, Hfk, Hfh.
    + exists r'. by rewrite lookup_insert_ne.
  - intros a t' Ha. destruct (i_svc _ Hs _ _ Ha) as (d & h & Hr). exists d, h.
    rewrite lookup_insert_ne; [done|]. intros <-. by apply (i_disj _ Hs k a t).
  - intros t' r'. rewrite lookup_insert. case_decide as He; [|by apply (i_idx _ Hs)].
    intros [= <-]. rewrite Hfk, Hfa. subst t'. by apply (i_idx _ Hs).
  - apply (i_disj _ Hs).
  - intros t' r'. rewrite lookup_insert. case_decide as He; [|by apply (i_owner _ Hs)].
    intros [= <-]. rewrite Hfk, Hfa. by apply (i_owner _ Hs t).
Qed.

Lemma Revoke_inv s k : store_inv s → store_inv (Revoke s k).
Proof.
  intros Hs. unfold Revoke. destruct (bySess s !! k) as [t|] eqn:Hk; [|done]. split; simpl.
  - intros k' t' [Hne Hk']%lookup_delete_Some.
    destruct (i_sess _ Hs _ _ Hk') as (r & Hr & ? & ?). exists r.
    rewrite lookup_delete_ne; [done|]. intros <-. destruct Hne. by apply (i_sess_inj s _ _ t).
  - intros a t' Ha. destruct (i_svc _ Hs _ _ Ha) as (d & h & Hr). exists d, h.
    rewrite lookup_delete_ne; [done|]. intros <-. by apply (i_disj _ Hs k a t).
  - intros t' r [Hne Hr]%lookup_delete_Some.
    destruct (i_idx _ Hs _ _ Hr) as [Hi|Hi]; [left|by right].
    rewrite lookup_delete_ne; [done|]. intros ->. congruence.
  - intros k' a t' [_ Hk']%lookup_delete_Some. by apply (i_disj _ Hs k' a t').
  - intros t' r [_ Hr]%lookup_delete_Some. by apply (i_owner _ Hs t').
Qed.

Lemma RevokeAgent_inv s a : store_inv s → store_inv (RevokeAgent s a).
Proof.
  intros Hs. destruct (RevokeAgent_spec s a) as (Hv & Ht & Hk).
  set (r := RevokeAgent s a) in *. clearbody r. split.
  - intros k t [Hk' Hno]%Hk. destruct (i_sess _ Hs _ _ Hk') as (rec & Hr & Hkr & ?). exists rec.
    split; [|done]. apply Ht. split; [done|]. intros Ha. by apply (Hno t rec).
  - intros a' t. rewrite Hv. intros [Hne Ha]%lookup_delete_Some.
    destruct (i_svc _ Hs _ _ Ha) as (d & h & Hr). exists d, h. apply Ht. by split.
  - intros t rec [Hr Hne]%Ht. destruct (i_idx _ Hs _ _ Hr) as [Hi|Hi].
    + left. apply Hk. split; [done|]. intros t' rec' Hr' Ha Hkey.
      pose proof (i_owner _ Hs _ _ Hr) as Ho. pose proof (i_owner _ Hs _ _ Hr') as Ho'.
      unfold owned in *. congruence.
    + right. rewrite Hv. by apply lookup_delete_Some.
  - intros k a' t [Hk' _]%Hk. rewrite Hv. intros [_ Ha']%lookup_delete_Some.
    by apply (i_disj _ Hs k a' t).
  - intros t rec [Hr _]%Ht. by apply (i_owner _ Hs t).
Qed.

Lemma store_step_inv s s' : store_step s s' → store_inv s → store_inv s'.
Proof.
  intros [] Hs.
  - by apply Issue_inv.
  - by apply (put_conversation s0 tok (pinned_record a k d false)).
  - by apply put_service.
  - by apply SyncServiceTokens_inv.
  - apply updateRecord_inv; [done|]. by intros r.
  - apply updateRecord_inv; [done|]. by intros r.
  - apply updateRecord_inv; [done|]. by intros r.
  - by destruct Hs.
  - by apply Revoke_inv.
  - by apply RevokeAgent_inv.
Qed.

Lemma store_reachable_inv s : store_reachable s → store_inv s.
Proof.
  assert (Hrtc : ∀ s1 s2, rtc store_step s1 s2 → store_inv s1 → store_inv s2)
    by (induction 1; eauto using store_step_inv).
  intros Hr. by apply (Hrtc newSessionTokenStore), new_store_inv.
Qed.

(** ** Properties *)

Section resolve.
Context `{Sha256}.

Lemma Resolve_cases s t r :
  Resolve s t = Some r ↔
  (tokens s !! t = Some r ∧ hashed r = false) ∨
  ((∀ r', tokens s !! t = Some r' → hashed r' = true) ∧
   tokens s !! Hash t = Some r ∧ hashed r = true).
Proof.
  assert (Hsecond : ∀ o : option sessionRecord,
    match o with Some rec => if hashed rec then Some rec else None | None => None end = Some r ↔
    o = Some r ∧ hashed r = true).
  { intros [r2|]; [|by split; [|intros []]].
    destruct (hashed r2) eqn:Hh2; (split; [by intros [= <-]|]); intros [[= <-] ?]; congruence. }
  unfold Resolve. destruct (tokens s !! t) as [r1|] eqn:H1.
  - destruct (hashed r1) eqn:Hh; simpl; [rewrite Hsecond|]; (split; [intros Hr|intros [[Hr ?]|(Hno & Hr & ?)]]).
    + right. split_and!; [|apply Hr..]. by intros r' [= <-].
    + congruence.
    + done.
    + left. split; congruence.
    + done.
    + specialize (Hno r1 eq_refl). congruence.
  - rewrite Hsecond. split; [intros Hr; right; split_and!; [done|apply Hr..]|].
    intros [[? _]|(_ & ?)]; done.
Qed.

Lemma Hash_IsHashed p : IsHashed (Hash p) = true.
Proof. unfold IsHashed, Hash, Prefix. simpl. by destruct (EncodeToString _). Qed.

(** [Resolve] reads the store at the token and at its hash. *)
Lemma Resolve_same s s' t :
  tokens s' !! t = tokens s !! t → tokens s' !! Hash t = tokens s !! Hash t →
  Resolve s' t = Resolve s t.
Proof. unfold Resolve. by intros -> ->. Qed.

(** In every store the program can reach the two indexes and the records
    agree: a session's conversation token resolves to that session and its
    agent, an agent's service token has a pinned record of the agent's one
    conversation at depth 0 with no ask chain, every token that authenticates
    anything is the conversation token of its session or the service token of
    its agent, and no token is both. *)
Theorem reachable_store_consistent s (Hs : store_reachable s) :
  (∀ k t, bySess s !! k = Some t → ∃ r, Resolve s t = Some r ∧ sessionKey r = k ∧
     agentID r = agent_of k) ∧
  (∀ a t, bySvc s !! a = Some t → ∃ d h,
     tokens s !! t = Some (pinned_record a (BuildAgentMainSessionKey a) d h)) ∧
  (∀ t r, Resolve s t = Some r → ∃ t', (t' = t ∨ t' = Hash t) ∧
     (bySess s !! sessionKey r = Some t' ∨ bySvc s !! agentID r = Some t')) ∧
  (∀ k a t, bySess s !! k = Some t → bySvc s !! a ≠ Some t).
Proof.
  apply store_reachable_inv in Hs. split_and!.
  - intros k t Hk. destruct (i_sess _ Hs _ _ Hk) as (r & Hr & Hkr & Hh). exists r. split_and!.
    + apply Resolve_cases. by left.
    + done.
    + pose proof (i_owner _ Hs _ _ Hr) as Ho. unfold owned in Ho. congruence.
  - apply (i_svc _ Hs).
  - intros t r [[Hr _]|(_ & Hr & _)]%Resolve_cases.
    + exists t. split; [by left|]. by apply (i_idx _ Hs).
    + exists (Hash t). split; [by right|]. by apply (i_idx _ Hs).
  - apply (i_disj _ Hs).
Qed.

(** Rotation. When a session that has an unpinned token is issued a new one,
    the new token resolves to the session with the source, depth and ask chain
    the old one had, the old one resolves to nothing, and every other token
    resolves as before. Fresh tokens are not in the store, and no stored hash is
    that of the old one. *)
Theorem Issue_rotates s a k d tok old o
  (Hold : bySess s !! k = Some old) (Ho : tokens s !! old = Some o) (Hpin : pinned o = false)
  (Hn : tokens s !! tok = None) (Hoh : tokens s !! Hash old = None) (Hs1 : tok ≠ Hash old) :
  let '(s', t) := Issue s (Some tok) a k d in
  t = tok ∧
  (∃ r, Resolve s' tok = Some r ∧ agentID r = a ∧ sessionKey r = k ∧ pinned r = false ∧
     (channel r, chatID r, depth r, askChain r) = (channel o, chatID o, depth o, askChain o)) ∧
  Resolve s' old = None ∧ bySess s' !! k = Some tok ∧
  (∀ t', t' ≠ tok → t' ≠ old → Hash t' ≠ tok → Hash t' ≠ old → Resolve s' t' = Resolve s t').
Proof.
  unfold Issue. rewrite Hold, Ho. simpl. rewrite Hpin.
  assert (Hne : tok ≠ old) by congruence. split_and!.
  - done.
  - eexists. split.
    { apply Resolve_cases. left. simpl. rewrite lookup_insert_eq. by split. }
    by split_and!.
  - apply eq_None_not_Some. intros [r Hr]. apply Resolve_cases in Hr. simpl in Hr.
    rewrite !lookup_insert_ne, lookup_delete_eq in Hr by done.
    destruct Hr as [[? _]|(_ & Hr & _)]; [done|]. apply lookup_delete_Some in Hr as [_ Hr]. congruence.
  - simpl. by rewrite lookup_insert_eq.
  - intros t' H1 H2 H3 H4. apply Resolve_same; simpl;
      rewrite lookup_insert_ne, lookup_delete_ne by done; done.
Qed.


(** Synchronisation. After the stored service tokens, all hashes, are synced,
    presenting a plaintext whose hash is stored for an agent with a directory
    authenticates as that agent's one conversation; an agent that is no longer
    listed has no service token; presenting a stored hash itself authenticates
    nothing; and conversation tokens are untouched. *)
Theorem SyncServiceTokens_spec s (m : gmap string string) (dirs : string → string)
  (Hs : store_reachable s)
  (Hinj : ∀ a a' t, m !! a = Some t → m !! a' = Some t → a = a')
  (Hhash : ∀ a t, m !! a = Some t → IsHashed t = true)
  (Hconv : ∀ k t, bySess s !! k = Some t → IsHashed t = false) :
  let s' := SyncServiceTokens s m dirs in
  (∀ a p, m !! a = Some (Hash p) → dirs a ≠ "" → IsHashed p = false →
     (∀ k, bySess s !! k ≠ Some p) →
     Resolve s' p = Some (service_record dirs a (Hash p))) ∧
  (∀ a, m !! a = None → bySvc s' !! a = None) ∧
  (∀ a t, m !! a = Some t → (∀ a', m !! a' ≠ Some (Hash t)) → Resolve s' t = None) ∧
  (∀ k t, bySess s !! k = Some t → bySess s' !! k = Some t ∧ tokens s' !! t = tokens s !! t).
Proof.
  apply store_reachable_inv in Hs. cbv zeta. unfold SyncServiceTokens.
  destruct (drop_services_spec s) as (Hb & _ & Hv & Hd1 & Hd2).
  destruct (sync_fold dirs (drop_services s) (go_range m) (go_range_NoDup m)
    (go_range_values_NoDup m Hinj)) as (Hsb & _ & Hin & Hout & Hvout).
  set (s' := fold_left _ _ _) in *. clearbody s'.
  setoid_rewrite elem_of_go_range in Hin. setoid_rewrite elem_of_go_range in Hout.
  setoid_rewrite elem_of_go_range in Hvout.
  (* a token of [s'] that is not in [m] is a conversation token of [s] *)
  assert (Hrest : ∀ t r, (∀ a, m !! a ≠ Some t) → tokens s' !! t = Some r →
    ∃ k, bySess s !! k = Some t).
  { intros t r Hm. rewrite Hout by (intros a Ha; by destruct (Hm a)). intros Hr.
    destruct (decide (t ∈ (go_range (bySvc s)).*2)) as [Hi|Hi].
    - apply list_elem_of_fmap in Hi as ([a t'] & -> & Hi%elem_of_go_range).
      rewrite Hd1 in Hr; [done|]. by exists a.
    - pose proof (drop_services_inv s Hs) as Hds. destruct (i_idx _ Hds _ _ Hr) as [Hk|Hk].
      + exists (sessionKey r). by rewrite <- Hb.
      + by rewrite Hv, lookup_empty in Hk. }
  split_and!.
  - intros a p Ha Hd Hp Hnc. destruct (Hin a (Hash p) Ha Hd) as [Hr _]. apply Resolve_cases. right.
    split_and!; [|done|by apply (Hhash a)]. intros r Hr'. exfalso.
    destruct (Hrest p r) as [k Hk]; [|done|by destruct (Hnc k)].
    intros a' Ha'. apply Hhash in Ha'. congruence.
  - intros a Ha. rewrite Hvout by (intros t ?; congruence). by rewrite Hv, lookup_empty.
  - intros a t Ha Hnd. apply eq_None_not_Some. intros [r Hr].
    apply Resolve_cases in Hr as [[Hr Hh]|(_ & Hr & Hh)].
    + destruct (decide (dirs a = "")) as [Hd|Hd].
      * assert (Hno : ∃ k, bySess s !! k = Some t).
        { revert Hr. rewrite Hout by (intros a' Ha'; by rewrite (Hinj a' a t)). intros Hr.
          pose proof (drop_services_inv s Hs) as Hds. destruct (i_idx _ Hds _ _ Hr) as [Hk|Hk].
          - exists (sessionKey r). by rewrite <- Hb.
          - by rewrite Hv, lookup_empty in Hk. }
        destruct Hno as [k Hk]. apply Hconv in Hk. apply Hhash in Ha. congruence.
      * destruct (Hin a t Ha Hd) as [Hr' _]. rewrite Hr in Hr'. injection Hr' as ->.
        simpl in Hh. apply Hhash in Ha. congruence.
    + destruct (Hrest (Hash t) r Hnd Hr) as [k Hk]. apply Hconv in Hk.
      by rewrite Hash_IsHashed in Hk.
  - intros k t Hk. rewrite Hsb, Hb. split; [done|].
    assert (Hm : ∀ a, m !! a ≠ Some t).
    { intros a Ha. apply Hhash in Ha. apply Hconv in Hk. congruence. }
    rewrite Hout by (intros a Ha; by destruct (Hm a)). apply Hd2. intros [a Ha].
    by apply (i_disj _ Hs k a t).
Qed.
End resolve.
End store.

(** ** The issuer interface

    What the agent loop asks of the store: a token for a session, and that a
    session's token stops authenticating. [ti_token] is the conversation token
    a session has, [ti_accepts] tells that a presented token authenticates the
    session. *)
Class TokenIssuer (S : Type) := {
  ti_issue : S → option string → string → string → string → S * string;
  ti_revoke : S → string → S;
  ti_token : S → string → option string;
  ti_accepts : S → string → string → Prop;
  ti_fresh : S → option string → Prop;
  ti_owned : string → string → Prop;
  ti_ok : S → Prop
}.

Class TokenIssuerLaws (S : Type) `{TokenIssuer S} := {
  ti_issue_ok : ∀ s gen a k d,
    ti_ok s → ti_fresh s gen → ti_owned a k → ti_ok (ti_issue s gen a k d).1;
  ti_issue_token : ∀ s gen a k d,
    (ti_issue s gen a k d).2 ≠ "" →
    ti_token (ti_issue s gen a k d).1 k = Some (ti_issue s gen a k d).2;
  ti_revoke_ok : ∀ s k, ti_ok s → ti_ok (ti_revoke s k);
  ti_revoke_token : ∀ s k, ti_token (ti_revoke s k) k = None;
  ti_token_accepts : ∀ s k t, ti_ok s → ti_token s k = Some t → ti_accepts s t k
}.

Section issuer.
Context `{GoRange} `{Sha256}.
Variable agent_of : string → string.

Definition store_issuer : TokenIssuer SessionTokenStore := {|
  ti_issue := Issue;
  ti_revoke := Revoke;
  ti_token := λ s k, bySess s !! k;
  ti_accepts := λ s t k, ∃ r, Resolve s t = Some r ∧ sessionKey r = k;
  ti_fresh := λ s gen, ∀ tok, gen = Some tok → tokens s !! tok = None;
  ti_owned := owned agent_of;
  ti_ok := store_inv agent_of
|}.

#[local] Existing Instance store_issuer.

Lemma store_issuer_laws : TokenIssuerLaws SessionTokenStore.
Proof.
  split; simpl.
  - intros. by apply Issue_inv.
  - intros s gen a k d. unfold Issue. destruct gen as [tok|]; [|done].
    destruct (bySess s !! k) as [old|] eqn:Hk; [case_if|]; simpl; [done|..];
      by rewrite lookup_insert_eq.
  - intros. by apply Revoke_inv.
  - intros s k. unfold Revoke. destruct (bySess s !! k) eqn:Hk; [|done]. simpl.
    by rewrite lookup_delete_eq.
  - intros s k t Hs Hk. destruct (i_sess _ _ Hs _ _ Hk) as (r & Hr & Hkr & Hh). exists r.
    split; [|done]. apply Resolve_cases. by left.
Qed.
End issuer.

(** ** Witnesses *)

#[local] Instance ex_sha : Sha256 := {| Sum256 := λ l, l |}.

Definition ex_agent_of (k : string) : string :=
  if bool_decide (k = "agent:bob:main") then "bob" else "main".

(** A store with a conversation token for bob and service tokens for both
    agents. *)
Definition ex_store : SessionTokenStore :=
  SyncServiceTokens
    (SetDepth (Issue newSessionTokenStore (Some "SST1") "bob" "agent:bob:main" "/d").1
      "agent:bob:main" 2)
    {["bob" := Hash "SSTx"; "main" := Hash "SSTy"]} (λ _, "/d").

Lemma ex_sync_calls s :
  bySess s = {["agent:bob:main" := "SST1"]} →
  store_step ex_agent_of s
    (SyncServiceTokens s {["bob" := Hash "SSTx"; "main" := Hash "SSTy"]} (λ _, "/d")).
Proof.
  intros Hs. apply step_sync.
  - intros a a' t. rewrite !lookup_insert_Some, !lookup_singleton_Some.
    intros [[<- <-]|(_ & <- & <-)] [[<- Ht]|(_ & <- & Ht)]; done.
  - intros a t k. rewrite Hs, lookup_insert_Some, !lookup_singleton_Some.
    intros [[<- <-]|(_ & <- & <-)] [_ [=]].
  - intros a t. rewrite lookup_insert_Some, lookup_singleton_Some.
    intros [[<- _]|(_ & <- & _)]; reflexivity.
Qed.

Lemma ex_store_reachable : store_reachable ex_agent_of ex_store.
Proof.
  apply (rtc_l _ _ (Issue newSessionTokenStore (Some "SST1") "bob" "agent:bob:main" "/d").1).
  { apply step_issue; [|reflexivity]. intros tok _. reflexivity. }
  eapply rtc_l; [apply (step_depth _ _ "agent:bob:main" 2)|].
  eapply rtc_l; [by apply ex_sync_calls|]. apply rtc_refl.
Qed.

Lemma reachable_store_consistent_witness :
  (∀ k t, bySess ex_store !! k = Some t → ∃ r, Resolve ex_store t = Some r ∧ sessionKey r = k ∧
     agentID r = ex_agent_of k) ∧
  (∀ a t, bySvc ex_store !! a = Some t → ∃ d h,
     tokens ex_store !! t = Some (pinned_record a (BuildAgentMainSessionKey a) d h)) ∧
  (∀ t r, Resolve ex_store t = Some r → ∃ t', (t' = t ∨ t' = Hash t) ∧
     (bySess ex_store !! sessionKey r = Some t' ∨ bySvc ex_store !! agentID r = Some t')) ∧
  (∀ k a t, bySess ex_store !! k = Some t → bySvc ex_store !! a ≠ Some t).
Proof. apply (reachable_store_consistent ex_agent_of). apply ex_store_reachable. Defined.

Definition ex_record : sessionRecord := {|
  agentID := "bob"; sessionKey := "agent:bob:main"; archiveDir := "/d"; channel := "";
  chatID := ""; homeID := ""; depth := 2; askChain := []; pinned := false; hashed := false
|}.

Lemma Issue_rotates_witness :
  let '(s', t) := Issue ex_store (Some "SST2") "bob" "agent:bob:main" "/d" in
  t = "SST2" ∧
  (∃ r, Resolve s' "SST2" = Some r ∧ agentID r = "bob" ∧ sessionKey r = "agent:bob:main" ∧
     pinned r = false ∧ (channel r, chatID r, depth r, askChain r) =
       (channel ex_record, chatID ex_record, depth ex_record, askChain ex_record)) ∧
  Resolve s' "SST1" = None ∧ bySess s' !! "agent:bob:main" = Some "SST2" ∧
  (∀ t', t' ≠ "SST2" → t' ≠ "SST1" → Hash t' ≠ "SST2" → Hash t' ≠ "SST1" →
     Resolve s' t' = Resolve ex_store t').
Proof.
  apply (Issue_rotates ex_store "bob" "agent:bob:main" "/d" "SST2" "SST1" ex_record);
    try discriminate; vm_compute; reflexivity.
Defined.


Lemma SyncServiceTokens_spec_witness :
  let s' := SyncServiceTokens ex_store {["bob" := Hash "SSTz"]} (λ _, "/d") in
  (∀ a p, ({["bob" := Hash "SSTz"]} : gmap string string) !! a = Some (Hash p) → "/d" ≠ "" →
     IsHashed p = false → (∀ k, bySess ex_store !! k ≠ Some p) →
     Resolve s' p = Some (service_record (λ _, "/d") a (Hash p))) ∧
  (∀ a, ({["bob" := Hash "SSTz"]} : gmap string string) !! a = None → bySvc s' !! a = None) ∧
  (∀ a t, ({["bob" := Hash "SSTz"]} : gmap string string) !! a = Some t →
     (∀ a', ({["bob" := Hash "SSTz"]} : gmap string string) !! a' ≠ Some (Hash t)) →
     Resolve s' t = None) ∧
  (∀ k t, bySess ex_store !! k = Some t →
     bySess s' !! k = Some t ∧ tokens s' !! t = tokens ex_store !! t).
Proof.
  apply (SyncServiceTokens_spec ex_agent_of).
  - apply ex_store_reachable.
  - intros a a' t. rewrite !lookup_singleton_Some. by intros [<- _] [<- _].
  - intros a t. rewrite lookup_singleton_Some. intros [_ <-]. reflexivity.
  - intros k t. assert (bySess ex_store = {["agent:bob:main" := "SST1"]}) as -> by (by vm_compute).
    rewrite lookup_singleton_Some. intros [_ <-]. reflexivity.
Defined.
