(* ===== verification/Eviction.v ===== *)
(** * Session contexts and their eviction (agent/context_manager.go, agent/eviction.go)

    Callers share one cached context manager per agent and session, hold it by
    reference count, and read the cache without a lock; evictors (the idle
    sweep, a config reload, a forced drop, the end of a single-shot turn) close
    managers and revoke their tokens concurrently. The file models every atomic
    operation of these procedures on one cache key as a step of a thread, and
    shows for every interleaving that an entry somebody holds is cached, open
    and its token accepted, that no entry is left open once it is out of the
    cache, and that the build slot is always released.

    The token store is any implementation of [TokenIssuer]. Calls for other
    keys act on it between the steps. *)

From stdpp Require Import base gmap strings list fin_maps relations.
From Stdlib Require Import ZArith Lia.
From S2P Require Import Prelude GoString SessionTokens.

Open Scope string_scope.
Open Scope list_scope.
Open Scope Z_scope.

(** ** State *)

(** [cmEntry]; [closed] tells that its manager and memory session are closed. *)
Record cmEntry := {
  stale : bool;
  refcount : Z;
  token : string;
  lastAccessed : Z;
  closed : bool
}.

Definition set_stale (en : cmEntry) : cmEntry :=
  {| stale := true; refcount := refcount en; token := token en;
     lastAccessed := lastAccessed en; closed := closed en |}.

Definition add_ref (d : Z) (en : cmEntry) : cmEntry :=
  {| stale := stale en; refcount := refcount en + d; token := token en;
     lastAccessed := lastAccessed en; closed := closed en |}.

Definition touch (now : Z) (en : cmEntry) : cmEntry :=
  {| stale := stale en; refcount := refcount en; token := token en;
     lastAccessed := now; closed := closed en |}.

Definition idle (now : Z) (en : cmEntry) : Z := GoTime.sub now (lastAccessed en).

Definition set_closed (en : cmEntry) : cmEntry :=
  {| stale := stale en; refcount := refcount en; token := token en;
     lastAccessed := lastAccessed en; closed := true |}.

Definition newEntry (tok : string) (now : Z) : cmEntry :=
  {| stale := false; refcount := 1; token := tok; lastAccessed := now; closed := false |}.

(** What the threads share for one key: the cache slot of [contextManagers], the
    entries by address, the build slot of [sessionBuilds] with its owner and the
    done channel it holds, and the token store. *)
Record shared (S : Type) := {
  cached : option nat;
  heap : gmap nat cmEntry;
  slot : option (nat * nat);
  next_chan : nat;
  issuer : S
}.

Arguments cached {S}. Arguments heap {S}. Arguments slot {S}. Arguments next_chan {S}.
Arguments issuer {S}.

(** Where [evictEntry] returns to. *)
Inductive evict_return := ToBuild | ToRelease.

(** Program points. [G]: getSessionContext; [B]: buildSessionEntry and
    takeCachedEntry; [E]: evictEntry; [S]: runEvictionPass; [I]:
    invalidateContextManagers; [X]: dropContextManager; [T]: tryEvictEntry;
    [D]: discardConversation. The argument is the entry's address. *)
Inductive pc :=
| Idle
| GLoad | GStale (e : nat) | GRef (e : nat) | GCheck (e : nat) | GTouch (e : nat) | GBack (e : nat)
| GSlot | GWait (ch : nat)
| BLoad | BStale (e : nat) | BRefcount (e : nat) | BShare (e : nat) | BTouch (e : nat)
| BIssue | BStore (tok : string) | BDone (e : nat)
| Holding (e : nat)
| EDelete (k : evict_return) (e : nat) | ERevoke (k : evict_return) (e : nat)
| EClose (k : evict_return) (e : nat)
| SRef (e : nat) | SIdle (e : nat)
| IMark (e : nat) | IRef (e : nat)
| XRef (e : nat)
| TTry (e : nat) | TCached (e : nat) | TMark (e : nat) | TRef (e : nat)
| DTry | DLoad | DMark (e : nat) | DRef (e : nat)
| Release.

#[export] Instance evict_return_eq_dec : EqDecision evict_return.
Proof. solve_decision. Defined.

#[export] Instance pc_eq_dec : EqDecision pc.
Proof. solve_decision. Defined.

(** What a caller asks of an idle thread. *)
Inductive operation := GetContext | Sweep | Invalidate | Drop | Discard.

(** What a step reads from outside: the operation started, the clock, and the
    generated token. *)
Record input := {
  in_op : operation;
  in_now : Z;
  in_gen : option string
}.

(** ** One step of a thread *)

Section machine.
Context {St : Type} `{TokenIssuer St}.
(** The agent, its session key and its archive directory; whether tokens are
    issued for it; and the idle time of the sweep. *)
Variables (agent sessionKey archiveDir : string) (issues : bool) (ttl : Z).

Implicit Types g : shared St.

Definition entry_at g (e : nat) : cmEntry :=
  default {| stale := true; refcount := 0; token := ""; lastAccessed := 0; closed := true |}
    (heap g !! e).

Definition set_entry g (e : nat) (en : cmEntry) : shared St :=
  {| cached := cached g; heap := <[e := en]> (heap g); slot := slot g; next_chan := next_chan g;
     issuer := issuer g |}.

Definition upd g (e : nat) (f : cmEntry → cmEntry) : shared St := set_entry g e (f (entry_at g e)).

Definition set_cached g (c : option nat) : shared St :=
  {| cached := c; heap := heap g; slot := slot g; next_chan := next_chan g; issuer := issuer g |}.

Definition set_issuer g (s : St) : shared St :=
  {| cached := cached g; heap := heap g; slot := slot g; next_chan := next_chan g; issuer := s |}.

(** [sessionBuilds.LoadOrStore]: take the slot with a new channel, or learn
    whose channel it holds. *)
Definition take_slot g (t : nat) : shared St :=
  {| cached := cached g; heap := heap g; slot := Some (t, next_chan g);
     next_chan := S (next_chan g); issuer := issuer g |}.

Definition free_slot g : shared St :=
  {| cached := cached g; heap := heap g; slot := None; next_chan := next_chan g;
     issuer := issuer g |}.

(** A fresh address. *)
Definition alloc g : nat := fresh (dom (heap g) : gset nat).

(** Each procedure is a function on its program points; [None] is a thread that
    waits, or a point of another procedure. *)

(** The operation an idle thread starts, with the entry its first load of the
    cache gives. *)
Definition start (i : input) g (p : pc) : option (shared St * pc) :=
  match p with
  | Idle =>
    match in_op i, cached g with
    | GetContext, _ => Some (g, GLoad)
    | Sweep, Some e => Some (g, SRef e)
    | Invalidate, Some e => Some (g, IMark e)
    | Drop, Some e => Some (g, XRef e)
    | Discard, _ => Some (g, DTry)
    | _, None => None
    end
  | _ => None
  end.

Definition getSessionContext (i : input) (t : nat) g (p : pc) : option (shared St * pc) :=
  match p with
  | GLoad => Some (g, match cached g with Some e => GStale e | None => GSlot end)
  | GStale e => Some (g, if stale (entry_at g e) then GSlot else GRef e)
  | GRef e => Some (upd g e (add_ref 1), GCheck e)
  | GCheck e => Some (g, if stale (entry_at g e) then GBack e else GTouch e)
  | GTouch e => Some (upd g e (touch (in_now i)), Holding e)
  | GBack e => Some (upd g e (add_ref (-1)), GSlot)
  | GSlot =>
    match slot g with
    | None => Some (take_slot g t, BLoad)
    | Some (_, ch) => Some (g, GWait ch)
    end
  | GWait ch =>
    match slot g with
    | Some (_, ch') => if Nat.eqb ch' ch then None else Some (g, GLoad)
    | None => Some (g, GLoad)
    end
  (* the release function *)
  | Holding e => Some (upd g e (add_ref (-1)), Idle)
  | _ => None
  end.

Definition takeCachedEntry (i : input) g (p : pc) : option (shared St * pc) :=
  match p with
  | BLoad => Some (g, match cached g with Some e => BStale e | None => BIssue end)
  | BStale e => Some (g, if stale (entry_at g e) then BRefcount e else BShare e)
  | BRefcount e => Some (g, if refcount (entry_at g e) =? 0 then EDelete ToBuild e else BShare e)
  | BShare e => Some (upd g e (add_ref 1), BTouch e)
  | BTouch e => Some (upd g e (touch (in_now i)), BDone e)
  | _ => None
  end.

(** After [takeCachedEntry] found nothing to share. *)
Definition buildSessionEntry (i : input) g (p : pc) : option (shared St * pc) :=
  match p with
  | BIssue =>
    if issues then
      let '(s, tok) := ti_issue (issuer g) (in_gen i) agent sessionKey archiveDir in
      Some (set_issuer g s, BStore tok)
    else Some (g, BStore "")
  | BStore tok =>
    let e := alloc g in
    Some (set_cached (set_entry g e (newEntry tok (in_now i))) (Some e), BDone e)
  | BDone e => Some (free_slot g, Holding e)
  | _ => None
  end.

Definition evictEntry g (p : pc) : option (shared St * pc) :=
  match p with
  | EDelete k e => Some (set_cached g None, ERevoke k e)
  | ERevoke k e =>
    Some (if bool_decide (sessionKey = "") then g
          else set_issuer g (ti_revoke (issuer g) sessionKey), EClose k e)
  | EClose k e =>
    Some (upd g e set_closed, match k with ToBuild => BIssue | ToRelease => Release end)
  | _ => None
  end.

Definition runEvictionPass (i : input) g (p : pc) : option (shared St * pc) :=
  match p with
  | SRef e => Some (g, if 0 <? refcount (entry_at g e) then Idle else SIdle e)
  | SIdle e => Some (g, if idle (in_now i) (entry_at g e) <? ttl then Idle else TTry e)
  | _ => None
  end.

Definition invalidateContextManagers g (p : pc) : option (shared St * pc) :=
  match p with
  | IMark e => Some (upd g e set_stale, IRef e)
  | IRef e => Some (g, if refcount (entry_at g e) =? 0 then TTry e else Idle)
  | _ => None
  end.

Definition dropContextManager g (p : pc) : option (shared St * pc) :=
  match p with
  | XRef e => Some (g, if 0 <? refcount (entry_at g e) then Idle else TTry e)
  | _ => None
  end.

Definition tryEvictEntry (t : nat) g (p : pc) : option (shared St * pc) :=
  match p with
  | TTry e =>
    match slot g with
    | None => Some (take_slot g t, TCached e)
    | Some _ => Some (g, Idle)
    end
  | TCached e => Some (g, if bool_decide (cached g = Some e) then TMark e else Release)
  | TMark e => Some (upd g e set_stale, TRef e)
  | TRef e => Some (g, if 0 <? refcount (entry_at g e) then Release else EDelete ToRelease e)
  | Release => Some (free_slot g, Idle)
  | _ => None
  end.

(** What it deletes on disk after the eviction is outside the model. *)
Definition discardConversation (t : nat) g (p : pc) : option (shared St * pc) :=
  match p with
  | DTry =>
    match slot g with
    | None => Some (take_slot g t, DLoad)
    | Some _ => Some (g, Idle)
    end
  | DLoad => Some (g, match cached g with Some e => DMark e | None => Release end)
  | DMark e => Some (upd g e set_stale, DRef e)
  | DRef e => Some (g, if 0 <? refcount (entry_at g e) then Release else EDelete ToRelease e)
  | _ => None
  end.

(** The next step of thread [t]. *)
Definition thread_step (i : input) (t : nat) g (p : pc) : option (shared St * pc) :=
  match p with
  | Idle => start i g p
  | GLoad | GStale _ | GRef _ | GCheck _ | GTouch _ | GBack _ | GSlot | GWait _ | Holding _ =>
      getSessionContext i t g p
  | BLoad | BStale _ | BRefcount _ | BShare _ | BTouch _ => takeCachedEntry i g p
  | BIssue | BStore _ | BDone _ => buildSessionEntry i g p
  | EDelete _ _ | ERevoke _ _ | EClose _ _ => evictEntry g p
  | SRef _ | SIdle _ => runEvictionPass i g p
  | IMark _ | IRef _ => invalidateContextManagers g p
  | XRef _ => dropContextManager g p
  | TTry _ | TCached _ | TMark _ | TRef _ | Release => tryEvictEntry t g p
  | DTry | DLoad | DMark _ | DRef _ => discardConversation t g p
  end.

(** ** Interleavings *)

Record state := {
  st_shared : shared St;
  st_threads : gmap nat pc
}.

(** Calls for other keys and agents may change the store, not this session's
    token. *)
Definition other_calls (s s' : St) : Prop :=
  ti_ok s' ∧ ti_token s' sessionKey = ti_token s sessionKey.

(** The token generator does not repeat itself, and the agent owns the session. *)
Definition input_ok g (i : input) : Prop := ti_fresh (issuer g) (in_gen i).

Inductive step : state → state → Prop :=
| step_spawn st t :
    st_threads st !! t = None →
    step st {| st_shared := st_shared st; st_threads := <[t := Idle]> (st_threads st) |}
| step_thread st t p i g' p' :
    st_threads st !! t = Some p → input_ok (st_shared st) i →
    thread_step i t (st_shared st) p = Some (g', p') →
    step st {| st_shared := g'; st_threads := <[t := p']> (st_threads st) |}
| step_others st s' :
    other_calls (issuer (st_shared st)) s' →
    step st {| st_shared := set_issuer (st_shared st) s'; st_threads := st_threads st |}.

Definition initial (s : St) : state :=
  {| st_shared := {| cached := None; heap := ∅; slot := None; next_chan := 0; issuer := s |};
     st_threads := ∅ |}.

Definition reachable (st : state) : Prop := ∃ s, ti_ok s ∧ rtc step (initial s) st.

(** ** The invariant *)

(** The points at which a thread owns the build slot. *)
Definition in_slot (p : pc) : bool :=
  match p with
  | BLoad | BStale _ | BRefcount _ | BShare _ | BTouch _ | BIssue | BStore _ | BDone _
  | EDelete _ _ | ERevoke _ _ | EClose _ _ | TCached _ | TMark _ | TRef _
  | DLoad | DMark _ | DRef _ | Release => true
  | _ => false
  end.

(** The references a thread holds. *)
Definition weight (e : nat) (p : pc) : Z :=
  match p with
  | GCheck e' | GTouch e' | GBack e' | BTouch e' | BDone e' | Holding e' =>
      if Nat.eqb e' e then 1 else 0
  | _ => 0
  end.

(** The points from which a thread goes on to use the entry. *)
Definition uses (p : pc) : option nat :=
  match p with
  | GTouch e | BTouch e | BDone e | Holding e => Some e
  | _ => None
  end.

Definition mentions (p : pc) : option nat :=
  match p with
  | GStale e | GRef e | GCheck e | GTouch e | GBack e | BStale e | BRefcount e | BShare e
  | BTouch e | BDone e | Holding e | EDelete _ e | ERevoke _ e | EClose _ e | SRef e | SIdle e
  | IMark e | IRef e | XRef e | TTry e | TCached e | TMark e | TRef e | DMark e | DRef e => Some e
  | _ => None
  end.

Definition nrefs (T : gmap nat pc) (e : nat) : Z := tally (weight e) T.

(** *** The build slot *)

Record slot_inv g (T : gmap nat pc) : Prop := {
  sl_owner : ∀ t p, T !! t = Some p → in_slot p = true → ∃ ch, slot g = Some (t, ch);
  sl_taken : ∀ t ch, slot g = Some (t, ch) → ∃ p, T !! t = Some p ∧ in_slot p = true
}.

(** A thread's step on the slot: it keeps its part in it, takes a free slot or
    frees its own. *)
Lemma slot_inv_step g g' T t p p' :
  slot_inv g T → T !! t = Some p →
  (in_slot p' = in_slot p ∧ slot g' = slot g) ∨
  (slot g = None ∧ in_slot p' = true ∧ ∃ ch, slot g' = Some (t, ch)) ∨
  (in_slot p = true ∧ in_slot p' = false ∧ slot g' = None) →
  slot_inv g' (<[t := p']> T).
Proof.
  intros [Ho Ht] Hp Hcase. split.
  - intros t1 p1. rewrite lookup_insert. case_decide as Heq.
    + intros [= <-] Hin. subst t1. destruct Hcase as [[Hs ->]|[(_ & _ & ?)|(_ & ? & _)]].
      * apply (Ho t p Hp). congruence.
      * done.
      * congruence.
    + intros Hp1 Hin. destruct (Ho _ _ Hp1 Hin) as [ch Hch].
      destruct Hcase as [[_ ->]|[(? & _)|(Hin' & _)]]; [by exists ch|congruence|].
      destruct (Ho _ _ Hp Hin') as [ch' ?]. congruence.
  - intros t1 ch Hs. destruct Hcase as [[Hi Hs']|[(_ & ? & ch' & Hs')|(_ & _ & ?)]].
    + rewrite Hs' in Hs. destruct (Ht _ _ Hs) as (p1 & Hp1 & Hin).
      destruct (decide (t1 = t)) as [->|Hne].
      * exists p'. rewrite lookup_insert_eq. split; [done|]. congruence.
      * exists p1. by rewrite lookup_insert_ne.
    + exists p'. assert (t1 = t) as -> by congruence. by rewrite lookup_insert_eq.
    + congruence.
Qed.

Lemma thread_step_slot i t g p g' p' T :
  slot_inv g T → T !! t = Some p → thread_step i t g p = Some (g', p') →
  slot_inv g' (<[t := p']> T).
Proof.
  intros Hs Hp Hstep. apply (slot_inv_step g g' T t p p' Hs Hp).
  destruct p; simpl in Hstep; repeat case_match; try discriminate;
    injection Hstep as <- <-;
    first [left; split; by try congruence
          |right; left; split_and!; [done|reflexivity|eexists; reflexivity]
          |right; right; split_and!; reflexivity].
Qed.

(** Two threads in the slot are one. *)
Lemma slot_unique g T t t' p p' :
  slot_inv g T → T !! t = Some p → T !! t' = Some p' →
  in_slot p = true → in_slot p' = true → t = t'.
Proof.
  intros Hs Hp Hp' Hi Hi'. destruct (sl_owner _ _ Hs _ _ Hp Hi) as [ch Hch].
  destruct (sl_owner _ _ Hs _ _ Hp' Hi') as [ch' Hch']. congruence.
Qed.

(** *** References *)

Lemma weight_nonneg e p : 0 ≤ weight e p.
Proof. destruct p; simpl; try case_if; lia. Qed.

Lemma nrefs_insert T t p p' e :
  T !! t = Some p → nrefs (<[t := p']> T) e = nrefs T e - weight e p + weight e p'.
Proof. apply tally_insert. Qed.

Lemma nrefs_insert_new T t p e :
  T !! t = None → nrefs (<[t := p]> T) e = weight e p + nrefs T e.
Proof. apply tally_insert_new. Qed.

Lemma nrefs_weight T t p e : T !! t = Some p → weight e p ≤ nrefs T e.
Proof. apply tally_ge, weight_nonneg. Qed.

Record refs_inv g (T : gmap nat pc) : Prop := {
  rf_count : ∀ e en, heap g !! e = Some en → refcount en = nrefs T e;
  rf_known : ∀ t p e, T !! t = Some p → mentions p = Some e → is_Some (heap g !! e);
  rf_cached : ∀ e, cached g = Some e → is_Some (heap g !! e)
}.

Lemma uses_weight p e : uses p = Some e → weight e p = 1.
Proof. destruct p; simpl; intros [=]; subst; by rewrite Nat.eqb_refl. Qed.

Lemma weight_mentions p e : weight e p ≠ 0 → mentions p = Some e.
Proof.
  destruct p; simpl; try done; destruct (Nat.eqb _ _) eqn:He; try done;
    apply Nat.eqb_eq in He; congruence.
Qed.

Lemma refs_unknown g T e : refs_inv g T → heap g !! e = None → nrefs T e = 0.
Proof.
  intros Hr He. apply tally_zero. intros t p Hp.
  destruct (decide (weight e p = 0)) as [?|Hw]; [done|].
  apply weight_mentions in Hw. destruct (rf_known _ _ Hr _ _ _ Hp Hw). congruence.
Qed.

(** A step's effect on the entries: it leaves them, updates one and with it the
    references its thread holds, or adds one with the thread's reference. *)
Lemma refs_inv_step g g' T t p p' :
  refs_inv g T → T !! t = Some p →
  (∀ e, mentions p' = Some e → mentions p = Some e ∨ is_Some (heap g' !! e)) →
  (cached g' = cached g ∨ cached g' = None ∨ ∃ e, cached g' = Some e ∧ is_Some (heap g' !! e)) →
  (heap g' = heap g ∧ (∀ e, weight e p' = weight e p)) ∨
  (∃ e en f, heap g !! e = Some en ∧ heap g' = <[e := f en]> (heap g) ∧
     (∀ e', e' ≠ e → weight e' p' = weight e' p) ∧
     refcount (f en) = refcount en + weight e p' - weight e p) ∨
  (∃ e en, heap g !! e = None ∧ heap g' = <[e := en]> (heap g) ∧
     (∀ e', e' ≠ e → weight e' p' = weight e' p) ∧ refcount en = weight e p') →
  refs_inv g' (<[t := p']> T).
Proof.
  intros Hr Hp Hm Hc Hcase.
  assert (Hgrow : ∀ e, is_Some (heap g !! e) → is_Some (heap g' !! e)).
  { intros e He. destruct Hcase as [[-> _]|[(e0 & en & f & _ & -> & _)|(e0 & en & _ & -> & _)]];
      [done|..]; apply lookup_insert_is_Some'; by right. }
  split.
  - intros e en He. rewrite (nrefs_insert T t p p' e Hp).
    destruct Hcase as [[Hh Hw]|[(e0 & en0 & f & He0 & Hh & Hw & Hf)|(e0 & en0 & He0 & Hh & Hw & Hf)]];
      rewrite Hh in He.
    + rewrite (rf_count _ _ Hr _ _ He), Hw. lia.
    + revert He. rewrite lookup_insert. case_decide as Heq.
      * intros [= <-]. subst e0. rewrite Hf, (rf_count _ _ Hr _ _ He0). lia.
      * intros He. rewrite (rf_count _ _ Hr _ _ He), Hw by done. lia.
    + revert He. rewrite lookup_insert. case_decide as Heq.
      * intros [= <-]. subst e0. rewrite Hf, (refs_unknown _ _ _ Hr He0).
        pose proof (nrefs_weight T t p e Hp) as Hle. rewrite (refs_unknown _ _ _ Hr He0) in Hle.
        pose proof (weight_nonneg e p). lia.
      * intros He. rewrite (rf_count _ _ Hr _ _ He), Hw by done. lia.
  - intros t1 p1 e. rewrite lookup_insert. case_decide.
    + intros [= <-] He. destruct (Hm e He) as [Hpm|?]; [|done].
      apply Hgrow. by apply (rf_known _ _ Hr t p).
    + intros Hp1 He. apply Hgrow. by apply (rf_known _ _ Hr t1 p1).
  - intros e He. destruct Hc as [Hc|[Hc|(e0 & Hc & ?)]]; [|congruence|congruence].
    apply Hgrow, (rf_cached _ _ Hr). congruence.
Qed.

Lemma thread_step_refs i t g p g' p' T :
  refs_inv g T → T !! t = Some p → thread_step i t g p = Some (g', p') →
  refs_inv g' (<[t := p']> T).
Proof.
  intros Hr Hp Hstep.
  assert (Hent : ∀ e, mentions p = Some e → heap g !! e = Some (entry_at g e)).
  { intros e He. unfold entry_at. by destruct (rf_known _ _ Hr _ _ _ Hp He) as [en ->]. }
  assert (Halloc : heap g !! alloc g = None).
  { apply (not_elem_of_dom (D := gset nat)), (is_fresh (dom (heap g) : gset nat)). }
  pose proof (rf_cached _ _ Hr) as Hc.
  apply (refs_inv_step g g' T t p p' Hr Hp);
    destruct p; simpl in Hstep; repeat case_match; try discriminate;
    injection Hstep as <- <-; cbn -[entry_at alloc].
  all: try (intros ? [= ->]; first [by left | right; eauto using lookup_insert_is_Some']; fail).
  all: try (by left).
  all: try (left; split; [reflexivity|done]).
  all: try (match goal with
    | |- context [<[?x := ?f (entry_at ?g0 ?x)]> _ = _] =>
        right; left; exists x, (entry_at g0 x), f; split_and!;
        [by apply Hent|done
        |by intros y ?; destruct (Nat.eqb_spec x y)|cbn; rewrite ?Nat.eqb_refl; lia]
    end).
  - intros e [= <-]. right. by rewrite lookup_insert_eq.
  - right. right. exists (alloc g). by rewrite lookup_insert_eq.
  - right. by left.
  - right. right. exists (alloc g), (newEntry tok (in_now i)). rewrite Nat.eqb_refl.
    split_and!; [done|done| |done]. intros y ?. by destruct (Nat.eqb_spec (alloc g) y).
Qed.

(** *** Entries in use *)

Lemma entry_at_upd g e f e' :
  entry_at (upd g e f) e' = if decide (e = e') then f (entry_at g e) else entry_at g e'.
Proof. unfold entry_at. simpl. rewrite lookup_insert. by case_decide. Qed.

(** What the owner of the build slot knows. *)
Definition slot_fact g (p : pc) : Prop :=
  match p with
  | BStale e | BShare e | TMark e | DMark e => cached g = Some e
  | BRefcount e | TRef e | DRef e | EDelete _ e =>
      cached g = Some e ∧ stale (entry_at g e) = true
  | ERevoke _ _ | EClose _ _ | BIssue => cached g = None
  | BStore tok => cached g = None ∧ (tok ≠ "" → ti_token (issuer g) sessionKey = Some tok)
  | _ => True
  end.

Lemma slot_fact_out g p : in_slot p = false → slot_fact g p.
Proof. by destruct p. Qed.

(** An entry a thread goes on to use is the cached one, the cached one is open
    and its token the session's, an entry that is not stale is cached, an entry
    about to be removed is used by nobody, and an open entry is cached or about
    to be closed. *)
Record live_inv g (T : gmap nat pc) : Prop := {
  lv_uses : ∀ t p e, T !! t = Some p → uses p = Some e → cached g = Some e;
  lv_cached : ∀ e, cached g = Some e → closed (entry_at g e) = false ∧
    (token (entry_at g e) ≠ "" → ti_token (issuer g) sessionKey = Some (token (entry_at g e)));
  lv_fresh : ∀ e, is_Some (heap g !! e) → stale (entry_at g e) = false → cached g = Some e;
  lv_fact : ∀ t p, T !! t = Some p → slot_fact g p;
  lv_evict : ∀ t k e t' p', T !! t = Some (EDelete k e) → T !! t' = Some p' → uses p' ≠ Some e;
  lv_open : ∀ e, is_Some (heap g !! e) → closed (entry_at g e) = false →
    cached g = Some e ∨ ∃ t k, T !! t = Some (ERevoke k e) ∨ T !! t = Some (EClose k e);
  lv_ok : ti_ok (issuer g)
}.

(** Steps that leave the cache, the store and what matters of the entries, apart
    from marking some stale. *)
Record same_view g g' : Prop := {
  sv_cached : cached g' = cached g;
  sv_issuer : issuer g' = issuer g;
  sv_heap : ∀ e, is_Some (heap g' !! e) → is_Some (heap g !! e);
  sv_closed : ∀ e, closed (entry_at g' e) = closed (entry_at g e);
  sv_token : ∀ e, token (entry_at g' e) = token (entry_at g e);
  sv_stale : ∀ e, stale (entry_at g e) = true → stale (entry_at g' e) = true
}.

Lemma same_view_refl g : same_view g g.
Proof. by split. Qed.

Lemma upd_view g e f :
  is_Some (heap g !! e) →
  (∀ en, closed (f en) = closed en ∧ token (f en) = token en ∧
    (stale en = true → stale (f en) = true)) →
  same_view g (upd g e f).
Proof.
  intros He Hf. split; try done.
  - intros e'. simpl. rewrite lookup_insert. case_decide; [by subst|done].
  - intros e'. rewrite entry_at_upd. case_decide; [subst; by apply Hf|done].
  - intros e'. rewrite entry_at_upd. case_decide; [subst; by apply Hf|done].
  - intros e'. rewrite entry_at_upd. case_decide; [subst; by apply Hf|done].
Qed.

Lemma slot_fact_view g g' p : same_view g g' → slot_fact g p → slot_fact g' p.
Proof.
  intros Hv. pose proof (sv_cached _ _ Hv) as Hc. pose proof (sv_issuer _ _ Hv) as Hi.
  destruct p; simpl; rewrite ?Hc, ?Hi; try done; intros [? ?]; split; auto;
    by apply (sv_stale _ _ Hv).
Qed.

Lemma live_inv_view g g' T t p p' :
  live_inv g T → T !! t = Some p → same_view g g' →
  (∀ e, uses p' = Some e → cached g = Some e ∧ ∀ t' k, t' ≠ t → T !! t' ≠ Some (EDelete k e)) →
  slot_fact g' p' →
  (∀ k e, p' = EDelete k e → ∀ t' p1, T !! t' = Some p1 → uses p1 ≠ Some e) →
  (∀ k e, p ≠ ERevoke k e ∧ p ≠ EClose k e) →
  live_inv g' (<[t := p']> T).
Proof.
  intros Hl Hp Hv Hu Hf He Hne. pose proof (sv_cached _ _ Hv) as Hc. split.
  - intros t1 p1 e. rewrite Hc, lookup_insert. case_decide; [intros [= <-] ?; by apply Hu|].
    apply (lv_uses _ _ Hl).
  - intros e. rewrite Hc, (sv_issuer _ _ Hv), (sv_closed _ _ Hv), (sv_token _ _ Hv).
    apply (lv_cached _ _ Hl).
  - intros e Hh Hst. rewrite Hc. apply (lv_fresh _ _ Hl); [by apply (sv_heap _ _ Hv)|].
    apply not_true_iff_false. intros Hst'%(sv_stale _ _ Hv). congruence.
  - intros t1 p1. rewrite lookup_insert. case_decide; [by intros [= <-]|].
    intros Hp1. apply (slot_fact_view g g' p1 Hv), (lv_fact _ _ Hl t1 p1 Hp1).
  - intros t1 k e t2 p2. rewrite !lookup_insert. repeat case_decide; subst.
    + intros [= ->] [= <-]. done.
    + intros [= ->]. by apply (He k e).
    + intros Ht1 [= <-] Huse. destruct (Hu e Huse) as [_ Hno]. by apply (Hno t1 k).
    + apply (lv_evict _ _ Hl).
  - intros e Hh. rewrite Hc, (sv_closed _ _ Hv). intros Ho.
    destruct (lv_open _ _ Hl e (sv_heap _ _ Hv _ Hh) Ho) as [?|(t1 & k & Ht1)]; [by left|right].
    exists t1, k. assert (t ≠ t1).
    { intros ->. destruct (Hne k e). destruct Ht1; congruence. }
    by rewrite lookup_insert_ne.
  - rewrite (sv_issuer _ _ Hv). apply Hl.
Qed.

(** Steps of the slot's owner that change the cache, the store or an entry for
    good. *)
Section owner_steps.
Variables (g : shared St) (T : gmap nat pc) (t : nat) (p : pc).
Hypothesis Hslot : slot_inv g T.
Hypothesis Hrefs : refs_inv g T.
Hypothesis Hlive : live_inv g T.
Hypothesis Hp : T !! t = Some p.
Hypothesis Hin : in_slot p = true.

Lemma others_out t' p' : t' ≠ t → T !! t' = Some p' → in_slot p' = false.
Proof.
  intros Hne Hp'. apply not_true_iff_false. intros Hin'. apply Hne.
  by apply (slot_unique g T t' t p' p).
Qed.

Lemma others_fact g' t' p' : t' ≠ t → T !! t' = Some p' → slot_fact g' p'.
Proof. intros Hne Hp'. apply slot_fact_out. by apply (others_out t'). Qed.

Lemma others_no_evict t' k e : t' ≠ t → T !! t' ≠ Some (EDelete k e).
Proof. intros Hne Hp'. by apply (others_out t') in Hp'. Qed.

(** After an update of thread [t] to a point that evicts nothing, nobody is
    about to. *)
Lemma no_evict p' : (∀ k e, p' ≠ EDelete k e) →
  ∀ t1 k e t2 p2, <[t := p']> T !! t1 = Some (EDelete k e) → <[t := p']> T !! t2 = Some p2 →
  uses p2 ≠ Some e.
Proof.
  intros Hp' t1 k e t2 p2. rewrite lookup_insert. case_decide; [by intros [= ?]; destruct (Hp' k e)|].
  intros Ht1. by destruct (others_no_evict t1 k e).
Qed.

(** The facts of the updated threads. *)
Lemma facts_insert g' p' : slot_fact g' p' →
  ∀ t1 p1, <[t := p']> T !! t1 = Some p1 → slot_fact g' p1.
Proof.
  intros Hf t1 p1. rewrite lookup_insert. case_decide; [by intros [= <-]|].
  intros Hp1. by apply (others_fact g' t1).
Qed.

Lemma live_delete k e : p = EDelete k e → live_inv (set_cached g None) (<[t := ERevoke k e]> T).
Proof.
  intros Hpe. pose proof Hp as Hpt. rewrite Hpe in Hpt.
  destruct (lv_fact _ _ Hlive _ _ Hpt) as [Hc Hst]. split; simpl.
  - intros t1 p1 e1. rewrite lookup_insert. case_decide; [by intros [= <-]|].
    intros Hp1 Hu. pose proof (lv_uses _ _ Hlive _ _ _ Hp1 Hu) as Hc1.
    destruct (lv_evict _ _ Hlive t k e t1 p1 Hpt Hp1). congruence.
  - done.
  - intros e1 Hh Hst1. pose proof (lv_fresh _ _ Hlive e1 Hh Hst1) as Hc1.
    assert (e1 = e) as -> by congruence. unfold entry_at in *. simpl in *. congruence.
  - apply facts_insert. done.
  - by apply no_evict.
  - intros e1 Hh Ho. right. destruct (lv_open _ _ Hlive e1 Hh Ho) as [Hc1|(t1 & k1 & Ht1)].
    + exists t, k. left. rewrite lookup_insert_eq. congruence.
    + assert (t1 ≠ t) as Hne by (intros ->; destruct Ht1; congruence).
      by destruct Ht1 as [Ht1|Ht1]; apply (others_out t1) in Ht1.
  - apply Hlive.
Qed.

(** With nothing cached nobody uses an entry. *)
Lemma nothing_used p' : cached g = None → uses p' = None →
  ∀ t1 p1 e, <[t := p']> T !! t1 = Some p1 → uses p1 ≠ Some e.
Proof.
  intros Hc Hu t1 p1 e. rewrite lookup_insert. case_decide; [intros [= <-]; congruence|].
  intros Hp1 Hu1. pose proof (lv_uses _ _ Hlive _ _ _ Hp1 Hu1). congruence.
Qed.

(** With nothing cached and no eviction under way every entry is closed. *)
Lemma all_closed e :
  cached g = None → (∀ k e, p ≠ ERevoke k e ∧ p ≠ EClose k e) →
  is_Some (heap g !! e) → closed (entry_at g e) = true.
Proof.
  intros Hc Hne Hh. apply not_false_iff_true. intros Ho.
  destruct (lv_open _ _ Hlive e Hh Ho) as [?|(t1 & k & Ht1)]; [congruence|].
  destruct (decide (t1 = t)) as [->|Hn].
  - destruct (Hne k e). destruct Ht1; congruence.
  - by destruct Ht1 as [Ht1|Ht1]; apply (others_out t1) in Ht1.
Qed.

(** A change of the store while nothing is cached. *)
Lemma live_issuer s p' :
  cached g = None → ti_ok s → uses p' = None → (∀ k e, p' ≠ EDelete k e) →
  slot_fact (set_issuer g s) p' →
  (∀ k e, p = ERevoke k e → p' = EClose k e) → (∀ k e, p ≠ EClose k e) →
  live_inv (set_issuer g s) (<[t := p']> T).
Proof.
  intros Hc Hok Hu Hne Hf Hr Hcl. split; simpl.
  - intros t1 p1 e Hp1 Hu1. by destruct (nothing_used p' Hc Hu t1 p1 e).
  - intros e. congruence.
  - apply Hlive.
  - by apply facts_insert.
  - by apply no_evict.
  - intros e Hh Ho. destruct (lv_open _ _ Hlive e Hh Ho) as [?|(t1 & k & Ht1)]; [by left|right].
    destruct (decide (t1 = t)) as [->|Hn]; [|by destruct Ht1 as [Ht1|Ht1]; apply (others_out t1) in Ht1].
    destruct Ht1 as [Ht1|Ht1]; rewrite Hp in Ht1; injection Ht1 as Ht1.
    + exists t, k. right. rewrite lookup_insert_eq. by rewrite (Hr k e).
    + by destruct (Hcl k e).
  - done.
Qed.

Lemma live_close k e p' :
  p = EClose k e → p' = BIssue ∨ p' = Release → live_inv (upd g e set_closed) (<[t := p']> T).
Proof.
  intros Hpe Hp'. pose proof Hp as Hpt. rewrite Hpe in Hpt.
  pose proof (lv_fact _ _ Hlive _ _ Hpt) as Hc. simpl in Hc.
  assert (Hh : is_Some (heap g !! e)) by by apply (rf_known _ _ Hrefs t (EClose k e)).
  split; simpl.
  - intros t1 p1 e1 Hp1 Hu1. destruct (nothing_used p' Hc) with (t1 := t1) (p1 := p1) (e := e1);
      [by destruct Hp' as [-> | ->]|done..].
  - intros e1. congruence.
  - intros e1 Hh1. rewrite entry_at_upd. intros Hst. apply (lv_fresh _ _ Hlive).
    + destruct (decide (e = e1)) as [<-|Hne]; [done|]. by rewrite lookup_insert_ne in Hh1.
    + by case_decide; subst.
  - apply facts_insert. by destruct Hp' as [-> | ->].
  - apply no_evict. by destruct Hp' as [-> | ->].
  - intros e1 Hh1. rewrite entry_at_upd. case_decide as Hd; [done|]. intros Ho.
    rewrite lookup_insert_ne in Hh1 by done.
    destruct (lv_open _ _ Hlive e1 Hh1 Ho) as [?|(t1 & k1 & Ht1)]; [by left|].
    destruct (decide (t1 = t)) as [->|Hn]; [destruct Ht1; congruence|].
    by destruct Ht1 as [Ht1|Ht1]; apply (others_out t1) in Ht1.
  - apply Hlive.
Qed.

Lemma live_store tok now :
  p = BStore tok →
  live_inv (set_cached (set_entry g (alloc g) (newEntry tok now)) (Some (alloc g)))
    (<[t := BDone (alloc g)]> T).
Proof.
  intros Hpe. pose proof Hp as Hpt. rewrite Hpe in Hpt.
  destruct (lv_fact _ _ Hlive _ _ Hpt) as [Hc Htok]. set (e := alloc g).
  set (g' := set_cached _ _).
  assert (Hent : ∀ e1, entry_at g' e1 = if decide (e = e1) then newEntry tok now else entry_at g e1).
  { intros e1. unfold entry_at, g'. simpl. rewrite lookup_insert. by case_decide. }
  assert (Hold : ∀ e1, e ≠ e1 → is_Some (heap g' !! e1) → is_Some (heap g !! e1)).
  { intros e1 Hne. unfold g'. simpl. by rewrite lookup_insert_ne. }
  split.
  - intros t1 p1 e1. rewrite lookup_insert. case_decide; [by intros [= <-]|].
    intros Hp1 Hu. pose proof (lv_uses _ _ Hlive _ _ _ Hp1 Hu). congruence.
  - intros e1 [= <-]. rewrite Hent, decide_True by done. by split.
  - intros e1 Hh. rewrite Hent. case_decide as Hd; [by subst|]. intros Hst.
    pose proof (lv_fresh _ _ Hlive e1 (Hold e1 Hd Hh) Hst). congruence.
  - by apply facts_insert.
  - by apply no_evict.
  - intros e1 Hh. rewrite Hent. case_decide as Hd; [by subst; left|].
    rewrite all_closed; [done|done| |by apply Hold]. by intros k e2; rewrite Hpe.
  - apply Hlive.
Qed.
End owner_steps.

(** *** Every step *)

Context `{!TokenIssuerLaws St}.
Hypothesis agent_owns : ti_owned agent sessionKey.

Record state_inv g (T : gmap nat pc) : Prop := {
  si_slot : slot_inv g T;
  si_refs : refs_inv g T;
  si_live : live_inv g T
}.

(** A step that moves, counts, touches or marks. *)
Lemma live_plain g g' T t p p' :
  state_inv g T → T !! t = Some p →
  g' = g ∨ (∃ e f, mentions p = Some e ∧ g' = upd g e f ∧
    ∀ en, closed (f en) = closed en ∧ token (f en) = token en ∧
      (stale en = true → stale (f en) = true)) ∨ g' = take_slot g t ∨ g' = free_slot g →
  (∀ e, uses p' = Some e → uses p = Some e ∨
    (cached g = Some e ∧ in_slot p = true) ∨
    (is_Some (heap g !! e) ∧ stale (entry_at g e) = false)) →
  slot_fact g' p' →
  (∀ k e, p' = EDelete k e → mentions p = Some e ∧ refcount (entry_at g e) ≤ 0) →
  (∀ k e, p ≠ ERevoke k e ∧ p ≠ EClose k e) →
  live_inv g' (<[t := p']> T).
Proof.
  intros [Hs Hr Hl] Hp Hg Hu Hf He Hne.
  assert (Hv : same_view g g').
  { destruct Hg as [->|[(e & f & Hm & -> & Hfn)|[-> | ->]]]; [by split| |by split|by split].
    apply upd_view; [|done]. by apply (rf_known _ _ Hr t p). }
  apply (live_inv_view g g' T t p p'); try done.
  - intros e Huse. destruct (Hu e Huse) as [Hup|[[Hc Hin]|[Hh Hst]]].
    + split; [by apply (lv_uses _ _ Hl t p)|]. intros t' k _ Ht'.
      by apply (lv_evict _ _ Hl t' k e t p).
    + split; [done|]. intros t' k Hn Ht'. apply Hn. by apply (slot_unique g T t' t _ p Hs Ht' Hp).
    + split; [by apply (lv_fresh _ _ Hl)|]. intros t' k _ Ht'.
      destruct (lv_fact _ _ Hl _ _ Ht') as [_ Hst']. congruence.
  - intros k e Hpe t1 p1 Hp1 Hu1. destruct (He k e Hpe) as [Hm Href].
    destruct (rf_known _ _ Hr t p e Hp Hm) as [en Hen].
    unfold entry_at in Href. rewrite Hen in Href. simpl in Href.
    rewrite (rf_count _ _ Hr e en Hen) in Href.
    pose proof (nrefs_weight T t1 p1 e Hp1). rewrite (uses_weight _ _ Hu1) in *. lia.
Qed.

(** The points whose step is not of that kind. *)
Definition special (p : pc) : bool :=
  match p with
  | BIssue | BStore _ | EDelete _ _ | ERevoke _ _ | EClose _ _ => true
  | _ => false
  end.

Lemma plain_step_live i t g p g' p' T :
  state_inv g T → T !! t = Some p → special p = false →
  thread_step i t g p = Some (g', p') → live_inv g' (<[t := p']> T).
Proof.
  intros Hi Hp Hns Hstep. pose proof (lv_fact _ _ (si_live _ _ Hi) _ _ Hp) as Hf.
  assert (Hknown : ∀ e, mentions p = Some e → is_Some (heap g !! e))
    by (intros e; by apply (rf_known _ _ (si_refs _ _ Hi) t p)).
  destruct p; try discriminate Hns; simpl in Hstep; repeat case_match; try discriminate;
    injection Hstep as <- <-; apply (live_plain _ _ T t _ _ Hi Hp).
  (* the entry's update *)
  all: try (left; reflexivity).
  all: try (right; right; left; reflexivity).
  all: try (right; right; right; reflexivity).
  all: try (right; left; eexists _, _; split_and!; [reflexivity|reflexivity|done]).
  (* not closing *)
  all: try (intros ? ?; split; discriminate).
  all: try (intros ? [=]; fail).
  all: try (intros ? ? [=]; fail).
  (* what the thread uses, what it knows, when it evicts *)
  all: try (intros e1 He1; left; exact He1).
  all: try (intros e1 [= <-]; right; left; split; [exact Hf|reflexivity]).
  all: try (intros e1 [= <-]; right; right; split; [by apply Hknown|done]).
  all: try (intros ? ? [= <- <-]; split; [reflexivity|zb; lia]).
  all: simpl in *; try done.
  all: try (split; [done|by rewrite entry_at_upd, decide_True]).
  - apply Hf.
  - by apply (bool_decide_eq_true (cached g = Some e)).
Qed.

Lemma thread_step_live i t g p g' p' T :
  state_inv g T → T !! t = Some p → input_ok g i →
  thread_step i t g p = Some (g', p') → live_inv g' (<[t := p']> T).
Proof.
  intros Hi Hp Hin Hstep. destruct (special p) eqn:Hsp; [|by eapply plain_step_live].
  destruct Hi as [Hs Hr Hl]. pose proof (lv_fact _ _ Hl _ _ Hp) as Hf.
  pose proof (lv_ok _ _ Hl) as Hok.
  destruct p; try discriminate Hsp; simpl in Hstep.
  - (* BIssue *)
    destruct issues; [|injection Hstep as <- <-].
    + destruct (ti_issue _ _ _ _ _) as [s tok] eqn:Hissue. injection Hstep as <- <-.
      pose proof (ti_issue_ok _ _ agent sessionKey archiveDir Hok Hin agent_owns) as Hok'.
      pose proof (ti_issue_token (issuer g) (in_gen i) agent sessionKey archiveDir) as Htok.
      rewrite Hissue in Hok', Htok. simpl in *.
      by apply (live_issuer g T t BIssue).
    + by apply (live_inv_view g g T t BIssue).
  - injection Hstep as <- <-. by apply (live_store g T t (BStore tok)).
  - injection Hstep as <- <-. by apply (live_delete g T t (EDelete k e)).
  - injection Hstep as <- <-. simpl in Hf. case_bool_decide.
    + assert (Hg : set_issuer g (issuer g) = g) by by destruct g.
      rewrite <- Hg.
      apply (live_issuer g T t (ERevoke k e) Hs Hl Hp eq_refl (issuer g)); try done.
      by intros k1 e1 [= <- <-].
    + apply (live_issuer g T t (ERevoke k e)); try done; [by apply ti_revoke_ok|].
      by intros k1 e1 [= <- <-].
  - injection Hstep as <- <-. apply (live_close g T t (EClose k e) Hs Hr Hl Hp eq_refl k e); [done|].
    destruct k; auto.
Qed.

Lemma spawn_inv g T t : state_inv g T → T !! t = None → state_inv g (<[t := Idle]> T).
Proof.
  intros [Hs Hr Hl] Ht.
  assert (Hother : ∀ t1 p1, <[t := Idle]> T !! t1 = Some p1 → p1 = Idle ∨ T !! t1 = Some p1).
  { intros t1 p1. rewrite lookup_insert. case_decide; [by intros [= <-]; left|by right]. }
  assert (Hkeep : ∀ t1 p1, T !! t1 = Some p1 → <[t := Idle]> T !! t1 = Some p1).
  { intros t1 p1 Hp1. rewrite lookup_insert_ne; [done|congruence]. }
  split; split.
  - intros t1 p1 [->|Hp1]%Hother Hin; [done|]. by apply (sl_owner _ _ Hs t1 p1).
  - intros t1 ch Hc. destruct (sl_taken _ _ Hs _ _ Hc) as (p & Hp & Hin). exists p. auto.
  - intros e en He. rewrite nrefs_insert_new by done. rewrite (rf_count _ _ Hr _ _ He). simpl. lia.
  - intros t1 p1 e [->|Hp1]%Hother Hm; [done|]. by apply (rf_known _ _ Hr t1 p1).
  - apply (rf_cached _ _ Hr).
  - intros t1 p1 e [->|Hp1]%Hother Hu; [done|]. by apply (lv_uses _ _ Hl t1 p1).
  - apply (lv_cached _ _ Hl).
  - apply (lv_fresh _ _ Hl).
  - intros t1 p1 [->|Hp1]%Hother; [done|]. by apply (lv_fact _ _ Hl t1).
  - intros t1 k e t2 p2 [?|Ht1]%Hother [->|Hp2]%Hother; try done.
    by apply (lv_evict _ _ Hl t1 k e t2).
  - intros e Hh Ho. destruct (lv_open _ _ Hl e Hh Ho) as [?|(t1 & k & Ht1)]; [by left|right].
    exists t1, k. destruct Ht1; auto.
  - apply Hl.
Qed.

Lemma others_inv g T s' :
  state_inv g T → other_calls (issuer g) s' → state_inv (set_issuer g s') T.
Proof.
  intros [Hs Hr Hl] [Hok Htok]. split.
  - by destruct Hs.
  - by destruct Hr.
  - split; try apply Hl; try done.
    + simpl. rewrite Htok. apply (lv_cached _ _ Hl).
    + intros t p Hp. pose proof (lv_fact _ _ Hl t p Hp) as Hf.
      destruct p; simpl in *; try done. by rewrite Htok.
Qed.

Lemma initial_inv s : ti_ok s → state_inv (st_shared (initial s)) (st_threads (initial s)).
Proof. intros Hok. split; split; simpl; intros *; try done; rewrite ?lookup_empty; try done; by intros []. Qed.

Lemma reachable_inv st : reachable st → state_inv (st_shared st) (st_threads st).
Proof.
  assert (Hstep : ∀ st1 st2, step st1 st2 →
    state_inv (st_shared st1) (st_threads st1) → state_inv (st_shared st2) (st_threads st2)).
  { intros st1 st2 [st0 t Ht|st0 t p inp g' p' Hp Hin Hs|st0 s' Ho] Hi; simpl.
    - by apply spawn_inv.
    - split; [by eapply thread_step_slot, Hs; [apply Hi|]|by eapply thread_step_refs, Hs; [apply Hi|]|].
      by eapply thread_step_live.
    - by apply others_inv. }
  intros (s & Hok & Hr). pose proof (initial_inv s Hok) as H0. revert H0.
  induction Hr; eauto.
Qed.

(** ** Properties *)

(** C32. Whatever the interleaving of callers and evictors, an entry a caller
    holds is the cached one, so two callers share one manager; it is not
    closed, its reference count is positive, and its token, if it has one, is
    accepted for the session. *)
Theorem held_entry_safe st t e
  (Hr : reachable st) (Ht : st_threads st !! t = Some (Holding e)) :
  let g := st_shared st in
  cached g = Some e ∧ closed (entry_at g e) = false ∧ 0 < refcount (entry_at g e) ∧
  (token (entry_at g e) ≠ "" → ti_accepts (issuer g) (token (entry_at g e)) sessionKey).
Proof.
  apply reachable_inv in Hr as [Hs Hrf Hl]. cbv zeta.
  pose proof (lv_uses _ _ Hl t _ e Ht eq_refl) as Hc.
  destruct (lv_cached _ _ Hl e Hc) as [Ho Htok]. split_and!; try done.
  - destruct (rf_known _ _ Hrf t _ e Ht eq_refl) as [en He]. unfold entry_at. rewrite He. simpl.
    rewrite (rf_count _ _ Hrf e en He). pose proof (nrefs_weight _ t _ e Ht) as Hw.
    rewrite (uses_weight (Holding e) e eq_refl) in Hw. lia.
  - intros Hne. apply ti_token_accepts; [apply Hl|]. by apply Htok.
Qed.

(** Nothing leaks: an entry that is still open is the cached one or is about
    to be closed by the thread that removed it; and when no thread is in the
    middle of a call, the open entries are the cached one alone and its count
    is the number of callers that hold it. *)
Theorem open_entries_accounted st e
  (Hr : reachable st) (He : is_Some (heap (st_shared st) !! e))
  (Ho : closed (entry_at (st_shared st) e) = false) :
  (cached (st_shared st) = Some e ∨
   ∃ t k, st_threads st !! t = Some (ERevoke k e) ∨ st_threads st !! t = Some (EClose k e)) ∧
  ((∀ t p, st_threads st !! t = Some p → p = Idle ∨ ∃ e', p = Holding e') →
   cached (st_shared st) = Some e ∧
   refcount (entry_at (st_shared st) e) =
     Z.of_nat (size (filter (λ x, x.2 = Holding e) (st_threads st)))).
Proof.
  apply reachable_inv in Hr as [_ Hrf Hl]. split; [by apply (lv_open _ _ Hl)|]. intros Hq. split.
  - destruct (lv_open _ _ Hl e He Ho) as [?|(t & k & Ht)]; [done|].
    destruct Ht as [Ht|Ht]; apply Hq in Ht as [?|[? ?]]; done.
  - destruct He as [en He]. unfold entry_at. rewrite He. simpl. rewrite (rf_count _ _ Hrf e en He).
    clear Hrf Hl He Ho. revert Hq. generalize (st_threads st). intros T.
    induction T as [|t p T Ht IH] using map_ind; intros Hq.
    { unfold nrefs. by rewrite map_filter_empty, map_size_empty. }
    rewrite nrefs_insert_new, IH by (done || (intros t' p' Hp'; apply (Hq t');
      rewrite lookup_insert_ne; congruence)).
    destruct (Hq t p (lookup_insert_eq _ _ _)) as [->|[e' ->]]; simpl.
    + rewrite map_filter_insert_False by done. by rewrite delete_id.
    + destruct (Nat.eqb_spec e' e) as [->|Hne].
      * rewrite map_filter_insert_True by done. rewrite map_size_insert_None; [lia|].
        by apply map_lookup_filter_None_2; left.
      * rewrite map_filter_insert_False by (simpl; congruence). by rewrite delete_id.
Qed.

(** The steps left until the build slot is freed. *)
Definition rank (p : pc) : nat :=
  match p with
  | BLoad => 12 | BStale _ => 11 | BRefcount _ => 10
  | EDelete ToBuild _ => 9 | ERevoke ToBuild _ => 8 | EClose ToBuild _ => 7
  | BIssue => 6 | BStore _ => 5 | BShare _ => 6 | BTouch _ => 5 | BDone _ => 4
  | DLoad | TCached _ => 9 | DMark _ | TMark _ => 8 | DRef _ | TRef _ => 7
  | EDelete ToRelease _ => 6 | ERevoke ToRelease _ => 5 | EClose ToRelease _ => 4
  | Release => 3
  | _ => 0
  end%nat.

Lemma slot_step i t g p :
  in_slot p = true →
  ∃ g' p', thread_step i t g p = Some (g', p') ∧
    (in_slot p' = false ∨ (rank p' < rank p)%nat).
Proof.
  intros Hin. destruct p; try discriminate Hin; simpl; repeat case_match;
    eexists _, _; (split; [reflexivity|]); simpl; auto; right; lia.
Qed.

(** No deadlock: a thread that cannot move is idle or waits for a build, and
    then the thread that owns the build slot can move whatever it reads, with
    every step coming closer to freeing the slot. *)
Theorem build_slot_progress st t p i (Hr : reachable st)
  (Ht : st_threads st !! t = Some p)
  (Hblocked : thread_step i t (st_shared st) p = None) :
  p = Idle ∨
  ∃ t' p', t' ≠ t ∧ st_threads st !! t' = Some p' ∧ (rank p' ≤ 12)%nat ∧
    ∀ i', ∃ g'' p'',
      thread_step i' t' (st_shared st) p' = Some (g'', p'') ∧
      (in_slot p'' = false ∨ (rank p'' < rank p')%nat).
Proof.
  apply reachable_inv in Hr as [Hs _ _].
  destruct p; simpl in Hblocked; try discriminate; try (by left);
    repeat case_match; try discriminate; right.
  destruct (sl_taken _ _ Hs n n0) as (p' & Hp' & Hin); [done|].
  exists n, p'. split_and!.
  - intros ->. rewrite Ht in Hp'. by injection Hp' as <-.
  - done.
  - destruct p'; simpl; repeat case_match; lia.
  - intros i'. by apply slot_step.
Qed.

(** [n] steps of one thread alone. *)
Fixpoint solo (n : nat) (i : input) (t : nat) (g : shared St) (p : pc) : option (shared St * pc) :=
  match n with
  | O => Some (g, p)
  | S n' =>
    match thread_step i t g p with
    | Some (g', p') => solo n' i t g' p'
    | None => None
    end
  end.

(** A stale entry nobody holds is not handed out: a caller that finds it, with
    the build slot free, closes it, revokes the session's token, and ends up
    holding a new entry, with the token issued last, that is cached. *)
Theorem stale_entry_rebuilt (g : shared St) (i : input) (t e : nat)
  (Hc : cached g = Some e) (Hh : is_Some (heap g !! e)) (Hfree : slot g = None)
  (Hst : stale (entry_at g e) = true) (Href : refcount (entry_at g e) = 0)
  (Hiss : issues = true) (Hk : sessionKey ≠ "") :
  let issued := ti_issue (ti_revoke (issuer g) sessionKey) (in_gen i) agent sessionKey archiveDir in
  ∃ g' e', solo 12 i t g GLoad = Some (g', Holding e') ∧ e' ≠ e ∧
    closed (entry_at g' e) = true ∧ cached g' = Some e' ∧ slot g' = None ∧ issuer g' = issued.1 ∧
    entry_at g' e' = newEntry issued.2 (in_now i).
Proof.
  cbv zeta. destruct (ti_issue _ _ _ _ _) as [s tok] eqn:Hissue.
  set (g1 := upd (set_issuer (set_cached (take_slot g t) None) (ti_revoke (issuer g) sessionKey))
    e set_closed).
  assert (Hne : alloc g1 ≠ e).
  { intros Heq. apply (is_fresh (dom (heap g1) : gset nat)). unfold alloc in Heq. rewrite Heq.
    apply elem_of_dom. unfold g1. simpl. by rewrite lookup_insert_eq. }
  exists (free_slot (set_cached (set_entry (set_issuer g1 s) (alloc g1) (newEntry tok (in_now i)))
    (Some (alloc g1)))), (alloc g1). split_and!; try done.
  - cbn -[alloc]. rewrite Hc. cbn -[alloc]. rewrite Hst. cbn -[alloc]. rewrite Hfree.
    cbn -[alloc]. rewrite Hc. cbn -[alloc].
    change (entry_at (take_slot g t) e) with (entry_at g e). rewrite Hst. cbn -[alloc].
    change (entry_at (take_slot g t) e) with (entry_at g e). rewrite Href. cbn -[alloc].
    rewrite bool_decide_eq_false_2 by done. cbn -[alloc]. rewrite Hiss. cbn -[alloc].
    rewrite Hissue. reflexivity.
  - unfold entry_at. cbn -[alloc]. rewrite lookup_insert_ne by done. unfold g1. simpl.
    by rewrite lookup_insert_eq.
  - unfold entry_at. cbn -[alloc]. by rewrite lookup_insert_eq.
Qed.

End machine.

(** ** Witnesses

    One agent whose tokens come from the store of SessionTokens: a caller builds
    and holds the session while a second thread tries to evict it. *)

#[local] Existing Instance ex_sha.
#[local] Instance ex_issuer : TokenIssuer SessionTokenStore := store_issuer (λ _, "bob").
#[local] Instance ex_issuer_laws : TokenIssuerLaws SessionTokenStore :=
  store_issuer_laws (λ _, "bob").

Notation ex_step := (thread_step "bob" "agent:bob:main" "/d" true 0).
Notation ex_steps := (step "bob" "agent:bob:main" "/d" true 0).
Notation ex_reachable := (reachable "bob" "agent:bob:main" "/d" true 0).

Definition ex_in (op : operation) : input := {| in_op := op; in_now := 5; in_gen := None |}.
Definition ex_gen : input := {| in_op := GetContext; in_now := 5; in_gen := Some "SST1" |}.

(** A schedule of threads, each told what to start when idle. *)
Fixpoint run_schedule (sched : list (nat * operation)) (st : state (St := SessionTokenStore))
    : option state :=
  match sched with
  | [] => Some st
  | (t, op) :: sched' =>
    match st_threads st !! t with
    | None => None
    | Some p =>
      match ex_step (ex_in op) t (st_shared st) p with
      | None => None
      | Some (g', p') =>
        run_schedule sched' {| st_shared := g'; st_threads := <[t := p']> (st_threads st) |}
      end
    end
  end.

Lemma run_schedule_steps sched st st' :
  run_schedule sched st = Some st' → rtc ex_steps st st'.
Proof.
  revert st. induction sched as [|[t op] sched IH]; intros st; simpl; [by intros [= ->]|].
  destruct (st_threads st !! t) as [p|] eqn:Hp; [|done].
  destruct (ex_step _ _ _ _) as [[g' p']|] eqn:Hs; [|done]. intros Hrun%IH.
  eapply rtc_l; [|exact Hrun]. apply (step_thread _ _ _ _ _ st t p (ex_in op)); try done.
Qed.

Definition ex_two : state (St := SessionTokenStore) :=
  {| st_shared := st_shared (initial newSessionTokenStore);
     st_threads := <[1%nat := Idle]> (<[0%nat := Idle]> ∅) |}.

Definition ex_before_issue : state :=
  default ex_two (run_schedule (repeat (0%nat, GetContext) 4) ex_two).

Definition ex_after_issue : state :=
  match ex_step ex_gen 0 (st_shared ex_before_issue) BIssue with
  | Some (g, p) => {| st_shared := g; st_threads := <[0%nat := p]> (st_threads ex_before_issue) |}
  | None => ex_two
  end.

(** Thread 0 holds the entry; thread 1 has marked it stale. *)
Definition ex_held : state :=
  default ex_two
    (run_schedule (repeat (0%nat, GetContext) 2 ++ repeat (1%nat, Invalidate) 3) ex_after_issue).

Lemma ex_held_reachable : ex_reachable ex_held.
Proof.
  exists newSessionTokenStore. split; [apply new_store_inv|].
  eapply rtc_l; [by apply (step_spawn _ _ _ _ _ _ 0)|].
  eapply rtc_l; [by apply (step_spawn _ _ _ _ _ _ 1)|].
  transitivity ex_before_issue; [by apply (run_schedule_steps (repeat (0%nat, GetContext) 4))|].
  transitivity ex_after_issue.
  - apply rtc_once, (step_thread _ _ _ _ _ ex_before_issue 0 BIssue ex_gen); [done| |done].
    by intros tok _.
  - by apply (run_schedule_steps (repeat (0%nat, GetContext) 2 ++ repeat (1%nat, Invalidate) 3)).
Qed.

Lemma held_entry_safe_witness :
  let g := st_shared ex_held in
  cached g = Some 0%nat ∧ closed (entry_at g 0) = false ∧ 0 < refcount (entry_at g 0) ∧
  (token (entry_at g 0) ≠ "" →
   ∃ r, Resolve (issuer g) (token (entry_at g 0)) = Some r ∧
     SessionTokens.sessionKey r = "agent:bob:main").
Proof.
  refine (held_entry_safe "bob" "agent:bob:main" "/d" true 0 _ ex_held 0 0 _ _).
  - reflexivity.
  - apply ex_held_reachable.
  - vm_compute. reflexivity.
Defined.

Lemma open_entries_accounted_witness :
  (cached (st_shared ex_held) = Some 0%nat ∨
   ∃ t k, st_threads ex_held !! t = Some (ERevoke k 0) ∨ st_threads ex_held !! t = Some (EClose k 0)) ∧
  ((∀ t p, st_threads ex_held !! t = Some p → p = Idle ∨ ∃ e', p = Holding e') →
   cached (st_shared ex_held) = Some 0%nat ∧
   refcount (entry_at (st_shared ex_held) 0) =
     Z.of_nat (size (filter (λ x, x.2 = Holding 0) (st_threads ex_held)))).
Proof.
  apply (open_entries_accounted "bob" "agent:bob:main" "/d" true 0).
  - reflexivity.
  - apply ex_held_reachable.
  - vm_compute. eauto.
  - vm_compute. reflexivity.
Defined.

(** Thread 1 waits for the build thread 0 is in. *)
Definition ex_waiting : state :=
  default ex_two (run_schedule (repeat (1%nat, GetContext) 3) ex_before_issue).

Lemma ex_waiting_reachable : ex_reachable ex_waiting.
Proof.
  exists newSessionTokenStore. split; [apply new_store_inv|].
  eapply rtc_l; [by apply (step_spawn _ _ _ _ _ _ 0)|].
  eapply rtc_l; [by apply (step_spawn _ _ _ _ _ _ 1)|].
  transitivity ex_before_issue; [by apply (run_schedule_steps (repeat (0%nat, GetContext) 4))|].
  by apply (run_schedule_steps (repeat (1%nat, GetContext) 3)).
Qed.

Lemma build_slot_progress_witness :
  GWait 0 = Idle ∨
  ∃ t' p', t' ≠ 1%nat ∧ st_threads ex_waiting !! t' = Some p' ∧ (rank p' ≤ 12)%nat ∧
    ∀ i', ∃ g'' p'', ex_step i' t' (st_shared ex_waiting) p' = Some (g'', p'') ∧
      (in_slot p'' = false ∨ (rank p'' < rank p')%nat).
Proof.
  apply (build_slot_progress "bob" "agent:bob:main" "/d" true 0) with (i := ex_gen).
  - reflexivity.
  - apply ex_waiting_reachable.
  - vm_compute. reflexivity.
  - vm_compute. reflexivity.
Defined.

(** The state of [ex_held] after its holder let go. *)
Definition ex_stale : shared SessionTokenStore :=
  upd (st_shared ex_held) 0 (add_ref (-1)).

Lemma stale_entry_rebuilt_witness :
  let issued := ti_issue (ti_revoke (issuer ex_stale) "agent:bob:main") (in_gen ex_gen) "bob"
    "agent:bob:main" "/d" in
  ∃ g' e', solo "bob" "agent:bob:main" "/d" true 0 12 ex_gen 0 ex_stale GLoad = Some (g', Holding e') ∧
    e' ≠ 0%nat ∧ closed (entry_at g' 0) = true ∧ cached g' = Some e' ∧ slot g' = None ∧
    issuer g' = issued.1 ∧ entry_at g' e' = newEntry issued.2 (in_now ex_gen).
Proof.
  apply (stale_entry_rebuilt "bob" "agent:bob:main" "/d" true 0 ex_stale ex_gen 0 0); try (vm_compute; reflexivity); try discriminate.
  vm_compute. eauto.
Defined.
