(* ===== verification/Cron.v ===== *)
(** * The scheduler (cron/service.go)

    The job store with its file, the due check that runs every second, the
    execution of a job around its handler, and the calls that add, change and
    remove jobs. Times are milliseconds since the epoch. The handler runs with
    the store unlocked, so the execution of a job is two steps with any calls
    between them. The file shows which jobs a check starts, how often a job can
    start whatever the interleaving, and that saving and loading lose nothing.

    The file's contents are the decoded JSON. The cron-expression library, the
    JSON encoding a fingerprint hashes and the digest are parameters. *)

From stdpp Require Import base gmap strings list sorting.
From Stdlib Require Import ZArith Lia.
From S2P Require Import Prelude.

Open Scope string_scope.
Open Scope list_scope.
Open Scope Z_scope.

(** ** Data *)

Definition KindListen : string := "listen".

Record CronSchedule := {
  Kind : string;
  AtMS : option Z;
  EveryMS : option Z;
  Expr : string;
  TZ : string
}.

(** [w_Args] is the encoded parameter object. *)
Record CronWatch := {
  w_Tool : string;
  w_Args : string;
  w_Fields : list string;
  w_TimeoutSec : Z;
  w_SuppressRepeats : bool
}.

Record CronPayload := {
  Mode : string;
  Message : string;
  Command : string;
  p_Channel : string;
  p_To : string;
  PeerKind : string;
  Watch : option CronWatch
}.

Record CronJobState := {
  NextRunAtMS : option Z;
  LastRunAtMS : option Z;
  LastStatus : string;
  LastError : string;
  WatchDigest : string;
  WatchFailures : Z
}.

Record CronJob := {
  ID : string;
  Name : string;
  j_AgentID : string;
  Enabled : bool;
  Schedule : CronSchedule;
  Payload : CronPayload;
  State : CronJobState;
  CreatedAtMS : Z;
  UpdatedAtMS : Z;
  DeleteAfterRun : bool;
  Fingerprint : string
}.

(** A job as the file has it: the payload with the two fields of earlier
    releases. *)
Record RawJob := {
  raw_job : CronJob;
  raw_deliver : bool;
  raw_kind : string
}.

(** ** Parameters *)

Class CronEnv := {
  (** [gronx.NextTickAfter] with the current tick excluded. *)
  NextTickAfter : string → Z → option Z;
  (** The first eight hex digits of the digest of the encoded definition. *)
  definition_digest : CronSchedule → CronPayload → string
}.

(** ** The service *)

(** The store file: absent, not readable, not decodable, or a version and jobs. *)
Inductive store_file :=
| NoFile
| Unreadable
| Malformed
| Stored (version : Z) (jobs : list RawJob).

(** [cs_file] and [cs_file_mtime] are the file on disk, which other processes
    change too; [cs_alerts] are the alerts sent, with their event ids. *)
Record CronService := {
  cs_version : Z;
  cs_jobs : list CronJob;
  cs_running : bool;
  cs_fileModTime : Z;
  cs_alerter : bool;
  cs_alerts : list (string * string);
  cs_loadErr : bool;
  cs_file : store_file;
  cs_file_mtime : option Z
}.

Definition with_jobs (cs : CronService) (jobs : list CronJob) : CronService :=
  {| cs_version := cs_version cs; cs_jobs := jobs; cs_running := cs_running cs;
     cs_fileModTime := cs_fileModTime cs; cs_alerter := cs_alerter cs; cs_alerts := cs_alerts cs;
     cs_loadErr := cs_loadErr cs; cs_file := cs_file cs; cs_file_mtime := cs_file_mtime cs |}.

Definition with_running (cs : CronService) (b : bool) : CronService :=
  {| cs_version := cs_version cs; cs_jobs := cs_jobs cs; cs_running := b;
     cs_fileModTime := cs_fileModTime cs; cs_alerter := cs_alerter cs; cs_alerts := cs_alerts cs;
     cs_loadErr := cs_loadErr cs; cs_file := cs_file cs; cs_file_mtime := cs_file_mtime cs |}.

Definition send_alert (cs : CronService) (title event : string) : CronService :=
  if negb (cs_alerter cs) then cs
  else {| cs_version := cs_version cs; cs_jobs := cs_jobs cs; cs_running := cs_running cs;
     cs_fileModTime := cs_fileModTime cs; cs_alerter := cs_alerter cs;
     cs_alerts := cs_alerts cs ++ [(title, event)];
     cs_loadErr := cs_loadErr cs; cs_file := cs_file cs; cs_file_mtime := cs_file_mtime cs |}.

Definition SetAlerter (cs : CronService) : CronService :=
  {| cs_version := cs_version cs; cs_jobs := cs_jobs cs; cs_running := cs_running cs;
     cs_fileModTime := cs_fileModTime cs; cs_alerter := true; cs_alerts := cs_alerts cs;
     cs_loadErr := cs_loadErr cs; cs_file := cs_file cs; cs_file_mtime := cs_file_mtime cs |}.

Definition alertSaveFailed (cs : CronService) : CronService :=
  send_alert cs "Cron store not saved" "cron-store".

(** [os.Stat] of the file, in [loadStore] and [saveStoreUnsafe]. *)
Definition stat_modtime (cs : CronService) : CronService :=
  match cs_file_mtime cs with
  | None => cs
  | Some m =>
    {| cs_version := cs_version cs; cs_jobs := cs_jobs cs; cs_running := cs_running cs;
       cs_fileModTime := m; cs_alerter := cs_alerter cs; cs_alerts := cs_alerts cs;
       cs_loadErr := cs_loadErr cs; cs_file := cs_file cs; cs_file_mtime := cs_file_mtime cs |}
  end.

Definition with_store (cs : CronService) (version : Z) (jobs : list CronJob) : CronService :=
  {| cs_version := version; cs_jobs := jobs; cs_running := cs_running cs;
     cs_fileModTime := cs_fileModTime cs; cs_alerter := cs_alerter cs; cs_alerts := cs_alerts cs;
     cs_loadErr := cs_loadErr cs; cs_file := cs_file cs; cs_file_mtime := cs_file_mtime cs |}.

(** How a write of the file ends: it fails, or it succeeds and the file gets a
    modification time. *)
Inductive write_result := WriteFailed | Wrote (mtime : Z).

Definition to_raw (j : CronJob) : RawJob :=
  {| raw_job := j; raw_deliver := false; raw_kind := "" |}.

(** [saveStoreUnsafe]; the boolean is success. *)
Definition saveStoreUnsafe (cs : CronService) (w : write_result) : CronService * bool :=
  match w with
  | WriteFailed => (cs, false)
  | Wrote m =>
    (stat_modtime
      {| cs_version := cs_version cs; cs_jobs := cs_jobs cs; cs_running := cs_running cs;
         cs_fileModTime := cs_fileModTime cs; cs_alerter := cs_alerter cs;
         cs_alerts := cs_alerts cs; cs_loadErr := cs_loadErr cs;
         cs_file := Stored (cs_version cs) (map to_raw (cs_jobs cs)); cs_file_mtime := Some m |},
     true)
  end.

Section cron.
Context `{CronEnv}.

Definition cronFingerprint (s : CronSchedule) (p : CronPayload) : string := definition_digest s p.

Definition computeNextRun (s : CronSchedule) (nowMS : Z) : option Z :=
  if bool_decide (Kind s = "at") then
    match AtMS s with
    | Some t => if nowMS <? t then Some t else None
    | None => None
    end
  else if bool_decide (Kind s = "every") then
    match EveryMS s with
    | None => None
    | Some every => if every <=? 0 then None else Some (wrap64 (nowMS + every))
    end
  else if bool_decide (Kind s = "cron") then
    if bool_decide (Expr s = "") then None else NextTickAfter (Expr s) nowMS
  else None.

Definition set_state (j : CronJob) (st : CronJobState) : CronJob :=
  {| ID := ID j; Name := Name j; j_AgentID := j_AgentID j; Enabled := Enabled j;
     Schedule := Schedule j; Payload := Payload j; State := st; CreatedAtMS := CreatedAtMS j;
     UpdatedAtMS := UpdatedAtMS j; DeleteAfterRun := DeleteAfterRun j;
     Fingerprint := Fingerprint j |}.

Definition set_next (j : CronJob) (next : option Z) : CronJob :=
  set_state j
    {| NextRunAtMS := next; LastRunAtMS := LastRunAtMS (State j); LastStatus := LastStatus (State j);
       LastError := LastError (State j); WatchDigest := WatchDigest (State j);
       WatchFailures := WatchFailures (State j) |}.

Definition set_enabled (j : CronJob) (b : bool) : CronJob :=
  {| ID := ID j; Name := Name j; j_AgentID := j_AgentID j; Enabled := b;
     Schedule := Schedule j; Payload := Payload j; State := State j; CreatedAtMS := CreatedAtMS j;
     UpdatedAtMS := UpdatedAtMS j; DeleteAfterRun := DeleteAfterRun j;
     Fingerprint := Fingerprint j |}.

Definition set_updated (j : CronJob) (now : Z) : CronJob :=
  {| ID := ID j; Name := Name j; j_AgentID := j_AgentID j; Enabled := Enabled j;
     Schedule := Schedule j; Payload := Payload j; State := State j; CreatedAtMS := CreatedAtMS j;
     UpdatedAtMS := now; DeleteAfterRun := DeleteAfterRun j; Fingerprint := Fingerprint j |}.

Definition set_payload (j : CronJob) (p : CronPayload) : CronJob :=
  {| ID := ID j; Name := Name j; j_AgentID := j_AgentID j; Enabled := Enabled j;
     Schedule := Schedule j; Payload := p; State := State j; CreatedAtMS := CreatedAtMS j;
     UpdatedAtMS := UpdatedAtMS j; DeleteAfterRun := DeleteAfterRun j;
     Fingerprint := Fingerprint j |}.

Definition set_fingerprint (j : CronJob) (fp : string) : CronJob :=
  {| ID := ID j; Name := Name j; j_AgentID := j_AgentID j; Enabled := Enabled j;
     Schedule := Schedule j; Payload := Payload j; State := State j; CreatedAtMS := CreatedAtMS j;
     UpdatedAtMS := UpdatedAtMS j; DeleteAfterRun := DeleteAfterRun j; Fingerprint := fp |}.

(** *** Loading *)

Definition migrate_payload (r : RawJob) : CronPayload :=
  let p := Payload (raw_job r) in
  {| Mode := if bool_decide (Mode p = "") then
               if negb (bool_decide (Command p = "")) then "command"
               else if raw_deliver r then "deliver" else "agent"
             else Mode p;
     Message := Message p; Command := Command p; p_Channel := p_Channel p; p_To := p_To p;
     PeerKind := if bool_decide (PeerKind p = "") then "channel" else PeerKind p;
     Watch := Watch p |}.

Definition load_job (r : RawJob) : CronJob :=
  let job := set_payload (raw_job r) (migrate_payload r) in
  if bool_decide (Fingerprint job = "")
  then set_fingerprint job (cronFingerprint (Schedule job) (Payload job))
  else job.

(** [loadStore]; the boolean is success. *)
Definition loadStore (cs : CronService) : CronService * bool :=
  let cs := with_store cs 1 [] in
  match cs_file cs with
  | NoFile => (cs, true)
  | Unreadable | Malformed => (cs, false)
  | Stored version jobs => (stat_modtime (with_store cs version (map load_job jobs)), true)
  end.

Definition Load (cs : CronService) : CronService * bool := loadStore cs.

Definition NewCronService (file : store_file) (mtime : option Z) : CronService :=
  let '(cs, ok) := loadStore
    {| cs_version := 1; cs_jobs := []; cs_running := false; cs_fileModTime := GoTime.zero_time;
       cs_alerter := false; cs_alerts := []; cs_loadErr := false; cs_file := file;
       cs_file_mtime := mtime |} in
  {| cs_version := cs_version cs; cs_jobs := cs_jobs cs; cs_running := cs_running cs;
     cs_fileModTime := cs_fileModTime cs; cs_alerter := cs_alerter cs; cs_alerts := cs_alerts cs;
     cs_loadErr := negb ok; cs_file := cs_file cs; cs_file_mtime := cs_file_mtime cs |}.

Definition recompute_job (now : Z) (j : CronJob) : CronJob :=
  if Enabled j then set_next j (computeNextRun (Schedule j) now) else j.

Definition recomputeNextRuns (cs : CronService) (now : Z) : CronService :=
  with_jobs cs (map (recompute_job now) (cs_jobs cs)).

Definition Start (cs : CronService) (now : Z) (w : write_result) : CronService * bool :=
  if cs_running cs then (cs, true)
  else
    let '(cs, ok) := loadStore cs in
    if negb ok then (cs, false)
    else
      let '(cs, ok) := saveStoreUnsafe (recomputeNextRuns cs now) w in
      if negb ok then (cs, false) else (with_running cs true, true).

Definition Stop (cs : CronService) : CronService := with_running cs false.

(** *** The due check *)

Definition is_due (now : Z) (j : CronJob) : bool :=
  Enabled j && match NextRunAtMS (State j) with Some t => t <=? now | None => false end.

(** The reload when the file is newer than the last load or save. *)
Definition reload_if_newer (cs : CronService) : CronService :=
  match cs_file_mtime cs with
  | Some m =>
    if cs_fileModTime cs <? m then
      let '(cs', ok) := loadStore cs in
      if ok then cs' else with_store cs' (cs_version cs) (cs_jobs cs)
    else cs
  | None => cs
  end.

(** [checkJobs] up to its unlock; the ids are the jobs it then executes. *)
Definition checkJobs (cs : CronService) (now : Z) (w : write_result) : CronService * list string :=
  if negb (cs_running cs) then (cs, [])
  else
    let cs := reload_if_newer cs in
    let due := map ID (keep (is_due now) (cs_jobs cs)) in
    match due with
    | [] => (cs, [])
    | _ =>
      let jobs := map (λ j, if bool_decide (ID j ∈ due) then set_next j None else j) (cs_jobs cs) in
      let '(cs, ok) := saveStoreUnsafe (with_jobs cs jobs) w in
      (if ok then cs else alertSaveFailed cs, due)
    end.

(** *** Executing a job *)

Definition find_job (cs : CronService) (id : string) : option CronJob :=
  find_first (λ j, bool_decide (ID j = id)) (cs_jobs cs).

(** The first job with an id is the one a loop with a [break] or [return]
    updates. *)
Fixpoint update_first (id : string) (f : CronJob → CronJob) (jobs : list CronJob) : list CronJob :=
  match jobs with
  | [] => []
  | j :: jobs' =>
    if bool_decide (ID j = id) then f j :: jobs' else j :: update_first id f jobs'
  end.

Definition remove_jobs (id : string) (jobs : list CronJob) : list CronJob :=
  keep (λ j, negb (bool_decide (ID j = id))) jobs.

(** [removeJobUnsafe]; the results are whether a job was removed and whether the
    write succeeded. *)
Definition removeJobUnsafe (cs : CronService) (id : string) (w : write_result)
    : CronService * bool * bool :=
  let jobs := remove_jobs id (cs_jobs cs) in
  let removed := Z.of_nat (length jobs) <? Z.of_nat (length (cs_jobs cs)) in
  let cs := with_jobs cs jobs in
  if removed then let '(cs, ok) := saveStoreUnsafe cs w in (cs, true, ok)
  else (cs, false, true).

Definition RemoveJob := removeJobUnsafe.

(** The status a finished run leaves. *)
Definition finished (startTime now : Z) (err : option string) (j : CronJob) : CronJob :=
  set_updated (set_state j
    {| NextRunAtMS := NextRunAtMS (State j); LastRunAtMS := Some startTime;
       LastStatus := if err is Some _ then "error" else "ok";
       LastError := default "" err; WatchDigest := WatchDigest (State j);
       WatchFailures := WatchFailures (State j) |}) now.

(** [executeJobByID] after the handler returned: [err] is the handler's error,
    [now] and [now'] the clock when the run is recorded and when the next one is
    computed. The job itself was copied before the handler ran. *)
Definition finishJob (cs : CronService) (id : string) (startTime now now' : Z)
    (err : option string) (w1 w2 : write_result) : CronService :=
  match find_job cs id with
  | None => cs
  | Some job =>
    let cs := if err is Some _ then send_alert cs "Scheduled job failed" (ID job) else cs in
    let cs := with_jobs cs (update_first id (finished startTime now err) (cs_jobs cs)) in
    let cs :=
      if bool_decide (Kind (Schedule job) = "at") then
        if DeleteAfterRun job then (removeJobUnsafe cs (ID job) w1).1.1
        else with_jobs cs
          (update_first id (λ j, set_next (set_enabled j false) None) (cs_jobs cs))
      else with_jobs cs
        (update_first id (λ j, set_next j (computeNextRun (Schedule job) now')) (cs_jobs cs)) in
    let '(cs, ok) := saveStoreUnsafe cs w2 in
    if ok then cs else alertSaveFailed cs
  end.

(** *** Calls *)

Definition AddJob (cs : CronService) (id : string) (now : Z) (name : string)
    (schedule : CronSchedule) (message mode channel to peerKind : string) (w : write_result)
    : CronService * option CronJob :=
  let mode := if bool_decide (mode = "") then "agent" else mode in
  let peerKind := if bool_decide (peerKind = "") then "channel" else peerKind in
  let payload := {| Mode := mode; Message := message; Command := ""; p_Channel := channel;
                    p_To := to; PeerKind := peerKind; Watch := None |} in
  let job :=
    {| ID := id; Name := name; j_AgentID := ""; Enabled := true; Schedule := schedule;
       Payload := payload;
       State := {| NextRunAtMS := computeNextRun schedule now; LastRunAtMS := None;
                   LastStatus := ""; LastError := ""; WatchDigest := ""; WatchFailures := 0 |};
       CreatedAtMS := now; UpdatedAtMS := now;
       DeleteAfterRun := bool_decide (Kind schedule = "at");
       Fingerprint := cronFingerprint schedule payload |} in
  let '(cs, ok) := saveStoreUnsafe (with_jobs cs (cs_jobs cs ++ [job])) w in
  (cs, if ok then Some job else None).

(** The result is [None] when there is no such job, and otherwise whether the
    write succeeded. *)
Definition UpdateJob (cs : CronService) (job : CronJob) (now : Z) (w : write_result)
    : CronService * option bool :=
  match find_job cs (ID job) with
  | None => (cs, None)
  | Some _ =>
    let job' := set_fingerprint (set_updated job now) (cronFingerprint (Schedule job) (Payload job)) in
    let '(cs, ok) :=
      saveStoreUnsafe (with_jobs cs (update_first (ID job) (λ _, job') (cs_jobs cs))) w in
    (cs, Some ok)
  end.

Definition enable_job (enabled : bool) (now now' : Z) (j : CronJob) : CronJob :=
  let j := set_updated (set_enabled j enabled) now in
  set_next j (if enabled then computeNextRun (Schedule j) now' else None).

Definition EnableJob (cs : CronService) (id : string) (enabled : bool) (now now' : Z) (w : write_result)
    : CronService * option (CronJob * bool) :=
  match find_job cs id with
  | None => (cs, None)
  | Some j =>
    let '(cs, ok) :=
      saveStoreUnsafe (with_jobs cs (update_first id (enable_job enabled now now') (cs_jobs cs))) w in
    (cs, Some (enable_job enabled now now' j, ok))
  end.

Definition watch_state (digest : string) (failures : Z) (j : CronJob) : CronJob :=
  set_state j
    {| NextRunAtMS := NextRunAtMS (State j); LastRunAtMS := LastRunAtMS (State j);
       LastStatus := LastStatus (State j); LastError := LastError (State j);
       WatchDigest := digest; WatchFailures := failures |}.

Definition UpdateWatchState (cs : CronService) (id digest : string) (failures : Z)
    (w : write_result) : CronService * option bool :=
  match find_job cs id with
  | None => (cs, None)
  | Some _ =>
    let '(cs, ok) :=
      saveStoreUnsafe (with_jobs cs (update_first id (watch_state digest failures) (cs_jobs cs))) w in
    (cs, Some ok)
  end.

Definition ListJobs (cs : CronService) (includeDisabled : bool) : list CronJob :=
  if includeDisabled then cs_jobs cs else keep Enabled (cs_jobs cs).

Fixpoint next_wake (jobs : list CronJob) (wake : option Z) : option Z :=
  match jobs with
  | [] => wake
  | j :: jobs' =>
    next_wake jobs'
      (match (if Enabled j then NextRunAtMS (State j) else None) with
       | None => wake
       | Some t => match wake with
                   | None => Some t
                   | Some u => if t <? u then Some t else wake
                   end
       end)
  end.

Definition getNextWakeMS (cs : CronService) : option Z := next_wake (cs_jobs cs) None.

(** [Status]: running, the number of jobs, the next wake. *)
Definition Status (cs : CronService) : bool * Z * option Z :=
  (cs_running cs, Z.of_nat (length (cs_jobs cs)), getNextWakeMS cs).

(** ** Lemmas *)

Lemma stat_modtime_jobs cs :
  cs_jobs (stat_modtime cs) = cs_jobs cs ∧ cs_running (stat_modtime cs) = cs_running cs ∧
  cs_file (stat_modtime cs) = cs_file cs ∧ cs_version (stat_modtime cs) = cs_version cs ∧
  cs_file_mtime (stat_modtime cs) = cs_file_mtime cs.
Proof. unfold stat_modtime. by destruct (cs_file_mtime cs) eqn:E. Qed.

Lemma saveStoreUnsafe_jobs cs w :
  cs_jobs (saveStoreUnsafe cs w).1 = cs_jobs cs ∧
  cs_running (saveStoreUnsafe cs w).1 = cs_running cs.
Proof. by destruct w. Qed.

Lemma send_alert_jobs cs title event :
  cs_jobs (send_alert cs title event) = cs_jobs cs ∧
  cs_running (send_alert cs title event) = cs_running cs ∧
  cs_fileModTime (send_alert cs title event) = cs_fileModTime cs ∧
  cs_file_mtime (send_alert cs title event) = cs_file_mtime cs.
Proof. unfold send_alert. by case_if. Qed.

(** The file is not newer than the store: only this process writes it. *)
Definition in_sync cs : Prop :=
  match cs_file_mtime cs with Some m => m ≤ cs_fileModTime cs | None => True end.

Lemma in_sync_no_reload cs : in_sync cs → reload_if_newer cs = cs.
Proof.
  unfold in_sync, reload_if_newer. destruct (cs_file_mtime cs) as [m|]; [|done].
  intros Hm. by rewrite (proj2 (Z.ltb_ge _ _)).
Qed.

Lemma saveStoreUnsafe_sync cs w : in_sync cs → in_sync (saveStoreUnsafe cs w).1.
Proof. destruct w as [|m]; [done|]. intros _. unfold in_sync. simpl. lia. Qed.

Lemma send_alert_sync cs title event : in_sync cs → in_sync (send_alert cs title event).
Proof.
  destruct (send_alert_jobs cs title event) as (_ & _ & Hf & Hm). unfold in_sync. by rewrite Hf, Hm.
Qed.

(** The save at the end of a call that reports a failure to the alerter. *)
Lemma save_alert_jobs cs w :
  let '(cs', ok) := saveStoreUnsafe cs w in
  cs_jobs (if ok then cs' else alertSaveFailed cs') = cs_jobs cs ∧
  cs_running (if ok then cs' else alertSaveFailed cs') = cs_running cs ∧
  (in_sync cs → in_sync (if ok then cs' else alertSaveFailed cs')).
Proof.
  destruct w as [|m]; simpl; unfold alertSaveFailed.
  - destruct (send_alert_jobs cs "Cron store not saved" "cron-store") as (-> & -> & _).
    split_and!; try done. apply send_alert_sync.
  - split_and!; try done. intros _. unfold in_sync. simpl. lia.
Qed.

Lemma update_first_ID id f jobs :
  (∀ j, ID j = id → ID (f j) = ID j) → map ID (update_first id f jobs) = map ID jobs.
Proof.
  intros Hf. induction jobs as [|j jobs IH]; simpl; [done|].
  case_bool_decide; simpl; [by rewrite Hf|by rewrite IH].
Qed.

Lemma update_first_Forall (P : CronJob → Prop) id f jobs :
  Forall P jobs → (∀ j, j ∈ jobs → ID j = id → P (f j)) → Forall P (update_first id f jobs).
Proof.
  intros HP Hf. induction HP as [|j jobs Hj HP IH]; simpl; [done|].
  case_bool_decide as Hid; constructor; auto.
  - apply Hf; [left|done].
  - apply IH. intros j' Hj'. apply Hf. by right.
Qed.

Lemma find_job_Some cs id j : find_job cs id = Some j → j ∈ cs_jobs cs ∧ ID j = id.
Proof.
  unfold find_job. intros (l1 & l2 & -> & Hj & _)%find_first_Some. split; [set_solver|].
  by apply bool_decide_eq_true in Hj.
Qed.

(** ** The due check *)

Lemma ids_due now jobs j :
  NoDup (map ID jobs) → j ∈ jobs → (ID j ∈ map ID (keep (is_due now) jobs) ↔ is_due now j = true).
Proof.
  intros Hn Hj. split.
  - intros (j' & Hid & [Hj' Hd]%elem_of_keep)%list_elem_of_fmap.
    assert (j = j') as ->; [|done].
    apply list_elem_of_lookup in Hj as [a Ha], Hj' as [b Hb].
    assert (a = b) as ->; [|congruence].
    apply (NoDup_lookup _ a b (ID j) Hn); change (map ID) with (fmap (M:=list) ID);
      rewrite list_lookup_fmap; [by rewrite Ha|]. rewrite Hb. simpl. by rewrite Hid.
  - intros Hd. apply list_elem_of_fmap. exists j. split; [done|]. by apply elem_of_keep.
Qed.

Definition collected (now : Z) (j : CronJob) : CronJob :=
  if is_due now j then set_next j None else j.

Lemma checkJobs_jobs cs now w :
  cs_running cs = true → in_sync cs → NoDup (map ID (cs_jobs cs)) →
  (checkJobs cs now w).2 = map ID (keep (is_due now) (cs_jobs cs)) ∧
  cs_jobs (checkJobs cs now w).1 = map (collected now) (cs_jobs cs) ∧
  (keep (is_due now) (cs_jobs cs) = [] → (checkJobs cs now w).1 = cs) ∧
  in_sync (checkJobs cs now w).1 ∧ cs_running (checkJobs cs now w).1 = true.
Proof.
  intros Hr Hs Hn. unfold checkJobs. rewrite Hr. simpl. rewrite in_sync_no_reload by done.
  assert (Hmap : map (λ j, if bool_decide (ID j ∈ map ID (keep (is_due now) (cs_jobs cs)))
      then set_next j None else j) (cs_jobs cs) = map (collected now) (cs_jobs cs)).
  { apply map_ext_in. intros j Hj%list_elem_of_In. unfold collected.
    pose proof (ids_due now _ j Hn Hj) as Hd. case_bool_decide as Hb.
    - by rewrite (proj1 Hd Hb).
    - destruct (is_due now j); [|done]. destruct Hb. by apply Hd. }
  destruct (map ID (keep (is_due now) (cs_jobs cs))) as [|i due] eqn:Hdue.
  - simpl. apply map_eq_nil in Hdue. split_and!; try done.
    rewrite <- (map_id (cs_jobs cs)) at 1. apply map_ext_in. intros j Hj%list_elem_of_In.
    unfold collected. destruct (is_due now j) eqn:Hd; [|done].
    assert (Hk : j ∈ keep (is_due now) (cs_jobs cs)) by (by apply elem_of_keep).
    rewrite Hdue in Hk. by apply elem_of_nil in Hk.
  - pose proof (save_alert_jobs (with_jobs cs (map (collected now) (cs_jobs cs))) w) as Hsave.
    rewrite Hmap. destruct (saveStoreUnsafe _ w) as [cs' ok]. destruct Hsave as (Hj & Hrun & Hsy).
    simpl. split_and!; [done|by rewrite Hj| |by apply Hsy|by rewrite Hrun].
    intros Hk. by rewrite Hk in Hdue.
Qed.

(** The due check of a running service, whose file nobody else changed,
    starts exactly the enabled jobs whose next run has come, each once and in
    store order; afterwards none of them is due, so a second check does not
    start them again; nothing else of any job changes; and when nothing is due
    nothing is written. *)
Theorem checkJobs_due cs now w
  (Hr : cs_running cs = true) (Hs : in_sync cs) (Hn : NoDup (map ID (cs_jobs cs))) :
  let '(cs', due) := checkJobs cs now w in
  due = map ID (keep (λ j, Enabled j && match NextRunAtMS (State j) with
                                        | Some t => t <=? now | None => false end) (cs_jobs cs)) ∧
  NoDup due ∧
  (∀ now' w', now' ≤ now → (checkJobs cs' now' w').2 = []) ∧
  cs_jobs cs' = map (λ j, if bool_decide (ID j ∈ due) then set_next j None else j) (cs_jobs cs) ∧
  (due = [] → cs' = cs).
Proof.
  destruct (checkJobs_jobs cs now w Hr Hs Hn) as (Hd & Hj & Hnil & Hsy & Hrun).
  destruct (checkJobs cs now w) as [cs' due]. simpl in *. subst due. split_and!.
  - done.
  - eapply sublist_NoDup; [exact Hn|]. apply fmap_sublist, keep_sublist.
  - intros now' w' Hle.
    assert (Hn' : NoDup (map ID (cs_jobs cs'))).
    { rewrite Hj, map_map. erewrite map_ext; [exact Hn|].
      intros j. unfold collected. by case_if. }
    destruct (checkJobs_jobs cs' now' w' Hrun Hsy Hn') as (-> & _).
    assert (keep (is_due now') (cs_jobs cs') = []) as ->; [|done].
    rewrite Hj. generalize (cs_jobs cs). intros jobs. induction jobs as [|j jobs IH]; [done|].
    simpl. rewrite IH. unfold collected. destruct (is_due now j) eqn:Hdj.
    + unfold is_due. simpl. by rewrite andb_false_r.
    + assert (is_due now' j = false) as ->; [|done]. unfold is_due in *.
      destruct (Enabled j); simpl in *; [|done].
      destruct (NextRunAtMS (State j)); [|done]. zb. apply Z.leb_gt. lia.
  - rewrite Hj. apply map_ext_in. intros j Hin%list_elem_of_In. unfold collected.
    pose proof (ids_due now _ j Hn Hin) as Hd. case_bool_decide as Hb.
    + by rewrite (proj1 Hd Hb).
    + destruct (is_due now j); [|done]. destruct Hb. by apply Hd.
  - intros Hnil'. apply Hnil. by apply map_eq_nil in Hnil'.
Qed.

(** ** How often a job starts *)

(** The calls between two loads of the store, by the run loop, by handlers and by
    users, in any order. The execution of a job is the check that started it
    and a later [KFinish]; what is done to other jobs is arbitrary. *)
Inductive cron_call :=
| KCheck (now : Z) (w : write_result)
| KFinish (id : string) (startTime now now' : Z) (err : option string) (w1 w2 : write_result)
| KAdd (id : string) (now : Z) (name : string) (schedule : CronSchedule)
    (message mode channel to peerKind : string) (w : write_result)
| KUpdate (job : CronJob) (now : Z) (w : write_result)
| KEnable (id : string) (enabled : bool) (now now' : Z) (w : write_result)
| KRemove (id : string) (now : Z) (w : write_result)
| KWatch (id digest : string) (failures now : Z) (w : write_result).

(** The service after a call, and the ids of the jobs it starts. *)
Definition cron_step cs (c : cron_call) : CronService * list string :=
  match c with
  | KCheck now w => checkJobs cs now w
  | KFinish id st now now' err w1 w2 => (finishJob cs id st now now' err w1 w2, [])
  | KAdd id now name sch message mode channel to peerKind w =>
      ((AddJob cs id now name sch message mode channel to peerKind w).1, [])
  | KUpdate job now w => ((UpdateJob cs job now w).1, [])
  | KEnable id b now now' w => ((EnableJob cs id b now now' w).1, [])
  | KRemove id _ w => ((RemoveJob cs id w).1.1, [])
  | KWatch id digest failures _ w => ((UpdateWatchState cs id digest failures w).1, [])
  end.

(** The clock when the call ends. *)
Definition call_time (c : cron_call) : Z :=
  match c with
  | KCheck now _ | KAdd _ now _ _ _ _ _ _ _ _ | KUpdate _ now _ | KRemove _ now _
  | KWatch _ _ _ now _ => now
  | KFinish _ _ _ now' _ _ _ | KEnable _ _ _ now' _ => now'
  end.

(** When the calls start job [id]. *)
Fixpoint starts (id : string) cs (calls : list cron_call) : list Z :=
  match calls with
  | [] => []
  | c :: calls' =>
    let '(cs', due) := cron_step cs c in
    (if bool_decide (id ∈ due) then [call_time c] else []) ++ starts id cs' calls'
  end.

(** A new job has an id of its own, and the job watched is not redefined. *)
Definition call_ok (id : string) cs (c : cron_call) : Prop :=
  match c with
  | KAdd id' _ _ _ _ _ _ _ _ _ => id' ∉ map ID (cs_jobs cs) ∧ id' ≠ id
  | KUpdate job _ _ => ID job ≠ id
  | _ => True
  end.

(** The clock does not go back, and adding the interval does not overflow. *)
Fixpoint calls_ok (id : string) (every last : Z) cs (calls : list cron_call) : Prop :=
  match calls with
  | [] => True
  | c :: calls' =>
    last ≤ call_time c ∧ min_int64 ≤ call_time c ≤ max_int64 - every ∧ call_ok id cs c ∧
    calls_ok id every (call_time c) (cron_step cs c).1 calls'
  end.

(** Whether a run at [t] may follow a start at [f]. *)
Definition may_follow (s : CronSchedule) (f t : Z) : Prop :=
  if bool_decide (Kind s = "at") then False
  else ∀ every, Kind s = "every" → EveryMS s = Some every → f + every ≤ t.

(** The watched job: its schedule [s], and a next run that may follow every start
    so far. *)
Record armed (s : CronSchedule) (fs : list Z) (j : CronJob) : Prop := {
  ar_schedule : Schedule j = s;
  ar_next : ∀ t, NextRunAtMS (State j) = Some t →
    Forall (λ f, may_follow s f t) fs ∧ (Kind s = "at" → AtMS s = Some t)
}.

(** Starts of the job so far, the last call at [last]. *)
Record spaced (s : CronSchedule) (fs : list Z) (last : Z) : Prop := {
  sp_last : Forall (λ f, f ≤ last) fs;
  sp_at : ∀ a, Kind s = "at" → AtMS s = Some a → Forall (λ f, a ≤ f) fs;
  sp_gaps : StronglySorted (may_follow s) fs
}.

Definition only_interval (s : CronSchedule) (every : Z) : Prop :=
  ∀ e, Kind s = "every" → EveryMS s = Some e → e ≤ every.

(** Computing the next run re-arms the job. *)
Lemma rearm s fs last every j now :
  spaced s fs last → only_interval s every → Schedule j = s →
  last ≤ now → min_int64 ≤ now ≤ max_int64 - every →
  armed s fs (set_next j (computeNextRun s now)).
Proof.
  intros [Hl Ha _] Hev Hs Hle Hnow. split; [done|]. simpl. intros t.
  unfold computeNextRun, may_follow. case_bool_decide as Hat.
  - destruct (AtMS s) as [a|] eqn:Has; [|done]. destruct (now <? a) eqn:Hlt; [|done].
    intros [= <-]. zb. split; [|done]. specialize (Ha a Hat eq_refl).
    apply Forall_forall. intros f Hf. rewrite Forall_forall in Hl, Ha.
    specialize (Hl f Hf). specialize (Ha f Hf). lia.
  - case_bool_decide as Hek.
    + destruct (EveryMS s) as [e|] eqn:Hes; [|done]. destruct (e <=? 0) eqn:Hpos; [done|].
      intros [= <-]. zb. split; [|done]. apply Forall_forall. intros f Hf e' _ [= <-].
      rewrite Forall_forall in Hl. specialize (Hl f Hf). specialize (Hev e Hek Hes).
      unfold min_int64, max_int64 in Hnow.
      rewrite wrap64_id by (unfold in_int64, min_int64, max_int64; lia). lia.
    + intros Hn. split; [|done]. apply Forall_forall. intros f Hf e Hk. done.
Qed.

Lemma armed_disarmed s fs j : Schedule j = s → NextRunAtMS (State j) = None → armed s fs j.
Proof. intros Hs Hn. split; [done|]. intros t. by rewrite Hn. Qed.

Lemma spaced_later s fs last now : last ≤ now → spaced s fs last → spaced s fs now.
Proof.
  intros Hle [Hl ? ?]. split; [|done..]. eapply Forall_impl; [exact Hl|]. simpl. lia.
Qed.

Lemma StronglySorted_snoc {A} (R : A → A → Prop) l x :
  StronglySorted R l → Forall (λ y, R y x) l → StronglySorted R (l ++ [x]).
Proof.
  induction 1 as [|y l Hl IH Hy]; simpl; [by repeat constructor|]. intros [Hyx Hlx]%Forall_cons.
  constructor; [by apply IH|]. apply Forall_app_2; [done|by repeat constructor].
Qed.

Lemma spaced_start s fs last j now t :
  armed s fs j → spaced s fs last → NextRunAtMS (State j) = Some t → t ≤ now → last ≤ now →
  spaced s (fs ++ [now]) now.
Proof.
  intros [Hs Hn] Hsp Ht Htn Hle. apply (spaced_later _ _ _ now Hle) in Hsp as [Hl Ha Hg].
  destruct (Hn t Ht) as [Hf Hat]. split.
  - apply Forall_app_2; [done|by repeat constructor].
  - intros a Hk Hsa. apply Forall_app_2; [by apply Ha|]. rewrite (Hat Hk) in Hsa.
    injection Hsa as ->. by repeat constructor.
  - apply StronglySorted_snoc; [done|]. eapply Forall_impl; [exact Hf|]. intros f. unfold may_follow.
    case_bool_decide; [done|]. intros Hm e Hk He. specialize (Hm e Hk He). lia.
Qed.

(** What holds of the store between calls. *)
Record watched (id : string) (s : CronSchedule) (fs : list Z) (last : Z) cs : Prop := {
  wt_running : cs_running cs = true;
  wt_sync : in_sync cs;
  wt_ids : NoDup (map ID (cs_jobs cs));
  wt_armed : Forall (λ j, ID j = id → armed s fs j) (cs_jobs cs);
  wt_spaced : spaced s fs last
}.

(** A save, with or without its alert, changes nothing that is watched. *)
Lemma watched_jobs id s fs last cs cs' :
  cs_jobs cs' = cs_jobs cs → cs_running cs' = cs_running cs → (in_sync cs → in_sync cs') →
  watched id s fs last cs → watched id s fs last cs'.
Proof. intros Hj Hr Hs []. split; rewrite ?Hj, ?Hr; auto. Qed.

Lemma watched_save id s fs last cs w :
  watched id s fs last cs → watched id s fs last (saveStoreUnsafe cs w).1.
Proof.
  apply watched_jobs; [apply saveStoreUnsafe_jobs..|]. apply saveStoreUnsafe_sync.
Qed.

Lemma watched_update id s fs last cs id' f :
  (∀ j, ID (f j) = ID j) →
  (∀ j, j ∈ cs_jobs cs → ID j = id' → id' = id → armed s fs j → armed s fs (f j)) →
  watched id s fs last cs →
  watched id s fs last (with_jobs cs (update_first id' f (cs_jobs cs))).
Proof.
  intros Hid Hf [Hr Hsy Hn Ha Hsp]. split; simpl; try done.
  - by rewrite update_first_ID.
  - apply update_first_Forall; [done|]. intros j Hj Hj' Hi. rewrite Hid in Hi.
    apply Hf; [done|done|congruence|]. rewrite Forall_forall in Ha. by apply Ha.
Qed.

Lemma watched_remove id s fs last cs id' :
  watched id s fs last cs → watched id s fs last (with_jobs cs (remove_jobs id' (cs_jobs cs))).
Proof.
  intros [Hr Hsy Hn Ha Hsp]. split; simpl; try done.
  - eapply sublist_NoDup; [exact Hn|]. apply fmap_sublist, keep_sublist.
  - rewrite Forall_forall in Ha |- *. intros j [Hj _]%elem_of_keep. by apply Ha.
Qed.

Lemma watched_removeJob id s fs last cs id' w :
  watched id s fs last cs → watched id s fs last (removeJobUnsafe cs id' w).1.1.
Proof.
  intros Hw%(watched_remove _ _ _ _ _ id'). unfold removeJobUnsafe.
  case_if; [|done]. apply (watched_save _ _ _ _ _ w) in Hw. by destruct (saveStoreUnsafe _ w).
Qed.

Lemma armed_view s fs j j' :
  Schedule j' = Schedule j → NextRunAtMS (State j') = NextRunAtMS (State j) →
  armed s fs j → armed s fs j'.
Proof. intros Hs Hn [? Ha]. split; [congruence|]. intros t. rewrite Hn. apply Ha. Qed.

Lemma watched_later id s fs last now cs :
  last ≤ now → watched id s fs last cs → watched id s fs now cs.
Proof. intros Hle []. split; try done. by apply (spaced_later _ _ last). Qed.

Lemma watched_finish id s fs last every cs id' st now now' err w1 w2 :
  only_interval s every → last ≤ now' → min_int64 ≤ now' ≤ max_int64 - every →
  watched id s fs last cs → watched id s fs last (finishJob cs id' st now now' err w1 w2).
Proof.
  intros Hev Hle Hnow Hw. unfold finishJob.
  destruct (find_job cs id') as [job|] eqn:Hfind; [|done].
  apply find_job_Some in Hfind as [Hin Hid].
  set (cs1 := match err with Some _ => _ | None => _ end).
  assert (Hw1 : watched id s fs last cs1).
  { unfold cs1. destruct err; [|done].
    destruct (send_alert_jobs cs "Scheduled job failed" (ID job)) as (? & ? & _).
    apply (watched_jobs _ _ _ _ cs); try done. apply send_alert_sync. }
  set (cs2 := with_jobs cs1 _).
  assert (Hw2 : watched id s fs last cs2).
  { apply watched_update; [done| |done]. intros j _ _ _. by apply armed_view. }
  set (cs3 := if bool_decide _ then _ else _).
  assert (Hw3 : watched id s fs last cs3).
  { unfold cs3. case_bool_decide; [destruct (DeleteAfterRun job)|].
    - by apply watched_removeJob.
    - apply watched_update; [done| |done]. intros j _ _ _ [? _]. by apply armed_disarmed.
    - apply watched_update; [done| |done]. intros j Hj _ Hi [Hsj _].
      assert (Schedule job = s) as ->.
      { pose proof (wt_armed _ _ _ _ _ Hw) as Ha. rewrite Forall_forall in Ha.
        apply (Ha job Hin). congruence. }
      apply (rearm s fs last every); try done. apply (wt_spaced _ _ _ _ _ Hw). }
  pose proof (save_alert_jobs cs3 w2) as Hsave. destruct (saveStoreUnsafe cs3 w2) as [cs' ok].
  destruct Hsave as (Hj & Hr & Hsy). by apply (watched_jobs _ _ _ _ cs3).
Qed.

Lemma watched_check id s fs last cs now w :
  last ≤ now → watched id s fs last cs →
  let '(cs', due) := checkJobs cs now w in
  watched id s (fs ++ if bool_decide (id ∈ due) then [now] else []) now cs'.
Proof.
  intros Hle [Hr Hsy Hn Ha Hsp].
  destruct (checkJobs_jobs cs now w Hr Hsy Hn) as (Hd & Hj & _ & Hsy' & Hr').
  destruct (checkJobs cs now w) as [cs' due]. simpl in *. subst due.
  assert (Hids : map ID (cs_jobs cs') = map ID (cs_jobs cs)).
  { rewrite Hj, map_map. apply map_ext. intros j. unfold collected. by case_if. }
  rewrite Forall_forall in Ha.
  case_bool_decide as Hin.
  - apply list_elem_of_fmap in Hin as (job & -> & [Hjob Hdue]%elem_of_keep).
    unfold is_due in Hdue. apply andb_true_iff in Hdue as [Hen Hdue].
    destruct (NextRunAtMS (State job)) as [t|] eqn:Hnext; [|done]. zb.
    split; [done|done|by rewrite Hids| |].
    + rewrite Hj. apply Forall_forall. intros j (j0 & -> & Hj0)%list_elem_of_fmap. intros Hid.
      assert (Hid0 : ID j0 = ID job) by (revert Hid; unfold collected; by case_if).
      assert (Hdue0 : is_due now j0 = true).
      { apply (ids_due now _ j0 Hn Hj0). rewrite Hid0. apply (ids_due now _ job Hn Hjob).
        unfold is_due. rewrite Hen, Hnext. simpl. by apply Z.leb_le. }
      unfold collected. rewrite Hdue0. apply armed_disarmed; [|done]. by apply (Ha j0 Hj0).
    + by apply (spaced_start s fs last job now t (Ha job Hjob eq_refl)).
  - rewrite app_nil_r. split; [done|done|by rewrite Hids| |by apply (spaced_later _ _ last)].
    rewrite Hj. apply Forall_forall. intros j (j0 & -> & Hj0)%list_elem_of_fmap. intros Hid.
    assert (Hid0 : ID j0 = id) by (revert Hid; unfold collected; by case_if).
    unfold collected. destruct (is_due now j0) eqn:Hdue; [|by apply Ha].
    destruct Hin. rewrite <- Hid0. by apply ids_due.
Qed.

Lemma watched_step id s fs last every cs c :
  only_interval s every → last ≤ call_time c → min_int64 ≤ call_time c ≤ max_int64 - every →
  call_ok id cs c → watched id s fs last cs →
  watched id s (fs ++ if bool_decide (id ∈ (cron_step cs c).2) then [call_time c] else [])
    (call_time c) (cron_step cs c).1.
Proof.
  intros Hev Hle Hnow Hok Hw.
  assert (Hnone : ∀ cs', watched id s fs last cs' →
    watched id s (fs ++ if bool_decide (id ∈ @nil string) then [call_time c] else [])
      (call_time c) cs').
  { intros cs' Hw'. rewrite bool_decide_eq_false_2 by apply not_elem_of_nil. rewrite app_nil_r.
    by apply (watched_later _ _ _ last). }
  destruct c as [now w|id' st now now' err w1 w2|id' now name sch msg mode chan to pk w|job now w
    |id' b now now' w|id' now w|id' digest failures now w]; simpl in *.
  - pose proof (watched_check id s fs last cs now w Hle Hw) as Hc.
    by destruct (checkJobs cs now w) as [cs' due].
  - apply Hnone. by apply (watched_finish _ _ _ _ every).
  - apply Hnone. unfold AddJob. destruct Hok as [Hfresh Hne].
    set (cs1 := with_jobs cs _).
    assert (Hw1 : watched id s fs last cs1).
    { destruct Hw as [Hr Hsy Hn Ha Hsp]. split; simpl; try done.
      - rewrite map_app. apply NoDup_app. split_and!; [done| |by apply NoDup_singleton].
        simpl. set_solver.
      - apply Forall_app_2; [done|]. constructor; [by intros ?|constructor]. }
    apply (watched_save _ _ _ _ _ w) in Hw1. by destruct (saveStoreUnsafe cs1 w).
  - apply Hnone. unfold UpdateJob. destruct (find_job cs (ID job)) as [j0|]; [|done].
    set (cs1 := with_jobs cs _).
    assert (Hw1 : watched id s fs last cs1).
    { destruct Hw as [Hr Hsy Hn Ha Hsp]. split; simpl; try done.
      - rewrite update_first_ID; [done|]. by intros j ->.
      - apply update_first_Forall; [done|]. by intros j _ _ ?. }
    apply (watched_save _ _ _ _ _ w) in Hw1. by destruct (saveStoreUnsafe cs1 w).
  - apply Hnone. unfold EnableJob. destruct (find_job cs id') as [j0|]; [|done].
    set (cs1 := with_jobs cs _).
    assert (Hw1 : watched id s fs last cs1).
    { apply watched_update; [done| |done]. intros j _ _ _ [Hs _]. unfold enable_job.
      destruct b; [|by apply armed_disarmed].
      rewrite <- Hs at 1. cbn [Schedule set_updated set_enabled set_state]. rewrite Hs.
      apply (rearm s fs last every); try done. apply Hw. }
    apply (watched_save _ _ _ _ _ w) in Hw1. by destruct (saveStoreUnsafe cs1 w).
  - apply Hnone. by apply watched_removeJob.
  - apply Hnone. unfold UpdateWatchState. destruct (find_job cs id') as [j0|]; [|done].
    set (cs1 := with_jobs cs _).
    assert (Hw1 : watched id s fs last cs1).
    { apply watched_update; [done| |done]. intros j _ _ _. by apply armed_view. }
    apply (watched_save _ _ _ _ _ w) in Hw1. by destruct (saveStoreUnsafe cs1 w).
Qed.

Lemma watched_starts id s fs last every cs calls :
  only_interval s every → calls_ok id every last cs calls → watched id s fs last cs →
  ∃ last', spaced s (fs ++ starts id cs calls) last'.
Proof.
  intros Hev. revert fs last cs. induction calls as [|c calls IH]; intros fs last cs Hok Hw; simpl.
  { exists last. rewrite app_nil_r. apply Hw. }
  destruct Hok as (Hle & Hnow & Hc & Hok).
  pose proof (watched_step id s fs last every cs c Hev Hle Hnow Hc Hw) as Hw'.
  destruct (cron_step cs c) as [cs' due]. simpl in *.
  destruct (IH _ _ _ Hok Hw') as [last' Hsp]. exists last'. by rewrite app_assoc.
Qed.

(** C37. How often a job can start. Take a running service whose file only it
    writes, one of its jobs, and any sequence of due checks, completions, and
    calls that add, enable, disable, remove or redefine jobs (other than
    redefining this one), interleaved in any way, with a clock that does not go
    back. A one-shot job then starts at most once, and not before its time; an
    interval job's starts are at least the interval apart. *)
Theorem job_starts_spaced cs job (calls : list cron_call) (now every : Z)
  (Hr : cs_running cs = true) (Hs : in_sync cs) (Hn : NoDup (map ID (cs_jobs cs)))
  (Hjob : job ∈ cs_jobs cs)
  (Hat : ∀ t, Kind (Schedule job) = "at" → NextRunAtMS (State job) = Some t →
    AtMS (Schedule job) = Some t)
  (Hev : only_interval (Schedule job) every)
  (Hok : calls_ok (ID job) every now cs calls) :
  let fs := starts (ID job) cs calls in
  (Kind (Schedule job) = "at" →
    (length fs ≤ 1)%nat ∧ ∀ f a, f ∈ fs → AtMS (Schedule job) = Some a → a ≤ f) ∧
  (∀ e, Kind (Schedule job) = "every" → EveryMS (Schedule job) = Some e →
    StronglySorted (λ f f', f + e ≤ f') fs).
Proof.
  cbv zeta. destruct (watched_starts (ID job) (Schedule job) [] now every cs calls Hev Hok)
    as [last [_ Ha Hg]].
  { split; try done.
    - apply Forall_forall. intros j Hj Hid.
      assert (j = job) as ->.
      { apply list_elem_of_lookup in Hj as [a Hla], Hjob as [b Hlb].
        assert (a = b) as ->; [|congruence].
        apply (NoDup_lookup _ a b (ID job) Hn); change (map ID) with (fmap (M:=list) ID);
          rewrite list_lookup_fmap; [rewrite Hla; simpl; by rewrite Hid|by rewrite Hlb]. }
      split; [done|]. intros t Ht. split; [done|]. intros Hk. by apply Hat.
    - split; [done|done|constructor]. }
  simpl in *. split.
  - intros Hk. split.
    + destruct (starts (ID job) cs calls) as [|f [|f' fs]]; simpl; [lia|lia|].
      apply StronglySorted_inv in Hg as [_ [Hff _]%Forall_cons]. unfold may_follow in Hff.
      by rewrite bool_decide_eq_true_2 in Hff.
    + intros f a Hf Hsa. specialize (Ha a Hk Hsa). rewrite Forall_forall in Ha. by apply Ha.
  - intros e Hk He. induction Hg as [|f fs Hg IH Hf]; constructor.
    + apply IH. intros a Hk' Hsa. specialize (Ha a Hk' Hsa). by apply Forall_cons in Ha as [_ Ha].
    + eapply Forall_impl; [exact Hf|]. intros f'. unfold may_follow.
      case_bool_decide; [congruence|]. intros Hm. by apply Hm.
Qed.

(** ** The file *)

(** A job that loading leaves as it is. *)
Definition settled (j : CronJob) : Prop :=
  Mode (Payload j) ≠ "" ∧ PeerKind (Payload j) ≠ "" ∧ Fingerprint j ≠ "".

Lemma load_job_settled r : (∀ s p, definition_digest s p ≠ "") → settled (load_job r).
Proof.
  intros Hd. unfold load_job, migrate_payload. cbv zeta. case_bool_decide as Hf; simpl in *;
    unfold settled; simpl; (split_and!; [|case_bool_decide; done|]); try apply Hd; try done;
    repeat case_bool_decide; simpl; try done; by destruct (raw_deliver r).
Qed.

Lemma load_settled j : settled j → load_job (to_raw j) = j.
Proof.
  intros (Hm & Hp & Hf). unfold load_job, migrate_payload. simpl.
  rewrite (bool_decide_eq_false_2 _ Hm), (bool_decide_eq_false_2 _ Hp),
    (bool_decide_eq_false_2 _ Hf). destruct j as [? ? ? ? ? p ? ? ? ? ?]. simpl. by destruct p.
Qed.

(** The file loses nothing. Loading gives every job a mode, a peer kind and a
    fingerprint, taking the mode of an old file's job from its command or its
    deliver flag; adding a job keeps it so; and then a store that is saved and
    loaded is the same store. *)
Theorem store_roundtrip (Hd : ∀ s p, definition_digest s p ≠ "") :
  (∀ cs, (loadStore cs).2 = true → Forall settled (cs_jobs (loadStore cs).1)) ∧
  (∀ cs id now name sch message mode channel to peerKind w, Forall settled (cs_jobs cs) →
     Forall settled (cs_jobs (AddJob cs id now name sch message mode channel to peerKind w).1)) ∧
  (∀ cs m, Forall settled (cs_jobs cs) →
     let saved := (saveStoreUnsafe cs (Wrote m)).1 in
     loadStore saved = (saved, true) ∧ cs_jobs saved = cs_jobs cs) ∧
  (∀ r, Mode (Payload (raw_job r)) = "" → Mode (Payload (load_job r)) =
     if bool_decide (Command (Payload (raw_job r)) = "")
     then (if raw_deliver r then "deliver" else "agent") else "command").
Proof.
  split_and!.
  - intros cs. unfold loadStore. destruct (cs_file (with_store cs 1 [])) as [| | |v jobs]; try done.
    intros _. cbn [fst]. destruct (stat_modtime_jobs (with_store (with_store cs 1 []) v (map load_job jobs)))
      as (-> & _). simpl. apply Forall_forall. intros j (r & -> & _)%list_elem_of_fmap.
    by apply load_job_settled.
  - intros cs id now name sch message mode channel to peerKind w Hs. unfold AddJob. cbv zeta.
    set (cs1 := with_jobs cs _). pose proof (saveStoreUnsafe_jobs cs1 w) as [Hj _].
    destruct (saveStoreUnsafe cs1 w) as [cs2 ok]. simpl in *. rewrite Hj.
    apply Forall_app_2; [done|]. constructor; [|done]. unfold settled. simpl.
    clear Hj. split_and!; [by case_bool_decide|by case_bool_decide|apply Hd].
  - intros cs m Hs. cbv zeta. split; [|done]. unfold loadStore. simpl. f_equal.
    unfold stat_modtime, with_store. simpl. f_equal. rewrite map_map.
    rewrite <- (map_id (cs_jobs cs)) at 2. apply map_ext_in. intros j Hj%list_elem_of_In.
    rewrite Forall_forall in Hs. by apply load_settled, Hs.
  - intros r Hm. unfold load_job, migrate_payload. cbv zeta.
    case_bool_decide; simpl; rewrite (bool_decide_eq_true_2 _ Hm); by repeat case_bool_decide.
Qed.

(** [getNextWakeMS] is the earliest next run of an enabled job. *)
Lemma next_wake_spec jobs wake :
  (∀ t, next_wake jobs wake = Some t →
    wake = Some t ∨ ∃ j, j ∈ jobs ∧ Enabled j = true ∧ NextRunAtMS (State j) = Some t) ∧
  (∀ u, wake = Some u → ∃ t, next_wake jobs wake = Some t ∧ t ≤ u) ∧
  (∀ j u, j ∈ jobs → Enabled j = true → NextRunAtMS (State j) = Some u →
    ∃ t, next_wake jobs wake = Some t ∧ t ≤ u).
Proof.
  revert wake. induction jobs as [|j jobs IH]; intros wake; simpl.
  { split_and!; [by left|intros u ->; by exists u|by intros j u ?%elem_of_nil]. }
  set (wake' := match _ with None => _ | Some _ => _ end).
  destruct (IH wake') as (IH1 & IH2 & IH3).
  assert (Hle : ∀ u, wake = Some u → ∃ v, wake' = Some v ∧ v ≤ u).
  { intros u ->. unfold wake'. destruct (if Enabled j then _ else _) as [t|]; [|exists u; split; [done|lia]].
    destruct (t <? u) eqn:Htu; zb; eexists; (split; [done|lia]). }
  assert (Hj : ∀ u, Enabled j = true → NextRunAtMS (State j) = Some u →
    ∃ v, wake' = Some v ∧ v ≤ u).
  { intros u He Hn. unfold wake'. rewrite He, Hn. destruct wake as [v|]; [|exists u; split; [done|lia]].
    destruct (u <? v) eqn:Huv; zb; eexists; (split; [done|lia]). }
  split_and!.
  - intros t Ht. destruct (IH1 t Ht) as [Hw|(j' & Hj' & ?)].
    + unfold wake' in Hw. destruct (Enabled j) eqn:He; [|by left].
      destruct (NextRunAtMS (State j)) as [u|] eqn:Hn; [|by left].
      destruct wake as [v|].
      * destruct (u <? v); [|by left]. right. exists j. split_and!; [left|done|congruence].
      * right. exists j. split_and!; [left|done|congruence].
    + right. exists j'. split; [by right|done].
  - intros u Hu. destruct (Hle u Hu) as (v & Hv & Hvu). destruct (IH2 v Hv) as (t & Ht & Htv).
    exists t. split; [done|lia].
  - intros j' u [->|Hin]%elem_of_cons He Hn; [|by apply (IH3 j')].
    destruct (Hj u He Hn) as (v & Hv & Hvu). destruct (IH2 v Hv) as (t & Ht & Htv).
    exists t. split; [done|lia].
Qed.

End cron.

(** ** Witnesses *)

#[local] Instance ex_cron : CronEnv := {|
  NextTickAfter := λ _ now, Some (now + 60000);
  definition_digest := λ s _, "0a" +:+ Kind s
|}.

Definition ex_every : CronSchedule :=
  {| Kind := "every"; AtMS := None; EveryMS := Some 1000; Expr := ""; TZ := "" |}.

Definition ex_at : CronSchedule :=
  {| Kind := "at"; AtMS := Some 1500; EveryMS := None; Expr := ""; TZ := "" |}.

(** A running service with an interval job and a one-shot job. *)
Definition ex_service : CronService :=
  let cs := (Start (NewCronService NoFile None) 0 (Wrote 1)).1 in
  let cs := (AddJob cs "a" 10 "poll" ex_every "hello" "" "c" "t" "" (Wrote 2)).1 in
  (AddJob cs "b" 10 "once" ex_at "hello" "" "c" "t" "" (Wrote 3)).1.

Definition ex_calls : list cron_call :=
  [KCheck 900 (Wrote 4); KCheck 1600 (Wrote 5);
   KFinish "a" 1600 1700 1700 None (Wrote 6) (Wrote 7); KEnable "b" true 1800 1800 (Wrote 8);
   KFinish "b" 1600 2000 2000 (Some "boom") (Wrote 9) (Wrote 10); KCheck 2650 (Wrote 11);
   KCheck 2700 (Wrote 12)].

Example ex_starts :
  starts "a" ex_service ex_calls = [1600; 2700] ∧ starts "b" ex_service ex_calls = [1600].
Proof. by vm_compute. Qed.

Lemma checkJobs_due_witness :
  let '(cs', due) := checkJobs ex_service 1600 (Wrote 4) in
  due = map ID (keep (λ j, Enabled j && match NextRunAtMS (State j) with
                            | Some t => t <=? 1600 | None => false end) (cs_jobs ex_service)) ∧
  NoDup due ∧
  (∀ now' w', now' ≤ 1600 → (checkJobs cs' now' w').2 = []) ∧
  cs_jobs cs' =
    map (λ j, if bool_decide (ID j ∈ due) then set_next j None else j) (cs_jobs ex_service) ∧
  (due = [] → cs' = ex_service).
Proof.
  apply (checkJobs_due ex_service 1600 (Wrote 4)).
  - reflexivity.
  - vm_compute. discriminate.
  - apply (bool_decide_unpack _). vm_compute. exact I.
Defined.

(** The interval job of that service. *)
Definition ex_job : CronJob := {|
  ID := "a"; Name := "poll"; j_AgentID := ""; Enabled := true; Schedule := ex_every;
  Payload := {| Mode := "agent"; Message := "hello"; Command := ""; p_Channel := "c"; p_To := "t";
                PeerKind := "channel"; Watch := None |};
  State := {| NextRunAtMS := Some 1010; LastRunAtMS := None; LastStatus := ""; LastError := "";
              WatchDigest := ""; WatchFailures := 0 |};
  CreatedAtMS := 10; UpdatedAtMS := 10; DeleteAfterRun := false; Fingerprint := "0aevery"
|}.

Lemma job_starts_spaced_witness :
  let fs := starts "a" ex_service ex_calls in
  (Kind ex_every = "at" →
    (length fs ≤ 1)%nat ∧ ∀ f a, f ∈ fs → AtMS ex_every = Some a → a ≤ f) ∧
  (∀ e, Kind ex_every = "every" → EveryMS ex_every = Some e →
    StronglySorted (λ f f', f + e ≤ f') fs).
Proof.
  apply (job_starts_spaced ex_service ex_job) with (now := 0) (every := 1000).
  - reflexivity.
  - vm_compute. discriminate.
  - apply (bool_decide_unpack _). vm_compute. exact I.
  - vm_compute. left.
  - intros t. vm_compute. discriminate.
  - intros e _. vm_compute. by intros [= <-].
  - vm_compute. repeat split; discriminate.
Defined.

Lemma store_roundtrip_witness :
  (∀ cs, (loadStore cs).2 = true → Forall settled (cs_jobs (loadStore cs).1)) ∧
  (∀ cs id now name sch message mode channel to peerKind w, Forall settled (cs_jobs cs) →
     Forall settled (cs_jobs (AddJob cs id now name sch message mode channel to peerKind w).1)) ∧
  (∀ cs m, Forall settled (cs_jobs cs) →
     let saved := (saveStoreUnsafe cs (Wrote m)).1 in
     loadStore saved = (saved, true) ∧ cs_jobs saved = cs_jobs cs) ∧
  (∀ r, Mode (Payload (raw_job r)) = "" → Mode (Payload (load_job r)) =
     if bool_decide (Command (Payload (raw_job r)) = "")
     then (if raw_deliver r then "deliver" else "agent") else "command").
Proof. apply store_roundtrip. intros s p. discriminate. Defined.
