(* ===== verification/SessionDispatch.v ===== *)
(** * Session dispatch (agent/session_dispatch.go, commands/request.go, bus/types.go)

    Messages of one session are run one turn at a time: the first to arrive while
    the session is idle makes its goroutine the owner, later ones are queued and
    run by the owner, each chat's queued messages merged into one turn; /cancel
    overtakes the queue. The file models the splitting and merging of the queue
    as functions and the goroutines of one session key as threads, and shows
    that there is one owner at most, that every message is handled exactly once
    and each chat's in order, and what a cancellation reaches. *)

From stdpp Require Import base gmap strings list fin_maps relations.
From Stdlib Require Import ZArith Lia Ascii.
From S2P Require Import Prelude GoString.

Open Scope string_scope.
Open Scope list_scope.
Open Scope Z_scope.

(** ** Commands *)

Definition nthToken (input : string) (n : nat) : string :=
  default "" (Fields (TrimSpace input) !! n).

Definition commandPrefixes : list string := ["/"; "!"].

(** [strings.CutPrefix]. *)
Definition CutPrefix (s p : string) : option string :=
  if HasPrefix s p then Some (of_bytes (drop (String.length p) (bytes s))) else None.

Fixpoint trim_prefixes (token : string) (prefixes : list string) : option string :=
  match prefixes with
  | [] => None
  | p :: ps => match CutPrefix token p with Some after => Some after | None => trim_prefixes token ps end
  end.

Definition trimCommandPrefix (token : string) : option string :=
  trim_prefixes token commandPrefixes.

Definition HasCommandPrefix (input : string) : bool :=
  let token := nthToken input 0 in
  if bool_decide (token = "") then false
  else match trimCommandPrefix token with Some _ => true | None => false end.

(** [name[:strings.Index(name, c)]], or all of it when [c] is not there. *)
Fixpoint before_byte (c : ascii) (l : list ascii) : list ascii :=
  match l with
  | [] => []
  | b :: l' => if Ascii.eqb b c then [] else b :: before_byte c l'
  end.

Section commands.
Context `{UnicodeData}.

Definition normalizeCommandName (name : string) : string := ToLower (TrimSpace name).

Definition ParseCommandName (input : string) : option string :=
  let token := nthToken input 0 in
  if bool_decide (token = "") then None
  else match trimCommandPrefix token with
  | None => None
  | Some name =>
    let name := of_bytes (before_byte "@"%char (bytes name)) in
    let name := normalizeCommandName name in
    if bool_decide (name = "") then None else Some name
  end.

Definition isCancelCommand (content : string) : bool :=
  match ParseCommandName content with
  | Some name => bool_decide (name = "cancel")
  | None => false
  end.
End commands.

(** ** Messages *)

Record Peer := { peer_Kind : string; peer_ID : string }.

Record SenderInfo := {
  Platform : string; PlatformID : string; CanonicalID : string; Username : string;
  DisplayName : string
}.

Record InboundMessage := {
  Channel : string;
  SenderID : string;
  Sender : SenderInfo;
  ChatID : string;
  Content : string;
  Media : list string;
  m_Peer : Peer;
  MessageID : string;
  MediaScope : string;
  SessionKey : string;
  Metadata : gmap string string;
  IsRetry : bool;
  Internal : bool
}.

Definition MetaReplyRequired : string := "reply_required".
Definition MetaOriginChannel : string := "origin_channel".

Definition inboundMetadata (m : InboundMessage) (key : string) : string :=
  default "" (Metadata m !! key).

Definition ReplyRequired (m : InboundMessage) : bool :=
  bool_decide (inboundMetadata m MetaReplyRequired = "1").

Definition queuedChat (m : InboundMessage) : string :=
  Channel m +:+ ":" +:+ inboundMetadata m MetaOriginChannel +:+ ":" +:+ ChatID m.

Definition runsAlone (m : InboundMessage) : bool :=
  HasCommandPrefix (Content m) || ReplyRequired m.

(** The loop of [takeBatch] over the messages after the first; the results are
    what joins the batch and what stays queued. *)
Fixpoint take_loop (chat : string) (stop : bool) (l : list InboundMessage)
    : list InboundMessage * list InboundMessage :=
  match l with
  | [] => ([], [])
  | m :: l' =>
    if negb stop && bool_decide (queuedChat m = chat) then
      if negb (runsAlone m) then
        let '(batch, rest) := take_loop chat stop l' in (m :: batch, rest)
      else let '(batch, rest) := take_loop chat true l' in (batch, m :: rest)
    else let '(batch, rest) := take_loop chat stop l' in (batch, m :: rest)
  end.

(** [takeBatch] before the merge. *)
Definition split_batch (pending : list InboundMessage) (eachAlone : bool)
    : option (list InboundMessage * list InboundMessage) :=
  match pending with
  | [] => None
  | first :: queue =>
    let '(batch, rest) :=
      take_loop (queuedChat first) (eachAlone || runsAlone first) queue in
    Some (first :: batch, rest)
  end.

(** A batch is never empty. *)
Definition mergeMessages (batch : list InboundMessage) : option InboundMessage :=
  match batch with
  | [] => None
  | [m] => Some m
  | _ =>
    match last batch with
    | None => None
    | Some l =>
      Some {| Channel := Channel l; SenderID := SenderID l; Sender := Sender l;
              ChatID := ChatID l; Content := Join (map Content batch) (String "010" "");
              Media := batch ≫= Media; m_Peer := m_Peer l; MessageID := MessageID l;
              MediaScope := MediaScope l; SessionKey := SessionKey l; Metadata := Metadata l;
              IsRetry := IsRetry l; Internal := negb (existsb (λ m, negb (Internal m)) batch) |}
    end
  end.

Definition takeBatch (pending : list InboundMessage) (eachAlone : bool)
    : option (InboundMessage * list InboundMessage) :=
  match split_batch pending eachAlone with
  | None => None
  | Some (batch, rest) =>
    match mergeMessages batch with Some m => Some (m, rest) | None => None end
  end.

(** *** What a batch is *)

(** A chat's messages, in order. *)
Definition on_chat (chat : string) (l : list InboundMessage) : list InboundMessage :=
  keep (λ m, bool_decide (queuedChat m = chat)) l.

Lemma on_chat_app chat l l' : on_chat chat (l ++ l') = on_chat chat l ++ on_chat chat l'.
Proof.
  unfold on_chat. induction l as [|m l IH]; simpl; [done|]. case_bool_decide; simpl; by rewrite IH.
Qed.

Lemma on_chat_cons chat m l :
  on_chat chat (m :: l) = if bool_decide (queuedChat m = chat) then m :: on_chat chat l else on_chat chat l.
Proof. done. Qed.

Lemma take_loop_stop chat l : take_loop chat true l = ([], l).
Proof. induction l as [|m l IH]; simpl; [done|]. by rewrite IH. Qed.

Lemma take_loop_spec chat stop l :
  let '(batch, rest) := take_loop chat stop l in
  Forall (λ m, queuedChat m = chat ∧ runsAlone m = false) batch ∧
  (∀ c, on_chat c l = on_chat c batch ++ on_chat c rest) ∧
  (stop = true → batch = []) ∧
  (stop = false → ∀ m, head (on_chat chat rest) = Some m → runsAlone m = true).
Proof.
  revert stop. induction l as [|m l IH]; intros stop; [by split_and!|]. simpl.
  specialize (IH stop). destruct stop; simpl.
  { rewrite take_loop_stop. by split_and!. }
  case_bool_decide as Hc; [destruct (runsAlone m) eqn:Ha|]; simpl.
  - rewrite take_loop_stop. split_and!; [done|done|done|]. intros _ m' Hm.
    rewrite on_chat_cons, bool_decide_eq_true_2 in Hm by done. by injection Hm as <-.
  - destruct (take_loop chat false l) as [batch rest]. destruct IH as (Hb & Hs & _ & Hm).
    split_and!; [by constructor| |done|done].
    intros c. rewrite !on_chat_cons, Hs. by case_if.
  - destruct (take_loop chat false l) as [batch rest]. destruct IH as (Hb & Hs & _ & Hm).
    split_and!; [done| |done|].
    + intros c. rewrite !on_chat_cons, Hs. case_bool_decide as Hc'; [|done].
      assert (on_chat c batch = []) as ->; [|done]. subst c. clear -Hb Hc.
      induction Hb as [|m' batch [Hm _] _ IH]; [done|]. rewrite on_chat_cons, IH.
      rewrite bool_decide_eq_false_2; [done|]. congruence.
    + intros _ m' Hm'. rewrite on_chat_cons, bool_decide_eq_false_2 in Hm' by done. by apply Hm.
Qed.

Lemma take_loop_length chat stop q :
  (length (take_loop chat stop q).1 + length (take_loop chat stop q).2 = length q)%nat.
Proof.
  revert stop. induction q as [|m q IH]; intros stop; [done|]. simpl.
  pose proof (IH stop). pose proof (IH true).
  repeat case_if; destruct (take_loop chat stop q), (take_loop chat true q); simpl in *; lia.
Qed.

Lemma split_batch_chats q alone batch rest :
  split_batch q alone = Some (batch, rest) →
  ∀ c, on_chat c q = on_chat c batch ++ on_chat c rest.
Proof.
  destruct q as [|first q]; simpl; [done|].
  pose proof (take_loop_spec (queuedChat first) (alone || runsAlone first) q) as Hl.
  destruct (take_loop _ _ q) as [b r]. destruct Hl as (_ & Hs & _). intros [= <- <-] c.
  rewrite !on_chat_cons, Hs. by case_if.
Qed.

Lemma takeBatch_Some q alone m rest :
  takeBatch q alone = Some (m, rest) →
  ∃ batch, split_batch q alone = Some (batch, rest) ∧ mergeMessages batch = Some m.
Proof.
  unfold takeBatch. destruct (split_batch q alone) as [[batch r]|]; [|done].
  destruct (mergeMessages batch) eqn:Hm; [|done]. intros [= <- <-]. eauto.
Qed.

Lemma mergeMessages_cons m l : is_Some (mergeMessages (m :: l)).
Proof.
  destruct l as [|m2 l]; [by eexists|]. unfold mergeMessages.
  destruct (last (m :: m2 :: l)) eqn:Hl; [by eexists|]. by apply last_None in Hl.
Qed.

Lemma takeBatch_None q alone : takeBatch q alone = None ↔ q = [].
Proof.
  split; [|by intros ->]. destruct q as [|first q]; [done|]. unfold takeBatch. simpl.
  destruct (take_loop _ _ _) as [b r]. destruct (mergeMessages_cons first b) as [m ->]. done.
Qed.

(** What a turn is made of. The batch is the oldest queued message with the
    later ones of its chat up to the chat's first message that must run alone;
    it is that message alone when it, or the agent, takes one message per turn;
    every other message stays queued in its place, so no message is lost or
    repeated and no chat's order changes; and the turn's message has all the
    contents and attachments in order and is somebody's unless all are claw's
    own. *)
Theorem takeBatch_spec (pending : list InboundMessage) (eachAlone : bool)
  (merged : InboundMessage) (rest : list InboundMessage)
  (Ht : takeBatch pending eachAlone = Some (merged, rest)) :
  ∃ first batch,
    head pending = Some first ∧
    (∀ c, on_chat c pending = on_chat c (first :: batch) ++ on_chat c rest) ∧
    Forall (λ m, queuedChat m = queuedChat first ∧ runsAlone m = false) batch ∧
    (eachAlone = true ∨ runsAlone first = true → batch = []) ∧
    (eachAlone = false → runsAlone first = false →
      ∀ m, head (on_chat (queuedChat first) rest) = Some m → runsAlone m = true) ∧
    Content merged = Join (map Content (first :: batch)) (String "010" "") ∧
    Media merged = (first :: batch) ≫= Media ∧
    Internal merged = forallb Internal (first :: batch) ∧
    (length (first :: batch) + length rest = length pending)%nat.
Proof.
  unfold takeBatch, split_batch in Ht. destruct pending as [|first queue]; [done|].
  pose proof (take_loop_spec (queuedChat first) (eachAlone || runsAlone first) queue) as Hl.
  pose proof (take_loop_length (queuedChat first) (eachAlone || runsAlone first) queue) as Hlen.
  destruct (take_loop _ _ queue) as [batch rest']. destruct Hl as (Hb & Hs & Hstop & Hgo).
  destruct (mergeMessages (first :: batch)) as [m|] eqn:Hm; [|done]. injection Ht as <- <-.
  exists first, batch. split_and!.
  - done.
  - intros c. rewrite !on_chat_cons, Hs. by case_if.
  - done.
  - intros Hor. apply Hstop. destruct Hor as [-> | ->]; [done|by rewrite orb_true_r].
  - intros -> Ha. apply Hgo. by rewrite Ha.
  - unfold mergeMessages in Hm. destruct batch as [|m2 batch]; [by injection Hm as <-|].
    destruct (last _); [|done]. by injection Hm as <-.
  - unfold mergeMessages in Hm. destruct batch as [|m2 batch];
      [injection Hm as <-; simpl; by rewrite app_nil_r|].
    destruct (last _); [|done]. by injection Hm as <-.
  - assert (Hint : ∀ l, negb (existsb (λ m, negb (Internal m)) l) = forallb Internal l).
    { intros l. induction l as [|x l IH]; simpl; [done|]. rewrite negb_orb, negb_involutive. by rewrite IH. }
    unfold mergeMessages in Hm. destruct batch as [|m2 batch];
      [injection Hm as <-; simpl; by rewrite andb_true_r|].
    rewrite <- Hint. destruct (last _); [|done]. by injection Hm as <-.
  - simpl in *. lia.
Qed.

(** ** Goroutines of one dispatch key *)

(** [sessionState]; a cancel function is named by the number of its turn. *)
Record sessionState := {
  refs : Z;
  lastUsed : Z;
  busy : bool;
  pending : list InboundMessage;
  turnCancel : option nat;
  cancelledRunning : bool;
  skipCount : Z
}.

Definition emptySession : sessionState :=
  {| refs := 0; lastUsed := 0; busy := false; pending := []; turnCancel := None;
     cancelledRunning := false; skipCount := 0 |}.

Definition set_refs (d : Z) (ss : sessionState) : sessionState :=
  {| refs := refs ss + d; lastUsed := lastUsed ss; busy := busy ss; pending := pending ss;
     turnCancel := turnCancel ss; cancelledRunning := cancelledRunning ss;
     skipCount := skipCount ss |}.

Definition set_queue (b : bool) (q : list InboundMessage) (tc : option nat) (ss : sessionState)
    : sessionState :=
  {| refs := refs ss; lastUsed := lastUsed ss; busy := b; pending := q; turnCancel := tc;
     cancelledRunning := cancelledRunning ss; skipCount := skipCount ss |}.

(** How a turn taken from the queue ended: it ran, its sender was told that it
    was cancelled before it ran, or the service stopped first. *)
Inductive outcome := Ran | ToldCancelled | Interrupted.

(** What happened so far: a message queued, a batch taken for a turn, messages
    dropped by /cancel, a taken batch dealt with, a cancellation's result read. *)
Inductive event :=
| Arrived (m : InboundMessage)
| Taken (batch : list InboundMessage)
| Dropped (ms : list InboundMessage)
| Settled (batch : list InboundMessage) (o : outcome)
| Reported (running : bool) (skipped : Z).

(** The key's entry of [AgentLoop.sessions]; the entries by address; the turns
    cancelled by /cancel; the next turn's number; whether the service's context
    ended; the history, oldest first. *)
Record shared := {
  mapped : option nat;
  heap : gmap nat sessionState;
  cancelled : gset nat;
  next_turn : nat;
  ctx_done : bool;
  history : list event
}.

(** Program points: [Start] and [Dispatch] in processSessionMessage, [Drain],
    [Run] (waiting for a turn slot), [Turn] (in runTurn) and [Clear] in
    drainSession, [CReply] and [CTurn] after a cancel, [Release], and [RLoad] and
    [RRead] in takeCancelResult. *)
Inductive pc :=
| Start (m : InboundMessage) (single : bool)
| Dispatch (e : nat) (m : InboundMessage) (single : bool)
| Drain (e : nat) (single : bool)
| Run (e : nat) (single : bool) (turn : nat) (batch : list InboundMessage)
| Turn (e : nat) (single : bool) (turn : nat) (batch : list InboundMessage)
| Clear (e : nat) (single : bool) (turn : nat)
| CReply (e : nat) (ms : list InboundMessage) (m : InboundMessage)
| CTurn (e : nat) (m : InboundMessage)
| Release (e : nat)
| RLoad | RRead (e : nat)
| Done.

(** What a step reads from outside: the clock and whether a turn slot is got. *)
Record input := { in_now : Z; in_slot : bool }.

Definition AgentMessageChannel : string := "agent_message".

Section machine.
Context `{UnicodeData}.
Implicit Types g : shared.

Definition session_at g (e : nat) : sessionState := default emptySession (heap g !! e).

Definition upd g (e : nat) (f : sessionState → sessionState) : shared :=
  {| mapped := mapped g; heap := <[e := f (session_at g e)]> (heap g); cancelled := cancelled g;
     next_turn := next_turn g; ctx_done := ctx_done g; history := history g |}.

Definition record g (evs : list event) : shared :=
  {| mapped := mapped g; heap := heap g; cancelled := cancelled g; next_turn := next_turn g;
     ctx_done := ctx_done g; history := history g ++ evs |}.

Definition acquireSession g : shared * nat :=
  match mapped g with
  | Some e => (upd g e (set_refs 1), e)
  | None =>
    let e := fresh (dom (heap g) : gset nat) in
    (upd {| mapped := Some e; heap := <[e := emptySession]> (heap g); cancelled := cancelled g;
            next_turn := next_turn g; ctx_done := ctx_done g; history := history g |}
         e (set_refs 1), e)
  end.

Definition releaseSession (now : Z) g (e : nat) : shared :=
  upd g e (λ ss, {| refs := refs ss - 1; lastUsed := now; busy := busy ss; pending := pending ss;
                    turnCancel := turnCancel ss; cancelledRunning := cancelledRunning ss;
                    skipCount := skipCount ss |}).

(** [pruneIdleSessions] on this key. *)
Definition pruneIdleSessions (now ttl : Z) g : shared :=
  match mapped g with
  | Some e =>
    if (refs (session_at g e) =? 0) && (ttl <? GoTime.sub now (lastUsed (session_at g e))) then
      {| mapped := None; heap := heap g; cancelled := cancelled g; next_turn := next_turn g;
         ctx_done := ctx_done g; history := history g |}
    else g
  | None => g
  end.

(** A cancel function ends a context that has not ended yet. *)
Definition cancel_turn g (turn : nat) : shared :=
  {| mapped := mapped g; heap := heap g;
     cancelled := if ctx_done g then cancelled g else {[turn]} ∪ cancelled g;
     next_turn := next_turn g; ctx_done := ctx_done g; history := history g |}.

Definition cancel g (e : nat) : shared * list InboundMessage :=
  let ss := session_at g e in
  let dropped := pending ss in
  let g := record g [Dropped dropped] in
  let skipped := skipCount ss + Z.of_nat (length dropped) in
  match turnCancel ss with
  | Some turn =>
    (cancel_turn
       (upd g e (λ ss, {| refs := refs ss; lastUsed := lastUsed ss; busy := busy ss; pending := [];
                          turnCancel := None; cancelledRunning := true; skipCount := skipped |}))
       turn, dropped)
  | None =>
    (upd g e (λ ss, {| refs := refs ss; lastUsed := lastUsed ss; busy := busy ss; pending := [];
                       turnCancel := None; cancelledRunning := cancelledRunning ss;
                       skipCount := skipped |}), dropped)
  end.

Definition takeCancelResult g (p : pc) : option (shared * pc) :=
  match p with
  | RLoad =>
    match mapped g with
    | Some e => Some (g, RRead e)
    | None => Some (record g [Reported false 0], Done)
    end
  | RRead e =>
    let ss := session_at g e in
    Some (record
      (upd g e (λ ss, {| refs := refs ss; lastUsed := lastUsed ss; busy := busy ss;
                         pending := pending ss; turnCancel := turnCancel ss;
                         cancelledRunning := false; skipCount := 0 |}))
      [Reported (cancelledRunning ss) (skipCount ss)], Done)
  | _ => None
  end.

(** The batch [takeBatch] merges. *)
Definition batch_of (q : list InboundMessage) (eachAlone : bool) : list InboundMessage :=
  match split_batch q eachAlone with Some (batch, _) => batch | None => [] end.

Definition drainSession g (p : pc) : option (shared * pc) :=
  match p with
  | Drain e single =>
    let ss := session_at g e in
    match takeBatch (pending ss) single with
    | None => Some (upd g e (set_queue false (pending ss) (turnCancel ss)), Release e)
    | Some (_, rest) =>
      let batch := batch_of (pending ss) single in
      if ctx_done g then
        Some (record (upd g e (set_queue false rest (turnCancel ss)))
                [Taken batch; Settled batch Interrupted], Release e)
      else
        let turn := next_turn g in
        let g := upd g e (set_queue (busy ss) rest (Some turn)) in
        Some (record {| mapped := mapped g; heap := heap g; cancelled := cancelled g;
                        next_turn := S turn; ctx_done := ctx_done g; history := history g |}
                [Taken batch], Run e single turn batch)
    end
  | Clear e single turn =>
    let ss := session_at g e in
    Some (upd g e (set_queue (busy ss) (pending ss) None), Drain e single)
  | _ => None
  end.

(** [turnSlot.acquire] waits for a slot or the end of the turn's context. *)
Definition runQueuedTurn (i : input) g (p : pc) : option (shared * pc) :=
  match p with
  | Run e single turn batch =>
    match mergeMessages batch with
    | None => None
    | Some m =>
      if bool_decide (Channel m = AgentMessageChannel) || in_slot i then
        Some (g, Turn e single turn batch)
      else if bool_decide (turn ∈ cancelled g) then
        Some (record g [Settled batch ToldCancelled], Clear e single turn)
      else if ctx_done g then Some (record g [Settled batch Interrupted], Clear e single turn)
      else None
    end
  | Turn e single turn batch => Some (record g [Settled batch Ran], Clear e single turn)
  | _ => None
  end.

(** What comes before, the answers of people in their own chats and the choice of
    the key and of [single], is outside the model. *)
Definition processSessionMessage (i : input) g (p : pc) : option (shared * pc) :=
  match p with
  | Start m single => let '(g, e) := acquireSession g in Some (g, Dispatch e m single)
  | Dispatch e m single =>
    if isCancelCommand (Content m) then
      let '(g, dropped) := cancel g e in Some (g, CReply e dropped m)
    else
      let ss := session_at g e in
      let g' := record (upd g e (set_queue true (pending ss ++ [m]) (turnCancel ss))) [Arrived m] in
      Some (g', if busy ss then Release e else Drain e single)
  | CReply e _ m => Some (g, CTurn e m)
  | CTurn e _ => Some (g, Release e)
  | Release e => Some (releaseSession (in_now i) g e, Done)
  | _ => None
  end.

Definition thread_step (i : input) g (p : pc) : option (shared * pc) :=
  match p with
  | Drain _ _ | Clear _ _ _ => drainSession g p
  | Run _ _ _ _ | Turn _ _ _ _ => runQueuedTurn i g p
  | RLoad | RRead _ => takeCancelResult g p
  | Done => None
  | _ => processSessionMessage i g p
  end.

(** ** Interleavings *)

Record state := { st_shared : shared; st_threads : gmap nat pc }.

Inductive step : state → state → Prop :=
| step_arrive st t m single :
    st_threads st !! t = None →
    step st {| st_shared := st_shared st; st_threads := <[t := Start m single]> (st_threads st) |}
| step_ask_result st t :
    st_threads st !! t = None →
    step st {| st_shared := st_shared st; st_threads := <[t := RLoad]> (st_threads st) |}
| step_thread st t p i g' p' :
    st_threads st !! t = Some p → thread_step i (st_shared st) p = Some (g', p') →
    step st {| st_shared := g'; st_threads := <[t := p']> (st_threads st) |}
| step_prune st now ttl :
    step st {| st_shared := pruneIdleSessions now ttl (st_shared st); st_threads := st_threads st |}
| step_shutdown st :
    step st {| st_shared := {| mapped := mapped (st_shared st); heap := heap (st_shared st);
                               cancelled := cancelled (st_shared st);
                               next_turn := next_turn (st_shared st); ctx_done := true;
                               history := history (st_shared st) |};
               st_threads := st_threads st |}.

Definition initial : state :=
  {| st_shared := {| mapped := None; heap := ∅; cancelled := ∅; next_turn := 0; ctx_done := false;
                     history := [] |};
     st_threads := ∅ |}.

Definition reachable (st : state) : Prop := rtc step initial st.

(** *** Views of a state *)

(** The session whose reference a thread holds. *)
Definition pc_session (p : pc) : option nat :=
  match p with
  | Dispatch e _ _ | Drain e _ | Run e _ _ _ | Turn e _ _ _ | Clear e _ _ | CReply e _ _
  | CTurn e _ | Release e => Some e
  | _ => None
  end.

(** The session a thread is the owner of. *)
Definition owner_of (p : pc) : option nat :=
  match p with
  | Drain e _ | Run e _ _ _ | Turn e _ _ _ | Clear e _ _ => Some e
  | _ => None
  end.

(** The turn of a thread, from the take to the end of its cancel function. *)
Definition turn_of (p : pc) : option (nat * nat) :=
  match p with
  | Run e _ n _ | Turn e _ n _ | Clear e _ n => Some (e, n)
  | _ => None
  end.

(** The batch a thread has taken and not dealt with. *)
Definition hand (p : pc) : option (list InboundMessage) :=
  match p with
  | Run _ _ _ b | Turn _ _ _ b => Some b
  | _ => None
  end.

Definition holds (e : nat) (p : pc) : Z := if bool_decide (pc_session p = Some e) then 1 else 0.
Definition owns (e : nat) (p : pc) : Z := if bool_decide (owner_of p = Some e) then 1 else 0.

(** What is queued for the key. *)
Definition queue g : list InboundMessage :=
  match mapped g with Some e => pending (session_at g e) | None => [] end.

(** The messages queued so far; those that left the queue, for a turn or
    dropped; the batches taken; the batches dealt with. *)
Definition arrived (h : list event) : list InboundMessage :=
  h ≫= λ ev, match ev with Arrived m => [m] | _ => [] end.
Definition left_queue (h : list event) : list InboundMessage :=
  h ≫= λ ev, match ev with Taken b => b | Dropped ms => ms | _ => [] end.
Definition taken (h : list event) : list (list InboundMessage) :=
  h ≫= λ ev, match ev with Taken b => [b] | _ => [] end.
Definition settled (h : list event) : list (list InboundMessage) :=
  h ≫= λ ev, match ev with Settled b _ => [b] | _ => [] end.

(** ** The invariant *)

Lemma owner_session p e : owner_of p = Some e → pc_session p = Some e.
Proof. by destruct p. Qed.

Lemma hand_owner p b : hand p = Some b → ∃ e, owner_of p = Some e.
Proof. destruct p; simpl; eauto; done. Qed.

Lemma turn_owner p e n : turn_of p = Some (e, n) → owner_of p = Some e.
Proof. destruct p; simpl; naive_solver. Qed.

Lemma holds_nonneg e p : 0 ≤ holds e p.
Proof. unfold holds. case_if; lia. Qed.

Lemma owns_nonneg e p : 0 ≤ owns e p.
Proof. unfold owns. case_if; lia. Qed.

(** *** References and owners *)

Record refs_inv g (T : gmap nat pc) : Prop := {
  ri_refs : ∀ e ss, heap g !! e = Some ss → refs ss = tally (holds e) T;
  ri_owner : ∀ e ss, heap g !! e = Some ss → tally (owns e) T = Z.b2z (busy ss);
  ri_held : ∀ t p e, T !! t = Some p → pc_session p = Some e → mapped g = Some e;
  ri_mapped : ∀ e, mapped g = Some e → is_Some (heap g !! e);
  ri_read : ∀ t e, T !! t = Some (RRead e) → is_Some (heap g !! e)
}.

Lemma session_at_Some g e ss : heap g !! e = Some ss → session_at g e = ss.
Proof. unfold session_at. by intros ->. Qed.

Lemma heap_session g e : is_Some (heap g !! e) → heap g !! e = Some (session_at g e).
Proof. intros [ss He]. by rewrite (session_at_Some g e ss). Qed.

Lemma session_at_upd g e f : session_at (upd g e f) e = f (session_at g e).
Proof. unfold session_at at 1. simpl. by rewrite lookup_insert_eq. Qed.

Lemma holder_mapped g T t p e :
  refs_inv g T → T !! t = Some p → pc_session p = Some e →
  mapped g = Some e ∧ heap g !! e = Some (session_at g e).
Proof.
  intros Hi Ht Hp. pose proof (ri_held _ _ Hi _ _ _ Ht Hp) as Hm.
  split; [done|]. apply heap_session, (ri_mapped _ _ Hi), Hm.
Qed.

Lemma owner_unique g T t t' p p' e e' :
  refs_inv g T → T !! t = Some p → T !! t' = Some p' →
  owner_of p = Some e → owner_of p' = Some e' → t = t'.
Proof.
  intros Hi Ht Ht' Ho Ho'. destruct (decide (t = t')) as [|Hne]; [done|exfalso].
  destruct (holder_mapped g T t p e Hi Ht (owner_session _ _ Ho)) as [Hm Hh].
  pose proof (ri_held _ _ Hi _ _ _ Ht' (owner_session _ _ Ho')) as Hm'.
  assert (e' = e) as -> by congruence.
  pose proof (ri_owner _ _ Hi _ _ Hh) as Hw.
  pose proof (tally_two (owns e) (owns_nonneg e) T t t' p p' Hne Ht Ht') as Hge.
  unfold owns in Hge at 1 2. rewrite !bool_decide_eq_true_2 in Hge by done.
  destruct (busy _); simpl in Hw; lia.
Qed.

Lemma owner_busy g T t p e :
  refs_inv g T → T !! t = Some p → owner_of p = Some e → busy (session_at g e) = true.
Proof.
  intros Hi Ht Ho. destruct (holder_mapped g T t p e Hi Ht (owner_session _ _ Ho)) as [_ Hh].
  pose proof (ri_owner _ _ Hi _ _ Hh) as Hw.
  pose proof (tally_ge (owns e) (owns_nonneg e) T t p Ht) as Hge.
  unfold owns in Hge at 1. rewrite bool_decide_eq_true_2 in Hge by done.
  destruct (busy _); simpl in Hw; [done|lia].
Qed.

(** A busy session has an owner. *)
Lemma busy_owner g T e ss :
  refs_inv g T → heap g !! e = Some ss → busy ss = true →
  ∃ t p, T !! t = Some p ∧ owner_of p = Some e.
Proof.
  intros Hi He Hb. pose proof (ri_owner _ _ Hi _ _ He) as Hw. rewrite Hb in Hw. simpl in Hw.
  apply dec_stable. intros Hno.
  rewrite (tally_zero (owns e) T) in Hw; [done|]. intros t p Ht. unfold owns.
  rewrite bool_decide_eq_false_2; [done|]. intros Ho. apply Hno. eauto.
Qed.

(** One thread's step, in terms of the one session it changes, if any. *)
Lemma dispatch_refs_step g g' T t p p' e ss' :
  refs_inv g T → T !! t = Some p → mapped g' = mapped g → is_Some (heap g !! e) →
  heap g' = <[e := ss']> (heap g) →
  (pc_session p = None ∨ pc_session p = Some e) →
  (pc_session p' = None ∨ pc_session p' = Some e ∧ mapped g = Some e) →
  (∀ x, p' = RRead x → is_Some (heap g !! x)) →
  refs ss' = refs (session_at g e) - holds e p + holds e p' →
  Z.b2z (busy ss') = Z.b2z (busy (session_at g e)) - owns e p + owns e p' →
  refs_inv g' (<[t := p']> T).
Proof.
  intros Hi Ht Hm [ss He] Hh Hp Hp' Hr Hrefs Hbusy.
  assert (Hpe : ∀ x q, pc_session q = None ∨ pc_session q = Some e → x ≠ e →
    holds x q = 0 ∧ owns x q = 0).
  { intros x q Hq Hx. unfold holds, owns. rewrite !bool_decide_eq_false_2; [done| |].
    - intros Ho. apply owner_session in Ho. destruct Hq; congruence.
    - destruct Hq; congruence. }
  assert (Hp'e : pc_session p' = None ∨ pc_session p' = Some e) by naive_solver.
  pose proof (session_at_Some _ _ _ He) as Hs. rewrite Hs in *. split; rewrite ?Hh, ?Hm.
  - intros x ssx. rewrite lookup_insert, (tally_insert _ _ _ _ _ Ht). case_decide as Hx.
    + intros [= <-]. subst x. rewrite <- (ri_refs _ _ Hi _ _ He). done.
    + intros Hx'. rewrite (ri_refs _ _ Hi _ _ Hx').
      destruct (Hpe x p Hp (not_eq_sym Hx)) as [-> _], (Hpe x p' Hp'e (not_eq_sym Hx)) as [-> _]. lia.
  - intros x ssx. rewrite lookup_insert, (tally_insert _ _ _ _ _ Ht). case_decide as Hx.
    + intros [= <-]. subst x. rewrite (ri_owner _ _ Hi _ _ He). done.
    + intros Hx'. rewrite (ri_owner _ _ Hi _ _ Hx').
      destruct (Hpe x p Hp (not_eq_sym Hx)) as [_ ->], (Hpe x p' Hp'e (not_eq_sym Hx)) as [_ ->]. lia.
  - intros t1 p1 x. rewrite lookup_insert. case_decide as Ht1.
    + intros [= <-] Hx. destruct Hp' as [|[? ?]]; [congruence|]. congruence.
    + apply (ri_held _ _ Hi).
  - intros x Hx. rewrite lookup_insert. case_decide; [by eexists|]. by apply (ri_mapped _ _ Hi).
  - intros t1 x Ht1. assert (Hx : is_Some (heap g !! x)).
    { revert Ht1. rewrite lookup_insert. case_decide; [intros [= ->]; by apply Hr|].
      apply (ri_read _ _ Hi). }
    rewrite lookup_insert. case_decide; [by eexists|done].
Qed.

(** A step that changes no session and leaves the thread as it was in this view. *)
Lemma refs_inv_same g g' T t p p' :
  refs_inv g T → T !! t = Some p → mapped g' = mapped g → heap g' = heap g →
  pc_session p' = pc_session p → owner_of p' = owner_of p →
  (∀ x, p' = RRead x → is_Some (heap g !! x)) → refs_inv g' (<[t := p']> T).
Proof.
  intros Hi Ht Hm Hh Hs Ho Hr.
  assert (Hw : ∀ x, holds x p' = holds x p ∧ owns x p' = owns x p)
    by (intros x; unfold holds, owns; by rewrite Hs, Ho).
  split; rewrite ?Hh, ?Hm.
  - intros x ssx Hx. rewrite (tally_insert _ _ _ _ _ Ht), (ri_refs _ _ Hi _ _ Hx).
    destruct (Hw x). lia.
  - intros x ssx Hx. rewrite (tally_insert _ _ _ _ _ Ht), (ri_owner _ _ Hi _ _ Hx).
    destruct (Hw x). lia.
  - intros t1 p1 x. rewrite lookup_insert. case_decide.
    + intros [= <-] Hx. apply (ri_held _ _ Hi t p). { done. } congruence.
    + apply (ri_held _ _ Hi).
  - apply (ri_mapped _ _ Hi).
  - intros t1 x. rewrite lookup_insert. case_decide; [intros [= ->]; by apply Hr|].
    apply (ri_read _ _ Hi).
Qed.

(** The first message of a session creates its entry. *)
Lemma refs_inv_create g g' T t p p' e ss' :
  refs_inv g T → T !! t = Some p → mapped g = None → heap g !! e = None →
  mapped g' = Some e → heap g' = <[e := ss']> (heap g) →
  pc_session p = None → pc_session p' = Some e → owner_of p' = None →
  refs ss' = 1 → busy ss' = false → (∀ x, p' ≠ RRead x) → refs_inv g' (<[t := p']> T).
Proof.
  intros Hi Ht Hm He Hm' Hh Hp Hp' Ho Hr Hb Hnr.
  assert (Hnone : ∀ t1 p1, T !! t1 = Some p1 → pc_session p1 = None).
  { intros t1 p1 Ht1. destruct (pc_session p1) eqn:Hs; [|done].
    pose proof (ri_held _ _ Hi _ _ _ Ht1 Hs). congruence. }
  assert (Hz : ∀ x, tally (holds x) T = 0 ∧ tally (owns x) T = 0).
  { intros x. split; apply tally_zero; intros t1 p1 Ht1; pose proof (Hnone _ _ Ht1) as Hs;
      unfold holds, owns; rewrite bool_decide_eq_false_2; try done; [congruence|].
    intros Ho1%owner_session. congruence. }
  assert (Hw : ∀ x, holds x p' = (if decide (e = x) then 1 else 0) ∧ owns x p' = 0 ∧
    holds x p = 0 ∧ owns x p = 0).
  { intros x. unfold holds, owns. rewrite Hp, Hp', Ho.
    assert (owner_of p = None) as ->.
    { destruct (owner_of p) eqn:Hop; [|done]. apply owner_session in Hop. congruence. }
    split_and!; try done. case_decide; [by rewrite bool_decide_eq_true_2 by congruence|].
    by rewrite bool_decide_eq_false_2 by congruence. }
  split; rewrite ?Hh, ?Hm'.
  - intros x ssx. rewrite lookup_insert, (tally_insert _ _ _ _ _ Ht).
    destruct (Hw x) as (-> & _ & -> & _), (Hz x) as [Hz' _]. case_decide as Hx.
    + intros [= <-]. lia.
    + intros Hx'. pose proof (ri_refs _ _ Hi _ _ Hx'). lia.
  - intros x ssx. rewrite lookup_insert, (tally_insert _ _ _ _ _ Ht).
    destruct (Hw x) as (_ & -> & _ & ->), (Hz x) as [_ Hz']. case_decide as Hx.
    + intros [= <-]. rewrite Hb, Hz'. done.
    + intros Hx'. pose proof (ri_owner _ _ Hi _ _ Hx'). lia.
  - intros t1 p1 x. rewrite lookup_insert. case_decide.
    + intros [= <-] Hx. congruence.
    + intros Ht1 Hx. rewrite (Hnone _ _ Ht1) in Hx. done.
  - intros x [= <-]. rewrite lookup_insert_eq. by eexists.
  - intros t1 x Ht1. assert (Hx : is_Some (heap g !! x)).
    { revert Ht1. rewrite lookup_insert. case_decide; [intros [= ->]; by destruct (Hnr x)|].
      apply (ri_read _ _ Hi). }
    rewrite lookup_insert. case_decide; [by eexists|done].
Qed.

Lemma insert_same g e : is_Some (heap g !! e) → heap g = <[e := session_at g e]> (heap g).
Proof. intros He%heap_session. by rewrite insert_id. Qed.

(** The weights of the program points at their own session. *)
Ltac weights :=
  unfold holds, owns; simpl;
  repeat first [rewrite bool_decide_eq_true_2 by congruence
               |rewrite bool_decide_eq_false_2 by congruence].

Lemma acquire_refs g T t m single :
  refs_inv g T → T !! t = Some (Start m single) →
  refs_inv (acquireSession g).1 (<[t := Dispatch (acquireSession g).2 m single]> T).
Proof.
  intros Hi Ht. unfold acquireSession. destruct (mapped g) as [e|] eqn:Hm; cbn [fst snd].
  - apply (dispatch_refs_step g _ T t (Start m single) _ e (set_refs 1 (session_at g e))); auto.
    + by apply (ri_mapped _ _ Hi).
    + done.
    + simpl. weights. lia.
    + simpl. weights. lia.
  - pose proof (is_fresh (dom (heap g) : gset nat)) as Hf. apply not_elem_of_dom in Hf.
    eapply (refs_inv_create g _ T t (Start m single) _ (fresh (dom (heap g) : gset nat)));
      try done; simpl; try reflexivity; try exact Hf;
      rewrite ?insert_insert_eq; try reflexivity; unfold session_at; simpl;
      by rewrite lookup_insert_eq.
Qed.

Lemma dispatch_step_refs i t g p g' p' T :
  refs_inv g T → T !! t = Some p → thread_step i g p = Some (g', p') →
  refs_inv g' (<[t := p']> T).
Proof.
  intros Hi Ht Hstep.
  assert (Hheld : ∀ e, pc_session p = Some e → mapped g = Some e ∧ is_Some (heap g !! e)).
  { intros e Hp. destruct (holder_mapped _ _ _ _ _ Hi Ht Hp) as [? Hh]. rewrite Hh. by split. }
  assert (Hbusy : ∀ e, owner_of p = Some e → busy (session_at g e) = true)
    by (intros e; by apply (owner_busy g T t p)).
  destruct p as [m single|e m single|e single|e single n b|e single n b|e single n|e ms m|e m|e| |e|];
    simpl in Hstep; try (destruct (Hheld e eq_refl) as [Hm He]);
    try (specialize (Hbusy e eq_refl)).
  - destruct (acquireSession g) as [g1 e] eqn:Ha. injection Hstep as <- <-.
    pose proof (acquire_refs g T t m single Hi Ht) as Hacq. by rewrite Ha in Hacq.
  - case_match; [destruct (cancel g e) as [g1 d] eqn:Hc|]; injection Hstep as <- <-.
    + unfold cancel in Hc. destruct (turnCancel _); injection Hc as <- <-;
        (eapply (dispatch_refs_step g _ T t (Dispatch e m single) _ e);
          [done|done|done|done|reflexivity|by right|by right|done| |]; simpl;
          unfold record, session_at; simpl; weights; lia).
    + eapply (dispatch_refs_step g _ T t (Dispatch e m single) _ e);
        [done|done|done|done|reflexivity|by right|right; by destruct (busy _)|by destruct (busy _)| |];
        simpl; destruct (busy _); weights; simpl; lia.
  - destruct (takeBatch _ _) as [[m rest]|]; [destruct (ctx_done g)|];
      injection Hstep as <- <-;
      (eapply (dispatch_refs_step g _ T t (Drain e single) _ e);
        [done|done|done|done|reflexivity|by right|by right|done| |]; simpl;
        rewrite ?Hbusy; weights; simpl; lia).
  - repeat case_match; try done; injection Hstep as <- <-;
      (eapply (refs_inv_same g _ T t); [done|done|done|done|done|done|done]).
  - injection Hstep as <- <-. by eapply (refs_inv_same g _ T t).
  - injection Hstep as <- <-.
    eapply (dispatch_refs_step g _ T t (Clear e single n) _ e);
      [done|done|done|done|reflexivity|by right|by right|done| |]; simpl; weights; lia.
  - injection Hstep as <- <-. by eapply (refs_inv_same g _ T t).
  - injection Hstep as <- <-. by eapply (refs_inv_same g _ T t).
  - injection Hstep as <- <-.
    eapply (dispatch_refs_step g _ T t (Release e) _ e);
      [done|done|done|done|reflexivity|by right|by left|done| |]; simpl; weights; lia.
  - case_match; injection Hstep as <- <-; eapply (refs_inv_same g _ T t); try done.
    intros x [= <-]. by apply (ri_mapped _ _ Hi).
  - injection Hstep as <- <-. pose proof (ri_read _ _ Hi _ _ Ht) as He.
    eapply (dispatch_refs_step g _ T t (RRead e) _ e);
      [done|done|done|done|reflexivity|by left|by left|done| |]; simpl; weights; lia.
  - done.
Qed.

(** *** The queue *)

Record queue_inv g : Prop := {
  qi_idle : ctx_done g = false → ∀ e ss, heap g !! e = Some ss → busy ss = false → pending ss = [];
  qi_fifo : ctx_done g = false → ∀ c,
    on_chat c (arrived (history g)) = on_chat c (left_queue (history g)) ++ on_chat c (queue g)
}.

(** A step on the mapped session. *)
Lemma queue_inv_step g g' e ss' evs :
  queue_inv g → mapped g = Some e → mapped g' = Some e → heap g' = <[e := ss']> (heap g) →
  ctx_done g' = ctx_done g → history g' = history g ++ evs →
  (ctx_done g = false →
    (busy ss' = false → pending ss' = []) ∧
    ∀ c, on_chat c (pending (session_at g e) ++ arrived evs) =
         on_chat c (left_queue evs ++ pending ss')) →
  queue_inv g'.
Proof.
  intros [Hidle Hfifo] Hm Hm' Hh Hc He Hstep. split; rewrite Hc; intros Halive;
    destruct (Hstep Halive) as [Hb Hq].
  - intros x ss. rewrite Hh, lookup_insert. case_decide; [intros [= <-]; exact Hb|].
    by apply Hidle.
  - intros c. specialize (Hfifo Halive c). specialize (Hq c). rewrite He. revert Hfifo.
    unfold queue. rewrite Hm, Hm'. unfold session_at at 2. rewrite Hh, lookup_insert_eq. simpl.
    unfold arrived, left_queue in *. rewrite !bind_app, !on_chat_app in *. intros ->.
    rewrite <- !app_assoc. f_equal. exact Hq.
Qed.

(** A step that leaves the queues alone. *)
Lemma queue_inv_same g g' :
  queue_inv g → mapped g' = mapped g → heap g' = heap g → ctx_done g' = ctx_done g →
  arrived (history g') = arrived (history g) → left_queue (history g') = left_queue (history g) →
  queue_inv g'.
Proof.
  intros [Hidle Hfifo] Hm Hh Hc Ha Hl. unfold queue, session_at in *.
  split; rewrite Hc, ?Hh; [done|]. intros ? c. unfold queue, session_at. rewrite Hm, Hh, Ha, Hl.
  by apply Hfifo.
Qed.

Ltac queues := unfold arrived, left_queue; simpl; rewrite ?bind_app; simpl; rewrite ?app_nil_r.

Lemma mapped_idle g T e :
  refs_inv g T → queue_inv g → mapped g = Some e → ctx_done g = false →
  busy (session_at g e) = false → pending (session_at g e) = [].
Proof.
  intros Hi Hq Hm Hc. apply (qi_idle _ Hq Hc e), heap_session, (ri_mapped _ _ Hi), Hm.
Qed.

Lemma acquire_queue g T : refs_inv g T → queue_inv g → queue_inv (acquireSession g).1.
Proof.
  intros Hi Hq. unfold acquireSession. destruct (mapped g) as [e|] eqn:Hm; cbn [fst].
  - apply (queue_inv_step g _ e (set_refs 1 (session_at g e)) []); rewrite ?app_nil_r; try done.
    intros Hc. split; [by apply (mapped_idle g T)|]. intros c. by queues.
  - pose proof (is_fresh (dom (heap g) : gset nat)) as Hf. apply not_elem_of_dom in Hf.
    destruct Hq as [Hid Hff]. split; simpl.
    + rewrite insert_insert_eq. intros Hc x ss. rewrite lookup_insert.
      case_decide; [|by apply Hid]. intros [= <-]. unfold session_at. simpl. by rewrite lookup_insert_eq.
    + intros Hc c. rewrite (Hff Hc). unfold queue. rewrite Hm. simpl. unfold session_at. simpl.
      rewrite !lookup_insert_eq. simpl. unfold session_at. simpl. by rewrite lookup_insert_eq.
Qed.

(** Reading a cancellation's result leaves every queue alone, also that of an
    entry that is no longer the key's. *)
Lemma read_result_queue g g' e p' :
  is_Some (heap g !! e) → queue_inv g → takeCancelResult g (RRead e) = Some (g', p') → queue_inv g'.
Proof.
  intros He [Hid Hff] Hstep. simpl in Hstep. injection Hstep as <- <-.
  pose proof (heap_session _ _ He) as Hss. split; simpl.
  - intros Hc x ss. rewrite lookup_insert. case_decide; [|by apply Hid].
    intros [= <-]. exact (Hid Hc e _ Hss).
  - intros Hc c. queues. etransitivity; [exact (Hff Hc c)|]. f_equal. f_equal. unfold queue. simpl.
    destruct (mapped g) as [x|]; [|done]. unfold session_at at 2. simpl.
    rewrite lookup_insert. by case_decide; subst.
Qed.

Lemma thread_step_queue i t g p g' p' T :
  refs_inv g T → queue_inv g → T !! t = Some p → thread_step i g p = Some (g', p') → queue_inv g'.
Proof.
  intros Hi Hq Ht Hstep.
  assert (Hheld : ∀ e, pc_session p = Some e → mapped g = Some e).
  { intros e Hp. by destruct (holder_mapped _ _ _ _ _ Hi Ht Hp). }
  assert (Hbusy : ∀ e, owner_of p = Some e → busy (session_at g e) = true)
    by (intros e; by apply (owner_busy g T t p)).
  pose proof (λ e, mapped_idle g T e Hi Hq) as Hidle.
  destruct p as [m single|e m single|e single|e single n b|e single n b|e single n|e ms m|e m|e| |e|];
    simpl in Hstep; try (pose proof (Hheld e eq_refl) as Hm); try (specialize (Hbusy e eq_refl)).
  - pose proof (acquire_queue g T Hi Hq) as Hacq.
    destruct (acquireSession g) as [g1 e]. by injection Hstep as <- <-.
  - case_match; [destruct (cancel g e) as [g1 d] eqn:Hcn|]; injection Hstep as <- <-.
    + unfold cancel in Hcn. destruct (turnCancel _); injection Hcn as <- <-;
        (eapply (queue_inv_step g _ e _ [Dropped (pending (session_at g e))]);
          [done|done|done|reflexivity|done|done|]);
        (intros _; split; [done|]; intros c; by queues).
    + eapply (queue_inv_step g _ e _ [Arrived m]); [done|done|done|reflexivity|done|done|].
      intros _. split; [done|]. intros c. done.
  - destruct (takeBatch _ _) as [[m rest]|] eqn:Hb.
    + apply takeBatch_Some in Hb as (batch & Hs & _).
      pose proof (split_batch_chats _ _ _ _ Hs) as Hch.
      assert (Hof : batch_of (pending (session_at g e)) single = batch)
        by (unfold batch_of; by rewrite Hs).
      destruct (ctx_done g) eqn:Hc; injection Hstep as <- <-.
      * split; simpl; congruence.
      * eapply (queue_inv_step g _ e _ [Taken batch]);
          [done|done|done|reflexivity|done|simpl; by rewrite Hof|].
        intros _. split; [simpl; congruence|]. intros c. queues. rewrite on_chat_app. apply Hch.
    + injection Hstep as <- <-. apply takeBatch_None in Hb.
      eapply (queue_inv_step g _ e _ []);
        [done|done|done|reflexivity|done|by rewrite app_nil_r|].
      intros _. rewrite Hb. by split.
  - repeat case_match; try done; injection Hstep as <- <-; apply (queue_inv_same g); try done;
      by queues.
  - injection Hstep as <- <-. apply (queue_inv_same g); try done;
      by queues.
  - injection Hstep as <- <-. eapply (queue_inv_step g _ e _ []);
      [done|done|done|reflexivity|done|by rewrite app_nil_r|].
    intros Hc. split; [simpl; congruence|]. intros c. by queues.
  - by injection Hstep as <- <-.
  - by injection Hstep as <- <-.
  - injection Hstep as <- <-. eapply (queue_inv_step g _ e _ []);
      [done|done|done|reflexivity|done|by rewrite app_nil_r|].
    intros Hc. split; [by apply Hidle|]. intros c. by queues.
  - case_match; injection Hstep as <- <-; [done|].
    apply (queue_inv_same g); try done; by queues.
  - eapply read_result_queue; [exact (ri_read _ _ Hi _ _ Ht)|exact Hq|exact Hstep].
  - done.
Qed.

(** *** Turns *)

Record turn_inv g (T : gmap nat pc) : Prop := {
  ti_turn : ∀ t p b e n, T !! t = Some p → hand p = Some b → turn_of p = Some (e, n) →
    turnCancel (session_at g e) = Some n ∨ n ∈ cancelled g ∨ ctx_done g = true;
  ti_cancel : ∀ e n, turnCancel (session_at g e) = Some n →
    ∃ t p, T !! t = Some p ∧ turn_of p = Some (e, n);
  ti_hand : ∀ t p b, T !! t = Some p → hand p = Some b →
    is_Some (mergeMessages b) ∧ taken (history g) = settled (history g) ++ [b];
  ti_rest : (∀ t p, T !! t = Some p → hand p = None) → taken (history g) = settled (history g)
}.

(** A step of a thread with no turn. *)
Lemma turn_inv_other g g' T t p p' :
  turn_inv g T → T !! t = Some p → hand p = None → turn_of p = None →
  hand p' = None → turn_of p' = None →
  taken (history g') = taken (history g) → settled (history g') = settled (history g) →
  ctx_done g' = ctx_done g → cancelled g ⊆ cancelled g' →
  (∀ e, turnCancel (session_at g' e) = turnCancel (session_at g e) ∨
        turnCancel (session_at g' e) = None ∧
        ∀ n, turnCancel (session_at g e) = Some n → n ∈ cancelled g' ∨ ctx_done g' = true) →
  turn_inv g' (<[t := p']> T).
Proof.
  intros [Ht Hc Hh Hr] Hp Hhp Htp Hhp' Htp' Hta Hse Hd Hcan Htc.
  split; rewrite ?Hta, ?Hse.
  - intros t1 p1 b e n. rewrite lookup_insert. case_decide; [congruence|].
    intros Hp1 Hb Hn. destruct (Ht t1 p1 b e n Hp1 Hb Hn) as [H1|[H1|H1]].
    + destruct (Htc e) as [->|[_ Hx]]; [by left|right]. by apply Hx.
    + right; left. set_solver.
    + right; right. congruence.
  - intros e n Hn. destruct (Htc e) as [He|[He _]]; rewrite He in Hn; [|done].
    destruct (Hc e n Hn) as (t1 & p1 & Hp1 & Hn1). exists t1, p1.
    rewrite lookup_insert_ne; [done|congruence].
  - intros t1 p1 b. rewrite lookup_insert. case_decide; [congruence|]. apply Hh.
  - intros Hall. apply Hr. intros t1 p1 Hp1. destruct (decide (t1 = t)) as [->|Hne].
    + congruence.
    + apply (Hall t1). by rewrite lookup_insert_ne.
Qed.

(** A step of the owner: no other thread has a turn. *)
Lemma turn_inv_owner g' T t p' :
  (∀ t1 p1, t1 ≠ t → T !! t1 = Some p1 → hand p1 = None) →
  (∀ b e n, hand p' = Some b → turn_of p' = Some (e, n) →
     turnCancel (session_at g' e) = Some n ∨ n ∈ cancelled g' ∨ ctx_done g' = true) →
  (∀ e n, turnCancel (session_at g' e) = Some n → turn_of p' = Some (e, n)) →
  (∀ b, hand p' = Some b →
     is_Some (mergeMessages b) ∧ taken (history g') = settled (history g') ++ [b]) →
  (hand p' = None → taken (history g') = settled (history g')) →
  turn_inv g' (<[t := p']> T).
Proof.
  intros Hno Ht Hc Hh Hr. split.
  - intros t1 p1 b e n. rewrite lookup_insert. case_decide.
    + intros [= <-]. by apply Ht.
    + intros Hp1 Hb. rewrite (Hno t1 p1) in Hb; by try congruence.
  - intros e n Hn. exists t, p'. rewrite lookup_insert_eq. split; [done|]. by apply Hc.
  - intros t1 p1 b. rewrite lookup_insert. case_decide.
    + intros [= <-]. apply Hh.
    + intros Hp1 Hb. rewrite (Hno t1 p1) in Hb; by try congruence.
  - intros Hall. apply Hr. apply (Hall t). by rewrite lookup_insert_eq.
Qed.

Lemma acquire_turns g e : turnCancel (session_at (acquireSession g).1 e) = turnCancel (session_at g e).
Proof.
  assert (Hset : ∀ g x, turnCancel (session_at (upd g x (set_refs 1)) e) = turnCancel (session_at g e)).
  { intros g1 x. unfold session_at at 1. simpl. rewrite lookup_insert. by case_decide; subst. }
  unfold acquireSession. destruct (mapped g) as [x|]; simpl; rewrite Hset; [done|].
  unfold session_at. simpl. rewrite lookup_insert. case_decide as Hx; [|done]. rewrite <- Hx.
  pose proof (is_fresh (dom (heap g) : gset nat)) as Hf%not_elem_of_dom. by rewrite Hf.
Qed.

Ltac turns := unfold taken, settled; simpl; rewrite ?bind_app; simpl; rewrite ?app_nil_r.

Lemma turn_at g' g e ss x :
  heap g' = <[e := ss]> (heap g) →
  turnCancel (session_at g' x) = if decide (e = x) then turnCancel ss else turnCancel (session_at g x).
Proof. intros Hh. unfold session_at. rewrite Hh, lookup_insert. by case_decide. Qed.

Lemma owner_step_turns i t g p g' p' e T :
  refs_inv g T → turn_inv g T → T !! t = Some p → thread_step i g p = Some (g', p') →
  owner_of p = Some e → turn_inv g' (<[t := p']> T).
Proof.
  intros Hi Htn Ht Hstep Ho.
  assert (Hno : ∀ t1 p1, t1 ≠ t → T !! t1 = Some p1 → owner_of p1 = None).
  { intros t1 p1 Hne Hp1. destruct (owner_of p1) as [e1|] eqn:Ho1; [|done].
    destruct Hne. by eapply (owner_unique g T t1 t). }
  assert (Hnoh : ∀ t1 p1, t1 ≠ t → T !! t1 = Some p1 → hand p1 = None).
  { intros t1 p1 Hne Hp1. destruct (hand p1) as [b|] eqn:Hb; [|done].
    apply hand_owner in Hb as [e1 He1]. rewrite (Hno t1 p1) in He1; done. }
  assert (Hcan : ∀ x n, turnCancel (session_at g x) = Some n → turn_of p = Some (x, n)).
  { intros x n Hn. destruct (ti_cancel _ _ Htn x n Hn) as (t1 & p1 & Hp1 & Hn1).
    destruct (decide (t1 = t)) as [->|Hne]; [congruence|].
    apply turn_owner in Hn1. rewrite (Hno t1 p1) in Hn1; done. }
  assert (Hrest : hand p = None → taken (history g) = settled (history g)).
  { intros Hh. apply (ti_rest _ _ Htn). intros t1 p1 Hp1.
    destruct (decide (t1 = t)) as [->|Hne]; [congruence|by apply (Hnoh t1)]. }
  pose proof (λ b, ti_hand _ _ Htn t p b Ht) as Hhand.
  pose proof (λ b e n, ti_turn _ _ Htn t p b e n Ht) as Hturn. clear Htn Hno.
  destruct p as [| |x single|x single n b|x single n b|x single n| | | | | |]; try done;
    simpl in Hstep, Hcan, Hrest, Hhand, Hturn.
  - destruct (takeBatch _ _) as [[m rest]|] eqn:Hb; [destruct (ctx_done g) eqn:Hc|];
      injection Hstep as <- <-; (apply turn_inv_owner; [exact Hnoh|..]); simpl; try done.
    + intros y n. erewrite turn_at by reflexivity. case_decide; [subst|]; apply Hcan.
    + intros _. turns. f_equal. exact (Hrest eq_refl).
    + intros b y n _ [= <- <-]. left. erewrite turn_at by reflexivity. by rewrite decide_True.
    + intros y n. erewrite turn_at by reflexivity.
      case_decide as Hy; [by intros [= <-]; subst|]. intros Hn%Hcan. done.
    + intros b [= <-]. apply takeBatch_Some in Hb as (batch & Hs & Hm).
      unfold batch_of. rewrite Hs. split; [by eexists|]. turns. f_equal. exact (Hrest eq_refl).
    + intros y n. erewrite turn_at by reflexivity. case_decide; [subst|]; apply Hcan.
  - destruct (Hhand b eq_refl) as [[m Hm] Htk]. rewrite Hm in Hstep.
    repeat case_match; try done; injection Hstep as <- <-; (apply turn_inv_owner; [exact Hnoh|..]);
      simpl; try done; try exact Hcan; try (intros _; turns; exact Htk).
  - destruct (Hhand b eq_refl) as [[m Hm] Htk]. injection Hstep as <- <-.
    apply turn_inv_owner; [exact Hnoh|..]; simpl; try done; try exact Hcan; intros _; turns; exact Htk.
  - injection Hstep as <- <-. apply turn_inv_owner; [exact Hnoh|done|..]; simpl; try done.
    intros y n'. erewrite turn_at by reflexivity. case_decide as Hy; [done|].
    intros [= ? ?]%Hcan. congruence.
Qed.

Lemma other_step_turns i t g p g' p' T :
  turn_inv g T → T !! t = Some p → thread_step i g p = Some (g', p') →
  owner_of p = None → turn_inv g' (<[t := p']> T).
Proof.
  intros Htn Ht Hstep Ho.
  assert (Hsame : ∀ g1 e ss, heap g1 = <[e := ss]> (heap g) → turnCancel ss = turnCancel (session_at g e) →
    ∀ x, turnCancel (session_at g1 x) = turnCancel (session_at g x) ∨
      turnCancel (session_at g1 x) = None ∧
      ∀ n, turnCancel (session_at g x) = Some n → n ∈ cancelled g1 ∨ ctx_done g1 = true).
  { intros g1 e ss Hh Hss x. left. erewrite turn_at by exact Hh. by case_decide; subst. }
  destruct p as [m single|e m single| | | | |e ms m|e m|e| |e|]; try done; simpl in Hstep.
  - destruct (acquireSession g) as [g1 e] eqn:Ha. injection Hstep as <- <-.
    assert (Hg1 : history g1 = history g ∧ ctx_done g1 = ctx_done g ∧ cancelled g1 = cancelled g).
    { unfold acquireSession in Ha. by destruct (mapped g); injection Ha as <- <-. }
    destruct Hg1 as (Hh & Hc & Hk). apply (turn_inv_other g _ T t (Start m single)); rewrite ?Hh, ?Hk; try done.
    intros x. left. rewrite <- (acquire_turns g x), Ha. done.
  - case_match; [destruct (cancel g e) as [g1 d] eqn:Hcn|]; injection Hstep as <- <-.
    + unfold cancel in Hcn. destruct (turnCancel (session_at g e)) as [n|] eqn:Hn;
        injection Hcn as <- <-;
        (apply (turn_inv_other g _ T t (Dispatch e m single)); try done; [by turns|by turns|..]).
      * simpl. case_if; set_solver.
      * intros x. erewrite turn_at by reflexivity. case_decide as Hx; [right|by left].
        split; [done|]. subst x. simpl. rewrite Hn. intros n1 [= <-].
        destruct (ctx_done g); [by right|left; set_solver].
      * intros x. left. erewrite turn_at by reflexivity. case_decide; [by subst|done].
    + apply (turn_inv_other g _ T t (Dispatch e m single)); try done;
        try (by destruct (busy _)); [by turns|by turns|]. by eapply Hsame.
  - injection Hstep as <- <-. apply (turn_inv_other g _ T t (CReply e ms m)); try done. by left.
  - injection Hstep as <- <-. apply (turn_inv_other g _ T t (CTurn e m)); try done. by left.
  - injection Hstep as <- <-. apply (turn_inv_other g _ T t (Release e)); try done. by eapply Hsame.
  - case_match; injection Hstep as <- <-; apply (turn_inv_other g _ T t RLoad); try done;
      try (by turns); by left.
  - injection Hstep as <- <-. apply (turn_inv_other g _ T t (RRead e)); try done;
      [by turns|by turns|]. by eapply Hsame.
Qed.

(** *** Reachable states *)

Record state_inv (st : state) : Prop := {
  si_refs : refs_inv (st_shared st) (st_threads st);
  si_queue : queue_inv (st_shared st);
  si_turns : turn_inv (st_shared st) (st_threads st)
}.

(** A new thread holds nothing. *)
Lemma dispatch_spawn_inv st t p :
  state_inv st → st_threads st !! t = None → pc_session p = None → owner_of p = None →
  hand p = None → turn_of p = None → (∀ e, p ≠ RRead e) →
  state_inv {| st_shared := st_shared st; st_threads := <[t := p]> (st_threads st) |}.
Proof.
  intros [[Hr1 Hr2 Hr3 Hr4 Hr5] Hq [Ht1 Ht2 Ht3 Ht4]] Hnew Hs Ho Hh Htu Hnr.
  assert (Hw : ∀ x, holds x p = 0 ∧ owns x p = 0) by (intros x; unfold holds, owns; by rewrite Hs, Ho).
  split; [split|done|split]; simpl.
  - intros e ss He. destruct (Hw e). rewrite tally_insert_new, <- (Hr1 e ss He) by done. lia.
  - intros e ss He. destruct (Hw e). rewrite tally_insert_new, (Hr2 e ss He) by done. lia.
  - intros t1 p1 e. rewrite lookup_insert. case_decide; [congruence|]. apply Hr3.
  - done.
  - intros t1 e. rewrite lookup_insert. case_decide; [intros [= ->]; by destruct (Hnr e)|]. apply Hr5.
  - intros t1 p1 b e n. rewrite lookup_insert. case_decide; [congruence|]. apply Ht1.
  - intros e n Hn. destruct (Ht2 e n Hn) as (t1 & p1 & Hp1 & Hn1). exists t1, p1.
    rewrite lookup_insert_ne; [done|congruence].
  - intros t1 p1 b. rewrite lookup_insert. case_decide; [congruence|]. apply Ht3.
  - intros Hall. apply Ht4. intros t1 p1 Hp1. apply (Hall t1). rewrite lookup_insert_ne; congruence.
Qed.

(** Only a session nobody holds is pruned, and then nothing is queued. *)
Lemma prune_inv st now ttl :
  state_inv st →
  state_inv {| st_shared := pruneIdleSessions now ttl (st_shared st); st_threads := st_threads st |}.
Proof.
  intros [Hr Hq Ht]. unfold pruneIdleSessions.
  destruct (mapped (st_shared st)) as [e|] eqn:Hm; [|by destruct st].
  case_if; [|by destruct st]. zb.
  pose proof (heap_session _ _ (ri_mapped _ _ Hr e Hm)) as He.
  assert (Hz : tally (holds e) (st_threads st) = 0) by (rewrite <- (ri_refs _ _ Hr e _ He); done).
  assert (Hnone : ∀ t p, st_threads st !! t = Some p → pc_session p ≠ Some e).
  { intros t p Hp Hs. pose proof (tally_ge (holds e) (holds_nonneg e) _ t p Hp) as Hge.
    unfold holds in Hge at 1. rewrite bool_decide_eq_true_2 in Hge by done. lia. }
  split; simpl.
  - split; simpl; try apply Hr; [|done]. intros t p x Hp Hs.
    pose proof (ri_held _ _ Hr t p x Hp Hs) as Hx. rewrite Hm in Hx. injection Hx as <-.
    by destruct (Hnone t p Hp).
  - destruct Hq as [Hid Hff]. split; [done|]. intros Hc c. specialize (Hff Hc c). simpl. rewrite Hff.
    f_equal. unfold queue. simpl. rewrite Hm. rewrite (Hid Hc e _ He); [done|].
    pose proof (ri_owner _ _ Hr e _ He) as Hb. destruct (busy _) eqn:Hbusy; [|done]. exfalso.
    destruct (busy_owner _ _ e _ Hr He Hbusy) as (t & p & Hp & Hop).
    apply (Hnone t p Hp). by apply owner_session.
  - by destruct Ht.
Qed.

Lemma dispatch_reachable_inv st : reachable st → state_inv st.
Proof.
  intros Hr. unfold reachable in Hr. apply rtc_ind_r with (P := state_inv) (x := initial) in Hr; [done| |].
  - split; split; simpl; try done; intros *; rewrite ?lookup_empty; try done.
  - clear st Hr. intros st st' _ Hs Hi. destruct Hs as [st t m single Ht|st t Ht|st t p i g' p' Hp Hs|st now ttl|st].
    + by apply dispatch_spawn_inv.
    + by apply dispatch_spawn_inv.
    + destruct Hi as [Hr Hq Ht]. split; simpl.
      * by eapply dispatch_step_refs.
      * by eapply thread_step_queue.
      * destruct (owner_of p) eqn:Ho; [by eapply owner_step_turns|by eapply other_step_turns].
    + by apply prune_inv.
    + destruct Hi as [Hr Hq Ht]. split; simpl; [by destruct Hr|by split|].
      destruct Ht. split; simpl; try done. intros; right; by right.
Qed.

(** ** Properties *)

(** C33. Turns of one session never overlap and no message is lost. Whatever the
    interleaving of arriving messages, cancellations, prunes and shutdown: at
    most one goroutine waits for or runs a turn taken from the queue, and the
    batches are dealt with in the order they were taken; until shutdown, the
    messages of each chat that arrived are, in order, those that left the queue
    followed by those still in it; and when every goroutine has returned, the
    queue is empty, every batch was dealt with, and the session's entry is idle
    with no reference. *)
Theorem dispatch_in_order (st : state) (Hr : reachable st) :
  let g := st_shared st in
  (∀ t t' p p' b b', st_threads st !! t = Some p → st_threads st !! t' = Some p' →
     hand p = Some b → hand p' = Some b' → t = t') ∧
  (∀ t p b, st_threads st !! t = Some p → hand p = Some b →
     taken (history g) = settled (history g) ++ [b]) ∧
  (ctx_done g = false → ∀ c,
     on_chat c (arrived (history g)) = on_chat c (left_queue (history g)) ++ on_chat c (queue g)) ∧
  ((∀ t p, st_threads st !! t = Some p → p = Done) →
     taken (history g) = settled (history g) ∧ (ctx_done g = false → queue g = []) ∧
     ∀ e, mapped g = Some e → busy (session_at g e) = false ∧ refs (session_at g e) = 0).
Proof.
  apply dispatch_reachable_inv in Hr as [Hr Hq Ht]. cbv zeta. split_and!.
  - intros t t' p p' b b' Hp Hp' [e He]%hand_owner [e' He']%hand_owner.
    by eapply (owner_unique _ _ t t').
  - intros t p b Hp Hb. by apply (ti_hand _ _ Ht t p b Hp Hb).
  - apply (qi_fifo _ Hq).
  - intros Hall. split; [apply (ti_rest _ _ Ht); intros t p Hp; by rewrite (Hall t p Hp)|].
    assert (Hidle : ∀ e, mapped (st_shared st) = Some e →
      busy (session_at (st_shared st) e) = false ∧ refs (session_at (st_shared st) e) = 0).
    { intros e Hm. pose proof (heap_session _ _ (ri_mapped _ _ Hr e Hm)) as He.
      split; [|rewrite (ri_refs _ _ Hr e _ He); apply tally_zero; intros t p Hp;
        by rewrite (Hall t p Hp)].
      destruct (busy _) eqn:Hb; [|done].
      destruct (busy_owner _ _ e _ Hr He Hb) as (t & p & Hp & Ho).
      rewrite (Hall t p Hp) in Ho. done. }
    split; [|done]. intros Hc. unfold queue. destruct (mapped (st_shared st)) as [e|] eqn:Hm; [|done].
    apply (qi_idle _ Hq Hc e); [|by apply Hidle]. apply heap_session, (ri_mapped _ _ Hr), Hm.
Qed.

(** What /cancel reaches: in one atomic step the whole queue is dropped, the
    senders of exactly those messages are told next, and the turn a goroutine
    waits to run or runs is cancelled (unless shutdown did that already); a
    turn that was still waiting for a slot then needs none: its sender is told
    that it was cancelled, it does not run, and the owner goes on. *)
Theorem cancel_reaches (st : state) (t e : nat) (m : InboundMessage) (single : bool) (i : input)
  (Hr : reachable st) (Ht : st_threads st !! t = Some (Dispatch e m single))
  (Hcmd : isCancelCommand (Content m) = true) :
  let g := st_shared st in
  ∃ g', thread_step i g (Dispatch e m single) = Some (g', CReply e (queue g) m) ∧
    queue g' = [] ∧ history g' = history g ++ [Dropped (queue g)] ∧
    skipCount (session_at g' e) = skipCount (session_at g e) + Z.of_nat (length (queue g)) ∧
    ∀ t' p b n e', st_threads st !! t' = Some p → hand p = Some b → turn_of p = Some (e', n) →
      ctx_done g' = true ∨
      n ∈ cancelled g' ∧
      ∀ single', p = Run e' single' n b → ∀ i' msg, in_slot i' = false →
        mergeMessages b = Some msg → Channel msg ≠ AgentMessageChannel →
        thread_step i' g' p = Some (record g' [Settled b ToldCancelled], Clear e' single' n).
Proof.
  apply dispatch_reachable_inv in Hr as [Hr _ Hti]. cbv zeta.
  destruct (holder_mapped _ _ t _ e Hr Ht eq_refl) as [Hm He].
  assert (Hq : queue (st_shared st) = pending (session_at (st_shared st) e)) by (unfold queue; by rewrite Hm).
  exists (cancel (st_shared st) e).1. simpl. rewrite Hcmd, Hq. unfold cancel.
  assert (Hturns : ∀ t' p b n e', st_threads st !! t' = Some p → hand p = Some b →
    turn_of p = Some (e', n) → e' = e ∧ (turnCancel (session_at (st_shared st) e) = Some n ∨
      n ∈ cancelled (st_shared st) ∨ ctx_done (st_shared st) = true)).
  { intros t' p b n e' Hp Hb Hn. pose proof (turn_owner _ _ _ Hn) as Ho%owner_session.
    pose proof (ri_held _ _ Hr t' p e' Hp Ho) as Hm'. assert (e' = e) as -> by congruence.
    split; [done|]. by apply (ti_turn _ _ Hti t' p b). }
  destruct (turnCancel (session_at (st_shared st) e)) as [n0|] eqn:Htc; simpl;
    (split_and!; [done|unfold queue; simpl; rewrite Hm; unfold session_at; simpl;
      by rewrite lookup_insert_eq|done|unfold session_at; simpl; by rewrite lookup_insert_eq|]);
    intros t' p b n e' Hp Hb Hn; destruct (Hturns _ _ _ _ _ Hp Hb Hn) as [-> Hcase].
  - destruct (ctx_done (st_shared st)) eqn:Hcd; [by left|right].
    assert (Hin : n ∈ {[n0]} ∪ cancelled (st_shared st)) by (destruct Hcase as [[= ->]|[?|?]]; set_solver).
    split; [done|]. intros single' -> i' msg Hs Hmsg Hne. simpl. rewrite Hmsg, Hs.
    rewrite bool_decide_eq_false_2 by done. simpl. rewrite bool_decide_eq_true_2; [done|].
    by rewrite Hcd.
  - destruct Hcase as [?|[Hin|Hd]]; [done|right|by left].
    split; [done|]. intros single' -> i' msg Hs Hmsg Hne. simpl. rewrite Hmsg, Hs.
    rewrite bool_decide_eq_false_2 by done. simpl. by rewrite bool_decide_eq_true_2.
Qed.

(** [n] steps of one goroutine alone. *)
Fixpoint solo (n : nat) (i : input) g (p : pc) : option (shared * pc) :=
  match n with
  | O => Some (g, p)
  | S n' =>
    match thread_step i g p with
    | Some (g', p') => solo n' i g' p'
    | None => None
    end
  end.

Lemma solo_app n n' i g p g' p' :
  solo n i g p = Some (g', p') → solo (n + n') i g p = solo n' i g' p'.
Proof.
  revert g p. induction n as [|n IH]; intros g p; simpl; [by intros [= -> ->]|].
  destruct (thread_step i g p) as [[g1 p1]|]; [|done]. apply IH.
Qed.

(** Everything left in the queue is run, in order within each chat. *)
Definition all_ran (q : list InboundMessage) (evs : list event) : Prop :=
  (∀ c, on_chat c (left_queue evs) = on_chat c q) ∧
  Forall (λ ev, match ev with Taken _ => True | Settled _ o => o = Ran | _ => False end) evs.

Lemma drain_solo k i g e single :
  (length (pending (session_at g e)) ≤ k)%nat → ctx_done g = false → mapped g = Some e →
  in_slot i = true →
  ∃ n g' evs, (n ≤ 4 * k + 1)%nat ∧ solo n i g (Drain e single) = Some (g', Release e) ∧
    queue g' = [] ∧ mapped g' = Some e ∧ history g' = history g ++ evs ∧
    all_ran (pending (session_at g e)) evs.
Proof.
  revert g. induction k as [|k IH]; intros g Hk Hc Hm Hs.
  - assert (Hq : pending (session_at g e) = []) by (apply length_zero_iff_nil; lia).
    exists 1%nat, (upd g e (set_queue false [] (turnCancel (session_at g e)))), [].
    split_and!; [lia| | |done|by rewrite app_nil_r|].
    + cbn [solo thread_step drainSession]. by rewrite Hq.
    + unfold queue. simpl. by rewrite Hm, session_at_upd.
    + rewrite Hq. by split.
  - destruct (takeBatch (pending (session_at g e)) single) as [[m rest]|] eqn:Hb.
    + apply takeBatch_Some in Hb as Hb'. destruct Hb' as (batch & Hsb & Hmerge).
      assert (Hof : batch_of (pending (session_at g e)) single = batch) by (unfold batch_of; by rewrite Hsb).
      set (g1 := record {| mapped := mapped g;
        heap := <[e := set_queue (busy (session_at g e)) rest (Some (next_turn g)) (session_at g e)]> (heap g);
        cancelled := cancelled g; next_turn := S (next_turn g); ctx_done := ctx_done g;
        history := history g |} [Taken batch]).
      set (g2 := record g1 [Settled batch Ran]).
      set (g3 := upd g2 e (set_queue (busy (session_at g2 e)) (pending (session_at g2 e)) None)).
      assert (Hp3 : pending (session_at g3 e) = rest).
      { unfold g3. rewrite session_at_upd. simpl. unfold g2, session_at. simpl.
        by rewrite lookup_insert_eq. }
      assert (H4 : solo 4 i g (Drain e single) = Some (g3, Drain e single)).
      { cbn [solo thread_step drainSession]. rewrite Hb, Hc. cbn [thread_step runQueuedTurn].
        rewrite Hof, Hmerge, Hs, orb_true_r. reflexivity. }
      destruct (IH g3) as (n & g' & evs & Hn & Hsolo & Hq & Hm' & Hh & Hran & Hok); try done.
      { rewrite Hp3. destruct (pending (session_at g e)) as [|first q] eqn:Hpend; [done|].
        simpl in Hsb. pose proof (take_loop_length (queuedChat first) (single || runsAlone first) q).
        destruct (take_loop _ _ q). injection Hsb as <- <-. simpl in *. lia. }
      exists (4 + n)%nat, g', ([Taken batch; Settled batch Ran] ++ evs). split_and!; try done.
      * lia.
      * by rewrite (solo_app 4 n i g _ _ _ H4).
      * rewrite Hh. unfold g3, g2, g1. simpl. by rewrite <- !app_assoc.
      * split; [|by repeat constructor]. intros c. rewrite (split_batch_chats _ _ _ _ Hsb c).
        rewrite <- Hp3, <- Hran. unfold left_queue. rewrite bind_app. simpl.
        by rewrite app_nil_r, on_chat_app.
    + apply takeBatch_None in Hb as Hq.
      exists 1%nat, (upd g e (set_queue false [] (turnCancel (session_at g e)))), [].
      split_and!; [lia| | |done|by rewrite app_nil_r|].
      * cbn [solo thread_step drainSession]. by rewrite Hq.
      * unfold queue. simpl. by rewrite Hm, session_at_upd.
      * rewrite Hq. by split.
Qed.

(** The queue drains: until shutdown, while messages are queued a goroutine
    owns the session, and if it gets the turn slots it asks for it runs, within
    four steps per message and four more, every queued message, each chat's in
    order, leaves the queue empty and returns. *)
Theorem queue_drained (st : state) (i : input) (Hr : reachable st)
  (Halive : ctx_done (st_shared st) = false) (Hq : queue (st_shared st) ≠ []) (Hi : in_slot i = true) :
  let g := st_shared st in
  ∃ t p e n g' evs, st_threads st !! t = Some p ∧ owner_of p = Some e ∧
    (n ≤ 4 * length (queue g) + 4)%nat ∧ solo n i g p = Some (g', Release e) ∧
    queue g' = [] ∧ history g' = history g ++ evs ∧ all_ran (queue g) evs.
Proof.
  apply dispatch_reachable_inv in Hr as [Hr Hqi Hti]. cbv zeta.
  destruct (mapped (st_shared st)) as [e|] eqn:Hm; [|by destruct Hq; unfold queue; rewrite Hm].
  assert (Hqe : queue (st_shared st) = pending (session_at (st_shared st) e)) by (unfold queue; by rewrite Hm).
  pose proof (heap_session _ _ (ri_mapped _ _ Hr e Hm)) as He.
  assert (Hb : busy (session_at (st_shared st) e) = true).
  { destruct (busy _) eqn:Hb; [done|]. destruct Hq. rewrite Hqe. by apply (qi_idle _ Hqi Halive e). }
  destruct (busy_owner _ _ e _ Hr He Hb) as (t & p & Hp & Ho). exists t, p, e.
  assert (Hclear : ∀ g single n, pending (session_at g e) = queue (st_shared st) →
    ctx_done g = false → mapped g = Some e →
    ∃ k g' evs, (k ≤ 4 * length (queue (st_shared st)) + 2)%nat ∧
      solo k i g (Clear e single n) = Some (g', Release e) ∧
      queue g' = [] ∧ history g' = history g ++ evs ∧ all_ran (queue (st_shared st)) evs).
  { intros g single n Hpg Hcg Hmg.
    set (g1 := upd g e (set_queue (busy (session_at g e)) (pending (session_at g e)) None)).
    assert (Hp1 : pending (session_at g1 e) = queue (st_shared st))
      by (unfold g1; by rewrite session_at_upd).
    destruct (drain_solo (length (queue (st_shared st))) i g1 e single)
      as (k & g' & evs & Hk & Hs & Hq' & Hm' & Hh & Hran); try done; [by rewrite Hp1|].
    exists (S k), g', evs. split_and!; [lia|exact Hs|done|done|by rewrite <- Hp1]. }
  destruct p as [| |x single|x single n b|x single n b|x single n| | | | | |]; try done;
    injection Ho as ->.
  - destruct (drain_solo (length (queue (st_shared st))) i (st_shared st) e single)
      as (k & g' & evs & Hk & Hs & Hq' & Hm' & Hh & Hran); try done; [by rewrite Hqe|].
    exists k, g', evs. split_and!; try done; [lia|by rewrite Hqe].
  - destruct (ti_hand _ _ Hti t _ b Hp eq_refl) as [[m Hmerge] _].
    destruct (Hclear (record (st_shared st) [Settled b Ran]) single n)
      as (k & g' & evs & Hk & Hs & Hq' & Hh & Hran & Hok); try done.
    exists (S (S k)), g', ([Settled b Ran] ++ evs). split_and!; try done; [lia| | |].
    + cbn [solo thread_step runQueuedTurn]. by rewrite Hmerge, Hi, orb_true_r.
    + rewrite Hh. simpl. by rewrite <- app_assoc.
    + split; [exact Hran|by repeat constructor].
  - destruct (Hclear (record (st_shared st) [Settled b Ran]) single n)
      as (k & g' & evs & Hk & Hs & Hq' & Hh & Hran & Hok); try done.
    exists (S k), g', ([Settled b Ran] ++ evs). split_and!; try done; [lia| |].
    + rewrite Hh. simpl. by rewrite <- app_assoc.
    + split; [exact Hran|by repeat constructor].
  - destruct (Hclear (st_shared st) single n) as (k & g' & evs & Hk & ?); try done.
    exists k, g', evs. split_and!; try naive_solver. lia.
Qed.

End machine.

(** ** Witnesses *)

#[local] Existing Instance ascii_only.

Example ex_cancel :
  isCancelCommand "  /Cancel@claw now" = true ∧ isCancelCommand "cancel" = false ∧
  ParseCommandName "!" = None ∧ HasCommandPrefix " !x" = true ∧ HasCommandPrefix "a /b" = false.
Proof. by vm_compute. Qed.

Definition ex_msg (chat content : string) : InboundMessage :=
  {| Channel := "telegram"; SenderID := "7";
     Sender := {| Platform := ""; PlatformID := ""; CanonicalID := ""; Username := ""; DisplayName := "" |};
     ChatID := chat; Content := content; Media := [content]; m_Peer := {| peer_Kind := "direct"; peer_ID := "7" |};
     MessageID := ""; MediaScope := ""; SessionKey := ""; Metadata := ∅; IsRetry := false;
     Internal := false |}.

Definition ex_pending : list InboundMessage :=
  [ex_msg "a" "one"; ex_msg "b" "other"; ex_msg "a" "two"; ex_msg "a" "/help"; ex_msg "a" "three"].

Definition ex_batch : InboundMessage * list InboundMessage :=
  default (ex_msg "" "", []) (takeBatch ex_pending false).

Example ex_batch_eq :
  Content ex_batch.1 = "one" +:+ String "010" "two" ∧
  map Content ex_batch.2 = ["other"; "/help"; "three"].
Proof. by vm_compute. Qed.

Lemma takeBatch_spec_witness :
  ∃ first batch,
    head ex_pending = Some first ∧
    (∀ c, on_chat c ex_pending = on_chat c (first :: batch) ++ on_chat c ex_batch.2) ∧
    Forall (λ m, queuedChat m = queuedChat first ∧ runsAlone m = false) batch ∧
    (false = true ∨ runsAlone first = true → batch = []) ∧
    (false = false → runsAlone first = false →
      ∀ m, head (on_chat (queuedChat first) ex_batch.2) = Some m → runsAlone m = true) ∧
    Content ex_batch.1 = Join (map Content (first :: batch)) (String "010" "") ∧
    Media ex_batch.1 = (first :: batch) ≫= Media ∧
    Internal ex_batch.1 = forallb Internal (first :: batch) ∧
    (length (first :: batch) + length ex_batch.2 = length ex_pending)%nat.
Proof. refine (takeBatch_spec ex_pending false ex_batch.1 ex_batch.2 _). vm_compute. reflexivity. Defined.

(** A schedule of goroutines that get no turn slot. *)
Definition ex_in (slot : bool) : input := {| in_now := 5; in_slot := slot |}.

Fixpoint run_schedule (sched : list nat) (st : state) : option state :=
  match sched with
  | [] => Some st
  | t :: sched' =>
    match st_threads st !! t with
    | None => None
    | Some p =>
      match thread_step (ex_in false) (st_shared st) p with
      | None => None
      | Some (g', p') =>
        run_schedule sched' {| st_shared := g'; st_threads := <[t := p']> (st_threads st) |}
      end
    end
  end.

Lemma dispatch_schedule_steps sched st st' : run_schedule sched st = Some st' → rtc step st st'.
Proof.
  revert st. induction sched as [|t sched IH]; intros st; simpl; [by intros [= ->]|].
  destruct (st_threads st !! t) as [p|] eqn:Hp; [|done].
  destruct (thread_step _ _ _) as [[g' p']|] eqn:Hs; [|done]. intros Hrun%IH.
  eapply rtc_l; [|exact Hrun]. by apply (step_thread st t p (ex_in false)).
Qed.

(** Goroutine 0 waits to run its message, that of 1 is queued, and 2 is about to
    cancel. *)
Definition ex_three : state :=
  {| st_shared := st_shared initial;
     st_threads := <[2%nat := Start (ex_msg "a" "/cancel") false]>
       (<[1%nat := Start (ex_msg "a" "two") false]>
        (<[0%nat := Start (ex_msg "a" "one") false]> ∅)) |}.

Definition ex_busy : state := default ex_three (run_schedule [0; 0; 0; 1; 1; 2]%nat ex_three).

Lemma ex_busy_reachable : reachable ex_busy.
Proof.
  eapply rtc_l; [by apply (step_arrive _ 0 (ex_msg "a" "one") false)|].
  eapply rtc_l; [by apply (step_arrive _ 1 (ex_msg "a" "two") false)|].
  eapply rtc_l; [by apply (step_arrive _ 2 (ex_msg "a" "/cancel") false)|].
  apply (dispatch_schedule_steps [0; 0; 0; 1; 1; 2]%nat). vm_compute. reflexivity.
Qed.

Lemma dispatch_in_order_witness :
  hand (default Done (st_threads ex_busy !! 0%nat)) = Some [ex_msg "a" "one"] ∧
  let g := st_shared ex_busy in
  (∀ t t' p p' b b', st_threads ex_busy !! t = Some p → st_threads ex_busy !! t' = Some p' →
     hand p = Some b → hand p' = Some b' → t = t') ∧
  (∀ t p b, st_threads ex_busy !! t = Some p → hand p = Some b →
     taken (history g) = settled (history g) ++ [b]) ∧
  (ctx_done g = false → ∀ c,
     on_chat c (arrived (history g)) = on_chat c (left_queue (history g)) ++ on_chat c (queue g)) ∧
  ((∀ t p, st_threads ex_busy !! t = Some p → p = Done) →
     taken (history g) = settled (history g) ∧ (ctx_done g = false → queue g = []) ∧
     ∀ e, mapped g = Some e → busy (session_at g e) = false ∧ refs (session_at g e) = 0).
Proof. split; [vm_compute; reflexivity|]. exact (dispatch_in_order ex_busy ex_busy_reachable). Defined.

Definition ex_cancel_msg : InboundMessage := ex_msg "a" "/cancel".

Lemma cancel_reaches_witness :
  queue (st_shared ex_busy) = [ex_msg "a" "two"] ∧
  let g := st_shared ex_busy in
  ∃ g', thread_step (ex_in false) g (Dispatch 0 ex_cancel_msg false) =
      Some (g', CReply 0 (queue g) ex_cancel_msg) ∧
    queue g' = [] ∧ history g' = history g ++ [Dropped (queue g)] ∧
    skipCount (session_at g' 0) = skipCount (session_at g 0) + Z.of_nat (length (queue g)) ∧
    ∀ t' p b n e', st_threads ex_busy !! t' = Some p → hand p = Some b → turn_of p = Some (e', n) →
      ctx_done g' = true ∨
      n ∈ cancelled g' ∧
      ∀ single', p = Run e' single' n b → ∀ i' msg, in_slot i' = false →
        mergeMessages b = Some msg → Channel msg ≠ AgentMessageChannel →
        thread_step i' g' p = Some (record g' [Settled b ToldCancelled], Clear e' single' n).
Proof.
  split; [vm_compute; reflexivity|].
  refine (cancel_reaches ex_busy 2 0 ex_cancel_msg false (ex_in false) ex_busy_reachable _ _).
  - vm_compute. reflexivity.
  - vm_compute. reflexivity.
Defined.

Lemma queue_drained_witness :
  let g := st_shared ex_busy in
  ∃ t p e n g' evs, st_threads ex_busy !! t = Some p ∧ owner_of p = Some e ∧
    (n ≤ 4 * length (queue g) + 4)%nat ∧ solo n (ex_in true) g p = Some (g', Release e) ∧
    queue g' = [] ∧ history g' = history g ++ evs ∧ all_ran (queue g) evs.
Proof.
  refine (queue_drained ex_busy (ex_in true) ex_busy_reachable _ _ _).
  - vm_compute. reflexivity.
  - vm_compute. discriminate.
  - reflexivity.
Defined.
