(* ===== verification/MessageSplit.v ===== *)
(** * Splitting long messages (channels/split.go)

    A message longer than a channel allows is cut into chunks, at a newline or
    space near the limit where there is one, and a fenced code block that has to
    be cut is closed in one chunk and reopened in the next. The file models the
    splitter as the code has it, an index into a slice of runes with slice
    expressions that panic out of range, and shows that no chunk is longer than
    the limit, when the loop ends, what happens to the text, and a kind of
    message for which the loop does not end.

    A message is the list of its runes; decoding UTF-8 is outside the model. *)

From stdpp Require Import base sets list.
From Stdlib Require Import ZArith Lia.
From S2P Require Import Prelude.

Open Scope list_scope.
Open Scope Z_scope.

(** ** Runes *)

Definition newline : Z := 10.
Definition backtick : Z := 96.

Definition len (r : list Z) : Z := Z.of_nat (length r).

(** [r[i] == c] for an index the code keeps in range. *)
Definition is_at (r : list Z) (i c : Z) : bool :=
  if i <? 0 then false
  else match r !! Z.to_nat i with Some x => x =? c | None => false end.

(** [r[a:b]]; [None] is the panic. *)
Definition slice (r : list Z) (a b : Z) : option (list Z) :=
  if (0 <=? a) && (a <=? b) && (b <=? len r) then
    Some (take (Z.to_nat (b - a)) (drop (Z.to_nat a) r))
  else None.

(** [unicode.IsSpace]. *)
Definition IsSpace (c : Z) : bool :=
  ((9 <=? c) && (c <=? 13)) || (c =? 32) || (c =? 0x85) || (c =? 0xa0) || (c =? 0x1680)
  || ((0x2000 <=? c) && (c <=? 0x200a)) || (c =? 0x2028) || (c =? 0x2029) || (c =? 0x202f)
  || (c =? 0x205f) || (c =? 0x3000).

(** The cutset " \t\n\r". *)
Definition blank (c : Z) : bool := (c =? 32) || (c =? 9) || (c =? 10) || (c =? 13).

Fixpoint trim_left (p : Z → bool) (r : list Z) : list Z :=
  match r with
  | [] => []
  | c :: r' => if p c then trim_left p r' else r
  end.

Definition trim_right (p : Z → bool) (r : list Z) : list Z := reverse (trim_left p (reverse r)).

Definition TrimSpace (r : list Z) : list Z := trim_right IsSpace (trim_left IsSpace r).

Definition fence : list Z := [backtick; backtick; backtick].

(** ** The searches *)

(** The first index satisfying [p] of the [n] from [i] down, or up. *)
Fixpoint find_down (p : Z → bool) (n : nat) (i : Z) : option Z :=
  match n with
  | O => None
  | S n' => if p i then Some i else find_down p n' (i - 1)
  end.

Fixpoint find_up (p : Z → bool) (n : nat) (i : Z) : option Z :=
  match n with
  | O => None
  | S n' => if p i then Some i else find_up p n' (i + 1)
  end.

Definition findLastNewlineInRange (r : list Z) (start end_ searchWindow : Z) : Z :=
  let searchStart := Z.max (end_ - searchWindow) start in
  default (start - 1) (find_down (λ i, is_at r i newline) (Z.to_nat (end_ - searchStart)) (end_ - 1)).

Definition findLastSpaceInRange (r : list Z) (start end_ searchWindow : Z) : Z :=
  let searchStart := Z.max (end_ - searchWindow) start in
  default (start - 1)
    (find_down (λ i, is_at r i 32 || is_at r i 9) (Z.to_nat (end_ - searchStart)) (end_ - 1)).

Definition findNewlineFrom (r : list Z) (from : Z) : Z :=
  default (-1) (find_up (λ i, is_at r i newline) (Z.to_nat (len r - from)) from).

Definition fence_at (r : list Z) (end_ i : Z) : bool :=
  (i + 2 <? end_) && is_at r i backtick && is_at r (i + 1) backtick && is_at r (i + 2) backtick.

Definition findNextClosingCodeBlockInRange (r : list Z) (startIdx end_ : Z) : Z :=
  match find_up (fence_at r end_) (Z.to_nat (end_ - startIdx)) startIdx with
  | Some i => i + 3
  | None => -1
  end.

(** The loop, at most one iteration per index. *)
Fixpoint unclosed_loop (n : nat) (r : list Z) (i end_ : Z) (inCodeBlock : bool) (lastOpenIdx : Z)
    : bool * Z :=
  match n with
  | O => (inCodeBlock, lastOpenIdx)
  | S n' =>
    if i <? end_ then
      if fence_at r end_ i then
        unclosed_loop n' r (i + 3) end_ (negb inCodeBlock) (if inCodeBlock then lastOpenIdx else i)
      else unclosed_loop n' r (i + 1) end_ inCodeBlock lastOpenIdx
    else (inCodeBlock, lastOpenIdx)
  end.

Definition findLastUnclosedCodeBlockInRange (r : list Z) (start end_ : Z) : Z :=
  let '(inCodeBlock, lastOpenIdx) :=
    unclosed_loop (Z.to_nat (end_ - start)) r start end_ false (-1) in
  if inCodeBlock then lastOpenIdx else -1.

(** ** SplitMessage *)

(** The loop's variables. *)
Record split_state := { runes : list Z; start : Z; messages : list (list Z) }.

(** How an iteration ends. *)
Inductive split_result :=
| Finished (l : list (list Z))
| More (st : split_state)
| Panicked.

Section split.
Variable maxLen : Z.

Definition codeBlockBuffer : Z := Z.min (Z.max (maxLen / 10) 50) (maxLen / 2).
Definition effectiveLimit : Z := Z.max (maxLen - codeBlockBuffer) (maxLen / 2).

(** The loop that skips white space: the index it stops at. *)
Fixpoint skip_blank (n : nat) (r : list Z) (i : Z) : Z :=
  match n with
  | O => i
  | S n' =>
    if (i <? len r) && (is_at r i 32 || is_at r i 9 || is_at r i newline || is_at r i 13) then
      skip_blank n' r (i + 1)
    else i
  end.

(** The end of an iteration that cuts at [msgEnd]. *)
Definition emit (st : split_state) (msgEnd : Z) : split_result :=
  let r := runes st in
  let msgEnd := if msgEnd <=? start st then start st + effectiveLimit else msgEnd in
  match slice r (start st) msgEnd with
  | None => Panicked
  | Some chunk =>
    More {| runes := r; start := skip_blank (Z.to_nat (len r - msgEnd)) r msgEnd;
            messages := messages st ++ [chunk] |}
  end.

(** Close the code block at [splitAt] and reopen it with its header. *)
Definition split_inside (st : split_state) (header : list Z) (splitAt : Z) : split_result :=
  let r := runes st in
  match slice r (start st) splitAt, slice r splitAt (len r) with
  | Some a, Some b =>
    More {| runes := TrimSpace (header ++ [newline] ++ b); start := 0;
            messages := messages st ++ [trim_right blank a ++ [newline] ++ fence] |}
  | _, _ => Panicked
  end.

Definition first_cut (r : list Z) (start_ : Z) : Z :=
  let end_ := start_ + effectiveLimit in
  let msgEnd := findLastNewlineInRange r start_ end_ 200 in
  let msgEnd := if msgEnd <=? start_ then findLastSpaceInRange r start_ end_ 100 else msgEnd in
  if msgEnd <=? start_ then end_ else msgEnd.

(** The cut [msgEnd] leaves the code block opened at [unclosedIdx] open, and no
    closing fence is near enough. *)
Definition split_block (st : split_state) (msgEnd unclosedIdx : Z) : split_result :=
  let r := runes st in
  let headerEnd := findNewlineFrom r unclosedIdx in
  match slice r unclosedIdx (if headerEnd =? -1 then unclosedIdx + 3 else headerEnd) with
  | None => Panicked
  | Some h =>
    let header := TrimSpace h in
    let headerEndIdx := if headerEnd =? -1 then unclosedIdx + len header else headerEnd in
    if headerEndIdx + 20 <? msgEnd then
      let innerLimit := Z.min (start st + maxLen - 5) (len r) in
      let betterEnd := findLastNewlineInRange r (start st) innerLimit 200 in
      split_inside st header (if headerEndIdx <? betterEnd then betterEnd else innerLimit)
    else
      let newEnd := findLastNewlineInRange r (start st) unclosedIdx 200 in
      let newEnd :=
        if newEnd <=? start st then findLastSpaceInRange r (start st) unclosedIdx 100 else newEnd in
      if start st <? newEnd then emit st newEnd
      else if 20 <? unclosedIdx - start st then emit st unclosedIdx
      else split_inside st header (Z.min (start st + maxLen - 5) (len r))
  end.

(** One iteration of the loop. *)
Definition split_step (st : split_state) : split_result :=
  let r := runes st in
  let totalLen := len r in
  if negb (start st <? totalLen) then Finished (messages st)
  else if totalLen - start st <=? maxLen then
    match slice r (start st) totalLen with
    | None => Panicked
    | Some chunk => Finished (messages st ++ [chunk])
    end
  else
    let msgEnd := first_cut r (start st) in
    let unclosedIdx := findLastUnclosedCodeBlockInRange r (start st) msgEnd in
    if (0 <=? unclosedIdx) && (msgEnd <? totalLen) then
      let closingIdx := findNextClosingCodeBlockInRange r msgEnd totalLen in
      if (0 <? closingIdx) && (closingIdx - start st <=? maxLen) then emit st closingIdx
      else split_block st msgEnd unclosedIdx
    else emit st msgEnd.

(** At most [n] iterations; [More] is a loop that has not ended. *)
Fixpoint split_loop (n : nat) (st : split_state) : split_result :=
  match n with
  | O => More st
  | S n' => match split_step st with More st' => split_loop n' st' | res => res end
  end.

Definition SplitMessage (n : nat) (content : list Z) : split_result :=
  if maxLen <=? 0 then Finished (match content with [] => [] | _ => [content] end)
  else split_loop n {| runes := content; start := 0; messages := [] |}.
End split.

(** ** Lemmas *)

Lemma find_down_Some p n i j :
  find_down p n i = Some j → i - Z.of_nat n < j ≤ i ∧ p j = true.
Proof.
  revert i. induction n as [|n IH]; intros i; simpl; [done|]. destruct (p i) eqn:Hp.
  - intros [= <-]. split; [lia|done].
  - intros Hj%IH. split; [lia|]. apply Hj.
Qed.

Lemma find_up_Some p n i j :
  find_up p n i = Some j →
  i ≤ j < i + Z.of_nat n ∧ p j = true ∧ ∀ k, i ≤ k < j → p k = false.
Proof.
  revert i. induction n as [|n IH]; intros i; simpl; [done|]. destruct (p i) eqn:Hp.
  - intros [= <-]. split_and!; [lia|lia|done|lia].
  - intros Hj%IH. destruct Hj as (? & ? & Hk). split_and!; [lia|lia|done|].
    intros k Hik. destruct (decide (k = i)) as [->|]; [done|]. apply Hk. lia.
Qed.

Lemma findLast_bounds p start_ end_ w e :
  default (start_ - 1) (find_down p (Z.to_nat (end_ - Z.max (end_ - w) start_)) (end_ - 1)) = e →
  start_ ≤ e → end_ - w ≤ e < end_ ∧ p e = true.
Proof.
  destruct (find_down _ _ _) as [j|] eqn:Hj; simpl; intros <- He; [|lia].
  apply find_down_Some in Hj. split; [lia|apply Hj].
Qed.

Lemma is_at_true r i c : is_at r i c = true ↔ 0 ≤ i ∧ r !! Z.to_nat i = Some c.
Proof.
  unfold is_at. destruct (Z.ltb_spec i 0); [split; [done|lia]|].
  destruct (r !! Z.to_nat i) as [x|]; [|naive_solver]. rewrite Z.eqb_eq. naive_solver.
Qed.

Lemma len_app r r' : len (r ++ r') = len r + len r'.
Proof. unfold len. rewrite length_app. lia. Qed.

Lemma len_runes_nonneg r : 0 ≤ len r.
Proof. unfold len. lia. Qed.

Lemma slice_ok r a b :
  0 ≤ a ≤ b → b ≤ len r →
  ∃ c, slice r a b = Some c ∧ len c = b - a ∧
    r = take (Z.to_nat a) r ++ c ++ drop (Z.to_nat b) r.
Proof.
  intros Hab Hb. unfold slice.
  destruct (Z.leb_spec 0 a), (Z.leb_spec a b), (Z.leb_spec b (len r)); try lia. simpl.
  eexists. split; [reflexivity|]. unfold len in *. split.
  - rewrite length_take, length_drop. lia.
  - rewrite <- (take_drop (Z.to_nat a) r) at 1. f_equal.
    rewrite <- (take_drop (Z.to_nat (b - a)) (drop (Z.to_nat a) r)) at 1. f_equal.
    rewrite drop_drop. f_equal. lia.
Qed.

Lemma slice_Some r a b c :
  slice r a b = Some c → 0 ≤ a ≤ b ∧ b ≤ len r ∧ len c = b - a ∧
    r = take (Z.to_nat a) r ++ c ++ drop (Z.to_nat b) r.
Proof.
  intros Hs. assert (Hr : 0 ≤ a ≤ b ∧ b ≤ len r)
    by (unfold slice in Hs; case_if_in Hs; [zb; lia|done]).
  destruct Hr as [Ha Hb]. destruct (slice_ok r a b Ha Hb) as (c' & Hc & ?). split_and!; try lia;
    assert (c' = c) as -> by congruence; tauto.
Qed.

(** A sublist of consecutive elements. *)
Definition infix (r r' : list Z) : Prop := ∃ p q, r' = p ++ r ++ q.

Lemma trim_left_suffix p r : ∃ q, r = q ++ trim_left p r.
Proof.
  induction r as [|c r [q IH]]; simpl; [by exists []|]. case_if; [|by exists []].
  exists (c :: q). simpl. by rewrite <- IH.
Qed.

Lemma trim_right_runes_prefix p r : ∃ q, r = trim_right p r ++ q.
Proof.
  destruct (trim_left_suffix p (reverse r)) as [q Hq]. exists (reverse q). unfold trim_right.
  rewrite <- reverse_app, <- Hq. by rewrite reverse_involutive.
Qed.

Lemma trim_right_len p r : len (trim_right p r) ≤ len r.
Proof. destruct (trim_right_runes_prefix p r) as [q Hq]. rewrite Hq at 2. rewrite len_app. pose proof (len_runes_nonneg q). lia. Qed.

Lemma TrimSpace_infix r : infix (TrimSpace r) r.
Proof.
  destruct (trim_left_suffix IsSpace r) as [a Ha].
  destruct (trim_right_runes_prefix IsSpace (trim_left IsSpace r)) as [b Hb].
  exists a, b. unfold TrimSpace. rewrite <- Hb. exact Ha.
Qed.

Lemma infix_len r r' : infix r r' → len r ≤ len r'.
Proof.
  intros (p & q & ->). rewrite !len_app. pose proof (len_runes_nonneg p). pose proof (len_runes_nonneg q). lia.
Qed.

Section lemmas.
Variable maxLen : Z.
Hypothesis Hmax : 5 ≤ maxLen.

Lemma effectiveLimit_bounds : 1 ≤ effectiveLimit maxLen ≤ maxLen.
Proof.
  unfold effectiveLimit, codeBlockBuffer.
  pose proof (Z.div_le_upper_bound maxLen 2 maxLen ltac:(lia) ltac:(lia)).
  pose proof (Z.div_str_pos maxLen 2 ltac:(lia)). lia.
Qed.

Lemma skip_blank_bounds n r i : i ≤ len r → i ≤ skip_blank n r i ≤ len r.
Proof.
  revert i. induction n as [|n IH]; intros i Hi; simpl; [lia|]. case_if; zb; [|lia].
  specialize (IH (i + 1)). lia.
Qed.

Lemma first_cut_bounds r s : s < first_cut maxLen r s ≤ s + maxLen.
Proof.
  pose proof effectiveLimit_bounds. unfold first_cut.
  set (e := findLastNewlineInRange r s (s + effectiveLimit maxLen) 200).
  pose proof (findLast_bounds _ s (s + effectiveLimit maxLen) 200 e eq_refl) as He.
  set (e' := findLastSpaceInRange r s (s + effectiveLimit maxLen) 100).
  pose proof (findLast_bounds _ s (s + effectiveLimit maxLen) 100 e' eq_refl) as He'.
  destruct (Z.leb_spec e s); [|destruct (Z.leb_spec e s); lia].
  destruct (Z.leb_spec e' s); lia.
Qed.

Lemma unclosed_loop_spec n r i end_ b last s :
  s ≤ i → (b = true → s ≤ last ∧ fence_at r end_ last = true) →
  let '(b', last') := unclosed_loop n r i end_ b last in
  b' = true → s ≤ last' ∧ fence_at r end_ last' = true.
Proof.
  revert i b last. induction n as [|n IH]; intros i b last Hi Hb; simpl; [done|].
  case_if; [|done]. case_if; [|by apply IH; [lia|]].
  apply IH; [lia|]. destruct b; simpl; [done|]. intros _. by split.
Qed.

Lemma unclosed_spec r s end_ :
  let u := findLastUnclosedCodeBlockInRange r s end_ in
  u = -1 ∨ s ≤ u ∧ fence_at r end_ u = true.
Proof.
  unfold findLastUnclosedCodeBlockInRange.
  pose proof (unclosed_loop_spec (Z.to_nat (end_ - s)) r s end_ false (-1) s) as Hl.
  destruct (unclosed_loop _ _ _ _ _ _) as [[] u]; [|by left]. right. by apply Hl.
Qed.

Lemma fence_at_true r end_ i :
  fence_at r end_ i = true ↔
  i + 2 < end_ ∧ is_at r i backtick = true ∧ is_at r (i + 1) backtick = true ∧
  is_at r (i + 2) backtick = true.
Proof. unfold fence_at. rewrite !andb_true_iff, Z.ltb_lt. tauto. Qed.

(** The line that opens a code block: from its fence to its end, or the fence
    alone when no newline follows. *)
Definition opening (r h : list Z) (u hEnd : Z) : Prop :=
  fence_at r (len r) u = true ∧ slice r u hEnd = Some h ∧
  (hEnd = u + 3 ∧ findNewlineFrom r u = -1 ∨
   is_at r hEnd newline = true ∧ ∀ k, u ≤ k < hEnd → is_at r k newline = false).

(** What an iteration does. *)
Inductive step_case (st : split_state) : split_result → Prop :=
| case_end : len (runes st) ≤ start st → step_case st (Finished (messages st))
| case_last chunk :
    slice (runes st) (start st) (len (runes st)) = Some chunk → len chunk ≤ maxLen →
    start st < len (runes st) → step_case st (Finished (messages st ++ [chunk]))
| case_emit e :
    start st < e ≤ start st + maxLen → e ≤ len (runes st) → step_case st (emit maxLen st e)
| case_inside u h hEnd e :
    start st ≤ u → opening (runes st) h u hEnd →
    start st ≤ e → start st + maxLen - 205 ≤ e ≤ start st + maxLen - 5 → e ≤ len (runes st) →
    step_case st (split_inside st (TrimSpace h) e).

Lemma opening_line r u end_ :
  0 ≤ u → fence_at r end_ u = true → end_ ≤ len r →
  ∃ h, let headerEnd := findNewlineFrom r u in
    let hEnd := if headerEnd =? -1 then u + 3 else headerEnd in
    slice r u hEnd = Some h ∧ opening r h u hEnd.
Proof.
  intros Hu Hf He. apply fence_at_true in Hf as (Hi & H0 & H1 & H2). cbv zeta.
  assert (Hfe : fence_at r (len r) u = true) by (apply fence_at_true; split_and!; [lia|done..]).
  unfold opening. destruct (Z.eqb_spec (findNewlineFrom r u) (-1)) as [Hn|Hn].
  - destruct (slice_ok r u (u + 3)) as (h & Hh & _); [lia|lia|]. eauto 10.
  - unfold findNewlineFrom in Hn |- *. destruct (find_up _ _ _) as [j|] eqn:Hj; [|done]. simpl.
    apply find_up_Some in Hj as (Hb & Hnl & Hno).
    destruct (slice_ok r u j) as (h & Hh & _); [lia|lia|]. eauto 10.
Qed.

Lemma split_step_cases st :
  0 ≤ start st ≤ len (runes st) → step_case st (split_step maxLen st).
Proof.
  intros Hs. unfold split_step. destruct (Z.ltb_spec (start st) (len (runes st))); [|by constructor].
  simpl. destruct (Z.leb_spec (len (runes st) - start st) maxLen).
  { destruct (slice_ok (runes st) (start st) (len (runes st))) as (c & Hc & Hl & _); [lia|lia|].
    rewrite Hc. constructor; [done|lia|done]. }
  pose proof (first_cut_bounds (runes st) (start st)) as Hcut.
  set (e := first_cut maxLen (runes st) (start st)) in *.
  destruct (unclosed_spec (runes st) (start st) e) as [Hu|[Hu Hf]].
  { rewrite Hu. simpl. constructor; lia. }
  set (u := findLastUnclosedCodeBlockInRange (runes st) (start st) e) in *.
  case_if; [|constructor; lia]. zb.
  pose proof Hf as Hf'. apply fence_at_true in Hf' as (Hue & _).
  set (c := findNextClosingCodeBlockInRange (runes st) e (len (runes st))).
  destruct ((0 <? c) && (c - start st <=? maxLen)) eqn:Hc.
  { zb. unfold c, findNextClosingCodeBlockInRange in *. destruct (find_up _ _ _) as [j|] eqn:Hj; [|lia].
    apply find_up_Some in Hj as (? & Hfj & _). apply fence_at_true in Hfj as (? & _).
    constructor; lia. }
  clear c Hc. unfold split_block.
  destruct (opening_line (runes st) u e) as (h & Hh & Hop); [lia|done|lia|]. rewrite Hh.
  set (hEnd := if findNewlineFrom (runes st) u =? -1 then u + 3 else findNewlineFrom (runes st) u) in *.
  rewrite (Z.min_l (start st + maxLen - 5)) by lia.
  set (hIdx := if findNewlineFrom (runes st) u =? -1 then u + len (TrimSpace h)
               else findNewlineFrom (runes st) u).
  assert (Hidx : u ≤ hIdx).
  { unfold hIdx. destruct (Z.eqb_spec (findNewlineFrom (runes st) u) (-1)) as [|Hn];
      [pose proof (len_runes_nonneg (TrimSpace h)); lia|].
    unfold findNewlineFrom in *. destruct (find_up _ _ _) as [j|] eqn:Hj; [|done].
    apply find_up_Some in Hj. simpl. lia. }
  destruct (Z.ltb_spec (hIdx + 20) e).
  - set (b := findLastNewlineInRange (runes st) (start st) (start st + maxLen - 5) 200).
    pose proof (findLast_bounds _ (start st) (start st + maxLen - 5) 200 b eq_refl) as Hb.
    destruct (Z.ltb_spec hIdx b); apply (case_inside st u h hEnd); try done; lia.
  - set (n1 := findLastNewlineInRange (runes st) (start st) u 200).
    pose proof (findLast_bounds _ (start st) u 200 n1 eq_refl) as Hn1.
    set (n2 := findLastSpaceInRange (runes st) (start st) u 100).
    pose proof (findLast_bounds _ (start st) u 100 n2 eq_refl) as Hn2.
    destruct (Z.leb_spec n1 (start st)) as [Hle|Hle].
    + destruct (Z.ltb_spec (start st) n2); [constructor; lia|].
      destruct (Z.ltb_spec 20 (u - start st)); [constructor; lia|].
      apply (case_inside st u h hEnd); try done; lia.
    + destruct (Z.ltb_spec (start st) n1); [constructor; lia|lia].
Qed.

(** *** Chunks *)

Definition fits (c : list Z) : Prop := len c ≤ maxLen.

Definition state_ok (st : split_state) : Prop :=
  0 ≤ start st ≤ len (runes st) ∧ Forall fits (messages st).

Lemma emit_ok st e :
  state_ok st → start st < e ≤ start st + maxLen → e ≤ len (runes st) →
  ∃ chunk, slice (runes st) (start st) e = Some chunk ∧ fits chunk ∧
    let s' := skip_blank (Z.to_nat (len (runes st) - e)) (runes st) e in
    e ≤ s' ≤ len (runes st) ∧
    emit maxLen st e = More {| runes := runes st; start := s'; messages := messages st ++ [chunk] |}.
Proof.
  intros [Hs _] He Hlen. unfold emit. destruct (Z.leb_spec e (start st)); [lia|].
  destruct (slice_ok (runes st) (start st) e) as (c & Hc & Hl & _); [lia|lia|]. rewrite Hc.
  exists c. split_and!; [done|unfold fits; lia| | |done]; apply skip_blank_bounds; lia.
Qed.

Lemma split_inside_ok st header e :
  state_ok st → start st ≤ e ≤ start st + maxLen - 5 → e ≤ len (runes st) →
  ∃ chunk b, slice (runes st) e (len (runes st)) = Some b ∧ fits chunk ∧
    split_inside st header e =
      More {| runes := TrimSpace (header ++ [newline] ++ b); start := 0;
              messages := messages st ++ [chunk] |}.
Proof.
  intros [Hs _] He Hlen. unfold split_inside.
  destruct (slice_ok (runes st) (start st) e) as (c & Hc & Hl & _); [lia|lia|]. rewrite Hc.
  destruct (slice_ok (runes st) e (len (runes st))) as (b & Hb & _); [lia|lia|]. rewrite Hb.
  eexists _, b. split_and!; [done| |done]. unfold fits. rewrite len_app.
  pose proof (trim_right_len blank c). change (len ([newline] ++ fence)) with 4. lia.
Qed.

Lemma split_step_ok st :
  state_ok st →
  match split_step maxLen st with
  | Finished l => Forall fits l
  | More st' => state_ok st'
  | Panicked => False
  end.
Proof.
  intros Hok. pose proof Hok as [Hs Hm].
  destruct (split_step_cases st Hs) as [|chunk Hc Hl|e He Hlen|u h hEnd e Hu Hop Hse He Hlen].
  - done.
  - apply Forall_app. split; [done|by repeat constructor].
  - destruct (emit_ok st e Hok He Hlen) as (chunk & _ & Hf & Hs' & ->). split; simpl; [lia|].
    apply Forall_app. split; [done|by repeat constructor].
  - destruct (split_inside_ok st (TrimSpace h) e) as (chunk & b & _ & Hf & ->); [done|lia|done|].
    split; simpl; [pose proof (len_runes_nonneg (TrimSpace (TrimSpace h ++ newline :: b))); lia|].
    apply Forall_app. split; [done|by repeat constructor].
Qed.

Lemma split_loop_ok n st :
  state_ok st →
  match split_loop maxLen n st with
  | Finished l => Forall fits l
  | More st' => state_ok st'
  | Panicked => False
  end.
Proof.
  revert st. induction n as [|n IH]; intros st Hok; simpl; [done|].
  pose proof (split_step_ok st Hok) as Hst. destruct (split_step maxLen st); [done| |done]. by apply IH.
Qed.

(** *** Fences *)

Lemma fence_split r u :
  0 ≤ u → fence_at r (len r) u = true → ∃ a c, r = a ++ fence ++ c ∧ len a = u.
Proof.
  intros Hu (Hlen & H0 & H1 & H2)%fence_at_true.
  apply is_at_true in H0 as [_ H0], H1 as [_ H1], H2 as [_ H2].
  exists (take (Z.to_nat u) r), (drop (Z.to_nat u + 3) r). split.
  - rewrite <- (take_drop (Z.to_nat u) r) at 1. f_equal.
    rewrite (drop_S r backtick (Z.to_nat u)) by done. unfold fence. simpl. f_equal.
    rewrite (drop_S r backtick) by (rewrite <- H1; f_equal; lia). f_equal.
    rewrite (drop_S r backtick) by (rewrite <- H2; f_equal; lia). f_equal.
    f_equal. lia.
  - unfold len in *. rewrite length_take. lia.
Qed.

(** No line is longer than [k] from a fence to its newline. *)
Definition fence_lines_short (k : Z) (r : list Z) : Prop :=
  ∀ a b c, r = a ++ fence ++ b ++ [newline] ++ c → newline ∉ b → 3 + len b ≤ k.

Definition no_fence (r : list Z) : Prop := ∀ a c, r ≠ a ++ fence ++ c.

Lemma opening_split r h u hEnd :
  0 ≤ u → opening r h u hEnd →
  h = fence ∨ ∃ a b c, r = a ++ fence ++ b ++ [newline] ++ c ∧ newline ∉ b ∧ h = fence ++ b.
Proof.
  intros Hu (Hf & Hh & Hcase). destruct (fence_split r u Hu Hf) as (a & c & Hr & Ha).
  apply slice_Some in Hh as (Hb & Hlen & Hlh & Hrh).
  assert (Hta : take (Z.to_nat u) r = a).
  { rewrite Hr. replace (Z.to_nat u) with (length a) by (unfold len in *; lia). apply take_app_length. }
  rewrite Hta in Hrh. rewrite Hr in Hrh at 1. apply app_inv_head in Hrh.
  destruct Hcase as [[-> _]|[Hnl Hno]].
  - left. apply (app_inj_1 fence h) in Hrh as [? _]; [done|]. unfold len in *. cbn [length fence]. lia.
  - right. apply is_at_true in Hnl as [HE Hnl].
    rewrite (drop_S _ _ _ Hnl) in Hrh.
    assert (Hge : 3 ≤ hEnd - u).
    { destruct (decide (3 ≤ hEnd - u)) as [|Hlt]; [done|exfalso].
      apply fence_at_true in Hf as (_ & H0 & H1 & H2).
      assert (Hx : is_at r hEnd backtick = true).
      { destruct (decide (hEnd = u)) as [->|]; [done|].
        destruct (decide (hEnd = u + 1)) as [->|]; [done|].
        replace hEnd with (u + 2) by lia. done. }
      apply is_at_true in Hx as [_ Hx]. rewrite Hnl in Hx. done. }
    assert (Hh3 : h = fence ++ drop 3 h).
    { rewrite <- (take_drop 3 h) at 1. f_equal.
      assert (Ht : take 3 (fence ++ c) = take 3 (h ++ newline :: drop (S (Z.to_nat hEnd)) r))
        by (by rewrite Hrh).
      rewrite (take_app_le h) in Ht by (unfold len in *; lia). rewrite <- Ht. done. }
    exists a, (drop 3 h), (drop (S (Z.to_nat hEnd)) r). split_and!; [|  |done].
    + rewrite Hr, Hrh, Hh3 at 1. by rewrite <- app_assoc.
    + intros Hin. apply (list_elem_of_lookup_1 (drop 3 h)) in Hin as [i Hi].
      rewrite lookup_drop in Hi. pose proof (lookup_lt_Some _ _ _ Hi) as Hlt.
      assert (Hat : is_at r (u + 3 + Z.of_nat i) newline = true).
      { apply is_at_true. split; [lia|]. rewrite Hr, Hrh.
        rewrite lookup_app_r by (unfold len in *; lia).
        rewrite lookup_app_l by (unfold len in *; lia). rewrite <- Hi. f_equal. unfold len in *. lia. }
      rewrite Hno in Hat; [done|]. unfold len in *. lia.
Qed.

Lemma short_infix k r r' : infix r r' → fence_lines_short k r' → fence_lines_short k r.
Proof.
  intros (p & q & ->) Hr' a b c Hr Hb. apply (Hr' (p ++ a) b (c ++ q)); [|done].
  rewrite Hr. by rewrite <- !app_assoc.
Qed.

(** The header of a block, and what follows a cut behind it, have no longer
    lines from a fence. *)
Lemma short_reopened k r header b :
  fence_lines_short k r → infix b r → newline ∉ header → len header ≤ k →
  fence_lines_short k (header ++ [newline] ++ b).
Proof.
  intros Hr Hb Hnl Hlen a b' c Heq Hb'.
  destruct (decide (length a ≤ length header)%nat) as [Hle|Hgt].
  - (* the fence is in the header, whose newline ends its line *)
    assert (Hpos : (length (a ++ fence ++ b') = length header)%nat).
    { destruct (Nat.lt_trichotomy (length (a ++ fence ++ b')) (length header)) as [Hlt|[?|Hlt]]; [|done|].
      - destruct Hnl. apply (list_elem_of_lookup_2 _ (length (a ++ fence ++ b'))).
        assert (Hl : (header ++ [newline] ++ b) !! length (a ++ fence ++ b') = Some newline).
        { rewrite Heq. replace (a ++ fence ++ b' ++ [newline] ++ c)
            with ((a ++ fence ++ b') ++ [newline] ++ c) by (by rewrite <- !app_assoc).
          by rewrite lookup_app_r, Nat.sub_diag by lia. }
        by rewrite lookup_app_l in Hl by lia.
      - assert (Hl : (a ++ fence ++ b' ++ [newline] ++ c) !! length header = Some newline).
        { rewrite <- Heq, lookup_app_r by lia. by rewrite Nat.sub_diag. }
        rewrite !length_app in Hlt. simpl in Hlt. rewrite lookup_app_r in Hl by lia.
        destruct (decide (length header - length a < 3)%nat) as [Hin|Hout].
        + destruct (length header - length a)%nat as [|[|[|?]]]; simpl in Hl; try done; lia.
        + rewrite (lookup_app_r fence) in Hl by (simpl; lia). simpl in Hl.
          rewrite lookup_app_l in Hl by lia. destruct Hb'. by apply list_elem_of_lookup_2 in Hl. }
    rewrite !length_app in Hpos. unfold len in *. simpl in Hpos. lia.
  - (* the fence is behind it *)
    assert (Hsuf : ∃ a', b = a' ++ fence ++ b' ++ [newline] ++ c).
    { exists (drop (S (length header)) a).
      assert (Hd : drop (S (length header)) (header ++ [newline] ++ b) = b).
      { rewrite app_assoc, drop_app_ge by (rewrite length_app; simpl; lia).
        rewrite length_app. simpl. by replace (S (length header) - (length header + 1))%nat with 0%nat by lia. }
      rewrite <- Hd, Heq at 1. by rewrite drop_app_le by lia. }
    destruct Hsuf as [a' ->]. destruct Hb as (p & q & ->).
    apply (Hr (p ++ a') b' (c ++ q)); [|done]. by rewrite <- !app_assoc.
Qed.

(** *** Progress *)

Definition left_over (st : split_state) : Z := len (runes st) - start st.

Lemma newline_not_infix r r' : infix r r' → newline ∉ r' → newline ∉ r.
Proof. intros (p & q & ->) Hn Hr. apply Hn. set_solver. Qed.

Lemma split_step_progress k st st' :
  3 ≤ k → k + 207 ≤ maxLen → state_ok st → fence_lines_short k (runes st) →
  split_step maxLen st = More st' →
  left_over st' < left_over st ∧ fence_lines_short k (runes st').
Proof.
  intros Hk Hroom Hok Hshort. pose proof Hok as [Hs _]. unfold left_over.
  destruct (split_step_cases st Hs) as [| |e He Hlen|u h hEnd e Hu Hop Hse He Hlen]; [done|done| |].
  - destruct (emit_ok st e Hok He Hlen) as (chunk & _ & _ & Hs' & ->). intros [= <-]. simpl.
    split; [lia|done].
  - destruct (split_inside_ok st (TrimSpace h) e) as (chunk & b & Hb & _ & ->); [done|lia|done|].
    intros [= <-]. simpl. apply slice_Some in Hb as (_ & _ & Hlb & Hrb).
    assert (Hh : len h ≤ k ∧ newline ∉ h).
    { destruct (opening_split (runes st) h u hEnd) as [->|(a & b' & c & Hr & Hn & ->)]; [lia|done|..].
      - split; [done|]. unfold fence, newline, backtick. set_solver.
      - split; [rewrite len_app; exact (Hshort a b' c Hr Hn)|]. unfold fence, newline, backtick in *. set_solver. }
    pose proof (TrimSpace_infix h) as Hih. pose proof (infix_len _ _ Hih).
    set (w := TrimSpace h ++ newline :: b).
    pose proof (TrimSpace_infix w) as Hiw. pose proof (infix_len _ _ Hiw) as Hlw. split.
    + assert (len w = len (TrimSpace h) + 1 + len b)
        by (unfold w; rewrite len_app; unfold len; simpl; lia). lia.
    + apply (short_infix k _ w Hiw). apply (short_reopened k (runes st)); [done| | |lia].
      * exists (take (Z.to_nat e) (runes st)), []. rewrite app_nil_r.
        rewrite drop_ge, app_nil_r in Hrb by (unfold len; lia). done.
      * apply (newline_not_infix _ h); tauto.
Qed.

(** A loop every iteration of which comes closer to the end, in the states it
    reaches, ends. *)
Lemma split_loop_finishes (P : split_state → Prop) n st :
  (∀ st st', state_ok st → P st → split_step maxLen st = More st' →
     left_over st' < left_over st ∧ P st') →
  state_ok st → P st → left_over st < Z.of_nat n → ∃ l, split_loop maxLen n st = Finished l.
Proof.
  intros Hdec. revert st. induction n as [|n IH]; intros st Hok HP Hn.
  - pose proof Hok as [? _]. unfold left_over in Hn. lia.
  - cbn [split_loop]. pose proof (split_step_ok st Hok) as Hst. specialize (Hdec st).
    destruct (split_step maxLen st) as [l|st'|]; [by exists l| |done].
    destruct (Hdec st' Hok HP eq_refl). apply IH; [done|done|lia].
Qed.

Definition initial_split (content : list Z) : split_state :=
  {| runes := content; start := 0; messages := [] |}.

Lemma initial_ok content : state_ok (initial_split content).
Proof. split; [simpl; pose proof (len_runes_nonneg content); lia|done]. Qed.

Lemma initial_left content : left_over (initial_split content) < Z.of_nat (S (length content)).
Proof. unfold left_over, len. simpl. lia. Qed.

(** *** Without fences *)

Definition text (r : list Z) : list Z := keep (λ c, negb (blank c)) r.

Lemma text_app r r' : text (r ++ r') = text r ++ text r'.
Proof. unfold text. induction r as [|c r IH]; simpl; [done|]. case_if; simpl; by rewrite IH. Qed.

Lemma text_blank c r : blank c = true → text (c :: r) = text r.
Proof. intros Hc. unfold text. simpl. by rewrite Hc. Qed.

Lemma text_skip n r i :
  0 ≤ i → text (drop (Z.to_nat (skip_blank n r i)) r) = text (drop (Z.to_nat i) r).
Proof.
  revert i. induction n as [|n IH]; intros i Hi; simpl; [done|]. case_if; [|done].
  rewrite IH by lia. apply andb_true_iff in Heqb as [_ Hb].
  assert (Hx : ∃ c, r !! Z.to_nat i = Some c ∧ blank c = true).
  { rewrite !orb_true_iff, !is_at_true in Hb.
    destruct Hb as [[[[_ Hb]|[_ Hb]]|[_ Hb]]|[_ Hb]]; eexists; (split; [exact Hb|done]). }
  destruct Hx as (c & Hc & Hbl). rewrite (drop_S r c (Z.to_nat i) Hc), text_blank by done.
  f_equal. f_equal. lia.
Qed.

Lemma no_fence_step st :
  state_ok st → no_fence (runes st) →
  match split_step maxLen st with
  | Finished l => ∃ l', l = messages st ++ l' ∧ Forall (λ c, c ≠ []) l' ∧
      text (concat l') = text (drop (Z.to_nat (start st)) (runes st))
  | More st' => ∃ c, messages st' = messages st ++ [c] ∧ c ≠ [] ∧ runes st' = runes st ∧
      left_over st' < left_over st ∧
      text c ++ text (drop (Z.to_nat (start st')) (runes st)) =
        text (drop (Z.to_nat (start st)) (runes st))
  | Panicked => False
  end.
Proof.
  intros Hok Hno. pose proof Hok as [Hs _].
  assert (Hne : ∀ a b c, slice (runes st) a b = Some c → a < b → c ≠ []).
  { intros a b c Hc Hab ->. apply slice_Some in Hc as (_ & _ & Hc & _). unfold len in Hc.
    simpl in Hc. lia. }
  assert (Hcut : ∀ e c, slice (runes st) (start st) e = Some c →
    drop (Z.to_nat (start st)) (runes st) = c ++ drop (Z.to_nat e) (runes st)).
  { intros e c Hc. apply slice_Some in Hc as (_ & _ & _ & Hr).
    rewrite <- (take_drop (Z.to_nat (start st)) (runes st)) in Hr at 1.
    by apply app_inv_head in Hr. }
  destruct (split_step_cases st Hs) as [He|chunk Hc Hl Hlt|e He Hlen|u h hEnd e Hu Hop Hse He Hlen].
  - exists []. rewrite app_nil_r. split_and!; [done|done|]. rewrite drop_ge; [done|]. unfold len in *. lia.
  - exists [chunk]. split_and!; [done|by repeat constructor; eapply Hne|]. simpl.
    rewrite app_nil_r, (Hcut _ _ Hc), drop_ge, app_nil_r by (unfold len; lia). done.
  - destruct (emit_ok st e Hok He Hlen) as (chunk & Hc & _ & Hs' & ->). exists chunk. simpl.
    split_and!; [done|apply (Hne (start st) e chunk Hc); lia|done|unfold left_over; simpl; lia|].
    by rewrite text_skip, (Hcut _ _ Hc), text_app by lia.
  - exfalso. destruct Hop as [Hf _]. destruct (fence_split (runes st) u) as (a & c & Hr & _); [lia|done|].
    by destruct (Hno a c).
Qed.

Lemma no_fence_loop n st l :
  state_ok st → no_fence (runes st) → split_loop maxLen n st = Finished l →
  ∃ l', l = messages st ++ l' ∧ Forall (λ c, c ≠ []) l' ∧
    text (concat l') = text (drop (Z.to_nat (start st)) (runes st)).
Proof.
  revert st. induction n as [|n IH]; intros st Hok Hno; simpl; [done|].
  pose proof (split_step_ok st Hok) as Hok'. pose proof (no_fence_step st Hok Hno) as Hst.
  destruct (split_step maxLen st) as [l0|st'|]; [by intros [= <-]| |done]. intros Hl.
  destruct Hst as (c & Hm & Hc & Hr & _ & Ht).
  destruct (IH st') as (l' & Hl' & Hall & Htext); [done|by rewrite Hr|done|].
  exists (c :: l'). split_and!.
  - by rewrite Hl', Hm, <- app_assoc.
  - by constructor.
  - simpl. by rewrite text_app, Htext, Hr.
Qed.

(** ** Properties *)

(** Chunks fit. However long the loop has run on a message, the splitter has
    not panicked (no slice expression is out of range) and no chunk it made is
    longer than the limit; and it ends, in at most one iteration per rune and
    one more, on every message in which no line is longer, from a fence to its
    newline, than the limit less 207. *)
Theorem SplitMessage_bounded (content : list Z) :
  (∀ n, match SplitMessage maxLen n content with
        | Finished l => Forall fits l
        | More st => Forall fits (messages st)
        | Panicked => False
        end) ∧
  (∀ k, 3 ≤ k → k + 207 ≤ maxLen → fence_lines_short k content →
    ∃ l, SplitMessage maxLen (S (length content)) content = Finished l).
Proof.
  pose proof (initial_ok content) as Hok. unfold SplitMessage.
  destruct (Z.leb_spec maxLen 0); [lia|]. split.
  - intros n. pose proof (split_loop_ok n _ Hok) as Hl. fold (initial_split content).
    destruct (split_loop _ _ _); [done|apply Hl|done].
  - intros k Hk Hroom Hshort.
    apply (split_loop_finishes (λ st, fence_lines_short k (runes st))); [|done|done|apply initial_left].
    intros st st' Hst Hsh Hs. by apply (split_step_progress k).
Qed.

(** A message without fences is only cut: the splitter ends, no chunk is
    empty, and the chunks one after the other are the message up to the white
    space at the cuts. *)
Theorem SplitMessage_text (content : list Z) (Hno : no_fence content) :
  ∃ l, SplitMessage maxLen (S (length content)) content = Finished l ∧
    Forall (λ c, c ≠ []) l ∧ text (concat l) = text content.
Proof.
  pose proof (initial_ok content) as Hok. unfold SplitMessage.
  destruct (Z.leb_spec maxLen 0); [lia|].
  destruct (split_loop_finishes (λ st, no_fence (runes st)) (S (length content)) (initial_split content))
    as [l Hl]; [|done|done|apply initial_left|].
  { intros st st' Hst Hnf Hs. pose proof (no_fence_step st Hst Hnf) as Hp. rewrite Hs in Hp.
    destruct Hp as (c & _ & _ & Hr & Hlt & _). by rewrite Hr. }
  exists l. split; [done|].
  destruct (no_fence_loop _ _ _ Hok Hno Hl) as (l' & -> & Hall & Ht). by split.
Qed.

(** *** A long line after a fence *)

Definition solid (h : list Z) : Prop := Forall (λ c, c ≠ backtick ∧ IsSpace c = false) h.

(** The message that keeps coming back: a fence with a long line, and more. *)
Definition stuck_state (h : list Z) (st : split_state) : Prop :=
  start st = 0 ∧ ∃ t, runes st = fence ++ h ++ [newline] ++ t.

Lemma find_down_None p n i : (∀ k, i - Z.of_nat n < k ≤ i → p k = false) → find_down p n i = None.
Proof.
  revert i. induction n as [|n IH]; intros i Hp; simpl; [done|]. rewrite Hp by lia.
  apply IH. intros k Hk. apply Hp. lia.
Qed.

Lemma find_up_first p n i j :
  i ≤ j < i + Z.of_nat n → p j = true → (∀ k, i ≤ k < j → p k = false) → find_up p n i = Some j.
Proof.
  revert i. induction n as [|n IH]; intros i Hj Hp Hno; simpl; [lia|].
  destruct (decide (i = j)) as [->|Hne]; [by rewrite Hp|].
  rewrite Hno by lia. apply IH; [lia|done|]. intros k Hk. apply Hno. lia.
Qed.

(** A rune of the fence or of the solid line. *)
Lemma solid_at h t i c :
  solid h → 3 ≤ i < 3 + len h → c = backtick ∨ IsSpace c = true →
  is_at (fence ++ h ++ [newline] ++ t) i c = false.
Proof.
  intros Hh Hi Hc. destruct (is_at _ i c) eqn:Hat; [exfalso|done].
  apply is_at_true in Hat as [_ Hat]. rewrite lookup_app_r in Hat by (simpl; lia).
  simpl in Hat. rewrite lookup_app_l in Hat by (unfold len in *; lia).
  pose proof (proj1 (Forall_lookup _ h) Hh _ _ Hat) as [? Hs]. destruct Hc; [done|congruence].
Qed.

Lemma head_at h t i c :
  solid h → 0 ≤ i < 3 + len h → IsSpace c = true →
  is_at (fence ++ h ++ [newline] ++ t) i c = false.
Proof.
  intros Hh Hi Hc. destruct (decide (3 ≤ i)) as [|Hlt]; [apply solid_at; auto; lia|].
  destruct (is_at _ i c) eqn:Hat; [exfalso|done]. apply is_at_true in Hat as [_ Hat].
  assert (Z.to_nat i = 0 ∨ Z.to_nat i = 1 ∨ Z.to_nat i = 2)%nat as [Hx|[Hx|Hx]] by lia;
    rewrite Hx in Hat; simpl in Hat; injection Hat as <-; done.
Qed.

Lemma unclosed_loop_none n r i end_ b last :
  (∀ k, i ≤ k → fence_at r end_ k = false) → unclosed_loop n r i end_ b last = (b, last).
Proof.
  revert i. induction n as [|n IH]; intros i Hk; simpl; [done|]. case_if; [|done].
  rewrite Hk by lia. apply IH. intros k Hik. apply Hk. lia.
Qed.

Lemma trim_left_id p r c r' : r = c :: r' → p c = false → trim_left p r = r.
Proof. intros -> Hc. simpl. by rewrite Hc. Qed.

Lemma trim_right_keep p a c b : p c = false → trim_right p (a ++ c :: b) = a ++ c :: trim_right p b.
Proof.
  intros Hc. unfold trim_right. rewrite reverse_app, reverse_cons.
  assert (Ht : ∀ x, trim_left p ((x ++ [c]) ++ reverse a) = trim_left p x ++ [c] ++ reverse a).
  { intros x. induction x as [|y x IH]; simpl; [by rewrite Hc|]. case_if; [done|].
    by rewrite <- !app_assoc. }
  rewrite Ht, reverse_app, reverse_app, reverse_involutive. simpl. by rewrite <- app_assoc.
Qed.

Lemma solid_trim h : solid h → TrimSpace (fence ++ h) = fence ++ h.
Proof.
  intros Hh. unfold TrimSpace. rewrite (trim_left_id IsSpace (fence ++ h) backtick _ eq_refl) by done.
  destruct h as [|x h _] using rev_ind; [done|]. rewrite app_assoc.
  apply Forall_app in Hh as [_ [[_ Hx] _]%Forall_cons].
  rewrite (trim_right_keep IsSpace (fence ++ h) x []) by done. done.
Qed.

Lemma effectiveLimit_3 : 3 ≤ effectiveLimit maxLen ≤ maxLen.
Proof.
  pose proof effectiveLimit_bounds. unfold effectiveLimit, codeBlockBuffer in *.
  pose proof (Z.div_mod maxLen 2 ltac:(lia)). pose proof (Z.mod_pos_bound maxLen 2 ltac:(lia)). lia.
Qed.

Section stuck.
Variables h t r : list Z.
Hypothesis Hh : solid h.
Hypothesis Hlong : maxLen ≤ len h.
Hypothesis Hr : r = fence ++ h ++ [newline] ++ t.

Lemma stuck_len : len r = 3 + len h + 1 + len t.
Proof. rewrite Hr, !len_app. unfold len. simpl. lia. Qed.

(** No newline or space to cut at. *)
Lemma stuck_no_newline e w : 0 ≤ e ≤ maxLen → findLastNewlineInRange r 0 e w = -1.
Proof.
  intros He. unfold findLastNewlineInRange. rewrite find_down_None; [done|]. intros k Hk.
  rewrite Hr. apply head_at; [done|lia|done].
Qed.

Lemma stuck_no_space e w : 0 ≤ e ≤ maxLen → findLastSpaceInRange r 0 e w = -1.
Proof.
  intros He. unfold findLastSpaceInRange. rewrite find_down_None; [done|]. intros k Hk.
  rewrite Hr, !head_at; [done|done|lia|done|done|lia|done].
Qed.

Lemma stuck_first_cut : first_cut maxLen r 0 = effectiveLimit maxLen.
Proof.
  pose proof effectiveLimit_bounds. unfold first_cut.
  by rewrite stuck_no_newline, stuck_no_space by lia.
Qed.

Lemma stuck_unclosed : findLastUnclosedCodeBlockInRange r 0 (effectiveLimit maxLen) = 0.
Proof.
  pose proof effectiveLimit_3 as Heff3.
  assert (Hf0 : fence_at r (effectiveLimit maxLen) 0 = true).
  { apply fence_at_true. rewrite Hr. split_and!; [lia|done..]. }
  unfold findLastUnclosedCodeBlockInRange. rewrite Z.sub_0_r.
  destruct (Z.to_nat (effectiveLimit maxLen)) as [|n] eqn:Hn; [lia|]. cbn [unclosed_loop].
  destruct (Z.ltb_spec 0 (effectiveLimit maxLen)); [|lia]. rewrite Hf0. simpl.
  rewrite unclosed_loop_none; [done|]. intros k Hk. apply not_true_is_false.
  intros (? & Hk0 & _)%fence_at_true. rewrite Hr, solid_at in Hk0; [done|done|lia|by left].
Qed.

Lemma stuck_header : findNewlineFrom r 0 = 3 + len h ∧ slice r 0 (3 + len h) = Some (fence ++ h).
Proof.
  pose proof stuck_len as Hl. pose proof (len_runes_nonneg t). pose proof (len_runes_nonneg h). split.
  - unfold findNewlineFrom. rewrite (find_up_first _ _ _ (3 + len h)); [done|lia| |].
    + apply is_at_true. split; [lia|]. rewrite Hr, lookup_app_r by (simpl; lia).
      simpl. replace (Z.to_nat (3 + len h) - 3)%nat with (length h) by (unfold len; lia).
      rewrite lookup_app_r by lia. by rewrite Nat.sub_diag.
    + intros k Hk. rewrite Hr. apply head_at; [done|lia|done].
  - unfold slice. destruct (Z.leb_spec 0 (3 + len h)), (Z.leb_spec (3 + len h) (len r)); try lia.
    simpl. f_equal. rewrite Hr, app_assoc.
    replace (Z.to_nat (3 + len h - 0)) with (length (fence ++ h)) by (unfold len; simpl; lia).
    apply take_app_length.
Qed.

Lemma stuck_closing e :
  3 ≤ e → let c := findNextClosingCodeBlockInRange r e (len r) in
  (0 <? c) && (c - 0 <=? maxLen) = false.
Proof.
  intros He. cbv zeta. set (c := findNextClosingCodeBlockInRange r e (len r)).
  assert (Hc : c = -1 ∨ maxLen < c).
  { unfold c, findNextClosingCodeBlockInRange. destruct (find_up _ _ _) as [j|] eqn:Hj; [|by left].
    right. apply find_up_Some in Hj as (Hj & Hfj & _).
    apply fence_at_true in Hfj as (_ & Hj0 & _ & _). destruct (decide (j < 3 + len h)); [|lia].
    rewrite Hr, solid_at in Hj0; [done|done|lia|by left]. }
  destruct (Z.ltb_spec 0 c), (Z.leb_spec (c - 0) maxLen); simpl; lia.
Qed.

(** What follows the cut starts inside the fence or the line, so trimming the
    reopened message leaves its first line alone. *)
Lemma stuck_rest b :
  slice r (maxLen - 5) (len r) = Some b →
  ∃ t', TrimSpace ((fence ++ h) ++ [newline] ++ b) = fence ++ h ++ [newline] ++ t'.
Proof.
  intros Hb. apply slice_Some in Hb as (_ & _ & Hlb & Hrb). pose proof stuck_len as Hl.
  pose proof (len_runes_nonneg t).
  destruct b as [|c b]; [change (len []) with 0 in Hlb; lia|].
  assert (Hcs : IsSpace c = false).
  { destruct (IsSpace c) eqn:Hc; [exfalso|done].
    pose proof (head_at h t (maxLen - 5) c Hh ltac:(lia) Hc) as Hat. rewrite <- Hr in Hat.
    apply not_true_iff_false in Hat. apply Hat, is_at_true. split; [lia|].
    rewrite Hrb, lookup_app_r by (rewrite length_take; lia).
    rewrite length_take, Nat.min_l by (unfold len in *; lia). by rewrite Nat.sub_diag. }
  exists (c :: trim_right IsSpace b). unfold TrimSpace.
  rewrite (trim_left_id IsSpace ((fence ++ h) ++ [newline] ++ c :: b) backtick _ eq_refl) by done.
  replace ((fence ++ h) ++ [newline] ++ c :: b) with ((fence ++ h ++ [newline]) ++ c :: b)
    by (by rewrite <- !app_assoc).
  rewrite trim_right_keep by done. by rewrite <- !app_assoc.
Qed.
End stuck.

Lemma stuck_step h st :
  solid h → maxLen ≤ len h → stuck_state h st →
  ∃ st', split_step maxLen st = More st' ∧ stuck_state h st' ∧
    length (messages st') = S (length (messages st)).
Proof.
  intros Hh Hlong (Hs & t & Hr). pose proof (stuck_len h t _ Hr) as Hlen.
  pose proof (len_runes_nonneg t). pose proof effectiveLimit_3 as Heff.
  assert (Hstep : split_step maxLen st = split_inside st (fence ++ h) (maxLen - 5)).
  { unfold split_step. rewrite Hs. destruct (Z.ltb_spec 0 (len (runes st))); [|lia].
    destruct (Z.leb_spec (len (runes st) - 0) maxLen); [lia|]. cbn [negb].
    rewrite (stuck_first_cut h t), (stuck_unclosed h t) by done.
    destruct (Z.ltb_spec (effectiveLimit maxLen) (len (runes st))); [|lia]. simpl.
    rewrite (stuck_closing h t) by (done || lia).
    unfold split_block. destruct (stuck_header h t (runes st)) as [-> Hsl]; try done.
    rewrite Hs. destruct (Z.eqb_spec (3 + len h) (-1)); [lia|]. rewrite Hsl, (solid_trim h Hh).
    destruct (Z.ltb_spec (3 + len h + 20) (effectiveLimit maxLen)); [lia|].
    rewrite (stuck_no_newline h t), (stuck_no_space h t) by (done || lia). simpl.
    by rewrite Z.min_l by lia. }
  rewrite Hstep. unfold split_inside. rewrite Hs.
  destruct (slice_ok (runes st) 0 (maxLen - 5)) as (a & -> & _); [lia|lia|].
  destruct (slice_ok (runes st) (maxLen - 5) (len (runes st))) as (b & Hb & _); [lia|lia|].
  rewrite Hb. eexists. split; [done|]. split; [|simpl; by rewrite length_app, Nat.add_comm].
  split; [done|]. by apply (stuck_rest h t (runes st)).
Qed.

(** A message the splitter never finishes: when it starts with a fence and the
    rest of that line, without spaces or backticks, is at least as long as the
    limit, every iteration reopens the block with that line and is left with a
    message of the same kind; it makes chunks for ever. *)
Theorem SplitMessage_stuck (h t : list Z) (n : nat)
  (Hh : solid h) (Hlong : maxLen ≤ len h) :
  ∃ st, SplitMessage maxLen n (fence ++ h ++ [newline] ++ t) = More st ∧
    length (messages st) = n.
Proof.
  unfold SplitMessage. destruct (Z.leb_spec maxLen 0); [lia|].
  assert (Hgen : ∀ st, stuck_state h st → ∃ st', split_loop maxLen n st = More st' ∧
    length (messages st') = (length (messages st) + n)%nat).
  { induction n as [|m IH]; intros st Hst; cbn [split_loop]; [exists st; split; [done|lia]|].
    destruct (stuck_step h st Hh Hlong Hst) as (st1 & -> & Hst1 & Hm).
    destruct (IH st1 Hst1) as (st' & Hl & Hm'). exists st'. split; [done|lia]. }
  apply (Hgen (initial_split (fence ++ h ++ [newline] ++ t))). split; [done|by exists t].
Qed.

End lemmas.
Example ex_split :
  SplitMessage 10 9 (repeat 97 5 ++ [32] ++ repeat 98 12)
    = Finished [repeat 97 5; repeat 98 5; repeat 98 7].
Proof. vm_compute. reflexivity. Qed.

(** ** Witnesses *)

(** A code block longer than the limit, without a closing fence. *)
Definition ex_line : list Z := repeat 97 400.
Definition ex_block : list Z := fence ++ [newline] ++ ex_line.

Lemma ex_line_newline : newline ∉ ex_line.
Proof. intros Hin%list_elem_of_In%repeat_spec. discriminate. Qed.

Lemma ex_block_short : fence_lines_short 3 ex_block.
Proof.
  intros a b c Heq Hb.
  assert (Hl : ex_block !! length (a ++ fence ++ b) = Some newline).
  { rewrite Heq. replace (a ++ fence ++ b ++ [newline] ++ c) with ((a ++ fence ++ b) ++ [newline] ++ c)
      by (by rewrite <- !app_assoc). by rewrite lookup_app_r, Nat.sub_diag by lia. }
  rewrite !length_app in Hl. unfold ex_block, fence, len in *. cbn [length] in Hl.
  destruct (length a + (3 + length b))%nat as [|[|[|[|n]]]] eqn:Hn; try lia; try done.
  cbn [app lookup list_lookup] in Hl. destruct ex_line_newline. by eapply list_elem_of_lookup_2.
Qed.

Lemma SplitMessage_bounded_witness :
  (∀ n, match SplitMessage 300 n ex_block with
        | Finished l => Forall (fits 300) l
        | More st => Forall (fits 300) (messages st)
        | Panicked => False
        end) ∧
  ∃ l, SplitMessage 300 (S (length ex_block)) ex_block = Finished l.
Proof.
  split.
  - apply (SplitMessage_bounded 300 ltac:(lia) ex_block).
  - apply (proj2 (SplitMessage_bounded 300 ltac:(lia) ex_block) 3); [lia|lia|apply ex_block_short].
Defined.

Definition ex_plain : list Z := repeat 97 5 ++ [32] ++ repeat 98 12.

Lemma SplitMessage_text_witness :
  ∃ l, SplitMessage 9 (S (length ex_plain)) ex_plain = Finished l ∧
    Forall (λ c, c ≠ []) l ∧ text (concat l) = text ex_plain.
Proof.
  apply (SplitMessage_text 9 ltac:(lia) ex_plain). intros a c Heq.
  assert (Hin : backtick ∈ ex_plain) by (rewrite Heq; unfold fence; set_solver).
  vm_compute in Hin. unfold backtick in *.
  repeat (apply elem_of_cons in Hin as [Hin|Hin]; [discriminate Hin|]). by apply not_elem_of_nil in Hin.
Defined.

Lemma SplitMessage_stuck_witness :
  ∃ st, SplitMessage 10 7 (fence ++ repeat 97 12 ++ [newline] ++ [98]) = More st ∧
    length (messages st) = 7%nat.
Proof.
  apply (SplitMessage_stuck 10 ltac:(lia) (repeat 97 12) [98] 7).
  - repeat constructor; discriminate.
  - vm_compute. discriminate.
Defined.
