(* ===== verification/McpHealth.v ===== *)
(** * Health of tool servers (mcp/health.go, mcp/resilience.go)

    The manager of the MCP servers keeps, per server that cannot be reached, how
    often it failed in a row, since when, and when it last alerted: a failure
    extends the wait before the next attempt, alerts when the outage has lasted
    long enough and a reminder is due, and a success ends the outage. The file
    models these operations with the alerts they send, the status list, and the
    tail of a child's stderr, and shows the backoff, the cadence of alerts over
    an outage, what the status lists and what the tail keeps. *)

From stdpp Require Import base gmap strings list fin_maps sorting.
From Stdlib Require Import ZArith Lia Ascii.
From S2P Require Import Prelude GoString.

Open Scope string_scope.
Open Scope list_scope.
Open Scope Z_scope.

Definition downAlertAfter : Z := 5 * GoTime.minute.
Definition alertReminderInterval : Z := GoTime.hour.
Definition maxReconnectBackoff : Z := 10 * GoTime.minute.
Definition alertReasonMax : nat := 120.

(** ** State *)

Record serverHealth := {
  failures : Z;
  downSince : Z;
  lastAlert : Z;
  lastErr : string;
  lastErrAt : Z
}.

Definition no_health : serverHealth :=
  {| failures := 0; downSince := GoTime.zero_time; lastAlert := GoTime.zero_time; lastErr := "";
     lastErrAt := GoTime.zero_time |}.

(** An error: its message and the lines of the [stderrError] it wraps, which has
    at least one, if it wraps one. *)
Record connError := { err_text : string; err_lines : option (list string) }.

(** What the status shows of a connection. *)
Record MCPServerConfig := { cfg_Type : string; cfg_URL : string; cfg_Command : string }.

Record ServerConnection := { sc_cfg : MCPServerConfig; sc_tools : Z }.

Record Alert := { Title : string; Description : string; Details : string; EventID : string }.

Record Manager := {
  health : gmap string serverHealth;
  cooldownUntil : gmap string Z;
  reconnecting : gmap string bool;
  servers : gmap string ServerConnection;
  reconnectCooldown : Z;
  has_alerter : bool
}.

Definition set_health (m : Manager) (h : gmap string serverHealth) (c : gmap string Z) : Manager :=
  {| health := h; cooldownUntil := c; reconnecting := reconnecting m; servers := servers m;
     reconnectCooldown := reconnectCooldown m; has_alerter := has_alerter m |}.

(** ** Backoff *)

(** The loop [for i := 1; i < failures && d < limit; i++ { d *= 2 }], [n]
    iterations at most. *)
Fixpoint double_below (n : nat) (limit d : Z) : Z :=
  match n with
  | O => d
  | S n' => if d <? limit then double_below n' limit (wrap64 (d * 2)) else d
  end.

Definition backoff (initial failures : Z) : Z :=
  let limit := Z.max maxReconnectBackoff initial in
  Z.min (double_below (Z.to_nat (failures - 1)) limit initial) limit.

(** ** Alerts *)

(** [time.Time.Format("15:04")] in the zone of the machine. *)
Class Clock := { format_hm : Z → string }.

Definition oneLine (s : string) : string := Join (Fields s) " ".

Definition truncateRunes (s : string) (n : nat) : string :=
  let r := runes s in
  if (length r <=? n)%nat then s else of_runes (take (n - 3) r) +:+ "...".

Definition formatDowntime (d : Z) : string :=
  if d <? GoTime.minute then itoa (Z.quot d GoTime.second) +:+ "s"
  else if d <? GoTime.hour then itoa (Z.quot d GoTime.minute) +:+ "m"
  else itoa (Z.quot d GoTime.hour) +:+ "h"
       +:+ itoa (Z.rem (Z.quot d GoTime.minute) 60) +:+ "m".

Definition newline : string := String "010" "".

Definition downAlert (name : string) (err : connError) (prefix : string) : Alert :=
  let lines := default [] (err_lines err) in
  let reason := default (err_text err) (last lines) in
  let details :=
    err_text err
    +:+ (match lines with
         | [] => ""
         | _ => newline +:+ newline +:+ "stderr:" +:+ newline +:+ Join lines newline
         end)
    +:+ newline +:+ newline
    +:+ "Its tools are unavailable until it reconnects; reconnects are retried after the cooldown, or force one from the MCP servers page." in
  {| Title := "MCP " +:+ name +:+ " down";
     Description := truncateRunes (oneLine (prefix +:+ reason)) alertReasonMax;
     Details := details; EventID := name |}.

Definition upAlert (name : string) (downtime : Z) : Alert :=
  {| Title := "MCP " +:+ name +:+ " up";
     Description := "reconnected after " +:+ formatDowntime downtime;
     Details := ""; EventID := name +:+ "-up" |}.

Definition sendAlert (m : Manager) (a : Alert) : list Alert := if has_alerter m then [a] else [].

Definition healthLocked (m : Manager) (name : string) : serverHealth :=
  default no_health (health m !! name).

Section operations.
Context `{Clock}.

(** The new failure state of a server, and the alert to send. *)
Definition failed (name : string) (err : connError) (now : Z) (h : serverHealth)
    : serverHealth * option Alert :=
  let h' ds la := {| failures := failures h + 1; downSince := ds; lastAlert := la;
                     lastErr := err_text err; lastErrAt := now |} in
  if GoTime.is_zero (downSince h) then (h' now (lastAlert h), None)
  else if GoTime.is_zero (lastAlert h) then
    if downAlertAfter <=? GoTime.sub now (downSince h) then
      (h' (downSince h) now,
       Some (downAlert name err ("down since " +:+ format_hm (downSince h) +:+ ": ")))
    else (h' (downSince h) (lastAlert h), None)
  else if alertReminderInterval <=? GoTime.sub now (lastAlert h) then
    (h' (downSince h) now,
     Some (downAlert name err ("still down since " +:+ format_hm (downSince h) +:+ ": ")))
  else (h' (downSince h) (lastAlert h), None).

(** The alerts sent are returned with the state. *)
Definition recordFailure (m : Manager) (now : Z) (name : string) (err : connError)
    : Manager * list Alert :=
  let '(h, alert) := failed name err now (healthLocked m name) in
  (set_health m (<[name := h]> (health m))
     (<[name := GoTime.add now (backoff (reconnectCooldown m) (failures h))]> (cooldownUntil m)),
   match alert with Some a => sendAlert m a | None => [] end).

Definition recordSuccess (m : Manager) (now : Z) (name : string) : Manager * list Alert :=
  let m' := set_health m (delete name (health m)) (delete name (cooldownUntil m)) in
  match health m !! name with
  | None => (m', [])
  | Some h =>
    (m', if GoTime.is_zero (lastAlert h) then []
         else sendAlert m (upAlert name (GoTime.sub now (downSince h))))
  end.

(** Deletes the entries, and their cooldowns, of the servers not desired. *)
Definition forgetHealth (m : Manager) (desired : gset string) : Manager :=
  set_health m (filter (λ kv, kv.1 ∈ desired) (health m))
    (filter (λ kv, kv.1 ∈ desired ∨ health m !! kv.1 = None) (cooldownUntil m)).

Definition lastError (m : Manager) (name : string) : string * Z :=
  match health m !! name with
  | Some h => (lastErr h, lastErrAt h)
  | None => ("", GoTime.zero_time)
  end.

Definition reconnectCooldownUntil (m : Manager) (now : Z) (name : string) : option Z :=
  match cooldownUntil m !! name with
  | Some until => if GoTime.before now until then Some until else None
  | None => None
  end.

Definition clearReconnectCooldown (m : Manager) (name : string) : Manager :=
  set_health m (health m) (delete name (cooldownUntil m)).

Definition setReconnecting (m : Manager) (name : string) (active : bool) : Manager :=
  {| health := health m; cooldownUntil := cooldownUntil m;
     reconnecting := if active then <[name := true]> (reconnecting m) else delete name (reconnecting m);
     servers := servers m; reconnectCooldown := reconnectCooldown m; has_alerter := has_alerter m |}.

(** ** A run *)

Inductive operation :=
| Failure (now : Z) (name : string) (err : connError)
| Success (now : Z) (name : string)
| Forget (desired : gset string)
| ClearCooldown (name : string)
| SetReconnecting (name : string) (active : bool).

(** The alerts are listed with their time and server. *)
Definition apply_op (m : Manager) (op : operation) : Manager * list (Z * string * Alert) :=
  match op with
  | Failure now name err =>
    let '(m', al) := recordFailure m now name err in (m', map (pair (now, name)) al)
  | Success now name => let '(m', al) := recordSuccess m now name in (m', map (pair (now, name)) al)
  | Forget desired => (forgetHealth m desired, [])
  | ClearCooldown name => (clearReconnectCooldown m name, [])
  | SetReconnecting name active => (setReconnecting m name active, [])
  end.

Fixpoint run (m : Manager) (ops : list operation) : Manager * list (Z * string * Alert) :=
  match ops with
  | [] => (m, [])
  | op :: ops' =>
    let '(m1, al1) := apply_op m op in
    let '(m2, al2) := run m1 ops' in (m2, al1 ++ al2)
  end.
End operations.

(** ** Status *)

Inductive conn_state := StateConnected | StateReconnecting | StateCooldown.

Record ServerStatus := {
  Name : string;
  State : conn_state;
  Transport : string;
  ToolCount : Z;
  CooldownUntil : Z;
  LastError : string;
  LastErrorAt : Z
}.

Definition effectiveTransport (cfg : MCPServerConfig) : string :=
  if bool_decide (cfg_Type cfg ≠ "") then cfg_Type cfg
  else if bool_decide (cfg_URL cfg ≠ "") then "http"
  else if bool_decide (cfg_Command cfg ≠ "") then "stdio"
  else "".

Section status.
Context `{GoRange}.

Definition status_of (m : Manager) (name : string) (state : conn_state) (transport : string)
    (tools until : Z) : ServerStatus :=
  let '(err, at_) := lastError m name in
  {| Name := name; State := state; Transport := transport; ToolCount := tools;
     CooldownUntil := until; LastError := err; LastErrorAt := at_ |}.

Definition connected_status (m : Manager) (kv : string * ServerConnection) : ServerStatus :=
  status_of m kv.1
    (if bool_decide (is_Some (reconnecting m !! kv.1)) then StateReconnecting else StateConnected)
    (effectiveTransport (sc_cfg kv.2)) (sc_tools kv.2) GoTime.zero_time.

Definition is_none {A} (o : option A) : bool := match o with None => true | Some _ => false end.

Definition Status (m : Manager) (now : Z) : list ServerStatus :=
  let cooldown := filter (λ kv, GoTime.before now kv.2 = true) (cooldownUntil m) in
  map (connected_status m) (go_range (servers m))
  ++ map (λ kv, status_of m kv.1 StateReconnecting "" 0 GoTime.zero_time)
       (keep (λ kv, is_none (servers m !! kv.1)) (go_range (reconnecting m)))
  ++ map (λ kv, status_of m kv.1 StateCooldown "" 0 kv.2)
       (keep (λ kv, is_none (servers m !! kv.1) && is_none (reconnecting m !! kv.1))
          (go_range cooldown)).
End status.

(** ** The tail of stderr *)

Definition stderrTailBytes : nat := 4096.
Definition stderrTailLines : nat := 20.

Record stderrTail := { buf : list ascii; truncated : bool }.

Definition newTail : stderrTail := {| buf := []; truncated := false |}.

Definition Write (t : stderrTail) (p : list ascii) : stderrTail :=
  let b := buf t ++ p in
  let over := (length b - stderrTailBytes)%nat in
  if (0 <? over)%nat then {| buf := drop over b; truncated := true |}
  else {| buf := b; truncated := truncated t |}.

(** [s[strings.IndexByte(s, c)+1:]], or the empty string. *)
Fixpoint after_byte (c : ascii) (l : list ascii) : list ascii :=
  match l with
  | [] => []
  | b :: l' => if Ascii.eqb b c then l' else after_byte c l'
  end.

(** The trimmed non-empty lines of an output. *)
Definition clean_lines (l : list ascii) : list string :=
  keep (λ s, negb (bool_decide (s = ""))) (map (λ w, TrimSpace (of_bytes w)) (split_byte "010" l)).

Definition Lines (t : stderrTail) : list string :=
  let lines := clean_lines (if truncated t then after_byte "010" (buf t) else buf t) in
  if (stderrTailLines <? length lines)%nat then drop (length lines - stderrTailLines) lines
  else lines.

Definition last_line (t : stderrTail) : string := default "" (last (Lines t)).

Definition withStderr (err : connError) (t : stderrTail) : connError :=
  match Lines t with
  | [] => err
  | lines =>
    {| err_text := err_text err +:+ "; stderr: " +:+ default "" (last lines);
       err_lines := Some lines |}
  end.

(** ** The wait between attempts *)

Lemma double_below_spec n limit d :
  0 < d → limit ≤ 2 ^ 62 → Z.min (double_below n limit d) limit = Z.min (d * 2 ^ Z.of_nat n) limit.
Proof.
  revert d. induction n as [|n IH]; intros d Hd Hl.
  - cbn [double_below]. by rewrite Z.pow_0_r, Z.mul_1_r.
  - cbn [double_below]. destruct (Z.ltb_spec d limit).
    + rewrite wrap64_id by (unfold in_int64, min_int64, max_int64; lia).
      rewrite IH by lia. f_equal. rewrite Nat2Z.inj_succ, Z.pow_succ_r by lia. lia.
    + assert (1 ≤ 2 ^ Z.of_nat (S n)) by (apply (Z.pow_le_mono_r 2 0); lia). nia.
Qed.

(** The wait before the next attempt: the cooldown that the [k+1]-th failure
    in a row sets is exactly [2^k] times the initial one, or the cap when that
    is less, and the doubling never overflows: the cap is ten minutes, or the
    initial cooldown where that is longer. *)
Theorem recordFailure_backoff `{Clock} (m : Manager) (now : Z) (name : string) (err : connError)
  (k : nat) (Hk : failures (healthLocked m name) = Z.of_nat k)
  (Hi : 0 < reconnectCooldown m ≤ max_int64) :
  let wait := Z.min (reconnectCooldown m * 2 ^ Z.of_nat k)
                    (Z.max maxReconnectBackoff (reconnectCooldown m)) in
  let m' := (recordFailure m now name err).1 in
  cooldownUntil m' !! name = Some (now + wait) ∧ 0 < wait ∧
  failures (healthLocked m' name) = Z.of_nat (S k) ∧
  (∀ t, reconnectCooldownUntil m' t name = None ↔ now + wait ≤ t) ∧
  ∀ name', name' ≠ name → cooldownUntil m' !! name' = cooldownUntil m !! name' ∧
    health m' !! name' = health m !! name'.
Proof.
  cbv zeta. set (wait := Z.min _ (Z.max _ _)).
  assert (Hb : backoff (reconnectCooldown m) (Z.of_nat (S k)) = wait).
  { unfold backoff, wait. replace (Z.to_nat (Z.of_nat (S k) - 1)) with k by lia.
    destruct (decide (maxReconnectBackoff < reconnectCooldown m)) as [Hlt|Hge].
    - rewrite Z.max_r by lia. assert (1 ≤ 2 ^ Z.of_nat k) by (apply (Z.pow_le_mono_r 2 0); lia).
      destruct k; cbn [double_below]; [|rewrite Z.ltb_irrefl]; nia.
    - apply double_below_spec; [lia|]. unfold maxReconnectBackoff, GoTime.minute, GoTime.second,
        GoTime.millisecond in *. lia. }
  assert (Hf : failures (failed name err now (healthLocked m name)).1 = Z.of_nat (S k)).
  { unfold failed. repeat case_if; simpl; lia. }
  unfold recordFailure. destruct (failed _ _ _ _) as [h al]. simpl in *. rewrite Hf, Hb.
  assert (Hpos : 0 < wait).
  { unfold wait. assert (1 ≤ 2 ^ Z.of_nat k) by (apply (Z.pow_le_mono_r 2 0); lia).
    unfold maxReconnectBackoff, GoTime.minute, GoTime.second, GoTime.millisecond in *. nia. }
  split_and!.
  - by rewrite lookup_insert_eq.
  - done.
  - unfold healthLocked. simpl. rewrite lookup_insert_eq. exact Hf.
  - intros t. unfold reconnectCooldownUntil, GoTime.add. simpl. rewrite lookup_insert_eq.
    unfold GoTime.before. destruct (Z.ltb_spec t (now + wait)); split; (done || lia).
  - intros name' Hne. by rewrite !lookup_insert_ne.
Qed.

(** ** An outage *)

Definition op_time (op : operation) : list Z :=
  match op with Failure t _ _ | Success t _ => [t] | _ => [] end.

Definition times (ops : list operation) : list Z := ops ≫= op_time.

(** The failures of a server. *)
Definition fails (n : string) (ops : list operation) : list Z :=
  ops ≫= λ op, match op with
               | Failure t n' _ => if bool_decide (n' = n) then [t] else []
               | _ => []
               end.

(** What ends the outage of a server. *)
Definition ends_outage (n : string) (op : operation) : Prop :=
  match op with
  | Success _ n' => n' = n
  | Forget desired => n ∉ desired
  | _ => False
  end.

(** The times of the alerts about a server. *)
Definition alerts_of (n : string) (al : list (Z * string * Alert)) : list Z :=
  map (λ x, x.1.1) (keep (λ x, bool_decide (x.1.2 = n)) al).

Section outage.
Context `{Clock}.

Lemma run_app m ops op :
  run m (ops ++ [op]) =
    ((apply_op (run m ops).1 op).1, (run m ops).2 ++ (apply_op (run m ops).1 op).2).
Proof.
  revert m. induction ops as [|op1 ops IH]; intros m; simpl.
  - destruct (apply_op m op) as [m1 al1]. simpl. by rewrite app_nil_r.
  - destruct (apply_op m op1) as [m1 al1]. rewrite IH. destruct (run m1 ops) as [m2 al2]. simpl.
    destruct (apply_op m2 op). simpl. by rewrite <- app_assoc.
Qed.

Lemma alerts_of_app n l l' : alerts_of n (l ++ l') = alerts_of n l ++ alerts_of n l'.
Proof.
  unfold alerts_of. rewrite <- map_app. f_equal. induction l as [|x l IH]; simpl; [done|].
  case_if; simpl; by rewrite IH.
Qed.

Lemma alerts_of_other n n' t al : n' ≠ n → alerts_of n (map (pair (t, n')) al) = [].
Proof.
  intros Hne. unfold alerts_of. induction al as [|a al IH]; simpl; [done|].
  by rewrite bool_decide_eq_false_2.
Qed.

Lemma fails_app n l l' : fails n (l ++ l') = fails n l ++ fails n l'.
Proof. apply bind_app. Qed.

Lemma fails_times n ops x : x ∈ fails n ops → x ∈ times ops.
Proof.
  unfold fails, times. intros (op & Hx & Hop)%list_elem_of_bind. apply list_elem_of_bind.
  exists op. split; [|done]. destruct op as [t n' err| | | |]; try by apply not_elem_of_nil in Hx.
  destruct (bool_decide (n' = n)); [done|by apply not_elem_of_nil in Hx].
Qed.

(** What an operation that does not end the outage leaves. *)
Lemma apply_keeps m op n :
  ¬ ends_outage n op → (∀ t err, op ≠ Failure t n err) →
  health (apply_op m op).1 !! n = health m !! n ∧ alerts_of n (apply_op m op).2 = [] ∧
  fails n [op] = [] ∧ has_alerter (apply_op m op).1 = has_alerter m.
Proof.
  intros He Hf. destruct op as [t n' err|t n'|d|n'|n' b]; simpl in *.
  - assert (n' ≠ n) by (intros ->; by eapply Hf). unfold recordFailure.
    destruct (failed n' err t (healthLocked m n')) as [h a]. simpl.
    rewrite lookup_insert_ne by done. split_and!; [done|by apply alerts_of_other| |done].
    unfold fails. simpl. by rewrite bool_decide_eq_false_2.
  - unfold recordSuccess. destruct (health m !! n') as [h|]; simpl;
      rewrite lookup_delete_ne by done; split_and!; try done. by apply alerts_of_other.
  - split_and!; try done. apply not_not_elem_of in He || (apply dec_stable in He).
    destruct (health m !! n) as [h|] eqn:Hh.
    + by apply map_lookup_filter_Some.
    + apply map_lookup_filter_None. by left.
  - done.
  - done.
Qed.

(** The state of an outage that began with the failures [F] and alerted at [A]. *)
Record outage_inv (m : Manager) (n : string) (F A : list Z) : Prop := {
  oi_health :
    match health m !! n with
    | None => F = [] ∧ A = []
    | Some h => head F = Some (downSince h) ∧ lastAlert h = default 0 (last A)
    end;
  oi_early : Forall (λ a, a ∈ F ∧ ∃ t0, head F = Some t0 ∧ t0 + downAlertAfter ≤ a) A;
  oi_spaced : StronglySorted (λ a a', a + alertReminderInterval ≤ a') A;
  oi_prompt : ∀ t t0, head F = Some t0 → t ∈ F →
    t ∈ A ∨ t < t0 + downAlertAfter ∨ ∃ a, a ∈ A ∧ a ≤ t < a + alertReminderInterval
}.

Lemma sub_ge t u d : 0 < d ≤ max_int64 → (d <=? GoTime.sub t u) = (d <=? t - u).
Proof.
  intros Hd. unfold GoTime.sub, min_int64, max_int64 in *.
  destruct (Z.leb_spec d (t - u)), (Z.leb_spec d (Z.max (- 2 ^ 63) (Z.min (2 ^ 63 - 1) (t - u))));
    try done; lia.
Qed.

Lemma sorted_last_le A a : StronglySorted (λ a a', a + alertReminderInterval ≤ a') A →
  last A = Some a → ∀ x, x ∈ A → x ≤ a.
Proof.
  intros Hs. revert a. induction Hs as [|y A Hs IH Hy]; intros a Hl x Hx; [done|].
  destruct A as [|z A]; [injection Hl as <-; by apply list_elem_of_singleton in Hx as ->|].
  change (last (z :: A) = Some a) in Hl. apply elem_of_cons in Hx as [->|Hx]; [|by apply IH].
  pose proof (proj1 (Forall_forall _ _) Hy a) as Hya. cbn in Hya.
  assert (a ∈ z :: A) by (apply last_Some in Hl as [l' ->]; set_solver).
  specialize (Hya ltac:(done)). unfold alertReminderInterval, GoTime.hour, GoTime.minute,
    GoTime.second, GoTime.millisecond in *. lia.
Qed.

Lemma sorted_snoc A a : StronglySorted (λ a a', a + alertReminderInterval ≤ a') A →
  (∀ l, last A = Some l → l + alertReminderInterval ≤ a) →
  StronglySorted (λ a a', a + alertReminderInterval ≤ a') (A ++ [a]).
Proof.
  intros Hs Hl. assert (Hall : Forall (λ x, x + alertReminderInterval ≤ a) A).
  { apply Forall_forall. intros x Hx. destruct (last A) as [l|] eqn:HA.
    - pose proof (sorted_last_le A l Hs HA x Hx). specialize (Hl l eq_refl). lia.
    - apply last_None in HA. subst. by apply not_elem_of_nil in Hx. }
  clear Hl. induction Hs as [|y A Hs IH Hy]; simpl; [by repeat constructor|].
  apply Forall_cons in Hall as [Hya Hall]. constructor; [by apply IH|].
  apply Forall_app. split; [done|by repeat constructor].
Qed.

Lemma alerts_of_self n t a : alerts_of n (map (pair (t, n)) [a]) = [t].
Proof. unfold alerts_of. simpl. by rewrite bool_decide_eq_true_2. Qed.

(** A failure that alerts, or does not. *)
Lemma outage_snoc m m' n F A t t0 h' (alerts : bool) :
  outage_inv m n F A → health m' !! n = Some h' →
  head (F ++ [t]) = Some t0 → (∀ x, x ∈ F → x ≤ t) → downSince h' = t0 →
  lastAlert h' = (if alerts then t else default 0 (last A)) →
  (if alerts then t0 + downAlertAfter ≤ t ∧ ∀ l, last A = Some l → l + alertReminderInterval ≤ t
   else t < t0 + downAlertAfter ∨ ∃ a, a ∈ A ∧ a ≤ t < a + alertReminderInterval) →
  outage_inv m' n (F ++ [t]) (A ++ if alerts then [t] else []).
Proof.
  intros [_ He Hs Hp] Hh Ht0 Hle Hds Hla Hcase.
  assert (Hhead : ∀ t1, head F = Some t1 → t1 = t0) by (intros t1 H1; destruct F; simpl in *; congruence).
  split.
  - rewrite Hh, Ht0, Hds, Hla. split; [done|]. destruct alerts.
    + by rewrite last_snoc.
    + by rewrite app_nil_r.
  - apply Forall_app. split.
    + eapply Forall_impl; [exact He|]. intros a (Ha & t1 & H1 & ?). rewrite (Hhead t1 H1) in *.
      split; [set_solver|by exists t0].
    + destruct alerts; [|done]. repeat constructor; [set_solver|]. exists t0. tauto.
  - destruct alerts; [|by rewrite app_nil_r]. apply sorted_snoc; [done|]. apply Hcase.
  - intros x t1 H1 Hx. rewrite Ht0 in H1. injection H1 as <-.
    apply elem_of_app in Hx as [Hx|Hx].
    + destruct (Hp x t0) as [?|[?|(a & Ha & ?)]]; [|done|set_solver|tauto|].
      * destruct F as [|y F]; [by apply not_elem_of_nil in Hx|done].
      * right; right. exists a. split; [set_solver|done].
    + apply list_elem_of_singleton in Hx as ->. destruct alerts; [set_solver|].
      rewrite app_nil_r. by right.
Qed.

Lemma outage_failure m n F A t err :
  has_alerter m = true → outage_inv m n F A → 0 < t → (∀ x, x ∈ F → 0 < x ≤ t) →
  outage_inv (apply_op m (Failure t n err)).1 n (F ++ [t])
    (A ++ alerts_of n (apply_op m (Failure t n err)).2).
Proof.
  intros Hal Hi Ht Hle. pose proof Hi as [Hh He _ _]. simpl. unfold recordFailure, healthLocked, failed.
  assert (Hpos : ∀ a, a ∈ A → 0 < a ≤ t)
    by (intros a Ha; apply Hle; by apply (proj1 (Forall_forall _ _) He a)).
  assert (Hle' : ∀ x, x ∈ F → x ≤ t) by (intros x Hx; apply Hle, Hx).
  destruct (health m !! n) as [h|] eqn:Hn.
  - destruct Hh as [Hhd Hla]. simpl.
    assert (Hds : 0 < downSince h).
    { apply Hle. destruct F as [|y F]; [done|]. injection Hhd as ->. set_solver. }
    assert (Hhd' : head (F ++ [t]) = Some (downSince h)) by (destruct F; done).
    rewrite (GoTime.is_zero_false _ Hds). rewrite !sub_ge by (vm_compute; split; congruence).
    destruct (last A) as [a|] eqn:HA.
    + simpl in Hla.
      assert (Ha : 0 < a ≤ t) by (apply Hpos; apply last_Some in HA as [l ->]; set_solver).
      rewrite Hla, (GoTime.is_zero_false a) by lia.
      destruct (Z.leb_spec alertReminderInterval (t - a)); simpl; unfold sendAlert; simpl;
        rewrite ?Hal, ?alerts_of_self.
      * eapply (outage_snoc m _ n F A t (downSince h) _ true Hi);
          [by apply lookup_insert_eq|done|done|done|done|]. split.
        -- assert (HaA : a ∈ A) by (apply last_Some in HA as [l ->]; set_solver).
           destruct (proj1 (Forall_forall _ _) He a HaA) as (_ & t0 & Ht0' & ?).
           rewrite Hhd in Ht0'. injection Ht0' as <-. lia.
        -- intros l Hl. assert (l = a) as -> by congruence. lia.
      * eapply (outage_snoc m _ n F A t (downSince h) _ false Hi);
          [by apply lookup_insert_eq|done|done|done|by rewrite HA|].
        right. exists a. split; [apply last_Some in HA as [l ->]; set_solver|lia].
    + simpl in Hla. rewrite Hla. simpl. apply last_None in HA as HA'.
      destruct (Z.leb_spec downAlertAfter (t - downSince h)); simpl; unfold sendAlert; simpl;
        rewrite ?Hal, ?alerts_of_self.
      * eapply (outage_snoc m _ n F A t (downSince h) _ true Hi);
          [by apply lookup_insert_eq|done|done|done|done|]. split; [lia|]. intros l Hl. congruence.
      * eapply (outage_snoc m _ n F A t (downSince h) _ false Hi);
          [by apply lookup_insert_eq|done|done|done|by rewrite HA|]. left. lia.
  - destruct Hh as [-> ->]. simpl.
    eapply (outage_snoc m _ n [] [] t t _ false Hi);
      [by apply lookup_insert_eq|done|done|done|done|].
    left. unfold downAlertAfter, GoTime.minute, GoTime.second, GoTime.millisecond. lia.
Qed.

Lemma outage_run m n ops :
  has_alerter m = true → health m !! n = None → Forall (λ op, ¬ ends_outage n op) ops →
  StronglySorted Z.le (times ops) → Forall (λ t, 0 < t) (times ops) →
  let '(m', al) := run m ops in
  has_alerter m' = true ∧ outage_inv m' n (fails n ops) (alerts_of n al).
Proof.
  intros Hal Hn. induction ops as [|op ops IH] using rev_ind; intros Hops Hsort Hpos.
  { simpl. split; [done|]. split; rewrite ?Hn; try done; by constructor. }
  unfold times in Hsort, Hpos. rewrite bind_app in Hsort, Hpos.
  apply Forall_app in Hops as [Hops Hop%Forall_cons]. destruct Hop as [Hop _].
  apply StronglySorted_app in Hsort as (Hcross & Hsort & _). apply Forall_app in Hpos as [Hpos Hpos'].
  specialize (IH Hops Hsort Hpos). rewrite run_app. destruct (run m ops) as [m1 al1]. cbn [fst snd].
  destruct IH as [Hal1 Hi]. rewrite fails_app, alerts_of_app.
  assert (Hcase : (∃ t err, op = Failure t n err) ∨ ∀ t err, op ≠ Failure t n err).
  { destruct op as [t n' err| | | |]; try (by right). destruct (decide (n' = n)) as [->|Hne].
    - left. by exists t, err.
    - right. intros t1 err1 [=]. done. }
  destruct Hcase as [(t & err & ->)|Hno].
  - assert (Hf : fails n [Failure t n err] = [t]).
    { unfold fails. simpl. by rewrite bool_decide_eq_true_2. }
    rewrite Hf. simpl in Hpos'. apply Forall_cons in Hpos' as [Ht _].
    assert (Hle : ∀ x, x ∈ fails n ops → 0 < x ≤ t).
    { intros x Hx%fails_times. split; [by apply (proj1 (Forall_forall _ _) Hpos)|].
      apply Hcross; [done|]. simpl. set_solver. }
    split; [|by apply outage_failure].
    simpl. unfold recordFailure. by destruct (failed _ _ _ _).
  - destruct (apply_keeps m1 op n Hop Hno) as (Hh & Ha & Hf & Hal').
    rewrite Ha, Hf, !app_nil_r. split; [congruence|]. destruct Hi as [Hhi He Hs Hp].
    split; [by rewrite Hh|done..].
Qed.
End outage.

(** The alerts of an outage. From the time a server is up, whatever happens to
    other servers, for as long as it neither connects nor stops being wanted: it
    alerts only on failures, never in the first five minutes after the first
    one, and never within an hour of its last alert; every failure that is
    later than that does alert; and when it then connects there is one
    recovery alert, with the time since the first failure, if it had alerted,
    and none otherwise, and its failures, error and cooldown are forgotten. *)
Theorem outage_alerts `{Clock} (m : Manager) (n : string) (ops : list operation) (t : Z)
  (Hal : has_alerter m = true) (Hn : health m !! n = None)
  (Hops : Forall (λ op, ¬ ends_outage n op) ops)
  (Hsort : StronglySorted Z.le (times ops)) (Hpos : Forall (λ t, 0 < t) (times ops)) :
  let F := fails n ops in
  let A := alerts_of n (run m ops).2 in
  Forall (λ a, a ∈ F ∧ ∃ t0, head F = Some t0 ∧ t0 + downAlertAfter ≤ a) A ∧
  StronglySorted (λ a a', a + alertReminderInterval ≤ a') A ∧
  (∀ x t0, head F = Some t0 → x ∈ F →
     x ∈ A ∨ x < t0 + downAlertAfter ∨ ∃ a, a ∈ A ∧ a ≤ x < a + alertReminderInterval) ∧
  let m' := (recordSuccess (run m ops).1 t n).1 in
  (recordSuccess (run m ops).1 t n).2 =
    match A, head F with
    | _ :: _, Some t0 => [upAlert n (GoTime.sub t t0)]
    | _, _ => []
    end ∧
  health m' !! n = None ∧ cooldownUntil m' !! n = None ∧ lastError m' n = ("", 0).
Proof.
  pose proof (outage_run m n ops Hal Hn Hops Hsort Hpos) as Hrun.
  destruct (run m ops) as [m1 al]. destruct Hrun as [Hal1 [Hh He Hs Hp]]. cbn [fst snd]. cbv zeta.
  split_and!; [done|done|done| | | |].
  - unfold recordSuccess. destruct (health m1 !! n) as [h|] eqn:Hh1.
    + destruct Hh as [-> Hla]. simpl. rewrite Hla.
      destruct (alerts_of n al) as [|a A] eqn:HA; [done|].
      destruct (last (a :: A)) as [l|] eqn:Hl; [|by apply last_None in Hl].
      rewrite GoTime.is_zero_false; [unfold sendAlert; by rewrite Hal1|].
      assert (Hin : l ∈ a :: A) by (apply last_Some in Hl as [l' ->]; set_solver).
      destruct (proj1 (Forall_forall _ _) He l Hin) as [HlF _].
      apply (proj1 (Forall_forall _ _) Hpos). by eapply fails_times.
    + destruct Hh as [-> ->]. done.
  - unfold recordSuccess. destruct (health m1 !! n); simpl; by rewrite lookup_delete_eq.
  - unfold recordSuccess. destruct (health m1 !! n); simpl; by rewrite lookup_delete_eq.
  - unfold recordSuccess, lastError. destruct (health m1 !! n); simpl; by rewrite lookup_delete_eq.
Qed.

(** ** The status list *)

Section status_proofs.
Context `{GoRange}.

(** What the status says of a server. *)
Definition expected_status (m : Manager) (now : Z) (n : string) : option ServerStatus :=
  match servers m !! n, reconnecting m !! n, reconnectCooldownUntil m now n with
  | Some c, _, _ => Some (connected_status m (n, c))
  | None, Some _, _ => Some (status_of m n StateReconnecting "" 0 GoTime.zero_time)
  | None, None, Some until => Some (status_of m n StateCooldown "" 0 until)
  | None, None, None => None
  end.

Lemma Name_status_of m n st tr tools until : Name (status_of m n st tr tools until) = n.
Proof. unfold status_of. by destruct (lastError m n). Qed.

Lemma Name_connected m kv : Name (connected_status m kv) = kv.1.
Proof. apply Name_status_of. Qed.

Lemma map_Name {V} (f : string * V → ServerStatus) l :
  (∀ kv, Name (f kv) = kv.1) → map Name (map f l) = l.*1.
Proof. intros Hf. induction l as [|kv l IH]; simpl; [done|]. by rewrite Hf, IH. Qed.

Lemma keep_fst_NoDup {V} (p : string * V → bool) (l : list (string * V)) :
  NoDup l.*1 → NoDup (keep p l).*1.
Proof. intros Hl. eapply sublist_NoDup; [exact Hl|]. apply fmap_sublist, keep_sublist. Qed.

(** The status lists exactly the servers that are connected, are being
    reconnected or are in cooldown, each once: a connected one with its
    transport and tools, as reconnecting while a reconnect runs; another as
    reconnecting rather than in cooldown when it is both; with the last error
    of each; whatever order the maps are visited in. *)
Theorem Status_spec (m : Manager) (now : Z) :
  NoDup (map Name (Status m now)) ∧
  ∀ st, st ∈ Status m now ↔ expected_status m now (Name st) = Some st.
Proof.
  set (cooldown := filter (λ kv, GoTime.before now kv.2 = true) (cooldownUntil m)).
  assert (Hcd : ∀ n u, (n, u) ∈ go_range cooldown ↔ reconnectCooldownUntil m now n = Some u).
  { intros n u. rewrite elem_of_go_range. unfold cooldown, reconnectCooldownUntil.
    rewrite map_lookup_filter_Some. destruct (cooldownUntil m !! n) as [u'|]; [|naive_solver].
    simpl. destruct (GoTime.before now u') eqn:Hb; naive_solver congruence. }
  split.
  - unfold Status. fold cooldown. rewrite !map_app, !map_Name by (intros; apply Name_status_of).
    apply NoDup_app. split_and!; [apply go_range_NoDup| |apply NoDup_app; split_and!].
    + intros n [[n' c] [-> Hc%elem_of_go_range]]%list_elem_of_fmap.
      intros [Hx|Hx]%elem_of_app; apply list_elem_of_fmap in Hx as ([n'' v] & Heq & Hx);
        apply elem_of_keep in Hx as [_ Hx]; simpl in *; subst n''; by rewrite Hc in Hx.
    + apply keep_fst_NoDup, go_range_NoDup.
    + intros n [[n' c] [-> Hc]]%list_elem_of_fmap. apply elem_of_keep in Hc as [Hc%elem_of_go_range _].
      intros ([n'' v] & Heq & Hx)%list_elem_of_fmap. apply elem_of_keep in Hx as [_ Hx].
      simpl in *. subst n''. rewrite Hc in Hx. by rewrite andb_false_r in Hx.
    + apply keep_fst_NoDup, go_range_NoDup.
  - intros st. unfold Status. fold cooldown. rewrite !elem_of_app, !list_elem_of_fmap.
    unfold expected_status. split.
    + intros [([n c] & -> & Hc%elem_of_go_range)|[([n b] & -> & Hb)|([n u] & -> & Hu)]];
        rewrite ?Name_connected, ?Name_status_of; simpl.
      * by rewrite Hc.
      * apply elem_of_keep in Hb as [Hb%elem_of_go_range Hs]. simpl in Hs.
        destruct (servers m !! n); [done|]. by rewrite Hb.
      * apply elem_of_keep in Hu as [Hu%Hcd Hs]. simpl in Hs. apply andb_true_iff in Hs as [Hs Hr].
        destruct (servers m !! n), (reconnecting m !! n); try done. by rewrite Hu.
    + generalize (Name st). intros n.
      destruct (servers m !! n) as [c|] eqn:Hs;
        [|destruct (reconnecting m !! n) as [b|] eqn:Hr;
          [|destruct (reconnectCooldownUntil m now n) as [u|] eqn:Hu]]; intros Hst; try discriminate;
        injection Hst as <-.
      * left. exists (n, c). split; [done|]. by apply elem_of_go_range.
      * right; left. exists (n, b). split; [done|]. apply elem_of_keep.
        split; [by apply elem_of_go_range|]. simpl. by rewrite Hs.
      * right; right. exists (n, u). split; [done|]. apply elem_of_keep.
        split; [by apply Hcd|]. simpl. by rewrite Hs, Hr.
Qed.
End status_proofs.

(** ** The tail of stderr *)

Lemma split_byte_sep sep l1 l2 :
  split_byte sep (l1 ++ sep :: l2) = split_byte sep l1 ++ split_byte sep l2.
Proof.
  induction l1 as [|c l1 IH]; simpl; [by rewrite Ascii.eqb_refl|].
  destruct (Ascii.eqb c sep); [by rewrite IH|]. rewrite IH.
  destruct (split_byte sep l1) eqn:Hs; [|done]. destruct l1 as [|d l1]; simpl in Hs; [done|].
  destruct (Ascii.eqb d sep); [done|]. destruct (split_byte sep l1); done.
Qed.

Lemma clean_lines_sep l1 l2 : clean_lines (l1 ++ "010"%char :: l2) = clean_lines l1 ++ clean_lines l2.
Proof. unfold clean_lines. by rewrite split_byte_sep, map_app, keep_app. Qed.

Lemma after_byte_spec c l :
  (after_byte c l = [] ∧ c ∉ l) ∨ ∃ x, l = x ++ c :: after_byte c l.
Proof.
  induction l as [|b l IH]; simpl; [left; split; [done|apply not_elem_of_nil]|].
  destruct (Ascii.eqb_spec b c) as [->|Hne]; [right; by exists []|].
  destruct IH as [[Ha Hn]|[x Hx]]; [left|right].
  - split; [done|]. rewrite not_elem_of_cons. split; [congruence|done].
  - exists (b :: x). simpl. by rewrite <- Hx.
Qed.

Lemma writes_tail ps :
  let t := foldl Write newTail ps in
  buf t = drop (length (concat ps) - stderrTailBytes) (concat ps) ∧
  truncated t = (stderrTailBytes <? length (concat ps))%nat.
Proof.
  induction ps as [|p ps [Hb Ht]] using rev_ind; [by split|]. rewrite foldl_snoc, concat_app.
  simpl. rewrite app_nil_r. set (t := foldl Write newTail ps) in *. unfold Write.
  rewrite Hb, length_app, length_drop, length_app. set (out := concat ps) in *.
  destruct (Nat.ltb_spec 0 (length out - (length out - stderrTailBytes) + length p - stderrTailBytes));
    simpl; split.
  - rewrite <- (drop_app_le out p (length out - stderrTailBytes)) by lia. rewrite drop_drop. f_equal. lia.
  - symmetry. apply Nat.ltb_lt. lia.
  - destruct (Nat.ltb_spec stderrTailBytes (length out)).
    + assert (length p = 0%nat) as ->%nil_length_inv by lia. rewrite !app_nil_r. f_equal. simpl. lia.
    + replace (length out - stderrTailBytes)%nat with 0%nat by lia.
      replace (length out + length p - stderrTailBytes)%nat with 0%nat by lia. done.
  - rewrite Ht. destruct (Nat.ltb_spec stderrTailBytes (length out)), (Nat.ltb_spec stderrTailBytes (length out + length p));
      try done; lia.
Qed.

(** What is kept of a child's stderr, however its output is cut into writes:
    the last 4096 bytes, and from them at most twenty lines, none of them empty
    or cut short, that are the last of the whole output's; all of an output of
    at most 4096 bytes but for the twenty-line bound; and an error carries them
    exactly when there are any. *)
Theorem stderr_tail_spec (ps : list (list ascii)) (err : connError) :
  let out := concat ps in
  let t := foldl Write newTail ps in
  (length (buf t) ≤ stderrTailBytes)%nat ∧ buf t `suffix_of` out ∧
  (length (Lines t) ≤ stderrTailLines)%nat ∧ Lines t `suffix_of` clean_lines out ∧
  Forall (λ l, l ≠ "") (Lines t) ∧
  ((length out ≤ stderrTailBytes)%nat →
     Lines t = drop (length (clean_lines out) - stderrTailLines) (clean_lines out)) ∧
  err_lines (withStderr err t) = (if bool_decide (Lines t = []) then err_lines err else Some (Lines t)).
Proof.
  cbv zeta. destruct (writes_tail ps) as [Hb Ht]. set (t := foldl Write newTail ps) in *.
  set (out := concat ps) in *. set (shown := if truncated t then after_byte "010" (buf t) else buf t).
  assert (HL : Lines t = drop (length (clean_lines shown) - stderrTailLines) (clean_lines shown)).
  { unfold Lines. fold shown. destruct (Nat.ltb_spec stderrTailLines (length (clean_lines shown))); [done|].
    by replace (length (clean_lines shown) - stderrTailLines)%nat with 0%nat by lia. }
  assert (Hsuf : clean_lines shown `suffix_of` clean_lines out).
  { unfold shown. rewrite Ht. destruct (Nat.ltb_spec stderrTailBytes (length out)).
    - destruct (after_byte_spec "010" (buf t)) as [[-> _]|[x Hx]]; [by apply suffix_nil|].
      set (rest := after_byte "010" (buf t)) in *. rewrite Hb in Hx.
      exists (clean_lines (take (length out - stderrTailBytes) out ++ x)).
      rewrite <- clean_lines_sep, <- app_assoc, <- Hx. by rewrite take_drop.
    - rewrite Hb. by replace (length out - stderrTailBytes)%nat with 0%nat by lia. }
  assert (Hdrop : Lines t `suffix_of` clean_lines out).
  { rewrite HL. etransitivity; [|exact Hsuf]. apply suffix_drop. }
  split_and!.
  - rewrite Hb, length_drop. lia.
  - rewrite Hb. apply suffix_drop.
  - rewrite HL, length_drop. lia.
  - done.
  - apply Forall_forall. intros l Hl. destruct Hdrop as [pre Hpre].
    assert (Hin : l ∈ clean_lines out) by (rewrite Hpre; set_solver).
    unfold clean_lines in Hin. apply elem_of_keep in Hin as [_ Hin].
    apply negb_true_iff in Hin. by apply bool_decide_eq_false in Hin.
  - intros Hle. rewrite HL. unfold shown. rewrite Ht.
    destruct (Nat.ltb_spec stderrTailBytes (length out)); [lia|]. rewrite Hb.
    by replace (length out - stderrTailBytes)%nat with 0%nat by lia.
  - unfold withStderr. destruct (Lines t); [by rewrite bool_decide_eq_true_2|].
    by rewrite bool_decide_eq_false_2.
Qed.

(** ** Witnesses *)

#[local] Instance ex_clock : Clock := {| format_hm := λ _, "09:00" |}.

Definition ex_err : connError := {| err_text := "dial: refused"; err_lines := None |}.

Definition ex_manager : Manager :=
  {| health := ∅; cooldownUntil := ∅; reconnecting := ∅; servers := ∅;
     reconnectCooldown := 30 * GoTime.second; has_alerter := true |}.

(** The fifth failure in a row. *)
Definition ex_failing : Manager :=
  set_health ex_manager {["a" := {| failures := 4; downSince := 1; lastAlert := 0; lastErr := "x";
                                    lastErrAt := 1 |}]} ∅.

Lemma recordFailure_backoff_witness :
  let m' := (recordFailure ex_failing 1000 "a" ex_err).1 in
  cooldownUntil m' !! "a" = Some (1000 + 8 * GoTime.minute) ∧ 0 < 8 * GoTime.minute ∧
  failures (healthLocked m' "a") = 5 ∧
  (∀ t, reconnectCooldownUntil m' t "a" = None ↔ 1000 + 8 * GoTime.minute ≤ t) ∧
  ∀ name', name' ≠ "a" → cooldownUntil m' !! name' = cooldownUntil ex_failing !! name' ∧
    health m' !! name' = health ex_failing !! name'.
Proof.
  refine (recordFailure_backoff ex_failing 1000 "a" ex_err 4 _ _).
  - vm_compute. reflexivity.
  - vm_compute. split; congruence.
Defined.

Definition ex_ops : list operation :=
  let t0 := GoTime.hour in
  [Failure t0 "a" ex_err; Failure (t0 + GoTime.minute) "b" ex_err;
   Success (t0 + 2 * GoTime.minute) "b"; Failure (t0 + 6 * GoTime.minute) "a" ex_err;
   Failure (t0 + 20 * GoTime.minute) "a" ex_err; Failure (t0 + 70 * GoTime.minute) "a" ex_err].

Example ex_alerts :
  alerts_of "a" (run ex_manager ex_ops).2 = [GoTime.hour + 6 * GoTime.minute; GoTime.hour + 70 * GoTime.minute].
Proof. vm_compute. reflexivity. Qed.

Lemma outage_alerts_witness :
  let F := fails "a" ex_ops in
  let A := alerts_of "a" (run ex_manager ex_ops).2 in
  Forall (λ a, a ∈ F ∧ ∃ t0, head F = Some t0 ∧ t0 + downAlertAfter ≤ a) A ∧
  StronglySorted (λ a a', a + alertReminderInterval ≤ a') A ∧
  (∀ x t0, head F = Some t0 → x ∈ F →
     x ∈ A ∨ x < t0 + downAlertAfter ∨ ∃ a, a ∈ A ∧ a ≤ x < a + alertReminderInterval) ∧
  let m' := (recordSuccess (run ex_manager ex_ops).1 (3 * GoTime.hour) "a").1 in
  (recordSuccess (run ex_manager ex_ops).1 (3 * GoTime.hour) "a").2 =
    match A, head F with
    | _ :: _, Some t0 => [upAlert "a" (GoTime.sub (3 * GoTime.hour) t0)]
    | _, _ => []
    end ∧
  health m' !! "a" = None ∧ cooldownUntil m' !! "a" = None ∧ lastError m' "a" = ("", 0).
Proof.
  refine (outage_alerts ex_manager "a" ex_ops (3 * GoTime.hour) _ _ _ _ _).
  - reflexivity.
  - reflexivity.
  - repeat apply Forall_cons_2; try apply Forall_nil_2; simpl; intros Hx;
      solve [discriminate Hx | destruct Hx].
  - change (times ex_ops) with ((λ k, GoTime.hour + k * GoTime.minute) <$> [0; 1; 2; 6; 20; 70]).
    repeat constructor; vm_compute; discriminate.
  - repeat apply Forall_cons_2; try apply Forall_nil_2; reflexivity.
Defined.
