(* ===== verification/ForumConfig.v ===== *)
(** * The forum's configuration and records

    forum/config.go (the configuration an agent's forum.json decodes into) and
    the values of forum/records.go and forum/agentid.go the rest of the package
    decides with: statuses, end reasons, work ids, output records. Every string
    type of the code with named constants is an inductive type with those
    constants and one constructor for any other string; [json.RawMessage] is the
    raw text. Conditions of the code on these values are in ForumLog,
    ForumStore, ForumController, ForumRouter and ForumValidate. *)

From stdpp Require Import base gmap strings list sets.
From Stdlib Require Import ZArith Lia Ascii.
From S2P Require Import Prelude GoString.

Open Scope Z_scope.

(** ** Enumerations *)

Inductive Status :=
| StatusNew | StatusQueued | StatusRunning | StatusPausing | StatusPaused
| StatusCancelling | StatusCompleted | StatusIncomplete | StatusFailed
| StatusCancelled
| OtherStatus (s : string).

#[export] Instance Status_eq_dec : EqDecision Status.
Proof. solve_decision. Defined.

Definition Terminal (s : Status) : bool :=
  match s with
  | StatusCompleted | StatusIncomplete | StatusFailed | StatusCancelled => true
  | StatusNew | StatusQueued | StatusRunning | StatusPausing | StatusPaused
  | StatusCancelling => false
  | OtherStatus _ => false
  end.

Inductive EndReason :=
| NoReason
| EndCompleted | EndRoundLimit | EndCallLimit | EndModeratorStop
| EndForumCallLimit | EndDeadline | EndAttemptsExhausted | EndModeratorFailed
| EndParticipantGone | EndHostError | EndCorrupt | EndCancelled
| OtherReason (s : string).

#[export] Instance EndReason_eq_dec : EqDecision EndReason.
Proof. solve_decision. Defined.

Inductive Format := FormatText | FormatMarkdown | FormatJSON | OtherFormat (s : string).

#[export] Instance Format_eq_dec : EqDecision Format.
Proof. solve_decision. Defined.

Definition Extension (f : Format) : string :=
  match f with
  | FormatMarkdown => ".md"
  | FormatJSON => ".json"
  | FormatText => ".txt"
  | OtherFormat _ => ".txt"
  end.

Inductive ParticipantForm := FormExisting | FormClone | FormFresh.

#[export] Instance ParticipantForm_eq_dec : EqDecision ParticipantForm.
Proof. solve_decision. Defined.

Inductive Delivery := DeliveryAfterRound | DeliveryPerTurn | OtherDelivery (s : string).

#[export] Instance Delivery_eq_dec : EqDecision Delivery.
Proof. solve_decision. Defined.

(** The empty string, of a member left out, is a constructor of its own: it
    means the default. *)
Inductive Select := NoSelect | SelectAll | SelectLastPerParticipant | OtherSelect (s : string).
Inductive View := NoView | ViewPublished | ViewFull | OtherView (s : string).
Inductive Distribute :=
| NoDistribute | DistributeAll | DistributeSameParticipant | DistributeRandom
| OtherDistribute (s : string).

#[export] Instance Select_eq_dec : EqDecision Select.
Proof. solve_decision. Defined.
#[export] Instance View_eq_dec : EqDecision View.
Proof. solve_decision. Defined.
#[export] Instance Distribute_eq_dec : EqDecision Distribute.
Proof. solve_decision. Defined.

Inductive ConversationView :=
| NoConversationView | ConversationViewPublished | ConversationViewFull
| OtherConversationView (s : string).

#[export] Instance ConversationView_eq_dec : EqDecision ConversationView.
Proof. solve_decision. Defined.

Inductive FreshMode :=
| NoFreshMode | FreshModeMemory | FreshModeNoMemory | FreshModeSingleShot
| OtherFreshMode (s : string).

#[export] Instance FreshMode_eq_dec : EqDecision FreshMode.
Proof. solve_decision. Defined.

Inductive RouteKind := RouteFromSource | RouteFromLayer.

#[export] Instance RouteKind_eq_dec : EqDecision RouteKind.
Proof. solve_decision. Defined.

Inductive DecisionKind :=
| DecisionContinue | DecisionGuide | DecisionStop | OtherDecision (s : string).

#[export] Instance DecisionKind_eq_dec : EqDecision DecisionKind.
Proof. solve_decision. Defined.

(** ** The configuration *)

Record Brief := {
  Purpose : string;
  Task : string;
  SuccessCriteria : list string;
  Constraints : list string
}.

Record Source := {
  src_Decode : Format;
  Inline : option string;
  src_File : string
}.

Record Participant := {
  pt_Agent : string;
  pt_Clone : string;
  pt_Model : string;
  SystemPrompt : string;
  pt_Mode : FreshMode;
  pt_Instructions : string;
  pt_Name : string;
  CharacterCard : string
}.

Record Route := {
  From : string;
  rt_Select : Select;
  Authors : list string;
  rt_View : View;
  Paths : list string;
  To : list string;
  rt_Distribute : Distribute;
  Optional : bool;
  rt_Anonymous : bool
}.

Record Moderator := {
  md_Participant : string;
  AfterRound : Z;
  EveryRounds : Z;
  md_Inputs : list Route;
  md_ConversationView : ConversationView;
  md_Schema : string;
  AllowDirected : bool
}.

(** [Share] is a pointer in the code: [None] publishes the whole output. *)
Record Output := {
  o_Format : Format;
  o_Schema : string;
  Share : option (list string)
}.

Record Layer := {
  l_ID : string;
  l_Enabled : option bool;
  l_Participants : list string;
  l_Instructions : string;
  l_Inputs : list Route;
  l_Delivery : Delivery;
  MaxRounds : Z;
  l_MaxCalls : Z;
  l_Output : Output;
  l_Moderator : option Moderator
}.

Record Limits := {
  MaxCalls : Z;
  MaxDurationSeconds : Z;
  CallTimeoutSeconds : Z;
  MaxAttemptsPerTurn : Z;
  MaxParallelCalls : Z
}.

Record Config := {
  Version : Z;
  cfg_Name : string;
  cfg_Brief : Brief;
  Sources : gmap string Source;
  cfg_Participants : gmap string Participant;
  Schemas : gmap string string;
  Layers : list Layer;
  cfg_Limits : Limits;
  cfg_Seed : option Z;
  ResultLayers : list string
}.

(** [Participant.Form] *)
Definition Form (p : Participant) : ParticipantForm :=
  if negb (bool_decide (pt_Agent p = "")) then FormExisting
  else if negb (bool_decide (pt_Clone p = "")) then FormClone
  else FormFresh.

Definition IsEnabled (l : Layer) : bool :=
  match l_Enabled l with None => true | Some b => b end.

Definition EnabledLayers (c : Config) : list Layer := keep IsEnabled (Layers c).

(** [Config.Layer]: the first layer with this id. *)
Definition Config_Layer (c : Config) (id : string) : option Layer :=
  find_first (λ l, bool_decide (l_ID l = id)) (Layers c).

(** [EffectiveResultLayers] *)
Definition EffectiveResultLayers (c : Config) : list string :=
  if negb (bool_decide (ResultLayers c = [])) then ResultLayers c
  else match last (EnabledLayers c) with
       | None => []
       | Some l => [l_ID l]
       end.

(** [strings.Cut(s, sep)] for a one-byte separator: the parts before and after
    its first occurrence. *)
Fixpoint Cut (s : string) (sep : ascii) : option (string * string) :=
  match s with
  | EmptyString => None
  | String c s' =>
      if bool_decide (c = sep) then Some ("", s')
      else match Cut s' sep with
           | Some (a, b) => Some (String c a, b)
           | None => None
           end
  end.

Inductive RouteShapeError := NotAProducer (from : string) | UnknownProducerKind (kind : string).

(** [Route.Producer] *)
Definition Producer (r : Route) : result (RouteKind * string) RouteShapeError :=
  match Cut (From r) ":" with
  | None => Err (NotAProducer (From r))
  | Some (kind, id) =>
      if bool_decide (id = "") then Err (NotAProducer (From r))
      else if bool_decide (kind = "source") then Ok (RouteFromSource, id)
      else if bool_decide (kind = "layer") then Ok (RouteFromLayer, id)
      else Err (UnknownProducerKind kind)
  end.

(** [validID]: the pattern [^[A-Za-z_-][A-Za-z0-9_-]*$]. *)
Definition id_start (c : ascii) : bool :=
  let b := byte_val c in is_upper b || is_lower b || (b =? 95) || (b =? 45).

Definition id_byte (c : ascii) : bool := id_start c || is_digit (byte_val c).

Definition validID (id : string) : bool :=
  match bytes id with
  | [] => false
  | c :: rest => id_start c && forallb id_byte rest
  end.

(** ** Decisions *)

Record DirectedMessage := { dm_To : string; dm_Text : string }.

Record Decision := {
  d_Decision : DecisionKind;
  d_Reason : string;
  Guidance : option string;
  Assessment : option string;
  Directed : list DirectedMessage
}.

#[export] Instance DirectedMessage_eq_dec : EqDecision DirectedMessage.
Proof. solve_decision. Defined.
#[export] Instance Decision_eq_dec : EqDecision Decision.
Proof. solve_decision. Defined.

Inductive GuidanceIssue := GuideNeedsGuidance | GuidanceMustBeNull (d : DecisionKind).

(** [guidanceIssue]; [None] is the empty message. *)
Definition guidanceIssue `{UnicodeData} (d : Decision) : option GuidanceIssue :=
  match d_Decision d with
  | DecisionGuide =>
      match Guidance d with
      | None => Some GuideNeedsGuidance
      | Some g => if bool_decide (TrimSpace g = "") then Some GuideNeedsGuidance else None
      end
  | DecisionContinue | DecisionStop =>
      match Guidance d with
      | Some _ => Some (GuidanceMustBeNull (d_Decision d))
      | None => None
      end
  | OtherDecision _ => None
  end.

(** ** Names *)

(** [unicode.IsControl]: the category Cc. *)
Definition IsControl (r : Z) : bool := in_range 0 31 r || in_range 127 159 r.

Definition MaxNameChars : Z := 100.

Definition validName (name : string) : bool :=
  (Z.of_nat (length (runes name)) <=? MaxNameChars) && negb (existsb IsControl (runes name)).

(** [Ref] *)
Definition Ref (name id : string) : string :=
  let kept := keep (λ r, negb (IsControl r)) (runes name) in
  let cut := if MaxNameChars <? Z.of_nat (length kept) then take (Z.to_nat MaxNameChars) kept else kept in
  if bool_decide (cut = []) then id
  else of_runes cut +:+ " (" +:+ id +:+ ")".

(** [agentKey]: ASCII letters lower-cased, every rune kept. *)
Definition key_rune (r : Z) : Z := if in_range 65 90 r then r + 32 else r.

Definition agentKey `{UnicodeData} (id : string) : string :=
  of_runes (map key_rune (runes (TrimSpace id))).

Definition sameAgent `{UnicodeData} (a b : string) : bool :=
  negb (bool_decide (agentKey a = "")) && bool_decide (agentKey a = agentKey b).

(** ** Work ids *)

(** [turnID]: [r%03d-%s] *)
Definition turnID (round : Z) (participantID : string) : string :=
  "r" +:+ zero_pad 3 round +:+ "-" +:+ participantID.

(** [moderatorTurnID]: [m%03d] *)
Definition moderatorTurnID (round : Z) : string := "m" +:+ zero_pad 3 round.

(** ** Records *)

Record SourceRecord := { sr_Decode : Format; sr_File : string; sr_Digest : string }.

(** [snapshot.json], the members the modelled code reads. *)
Record Snapshot := {
  ForumID : string;
  sn_Run : Z;
  sn_Name : string;
  LaunchedAt : Z;
  Deadline : Z;
  OriginAgent : string;
  ConfigDigest : string;
  sn_Seed : Z;
  sn_Limits : Limits;
  sn_Layers : list string;
  sn_ResultLayers : list string;
  sn_Sources : gmap string SourceRecord
}.

(** [Snapshot.Label] *)
Definition Label (s : Snapshot) : string :=
  if negb (bool_decide (sn_Name s = "")) then sn_Name s else ForumID s.

Record OutputRecord := {
  OutputID : string;
  or_LayerID : string;
  or_Round : Z;
  ParticipantID : string;
  or_Format : Format;
  ContentFile : string;
  PublishedFile : string;
  Digest : string;
  PublishedDigest : string;
  or_Turn : string;
  or_Attempt : Z;
  or_Resent : bool
}.

#[export] Instance OutputRecord_eq_dec : EqDecision OutputRecord.
Proof. solve_decision. Defined.

(** ** Lemmas *)

Lemma Config_Layer_id c id l : Config_Layer c id = Some l → l_ID l = id ∧ l ∈ Layers c.
Proof.
  unfold Config_Layer. intros (l1 & l2 & Hl & Hid & _)%find_first_Some.
  apply bool_decide_eq_true in Hid. split; [done|]. rewrite Hl. set_solver.
Qed.

Lemma Cut_spec s sep a b : Cut s sep = Some (a, b) → s = a +:+ String sep b.
Proof.
  revert a. induction s as [|c s IH]; intros a; simpl; [done|].
  case_bool_decide as Hc; [by intros [= <- <-]; subst|].
  destruct (Cut s sep) as [[a' b']|] eqn:HC; [|done]. intros H.
  injection H as <- <-. change (String c s = String c (a' +:+ String sep b')).
  f_equal. by apply IH.
Qed.

Lemma Producer_from r kind id :
  Producer r = Ok (kind, id) →
  From r = (match kind with RouteFromSource => "source:" | RouteFromLayer => "layer:" end) +:+ id
  ∧ id ≠ "".
Proof.
  unfold Producer. destruct (Cut (From r) ":") as [[k i]|] eqn:HC; [|done].
  apply Cut_spec in HC. repeat case_bool_decide; intros [= <- <-]; subst; auto.
Qed.

(** *** Work ids *)

Lemma app_sep_inj_l (x : ascii) l1 l2 d1 d2 :
  l1 ++ x :: d1 = l2 ++ x :: d2 → x ∉ l1 → x ∉ l2 → l1 = l2 ∧ d1 = d2.
Proof.
  revert l2. induction l1 as [|c l1 IH]; intros [|c' l2]; simpl; intros H H1 H2;
    injection H; intros; subst; [done|set_solver|set_solver|].
  destruct (IH l2) as [-> ->]; set_solver.
Qed.

Lemma digits_no_dash l : Forall (λ c, is_digit (byte_val c) = true) l → "-"%char ∉ l.
Proof. intros H Hin. rewrite Forall_forall in H. by specialize (H _ Hin). Qed.

Lemma turnID_bytes r p :
  bytes (turnID r p) = "r"%char :: bytes (zero_pad 3 r) ++ "-"%char :: bytes p.
Proof.
  unfold turnID. rewrite !bytes_app. done.
Qed.

Lemma turnID_inj r r' p p' : 0 ≤ r → 0 ≤ r' → turnID r p = turnID r' p' → r = r' ∧ p = p'.
Proof.
  intros Hr Hr' H. apply (f_equal bytes) in H. rewrite !turnID_bytes in H. injection H as H.
  apply app_sep_inj_l in H as [Hz Hp]; [|by apply digits_no_dash, zero_pad_digits..].
  split; [|by apply bytes_inj]. apply (zero_pad_inj 3); [done..|]. by apply bytes_inj.
Qed.

Lemma moderatorTurnID_inj r r' : 0 ≤ r → 0 ≤ r' → moderatorTurnID r = moderatorTurnID r' → r = r'.
Proof.
  unfold moderatorTurnID. intros Hr Hr' H. apply (f_equal bytes) in H. rewrite !bytes_app in H.
  injection H as H. apply (zero_pad_inj 3); [done..|]. by apply bytes_inj.
Qed.

Lemma moderatorTurnID_not_turnID r r' p : moderatorTurnID r ≠ turnID r' p.
Proof. unfold moderatorTurnID, turnID. intros H. by apply (f_equal bytes) in H. Qed.
