(* ===== verification/ForumLog.v ===== *)
(** * The forum's commit log and its replay

    forum/records.go (commits, layer states, the derived state), the index of
    forum/commits.go and the verification and replay of forum/replay.go. A
    forum is event-sourced: [replay] derives its [State] from the commit log,
    folding [replayApply] and checking every commit with [checkCommit] against
    the index [commitIndex] of the commits before it. The layer states are
    pointers in the code; here [Layers] maps an id to the value, put back after
    a change. *)

From stdpp Require Import base gmap strings list sets.
From Stdlib Require Import ZArith Lia Ascii.
From S2P Require Import Prelude GoString ForumConfig.

Open Scope Z_scope.

(** ** Commits *)

Inductive TurnKind := TurnParticipant | TurnModerator | OtherTurnKind (s : string).

#[export] Instance TurnKind_eq_dec : EqDecision TurnKind.
Proof. solve_decision. Defined.

Inductive CommitKind :=
| CommitLaunched | CommitLayerStarted | CommitAttempt | CommitTurn
| CommitRoundPublished | CommitModerated | CommitLayerEnded
| CommitPauseRequested | CommitPaused | CommitResumed | CommitCancelRequested
| CommitEnded
| NoKind
| OtherKind (s : string).

#[export] Instance CommitKind_eq_dec : EqDecision CommitKind.
Proof. solve_decision. Defined.

Record Commit := {
  c_Seq : Z;
  c_At : Z;
  c_Kind : CommitKind;
  c_Layer : string;
  c_Round : Z;
  c_Turn : string;
  c_TurnKind : TurnKind;
  c_Participant : string;
  c_Attempt : Z;
  c_ThroughSeq : Z;
  c_Output : option OutputRecord;
  c_Decision : option Decision;
  c_Status : Status;
  c_Reason : EndReason
}.

#[export] Instance Commit_eq_dec : EqDecision Commit.
Proof. solve_decision. Defined.

Record RoundDecision := { rd_Round : Z; rd_Seq : Z; rd_Decision : Decision }.

Record LayerState := {
  ls_Started : bool;
  ls_Ended : bool;
  ls_EndReason : EndReason;
  ls_Round : Z;
  RoundsPublished : Z;
  ls_Calls : Z;
  Outputs : list OutputRecord;
  Decisions : list RoundDecision
}.

Record State := {
  st_Status : Status;
  st_Reason : EndReason;
  st_Seq : Z;
  st_Calls : Z;
  st_Layers : gmap string LayerState;
  UpdatedAt : Z
}.

(** ** The index of the log *)

Definition attemptKey : Type := string * string * Z.
Definition turnKey : Type := string * string.

Record reservation := { rv_round : Z; rv_through : Z; rv_resent : bool }.

Record commitIndex := {
  ix_last : Z;
  ix_attempts : gmap attemptKey reservation;
  ix_latest : gmap turnKey Z;
  ix_outputs : gset turnKey;
  ix_published : gmap string Z
}.

Definition newCommitIndex : commitIndex :=
  {| ix_last := 0; ix_attempts := ∅; ix_latest := ∅; ix_outputs := ∅; ix_published := ∅ |}.

(** Reading a Go map at a missing key gives the zero value. *)
Definition latest (x : commitIndex) (k : turnKey) : Z := default 0 (ix_latest x !! k).
Definition published (x : commitIndex) (layer : string) : Z := default 0 (ix_published x !! layer).

Definition reserved (x : commitIndex) (layer turn : string) (attempt : Z) : bool :=
  bool_decide (is_Some (ix_attempts x !! (layer, turn, attempt))).

Definition attempt_key (c : Commit) : attemptKey := (c_Layer c, c_Turn c, c_Attempt c).
Definition turn_key (c : Commit) : turnKey := (c_Layer c, c_Turn c).

(** [commitIndex.add] *)
Definition add (x : commitIndex) (c : Commit) : commitIndex :=
  match c_Kind c with
  | CommitAttempt =>
      let r := match ix_attempts x !! attempt_key c with
               | Some r => {| rv_round := rv_round r; rv_through := rv_through r; rv_resent := true |}
               | None => {| rv_round := c_Round c; rv_through := c_ThroughSeq c; rv_resent := false |}
               end in
      {| ix_last := c_Seq c;
         ix_attempts := <[attempt_key c := r]> (ix_attempts x);
         ix_latest := <[turn_key c := Z.max (latest x (turn_key c)) (c_Attempt c)]> (ix_latest x);
         ix_outputs := ix_outputs x; ix_published := ix_published x |}
  | CommitTurn | CommitModerated =>
      {| ix_last := c_Seq c; ix_attempts := ix_attempts x; ix_latest := ix_latest x;
         ix_outputs := {[ turn_key c ]} ∪ ix_outputs x; ix_published := ix_published x |}
  | CommitRoundPublished =>
      {| ix_last := c_Seq c; ix_attempts := ix_attempts x; ix_latest := ix_latest x;
         ix_outputs := ix_outputs x; ix_published := <[c_Layer c := c_Round c]> (ix_published x) |}
  | _ =>
      {| ix_last := c_Seq c; ix_attempts := ix_attempts x; ix_latest := ix_latest x;
         ix_outputs := ix_outputs x; ix_published := ix_published x |}
  end.

(** The index of a whole log, as [loadIndexLocked] builds it. *)
Definition index_of (log : list Commit) : commitIndex := foldl add newCommitIndex log.

(** ** Checking a commit against the log *)

Inductive LogError :=
| ErrNotConfigured (layer : string)
| ErrNotEnabled (layer : string)
| ErrNoLayer (k : CommitKind)
| ErrNoKind
| ErrUnknownKind (k : string)
| ErrRound (round max : Z)
| ErrAttemptNumber (attempt : Z)
| ErrParticipant (id : string)
| ErrModerator (id : string)
| ErrTurnKind (k : TurnKind)
| ErrTurnID (turn want : string)
| ErrAttemptExists
| ErrResentOnce
| ErrResendDiffers
| ErrHasOutput
| ErrOutputRecord
| ErrNotReserved (attempt : Z)
| ErrTurnExists
| ErrNoDecision
| ErrNoModerator
| ErrNoAttempt
| ErrPerTurn
| ErrRoundOrder (round last : Z)
| ErrTurnMissing (participant : string)
| ErrSeq (seq last : Z)
| ErrFollowsEnd
| ErrLaunched (s : Status)
| ErrNotTerminal (s : Status).

#[export] Instance LogError_eq_dec : EqDecision LogError.
Proof. solve_decision. Defined.

Definition checkRound (layer : Layer) (c : Commit) : result unit LogError :=
  if (c_Round c <? 1) || (MaxRounds layer <? c_Round c) then Err (ErrRound (c_Round c) (MaxRounds layer))
  else Ok tt.

Definition checkWorkID (layer : Layer) (kind : TurnKind) (round : Z) (participant turn : string)
    : result unit LogError :=
  (let* want :=
     match kind with
     | TurnParticipant =>
         if bool_decide (participant ∈ l_Participants layer) then Ok (turnID round participant)
         else Err (ErrParticipant participant)
     | TurnModerator =>
         match l_Moderator layer with
         | Some m => if bool_decide (md_Participant m = participant) then Ok (moderatorTurnID round)
                     else Err (ErrModerator participant)
         | None => Err (ErrModerator participant)
         end
     | OtherTurnKind _ => Err (ErrTurnKind kind)
     end in
   if bool_decide (turn = want) then Ok tt else Err (ErrTurnID turn want))%go.

Definition checkAttemptCommit (layer : Layer) (ix : commitIndex) (c : Commit) : result unit LogError :=
  (let* _ := checkRound layer c in
   if c_Attempt c <? 1 then Err (ErrAttemptNumber (c_Attempt c))
   else
   let* _ := checkWorkID layer (c_TurnKind c) (c_Round c) (c_Participant c) (c_Turn c) in
   let* _ :=
     match ix_attempts ix !! attempt_key c with
     | Some first =>
         if negb (c_Attempt c =? latest ix (turn_key c)) then Err ErrAttemptExists
         else if rv_resent first then Err ErrResentOnce
         else if negb (c_Round c =? rv_round first) || negb (c_ThroughSeq c =? rv_through first)
              then Err ErrResendDiffers
         else Ok tt
     | None => Ok tt
     end in
   if bool_decide (turn_key c ∈ ix_outputs ix) then Err ErrHasOutput else Ok tt)%go.

Definition checkTurnCommit (layer : Layer) (ix : commitIndex) (c : Commit) : result unit LogError :=
  match c_Output c with
  | None => Err ErrOutputRecord
  | Some o =>
      if negb (bool_decide (or_LayerID o = c_Layer c)) || negb (bool_decide (or_Turn o = c_Turn c))
         || negb (or_Round o =? c_Round c)
      then Err ErrOutputRecord
      else
      (let* _ := checkRound layer c in
       let* _ := checkWorkID layer TurnParticipant (c_Round c) (ParticipantID o) (c_Turn c) in
       if negb (reserved ix (c_Layer c) (c_Turn c) (or_Attempt o)) then Err (ErrNotReserved (or_Attempt o))
       else if bool_decide (turn_key c ∈ ix_outputs ix) then Err ErrTurnExists
       else Ok tt)%go
  end.

Definition checkModeratedCommit (layer : Layer) (ix : commitIndex) (c : Commit) : result unit LogError :=
  match c_Decision c with
  | None => Err ErrNoDecision
  | Some _ =>
      (let* _ := checkRound layer c in
       match l_Moderator layer with
       | None => Err ErrNoModerator
       | Some _ =>
           if negb (bool_decide (c_Turn c = moderatorTurnID (c_Round c)))
           then Err (ErrTurnID (c_Turn c) (moderatorTurnID (c_Round c)))
           else if latest ix (turn_key c) =? 0 then Err ErrNoAttempt
           else if bool_decide (turn_key c ∈ ix_outputs ix) then Err ErrTurnExists
           else Ok tt
       end)%go
  end.

Definition checkRoundPublished (layer : Layer) (ix : commitIndex) (c : Commit) : result unit LogError :=
  if bool_decide (l_Delivery layer = DeliveryPerTurn) then Err ErrPerTurn
  else
  (let* _ := checkRound layer c in
   if negb (c_Round c =? published ix (c_Layer c) + 1)
   then Err (ErrRoundOrder (c_Round c) (published ix (c_Layer c)))
   else match find_first (λ pid, negb (bool_decide ((c_Layer c, turnID (c_Round c) pid) ∈ ix_outputs ix)))
                (l_Participants layer) with
        | Some pid => Err (ErrTurnMissing pid)
        | None => Ok tt
        end)%go.

Definition checkCommit (cfg : Config) (snap : Snapshot) (ix : commitIndex) (c : Commit)
    : result unit LogError :=
  (let* layer :=
     if bool_decide (c_Layer c = "") then Ok None
     else match Config_Layer cfg (c_Layer c) with
          | None => Err (ErrNotConfigured (c_Layer c))
          | Some l => if bool_decide (c_Layer c ∈ sn_Layers snap) then Ok (Some l)
                      else Err (ErrNotEnabled (c_Layer c))
          end in
   match c_Kind c with
   | CommitLaunched | CommitPauseRequested | CommitPaused | CommitResumed
   | CommitCancelRequested | CommitEnded => Ok tt
   | NoKind => Err ErrNoKind
   | OtherKind k => Err (ErrUnknownKind k)
   | kind =>
       match layer with
       | None => Err (ErrNoLayer kind)
       | Some layer =>
           match kind with
           | CommitAttempt => checkAttemptCommit layer ix c
           | CommitTurn => checkTurnCommit layer ix c
           | CommitModerated => checkModeratedCommit layer ix c
           | CommitRoundPublished => checkRoundPublished layer ix c
           | _ => Ok tt
           end
       end
   end)%go.

(** ** The fold *)

Definition empty_layer : LayerState :=
  {| ls_Started := false; ls_Ended := false; ls_EndReason := NoReason; ls_Round := 0;
     RoundsPublished := 0; ls_Calls := 0; Outputs := []; Decisions := [] |}.

Definition replayInitialState (snap : Snapshot) : State :=
  {| st_Status := StatusQueued; st_Reason := NoReason; st_Seq := 0; st_Calls := 0;
     st_Layers := list_to_map (map (λ id, (id, empty_layer)) (sn_Layers snap)); UpdatedAt := 0 |}.

(** [roundComplete] *)
Definition roundComplete (layer : Layer) (ls : LayerState) (round : Z) : bool :=
  forallb (λ p, existsb (λ o, (or_Round o =? round) && bool_decide (ParticipantID o = p)) (Outputs ls))
    (l_Participants layer).

Definition set_status (st : State) (s : Status) : State :=
  {| st_Status := s; st_Reason := st_Reason st; st_Seq := st_Seq st; st_Calls := st_Calls st;
     st_Layers := st_Layers st; UpdatedAt := UpdatedAt st |}.

(** [applyRunCommit] *)
Definition applyRunCommit (st : State) (c : Commit) : result State LogError :=
  match c_Kind c with
  | CommitLaunched =>
      if negb (bool_decide (st_Status st = StatusQueued)) then Err (ErrLaunched (st_Status st))
      else Ok (set_status st StatusRunning)
  | CommitPauseRequested => Ok (set_status st StatusPausing)
  | CommitPaused => Ok (set_status st StatusPaused)
  | CommitResumed => Ok (set_status st StatusRunning)
  | CommitCancelRequested => Ok (set_status st StatusCancelling)
  | CommitEnded =>
      if negb (Terminal (c_Status c)) then Err (ErrNotTerminal (c_Status c))
      else Ok {| st_Status := c_Status c; st_Reason := c_Reason c; st_Seq := st_Seq st;
                 st_Calls := st_Calls st; st_Layers := st_Layers st; UpdatedAt := UpdatedAt st |}
  | _ => Ok st
  end.

(** [applyLayerCommit]; [st.Calls] is the only member of the state it changes
    besides the layer's. *)
Definition applyLayerCommit (layer : Layer) (ls : LayerState) (calls : Z) (c : Commit)
    : result (LayerState * Z) LogError :=
  match c_Kind c with
  | CommitLayerStarted =>
      Ok ({| ls_Started := true; ls_Ended := ls_Ended ls; ls_EndReason := ls_EndReason ls;
             ls_Round := ls_Round ls; RoundsPublished := RoundsPublished ls; ls_Calls := ls_Calls ls;
             Outputs := Outputs ls; Decisions := Decisions ls |}, calls)
  | CommitAttempt =>
      Ok ({| ls_Started := ls_Started ls; ls_Ended := ls_Ended ls; ls_EndReason := ls_EndReason ls;
             ls_Round := c_Round c; RoundsPublished := RoundsPublished ls; ls_Calls := ls_Calls ls + 1;
             Outputs := Outputs ls; Decisions := Decisions ls |}, calls + 1)
  | CommitTurn =>
      match c_Output c with
      | None => Err ErrOutputRecord
      | Some o =>
          let ls' := {| ls_Started := ls_Started ls; ls_Ended := ls_Ended ls;
                        ls_EndReason := ls_EndReason ls; ls_Round := ls_Round ls;
                        RoundsPublished := RoundsPublished ls; ls_Calls := ls_Calls ls;
                        Outputs := Outputs ls ++ [o]; Decisions := Decisions ls |} in
          if bool_decide (l_Delivery layer = DeliveryPerTurn) && roundComplete layer ls' (or_Round o)
          then Ok ({| ls_Started := ls_Started ls'; ls_Ended := ls_Ended ls';
                      ls_EndReason := ls_EndReason ls'; ls_Round := ls_Round ls';
                      RoundsPublished := RoundsPublished ls' + 1; ls_Calls := ls_Calls ls';
                      Outputs := Outputs ls'; Decisions := Decisions ls' |}, calls)
          else Ok (ls', calls)
      end
  | CommitRoundPublished =>
      Ok ({| ls_Started := ls_Started ls; ls_Ended := ls_Ended ls; ls_EndReason := ls_EndReason ls;
             ls_Round := ls_Round ls; RoundsPublished := RoundsPublished ls + 1;
             ls_Calls := ls_Calls ls; Outputs := Outputs ls; Decisions := Decisions ls |}, calls)
  | CommitModerated =>
      match c_Decision c with
      | None => Err ErrNoDecision
      | Some d =>
          Ok ({| ls_Started := ls_Started ls; ls_Ended := ls_Ended ls; ls_EndReason := ls_EndReason ls;
                 ls_Round := ls_Round ls; RoundsPublished := RoundsPublished ls;
                 ls_Calls := ls_Calls ls; Outputs := Outputs ls;
                 Decisions := Decisions ls ++ [{| rd_Round := c_Round c; rd_Seq := c_Seq c; rd_Decision := d |}] |},
              calls)
      end
  | CommitLayerEnded =>
      Ok ({| ls_Started := ls_Started ls; ls_Ended := true; ls_EndReason := c_Reason c;
             ls_Round := ls_Round ls; RoundsPublished := RoundsPublished ls;
             ls_Calls := ls_Calls ls; Outputs := Outputs ls; Decisions := Decisions ls |}, calls)
  | _ => Ok (ls, calls)
  end.

Definition run_kind (k : CommitKind) : bool :=
  match k with
  | CommitLaunched | CommitPauseRequested | CommitPaused | CommitResumed
  | CommitCancelRequested | CommitEnded => true
  | _ => false
  end.

Definition stamp (st : State) (c : Commit) : State :=
  {| st_Status := st_Status st; st_Reason := st_Reason st; st_Seq := c_Seq c;
     st_Calls := st_Calls st; st_Layers := st_Layers st; UpdatedAt := c_At c |}.

(** [replayApply] *)
Definition replayApply (cfg : Config) (st : State) (c : Commit) : result State LogError :=
  if negb (c_Seq c =? st_Seq st + 1) then Err (ErrSeq (c_Seq c) (st_Seq st))
  else if Terminal (st_Status st) then Err ErrFollowsEnd
  else
  (let* named :=
     if bool_decide (c_Layer c = "") then Ok None
     else match st_Layers st !! c_Layer c with
          | None => Err (ErrNotEnabled (c_Layer c))
          | Some ls => match Config_Layer cfg (c_Layer c) with
                       | None => Err (ErrNotConfigured (c_Layer c))
                       | Some layer => Ok (Some (ls, layer))
                       end
          end in
   let* st' :=
     match c_Kind c with
     | CommitLaunched | CommitPauseRequested | CommitPaused | CommitResumed
     | CommitCancelRequested | CommitEnded => applyRunCommit st c
     | CommitLayerStarted | CommitAttempt | CommitTurn | CommitRoundPublished
     | CommitModerated | CommitLayerEnded =>
         match named with
         | None => Err (ErrNoLayer (c_Kind c))
         | Some (ls, layer) =>
             let* applied := applyLayerCommit layer ls (st_Calls st) c in
             Ok {| st_Status := st_Status st; st_Reason := st_Reason st; st_Seq := st_Seq st;
                   st_Calls := applied.2;
                   st_Layers := <[c_Layer c := applied.1]> (st_Layers st);
                   UpdatedAt := UpdatedAt st |}
         end
     | NoKind => Err ErrNoKind
     | OtherKind k => Err (ErrUnknownKind k)
     end in
   Ok (stamp st' c))%go.

(** The loop of [replay]: the check, the fold, the index. *)
Fixpoint replay_loop (cfg : Config) (snap : Snapshot) (st : State) (ix : commitIndex)
    (commits : list Commit) : result State LogError :=
  match commits with
  | [] => Ok st
  | c :: rest =>
      (let* _ := checkCommit cfg snap ix c in
       let* st' := replayApply cfg st c in
       replay_loop cfg snap st' (add ix c) rest)%go
  end.

(** [replay]; the configuration and snapshot are given, so its nil check is
    not modelled. *)
Definition replay (cfg : Config) (snap : Snapshot) (commits : list Commit) : result State LogError :=
  replay_loop cfg snap (replayInitialState snap) newCommitIndex commits.

(** [committedOutput] of forum/controller.go: the output committed for a turn
    of a layer. *)
Definition committedOutput (st : State) (layer turn : string) : option OutputRecord :=
  match st_Layers st !! layer with
  | None => None
  | Some ls => find_first (λ o, bool_decide (or_Turn o = turn)) (Outputs ls)
  end.

(** ** Inversion of the fold *)

Lemma replayApply_inv cfg st c st' :
  replayApply cfg st c = Ok st' →
  c_Seq c = st_Seq st + 1 ∧ Terminal (st_Status st) = false ∧
  st_Seq st' = c_Seq c ∧ UpdatedAt st' = c_At c ∧
  ((run_kind (c_Kind c) = true ∧ ∃ st1, applyRunCommit st c = Ok st1 ∧ st' = stamp st1 c) ∨
   (run_kind (c_Kind c) = false ∧
    ∃ ls layer ls' calls,
      st_Layers st !! c_Layer c = Some ls ∧ Config_Layer cfg (c_Layer c) = Some layer ∧
      applyLayerCommit layer ls (st_Calls st) c = Ok (ls', calls) ∧
      st_Status st' = st_Status st ∧ st_Reason st' = st_Reason st ∧ st_Calls st' = calls ∧
      st_Layers st' = <[c_Layer c := ls']> (st_Layers st))).
Proof.
  unfold replayApply. case_if; [done|]. case_if; [done|]. zb.
  intros (named & Hnamed & (st1 & Happ & [= <-])%let_ok_inv)%let_ok_inv.
  repeat split; [done..|].
  destruct (c_Kind c) eqn:Hk; simpl; try done; try (left; split; [done|]; by exists st1).
  all: right; split; [done|].
  all: destruct named as [[ls layer]|]; [|done].
  all: apply let_ok_inv in Happ as ([ls' calls] & Happ & [= <-]).
  all: exists ls, layer, ls', calls; simpl.
  all: case_bool_decide; [done|].
  all: destruct (st_Layers st !! c_Layer c) as [ls0|] eqn:Hls; [|done].
  all: destruct (Config_Layer cfg (c_Layer c)) as [layer0|]; [|done].
  all: injection Hnamed as <- <-; by repeat split.
Qed.

Definition is_attempt (layer : string) (c : Commit) : bool :=
  bool_decide (c_Kind c = CommitAttempt) && bool_decide (c_Layer c = layer).

Definition any_attempt (c : Commit) : bool := bool_decide (c_Kind c = CommitAttempt).

(** The output a commit adds to a layer, and the decision. *)
Definition output_of (layer : string) (c : Commit) : option OutputRecord :=
  if bool_decide (c_Kind c = CommitTurn) && bool_decide (c_Layer c = layer) then c_Output c else None.

Definition decision_of (layer : string) (c : Commit) : option RoundDecision :=
  if bool_decide (c_Kind c = CommitModerated) && bool_decide (c_Layer c = layer)
  then (λ d, {| rd_Round := c_Round c; rd_Seq := c_Seq c; rd_Decision := d |}) <$> c_Decision c
  else None.

Lemma applyRunCommit_inv st c st' :
  applyRunCommit st c = Ok st' →
  st_Calls st' = st_Calls st ∧ st_Layers st' = st_Layers st ∧
  (Terminal (st_Status st') = true → c_Kind c = CommitEnded ∨ Terminal (st_Status st) = true).
Proof.
  unfold applyRunCommit.
  destruct (c_Kind c); try case_if; try done; intros [= <-]; simpl; naive_solver.
Qed.

Lemma applyLayerCommit_inv layer ls calls c ls' calls' :
  run_kind (c_Kind c) = false → applyLayerCommit layer ls calls c = Ok (ls', calls') →
  calls' = calls + (if any_attempt c then 1 else 0) ∧
  ls_Calls ls' = ls_Calls ls + (if any_attempt c then 1 else 0) ∧
  Outputs ls' = Outputs ls ++ option_list (output_of (c_Layer c) c) ∧
  Decisions ls' = Decisions ls ++ option_list (decision_of (c_Layer c) c).
Proof.
  unfold applyLayerCommit, any_attempt, output_of, decision_of.
  rewrite (bool_decide_true (c_Layer c = c_Layer c)) by done.
  destruct (c_Kind c); simpl; intros Hr H; try done;
    repeat case_match; simplify_eq; simpl; rewrite ?app_nil_r; repeat split; lia || done.
Qed.

Lemma other_layer_commit layer c :
  layer ≠ c_Layer c → is_attempt layer c = false ∧ output_of layer c = None ∧ decision_of layer c = None.
Proof.
  intros Hne. unfold is_attempt, output_of, decision_of.
  rewrite (bool_decide_false (c_Layer c = layer)) by congruence. by rewrite !andb_false_r.
Qed.

Lemma run_commit_nothing layer c :
  run_kind (c_Kind c) = true →
  any_attempt c = false ∧ is_attempt layer c = false ∧ output_of layer c = None ∧ decision_of layer c = None.
Proof.
  unfold any_attempt, is_attempt, output_of, decision_of. destruct (c_Kind c); done.
Qed.

Lemma is_attempt_own c : is_attempt (c_Layer c) c = any_attempt c.
Proof. unfold is_attempt, any_attempt. by rewrite (bool_decide_true (c_Layer c = c_Layer c)), andb_true_r. Qed.

(** ** Logs that replay

    [replays log st]: the log, commit by commit, passes [checkCommit] and
    [replayApply]; the theorems go by induction on it. *)

Section logs.
Context (cfg : Config) (snap : Snapshot).

Inductive replays : list Commit → State → Prop :=
| replays_nil : replays [] (replayInitialState snap)
| replays_snoc log st c st' :
    replays log st →
    checkCommit cfg snap (index_of log) c = Ok tt →
    replayApply cfg st c = Ok st' →
    replays (log ++ [c]) st'.

Lemma index_of_snoc log c : index_of (log ++ [c]) = add (index_of log) c.
Proof. unfold index_of. by rewrite foldl_app. Qed.

Lemma replay_loop_app st ix l1 l2 :
  replay_loop cfg snap st ix (l1 ++ l2) =
  (let* st' := replay_loop cfg snap st ix l1 in replay_loop cfg snap st' (foldl add ix l1) l2)%go.
Proof.
  revert st ix. induction l1 as [|c l1 IH]; intros st ix; simpl; [done|].
  destruct (checkCommit cfg snap ix c); [|done].
  destruct (replayApply cfg st c); [|done]. apply IH.
Qed.

Lemma replay_snoc log c :
  replay cfg snap (log ++ [c]) =
  (let* st := replay cfg snap log in
   let* _ := checkCommit cfg snap (index_of log) c in
   replayApply cfg st c)%go.
Proof.
  unfold replay. rewrite replay_loop_app.
  destruct (replay_loop cfg snap _ _ log) as [st|]; [|done]. simpl. unfold index_of.
  destruct (checkCommit _ _ _ _); [|done]. by destruct (replayApply cfg st c).
Qed.

Lemma replay_replays log st : replay cfg snap log = Ok st ↔ replays log st.
Proof.
  split.
  - revert st. induction log as [|c log IH] using rev_ind; intros st.
    + intros [= <-]. constructor.
    + rewrite replay_snoc. intros (st1 & H1 & ([] & Hc & Ha)%let_ok_inv)%let_ok_inv.
      econstructor; eauto.
  - induction 1 as [|log st c st' H IH Hc Ha]; [done|]. by rewrite replay_snoc, IH, Hc.
Qed.

(** What every log that replays determines of its state. *)
Record derived (log : list Commit) (st : State) : Prop := {
  der_seq : st_Seq st = Z.of_nat (length log);
  der_gap_free i c : log !! i = Some c → c_Seq c = Z.of_nat i + 1;
  der_calls : st_Calls st = count any_attempt log;
  der_layers : dom (st_Layers st) = list_to_set (sn_Layers snap);
  der_layer id ls :
    st_Layers st !! id = Some ls →
    ls_Calls ls = count (is_attempt id) log ∧
    Outputs ls = omap (output_of id) log ∧ Decisions ls = omap (decision_of id) log
}.

Lemma dom_initial : dom (st_Layers (replayInitialState snap)) = list_to_set (sn_Layers snap).
Proof.
  simpl. rewrite dom_list_to_map_L. f_equal. induction (sn_Layers snap); simpl; by f_equal.
Qed.

Lemma initial_layer id ls :
  st_Layers (replayInitialState snap) !! id = Some ls → ls = empty_layer.
Proof.
  simpl. intros H. apply elem_of_list_to_map_2 in H.
  apply list_elem_of_fmap in H as (x & [= -> ->] & _). done.
Qed.

Lemma lookup_snoc_inv {A} (l : list A) x i y :
  (l ++ [x]) !! i = Some y → l !! i = Some y ∨ (i = length l ∧ y = x).
Proof.
  intros [H|[Hlen H]]%lookup_app_Some; [by left|right].
  destruct (i - length l)%nat eqn:E; simpl in H; [|by destruct (_ : nat)]. split; [lia|congruence].
Qed.

Lemma derived_step log st c st' :
  derived log st → replayApply cfg st c = Ok st' → derived (log ++ [c]) st'.
Proof.
  intros [Hseq Hgap Hcalls Hdom Hl] (Hc & _ & Hs & _ & Hcase)%replayApply_inv.
  assert (Hnext : c_Seq c = Z.of_nat (length log) + 1) by lia.
  split.
  - rewrite length_app. simpl. lia.
  - intros i d [Hi|[-> ->]]%lookup_snoc_inv; [eauto|done].
  - rewrite count_snoc. destruct Hcase as [(Hr & st1 & Ha & ->)|(Hr & ls & layer & ls' & calls & _ & _ & Ha & _ & _ & -> & _)].
    + apply applyRunCommit_inv in Ha as (H1 & _). simpl. rewrite H1.
      destruct (run_commit_nothing "" c Hr) as (-> & _). lia.
    + apply applyLayerCommit_inv in Ha as (-> & _); [|done]. lia.
  - destruct Hcase as [(_ & st1 & Ha & ->)|(_ & ls & layer & ls' & calls & Hls & _ & _ & _ & _ & _ & ->)].
    + apply applyRunCommit_inv in Ha as (_ & H2 & _). simpl. by rewrite H2.
    + rewrite dom_insert_lookup_L by eauto. done.
  - intros id lst Hlk. rewrite count_snoc, !omap_app. simpl.
    destruct Hcase as [(Hr & st1 & Ha & ->)|(Hr & ls & layer & ls' & calls & Hls & _ & Ha & _ & _ & _ & HL)].
    + apply applyRunCommit_inv in Ha as (_ & H2 & _). simpl in Hlk. rewrite H2 in Hlk.
      destruct (run_commit_nothing id c Hr) as (_ & -> & -> & ->). rewrite !app_nil_r, Z.add_0_r. auto.
    + rewrite HL in Hlk. destruct (decide (id = c_Layer c)) as [->|Hne].
      * rewrite lookup_insert_eq in Hlk. injection Hlk as <-.
        apply applyLayerCommit_inv in Ha as (_ & H1 & H2 & H3); [|done].
        destruct (Hl _ _ Hls) as (Hl1 & Hl2 & Hl3).
        rewrite is_attempt_own, H1, H2, H3, Hl1, Hl2, Hl3.
        destruct (output_of _ c), (decision_of _ c); done.
      * rewrite lookup_insert_ne in Hlk by congruence.
        destruct (other_layer_commit id c Hne) as (-> & -> & ->).
        rewrite !app_nil_r, Z.add_0_r. auto.
Qed.

Lemma replays_derived log st : replays log st → derived log st.
Proof.
  induction 1 as [|log st c st' _ IH _ Ha]; [|by eapply derived_step].
  split; [done|done|done|apply dom_initial|].
  intros id ls ->%initial_layer. done.
Qed.

(** *** What the check establishes *)

Definition closes (c : Commit) : bool :=
  bool_decide (c_Kind c = CommitTurn) || bool_decide (c_Kind c = CommitModerated).

Definition reserves (k : attemptKey) (c : Commit) : bool :=
  bool_decide (c_Kind c = CommitAttempt) && bool_decide (attempt_key c = k).

Definition publishes (layer : string) (c : Commit) : bool :=
  bool_decide (c_Kind c = CommitRoundPublished) && bool_decide (c_Layer c = layer).

Lemma checkCommit_layer ix c :
  run_kind (c_Kind c) = false → checkCommit cfg snap ix c = Ok tt →
  ∃ layer, Config_Layer cfg (c_Layer c) = Some layer ∧ c_Layer c ∈ sn_Layers snap ∧
    match c_Kind c with
    | CommitAttempt => checkAttemptCommit layer ix c
    | CommitTurn => checkTurnCommit layer ix c
    | CommitModerated => checkModeratedCommit layer ix c
    | CommitRoundPublished => checkRoundPublished layer ix c
    | _ => Ok tt
    end = Ok tt.
Proof.
  unfold checkCommit. intros Hr ([layer|] & Hl & H)%let_ok_inv.
  - exists layer. case_bool_decide; [done|].
    destruct (Config_Layer cfg (c_Layer c)) as [l|]; [|done].
    case_bool_decide; [|done]. injection Hl as ->. by destruct (c_Kind c).
  - by destruct (c_Kind c).
Qed.

Lemma checkCommit_known ix c :
  checkCommit cfg snap ix c = Ok tt → c_Kind c ≠ NoKind ∧ ∀ k, c_Kind c ≠ OtherKind k.
Proof. unfold checkCommit. intros (layer & _ & H)%let_ok_inv. by destruct (c_Kind c). Qed.

Lemma checkRound_ok layer c : checkRound layer c = Ok tt → 1 ≤ c_Round c ≤ MaxRounds layer.
Proof. unfold checkRound. case_if; [done|]. zb. lia. Qed.

Lemma checkWorkID_participant layer round pid turn :
  checkWorkID layer TurnParticipant round pid turn = Ok tt →
  pid ∈ l_Participants layer ∧ turn = turnID round pid.
Proof.
  unfold checkWorkID. case_bool_decide; simpl; [|done]. by case_bool_decide.
Qed.

(** A committed output as the log must describe it. *)
Record output_valid (log : list Commit) (layer : Layer) (o : OutputRecord) : Prop := {
  ov_layer : or_LayerID o = l_ID layer;
  ov_round : 1 ≤ or_Round o ≤ MaxRounds layer;
  ov_author : ParticipantID o ∈ l_Participants layer;
  ov_turn : or_Turn o = turnID (or_Round o) (ParticipantID o);
  ov_reserved : 0 < count (reserves (l_ID layer, or_Turn o, or_Attempt o)) log
}.

Lemma index_reserved log k :
  is_Some (ix_attempts (index_of log) !! k) ↔ 0 < count (reserves k) log.
Proof.
  induction log as [|c log IH] using rev_ind.
  { split; [by intros [? ?]|done]. }
  rewrite index_of_snoc, count_snoc. pose proof (count_nonneg (reserves k) log).
  unfold add, reserves at 2.
  destruct (c_Kind c); simpl;
    try (rewrite IH; lia).
  destruct (decide (attempt_key c = k)) as [->|Hne].
  - rewrite lookup_insert_eq, bool_decide_true by done. split; [lia|eauto].
  - rewrite lookup_insert_ne, bool_decide_false by done. rewrite IH. lia.
Qed.

Lemma index_outputs log k :
  k ∈ ix_outputs (index_of log) ↔ ∃ c, c ∈ log ∧ closes c = true ∧ turn_key c = k.
Proof.
  induction log as [|c log IH] using rev_ind.
  { simpl. set_solver. }
  rewrite index_of_snoc. unfold add.
  assert (Hcl : closes c = match c_Kind c with CommitTurn | CommitModerated => true | _ => false end)
    by (unfold closes; by destruct (c_Kind c)).
  destruct (c_Kind c); simpl; rewrite ?elem_of_union, ?elem_of_singleton, IH;
    split; try (intros (d & [Hd|Hd%list_elem_of_singleton]%elem_of_app & ? & ?); [naive_solver|subst; congruence]);
    try (intros (d & ? & ?); exists d; set_solver).
  all: try (intros [->|(d & ? & ?)]; [exists c|exists d]; set_solver).
  all: intros (d & [Hd|Hd%list_elem_of_singleton]%elem_of_app & ? & ?); subst; eauto.
Qed.

Lemma checkTurn_valid layer log c :
  Config_Layer cfg (c_Layer c) = Some layer →
  checkTurnCommit layer (index_of log) c = Ok tt →
  ∃ o, c_Output c = Some o ∧ output_valid log layer o ∧ or_Turn o = c_Turn c ∧
       turn_key c ∉ ix_outputs (index_of log).
Proof.
  intros Hl. unfold checkTurnCommit. destruct (c_Output c) as [o|]; [|done].
  case_if; [done|]. zb.
  intros ([] & Hr%checkRound_ok & ([] & [Ha Ht]%checkWorkID_participant & Hrest)%let_ok_inv)%let_ok_inv.
  revert Hrest. unfold reserved. case_if; [done|]. zb.
  intros Hex. case_bool_decide as Hin; [done|].
  repeat match goal with H : bool_decide _ = true |- _ => apply bool_decide_eq_true in H end.
  apply Config_Layer_id in Hl as [Hid _].
  match goal with H : is_Some _ |- _ => apply index_reserved in H as Hres end.
  exists o. repeat split; congruence || lia || (rewrite ?Hid; congruence).
Qed.

(** *** Outputs *)

Lemma reserves_mono log c k : 0 < count (reserves k) log → 0 < count (reserves k) (log ++ [c]).
Proof. rewrite count_snoc. case_if; lia. Qed.

Lemma output_valid_snoc log c layer o : output_valid log layer o → output_valid (log ++ [c]) layer o.
Proof. intros []. split; auto using reserves_mono. Qed.

Lemma output_of_Some id c o :
  output_of id c = Some o ↔ c_Kind c = CommitTurn ∧ c_Layer c = id ∧ c_Output c = Some o.
Proof.
  unfold output_of. split.
  - case_if; [|done]. zb. rewrite !bool_decide_eq_true in *. auto.
  - intros (? & ? & ?). by rewrite !bool_decide_true.
Qed.

Definition turn_pair (o : OutputRecord) : Z * string := (or_Round o, ParticipantID o).

(** Every output of a log that replays is valid, its turn is closed in the
    index, and no turn has two. *)
Lemma outputs_ok log st id :
  replays log st →
  (∀ o, o ∈ omap (output_of id) log →
     (∃ layer, Config_Layer cfg id = Some layer ∧ output_valid log layer o) ∧
     (id, or_Turn o) ∈ ix_outputs (index_of log)) ∧
  NoDup (or_Turn <$> omap (output_of id) log).
Proof.
  induction 1 as [|log st c st' H [IHv IHn] Hc Ha].
  { split; [simpl; set_solver|constructor]. }
  rewrite omap_app. simpl.
  assert (Hmono : ∀ k, k ∈ ix_outputs (index_of log) → k ∈ ix_outputs (index_of (log ++ [c]))).
  { intros k. rewrite !index_outputs. set_solver. }
  destruct (output_of id c) as [o|] eqn:Ho.
  - apply output_of_Some in Ho as (Hk & Hid & Ho).
    destruct (checkCommit_layer (index_of log) c) as (layer & Hl & _ & Hct); [by rewrite Hk|done|].
    rewrite Hk in Hct. destruct (checkTurn_valid layer log c Hl Hct) as (o' & Ho' & Hv & Ht & Hnew).
    rewrite Ho in Ho'. injection Ho' as <-. unfold turn_key in Hnew. split.
    + intros o2 [Hin|Hin]%elem_of_app.
      * destruct (IHv o2 Hin) as [(l2 & ? & ?) ?].
        split; [exists l2; auto using output_valid_snoc|auto].
      * apply list_elem_of_singleton in Hin as ->. split.
        { exists layer. subst id. auto using output_valid_snoc. }
        apply index_outputs. exists c. split; [set_solver|]. unfold closes, turn_key.
        rewrite Hk, Ht, Hid. done.
    + rewrite fmap_app. apply NoDup_app. split; [done|]. split; [|apply NoDup_singleton].
      intros t (o2 & -> & Hin)%list_elem_of_fmap Ht2%list_elem_of_singleton.
      apply Hnew. rewrite <- Ht, <- Ht2, Hid. by apply IHv.
  - rewrite app_nil_r. split; [|done]. intros o2 Hin.
    destruct (IHv o2 Hin) as [(l2 & ? & ?) ?]. split; [exists l2; auto using output_valid_snoc|auto].
Qed.

(** *** Attempts *)

(** What the index knows of an attempt: how often it was reserved, and that
    the second time repeated the first. *)
Lemma attempts_ok log st k :
  replays log st →
  match ix_attempts (index_of log) !! k with
  | None => count (reserves k) log = 0
  | Some r =>
      count (reserves k) log = (if rv_resent r then 2 else 1) ∧
      (∀ c, c ∈ log → reserves k c = true → c_Round c = rv_round r ∧ c_ThroughSeq c = rv_through r)
  end.
Proof.
  induction 1 as [|log st c st' H IH Hc Ha]; [done|].
  rewrite index_of_snoc, count_snoc.
  destruct (decide (c_Kind c = CommitAttempt ∧ attempt_key c = k)) as [[Hk Hkey]|Hno].
  - assert (reserves k c = true) as Hr by (unfold reserves; by rewrite !bool_decide_true).
    destruct (checkCommit_layer (index_of log) c) as (layer & Hl & _ & Hct); [by rewrite Hk|done|].
    rewrite Hk in Hct. unfold add. rewrite Hk. simpl. rewrite Hkey, lookup_insert_eq, Hr.
    revert Hct. unfold checkAttemptCommit. intros ([] & _ & Hct)%let_ok_inv. revert Hct.
    case_if; [done|]. intros ([] & _ & ([] & Hres & _)%let_ok_inv)%let_ok_inv. rewrite Hkey in Hres.
    destruct (ix_attempts (index_of log) !! k) as [r|]; simpl.
    + destruct IH as [IH1 IH2]. revert Hres. repeat (case_if; [done|]). intros _. zb. simpl.
      split; [lia|]. intros d [Hd| ->%list_elem_of_singleton]%elem_of_app; [auto|done].
    + split; [lia|]. intros d [Hd| ->%list_elem_of_singleton]%elem_of_app Hrd; [|done].
      apply count_zero in IH. rewrite Forall_forall in IH. rewrite (IH d Hd) in Hrd. done.
  - assert (reserves k c = false) as Hr.
    { unfold reserves. destruct (bool_decide _) eqn:E1, (bool_decide (attempt_key c = k)) eqn:E2;
        rewrite ?bool_decide_eq_true in *; naive_solver. }
    assert (ix_attempts (add (index_of log) c) !! k = ix_attempts (index_of log) !! k) as ->.
    { unfold add. destruct (c_Kind c) eqn:Hk; try done. simpl. rewrite lookup_insert_ne; naive_solver. }
    rewrite Hr, Z.add_0_r. destruct (ix_attempts (index_of log) !! k) as [r|]; [|done].
    destruct IH as [IH1 IH2]. split; [done|].
    intros d [Hd| ->%list_elem_of_singleton]%elem_of_app Hrd; [auto|congruence].
Qed.

(** *** Every commit of a log was checked against the commits before it *)

Lemma replays_elem log st c :
  replays log st → c ∈ log →
  ∃ pre st0, replays pre st0 ∧ checkCommit cfg snap (index_of pre) c = Ok tt ∧ (pre ++ [c]) `prefix_of` log.
Proof.
  induction 1 as [|log st d st' H IH Hc Ha]; [by intros ?%elem_of_nil|].
  intros [Hin| ->%list_elem_of_singleton]%elem_of_app.
  - destruct (IH Hin) as (pre & st0 & ? & ? & ?). exists pre, st0. repeat split; try done.
    by apply prefix_app_r.
  - exists log, st. done.
Qed.

Lemma moderated_turn ix c :
  c_Kind c = CommitModerated → checkCommit cfg snap ix c = Ok tt →
  ∃ layer m d, Config_Layer cfg (c_Layer c) = Some layer ∧ l_Moderator layer = Some m ∧
    c_Decision c = Some d ∧ c_Turn c = moderatorTurnID (c_Round c) ∧
    1 ≤ c_Round c ≤ MaxRounds layer ∧ latest ix (turn_key c) ≠ 0 ∧ turn_key c ∉ ix_outputs ix.
Proof.
  intros Hk Hc. destruct (checkCommit_layer ix c) as (layer & Hl & _ & Hct); [by rewrite Hk|done|].
  rewrite Hk in Hct. unfold checkModeratedCommit in Hct.
  destruct (c_Decision c) as [d|]; [|done].
  apply let_ok_inv in Hct as ([] & Hr%checkRound_ok & Hrest).
  destruct (l_Moderator layer) as [m|] eqn:Hm; [|done].
  revert Hrest. repeat (case_if; [done|]). zb.
  rewrite bool_decide_eq_true, bool_decide_eq_false in *. intros _. by exists layer, m, d.
Qed.

(** A participant's closed turn has its output: a moderator's turn ids are not
    those of participants. *)
Lemma closed_turn_output log st id r pid :
  replays log st → 0 ≤ r → (id, turnID r pid) ∈ ix_outputs (index_of log) →
  ∃ o, o ∈ omap (output_of id) log ∧ or_Round o = r ∧ ParticipantID o = pid.
Proof.
  intros H Hr (c & Hin & Hcl & [= Hid Ht])%index_outputs.
  destruct (replays_elem log st c H Hin) as (pre & st0 & Hpre & Hc & _).
  unfold closes in Hcl. apply orb_true_iff in Hcl as [Hk|Hk]; apply bool_decide_eq_true in Hk.
  - destruct (checkCommit_layer (index_of pre) c) as (layer & Hl & _ & Hct); [by rewrite Hk|done|].
    rewrite Hk in Hct. destruct (checkTurn_valid layer pre c Hl Hct) as (o & Ho & [] & Htu & _).
    assert (Hof : output_of id c = Some o) by (apply output_of_Some; naive_solver).
    exists o. split; [apply list_elem_of_omap; eauto|].
    apply turnID_inj; [lia|done|]. congruence.
  - destruct (moderated_turn (index_of pre) c Hk Hc) as (? & ? & ? & _ & _ & _ & Hmt & _).
    exfalso. eapply moderatorTurnID_not_turnID. by rewrite <- Hmt.
Qed.

Lemma roundComplete_spec layer ls r :
  roundComplete layer ls r = true ↔
  ∀ pid, pid ∈ l_Participants layer → ∃ o, o ∈ Outputs ls ∧ or_Round o = r ∧ ParticipantID o = pid.
Proof.
  unfold roundComplete. rewrite forallb_Forall, Forall_forall.
  apply forall_proper; intros pid. rewrite existsb_Exists.
  setoid_rewrite andb_true_iff. setoid_rewrite Z.eqb_eq. by setoid_rewrite bool_decide_eq_true.
Qed.

Lemma applyLayerCommit_rounds layer ls calls c ls' calls' :
  run_kind (c_Kind c) = false → applyLayerCommit layer ls calls c = Ok (ls', calls') →
  RoundsPublished ls' = RoundsPublished ls +
    match c_Kind c with
    | CommitRoundPublished => 1
    | CommitTurn =>
        match c_Output c with
        | Some o => if bool_decide (l_Delivery layer = DeliveryPerTurn) && roundComplete layer ls' (or_Round o)
                    then 1 else 0
        | None => 0
        end
    | _ => 0
    end.
Proof.
  unfold applyLayerCommit.
  destruct (c_Kind c); simpl; intros Hr H; try done;
    repeat case_match; simplify_eq; simpl in *; try lia; try done.
  all: unfold roundComplete in *; simpl in *; congruence.
Qed.

(** *** Published rounds *)

(** A commit leaves every layer but the one it names. *)
Lemma replayApply_layer st c st' id ls' :
  replayApply cfg st c = Ok st' → st_Layers st' !! id = Some ls' →
  st_Layers st !! id = Some ls' ∧ (run_kind (c_Kind c) = true ∨ c_Layer c ≠ id) ∨
  (run_kind (c_Kind c) = false ∧ c_Layer c = id ∧
   ∃ ls layer calls calls', st_Layers st !! id = Some ls ∧ Config_Layer cfg id = Some layer ∧
     applyLayerCommit layer ls calls c = Ok (ls', calls')).
Proof.
  intros (_ & _ & _ & _ & [(Hr & st1 & Ha & ->)|(Hr & ls & layer & ls2 & calls & Hls & Hl & Ha & _ & _ & _ & HL)])%replayApply_inv Hid.
  - apply applyRunCommit_inv in Ha as (_ & H2 & _). simpl in Hid. rewrite H2 in Hid. auto.
  - rewrite HL in Hid. destruct (decide (c_Layer c = id)) as [<-|Hne].
    + rewrite lookup_insert_eq in Hid. injection Hid as ->. right. repeat split; [done|]. eauto 10.
    + rewrite lookup_insert_ne in Hid by done. auto.
Qed.

Lemma index_outputs_mono log c k : k ∈ ix_outputs (index_of log) → k ∈ ix_outputs (index_of (log ++ [c])).
Proof. rewrite !index_outputs. set_solver. Qed.

Lemma published_snoc log c id :
  published (index_of (log ++ [c])) id =
  if publishes id c then c_Round c else published (index_of log) id.
Proof.
  rewrite index_of_snoc. unfold published, add, publishes. destruct (c_Kind c); try done.
  simpl. case_bool_decide as Hid; [subst; by rewrite lookup_insert_eq|by rewrite lookup_insert_ne].
Qed.

Lemma checkRoundPublished_inv layer ix c :
  checkRoundPublished layer ix c = Ok tt →
  l_Delivery layer ≠ DeliveryPerTurn ∧ 1 ≤ c_Round c ≤ MaxRounds layer ∧
  c_Round c = published ix (c_Layer c) + 1 ∧
  ∀ pid, pid ∈ l_Participants layer → (c_Layer c, turnID (c_Round c) pid) ∈ ix_outputs ix.
Proof.
  unfold checkRoundPublished. case_bool_decide; [done|].
  intros ([] & Hr%checkRound_ok & Hrest)%let_ok_inv. revert Hrest. case_if; [done|]. zb.
  destruct (find_first _ _) eqn:Hf; [done|]. intros _. apply find_first_None in Hf.
  rewrite Forall_forall in Hf. repeat split; [done|lia|lia|done|].
  intros pid Hp. specialize (Hf pid Hp). simpl in Hf. apply negb_false_iff, bool_decide_eq_true in Hf. done.
Qed.

Definition rounds_closed (log : list Commit) (layer : Layer) (id : string) (r : Z) : Prop :=
  r ≤ MaxRounds layer ∧
  ∀ pid, pid ∈ l_Participants layer → (id, turnID r pid) ∈ ix_outputs (index_of log).

Lemma after_round_ok log st id ls layer :
  replays log st → st_Layers st !! id = Some ls → Config_Layer cfg id = Some layer →
  l_Delivery layer ≠ DeliveryPerTurn →
  RoundsPublished ls = published (index_of log) id ∧ 0 ≤ RoundsPublished ls ∧
  ∀ r, 1 ≤ r ≤ RoundsPublished ls → rounds_closed log layer id r.
Proof.
  intros H. revert ls. induction H as [|log st c st' H IH Hc Ha]; intros ls Hls Hl Hd.
  { apply initial_layer in Hls as ->. split; [done|]. simpl. split; [lia|]. lia. }
  rewrite published_snoc.
  assert (Hmono : ∀ r, rounds_closed log layer id r → rounds_closed (log ++ [c]) layer id r).
  { intros r [? Hp]. split; auto using index_outputs_mono. }
  destruct (replayApply_layer _ _ _ _ _ Ha Hls) as [[Hls0 Hor]|(Hr & Hid & ls0 & layer0 & k & k' & Hls0 & Hl0 & Happ)].
  - destruct (IH _ Hls0 Hl Hd) as (H1 & H2 & H3).
    assert (publishes id c = false) as ->.
    { unfold publishes. destruct Hor as [Hr|Hne].
      - by destruct (c_Kind c).
      - by rewrite (bool_decide_false (c_Layer c = id)), andb_false_r. }
    auto.
  - rewrite Hl in Hl0. injection Hl0 as <-. destruct (IH _ Hls0 Hl Hd) as (H1 & H2 & H3).
    destruct (checkCommit_layer _ _ Hr Hc) as (layer1 & Hl1 & _ & Hck).
    rewrite Hid, Hl in Hl1. injection Hl1 as <-.
    rewrite (applyLayerCommit_rounds _ _ _ _ _ _ Hr Happ).
    unfold publishes. rewrite (bool_decide_true (c_Layer c = id)), andb_true_r by done.
    destruct (c_Kind c) eqn:Hk; simpl; rewrite ?Z.add_0_r; auto.
    + rewrite (bool_decide_false (l_Delivery layer = _)) by done. simpl.
      destruct (c_Output c); rewrite Z.add_0_r; auto.
    + apply checkRoundPublished_inv in Hck as (_ & Hrange & Hnext & Hp). rewrite Hid in Hnext, Hp.
      split; [lia|]. split; [lia|]. intros r Hr1.
      destruct (decide (r = c_Round c)) as [->|Hne]; [|apply Hmono, H3; lia].
      split; [lia|]. auto using index_outputs_mono.
Qed.

(** The rounds of a layer. *)
Definition rounds (layer : Layer) : list Z := map Z.of_nat (seq 1 (Z.to_nat (MaxRounds layer))).

Lemma elem_of_rounds layer r : r ∈ rounds layer ↔ 1 ≤ r ≤ MaxRounds layer.
Proof.
  unfold rounds. rewrite list_elem_of_fmap. setoid_rewrite elem_of_seq. split.
  - intros (n & -> & ?). lia.
  - intros. exists (Z.to_nat r). lia.
Qed.

Lemma NoDup_rounds layer : NoDup (rounds layer).
Proof. apply NoDup_fmap_2; [apply _|apply NoDup_seq]. Qed.

Lemma roundComplete_other layer ls ls' o r :
  Outputs ls' = Outputs ls ++ [o] → r ≠ or_Round o → roundComplete layer ls' r = roundComplete layer ls r.
Proof.
  intros Ho Hne. apply eq_true_iff_eq. rewrite !roundComplete_spec. rewrite Ho.
  apply forall_proper; intros pid. split; intros Hall Hp; destruct (Hall Hp) as (o' & Hin & Hr & Hpid).
  - apply elem_of_app in Hin as [Hin|Hin%list_elem_of_singleton]; [eauto|]. congruence.
  - exists o'. set_solver.
Qed.

(** A layer that publishes each turn: the counter is the number of rounds
    every participant has an output for. *)
Lemma per_turn_ok log st id ls layer :
  replays log st → st_Layers st !! id = Some ls → Config_Layer cfg id = Some layer →
  l_Delivery layer = DeliveryPerTurn → l_Participants layer ≠ [] →
  RoundsPublished ls = count (roundComplete layer ls) (rounds layer).
Proof.
  intros H. revert ls. induction H as [|log st c st' H IH Hc Ha]; intros ls Hls Hl Hd Hne.
  { apply initial_layer in Hls as ->. symmetry. apply count_zero, Forall_forall. intros r _.
    apply not_true_is_false. rewrite roundComplete_spec. intros Hall.
    destruct (l_Participants layer) as [|pid ps]; [done|].
    destruct (Hall pid) as (o & Hin & _); set_solver. }
  destruct (replayApply_layer _ _ _ _ _ Ha Hls) as [[Hls0 _]|(Hr & Hid & ls0 & layer0 & k & k' & Hls0 & Hl0 & Happ)]; [auto|].
  rewrite Hl in Hl0. injection Hl0 as <-.
  rewrite (applyLayerCommit_rounds _ _ _ _ _ _ Hr Happ), (IH _ Hls0 Hl Hd Hne).
  destruct (checkCommit_layer _ _ Hr Hc) as (layer1 & Hl1 & _ & Hck).
  rewrite Hid, Hl in Hl1. injection Hl1 as <-.
  destruct (applyLayerCommit_inv _ _ _ _ _ _ Hr Happ) as (_ & _ & Hout & _).
  destruct (decide (c_Kind c = CommitTurn)) as [Hk|Hk].
  - rewrite Hk in Hck |- *. rewrite <- Hid in Hl.
    destruct (checkTurn_valid layer log c Hl Hck) as (o & Ho & Hv & Ht & Hnew). rewrite Ho.
    assert (Hof : output_of (c_Layer c) c = Some o) by by apply output_of_Some.
    rewrite Hof in Hout. rewrite (bool_decide_true (l_Delivery layer = _)) by done. simpl.
    symmetry. apply count_update; [apply NoDup_rounds|apply elem_of_rounds, Hv| |].
    + intros r Hr1. by apply roundComplete_other with o.
    + apply not_true_is_false. rewrite roundComplete_spec. intros Hall.
      destruct (Hall (ParticipantID o) (ov_author _ _ _ Hv)) as (o' & Hin & Hr' & Hp').
      destruct (der_layer _ _ (replays_derived _ _ H) id ls0 Hls0) as (_ & Hos & _).
      rewrite Hos in Hin. destruct (outputs_ok log st id H) as [Hok _].
      destruct (Hok o' Hin) as [(l2 & _ & Hv2) Hcl]. apply Hnew. unfold turn_key.
      rewrite Hid, <- Ht, (ov_turn _ _ _ Hv), <- Hr', <- Hp', <- (ov_turn _ _ _ Hv2). done.
  - assert (Hof : output_of (c_Layer c) c = None).
    { unfold output_of. by rewrite (bool_decide_false (c_Kind c = _)). }
    rewrite Hof, app_nil_r in Hout.
    destruct (c_Kind c) eqn:Hk2; try done; rewrite ?Z.add_0_r.
    all: try (apply checkRoundPublished_inv in Hck as [? _]; done).
    all: apply count_ext; intros r _; unfold roundComplete; by rewrite Hout.
Qed.


(** *** Positions in the log *)

Lemma replays_lookup log st i c :
  replays log st → log !! i = Some c →
  ∃ st0, replays (take i log) st0 ∧ checkCommit cfg snap (index_of (take i log)) c = Ok tt ∧
    is_ok (replayApply cfg st0 c) = true.
Proof.
  induction 1 as [|log st d st' H IH Hc Ha]; [done|].
  intros [Hi|[-> ->]]%lookup_snoc_inv.
  - rewrite take_app_le by (apply lookup_lt_Some in Hi; lia). auto.
  - rewrite take_app_length. exists st. by rewrite Ha.
Qed.

Lemma NoDup_fmap_coarser {A B C} (f : A → B) (g : A → C) (l : list A) :
  NoDup (f <$> l) → (∀ x y, x ∈ l → y ∈ l → g x = g y → f x = f y) → NoDup (g <$> l).
Proof.
  induction l as [|x l IH]; simpl; intros Hnd Hfg; [constructor|].
  apply NoDup_cons in Hnd as [Hx Hnd]. apply NoDup_cons. split; [|apply IH; set_solver].
  intros (y & Hy & Hin)%list_elem_of_fmap. apply Hx. apply list_elem_of_fmap.
  exists y. split; [|done]. apply Hfg; set_solver.
Qed.

(** *** Status *)

Definition status_after (c : Commit) : Status :=
  match c_Kind c with
  | CommitLaunched | CommitResumed => StatusRunning
  | CommitPauseRequested => StatusPausing
  | CommitPaused => StatusPaused
  | CommitCancelRequested => StatusCancelling
  | _ => c_Status c
  end.

Definition run_commits (log : list Commit) : list Commit := keep (λ c, run_kind (c_Kind c)) log.

Lemma applyRunCommit_status st c st' :
  run_kind (c_Kind c) = true → applyRunCommit st c = Ok st' →
  st_Status st' = status_after c ∧
  (c_Kind c = CommitLaunched → st_Status st = StatusQueued) ∧
  (c_Kind c = CommitEnded → Terminal (c_Status c) = true ∧ st_Reason st' = c_Reason c).
Proof.
  unfold applyRunCommit, status_after.
  destruct (c_Kind c); try done; try case_if; try done; intros _ [= <-]; simpl; zb;
    rewrite ?bool_decide_eq_true in *; naive_solver.
Qed.

Lemma status_ok log st :
  replays log st →
  st_Status st = default StatusQueued (status_after <$> last (run_commits log)).
Proof.
  induction 1 as [|log st c st' H IH Hc Ha]; [done|].
  unfold run_commits. rewrite keep_app. simpl. fold (run_commits log).
  apply replayApply_inv in Ha as (_ & _ & _ & _ & [(Hr & st1 & Ha & ->)|(Hr & ls & layer & ls' & calls & _ & _ & _ & -> & _)]).
  - rewrite Hr, last_snoc. simpl. by apply (applyRunCommit_status st c st1).
  - by rewrite Hr, app_nil_r.
Qed.

Lemma ended_ok log st :
  replays log st →
  (Terminal (st_Status st) = true ↔ ∃ c, last log = Some c ∧ c_Kind c = CommitEnded) ∧
  (∀ i c, log !! i = Some c → c_Kind c = CommitEnded →
     S i = length log ∧ st_Status st = c_Status c ∧ st_Reason st = c_Reason c).
Proof.
  induction 1 as [|log st c st' H [IH1 IH2] Hc Ha].
  { split; [|done]. by split; [|intros (c & ? & _)]. }
  pose proof (replayApply_inv _ _ _ _ Ha) as (_ & Hnt & _ & _ & Hcase). rewrite last_snoc.
  assert (Hold : ∀ i d, log !! i = Some d → c_Kind d ≠ CommitEnded).
  { intros i d Hi Hk. destruct (IH2 i d Hi Hk) as (Hlen & _).
    assert (Terminal (st_Status st) = true); [|congruence].
    apply IH1. exists d. split; [|done]. rewrite last_lookup, <- Hlen. done. }
  destruct Hcase as [(Hr & st1 & Happ & ->)|(Hr & ls & layer & ls' & calls & _ & _ & _ & -> & _)].
  - destruct (applyRunCommit_status st c st1 Hr Happ) as (Hs & _ & He). simpl. rewrite Hs. split.
    + split; [|intros (d & [= <-] & Hk); unfold status_after; rewrite Hk; by apply He].
      intros Ht. exists c. split; [done|]. unfold status_after in Ht. by destruct (c_Kind c).
    + intros i d [Hi|[-> ->]]%lookup_snoc_inv Hk; [by destruct (Hold i d Hi)|].
      rewrite length_app. unfold status_after. rewrite Hk. repeat split; [simpl; lia|by apply He].
  - split.
    + split; [congruence|]. intros (d & [= <-] & Hk). by rewrite Hk in Hr.
    + intros i d [Hi|[-> ->]]%lookup_snoc_inv Hk; [by destruct (Hold i d Hi)|by rewrite Hk in Hr].
Qed.

Lemma launched_ok log st :
  replays log st →
  count (λ c, bool_decide (c_Kind c = CommitLaunched)) log ≤ 1 ∧
  (st_Status st = StatusQueued → run_commits log = []).
Proof.
  induction 1 as [|log st c st' H [IH1 IH2] Hc Ha]; [done|].
  rewrite count_snoc. unfold run_commits. rewrite keep_app. simpl. fold (run_commits log).
  pose proof (replayApply_inv _ _ _ _ Ha) as (_ & Hnt & _ & _ & Hcase).
  destruct Hcase as [(Hr & st1 & Happ & ->)|(Hr & ls & layer & ls' & calls & _ & _ & _ & -> & _)].
  - destruct (applyRunCommit_status st c st1 Hr Happ) as (Hs & Hq & He). simpl. rewrite Hs, Hr. split.
    + case_bool_decide as Hk; [|lia]. specialize (IH2 (Hq Hk)).
      enough (count (λ c, bool_decide (c_Kind c = CommitLaunched)) log = 0) by lia.
      apply count_zero, Forall_forall. intros d Hd. apply bool_decide_eq_false. intros Hkd.
      assert (d ∈ run_commits log) as Hin by (apply elem_of_keep; by rewrite Hkd).
      rewrite IH2 in Hin. by apply elem_of_nil in Hin.
    + unfold status_after. destruct (c_Kind c) eqn:Hk; try done.
      intros Hst. rewrite Hst in He. by destruct (He eq_refl).
  - rewrite Hr, app_nil_r. split; [|done]. case_bool_decide as Hk; [by rewrite Hk in Hr|lia].
Qed.

(** *** Refusals *)

(** Why the fold alone refuses a commit that passed the check: its place in the
    life of the run. *)
Definition lifecycle_error (st : State) (c : Commit) : option LogError :=
  if negb (c_Seq c =? st_Seq st + 1) then Some (ErrSeq (c_Seq c) (st_Seq st))
  else if Terminal (st_Status st) then Some ErrFollowsEnd
  else match c_Kind c with
       | CommitLaunched =>
           if bool_decide (st_Status st = StatusQueued) then None else Some (ErrLaunched (st_Status st))
       | CommitEnded => if Terminal (c_Status c) then None else Some (ErrNotTerminal (c_Status c))
       | _ => None
       end.

Lemma checkCommit_named ix st c :
  dom (st_Layers st) = list_to_set (sn_Layers snap) → checkCommit cfg snap ix c = Ok tt →
  c_Layer c ≠ "" → ∃ ls layer, st_Layers st !! c_Layer c = Some ls ∧ Config_Layer cfg (c_Layer c) = Some layer.
Proof.
  unfold checkCommit. intros Hdom (l & Hl & _)%let_ok_inv Hne. rewrite bool_decide_false in Hl by done.
  destruct (Config_Layer cfg (c_Layer c)) as [layer|]; [|done].
  case_bool_decide as Hin; [|done].
  assert (c_Layer c ∈ dom (st_Layers st)) as [ls Hls]%elem_of_dom by (rewrite Hdom; by apply elem_of_list_to_set).
  eauto.
Qed.

Lemma checked_lifecycle log st c :
  replays log st → checkCommit cfg snap (index_of log) c = Ok tt →
  match lifecycle_error st c with
  | Some e => replayApply cfg st c = Err e
  | None => is_ok (replayApply cfg st c) = true
  end.
Proof.
  intros H Hc. pose proof (der_layers _ _ (replays_derived _ _ H)) as Hdom.
  unfold lifecycle_error, replayApply. case_if; [done|]. case_if; [done|].
  pose proof (checkCommit_named _ st c Hdom Hc) as Hnamed.
  destruct (run_kind (c_Kind c)) eqn:Hr.
  - assert (∃ x, (if bool_decide (c_Layer c = "") then Ok None
       else match st_Layers st !! c_Layer c with
            | None => Err (ErrNotEnabled (c_Layer c))
            | Some ls => match Config_Layer cfg (c_Layer c) with
                         | None => Err (ErrNotConfigured (c_Layer c))
                         | Some layer => Ok (Some (ls, layer))
                         end
            end) = Ok (E:=LogError) x) as [x ->].
    { case_bool_decide; [eauto|]. destruct Hnamed as (ls & layer & -> & ->); eauto. }
    unfold applyRunCommit. destruct (c_Kind c); try done; simpl; repeat case_if; try done; simpl in *; congruence.
  - destruct (checkCommit_layer _ c Hr Hc) as (layer & Hl & Hin & Hck).
    assert (c_Layer c ∈ dom (st_Layers st)) as [ls Hls]%elem_of_dom by (rewrite Hdom; by apply elem_of_list_to_set).
    rewrite Hls, Hl. unfold checkCommit in Hc. apply let_ok_inv in Hc as ([l|] & Hl2 & Hc2).
    2: by destruct (c_Kind c). case_bool_decide; [done|]. simpl.
    unfold applyLayerCommit, checkTurnCommit, checkModeratedCommit in *.
    destruct (c_Kind c); try done; repeat case_match; simplify_eq; try done.
Qed.

End logs.

(** ** Theorems *)

Section theorems.
Context (cfg : Config) (snap : Snapshot).

Lemma closed_before log st i j c d :
  replays cfg snap log st → log !! i = Some c → closes c = true →
  log !! j = Some d → c_Kind d = CommitAttempt → turn_key d = turn_key c → (j < i)%nat.
Proof.
  intros H Hi Hcl Hj Hk Hkey. destruct (decide (j < i)%nat) as [|Hge]; [done|exfalso].
  assert (i ≠ j) as Hne.
  { intros ->. rewrite Hi in Hj. injection Hj as ->. unfold closes in Hcl. by rewrite Hk in Hcl. }
  destruct (replays_lookup cfg snap _ _ _ _ H Hj) as (st0 & _ & Hc & _).
  destruct (checkCommit_layer cfg snap (index_of (take j log)) d) as (layer & _ & _ & Hck);
    [by rewrite Hk|done|].
  rewrite Hk in Hck. unfold checkAttemptCommit in Hck.
  apply let_ok_inv in Hck as ([] & _ & Hck). revert Hck. case_if; [done|].
  intros ([] & _ & ([] & _ & Hck)%let_ok_inv)%let_ok_inv. revert Hck.
  case_bool_decide as Hin; [done|]. intros _. apply Hin, index_outputs.
  exists c. split; [|by rewrite Hkey]. apply list_elem_of_lookup. exists i. rewrite lookup_take_lt by lia. done.
Qed.

(** The outputs of a layer, in any log that replays: they are the outputs
    the log commits to that layer, in order; no participant has two for one
    round; and each is by a participant of the layer, for a round within its
    limit, under the work id of that round and participant, from an attempt
    that an earlier commit reserved. *)
Theorem replayed_outputs log st id ls :
  replay cfg snap log = Ok st → st_Layers st !! id = Some ls →
  Outputs ls = omap (output_of id) log ∧
  NoDup (turn_pair <$> Outputs ls) ∧
  (∀ i c o, log !! i = Some c → output_of id c = Some o →
     ∃ layer, Config_Layer cfg id = Some layer ∧ output_valid (take i log) layer o).
Proof.
  intros H%replay_replays Hls.
  destruct (der_layer _ _ _ (replays_derived _ _ _ _ H) id ls Hls) as (_ & Ho & _).
  destruct (outputs_ok _ _ _ _ id H) as [Hok Hnd]. rewrite Ho. split; [done|]. split.
  - apply NoDup_fmap_coarser with or_Turn; [done|]. intros x y Hx Hy [= Hr Hp].
    destruct (Hok x Hx) as [(lx & _ & Hvx) _], (Hok y Hy) as [(ly & _ & Hvy) _].
    by rewrite (ov_turn _ _ _ Hvx), (ov_turn _ _ _ Hvy), Hr, Hp.
  - intros i c o Hi Hof. apply output_of_Some in Hof as (Hk & <- & Hco).
    destruct (replays_lookup _ _ _ _ _ _ H Hi) as (st0 & _ & Hc & _).
    destruct (checkCommit_layer cfg snap (index_of (take i log)) c) as (layer & Hl & _ & Hck);
      [by rewrite Hk|done|].
    rewrite Hk in Hck. destruct (checkTurn_valid cfg layer _ c Hl Hck) as (o' & Ho' & Hv & _).
    exists layer. split; [done|]. congruence.
Qed.

(** Messages sent to the models, in any log that replays: the counts the
    limits are checked against are those of the log, an attempt is reserved at
    most twice, the second time with the same round and the same visible
    events, and no attempt of a turn follows its output or its decision. *)
Theorem attempts_bounded log st :
  replay cfg snap log = Ok st →
  st_Calls st = count any_attempt log ∧
  (∀ id ls, st_Layers st !! id = Some ls → ls_Calls ls = count (is_attempt id) log) ∧
  (∀ k, count (reserves k) log ≤ 2) ∧
  (∀ k c d, c ∈ log → d ∈ log → reserves k c = true → reserves k d = true →
     c_Round c = c_Round d ∧ c_ThroughSeq c = c_ThroughSeq d) ∧
  (∀ i j c d, log !! i = Some c → closes c = true → log !! j = Some d →
     c_Kind d = CommitAttempt → turn_key d = turn_key c → (j < i)%nat).
Proof.
  intros H%replay_replays. pose proof (replays_derived _ _ _ _ H) as Hd.
  split; [apply Hd|]. split; [intros id ls Hls; by apply (der_layer _ _ _ Hd)|].
  split; [|split].
  - intros k. pose proof (attempts_ok _ _ _ _ k H) as Hk.
    destruct (ix_attempts (index_of log) !! k) as [r|]; [|lia].
    destruct Hk as [-> _]. case_if; lia.
  - intros k c d Hc Hin Hrc Hrd. pose proof (attempts_ok _ _ _ _ k H) as Hk.
    destruct (ix_attempts (index_of log) !! k) as [r|].
    + destruct Hk as [_ Hk]. destruct (Hk c Hc Hrc) as [-> ->], (Hk d Hin Hrd) as [-> ->]. done.
    + apply count_zero in Hk. rewrite Forall_forall in Hk. rewrite (Hk c Hc) in Hrc. done.
  - eauto using closed_before.
Qed.

(** Rounds, in any log that replays: in a layer that publishes after each
    round the published rounds are the first ones, each within the limit and
    with an output of every participant; in a layer that publishes each turn
    the counter is the number of rounds with an output of every participant. *)
Theorem rounds_published log st id ls layer :
  replay cfg snap log = Ok st → st_Layers st !! id = Some ls →
  Config_Layer cfg id = Some layer → l_Participants layer ≠ [] →
  if bool_decide (l_Delivery layer = DeliveryPerTurn)
  then RoundsPublished ls = count (roundComplete layer ls) (rounds layer)
  else 0 ≤ RoundsPublished ls ∧
       ∀ r, 1 ≤ r ≤ RoundsPublished ls → r ≤ MaxRounds layer ∧ roundComplete layer ls r = true.
Proof.
  intros H%replay_replays Hls Hl Hne. case_bool_decide as Hd; [by eapply per_turn_ok|].
  destruct (after_round_ok _ _ _ _ _ _ _ H Hls Hl Hd) as (_ & Hpos & Hr). split; [done|].
  intros r Hrange. destruct (Hr r Hrange) as [Hmax Hcl]. split; [done|].
  apply roundComplete_spec. intros pid Hp.
  destruct (closed_turn_output _ _ _ _ id r pid H ltac:(lia) (Hcl pid Hp)) as (o & Hin & ? & ?).
  destruct (der_layer _ _ _ (replays_derived _ _ _ _ H) id ls Hls) as (_ & -> & _). eauto.
Qed.

(** The life of a run, in any log that replays: sequence numbers have no
    gap, the run is launched at most once, its status is that of the last
    commit about the run, and it is terminal exactly when the last commit ends
    it: nothing follows the end. *)
Theorem run_status log st :
  replay cfg snap log = Ok st →
  st_Seq st = Z.of_nat (length log) ∧
  (∀ i c, log !! i = Some c → c_Seq c = Z.of_nat i + 1) ∧
  st_Status st = default StatusQueued (status_after <$> last (run_commits log)) ∧
  count (λ c, bool_decide (c_Kind c = CommitLaunched)) log ≤ 1 ∧
  (Terminal (st_Status st) = true ↔ ∃ c, last log = Some c ∧ c_Kind c = CommitEnded) ∧
  (∀ i c, log !! i = Some c → c_Kind c = CommitEnded →
     S i = length log ∧ st_Status st = c_Status c ∧ st_Reason st = c_Reason c).
Proof.
  intros H%replay_replays. pose proof (replays_derived _ _ _ _ H) as Hd.
  split; [apply Hd|]. split; [apply Hd|]. split; [by eapply status_ok|].
  split; [by eapply launched_ok|]. by eapply ended_ok.
Qed.

(** What replay refuses: it fails exactly when some commit, after a prefix
    that replays, fails the check every append makes, with that error, or,
    having passed it, is out of place in the life of the run: a sequence
    number that does not follow, a commit after the end, a second launch, an
    end without a terminal status. The fold itself refuses nothing else. *)
Theorem replay_refuses log e :
  replay cfg snap log = Err e ↔
  ∃ pre c post st, log = pre ++ c :: post ∧ replay cfg snap pre = Ok st ∧
    (checkCommit cfg snap (index_of pre) c = Err e ∨
     (checkCommit cfg snap (index_of pre) c = Ok tt ∧ lifecycle_error st c = Some e)).
Proof.
  split.
  - induction log as [|c log IH] using rev_ind; [done|]. rewrite replay_snoc.
    destruct (replay cfg snap log) as [st|e'] eqn:Hr; intros Herr; simpl in Herr.
    + exists log, c, [], st. split; [done|]. split; [done|].
      destruct (checkCommit cfg snap (index_of log) c) as [[]|e'] eqn:Hc; [right|left; congruence].
      split; [done|]. apply replay_replays in Hr. pose proof (checked_lifecycle _ _ _ _ _ Hr Hc) as Hl.
      destruct (lifecycle_error st c); [congruence|]. by rewrite Herr in Hl.
    + injection Herr as ->. destruct (IH eq_refl) as (pre & d & post & st & -> & Hrest).
      exists pre, d, (post ++ [c]), st. by rewrite <- app_assoc.
  - intros (pre & c & post & st & -> & Hr & Hcase).
    assert (replay cfg snap (pre ++ [c]) = Err e) as Hfail.
    { rewrite replay_snoc, Hr. destruct Hcase as [->|[Hc Hl]]; [done|]. rewrite Hc.
      apply replay_replays in Hr. pose proof (checked_lifecycle _ _ _ _ _ Hr Hc) as H.
      rewrite Hl in H. by rewrite H. }
    rewrite (app_assoc pre [c] post : pre ++ c :: post = _).
    unfold replay in *. rewrite replay_loop_app, Hfail. done.
Qed.
End theorems.

(** ** A run

    Two layers: "draft" publishes each turn of ann and bob, "review" is ann
    alone, publishes after each round and has a moderator. Bob's attempt is cut
    by a restart and sent again. *)

Definition a_layer (id : string) (ps : list string) (d : Delivery) (m : option Moderator) (n : Z) : Layer :=
  {| l_ID := id; l_Enabled := None; l_Participants := ps; l_Instructions := "do it"; l_Inputs := [];
     l_Delivery := d; MaxRounds := n; l_MaxCalls := 0;
     l_Output := {| o_Format := FormatText; o_Schema := ""; Share := None |}; l_Moderator := m |}.

Definition a_moderator : Moderator :=
  {| md_Participant := "mod"; AfterRound := 1; EveryRounds := 1; md_Inputs := [];
     md_ConversationView := NoConversationView; md_Schema := ""; AllowDirected := false |}.

Definition a_limits : Limits :=
  {| MaxCalls := 10; MaxDurationSeconds := 600; CallTimeoutSeconds := 60; MaxAttemptsPerTurn := 2;
     MaxParallelCalls := 2 |}.

Definition a_config : Config :=
  {| Version := 1; cfg_Name := "demo";
     cfg_Brief := {| Purpose := "p"; Task := "t"; SuccessCriteria := []; Constraints := [] |};
     Sources := ∅; cfg_Participants := ∅; Schemas := ∅;
     Layers := [a_layer "draft" ["ann"; "bob"] DeliveryPerTurn None 2;
                a_layer "review" ["ann"] DeliveryAfterRound (Some a_moderator) 3];
     cfg_Limits := a_limits; cfg_Seed := None; ResultLayers := [] |}.

Definition a_snapshot : Snapshot :=
  {| ForumID := "f"; sn_Run := 1; sn_Name := "demo"; LaunchedAt := 0; Deadline := 600 * GoTime.second;
     OriginAgent := "main"; ConfigDigest := ""; sn_Seed := 7; sn_Limits := a_limits;
     sn_Layers := ["draft"; "review"]; sn_ResultLayers := ["review"]; sn_Sources := ∅ |}.

Definition a_commit (seq : Z) (k : CommitKind) (layer : string) (round : Z) (turn : string) : Commit :=
  {| c_Seq := seq; c_At := 100 + seq; c_Kind := k; c_Layer := layer; c_Round := round; c_Turn := turn;
     c_TurnKind := TurnParticipant; c_Participant := ""; c_Attempt := 0; c_ThroughSeq := 0;
     c_Output := None; c_Decision := None; c_Status := OtherStatus ""; c_Reason := NoReason |}.

Definition an_attempt (seq : Z) (layer : string) (round : Z) (pid : string) (kind : TurnKind) : Commit :=
  {| c_Seq := seq; c_At := 100 + seq; c_Kind := CommitAttempt; c_Layer := layer; c_Round := round;
     c_Turn := (if bool_decide (kind = TurnModerator) then moderatorTurnID round else turnID round pid);
     c_TurnKind := kind; c_Participant := pid; c_Attempt := 1; c_ThroughSeq := 0;
     c_Output := None; c_Decision := None; c_Status := OtherStatus ""; c_Reason := NoReason |}.

Definition an_output (layer : string) (round : Z) (pid : string) : OutputRecord :=
  {| OutputID := layer +:+ turnID round pid; or_LayerID := layer; or_Round := round; ParticipantID := pid;
     or_Format := FormatText; ContentFile := "output.txt"; PublishedFile := "output.txt"; Digest := "d";
     PublishedDigest := "d"; or_Turn := turnID round pid; or_Attempt := 1; or_Resent := false |}.

Definition a_turn (seq : Z) (layer : string) (round : Z) (pid : string) : Commit :=
  {| c_Seq := seq; c_At := 100 + seq; c_Kind := CommitTurn; c_Layer := layer; c_Round := round;
     c_Turn := turnID round pid; c_TurnKind := OtherTurnKind ""; c_Participant := ""; c_Attempt := 0;
     c_ThroughSeq := 0; c_Output := Some (an_output layer round pid); c_Decision := None;
     c_Status := OtherStatus ""; c_Reason := NoReason |}.

Definition a_decision (seq round : Z) : Commit :=
  {| c_Seq := seq; c_At := 100 + seq; c_Kind := CommitModerated; c_Layer := "review"; c_Round := round;
     c_Turn := moderatorTurnID round; c_TurnKind := OtherTurnKind ""; c_Participant := ""; c_Attempt := 0;
     c_ThroughSeq := 0; c_Output := None;
     c_Decision := Some {| d_Decision := DecisionStop; d_Reason := "done"; Guidance := None;
                           Assessment := None; Directed := [] |};
     c_Status := OtherStatus ""; c_Reason := NoReason |}.

Definition an_end (seq : Z) (s : Status) (r : EndReason) : Commit :=
  {| c_Seq := seq; c_At := 100 + seq; c_Kind := CommitEnded; c_Layer := ""; c_Round := 0; c_Turn := "";
     c_TurnKind := OtherTurnKind ""; c_Participant := ""; c_Attempt := 0; c_ThroughSeq := 0;
     c_Output := None; c_Decision := None; c_Status := s; c_Reason := r |}.

Definition a_log : list Commit :=
  [a_commit 1 CommitLaunched "" 0 ""; a_commit 2 CommitLayerStarted "draft" 0 "";
   an_attempt 3 "draft" 1 "ann" TurnParticipant; a_turn 4 "draft" 1 "ann";
   an_attempt 5 "draft" 1 "bob" TurnParticipant; an_attempt 6 "draft" 1 "bob" TurnParticipant;
   a_turn 7 "draft" 1 "bob"; a_commit 8 CommitLayerEnded "draft" 0 "";
   a_commit 9 CommitLayerStarted "review" 0 ""; an_attempt 10 "review" 1 "ann" TurnParticipant;
   a_turn 11 "review" 1 "ann"; a_commit 12 CommitRoundPublished "review" 1 "";
   an_attempt 13 "review" 1 "mod" TurnModerator; a_decision 14 1;
   a_commit 15 CommitLayerEnded "review" 0 ""; an_end 16 StatusCompleted EndCompleted].

Definition a_state : State :=
  match replay a_config a_snapshot a_log with Ok st => st | Err _ => replayInitialState a_snapshot end.

Example a_log_replays : replay a_config a_snapshot a_log = Ok a_state.
Proof. vm_compute. reflexivity. Qed.

Definition a_layer_state (id : string) : LayerState := default empty_layer (st_Layers a_state !! id).

Lemma replayed_outputs_witness :
  Outputs (a_layer_state "draft") = omap (output_of "draft") a_log ∧
  NoDup (turn_pair <$> Outputs (a_layer_state "draft")) ∧
  (∀ i c o, a_log !! i = Some c → output_of "draft" c = Some o →
     ∃ layer, Config_Layer a_config "draft" = Some layer ∧ output_valid (take i a_log) layer o).
Proof.
  refine (replayed_outputs a_config a_snapshot a_log a_state "draft" (a_layer_state "draft") _ _);
    vm_compute; reflexivity.
Defined.

Lemma attempts_bounded_witness :
  st_Calls a_state = 5 ∧ ∀ k, count (reserves k) a_log ≤ 2.
Proof.
  destruct (attempts_bounded a_config a_snapshot a_log a_state) as (H & _ & H2 & _).
  - vm_compute. reflexivity.
  - split; [rewrite H; vm_compute; reflexivity|exact H2].
Defined.

Lemma rounds_published_witness :
  (RoundsPublished (a_layer_state "draft") =
     count (roundComplete (a_layer "draft" ["ann"; "bob"] DeliveryPerTurn None 2) (a_layer_state "draft"))
       [1; 2]) ∧
  0 ≤ RoundsPublished (a_layer_state "review") ∧
  ∀ r, 1 ≤ r ≤ RoundsPublished (a_layer_state "review") →
    r ≤ 3 ∧ roundComplete (a_layer "review" ["ann"] DeliveryAfterRound (Some a_moderator) 3)
              (a_layer_state "review") r = true.
Proof.
  split.
  - refine (rounds_published a_config a_snapshot a_log a_state "draft" (a_layer_state "draft")
              (a_layer "draft" ["ann"; "bob"] DeliveryPerTurn None 2) _ _ _ _);
      [vm_compute; reflexivity..|discriminate].
  - refine (rounds_published a_config a_snapshot a_log a_state "review" (a_layer_state "review")
              (a_layer "review" ["ann"] DeliveryAfterRound (Some a_moderator) 3) _ _ _ _);
      [vm_compute; reflexivity..|discriminate].
Defined.

Lemma run_status_witness :
  st_Seq a_state = 16 ∧ Terminal (st_Status a_state) = true.
Proof.
  destruct (run_status a_config a_snapshot a_log a_state) as (H & _ & _ & _ & H4 & _).
  - vm_compute. reflexivity.
  - split; [rewrite H; vm_compute; reflexivity|].
    apply H4. exists (an_end 16 StatusCompleted EndCompleted). split; vm_compute; reflexivity.
Defined.

(** A second output for a turn, and a commit after the end. *)
Example second_output_refused :
  replay a_config a_snapshot (take 4 a_log ++ [a_turn 5 "draft" 1 "ann"]) = Err ErrTurnExists.
Proof. vm_compute. reflexivity. Qed.

(** The check of an append does not look at the life of the run: it accepts a
    commit after the end, which replay refuses. *)
Example after_end_checked :
  checkCommit a_config a_snapshot (index_of a_log) (a_commit 17 CommitResumed "" 0 "") = Ok tt.
Proof. vm_compute. reflexivity. Qed.

Example after_end_refused :
  replay a_config a_snapshot (a_log ++ [a_commit 17 CommitResumed "" 0 ""]) = Err ErrFollowsEnd.
Proof. vm_compute. reflexivity. Qed.
