(* ===== verification/ForumStore.v ===== *)
(** * A run's store: the commit log and the attempts on disk

    The commit log of forum/commits.go, the attempt files of forum/runfiles.go
    and the check of a directory before it is opened (forum/replay.go). The
    run's directory is two maps from names to files: commits/, and everything
    else by its path. A write that reports an error may have published its file
    or not, and may leave a temporary file: the outcome of each write is an
    argument. JSON is the class [ForumCodec]. *)

From stdpp Require Import base gmap strings list sets sorting.
From Stdlib Require Import ZArith Lia Ascii.
From S2P Require Import Prelude GoString ForumConfig ForumLog.

Open Scope Z_scope.

(** ** Attempts *)

Inductive Outcome :=
| OutcomeOK | OutcomeError | OutcomeCancelled | OutcomeEmpty | OutcomeTimeout
| OtherOutcome (s : string).

#[export] Instance Outcome_eq_dec : EqDecision Outcome.
Proof. solve_decision. Defined.

Record AttemptRequest := {
  rq_Layer : string;
  rq_Round : Z;
  rq_Turn : string;
  rq_Attempt : Z;
  rq_Kind : TurnKind;
  rq_Participant : string;
  rq_AgentID : string;
  SentAt : Z;
  WaitSeconds : Z;
  Repair : bool;
  rq_Resent : bool;
  rq_ThroughSeq : Z;
  rq_Message : string
}.

Record AttemptReply := {
  ReceivedAt : Z;
  rp_Outcome : Outcome;
  rp_Text : string;
  Issues : list string
}.

Record AttemptRecord := {
  ar_Request : AttemptRequest;
  ar_Reply : option AttemptReply;
  ResendUsed : bool
}.

Class ForumCodec := {
  marshalCommit : Commit → option string;
  unmarshalCommit : string → option Commit;
  marshalRequest : AttemptRequest → option string;
  unmarshalRequest : string → option AttemptRequest;
  marshalReply : AttemptReply → option string;
  unmarshalReply : string → option AttemptReply
}.

(** ** The directory *)

(** A directory entry: a regular file reached without a symbolic link or
    something else, and its content where it can be read. *)
Record Entry := { regular : bool; data : option string }.

Definition file (d : string) : Entry := {| regular := true; data := Some d |}.

Record RunStore := {
  commits : option (gmap string Entry);
  files : gmap string Entry;
  contract_file : result (Config * Snapshot) string;
  loaded : bool;
  idx : commitIndex;
  contract : option (Config * Snapshot)
}.

Definition TempPrefix : string := ".tmp-".
Definition commitSeqWidth : nat := 8.

(** The file name of a commit, within commits/. *)
Definition commitRel (seq : Z) : string := zero_pad commitSeqWidth seq +:+ ".json".

(** [commitNamePattern] *)
Definition commitNamePattern (name : string) : bool :=
  bool_decide (String.length name = (commitSeqWidth + 5)%nat) &&
  forallb (λ c, is_digit (byte_val c)) (take commitSeqWidth (bytes name)) &&
  bool_decide (drop commitSeqWidth (bytes name) = bytes ".json").

Definition name_le (x y : string * Entry) : Prop := String.le x.1 y.1.

#[export] Instance name_le_dec : RelDecision name_le.
Proof. intros x y. unfold name_le. apply _. Defined.

Inductive StoreError :=
| NoCommitsDir
| UnexpectedEntry (name : string)
| UnreadableCommit (name : string)
| UndecodableCommit (name : string)
| WrongSeq (name : string) (seq : Z)
| SeqGap (seq : Z)
| StaleSeq (seq last : Z)
| NoContract (why : string)
| Refused (e : LogError)
| NoRequest
| UndecodableRequest
| NotResent
| HasReply
| NotMarshalled
| WriteFailed
| BadAttempt
| AttemptReserved
| AttemptResentOnce
| AttemptNotReserved
| TurnHasOutput.

Section store.
Context `{GoRange, ForumCodec}.

(** The loop of [ReadCommits] over the sorted entries. *)
Fixpoint read_entries (es : list (string * Entry)) : result (list Commit) StoreError :=
  match es with
  | [] => Ok []
  | (name, e) :: rest =>
      if HasPrefix name TempPrefix then read_entries rest
      else if negb (commitNamePattern name) || negb (regular e) then Err (UnexpectedEntry name)
      else match data e with
           | None => Err (UnreadableCommit name)
           | Some d =>
               match unmarshalCommit d with
               | None => Err (UndecodableCommit name)
               | Some c =>
                   if negb (c_Seq c =? dec_value (take commitSeqWidth (bytes name)))
                   then Err (WrongSeq name (c_Seq c))
                   else (let* cs := read_entries rest in Ok (c :: cs))%go
               end
           end
  end.

(** The last loop: the sequence starts at [next] and has no gap. *)
Fixpoint check_gaps (next : Z) (cs : list Commit) : result unit StoreError :=
  match cs with
  | [] => Ok tt
  | c :: rest => if negb (c_Seq c =? next) then Err (SeqGap (c_Seq c)) else check_gaps (next + 1) rest
  end.

(** [ReadCommits] *)
Definition ReadCommits (s : RunStore) : result (list Commit) StoreError :=
  match commits s with
  | None => Err NoCommitsDir
  | Some dir =>
      (let* cs := read_entries (merge_sort name_le (go_range dir)) in
       let* _ := check_gaps 1 cs in
       Ok cs)%go
  end.

Definition with_idx (s : RunStore) (l : bool) (x : commitIndex) : RunStore :=
  {| commits := commits s; files := files s; contract_file := contract_file s;
     loaded := l; idx := x; contract := contract s |}.

(** [loadIndexLocked] *)
Definition loadIndexLocked (s : RunStore) : result RunStore StoreError :=
  if loaded s then Ok s
  else (let* cs := ReadCommits s in Ok (with_idx s true (index_of cs)))%go.

(** [contractLocked] *)
Definition contractLocked (s : RunStore) : result (RunStore * (Config * Snapshot)) StoreError :=
  match contract s with
  | Some c => Ok (s, c)
  | None =>
      match contract_file s with
      | Err why => Err (NoContract why)
      | Ok c => Ok ({| commits := commits s; files := files s; contract_file := contract_file s;
                       loaded := loaded s; idx := idx s; contract := Some c |}, c)
      end
  end.

(** ** Paths of attempts *)

(** [attemptRel]: the empty string for a malformed id. The parts are ids, so
    [path.Join] only joins them. *)
Definition attemptRel (layerID turn : string) (attempt : Z) : string :=
  if negb (validID layerID) || negb (validID turn) || (attempt <? 1) then ""
  else "layers/" +:+ layerID +:+ "/calls/" +:+ turn +:+ "/" +:+ itoa attempt.

Definition join (rel name : string) : string :=
  if bool_decide (rel = "") then name else rel +:+ "/" +:+ name.

Definition fileRequest : string := "request.json".
Definition fileReply : string := "reply.json".

(** [statRegular] *)
Definition statRegular (s : RunStore) (rel : string) : bool :=
  match files s !! rel with Some e => regular e | None => false end.

(** [checkResend] *)
Definition checkResend (s : RunStore) (rel : string) : result unit StoreError :=
  match files s !! join rel fileRequest with
  | None => Err NoRequest
  | Some e =>
      match (if regular e then data e else None) with
      | None => Err UndecodableRequest
      | Some d => match unmarshalRequest d with
                  | None => Err UndecodableRequest
                  | Some req => if rq_Resent req then Ok tt else Err NotResent
                  end
      end
  end.

(** [checkCommitLocked] *)
Definition checkCommitLocked (s : RunStore) (c : Commit) : result RunStore StoreError :=
  (let* sc := contractLocked s in
   match checkCommit sc.2.1 sc.2.2 (idx sc.1) c with
   | Err e => Err (Refused e)
   | Ok _ =>
       if bool_decide (c_Kind c = CommitAttempt) then
         let rel := attemptRel (c_Layer c) (c_Turn c) (c_Attempt c) in
         if negb (statRegular sc.1 (join rel fileRequest)) then Err NoRequest
         else if reserved (idx sc.1) (c_Layer c) (c_Turn c) (c_Attempt c) then
           let* _ := checkResend sc.1 rel in
           if statRegular sc.1 (join rel fileReply) then Err HasReply else Ok sc.1
         else Ok sc.1
       else Ok sc.1
   end)%go.

(** ** Writes *)

(** How an exclusive write ends: as reported, or with an error after or before
    the file was published, with the temporary file that may be left. *)
Inductive WriteOutcome :=
| Written
| Failed (file_there : bool) (tmp : option (string * string)).

Definition leave_temp (dir : gmap string Entry) (tmp : option (string * string)) : gmap string Entry :=
  match tmp with
  | None => dir
  | Some (uuid, content) => <[TempPrefix +:+ uuid := file content]> dir
  end.

(** [writeFileAt] with [exclusive]: linking fails when the name exists. *)
Definition write_exclusive (dir : gmap string Entry) (name content : string) (out : WriteOutcome)
    : gmap string Entry * bool :=
  match out with
  | Written =>
      match dir !! name with
      | Some _ => (dir, false)
      | None => (<[name := file content]> dir, true)
      end
  | Failed there tmp =>
      let dir' := leave_temp dir tmp in
      match dir !! name with
      | Some _ => (dir', false)
      | None => (if there then <[name := file content]> dir' else dir', false)
      end
  end.

Definition seq_at (c : Commit) (seq now : Z) : Commit :=
  {| c_Seq := seq; c_At := now; c_Kind := c_Kind c; c_Layer := c_Layer c; c_Round := c_Round c;
     c_Turn := c_Turn c; c_TurnKind := c_TurnKind c; c_Participant := c_Participant c;
     c_Attempt := c_Attempt c; c_ThroughSeq := c_ThroughSeq c; c_Output := c_Output c;
     c_Decision := c_Decision c; c_Status := c_Status c; c_Reason := c_Reason c |}.

Definition with_commits (s : RunStore) (d : option (gmap string Entry)) (l : bool) (x : commitIndex) : RunStore :=
  {| commits := d; files := files s; contract_file := contract_file s;
     loaded := l; idx := x; contract := contract s |}.

(** [AppendCommit]: the store afterwards and the commit with its number and
    time, or the error. *)
Definition AppendCommit (s : RunStore) (seq : Z) (c : Commit) (now : Z) (out : WriteOutcome)
    : RunStore * result Commit StoreError :=
  match loadIndexLocked s with
  | Err e => (s, Err e)
  | Ok s1 =>
      if negb (seq =? ix_last (idx s1) + 1) then (s1, Err (StaleSeq seq (ix_last (idx s1))))
      else match checkCommitLocked s1 c with
           | Err e => (s1, Err e)
           | Ok s2 =>
               let rec := seq_at c seq now in
               match marshalCommit rec with
               | None => (s2, Err NotMarshalled)
               | Some d =>
                   match commits s2 with
                   | None => (with_commits s2 None false (idx s2), Err WriteFailed)
                   | Some dir =>
                       let w := write_exclusive dir (commitRel seq) d out in
                       if w.2 then (with_commits s2 (Some w.1) (loaded s2) (add (idx s2) rec), Ok rec)
                       else (with_commits s2 (Some w.1) false (idx s2), Err WriteFailed)
                   end
               end
           end
  end.

(** A restart, or the handle dropped: nothing cached. *)
Definition reopen (s : RunStore) : RunStore :=
  {| commits := commits s; files := files s; contract_file := contract_file s;
     loaded := false; idx := newCommitIndex; contract := None |}.

Definition with_files (s : RunStore) (f : gmap string Entry) : RunStore :=
  {| commits := commits s; files := f; contract_file := contract_file s;
     loaded := loaded s; idx := idx s; contract := contract s |}.

(** How assembling an attempt directory ends: the directory with its request
    is renamed into place last, after an unreserved one there is removed. *)
Inductive AttemptWrite := AttemptWritten | AttemptUntouched | AttemptCleared | AttemptUnsynced.

Definition under (rel name : string) : bool := HasPrefix name (rel +:+ "/").

Definition clear_dir (f : gmap string Entry) (rel : string) : gmap string Entry :=
  filter (λ kv, under rel kv.1 = false) f.

(** [rewriteAttemptRequestLocked]; [Failed true] is a rename that happened and
    was not synced. *)
Definition rewriteAttemptRequestLocked (s : RunStore) (req : AttemptRequest) (rel d : string)
    (out : WriteOutcome) : RunStore * result unit StoreError :=
  if negb (rq_Resent req) || negb (rq_Attempt req =? latest (idx s) (rq_Layer req, rq_Turn req))
  then (s, Err AttemptReserved)
  else if bool_decide (rv_resent <$> ix_attempts (idx s) !! (rq_Layer req, rq_Turn req, rq_Attempt req) = Some true)
  then (s, Err AttemptResentOnce)
  else if statRegular s (join rel fileReply) then (s, Err HasReply)
  else match files s !! join rel fileReply with
       | Some _ => (s, Err WriteFailed)
       | None =>
           match out with
           | Written => (with_files s (<[join rel fileRequest := file d]> (files s)), Ok tt)
           | Failed there _ =>
               (if there then with_files s (<[join rel fileRequest := file d]> (files s)) else s, Err WriteFailed)
           end
       end.

(** [WriteAttemptRequest] *)
Definition WriteAttemptRequest (s : RunStore) (req : AttemptRequest) (aw : AttemptWrite) (out : WriteOutcome)
    : RunStore * result unit StoreError :=
  let rel := attemptRel (rq_Layer req) (rq_Turn req) (rq_Attempt req) in
  if bool_decide (rel = "") then (s, Err BadAttempt)
  else match marshalRequest req with
  | None => (s, Err NotMarshalled)
  | Some d =>
      match loadIndexLocked s with
      | Err e => (s, Err e)
      | Ok s1 =>
          if reserved (idx s1) (rq_Layer req) (rq_Turn req) (rq_Attempt req)
          then rewriteAttemptRequestLocked s1 req rel d out
          else
            let cleared := clear_dir (files s1) rel in
            let renamed := <[join rel fileRequest := file d]> cleared in
            match aw with
            | AttemptWritten => (with_files s1 renamed, Ok tt)
            | AttemptUntouched => (s1, Err WriteFailed)
            | AttemptCleared => (with_files s1 cleared, Err WriteFailed)
            | AttemptUnsynced => (with_files s1 renamed, Err WriteFailed)
            end
      end
  end.

(** [WriteAttemptReply] *)
Definition WriteAttemptReply (s : RunStore) (layerID turn : string) (attempt : Z) (reply : AttemptReply)
    (out : WriteOutcome) : RunStore * result unit StoreError :=
  let rel := attemptRel layerID turn attempt in
  if bool_decide (rel = "") then (s, Err BadAttempt)
  else match loadIndexLocked s with
  | Err e => (s, Err e)
  | Ok s1 =>
      if negb (reserved (idx s1) layerID turn attempt) then (s1, Err AttemptNotReserved)
      else if negb (statRegular s1 (join rel fileRequest)) then (s1, Err NoRequest)
      else match marshalReply reply with
      | None => (s1, Err NotMarshalled)
      | Some d =>
          match files s1 !! join rel fileReply, out with
          | Some _, _ => (s1, Err WriteFailed)
          | None, Written => (with_files s1 (<[join rel fileReply := file d]> (files s1)), Ok tt)
          | None, Failed there _ =>
              (if there then with_files s1 (<[join rel fileReply := file d]> (files s1)) else s1, Err WriteFailed)
          end
      end
  end.

(** ** Verifying the attempts before a run is opened *)

(** [verifyCommit] for an attempt. *)
Definition verifyAttempt (s : RunStore) (c : Commit) (repeat : bool) : bool :=
  let rel := attemptRel (c_Layer c) (c_Turn c) (c_Attempt c) in
  negb (bool_decide (rel = "")) &&
  (if repeat then is_ok (checkResend s rel) else statRegular s (join rel fileRequest)).

(** The loop of [verify] over the commits, for the attempts: [repeat] is that
    an earlier commit names the same attempt. *)
Fixpoint verify_attempts (s : RunStore) (seen : gset attemptKey) (cs : list Commit) : bool :=
  match cs with
  | [] => true
  | c :: rest =>
      if bool_decide (c_Kind c = CommitAttempt)
      then verifyAttempt s c (bool_decide (attempt_key c ∈ seen)) && verify_attempts s ({[attempt_key c]} ∪ seen) rest
      else verify_attempts s seen rest
  end.

(** ** Operations in sequence *)

Inductive StoreOp :=
| OpAppend (seq : Z) (c : Commit) (now : Z) (out : WriteOutcome)
| OpRequest (req : AttemptRequest) (aw : AttemptWrite) (out : WriteOutcome)
| OpReply (layer turn : string) (attempt : Z) (reply : AttemptReply) (out : WriteOutcome)
| OpReopen.

Definition run_op (s : RunStore) (op : StoreOp) : RunStore :=
  match op with
  | OpAppend seq c now out => (AppendCommit s seq c now out).1
  | OpRequest req aw out => (WriteAttemptRequest s req aw out).1
  | OpReply layer turn attempt reply out => (WriteAttemptReply s layer turn attempt reply out).1
  | OpReopen => reopen s
  end.

Definition run_ops (s : RunStore) (ops : list StoreOp) : RunStore := foldl run_op s ops.

(** A run's store as [CreateRun] makes it, its contract written. *)
Definition new_run (cfg : Config) (snap : Snapshot) : RunStore :=
  {| commits := Some ∅; files := ∅; contract_file := Ok (cfg, snap);
     loaded := false; idx := newCommitIndex; contract := None |}.

End store.

(** ** File names *)

Lemma commitRel_bytes seq : bytes (commitRel seq) = bytes (zero_pad commitSeqWidth seq) ++ bytes ".json".
Proof. unfold commitRel. apply bytes_app. Qed.

Lemma commitRel_inj x y : 0 ≤ x → 0 ≤ y → commitRel x = commitRel y → x = y.
Proof.
  intros Hx Hy H. apply (f_equal bytes) in H. rewrite !commitRel_bytes in H.
  apply app_inv_tail, bytes_inj in H. by apply zero_pad_inj in H.
Qed.

Definition max_commits : Z := 10 ^ Z.of_nat commitSeqWidth.

Lemma commitRel_split seq :
  0 ≤ seq < max_commits →
  take commitSeqWidth (bytes (commitRel seq)) = bytes (zero_pad commitSeqWidth seq) ∧
  drop commitSeqWidth (bytes (commitRel seq)) = bytes ".json" ∧
  String.length (commitRel seq) = (commitSeqWidth + 5)%nat.
Proof.
  intros Hs. pose proof (zero_pad_length commitSeqWidth seq Hs ltac:(unfold commitSeqWidth; lia)) as Hlen.
  rewrite <- bytes_length, commitRel_bytes, length_app, Hlen.
  split; [by apply take_app_length'|]. split; [by apply drop_app_length'|done].
Qed.

Lemma commitRel_pattern seq : 0 ≤ seq < max_commits → commitNamePattern (commitRel seq) = true.
Proof.
  intros Hs. destruct (commitRel_split seq Hs) as (H1 & H2 & H3). unfold commitNamePattern.
  rewrite H1, H2, H3, !bool_decide_true by done. rewrite andb_true_r. simpl.
  apply forallb_Forall. apply zero_pad_digits. lia.
Qed.

Lemma commitRel_not_temp seq : 0 ≤ seq → HasPrefix (commitRel seq) TempPrefix = false.
Proof.
  intros Hs. apply not_true_is_false. rewrite HasPrefix_bytes. intros (k & Hk).
  rewrite commitRel_bytes in Hk.
  assert (Hd : Forall (λ c, is_digit (byte_val c) = true) (bytes (zero_pad commitSeqWidth seq)))
    by by apply zero_pad_digits.
  assert (Hne : (0 < List.length (bytes (zero_pad commitSeqWidth seq)))%nat).
  { rewrite zero_pad_bytes, length_app, length_replicate by done. unfold commitSeqWidth. lia. }
  destruct (bytes (zero_pad commitSeqWidth seq)) as [|c l]; [simpl in Hne; lia|].
  injection Hk as -> _. by apply Forall_cons in Hd as [? _].
Qed.

Lemma commitRel_le x y : 0 ≤ x ≤ y → y < max_commits → String.le (commitRel x) (commitRel y).
Proof.
  intros Hx Hy. rewrite <- (of_bytes_bytes (commitRel x)), <- (of_bytes_bytes (commitRel y)), !commitRel_bytes.
  unfold max_commits in Hy.
  apply digits_name_le; [apply zero_pad_digits; lia..| |].
  - rewrite !zero_pad_length by (unfold commitSeqWidth in *; lia). done.
  - rewrite !zero_pad_value by lia. lia.
Qed.

(** *** The paths of attempts *)

Lemma valid_id_no_slash s : validID s = true → "/"%char ∉ bytes s.
Proof.
  unfold validID. destruct (bytes s) as [|c l]; [done|]. intros [Hc Hl]%andb_true_iff Hin.
  apply elem_of_cons in Hin as [<-|Hin]; [done|].
  apply forallb_Forall in Hl. rewrite Forall_forall in Hl. by specialize (Hl _ Hin).
Qed.

Lemma attemptRel_valid layer turn n :
  attemptRel layer turn n ≠ "" →
  validID layer = true ∧ validID turn = true ∧ 1 ≤ n ∧
  bytes (attemptRel layer turn n) =
    bytes "layers/" ++ bytes layer ++ "/"%char :: bytes "calls/" ++ bytes turn ++ "/"%char :: bytes (itoa n).
Proof.
  unfold attemptRel. case_if; [done|]. zb. intros _. repeat split; [done..|lia|].
  rewrite !bytes_app. done.
Qed.

Lemma join_bytes rel name : rel ≠ "" → bytes (join rel name) = bytes rel ++ "/"%char :: bytes name.
Proof. intros Hne. unfold join. rewrite bool_decide_false by done. by rewrite !bytes_app. Qed.

(** A file of one attempt is not under another's directory, and the same name
    is the same path only for the same attempt. *)
Lemma attempt_paths layer turn n layer' turn' n' name k :
  attemptRel layer turn n ≠ "" → attemptRel layer' turn' n' ≠ "" →
  bytes (join (attemptRel layer turn n) name) = bytes (attemptRel layer' turn' n') ++ "/"%char :: k →
  (layer, turn, n) = (layer', turn', n') ∧ bytes name = k.
Proof.
  intros H1 H2. rewrite join_bytes by done.
  destruct (attemptRel_valid _ _ _ H1) as (HL & HT & Hn & ->).
  destruct (attemptRel_valid _ _ _ H2) as (HL' & HT' & Hn' & ->).
  rewrite <- !app_assoc. intros H. apply app_inv_head in H. simpl in H.
  rewrite <- ?app_assoc in H. simpl in H. apply app_sep_inj_l in H as [Hl H]; [|by apply valid_id_no_slash..].
  change (bytes "calls/" ++ ?x) with ("c"%char :: "a"%char :: "l"%char :: "l"%char :: "s"%char :: "/"%char :: x) in H.
  injection H as H.
  rewrite <- ?app_assoc in H. simpl in H. apply app_sep_inj_l in H as [Ht H]; [|by apply valid_id_no_slash..].
  apply app_sep_inj_l in H as [Hi H].
  - split; [|done]. apply bytes_inj in Hl, Ht, Hi. apply itoa_inj in Hi. congruence.
  - intros Hin. pose proof (itoa_all_digits n ltac:(lia)) as Hd. rewrite Forall_forall in Hd.
    by specialize (Hd _ Hin).
  - intros Hin. pose proof (itoa_all_digits n' ltac:(lia)) as Hd. rewrite Forall_forall in Hd.
    by specialize (Hd _ Hin).
Qed.

Lemma request_path_inj l t n l' t' n' :
  attemptRel l t n ≠ "" → attemptRel l' t' n' ≠ "" →
  join (attemptRel l t n) fileRequest = join (attemptRel l' t' n') fileRequest → (l, t, n) = (l', t', n').
Proof.
  intros H1 H2 H. apply (f_equal bytes) in H. rewrite (join_bytes (attemptRel l' t' n')) in H by done.
  by apply attempt_paths in H as [? _].
Qed.

Lemma request_not_reply l t n l' t' n' :
  attemptRel l t n ≠ "" → attemptRel l' t' n' ≠ "" →
  join (attemptRel l t n) fileRequest ≠ join (attemptRel l' t' n') fileReply.
Proof.
  intros H1 H2 H. apply (f_equal bytes) in H. rewrite (join_bytes (attemptRel l' t' n')) in H by done.
  by apply attempt_paths in H as [_ ?].
Qed.

Lemma root_not_attempt l t n name : attemptRel l t n ≠ "" → join (attemptRel l t n) name ≠ fileRequest.
Proof.
  intros H1 H. apply (f_equal bytes) in H. rewrite join_bytes in H by done.
  destruct (attemptRel_valid _ _ _ H1) as (_ & _ & _ & Hb). by rewrite Hb in H.
Qed.

Lemma request_not_under l t n l' t' n' :
  attemptRel l t n ≠ "" → attemptRel l' t' n' ≠ "" → (l, t, n) ≠ (l', t', n') →
  under (attemptRel l' t' n') (join (attemptRel l t n) fileRequest) = false.
Proof.
  intros H1 H2 Hne. apply not_true_is_false. unfold under. rewrite HasPrefix_bytes. intros (k & Hk).
  rewrite bytes_app, <- app_assoc in Hk. by apply attempt_paths in Hk as [? _].
Qed.

Lemma root_not_under l t n : attemptRel l t n ≠ "" → under (attemptRel l t n) fileRequest = false.
Proof.
  intros H1. apply not_true_is_false. unfold under. rewrite HasPrefix_bytes. intros (k & Hk).
  rewrite bytes_app in Hk. destruct (attemptRel_valid _ _ _ H1) as (_ & _ & _ & Hb).
  rewrite Hb in Hk. done.
Qed.

(** ** Reading back what was written *)

Section readback.
Context `{GoRange, ForumCodec}.

Definition named (k : Z) (recs : list (Commit * string)) : list (string * Entry) :=
  imap (λ i p, (commitRel (k + Z.of_nat i + 1), file p.2)) recs.

(** The commit files of a log: each commit with its text. *)
Definition canon (recs : list (Commit * string)) : list (string * Entry) := named 0 recs.

Definition readable (k : Z) (recs : list (Commit * string)) : Prop :=
  ∀ i c d, recs !! i = Some (c, d) → unmarshalCommit d = Some c ∧ c_Seq c = k + Z.of_nat i + 1.

Lemma canon_snoc recs c d :
  canon (recs ++ [(c, d)]) = canon recs ++ [(commitRel (Z.of_nat (length recs) + 1), file d)].
Proof. unfold canon, named. rewrite imap_app. simpl. by rewrite Nat.add_0_r. Qed.

Lemma named_cons k c d recs : named k ((c, d) :: recs) = (commitRel (k + 1), file d) :: named (k + 1) recs.
Proof.
  unfold named. simpl. f_equal; [do 2 f_equal; lia|]. apply imap_ext. intros i p _. simpl.
  do 2 f_equal. lia.
Qed.

Lemma elem_of_canon recs x :
  x ∈ canon recs ↔ ∃ i c d, recs !! i = Some (c, d) ∧ x = (commitRel (Z.of_nat i + 1), file d).
Proof.
  unfold canon, named. rewrite elem_of_lookup_imap. split.
  - intros (i & [c d] & -> & Hi). exists i, c, d. done.
  - intros (i & c & d & Hi & ->). by exists i, (c, d).
Qed.

Lemma canon_NoDup recs : NoDup (canon recs).*1.
Proof.
  induction recs as [|[c d] recs IH] using rev_ind; [constructor|].
  rewrite canon_snoc, fmap_app. apply NoDup_app. split; [done|]. split; [|apply NoDup_singleton].
  intros n Hin ->%list_elem_of_singleton. apply list_elem_of_fmap in Hin as (x & Hn & Hx).
  apply elem_of_canon in Hx as (i & c' & d' & Hi & ->). simpl in Hn.
  apply lookup_lt_Some in Hi. apply commitRel_inj in Hn; lia.
Qed.

Lemma canon_sorted recs : Z.of_nat (length recs) < max_commits → StronglySorted name_le (canon recs).
Proof.
  induction recs as [|[c d] recs IH] using rev_ind; [constructor|].
  rewrite length_app. simpl. intros Hlen. rewrite canon_snoc. apply StronglySorted_app.
  split; [|split; [apply IH; lia|repeat constructor]].
  intros x y Hx ->%list_elem_of_singleton. apply elem_of_canon in Hx as (i & c' & d' & Hi & ->).
  apply lookup_lt_Some in Hi. apply commitRel_le; lia.
Qed.

Lemma canon_not_temp recs x : x ∈ canon recs → HasPrefix x.1 TempPrefix = false.
Proof. intros (i & c & d & _ & ->)%elem_of_canon. apply commitRel_not_temp. lia. Qed.

Definition not_temp (x : string * Entry) : bool := negb (HasPrefix x.1 TempPrefix).

Lemma read_entries_keep es : read_entries es = read_entries (keep not_temp es).
Proof.
  induction es as [|[name e] es IH]; [done|]. simpl.
  destruct (HasPrefix name TempPrefix) eqn:Hp; unfold not_temp at 1; simpl; rewrite Hp; simpl; [done|].
  rewrite Hp. destruct (negb _ || _); [done|]. destruct (data e); [|done].
  destruct (unmarshalCommit _); [|done]. case_if; [done|]. by rewrite IH.
Qed.

Lemma StronglySorted_keep {A} (R : relation A) p l : StronglySorted R l → StronglySorted R (keep p l).
Proof.
  induction 1 as [|x l Hs IH Hall]; simpl; [constructor|]. case_if; [|done]. constructor; [done|].
  rewrite Forall_forall in *. intros y [Hy _]%elem_of_keep. auto.
Qed.

Lemma name_le_total : Total name_le.
Proof. intros x y. unfold name_le. apply String.le_total. Qed.

Lemma name_le_trans : Transitive name_le.
Proof. intros x y z. unfold name_le. apply transitivity. Qed.

Definition commit_files (recs : list (Commit * string)) : gmap string Entry := list_to_map (canon recs).

Lemma commit_files_lookup recs n e : commit_files recs !! n = Some e ↔ (n, e) ∈ canon recs.
Proof. symmetry. apply elem_of_list_to_map, canon_NoDup. Qed.

(** The directory holds a log: every entry but the temporary ones. *)
Definition holds (dir : gmap string Entry) (recs : list (Commit * string)) : Prop :=
  ∀ name, HasPrefix name TempPrefix = false → dir !! name = commit_files recs !! name.

Lemma sorted_entries dir recs :
  holds dir recs → Z.of_nat (length recs) < max_commits →
  keep not_temp (merge_sort name_le (go_range dir)) = canon recs.
Proof.
  intros Hdir Hlen. pose proof name_le_total. pose proof name_le_trans.
  assert (Hin : ∀ x, x ∈ keep not_temp (merge_sort name_le (go_range dir)) ↔ x ∈ canon recs).
  { intros [name e]. rewrite elem_of_keep, merge_sort_Permutation, elem_of_go_range.
    rewrite <- commit_files_lookup. split.
    - intros [He Hnt%negb_true_iff]. by rewrite <- Hdir.
    - intros Hc. pose proof Hc as Hc2%commit_files_lookup%canon_not_temp.
      rewrite Hdir by done. unfold not_temp. by rewrite Hc2. }
  apply (StronglySorted_unique_strong name_le).
  - intros [n1 e1] [n2 e2] Hx1%Hin Hx2 Hle1 Hle2.
    assert (n1 = n2) as -> by (apply (anti_symm String.le); done).
    apply commit_files_lookup in Hx1, Hx2. congruence.
  - by apply StronglySorted_keep, StronglySorted_merge_sort.
  - by apply canon_sorted.
  - apply NoDup_Permutation; [|apply (NoDup_fmap_1 fst), canon_NoDup|done].
    eapply sublist_NoDup; [|apply keep_sublist]. rewrite merge_sort_Permutation.
    apply (NoDup_fmap_1 fst), go_range_NoDup.
Qed.

Lemma read_named k recs :
  0 ≤ k → k + Z.of_nat (length recs) < max_commits → readable k recs →
  read_entries (named k recs) = Ok recs.*1.
Proof.
  revert k. induction recs as [|[c d] recs IH]; intros k Hk Hlen Hr; [done|].
  simpl length in Hlen. rewrite named_cons. cbn [read_entries].
  rewrite commitRel_not_temp by lia. rewrite commitRel_pattern by lia. simpl.
  destruct (Hr 0%nat c d eq_refl) as [-> Hs].
  destruct (commitRel_split (k + 1)) as (-> & _ & _); [lia|]. rewrite zero_pad_value by lia.
  destruct (c_Seq c =? k + 1) eqn:E; zb; [|lia]. simpl. rewrite IH; [done|lia|lia|].
  intros i c' d' Hi. destruct (Hr (S i) c' d' Hi) as [? ?]. split; [done|lia].
Qed.

Lemma check_gaps_readable k recs : readable k recs → check_gaps (k + 1) recs.*1 = Ok tt.
Proof.
  revert k. induction recs as [|[c d] recs IH]; intros k Hr; [done|]. simpl.
  destruct (Hr 0%nat c d eq_refl) as [_ Hs]. destruct (c_Seq c =? k + 1) eqn:E; zb; [|lia]. simpl.
  apply IH. intros i c' d' Hi. destruct (Hr (S i) c' d' Hi) as [? ?]. split; [done|lia].
Qed.

Lemma ReadCommits_holds s dir recs :
  commits s = Some dir → holds dir recs → readable 0 recs → Z.of_nat (length recs) < max_commits →
  ReadCommits s = Ok recs.*1.
Proof.
  intros Hd Hh Hr Hlen. unfold ReadCommits. rewrite Hd, read_entries_keep, sorted_entries with (recs := recs) by done.
  unfold canon. rewrite read_named by (done || lia). simpl. by rewrite (check_gaps_readable 0).
Qed.

End readback.

(** ** The invariant of a run's store *)

Section invariant.
Context `{GoRange, ForumCodec} (cfg : Config) (snap : Snapshot).

(** The files of a reserved attempt. *)
Definition has_request (fs : gmap string Entry) (k : attemptKey) (resent : bool) : Prop :=
  attemptRel k.1.1 k.1.2 k.2 ≠ "" ∧
  ∃ d req, fs !! join (attemptRel k.1.1 k.1.2 k.2) fileRequest = Some (file d) ∧
    unmarshalRequest d = Some req ∧ (resent = true → rq_Resent req = true).

Definition requests_decode (fs : gmap string Entry) : Prop :=
  fs !! fileRequest = None ∧
  ∀ l t n e, attemptRel l t n ≠ "" → fs !! join (attemptRel l t n) fileRequest = Some e →
    ∃ d req, e = file d ∧ unmarshalRequest d = Some req.

(** Every commit passed the check against those before it. *)
Definition checked (log : list Commit) : Prop :=
  ∀ i c, log !! i = Some c → checkCommit cfg snap (index_of (take i log)) c = Ok tt.

Record store_inv (s : RunStore) (recs : list (Commit * string)) : Prop := {
  si_dir : ∃ dir, commits s = Some dir ∧ holds dir recs;
  si_readable : readable 0 recs;
  si_checked : checked recs.*1;
  si_index : loaded s = true → idx s = index_of recs.*1;
  si_contract : contract_file s = Ok (cfg, snap) ∧ (contract s = None ∨ contract s = Some (cfg, snap));
  si_decode : requests_decode (files s);
  si_reserved k r : ix_attempts (index_of recs.*1) !! k = Some r → has_request (files s) k (rv_resent r)
}.

Lemma index_last recs : readable 0 recs → ix_last (index_of recs.*1) = Z.of_nat (length recs).
Proof.
  intros Hr. induction recs as [|[c d] recs IH] using rev_ind; [done|].
  rewrite fmap_app. change ([(c, d)].*1) with [c]. rewrite index_of_snoc.
  destruct (Hr (length recs) c d) as [_ Hs]; [by apply list_lookup_middle|].
  rewrite length_app. simpl. unfold add. destruct (c_Kind c); simpl; lia.
Qed.

Lemma ReadCommits_inv s recs :
  store_inv s recs → Z.of_nat (length recs) < max_commits → ReadCommits s = Ok recs.*1.
Proof. intros [(dir & Hd & Hh) Hr _ _ _ _ _] Hlen. by eapply ReadCommits_holds. Qed.

(** Only the log's files, the attempts' files and the cached index count. *)
Lemma store_inv_same s s' recs :
  store_inv s recs → commits s' = commits s → files s' = files s →
  contract_file s' = contract_file s →
  (loaded s' = true → idx s' = index_of recs.*1) →
  (contract s' = None ∨ contract s' = Some (cfg, snap)) → store_inv s' recs.
Proof.
  intros [Hd Hr Hc Hi [Hcf _] Hdec Hres] H1 H2 H3 H4 H5.
  split; rewrite ?H1, ?H2, ?H3; auto.
Qed.

Lemma loadIndexLocked_inv s recs :
  store_inv s recs → Z.of_nat (length recs) < max_commits →
  ∃ s1, loadIndexLocked s = Ok s1 ∧ store_inv s1 recs ∧ loaded s1 = true ∧
    idx s1 = index_of recs.*1 ∧ files s1 = files s ∧ commits s1 = commits s.
Proof.
  intros Hinv Hlen. unfold loadIndexLocked. destruct (loaded s) eqn:Hl.
  - exists s. pose proof (si_index _ _ Hinv Hl). by split_and!.
  - rewrite (ReadCommits_inv s recs) by done. eexists. split; [done|]. simpl.
    split; [|done]. apply (store_inv_same s); try done. by destruct (si_contract _ _ Hinv).
Qed.

Lemma reopen_inv s recs : store_inv s recs → store_inv (reopen s) recs.
Proof. intros Hinv. apply (store_inv_same s); try done. by left. Qed.

(** *** Appending *)

Lemma statRegular_entry s rel : statRegular s rel = true → ∃ e, files s !! rel = Some e ∧ regular e = true.
Proof. unfold statRegular. destruct (files s !! rel); [eauto|done]. Qed.

Lemma checkResend_ok s rel :
  checkResend s rel = Ok tt →
  ∃ e d req, files s !! join rel fileRequest = Some e ∧ data e = Some d ∧
    unmarshalRequest d = Some req ∧ rq_Resent req = true.
Proof.
  unfold checkResend. destruct (files s !! join rel fileRequest) as [e|]; [|done].
  destruct (regular e); [|done]. destruct (data e) as [d|] eqn:Hd; [|done].
  destruct (unmarshalRequest d) as [req|] eqn:Hu; [|done]. destruct (rq_Resent req) eqn:Hr; [|done].
  intros _. by exists e, d, req.
Qed.

Lemma contractLocked_inv s recs :
  store_inv s recs → loaded s = true →
  ∃ s', contractLocked s = Ok (s', (cfg, snap)) ∧ store_inv s' recs ∧ loaded s' = true ∧
    idx s' = idx s ∧ files s' = files s ∧ commits s' = commits s.
Proof.
  intros Hinv Hl. pose proof (si_contract _ _ Hinv) as [Hcf Hc]. unfold contractLocked.
  destruct (contract s) as [c|] eqn:E.
  - destruct Hc as [?|[= ->]]; [done|]. exists s. by split_and!.
  - rewrite Hcf. eexists. split; [done|]. split; [|done].
    apply (store_inv_same s); try done; [apply Hinv|by right].
Qed.

Lemma checkCommitLocked_inv s recs c :
  store_inv s recs → loaded s = true →
  match checkCommitLocked s c with
  | Err _ => True
  | Ok s' =>
      store_inv s' recs ∧ loaded s' = true ∧ commits s' = commits s ∧
      checkCommit cfg snap (index_of recs.*1) c = Ok tt ∧
      (∀ k r, ix_attempts (add (index_of recs.*1) c) !! k = Some r → has_request (files s') k (rv_resent r))
  end.
Proof.
  intros Hinv Hl. pose proof (si_index _ _ Hinv Hl) as Hidx.
  destruct (contractLocked_inv s recs Hinv Hl) as (s' & HC & Hinv' & Hl' & Hi' & Hf' & Hd').
  unfold checkCommitLocked. rewrite HC. simpl. rewrite Hi', Hidx.
  destruct (checkCommit cfg snap (index_of recs.*1) c) as [[]|] eqn:Hck; [|done].
  case_bool_decide as Hk.
  - case_if; [done|]. zb. rename Heqb into Hst. apply statRegular_entry in Hst as (e & He & _).
    assert (Hrel : attemptRel (c_Layer c) (c_Turn c) (c_Attempt c) ≠ "").
    { intros E. unfold join in He. rewrite bool_decide_true in He by done.
      destruct (si_decode _ _ Hinv') as [Hroot _]. congruence. }
    destruct (proj2 (si_decode _ _ Hinv') _ _ _ _ Hrel He) as (d & req & -> & Hu).
    destruct (reserved (index_of recs.*1) (c_Layer c) (c_Turn c) (c_Attempt c)) eqn:Hres.
    + destruct (checkResend s' (attemptRel (c_Layer c) (c_Turn c) (c_Attempt c))) as [[]|] eqn:Hcr; [|done].
      apply checkResend_ok in Hcr as (e2 & d2 & req2 & He2 & Hd2 & Hu2 & Hr2). simpl.
      rewrite He in He2. injection He2 as <-. injection Hd2 as <-.
      case_if; [done|]. split_and!; [done..|]. intros k r. unfold add. rewrite Hk. simpl.
      rewrite lookup_insert_Some. intros [[<- <-]|[_ Hr]]; [|by eapply si_reserved].
      split; [done|]. exists d, req2. auto.
    + split_and!; [done..|]. intros k r. unfold add. rewrite Hk. simpl.
      rewrite lookup_insert_Some. intros [[<- <-]|[_ Hr]]; [|by eapply si_reserved].
      apply bool_decide_eq_false in Hres. destruct (ix_attempts _ !! attempt_key c) eqn:E; [by destruct Hres|].
      split; [done|]. by exists d, req.
  - split_and!; [done..|]. intros k r Hr. eapply si_reserved; [done|].
    unfold add in Hr. destruct (c_Kind c); done.
Qed.

Lemma commit_files_snoc recs c d :
  commit_files (recs ++ [(c, d)]) = <[commitRel (Z.of_nat (length recs) + 1) := file d]> (commit_files recs).
Proof.
  unfold commit_files. rewrite canon_snoc. apply list_to_map_snoc.
  intros Hin. pose proof (canon_NoDup (recs ++ [(c, d)])) as Hnd.
  rewrite canon_snoc, fmap_app in Hnd. apply NoDup_app in Hnd as (_ & Hd & _).
  apply (Hd _ Hin). set_solver.
Qed.

Lemma new_name_free dir recs :
  holds dir recs → dir !! commitRel (Z.of_nat (length recs) + 1) = None.
Proof.
  intros Hh. rewrite Hh by (apply commitRel_not_temp; lia).
  apply not_elem_of_list_to_map_1. intros Hin.
  pose proof (canon_NoDup (recs ++ [(a_commit 0 NoKind "" 0 "", "")])) as Hnd.
  rewrite canon_snoc, fmap_app in Hnd. apply NoDup_app in Hnd as (_ & Hd & _).
  apply (Hd _ Hin). set_solver.
Qed.

Lemma leave_temp_holds dir recs tmp : holds dir recs → holds (leave_temp dir tmp) recs.
Proof.
  intros Hh name Hn. destruct tmp as [[u x]|]; simpl; [|by apply Hh].
  rewrite lookup_insert_ne; [by apply Hh|]. intros <-.
  assert (HasPrefix (TempPrefix +:+ u) TempPrefix = true); [|congruence].
  apply HasPrefix_bytes. exists (bytes u). apply bytes_app.
Qed.

Lemma insert_holds dir recs c d :
  holds dir recs → holds (<[commitRel (Z.of_nat (length recs) + 1) := file d]> dir) (recs ++ [(c, d)]).
Proof.
  intros Hh name Hn. rewrite commit_files_snoc.
  destruct (decide (commitRel (Z.of_nat (length recs) + 1) = name)) as [->|Hne].
  - by rewrite !lookup_insert_eq.
  - rewrite !lookup_insert_ne by done. by apply Hh.
Qed.

Lemma write_exclusive_holds dir recs c d out :
  holds dir recs →
  let w := write_exclusive dir (commitRel (Z.of_nat (length recs) + 1)) d out in
  if w.2 then holds w.1 (recs ++ [(c, d)]) else holds w.1 recs ∨ holds w.1 (recs ++ [(c, d)]).
Proof.
  intros Hh. unfold write_exclusive. rewrite (new_name_free dir recs Hh).
  destruct out as [|[] tmp]; simpl; auto using insert_holds, leave_temp_holds.
Qed.

Lemma add_seq_at ix c seq now : ix_attempts (add ix (seq_at c seq now)) = ix_attempts (add ix c).
Proof. unfold add. simpl. by destruct (c_Kind c). Qed.

Lemma extend_inv s recs c seq now d dir l x :
  store_inv s recs → seq = Z.of_nat (length recs) + 1 →
  checkCommit cfg snap (index_of recs.*1) c = Ok tt →
  (∀ k r, ix_attempts (add (index_of recs.*1) c) !! k = Some r → has_request (files s) k (rv_resent r)) →
  unmarshalCommit d = Some (seq_at c seq now) →
  holds dir (recs ++ [(seq_at c seq now, d)]) →
  (l = true → x = add (index_of recs.*1) (seq_at c seq now)) →
  store_inv (with_commits s (Some dir) l x) (recs ++ [(seq_at c seq now, d)]).
Proof.
  intros Hinv Hseq Hck Hatt Hu Hh Hx.
  assert (Hlog : (recs ++ [(seq_at c seq now, d)]).*1 = recs.*1 ++ [seq_at c seq now]) by by rewrite fmap_app.
  split.
  - by exists dir.
  - intros i c' d' [Hi|[-> [= -> ->]]]%lookup_snoc_inv; [by eapply si_readable|]. split; [done|]. simpl. lia.
  - rewrite Hlog. intros i c' [Hi|[-> ->]]%lookup_snoc_inv.
    + rewrite take_app_le by (apply lookup_lt_Some in Hi; lia). by eapply si_checked.
    + by rewrite take_app_length.
  - simpl. rewrite Hlog, index_of_snoc. done.
  - apply (si_contract _ _ Hinv).
  - apply (si_decode _ _ Hinv).
  - rewrite Hlog, index_of_snoc, add_seq_at. exact Hatt.
Qed.

Definition commit_encodes (c : Commit) : Prop := ∀ d, marshalCommit c = Some d → unmarshalCommit d = Some c.

Lemma AppendCommit_spec s recs seq c now out :
  store_inv s recs → Z.of_nat (length recs) + 1 < max_commits → commit_encodes (seq_at c seq now) →
  let r := AppendCommit s seq c now out in
  match r.2 with
  | Ok rec => rec = seq_at c seq now ∧ seq = Z.of_nat (length recs) + 1 ∧ ∃ d, store_inv r.1 (recs ++ [(rec, d)])
  | Err _ => store_inv r.1 recs ∨
      (seq = Z.of_nat (length recs) + 1 ∧ ∃ d, store_inv r.1 (recs ++ [(seq_at c seq now, d)]))
  end.
Proof.
  intros Hinv Hlen Henc. unfold AppendCommit.
  destruct (loadIndexLocked_inv s recs Hinv ltac:(lia)) as (s1 & -> & Hinv1 & Hl1 & Hi1 & _).
  rewrite Hi1, index_last by apply Hinv1. case_if; [by left|]. zb.
  pose proof (checkCommitLocked_inv s1 recs c Hinv1 Hl1) as Hck.
  destruct (checkCommitLocked s1 c) as [s2|e]; [|by left].
  destruct Hck as (Hinv2 & Hl2 & Hd2 & Hck & Hatt).
  destruct (marshalCommit (seq_at c seq now)) as [d|] eqn:Hm; [|by left].
  destruct (si_dir _ _ Hinv2) as (dir & Hdir & Hh). rewrite Hdir.
  pose proof (write_exclusive_holds dir recs (seq_at c seq now) d out Hh) as Hw. subst seq.
  cbv zeta in Hw. destruct (write_exclusive dir _ d out) as [dir' ok]. simpl in *.
  pose proof (si_index _ _ Hinv2 Hl2) as Hi2. specialize (Henc d Hm).
  destruct ok; simpl.
  - split_and!; [done..|]. exists d. apply extend_inv; try done. by rewrite Hi2.
  - destruct Hw as [Hw|Hw]; [left|right; split; [done|]; exists d; by apply extend_inv].
    split; try apply Hinv2; [by exists dir'|done].
Qed.

(** *** Attempts *)

Definition request_encodes (req : AttemptRequest) : Prop :=
  ∀ d, marshalRequest req = Some d → unmarshalRequest d = Some req.

Lemma files_inv s recs fs :
  store_inv s recs → requests_decode fs →
  (∀ k r, ix_attempts (index_of recs.*1) !! k = Some r → has_request fs k (rv_resent r)) →
  store_inv (with_files s fs) recs.
Proof. intros [] Hdec Hres. by split. Qed.

(** Writing one request leaves the others. *)
Lemma insert_request_decode fs l t n req d :
  attemptRel l t n ≠ "" → unmarshalRequest d = Some req →
  requests_decode fs → requests_decode (<[join (attemptRel l t n) fileRequest := file d]> fs).
Proof.
  intros Hrel Hu [Hroot Hdec]. split.
  - rewrite lookup_insert_ne; [done|]. by apply root_not_attempt.
  - intros l' t' n' e Hrel'. rewrite lookup_insert_Some. intros [[_ <-]|[_ He]]; eauto.
Qed.

Lemma insert_request_other fs l t n d k b :
  attemptRel l t n ≠ "" → (l, t, n) ≠ k →
  has_request fs k b → has_request (<[join (attemptRel l t n) fileRequest := file d]> fs) k b.
Proof.
  intros Hrel Hne (Hk & d' & req & He & Hu). split; [done|]. exists d', req. split; [|done].
  rewrite lookup_insert_ne; [done|]. intros Hp. apply Hne. destruct k as [[l' t'] n']. by apply request_path_inj.
Qed.

Lemma insert_reply_inv s recs l t n d :
  store_inv s recs → attemptRel l t n ≠ "" →
  store_inv (with_files s (<[join (attemptRel l t n) fileReply := file d]> (files s))) recs.
Proof.
  intros Hinv Hrel. pose proof (si_decode _ _ Hinv) as [Hroot Hdec].
  apply files_inv; [done| |].
  - split; [rewrite lookup_insert_ne; [done|by apply root_not_attempt]|].
    intros l' t' n' e Hrel'. rewrite lookup_insert_ne; [by apply Hdec|]. symmetry. by apply request_not_reply.
  - intros k r Hr. destruct (si_reserved _ _ Hinv k r Hr) as (Hk & d' & req & He & Hu).
    split; [done|]. exists d', req. split; [|done]. rewrite lookup_insert_ne; [done|].
    symmetry. by apply request_not_reply.
Qed.

Lemma clear_dir_inv s recs l t n :
  store_inv s recs → attemptRel l t n ≠ "" →
  reserved (index_of recs.*1) l t n = false →
  store_inv (with_files s (clear_dir (files s) (attemptRel l t n))) recs.
Proof.
  intros Hinv Hrel Hres. pose proof (si_decode _ _ Hinv) as [Hroot Hdec].
  apply files_inv; [done| |].
  - split.
    + apply map_lookup_filter_None. by left.
    + intros l' t' n' e Hrel' [He _]%map_lookup_filter_Some. eauto.
  - intros k r Hr. destruct (si_reserved _ _ Hinv k r Hr) as (Hk & d' & req & He & Hu).
    split; [done|]. exists d', req. split; [|done]. apply map_lookup_filter_Some. split; [done|].
    simpl. destruct k as [[l' t'] n']. apply request_not_under; [done..|]. intros [= -> -> ->].
    apply bool_decide_eq_false in Hres. apply Hres. by exists r.
Qed.

Lemma insert_new_request_inv s recs req d :
  store_inv s recs → attemptRel (rq_Layer req) (rq_Turn req) (rq_Attempt req) ≠ "" →
  unmarshalRequest d = Some req →
  (rq_Resent req = true ∨ reserved (index_of recs.*1) (rq_Layer req) (rq_Turn req) (rq_Attempt req) = false) →
  store_inv (with_files s
    (<[join (attemptRel (rq_Layer req) (rq_Turn req) (rq_Attempt req)) fileRequest := file d]> (files s))) recs.
Proof.
  intros Hinv Hrel Hu Hor. apply files_inv; [done| |].
  - eapply insert_request_decode; [done..|]. by apply Hinv.
  - intros k r Hr. destruct (decide ((rq_Layer req, rq_Turn req, rq_Attempt req) = k)) as [<-|Hne].
    + split; [done|]. exists d, req. rewrite lookup_insert_eq. split_and!; [done..|].
      intros _. destruct Hor as [?|Hres]; [done|]. apply bool_decide_eq_false in Hres.
      destruct Hres. by exists r.
    + apply insert_request_other; [done..|]. by eapply si_reserved.
Qed.

Lemma WriteAttemptRequest_inv s recs req aw out :
  store_inv s recs → Z.of_nat (length recs) < max_commits → request_encodes req →
  store_inv (WriteAttemptRequest s req aw out).1 recs.
Proof.
  intros Hinv Hlen Henc. unfold WriteAttemptRequest. case_bool_decide as Hrel; [done|].
  destruct (marshalRequest req) as [d|] eqn:Hm; [|done]. specialize (Henc d Hm).
  destruct (loadIndexLocked_inv s recs Hinv Hlen) as (s1 & -> & Hinv1 & Hl1 & Hi1 & _).
  rewrite Hi1. case_if.
  - unfold rewriteAttemptRequestLocked. case_if; [done|]. zb.
    repeat (case_if; [done|]). destruct (files s1 !! _); [done|].
    destruct out as [|[] tmp]; simpl; auto using insert_new_request_inv.
  - destruct aw; simpl; [| done | by apply clear_dir_inv|].
    all: apply (insert_new_request_inv (with_files s1 (clear_dir (files s1) _)) recs req d);
      auto using clear_dir_inv.
Qed.

Lemma WriteAttemptReply_inv s recs l t n reply out :
  store_inv s recs → Z.of_nat (length recs) < max_commits →
  store_inv (WriteAttemptReply s l t n reply out).1 recs.
Proof.
  intros Hinv Hlen. unfold WriteAttemptReply. case_bool_decide as Hrel; [done|].
  destruct (loadIndexLocked_inv s recs Hinv Hlen) as (s1 & -> & Hinv1 & _).
  case_if; [done|]. case_if; [done|]. destruct (marshalReply reply) as [d|]; [|done].
  destruct (files s1 !! _); [done|].
  destruct out as [|[] tmp]; simpl; auto using insert_reply_inv.
Qed.

Definition op_encodes (op : StoreOp) : Prop :=
  match op with
  | OpAppend seq c now _ => commit_encodes (seq_at c seq now)
  | OpRequest req _ _ => request_encodes req
  | _ => True
  end.

Lemma run_op_inv s recs op :
  store_inv s recs → Z.of_nat (length recs) + 1 < max_commits → op_encodes op →
  ∃ recs', store_inv (run_op s op) recs' ∧ recs `prefix_of` recs' ∧ (length recs' ≤ length recs + 1)%nat.
Proof.
  intros Hinv Hlen Henc. destruct op as [seq c now out|req aw out|l t n reply out|]; simpl in *.
  - pose proof (AppendCommit_spec s recs seq c now out Hinv Hlen Henc) as Hspec. simpl in Hspec.
    assert (Happ : ∀ x : Commit * string, (length (recs ++ [x]) ≤ length recs + 1)%nat)
      by (intros x; rewrite length_app; simpl; lia).
    destruct (AppendCommit s seq c now out).2 as [rec|e].
    + destruct Hspec as (_ & _ & d & Hs). eauto using prefix_app_r.
    + destruct Hspec as [Hs|(_ & d & Hs)]; [exists recs; split_and!; [done|done|lia]|eauto using prefix_app_r].
  - exists recs. split_and!; [|done|lia]. apply WriteAttemptRequest_inv; (done || lia).
  - exists recs. split_and!; [|done|lia]. apply WriteAttemptReply_inv; (done || lia).
  - exists recs. split_and!; [|done|lia]. by apply reopen_inv.
Qed.

Lemma new_run_inv : store_inv (new_run cfg snap) [].
Proof.
  split; try done.
  - exists ∅. split; [done|]. intros name _. done.
  - split; [done|]. by left.
Qed.

Lemma run_ops_inv ops :
  Z.of_nat (length ops) < max_commits → Forall op_encodes ops →
  ∃ recs, store_inv (run_ops (new_run cfg snap) ops) recs ∧ (length recs ≤ length ops)%nat.
Proof.
  induction ops as [|op ops IH] using rev_ind; intros Hlen Henc.
  - exists []. split; [apply new_run_inv|done].
  - rewrite length_app in Hlen. simpl in Hlen. apply Forall_app in Henc as [Henc [Hop _]%Forall_cons].
    destruct (IH ltac:(lia) Henc) as (recs & Hinv & Hle).
    unfold run_ops. rewrite foldl_app. simpl. fold (run_ops (new_run cfg snap) ops).
    destruct (run_op_inv _ recs op Hinv) as (recs' & Hinv' & _ & Hle'); [lia|done|].
    exists recs'. split; [done|]. rewrite length_app. simpl. lia.
Qed.

(** *** The check before a run is opened *)

Lemma index_resent log k r :
  ix_attempts (index_of log) !! k = Some r → rv_resent r = (2 <=? count (reserves k) log).
Proof.
  revert r. induction log as [|c log IH] using rev_ind; intros r; [done|].
  rewrite index_of_snoc, count_snoc. unfold add, reserves at 2.
  pose proof (count_nonneg (reserves k) log) as H0'.
  destruct (c_Kind c) eqn:Hk; simpl; try (rewrite Z.add_0_r; apply IH).
  destruct (decide (attempt_key c = k)) as [Hkey|Hne].
  - rewrite Hkey, lookup_insert_eq, bool_decide_true by done. intros [= <-].
    destruct (ix_attempts (index_of log) !! k) as [r0|] eqn:E; simpl.
    + assert (is_Some (ix_attempts (index_of log) !! k)) as Hp by by exists r0.
      apply index_reserved in Hp. symmetry. apply Z.leb_le. lia.
    + assert (¬ 0 < count (reserves k) log) as Hz.
      { intros Hp. apply index_reserved in Hp as [r' Hr']. congruence. }
      symmetry. apply Z.leb_gt. lia.
  - rewrite lookup_insert_ne, bool_decide_false by done. rewrite Z.add_0_r. apply IH.
Qed.

Lemma verifyAttempt_inv s recs pre c post :
  store_inv s recs → recs.*1 = pre ++ c :: post → c_Kind c = CommitAttempt →
  verifyAttempt s c (bool_decide (0 < count (reserves (attempt_key c)) pre)) = true.
Proof.
  intros Hinv Hlog Hk.
  assert (Hown : reserves (attempt_key c) c = true) by (unfold reserves; by rewrite !bool_decide_true).
  assert (Hcount : count (reserves (attempt_key c)) pre + 1 ≤ count (reserves (attempt_key c)) recs.*1).
  { rewrite Hlog. unfold count. rewrite keep_app, length_app. simpl. rewrite Hown. simpl. lia. }
  pose proof (count_nonneg (reserves (attempt_key c)) pre) as Hpos.
  assert (is_Some (ix_attempts (index_of recs.*1) !! attempt_key c)) as [r Hr] by (apply index_reserved; lia).
  destruct (si_reserved _ _ Hinv _ _ Hr) as (Hrel & d & req & He & Hu & Hre). simpl in Hrel, He.
  unfold verifyAttempt. rewrite bool_decide_false by done. simpl. case_bool_decide as Hrep.
  - assert (rv_resent r = true) as Hrs by (rewrite (index_resent _ _ _ Hr); apply Z.leb_le; lia).
    unfold checkResend. rewrite He. simpl. rewrite Hu. by rewrite (Hre Hrs).
  - unfold statRegular. by rewrite He.
Qed.

Lemma verify_attempts_inv s recs pre post seen :
  store_inv s recs → recs.*1 = pre ++ post →
  (∀ k, k ∈ seen ↔ 0 < count (reserves k) pre) → verify_attempts s seen post = true.
Proof.
  intros Hinv. revert pre seen. induction post as [|c post IH]; intros pre seen Hlog Hseen; [done|].
  assert (Hlog' : recs.*1 = (pre ++ [c]) ++ post) by by rewrite <- app_assoc.
  simpl. case_bool_decide as Hk.
  - rewrite (bool_decide_ext _ _ (Hseen (attempt_key c))).
    rewrite (verifyAttempt_inv s recs pre c post) by done. simpl. apply (IH (pre ++ [c])); [done|].
    intros k. rewrite elem_of_union, elem_of_singleton, Hseen, count_snoc. unfold reserves at 3.
    pose proof (count_nonneg (reserves k) pre). rewrite (bool_decide_true (c_Kind c = _)) by done. simpl.
    case_bool_decide as Hkey; [|naive_solver lia]. split; [lia|]. by left.
  - apply (IH (pre ++ [c])); [done|]. intros k. rewrite Hseen, count_snoc. unfold reserves at 3.
    rewrite (bool_decide_false (c_Kind c = _)) by done. simpl. by rewrite Z.add_0_r.
Qed.

(** ** Theorems *)


(** An append either succeeds, and the log on disk grows by that commit
    under the expected number, or reports an error, and the log is unchanged
    unless the write failed after its file appeared, in which case it holds
    that commit. A caller whose number is not the next one changes nothing. *)
Theorem AppendCommit_atomic ops seq c now out :
  Z.of_nat (length ops) + 1 < max_commits → Forall op_encodes ops → commit_encodes (seq_at c seq now) →
  ∃ log log',
    ReadCommits (run_ops (new_run cfg snap) ops) = Ok log ∧
    ReadCommits (AppendCommit (run_ops (new_run cfg snap) ops) seq c now out).1 = Ok log' ∧
    (seq ≠ Z.of_nat (length log) + 1 → log' = log) ∧
    match (AppendCommit (run_ops (new_run cfg snap) ops) seq c now out).2 with
    | Ok rec => rec = seq_at c seq now ∧ log' = log ++ [rec]
    | Err _ => log' = log ∨ log' = log ++ [seq_at c seq now]
    end.
Proof.
  intros Hlen Henc Hc. destruct (run_ops_inv ops ltac:(lia) Henc) as (recs & Hinv & Hle).
  pose proof (AppendCommit_spec _ recs seq c now out Hinv ltac:(lia) Hc) as Hspec. simpl in Hspec.
  assert (Hread : ∀ s' r', store_inv s' r' → (length r' ≤ length recs + 1)%nat → ReadCommits s' = Ok r'.*1)
    by (intros s' r' Hs' Hl'; apply ReadCommits_inv; [done|lia]).
  assert (Hone : ∀ x : Commit * string, (length (recs ++ [x]) ≤ length recs + 1)%nat)
    by (intros x; rewrite length_app; simpl; lia).
  destruct (AppendCommit _ seq c now out) as [s' r]. simpl in *. exists recs.*1.
  assert (H0' : ReadCommits (run_ops (new_run cfg snap) ops) = Ok recs.*1) by (apply Hread; [done|lia]).
  rewrite length_fmap. destruct r as [rec|e].
  - destruct Hspec as (-> & -> & d & Hs). exists (recs ++ [(seq_at c (Z.of_nat (length recs) + 1) now, d)]).*1.
    split_and!; [done|auto|done|done|]. by rewrite fmap_app.
  - destruct Hspec as [Hs|(-> & d & Hs)].
    + exists recs.*1. split_and!; [done|apply Hread; [done|lia]|done|by left].
    + exists (recs ++ [(seq_at c (Z.of_nat (length recs) + 1) now, d)]).*1.
      split_and!; [done|auto|done|right; by rewrite fmap_app].
Qed.

End invariant.

(** ** A run with failing writes

    Records are written as their position in a table. *)

#[export] Instance AttemptRequest_eq_dec : EqDecision AttemptRequest.
Proof. solve_decision. Defined.

Fixpoint position {A} `{EqDecision A} (x : A) (l : list A) : option nat :=
  match l with
  | [] => None
  | y :: l' => if bool_decide (x = y) then Some 0%nat else S <$> position x l'
  end.

Definition table_codec (cs : list Commit) (rs : list AttemptRequest) : ForumCodec := {|
  marshalCommit c := (λ n, itoa (Z.of_nat n)) <$> position c cs;
  unmarshalCommit d := cs !! Z.to_nat (dec_value (bytes d));
  marshalRequest r := (λ n, itoa (Z.of_nat n)) <$> position r rs;
  unmarshalRequest d := rs !! Z.to_nat (dec_value (bytes d));
  marshalReply r := Some (rp_Text r);
  unmarshalReply d := Some {| ReceivedAt := 0; rp_Outcome := OutcomeOK; rp_Text := d; Issues := [] |}
|}.

Definition a_request (resent : bool) : AttemptRequest :=
  {| rq_Layer := "draft"; rq_Round := 1; rq_Turn := turnID 1 "ann"; rq_Attempt := 1;
     rq_Kind := TurnParticipant; rq_Participant := "ann"; rq_AgentID := "a"; SentAt := 0; WaitSeconds := 60;
     Repair := false; rq_Resent := resent; rq_ThroughSeq := 0; rq_Message := "hello" |}.

Definition sent_commits : list Commit :=
  [a_commit 1 CommitLaunched "" 0 ""; a_commit 2 CommitLayerStarted "draft" 0 "";
   an_attempt 3 "draft" 1 "ann" TurnParticipant; an_attempt 4 "draft" 1 "ann" TurnParticipant].

#[local] Instance demo_codec : ForumCodec := table_codec sent_commits [a_request false; a_request true].

(** The second commit's write fails with its file in place; the attempt is cut
    by a restart, its request rewritten and the attempt reserved again. *)
Definition demo_ops : list StoreOp :=
  [OpAppend 1 (a_commit 0 CommitLaunched "" 0 "") 101 Written;
   OpAppend 2 (a_commit 0 CommitLayerStarted "draft" 0 "") 102 (Failed true (Some ("1", "partial")));
   OpAppend 2 (a_commit 0 CommitLayerStarted "draft" 0 "") 102 Written;
   OpRequest (a_request false) AttemptWritten Written;
   OpAppend 3 (an_attempt 0 "draft" 1 "ann" TurnParticipant) 103 Written;
   OpReopen;
   OpRequest (a_request true) AttemptWritten Written;
   OpAppend 4 (an_attempt 0 "draft" 1 "ann" TurnParticipant) 104 Written].

Example demo_log : ReadCommits (run_ops (new_run a_config a_snapshot) demo_ops) = Ok sent_commits.
Proof. vm_compute. reflexivity. Qed.

Lemma demo_encodes : Forall op_encodes demo_ops.
Proof.
  repeat (apply Forall_cons; split); try exact I; try (apply Forall_nil; exact I).
  all: intros d; vm_compute; intros [= <-]; reflexivity.
Qed.


Lemma AppendCommit_atomic_witness :
  ∃ log log',
    ReadCommits (run_ops (new_run a_config a_snapshot) demo_ops) = Ok log ∧
    ReadCommits (AppendCommit (run_ops (new_run a_config a_snapshot) demo_ops) 9
                   (a_commit 0 CommitResumed "" 0 "") 105 Written).1 = Ok log' ∧ log' = log.
Proof.
  destruct (AppendCommit_atomic a_config a_snapshot demo_ops 9 (a_commit 0 CommitResumed "" 0 "") 105 Written)
    as (log & log' & H1 & H2 & H3 & _).
  - vm_compute. reflexivity.
  - exact demo_encodes.
  - intros d. vm_compute. discriminate.
  - exists log, log'. split; [exact H1|]. split; [exact H2|]. apply H3.
    assert (Hl : Ok (E:=StoreError) log = Ok sent_commits) by (rewrite <- H1; vm_compute; reflexivity).
    injection Hl as ->. discriminate.
Defined.

(** The log's file names have eight digits: the commit after 99,999,999 would
    get a name that [ReadCommits] refuses. *)
Example name_overflow : commitNamePattern (commitRel 100000000) = false.
Proof. vm_compute. reflexivity. Qed.
