(* ===== verification/ForumController.v ===== *)
(** * The controller of a run

    forum/controller.go: [commitWhen], the only way the state of a live run
    changes, the requests to pause and cancel, the end of a run, the limits and
    the reservation of an attempt (forum/turn.go, [reserve]), and what the
    service appends when it takes a run over (forum/control.go). The operations
    of a live controller are the steps of [ctl_step], each what the code does
    under one lock; a restart or a takeover opens the run from its store. The
    loops that decide which operation comes next ([runLayer], [perform]) are
    not needed for what is shown here: it holds for every order. *)

From stdpp Require Import base gmap strings list sets relations.
From Stdlib Require Import ZArith Lia Ascii.
From S2P Require Import Prelude GoString ForumConfig ForumLog ForumStore.

Open Scope Z_scope.

(** A controller. [ct_file] is state.json, [None] when it is missing or does
    not decode; [ct_reserving] is the attempt that passed the limits under
    [dispatchMu] and is not committed yet. *)
Record Ctl := {
  ct_store : RunStore;
  ct_file : option State;
  ct_state : State;
  ct_commits : list Commit;
  ct_exited : bool;
  ct_pause : bool;
  ct_cancel : bool;
  ct_reserving : option AttemptRequest
}.

Inductive CtlError :=
| Skip
| RunEnded
| InvalidState (s : Status)
| FoldRefused (e : LogError)
| AppendFailed (e : StoreError)
| StateNotWritten.

Definition with_store (c : Ctl) (s : RunStore) : Ctl :=
  {| ct_store := s; ct_file := ct_file c; ct_state := ct_state c; ct_commits := ct_commits c; ct_exited := ct_exited c;
     ct_pause := ct_pause c; ct_cancel := ct_cancel c; ct_reserving := ct_reserving c |}.

Definition with_flags (c : Ctl) (p x : bool) : Ctl :=
  {| ct_store := ct_store c; ct_file := ct_file c; ct_state := ct_state c; ct_commits := ct_commits c; ct_exited := ct_exited c;
     ct_pause := p; ct_cancel := x; ct_reserving := ct_reserving c |}.

Definition with_exited (c : Ctl) (b : bool) : Ctl :=
  {| ct_store := ct_store c; ct_file := ct_file c; ct_state := ct_state c; ct_commits := ct_commits c; ct_exited := b;
     ct_pause := ct_pause c; ct_cancel := ct_cancel c; ct_reserving := ct_reserving c |}.

Definition with_reserving (c : Ctl) (r : option AttemptRequest) : Ctl :=
  {| ct_store := ct_store c; ct_file := ct_file c; ct_state := ct_state c; ct_commits := ct_commits c; ct_exited := ct_exited c;
     ct_pause := ct_pause c; ct_cancel := ct_cancel c; ct_reserving := r |}.

Definition at_time (st : State) (t : Z) : State :=
  {| st_Status := st_Status st; st_Reason := st_Reason st; st_Seq := st_Seq st; st_Calls := st_Calls st;
     st_Layers := st_Layers st; UpdatedAt := t |}.

(** The times of the two clock readings and the outcomes of the writes of the
    commit and of state.json. *)
Record Writes := { w_trial : Z; w_now : Z; w_out : WriteOutcome; w_state : WriteOutcome }.

(** [WriteState]: the file replaced, or an error with or without it. *)
Definition WriteState (old : option State) (st : State) (out : WriteOutcome) : option State :=
  match out with
  | Written => Some st
  | Failed there _ => if there then Some st else old
  end.

Section controller.
Context `{GoRange, ForumCodec} (cfg : Config) (snap : Snapshot).

(** [commitWhen]; [guard] returns the error it refuses with. *)
Definition commitWhen (c : Ctl) (guard : Ctl → option CtlError) (commit : Commit) (after : Ctl → Ctl)
    (w : Writes) : Ctl * option CtlError :=
  match guard c with
  | Some e => (c, Some e)
  | None =>
      let trial := seq_at commit (st_Seq (ct_state c) + 1) (w_trial w) in
      match replayApply cfg (ct_state c) trial with
      | Err e => (c, Some (FoldRefused e))
      | Ok next =>
          let r := AppendCommit (ct_store c) (c_Seq trial) commit (w_now w) (w_out w) in
          match r.2 with
          | Err e => (with_store c r.1, Some (AppendFailed e))
          | Ok rec =>
              let st' := at_time next (c_At rec) in
              let c' := {| ct_store := r.1; ct_file := WriteState (ct_file c) st' (w_state w);
                           ct_state := st';
                           ct_commits := ct_commits c ++ [rec]; ct_exited := ct_exited c;
                           ct_pause := ct_pause c; ct_cancel := ct_cancel c;
                           ct_reserving := ct_reserving c |} in
              (after c', match w_state w with Written => None | Failed _ _ => Some StateNotWritten end)
          end
      end
  end.

Definition no_guard (c : Ctl) : option CtlError := None.

(** [statusIs] *)
Definition statusIs (want : Status) (c : Ctl) : option CtlError :=
  if bool_decide (st_Status (ct_state c) = want) then None else Some Skip.

(** [notCancelling] *)
Definition notCancelling (c : Ctl) : option CtlError :=
  if bool_decide (st_Status (ct_state c) = StatusCancelling) || Terminal (st_Status (ct_state c))
  then Some Skip else None.

(** A commit with only its kind set. *)
Definition kind_commit (k : CommitKind) : Commit :=
  {| c_Seq := 0; c_At := 0; c_Kind := k; c_Layer := ""; c_Round := 0; c_Turn := "";
     c_TurnKind := OtherTurnKind ""; c_Participant := ""; c_Attempt := 0; c_ThroughSeq := 0;
     c_Output := None; c_Decision := None; c_Status := OtherStatus ""; c_Reason := NoReason |}.

(** The guard of [RequestPause]. *)
Definition pause_guard (c : Ctl) : option CtlError :=
  if ct_exited c then Some RunEnded
  else match st_Status (ct_state c) with
       | StatusRunning => None
       | StatusPausing | StatusPaused => Some Skip
       | s => Some (InvalidState s)
       end.

(** [RequestPause] *)
Definition RequestPause (c : Ctl) (w : Writes) : Ctl * option CtlError :=
  commitWhen c pause_guard (kind_commit CommitPauseRequested) (λ c', with_flags c' true (ct_cancel c')) w.

(** The guard of [RequestCancel]. *)
Definition cancel_guard (c : Ctl) : option CtlError :=
  if ct_exited c then Some RunEnded
  else if Terminal (st_Status (ct_state c)) then Some (InvalidState (st_Status (ct_state c)))
  else if bool_decide (st_Status (ct_state c) = StatusCancelling) then Some Skip
  else None.

(** [RequestCancel]; cancelling the asks in flight has no state here. *)
Definition RequestCancel (c : Ctl) (w : Writes) : Ctl * option CtlError :=
  let r := commitWhen c cancel_guard (kind_commit CommitCancelRequested)
             (λ c', with_flags c' (ct_pause c') true) w in
  match r.2 with
  | None | Some Skip => (with_flags r.1 (ct_pause r.1) true, None)
  | Some e => (r.1, Some e)
  end.

Definition ended_commit (s : Status) (r : EndReason) : Commit :=
  {| c_Seq := 0; c_At := 0; c_Kind := CommitEnded; c_Layer := ""; c_Round := 0; c_Turn := "";
     c_TurnKind := OtherTurnKind ""; c_Participant := ""; c_Attempt := 0; c_ThroughSeq := 0;
     c_Output := None; c_Decision := None; c_Status := s; c_Reason := r |}.

(** The commit of [end]: a requested cancel dominates. *)
Definition end_commit (c : Ctl) (s : Status) (r : EndReason) : Commit :=
  if bool_decide (st_Status (ct_state c) = StatusCancelling) then ended_commit StatusCancelled EndCancelled
  else ended_commit s r.

(** [end], up to the result file. *)
Definition ctl_end (c : Ctl) (s : Status) (r : EndReason) (w : Writes) : Ctl * option CtlError :=
  commitWhen c (λ c, if Terminal (st_Status (ct_state c)) then Some Skip else None)
    (end_commit c s r) id w.

(** One turn of the loop of [settle]. *)
Definition settle (c : Ctl) (w : Writes) : Ctl * option CtlError :=
  match st_Status (ct_state c) with
  | StatusCancelling => ctl_end c StatusCancelled EndCancelled w
  | StatusPausing => commitWhen c (statusIs StatusPausing) (kind_commit CommitPaused) id w
  | _ => (c, None)
  end.

(** [interrupted] *)
Definition interrupted (c : Ctl) : bool := ct_pause c || ct_cancel c.

(** [checkLimits]; [NoReason] is the empty reason. *)
Definition checkLimits (c : Ctl) (layer : Layer) (pending now : Z) : EndReason :=
  if negb (now <? Deadline snap) then EndDeadline
  else if MaxCalls (sn_Limits snap) <? st_Calls (ct_state c) + pending then EndForumCallLimit
  else match st_Layers (ct_state c) !! l_ID layer with
       | Some ls =>
           if (0 <? l_MaxCalls layer) && (l_MaxCalls layer <? ls_Calls ls + pending) then EndCallLimit
           else NoReason
       | None => NoReason
       end.

(** [deadlinePassed] *)
Definition deadlinePassed (now : Z) : bool := negb (now <? Deadline snap).

(** [wait]: the configured timeout, cut at the deadline, never negative. *)
Definition wait (now : Z) : Z :=
  let timeout := CallTimeoutSeconds (sn_Limits snap) * GoTime.second in
  let left := GoTime.sub (Deadline snap) now in
  let cut := if left <? timeout then left else timeout in
  if cut <? 0 then 0 else cut.

(** The first half of [reserve], under [dispatchMu]: the flags, the limits and
    the request's file. *)
Definition reserve_check (c : Ctl) (layer : Layer) (req : AttemptRequest) (now : Z)
    (aw : AttemptWrite) (out : WriteOutcome) : Ctl * EndReason :=
  if interrupted c then (c, NoReason)
  else match checkLimits c layer 1 now with
       | NoReason =>
           let r := WriteAttemptRequest (ct_store c) req aw out in
           (with_reserving (with_store c r.1) (if is_ok r.2 then Some req else None), NoReason)
       | reason => (c, reason)
       end.

Definition attempt_commit (req : AttemptRequest) : Commit :=
  {| c_Seq := 0; c_At := 0; c_Kind := CommitAttempt; c_Layer := rq_Layer req; c_Round := rq_Round req;
     c_Turn := rq_Turn req; c_TurnKind := rq_Kind req; c_Participant := rq_Participant req;
     c_Attempt := rq_Attempt req; c_ThroughSeq := rq_ThroughSeq req; c_Output := None; c_Decision := None;
     c_Status := OtherStatus ""; c_Reason := NoReason |}.

(** The second half of [reserve]: the commit, only while the run is running. *)
Definition reserve_commit (c : Ctl) (req : AttemptRequest) (w : Writes) : Ctl * option CtlError :=
  let r := commitWhen c (statusIs StatusRunning) (attempt_commit req) id w in
  (with_reserving r.1 None, r.2).

(** [openForum], up to what the controller needs: [replayState] (the log
    replayed, state.json rewritten) and the log. *)
Definition open_ctl (s : RunStore) (f : option State) (out : WriteOutcome) : option State * option Ctl :=
  match ReadCommits s with
  | Err _ => (f, None)
  | Ok log =>
      match replay cfg snap log with
      | Err _ => (f, None)
      | Ok st =>
          let f' := WriteState f st out in
          (f', match out with
               | Written => Some {| ct_store := s; ct_file := f'; ct_state := st; ct_commits := log;
                                    ct_exited := false; ct_pause := false; ct_cancel := false;
                                    ct_reserving := None |}
               | Failed _ _ => None
               end)
      end
  end.

(** [loadState]: state.json when its number is the last commit's, else the
    log replayed. *)
Definition loadState (s : RunStore) (f : option State) : option State :=
  match ReadCommits s with
  | Err _ => None
  | Ok log =>
      let lastSeq := default 0 (c_Seq <$> last log) in
      match f with
      | Some cached =>
          if st_Seq cached =? lastSeq then Some cached
          else match replay cfg snap log with Ok st => Some st | Err _ => None end
      | None => match replay cfg snap log with Ok st => Some st | Err _ => None end
      end
  end.

(** The commit the service appends when it takes a run over: [resume] and
    [markLaunched]. *)
Definition takeover_commit (st : State) (resuming : bool) : option CommitKind :=
  match st_Status st with
  | StatusQueued => Some CommitLaunched
  | StatusPaused | StatusPausing => if resuming then Some CommitResumed else None
  | _ => None
  end.

(** Taking a run over: its state is loaded, the commit, if any, appended, and
    the run opened when the append succeeded. *)
Definition takeover (s : RunStore) (f : option State) (resuming : bool) (now : Z) (out fout : WriteOutcome)
    : RunStore * (option State * option Ctl) :=
  match loadState (reopen s) f with
  | None => (reopen s, (f, None))
  | Some st =>
      match takeover_commit st resuming with
      | None => (reopen s, open_ctl (reopen s) f fout)
      | Some k =>
          let r := AppendCommit (reopen s) (st_Seq st + 1) (kind_commit k) now out in
          (r.1, if is_ok r.2 then open_ctl r.1 f fout else (f, None))
      end
  end.

(** The commits the body of a run makes with the guard [notCancelling]: an
    output, a published round, a decision. *)
Definition publication (k : CommitKind) : bool :=
  match k with CommitTurn | CommitRoundPublished | CommitModerated => true | _ => false end.

(** The steps of a run: its controller's operations in any order, a run that
    exits and is called again, and a restart, after which it is taken over. *)
Inductive System :=
| Live (c : Ctl)
| Down (s : RunStore) (f : option State).

Definition store_of (x : System) : RunStore :=
  match x with Live c => ct_store c | Down s _ => s end.

Inductive ctl_step : System → System → Prop :=
| step_launch c w :
    ctl_step (Live c) (Live (commitWhen c (statusIs StatusQueued) (kind_commit CommitLaunched) id w).1)
| step_pause c w : ctl_step (Live c) (Live (RequestPause c w).1)
| step_cancel c w : ctl_step (Live c) (Live (RequestCancel c w).1)
| step_settle c w : ctl_step (Live c) (Live (settle c w).1)
| step_end c s r w : ctl_step (Live c) (Live (ctl_end c s r w).1)
| step_layer c k l r w :
    k = CommitLayerStarted ∨ k = CommitLayerEnded →
    ctl_step (Live c) (Live (commitWhen c no_guard
      {| c_Seq := 0; c_At := 0; c_Kind := k; c_Layer := l; c_Round := 0; c_Turn := "";
         c_TurnKind := OtherTurnKind ""; c_Participant := ""; c_Attempt := 0; c_ThroughSeq := 0;
         c_Output := None; c_Decision := None; c_Status := OtherStatus ""; c_Reason := r |} id w).1)
| step_publish c commit w :
    publication (c_Kind commit) = true →
    ctl_step (Live c) (Live (commitWhen c notCancelling commit id w).1)
| step_reserve_check c layer req now aw out :
    ct_reserving c = None → Config_Layer cfg (rq_Layer req) = Some layer →
    ctl_step (Live c) (Live (reserve_check c layer req now aw out).1)
| step_reserve_commit c req w :
    ct_reserving c = Some req → ctl_step (Live c) (Live (reserve_commit c req w).1)
| step_reply c l t n reply out :
    ctl_step (Live c) (Live (with_store c (WriteAttemptReply (ct_store c) l t n reply out).1))
| step_exit c b : ctl_step (Live c) (Live (with_exited c b))
| step_crash c : ctl_step (Live c) (Down (ct_store c) (ct_file c))
| step_takeover s f resuming now out fout :
    ctl_step (Down s f)
      (match (takeover s f resuming now out fout).2.2 with
       | Some c => Live c
       | None => Down (takeover s f resuming now out fout).1 (takeover s f resuming now out fout).2.1
       end).

End controller.

(** ** One commit *)

Section commit.
Context `{GoRange, ForumCodec} (cfg : Config) (snap : Snapshot).
Hypothesis commits_encode : ∀ c, commit_encodes c.
Hypothesis requests_encode : ∀ r, request_encodes r.

Lemma replayApply_at st c seq t1 t2 next :
  replayApply cfg st (seq_at c seq t1) = Ok next →
  replayApply cfg st (seq_at c seq t2) = Ok (at_time next t2).
Proof.
  unfold replayApply. simpl. case_if; [done|]. case_if; [done|].
  intros (named & -> & (st1 & Happ & [= <-])%let_ok_inv)%let_ok_inv.
  destruct (c_Kind c); simpl in *; try done;
    try (by unfold applyRunCommit in *; simpl in *; repeat case_match; simplify_eq).
  all: destruct named as [[ls layer]|]; [|done].
  all: apply let_ok_inv in Happ as ([ls' calls] & Happ & [= <-]).
  all: unfold applyLayerCommit in *; simpl in *; repeat case_match; simplify_eq; done.
Qed.

(** A state file holds the state of some prefix of the log. *)
Definition file_ok (f : option State) (log : list Commit) : Prop :=
  ∀ st, f = Some st → ∃ pre, pre `prefix_of` log ∧ replays cfg snap pre st.

Record live_inv (c : Ctl) (recs : list (Commit * string)) : Prop := {
  li_store : store_inv cfg snap (ct_store c) recs;
  li_log : ∃ extra, recs.*1 = ct_commits c ++ extra ∧ (length extra ≤ 1)%nat;
  li_state : replays cfg snap (ct_commits c) (ct_state c);
  li_disk : ∃ st, replays cfg snap recs.*1 st;
  li_file : file_ok (ct_file c) recs.*1
}.

Lemma file_ok_app f log c : file_ok f log → file_ok f (log ++ [c]).
Proof. intros Hf st Hst. destruct (Hf st Hst) as (pre & ? & ?). eauto using prefix_app_r. Qed.

Lemma WriteState_ok f log st out :
  file_ok f log → (∃ pre, pre `prefix_of` log ∧ replays cfg snap pre st) → file_ok (WriteState f st out) log.
Proof. intros Hf Hst st'. destruct out as [|[] tmp]; simpl; [by intros [= <-]..|apply Hf]. Qed.

(** What [commitWhen] may do: refuse, leaving the log and the state; or the
    log on disk, which is the controller's, grows by the commit, which follows,
    and the controller's state is the new one unless the write was reported to
    have failed. *)
Definition committed (c : Ctl) (guard : Ctl → option CtlError) (commit : Commit) (w : Writes)
    (c' : Ctl) (recs : list (Commit * string)) : Prop :=
  ∃ rec d st',
    recs.*1 = ct_commits c ∧ guard c = None ∧ rec = seq_at commit (Z.of_nat (length recs) + 1) (w_now w) ∧
    replayApply cfg (ct_state c) rec = Ok st' ∧
    live_inv c' (recs ++ [(rec, d)]) ∧ (ct_state c' = st' ∨ ct_state c' = ct_state c) ∧
    ct_reserving c' = ct_reserving c.

Definition keeps_core (after : Ctl → Ctl) : Prop :=
  ∀ c, ct_store (after c) = ct_store c ∧ ct_file (after c) = ct_file c ∧
       ct_state (after c) = ct_state c ∧ ct_commits (after c) = ct_commits c ∧
       ct_reserving (after c) = ct_reserving c.

Lemma live_inv_core c c' recs :
  live_inv c recs → ct_store c' = ct_store c → ct_file c' = ct_file c →
  ct_state c' = ct_state c → ct_commits c' = ct_commits c → live_inv c' recs.
Proof. intros [] H1 H2 H3 H4. split; rewrite ?H1, ?H2, ?H3, ?H4; done. Qed.

Lemma store_extends c recs s' rec d st' :
  live_inv c recs → store_inv cfg snap s' (recs ++ [(rec, d)]) → recs.*1 = ct_commits c →
  replayApply cfg (ct_state c) rec = Ok st' →
  replays cfg snap (recs ++ [(rec, d)]).*1 st'.
Proof.
  intros Hlive Hs Hcore Ha. rewrite fmap_app. change ([(rec, d)].*1) with [rec]. rewrite Hcore.
  eapply replays_snoc; [apply Hlive| |done].
  pose proof (si_checked _ _ _ _ Hs (length recs) rec) as Hck.
  rewrite fmap_app, take_app_length', Hcore in Hck by (by rewrite length_fmap). apply Hck.
  rewrite <- Hcore. change ([(rec, d)].*1) with [rec]. apply list_lookup_middle. by rewrite length_fmap.
Qed.

Lemma commitWhen_spec c recs guard commit after w :
  live_inv c recs → Z.of_nat (length recs) + 1 < max_commits → keeps_core after →
  let c' := (commitWhen cfg c guard commit after w).1 in
  (live_inv c' recs ∧ c' = with_store c (ct_store c')) ∨ committed c guard commit w c' recs.
Proof.
  intros Hlive Hlen Hafter. unfold commitWhen.
  destruct (guard c) eqn:Hg; [left; split; [done|by destruct c]|].
  destruct (replayApply cfg (ct_state c) _) as [next|] eqn:Ha; [|left; split; [done|by destruct c]].
  pose proof (der_seq _ _ _ (replays_derived _ _ _ _ (li_state _ _ Hlive))) as Hseq.
  pose proof (AppendCommit_spec cfg snap (ct_store c) recs (st_Seq (ct_state c) + 1) commit (w_now w) (w_out w)
    (li_store _ _ Hlive) Hlen (commits_encode _)) as Hspec.
  apply (replayApply_at _ _ _ _ (w_now w)) in Ha.
  destruct (li_log _ _ Hlive) as (extra & Hlog & Hextra).
  assert (Hcore : st_Seq (ct_state c) + 1 = Z.of_nat (length recs) + 1 → recs.*1 = ct_commits c).
  { intros E. assert (length recs.*1 = length (ct_commits c)) as Hl2 by (rewrite length_fmap; lia).
    rewrite Hlog, length_app in Hl2. destruct extra; [by rewrite Hlog, app_nil_r|simpl in Hl2; lia]. }
  simpl in *. destruct (AppendCommit _ _ _ _ _) as [s' [rec|e]]; simpl in *.
  - destruct Hspec as (-> & E & d & Hs). right. specialize (Hcore E). rewrite E in *.
    pose proof (store_extends c recs s' _ d _ Hlive Hs Hcore Ha) as Hnew.
    exists (seq_at commit (Z.of_nat (length recs) + 1) (w_now w)), d, (at_time next (w_now w)).
    destruct (Hafter {| ct_store := s';
      ct_file := WriteState (ct_file c) (at_time next (w_now w)) (w_state w);
      ct_state := at_time next (w_now w); ct_commits := ct_commits c ++ [seq_at commit (Z.of_nat (length recs) + 1) (w_now w)];
      ct_exited := ct_exited c; ct_pause := ct_pause c; ct_cancel := ct_cancel c; ct_reserving := ct_reserving c |})
      as (A1 & A2 & A3 & A4 & A5). simpl in *.
    split_and!; [done..| |by left|done].
    assert (Hl2 : (recs ++ [(seq_at commit (Z.of_nat (length recs) + 1) (w_now w), d)]).*1
      = ct_commits c ++ [seq_at commit (Z.of_nat (length recs) + 1) (w_now w)]) by by rewrite fmap_app, Hcore.
    split; rewrite ?A1, ?A2, ?A3, ?A4; [done|exists []; split; [by rewrite app_nil_r|simpl; lia]|by rewrite Hl2 in Hnew|eauto|].
    apply WriteState_ok; [|eauto]. rewrite Hl2, <- Hcore. apply file_ok_app, Hlive.
  - destruct Hspec as [Hs|(E & d & Hs)]; [left; split; [split; [done|apply Hlive..]|done]|].
    right. specialize (Hcore E). rewrite E in *.
    pose proof (store_extends c recs s' _ d _ Hlive Hs Hcore Ha) as Hnew.
    exists (seq_at commit (Z.of_nat (length recs) + 1) (w_now w)), d, (at_time next (w_now w)).
    split_and!; [done..| |by right|done]. split; simpl; [done| |apply Hlive|eauto|].
    + exists [seq_at commit (Z.of_nat (length recs) + 1) (w_now w)]. split; [by rewrite fmap_app, Hcore|done].
    + rewrite fmap_app. apply file_ok_app, Hlive.
Qed.

End commit.

(** ** What a run may commit when *)

Section governed.
Context `{GoRange, ForumCodec} (cfg : Config) (snap : Snapshot).

(** One more call is within the limits of the run and of the layer. *)
Definition within (st : State) (layer : Layer) : Prop :=
  st_Calls st + 1 ≤ MaxCalls (sn_Limits snap) ∧
  ∀ ls, st_Layers st !! l_ID layer = Some ls → 0 < l_MaxCalls layer → ls_Calls ls + 1 ≤ l_MaxCalls layer.

(** The life of a run as its operations promise it: which commit may follow in
    which state. *)
Definition permitted (st : State) (c : Commit) : Prop :=
  match c_Kind c with
  | CommitLaunched => st_Status st = StatusQueued
  | CommitPauseRequested => st_Status st = StatusRunning
  | CommitPaused => st_Status st = StatusPausing
  | CommitResumed => st_Status st = StatusPaused ∨ st_Status st = StatusPausing
  | CommitCancelRequested => st_Status st ≠ StatusCancelling
  | CommitEnded => st_Status st = StatusCancelling → c_Status c = StatusCancelled ∧ c_Reason c = EndCancelled
  | CommitTurn | CommitRoundPublished | CommitModerated => st_Status st ≠ StatusCancelling
  | CommitAttempt =>
      st_Status st = StatusRunning ∧ ∃ layer, Config_Layer cfg (c_Layer c) = Some layer ∧ within st layer
  | _ => True
  end.

Definition governed (log : list Commit) : Prop :=
  ∀ i c st, log !! i = Some c → replays cfg snap (take i log) st → permitted st c.

Lemma replays_fun log st st' : replays cfg snap log st → replays cfg snap log st' → st = st'.
Proof. rewrite <- !replay_replays. congruence. Qed.

Lemma governed_snoc log st c :
  governed log → replays cfg snap log st → permitted st c → governed (log ++ [c]).
Proof.
  intros Hg Hst Hp i d st' [Hi|[-> ->]]%lookup_snoc_inv.
  - rewrite take_app_le by (apply lookup_lt_Some in Hi; lia). by apply Hg.
  - rewrite take_app_length. intros Hst'. by rewrite <- (replays_fun _ _ _ Hst Hst').
Qed.

Lemma calls_step st c st' :
  replayApply cfg st c = Ok st' →
  st_Calls st' = st_Calls st + (if any_attempt c then 1 else 0) ∧
  (∀ id ls', st_Layers st' !! id = Some ls' → ∃ ls, st_Layers st !! id = Some ls ∧
     ls_Calls ls' = ls_Calls ls + (if is_attempt id c then 1 else 0)).
Proof.
  intros Ha. split.
  - apply replayApply_inv in Ha as (_ & _ & _ & _ & [(Hr & st1 & Ha & ->)|(Hr & ls & layer & ls' & calls & _ & _ & Ha & _ & _ & -> & _)]).
    + apply applyRunCommit_inv in Ha as (H1 & _). simpl. rewrite H1.
      destruct (run_commit_nothing "" c Hr) as (-> & _). lia.
    + by apply applyLayerCommit_inv in Ha as (-> & _).
  - intros id ls' Hls'.
    destruct (replayApply_layer _ _ _ _ _ _ Ha Hls') as [[Hls Hor]|(Hr & <- & ls & layer & k & k' & Hls & _ & Happ)].
    + exists ls'. split; [done|]. destruct Hor as [Hr|Hne].
      * destruct (run_commit_nothing id c Hr) as (_ & -> & _). lia.
      * destruct (other_layer_commit id c) as (-> & _); [congruence|lia].
    + exists ls. split; [done|]. rewrite is_attempt_own. by apply applyLayerCommit_inv in Happ as (_ & -> & _).
Qed.

Lemma within_step st c st' layer :
  replayApply cfg st c = Ok st' → c_Kind c ≠ CommitAttempt → within st layer → within st' layer.
Proof.
  intros [Hc Hl]%calls_step Hk [H1 H2].
  assert (any_attempt c = false) as Hat by by apply bool_decide_eq_false.
  rewrite Hat in Hc. split; [lia|]. intros ls' Hls' Hpos.
  destruct (Hl _ _ Hls') as (ls & Hls & ->). specialize (H2 ls Hls Hpos).
  unfold is_attempt, any_attempt in *. rewrite Hat. simpl. lia.
Qed.

Definition reserving_ok (c : Ctl) : Prop :=
  ∀ req, ct_reserving c = Some req →
    ∃ layer, Config_Layer cfg (rq_Layer req) = Some layer ∧ within (ct_state c) layer.

Definition file_of (x : System) : option State :=
  match x with Live c => ct_file c | Down _ f => f end.

Record sys_inv (x : System) (recs : list (Commit * string)) : Prop := {
  sy_store : store_inv cfg snap (store_of x) recs;
  sy_disk : ∃ st, replays cfg snap recs.*1 st;
  sy_file : file_ok cfg snap (file_of x) recs.*1;
  sy_governed : governed recs.*1;
  sy_live c : x = Live c → live_inv cfg snap c recs ∧ reserving_ok c
}.

Lemma live_sys_inv c recs :
  live_inv cfg snap c recs → governed recs.*1 → reserving_ok c → sys_inv (Live c) recs.
Proof. intros [] ? ?. split; try done. intros c' [= <-]. done. Qed.

(** A step of a live controller that commits, or does not. *)
Lemma commit_step c recs guard commit after w c' :
  (∀ c, commit_encodes c) →
  sys_inv (Live c) recs → Z.of_nat (length recs) + 1 < max_commits → keeps_core after →
  (guard c = None → permitted (ct_state c) commit) →
  (c' = (commitWhen cfg c guard commit after w).1 ∧ c_Kind commit ≠ CommitAttempt ∨
   c' = with_reserving (commitWhen cfg c guard commit after w).1 None) →
  ∃ recs', sys_inv (Live c') recs' ∧ recs `prefix_of` recs' ∧ (length recs' ≤ length recs + 1)%nat.
Proof.
  intros Henc Hsys Hlen Hafter Hperm Hc'. destruct (sy_live _ _ Hsys c eq_refl) as [Hlive Hres].
  pose proof (commitWhen_spec cfg snap Henc c recs guard commit after w Hlive Hlen Hafter) as Hspec.
  cbv zeta in Hspec. remember (commitWhen cfg c guard commit after w).1 as c1. clear Heqc1.
  assert (Hcore : ∀ recs', live_inv cfg snap c1 recs' → live_inv cfg snap c' recs').
  { intros recs' Hl. destruct Hc' as [[-> _]| ->]; [done|]. by apply (live_inv_core cfg snap c1). }
  destruct Hspec as [[Hl E]|(rec & d & st' & Hlog & Hg & Hrec & Ha & Hl & Hst & Hr)].
  - exists recs. split_and!; [|done|lia]. apply live_sys_inv; [by apply Hcore|apply Hsys|].
    destruct Hc' as [[-> _]| ->]; [|done]. rewrite E. exact Hres.
  - exists (recs ++ [(rec, d)]). split_and!; [|by apply prefix_app_r|rewrite length_app; simpl; lia].
    apply live_sys_inv; [by apply Hcore| |].
    + rewrite fmap_app. apply governed_snoc with (ct_state c); [apply Hsys| |].
      * rewrite Hlog. apply Hlive.
      * rewrite Hrec. exact (Hperm Hg).
    + destruct Hc' as [[-> Hk]| ->]; [|done]. intros req Hreq. rewrite Hr in Hreq.
      destruct (Hres req Hreq) as (layer & HL & Hw). exists layer. split; [done|].
      destruct Hst as [->| ->]; [|done]. eapply within_step; [done| |done]. by rewrite Hrec.
Qed.

(** *** Opening a run *)

Lemma last_seq log st : replays cfg snap log st → default 0 (c_Seq <$> last log) = Z.of_nat (length log).
Proof.
  intros H1%replays_derived. destruct log as [|c log] using rev_ind; [done|].
  rewrite last_snoc, length_app. simpl.
  rewrite (der_gap_free _ _ _ H1 (length log) c) by by apply list_lookup_middle. lia.
Qed.

Lemma loadState_spec s recs f :
  store_inv cfg snap s recs → Z.of_nat (length recs) < max_commits →
  (∃ st, replays cfg snap recs.*1 st) → file_ok cfg snap f recs.*1 →
  ∃ st, loadState cfg snap s f = Some st ∧ replays cfg snap recs.*1 st.
Proof.
  intros Hs Hlen (st & Hst) Hf. exists st. split; [|done]. unfold loadState.
  rewrite (ReadCommits_inv cfg snap s recs Hs Hlen), (last_seq _ _ Hst), (proj2 (replay_replays _ _ _ _) Hst).
  destruct f as [cached|]; [|done]. case_if; [|done]. zb. f_equal.
  destruct (Hf cached eq_refl) as (pre & [post Hpre] & Hc).
  pose proof (der_seq _ _ _ (replays_derived _ _ _ _ Hc)) as Hseq.
  rewrite Hpre, length_app in Heqb. destruct post; [|rewrite length_cons in Heqb; lia].
  rewrite app_nil_r in Hpre. rewrite Hpre in Hst. eapply replays_fun; eauto.
Qed.

Lemma open_ctl_inv s recs f out :
  store_inv cfg snap s recs → Z.of_nat (length recs) < max_commits →
  (∃ st, replays cfg snap recs.*1 st) → file_ok cfg snap f recs.*1 → governed recs.*1 →
  let r := open_ctl cfg snap s f out in
  sys_inv (match r.2 with Some c => Live c | None => Down s r.1 end) recs.
Proof.
  intros Hs Hlen (st & Hst) Hf Hg. unfold open_ctl.
  rewrite (ReadCommits_inv cfg snap s recs Hs Hlen), (proj2 (replay_replays _ _ _ _) Hst).
  assert (Hw : file_ok cfg snap (WriteState f st out) recs.*1) by (apply WriteState_ok; eauto).
  destruct out as [|there tmp].
  - apply live_sys_inv; [|done|done].
    split; [done|exists []; split; [by rewrite app_nil_r|simpl; lia]|done|eauto|done].
  - split; try done. eauto.
Qed.

Lemma takeover_permitted st resuming k :
  takeover_commit st resuming = Some k → Terminal (st_Status st) = false ∧
  permitted st (kind_commit k) ∧ (k = CommitLaunched ∧ st_Status st = StatusQueued ∨ k = CommitResumed).
Proof.
  unfold takeover_commit, permitted.
  destruct (st_Status st); try done; try destruct resuming; try done; intros [= <-]; simpl; auto.
Qed.

(** The log grown by a commit of the service, replayed. *)
Lemma takeover_extends s recs st k now d resuming :
  store_inv cfg snap s (recs ++ [(seq_at (kind_commit k) (Z.of_nat (length recs) + 1) now, d)]) →
  replays cfg snap recs.*1 st → governed recs.*1 → takeover_commit st resuming = Some k →
  (∃ st', replays cfg snap (recs ++ [(seq_at (kind_commit k) (Z.of_nat (length recs) + 1) now, d)]).*1 st') ∧
  governed (recs ++ [(seq_at (kind_commit k) (Z.of_nat (length recs) + 1) now, d)]).*1.
Proof.
  intros Hs Hst Hg Hk. apply takeover_permitted in Hk as (Hnt & Hperm & Hkind).
  set (rec := seq_at (kind_commit k) (Z.of_nat (length recs) + 1) now) in *.
  rewrite fmap_app. change ([(rec, d)].*1) with [rec].
  assert (Hck : checkCommit cfg snap (index_of recs.*1) rec = Ok tt).
  { pose proof (si_checked _ _ _ _ Hs (length recs) rec) as Hck.
    rewrite fmap_app, take_app_length' in Hck by (by rewrite length_fmap). apply Hck.
    change ([(rec, d)].*1) with [rec]. apply list_lookup_middle. by rewrite length_fmap. }
  pose proof (checked_lifecycle _ _ _ _ _ Hst Hck) as Hl.
  pose proof (der_seq _ _ _ (replays_derived _ _ _ _ Hst)) as Hseq. rewrite length_fmap in Hseq.
  assert (lifecycle_error st rec = None) as Hnone.
  { unfold lifecycle_error. rewrite Hseq, Hnt. simpl. rewrite Z.eqb_refl. simpl.
    destruct Hkind as [[-> Hq]| ->]; simpl; [by rewrite bool_decide_true|done]. }
  rewrite Hnone in Hl. destruct (replayApply cfg st rec) as [st'|] eqn:Ha; [|done]. split.
  - exists st'. by eapply replays_snoc.
  - by apply governed_snoc with st.
Qed.

Lemma takeover_inv s recs f resuming now out fout :
  (∀ c, commit_encodes c) →
  store_inv cfg snap s recs → Z.of_nat (length recs) + 1 < max_commits →
  (∃ st, replays cfg snap recs.*1 st) → file_ok cfg snap f recs.*1 → governed recs.*1 →
  let r := takeover cfg snap s f resuming now out fout in
  ∃ recs', sys_inv (match r.2.2 with Some c => Live c | None => Down r.1 r.2.1 end) recs' ∧
    recs `prefix_of` recs' ∧ (length recs' ≤ length recs + 1)%nat.
Proof.
  intros Henc Hs Hlen Hdisk Hf Hg. pose proof (reopen_inv cfg snap s recs Hs) as Hro.
  destruct (loadState_spec (reopen s) recs f Hro ltac:(lia) Hdisk Hf) as (st & Hload & Hst).
  unfold takeover. rewrite Hload. destruct (takeover_commit st resuming) as [k|] eqn:Hk.
  - pose proof (der_seq _ _ _ (replays_derived _ _ _ _ Hst)) as Hseq. rewrite length_fmap in Hseq. rewrite Hseq.
    pose proof (AppendCommit_spec cfg snap (reopen s) recs (Z.of_nat (length recs) + 1) (kind_commit k) now out
      Hro Hlen (Henc _)) as Hspec. simpl in Hspec |- *.
    destruct (AppendCommit _ _ _ _ _) as [s' [rec|e]]; simpl in *.
    + destruct Hspec as (-> & _ & d & Hs').
      destruct (takeover_extends _ _ _ _ _ _ _ Hs' Hst Hg Hk) as [Hdisk' Hg'].
      exists (recs ++ [(seq_at (kind_commit k) (Z.of_nat (length recs) + 1) now, d)]).
      split_and!; [|by apply prefix_app_r|rewrite length_app; simpl; lia].
      apply open_ctl_inv; [done|rewrite length_app; simpl; lia|done| |done].
      rewrite fmap_app. by apply file_ok_app.
    + destruct Hspec as [Hs'|(_ & d & Hs')].
      * exists recs. split_and!; [|done|lia]. by split.
      * destruct (takeover_extends _ _ _ _ _ _ _ Hs' Hst Hg Hk) as [Hdisk' Hg'].
        exists (recs ++ [(seq_at (kind_commit k) (Z.of_nat (length recs) + 1) now, d)]).
        split_and!; [|by apply prefix_app_r|rewrite length_app; simpl; lia].
        split; try done. simpl. rewrite fmap_app. by apply file_ok_app.
  - exists recs. split_and!; [|done|lia]. apply open_ctl_inv; (done || lia).
Qed.

(** *** Every step *)

Lemma keeps_id : keeps_core id.
Proof. done. Qed.

Lemma keeps_flags f g : keeps_core (λ c, with_flags c (f c) (g c)).
Proof. by intros c. Qed.

Lemma statusIs_None want c : statusIs want c = None → st_Status (ct_state c) = want.
Proof. unfold statusIs. by case_bool_decide. Qed.

Lemma notCancelling_None c : notCancelling c = None → st_Status (ct_state c) ≠ StatusCancelling.
Proof. unfold notCancelling. case_if; [done|]. zb. intros _ E. by rewrite bool_decide_eq_false in *. Qed.

(** A step that leaves the log. *)
Lemma same_log_step c c' recs :
  sys_inv (Live c) recs → store_inv cfg snap (ct_store c') recs → ct_file c' = ct_file c →
  ct_state c' = ct_state c → ct_commits c' = ct_commits c → reserving_ok c' →
  ∃ recs', sys_inv (Live c') recs' ∧ recs `prefix_of` recs' ∧ (length recs' ≤ length recs + 1)%nat.
Proof.
  intros Hsys Hs H1 H2 H3 Hr. destruct (sy_live _ _ Hsys c eq_refl) as [[] _].
  exists recs. split_and!; [|done|lia]. apply live_sys_inv; [|apply Hsys|done].
  split; rewrite ?H1, ?H2, ?H3; done.
Qed.

Lemma checkLimits_within c layer now :
  checkLimits snap c layer 1 now = NoReason → within (ct_state c) layer.
Proof.
  unfold checkLimits, within. case_if; [done|]. case_if; [done|]. zb. intros Hls. split; [lia|].
  intros ls Hl Hpos. rewrite Hl in Hls. destruct ((0 <? l_MaxCalls layer) && _) eqn:E; [done|].
  apply andb_false_iff in E as [E|E]; zb; lia.
Qed.

Lemma settle_commit c w :
  (settle cfg c w).1 = (commitWhen cfg c (λ c, if Terminal (st_Status (ct_state c)) then Some Skip else None)
    (end_commit c StatusCancelled EndCancelled) id w).1 ∨
  (settle cfg c w).1 = (commitWhen cfg c (statusIs StatusPausing) (kind_commit CommitPaused) id w).1 ∨
  (settle cfg c w).1 = c.
Proof. unfold settle, ctl_end. destruct (st_Status (ct_state c)); auto. Qed.

Lemma end_permitted c s r : permitted (ct_state c) (end_commit c s r).
Proof. unfold end_commit, permitted. by case_bool_decide. Qed.

Lemma end_kind c s r : c_Kind (end_commit c s r) ≠ CommitAttempt.
Proof. unfold end_commit. by case_bool_decide. Qed.

Lemma RequestCancel_commit c w :
  let c1 := (commitWhen cfg c cancel_guard (kind_commit CommitCancelRequested)
    (λ c', with_flags c' (ct_pause c') true) w).1 in
  (RequestCancel cfg c w).1 = c1 ∨ (RequestCancel cfg c w).1 = with_flags c1 (ct_pause c1) true.
Proof. unfold RequestCancel. destruct (commitWhen _ _ _ _ _ _) as [c1 [[]|]]; simpl; auto. Qed.

Lemma flags_sys_inv c recs p x : sys_inv (Live c) recs → sys_inv (Live (with_flags c p x)) recs.
Proof.
  intros Hsys. destruct (sy_live _ _ Hsys c eq_refl) as [Hl Hr].
  apply live_sys_inv; [by apply (live_inv_core cfg snap c)|apply Hsys|exact Hr].
Qed.

Lemma ctl_step_inv x y recs :
  (∀ c, commit_encodes c) → (∀ r, request_encodes r) →
  sys_inv x recs → Z.of_nat (length recs) + 1 < max_commits → ctl_step cfg snap x y →
  ∃ recs', sys_inv y recs' ∧ recs `prefix_of` recs' ∧ (length recs' ≤ length recs + 1)%nat.
Proof.
  intros Hce Hre Hsys Hlen Hstep.
  destruct Hstep as [c w|c w|c w|c w|c s r w|c k l r w Hk|c commit w Hp|c layer req now aw out Hn HL|c req w Hq|c l t n reply out|c b|c|s f res now out fout].
  - eapply commit_step; [done..| | |by left]; [apply keeps_id|]. apply statusIs_None.
  - eapply commit_step; [done..| | |by left]; [apply (keeps_flags (λ _, true))|].
    unfold pause_guard, permitted. simpl. destruct (ct_exited c); [done|]. by destruct (st_Status (ct_state c)).
  - assert (Hc1 : ∃ recs', sys_inv (Live (commitWhen cfg c cancel_guard (kind_commit CommitCancelRequested)
        (λ c', with_flags c' (ct_pause c') true) w).1) recs' ∧ recs `prefix_of` recs' ∧ (length recs' ≤ length recs + 1)%nat).
    { eapply commit_step; [done..| | |by left]; [apply (keeps_flags ct_pause (λ _, true))|].
      unfold cancel_guard, permitted. simpl. repeat (case_if; [done|]). by rewrite bool_decide_eq_false in *. }
    destruct Hc1 as (recs' & Hs' & ?). exists recs'. split; [|done].
    destruct (RequestCancel_commit c w) as [->| ->]; [done|by apply flags_sys_inv].
  - destruct (settle_commit c w) as [->|[->| ->]].
    + eapply commit_step; [done..| | |left; split; [done|apply end_kind]]; [apply keeps_id|].
      intros _. apply end_permitted.
    + eapply commit_step; [done..| | |by left]; [apply keeps_id|]. apply statusIs_None.
    + exists recs. split_and!; [done|done|lia].
  - eapply commit_step; [done..| | |]; [apply keeps_id|intros _; apply end_permitted|].
    left. split; [done|apply end_kind].
  - eapply commit_step; [done..| | |left; split; [done|by destruct Hk as [->| ->]]]; [apply keeps_id|].
    intros _. by destruct Hk as [->| ->].
  - eapply commit_step; [done..| | |left; split; [done|by destruct (c_Kind commit)]]; [apply keeps_id|].
    intros Hg%notCancelling_None. unfold permitted. by destruct (c_Kind commit).
  - unfold reserve_check. destruct (interrupted c); [exists recs; split_and!; [done|done|lia]|].
    destruct (checkLimits snap c layer 1 now) eqn:Hlim; try (exists recs; split_and!; [done|done|lia]).
    apply (same_log_step c); try done.
    + apply WriteAttemptRequest_inv; [apply Hsys|lia|apply Hre].
    + intros req' Hreq'. simpl in Hreq'. case_match; [|done]. injection Hreq' as <-.
      exists layer. split; [done|]. by eapply checkLimits_within.
  - eapply commit_step; [done..| | |right; done]; [apply keeps_id|]. intros Hst%statusIs_None.
    destruct (sy_live _ _ Hsys c eq_refl) as [_ Hr]. split; [done|]. by apply Hr.
  - apply (same_log_step c); try done; [|apply (sy_live _ _ Hsys c eq_refl)].
    apply WriteAttemptReply_inv; [apply Hsys|lia].
  - apply (same_log_step c); try done; [apply Hsys|apply (sy_live _ _ Hsys c eq_refl)].
  - exists recs. split_and!; [|done|lia]. split; try apply Hsys. done.
  - apply takeover_inv; try done; apply Hsys.
Qed.

(** The states a run reaches in [n] steps, from the store its launch leaves. *)
Inductive reach : nat → System → Prop :=
| reach_launch : reach 0 (Down (new_run cfg snap) None)
| reach_step n x y : reach n x → ctl_step cfg snap x y → reach (S n) y.

Lemma reach_inv n x :
  (∀ c, commit_encodes c) → (∀ r, request_encodes r) →
  reach n x → Z.of_nat n < max_commits → ∃ recs, sys_inv x recs ∧ (length recs ≤ n)%nat.
Proof.
  intros Hce Hre Hr. induction Hr as [|n x y Hr IH Hstep]; intros Hn.
  - exists []. split; [|done]. split; try done.
    + apply new_run_inv.
    + eexists. constructor.
  - destruct IH as (recs & Hsys & Hlen); [lia|].
    destruct (ctl_step_inv x y recs Hce Hre Hsys ltac:(lia) Hstep) as (recs' & Hs' & _ & Hlen').
    exists recs'. split; [done|lia].
Qed.

End governed.

(** ** Consequences of a governed log *)

Section consequences.
Context `{GoRange, ForumCodec} (cfg : Config) (snap : Snapshot).

Lemma governed_snoc_inv log c st :
  governed cfg snap (log ++ [c]) → replays cfg snap log st → governed cfg snap log ∧ permitted cfg snap st c.
Proof.
  intros Hg Hst. split.
  - intros i d st' Hi Hst'. apply (Hg i d st'); [by apply lookup_app_l_Some|].
    rewrite take_app_le by (apply lookup_lt_Some in Hi; lia). done.
  - apply (Hg (length log) c st); [by apply list_lookup_middle|]. by rewrite take_app_length.
Qed.

(** What may follow a requested cancel: layers may start or end, and the run
    ends cancelled. *)
Definition after_cancel (c : Commit) : Prop :=
  match c_Kind c with
  | CommitLayerStarted | CommitLayerEnded => True
  | CommitEnded => c_Status c = StatusCancelled ∧ c_Reason c = EndCancelled
  | _ => False
  end.

Lemma cancelled_log log st :
  replays cfg snap log st → governed cfg snap log →
  (∀ i ci, log !! i = Some ci → c_Kind ci = CommitCancelRequested →
     st_Status st = StatusCancelling ∨ Terminal (st_Status st) = true) ∧
  (∀ i j ci cj, log !! i = Some ci → c_Kind ci = CommitCancelRequested →
     log !! j = Some cj → (i < j)%nat → after_cancel cj).
Proof.
  induction 1 as [|log st c st' Hst IH Hc Ha]; intros Hg; [done|].
  destruct (governed_snoc_inv log c st Hg Hst) as [Hg' Hperm]. destruct (IH Hg') as [IH1 IH2].
  pose proof (replayApply_inv _ _ _ _ Ha) as (_ & Hnt & _ & _ & Hcase).
  assert (Hac : ∀ i ci, log !! i = Some ci → c_Kind ci = CommitCancelRequested →
    after_cancel c ∧ (st_Status st' = StatusCancelling ∨ Terminal (st_Status st') = true)).
  { intros i ci Hi Hk. destruct (IH1 i ci Hi Hk) as [Hs|?]; [|congruence].
    destruct Hcase as [(Hr & st1 & Happ & ->)|(Hr & ls & layer & ls' & calls & _ & _ & _ & -> & _)].
    - destruct (applyRunCommit_status st c st1 Hr Happ) as (Hs' & _ & _). simpl. rewrite Hs'.
      unfold permitted, after_cancel, status_after in *. rewrite Hs in Hperm.
      destruct (c_Kind c); try done; try (by destruct Hperm).
      destruct (Hperm eq_refl) as [-> ->]. by split; [|right].
    - split; [|by left]. unfold permitted, after_cancel in *. rewrite Hs in Hperm.
      destruct (checkCommit_known _ _ _ _ Hc) as [Hno Hother].
      destruct (c_Kind c) as [| | | | | | | | | | | | |k]; try done; try (by destruct Hperm).
      by destruct (Hother k). }
  split.
  - intros i ci [Hi|[-> ->]]%lookup_snoc_inv Hk; [by eapply Hac|]. left.
    destruct Hcase as [(Hr & st1 & Happ & ->)|(Hr & _)]; [|by rewrite Hk in Hr].
    destruct (applyRunCommit_status st c st1 Hr Happ) as (Hs' & _ & _). simpl. rewrite Hs'.
    unfold status_after. by rewrite Hk.
  - intros i j ci cj [Hi|[-> ->]]%lookup_snoc_inv Hk [Hj|[-> ->]]%lookup_snoc_inv Hij; eauto.
    + by eapply Hac.
    + apply lookup_lt_Some in Hj. lia.
    + lia.
Qed.

Lemma calls_log log st :
  replays cfg snap log st → governed cfg snap log → 0 ≤ MaxCalls (sn_Limits snap) →
  st_Calls st ≤ MaxCalls (sn_Limits snap) ∧
  ∀ id ls layer, st_Layers st !! id = Some ls → Config_Layer cfg id = Some layer →
    0 < l_MaxCalls layer → ls_Calls ls ≤ l_MaxCalls layer.
Proof.
  intros Hst Hg Hpos. revert Hg. induction Hst as [|log st c st' Hst IH Hc Ha]; intros Hg.
  { split; [done|]. intros id ls layer ->%initial_layer _ ?. simpl. lia. }
  destruct (governed_snoc_inv log c st Hg Hst) as [Hg' Hperm]. destruct (IH Hg') as [IH1 IH2].
  destruct (calls_step cfg st c st' Ha) as [Hcalls Hlayers]. unfold permitted in Hperm. split.
  - rewrite Hcalls. unfold any_attempt. case_bool_decide as Hk; [|lia].
    rewrite Hk in Hperm. destruct Hperm as (_ & layer & _ & Hw & _). lia.
  - intros id ls' layer Hls' HL Hmax. destruct (Hlayers id ls' Hls') as (ls & Hls & ->).
    unfold is_attempt. case_bool_decide as Hk; simpl; [|specialize (IH2 _ _ _ Hls HL Hmax); lia].
    case_bool_decide as Hid; [|specialize (IH2 _ _ _ Hls HL Hmax); lia]. subst id.
    rewrite Hk in Hperm. destruct Hperm as (_ & layer2 & HL2 & _ & Hw). rewrite HL in HL2. injection HL2 as <-.
    pose proof (Config_Layer_id _ _ _ HL) as [Hid _]. apply Hw; [by rewrite Hid|done].
Qed.

End consequences.

(** ** Theorems *)

Section theorems.
Context `{GoRange, ForumCodec} (cfg : Config) (snap : Snapshot).
Hypothesis commits_encode : ∀ c, commit_encodes c.
Hypothesis requests_encode : ∀ r, request_encodes r.

Lemma reach_log n x :
  reach cfg snap n x → Z.of_nat n < max_commits →
  ∃ log st, ReadCommits (store_of x) = Ok log ∧ replays cfg snap log st ∧ governed cfg snap log ∧
    loadState cfg snap (store_of x) (file_of x) = Some st ∧
    ∀ c, x = Live c → ∃ extra, log = ct_commits c ++ extra ∧ (length extra ≤ 1)%nat ∧
      replays cfg snap (ct_commits c) (ct_state c).
Proof.
  intros Hr Hn. destruct (reach_inv cfg snap n x commits_encode requests_encode Hr Hn) as (recs & Hsys & Hlen).
  destruct (loadState_spec cfg snap (store_of x) recs (file_of x)) as (st & Hload & Hst);
    [apply Hsys|lia|apply Hsys|apply Hsys|].
  exists recs.*1, st. split_and!; [apply (ReadCommits_inv cfg snap); [apply Hsys|lia]|done|apply Hsys|done|].
  intros c ->. destruct (sy_live _ _ _ _ Hsys c eq_refl) as [[_ (extra & He & Hl) Hs _ _] _].
  exists extra. by split_and!.
Qed.

(** C1. The controller refines the log. Whatever it does, in any order, with
    any write failing and a crash at any point, the log on disk replays; the
    state it keeps in memory is the replay of the commits it keeps, which are
    all of the log but at most the last, a commit whose write was reported to
    have failed; every commit on disk was permitted in the state before it;
    and a reader gets the replay of the log whatever state.json holds. *)
Theorem controller_log_sound n x :
  reach cfg snap n x → Z.of_nat n < max_commits →
  ∃ log st, ReadCommits (store_of x) = Ok log ∧ replay cfg snap log = Ok st ∧ governed cfg snap log ∧
    loadState cfg snap (store_of x) (file_of x) = Some st ∧
    ∀ c, x = Live c → ∃ extra, log = ct_commits c ++ extra ∧ (length extra ≤ 1)%nat ∧
      replay cfg snap (ct_commits c) = Ok (ct_state c).
Proof.
  intros Hr Hn. destruct (reach_log n x Hr Hn) as (log & st & H1 & H2 & H3 & H4 & H5).
  exists log, st. split_and!; [done|by apply replay_replays|done|done|].
  intros c Hc. destruct (H5 c Hc) as (extra & ? & ? & ?). exists extra. split_and!; [done|done|].
  by apply replay_replays.
Qed.

(** C27. Cancellation dominates: once a request to cancel is in the log no
    message is sent, no output, round or decision is committed, the run is
    neither paused nor resumed, and it ends only as cancelled, in whatever
    order the operations come and whatever restarts happen. *)
Theorem cancel_dominates n x log i j ci cj :
  reach cfg snap n x → Z.of_nat n < max_commits → ReadCommits (store_of x) = Ok log →
  log !! i = Some ci → c_Kind ci = CommitCancelRequested → log !! j = Some cj → (i < j)%nat →
  after_cancel cj.
Proof.
  intros Hr Hn Hlog Hi Hk Hj Hij. destruct (reach_log n x Hr Hn) as (log' & st & H1 & H2 & H3 & _).
  rewrite Hlog in H1. injection H1 as <-.
  destruct (cancelled_log cfg snap log st H2 H3) as [_ Hac].
  exact (Hac i j ci cj Hi Hk Hj Hij).
Qed.

(** C31. Budgets hold across restarts: the messages sent in a run, cut and sent
    again ones included, never exceed the run's limit, nor those of a layer
    the layer's. *)
Theorem calls_within_limits n x log st :
  reach cfg snap n x → Z.of_nat n < max_commits → 0 ≤ MaxCalls (sn_Limits snap) →
  ReadCommits (store_of x) = Ok log → replay cfg snap log = Ok st →
  count any_attempt log ≤ MaxCalls (sn_Limits snap) ∧
  ∀ id ls layer, st_Layers st !! id = Some ls → Config_Layer cfg id = Some layer →
    0 < l_MaxCalls layer → count (is_attempt id) log ≤ l_MaxCalls layer.
Proof.
  intros Hr Hn Hpos Hlog Hrep. destruct (reach_log n x Hr Hn) as (log' & st' & H1 & H2 & H3 & _).
  rewrite Hlog in H1. injection H1 as <-. apply replay_replays in Hrep.
  pose proof (replays_derived _ _ _ _ Hrep) as Hd.
  destruct (calls_log cfg snap log st Hrep H3 Hpos) as [Hc Hl]. rewrite (der_calls _ _ _ Hd) in Hc.
  split; [done|]. intros id ls layer Hls HL Hmax.
  destruct (der_layer _ _ _ Hd id ls Hls) as (<- & _). eauto.
Qed.

End theorems.

(** ** A cancelled run

    The run is launched and taken over, a participant is asked, the run is
    cancelled and settles; the write of the last commit is reported as failed
    with its file in place, and the run is taken over again. *)

Lemma position_lookup {A} `{EqDecision A} (x : A) l n : position x l = Some n → l !! n = Some x.
Proof.
  revert n. induction l as [|y l IH]; intros n; simpl; [done|]. case_bool_decide as E.
  - intros [= <-]. by subst.
  - intros H. destruct (position x l) as [m|]; [|done]. injection H as <-. by apply IH.
Qed.

Lemma table_commits cs rs c : @commit_encodes (table_codec cs rs) c.
Proof.
  intros d. simpl. destruct (position c cs) as [n|] eqn:Hp; [|done]. simpl. intros [= <-].
  rewrite dec_value_itoa, Nat2Z.id by lia. by apply position_lookup.
Qed.

Lemma table_requests cs rs r : @request_encodes (table_codec cs rs) r.
Proof.
  intros d. simpl. destruct (position r rs) as [n|] eqn:Hp; [|done]. simpl. intros [= <-].
  rewrite dec_value_itoa, Nat2Z.id by lia. by apply position_lookup.
Qed.

Definition cancel_log : list Commit :=
  [seq_at (kind_commit CommitLaunched) 1 101; seq_at (attempt_commit (a_request false)) 2 102;
   seq_at (kind_commit CommitCancelRequested) 3 103; seq_at (ended_commit StatusCancelled EndCancelled) 4 104].

#[local] Instance cancel_codec : ForumCodec := table_codec cancel_log [a_request false].

Definition at_second (t : Z) (out : WriteOutcome) : Writes :=
  {| w_trial := t; w_now := t; w_out := out; w_state := Written |}.

Definition no_ctl : Ctl :=
  {| ct_store := new_run a_config a_snapshot; ct_file := None; ct_state := replayInitialState a_snapshot;
     ct_commits := []; ct_exited := false; ct_pause := false; ct_cancel := false; ct_reserving := None |}.

Definition ctl1 : Ctl :=
  default no_ctl (takeover a_config a_snapshot (new_run a_config a_snapshot) None false 101 Written Written).2.2.
Definition ctl2 : Ctl :=
  (reserve_check a_snapshot ctl1 (a_layer "draft" ["ann"; "bob"] DeliveryPerTurn None 2) (a_request false) 50
     AttemptWritten Written).1.
Definition ctl3 : Ctl := (reserve_commit a_config ctl2 (a_request false) (at_second 102 Written)).1.
Definition ctl4 : Ctl := (RequestCancel a_config ctl3 (at_second 103 Written)).1.
Definition ctl5 : Ctl := (settle a_config ctl4 (at_second 104 (Failed true None))).1.

Lemma ctl5_reached : reach a_config a_snapshot 6 (Down (ct_store ctl5) (ct_file ctl5)).
Proof.
  assert (reach a_config a_snapshot 1 (Live ctl1)) as R1.
  { eapply (reach_step _ _ 0); [constructor|].
    pose proof (step_takeover a_config a_snapshot (new_run a_config a_snapshot) None false 101 Written Written) as Hs.
    assert ((takeover a_config a_snapshot (new_run a_config a_snapshot) None false 101 Written Written).2.2
      = Some ctl1) as E by (vm_compute; reflexivity).
    rewrite E in Hs. exact Hs. }
  eapply reach_step; [|apply step_crash].
  eapply reach_step; [|apply step_settle]. eapply reach_step; [|apply step_cancel].
  eapply reach_step; [|apply step_reserve_commit; vm_compute; reflexivity].
  eapply reach_step; [exact R1|]. eapply step_reserve_check; vm_compute; reflexivity.
Qed.

Lemma cancel_log_read : ReadCommits (ct_store ctl5) = Ok cancel_log.
Proof. vm_compute. reflexivity. Qed.

Lemma controller_log_sound_witness :
  ∃ st, replay a_config a_snapshot cancel_log = Ok st ∧ governed a_config a_snapshot cancel_log ∧
    loadState a_config a_snapshot (ct_store ctl5) (ct_file ctl5) = Some st.
Proof.
  destruct (controller_log_sound a_config a_snapshot (table_commits _ _) (table_requests _ _) 6
    (Down (ct_store ctl5) (ct_file ctl5)) ctl5_reached eq_refl) as (log & st & H1 & H2 & H3 & H4 & _).
  change (ReadCommits (ct_store ctl5) = Ok log) in H1. rewrite cancel_log_read in H1. injection H1 as <-. exists st. exact (conj H2 (conj H3 H4)).
Defined.

Lemma cancel_dominates_witness : after_cancel (seq_at (ended_commit StatusCancelled EndCancelled) 4 104).
Proof.
  refine (cancel_dominates a_config a_snapshot (table_commits _ _) (table_requests _ _) 6
    (Down (ct_store ctl5) (ct_file ctl5)) cancel_log 2 3
    (seq_at (kind_commit CommitCancelRequested) 3 103) _ ctl5_reached eq_refl cancel_log_read
    eq_refl eq_refl eq_refl _). lia.
Defined.

Lemma calls_within_limits_witness : count any_attempt cancel_log ≤ 10.
Proof.
  assert (∃ st, replay a_config a_snapshot cancel_log = Ok st) as [st Hst].
  { exists (match replay a_config a_snapshot cancel_log with Ok st => st | Err _ => replayInitialState a_snapshot end).
    vm_compute. reflexivity. }
  destruct (calls_within_limits a_config a_snapshot (table_commits _ _) (table_requests _ _) 6
    (Down (ct_store ctl5) (ct_file ctl5)) cancel_log st ctl5_reached eq_refl ltac:(vm_compute; discriminate)
    cancel_log_read Hst) as [H _]. exact H.
Defined.
