(* ===== verification/JsonPointer.v ===== *)
(** * JSON pointers and projections

    forum/jsonpointer.go: what a layer publishes of its JSON outputs ([share])
    and what a route passes on ([paths]). A decoded document is [json]; reading
    and writing its text is the class [JSONText]. *)

From stdpp Require Import base gmap strings list sets.
From Stdlib Require Import ZArith Lia Ascii.
From S2P Require Import Prelude GoString.

Open Scope Z_scope.

(** A value [encoding/json] decodes into [any], numbers kept as text. *)
Inductive json :=
| JNull
| JBool (b : bool)
| JNumber (text : string)
| JString (s : string)
| JArray (l : list json)
| JObject (m : gmap string json).

Class JSONText := {
  decodeJSONValue : string → option json;
  encodeJSONValue : json → option string
}.

(** ** Pointers *)

(** The loop of [validPointer]: every "~" is "~0" or "~1". *)
Fixpoint valid_escapes (l : list ascii) : bool :=
  match l with
  | [] => true
  | c :: l' =>
      if bool_decide (c = "~"%char) then
        match l' with
        | d :: rest => (bool_decide (d = "0"%char) || bool_decide (d = "1"%char)) && valid_escapes rest
        | [] => false
        end
      else valid_escapes l'
  end.

Definition validPointer (p : string) : bool :=
  match bytes p with
  | [] => true
  | c :: _ => bool_decide (c = "/"%char) && valid_escapes (bytes p)
  end.

(** [strings.ReplaceAll] of a two-byte pattern by a byte. *)
Fixpoint replace_pair (a b r : ascii) (l : list ascii) : list ascii :=
  match l with
  | c :: ((d :: rest) as l') =>
      if bool_decide (c = a) && bool_decide (d = b) then r :: replace_pair a b r rest
      else c :: replace_pair a b r l'
  | _ => l
  end.

(** "~1" before "~0". *)
Definition unescape (t : list ascii) : list ascii :=
  replace_pair "~" "0" "~" (replace_pair "~" "1" "/" t).

(** [pointerTokens] *)
Definition pointerTokens (p : string) : option (list string) :=
  if negb (validPointer p) then None
  else match bytes p with
       | [] => Some []
       | _ :: rest => Some (map (λ t, of_bytes (unescape t)) (split_byte "/" rest))
       end.

(** [tokensPrefix] *)
Fixpoint tokensPrefix (a b : list string) : bool :=
  match a, b with
  | [], _ => true
  | x :: a', y :: b' => bool_decide (x = y) && tokensPrefix a' b'
  | _ :: _, [] => false
  end.

Definition overlaps (a b : list string) : bool := tokensPrefix a b || tokensPrefix b a.

Inductive ProjectionIssue :=
| EmptyPointer
| InvalidPointer (p : string)
| Overlaps (p prev : string).

(** The loop of [checkProjection]; [valid] holds the accepted pointers with
    their tokens, in order. *)
Fixpoint check_loop (pointers : list string) (valid : list (string * list string)) : list ProjectionIssue :=
  match pointers with
  | [] => []
  | p :: rest =>
      if bool_decide (p = "") then EmptyPointer :: check_loop rest valid
      else match pointerTokens p with
           | None => InvalidPointer p :: check_loop rest valid
           | Some toks =>
               match find_first (λ v, overlaps v.2 toks) valid with
               | Some v => Overlaps p v.1 :: check_loop rest valid
               | None => check_loop rest (valid ++ [(p, toks)])
               end
           end
  end.

Definition checkProjection (pointers : list string) : list ProjectionIssue := check_loop pointers [].

Inductive Resolved :=
| Found (v : json)
| Missing
| ArrayTraversal.

(** The walk of [resolvePointer]. *)
Fixpoint resolve (doc : json) (toks : list string) : Resolved :=
  match toks with
  | [] => Found doc
  | t :: rest =>
      match doc with
      | JObject m => match m !! t with Some next => resolve next rest | None => Missing end
      | JArray _ => ArrayTraversal
      | _ => Missing
      end
  end.

(** [resolvePointer]; [None] is an invalid pointer. *)
Definition resolvePointer (doc : json) (p : string) : option Resolved :=
  resolve doc <$> pointerTokens p.

(** Putting a value at the end of a path of objects, which are made where they
    are missing. *)
Fixpoint put_at (m : gmap string json) (toks : list string) (v : json) : gmap string json :=
  match toks with
  | [] => m
  | [t] => <[t := v]> m
  | t :: rest =>
      let child := match m !! t with Some (JObject c) => c | _ => ∅ end in
      <[t := JObject (put_at child rest v)]> m
  end.

Inductive ProjectionError :=
| BadPointers (issues : list ProjectionIssue)
| NotJSON
| BadPointer (p : string)
| SelectsNothing (p : string)
| TraversesArray (p : string)
| NotEncoded.

(** The loop of [projectOutput]. *)
Fixpoint project_loop (root : json) (pointers : list string) (out : gmap string json)
    : result (gmap string json) ProjectionError :=
  match pointers with
  | [] => Ok out
  | p :: rest =>
      match pointerTokens p with
      | None => Err (BadPointer p)
      | Some toks =>
          match resolve root toks with
          | Found v => project_loop root rest (put_at out toks v)
          | Missing => Err (SelectsNothing p)
          | ArrayTraversal => Err (TraversesArray p)
          end
      end
  end.

(** [projectOutput], on decoded documents and on their text. *)
Definition project (root : json) (pointers : list string) : result (gmap string json) ProjectionError :=
  match checkProjection pointers with
  | [] => project_loop root pointers ∅
  | issues => Err (BadPointers issues)
  end.

Definition projectOutput `{JSONText} (doc : string) (pointers : list string) : result string ProjectionError :=
  match checkProjection pointers with
  | [] =>
      match decodeJSONValue doc with
      | None => Err NotJSON
      | Some root =>
          (let* out := project_loop root pointers ∅ in
           match encodeJSONValue (JObject out) with Some s => Ok s | None => Err NotEncoded end)%go
      end
  | issues => Err (BadPointers issues)
  end.

(** [withinShare] of forum/validate.go. *)
Definition withinShare (p : string) (share : list string) : bool :=
  match pointerTokens p with
  | None => true
  | Some pt =>
      existsb (λ s, match pointerTokens s with None => true | Some st => overlaps pt st end) share
  end.

(** ** Paths *)

Lemma tokensPrefix_spec a b : tokensPrefix a b = true ↔ a `prefix_of` b.
Proof.
  revert b. induction a as [|x a IH]; intros b; simpl.
  { split; [intros _; apply prefix_nil|done]. }
  destruct b as [|y b].
  { split; [done|]. by intros H%prefix_nil_not. }
  rewrite andb_true_iff, bool_decide_eq_true, IH. split.
  - intros [-> H]. by apply prefix_cons.
  - intros H. split; [by eapply prefix_cons_inv_1|by eapply prefix_cons_inv_2].
Qed.

Lemma overlaps_spec a b : overlaps a b = true ↔ a `prefix_of` b ∨ b `prefix_of` a.
Proof. unfold overlaps. by rewrite orb_true_iff, !tokensPrefix_spec. Qed.

Lemma overlaps_sym a b : overlaps a b = overlaps b a.
Proof. unfold overlaps. apply orb_comm. Qed.

Lemma overlaps_cons t a b : overlaps (t :: a) (t :: b) = overlaps a b.
Proof. unfold overlaps. simpl. by rewrite bool_decide_true. Qed.

Lemma resolve_put_same m toks v : toks ≠ [] → resolve (JObject (put_at m toks v)) toks = Found v.
Proof.
  revert m. induction toks as [|t toks IH]; intros m Hne; [done|].
  destruct toks as [|t' toks]; [simpl; by rewrite lookup_insert_eq|].
  change (put_at m (t :: t' :: toks) v) with
    (<[t := JObject (put_at (match m !! t with Some (JObject c) => c | _ => ∅ end) (t' :: toks) v)]> m).
  cbn [resolve]. rewrite lookup_insert_eq. by apply IH.
Qed.

(** What is found elsewhere is what was found before. *)
Lemma resolve_put_other m toks v q :
  toks ≠ [] → overlaps q toks = false →
  resolve (JObject (put_at m toks v)) q = resolve (JObject m) q ∨
  (∀ x, resolve (JObject (put_at m toks v)) q ≠ Found x ∧ resolve (JObject m) q ≠ Found x).
Proof.
  revert m q. induction toks as [|t toks IH]; intros m q Hne Hov; [done|].
  destruct q as [|s q]; [done|].
  destruct (decide (s = t)) as [->|Hst].
  - rewrite overlaps_cons in Hov. destruct toks as [|t' toks].
    { unfold overlaps in Hov. simpl in Hov. by destruct q. }
    change (put_at m (t :: t' :: toks) v) with
      (<[t := JObject (put_at (match m !! t with Some (JObject c) => c | _ => ∅ end) (t' :: toks) v)]> m).
    cbn [resolve]. rewrite lookup_insert_eq.
    set (child := match m !! t with Some (JObject c) => c | _ => ∅ end).
    assert (Hsame : resolve (JObject child) q = match m !! t with Some next => resolve next q | None => Missing end ∨
      (∀ x, resolve (JObject child) q ≠ Found x ∧ match m !! t with Some next => resolve next q | None => Missing end ≠ Found x)).
    { subst child. destruct q as [|s' q]; [by unfold overlaps in Hov; simpl in Hov|].
      destruct (m !! t) as [[]|]; try (right; intros x; cbn [resolve]; rewrite lookup_empty; done); by left. }
    destruct (IH child q ltac:(done) Hov) as [E|E], Hsame as [E'|E'].
    + left. by rewrite E.
    + right. intros x. rewrite E. apply E'.
    + right. intros x. rewrite <- E'. apply E.
    + right. intros x. split; [apply E|apply E'].
  - left. cbn [resolve]. destruct toks as [|t' toks]; cbn [put_at]; by rewrite lookup_insert_ne.
Qed.

Lemma resolve_put_found m toks v q x :
  toks ≠ [] → overlaps q toks = false →
  resolve (JObject (put_at m toks v)) q = Found x ↔ resolve (JObject m) q = Found x.
Proof.
  intros Hne Hov. destruct (resolve_put_other m toks v q Hne Hov) as [->|H]; [done|].
  destruct (H x). split; congruence.
Qed.

(** ** Accepted allowlists *)

(** Pairwise: no path is a prefix of another. *)
Fixpoint disjoint_paths (ts : list (list string)) : Prop :=
  match ts with
  | [] => True
  | t :: rest => Forall (λ u, overlaps t u = false) rest ∧ disjoint_paths rest
  end.

Lemma pointerTokens_nonempty p toks : p ≠ "" → pointerTokens p = Some toks → toks ≠ [].
Proof.
  unfold pointerTokens. intros Hp. destruct (negb (validPointer p)); [done|].
  destruct (bytes p) as [|c rest] eqn:Hb; [by destruct p|].
  intros [= <-]. destruct rest as [|d rest]; simpl; [done|].
  destruct (Ascii.eqb d "/"); [done|]. by destruct (split_byte "/" rest).
Qed.

Lemma check_loop_ok pointers valid :
  check_loop pointers valid = [] →
  ∃ tss, Forall2 (λ p ts, p ≠ "" ∧ pointerTokens p = Some ts) pointers tss ∧
    disjoint_paths tss ∧ Forall (λ ts, Forall (λ v, overlaps v.2 ts = false) valid) tss.
Proof.
  revert valid. induction pointers as [|p pointers IH]; intros valid; simpl.
  { intros _. by exists []. }
  case_bool_decide as Hp; [done|]. destruct (pointerTokens p) as [toks|] eqn:Ht; [|done].
  destruct (find_first _ _) eqn:Hf; [done|]. intros Hrest.
  destruct (IH _ Hrest) as (tss & H2 & Hd & Hv). apply find_first_None in Hf.
  exists (toks :: tss). split_and!.
  - constructor; [done|done].
  - split; [|done]. rewrite Forall_forall in *. intros ts Hin. specialize (Hv ts Hin).
    rewrite Forall_app, Forall_singleton in Hv. by destruct Hv.
  - constructor; [done|]. rewrite Forall_forall in *. intros ts Hin. specialize (Hv ts Hin).
    rewrite Forall_app in Hv. by destruct Hv.
Qed.

Lemma project_loop_ok root pointers tss out out' :
  Forall2 (λ p ts, p ≠ "" ∧ pointerTokens p = Some ts) pointers tss → disjoint_paths tss →
  project_loop root pointers out = Ok out' →
  Forall (λ ts, ∃ v, resolve root ts = Found v ∧ resolve (JObject out') ts = Found v) tss ∧
  (∀ q x, Forall (λ ts, overlaps q ts = false) tss →
     resolve (JObject out') q = Found x ↔ resolve (JObject out) q = Found x).
Proof.
  intros H2. revert out. induction H2 as [|p ts pointers tss [Hp Ht] H2 IH]; intros out Hd; simpl.
  { by intros [= <-]. }
  rewrite Ht. destruct Hd as [Hdt Hd]. pose proof (pointerTokens_nonempty p ts Hp Ht) as Hne.
  destruct (resolve root ts) as [v| |] eqn:Hr; [|done..]. intros Hloop.
  destruct (IH _ Hd Hloop) as [IH1 IH2]. split.
  - constructor; [|done]. exists v. split; [done|]. apply IH2; [done|]. by apply resolve_put_same.
  - intros q x [Hq Hqs]%Forall_cons. rewrite IH2 by done. by apply resolve_put_found.
Qed.

Lemma resolve_app doc a b x :
  resolve doc (a ++ b) = Found x ↔ ∃ y, resolve doc a = Found y ∧ resolve y b = Found x.
Proof.
  revert doc. induction a as [|t a IH]; intros doc; simpl.
  { split; [by exists doc|]. by intros (y & [= ->] & H). }
  destruct doc; try (split; [done|by intros (? & ? & _)]).
  destruct (m !! t); [apply IH|]. split; [done|by intros (? & ? & _)].
Qed.

Lemma project_loop_err root pointers tss out e :
  Forall2 (λ p ts, p ≠ "" ∧ pointerTokens p = Some ts) pointers tss →
  project_loop root pointers out = Err e →
  ∃ p ts, p ∈ pointers ∧ pointerTokens p = Some ts ∧
    (e = SelectsNothing p ∧ resolve root ts = Missing ∨
     e = TraversesArray p ∧ resolve root ts = ArrayTraversal).
Proof.
  intros H2. revert out. induction H2 as [|p ts pointers tss [Hp Ht] H2 IH]; intros out; simpl; [done|].
  rewrite Ht. destruct (resolve root ts) eqn:Hr.
  - intros (p' & ts' & Hin & Hts' & H)%IH. exists p', ts'. split_and!; [set_solver|done..].
  - intros [= <-]. exists p, ts. split_and!; [set_solver|done|by left].
  - intros [= <-]. exists p, ts. split_and!; [set_solver|done|by right].
Qed.

Lemma project_checked root pointers out :
  project root pointers = Ok out →
  checkProjection pointers = [] ∧ project_loop root pointers ∅ = Ok out.
Proof. unfold project. by destruct (checkProjection pointers). Qed.

(** ** Pointers of paths *)

Definition escape_byte (c : ascii) : list ascii :=
  if bool_decide (c = "~"%char) then ["~"%char; "0"%char]
  else if bool_decide (c = "/"%char) then ["~"%char; "1"%char]
  else [c].

Definition escape (l : list ascii) : list ascii := flat_map escape_byte l.

(** The pointer of a path. *)
Definition pointer_of (toks : list string) : string :=
  of_bytes (flat_map (λ t, "/"%char :: escape (bytes t)) toks).

(** After "~1" is replaced, only the tildes are still escaped. *)
Definition half_byte (c : ascii) : list ascii :=
  if bool_decide (c = "~"%char) then ["~"%char; "0"%char] else [c].

Lemma replace_pair_cons_ne a b r c l : c ≠ a → replace_pair a b r (c :: l) = c :: replace_pair a b r l.
Proof. intros Hc. destruct l as [|d l]; [done|]. cbn [replace_pair]. by rewrite (bool_decide_false (c = a)). Qed.

Lemma replace_pair_two a b r c d l :
  replace_pair a b r (c :: d :: l) =
  if bool_decide (c = a) && bool_decide (d = b) then r :: replace_pair a b r l
  else c :: replace_pair a b r (d :: l).
Proof. done. Qed.

Lemma replace_slash l : replace_pair "~" "1" "/" (escape l) = flat_map half_byte l.
Proof.
  induction l as [|c l IH]; [done|]. unfold escape in *. simpl. unfold escape_byte at 1, half_byte at 1.
  case_bool_decide as Hc; [subst|case_bool_decide as Hs; [subst|]].
  - cbn [app]. rewrite replace_pair_two, (bool_decide_false ("0"%char = "1"%char)), andb_false_r by done.
    rewrite replace_pair_cons_ne by done. by rewrite IH.
  - cbn [app]. rewrite replace_pair_two, !bool_decide_true by done. cbn [andb]. by rewrite IH.
  - cbn [app]. rewrite replace_pair_cons_ne by done. by rewrite IH.
Qed.

Lemma replace_tilde l : replace_pair "~" "0" "~" (flat_map half_byte l) = l.
Proof.
  induction l as [|c l IH]; [done|]. simpl. unfold half_byte at 1. case_bool_decide as Hc; [subst|].
  - cbn [app]. rewrite replace_pair_two, !bool_decide_true by done. cbn [andb]. by rewrite IH.
  - cbn [app]. rewrite replace_pair_cons_ne by done. by rewrite IH.
Qed.

Lemma unescape_escape l : unescape (escape l) = l.
Proof. unfold unescape. by rewrite replace_slash, replace_tilde. Qed.

Lemma escape_no_slash l : "/"%char ∉ escape l.
Proof.
  induction l as [|c l IH]; [set_solver|]. unfold escape in *. simpl. unfold escape_byte at 1.
  rewrite elem_of_app. intros [H|]; [|done]. repeat case_bool_decide; set_solver.
Qed.

Lemma valid_escapes_escape l k : valid_escapes (escape l ++ k) = valid_escapes k.
Proof.
  induction l as [|c l IH]; [done|]. unfold escape in *. simpl. rewrite <- app_assoc. unfold escape_byte at 1.
  case_bool_decide as Hc; [done|case_bool_decide as Hs; [done|]].
  cbn [app valid_escapes]. by rewrite bool_decide_false.
Qed.

Lemma valid_pointer_of toks :
  valid_escapes (flat_map (λ t, "/"%char :: escape (bytes t)) toks) = true.
Proof.
  induction toks as [|t toks IH]; [done|]. simpl. by rewrite valid_escapes_escape.
Qed.

Lemma split_pointer_of t toks :
  map (λ t, of_bytes (unescape t))
    (split_byte "/" (escape (bytes t) ++ flat_map (λ t, "/"%char :: escape (bytes t)) toks)) = t :: toks.
Proof.
  revert t. induction toks as [|u toks IH]; intros t; simpl.
  - rewrite app_nil_r, split_byte_none by apply escape_no_slash. simpl.
    by rewrite unescape_escape, of_bytes_bytes.
  - rewrite split_byte_app by apply escape_no_slash. simpl. rewrite unescape_escape, of_bytes_bytes. by rewrite IH.
Qed.

(** ** Properties *)

(** Reading back a pointer: for every path of object members, whatever
    bytes its names have (slashes and tildes included), the pointer that escapes
    them is valid and [pointerTokens] of it is that path; so every member of
    every document can be shared. *)
Theorem pointerTokens_roundtrip toks : pointerTokens (pointer_of toks) = Some toks.
Proof.
  unfold pointerTokens, validPointer, pointer_of. rewrite bytes_of_bytes.
  destruct toks as [|t toks]; [done|]. simpl flat_map. cbn [app]. cbv iota.
  pose proof (valid_pointer_of (t :: toks)) as Hv. simpl flat_map in Hv. cbn [app] in Hv.
  rewrite bool_decide_true by done. rewrite Hv. simpl. f_equal. apply split_pointer_of.
Qed.

(** C29. A projection is exact: when [projectOutput] accepts, every pointer of
    the allowlist selects in the result what it selects in the document, and
    whatever the result holds is the document's own value at or below a selected
    member, or one of the objects enclosing a selected member: nothing else of
    the document is published. *)
Theorem project_exact root pointers out (Hok : project root pointers = Ok out) :
  (∀ p ts, p ∈ pointers → pointerTokens p = Some ts →
     ∃ v, resolve root ts = Found v ∧ resolve (JObject out) ts = Found v) ∧
  (∀ q x, q ≠ [] → resolve (JObject out) q = Found x →
     ∃ p ts, p ∈ pointers ∧ pointerTokens p = Some ts ∧
       (ts `prefix_of` q ∧ resolve root q = Found x ∨ q `prefix_of` ts ∧ q ≠ ts)).
Proof.
  apply project_checked in Hok as [Hc Hl]. apply check_loop_ok in Hc as (tss & H2 & Hd & _).
  destruct (project_loop_ok root pointers tss ∅ out H2 Hd Hl) as [Hsel Hout].
  rewrite Forall_forall in Hsel. split.
  - intros p ts Hp Hts. apply Hsel. apply list_elem_of_lookup in Hp as [i Hi].
    destruct (Forall2_lookup_l _ _ _ _ _ H2 Hi) as (ts' & Hi' & _ & Hts').
    rewrite Hts in Hts'. injection Hts' as <-. by eapply list_elem_of_lookup_2.
  - intros q x Hq Hx. destruct (decide (Forall (λ ts, overlaps q ts = false) tss)) as [Hno|Hyes].
    { apply Hout in Hx; [|done]. destruct q as [|t q]; [done|]. simpl in Hx. by rewrite lookup_empty in Hx. }
    apply not_Forall_Exists in Hyes; [|apply _]. apply Exists_exists in Hyes as (ts & Hin & Hov).
    apply not_false_iff_true, overlaps_spec in Hov.
    destruct (Hsel ts Hin) as (v & Hv & Hv'). apply list_elem_of_lookup in Hin as [i Hi].
    destruct (Forall2_lookup_r _ _ _ _ _ H2 Hi) as (p & Hp & _ & Hts).
    exists p, ts. split_and!; [by eapply list_elem_of_lookup_2|done|].
    assert (Hdown : ts `prefix_of` q → resolve root q = Found x).
    { intros [r ->]. apply resolve_app in Hx as (y & Hy & Hx). apply resolve_app. exists y. split; [congruence|done]. }
    destruct (decide (q = ts)) as [->|Hne]; [by left; split; [|by apply Hdown]|].
    destruct Hov as [Hov|Hov]; [by right|left]. split; [done|by apply Hdown].
Qed.

(** A document with one member shared from inside an object and one whole. *)
Definition a_root : json :=
  JObject {[ "a" := JObject {[ "b" := JNumber "1"; "secret" := JNumber "2" ]};
             "c" := JArray [JNumber "3"]; "d" := JString "x" ]}.

Definition a_projection : gmap string json :=
  {[ "a" := JObject {[ "b" := JNumber "1" ]}; "c" := JArray [JNumber "3"] ]}.

Lemma project_exact_witness :
  project a_root ["/a/b"; "/c"] = Ok a_projection ∧
  ∃ p ts, p ∈ ["/a/b"; "/c"] ∧ pointerTokens p = Some ts ∧
    (ts `prefix_of` ["a"; "b"] ∧ resolve a_root ["a"; "b"] = Found (JNumber "1") ∨
     ["a"; "b"] `prefix_of` ts ∧ ["a"; "b"] ≠ ts).
Proof.
  assert (H : project a_root ["/a/b"; "/c"] = Ok a_projection) by (vm_compute; reflexivity).
  split; [exact H|].
  apply (proj2 (project_exact a_root ["/a/b"; "/c"] a_projection H)); [done|vm_compute; reflexivity].
Defined.

(** When a projection is refused: exactly when a pointer is the empty one, is
    malformed or overlaps an earlier one, or when the document has nothing at a
    pointer's path or an array on the way; the error names a pointer that is the
    cause. Otherwise it succeeds. *)
Theorem project_refused root pointers :
  (is_ok (project root pointers) = true ↔
     checkProjection pointers = [] ∧
     ∀ p, p ∈ pointers → ∃ v, resolvePointer root p = Some (Found v)) ∧
  (∀ p, project root pointers = Err (SelectsNothing p) →
     p ∈ pointers ∧ resolvePointer root p = Some Missing) ∧
  (∀ p, project root pointers = Err (TraversesArray p) →
     p ∈ pointers ∧ resolvePointer root p = Some ArrayTraversal).
Proof.
  unfold project, resolvePointer. destruct (checkProjection pointers) as [|i l] eqn:Hc.
  2: { split_and!; [split; [done|by intros []]|done..]. }
  apply check_loop_ok in Hc as (tss & H2 & Hd & _).
  destruct (project_loop root pointers ∅) as [out|e] eqn:Hl.
  - destruct (project_loop_ok _ _ _ _ _ H2 Hd Hl) as [Hsel _]. rewrite Forall_forall in Hsel.
    split_and!; [|done..]. split; [intros _|done]. split; [done|]. intros p Hp.
    apply list_elem_of_lookup in Hp as [i Hi].
    destruct (Forall2_lookup_l _ _ _ _ _ H2 Hi) as (ts & Hi' & _ & Hts).
    destruct (Hsel ts) as (v & Hv & _); [by eapply list_elem_of_lookup_2|].
    exists v. rewrite Hts. simpl. by rewrite Hv.
  - destruct (project_loop_err _ _ _ _ _ H2 Hl) as (p & ts & Hp & Hts & He).
    assert (Hr : ∀ v, resolve root ts ≠ Found v) by (intros v; destruct He as [[_ ->]|[_ ->]]; done).
    split_and!.
    + split; [done|]. intros [_ H]. destruct (H p Hp) as (v & Hv). rewrite Hts in Hv. simpl in Hv.
      injection Hv as Hv. by destruct (Hr v).
    + intros p' [= ->]. destruct He as [[[= ->] He]|[? _]]; [|done]. by rewrite Hts; simpl; rewrite He.
    + intros p' [= ->]. destruct He as [[? _]|[[= ->] He]]; [done|]. by rewrite Hts; simpl; rewrite He.
Qed.
