(* ===== verification/ForumRouter.v ===== *)
(** * The forum's router

    forum/router.go: from a layer's routes, the sources and the outputs of
    earlier layers, what each participant and the moderator receive. Reading a
    file is a parameter [read]; the random generator of distribution is the
    class [GoRand], of which only the range of its numbers is used. *)

From stdpp Require Import base gmap strings list sets sorting.
From Stdlib Require Import ZArith Lia Ascii.
From S2P Require Import Prelude GoString ForumConfig JsonPointer.

Open Scope Z_scope.

(** ** Data *)

Inductive InputKind := InputSource | InputOutput | OtherInput (s : string).

#[export] Instance InputKind_eq_dec : EqDecision InputKind.
Proof. solve_decision. Defined.

Record InputItem := {
  it_Route : Z;
  Kind : InputKind;
  SourceID : string;
  it_OutputID : string;
  it_LayerID : string;
  it_Round : Z;
  Author : string;
  AuthorName : string;
  it_Label : string;
  it_Anonymous : bool;
  it_Format : Format;
  Content : string
}.

#[export] Instance InputItem_eq_dec : EqDecision InputItem.
Proof. solve_decision. Defined.

Record LayerInputs := {
  li_LayerID : string;
  li_Participants : gmap string (list InputItem);
  li_Moderator : list InputItem;
  li_Missing : list Z
}.

(** The members of participants.json the router reads: the id and the name. *)
Record ParticipantRecord := { pr_AgentID : string; pr_Name : string }.

Inductive RouterError :=
| NoTake (* a moderator route takes no [to] *)
| FullNeedsTo
| NotOfLayer (pid : string)
| NoRecipients
| BadShape (e : RouteShapeError)
| UnknownLayer (id : string)
| NotEarlier (id : string)
| LayerDisabled (id : string)
| SelectsNone
| SameParticipantOfSource
| UnknownSource (id : string)
| ReadFailed (id : string)
| NotNarrowed (id : string)
| UnknownSelect
| UnknownView
| UnknownDistribute
| ReceivesNothing (pid : string)
| OnlyItsOwn (pid : string).

(** An error of the route at this position of the layer's inputs, or of its
    moderator's. *)
Record RouteError := { re_Moderator : bool; re_Index : Z; re_Err : RouterError }.

Definition routeError (m : bool) (i : Z) (e : RouterError) : RouteError :=
  {| re_Moderator := m; re_Index := i; re_Err := e |}.

(** ** Randomness

    [math/rand/v2]: a generator made from two 64-bit seeds and the draw of a
    number below a bound. *)
Class GoRand := {
  rng : Type;
  NewPCG : Z → Z → rng;
  uint64n : rng → Z → Z * rng;
  uint64n_range r n : 0 < n → 0 ≤ (uint64n r n).1 < n
}.

(** [fnv.New64a] over the bytes of a string. *)
Definition fnv64a (s : string) : Z :=
  foldl (λ h c, (Z.lxor h (byte_val c) * 1099511628211) mod 2 ^ 64) 14695981039346656037 (bytes s).

Section shuffle.
Context {R : GoRand} {A : Type}.

Definition swap (l : list A) (i j : nat) : list A :=
  match l !! i, l !! j with
  | Some a, Some b => <[i := b]> (<[j := a]> l)
  | _, _ => l
  end.

(** [rand.Shuffle]: from the last position down, a swap with a position drawn
    from those up to it. *)
Fixpoint shuffle_from (i : nat) (l : list A) (r : rng) : list A * rng :=
  match i with
  | O => (l, r)
  | S i' =>
      let '(j, r') := uint64n r (Z.of_nat i + 1) in
      shuffle_from i' (swap l i (Z.to_nat j)) r'
  end.

Definition Shuffle (l : list A) (r : rng) : list A * rng := shuffle_from (length l - 1) l r.

Lemma insert_perm (l : list A) i a b : l !! i = Some a → a :: <[i := b]> l ≡ₚ b :: l.
Proof.
  intros H. rewrite insert_take_drop by (eapply lookup_lt_Some; exact H).
  rewrite <- (take_drop_middle l i a H) at 3. solve_Permutation.
Qed.

Lemma swap_perm l i j : swap l i j ≡ₚ l.
Proof.
  unfold swap. destruct (l !! i) as [a|] eqn:Hi, (l !! j) as [b|] eqn:Hj; try done.
  apply (Permutation_cons_inv (a := a)).
  rewrite insert_perm; [by apply insert_perm|].
  destruct (decide (i = j)) as [->|Hne].
  - apply list_lookup_insert_eq. by eapply lookup_lt_Some.
  - by rewrite list_lookup_insert_ne.
Qed.

Lemma shuffle_from_perm i l r : (shuffle_from i l r).1 ≡ₚ l.
Proof.
  revert l r. induction i as [|i IH]; intros l r; cbn [shuffle_from]; [done|].
  destruct (uint64n r _) as [j r']. by rewrite IH, swap_perm.
Qed.

Lemma Shuffle_perm l r : (Shuffle l r).1 ≡ₚ l.
Proof. apply shuffle_from_perm. Qed.
End shuffle.

(** ** Labels and order *)

(** The loop of [responseLabel] for [n], one letter each turn: [n] turns are
    enough, as [n] becomes smaller each time. *)
Fixpoint letters (fuel : nat) (n : Z) (acc : list ascii) : list ascii :=
  match fuel with
  | O => acc
  | S fuel' =>
      if 0 <? n then letters fuel' ((n - 1) / 26) (byte_of (65 + (n - 1) mod 26) :: acc) else acc
  end.

Definition responseLabel (pos : Z) : string :=
  "Response " +:+ of_bytes (letters (Z.to_nat (pos + 1)) (pos + 1) []).

(** The position [orderOutputs] gives an author. *)
Definition author_pos (l : Layer) (pid : string) : Z :=
  let i := Index (l_Participants l) pid in
  if 0 <=? i then i else Z.of_nat (length (l_Participants l)).

(** The comparison of [orderOutputs] is not positive. *)
Definition output_le (l : Layer) (a b : OutputRecord) : bool :=
  (or_Round a <? or_Round b) ||
  ((or_Round a =? or_Round b) && (author_pos l (ParticipantID a) <=? author_pos l (ParticipantID b))).

Definition orderOutputs (l : Layer) (outs : list OutputRecord) : list OutputRecord :=
  stable_sort (output_le l) outs.

(** [lastPerParticipant]: [last] maps an author to the position of its newest
    record. *)
Definition last_index (outs : list OutputRecord) : gmap string nat :=
  list_to_map (rev (imap (λ i o, (ParticipantID o, i)) outs)).

Definition lastPerParticipant (outs : list OutputRecord) : list OutputRecord :=
  omap (λ p : nat * OutputRecord,
          if bool_decide (last_index outs !! ParticipantID p.2 = Some p.1) then Some p.2 else None)
    (imap pair outs).

(** [dedupe]: [seen] holds the keys kept so far. *)
Definition item_key (it : InputItem) : InputKind * string * string :=
  (Kind it, SourceID it +:+ String "000"%char (it_OutputID it), Content it).

Fixpoint dedupe_loop (items : list InputItem) (seen : list (InputKind * string * string)) : list InputItem :=
  match items with
  | [] => []
  | it :: rest =>
      if bool_decide (item_key it ∈ seen) then dedupe_loop rest seen
      else it :: dedupe_loop rest (item_key it :: seen)
  end.

Definition dedupe (items : list InputItem) : list InputItem := dedupe_loop items [].

(** ** Distribution *)

(** A recipient's bundle of a deal. *)
Definition bundle (dealt : gmap string (list InputItem)) (pid : string) : list InputItem :=
  default [] (dealt !! pid).

Definition deal_to (dealt : gmap string (list InputItem)) (pid : string) (its : list InputItem) :=
  <[pid := bundle dealt pid ++ its]> dealt.

(** The recipient [k] places after the one whose turn it is. *)
Definition turn_of (recipients : list string) (next k : nat) : string :=
  nth ((next + k) mod length recipients) recipients "".

(** The dealing loop of [DistributeRandom]. *)
Fixpoint deal_loop (anonymous : bool) (recipients : list string) (items : list InputItem) (next : nat)
    (dealt : gmap string (list InputItem)) : gmap string (list InputItem) :=
  match items with
  | [] => dealt
  | it :: rest =>
      match find_first (λ k, negb (anonymous && bool_decide (Author it = turn_of recipients next k)))
              (seq 0 (length recipients)) with
      | Some k =>
          deal_loop anonymous recipients rest ((next + k + 1) mod length recipients)
            (deal_to dealt (turn_of recipients next k) [it])
      | None => deal_loop anonymous recipients rest next dealt
      end
  end.

(** The first recipient left with nothing. *)
Definition empty_handed (dealt : gmap string (list InputItem)) (recipients : list string) : option string :=
  find_first (λ pid, bool_decide (bundle dealt pid = [])) recipients.

Section distribute.
Context {R : GoRand}.

(** The bundles before the check that nobody is left with nothing. *)
Definition deal_out (route : Route) (items : list InputItem) (recipients : list string) (r : rng)
    : result (gmap string (list InputItem)) RouterError * rng :=
  match rt_Distribute route with
  | NoDistribute | DistributeAll => (Ok (foldl (λ d pid, <[pid := items]> d) ∅ recipients), r)
  | DistributeSameParticipant =>
      (Ok (foldl (λ d pid, deal_to d pid (keep (λ it, bool_decide (Author it = pid)) items)) ∅ recipients), r)
  | DistributeRandom =>
      let '(shuffled, r') := Shuffle items r in
      (Ok (deal_loop (rt_Anonymous route) recipients shuffled 0 ∅), r')
  | OtherDistribute _ => (Err UnknownDistribute, r)
  end.

Definition distribute (route : Route) (items : list InputItem) (recipients : list string) (r : rng)
    : result (gmap string (list InputItem)) RouterError * rng :=
  let '(d, r') := deal_out route items recipients r in
  ((let* dealt := d in
    match (if Optional route then None else empty_handed dealt recipients) with
    | Some pid => Err (ReceivesNothing pid)
    | None => Ok dealt
    end)%go, r').
End distribute.

(** The loop of [withoutOwn]. *)
Fixpoint without_own_loop (optional : bool) (recipients : list string) (dealt : gmap string (list InputItem))
    : result (gmap string (list InputItem)) RouterError :=
  match recipients with
  | [] => Ok dealt
  | pid :: rest =>
      let left := keep (λ it, negb (bool_decide (Author it = pid))) (bundle dealt pid) in
      if bool_decide (left = []) && negb optional then Err (OnlyItsOwn pid)
      else without_own_loop optional rest (<[pid := left]> dealt)
  end.

Definition withoutOwn (route : Route) (dealt : gmap string (list InputItem)) (recipients : list string)
    : result (gmap string (list InputItem)) RouterError :=
  if negb (rt_Anonymous route) then Ok dealt else without_own_loop (Optional route) recipients dealt.

(** ** The router *)

Section router.
Context {R : GoRand} {J : JSONText}.
Context (cfg : Config) (snap : Snapshot) (parts : option (gmap string ParticipantRecord)).
Context (read : string → option string).

Definition layerRand (seed : Z) (layerID : string) : rng := NewPCG (seed mod 2 ^ 64) (fnv64a layerID).

Definition checkRoute (l : Layer) (route : Route) (recipients : list string) (moderator : bool)
    : result unit RouterError :=
  if bool_decide (rt_View route = ViewFull) && bool_decide (To route = []) && negb moderator then Err FullNeedsTo
  else match find_first (λ pid, negb (bool_decide (pid ∈ l_Participants l))) (To route) with
       | Some pid => Err (NotOfLayer pid)
       | None => if bool_decide (recipients = []) then Err NoRecipients else Ok tt
       end.

Definition precedes (a b : string) : bool :=
  let ia := Index (map l_ID (Layers cfg)) a in
  let ib := Index (map l_ID (Layers cfg)) b in
  (0 <=? ia) && (0 <=? ib) && (ia <? ib).

(** [narrow]; [None] is an error. *)
Definition narrow (f : Format) (content : string) (paths : list string) : option string :=
  if bool_decide (paths = []) then Some content
  else if negb (bool_decide (f = FormatJSON)) then None
  else match projectOutput content paths with Ok s => Some s | Err _ => None end.

Definition sourceItem (route : Route) (index : Z) (sourceID : string) : result (list InputItem) RouterError :=
  if bool_decide (rt_Distribute route = DistributeSameParticipant) then Err SameParticipantOfSource
  else match sn_Sources snap !! sourceID with
       | None => Err (UnknownSource sourceID)
       | Some rec =>
           match read (sr_File rec) with
           | None => Err (ReadFailed sourceID)
           | Some content =>
               match narrow (sr_Decode rec) content (Paths route) with
               | None => Err (NotNarrowed sourceID)
               | Some content =>
                   Ok [{| it_Route := index; Kind := InputSource; SourceID := sourceID; it_OutputID := "";
                          it_LayerID := ""; it_Round := 0; Author := ""; AuthorName := ""; it_Label := "";
                          it_Anonymous := false; it_Format := sr_Decode rec; Content := content |}]
               end
           end
       end.

(** A route of these reads the layer's outputs without their authors. *)
Definition reads_anonymously (layerID : string) (routes : list Route) : bool :=
  existsb (λ rt, match Producer rt with
                 | Ok (RouteFromLayer, id) => rt_Anonymous rt && bool_decide (id = layerID)
                 | _ => false
                 end) routes.

Definition moderator_inputs (l : Layer) : list Route :=
  match l_Moderator l with Some m => md_Inputs m | None => [] end.

Definition readAnonymously (layerID : string) : bool :=
  existsb (λ l, reads_anonymously layerID (l_Inputs l) || reads_anonymously layerID (moderator_inputs l))
    (Layers cfg).

Definition participantName (id : string) : string :=
  let configured :=
    match cfg_Participants cfg !! id with
    | Some p => if negb (bool_decide (pt_Name p = "")) then pt_Name p else id
    | None => id
    end in
  match parts with
  | None => configured
  | Some ps =>
      match ps !! id with
      | Some p => if negb (bool_decide (pr_Name p = "")) then pr_Name p else configured
      | None => configured
      end
  end.

(** The file of an output a route's [view] reads. *)
Definition view_file (v : View) (o : OutputRecord) : result string RouterError :=
  match v with
  | NoView | ViewPublished => Ok (PublishedFile o)
  | ViewFull => Ok (ContentFile o)
  | OtherView _ => Err UnknownView
  end.

(** One record of [outputItems]. *)
Definition outputItem (route : Route) (index : Z) (producer : Layer) (o : OutputRecord)
    : result InputItem RouterError :=
  (let* file := view_file (rt_View route) o in
   match read file with
   | None => Err (ReadFailed (OutputID o))
   | Some content =>
       match narrow (or_Format o) content (Paths route) with
       | None => Err (NotNarrowed (OutputID o))
       | Some content =>
           Ok {| it_Route := index; Kind := InputOutput; SourceID := ""; it_OutputID := OutputID o;
                 it_LayerID := or_LayerID o; it_Round := or_Round o; Author := ParticipantID o;
                 AuthorName := participantName (ParticipantID o);
                 it_Label := if rt_Anonymous route || readAnonymously (l_ID producer)
                             then responseLabel (Index (l_Participants producer) (ParticipantID o)) else "";
                 it_Anonymous := rt_Anonymous route; it_Format := or_Format o; Content := content |}
       end
   end)%go.

Fixpoint output_items_loop (route : Route) (index : Z) (producer : Layer) (outs : list OutputRecord)
    : result (list InputItem) RouterError :=
  match outs with
  | [] => Ok []
  | o :: rest =>
      (let* item := outputItem route index producer o in
       let* items := output_items_loop route index producer rest in
       Ok (item :: items))%go
  end.

(** The outputs a route picks: [select], then [authors]. *)
Definition selected (route : Route) (outs : list OutputRecord) : result (list OutputRecord) RouterError :=
  (let* outs := match rt_Select route with
                | NoSelect | SelectAll => Ok outs
                | SelectLastPerParticipant => Ok (lastPerParticipant outs)
                | OtherSelect _ => Err UnknownSelect
                end in
   Ok (if bool_decide (Authors route = []) then outs
       else keep (λ o, bool_decide (ParticipantID o ∈ Authors route)) outs))%go.

Definition outputItems (route : Route) (index : Z) (producer : Layer) (outs : list OutputRecord)
    : result (list InputItem) RouterError :=
  (let* outs := selected route outs in output_items_loop route index producer outs)%go.

(** The end of [routeItems]. *)
Definition required (route : Route) (items : result (list InputItem) RouterError) :=
  (let* its := items in
   if bool_decide (its = []) && negb (Optional route) then Err SelectsNone else Ok its)%go.

Definition routeItems (consumer : Layer) (route : Route) (index : Z)
    (produced : gmap string (list OutputRecord)) : result (list InputItem) RouterError :=
  match Producer route with
  | Err e => Err (BadShape e)
  | Ok (RouteFromSource, id) => required route (sourceItem route index id)
  | Ok (RouteFromLayer, id) =>
      match Config_Layer cfg id with
      | None => Err (UnknownLayer id)
      | Some producer =>
          if negb (precedes id (l_ID consumer)) then Err (NotEarlier id)
          else if negb (bool_decide (id ∈ sn_Layers snap)) then
            if Optional route then Ok [] else Err (LayerDisabled id)
          else required route
                 (outputItems route index producer (orderOutputs producer (default [] (produced !! id))))
      end
  end.

(** One route of [Resolve]: [None] when it supplies nothing. *)
Definition resolve_route (l : Layer) (route : Route) (index : Z) (recipients : list string) (moderator : bool)
    (produced : gmap string (list OutputRecord)) (r : rng)
    : result (option (gmap string (list InputItem))) RouterError * rng :=
  match (let* _ := checkRoute l route recipients moderator in routeItems l route index produced)%go with
  | Err e => (Err e, r)
  | Ok [] => (Ok None, r)
  | Ok items =>
      let '(d, r') := distribute route items recipients r in
      ((let* dealt := d in let* dealt := withoutOwn route dealt recipients in Ok (Some dealt))%go, r')
  end.

Definition route_recipients (l : Layer) (route : Route) : list string :=
  if bool_decide (To route = []) then l_Participants l else To route.

(** The loop over the layer's inputs. *)
Fixpoint resolve_inputs (l : Layer) (produced : gmap string (list OutputRecord)) (routes : list Route)
    (index : Z) (r : rng) (ps : gmap string (list InputItem)) (missing : list Z)
    : result (gmap string (list InputItem) * list Z * rng) RouteError :=
  match routes with
  | [] => Ok (ps, missing, r)
  | route :: rest =>
      let recipients := route_recipients l route in
      let '(d, r') := resolve_route l route index recipients false produced r in
      match d with
      | Err e => Err (routeError false index e)
      | Ok None => resolve_inputs l produced rest (index + 1) r' ps (missing ++ [index])
      | Ok (Some dealt) =>
          resolve_inputs l produced rest (index + 1) r'
            (foldl (λ ps pid, deal_to ps pid (bundle dealt pid)) ps recipients) missing
      end
  end.

(** The loop over the moderator's inputs. *)
Fixpoint resolve_moderator (l : Layer) (m : Moderator) (produced : gmap string (list OutputRecord))
    (routes : list Route) (index : Z) (r : rng) (acc : list InputItem) : result (list InputItem) RouteError :=
  match routes with
  | [] => Ok acc
  | route :: rest =>
      if negb (bool_decide (To route = [])) then Err (routeError true index NoTake)
      else
        let '(d, r') := resolve_route l route index [md_Participant m] true produced r in
        match d with
        | Err e => Err (routeError true index e)
        | Ok None => resolve_moderator l m produced rest (index + 1) r' acc
        | Ok (Some dealt) =>
            resolve_moderator l m produced rest (index + 1) r' (acc ++ bundle dealt (md_Participant m))
        end
  end.

Definition Resolve (l : Layer) (produced : gmap string (list OutputRecord)) : result LayerInputs RouteError :=
  (let* out := resolve_inputs l produced (l_Inputs l) 0 (layerRand (sn_Seed snap) (l_ID l)) ∅ [] in
   let '(ps, missing, r) := out in
   let* mod_items := match l_Moderator l with
                     | None => Ok []
                     | Some m =>
                         (let* its := resolve_moderator l m produced (md_Inputs m) 0 r [] in Ok (dedupe its))%go
                     end in
   Ok {| li_LayerID := l_ID l; li_Participants := dedupe <$> ps; li_Moderator := mod_items;
         li_Missing := missing |})%go.
End router.

(** ** Labels *)

(** The number letters stand for. *)
Definition letters_value (v : Z) (l : list ascii) : Z := foldl (λ v c, 26 * v + (byte_val c - 64)) v l.

Lemma letters_value_letters fuel n acc :
  0 ≤ n ≤ Z.of_nat fuel → letters_value 0 (letters fuel n acc) = letters_value n acc.
Proof.
  revert n acc. induction fuel as [|fuel IH]; intros n acc Hn; cbn [letters].
  { by replace n with 0 by lia. }
  case_if; zb; [|by replace n with 0 by lia].
  pose proof (Z.mod_pos_bound (n - 1) 26 ltac:(lia)). pose proof (Z.div_mod (n - 1) 26 ltac:(lia)).
  rewrite IH by (split; [apply Z.div_pos; lia|apply Z.div_le_upper_bound; lia]).
  unfold letters_value. simpl. f_equal. rewrite byte_val_of by lia. lia.
Qed.

Lemma responseLabel_letters pos pos' :
  -1 ≤ pos → -1 ≤ pos' → responseLabel pos = responseLabel pos' → pos = pos'.
Proof.
  unfold responseLabel. intros H H' Heq. apply (f_equal bytes) in Heq.
  rewrite !bytes_app in Heq. apply (inj (bytes "Response " ++.)) in Heq. rewrite !bytes_of_bytes in Heq.
  apply (f_equal (letters_value 0)) in Heq.
  rewrite !letters_value_letters in Heq by lia. unfold letters_value in Heq. simpl in Heq. lia.
Qed.

(** ** Order *)

Lemma output_le_total l a b : output_le l a b = true ∨ output_le l b a = true.
Proof. unfold output_le. rewrite !orb_true_iff, !andb_true_iff, !Z.ltb_lt, !Z.eqb_eq, !Z.leb_le. lia. Qed.

Lemma output_le_trans l a b c : output_le l a b = true → output_le l b c = true → output_le l a c = true.
Proof. unfold output_le. rewrite !orb_true_iff, !andb_true_iff, !Z.ltb_lt, !Z.eqb_eq, !Z.leb_le. lia. Qed.

Lemma output_le_round l a b : output_le l a b = true → or_Round a ≤ or_Round b.
Proof. unfold output_le. rewrite orb_true_iff, andb_true_iff, Z.ltb_lt, Z.eqb_eq. lia. Qed.

(** Equal in the order: of one round and one author, when both are of the layer. *)
Lemma output_le_antisym l a b :
  ParticipantID a ∈ l_Participants l → ParticipantID b ∈ l_Participants l →
  output_le l a b = true → output_le l b a = true →
  or_Round a = or_Round b ∧ ParticipantID a = ParticipantID b.
Proof.
  intros Ha Hb. unfold output_le, author_pos.
  pose proof (Index_neg (l_Participants l) (ParticipantID a)).
  pose proof (Index_neg (l_Participants l) (ParticipantID b)).
  rewrite !(proj2 (Z.leb_le 0 _)) by (apply Z.nlt_ge; naive_solver).
  rewrite !orb_true_iff, !andb_true_iff, !Z.ltb_lt, !Z.eqb_eq, !Z.leb_le. intros H1 H2.
  split; [lia|]. apply (Index_inj (l_Participants l)); [done|lia].
Qed.

Lemma orderOutputs_perm l outs : orderOutputs l outs ≡ₚ outs.
Proof. apply stable_sort_perm. Qed.

Lemma orderOutputs_sorted l outs : StronglySorted (λ a b, output_le l a b = true) (orderOutputs l outs).
Proof. apply stable_sort_sorted; [apply output_le_total|apply output_le_trans]. Qed.

(** ** The newest of each author *)

Lemma last_index_snoc outs o :
  last_index (outs ++ [o]) = <[ParticipantID o := length outs]> (last_index outs).
Proof.
  unfold last_index. rewrite imap_app, rev_app_distr. simpl. by rewrite Nat.add_0_r.
Qed.

Lemma last_index_lt outs p i : last_index outs !! p = Some i → (i < length outs)%nat.
Proof.
  induction outs as [|o outs IH] using rev_ind; [done|].
  rewrite last_index_snoc, length_app. simpl. rewrite lookup_insert_Some.
  intros [[_ <-]|[_ H]]; [lia|]. apply IH in H. lia.
Qed.

Lemma lastPerParticipant_snoc outs o :
  lastPerParticipant (outs ++ [o]) =
  keep (λ o', negb (bool_decide (ParticipantID o' = ParticipantID o))) (lastPerParticipant outs) ++ [o].
Proof.
  unfold lastPerParticipant. rewrite imap_app, omap_app, last_index_snoc. simpl. rewrite Nat.add_0_r. f_equal.
  2: { rewrite lookup_insert_eq. by rewrite bool_decide_true. }
  assert (Hlt : Forall (λ p : nat * OutputRecord, (p.1 < length outs)%nat) (imap pair outs)).
  { rewrite Forall_forall. intros [i x] Hin. apply elem_of_lookup_imap in Hin as (j & y & [= -> ->] & Hj).
    by eapply lookup_lt_Some. }
  revert Hlt. generalize (imap pair outs). intros ps Hlt.
  induction Hlt as [|[i x] l Hi Hl IH]; [done|]. simpl in *.
  destruct (decide (ParticipantID x = ParticipantID o)) as [He|Hne].
  - rewrite He, lookup_insert_eq. rewrite bool_decide_false by (intros [= Hi2]; lia).
    case_bool_decide; [|done]. simpl. by rewrite He, bool_decide_true.
  - rewrite lookup_insert_ne by done. case_bool_decide; [|done]. simpl.
    rewrite (bool_decide_false (ParticipantID x = ParticipantID o)) by done. simpl. f_equal. exact IH.
Qed.

Lemma lastPerParticipant_authors outs : NoDup (map ParticipantID (lastPerParticipant outs)).
Proof.
  induction outs as [|o outs IH] using rev_ind; [constructor|]. rewrite lastPerParticipant_snoc, map_app.
  apply NoDup_app. split_and!.
  - eapply sublist_NoDup; [exact IH|]. apply fmap_sublist, keep_sublist.
  - intros p Hp Hp'. apply list_elem_of_singleton in Hp' as ->. apply list_elem_of_fmap in Hp as (o' & Hp & Ho').
    apply elem_of_keep in Ho' as [_ Ho']. by rewrite bool_decide_true in Ho'.
  - apply NoDup_singleton.
Qed.

Lemma lastPerParticipant_sublist outs : lastPerParticipant outs `sublist_of` outs.
Proof.
  induction outs as [|o outs IH] using rev_ind; [constructor|]. rewrite lastPerParticipant_snoc.
  apply sublist_app; [|done]. etrans; [apply keep_sublist|done].
Qed.

Lemma lastPerParticipant_covers outs o :
  o ∈ outs → ∃ o', o' ∈ lastPerParticipant outs ∧ ParticipantID o' = ParticipantID o.
Proof.
  induction outs as [|x outs IH] using rev_ind; [set_solver|]. rewrite lastPerParticipant_snoc, elem_of_app.
  intros Ho. destruct (decide (ParticipantID o = ParticipantID x)) as [->|Hne].
  { exists x. split; [|done]. set_solver. }
  destruct Ho as [Ho|Ho%list_elem_of_singleton]; [|congruence]. destruct (IH Ho) as (o' & Ho' & He).
  exists o'. split; [|done]. apply elem_of_app. left. apply elem_of_keep. split; [done|].
  apply negb_true_iff, bool_decide_eq_false. congruence.
Qed.

(** On a list in any order the kept record of an author is not before the others. *)
Lemma lastPerParticipant_last (le : OutputRecord → OutputRecord → Prop) outs o o' :
  (∀ x, le x x) → StronglySorted le outs →
  o ∈ lastPerParticipant outs → o' ∈ outs → ParticipantID o' = ParticipantID o → le o' o.
Proof.
  intros Hrefl. revert o o'. induction outs as [|x outs IH] using rev_ind; [set_solver|].
  intros o o' Hs. apply StronglySorted_app in Hs as (Hx & Hs & _).
  rewrite lastPerParticipant_snoc, !elem_of_app, !list_elem_of_singleton, elem_of_keep.
  rewrite negb_true_iff, bool_decide_eq_false. intros [[Ho Hne]| ->] [Ho'| ->] He.
  - by apply IH.
  - congruence.
  - apply Hx; [done|set_solver].
  - apply Hrefl.
Qed.

(** ** Duplicates *)

Lemma dedupe_loop_spec items seen :
  NoDup (map item_key (dedupe_loop items seen)) ∧
  (∀ it, it ∈ dedupe_loop items seen → item_key it ∉ seen) ∧
  (∀ it, it ∈ items → item_key it ∈ seen ∨ item_key it ∈ map item_key (dedupe_loop items seen)).
Proof.
  revert seen. induction items as [|x items IH]; intros seen; simpl; [split_and!; [constructor|set_solver..]|].
  case_bool_decide as Hx.
  - destruct (IH seen) as (H1 & H2 & H3). split_and!; [done..|]. intros it [->|Hit]%elem_of_cons; auto.
  - destruct (IH (item_key x :: seen)) as (H1 & H2 & H3). split_and!; simpl.
    + apply NoDup_cons. split; [|done]. intros (it & Hk & Hit)%list_elem_of_fmap.
      apply (H2 it Hit). rewrite <- Hk. left.
    + intros it [->|Hit]%elem_of_cons; [done|]. specialize (H2 it Hit). set_solver.
    + intros it [->|Hit]%elem_of_cons; [right; left|]. destruct (H3 it Hit) as [[->|?]%elem_of_cons|?];
        [right; left|by left|right; by right].
Qed.

Lemma dedupe_sublist items : dedupe items `sublist_of` items.
Proof.
  unfold dedupe. generalize (@nil (InputKind * string * string)).
  induction items as [|x items IH]; intros seen; simpl; [done|]. case_bool_decide; by constructor.
Qed.

Lemma elem_of_dedupe items it : it ∈ dedupe items → it ∈ items.
Proof. apply sublist_subseteq, dedupe_sublist. Qed.

(** ** Dealing *)

Lemma bundle_deal_to d p its q :
  bundle (deal_to d p its) q = if bool_decide (p = q) then bundle d p ++ its else bundle d q.
Proof.
  unfold deal_to. unfold bundle at 1. case_bool_decide as H; [subst; by rewrite lookup_insert_eq|].
  by rewrite lookup_insert_ne.
Qed.

Lemma bundle_insert d p its q : bundle (<[p := its]> d) q = if bool_decide (p = q) then its else bundle d q.
Proof.
  unfold bundle. case_bool_decide as H; [subst; by rewrite lookup_insert_eq|]. by rewrite lookup_insert_ne.
Qed.

Lemma bundle_empty q : bundle ∅ q = [].
Proof. unfold bundle. by rewrite lookup_empty. Qed.

(** All the bundles of a deal, one after the other. *)
Definition dealt_to (d : gmap string (list InputItem)) (recipients : list string) : list InputItem :=
  concat (map (bundle d) recipients).

Lemma dealt_to_other d p its rs : p ∉ rs → dealt_to (deal_to d p its) rs = dealt_to d rs.
Proof.
  intros Hp. unfold dealt_to. f_equal. apply map_ext_in. intros q Hq%list_elem_of_In.
  rewrite bundle_deal_to, bool_decide_false; [done|congruence].
Qed.

Lemma dealt_to_deal d p its rs :
  NoDup rs → p ∈ rs → dealt_to (deal_to d p its) rs ≡ₚ dealt_to d rs ++ its.
Proof.
  induction 1 as [|q rs Hq Hnd IH]; [set_solver|]. unfold dealt_to in *. simpl. rewrite bundle_deal_to.
  case_bool_decide as He.
  - intros _. subst q. pose proof (dealt_to_other d p its rs Hq) as Ho. unfold dealt_to in Ho. rewrite Ho.
    rewrite <- !app_assoc. f_equiv. apply Permutation_app_comm.
  - intros [->|Hp]%elem_of_cons; [done|]. by rewrite (IH Hp), app_assoc.
Qed.

Lemma turn_of_lookup rs next k :
  rs ≠ [] → rs !! ((next + k) mod length rs)%nat = Some (turn_of rs next k).
Proof.
  intros Hne. unfold turn_of.
  destruct (nth_lookup_or_length rs ((next + k) mod length rs)%nat "") as [H|H]; [done|].
  pose proof (Nat.mod_upper_bound (next + k) (length rs)). destruct rs; simpl in *; [done|lia].
Qed.

Lemma turn_of_in rs next k : rs ≠ [] → turn_of rs next k ∈ rs.
Proof. intros Hne. eapply list_elem_of_lookup_2. by apply turn_of_lookup. Qed.

(** Everyone has a turn. *)
Lemma turn_of_reaches rs next p : p ∈ rs → ∃ k, (k < length rs)%nat ∧ turn_of rs next k = p.
Proof.
  intros Hp. apply list_elem_of_lookup in Hp as [i Hi]. pose proof (lookup_lt_Some _ _ _ Hi) as Hlt.
  set (n := length rs) in *. assert (Hn : n ≠ 0%nat) by lia.
  exists ((i + (n - next mod n)) mod n)%nat. split; [by apply Nat.mod_upper_bound|].
  assert (Hmod : ((next + (i + (n - next mod n)) mod n) mod n)%nat = i).
  { rewrite Nat.Div0.add_mod_idemp_r. pose proof (Nat.div_mod next n Hn).
    pose proof (Nat.mod_upper_bound next n Hn).
    replace (next + (i + (n - next mod n)))%nat with (i + (next / n + 1) * n)%nat by nia.
    rewrite Nat.Div0.mod_add. by apply Nat.mod_small. }
  pose proof (turn_of_lookup rs next ((i + (n - next mod n)) mod n)) as Ht. fold n in Ht. rewrite Hmod, Hi in Ht.
  symmetry. by injection (Ht ltac:(intros ->; done)).
Qed.

(** A record somebody may have: on an anonymous route, not its author alone. *)
Definition deliverable (anonymous : bool) (recipients : list string) (it : InputItem) : bool :=
  negb anonymous || existsb (λ p, negb (bool_decide (Author it = p))) recipients.

Lemma deal_turn anonymous rs it next :
  rs ≠ [] →
  match find_first (λ k, negb (anonymous && bool_decide (Author it = turn_of rs next k)))
          (seq 0 (length rs)) with
  | Some k => deliverable anonymous rs it = true ∧ (anonymous = true → Author it ≠ turn_of rs next k)
  | None => deliverable anonymous rs it = false
  end.
Proof.
  intros Hne. destruct (find_first _ _) as [k|] eqn:Hf.
  - apply find_first_Some in Hf as (l1 & l2 & _ & Hk & _). apply negb_true_iff, andb_false_iff in Hk.
    rewrite bool_decide_eq_false in Hk. unfold deliverable. destruct anonymous; [|done].
    destruct Hk as [|Hk]; [done|]. split; [|done]. apply existsb_Exists.
    exists (turn_of rs next k). split; [by apply turn_of_in|]. by apply negb_true_iff, bool_decide_eq_false.
  - apply find_first_None in Hf. rewrite Forall_forall in Hf. unfold deliverable.
    destruct anonymous; simpl in *.
    + apply not_true_iff_false. rewrite existsb_Exists. intros (p & Hp & Hne').
      destruct (turn_of_reaches rs next p Hp) as (k & Hk & <-).
      specialize (Hf k ltac:(apply elem_of_seq; lia)). congruence.
    + specialize (Hf 0%nat). rewrite elem_of_seq in Hf. destruct rs; [done|]. simpl in Hf.
      discriminate Hf. lia.
Qed.

Lemma deal_loop_all anonymous rs items next d :
  NoDup rs → rs ≠ [] →
  dealt_to (deal_loop anonymous rs items next d) rs ≡ₚ dealt_to d rs ++ keep (deliverable anonymous rs) items.
Proof.
  intros Hnd Hne. revert next d. induction items as [|it items IH]; intros next d; simpl; [by rewrite app_nil_r|].
  pose proof (deal_turn anonymous rs it next Hne) as Ht. destruct (find_first _ _) as [k|].
  - destruct Ht as [-> _]. rewrite IH, dealt_to_deal by (done || by apply turn_of_in). by rewrite <- app_assoc.
  - rewrite Ht. apply IH.
Qed.

Lemma deal_loop_bundle anonymous rs items next d p it :
  rs ≠ [] → it ∈ bundle (deal_loop anonymous rs items next d) p →
  it ∈ bundle d p ∨ (p ∈ rs ∧ it ∈ items ∧ (anonymous = true → Author it ≠ p)).
Proof.
  intros Hne. revert next d. induction items as [|x items IH]; intros next d; simpl; [by left|].
  pose proof (deal_turn anonymous rs x next Hne) as Ht. destruct (find_first _ _) as [k|].
  - intros [H|(?&?&?)]%IH; [|right; split_and!; [done|by right|done]].
    rewrite bundle_deal_to in H. case_bool_decide as He; [|by left]. subst p.
    apply elem_of_app in H as [H|H%list_elem_of_singleton]; [by left|]. subst x. right.
    split_and!; [by apply turn_of_in|left|apply Ht].
  - intros [H|(?&?&?)]%IH; [by left|right; split_and!; [done|by right|done]].
Qed.

(** [m] records dealt in turn to everyone. *)
Definition evenly (rs : list string) (d : gmap string (list InputItem)) (m : nat) : Prop :=
  ∀ i p, rs !! i = Some p →
    length (bundle d p) = (m / length rs + if decide (i < m mod length rs) then 1 else 0)%nat.

Lemma evenly_step rs d m p it :
  NoDup rs → evenly rs d m → rs !! (m mod length rs)%nat = Some p →
  evenly rs (deal_to d p [it]) (S m).
Proof.
  intros Hnd He Hp i q Hq. rewrite bundle_deal_to. pose proof (lookup_lt_Some _ _ _ Hq) as Hi.
  set (n := length rs) in *. assert (Hn : n ≠ 0%nat) by lia.
  pose proof (Nat.div_mod m n Hn) as Hdm. pose proof (Nat.mod_upper_bound m n Hn) as Hr.
  assert (Hstep : (S m / n = m / n ∧ S m mod n = S (m mod n) ∨
                   S m / n = S (m / n) ∧ S m mod n = 0 ∧ S (m mod n) = n)%nat).
  { destruct (decide (S (m mod n) = n)).
    - right. split_and!; [| |done]; symmetry; [apply (Nat.div_unique _ _ _ 0)|apply (Nat.mod_unique _ _ (S (m / n)))]; nia.
    - left. split; symmetry; [apply (Nat.div_unique _ _ _ (S (m mod n)))|apply (Nat.mod_unique _ _ (m / n))]; nia. }
  case_bool_decide as Hpq.
  - subst q. rewrite length_app, (He _ _ Hp). fold n. simpl.
    assert (i = m mod n)%nat as -> by (by eapply NoDup_lookup).
    repeat case_decide; lia.
  - rewrite (He _ _ Hq). fold n.
    assert (i ≠ m mod n)%nat by (intros ->; congruence). repeat case_decide; lia.
Qed.

Lemma deal_loop_evenly rs items d m :
  NoDup rs → rs ≠ [] → evenly rs d m →
  evenly rs (deal_loop false rs items (m mod length rs) d) (m + length items).
Proof.
  intros Hnd Hne. revert d m. induction items as [|it items IH]; intros d m He; cbn [deal_loop length].
  { by rewrite Nat.add_0_r. }
  assert (Hn : length rs ≠ 0%nat) by (destruct rs; [done|simpl; lia]).
  destruct (length rs) as [|n] eqn:Hlen; [done|]. cbn [seq find_first andb negb]. rewrite <- Hlen in *.
  rewrite Nat.add_0_r, Nat.Div0.add_mod_idemp_l, Nat.add_1_r.
  replace (m + S (length items))%nat with (S m + length items)%nat by lia. apply IH.
  apply evenly_step; [done..|]. pose proof (turn_of_lookup rs (m mod length rs) 0 Hne) as Ht.
  by rewrite Nat.add_0_r, Nat.Div0.mod_mod in Ht.
Qed.

Lemma evenly_diff rs d m p q :
  evenly rs d m → p ∈ rs → q ∈ rs → (length (bundle d p) ≤ length (bundle d q) + 1)%nat.
Proof.
  intros He [i Hi]%list_elem_of_lookup [j Hj]%list_elem_of_lookup. rewrite (He _ _ Hi), (He _ _ Hj).
  repeat case_decide; lia.
Qed.

Section distribution.
Context {R : GoRand}.

Lemma distribute_deal_out route items rs r d r' :
  distribute route items rs r = (Ok d, r') →
  deal_out route items rs r = (Ok d, r') ∧
  (Optional route = false → ∀ p, p ∈ rs → bundle d p ≠ []).
Proof.
  unfold distribute. destruct (deal_out _ _ _ _) as [[d'|e] r''] eqn:Hd; [|done].
  destruct (if Optional route then None else _) eqn:He; [done|]. intros [= -> ->]. split; [done|].
  intros Ho p Hp. rewrite Ho in He. apply find_first_None in He. rewrite Forall_forall in He.
  specialize (He p Hp). by apply bool_decide_eq_false in He.
Qed.

Lemma foldl_all_bundle items rs d p :
  bundle (foldl (λ d pid, <[pid := items]> d) d rs) p = if bool_decide (p ∈ rs) then items else bundle d p.
Proof.
  revert d. induction rs as [|q rs IH]; intros d; simpl; [done|]. rewrite IH, bundle_insert.
  repeat case_bool_decide; subst; set_solver.
Qed.

Lemma foldl_deal_bundle (f : string → list InputItem) rs d p it :
  it ∈ bundle (foldl (λ d pid, deal_to d pid (f pid)) d rs) p ↔ it ∈ bundle d p ∨ (p ∈ rs ∧ it ∈ f p).
Proof.
  revert d. induction rs as [|q rs IH]; intros d; simpl; [set_solver|]. rewrite IH, bundle_deal_to.
  case_bool_decide; [subst; set_solver|]. set_solver.
Qed.

(** Whatever the mode, a recipient gets routed records and nobody else gets any. *)
Lemma deal_out_bundle route items rs r d r' p it :
  rs ≠ [] → deal_out route items rs r = (Ok d, r') → it ∈ bundle d p →
  p ∈ rs ∧ it ∈ items.
Proof.
  intros Hne. unfold deal_out. destruct (rt_Distribute route); [| | | |done].
  1-2: intros [= <- <-]; rewrite foldl_all_bundle; case_bool_decide; [done|rewrite bundle_empty; set_solver].
  - intros [= <- <-]. rewrite foldl_deal_bundle, bundle_empty, elem_of_keep. set_solver.
  - destruct (Shuffle items r) as [shuffled r''] eqn:Hs. intros [= <- <-] Hit.
    apply deal_loop_bundle in Hit as [Hit|(Hp & Hit & _)]; [|..|done].
    { rewrite bundle_empty in Hit. set_solver. }
    split; [done|]. rewrite <- (Shuffle_perm items r), Hs. done.
Qed.

Lemma without_own_loop_bundle opt rs d d' p :
  without_own_loop opt rs d = Ok d' →
  bundle d' p = if bool_decide (p ∈ rs) then keep (λ it, negb (bool_decide (Author it = p))) (bundle d p)
                else bundle d p.
Proof.
  revert d. induction rs as [|q rs IH]; intros d; simpl; [by intros [= <-]|].
  destruct (_ && _); [done|]. intros ->%IH. rewrite !bundle_insert.
  destruct (decide (q = p)) as [->|Hqp].
  - rewrite !(bool_decide_true (p = p)), (bool_decide_true (p ∈ p :: rs)) by (done || left).
    case_bool_decide; [|done]. apply keep_id. rewrite Forall_forall. intros it Hit.
    by apply elem_of_keep in Hit as [_ ->].
  - rewrite !(bool_decide_false (q = p)) by done. repeat case_bool_decide; set_solver.
Qed.

Lemma withoutOwn_bundle route d d' rs p it :
  withoutOwn route d rs = Ok d' → it ∈ bundle d' p →
  it ∈ bundle d p ∧ (rt_Anonymous route = true → p ∈ rs → Author it ≠ p).
Proof.
  unfold withoutOwn. destruct (rt_Anonymous route); simpl; [|by intros [= <-]].
  intros Hl. rewrite (without_own_loop_bundle _ _ _ _ _ Hl). case_bool_decide as Hp; [|done].
  rewrite elem_of_keep, negb_true_iff, bool_decide_eq_false. naive_solver.
Qed.

(** A random deal is fair: of the records a route routes, each that some
    recipient did not write (every record, when the route is not anonymous) is
    given to exactly one recipient, once; on an anonymous route never to its
    author; and on any other route no recipient gets two more than another.
    Whatever the generator draws. *)
Theorem random_deal route items rs r d r'
    (Hrandom : rt_Distribute route = DistributeRandom) (Hnd : NoDup rs) (Hne : rs ≠ [])
    (Hok : distribute route items rs r = (Ok d, r')) :
  dealt_to d rs ≡ₚ keep (deliverable (rt_Anonymous route) rs) items ∧
  (∀ p it, it ∈ bundle d p → p ∈ rs ∧ (rt_Anonymous route = true → Author it ≠ p)) ∧
  (rt_Anonymous route = false →
     ∀ p q, p ∈ rs → q ∈ rs → (length (bundle d p) ≤ length (bundle d q) + 1)%nat).
Proof.
  apply distribute_deal_out in Hok as [Hok _]. unfold deal_out in Hok. rewrite Hrandom in Hok.
  destruct (Shuffle items r) as [shuffled r''] eqn:Hs. injection Hok as <- _.
  assert (Hp : shuffled ≡ₚ items) by (rewrite <- (Shuffle_perm items r), Hs; done).
  split_and!.
  - rewrite deal_loop_all by done. unfold dealt_to.
    replace (concat (map (bundle ∅) rs)) with (@nil InputItem)
      by (clear; induction rs; simpl; [done|by rewrite bundle_empty]).
    simpl. clear -Hp. induction Hp as [|x l1 l2 _ IH|x y l|l1 l2 l3 _ IH1 _ IH2]; simpl.
    + done.
    + case_if; [by rewrite IH|done].
    + repeat case_if; try done. apply Permutation_swap.
    + by rewrite IH1.
  - intros p it Hit. apply deal_loop_bundle in Hit as [Hit|(?&?&?)]; [|done..].
    rewrite bundle_empty in Hit. set_solver.
  - intros -> p q. apply (evenly_diff _ _ (0 + length shuffled)).
    replace 0%nat with (0 mod length rs)%nat at 1 by (apply Nat.Div0.mod_0_l).
    apply deal_loop_evenly; [done..|]. intros i x Hi. rewrite bundle_empty.
    rewrite Nat.Div0.mod_0_l, Nat.Div0.div_0_l. case_decide; [lia|done].
Qed.
End distribution.

(** An anonymous label names one author: two positions in a layer have
    different labels, and no author's label is that of somebody outside the
    layer (whose position is -1). *)
Theorem responseLabel_inj (l : Layer) p q
    (Hp : p ∈ l_Participants l)
    (Heq : responseLabel (Index (l_Participants l) p) = responseLabel (Index (l_Participants l) q)) :
  p = q.
Proof.
  apply responseLabel_letters in Heq; [|apply Index_range..]. by apply (Index_inj (l_Participants l)).
Qed.

(** The order of a layer's outputs does not depend on the order in which its
    turns completed: two orders of the same outputs, of authors of the layer and
    at most one for each round and author, are put in the same order, which is by
    round and then by the author's place in the layer. *)
Theorem orderOutputs_deterministic l outs outs'
    (Hp : outs ≡ₚ outs') (Hin : ∀ o, o ∈ outs → ParticipantID o ∈ l_Participants l)
    (Hone : ∀ o o', o ∈ outs → o' ∈ outs → or_Round o = or_Round o' →
       ParticipantID o = ParticipantID o' → o = o') :
  orderOutputs l outs = orderOutputs l outs' ∧ orderOutputs l outs ≡ₚ outs ∧
  StronglySorted (λ a b, or_Round a < or_Round b ∨
    or_Round a = or_Round b ∧ Index (l_Participants l) (ParticipantID a) ≤
      Index (l_Participants l) (ParticipantID b)) (orderOutputs l outs).
Proof.
  split_and!; [|apply orderOutputs_perm|].
  - apply stable_sort_unique; [apply output_le_total|apply output_le_trans|done|].
    intros x y Hx Hy H1 H2. destruct (output_le_antisym l x y) as [HR HP]; auto.
  - pose proof (orderOutputs_sorted l outs) as Hs. assert (Hall : ∀ o, o ∈ orderOutputs l outs → o ∈ outs).
    { intros o. by rewrite orderOutputs_perm. }
    induction Hs as [|x s Hs IH Hx]; constructor.
    { apply IH. intros o Ho. apply Hall. by right. }
    rewrite Forall_forall in *. intros y Hy. specialize (Hx y Hy). unfold output_le, author_pos in Hx.
    assert (Hpos : ∀ o, o ∈ x :: s → (0 <=? Index (l_Participants l) (ParticipantID o)) = true).
    { intros o Ho. apply Z.leb_le, Z.nlt_ge. rewrite Index_neg. intros Hn. by apply Hn, Hin, Hall. }
    rewrite !Hpos in Hx by set_solver.
    rewrite orb_true_iff, andb_true_iff, Z.ltb_lt, Z.eqb_eq, Z.leb_le in Hx. done.
Qed.

(** [last_per_participant] keeps, of a layer's outputs in order, exactly one
    output of every author who has any, and none of that author is of a later
    round. *)
Theorem lastPerParticipant_newest l outs :
  let kept := lastPerParticipant (orderOutputs l outs) in
  NoDup (map ParticipantID kept) ∧
  (∀ o, o ∈ outs → ∃ o', o' ∈ kept ∧ ParticipantID o' = ParticipantID o ∧ or_Round o ≤ or_Round o') ∧
  (∀ o, o ∈ kept → o ∈ outs).
Proof.
  intros kept. split_and!; [apply lastPerParticipant_authors| |].
  - intros o Ho. rewrite <- (orderOutputs_perm l outs) in Ho.
    destruct (lastPerParticipant_covers _ o Ho) as (o' & Ho' & He). exists o'. split_and!; [done..|].
    apply (output_le_round l).
    apply (lastPerParticipant_last (λ a b, output_le l a b = true) (orderOutputs l outs));
      [by intros x; destruct (output_le_total l x x)|apply orderOutputs_sorted|done..].
  - intros o Ho. rewrite <- (orderOutputs_perm l outs). eapply sublist_subseteq; [|exact Ho].
    apply lastPerParticipant_sublist.
Qed.

(** ** Resolving a layer *)

Section resolving.
Context {R : GoRand} {J : JSONText}.
Context (cfg : Config) (snap : Snapshot) (parts : option (gmap string ParticipantRecord)).
Context (read : string → option string).

(** Where a record a route delivers comes from, and what of it is delivered. *)
Definition comes_from (l : Layer) (route : Route) (produced : gmap string (list OutputRecord)) (it : InputItem)
    : Prop :=
  match Producer route with
  | Err _ => False
  | Ok (RouteFromSource, id) => ∃ rec content,
      sn_Sources snap !! id = Some rec ∧ read (sr_File rec) = Some content ∧
      narrow (sr_Decode rec) content (Paths route) = Some (Content it) ∧
      Kind it = InputSource ∧ SourceID it = id ∧ Author it = ""
  | Ok (RouteFromLayer, id) => ∃ producer o content,
      Config_Layer cfg id = Some producer ∧ precedes cfg id (l_ID l) = true ∧ id ∈ sn_Layers snap ∧
      o ∈ default [] (produced !! id) ∧ (Authors route = [] ∨ ParticipantID o ∈ Authors route) ∧
      read (if decide (rt_View route = ViewFull) then ContentFile o else PublishedFile o) = Some content ∧
      narrow (or_Format o) content (Paths route) = Some (Content it) ∧
      Kind it = InputOutput ∧ it_OutputID it = OutputID o ∧ it_LayerID it = or_LayerID o ∧
      Author it = ParticipantID o ∧ it_Anonymous it = rt_Anonymous route ∧
      it_Label it = if rt_Anonymous route || readAnonymously cfg id
                    then responseLabel (Index (l_Participants producer) (ParticipantID o)) else ""
  end.

(** A record of the inputs of [pid]: a route of these delivers it to [pid], the
    full view only when [pid] is named (or is the moderator), and an anonymous
    route never [pid]'s own. *)
Definition routed_to (l : Layer) (produced : gmap string (list OutputRecord)) (routes : list Route)
    (recipients : Route → list string) (moderator : bool) (pid : string) (it : InputItem) : Prop :=
  ∃ route, 0 ≤ it_Route it ∧ routes !! Z.to_nat (it_Route it) = Some route ∧
    pid ∈ recipients route ∧
    (rt_View route = ViewFull → moderator = true ∨ pid ∈ To route) ∧
    (rt_Anonymous route = true → Author it ≠ pid) ∧
    (moderator = true ∨ pid ∈ l_Participants l) ∧
    comes_from l route produced it.

Lemma outputItem_from route index producer o it :
  outputItem cfg parts read route index producer o = Ok it →
  it_Route it = index ∧ Author it = ParticipantID o ∧ it_OutputID it = OutputID o ∧ it_LayerID it = or_LayerID o ∧
  Kind it = InputOutput ∧
  it_Anonymous it = rt_Anonymous route ∧
  it_Label it = (if rt_Anonymous route || readAnonymously cfg (l_ID producer)
                 then responseLabel (Index (l_Participants producer) (ParticipantID o)) else "") ∧
  ∃ content, read (if decide (rt_View route = ViewFull) then ContentFile o else PublishedFile o) = Some content ∧
    narrow (or_Format o) content (Paths route) = Some (Content it).
Proof.
  unfold outputItem. destruct (view_file (rt_View route) o) as [file|] eqn:Hv; [|done].
  assert (Hfile : file = if decide (rt_View route = ViewFull) then ContentFile o else PublishedFile o).
  { destruct (rt_View route); simpl in Hv; (done || injection Hv as <-); by case_decide. }
  rewrite <- Hfile. destruct (read file) as [c|]; [|done].
  destruct (narrow (or_Format o) c (Paths route)) as [c'|] eqn:Hn; [|done].
  intros [= <-]. simpl. split_and!; eauto.
Qed.

Lemma output_items_from route index producer outs its it :
  output_items_loop cfg parts read route index producer outs = Ok its → it ∈ its →
  ∃ o, o ∈ outs ∧ outputItem cfg parts read route index producer o = Ok it.
Proof.
  revert its. induction outs as [|o outs IH]; intros its; simpl; [intros [= <-]; set_solver|].
  intros (x & Hx & (rest & Hrest & [= <-])%let_ok_inv)%let_ok_inv [->|Hit]%elem_of_cons.
  - exists o. split; [left|done].
  - destruct (IH _ Hrest Hit) as (o' & Ho' & He). exists o'. split; [by right|done].
Qed.

Lemma selected_from route outs outs' o :
  selected route outs = Ok outs' → o ∈ outs' → o ∈ outs ∧ (Authors route = [] ∨ ParticipantID o ∈ Authors route).
Proof.
  unfold selected. intros (outs'' & Hs & Ha)%let_ok_inv Ho. injection Ha as <-.
  assert (Hsub : ∀ x, x ∈ outs'' → x ∈ outs).
  { destruct (rt_Select route); (done || injection Hs as <-); [done..|].
    intros x Hx. eapply sublist_subseteq; [apply lastPerParticipant_sublist|done]. }
  case_bool_decide; [by auto|]. apply elem_of_keep in Ho as [Ho Hb]. apply bool_decide_eq_true in Hb. auto.
Qed.

Lemma required_ok route items its : required route items = Ok its → items = Ok its.
Proof. unfold required. intros (x & -> & H)%let_ok_inv. case_if_in H; [done|congruence]. Qed.

Lemma routeItems_from l route index produced its it :
  routeItems cfg snap parts read l route index produced = Ok its → it ∈ its →
  it_Route it = index ∧ comes_from l route produced it.
Proof.
  unfold routeItems, comes_from. destruct (Producer route) as [[[|] id]|e]; [| |done].
  - intros H%required_ok Hit. unfold sourceItem in H. case_if_in H; [done|].
    destruct (sn_Sources snap !! id) as [rec|]; [|done]. destruct (read (sr_File rec)) as [c|] eqn:Hr; [|done].
    destruct (narrow _ c _) as [c'|] eqn:Hn; [|done]. injection H as <-.
    apply list_elem_of_singleton in Hit as ->. simpl. split; [done|]. exists rec, c. split_and!; done.
  - destruct (Config_Layer cfg id) as [producer|] eqn:Hl; [|done].
    destruct (precedes cfg id (l_ID l)) eqn:Hp; [|done]. simpl. case_bool_decide as Hen; simpl.
    2: { destruct (Optional route); [intros [= <-]; set_solver|done]. }
    intros (outs & Hsel & Hits)%required_ok%let_ok_inv Hit.
    destruct (output_items_from _ _ _ _ _ _ Hits Hit) as (o & Ho & Hitem).
    apply outputItem_from in Hitem as (H1 & H2 & H3 & H3' & H4 & H5 & H6 & c & H7 & H8). split; [done|].
    destruct (selected_from _ _ _ _ Hsel Ho) as [Ho' Ha]. rewrite orderOutputs_perm in Ho'.
    apply Config_Layer_id in Hl as Hid. destruct Hid as [Hid _]. rewrite Hid in H6.
    exists producer, o, c. split_and!; done.
Qed.

Lemma checkRoute_ok l route recipients m u :
  checkRoute l route recipients m = Ok u →
  (rt_View route = ViewFull → m = true ∨ To route ≠ []) ∧
  (∀ pid, pid ∈ To route → pid ∈ l_Participants l) ∧ recipients ≠ [].
Proof.
  unfold checkRoute. case_if; [done|]. destruct (find_first _ _) eqn:Hf; [done|].
  destruct (bool_decide (recipients = [])) eqn:Hr; [done|]. intros _. apply bool_decide_eq_false in Hr.
  apply find_first_None in Hf. rewrite Forall_forall in Hf. split_and!.
  - intros Hv. rewrite bool_decide_true in Heqb by done. simpl in Heqb.
    destruct m; [by left|right]. rewrite andb_true_r in Heqb. by apply bool_decide_eq_false in Heqb.
  - intros pid Hpid. specialize (Hf pid Hpid). by apply negb_false_iff, bool_decide_eq_true in Hf.
  - done.
Qed.

Lemma resolve_route_bundle l route index recipients m produced r d r' pid it :
  resolve_route cfg snap parts read l route index recipients m produced r = (Ok (Some d), r') →
  it ∈ bundle d pid →
  it_Route it = index ∧ pid ∈ recipients ∧
  (rt_View route = ViewFull → m = true ∨ To route ≠ []) ∧
  (∀ p, p ∈ To route → p ∈ l_Participants l) ∧
  (rt_Anonymous route = true → Author it ≠ pid) ∧ comes_from l route produced it.
Proof.
  unfold resolve_route.
  destruct (checkRoute l route recipients m) as [u|] eqn:Hc; [|done].
  destruct (routeItems _ _ _ _ _ _ _ _) as [[|x its]|] eqn:Hi; [done| |done].
  destruct (distribute route (x :: its) recipients r) as [dd r''] eqn:Hd.
  intros [= Hd' <-] Hit. apply let_ok_inv in Hd' as (d1 & -> & (d2 & Hw & [= ->])%let_ok_inv).
  destruct (checkRoute_ok _ _ _ _ _ Hc) as (H1 & H2 & H3).
  apply distribute_deal_out in Hd as [Hd _].
  destruct (withoutOwn_bundle _ _ _ _ _ _ Hw Hit) as [Hit' Hown].
  destruct (deal_out_bundle _ _ _ _ _ _ _ _ H3 Hd Hit') as [Hp Hin].
  destruct (routeItems_from _ _ _ _ _ _ Hi Hin) as [H4 H5]. split_and!; auto.
Qed.

Definition all_routed l produced routes recipients m (ps : gmap string (list InputItem)) : Prop :=
  ∀ pid it, it ∈ bundle ps pid → routed_to l produced routes recipients m pid it.

Lemma resolve_inputs_routed l produced done_ routes index r ps missing ps' missing' r' :
  index = Z.of_nat (length done_) →
  all_routed l produced (done_ ++ routes) (route_recipients l) false ps →
  resolve_inputs cfg snap parts read l produced routes index r ps missing = Ok (ps', missing', r') →
  all_routed l produced (done_ ++ routes) (route_recipients l) false ps'.
Proof.
  revert done_ index r ps missing.
  induction routes as [|route routes IH]; intros pre index r ps missing -> Hps; cbn [resolve_inputs].
  { intros [= <- _ _]. done. }
  cbv zeta. destruct (resolve_route _ _ _ _ _ _ _ _ _ _ _) as [[[d|]|e] r1] eqn:Hr; [| |done];
    rewrite (cons_middle route pre routes), app_assoc in *; apply IH;
    try (rewrite length_app; simpl; lia); [|done].
  intros pid it. rewrite foldl_deal_bundle. intros [Hit|[Hpid Hit]]; [by apply Hps|].
  destruct (resolve_route_bundle _ _ _ _ _ _ _ _ _ _ _ Hr Hit) as (H1 & H2 & H3 & H4 & H5 & H6).
  exists route. rewrite H1. split_and!; [lia|..].
  - rewrite Nat2Z.id, <- app_assoc. by apply list_lookup_middle.
  - done.
  - intros Hv. destruct (H3 Hv) as [|Hto]; [by left|right]. unfold route_recipients in Hpid.
    by rewrite bool_decide_false in Hpid.
  - done.
  - right. unfold route_recipients in Hpid. case_bool_decide; auto.
  - done.
Qed.

Lemma resolve_moderator_routed l m produced done_ routes index r acc its :
  index = Z.of_nat (length done_) →
  (∀ it, it ∈ acc →
     routed_to l produced (done_ ++ routes) (λ _, [md_Participant m]) true (md_Participant m) it) →
  resolve_moderator cfg snap parts read l m produced routes index r acc = Ok its →
  ∀ it, it ∈ its → routed_to l produced (done_ ++ routes) (λ _, [md_Participant m]) true (md_Participant m) it.
Proof.
  revert done_ index r acc.
  induction routes as [|route routes IH]; intros pre index r acc -> Hacc; cbn [resolve_moderator].
  { intros [= <-]. done. }
  case_if; [done|]. destruct (resolve_route _ _ _ _ _ _ _ _ _ _ _) as [[[d|]|e] r1] eqn:Hr; [| |done];
    rewrite (cons_middle route pre routes), app_assoc in *; apply IH;
    try (rewrite length_app; simpl; lia); [|done].
  intros it [Hit|Hit]%elem_of_app; [by apply Hacc|].
  destruct (resolve_route_bundle _ _ _ _ _ _ _ _ _ _ _ Hr Hit) as (H1 & H2 & H3 & H4 & H5 & H6).
  exists route. rewrite H1. split_and!; try done; [lia| |by auto..].
  rewrite Nat2Z.id, <- app_assoc. by apply list_lookup_middle.
Qed.

Lemma Resolve_routed l produced li :
  Resolve cfg snap parts read l produced = Ok li →
  (∀ pid its it, li_Participants li !! pid = Some its → it ∈ its →
     routed_to l produced (l_Inputs l) (route_recipients l) false pid it) ∧
  (∀ it, it ∈ li_Moderator li → ∃ m, l_Moderator l = Some m ∧
     routed_to l produced (md_Inputs m) (λ _, [md_Participant m]) true (md_Participant m) it).
Proof.
  intros Hok. unfold Resolve in Hok. apply let_ok_inv in Hok as ([[ps missing] r] & Hin & Hok).
  apply let_ok_inv in Hok as (mi & Hm & [= <-]). simpl. split.
  - intros pid its it Hits Hit. rewrite lookup_fmap in Hits.
    destruct (ps !! pid) as [its0|] eqn:Hp; [|done]. simpl in Hits. injection Hits as <-.
    apply elem_of_dedupe in Hit.
    apply (resolve_inputs_routed l produced [] _ _ _ _ _ _ _ _ eq_refl) in Hin.
    + apply Hin. unfold bundle. by rewrite Hp.
    + intros q x. rewrite bundle_empty. set_solver.
  - intros it Hit. destruct (l_Moderator l) as [m|]; [|injection Hm as <-; set_solver].
    apply let_ok_inv in Hm as (its & Hm & [= <-]). exists m. split; [done|]. apply elem_of_dedupe in Hit.
    eapply (resolve_moderator_routed l m produced []); [done| |exact Hm|exact Hit].
    intros x Hx. by apply not_elem_of_nil in Hx.
Qed.

(** C2. Nobody receives what was not routed to them. When [Resolve] succeeds,
    every record among a participant's inputs is delivered by the input route at
    its index, which has that participant among its recipients; the
    participant belongs to the layer; the full view of an output is given only to
    those the route names; an anonymous route never gives anyone their own; the
    record is a source's or an earlier, enabled layer's output by an
    author the route allows, and its text is that file's, narrowed by the route's
    paths. The same holds of the moderator's inputs, with the moderator as the
    one recipient. *)
Theorem Resolve_authorised l produced li (Hok : Resolve cfg snap parts read l produced = Ok li) :
  (∀ pid its it, li_Participants li !! pid = Some its → it ∈ its →
     routed_to l produced (l_Inputs l) (route_recipients l) false pid it) ∧
  (∀ it, it ∈ li_Moderator li → ∃ m, l_Moderator l = Some m ∧
     routed_to l produced (md_Inputs m) (λ _, [md_Participant m]) true (md_Participant m) it).
Proof. by apply Resolve_routed. Qed.

(** What a route gives everyone it is for, when it deals all to all. *)
Definition deals_all (route : Route) : Prop :=
  rt_Distribute route = NoDistribute ∨ rt_Distribute route = DistributeAll.

Lemma resolve_route_none l route index recipients m produced r r' :
  resolve_route cfg snap parts read l route index recipients m produced r = (Ok None, r') →
  routeItems cfg snap parts read l route index produced = Ok [].
Proof.
  unfold resolve_route. destruct (checkRoute _ _ _ _); [|done].
  destruct (routeItems _ _ _ _ _ _ _ _) as [[|x its]|]; [done| |done].
  destruct (distribute _ _ _ _) as [[d|] r'']; [|done]. by destruct (withoutOwn _ _ _).
Qed.

Lemma resolve_route_some l route index recipients m produced r r' d :
  resolve_route cfg snap parts read l route index recipients m produced r = (Ok (Some d), r') →
  ∃ items, items ≠ [] ∧ routeItems cfg snap parts read l route index produced = Ok items ∧
    (deals_all route → ∀ pid it, pid ∈ recipients → it ∈ items →
       rt_Anonymous route = false ∨ Author it ≠ pid → it ∈ bundle d pid).
Proof.
  unfold resolve_route. destruct (checkRoute _ _ _ _); [|done].
  destruct (routeItems _ _ _ _ _ _ _ _) as [[|x its]|]; [done| |done].
  destruct (distribute _ _ _ _) as [dd r''] eqn:Hd. intros [= Hd' <-].
  apply let_ok_inv in Hd' as (d1 & -> & (d2 & Hw & [= ->])%let_ok_inv).
  exists (x :: its). split_and!; [done..|]. intros Hall pid it Hp Hit Hown.
  apply distribute_deal_out in Hd as [Hd _]. unfold deal_out in Hd.
  assert (Hb : it ∈ bundle d1 pid).
  { destruct Hall as [E|E]; rewrite E in Hd; injection Hd as <- _;
      rewrite foldl_all_bundle, bool_decide_true by done; done. }
  unfold withoutOwn in Hw. destruct (rt_Anonymous route) eqn:Ha; simpl in Hw; [|congruence].
  destruct Hown as [|Hown]; [done|]. rewrite (without_own_loop_bundle _ _ _ _ _ Hw), bool_decide_true by done.
  apply elem_of_keep. split; [done|]. by apply negb_true_iff, bool_decide_eq_false.
Qed.

Lemma resolve_inputs_delivers l produced routes index r ps missing ps' missing' r' :
  resolve_inputs cfg snap parts read l produced routes index r ps missing = Ok (ps', missing', r') →
  (∀ pid it, it ∈ bundle ps pid → it ∈ bundle ps' pid) ∧
  (∀ k route items pid it, routes !! k = Some route → deals_all route →
     routeItems cfg snap parts read l route (index + Z.of_nat k) produced = Ok items → it ∈ items →
     pid ∈ route_recipients l route → rt_Anonymous route = false ∨ Author it ≠ pid → it ∈ bundle ps' pid) ∧
  (∀ j, j ∈ missing' ↔ j ∈ missing ∨ ∃ k route, j = index + Z.of_nat k ∧ routes !! k = Some route ∧
     routeItems cfg snap parts read l route j produced = Ok []).
Proof.
  revert index r ps missing. induction routes as [|route routes IH]; intros index r ps missing;
    cbn [resolve_inputs].
  { intros [= <- <- _]. split_and!; [done|done|]. intros j. split; [by left|]. intros [|(?&?&_&?&_)]; done. }
  cbv zeta. destruct (resolve_route _ _ _ _ _ _ _ _ _ _ _) as [[[d|]|e] r1] eqn:Hr; [| |done]; intros Hloop;
    destruct (IH _ _ _ _ Hloop) as (IH1 & IH2 & IH3).
  - destruct (resolve_route_some _ _ _ _ _ _ _ _ _ Hr) as (items & Hne & Hitems & Hall). split_and!.
    + intros pid it Hit. apply IH1, foldl_deal_bundle. by left.
    + intros [|k] rt its pid it; cbn [lookup list_lookup].
      * intros [= <-] Hda. rewrite Z.add_0_r, Hitems. intros [= <-] Hit Hp Hown.
        apply IH1, foldl_deal_bundle. right. split; [done|]. by apply Hall.
      * intros Hk Hda. replace (index + Z.of_nat (S k)) with (index + 1 + Z.of_nat k) by lia. by eapply IH2.
    + intros j. rewrite IH3. split; intros [|(k & rt & -> & Hk & Hi)]; try by left.
      * right. exists (S k), rt. split_and!; [lia|done..].
      * destruct k as [|k]; [simpl in Hk; injection Hk as <-; rewrite Z.add_0_r in Hi; congruence|].
        right. exists k, rt. split_and!; [lia|done..].
  - apply resolve_route_none in Hr. split_and!.
    + done.
    + intros [|k] rt its pid it; cbn [lookup list_lookup].
      * intros [= <-] _. rewrite Z.add_0_r, Hr. intros [= <-] Hit. set_solver.
      * intros Hk Hda. replace (index + Z.of_nat (S k)) with (index + 1 + Z.of_nat k) by lia. by eapply IH2.
    + intros j. rewrite IH3, elem_of_app, list_elem_of_singleton. split.
      * intros [[| ->]|(k & rt & -> & Hk & Hi)]; [by left|right; exists 0%nat, route; split_and!; [lia|done..]|].
        right. exists (S k), rt. split_and!; [lia|done..].
      * intros [|([|k] & rt & -> & Hk & Hi)]; [by left; left|left; right; lia|].
        right. exists k, rt. split_and!; [lia|done..].
Qed.

Lemma dedupe_bundle (ps : gmap string (list InputItem)) pid it :
  it ∈ bundle ps pid →
  ∃ its it', (dedupe <$> ps) !! pid = Some its ∧ it' ∈ its ∧ item_key it' = item_key it.
Proof.
  unfold bundle. rewrite lookup_fmap. destruct (ps !! pid) as [its|]; simpl; [|set_solver]. intros Hit.
  destruct (dedupe_loop_spec its []) as (_ & _ & H). destruct (H it Hit) as [Hn|Hin]; [set_solver|].
  apply list_elem_of_fmap in Hin as (it' & Hk & Hit'). by exists (dedupe its), it'.
Qed.

(** Everybody receives what was routed to them. When [Resolve] succeeds, a
    route that deals to all gives each of its recipients every record it
    routes (their own apart when it is anonymous), or an earlier record with the
    same origin and text; no participant gets two of those; and the routes
    listed as missing are exactly those that route nothing. *)
Theorem Resolve_delivers l produced li (Hok : Resolve cfg snap parts read l produced = Ok li) :
  (∀ k route items pid it, l_Inputs l !! k = Some route → deals_all route →
     routeItems cfg snap parts read l route (Z.of_nat k) produced = Ok items → it ∈ items →
     pid ∈ route_recipients l route → rt_Anonymous route = false ∨ Author it ≠ pid →
     ∃ its it', li_Participants li !! pid = Some its ∧ it' ∈ its ∧ item_key it' = item_key it) ∧
  (∀ pid its, li_Participants li !! pid = Some its → NoDup (map item_key its)) ∧
  (∀ j, j ∈ li_Missing li ↔ ∃ k route, j = Z.of_nat k ∧ l_Inputs l !! k = Some route ∧
     routeItems cfg snap parts read l route j produced = Ok []).
Proof.
  unfold Resolve in Hok. apply let_ok_inv in Hok as ([[ps missing] r] & Hin & Hok).
  apply let_ok_inv in Hok as (mi & _ & [= <-]). simpl.
  destruct (resolve_inputs_delivers _ _ _ _ _ _ _ _ _ _ Hin) as (_ & H2 & H3). split_and!.
  - intros k route items pid it Hk Hall Hitems Hit Hp Hown. apply dedupe_bundle. by eapply H2.
  - intros pid its. rewrite lookup_fmap. destruct (ps !! pid) as [its0|]; [|done]. intros [= <-].
    apply dedupe_loop_spec.
  - intros j. rewrite H3. split; [intros [?%not_elem_of_nil|]; done|by right].
Qed.
End resolving.

(** ** Examples *)

(** A generator that always draws 0, and a text codec that knows no JSON. *)
#[local] Instance zero_rand : GoRand.
Proof.
  refine {| rng := unit; NewPCG := λ _ _, tt; uint64n := λ _ _, (0, tt) |}.
  intros r n Hn. simpl. lia.
Defined.

#[local] Instance no_json : JSONText := {| decodeJSONValue _ := None; encodeJSONValue _ := None |}.

Definition a_route (from : string) (distribute : Distribute) (anonymous optional : bool) : Route :=
  {| From := from; rt_Select := NoSelect; Authors := []; rt_View := NoView; Paths := []; To := [];
     rt_Distribute := distribute; Optional := optional; rt_Anonymous := anonymous |}.

Definition a_layer (id : string) (ps : list string) (inputs : list Route) : Layer :=
  {| l_ID := id; l_Enabled := None; l_Participants := ps; l_Instructions := "do it"; l_Inputs := inputs;
     l_Delivery := DeliveryAfterRound; MaxRounds := 1; l_MaxCalls := 0;
     l_Output := {| o_Format := FormatText; o_Schema := ""; Share := None |}; l_Moderator := None |}.

Definition draft : Layer := a_layer "draft" ["alice"; "bob"] [].
Definition review : Layer :=
  a_layer "review" ["alice"; "bob"; "carol"]
    [a_route "source:notes" NoDistribute false false; a_route "layer:draft" NoDistribute true false].

Definition a_config : Config :=
  {| Version := 1; cfg_Name := "f"; cfg_Brief := {| Purpose := "p"; Task := "t"; SuccessCriteria := []; Constraints := [] |};
     Sources := ∅; cfg_Participants := ∅; Schemas := ∅; Layers := [draft; review];
     cfg_Limits := {| MaxCalls := 9; MaxDurationSeconds := 60; CallTimeoutSeconds := 9; MaxAttemptsPerTurn := 2;
                      MaxParallelCalls := 1 |};
     cfg_Seed := None; ResultLayers := [] |}.

Definition a_snapshot : Snapshot :=
  {| ForumID := "f"; sn_Run := 1; sn_Name := "f"; LaunchedAt := 1; Deadline := 60; OriginAgent := "a"; ConfigDigest := "";
     sn_Seed := 7; sn_Limits := cfg_Limits a_config; sn_Layers := ["draft"; "review"]; sn_ResultLayers := ["review"];
     sn_Sources := {[ "notes" := {| sr_Decode := FormatText; sr_File := "notes.txt"; sr_Digest := "" |} ]} |}.

Definition an_output (round : Z) (pid : string) : OutputRecord :=
  {| OutputID := turnID round pid; or_LayerID := "draft"; or_Round := round; ParticipantID := pid;
     or_Format := FormatText; ContentFile := "full-" +:+ pid; PublishedFile := "published-" +:+ pid;
     Digest := ""; PublishedDigest := ""; or_Turn := turnID round pid; or_Attempt := 1; or_Resent := false |}.

Definition produced : gmap string (list OutputRecord) := {[ "draft" := [an_output 1 "bob"; an_output 1 "alice"] ]}.

Definition resolved : result LayerInputs RouteError :=
  Resolve a_config a_snapshot None (λ f, Some ("text of " +:+ f)) review produced.

Definition an_item (pid : string) : InputItem :=
  {| it_Route := 1; Kind := InputOutput; SourceID := ""; it_OutputID := turnID 1 pid; it_LayerID := "draft";
     it_Round := 1; Author := pid; AuthorName := pid;
     it_Label := responseLabel (Index ["alice"; "bob"] pid); it_Anonymous := true; it_Format := FormatText;
     Content := "text of published-" +:+ pid |}.

(** Alice reads the notes and Bob's draft as "Response B"; Carol, who wrote none,
    both drafts in the layer's order. *)
Example resolved_inputs :
  (λ li, (map Content <$> li_Participants li !! "alice", map it_Label <$> li_Participants li !! "carol")) <$>
    (match resolved with Ok li => Some li | Err _ => None end) =
  Some (Some ["text of notes.txt"; "text of published-bob"], Some [""; "Response A"; "Response B"]).
Proof. vm_compute. reflexivity. Qed.

Definition resolved_li : LayerInputs := Eval vm_compute in
  match resolved with
  | Ok li => li
  | Err _ => {| li_LayerID := ""; li_Participants := ∅; li_Moderator := []; li_Missing := [] |}
  end.

Lemma Resolve_authorised_witness :
  resolved = Ok resolved_li ∧
  routed_to a_config a_snapshot (λ f, Some ("text of " +:+ f)) review produced (l_Inputs review)
    (route_recipients review) false "alice" (an_item "bob").
Proof.
  assert (H : resolved = Ok resolved_li) by (vm_compute; reflexivity). split; [exact H|].
  apply (proj1 (Resolve_authorised a_config a_snapshot None (λ f, Some ("text of " +:+ f)) review produced
    resolved_li H) "alice" (default [] (li_Participants resolved_li !! "alice"))); [vm_compute; reflexivity|].
  vm_compute. right. left.
Defined.

Lemma Resolve_delivers_witness :
  resolved = Ok resolved_li ∧
  ∃ its it', li_Participants resolved_li !! "alice" = Some its ∧ it' ∈ its ∧
    item_key it' = item_key (an_item "bob").
Proof.
  assert (H : resolved = Ok resolved_li) by (vm_compute; reflexivity). split; [exact H|].
  eapply (proj1 (Resolve_delivers a_config a_snapshot None (λ f, Some ("text of " +:+ f)) review produced
    resolved_li H) 1%nat (a_route "layer:draft" NoDistribute true false) [an_item "alice"; an_item "bob"]
    "alice" (an_item "bob")).
  - reflexivity.
  - by left.
  - vm_compute. reflexivity.
  - right. left.
  - vm_compute. left.
  - right. vm_compute. discriminate.
Defined.

Definition dealt_items : list InputItem := map an_item ["alice"; "bob"; "carol"].

Definition a_deal : gmap string (list InputItem) := Eval vm_compute in
  match (distribute (a_route "layer:draft" DistributeRandom true true) dealt_items ["alice"; "bob"] tt).1 with
  | Ok d => d | Err _ => ∅ end.

Lemma random_deal_witness :
  distribute (a_route "layer:draft" DistributeRandom true true) dealt_items ["alice"; "bob"] tt = (Ok a_deal, tt) ∧
  dealt_to a_deal ["alice"; "bob"] ≡ₚ keep (deliverable true ["alice"; "bob"]) dealt_items.
Proof.
  assert (H : distribute (a_route "layer:draft" DistributeRandom true true) dealt_items ["alice"; "bob"] tt =
    (Ok a_deal, tt)) by (vm_compute; reflexivity).
  split; [exact H|].
  apply (random_deal (R := zero_rand) (a_route "layer:draft" DistributeRandom true true) dealt_items ["alice"; "bob"] tt a_deal tt);
    [reflexivity|apply (bool_decide_unpack _); vm_compute; exact I|discriminate|exact H].
Defined.

(** On an anonymous route the turns are not even: of three records of Alice's,
    Bob gets two, Carol one and Alice none. *)
Example anonymous_deal_uneven :
  let rs := ["alice"; "bob"; "carol"] in
  let d := deal_loop true rs [an_item "alice"; an_item "alice"; an_item "alice"] 0 ∅ in
  map (λ p, length (bundle d p)) rs = [0%nat; 2%nat; 1%nat].
Proof. vm_compute. reflexivity. Qed.

Lemma responseLabel_inj_witness :
  responseLabel (Index (l_Participants draft) "bob") = "Response B" ∧ "bob" = "bob".
Proof.
  split; [vm_compute; reflexivity|].
  apply (responseLabel_inj draft); [right; left|reflexivity].
Defined.

Lemma orderOutputs_deterministic_witness :
  orderOutputs draft [an_output 1 "bob"; an_output 1 "alice"] =
  orderOutputs draft [an_output 1 "alice"; an_output 1 "bob"].
Proof.
  apply (orderOutputs_deterministic draft [an_output 1 "bob"; an_output 1 "alice"]).
  - apply Permutation_swap.
  - intros o Ho. apply elem_of_cons in Ho as [->|Ho]; [right; left|].
    apply list_elem_of_singleton in Ho as ->. left.
  - intros o o' Ho Ho' _. apply elem_of_cons in Ho as [->|Ho]; apply elem_of_cons in Ho' as [->|Ho'];
      try (apply list_elem_of_singleton in Ho as ->); try (apply list_elem_of_singleton in Ho' as ->);
      done.
Defined.
