(* ===== verification/ForumValidate.v ===== *)
(** * Validating a forum's configuration

    forum/validate.go and the static rules of forum/anonymity.go: every check of
    [validateStatic] with the path of each finding; the wording of a finding is a
    constructor. What the checks ask of JSON text, and the JSON form of the
    configuration that placeholders are looked for in, is the class [ConfigJSON];
    paths are those of a Unix system. *)

From stdpp Require Import base gmap strings list sets sorting.
From Stdlib Require Import ZArith Lia Ascii.
From S2P Require Import Prelude GoString ForumConfig JsonPointer ForumRouter.

Open Scope Z_scope.

(** ** Findings *)

Inductive IssueKind :=
| BadName | IsRequired | StillPlaceholder
| BadID | CaseCollision | DuplicateID
| BadValue | NotPositive | AboveLimit
| InlineAndFile | NoInlineOrFile | NotJSONString | NotRelative | HasDotDot
| NoParticipants | AgentAndClone | AgentWithModel | NoForm | CardOfExisting
| PromptNotFresh | ModeNotFresh | SameName | SameAgentTwice
| NotJSONObject
| NoLayers | AllDisabled
| NotConfigured | ListedTwice
| SchemaNotJSON | ShareNotJSON | BadProjection (e : ProjectionIssue)
| BadRoute (e : RouteShapeError) | NotBackward | FromDisabled
| ModeratorTo | ModeratorDistribute | FullWithoutTo
| LayerRouteOnly | RandomSource | AnonymousSame | SameNotProducer
| PathsNotJSON | OutsideShare
| NotOneRound | OnlyOwn | TakesPart | ModeratesProducer | ReadsByName
| AlsoParticipant | NotBelowRounds | DisabledResult.

Record Issue := { Path : string; Message : IssueKind }.

Definition issue (path : string) (k : IssueKind) : Issue := {| Path := path; Message := k |}.

(** [if b { v.addf(path, ...) }] *)
Definition addf (b : bool) (path : string) (k : IssueKind) : list Issue := if b then [issue path k] else [].

Class ConfigJSON := {
  json_string : string → bool;
  isJSONObject : string → bool;
  config_doc : Config → option (gmap string json)
}.

(** ** Helpers *)

(** [sortedKeys] *)
Definition sortedKeys {V} (m : gmap string V) : list string := stable_sort String.leb (map_to_list m).*1.

Definition at_index (path : string) (k : Z) : string := path +:+ "[" +:+ itoa k +:+ "]".

Definition layerPath (i : Z) : string := at_index "layers" i.

(** [f] on each element with its position, from [k]. *)
Fixpoint each_from {A} (k : Z) (f : Z → A → list Issue) (l : list A) : list Issue :=
  match l with
  | [] => []
  | x :: rest => f k x ++ each_from (k + 1) f rest
  end.

Definition each {A} (f : Z → A → list Issue) (l : list A) : list Issue := each_from 0 f l.

(** The loop shared by [participantRefs], [recipientRefs] and [authorRefs]: each
    id known, none repeated. *)
Fixpoint refs_from (path : string) (known : string → bool) (seen : list string) (k : Z) (ids : list string)
    : list Issue :=
  match ids with
  | [] => []
  | id :: rest =>
      addf (negb (known id)) (at_index path k) NotConfigured ++
      addf (bool_decide (id ∈ seen)) (at_index path k) ListedTwice ++
      refs_from path known (id :: seen) (k + 1) rest
  end.

Definition refs (path : string) (known : string → bool) (ids : list string) : list Issue :=
  refs_from path known [] 0 ids.

Definition has_key {V} (m : gmap string V) (k : string) : bool := bool_decide (is_Some (m !! k)).

Definition mem (id : string) (l : list string) : bool := bool_decide (id ∈ l).

Definition validFormat (f : Format) : bool := match f with OtherFormat _ => false | _ => true end.
Definition validMode (m : FreshMode) : bool :=
  match m with FreshModeMemory | FreshModeNoMemory | FreshModeSingleShot => true | _ => false end.

Definition empty (s : string) : bool := bool_decide (s = "").

Definition minPositive : Z := 1.

(** ** Placeholders *)

Definition isPlaceholder `{UnicodeData} (s : string) : bool :=
  match bytes (TrimSpace s) with
  | c :: rest =>
      match last rest with
      | Some d =>
          (1 <? Z.of_nat (length rest)) && bool_decide (c = "<"%char) && bool_decide (d = ">"%char) &&
          negb (existsb (λ b, bool_decide (b = "<"%char) || bool_decide (b = ">"%char)) (removelast rest))
      | None => false
      end
  | [] => false
  end.

(** [placeholderWalk]; [depth] bounds the nesting walked. *)
Fixpoint placeholderWalk `{UnicodeData} (depth : nat) (path : string) (node : json) : list Issue :=
  match depth with
  | O => []
  | S depth' =>
      match node with
      | JString s => addf (isPlaceholder s) path StillPlaceholder
      | JArray l => each (λ i e, placeholderWalk depth' (at_index path i) e) l
      | JObject m =>
          concat (map (λ k, match m !! k with
                            | Some v => placeholderWalk depth' (if empty path then k else path +:+ "." +:+ k) v
                            | None => []
                            end) (sortedKeys m))
      | _ => []
      end
  end.

(** The nesting of a document. *)
Fixpoint nesting (node : json) : nat :=
  match node with
  | JArray l => S (foldr (λ e n, Nat.max (nesting e) n) O l)
  | JObject m => S (map_fold (λ _ e n, Nat.max (nesting e) n) O m)
  | _ => 1%nat
  end.

(** ** The checks *)

Section validate.
Context {U : UnicodeData} {J : ConfigJSON}.
Context (cfg : Config).

Definition placeholders : list Issue :=
  match config_doc cfg with
  | None => []
  | Some doc => let node := JObject (delete "schemas" doc) in placeholderWalk (nesting node) "" node
  end.

Definition brief : list Issue :=
  addf (empty (TrimSpace (Purpose (cfg_Brief cfg)))) "brief.purpose" IsRequired ++
  addf (empty (TrimSpace (Task (cfg_Brief cfg)))) "brief.task" IsRequired.

(** [caseCollisions]: [ids] sorted and distinct. *)
Definition caseCollisions (path : string) (ids : list string) : list Issue :=
  each (λ i id,
    concat (map (λ prev, addf (negb (bool_decide (prev = id)) && EqualFold prev id) (path +:+ "." +:+ id) CaseCollision)
              (take (Z.to_nat i) ids))) ids.

(** [relativePathProblem] on Unix; [None] is no problem. *)
Definition relativePathProblem (p : string) : option IssueKind :=
  if HasPrefix p "/" then Some NotRelative
  else if existsb (λ e, bool_decide (e = "..")) (Split p "/") then Some HasDotDot
  else None.

Definition source (id : string) (src : Source) : list Issue :=
  let path := "sources." +:+ id in
  let hasInline := bool_decide (is_Some (Inline src)) in
  let hasFile := negb (empty (src_File src)) in
  addf (negb (validID id)) path BadID ++
  addf (negb (validFormat (src_Decode src))) (path +:+ ".decode") BadValue ++
  addf (hasInline && hasFile) path InlineAndFile ++
  addf (negb hasInline && negb hasFile) path NoInlineOrFile ++
  match Inline src with
  | Some raw =>
      addf ((bool_decide (src_Decode src = FormatText) || bool_decide (src_Decode src = FormatMarkdown)) &&
            negb (json_string raw)) (path +:+ ".inline") NotJSONString
  | None => []
  end ++
  match (if hasFile then relativePathProblem (src_File src) else None) with
  | Some k => [issue (path +:+ ".file") k]
  | None => []
  end.

(** [f] on each entry of a map, in the order of its keys. *)
Definition each_key {V} (f : string → V → list Issue) (m : gmap string V) : list Issue :=
  concat (map (λ id, match m !! id with Some v => f id v | None => [] end) (sortedKeys m)).

Definition sources : list Issue :=
  caseCollisions "sources" (sortedKeys (Sources cfg)) ++ each_key source (Sources cfg).

Definition display_name (id : string) : string :=
  match cfg_Participants cfg !! id with
  | Some p => if empty (pt_Name p) then id else pt_Name p
  | None => id
  end.

Definition unnamed (id : string) : bool :=
  match cfg_Participants cfg !! id with Some p => empty (pt_Name p) | None => true end.

(** The loop of [participantNames]; [seen] maps a lowered name to the first
    participant of that name. *)
Fixpoint names_loop (ids : list string) (seen : gmap string string) : list Issue :=
  match ids with
  | [] => []
  | id :: rest =>
      let key := ToLower (display_name id) in
      match seen !! key with
      | None => names_loop rest (<[key := id]> seen)
      | Some prev =>
          addf (negb (unnamed id && unnamed prev)) ("participants." +:+ id +:+ ".name") SameName ++ names_loop rest seen
      end
  end.

Definition participantNames (ids : list string) : list Issue := names_loop ids ∅.

(** The agent a participant is, for [realAgents]. *)
Definition seat (id : string) : option string :=
  match cfg_Participants cfg !! id with
  | Some p => if empty (pt_Agent p) || negb (empty (pt_Clone p)) then None else Some (agentKey (pt_Agent p))
  | None => None
  end.

Fixpoint seats_loop (ids : list string) (seen : gmap string string) : list Issue :=
  match ids with
  | [] => []
  | id :: rest =>
      match seat id with
      | None => seats_loop rest seen
      | Some key =>
          match seen !! key with
          | Some _ => issue ("participants." +:+ id +:+ ".agent") SameAgentTwice :: seats_loop rest seen
          | None => seats_loop rest (<[key := id]> seen)
          end
      end
  end.

Definition realAgents (ids : list string) : list Issue := seats_loop ids ∅.

Definition participant (id : string) (p : Participant) : list Issue :=
  let path := "participants." +:+ id in
  let hasAgent := negb (empty (pt_Agent p)) in
  let hasClone := negb (empty (pt_Clone p)) in
  let hasModel := negb (empty (pt_Model p)) in
  addf (negb (validID id)) path BadID ++
  (if hasAgent && hasClone then [issue path AgentAndClone]
   else if hasAgent && hasModel then [issue (path +:+ ".model") AgentWithModel]
   else addf (negb hasAgent && negb hasClone && negb hasModel) path NoForm) ++
  addf (bool_decide (Form p = FormExisting) && negb (empty (CharacterCard p))) (path +:+ ".character_card") CardOfExisting ++
  if negb (bool_decide (Form p = FormFresh)) then
    addf (negb (empty (SystemPrompt p))) (path +:+ ".system_prompt") PromptNotFresh ++
    addf (negb (bool_decide (pt_Mode p = NoFreshMode))) (path +:+ ".mode") ModeNotFresh
  else addf (negb (bool_decide (pt_Mode p = NoFreshMode)) && negb (validMode (pt_Mode p))) (path +:+ ".mode") BadValue.

Definition participants : list Issue :=
  let ids := sortedKeys (cfg_Participants cfg) in
  addf (bool_decide (cfg_Participants cfg = ∅)) "participants" NoParticipants ++
  caseCollisions "participants" ids ++ participantNames ids ++ realAgents ids ++
  each_key participant (cfg_Participants cfg).

Definition schemas : list Issue :=
  each_key (λ id s,
    addf (negb (validID id)) ("schemas." +:+ id) BadID ++
    addf (negb (isJSONObject s)) ("schemas." +:+ id) NotJSONObject) (Schemas cfg).

Definition limits : list Issue :=
  let l := cfg_Limits cfg in
  concat (map (λ f : string * Z, addf (f.2 <? minPositive) ("limits." +:+ f.1) NotPositive)
    [("max_calls", MaxCalls l); ("max_duration_seconds", MaxDurationSeconds l);
     ("call_timeout_seconds", CallTimeoutSeconds l); ("max_attempts_per_turn", MaxAttemptsPerTurn l);
     ("max_parallel_calls", MaxParallelCalls l)]).

(** [layerIndex]: the first position of a layer id, or -1. *)
Definition layerIndex (id : string) : Z := Index (map l_ID (Layers cfg)) id.

(** ** Routes *)

Definition routeValues (path : string) (r : Route) : list Issue :=
  addf (match rt_Select r with OtherSelect _ => true | _ => false end) (path +:+ ".select") BadValue ++
  addf (match rt_View r with OtherView _ => true | _ => false end) (path +:+ ".view") BadValue ++
  addf (match rt_Distribute r with OtherDistribute _ => true | _ => false end) (path +:+ ".distribute") BadValue.

(** Who a route goes to. *)
Definition recipients_of (l : Layer) (r : Route) (moderator : option string) : list string :=
  match moderator with
  | Some m => [m]
  | None => route_recipients l r
  end.

Definition routeRecipients (path : string) (l : Layer) (r : Route) (moderator : option string) : list Issue :=
  let is_mod := bool_decide (is_Some moderator) in
  (if is_mod then
     addf (negb (bool_decide (To r = []))) (path +:+ ".to") ModeratorTo ++
     addf (bool_decide (rt_Distribute r = DistributeSameParticipant) || bool_decide (rt_Distribute r = DistributeRandom))
       (path +:+ ".distribute") ModeratorDistribute
   else if negb (bool_decide (To r = [])) then refs (path +:+ ".to") (λ id, mem id (l_Participants l)) (To r)
   else []) ++
  addf (bool_decide (rt_View r = ViewFull) && negb is_mod && bool_decide (To r = [])) (path +:+ ".view") FullWithoutTo.

Definition sourceRoute (path id : string) (r : Route) (recipients : list string) : list Issue :=
  addf (negb (has_key (Sources cfg) id)) (path +:+ ".from") NotConfigured ++
  addf (negb (bool_decide (rt_Select r = NoSelect))) (path +:+ ".select") LayerRouteOnly ++
  addf (negb (bool_decide (Authors r = []))) (path +:+ ".authors") LayerRouteOnly ++
  addf (negb (bool_decide (rt_View r = NoView))) (path +:+ ".view") LayerRouteOnly ++
  addf (bool_decide (rt_Distribute r = DistributeSameParticipant)) (path +:+ ".distribute") LayerRouteOnly ++
  addf (bool_decide (rt_Distribute r = DistributeRandom) && (1 <? Z.of_nat (length recipients)) && negb (Optional r))
    (path +:+ ".distribute") RandomSource ++
  addf (rt_Anonymous r) (path +:+ ".anonymous") LayerRouteOnly.

(** [readsByName]: some layer has [pid] receive [producer]'s outputs by name. *)
Definition names_producer (producer : string) (r : Route) : bool :=
  match Producer r with
  | Ok (RouteFromLayer, id) => bool_decide (id = producer) && negb (rt_Anonymous r)
  | _ => false
  end.

Definition readsByName (producer pid : string) : bool :=
  existsb (λ l,
    existsb (λ r, names_producer producer r && mem pid (route_recipients l r)) (l_Inputs l) ||
    match l_Moderator l with
    | Some m => existsb (λ r, names_producer producer r && bool_decide (md_Participant m = pid)) (md_Inputs m)
    | None => false
    end) (Layers cfg).

(** The authors a route reads. *)
Definition read_authors (r : Route) (producer : Layer) : list string :=
  if bool_decide (Authors r = []) then l_Participants producer
  else keep (λ a, mem a (Authors r)) (l_Participants producer).

(** [anonymous] of forum/anonymity.go. *)
Definition anonymous (path : string) (l : Layer) (r : Route) (recipients : list string) (producer : Layer) : list Issue :=
  addf (negb (bool_decide (l_Delivery l = DeliveryAfterRound)) || negb (MaxRounds l =? 1) ||
        bool_decide (is_Some (l_Moderator l))) path NotOneRound ++
  concat (map (λ pid,
    addf (negb (existsb (λ a, negb (bool_decide (a = pid))) (read_authors r producer))) path OnlyOwn ++
    addf (mem pid (l_Participants producer) &&
          (bool_decide (l_Delivery producer = DeliveryPerTurn) || (1 <? MaxRounds producer))) path TakesPart ++
    addf (match l_Moderator producer with Some m => bool_decide (md_Participant m = pid) | None => false end)
      path ModeratesProducer ++
    addf (readsByName (l_ID producer) pid) path ReadsByName) recipients).

(** The producing layer of a route into the layer at position [li]. *)
Definition earlier_layer (li : Z) (id : string) : option Layer :=
  let pi := layerIndex id in
  if (0 <=? pi) && (pi <? li) then Layers cfg !! Z.to_nat pi else None.

Definition layerRoute (path : string) (li : Z) (l : Layer) (id : string) (r : Route) (recipients : list string)
    : list Issue :=
  if layerIndex id <? 0 then [issue (path +:+ ".from") NotConfigured]
  else match earlier_layer li id with
       | None => [issue (path +:+ ".from") NotBackward]
       | Some producer =>
           addf (negb (IsEnabled producer) && negb (Optional r) && IsEnabled l) (path +:+ ".from") FromDisabled ++
           refs (path +:+ ".authors") (λ a, mem a (l_Participants producer)) (Authors r) ++
           addf (rt_Anonymous r && bool_decide (rt_Distribute r = DistributeSameParticipant))
             (path +:+ ".anonymous") AnonymousSame ++
           (if rt_Anonymous r then anonymous (path +:+ ".anonymous") l r recipients producer else []) ++
           if bool_decide (rt_Distribute r = DistributeSameParticipant)
           then concat (map (λ to, addf (negb (mem to (l_Participants producer))) (path +:+ ".distribute") SameNotProducer)
                          recipients)
           else []
       end.

(** What [sourceRoute] and [layerRoute] report to [route]: whether the content is
    JSON and the part of it the route may see; [None] when it is not known. *)
Definition route_content (li : Z) (r : Route) (kind : RouteKind) (id : string) : option (bool * option (list string)) :=
  match kind with
  | RouteFromSource =>
      match Sources cfg !! id with
      | Some src => Some (bool_decide (src_Decode src = FormatJSON), None)
      | None => None
      end
  | RouteFromLayer =>
      match earlier_layer li id with
      | Some producer =>
          Some (bool_decide (o_Format (l_Output producer) = FormatJSON),
                if bool_decide (rt_View r = ViewFull) then None else Share (l_Output producer))
      | None => None
      end
  end.

Definition routePaths (path : string) (r : Route) (producerJSON : bool) (share : option (list string)) : list Issue :=
  addf (negb producerJSON) (path +:+ ".paths") PathsNotJSON ++
  map (λ e, issue (path +:+ ".paths") (BadProjection e)) (checkProjection (Paths r)) ++
  match share with
  | None => []
  | Some s => concat (map (λ p, addf (negb (withinShare p s)) (path +:+ ".paths") OutsideShare) (Paths r))
  end.

Definition route (path : string) (li : Z) (l : Layer) (r : Route) (moderator : option string) : list Issue :=
  match Producer r with
  | Err e => [issue (path +:+ ".from") (BadRoute e)]
  | Ok (kind, id) =>
      let recipients := recipients_of l r moderator in
      routeValues path r ++ routeRecipients path l r moderator ++
      match kind with
      | RouteFromSource => sourceRoute path id r recipients
      | RouteFromLayer => layerRoute path li l id r recipients
      end ++
      match route_content li r kind id with
      | Some (isJSON, share) => if bool_decide (Paths r = []) then [] else routePaths path r isJSON share
      | None => []
      end
  end.

(** ** Layers *)

Definition output (path : string) (l : Layer) : list Issue :=
  let o := l_Output l in
  addf (negb (validFormat (o_Format o))) (path +:+ ".format") BadValue ++
  if negb (bool_decide (o_Format o = FormatJSON)) then
    addf (negb (empty (o_Schema o))) (path +:+ ".schema") SchemaNotJSON ++
    addf (bool_decide (is_Some (Share o))) (path +:+ ".share") ShareNotJSON
  else
    addf (negb (empty (o_Schema o)) && negb (has_key (Schemas cfg) (o_Schema o))) (path +:+ ".schema") NotConfigured ++
    match Share o with
    | None => []
    | Some s => map (λ e, issue (path +:+ ".share") (BadProjection e)) (checkProjection s)
    end.

Definition moderator (path : string) (li : Z) (l : Layer) (m : Moderator) : list Issue :=
  (if empty (md_Participant m) then [issue (path +:+ ".participant") IsRequired]
   else if negb (has_key (cfg_Participants cfg) (md_Participant m)) then [issue (path +:+ ".participant") NotConfigured]
   else addf (mem (md_Participant m) (l_Participants l)) (path +:+ ".participant") AlsoParticipant) ++
  (if AfterRound m <? minPositive then [issue (path +:+ ".after_round") NotPositive]
   else addf ((0 <? MaxRounds l) && (MaxRounds l <=? AfterRound m)) (path +:+ ".after_round") NotBelowRounds) ++
  addf (EveryRounds m <? minPositive) (path +:+ ".every_rounds") NotPositive ++
  addf (match md_ConversationView m with OtherConversationView _ => true | _ => false end)
    (path +:+ ".conversation_view") BadValue ++
  addf (negb (empty (md_Schema m)) && negb (has_key (Schemas cfg) (md_Schema m))) (path +:+ ".schema") NotConfigured ++
  if empty (md_Participant m) then []
  else each (λ k r, route (at_index (path +:+ ".inputs") k) li l r (Some (md_Participant m))) (md_Inputs m).

Definition layer (i : Z) (l : Layer) : list Issue :=
  let path := layerPath i in
  addf (bool_decide (l_Participants l = [])) (path +:+ ".participants") NoParticipants ++
  refs (path +:+ ".participants") (has_key (cfg_Participants cfg)) (l_Participants l) ++
  addf (empty (TrimSpace (l_Instructions l))) (path +:+ ".instructions") IsRequired ++
  addf (match l_Delivery l with OtherDelivery _ => true | _ => false end) (path +:+ ".delivery") BadValue ++
  addf (MaxRounds l <? minPositive) (path +:+ ".max_rounds") NotPositive ++
  (if l_MaxCalls l <? 0 then [issue (path +:+ ".max_calls") NotPositive]
   else addf ((0 <? l_MaxCalls l) && (0 <? MaxCalls (cfg_Limits cfg)) && (MaxCalls (cfg_Limits cfg) <? l_MaxCalls l))
          (path +:+ ".max_calls") AboveLimit) ++
  output (path +:+ ".output") l ++
  each (λ k r, route (at_index (path +:+ ".inputs") k) i l r None) (l_Inputs l) ++
  match l_Moderator l with
  | Some m => moderator (path +:+ ".moderator") i l m
  | None => []
  end.

(** The first loop of [layers]. *)
Definition layer_id (i : Z) (l : Layer) : list Issue :=
  let path := layerPath i in
  concat (map (λ prev, addf (negb (bool_decide (l_ID prev = l_ID l)) && EqualFold (l_ID prev) (l_ID l))
                         (path +:+ ".id") CaseCollision) (take (Z.to_nat i) (Layers cfg))) ++
  addf (negb (validID (l_ID l))) (path +:+ ".id") BadID ++
  addf (layerIndex (l_ID l) <? i) (path +:+ ".id") DuplicateID.

Definition layers : list Issue :=
  if bool_decide (Layers cfg = []) then [issue "layers" NoLayers]
  else each layer_id (Layers cfg) ++ addf (bool_decide (EnabledLayers cfg = [])) "layers" AllDisabled ++
       each layer (Layers cfg).

Fixpoint result_from (seen : list string) (k : Z) (ids : list string) : list Issue :=
  match ids with
  | [] => []
  | id :: rest =>
      let path := at_index "result_layers" k in
      (if layerIndex id <? 0 then [issue path NotConfigured]
       else addf (match Layers cfg !! Z.to_nat (layerIndex id) with Some l => negb (IsEnabled l) | None => false end)
              path DisabledResult) ++
      addf (mem id seen) path ListedTwice ++ result_from (id :: seen) (k + 1) rest
  end.

Definition resultLayers : list Issue := result_from [] 0 (ResultLayers cfg).

(** [run] and [validateStatic]: the findings, none when the configuration is
    accepted. *)
Definition validateStatic : list Issue :=
  addf (negb (validName (cfg_Name cfg))) "name" BadName ++
  brief ++ sources ++ participants ++ schemas ++ limits ++ layers ++ resultLayers ++ placeholders.
End validate.

(** ** No findings *)

Lemma addf_nil b path k : addf b path k = [] ↔ b = false.
Proof. by destruct b. Qed.

Lemma app_nil_iff {A} (a b : list A) : a ++ b = [] ↔ a = [] ∧ b = [].
Proof. split; [by intros [-> ->]%app_eq_nil|by intros [-> ->]]. Qed.

Lemma concat_map_nil {A B} (f : A → list B) l : concat (map f l) = [] ↔ ∀ x, x ∈ l → f x = [].
Proof.
  induction l as [|x l IH]; simpl; [by split; [intros _ x Hx%not_elem_of_nil|]|].
  rewrite app_nil_iff, IH. setoid_rewrite elem_of_cons. split.
  - intros [Hx Hl] y [->|Hy]; auto.
  - intros H. split; [apply H; by left|]. intros y Hy. apply H. by right.
Qed.

Lemma map_nil_iff {A B} (f : A → B) l : map f l = [] ↔ l = [].
Proof. by destruct l. Qed.

Lemma each_from_nil {A} (f : Z → A → list Issue) k l :
  each_from k f l = [] ↔ ∀ i x, l !! i = Some x → f (k + Z.of_nat i) x = [].
Proof.
  revert k. induction l as [|y l IH]; intros k; simpl; [done|]. rewrite app_nil_iff, IH. split.
  - intros [Hy Hl] [|i] x; simpl.
    + intros [= <-]. by rewrite Z.add_0_r.
    + intros Hx. rewrite <- (Hl i x Hx). f_equal. lia.
  - intros H. split; [rewrite <- (H 0%nat y eq_refl); f_equal; lia|].
    intros i x Hx. rewrite <- (H (S i) x Hx). f_equal. lia.
Qed.

Lemma each_nil {A} (f : Z → A → list Issue) l :
  each f l = [] ↔ ∀ i x, l !! i = Some x → f (Z.of_nat i) x = [].
Proof. unfold each. rewrite each_from_nil. done. Qed.

Lemma elem_of_sortedKeys {V} (m : gmap string V) k : k ∈ sortedKeys m ↔ is_Some (m !! k).
Proof.
  unfold sortedKeys. rewrite stable_sort_perm, list_elem_of_fmap. split.
  - intros ([k' v] & -> & H%elem_of_map_to_list). by eexists.
  - intros [v Hv]. exists (k, v). by split; [|apply elem_of_map_to_list].
Qed.

Lemma sortedKeys_NoDup {V} (m : gmap string V) : NoDup (sortedKeys m).
Proof. unfold sortedKeys. rewrite stable_sort_perm. apply NoDup_fst_map_to_list. Qed.

Lemma each_key_nil {V} (f : string → V → list Issue) m :
  each_key f m = [] ↔ ∀ id v, m !! id = Some v → f id v = [].
Proof.
  unfold each_key. rewrite concat_map_nil. split.
  - intros H id v Hv. specialize (H id). rewrite elem_of_sortedKeys, Hv in H. by apply H.
  - intros H id _. destruct (m !! id) eqn:Hv; [by apply H|done].
Qed.

Lemma refs_from_nil path known seen k ids :
  refs_from path known seen k ids = [] ↔
  (∀ id, id ∈ ids → known id = true ∧ id ∉ seen) ∧ NoDup ids.
Proof.
  revert seen k. induction ids as [|id ids IH]; intros seen k; simpl.
  { split; [|done]. intros _. split; [by intros x Hx%not_elem_of_nil|constructor]. }
  rewrite !app_nil_iff, !addf_nil, IH, negb_false_iff, bool_decide_eq_false, NoDup_cons.
  split.
  - intros (Hk & Hs & Hrest & Hn). split; [|split; [|done]].
    + intros x [->|Hx]%elem_of_cons; [done|]. destruct (Hrest x Hx) as [Hkx Hsx].
      apply not_elem_of_cons in Hsx as [_ Hsx]. done.
    + intros Hin. destruct (Hrest id Hin) as [_ Hsx]. by apply not_elem_of_cons in Hsx as [Hsx _].
  - intros (H & Hin & Hn). destruct (H id ltac:(left)) as [Hk Hs]. split_and!; [done..| |done].
    intros x Hx. destruct (H x ltac:(by right)) as [Hkx Hsx]. split; [done|].
    apply not_elem_of_cons. split; [|done]. by intros ->.
Qed.

Lemma refs_nil path known ids : refs path known ids = [] ↔ (∀ id, id ∈ ids → known id = true) ∧ NoDup ids.
Proof.
  unfold refs. rewrite refs_from_nil. split; intros [H Hn]; (split; [|done]); intros id Hid.
  - by apply H.
  - split; [by apply H|apply not_elem_of_nil].
Qed.

Create HintDb issues.
#[export] Hint Rewrite @app_nil_iff addf_nil @concat_map_nil @map_nil_iff @each_nil @each_key_nil refs_nil
  negb_false_iff negb_true_iff orb_false_iff andb_false_iff bool_decide_eq_false bool_decide_eq_true : issues.

(** Reads off what an empty list of findings says. *)
Ltac accepted H := autorewrite with issues in H.

Lemma mem_true id l : mem id l = true ↔ id ∈ l.
Proof. unfold mem. apply bool_decide_eq_true. Qed.

Lemma has_key_true {V} (m : gmap string V) k : has_key m k = true ↔ is_Some (m !! k).
Proof. unfold has_key. apply bool_decide_eq_true. Qed.

Lemma empty_false s : empty s = false ↔ s ≠ "".
Proof. unfold empty. apply bool_decide_eq_false. Qed.

Lemma empty_true s : empty s = true ↔ s = "".
Proof. unfold empty. apply bool_decide_eq_true. Qed.

(** ** Placeholders are looked for everywhere *)

Lemma nesting_array l e : e ∈ l → (nesting e < nesting (JArray l))%nat.
Proof.
  simpl. intros He. induction l as [|x l IH]; [by apply not_elem_of_nil in He|]. simpl.
  apply elem_of_cons in He as [->|He]; [lia|]. specialize (IH He). lia.
Qed.

Lemma nesting_object m k v : m !! k = Some v → (nesting v < nesting (JObject m))%nat.
Proof.
  simpl. revert k v. apply (map_fold_weak_ind (λ n m, ∀ k v, m !! k = Some v → (nesting v < S n)%nat)).
  - intros k v H. by rewrite lookup_empty in H.
  - intros k v m' n Hk IH k' v'. rewrite lookup_insert_Some. intros [[-> ->]|[_ H%IH]]; lia.
Qed.

(** A string at the end of a path of members and elements. *)
Inductive string_in (s : string) : json → Prop :=
| here : string_in s (JString s)
| in_array l e : e ∈ l → string_in s e → string_in s (JArray l)
| in_object m k v : m !! k = Some v → string_in s v → string_in s (JObject m).

Lemma placeholderWalk_spec `{UnicodeData} depth path node :
  (nesting node ≤ depth)%nat → placeholderWalk depth path node = [] →
  ∀ s, string_in s node → isPlaceholder s = false.
Proof.
  revert path node. induction depth as [|depth IH]; intros path node Hd Hw s Hs.
  { destruct node; simpl in Hd; lia. }
  destruct Hs as [|l e He Hs|m k v Hk Hs]; simpl in Hw.
  - by apply addf_nil in Hw.
  - rewrite each_nil in Hw. apply list_elem_of_lookup in He as Hi. destruct Hi as [i Hi].
    apply nesting_array in He. refine (IH _ e _ (Hw i e Hi) s Hs). lia.
  - rewrite concat_map_nil in Hw. specialize (Hw k). rewrite elem_of_sortedKeys, Hk in Hw.
    apply nesting_object in Hk. refine (IH _ v _ (Hw ltac:(by eexists)) s Hs). lia.
Qed.

(** ** Well-formed configurations *)

Section well_formed.
Context {U : UnicodeData} {J : ConfigJSON}.
Context (cfg : Config).

(** Ids that differ in more than case. *)
Definition distinct_ids {V} (m : gmap string V) : Prop :=
  ∀ a b, is_Some (m !! a) → is_Some (m !! b) → a ≠ b → (a <=? b)%string = true → EqualFold a b = false.

(** [pid] receives [producer]'s outputs by name in some layer. *)
Definition reads_by_name (producer pid : string) : Prop :=
  ∃ l r, l ∈ Layers cfg ∧ Producer r = Ok (RouteFromLayer, producer) ∧ rt_Anonymous r = false ∧
    (r ∈ l_Inputs l ∧ pid ∈ route_recipients l r ∨
     ∃ m, l_Moderator l = Some m ∧ r ∈ md_Inputs m ∧ md_Participant m = pid).

Record anonymous_ok (l : Layer) (r : Route) (recipients : list string) (producer : Layer) : Prop := {
  an_one_round : l_Delivery l = DeliveryAfterRound ∧ MaxRounds l = 1 ∧ l_Moderator l = None;
  an_mode : rt_Distribute r ≠ DistributeSameParticipant;
  an_others : ∀ pid, pid ∈ recipients → ∃ a, a ∈ l_Participants producer ∧ a ≠ pid ∧ (Authors r = [] ∨ a ∈ Authors r);
  an_no_part : ∀ pid, pid ∈ recipients → pid ∈ l_Participants producer →
    l_Delivery producer ≠ DeliveryPerTurn ∧ MaxRounds producer ≤ 1;
  an_no_moderator : ∀ pid m, pid ∈ recipients → l_Moderator producer = Some m → md_Participant m ≠ pid;
  an_no_name : ∀ pid, pid ∈ recipients → ¬ reads_by_name (l_ID producer) pid
}.

Definition paths_ok (r : Route) (isJSON : bool) (share : option (list string)) : Prop :=
  Paths r ≠ [] → isJSON = true ∧ checkProjection (Paths r) = [] ∧
    ∀ s p, share = Some s → p ∈ Paths r → withinShare p s = true.

Definition source_route_ok (r : Route) (recipients : list string) (src : Source) : Prop :=
  rt_Select r = NoSelect ∧ Authors r = [] ∧ rt_View r = NoView ∧ rt_Distribute r ≠ DistributeSameParticipant ∧
  rt_Anonymous r = false ∧
  (rt_Distribute r = DistributeRandom → (length recipients ≤ 1)%nat ∨ Optional r = true) ∧
  paths_ok r (bool_decide (src_Decode src = FormatJSON)) None.

Definition layer_route_ok (l : Layer) (r : Route) (recipients : list string) (producer : Layer) : Prop :=
  (IsEnabled l = true → IsEnabled producer = true ∨ Optional r = true) ∧
  (∀ a, a ∈ Authors r → a ∈ l_Participants producer) ∧ NoDup (Authors r) ∧
  (rt_Distribute r = DistributeSameParticipant → ∀ pid, pid ∈ recipients → pid ∈ l_Participants producer) ∧
  (rt_Anonymous r = true → anonymous_ok l r recipients producer) ∧
  paths_ok r (bool_decide (o_Format (l_Output producer) = FormatJSON))
    (if decide (rt_View r = ViewFull) then None else Share (l_Output producer)).

(** A route of the layer at position [i]; [m] is the moderator of a moderator's
    input. *)
Record route_ok (i : nat) (l : Layer) (r : Route) (m : option string) : Prop := {
  ro_values : (∀ s, rt_Select r ≠ OtherSelect s) ∧ (∀ s, rt_View r ≠ OtherView s) ∧
    (∀ s, rt_Distribute r ≠ OtherDistribute s);
  ro_to : match m with
    | Some _ => To r = [] ∧ rt_Distribute r ≠ DistributeSameParticipant ∧ rt_Distribute r ≠ DistributeRandom
    | None => (∀ pid, pid ∈ To r → pid ∈ l_Participants l) ∧ NoDup (To r) ∧ (rt_View r = ViewFull → To r ≠ [])
    end;
  ro_producer : match Producer r with
    | Err _ => False
    | Ok (RouteFromSource, id) => ∃ src, Sources cfg !! id = Some src ∧ source_route_ok r (recipients_of l r m) src
    | Ok (RouteFromLayer, id) => ∃ j p, (j < i)%nat ∧ Layers cfg !! j = Some p ∧ l_ID p = id ∧
        layer_route_ok l r (recipients_of l r m) p
    end
}.

Definition output_ok (l : Layer) : Prop :=
  let o := l_Output l in
  (∀ s, o_Format o ≠ OtherFormat s) ∧
  (o_Format o ≠ FormatJSON → o_Schema o = "" ∧ Share o = None) ∧
  (o_Schema o ≠ "" → is_Some (Schemas cfg !! o_Schema o)) ∧
  (∀ s, Share o = Some s → checkProjection s = []).

Record moderator_ok (i : nat) (l : Layer) (m : Moderator) : Prop := {
  mo_participant : is_Some (cfg_Participants cfg !! md_Participant m) ∧ md_Participant m ∉ l_Participants l;
  mo_rounds : 1 ≤ AfterRound m ∧ (0 < MaxRounds l → AfterRound m < MaxRounds l) ∧ 1 ≤ EveryRounds m;
  mo_view : ∀ s, md_ConversationView m ≠ OtherConversationView s;
  mo_schema : md_Schema m ≠ "" → is_Some (Schemas cfg !! md_Schema m);
  mo_inputs : ∀ r, r ∈ md_Inputs m → route_ok i l r (Some (md_Participant m))
}.

Record layer_ok (i : nat) (l : Layer) : Prop := {
  la_participants : l_Participants l ≠ [] ∧ NoDup (l_Participants l) ∧
    ∀ p, p ∈ l_Participants l → is_Some (cfg_Participants cfg !! p);
  la_instructions : TrimSpace (l_Instructions l) ≠ "";
  la_delivery : l_Delivery l = DeliveryAfterRound ∨ l_Delivery l = DeliveryPerTurn;
  la_rounds : 1 ≤ MaxRounds l;
  la_calls : 0 ≤ l_MaxCalls l ≤ MaxCalls (cfg_Limits cfg);
  la_output : output_ok l;
  la_inputs : ∀ r, r ∈ l_Inputs l → route_ok i l r None;
  la_moderator : ∀ m, l_Moderator l = Some m → moderator_ok i l m
}.

Definition participant_ok (id : string) (p : Participant) : Prop :=
  validID id = true ∧
  match Form p with
  | FormExisting => pt_Agent p ≠ "" ∧ pt_Clone p = "" ∧ pt_Model p = "" ∧ CharacterCard p = "" ∧
                    SystemPrompt p = "" ∧ pt_Mode p = NoFreshMode
  | FormClone => pt_Agent p = "" ∧ pt_Clone p ≠ "" ∧ SystemPrompt p = "" ∧ pt_Mode p = NoFreshMode
  | FormFresh => pt_Agent p = "" ∧ pt_Clone p = "" ∧ pt_Model p ≠ "" ∧
                 ∀ s, pt_Mode p ≠ OtherFreshMode s
  end.

Definition source_ok (id : string) (src : Source) : Prop :=
  validID id = true ∧ (∀ s, src_Decode src ≠ OtherFormat s) ∧
  match Inline src with
  | Some raw => src_File src = "" ∧
      (src_Decode src = FormatText ∨ src_Decode src = FormatMarkdown → json_string raw = true)
  | None => src_File src ≠ "" ∧ HasPrefix (src_File src) "/" = false ∧ ".." ∉ Split (src_File src) "/"
  end.

Record well_formed : Prop := {
  wf_name : validName (cfg_Name cfg) = true;
  wf_brief : TrimSpace (Purpose (cfg_Brief cfg)) ≠ "" ∧ TrimSpace (Task (cfg_Brief cfg)) ≠ "";
  wf_sources : (∀ id src, Sources cfg !! id = Some src → source_ok id src) ∧ distinct_ids (Sources cfg);
  wf_participants : cfg_Participants cfg ≠ ∅ ∧ distinct_ids (cfg_Participants cfg) ∧
    ∀ id p, cfg_Participants cfg !! id = Some p → participant_ok id p;
  (** Nobody shares a transcript name, by name, or an agent. *)
  wf_names : ∀ a b, is_Some (cfg_Participants cfg !! a) → is_Some (cfg_Participants cfg !! b) → a ≠ b →
    ToLower (display_name cfg a) = ToLower (display_name cfg b) → unnamed cfg a = true ∧ unnamed cfg b = true;
  wf_seats : ∀ a b k, is_Some (cfg_Participants cfg !! a) → is_Some (cfg_Participants cfg !! b) →
    seat cfg a = Some k → seat cfg b = Some k → a = b;
  wf_schemas : ∀ id s, Schemas cfg !! id = Some s → validID id = true ∧ isJSONObject s = true;
  wf_limits : 1 ≤ MaxCalls (cfg_Limits cfg) ∧ 1 ≤ MaxDurationSeconds (cfg_Limits cfg) ∧
    1 ≤ CallTimeoutSeconds (cfg_Limits cfg) ∧ 1 ≤ MaxAttemptsPerTurn (cfg_Limits cfg) ∧
    1 ≤ MaxParallelCalls (cfg_Limits cfg);
  wf_layer_ids : NoDup (map l_ID (Layers cfg)) ∧ (∀ l, l ∈ Layers cfg → validID (l_ID l) = true) ∧
    (∀ i j p q, (i < j)%nat → Layers cfg !! i = Some p → Layers cfg !! j = Some q →
       EqualFold (l_ID p) (l_ID q) = false) ∧ EnabledLayers cfg ≠ [];
  wf_layers : ∀ i l, Layers cfg !! i = Some l → layer_ok i l;
  wf_results : NoDup (ResultLayers cfg) ∧
    ∀ id, id ∈ ResultLayers cfg → ∃ l, l ∈ EnabledLayers cfg ∧ l_ID l = id;
  wf_placeholders : ∀ doc s, config_doc cfg = Some doc →
    string_in s (JObject (delete "schemas" doc)) → isPlaceholder s = false
}.

(** ** Ids and names *)

Lemma leb_trans x y z : (x <=? y)%string = true → (y <=? z)%string = true → (x <=? z)%string = true.
Proof.
  intros H1 H2. apply Is_true_true. apply (transitivity (R := String.le)) with y; by apply Is_true_true.
Qed.

Lemma caseCollisions_ok {V} path (m : gmap string V) : caseCollisions path (sortedKeys m) = [] → distinct_ids m.
Proof.
  intros H a b Ha Hb Hab Hle. unfold caseCollisions in H. rewrite each_nil in H.
  rewrite <- elem_of_sortedKeys in Ha, Hb.
  pose proof (stable_sort_sorted String.leb String.leb_total leb_trans (map_to_list m).*1) as Hs.
  fold (sortedKeys m) in Hs.
  apply list_elem_of_lookup in Ha as [i Hi]. apply list_elem_of_lookup in Hb as [j Hj].
  destruct (decide (i < j)%nat) as [Hij|Hij].
  - specialize (H j b Hj). rewrite concat_map_nil in H. specialize (H a). rewrite Nat2Z.id, addf_nil in H.
    rewrite bool_decide_false in H by done. apply H. apply list_elem_of_lookup. exists i. by rewrite lookup_take_lt.
  - assert (j < i)%nat as Hji by (destruct (decide (i = j)); [subst; congruence|lia]).
    exfalso. apply Hab. apply String.leb_antisym; [done|].
    rewrite <- (take_drop_middle _ _ _ Hi) in Hs. apply StronglySorted_app in Hs as (Hs & _ & _).
    apply Hs; [|left]. apply list_elem_of_lookup. exists j. by rewrite lookup_take_lt.
Qed.

Lemma names_loop_ok ids seen :
  names_loop cfg ids seen = [] →
  (∀ a prev, a ∈ ids → seen !! ToLower (display_name cfg a) = Some prev →
     unnamed cfg a = true ∧ unnamed cfg prev = true) ∧
  (∀ i j a b, (i < j)%nat → ids !! i = Some a → ids !! j = Some b →
     ToLower (display_name cfg a) = ToLower (display_name cfg b) → unnamed cfg a = true ∧ unnamed cfg b = true).
Proof.
  revert seen. induction ids as [|id ids IH]; intros seen; cbn [names_loop].
  { intros _. split; [by intros a prev Ha%not_elem_of_nil|by intros i j a b _ Hi]. }
  cbv zeta. destruct (seen !! ToLower (display_name cfg id)) as [p|] eqn:Hp.
  - intros [Ha Hrest]%app_nil_iff. rewrite addf_nil, negb_false_iff in Ha. apply andb_true_iff in Ha.
    destruct (IH _ Hrest) as [IH1 IH2]. split.
    + intros a prev [->|Hin]%elem_of_cons; [rewrite Hp; by intros [= <-]|by apply IH1].
    + intros [|i] [|j] a b Hij; simpl; try lia; [|apply IH2; lia].
      intros [= <-] Hb Hkey. split; [by destruct Ha|]. apply list_elem_of_lookup_2 in Hb.
      rewrite Hkey in Hp. by apply (IH1 b p).
  - intros Hrest. destruct (IH _ Hrest) as [IH1 IH2]. split.
    + intros a prev [->|Hin]%elem_of_cons; [by rewrite Hp|]. intros Hprev. apply IH1; [done|].
      rewrite lookup_insert_ne; [done|congruence].
    + intros [|i] [|j] a b Hij; simpl; try lia; [|apply IH2; lia].
      intros [= <-] Hb Hkey. apply list_elem_of_lookup_2 in Hb. apply and_comm, (IH1 b id Hb).
      rewrite Hkey. by rewrite lookup_insert_eq.
Qed.

Lemma participantNames_ok a b :
  participantNames cfg (sortedKeys (cfg_Participants cfg)) = [] →
  is_Some (cfg_Participants cfg !! a) → is_Some (cfg_Participants cfg !! b) → a ≠ b →
  ToLower (display_name cfg a) = ToLower (display_name cfg b) → unnamed cfg a = true ∧ unnamed cfg b = true.
Proof.
  intros [_ H]%names_loop_ok. rewrite <- !elem_of_sortedKeys.
  intros [i Hi]%list_elem_of_lookup [j Hj]%list_elem_of_lookup Hab Hkey.
  destruct (decide (i < j)%nat); [by apply (H i j)|]. apply and_comm, (H j i); try done.
  destruct (decide (i = j)); [subst; congruence|lia].
Qed.

Lemma seats_loop_ok ids seen :
  seats_loop cfg ids seen = [] →
  (∀ a k, a ∈ ids → seat cfg a = Some k → seen !! k = None) ∧
  (∀ i j a b k, (i < j)%nat → ids !! i = Some a → ids !! j = Some b → seat cfg a = Some k → seat cfg b ≠ Some k).
Proof.
  revert seen. induction ids as [|id ids IH]; intros seen; cbn [seats_loop].
  { intros _. split; [by intros a k Ha%not_elem_of_nil|by intros i j a b k _ Hi]. }
  destruct (seat cfg id) as [k|] eqn:Hk; [destruct (seen !! k) eqn:Hs; [done|]|]; intros Hrest;
    destruct (IH _ Hrest) as [IH1 IH2]; split.
  - intros a k' [->|Ha]%elem_of_cons Hk'; [congruence|]. specialize (IH1 a k' Ha Hk').
    by apply lookup_insert_None in IH1 as [? _].
  - intros [|i] [|j] a b k' Hij; simpl; try lia; [|apply IH2; lia]. intros [= <-] Hb Hk' Hkb.
    apply list_elem_of_lookup_2 in Hb. specialize (IH1 b k' Hb Hkb). apply lookup_insert_None in IH1 as [_ Hne]. congruence.
  - intros a k' [->|Ha]%elem_of_cons Hk'; [congruence|]. by apply (IH1 a).
  - intros [|i] [|j] a b k' Hij; simpl; try lia; [|apply IH2; lia]. intros [= <-] Hb Hk'. congruence.
Qed.

Lemma realAgents_ok a b k :
  realAgents cfg (sortedKeys (cfg_Participants cfg)) = [] →
  is_Some (cfg_Participants cfg !! a) → is_Some (cfg_Participants cfg !! b) →
  seat cfg a = Some k → seat cfg b = Some k → a = b.
Proof.
  intros [_ H]%seats_loop_ok. rewrite <- !elem_of_sortedKeys.
  intros [i Hi]%list_elem_of_lookup [j Hj]%list_elem_of_lookup Ha Hb.
  destruct (lt_eq_lt_dec i j) as [[Hij| ->]|Hij]; [|congruence|].
  - by destruct (H i j a b k Hij Hi Hj Ha).
  - by destruct (H j i b a k Hij Hj Hi Hb).
Qed.
End well_formed.

(** ** Accepted configurations are well formed *)

Section accepted.
Context {U : UnicodeData} {J : ConfigJSON}.
Context (cfg : Config).

Lemma validFormat_true f : validFormat f = true → ∀ s, f ≠ OtherFormat s.
Proof. by destruct f. Qed.

Lemma source_accepted id src : source id src = [] → source_ok id src.
Proof.
  unfold source. cbv zeta. intros H. rewrite !app_nil_iff, !addf_nil in H.
  destruct H as (H1 & H2 & H3 & H4 & H5 & H6). apply negb_false_iff in H1, H2.
  split; [done|]. split; [by apply validFormat_true|].
  destruct (Inline src) as [raw|]; simpl in *.
  - apply negb_false_iff, empty_true in H3. split; [done|].
    rewrite addf_nil, andb_false_iff, negb_false_iff, orb_false_iff, !bool_decide_eq_false in H5. naive_solver.
  - rewrite negb_involutive in H4.
    split; [by apply empty_false|]. rewrite H4 in H6. simpl in H6.
    destruct (relativePathProblem (src_File src)) eqn:Hr; [done|]. unfold relativePathProblem in Hr.
    destruct (HasPrefix (src_File src) "/"); [done|]. split; [done|].
    destruct (existsb _ _) eqn:He; [done|]. intros Hin. apply not_true_iff_false in He. apply He, existsb_Exists.
    exists "..". split; [done|]. by apply bool_decide_eq_true.
Qed.

Lemma participant_accepted id p : participant id p = [] → participant_ok id p.
Proof.
  unfold participant, participant_ok. cbv zeta. intros H. rewrite !app_nil_iff, !addf_nil in H.
  destruct H as (H1 & H2 & H3 & H4). apply negb_false_iff in H1. split; [done|]. clear H1.
  unfold Form in *.
  destruct (empty (pt_Clone p)) eqn:Hc, (empty (pt_Agent p)) eqn:Ha, (empty (pt_Model p)) eqn:Hm;
    unfold empty in Ha, Hc; rewrite ?Ha, ?Hc in *; simpl in *; try discriminate H2;
    rewrite ?app_nil_iff, ?addf_nil, ?negb_false_iff, ?bool_decide_eq_true in H4; fold (empty (pt_Agent p)) in *;
    rewrite ?empty_true in *; rewrite ?bool_decide_eq_true, ?bool_decide_eq_false, ?empty_false, ?empty_true in *.
  all: try (destruct H4 as [H4 H5]; simpl in H3; rewrite ?negb_false_iff, ?empty_true in H3; by split_and!).
  split_and!; try done. intros s Hs. by rewrite Hs in H4.
Qed.

Lemma output_accepted path l : output cfg path l = [] → output_ok cfg l.
Proof.
  unfold output, output_ok. cbv zeta. rewrite app_nil_iff, addf_nil, negb_false_iff.
  intros [H1 H2]. split; [by apply validFormat_true|].
  destruct (bool_decide (o_Format (l_Output l) = FormatJSON)) eqn:Hf; simpl in H2;
    rewrite ?bool_decide_eq_true, ?bool_decide_eq_false in Hf; rewrite app_nil_iff, addf_nil in H2; destruct H2 as [H2 H3].
  - split_and!; [done| |].
    + intros Hs. rewrite (proj2 (empty_false _) Hs) in H2. simpl in H2. by apply negb_false_iff, has_key_true in H2.
    + intros s Hs. rewrite Hs in H3. by apply map_nil_iff in H3.
  - apply negb_false_iff, empty_true in H2. apply addf_nil, bool_decide_eq_false in H3.
    assert (Share (l_Output l) = None) as Hsh by (destruct (Share (l_Output l)); [destruct H3; eauto|done]).
    split_and!; [done|done|by rewrite Hsh].
Qed.

Lemma readsByName_false producer pid : readsByName cfg producer pid = false → ¬ reads_by_name cfg producer pid.
Proof.
  intros Hf (l & r & Hl & Hp & Ha & H). apply not_true_iff_false in Hf. apply Hf. unfold readsByName.
  apply existsb_Exists. exists l. split; [done|].
  assert (Hn : names_producer producer r = true).
  { unfold names_producer. rewrite Hp, Ha. by rewrite bool_decide_true. }
  apply orb_true_iff. destruct H as [[Hr Hpid]|(m & -> & Hr & Hm)]; [left|right]; apply existsb_Exists; exists r;
    (split; [done|]); rewrite Hn; simpl; [by apply mem_true|by apply bool_decide_eq_true].
Qed.

Lemma anonymous_accepted path l r recipients producer :
  rt_Distribute r ≠ DistributeSameParticipant → anonymous cfg path l r recipients producer = [] →
  anonymous_ok cfg l r recipients producer.
Proof.
  intros Hmode. unfold anonymous. rewrite app_nil_iff, addf_nil, concat_map_nil. intros [H1 H2].
  apply orb_false_iff in H1 as [H1 Hm]. apply orb_false_iff in H1 as [Hd Hr].
  apply negb_false_iff, bool_decide_eq_true in Hd. apply negb_false_iff, Z.eqb_eq in Hr.
  apply bool_decide_eq_false in Hm.
  assert (Hpid : ∀ pid, pid ∈ recipients →
    existsb (λ a, negb (bool_decide (a = pid))) (read_authors r producer) = true ∧
    mem pid (l_Participants producer) &&
      (bool_decide (l_Delivery producer = DeliveryPerTurn) || (1 <? MaxRounds producer)) = false ∧
    match l_Moderator producer with Some m => bool_decide (md_Participant m = pid) | None => false end = false ∧
    readsByName cfg (l_ID producer) pid = false).
  { intros pid Hin. specialize (H2 pid Hin). rewrite !app_nil_iff, !addf_nil, negb_false_iff in H2. done. }
  split.
  - split_and!; [done..|]. destruct (l_Moderator l); [destruct Hm; eauto|done].
  - done.
  - intros pid Hin. destruct (Hpid pid Hin) as (He & _). apply existsb_Exists in He as (a & Ha & Hne).
    apply negb_true_iff, bool_decide_eq_false in Hne. unfold read_authors in Ha.
    case_bool_decide; [by exists a; auto|]. apply elem_of_keep in Ha as [Ha Hau]. apply mem_true in Hau. by exists a; auto.
  - intros pid Hin Hpart. destruct (Hpid pid Hin) as (_ & Ht & _). rewrite (proj2 (mem_true _ _) Hpart) in Ht.
    simpl in Ht. apply orb_false_iff in Ht as [Ht1 Ht2]. apply bool_decide_eq_false in Ht1. split; [done|]. zb. done.
  - intros pid m Hin Hm'. destruct (Hpid pid Hin) as (_ & _ & Hmod & _). rewrite Hm' in Hmod.
    by apply bool_decide_eq_false in Hmod.
  - intros pid Hin. destruct (Hpid pid Hin) as (_ & _ & _ & Hn). by apply readsByName_false.
Qed.

Lemma routePaths_accepted path r isJSON share :
  (if bool_decide (Paths r = []) then [] else routePaths path r isJSON share) = [] → paths_ok r isJSON share.
Proof.
  intros H Hne. rewrite bool_decide_false in H by done. unfold routePaths in H.
  rewrite !app_nil_iff, addf_nil, negb_false_iff, map_nil_iff in H. destruct H as (H1 & H2 & H3).
  split_and!; [done..|]. intros s p -> Hp. rewrite concat_map_nil in H3. specialize (H3 p Hp).
  by rewrite addf_nil, negb_false_iff in H3.
Qed.

Lemma sourceRoute_accepted path id r recipients :
  sourceRoute cfg path id r recipients = [] →
  (∀ isJSON share, route_content cfg 0 r RouteFromSource id = Some (isJSON, share) → paths_ok r isJSON share) →
  ∃ src, Sources cfg !! id = Some src ∧ source_route_ok r recipients src.
Proof.
  unfold sourceRoute, route_content. rewrite !app_nil_iff, !addf_nil, !negb_false_iff. intros (H1 & H2 & H3 & H4 & H5 & H6 & H7) Hp.
  apply has_key_true in H1 as [src Hs]. rewrite Hs in Hp. specialize (Hp _ _ eq_refl).
  apply bool_decide_eq_true in H2, H3, H4. apply bool_decide_eq_false in H5. exists src. split; [done|].
  split_and!; try done. intros Hr. rewrite (bool_decide_true _ Hr) in H6. simpl in H6.
  apply andb_false_iff in H6 as [H6|H6]; [left; zb; lia|right; by apply negb_false_iff].
Qed.

Lemma earlier_layer_Some i id p :
  earlier_layer cfg (Z.of_nat i) id = Some p → ∃ j, (j < i)%nat ∧ Layers cfg !! j = Some p ∧ l_ID p = id.
Proof.
  unfold earlier_layer. cbv zeta. case_if; [|done]. zb. intros Hp.
  exists (Z.to_nat (layerIndex cfg id)). split; [lia|]. split; [done|].
  assert (Hin : id ∈ map l_ID (Layers cfg)).
  { apply dec_stable. rewrite <- Index_neg. unfold layerIndex in *. lia. }
  assert (Hm : (l_ID <$> Layers cfg) !! Z.to_nat (layerIndex cfg id) = Some id) by by apply Index_lookup.
  rewrite list_lookup_fmap, Hp in Hm. by injection Hm.
Qed.

Lemma layerRoute_accepted path i l id r recipients :
  layerRoute cfg path (Z.of_nat i) l id r recipients = [] →
  (∀ isJSON share, route_content cfg (Z.of_nat i) r RouteFromLayer id = Some (isJSON, share) → paths_ok r isJSON share) →
  ∃ j p, (j < i)%nat ∧ Layers cfg !! j = Some p ∧ l_ID p = id ∧ layer_route_ok cfg l r recipients p.
Proof.
  unfold layerRoute, route_content. case_if; [done|]. destruct (earlier_layer cfg (Z.of_nat i) id) as [p|] eqn:Hp; [|done].
  rewrite !app_nil_iff, !addf_nil, refs_nil. intros (H1 & [H2 Hnd] & H3 & H4 & H5) Hpaths.
  specialize (Hpaths _ _ eq_refl). destruct (earlier_layer_Some i id p Hp) as (j & Hj & Hl & Hid).
  exists j, p. split_and!; [done..|]. split_and!.
  - intros Hen. rewrite Hen, andb_true_r in H1. apply andb_false_iff in H1 as [H1|H1]; apply negb_false_iff in H1; auto.
  - intros a Ha. by apply mem_true, H2.
  - done.
  - intros Hsame pid Hpid. rewrite (bool_decide_true _ Hsame), concat_map_nil in H5. specialize (H5 pid Hpid).
    by rewrite addf_nil, negb_false_iff, mem_true in H5.
  - intros Ha. rewrite Ha in H3, H4. simpl in H3. apply bool_decide_eq_false in H3. by eapply anonymous_accepted.
  - destruct (decide (rt_View r = ViewFull)) as [Hv|Hv]; [rewrite (bool_decide_true _ Hv) in Hpaths|
      rewrite (bool_decide_false _ Hv) in Hpaths]; exact Hpaths.
Qed.

Lemma route_accepted path i l r m : route cfg path (Z.of_nat i) l r m = [] → route_ok cfg i l r m.
Proof.
  unfold route. destruct (Producer r) as [[kind id]|e] eqn:Hp; [|done].
  rewrite !app_nil_iff. intros (Hv & Ht & Hprod & Hcontent). split.
  - unfold routeValues in Hv. rewrite !app_nil_iff, !addf_nil in Hv. destruct Hv as (H1 & H2 & H3).
    split_and!; intros s Hs; rewrite Hs in *; done.
  - unfold routeRecipients in Ht. rewrite app_nil_iff, addf_nil in Ht. destruct Ht as [H1 H2].
    destruct m as [m|]; cbn [is_Some] in H1, H2.
    + rewrite (bool_decide_true (is_Some (Some m))) in H1 by eauto. rewrite app_nil_iff, !addf_nil, negb_false_iff, bool_decide_eq_true in H1.
      destruct H1 as [H1 H3]. apply orb_false_iff in H3 as [H3 H4]. apply bool_decide_eq_false in H3, H4. done.
    + assert (Hn : ¬ is_Some (@None string)) by (by intros []).
      rewrite (bool_decide_false _ Hn) in H1, H2. simpl in H2. rewrite andb_true_r in H2.
      destruct (bool_decide (To r = [])) eqn:Hto; simpl in H1.
      * apply bool_decide_eq_true in Hto. rewrite andb_true_r in H2. apply bool_decide_eq_false in H2.
        rewrite Hto. split_and!; [by intros pid Hpid%not_elem_of_nil|constructor|done].
      * apply bool_decide_eq_false in Hto. apply refs_nil in H1 as [H1 Hnd]. split_and!; [|done..].
        intros pid Hpid. by apply mem_true, H1.
  - rewrite Hp. destruct kind.
    + apply (sourceRoute_accepted _ _ _ _ Hprod). intros isJSON share Hc.
      change (route_content cfg 0 r RouteFromSource id) with (route_content cfg (Z.of_nat i) r RouteFromSource id) in Hc.
      rewrite Hc in Hcontent. by eapply routePaths_accepted.
    + apply (layerRoute_accepted _ _ _ _ _ _ Hprod). intros isJSON share Hc. rewrite Hc in Hcontent.
      by eapply routePaths_accepted.
Qed.

Lemma moderator_accepted path i l m :
  moderator cfg path (Z.of_nat i) l m = [] → moderator_ok cfg i l m.
Proof.
  unfold moderator, minPositive. rewrite !app_nil_iff, !addf_nil. intros (H1 & H2 & H3 & H4 & H5 & H6).
  destruct (empty (md_Participant m)); [done|].
  destruct (has_key (cfg_Participants cfg) (md_Participant m)) eqn:Hk; [|done]. simpl in H1.
  apply has_key_true in Hk. rewrite addf_nil in H1. split.
  - split; [done|]. intros Hin. apply mem_true in Hin. congruence.
  - revert H2. case_if; [done|]. intros H2. apply addf_nil in H2. zb. split_and!; [lia| |lia]. zb. lia.
  - intros s Hs. by rewrite Hs in H4.
  - intros Hs. apply empty_false in Hs. rewrite Hs in H5. simpl in H5. by apply negb_false_iff, has_key_true in H5.
  - intros r Hr. apply list_elem_of_lookup in Hr as [k Hr]. rewrite each_nil in H6.
    by eapply route_accepted, H6.
Qed.

Lemma layer_accepted i l :
  1 ≤ MaxCalls (cfg_Limits cfg) → layer cfg (Z.of_nat i) l = [] → layer_ok cfg i l.
Proof.
  intros Hlim. unfold layer, minPositive. cbv zeta. rewrite !app_nil_iff, !addf_nil, refs_nil.
  intros (H1 & [H2 H2'] & H3 & H4 & H5 & H6 & H7 & H8 & H9). split.
  - apply bool_decide_eq_false in H1. split_and!; [done..|]. intros p Hp. by apply has_key_true, H2.
  - by apply empty_false.
  - destruct (l_Delivery l); by auto.
  - zb. lia.
  - revert H6. case_if; [done|]. intros H6. apply addf_nil in H6. zb. lia.
  - by eapply output_accepted.
  - intros r Hr. apply list_elem_of_lookup in Hr as [k Hr]. rewrite each_nil in H8. by eapply route_accepted, H8.
  - intros m Hm. rewrite Hm in H9. by eapply moderator_accepted.
Qed.

Lemma layerIndex_at i l : Layers cfg !! i = Some l → layerIndex cfg (l_ID l) ≤ Z.of_nat i.
Proof.
  intros Hi. apply Index_le. change (map l_ID (Layers cfg)) with (l_ID <$> Layers cfg).
  by rewrite list_lookup_fmap, Hi.
Qed.

Lemma layer_ids_accepted :
  each (layer_id cfg) (Layers cfg) = [] →
  NoDup (map l_ID (Layers cfg)) ∧ (∀ l, l ∈ Layers cfg → validID (l_ID l) = true) ∧
  ∀ i j p q, (i < j)%nat → Layers cfg !! i = Some p → Layers cfg !! j = Some q → EqualFold (l_ID p) (l_ID q) = false.
Proof.
  intros H. rewrite each_nil in H. unfold layer_id in H. cbv zeta in H.
  assert (Hidx : ∀ i l, Layers cfg !! i = Some l → layerIndex cfg (l_ID l) = Z.of_nat i).
  { intros i l Hi. specialize (H i l Hi). rewrite !app_nil_iff, !addf_nil in H. destruct H as (_ & _ & H).
    apply layerIndex_at in Hi. zb. lia. }
  split_and!.
  - change (map l_ID (Layers cfg)) with (l_ID <$> Layers cfg). apply NoDup_alt. intros i j x Hi Hj.
    apply list_lookup_fmap_Some in Hi as (p & -> & Hi), Hj as (q & Hpq & Hj).
    pose proof (Hidx i p Hi). pose proof (Hidx j q Hj). rewrite <- Hpq in *. lia.
  - intros l [i Hi]%list_elem_of_lookup. specialize (H i l Hi). rewrite !app_nil_iff, !addf_nil in H.
    destruct H as (_ & H & _). by apply negb_false_iff.
  - intros i j p q Hij Hi Hj. specialize (H j q Hj). rewrite !app_nil_iff, concat_map_nil in H.
    destruct H as [H _]. specialize (H p). rewrite Nat2Z.id, addf_nil in H.
    rewrite bool_decide_false in H.
    + apply H. apply list_elem_of_lookup. exists i. by rewrite lookup_take_lt.
    + intros Heq. pose proof (Hidx i p Hi). pose proof (Hidx j q Hj). rewrite Heq in *. lia.
Qed.

Lemma result_from_accepted seen k ids :
  result_from cfg seen k ids = [] →
  NoDup ids ∧ ∀ id, id ∈ ids → id ∉ seen ∧ ∃ l, l ∈ EnabledLayers cfg ∧ l_ID l = id.
Proof.
  revert seen k. induction ids as [|id ids IH]; intros seen k; cbn [result_from].
  { intros _. split; [constructor|by intros id Hid%not_elem_of_nil]. }
  cbv zeta. rewrite !app_nil_iff, addf_nil. intros (H1 & H2 & [Hnd Hrest]%IH).
  revert H1. case_if; [done|]. intros H1. apply addf_nil in H1. zb.
  assert (Hin : id ∈ map l_ID (Layers cfg)).
  { apply dec_stable. rewrite <- Index_neg. unfold layerIndex in *. lia. }
  assert (Hm : (l_ID <$> Layers cfg) !! Z.to_nat (layerIndex cfg id) = Some id) by by apply Index_lookup.
  apply list_lookup_fmap_Some in Hm as (l & Hid & Hl). rewrite Hl in H1. apply negb_false_iff in H1.
  split.
  - apply NoDup_cons. split; [|done]. intros Hid'. destruct (Hrest id Hid') as [Hseen _].
    by apply not_elem_of_cons in Hseen as [].
  - intros x [->|Hx]%elem_of_cons.
    + split; [intros Hs; apply mem_true in Hs; congruence|]. exists l. split; [|done].
      apply elem_of_keep. split; [by eapply list_elem_of_lookup_2|done].
    + destruct (Hrest x Hx) as [Hs Hl']. apply not_elem_of_cons in Hs as [_ Hs]. done.
Qed.

Lemma limits_accepted : limits cfg = [] →
  1 ≤ MaxCalls (cfg_Limits cfg) ∧ 1 ≤ MaxDurationSeconds (cfg_Limits cfg) ∧
  1 ≤ CallTimeoutSeconds (cfg_Limits cfg) ∧ 1 ≤ MaxAttemptsPerTurn (cfg_Limits cfg) ∧
  1 ≤ MaxParallelCalls (cfg_Limits cfg).
Proof.
  unfold limits, minPositive. cbn [map concat fst snd]. rewrite !app_nil_iff, !addf_nil. intros H. zb. lia.
Qed.

Lemma placeholders_accepted doc s :
  placeholders cfg = [] → config_doc cfg = Some doc →
  string_in s (JObject (delete "schemas" doc)) → isPlaceholder s = false.
Proof.
  unfold placeholders. intros H Hdoc Hs. rewrite Hdoc in H. by eapply placeholderWalk_spec; [|exact H|].
Qed.
End accepted.

Lemma accepted_well_formed `{UnicodeData} `{ConfigJSON} cfg : validateStatic cfg = [] → well_formed cfg.
Proof.
  unfold validateStatic. rewrite !app_nil_iff, addf_nil, negb_false_iff.
  intros (Hname & Hbrief & Hsrc & Hpart & Hschemas & Hlimits & Hlayers & Hres & Hph).
  unfold brief in Hbrief. rewrite app_nil_iff, !addf_nil, !empty_false in Hbrief.
  unfold sources in Hsrc. rewrite app_nil_iff, each_key_nil in Hsrc. destruct Hsrc as [Hsc Hss].
  unfold participants in Hpart. cbv zeta in Hpart. rewrite !app_nil_iff, addf_nil, bool_decide_eq_false, each_key_nil in Hpart.
  destruct Hpart as (Hp1 & Hp2 & Hp3 & Hp4 & Hp5).
  unfold schemas in Hschemas. rewrite each_key_nil in Hschemas.
  unfold layers in Hlayers. case_bool_decide; [done|].
  rewrite !app_nil_iff, addf_nil, bool_decide_eq_false in Hlayers. destruct Hlayers as (Hl1 & Hl2 & Hl3).
  apply limits_accepted in Hlimits as Hl. destruct (layer_ids_accepted cfg Hl1) as (Hi1 & Hi2 & Hi3).
  split; try done.
  - split; [|by eapply caseCollisions_ok]. intros id src Hs. by eapply source_accepted, Hss.
  - split_and!; [done|by eapply caseCollisions_ok|]. intros id p Hs. by apply participant_accepted, Hp5.
  - intros a b. by apply participantNames_ok.
  - intros a b k. by apply realAgents_ok.
  - intros id s Hs. specialize (Hschemas id s Hs). rewrite app_nil_iff, !addf_nil, !negb_false_iff in Hschemas. done.
  - intros i l Hil. rewrite each_nil in Hl3. apply layer_accepted; [by apply Hl|by apply Hl3].
  - destruct (result_from_accepted cfg [] 0 _ Hres) as [Hn Hr]. split; [done|]. intros id Hid. by apply Hr.
  - intros doc s. by apply placeholders_accepted.
Qed.

(** C4. A configuration that validation accepts is well formed: every id is
    usable as one and no two differ only in case; a layer's inputs come from
    sources or from earlier layers, which are enabled when the layer is, are
    JSON when the route takes parts of them, and are shared with those who
    receive them; everyone a layer, a route or a moderator names takes part;
    an anonymous route is into a layer of one round without a moderator, and
    nobody it goes to can tell authors apart by another way; the numbers are
    positive, and no agent takes two seats. *)
Theorem validateStatic_sound `{UnicodeData} `{ConfigJSON} cfg (Hok : validateStatic cfg = []) : well_formed cfg.
Proof. by apply accepted_well_formed. Qed.

(** ** Running an accepted configuration *)

(** An error of a run: a file that is not there or not what it should be, or
    nothing for somebody who needs it. *)
Definition run_error (e : RouterError) : Prop :=
  match e with
  | ReadFailed _ | NotNarrowed _ | SelectsNone | ReceivesNothing _ | OnlyItsOwn _ => True
  | _ => False
  end.

Section running.
Context {U : UnicodeData} {CJ : ConfigJSON} {R : GoRand} {J : JSONText}.
Context (cfg : Config) (Hwf : well_formed cfg).

Lemma layer_position i l : Layers cfg !! i = Some l → Index (map l_ID (Layers cfg)) (l_ID l) = Z.of_nat i.
Proof.
  intros Hi. destruct (wf_layer_ids cfg Hwf) as (Hnd & _).
  assert (Hm : map l_ID (Layers cfg) !! i = Some (l_ID l)).
  { change (map l_ID (Layers cfg)) with (l_ID <$> Layers cfg). by rewrite list_lookup_fmap, Hi. }
  pose proof (Index_lookup _ _ (list_elem_of_lookup_2 _ _ _ Hm)) as Hx.
  assert (¬ Index (map l_ID (Layers cfg)) (l_ID l) < 0).
  { rewrite Index_neg. intros Hn. apply Hn. by eapply list_elem_of_lookup_2. }
  pose proof (NoDup_lookup _ _ _ _ Hnd Hx Hm). lia.
Qed.

Lemma layer_found j p : Layers cfg !! j = Some p → Config_Layer cfg (l_ID p) = Some p.
Proof.
  intros Hj. unfold Config_Layer. destruct (find_first _ _) as [q|] eqn:Hf.
  - apply find_first_Some in Hf as (l1 & l2 & Hl & Hq & _). apply bool_decide_eq_true in Hq.
    assert (Hk : Layers cfg !! length l1 = Some q) by (rewrite Hl; by apply list_lookup_middle).
    pose proof (layer_position _ _ Hj) as H1. pose proof (layer_position _ _ Hk) as H2. rewrite Hq in H2.
    assert (j = length l1) as -> by lia. congruence.
  - apply find_first_None in Hf. rewrite Forall_forall in Hf. apply list_elem_of_lookup_2 in Hj.
    specialize (Hf p Hj). by rewrite bool_decide_true in Hf.
Qed.

Context (snap : Snapshot) (parts : option (gmap string ParticipantRecord)) (read : string → option string).
Context (produced : gmap string (list OutputRecord)).
Context (Hsources : ∀ id, is_Some (Sources cfg !! id) → is_Some (sn_Sources snap !! id)).
Context (Hlayers : ∀ l, l ∈ EnabledLayers cfg → l_ID l ∈ sn_Layers snap).

Lemma recipients_nonempty i l r m : layer_ok cfg i l → recipients_of l r m ≠ [].
Proof.
  intros Hl. destruct m; [done|]. simpl. unfold route_recipients. case_bool_decide; [|done].
  apply (la_participants _ _ _ Hl).
Qed.

Lemma checkRoute_accepted i l r m :
  layer_ok cfg i l → route_ok cfg i l r m →
  checkRoute l r (recipients_of l r m) (bool_decide (is_Some m)) = Ok tt.
Proof.
  intros Hl Hr. unfold checkRoute. pose proof (ro_to _ _ _ _ _ Hr) as Hto.
  rewrite (bool_decide_false (recipients_of l r m = [])) by (by eapply recipients_nonempty).
  destruct (find_first _ (To r)) as [pid|] eqn:Hf.
  - apply find_first_Some in Hf as (l1 & l2 & Ht & Hb & _). destruct m as [m|].
    + destruct Hto as [Hto _]. rewrite Hto in Ht. by destruct l1.
    + destruct Hto as [Hto _]. apply negb_true_iff, bool_decide_eq_false in Hb. destruct Hb. apply Hto.
      rewrite Ht. apply elem_of_app. right. left.
  - destruct m as [m|]; simpl; [by rewrite andb_false_r|]. destruct Hto as (_ & _ & Hfull).
    rewrite andb_true_r. case_if; [|done]. apply andb_true_iff in Heqb as [Hv Ht].
    apply bool_decide_eq_true in Hv, Ht. by destruct (Hfull Hv).
Qed.

Lemma required_error r items e : required r items = Err e → items = Err e ∨ e = SelectsNone.
Proof.
  unfold required. destruct items as [its|e']; simpl; [|by intros [= ->]; left].
  case_if; [|done]. intros [= <-]. by right.
Qed.

Lemma output_items_error r index producer outs e :
  (∀ s, rt_View r ≠ OtherView s) →
  output_items_loop cfg parts read r index producer outs = Err e → run_error e.
Proof.
  intros Hv. induction outs as [|o outs IH]; [done|]. cbn [output_items_loop].
  destruct (outputItem _ _ _ _ _ _ _) as [it|e'] eqn:Ho; simpl.
  - destruct (output_items_loop _ _ _ _ _ _ _); [done|]. simpl. intros [= ->]. by apply IH.
  - intros [= ->]. unfold outputItem in Ho. destruct (view_file (rt_View r) o) as [f|] eqn:Hf; simpl in Ho.
    + destruct (read f) as [c|]; [|by injection Ho as <-]. destruct (narrow _ _ _); [done|by injection Ho as <-].
    + destruct (rt_View r) eqn:E; simpl in Hf; try done. by destruct (Hv s).
Qed.

Lemma routeItems_error i l r m index e :
  Layers cfg !! i = Some l → IsEnabled l = true → route_ok cfg i l r m →
  routeItems cfg snap parts read l r index produced = Err e → run_error e.
Proof.
  intros Hi Hen Hr. unfold routeItems. pose proof (ro_producer _ _ _ _ _ Hr) as Hp.
  destruct (ro_values _ _ _ _ _ Hr) as (Hsel & Hview & _).
  destruct (Producer r) as [[[|] id]|]; [| |done].
  - destruct Hp as (src & Hsrc & _ & _ & _ & Hd & _). intros [He| ->]%required_error; [|done].
    unfold sourceItem in He. rewrite bool_decide_false in He by done.
    destruct (Hsources id ltac:(by eexists)) as [rec Hrec]. rewrite Hrec in He.
    destruct (read (sr_File rec)); [|by injection He as <-]. destruct (narrow _ _ _); [done|by injection He as <-].
  - destruct Hp as (j & p & Hj & Hpj & <- & Hlr). rewrite (layer_found j p Hpj).
    assert (Hprec : precedes cfg (l_ID p) (l_ID l) = true).
    { unfold precedes. cbv zeta. rewrite (layer_position _ _ Hpj), (layer_position _ _ Hi).
      rewrite !andb_true_iff, !Z.leb_le, Z.ltb_lt. lia. }
    rewrite Hprec. simpl. case_bool_decide as Hin; simpl.
    + intros [He| ->]%required_error; [|done]. unfold outputItems in He.
      destruct (selected r _) as [outs|e'] eqn:Hs; simpl in He; [by eapply output_items_error|].
      unfold selected in Hs. destruct (rt_Select r) eqn:E; simpl in Hs; try done. by destruct (Hsel s).
    + destruct Hlr as [Hd _]. destruct (Hd Hen) as [Hp| ->]; [|done]. destruct Hin. apply Hlayers.
      apply elem_of_keep. split; [by eapply list_elem_of_lookup_2|done].
Qed.

Lemma distribute_error r items rs rg e rg' :
  (∀ s, rt_Distribute r ≠ OtherDistribute s) → distribute r items rs rg = (Err e, rg') → run_error e.
Proof.
  intros Hd. unfold distribute. destruct (deal_out r items rs rg) as [[d|e'] rg''] eqn:Hdo; simpl.
  - destruct (if Optional r then _ else _); [by intros [= <- _]|done].
  - unfold deal_out in Hdo. destruct (rt_Distribute r) as [| | | |s] eqn:E; try done; [by destruct (Shuffle _ _)|].
    by destruct (Hd s).
Qed.

Lemma without_own_error o rs d e : without_own_loop o rs d = Err e → run_error e.
Proof. revert d. induction rs as [|p rs IH]; intros d; cbn; [done|]. case_if; [by intros [= <-]|apply IH]. Qed.

Lemma resolve_route_error i l r m index rg e rg' :
  Layers cfg !! i = Some l → IsEnabled l = true → route_ok cfg i l r m →
  resolve_route cfg snap parts read l r index (recipients_of l r m) (bool_decide (is_Some m)) produced rg = (Err e, rg') →
  run_error e.
Proof.
  intros Hi Hen Hr. pose proof (wf_layers cfg Hwf i l Hi) as Hl. unfold resolve_route.
  rewrite (checkRoute_accepted i l r m Hl Hr). simpl.
  destruct (routeItems _ _ _ _ _ _ _ _) as [[|x its]|e'] eqn:Hit; [done| |].
  - destruct (distribute _ _ _ _) as [[d|e'] r''] eqn:Hd; simpl.
    + destruct (withoutOwn _ _ _) eqn:Hw; [done|]. intros [= <- _]. unfold withoutOwn in Hw.
      destruct (rt_Anonymous r); simpl in Hw; [by eapply without_own_error|done].
    + intros [= <- _]. eapply distribute_error; [|exact Hd]. apply (ro_values _ _ _ _ _ Hr).
  - intros [= <- _]. by eapply routeItems_error.
Qed.

Lemma resolve_inputs_error i l routes index rg ps missing e :
  Layers cfg !! i = Some l → IsEnabled l = true → (∀ r, r ∈ routes → route_ok cfg i l r None) →
  resolve_inputs cfg snap parts read l produced routes index rg ps missing = Err e → run_error (re_Err e).
Proof.
  intros Hi Hen. revert index rg ps missing.
  induction routes as [|r routes IH]; intros index rg ps missing Hr; cbn [resolve_inputs]; [done|].
  cbv zeta. destruct (resolve_route _ _ _ _ _ _ _ _ _ _ _) as [[[d|]|e'] r1] eqn:He;
    [apply IH; intros; apply Hr; by right..|]. intros [= <-]. simpl.
  eapply (resolve_route_error i l r None); [done..|apply Hr; left|exact He].
Qed.

Lemma resolve_moderator_error i l m routes index rg acc e :
  Layers cfg !! i = Some l → IsEnabled l = true →
  (∀ r, r ∈ routes → route_ok cfg i l r (Some (md_Participant m))) →
  resolve_moderator cfg snap parts read l m produced routes index rg acc = Err e → run_error (re_Err e).
Proof.
  intros Hi Hen. revert index rg acc.
  induction routes as [|r routes IH]; intros index rg acc Hr; cbn [resolve_moderator]; [done|].
  pose proof (Hr r ltac:(left)) as Hr1. destruct (ro_to _ _ _ _ _ Hr1) as [Hto _].
  rewrite bool_decide_true by done. simpl.
  destruct (resolve_route _ _ _ _ _ _ _ _ _ _ _) as [[[d|]|e'] r1] eqn:He;
    [apply IH; intros; apply Hr; by right..|]. intros [= <-]. simpl.
  by eapply (resolve_route_error i l r (Some (md_Participant m))).
Qed.

Lemma Resolve_error i l e :
  Layers cfg !! i = Some l → IsEnabled l = true → Resolve cfg snap parts read l produced = Err e → run_error (re_Err e).
Proof.
  intros Hi Hen. pose proof (wf_layers cfg Hwf i l Hi) as Hl. unfold Resolve.
  destruct (resolve_inputs _ _ _ _ _ _ _ _ _ _ _) as [[[ps missing] r]|e'] eqn:Hin; simpl.
  - destruct (l_Moderator l) as [m|] eqn:Hm; [|done].
    destruct (resolve_moderator _ _ _ _ _ _ _ _ _ _ _) as [its|e'] eqn:Hmo; [done|]. simpl. intros [= <-].
    eapply resolve_moderator_error; [done..| |exact Hmo]. apply (mo_inputs _ _ _ _ (la_moderator _ _ _ Hl m Hm)).
  - intros [= <-]. eapply resolve_inputs_error; [done..| |exact Hin]. apply (la_inputs _ _ _ Hl).
Qed.
End running.

(** C5. A layer of an accepted configuration can be resolved. When the
    snapshot has the configuration's sources and lists its enabled layers, and
    [Resolve] fails on one of these, then a file could not be read or narrowed to
    the route's paths, or a route that is not optional found nothing, left
    somebody with nothing or, an anonymous one, with only their own: never
    because of what a route names or asks for. *)
Theorem Resolve_progress `{UnicodeData} `{ConfigJSON} `{GoRand} `{JSONText} cfg snap parts read produced l e
    (Hok : validateStatic cfg = []) (Hl : l ∈ EnabledLayers cfg)
    (Hsources : ∀ id, is_Some (Sources cfg !! id) → is_Some (sn_Sources snap !! id))
    (Hlayers : ∀ l, l ∈ EnabledLayers cfg → l_ID l ∈ sn_Layers snap)
    (He : Resolve cfg snap parts read l produced = Err e) :
  run_error (re_Err e).
Proof.
  apply elem_of_keep in Hl as [Hl Hen]. apply list_elem_of_lookup in Hl as [i Hi].
  eapply Resolve_error; [by apply accepted_well_formed|exact Hsources|exact Hlayers|exact Hi|done|exact He].
Qed.

(** ** Anonymity *)

(** What somebody gets when a layer is resolved, as a participant or as the
    moderator. *)
Definition receives (l : Layer) (li : LayerInputs) (pid : string) (it : InputItem) : Prop :=
  (∃ its, li_Participants li !! pid = Some its ∧ it ∈ its) ∨
  (∃ m, l_Moderator l = Some m ∧ md_Participant m = pid ∧ it ∈ li_Moderator li).

(** Outputs are kept under their layer's id. *)
Definition by_layer (produced : gmap string (list OutputRecord)) : Prop :=
  ∀ id o, o ∈ default [] (produced !! id) → or_LayerID o = id.

Section anonymity.
Context {U : UnicodeData} {CJ : ConfigJSON} {R : GoRand} {J : JSONText}.
Context (cfg : Config).

(** The route of an output that is received. *)
Lemma receives_route snap parts read l produced li pid it :
  by_layer produced → Resolve cfg snap parts read l produced = Ok li → receives l li pid it → Kind it = InputOutput →
  ∃ r m, Producer r = Ok (RouteFromLayer, it_LayerID it) ∧ it_Anonymous it = rt_Anonymous r ∧
    pid ∈ recipients_of l r m ∧
    match m with None => r ∈ l_Inputs l | Some p => ∃ md, l_Moderator l = Some md ∧ md_Participant md = p ∧ r ∈ md_Inputs md end.
Proof.
  intros Hby Hres Hrec Hkind. destruct (Resolve_routed _ _ _ _ _ _ _ Hres) as [Hp Hm].
  assert (Hfrom : ∀ routes to md, routed_to cfg snap read l produced routes to md pid it →
    ∃ r, r ∈ routes ∧ pid ∈ to r ∧ Producer r = Ok (RouteFromLayer, it_LayerID it) ∧ it_Anonymous it = rt_Anonymous r).
  { intros routes to md (r & _ & Hr & Hto & _ & _ & _ & Hc). exists r. unfold comes_from in Hc.
    destruct (Producer r) as [[[|] id]|]; [| |done].
    - destruct Hc as (rec & c & _ & _ & _ & Hk & _). congruence.
    - destruct Hc as (p & o & c & _ & _ & _ & Ho & _ & _ & _ & _ & _ & Hid & _ & Ha & _).
      split_and!; [by eapply list_elem_of_lookup_2|done| |done]. by rewrite Hid, (Hby id o Ho). }
  destruct Hrec as [(its & Hits & Hit)|(md & Hmd & <- & Hit)].
  - destruct (Hfrom _ _ _ (Hp _ _ _ Hits Hit)) as (r & Hr & Hto & Hprod & Ha). by exists r, None.
  - destruct (Hm it Hit) as (md' & Hmd' & Hrt). simplify_eq.
    destruct (Hfrom _ _ _ Hrt) as (r & Hr & Hto & Hprod & Ha). exists r, (Some (md_Participant md)).
    split_and!; [done..|by exists md].
Qed.
End anonymity.

(** C3. Anonymity is not lost by another way. Under an accepted configuration,
    somebody who gets an output of a layer anonymously, resolving one layer, gets
    every output of that layer anonymously: resolving that or any other layer of
    the configuration, in this run or in another, as a participant or as the
    moderator. *)
Theorem anonymity_preserved `{UnicodeData} `{ConfigJSON} `{GoRand} `{JSONText} cfg
    snap parts read l produced li snap' parts' read' l' produced' li' pid it it'
    (Hok : validateStatic cfg = []) (Hl : l ∈ Layers cfg) (Hl' : l' ∈ Layers cfg)
    (Hby : by_layer produced) (Hby' : by_layer produced')
    (Hres : Resolve cfg snap parts read l produced = Ok li) (Hres' : Resolve cfg snap' parts' read' l' produced' = Ok li')
    (Hit : receives l li pid it) (Hit' : receives l' li' pid it')
    (Hkind : Kind it = InputOutput) (Hkind' : Kind it' = InputOutput) (Hsame : it_LayerID it' = it_LayerID it)
    (Hanon : it_Anonymous it = true) :
  it_Anonymous it' = true.
Proof.
  apply accepted_well_formed in Hok as Hwf.
  destruct (receives_route cfg _ _ _ _ _ _ _ _ Hby Hres Hit Hkind) as (r & m & Hprod & Ha & Hto & Hr).
  destruct (receives_route cfg _ _ _ _ _ _ _ _ Hby' Hres' Hit' Hkind') as (r' & m' & Hprod' & Ha' & Hto' & Hr').
  apply not_false_iff_true. intros Hnamed. rewrite Hsame in Hprod'. rewrite Ha in Hanon. rewrite Ha' in Hnamed.
  apply list_elem_of_lookup in Hl as [i Hi]. pose proof (wf_layers cfg Hwf i l Hi) as Hlok.
  assert (Hrok : route_ok cfg i l r m).
  { destruct m as [p|]; [|by apply (la_inputs _ _ _ Hlok)]. destruct Hr as (md & Hmd & <- & Hr).
    by apply (mo_inputs _ _ _ _ (la_moderator _ _ _ Hlok md Hmd)). }
  pose proof (ro_producer _ _ _ _ _ Hrok) as Hp. rewrite Hprod in Hp.
  destruct Hp as (j & p & _ & _ & Hid & _ & _ & _ & _ & Hanok & _).
  apply (an_no_name _ _ _ _ _ (Hanok Hanon) pid Hto). exists l', r'. rewrite Hid. split_and!; [done..|].
  destruct m' as [q|]; [right|by left]. destruct Hr' as (md & Hmd & <- & Hr').
  apply list_elem_of_singleton in Hto'. by exists md.
Qed.

(** ** An accepted configuration *)

#[local] Instance plain_json : ConfigJSON :=
  {| json_string _ := true; isJSONObject _ := true; config_doc c := Some {[ "name" := JString (cfg_Name c) ]} |}.
#[local] Existing Instance ascii_only.
#[local] Existing Instance zero_rand.
#[local] Existing Instance no_json.

Definition a_fresh (name : string) : Participant :=
  {| pt_Agent := ""; pt_Clone := ""; pt_Model := "m"; SystemPrompt := ""; pt_Mode := FreshModeMemory; pt_Instructions := "";
     pt_Name := name; CharacterCard := "" |}.

(** Drafts by Alice and Bob, each judged by Carol without a name. *)
Definition judged : Config :=
  {| Version := 1; cfg_Name := "Judged drafts"; cfg_Brief := cfg_Brief a_config;
     Sources := {[ "notes" := {| src_Decode := FormatText; Inline := None; src_File := "notes.txt" |} ]};
     cfg_Participants := {[ "alice" := a_fresh "Alice"; "bob" := a_fresh "Bob"; "carol" := a_fresh "" ]};
     Schemas := ∅;
     Layers := [draft; a_layer "review" ["carol"] [a_route "source:notes" NoDistribute false false;
                                                   a_route "layer:draft" NoDistribute true false]];
     cfg_Limits := cfg_Limits a_config; cfg_Seed := None; ResultLayers := ["review"] |}.

Definition judging : Layer := nth 1 (Layers judged) draft.

Example judged_accepted : validateStatic judged = [].
Proof. vm_compute. reflexivity. Qed.

Lemma validateStatic_sound_witness : validateStatic judged = [] ∧ well_formed judged.
Proof.
  assert (H : validateStatic judged = []) by (vm_compute; reflexivity). split; [exact H|].
  exact (validateStatic_sound judged H).
Defined.

Definition unread : RouteError := routeError false 0 (ReadFailed "notes").

Lemma Resolve_progress_witness :
  Resolve judged a_snapshot None (λ _, None) judging produced = Err unread ∧ run_error (re_Err unread).
Proof.
  assert (H : Resolve judged a_snapshot None (λ _, None) judging produced = Err unread) by (vm_compute; reflexivity).
  split; [exact H|].
  apply (Resolve_progress judged a_snapshot None (λ _, None) produced judging unread).
  - vm_compute. reflexivity.
  - vm_compute. right. left.
  - intros id [src Hid]. cbn [judged Sources] in Hid. apply lookup_singleton_Some in Hid as [<- _].
    vm_compute. by eexists.
  - intros l Hl. apply elem_of_keep in Hl as [Hl _]. cbn [judged Layers] in Hl.
    apply elem_of_cons in Hl as [->|Hl]; [left|]. apply list_elem_of_singleton in Hl as ->. right. left.
  - exact H.
Defined.

Definition judged_li : LayerInputs := Eval vm_compute in
  match Resolve judged a_snapshot None (λ f, Some f) judging produced with
  | Ok li => li
  | Err _ => {| li_LayerID := ""; li_Participants := ∅; li_Moderator := []; li_Missing := [] |}
  end.

(** What Carol gets of the draft of [pid]. *)
Definition judged_item (pid name : string) : InputItem :=
  {| it_Route := 1; Kind := InputOutput; SourceID := ""; it_OutputID := turnID 1 pid; it_LayerID := "draft";
     it_Round := 1; Author := pid; AuthorName := name;
     it_Label := responseLabel (Index ["alice"; "bob"] pid); it_Anonymous := true; it_Format := FormatText;
     Content := "published-" +:+ pid |}.

Lemma anonymity_preserved_witness :
  receives judging judged_li "carol" (judged_item "alice" "Alice") ∧
  it_Anonymous (judged_item "bob" "Bob") = true.
Proof.
  assert (Hres : Resolve judged a_snapshot None (λ f, Some f) judging produced = Ok judged_li)
    by (vm_compute; reflexivity).
  assert (Hby : by_layer produced).
  { intros id o. unfold produced. destruct (decide (id = "draft")) as [->|Hne].
    - rewrite lookup_singleton_eq. simpl. intros [->|Ho]%elem_of_cons; [reflexivity|].
      by apply list_elem_of_singleton in Ho as ->.
    - rewrite lookup_singleton_ne by congruence. intros Ho. by apply not_elem_of_nil in Ho. }
  assert (Hl : judging ∈ Layers judged) by (right; left).
  assert (Ha : receives judging judged_li "carol" (judged_item "alice" "Alice")).
  { left. eexists. split; [vm_compute; reflexivity|]. right. left. }
  assert (Hb : receives judging judged_li "carol" (judged_item "bob" "Bob")).
  { left. eexists. split; [vm_compute; reflexivity|]. right. right. left. }
  split; [exact Ha|].
  eapply (anonymity_preserved judged); [|exact Hl|exact Hl|exact Hby|exact Hby|exact Hres|exact Hres|exact Ha|exact Hb|..];
    vm_compute; reflexivity.
Defined.
