(* ===== verification/ForumTurns.v ===== *)
(** * What a participant is sent, and how often

    forum/turn.go and forum/moderator.go: the events of a layer a message
    carries, the private messages of a moderator, and the attempts of one work
    item (a participant's turn or a moderator's check). The words of a message
    are not modelled: a work item has the functions that build them. *)

From stdpp Require Import base gmap strings list sets sorting.
From Stdlib Require Import ZArith Lia Ascii.
From S2P Require Import Prelude GoString ForumConfig ForumLog ForumStore ForumController JsonPointer ForumRouter.

Open Scope Z_scope.

(** ** Events *)

Record forumEvent := {
  ev_seq : Z;
  ev_round : Z;
  ev_output : option OutputRecord;
  ev_decision : option Decision
}.

Definition output_event (seq round : Z) (o : OutputRecord) : forumEvent :=
  {| ev_seq := seq; ev_round := round; ev_output := Some o; ev_decision := None |}.

Definition decision_event (seq round : Z) (d : Decision) : forumEvent :=
  {| ev_seq := seq; ev_round := round; ev_output := None; ev_decision := Some d |}.

(** The outputs of rounds not yet published, by round. *)
Definition pending_round (pending : gmap Z (list OutputRecord)) (r : Z) : list OutputRecord :=
  default [] (pending !! r).

(** The events one commit makes visible, and the outputs then still pending. A
    turn commit without an output cannot be in a log ([checkTurnCommit]). *)
Definition commit_events (l : Layer) (c : Commit) (pending : gmap Z (list OutputRecord))
    : list forumEvent * gmap Z (list OutputRecord) :=
  match c_Kind c with
  | CommitTurn =>
      match c_Output c with
      | None => ([], pending)
      | Some o =>
          if bool_decide (l_Delivery l = DeliveryPerTurn) then ([output_event (c_Seq c) (c_Round c) o], pending)
          else ([], <[or_Round o := pending_round pending (or_Round o) ++ [o]]> pending)
      end
  | CommitRoundPublished =>
      (map (output_event (c_Seq c) (c_Round c)) (orderOutputs l (pending_round pending (c_Round c))),
       delete (c_Round c) pending)
  | CommitModerated =>
      (match c_Decision c with
       | Some d => if bool_decide (d_Decision d = DecisionGuide) then [decision_event (c_Seq c) (c_Round c) d] else []
       | None => []
       end, pending)
  | _ => ([], pending)
  end.

(** The loop of [layerEvents] over the commits. *)
Fixpoint visible_from (l : Layer) (after through : Z) (log : list Commit) (pending : gmap Z (list OutputRecord))
    : list forumEvent :=
  match log with
  | [] => []
  | c :: rest =>
      if through <? c_Seq c then []
      else if negb (bool_decide (c_Layer c = l_ID l)) then visible_from l after through rest pending
      else
        let '(evs, pending') := commit_events l c pending in
        (if after <? c_Seq c then evs else []) ++ visible_from l after through rest pending'
  end.

Definition visible_events (l : Layer) (after through : Z) (log : list Commit) : list forumEvent :=
  visible_from l after through log ∅.

(** [layerEvents] with the content of each output; [None] is a file that cannot
    be read. *)
Definition event_content (read : string → option string) (full : bool) (e : forumEvent) : option string :=
  match ev_output e with
  | None => Some ""
  | Some o => read (if full then ContentFile o else PublishedFile o)
  end.

Definition layerEvents (read : string → option string) (l : Layer) (after through : Z) (full : bool)
    (log : list Commit) : option (list (forumEvent * string)) :=
  mapM (λ e, (e,.) <$> event_content read full e) (visible_events l after through log).

(** [withoutAuthor] *)
Definition by_other (id : string) (e : forumEvent) : bool :=
  match ev_output e with
  | Some o => negb (bool_decide (ParticipantID o = id))
  | None => true
  end.

Definition withoutAuthor (evs : list forumEvent) (id : string) : list forumEvent := keep (by_other id) evs.

(** [pendingDirected] *)
Definition directed_to (id : string) (c : Commit) : list string :=
  match c_Kind c, c_Decision c with
  | CommitModerated, Some d => omap (λ m, if bool_decide (dm_To m = id) then Some (dm_Text m) else None) (Directed d)
  | _, _ => []
  end.

Definition pendingDirected (id : string) (after through : Z) (log : list Commit) : list string :=
  concat (map (λ c, if (c_Seq c <=? after) || (through <? c_Seq c) then [] else directed_to id c) log).

(** [contact] *)
Definition is_contact (id : string) (c : Commit) : bool :=
  bool_decide (c_Kind c = CommitAttempt) && bool_decide (c_Participant c = id).

Definition briefed (id : string) (log : list Commit) : bool := existsb (is_contact id) log.

Definition introduced (id layer : string) (log : list Commit) : bool :=
  existsb (λ c, is_contact id c && bool_decide (c_Layer c = layer)) log.

Definition told_through (id : string) (log : list Commit) : Z :=
  foldl (λ t c, if is_contact id c then Z.max t (c_ThroughSeq c) else t) 0 log.

Definition contact (id layer : string) (log : list Commit) : bool * bool * Z :=
  (briefed id log, introduced id layer log, told_through id log).

(** What [composeTurnMessage] puts in a turn's message of the conversation: the
    layer's events and the private messages. A single_shot participant remembers
    nothing and is sent all of them every time. *)
Definition turn_events (l : Layer) (id : string) (mode : FreshMode) (cutoff : Z) (log : list Commit)
    : list forumEvent :=
  if bool_decide (mode = FreshModeSingleShot) then visible_events l 0 cutoff log
  else withoutAuthor (visible_events l (told_through id log) cutoff log) id.

Definition turn_directed (id : string) (cutoff : Z) (log : list Commit) : list string :=
  pendingDirected id (told_through id log) cutoff log.

(** ** Windows of events *)

(** Sequence numbers grow along a log. *)
Definition numbered (log : list Commit) : Prop := StronglySorted (λ c d, c_Seq c < c_Seq d) log.

Lemma numbered_cons c log : numbered (c :: log) → numbered log ∧ ∀ d, d ∈ log → c_Seq c < c_Seq d.
Proof. intros [H Hc]%StronglySorted_inv. rewrite Forall_forall in Hc. auto. Qed.

Lemma numbered_snoc log c : numbered (log ++ [c]) → numbered log ∧ ∀ d, d ∈ log → c_Seq d < c_Seq c.
Proof. intros (H & H1 & _)%StronglySorted_app. split; [done|]. intros d Hd. apply H; [done|]. by left. Qed.

(** Only the commits after the start matter for what is visible when none is
    before it. *)
Lemma visible_from_after l a a' t log p :
  (∀ c, c ∈ log → a < c_Seq c ∧ a' < c_Seq c) → visible_from l a t log p = visible_from l a' t log p.
Proof.
  revert p. induction log as [|c log IH]; intros p Hlog; simpl; [done|].
  destruct (Hlog c ltac:(left)) as [H1 H2]. rewrite !(IH _ (λ d Hd, Hlog d (list_elem_of_further _ _ _ Hd))).
  apply Z.ltb_lt in H1, H2. rewrite H1, H2. repeat case_if; try done. destruct (commit_events l c p).
  f_equal. apply IH. intros d Hd. apply Hlog. by right.
Qed.

(** A window splits at any point. *)
Lemma visible_from_split l a b c log p :
  numbered log → a ≤ b → b ≤ c →
  visible_from l a c log p = visible_from l a b log p ++ visible_from l b c log p.
Proof.
  intros Hn Hab Hbc. revert p Hn. induction log as [|x log IH]; intros p Hn; [done|].
  apply numbered_cons in Hn as Hn'. destruct Hn' as [Hn' Hx].
  destruct (decide (b < c_Seq x)) as [Hb|Hb].
  - rewrite (visible_from_after l a b c (x :: log) p).
    2: { intros d [->|Hd%Hx]%elem_of_cons; lia. }
    replace (visible_from l a b (x :: log) p) with (@nil forumEvent); [done|].
    simpl. rewrite (proj2 (Z.ltb_lt _ _) Hb). done.
  - simpl. rewrite (proj2 (Z.ltb_ge b _)), (proj2 (Z.ltb_ge c _)) by lia. case_if; [by apply IH|].
    destruct (commit_events l x p) as [evs p']. by rewrite (IH p' Hn'), app_assoc.
Qed.

Lemma visible_empty l a c log : c ≤ a → visible_events l a c log = [].
Proof.
  intros Hca. unfold visible_events. generalize (∅ : gmap Z (list OutputRecord)).
  induction log as [|x log IH]; intros p; simpl; [done|]. case_if; zb; [done|]. case_if; [done|].
  destruct (commit_events l x p). rewrite (proj2 (Z.ltb_ge a _)) by lia. apply IH.
Qed.

(** Commits after a window's end do not matter. *)
Lemma visible_from_prefix l a c log log' p :
  (∀ d, d ∈ log' → c < c_Seq d) → visible_from l a c (log ++ log') p = visible_from l a c log p.
Proof.
  intros Hd. revert p. induction log as [|x log IH]; intros p; simpl.
  - destruct log' as [|y log']; [done|]. simpl. specialize (Hd y ltac:(left)). by rewrite (proj2 (Z.ltb_lt _ _) Hd).
  - case_if; [done|]. case_if; [apply IH|]. destruct (commit_events l x p). by rewrite IH.
Qed.

Lemma visible_split l a b c log :
  numbered log → a ≤ b → b ≤ c → visible_events l a c log = visible_events l a b log ++ visible_events l b c log.
Proof. apply visible_from_split. Qed.

Lemma visible_prefix l a c log log' :
  (∀ d, d ∈ log' → c < c_Seq d) → visible_events l a c (log ++ log') = visible_events l a c log.
Proof. apply visible_from_prefix. Qed.

Lemma directed_app id a c log log' :
  pendingDirected id a c (log ++ log') = pendingDirected id a c log ++ pendingDirected id a c log'.
Proof. unfold pendingDirected. by rewrite map_app, concat_app. Qed.

Lemma directed_split id a b c log :
  numbered log → a ≤ b → b ≤ c →
  pendingDirected id a c log = pendingDirected id a b log ++ pendingDirected id b c log.
Proof.
  intros Hn Hab Hbc. induction log as [|x log IH]; [done|]. apply numbered_cons in Hn as [Hn Hx].
  specialize (IH Hn). unfold pendingDirected in *. simpl. rewrite IH.
  destruct (decide (b < c_Seq x)) as [Hb|Hb].
  - rewrite !(proj2 (Z.leb_gt _ _)) by lia. rewrite (proj2 (Z.ltb_lt b _)) by lia. simpl.
    replace (concat (map (λ d, if (c_Seq d <=? a) || (b <? c_Seq d) then [] else directed_to id d) log))
      with (@nil string); [done|].
    clear IH Hn. induction log as [|y log IH]; [done|]. simpl.
    rewrite (proj2 (Z.ltb_lt b _)), orb_true_r by (specialize (Hx y ltac:(left)); lia).
    apply IH. intros d Hd. apply Hx. by right.
  - rewrite (proj2 (Z.ltb_ge b _)), (proj2 (Z.leb_le (c_Seq x) b)) by lia. simpl.
    rewrite (proj2 (Z.ltb_ge c _)), !orb_false_r by lia. by rewrite app_assoc.
Qed.

Lemma directed_empty id a c log : c ≤ a → pendingDirected id a c log = [].
Proof.
  intros Hca. unfold pendingDirected. induction log as [|x log IH]; simpl; [done|]. rewrite IH, app_nil_r.
  case_if; [done|]. zb. lia.
Qed.

Lemma directed_prefix id a c log log' :
  (∀ d, d ∈ log' → c < c_Seq d) → pendingDirected id a c (log ++ log') = pendingDirected id a c log.
Proof.
  intros Hd. rewrite directed_app. rewrite <- (app_nil_r (pendingDirected id a c log)) at 2. f_equal.
  unfold pendingDirected. induction log' as [|x log' IH]; [done|]. simpl.
  rewrite (proj2 (Z.ltb_lt c _)), orb_true_r by (apply Hd; left). apply IH. intros d H. apply Hd. by right.
Qed.

Lemma withoutAuthor_app a b id : withoutAuthor (a ++ b) id = withoutAuthor a id ++ withoutAuthor b id.
Proof. apply keep_app. Qed.

Lemma told_through_snoc id log c :
  told_through id (log ++ [c]) =
  if is_contact id c then Z.max (told_through id log) (c_ThroughSeq c) else told_through id log.
Proof. unfold told_through. by rewrite foldl_snoc. Qed.

(** ** Each event once *)

(** A reservation of a turn of this layer, and of any turn: a moderator's check
    carries neither guidance nor private messages. *)
Definition is_turn (c : Commit) : bool := bool_decide (c_TurnKind c = TurnParticipant).

(** What the turn messages to [id] carried of a layer's events and of private
    messages, one for each attempt of a log appended to [pre]: each message was
    composed from the log before its own reservation. *)
Fixpoint told (l : Layer) (id : string) (pre log : list Commit) : list forumEvent * list string :=
  match log with
  | [] => ([], [])
  | c :: rest =>
      let '(evs, ds) := told l id (pre ++ [c]) rest in
      if is_contact id c && is_turn c then
        ((if bool_decide (c_Layer c = l_ID l) then turn_events l id NoFreshMode (c_ThroughSeq c) pre else []) ++ evs,
         turn_directed id (c_ThroughSeq c) pre ++ ds)
      else (evs, ds)
  end.

(** The messages to [id] are turns of this layer. *)
Definition takes_turns (l : Layer) (id : string) (log : list Commit) : Prop :=
  ∀ c, c ∈ log → is_contact id c = true → is_turn c = true ∧ c_Layer c = l_ID l.

(** The reservations of [id]: each is for the events before itself, and no
    earlier than the last. *)
Definition cutoffs_grow (id : string) (pre log : list Commit) : Prop :=
  ∀ i c, log !! i = Some c → is_contact id c = true →
    told_through id (pre ++ take i log) ≤ c_ThroughSeq c < c_Seq c.

Lemma cutoffs_grow_cons id pre c log :
  cutoffs_grow id pre (c :: log) →
  (is_contact id c = true → told_through id pre ≤ c_ThroughSeq c < c_Seq c) ∧ cutoffs_grow id (pre ++ [c]) log.
Proof.
  intros H. split.
  - intros Hc. specialize (H 0%nat c eq_refl Hc). by rewrite app_nil_r in H.
  - intros i d Hi Hd. rewrite <- app_assoc. apply (H (S i) d Hi Hd).
Qed.

Lemma told_windows l id pre log :
  numbered (pre ++ log) → cutoffs_grow id pre log → takes_turns l id log →
  told_through id pre ≤ told_through id (pre ++ log) ∧
  told l id pre log =
    (withoutAuthor (visible_events l (told_through id pre) (told_through id (pre ++ log)) (pre ++ log)) id,
     pendingDirected id (told_through id pre) (told_through id (pre ++ log)) (pre ++ log)).
Proof.
  revert pre. induction log as [|c log IH]; intros pre Hn Hc Ht.
  { rewrite app_nil_r. split; [done|]. by rewrite visible_empty, directed_empty. }
  apply cutoffs_grow_cons in Hc as [Hc Hrest]. rewrite (cons_middle c pre log), app_assoc in *.
  destruct (IH _ Hn Hrest) as [Hle Htold]; [intros d Hd; apply Ht; by right|].
  rewrite told_through_snoc in Hle, Htold. specialize (Ht c ltac:(left)).
  cbn [told]. rewrite Htold. destruct (is_contact id c); [|done].
  destruct (Hc eq_refl) as [H1 H2], (Ht eq_refl) as [-> Hl]. rewrite bool_decide_true by done. cbn [andb].
  rewrite Z.max_r in Hle |- * by lia. split; [lia|].
  assert (Hpre : ∀ d, d ∈ c :: log → c_ThroughSeq c < c_Seq d).
  { rewrite <- app_assoc in Hn. apply StronglySorted_app in Hn as (_ & _ & Hn).
    apply numbered_cons in Hn as [_ Hlt]. intros d [->|Hd%Hlt]%elem_of_cons; lia. }
  unfold turn_events, turn_directed. rewrite bool_decide_false by done.
  rewrite <- (visible_prefix _ _ _ pre (c :: log) Hpre), <- (directed_prefix _ _ _ pre (c :: log) Hpre).
  rewrite (cons_middle c pre log), app_assoc. rewrite <- withoutAuthor_app, <- visible_split, <- directed_split by (done || lia).
  done.
Qed.

(** ** Unpublished rounds *)

Lemma pending_round_insert p r x r' :
  pending_round (<[r := x]> p) r' = if bool_decide (r = r') then x else pending_round p r'.
Proof.
  unfold pending_round. case_bool_decide; [subst; by rewrite lookup_insert_eq|by rewrite lookup_insert_ne].
Qed.

Lemma pending_round_delete p r r' :
  pending_round (delete r p) r' = if bool_decide (r = r') then [] else pending_round p r'.
Proof.
  unfold pending_round. case_bool_decide; [subst; by rewrite lookup_delete_eq|by rewrite lookup_delete_ne].
Qed.

(** A commit of this kind, layer and round. *)
Definition publishes_round (l : Layer) (r : Z) (c : Commit) : Prop :=
  c_Kind c = CommitRoundPublished ∧ c_Layer c = l_ID l ∧ c_Round c = r.

Definition commits_output (l : Layer) (o : OutputRecord) (c : Commit) : Prop :=
  c_Kind c = CommitTurn ∧ c_Layer c = l_ID l ∧ c_Output c = Some o.

Lemma commit_events_output l c p evs p' e o :
  l_Delivery l ≠ DeliveryPerTurn → commit_events l c p = (evs, p') → e ∈ evs → ev_output e = Some o →
  c_Kind c = CommitRoundPublished ∧ ev_seq e = c_Seq c ∧ ev_round e = c_Round c ∧ o ∈ pending_round p (c_Round c).
Proof.
  intros Hd. unfold commit_events. destruct (c_Kind c); intros [= <- <-] || idtac; try set_solver.
  - destruct (c_Output c); [rewrite bool_decide_false by done|]; intros [= <- <-]; set_solver.
  - intros (o' & -> & Ho')%list_elem_of_fmap [= <-]. rewrite orderOutputs_perm in Ho'. done.
  - destruct (c_Decision c); [|set_solver]. case_bool_decide; [|set_solver].
    intros ->%list_elem_of_singleton. done.
Qed.

Lemma commit_events_pending l c p evs p' o r :
  commit_events l c p = (evs, p') → o ∈ pending_round p' r →
  o ∈ pending_round p r ∨ (r = or_Round o ∧ c_Kind c = CommitTurn ∧ c_Output c = Some o).
Proof.
  unfold commit_events. destruct (c_Kind c); try (intros [= <- <-]; by left).
  - destruct (c_Output c) as [o'|]; [|intros [= <- <-]; by left]. case_bool_decide; intros [= <- <-]; [by left|].
    rewrite pending_round_insert. case_bool_decide as Hr; [|by left].
    rewrite elem_of_app, list_elem_of_singleton. subst r. intros [?| ->]; [by left|by right].
  - intros [= <- <-]. rewrite pending_round_delete. case_bool_decide; [set_solver|by left].
Qed.

(** A log in which an output is committed and its round published later, within
    the window's end. *)
Definition published_by (l : Layer) (o : OutputRecord) (t : Z) (log : list Commit) : Prop :=
  ∃ pre c mid pub post, log = pre ++ c :: mid ++ pub :: post ∧ commits_output l o c ∧
    publishes_round l (or_Round o) pub ∧ c_Seq pub ≤ t.

Lemma published_by_cons l o t c log : published_by l o t log → published_by l o t (c :: log).
Proof. intros (pre & c' & mid & pub & post & -> & H). by exists (c :: pre), c', mid, pub, post. Qed.

Lemma visible_from_output l a t log p e o :
  l_Delivery l ≠ DeliveryPerTurn → e ∈ visible_from l a t log p → ev_output e = Some o →
  (∃ mid pub post, log = mid ++ pub :: post ∧ publishes_round l (ev_round e) pub ∧ c_Seq pub = ev_seq e ∧
     a < ev_seq e ≤ t ∧ o ∈ pending_round p (ev_round e)) ∨
  (published_by l o t log ∧ or_Round o = ev_round e ∧ a < ev_seq e ≤ t).
Proof.
  intros Hd. revert p. induction log as [|c log IH]; intros p; simpl; [set_solver|].
  case_if; [set_solver|]. zb. destruct (bool_decide (c_Layer c = l_ID l)) eqn:Hlay; simpl.
  2: { intros He Ho. destruct (IH p He Ho) as [(mid & pub & post & -> & H)|[H1 H2]].
       - left. by exists (c :: mid), pub, post.
       - right. split; [by apply published_by_cons|done]. }
  destruct (commit_events l c p) as [evs p'] eqn:Hc. apply bool_decide_eq_true in Hlay.
  rewrite elem_of_app. intros [He|He] Ho.
  - destruct (a <? c_Seq c) eqn:Ha; zb; [|set_solver].
    destruct (commit_events_output _ _ _ _ _ _ _ Hd Hc He Ho) as (H1 & H2 & H3 & H4).
    left. exists [], c, log. rewrite H2, H3. split_and!; (done || lia).
  - destruct (IH p' He Ho) as [(mid & pub & post & -> & H1 & H2 & H3 & H4)|[H1 H2]].
    2: { right. split; [by apply published_by_cons|done]. }
    destruct (commit_events_pending _ _ _ _ _ _ _ Hc H4) as [H5|(Hr & Hk & Hco)].
    + left. by exists (c :: mid), pub, post.
    + right. split_and!; [|done|lia..]. rewrite Hr in H1.
      exists [], c, mid, pub, post. split_and!; (done || lia).
Qed.

Lemma commit_events_keeps l c p evs p' o :
  commit_events l c p = (evs, p') → o ∈ pending_round p (or_Round o) →
  o ∈ pending_round p' (or_Round o) ∨ (c_Kind c = CommitRoundPublished ∧ ∃ e, e ∈ evs ∧ ev_output e = Some o).
Proof.
  unfold commit_events. intros H Ho. destruct (c_Kind c); try (injection H as <- <-; by left).
  - destruct (c_Output c) as [o'|]; [|injection H as <- <-; by left]. case_bool_decide; injection H as <- <-; [by left|].
    left. rewrite pending_round_insert. case_bool_decide as Hr; [|done]. rewrite Hr. set_solver.
  - injection H as <- <-. destruct (decide (c_Round c = or_Round o)) as [Hr|Hr].
    + right. split; [done|]. exists (output_event (c_Seq c) (c_Round c) o). split; [|done].
      apply list_elem_of_fmap_2. by rewrite orderOutputs_perm, Hr.
    + left. rewrite pending_round_delete. by rewrite bool_decide_false.
Qed.

Lemma visible_from_pending l a t log p o pub :
  numbered log → (∀ d, d ∈ log → a < c_Seq d) → o ∈ pending_round p (or_Round o) →
  pub ∈ log → publishes_round l (or_Round o) pub → c_Seq pub ≤ t →
  ∃ e, e ∈ visible_from l a t log p ∧ ev_output e = Some o.
Proof.
  intros Hn Ha Ho Hp (Hk & Hl & Hr) Ht. revert p Hn Ha Ho Hp.
  induction log as [|c log IH]; intros p Hn Ha Ho Hp; [set_solver|].
  apply numbered_cons in Hn as [Hn Hlt]. pose proof (Ha c ltac:(left)) as Hac.
  assert (Hct : c_Seq c ≤ t) by (apply elem_of_cons in Hp as [->|Hp%Hlt]; lia).
  assert (Ha' : ∀ d, d ∈ log → a < c_Seq d) by (intros d Hd; apply Ha; by right).
  simpl. rewrite (proj2 (Z.ltb_ge t _)), (proj2 (Z.ltb_lt a _)) by lia.
  destruct (bool_decide (c_Layer c = l_ID l)) eqn:Hlay; simpl.
  2: { apply bool_decide_eq_false in Hlay. apply IH; try done. apply elem_of_cons in Hp as [->|]; done. }
  destruct (commit_events l c p) as [evs p'] eqn:Hc.
  destruct (commit_events_keeps _ _ _ _ _ _ Hc Ho) as [Ho'|(_ & e & He & Heo)].
  2: { exists e. split; [by apply elem_of_app; left|done]. }
  apply elem_of_cons in Hp as [->|Hp].
  - unfold commit_events in Hc. rewrite Hk in Hc. injection Hc as <- <-.
    rewrite pending_round_delete, bool_decide_true in Ho' by done. set_solver.
  - destruct (IH p' Hn Ha' Ho' Hp) as (e & He & Heo). exists e. split; [by apply elem_of_app; right|done].
Qed.

Lemma visible_from_delivers l a t log p o :
  l_Delivery l ≠ DeliveryPerTurn → numbered log → (∀ d, d ∈ log → a < c_Seq d) → published_by l o t log →
  ∃ e, e ∈ visible_from l a t log p ∧ ev_output e = Some o.
Proof.
  intros Hd Hn Ha (pre & c & mid & pub & post & -> & (Hk & Hl & Hc) & Hpub & Ht). revert p Hn Ha.
  induction pre as [|x pre IH]; intros p Hn Ha; apply numbered_cons in Hn as [Hn Hlt].
  - simpl. assert (c_Seq c < c_Seq pub) by (apply Hlt; set_solver).
    rewrite (proj2 (Z.ltb_ge t _)), (bool_decide_true _ Hl) by lia. simpl.
    unfold commit_events. rewrite Hk, Hc, bool_decide_false by done.
    destruct (visible_from_pending l a t (mid ++ pub :: post)
                (<[or_Round o := pending_round p (or_Round o) ++ [o]]> p) o pub) as (e & He & Heo); try done.
    + intros d H'. apply Ha. by right.
    + rewrite pending_round_insert, bool_decide_true by done. set_solver.
    + set_solver.
    + exists e. split; [|done]. apply elem_of_app. by right.
  - simpl. assert (c_Seq x < c_Seq pub) by (apply Hlt; set_solver). rewrite (proj2 (Z.ltb_ge t _)) by lia.
    assert (Ha' : ∀ d, d ∈ pre ++ c :: mid ++ pub :: post → a < c_Seq d) by (intros d H'; apply Ha; by right).
    case_if; [by apply IH|]. destruct (commit_events l x p) as [evs p'].
    destruct (IH p' Hn Ha') as (e & He & Heo). exists e. split; [|done]. apply elem_of_app. by right.
Qed.

Lemma no_event o (P : Prop) : ¬ P → (∃ e, e ∈ @nil forumEvent ∧ ev_output e = Some o) ↔ P.
Proof. intros HP. split; [by intros (e & He%not_elem_of_nil & _)|done]. Qed.

Lemma per_turn_events l c evs p' o :
  l_Delivery l = DeliveryPerTurn → commit_events l c ∅ = (evs, p') →
  p' = ∅ ∧ ((∃ e, e ∈ evs ∧ ev_output e = Some o) ↔ c_Kind c = CommitTurn ∧ c_Output c = Some o).
Proof.
  intros Hd. unfold commit_events, pending_round. rewrite lookup_empty, delete_empty, bool_decide_true by done.
  destruct (c_Kind c); intros [= <- <-] || idtac; try (split; [done|apply no_event; by intros [? _]]).
  - destruct (c_Output c) as [o'|]; intros [= <- <-]; (split; [done|]); [|apply no_event; by intros [_ ?]].
    split; [by intros (e & ->%list_elem_of_singleton & [= ->])|].
    intros [_ [= ->]]. exists (output_event (c_Seq c) (c_Round c) o). by split; [left|].
  - split; [done|]. destruct (c_Decision c) as [d|]; [|apply no_event; by intros [? _]].
    case_bool_decide; [|apply no_event; by intros [? _]].
    split; [by intros (e & ->%list_elem_of_singleton & ?)|by intros [? _]].
Qed.

Lemma per_turn_output l a t log o :
  l_Delivery l = DeliveryPerTurn → numbered log → (∀ d, d ∈ log → a < c_Seq d) →
  (∃ e, e ∈ visible_from l a t log ∅ ∧ ev_output e = Some o) ↔
  ∃ c, c ∈ log ∧ commits_output l o c ∧ c_Seq c ≤ t.
Proof.
  intros Hd Hn Ha. induction log as [|c log IH]; simpl.
  { apply no_event. by intros (c & Hc%not_elem_of_nil & _). }
  apply numbered_cons in Hn as [Hn Hlt]. specialize (IH Hn (λ d Hd, Ha d (list_elem_of_further _ _ _ Hd))).
  rewrite (proj2 (Z.ltb_lt a _)) by (apply Ha; left). unfold commits_output in *.
  destruct (t <? c_Seq c) eqn:Ht; zb.
  { apply no_event. intros (d & [->|Hin%Hlt]%elem_of_cons & _ & ?); lia. }
  assert (Htail : (∃ d, d ∈ c :: log ∧ (c_Kind d = CommitTurn ∧ c_Layer d = l_ID l ∧ c_Output d = Some o) ∧ c_Seq d ≤ t) ↔
    (c_Kind c = CommitTurn ∧ c_Layer c = l_ID l ∧ c_Output c = Some o) ∨
    ∃ e, e ∈ visible_from l a t log ∅ ∧ ev_output e = Some o).
  { rewrite IH. split.
    - intros (d & [->|Hd']%elem_of_cons & H); [left; apply H|right; by exists d].
    - intros [H|(d & Hd' & H)]; [exists c|exists d]; (split; [by constructor|]); [by split; [|lia]|done]. }
  rewrite Htail. case_bool_decide as Hl; simpl; [|by split; [right|intros [(_ & ? & _)|?]]].
  destruct (commit_events l c ∅) as [evs p'] eqn:Hc.
  destruct (per_turn_events _ _ _ _ o Hd Hc) as [-> Hevs]. split.
  - intros (e & [He|He]%elem_of_app & Ho); [left|right; by exists e].
    destruct (proj1 Hevs (ex_intro _ e (conj He Ho))). done.
  - intros [(Hk & _ & Ho)|(e & He & Ho)].
    + destruct (proj2 Hevs (conj Hk Ho)) as (e & He & Heo). exists e. split; [|done]. apply elem_of_app. by left.
    + exists e. split; [|done]. apply elem_of_app. by right.
Qed.

(** When an output becomes visible. In a layer that publishes after each
    round, the outputs a reader may see up to a commit are exactly those whose
    round was published at or before it, after they were committed: a turn
    composed before its round's publication sees none of that round. In a layer
    that publishes each turn they are exactly those committed by then. *)
Theorem visible_outputs l t log o
    (Hn : numbered log) (Hpos : ∀ c, c ∈ log → 0 < c_Seq c) :
  (∃ e, e ∈ visible_events l 0 t log ∧ ev_output e = Some o) ↔
  if bool_decide (l_Delivery l = DeliveryPerTurn)
  then ∃ c, c ∈ log ∧ commits_output l o c ∧ c_Seq c ≤ t
  else published_by l o t log.
Proof.
  case_bool_decide as Hd; [by apply per_turn_output|]. split.
  - intros (e & He & Ho). destruct (visible_from_output l 0 t log ∅ e o Hd He Ho) as [(_ & _ & _ & _ & _ & _ & _ & H)|[H _]].
    + unfold pending_round in H. rewrite lookup_empty in H. set_solver.
    + done.
  - by apply visible_from_delivers.
Qed.


(** ** Examples *)

(** An attempt that covers the events up to [through]. *)
Definition attempt_through (seq : Z) (layer : string) (round : Z) (pid : string) (kind : TurnKind) (through : Z)
    : Commit :=
  {| c_Seq := seq; c_At := seq; c_Kind := CommitAttempt; c_Layer := layer; c_Round := round;
     c_Turn := (if bool_decide (kind = TurnModerator) then moderatorTurnID round else turnID round pid);
     c_TurnKind := kind; c_Participant := pid; c_Attempt := 1; c_ThroughSeq := through;
     c_Output := None; c_Decision := None; c_Status := OtherStatus ""; c_Reason := NoReason |}.

(** A layer of two that publishes each turn, for two rounds. *)
Definition debate : Layer := ForumLog.a_layer "debate" ["ann"; "bob"] DeliveryPerTurn None 2.

Definition debate_log : list Commit :=
  [attempt_through 3 "debate" 1 "ann" TurnParticipant 2; a_turn 4 "debate" 1 "ann";
   attempt_through 5 "debate" 1 "bob" TurnParticipant 4; a_turn 6 "debate" 1 "bob";
   attempt_through 7 "debate" 2 "ann" TurnParticipant 6; a_turn 8 "debate" 2 "ann";
   attempt_through 9 "debate" 2 "bob" TurnParticipant 8].

Definition debate_pre : list Commit :=
  [a_commit 1 CommitLaunched "" 0 ""; a_commit 2 CommitLayerStarted "debate" 0 ""].

#[local] Instance numbered_dec log : base.Decision (numbered log).
Proof. unfold numbered. apply StronglySorted_dec. intros c d. apply _. Defined.


(** Ann's output of the "review" layer, whose round commit 12 publishes. *)
Lemma visible_outputs_witness :
  published_by (ForumLog.a_layer "review" ["ann"] DeliveryAfterRound (Some a_moderator) 3)
    (ForumLog.an_output "review" 1 "ann") 13 a_log.
Proof.
  pose proof (visible_outputs (ForumLog.a_layer "review" ["ann"] DeliveryAfterRound (Some a_moderator) 3) 13 a_log
    (ForumLog.an_output "review" 1 "ann")) as H.
  apply H.
  - apply (bool_decide_unpack _). vm_compute. exact I.
  - intros c Hc. do 16 (apply elem_of_cons in Hc as [->|Hc]; [vm_compute; reflexivity|]).
    by apply not_elem_of_nil in Hc.
  - exists (output_event 12 1 (ForumLog.an_output "review" 1 "ann")). split; [vm_compute; left|reflexivity].
Defined.

(** A private message to Ann in the decision that stops a layer is lost when her
    next message is a check she moderates in another layer: it advances what she
    was told and carries no private message. *)
Definition stop_with_note (seq : Z) : Commit :=
  {| c_Seq := seq; c_At := seq; c_Kind := CommitModerated; c_Layer := "review"; c_Round := 1;
     c_Turn := moderatorTurnID 1; c_TurnKind := OtherTurnKind ""; c_Participant := ""; c_Attempt := 0;
     c_ThroughSeq := 0; c_Output := None;
     c_Decision := Some {| d_Decision := DecisionStop; d_Reason := "done"; Guidance := None; Assessment := None;
                           Directed := [{| dm_To := "ann"; dm_Text := "well done" |}] |};
     c_Status := OtherStatus ""; c_Reason := NoReason |}.

Example directed_lost :
  let pre := [attempt_through 1 "review" 1 "ann" TurnParticipant 0; stop_with_note 2] in
  let log := [attempt_through 3 "debate" 1 "ann" TurnModerator 2; attempt_through 4 "last" 1 "ann" TurnParticipant 3] in
  turn_directed "ann" 2 pre = ["well done"] ∧
  (told debate "ann" pre log).2 = [].
Proof. vm_compute. split; reflexivity. Qed.
