(* ===== verification/ForumAttempts.v ===== *)
(** * The attempts of a turn

    [perform] of forum/turn.go: the attempt loop of one work item, a
    participant's turn or a moderator's check, with its attempts cache. What
    happens to each attempt is an argument: declined by [reserve], sent and left
    unanswered (a restart, a pause, a failure of the host), or answered; a
    restart calls [perform] again on the attempts that were reserved. *)

From stdpp Require Import base gmap strings list sets.
From Stdlib Require Import ZArith Lia Ascii.
From S2P Require Import Prelude GoString ForumConfig ForumLog ForumStore ForumController.

Open Scope Z_scope.

(** ** Data *)

(** [work], with the functions that build its messages: [compose] the first
    one ([None] is an error), [repair] the one after a rejected reply
    ([repairFor]), [validate] the issues of a reply. *)
Record Work := {
  wk_Layer : string;
  wk_Round : Z;
  wk_Turn : string;
  wk_Kind : TurnKind;
  wk_ID : string;
  wk_AgentID : string;
  compose : Z → option string;
  repair : list AttemptRecord → string;
  validate : string → list string;
  exhausted : EndReason
}.

(** What became of an attempt. [Unanswered]: reserved and sent, no reply was
    recorded, and [perform] returned. [late]: the run's deadline has passed
    when the reply is looked at. *)
Inductive Answer :=
| Declined (r : EndReason)
| Unanswered (now wait : Z) (r : EndReason)
| Answered (now wait received : Z) (o : Outcome) (text : string) (late : bool).

Inductive PerformResult :=
| Accepted (rq : AttemptRequest) (rp : AttemptReply)
| Stopped (r : EndReason)
| ComposeError
| Unfinished. (* the list of answers ended *)

(** ** Definitions *)

Definition Successful (o : Outcome) : bool := bool_decide (o = OutcomeOK).

(** [lastAttempt] *)
Definition lastAttempt (prior : list AttemptRecord) : option AttemptRecord := last prior.

Definition is_turn_of (turn : string) (a : AttemptRecord) : bool := bool_decide (rq_Turn (ar_Request a) = turn).

(** [turnAttempts], on the cached attempts of the turn's layer. *)
Definition turnAttempts (atts : list AttemptRecord) (turn : string) : list AttemptRecord :=
  keep (is_turn_of turn) atts.

Definition same_attempt (rq : AttemptRequest) (a : AttemptRecord) : bool :=
  bool_decide (rq_Turn (ar_Request a) = rq_Turn rq) && (rq_Attempt (ar_Request a) =? rq_Attempt rq).

(** The first attempt under this number, replaced; [None] when there is none. *)
Fixpoint replace_attempt (atts : list AttemptRecord) (rq : AttemptRequest) : option (list AttemptRecord) :=
  match atts with
  | [] => None
  | a :: rest =>
      if same_attempt rq a then Some ({| ar_Request := rq; ar_Reply := None; ResendUsed := true |} :: rest)
      else cons a <$> replace_attempt rest rq
  end.

Definition fresh_attempt (rq : AttemptRequest) : AttemptRecord :=
  {| ar_Request := rq; ar_Reply := None; ResendUsed := false |}.

(** [cacheAttempt] *)
Definition cacheAttempt (atts : list AttemptRecord) (rq : AttemptRequest) : list AttemptRecord :=
  match (if rq_Resent rq then replace_attempt atts rq else None) with
  | Some atts' => atts'
  | None => atts ++ [fresh_attempt rq]
  end.

(** The cache after [recordReply]. *)
Definition with_reply (rq : AttemptRequest) (rp : AttemptReply) (a : AttemptRecord) : AttemptRecord :=
  if same_attempt rq a
  then {| ar_Request := ar_Request a; ar_Reply := Some rp; ResendUsed := ResendUsed a |}
  else a.

Definition cache_reply (atts : list AttemptRecord) (rq : AttemptRequest) (rp : AttemptReply) : list AttemptRecord :=
  map (with_reply rq rp) atts.

Definition Outcome_string (o : Outcome) : string :=
  match o with
  | OutcomeOK => "ok"
  | OutcomeError => "error"
  | OutcomeCancelled => "cancelled"
  | OutcomeEmpty => "empty"
  | OutcomeTimeout => "timeout"
  | OtherOutcome s => s
  end.

Section perform.
(** [quote]: the verb [%q] of package fmt. [max]: the run's
    [MaxAttemptsPerTurn]. *)
Context (quote : string → string) (max : Z) (w : Work) (cutoff : Z).

Definition reply_issues (o : Outcome) (text : string) : list string :=
  if Successful o then validate w text
  else ["the turn ended with outcome " +:+ quote (Outcome_string o)].

(** The reply [recordReply] writes. *)
Definition recorded (received : Z) (o : Outcome) (text : string) : AttemptReply :=
  {| ReceivedAt := received; rp_Outcome := o; rp_Text := text; Issues := reply_issues o text |}.

Definition request (attempt : Z) (message : string) (through : Z) (rep resent : bool) : AttemptRequest :=
  {| rq_Layer := wk_Layer w; rq_Round := wk_Round w; rq_Turn := wk_Turn w; rq_Attempt := attempt; rq_Kind := wk_Kind w;
     rq_Participant := wk_ID w; rq_AgentID := wk_AgentID w; SentAt := 0; WaitSeconds := 0; Repair := rep;
     rq_Resent := resent; rq_ThroughSeq := through; rq_Message := message |}.

(** The request the attempts so far lead to; [None] when composing fails. *)
Definition next_request (prior : list AttemptRecord) : option AttemptRequest :=
  match lastAttempt prior with
  | None => (λ message, request 1 message cutoff false false) <$> compose w cutoff
  | Some l =>
      let rq := ar_Request l in
      let again (n : Z) (resent : bool) := request n (rq_Message rq) (rq_ThroughSeq rq) (Repair rq) resent in
      Some match ar_Reply l with
           | None => if ResendUsed l then again (rq_Attempt rq + 1) false else again (rq_Attempt rq) true
           | Some rp =>
               if negb (Successful (rp_Outcome rp)) then again (rq_Attempt rq + 1) false
               else request (rq_Attempt rq + 1) (repair w prior) (rq_ThroughSeq rq) true false
           end
  end.

(** What [reserve] fills in. *)
Definition sent_at (rq : AttemptRequest) (now wait : Z) : AttemptRequest :=
  {| rq_Layer := rq_Layer rq; rq_Round := rq_Round rq; rq_Turn := rq_Turn rq; rq_Attempt := rq_Attempt rq;
     rq_Kind := rq_Kind rq; rq_Participant := rq_Participant rq; rq_AgentID := rq_AgentID rq; SentAt := now;
     WaitSeconds := Z.quot wait GoTime.second; Repair := Repair rq; rq_Resent := rq_Resent rq;
     rq_ThroughSeq := rq_ThroughSeq rq; rq_Message := rq_Message rq |}.

(** The loop: its result, the cache, and the requests that were sent. *)
Fixpoint perform_loop (atts : list AttemptRecord) (answers : list Answer)
    : PerformResult * list AttemptRecord * list AttemptRequest :=
  match next_request (turnAttempts atts (wk_Turn w)) with
  | None => (ComposeError, atts, [])
  | Some rq =>
      if max <? rq_Attempt rq then (Stopped (exhausted w), atts, [])
      else
        match answers with
        | [] => (Unfinished, atts, [])
        | Declined r :: _ => (Stopped r, atts, [])
        | Unanswered now wait r :: _ =>
            let rq := sent_at rq now wait in (Stopped r, cacheAttempt atts rq, [rq])
        | Answered now wait received o text late :: rest =>
            let rq := sent_at rq now wait in
            let rp := recorded received o text in
            let atts := cache_reply (cacheAttempt atts rq) rq rp in
            if bool_decide (Issues rp = []) then (Accepted rq rp, atts, [rq])
            else if bool_decide (o = OutcomeTimeout) && late then (Stopped EndDeadline, atts, [rq])
            else let '(res, atts, sent) := perform_loop atts rest in (res, atts, rq :: sent)
        end
  end.

Definition adopted (prior : list AttemptRecord) : option (AttemptRequest * AttemptReply) :=
  match lastAttempt prior with
  | Some l =>
      match ar_Reply l with
      | Some rp => if bool_decide (Issues rp = []) then Some (ar_Request l, rp) else None
      | None => None
      end
  | None => None
  end.

Definition perform (atts : list AttemptRecord) (answers : list Answer)
    : PerformResult * list AttemptRecord * list AttemptRequest :=
  match adopted (turnAttempts atts (wk_Turn w)) with
  | Some (rq, rp) => (Accepted rq rp, atts, [])
  | None => perform_loop atts answers
  end.
End perform.

(** ** The cache *)

Lemma replace_attempt_spec turn atts rq l :
  rq_Turn rq = turn → last (keep (is_turn_of turn) atts) = Some l →
  rq_Attempt (ar_Request l) = rq_Attempt rq →
  (∀ i a, keep (is_turn_of turn) atts !! i = Some a → (S i < length (keep (is_turn_of turn) atts))%nat →
     rq_Attempt (ar_Request a) ≠ rq_Attempt rq) →
  ∃ atts', replace_attempt atts rq = Some atts' ∧
    keep (is_turn_of turn) atts' =
      removelast (keep (is_turn_of turn) atts) ++ [{| ar_Request := rq; ar_Reply := None; ResendUsed := true |}].
Proof.
  intros Ht Hl Hn Hother. induction atts as [|a atts IH]; [done|]. simpl in *.
  assert (Htest : same_attempt rq a = is_turn_of turn a && (rq_Attempt (ar_Request a) =? rq_Attempt rq)).
  { unfold same_attempt, is_turn_of. by rewrite Ht. }
  rewrite Htest. destruct (is_turn_of turn a) eqn:Ha; simpl.
  - destruct (keep (is_turn_of turn) atts) as [|b ks] eqn:Hks.
    + simpl in Hl. injection Hl as ->. rewrite (proj2 (Z.eqb_eq _ _)) by done. eexists. split; [done|]. simpl.
      unfold is_turn_of at 1. simpl. by rewrite bool_decide_true, Hks.
    + rewrite (proj2 (Z.eqb_neq _ _)) by (apply (Hother 0%nat a); [done|simpl; lia]).
      destruct IH as (atts' & -> & Hk).
      { rewrite last_cons in Hl. by destruct (last (b :: ks)) eqn:E; [|rewrite last_None in E]. }
      { intros i c Hi Hlt. apply (Hother (S i) c Hi). simpl in *. lia. }
      exists (a :: atts'). split; [done|]. simpl keep. rewrite Ha, Hk. done.
  - destruct (IH Hl Hother) as (atts' & -> & Hk). exists (a :: atts'). split; [done|]. simpl. by rewrite Ha.
Qed.

Lemma turnAttempts_reply atts rq rp :
  turnAttempts (cache_reply atts rq rp) (rq_Turn rq) = map (with_reply rq rp) (turnAttempts atts (rq_Turn rq)).
Proof.
  unfold turnAttempts, cache_reply. induction atts as [|a atts IH]; [done|]. simpl.
  assert (Hsame : is_turn_of (rq_Turn rq) (with_reply rq rp a) = is_turn_of (rq_Turn rq) a).
  { unfold is_turn_of, with_reply. by destruct (same_attempt rq a). }
  rewrite Hsame. destruct (is_turn_of (rq_Turn rq) a); simpl; [by rewrite IH|done].
Qed.

(** ** A turn's attempts, restarts included *)

Section turns.
Context (quote : string → string) (max : Z) (w : Work).

(** What a turn can come to: [perform] called any number of times, with any
    cutoff and any answers, on the attempts already reserved, while other turns
    of the layer change the cache. [sent] are the requests that went out. *)
Inductive history : list AttemptRecord → list AttemptRequest → Prop :=
| history_start atts : turnAttempts atts (wk_Turn w) = [] → history atts []
| history_perform atts sent cutoff answers res atts' sent' :
    history atts sent → perform quote max w cutoff atts answers = (res, atts', sent') →
    history atts' (sent ++ sent')
| history_other atts sent atts' :
    history atts sent → turnAttempts atts' (wk_Turn w) = turnAttempts atts (wk_Turn w) → history atts' sent.

(** The index of the reservations of the requests sent. *)
Definition sent_index (sent : list AttemptRequest) : commitIndex := index_of (map attempt_commit sent).

Definition reservation_of (a : AttemptRecord) : reservation :=
  {| rv_round := wk_Round w; rv_through := rq_ThroughSeq (ar_Request a); rv_resent := ResendUsed a |}.

Definition of_work (rq : AttemptRequest) : Prop :=
  rq_Layer rq = wk_Layer w ∧ rq_Turn rq = wk_Turn w ∧ rq_Round rq = wk_Round w ∧ rq_Kind rq = wk_Kind w ∧
  rq_Participant rq = wk_ID w ∧ rq_AgentID rq = wk_AgentID w.

Definition messages (prior : list AttemptRecord) : nat :=
  sum_list (map (λ a, if ResendUsed a then 2%nat else 1%nat) prior).

(** A reservation the store accepts where its round and work id are right. *)
Definition accepted_in (ix : commitIndex) (rq : AttemptRequest) : Prop :=
  ∀ layer, checkRound layer (attempt_commit rq) = Ok tt →
    checkWorkID layer (wk_Kind w) (wk_Round w) (wk_ID w) (wk_Turn w) = Ok tt →
    checkAttemptCommit layer ix (attempt_commit rq) = Ok tt.

Record turn_inv (prior : list AttemptRecord) (sent : list AttemptRequest) : Prop := {
  ti_numbers : ∀ i a, prior !! i = Some a → of_work (ar_Request a) ∧ rq_Attempt (ar_Request a) = Z.of_nat i + 1;
  ti_bounded : Z.of_nat (length prior) ≤ Z.max 0 max;
  ti_messages : length sent = messages prior;
  ti_index : ∀ i, ix_attempts (sent_index sent) !! (wk_Layer w, wk_Turn w, Z.of_nat i + 1) = reservation_of <$> prior !! i;
  ti_latest : latest (sent_index sent) (wk_Layer w, wk_Turn w) = Z.of_nat (length prior);
  ti_outputs : ix_outputs (sent_index sent) = ∅;
  ti_accepted : ∀ pre rq post, sent = pre ++ rq :: post → accepted_in (sent_index pre) rq
}.

Lemma turn_inv_start : turn_inv [] [].
Proof.
  split; try done.
  - simpl. lia.
  - intros pre rq post H. by destruct pre.
Qed.

(** A new attempt, or the last one once more. *)
Inductive next_case (prior : list AttemptRecord) (rq : AttemptRequest) : Prop :=
| new_attempt :
    of_work rq → rq_Resent rq = false → rq_Attempt rq = Z.of_nat (length prior) + 1 → next_case prior rq
| resent pre a :
    of_work rq → rq_Resent rq = true → rq_Attempt rq = Z.of_nat (length prior) →
    prior = pre ++ [a] → ar_Reply a = None → ResendUsed a = false →
    rq_ThroughSeq rq = rq_ThroughSeq (ar_Request a) → rq_Message rq = rq_Message (ar_Request a) →
    Repair rq = Repair (ar_Request a) → next_case prior rq.

Lemma next_request_case prior sent cutoff rq :
  turn_inv prior sent → next_request w cutoff prior = Some rq → next_case prior rq.
Proof.
  intros Hinv. unfold next_request, lastAttempt. destruct (last prior) as [a|] eqn:Hl.
  2: { apply last_None in Hl as ->. destruct (compose w cutoff); [|done]. simpl. intros [= <-]. by constructor. }
  apply last_Some in Hl as [pre ->].
  assert (Hn : rq_Attempt (ar_Request a) = Z.of_nat (length (pre ++ [a]))).
  { destruct (ti_numbers _ _ Hinv (length pre) a) as [_ ->]; [by apply list_lookup_middle|].
    rewrite length_app. simpl. lia. }
  intros [= <-]. destruct (ar_Reply a) as [rp|] eqn:Hr.
  - destruct (negb _); (apply new_attempt; [done..|simpl; lia]).
  - destruct (ResendUsed a) eqn:Hu; [apply new_attempt; [done..|simpl; lia]|].
    by apply (resent _ _ pre a).
Qed.

Lemma next_case_sent prior rq now wait : next_case prior rq → next_case prior (sent_at rq now wait).
Proof. intros []; [by apply new_attempt|by eapply resent]. Qed.

(** The cache after a reservation. *)
Lemma cacheAttempt_case atts sent rq :
  turn_inv (turnAttempts atts (wk_Turn w)) sent → next_case (turnAttempts atts (wk_Turn w)) rq →
  turnAttempts (cacheAttempt atts rq) (wk_Turn w) =
    if rq_Resent rq
    then removelast (turnAttempts atts (wk_Turn w)) ++ [{| ar_Request := rq; ar_Reply := None; ResendUsed := true |}]
    else turnAttempts atts (wk_Turn w) ++ [fresh_attempt rq].
Proof.
  intros Hinv Hcase. unfold turnAttempts in *. unfold cacheAttempt.
  destruct Hcase as [(HL & HT & _) Hr Hn|pre a (HL & HT & _) Hr Hn Hp Hrep Hu Hth Hm Hrp]; rewrite Hr.
  - rewrite keep_app. simpl. unfold is_turn_of at 2. simpl. by rewrite bool_decide_true.
  - destruct (replace_attempt_spec (wk_Turn w) atts rq a) as (atts' & -> & Hk); [done|by rewrite Hp, last_snoc|..].
    + destruct (ti_numbers _ _ Hinv (length pre) a) as [_ ->]; [rewrite Hp; by apply list_lookup_middle|].
      rewrite Hn, Hp, length_app. simpl. lia.
    + intros i b Hi Hlt. destruct (ti_numbers _ _ Hinv i b Hi) as [_ ->]. rewrite Hn. lia.
    + by rewrite Hk.
Qed.

Lemma sent_index_snoc sent rq : sent_index (sent ++ [rq]) = add (sent_index sent) (attempt_commit rq).
Proof. unfold sent_index. rewrite map_app. apply index_of_snoc. Qed.

Lemma messages_app a b : messages (a ++ b) = (messages a + messages b)%nat.
Proof. unfold messages. induction a as [|x a IH]; simpl in *; [done|]. by rewrite IH, Nat.add_assoc. Qed.

(** The store's check of the reservation of a case. *)
Lemma case_accepted prior sent rq :
  turn_inv prior sent → next_case prior rq → accepted_in (sent_index sent) rq.
Proof.
  intros Hinv Hcase layer Hround Hwork. unfold checkAttemptCommit. rewrite Hround.
  assert (Hof : of_work rq) by (by destruct Hcase). destruct Hof as (HL & HT & HR & HK & HP & _).
  assert (Hpos : (c_Attempt (attempt_commit rq) <? 1) = false).
  { apply Z.ltb_ge. simpl. destruct Hcase as [_ _ ->|pre a _ _ -> -> _ _ _ _ _]; [lia|rewrite length_app; simpl; lia]. }
  rewrite Hpos. unfold attempt_key, turn_key. simpl. rewrite HL, HT, HR, HK, HP, Hwork.
  rewrite (ti_outputs _ _ Hinv), (ti_latest _ _ Hinv).
  destruct Hcase as [_ _ Hn|pre a _ _ Hn Hp _ Hu Hth _ _].
  - rewrite Hn, (ti_index _ _ Hinv), lookup_ge_None_2 by lia. simpl. by rewrite bool_decide_false.
  - assert (Hi : Z.of_nat (length prior) = Z.of_nat (length pre) + 1) by (rewrite Hp, length_app; simpl; lia).
    rewrite Hn, Hi, (ti_index _ _ Hinv), Hp, list_lookup_middle by done. simpl.
    rewrite Hu, Hth, !Z.eqb_refl. simpl. by rewrite bool_decide_false.
Qed.

(** The attempts after a reservation. *)
Definition after_send (prior : list AttemptRecord) (rq : AttemptRequest) : list AttemptRecord :=
  if rq_Resent rq then removelast prior ++ [{| ar_Request := rq; ar_Reply := None; ResendUsed := true |}]
  else prior ++ [fresh_attempt rq].

Lemma add_attempt ix rq :
  of_work rq →
  ix_attempts (add ix (attempt_commit rq)) =
    <[(wk_Layer w, wk_Turn w, rq_Attempt rq) :=
      match ix_attempts ix !! (wk_Layer w, wk_Turn w, rq_Attempt rq) with
      | Some r => {| rv_round := rv_round r; rv_through := rv_through r; rv_resent := true |}
      | None => {| rv_round := wk_Round w; rv_through := rq_ThroughSeq rq; rv_resent := false |}
      end]> (ix_attempts ix) ∧
  latest (add ix (attempt_commit rq)) (wk_Layer w, wk_Turn w) =
    Z.max (latest ix (wk_Layer w, wk_Turn w)) (rq_Attempt rq) ∧
  ix_outputs (add ix (attempt_commit rq)) = ix_outputs ix.
Proof.
  intros (HL & HT & HR & _). unfold add, attempt_key, turn_key. simpl. rewrite HL, HT, HR.
  split_and!; [done| |done]. unfold latest at 1. simpl. by rewrite lookup_insert_eq.
Qed.

Lemma snoc_accepted sent rq :
  (∀ pre r post, sent = pre ++ r :: post → accepted_in (sent_index pre) r) → accepted_in (sent_index sent) rq →
  ∀ pre r post, sent ++ [rq] = pre ++ r :: post → accepted_in (sent_index pre) r.
Proof.
  intros Hs Hrq pre r post. destruct post as [|x post _] using rev_ind.
  - intros [-> [= ->]]%app_inj_tail. done.
  - rewrite app_comm_cons, app_assoc. intros [-> _]%app_inj_tail. by eapply Hs.
Qed.

Lemma new_attempt_inv prior sent rq :
  turn_inv prior sent → of_work rq → rq_Resent rq = false → rq_Attempt rq = Z.of_nat (length prior) + 1 →
  rq_Attempt rq ≤ max → turn_inv (prior ++ [fresh_attempt rq]) (sent ++ [rq]).
Proof.
  intros Hinv Hof Hr Hn Hmax. destruct (add_attempt (sent_index sent) rq Hof) as (Ha & Hl & Ho). split.
  - intros i a [[_ Hi]|[Hi Hx]]%lookup_snoc_Some; [by apply (ti_numbers _ _ Hinv)|]. subst i a. done.
  - rewrite length_app. simpl. lia.
  - rewrite length_app, messages_app, (ti_messages _ _ Hinv). done.
  - intros i. rewrite sent_index_snoc, Ha, Hn.
    rewrite (ti_index _ _ Hinv), (lookup_ge_None_2 prior (length prior)) by lia. simpl.
    destruct (decide (i = length prior)) as [->|Hne].
    + by rewrite lookup_insert_eq, list_lookup_middle.
    + rewrite lookup_insert_ne by (intros [= H]; lia). rewrite (ti_index _ _ Hinv). f_equal.
      destruct (decide (i < length prior)%nat); [by rewrite lookup_app_l|].
      by rewrite !lookup_ge_None_2 by (rewrite ?length_app; simpl; lia).
  - rewrite sent_index_snoc, Hl, (ti_latest _ _ Hinv), Hn, length_app. simpl. lia.
  - rewrite sent_index_snoc, Ho. apply Hinv.
  - apply snoc_accepted; [apply Hinv|]. eapply case_accepted; [done|]. by apply new_attempt.
Qed.

Lemma resent_inv pre a sent rq :
  turn_inv (pre ++ [a]) sent → next_case (pre ++ [a]) rq → rq_Resent rq = true →
  turn_inv (pre ++ [{| ar_Request := rq; ar_Reply := None; ResendUsed := true |}]) (sent ++ [rq]).
Proof.
  intros Hinv Hcase Hr. pose proof (case_accepted _ _ _ Hinv Hcase) as Hacc.
  destruct Hcase as [_ Hf|pre' a' Hof _ Hn Hp _ Hu Hth _ _]; [congruence|].
  apply app_inj_tail in Hp as [<- <-]. rewrite length_app in Hn. simpl in Hn.
  replace (Z.of_nat (length pre + 1)) with (Z.of_nat (length pre) + 1) in Hn by lia.
  destruct (add_attempt (sent_index sent) rq Hof) as (Ha & Hl & Ho). split.
  - intros i b [[_ Hi]|[Hi Hx]]%lookup_snoc_Some; [apply (ti_numbers _ _ Hinv); by apply lookup_app_l_Some|].
    subst i b. simpl. split; [done|lia].
  - pose proof (ti_bounded _ _ Hinv) as Hb. rewrite length_app in *. done.
  - rewrite length_app, (ti_messages _ _ Hinv), !messages_app. unfold messages at 2 4. simpl. rewrite Hu. lia.
  - intros i. rewrite sent_index_snoc, Ha, Hn, (ti_index _ _ Hinv), list_lookup_middle by done. simpl.
    destruct (decide (i = length pre)) as [->|Hne].
    + rewrite lookup_insert_eq, list_lookup_middle by done. simpl. unfold reservation_of. simpl. by rewrite Hth.
    + rewrite lookup_insert_ne by (intros [= H]; lia). rewrite (ti_index _ _ Hinv). f_equal.
      destruct (decide (i < length pre)%nat); [by rewrite !lookup_app_l|].
      by rewrite !lookup_ge_None_2 by (rewrite ?length_app; simpl; lia).
  - rewrite sent_index_snoc, Hl, (ti_latest _ _ Hinv), Hn, !length_app. simpl. lia.
  - rewrite sent_index_snoc, Ho. apply Hinv.
  - apply snoc_accepted; [apply Hinv|done].
Qed.

Lemma send_inv prior sent rq :
  turn_inv prior sent → next_case prior rq → rq_Attempt rq ≤ max → turn_inv (after_send prior rq) (sent ++ [rq]).
Proof.
  intros Hinv Hcase Hmax. unfold after_send. destruct (rq_Resent rq) eqn:Hr.
  - assert (∃ pre a, prior = pre ++ [a]) as (pre & a & ->) by (destruct Hcase; [congruence|eauto]).
    rewrite removelast_last. by apply (resent_inv pre a).
  - destruct Hcase as [|? ? ? Hf]; [by apply new_attempt_inv|congruence].
Qed.

Lemma reply_inv prior sent rq rp : turn_inv prior sent → turn_inv (map (with_reply rq rp) prior) sent.
Proof.
  assert (Hreq : ∀ a, ar_Request (with_reply rq rp a) = ar_Request a ∧
                      ResendUsed (with_reply rq rp a) = ResendUsed a).
  { intros a. unfold with_reply. by destruct (same_attempt rq a). }
  intros Hinv. split; try apply Hinv.
  - intros i a Hi. apply list_lookup_fmap_Some in Hi as (b & -> & Hb). rewrite (proj1 (Hreq b)).
    by apply (ti_numbers _ _ Hinv).
  - rewrite length_map. apply Hinv.
  - rewrite (ti_messages _ _ Hinv). unfold messages. rewrite map_map. f_equal. apply map_ext.
    intros a. by rewrite (proj2 (Hreq a)).
  - intros i. rewrite (ti_index _ _ Hinv). change (map (with_reply rq rp) prior) with (with_reply rq rp <$> prior).
    rewrite list_lookup_fmap. destruct (prior !! i) as [a|]; [|done]. simpl. unfold reservation_of.
    by destruct (Hreq a) as [-> ->].
  - rewrite length_map. apply Hinv.
Qed.

(** ** The loop *)

Lemma perform_loop_inv cutoff atts sent answers res atts' sent' :
  turn_inv (turnAttempts atts (wk_Turn w)) sent →
  perform_loop quote max w cutoff atts answers = (res, atts', sent') →
  turn_inv (turnAttempts atts' (wk_Turn w)) (sent ++ sent').
Proof.
  revert atts sent sent'. induction answers as [|an answers IH]; intros atts sent sent' Hinv;
    cbn [perform_loop]; destruct (next_request w cutoff (turnAttempts atts (wk_Turn w))) as [rq|] eqn:Hnext.
  2,4: intros [= <- <- <-]; by rewrite app_nil_r.
  all: destruct (max <? rq_Attempt rq) eqn:Hmax; zb; [intros [= <- <- <-]; by rewrite app_nil_r|].
  { intros [= <- <- <-]. by rewrite app_nil_r. }
  pose proof (next_request_case _ _ _ _ Hinv Hnext) as Hcase.
  assert (Hsend : ∀ now wait, turn_inv (turnAttempts (cacheAttempt atts (sent_at rq now wait)) (wk_Turn w))
                                (sent ++ [sent_at rq now wait])).
  { intros now wait. apply (next_case_sent _ _ now wait) in Hcase.
    rewrite (cacheAttempt_case _ _ _ Hinv Hcase). by apply send_inv. }
  assert (HT : rq_Turn rq = wk_Turn w) by (destruct Hcase as [(_ & H & _)|? ? (_ & H & _)]; exact H).
  destruct an as [r|now wait r|now wait received o text late]; cbv zeta.
  - intros [= <- <- <-]. by rewrite app_nil_r.
  - intros [= <- <- <-]. apply Hsend.
  - specialize (Hsend now wait).
    apply (reply_inv _ _ (sent_at rq now wait) (recorded quote w received o text)) in Hsend.
    rewrite <- HT in Hsend at 1. change (rq_Turn rq) with (rq_Turn (sent_at rq now wait)) in Hsend at 1.
    rewrite <- turnAttempts_reply in Hsend.
    change (rq_Turn (sent_at rq now wait)) with (rq_Turn rq) in Hsend. rewrite HT in Hsend.
    case_if; [intros [= <- <- <-]; exact Hsend|]. case_if; [intros [= <- <- <-]; exact Hsend|].
    destruct (perform_loop _ _ _ _ _ answers) as [[res1 atts1] sent1] eqn:Hloop. intros [= <- <- <-].
    rewrite cons_middle, app_assoc. by apply (IH _ _ _ Hsend).
Qed.

Lemma perform_inv cutoff atts sent answers res atts' sent' :
  turn_inv (turnAttempts atts (wk_Turn w)) sent →
  perform quote max w cutoff atts answers = (res, atts', sent') →
  turn_inv (turnAttempts atts' (wk_Turn w)) (sent ++ sent').
Proof.
  intros Hinv. unfold perform. destruct (adopted _) as [[rq rp]|].
  - intros [= <- <- <-]. by rewrite app_nil_r.
  - by apply perform_loop_inv.
Qed.

Lemma history_inv atts sent : history atts sent → turn_inv (turnAttempts atts (wk_Turn w)) sent.
Proof.
  induction 1 as [atts H|atts sent cutoff answers res atts' sent' _ IH Hp|atts sent atts' _ IH H].
  - rewrite H. apply turn_inv_start.
  - by eapply perform_inv.
  - by rewrite H.
Qed.

Lemma messages_bound prior : (messages prior ≤ 2 * length prior)%nat.
Proof. unfold messages. induction prior as [|a prior IH]; simpl; [done|]. destruct (ResendUsed a); lia. Qed.

Lemma inv_messages prior sent : turn_inv prior sent → Z.of_nat (length sent) ≤ 2 * Z.max 0 max.
Proof.
  intros Hinv. rewrite (ti_messages _ _ Hinv). pose proof (messages_bound prior).
  pose proof (ti_bounded _ _ Hinv). lia.
Qed.

Lemma perform_loop_unfinished cutoff atts answers atts' sent' :
  perform_loop quote max w cutoff atts answers = (Unfinished, atts', sent') → length sent' = length answers.
Proof.
  revert atts sent'. induction answers as [|an answers IH]; intros atts sent'; cbn [perform_loop];
    (destruct (next_request _ _ _); [|done]); (case_if; [done|]).
  { by intros [= <- <-]. }
  destruct an; [done..|]. cbv zeta. case_if; [done|]. case_if; [done|].
  destruct (perform_loop _ _ _ _ _ answers) as [[res1 atts1] sent1] eqn:Hloop. intros [= -> -> <-].
  simpl. by rewrite (IH _ _ Hloop).
Qed.

(** An accepted reply is the last of the turn's. *)
Lemma perform_loop_accepted cutoff atts sent answers rq rp atts' sent' :
  turn_inv (turnAttempts atts (wk_Turn w)) sent →
  perform_loop quote max w cutoff atts answers = (Accepted rq rp, atts', sent') →
  adopted (turnAttempts atts' (wk_Turn w)) = Some (rq, rp).
Proof.
  revert atts sent sent'. induction answers as [|an answers IH]; intros atts sent sent' Hinv;
    cbn [perform_loop]; (destruct (next_request w cutoff (turnAttempts atts (wk_Turn w))) as [rq'|] eqn:Hnext; [|done]);
    (destruct (max <? rq_Attempt rq') eqn:Hmax; [done|]); [done|].
  destruct an as [r|now wait r|now wait received o text late]; [done..|]. cbv zeta.
  pose proof (next_case_sent _ _ now wait (next_request_case _ _ _ _ Hinv Hnext)) as Hcase.
  assert (HT : rq_Turn (sent_at rq' now wait) = wk_Turn w)
    by (destruct Hcase as [(_ & H & _)|? ? (_ & H & _)]; exact H).
  set (rq1 := sent_at rq' now wait) in *. set (rp1 := recorded quote w received o text) in *.
  clearbody rp1.
  assert (Hlast : turnAttempts (cache_reply (cacheAttempt atts rq1) rq1 rp1) (wk_Turn w) =
                  map (with_reply rq1 rp1) (after_send (turnAttempts atts (wk_Turn w)) rq1)).
  { rewrite <- HT, turnAttempts_reply, HT. by rewrite (cacheAttempt_case _ _ _ Hinv Hcase). }
  case_if.
  - intros [= <- <- <- <-]. rewrite Hlast. unfold adopted, lastAttempt, after_send.
    assert (Hsame : ∀ b, with_reply rq1 rp1 {| ar_Request := rq1; ar_Reply := None; ResendUsed := b |} =
                         {| ar_Request := rq1; ar_Reply := Some rp1; ResendUsed := b |}).
    { intros b. unfold with_reply, same_attempt. simpl. by rewrite bool_decide_true, Z.eqb_refl. }
    unfold fresh_attempt. destruct (rq_Resent rq1); rewrite map_app; simpl; rewrite last_snoc, Hsame; simpl;
      by rewrite Heqb.
  - case_if; [done|]. destruct (perform_loop _ _ _ _ _ answers) as [[res1 atts1] sent1] eqn:Hloop.
    intros [= -> -> <-]. apply (IH _ (sent ++ [rq1]) _) in Hloop; [done|].
    rewrite Hlast. apply reply_inv, send_inv; [done..|]. zb. done.
Qed.

(** A turn ends within its attempts, whatever restarts cut it. Its attempts
    are numbered 1, 2, ... up to the limit; no more than two messages go
    out for each number, so twice the limit in all; the mark of a cached attempt that
    its one resend is used is the one the log gives back after a restart; and
    the store's check refuses none of the reservations. *)
Theorem turn_bounded atts sent (Hhist : history atts sent) :
  Z.of_nat (length sent) ≤ 2 * Z.max 0 max ∧
  (∀ i a, turnAttempts atts (wk_Turn w) !! i = Some a →
     rq_Attempt (ar_Request a) = Z.of_nat i + 1 ∧ Z.of_nat i + 1 ≤ Z.max 0 max ∧
     ix_attempts (sent_index sent) !! (wk_Layer w, wk_Turn w, rq_Attempt (ar_Request a)) = Some (reservation_of a)) ∧
  (∀ pre rq post, sent = pre ++ rq :: post → accepted_in (sent_index pre) rq).
Proof.
  apply history_inv in Hhist as Hinv. split_and!; [by eapply inv_messages| |apply Hinv].
  intros i a Hi. destruct (ti_numbers _ _ Hinv i a Hi) as [_ Hn]. rewrite Hn. split_and!; [done| |].
  - pose proof (ti_bounded _ _ Hinv). apply lookup_lt_Some in Hi. lia.
  - by rewrite (ti_index _ _ Hinv), Hi.
Qed.

(** [perform] returns: after any history of a turn, given an answer for each
    of as many messages as twice the limit, it ends before the answers do. *)
Theorem perform_ends atts sent cutoff answers
    (Hhist : history atts sent) (Hlong : 2 * Z.max 0 max < Z.of_nat (length answers)) :
  (perform quote max w cutoff atts answers).1.1 ≠ Unfinished.
Proof.
  apply history_inv in Hhist as Hinv.
  destruct (perform quote max w cutoff atts answers) as [[res atts'] sent'] eqn:Hp. simpl. intros ->.
  pose proof (perform_inv _ _ _ _ _ _ _ Hinv Hp) as Hinv'. apply inv_messages in Hinv'.
  unfold perform in Hp. destruct (adopted _) as [[? ?]|]; [done|].
  apply perform_loop_unfinished in Hp. rewrite length_app in Hinv'. lia.
Qed.

(** An accepted reply is used once it is there: when [perform] accepts a
    reply, a later call for the same turn, as after a restart before the turn's
    commit, adopts that reply and sends nothing. *)
Theorem accepted_adopted atts sent cutoff answers rq rp atts' sent' cutoff' answers'
    (Hhist : history atts sent)
    (Hok : perform quote max w cutoff atts answers = (Accepted rq rp, atts', sent')) :
  Issues rp = [] ∧ perform quote max w cutoff' atts' answers' = (Accepted rq rp, atts', []).
Proof.
  apply history_inv in Hhist as Hinv.
  assert (Had : adopted (turnAttempts atts' (wk_Turn w)) = Some (rq, rp)).
  { unfold perform in Hok. destruct (adopted (turnAttempts atts (wk_Turn w))) as [[rq0 rp0]|] eqn:Ha.
    - injection Hok as -> -> -> <-. done.
    - by eapply perform_loop_accepted. }
  split; [|unfold perform; by rewrite Had].
  unfold adopted in Had. destruct (lastAttempt _) as [l|]; [|done]. destruct (ar_Reply l); [|done].
  case_bool_decide; [|done]. congruence.
Qed.

(** What is sent again is what was sent before: the next request repeats the
    last one's message and visible events unless its reply came and was
    rejected, when it is a repair over the same events; a new number is
    taken unless the last attempt was cut and had not been sent again; and a
    first message covers the events up to the cutoff. *)
Theorem next_request_spec atts sent cutoff rq
    (Hhist : history atts sent) (Hnext : next_request w cutoff (turnAttempts atts (wk_Turn w)) = Some rq) :
  match last (turnAttempts atts (wk_Turn w)) with
  | None => compose w cutoff = Some (rq_Message rq) ∧ rq_ThroughSeq rq = cutoff ∧ rq_Attempt rq = 1
  | Some a =>
      let n := Z.of_nat (length (turnAttempts atts (wk_Turn w))) in
      rq_ThroughSeq rq = rq_ThroughSeq (ar_Request a) ∧
      rq_Attempt rq = (if rq_Resent rq then n else n + 1) ∧
      (rq_Resent rq = true ↔ ar_Reply a = None ∧ ResendUsed a = false) ∧
      (rq_Message rq = rq_Message (ar_Request a) ∨
       ∃ rp, ar_Reply a = Some rp ∧ rp_Outcome rp = OutcomeOK ∧ Repair rq = true ∧
         rq_Message rq = repair w (turnAttempts atts (wk_Turn w)))
  end.
Proof.
  apply history_inv in Hhist as Hinv. set (prior := turnAttempts atts (wk_Turn w)) in *.
  destruct (last prior) as [a|] eqn:Hl; unfold next_request, lastAttempt in Hnext; rewrite Hl in Hnext.
  2: { destruct (compose w cutoff); [|done]. simpl in Hnext. by injection Hnext as <-. }
  assert (Hn : rq_Attempt (ar_Request a) = Z.of_nat (length prior)).
  { apply last_Some in Hl as [pre Hp]. rewrite Hp in *.
    destruct (ti_numbers _ _ Hinv (length pre) a) as [_ ->]; [by apply list_lookup_middle|].
    rewrite length_app. simpl. lia. }
  injection Hnext as <-. rewrite <- Hn. destruct (ar_Reply a) as [rp|].
  - unfold Successful. destruct (bool_decide (rp_Outcome rp = OutcomeOK)) eqn:Ho; simpl; split_and!; try done;
      try by split; [|intros []]. 
    + right. exists rp. apply bool_decide_eq_true in Ho. done.
    + by left.
  - destruct (ResendUsed a); simpl; split_and!; try done; try (split; [done|intros []; done]); by left.
Qed.
End turns.

(** ** A turn cut by a restart

    The first message is cut and sent again; its reply is rejected; the second
    attempt is accepted. *)

Definition a_work : Work :=
  {| wk_Layer := "draft"; wk_Round := 1; wk_Turn := turnID 1 "ann"; wk_Kind := TurnParticipant; wk_ID := "ann";
     wk_AgentID := "agent-ann"; compose := λ _, Some "the task"; repair := λ _, "again, please";
     validate := λ t, if bool_decide (t = "fine") then [] else ["not fine"]; exhausted := EndAttemptsExhausted |}.

Definition quoted (s : string) : string := String "'" (s +:+ "'").

Definition first_call := perform quoted 2 a_work 2 [] [Unanswered 100 (60 * GoTime.second) NoReason].
Definition second_call :=
  perform quoted 2 a_work 5 first_call.1.2
    [Answered 200 (60 * GoTime.second) 210 OutcomeOK "no" false;
     Answered 220 (60 * GoTime.second) 230 OutcomeOK "fine" false].

Example second_call_sent :
  map (λ rq, (rq_Attempt rq, rq_Resent rq, rq_Message rq, rq_ThroughSeq rq)) (first_call.2 ++ second_call.2) =
  [(1, false, "the task", 2); (1, true, "the task", 2); (2, false, "again, please", 2)].
Proof. vm_compute. reflexivity. Qed.

Lemma a_history : history quoted 2 a_work second_call.1.2 (first_call.2 ++ second_call.2).
Proof.
  apply (history_perform quoted 2 a_work first_call.1.2 first_call.2 5
    [Answered 200 (60 * GoTime.second) 210 OutcomeOK "no" false;
     Answered 220 (60 * GoTime.second) 230 OutcomeOK "fine" false] second_call.1.1); [|vm_compute; reflexivity].
  apply (history_perform quoted 2 a_work [] [] 2 [Unanswered 100 (60 * GoTime.second) NoReason] first_call.1.1);
    [by constructor|vm_compute; reflexivity].
Qed.

Lemma turn_bounded_witness :
  length (first_call.2 ++ second_call.2) = 3%nat ∧ Z.of_nat (length (first_call.2 ++ second_call.2)) ≤ 2 * Z.max 0 2.
Proof.
  split; [vm_compute; reflexivity|].
  apply (turn_bounded quoted 2 a_work second_call.1.2 (first_call.2 ++ second_call.2) a_history).
Defined.

Lemma perform_ends_witness :
  (perform quoted 2 a_work 2 [] (replicate 5 (Answered 1 1 1 OutcomeTimeout "" false))).1.1 ≠ Unfinished.
Proof.
  apply (perform_ends quoted 2 a_work [] []); [by constructor|vm_compute; reflexivity].
Defined.

Definition accepted_parts : option (AttemptRequest * AttemptReply) :=
  match second_call.1.1 with Accepted rq rp => Some (rq, rp) | _ => None end.

Lemma accepted_adopted_witness :
  ∃ rq rp, second_call.1.1 = Accepted rq rp ∧
    perform quoted 2 a_work 9 second_call.1.2 [] = (Accepted rq rp, second_call.1.2, []).
Proof.
  eexists _, _. split; [vm_compute; reflexivity|].
  eapply (accepted_adopted quoted 2 a_work first_call.1.2 first_call.2 5
    [Answered 200 (60 * GoTime.second) 210 OutcomeOK "no" false;
     Answered 220 (60 * GoTime.second) 230 OutcomeOK "fine" false] _ _ second_call.1.2 second_call.2).
  - apply (history_perform quoted 2 a_work [] [] 2 [Unanswered 100 (60 * GoTime.second) NoReason] first_call.1.1);
      [by constructor|vm_compute; reflexivity].
  - vm_compute. reflexivity.
Defined.

Lemma next_request_spec_witness :
  ∃ rq, next_request a_work 5 (turnAttempts first_call.1.2 (turnID 1 "ann")) = Some rq ∧
    rq_ThroughSeq rq = 2 ∧ rq_Resent rq = true.
Proof.
  eexists. split; [vm_compute; reflexivity|].
  pose proof (next_request_spec quoted 2 a_work first_call.1.2 first_call.2 5) as H.
  edestruct H as (H1 & _ & H3 & _).
  - apply (history_perform quoted 2 a_work [] [] 2 [Unanswered 100 (60 * GoTime.second) NoReason] first_call.1.1);
      [by constructor|vm_compute; reflexivity].
  - vm_compute. reflexivity.
  - split; vm_compute; reflexivity.
Defined.
