(* ===== verification/NamedTokens.v ===== *)
(** * Named message tokens (msgtoken/named.go)

    The long-lived tokens an external program posts messages with: the store of
    each agent's tokens with its file, and the limiter that blocks a token used
    too often. The file of the store is represented by what it decodes to. The
    theorems: the limiter is, in every answer, the plain definition of a limit on
    the requests of the last minute, and lets no more through; a revoked token is
    never accepted again, restarts included; what is created is on disk. *)

From stdpp Require Import base gmap strings list sorting.
From Stdlib Require Import ZArith Lia.
From S2P Require Import Prelude GoString.

Open Scope Z_scope.

(** ** Tokens *)

Record NamedToken := {
  nt_ID : string;
  nt_Name : string;
  nt_Token : string;
  CreatedAtMS : Z;
  RatePerMin : Z;
  BlockMinutes : Z
}.

Definition DefaultRatePerMin : Z := 30.
Definition DefaultBlockMinutes : Z := 15.

Definition EffectiveRatePerMin (t : NamedToken) : Z := if RatePerMin t <=? 0 then DefaultRatePerMin else RatePerMin t.
Definition EffectiveBlockMinutes (t : NamedToken) : Z :=
  if BlockMinutes t <=? 0 then DefaultBlockMinutes else BlockMinutes t.

(** Times are nanoseconds of the Unix epoch; 0 is no block. *)
Record tokenLimit := { hits : list Z; blockedUntil : Z }.

Definition no_limit : tokenLimit := {| hits := []; blockedUntil := 0 |}.

Record NamedStore := {
  path : string;
  agent_tokens : gmap string (list NamedToken);
  limits : gmap string tokenLimit
}.

Definition tokens_of (s : NamedStore) (agentID : string) : list NamedToken := default [] (agent_tokens s !! agentID).

Definition with_agent (s : NamedStore) (agentID : string) (l : list NamedToken) : NamedStore :=
  {| path := path s; agent_tokens := <[agentID := l]> (agent_tokens s); limits := limits s |}.

Definition with_limits (s : NamedStore) (ls : gmap string tokenLimit) : NamedStore :=
  {| path := path s; agent_tokens := agent_tokens s; limits := ls |}.

(** ** The file *)

(** The file at the store's path; [Garbled] is one that does not decode. *)
Inductive file := Missing | Garbled | Holds (m : gmap string (list NamedToken)).

(** [NewNamedStore]; [readable] says whether reading an existing file succeeds,
    and [None] is the error when it does not. *)
Definition NewNamedStore (p : string) (f : file) (readable : bool) : option NamedStore :=
  let empty := {| path := p; agent_tokens := ∅; limits := ∅ |} in
  if bool_decide (p = "") then Some empty
  else match f with
       | Missing => Some empty
       | _ =>
           if negb readable then None
           else match f with
                | Holds m => Some {| path := p; agent_tokens := m; limits := ∅ |}
                | _ => Some empty
                end
       end.

(** [saveLocked]; [written] says whether the atomic write succeeds. The result
    is whether it returned no error, and the file. *)
Definition saveLocked (s : NamedStore) (written : bool) (f : file) : bool * file :=
  if bool_decide (path s = "") then (true, f)
  else if written then (true, Holds (agent_tokens s)) else (false, f).

Lemma tokens_of_with s agentID l : tokens_of (with_agent s agentID l) agentID = l.
Proof. unfold tokens_of. simpl. by rewrite lookup_insert_eq. Qed.

(** ** Changing tokens *)

(** [Create]; [token] and [id] are what the generators return, [None] an error
    of theirs. *)
Definition Create (s : NamedStore) (f : file) (agentID name : string) (token id : option string) (ms : Z) (written : bool)
    : NamedStore * file * option NamedToken :=
  match token, id with
  | Some token, Some id =>
      let nt := {| nt_ID := id; nt_Name := name; nt_Token := token; CreatedAtMS := ms; RatePerMin := 0; BlockMinutes := 0 |} in
      let s' := with_agent s agentID (tokens_of s agentID ++ [nt]) in
      let '(ok, f') := saveLocked s' written f in
      if ok then (s', f', Some nt)
      else let list := tokens_of s' agentID in
           (with_agent s' agentID (take (length list - 1) list), f', None)
  | _, _ => (s, f, None)
  end.

(** The position of the first token with this id. *)
Fixpoint index_of (id : string) (l : list NamedToken) : option nat :=
  match l with
  | [] => None
  | t :: rest => if bool_decide (nt_ID t = id) then Some O else S <$> index_of id rest
  end.

Definition Delete (s : NamedStore) (f : file) (agentID id : string) (written : bool) : NamedStore * file * bool :=
  let list := tokens_of s agentID in
  match index_of id list with
  | None => (s, f, false)
  | Some idx =>
      let s' := with_agent s agentID (take idx list ++ drop (S idx) list) in
      (s', (saveLocked s' written f).2, true)
  end.

Definition with_config (t : NamedToken) (rate block : Z) : NamedToken :=
  {| nt_ID := nt_ID t; nt_Name := nt_Name t; nt_Token := nt_Token t; CreatedAtMS := CreatedAtMS t;
     RatePerMin := rate; BlockMinutes := block |}.

Definition Update (s : NamedStore) (f : file) (agentID id : string) (rate block : Z) (written : bool)
    : NamedStore * file * bool :=
  let list := tokens_of s agentID in
  match index_of id list with
  | None => (s, f, false)
  | Some idx =>
      let s' := with_agent s agentID (alter (λ t, with_config t rate block) idx list) in
      (s', (saveLocked s' written f).2, true)
  end.

(** ** Using tokens *)

Section range.
Context `{GoRange}.

(** [ValidateWithID]: the first match in the order the map is visited. *)
Definition ValidateWithID (s : NamedStore) (token : string) : option (string * string) :=
  if bool_decide (token = "") then None
  else head (go_range (agent_tokens s) ≫= λ p,
               omap (λ t, if bool_decide (nt_Token t = token) then Some (p.1, nt_ID t) else None) p.2).

Definition Validate (s : NamedStore) (token : string) : option string := fst <$> ValidateWithID s token.
End range.

(** [tokenLimitConfig] *)
Definition tokenLimitConfig (s : NamedStore) (agentID tokenID : string) : Z * Z :=
  match find_first (λ t, bool_decide (nt_ID t = tokenID)) (tokens_of s agentID) with
  | Some t => (EffectiveRatePerMin t, EffectiveBlockMinutes t)
  | None => (DefaultRatePerMin, DefaultBlockMinutes)
  end.

Fixpoint pruneHits (hits : list Z) (cutoff : Z) : list Z :=
  match hits with
  | h :: rest => if h <=? cutoff then pruneHits rest cutoff else hits
  | [] => []
  end.

(** [now.Add(d).UnixNano()] *)
Definition unix_add (now d : Z) : Z := wrap64 (now + d).

(** What [Allow] does with one token's limit: the answer with the time until the
    block clears. *)
Definition allow_limit (rate blockMin now : Z) (tl : tokenLimit) : tokenLimit * (bool * Z) :=
  if now <? blockedUntil tl then (tl, (false, wrap64 (blockedUntil tl - now)))
  else
    let tl := if negb (blockedUntil tl =? 0) then no_limit else tl in
    let kept := pruneHits (hits tl) (unix_add now (- GoTime.minute)) in
    if rate <=? Z.of_nat (length kept) then
      let until := unix_add now (wrap64 (blockMin * GoTime.minute)) in
      ({| hits := kept; blockedUntil := until |}, (false, wrap64 (until - now)))
    else ({| hits := kept ++ [now]; blockedUntil := 0 |}, (true, 0)).

Definition Allow (s : NamedStore) (agentID tokenID : string) (now : Z) : NamedStore * (bool * Z) :=
  let '(rate, blockMin) := tokenLimitConfig s agentID tokenID in
  let '(tl, out) := allow_limit rate blockMin now (default no_limit (limits s !! tokenID)) in
  (with_limits s (<[tokenID := tl]> (limits s)), out).

(** One id of [ResetBlocks]. *)
Definition reset_one (now : Z) (st : gmap string tokenLimit * Z) (id : string) : gmap string tokenLimit * Z :=
  match st.1 !! id with
  | Some tl => if now <? blockedUntil tl then (<[id := no_limit]> st.1, st.2 + 1) else st
  | None => st
  end.

Definition reset_ids (s : NamedStore) (agentID name : string) : list string :=
  map nt_ID (keep (λ t, bool_decide (name = "") || bool_decide (nt_Name t = name)) (tokens_of s agentID)).

Definition ResetBlocks (s : NamedStore) (agentID name : string) (now : Z) : NamedStore * Z :=
  let '(ls, cleared) := foldl (reset_one now) (limits s, 0) (reset_ids s agentID name) in
  (with_limits s ls, cleared).

Record TokenQuota := {
  q_ID : string;
  q_Name : string;
  q_RatePerMin : Z;
  q_BlockMinutes : Z;
  HitsInWindow : Z;
  Blocked : bool;
  BlockRemaining : Z
}.

(** One token of [Quota]: the limits, pruned, and what is shown of it. *)
Definition quota_one (now : Z) (ls : gmap string tokenLimit) (t : NamedToken) : gmap string tokenLimit * TokenQuota :=
  let q n b r := {| q_ID := nt_ID t; q_Name := nt_Name t; q_RatePerMin := EffectiveRatePerMin t;
                    q_BlockMinutes := EffectiveBlockMinutes t; HitsInWindow := n; Blocked := b; BlockRemaining := r |} in
  match ls !! nt_ID t with
  | None => (ls, q 0 false 0)
  | Some tl =>
      if now <? blockedUntil tl then (ls, q 0 true (wrap64 (blockedUntil tl - now)))
      else let kept := pruneHits (hits tl) (unix_add now (- GoTime.minute)) in
           (<[nt_ID t := {| hits := kept; blockedUntil := blockedUntil tl |}]> ls,
            q (Z.of_nat (length kept)) false 0)
  end.

Fixpoint quota_loop (now : Z) (ls : gmap string tokenLimit) (ts : list NamedToken) : gmap string tokenLimit * list TokenQuota :=
  match ts with
  | [] => (ls, [])
  | t :: rest =>
      let '(ls, q) := quota_one now ls t in
      let '(ls, qs) := quota_loop now ls rest in (ls, q :: qs)
  end.

Definition Quota (s : NamedStore) (agentID : string) (now : Z) : NamedStore * list TokenQuota :=
  let '(ls, qs) := quota_loop now (limits s) (tokens_of s agentID) in (with_limits s ls, qs).

(** ** The store and its file over time *)

Record World := { store : NamedStore; disk : file }.

Inductive op :=
| OCreate (agentID name : string) (token id : option string) (ms : Z) (written : bool)
| ODelete (agentID id : string) (written : bool)
| OUpdate (agentID id : string) (rate block : Z) (written : bool)
| OAllow (agentID tokenID : string) (now : Z)
| OReset (agentID name : string) (now : Z)
| OQuota (agentID : string) (now : Z)
| ORestart (readable : bool).

(** The store the agent loop starts with: an empty one in memory when the file
    cannot be read. *)
Definition started (p : string) (f : file) (readable : bool) : NamedStore :=
  match NewNamedStore p f readable with
  | Some s => s
  | None => default {| path := ""; agent_tokens := ∅; limits := ∅ |} (NewNamedStore "" f readable)
  end.

(** What the limiter is asked, and what it answers. *)
Inductive call :=
| CallAllow (id : string) (rate block now : Z)
| CallReset (ids : list string) (now : Z)
| CallQuota (ts : list NamedToken) (now : Z)
| CallForget
| NoCall.

Inductive answer :=
| Answered (allowed : bool) (retryAfter : Z)
| Cleared (n : Z)
| Shown (qs : list TokenQuota)
| NoAnswer.

(** The path is that of the data directory, [home]. *)
Definition step (home : string) (w : World) (o : op) : World * (call * answer) :=
  let s := store w in
  match o with
  | OCreate agent name token id ms written =>
      let '(s', f', _) := Create s (disk w) agent name token id ms written in
      ({| store := s'; disk := f' |}, (NoCall, NoAnswer))
  | ODelete agent id written =>
      let '(s', f', _) := Delete s (disk w) agent id written in
      ({| store := s'; disk := f' |}, (NoCall, NoAnswer))
  | OUpdate agent id rate block written =>
      let '(s', f', _) := Update s (disk w) agent id rate block written in
      ({| store := s'; disk := f' |}, (NoCall, NoAnswer))
  | OAllow agent id now =>
      let '(rate, block) := tokenLimitConfig s agent id in
      let '(s', (ok, retry)) := Allow s agent id now in
      ({| store := s'; disk := disk w |}, (CallAllow id rate block now, Answered ok retry))
  | OReset agent name now =>
      let '(s', n) := ResetBlocks s agent name now in
      ({| store := s'; disk := disk w |}, (CallReset (reset_ids s agent name) now, Cleared n))
  | OQuota agent now =>
      let '(s', qs) := Quota s agent now in
      ({| store := s'; disk := disk w |}, (CallQuota (tokens_of s agent) now, Shown qs))
  | ORestart readable =>
      ({| store := started home (disk w) readable; disk := disk w |}, (CallForget, NoAnswer))
  end.

Fixpoint run (home : string) (w : World) (ops : list op) : World * list (call * answer) :=
  match ops with
  | [] => (w, [])
  | o :: rest =>
      let '(w, ca) := step home w o in
      let '(w, cas) := run home w rest in (w, ca :: cas)
  end.

(** The first start, without a file. *)
Definition fresh (home : string) : World := {| store := started home Missing true; disk := Missing |}.

(** ** The limiter in terms of the requests it let through *)

(** Every request let through since the last restart or reset, and the end of
    the latest block. *)
Record SpecToken := { sp_log : list Z; sp_until : Z }.

Definition sp_none : SpecToken := {| sp_log := []; sp_until := 0 |}.

(** The requests of the minute up to [now]. *)
Definition recent (now : Z) (sp : SpecToken) : list Z := keep (λ t, now - GoTime.minute <? t) (sp_log sp).

Definition spec_allow (rate block now : Z) (sp : SpecToken) : SpecToken * answer :=
  if now <? sp_until sp then (sp, Answered false (sp_until sp - now))
  else if rate <=? Z.of_nat (length (recent now sp)) then
    ({| sp_log := sp_log sp; sp_until := now + block * GoTime.minute |}, Answered false (block * GoTime.minute))
  else ({| sp_log := sp_log sp ++ [now]; sp_until := sp_until sp |}, Answered true 0).

Definition sp_of (m : gmap string SpecToken) (id : string) : SpecToken := default sp_none (m !! id).

Definition spec_reset (now : Z) (st : gmap string SpecToken * Z) (id : string) : gmap string SpecToken * Z :=
  if now <? sp_until (sp_of st.1 id) then (<[id := sp_none]> st.1, st.2 + 1) else st.

Definition spec_quota (now : Z) (m : gmap string SpecToken) (t : NamedToken) : TokenQuota :=
  let sp := sp_of m (nt_ID t) in
  let blocked := now <? sp_until sp in
  {| q_ID := nt_ID t; q_Name := nt_Name t; q_RatePerMin := EffectiveRatePerMin t;
     q_BlockMinutes := EffectiveBlockMinutes t;
     HitsInWindow := if blocked then 0 else Z.of_nat (length (recent now sp));
     Blocked := blocked; BlockRemaining := if blocked then sp_until sp - now else 0 |}.

Definition spec_step (m : gmap string SpecToken) (c : call) : gmap string SpecToken * answer :=
  match c with
  | CallAllow id rate block now =>
      let '(sp, a) := spec_allow rate block now (sp_of m id) in (<[id := sp]> m, a)
  | CallReset ids now => let '(m, n) := foldl (spec_reset now) (m, 0) ids in (m, Cleared n)
  | CallQuota ts now => (m, Shown (map (spec_quota now m) ts))
  | CallForget => (∅, NoAnswer)
  | NoCall => (m, NoAnswer)
  end.

Fixpoint spec_run (m : gmap string SpecToken) (cs : list call) : gmap string SpecToken * list answer :=
  match cs with
  | [] => (m, [])
  | c :: rest =>
      let '(m, a) := spec_step m c in
      let '(m, l) := spec_run m rest in (m, a :: l)
  end.

(** The clock does not go back, and is in the range where 64-bit nanoseconds and
    blocks of up to [2 ^ 62] nanoseconds (146 years) do not overflow. *)
Definition max_block : Z := 2 ^ 62 / GoTime.minute.

Definition op_time (o : op) : option Z :=
  match o with OAllow _ _ now | OReset _ _ now | OQuota _ now => Some now | _ => None end.

Fixpoint timed (clock : Z) (ops : list op) : Prop :=
  match ops with
  | [] => True
  | o :: rest =>
      match op_time o with
      | Some now => clock ≤ now < 2 ^ 62 ∧ timed now rest
      | None => timed clock rest
      end ∧ match o with OUpdate _ _ _ block _ => block ≤ max_block | _ => True end
  end.

(** ** The limiter implements the limit *)

Lemma pruneHits_keep hits c : StronglySorted Z.le hits → pruneHits hits c = keep (λ t, c <? t) hits.
Proof.
  induction 1 as [|h rest Hs IH Hh]; [done|]. cbn [pruneHits keep].
  destruct (Z.leb_spec h c), (Z.ltb_spec c h); try lia; [done|].
  f_equal. clear IH Hs. rewrite Forall_forall in Hh. induction rest as [|x rest IH]; [done|]. simpl.
  pose proof (Hh x ltac:(left)). destruct (Z.ltb_spec c x); [|lia]. f_equal. apply IH. intros y Hy. apply Hh. by right.
Qed.

Lemma pruneHits_split hits c : ∃ d, hits = d ++ pruneHits hits c ∧ ∀ x, x ∈ d → x ≤ c.
Proof.
  induction hits as [|h hits (d & IH & Hd)]; simpl.
  { exists []. split; [done|]. by intros x Hx%not_elem_of_nil. }
  case_if.
  - zb. exists (h :: d). split; [simpl; congruence|]. intros x [->|Hx]%elem_of_cons; [lia|by apply Hd].
  - exists []. split; [done|]. intros x Hx. by apply not_elem_of_nil in Hx.
Qed.

Lemma pruneHits_nil hits c : (∀ x, x ∈ hits → x ≤ c) ↔ pruneHits hits c = [].
Proof.
  induction hits as [|h rest IH]; simpl; [split; [done|by intros _ x Hx%not_elem_of_nil]|].
  setoid_rewrite elem_of_cons. destruct (Z.leb_spec h c).
  - rewrite <- IH. split; [by auto|]. intros Hr x [->|Hx]; [done|by apply Hr].
  - split; [|done]. intros Hall. specialize (Hall h (or_introl eq_refl)). lia.
Qed.

Lemma keep_none {A} (p : A → bool) l : (∀ x, x ∈ l → p x = false) → keep p l = [].
Proof.
  induction l as [|x l IH]; [done|]. intros H. simpl. rewrite (H x) by left. apply IH. intros y Hy. apply H. by right.
Qed.

Lemma unix_add_small now d : 0 ≤ now < 2 ^ 62 → - GoTime.minute ≤ d ≤ 2 ^ 62 → unix_add now d = now + d.
Proof. intros Hn Hd. unfold unix_add. apply wrap64_id. unfold in_int64, min_int64, max_int64, GoTime.minute, GoTime.second, GoTime.millisecond in *. lia. Qed.

(** The limit kept for a token, against what it was asked before [clock]. *)
Record agrees (clock : Z) (tl : tokenLimit) (sp : SpecToken) : Prop := {
  ag_sorted : StronglySorted Z.le (sp_log sp);
  ag_past : ∀ t, t ∈ sp_log sp → t ≤ clock;
  ag_state :
    blockedUntil tl = 0 ∧ sp_until sp ≤ clock ∧
      (∃ old, sp_log sp = old ++ hits tl ∧ ∀ t, t ∈ old → t ≤ clock - GoTime.minute) ∨
    blockedUntil tl ≠ 0 ∧ blockedUntil tl = sp_until sp ∧ sp_until sp < 2 ^ 63 ∧
      (∀ t, t ∈ sp_log sp ∨ t ∈ hits tl → t + GoTime.minute ≤ sp_until sp)
}.

Lemma agrees_later clock clock' tl sp : clock ≤ clock' → agrees clock tl sp → agrees clock' tl sp.
Proof.
  intros Hle [Hs Hp Hst]. split; [done|intros t Ht; specialize (Hp t Ht); lia|].
  destruct Hst as [(H1 & H2 & old & H3 & H4)|Hst]; [left|by right]. split_and!; [done|lia|].
  exists old. split; [done|]. intros t Ht. specialize (H4 t Ht). lia.
Qed.

Lemma agrees_none clock : 0 ≤ clock → agrees clock no_limit sp_none.
Proof.
  intros Hc. split; [constructor|by intros t Ht%not_elem_of_nil|]. left. split_and!; [done|done|].
  exists []. split; [done|]. by intros t Ht%not_elem_of_nil.
Qed.

(** When a token is not blocked, its hits of the last minute are its requests of
    the last minute. *)
Lemma agrees_recent clock now tl sp :
  agrees clock tl sp → clock ≤ now → blockedUntil tl ≤ now →
  pruneHits (hits (if negb (blockedUntil tl =? 0) then no_limit else tl)) (now - GoTime.minute) = recent now sp ∧
  ∃ old, sp_log sp = old ++ recent now sp ∧ ∀ t, t ∈ old → t ≤ now - GoTime.minute.
Proof.
  intros [Hs Hp Hst] Hnow Hb. unfold recent. destruct Hst as [(H1 & H2 & old & H3 & H4)|(H1 & H2 & H3 & H4)].
  - rewrite H1. simpl. rewrite H3 in Hs |- *. apply StronglySorted_app in Hs as (_ & _ & Hs). rewrite keep_app.
    rewrite (keep_none _ old), app_nil_l by (intros t Ht; specialize (H4 t Ht); apply Z.ltb_ge; lia).
    rewrite <- pruneHits_keep by done. split; [done|].
    destruct (pruneHits_split (hits tl) (now - GoTime.minute)) as (d & Hd & Hle). exists (old ++ d).
    split; [rewrite <- app_assoc; congruence|]. intros t [Ht|Ht]%elem_of_app; [specialize (H4 t Ht); lia|by apply Hle].
  - rewrite (proj2 (Z.eqb_neq _ _) H1). simpl.
    assert (Hall : ∀ t, t ∈ sp_log sp → t ≤ now - GoTime.minute).
    { intros t Ht. specialize (H4 t (or_introl Ht)). lia. }
    rewrite keep_none by (intros t Ht; specialize (Hall t Ht); apply Z.ltb_ge; lia).
    split; [done|]. exists (sp_log sp). by rewrite app_nil_r.
Qed.

Lemma allow_agrees clock rate block now tl sp :
  agrees clock tl sp → clock ≤ now < 2 ^ 62 → 0 ≤ now → 1 ≤ block ≤ max_block →
  let '(tl', (ok, retry)) := allow_limit rate block now tl in
  let '(sp', a) := spec_allow rate block now sp in
  agrees now tl' sp' ∧ a = Answered ok retry.
Proof.
  intros Ha Hnow H0 Hblock. pose proof (ag_past _ _ _ Ha) as Hpast.
  assert (Hm : GoTime.minute = 60000000000) by reflexivity.
  assert (Hbm : GoTime.minute ≤ block * GoTime.minute ≤ 2 ^ 62).
  { unfold max_block in Hblock. rewrite Hm in *. split; [lia|].
    pose proof (Z.mul_div_le (2 ^ 62) 60000000000 ltac:(lia)). lia. }
  unfold allow_limit, spec_allow. cbv zeta.
  assert (Hu : (now <? blockedUntil tl) = (now <? sp_until sp)).
  { destruct (ag_state _ _ _ Ha) as [(-> & Hle & _)|(_ & -> & _)]; [|done].
    rewrite (proj2 (Z.ltb_ge _ _)), (proj2 (Z.ltb_ge _ _)) by lia. done. }
  rewrite <- Hu. destruct (Z.ltb_spec now (blockedUntil tl)) as [Hlt|Hge].
  - split; [by eapply agrees_later; [|exact Ha]; lia|].
    destruct (ag_state _ _ _ Ha) as [(E & _)|(_ & E & Hb & _)]; [lia|]. rewrite E in Hlt |- *.
    f_equal. rewrite wrap64_id; [done|]. unfold in_int64, min_int64, max_int64. lia.
  - rewrite (unix_add_small now (- GoTime.minute)) by lia. rewrite Z.add_opp_r.
    destruct (agrees_recent clock now tl sp Ha ltac:(lia) Hge) as (-> & old & Hlog & Hold).
    destruct (Z.leb_spec rate (Z.of_nat (length (recent now sp)))) as [Hfull|Hroom].
    + rewrite (wrap64_id (block * GoTime.minute)) by (unfold in_int64, min_int64, max_int64; lia).
      rewrite unix_add_small by lia. rewrite wrap64_id by (unfold in_int64, min_int64, max_int64; lia).
      split; [|f_equal; lia]. split; [apply Ha|intros t Ht; specialize (Hpast t Ht); simpl; lia|].
      right. simpl. split_and!; [lia|done|lia|]. intros t Ht.
      assert (t ≤ clock); [|lia]. destruct Ht as [Ht|Ht]; apply Hpast; [done|]. rewrite Hlog. apply elem_of_app. by right.
    + split; [|done]. split; simpl.
      * apply StronglySorted_app. split_and!; [|apply Ha|repeat constructor].
        intros x y Hx ->%list_elem_of_singleton. specialize (Hpast x Hx). lia.
      * intros t [Ht| ->%list_elem_of_singleton]%elem_of_app; [specialize (Hpast t Ht)|]; lia.
      * left. split_and!; [done| |].
        { destruct (ag_state _ _ _ Ha) as [(_ & E & _)|(_ & E & _)]; lia. }
        exists old. split; [|done]. rewrite Hlog at 1. by rewrite app_assoc.
Qed.

(** The limits of the store, against what was asked before [clock]. *)
Definition limits_agree (clock : Z) (ls : gmap string tokenLimit) (m : gmap string SpecToken) : Prop :=
  ∀ id, agrees clock (default no_limit (ls !! id)) (sp_of m id).

Lemma limits_agree_insert clock ls m id tl sp :
  limits_agree clock ls m → agrees clock tl sp → limits_agree clock (<[id := tl]> ls) (<[id := sp]> m).
Proof.
  intros Hl Ha i. unfold sp_of. destruct (decide (i = id)) as [->|Hne].
  - by rewrite !lookup_insert_eq.
  - rewrite !lookup_insert_ne by congruence. apply Hl.
Qed.

Lemma limits_agree_later clock clock' ls m : clock ≤ clock' → limits_agree clock ls m → limits_agree clock' ls m.
Proof. intros Hle Hl id. by eapply agrees_later. Qed.

Lemma blocked_same now tl sp : 0 ≤ now → agrees now tl sp → (now <? blockedUntil tl) = (now <? sp_until sp).
Proof.
  intros H0 Ha. destruct (ag_state _ _ _ Ha) as [(-> & Hle & _)|(_ & -> & _)]; [|done].
  rewrite (proj2 (Z.ltb_ge _ _)), (proj2 (Z.ltb_ge _ _)) by lia. done.
Qed.

Lemma blocked_remaining now tl sp :
  0 ≤ now → agrees now tl sp → now < blockedUntil tl → wrap64 (blockedUntil tl - now) = sp_until sp - now.
Proof.
  intros H0 Ha Hb. destruct (ag_state _ _ _ Ha) as [(E & _)|(_ & E & Hlt & _)]; [lia|]. rewrite E in Hb |- *.
  apply wrap64_id. unfold in_int64, min_int64, max_int64. lia.
Qed.

Lemma reset_agrees now ids ls m n :
  0 ≤ now → limits_agree now ls m →
  let '(ls', n') := foldl (reset_one now) (ls, n) ids in
  let '(m', k) := foldl (spec_reset now) (m, n) ids in limits_agree now ls' m' ∧ n' = k.
Proof.
  intros H0. revert ls m n. induction ids as [|id ids IH]; intros ls m n Hl; [done|]. simpl.
  unfold reset_one at 2, spec_reset at 2. cbn [fst snd]. rewrite <- (blocked_same now _ _ H0 (Hl id)).
  destruct (ls !! id) as [tl|] eqn:Hid; simpl.
  - case_if; [|by apply IH]. apply IH, limits_agree_insert; [done|by apply agrees_none].
  - rewrite (proj2 (Z.ltb_ge now 0)) by done. by apply IH.
Qed.

Lemma quota_one_agrees now ls m t :
  0 ≤ now < 2 ^ 62 → limits_agree now ls m →
  limits_agree now (quota_one now ls t).1 m ∧ (quota_one now ls t).2 = spec_quota now m t.
Proof.
  intros H0 Hl. pose proof (Hl (nt_ID t)) as Ha. unfold quota_one, spec_quota. cbv zeta.
  rewrite <- (blocked_same now _ _ ltac:(lia) Ha). rewrite unix_add_small by (unfold GoTime.minute, GoTime.second, GoTime.millisecond; lia).
  rewrite Z.add_opp_r. destruct (ls !! nt_ID t) as [tl|] eqn:Hid; simpl in *.
  - destruct (Z.ltb_spec now (blockedUntil tl)) as [Hb|Hb]; [split; [done|]; simpl; by rewrite (blocked_remaining now tl _ ltac:(lia) Ha Hb)|].
    destruct (agrees_recent now now tl _ Ha ltac:(lia) Hb) as (Hr & old & Hlog & Hold). simpl. split.
    + intros id. destruct (decide (id = nt_ID t)) as [->|Hne]; [|by rewrite lookup_insert_ne by congruence].
      rewrite lookup_insert_eq. simpl. destruct Ha as [Hs Hp Hst]. split; [done..|]. simpl.
      destruct Hst as [(E & Hu & _)|(E & Hu & Hlt & Hall)].
      * left. split_and!; [done..|]. rewrite E in Hr. simpl in Hr. rewrite Hr. by exists old.
      * right. split_and!; [done..|]. intros x [Hx|Hx]; apply Hall; [by left|right].
        destruct (pruneHits_split (hits tl) (now - GoTime.minute)) as (d & -> & _). apply elem_of_app. by right.
    + f_equal. f_equal. f_equal. destruct Ha as [_ _ [(E & _)|(E & Hu & _ & Hall)]]; [by rewrite E in Hr|].
      rewrite <- Hr, (proj2 (Z.eqb_neq _ _) E). simpl.
      rewrite (proj1 (pruneHits_nil _ _)); [done|]. intros x Hx. specialize (Hall x (or_intror Hx)). lia.
  - rewrite (proj2 (Z.ltb_ge now 0)) by lia. split; [done|]. f_equal.
    destruct (agrees_recent now now no_limit _ Ha ltac:(lia)) as (Hr & _); [simpl; lia|]. simpl in Hr. by rewrite <- Hr.
Qed.

Lemma quota_loop_agrees now ls m ts :
  0 ≤ now < 2 ^ 62 → limits_agree now ls m →
  limits_agree now (quota_loop now ls ts).1 m ∧ (quota_loop now ls ts).2 = map (spec_quota now m) ts.
Proof.
  intros H0. revert ls. induction ts as [|t ts IH]; intros ls Hl; [done|]. cbn [quota_loop map].
  destruct (quota_one_agrees now ls m t H0 Hl) as [H1 H2]. destruct (quota_one now ls t) as [ls1 q]. simpl in *.
  destruct (IH ls1 H1) as [H3 H4]. destruct (quota_loop now ls1 ts) as [ls2 qs]. simpl in *. split; [done|congruence].
Qed.

(** Using the limiter changes nothing but its limits. *)
Ltac limiter_op :=
  first
    [ destruct (tokenLimitConfig _ _ _); unfold Allow; destruct (tokenLimitConfig _ _ _);
      destruct (allow_limit _ _ _ _) as [? [? ?]]; done
    | unfold ResetBlocks; destruct (foldl _ _ _); done
    | unfold Quota; destruct (quota_loop _ _ _); done ].

(** ** What holds of every token *)

Definition all_tokens (P : NamedToken → Prop) (m : gmap string (list NamedToken)) : Prop :=
  ∀ agent ts t, m !! agent = Some ts → t ∈ ts → P t.

Definition on_disk (P : NamedToken → Prop) (f : file) : Prop :=
  match f with Holds m => all_tokens P m | _ => True end.

Section all_tokens.
Context (P : NamedToken → Prop).

Lemma all_tokens_of s agent t : all_tokens P (agent_tokens s) → t ∈ tokens_of s agent → P t.
Proof.
  unfold tokens_of. intros Hb. destruct (agent_tokens s !! agent) as [ts|] eqn:Ht; simpl; [by apply (Hb agent)|].
  by intros ?%not_elem_of_nil.
Qed.

Lemma all_tokens_with s agent l :
  all_tokens P (agent_tokens s) → (∀ t, t ∈ l → P t) → all_tokens P (agent_tokens (with_agent s agent l)).
Proof. intros Hm Hl a ts t. simpl. rewrite lookup_insert_Some. intros [[<- <-]|[_ Ha]]; [apply Hl|by apply (Hm a)]. Qed.

Lemma saveLocked_all s written f :
  all_tokens P (agent_tokens s) → on_disk P f → on_disk P (saveLocked s written f).2.
Proof. intros Hs Hf. unfold saveLocked. case_bool_decide; [done|]. by destruct written. Qed.

Lemma started_all p f readable : on_disk P f → all_tokens P (agent_tokens (started p f readable)).
Proof.
  intros Hf. assert (H0 : all_tokens P ∅) by by intros a ts t Ha; rewrite lookup_empty in Ha.
  unfold started, NewNamedStore. repeat case_bool_decide; simpl; try done. by destruct f, readable.
Qed.

Lemma elem_of_take_drop {A} (l : list A) i x : x ∈ take i l ++ drop (S i) l → x ∈ l.
Proof.
  intros [Hx|Hx]%elem_of_app; (eapply sublist_subseteq; [|exact Hx]); [apply sublist_take|apply sublist_drop].
Qed.

Lemma Create_all s f agent name token id ms written :
  all_tokens P (agent_tokens s) → on_disk P f →
  P {| nt_ID := id; nt_Name := name; nt_Token := token; CreatedAtMS := ms; RatePerMin := 0; BlockMinutes := 0 |} →
  let '(s', f', _) := Create s f agent name (Some token) (Some id) ms written in
  all_tokens P (agent_tokens s') ∧ on_disk P f'.
Proof.
  intros Hs Hf Hnt. unfold Create. cbv zeta. set (nt := {| nt_ID := id |}).
  assert (Hl : ∀ t, t ∈ tokens_of s agent ++ [nt] → P t).
  { intros t [Ht| ->%list_elem_of_singleton]%elem_of_app; [by eapply all_tokens_of|done]. }
  pose proof (all_tokens_with s agent _ Hs Hl) as Hs'.
  pose proof (saveLocked_all _ written f Hs' Hf) as Hsv.
  destruct (saveLocked _ _ _) as [ok f']. simpl in Hsv. destruct ok; (split; [|done]); [done|].
  apply all_tokens_with; [done|]. intros t (i & Ht & _)%elem_of_take.
  apply list_elem_of_lookup_2 in Ht. by eapply all_tokens_of.
Qed.

Lemma step_all home w o :
  all_tokens P (agent_tokens (store w)) → on_disk P (disk w) →
  match o with
  | OCreate _ name (Some token) (Some id) ms _ =>
      P {| nt_ID := id; nt_Name := name; nt_Token := token; CreatedAtMS := ms; RatePerMin := 0; BlockMinutes := 0 |}
  | OUpdate _ _ rate block _ => ∀ t, P t → P (with_config t rate block)
  | _ => True
  end →
  all_tokens P (agent_tokens (store (step home w o).1)) ∧ on_disk P (disk (step home w o).1).
Proof.
  intros Hs Hd Ho.
  destruct o as [agent name token id ms written|agent id written|agent id rate block written|agent id now|agent name now|agent now|readable];
    cbn [step].
  - destruct token as [token|], id as [id|]; try done.
    pose proof (Create_all (store w) (disk w) agent name token id ms written Hs Hd Ho) as H.
    by destruct (Create _ _ _ _ _ _ _ _) as [[s' f'] out].
  - unfold Delete. destruct (index_of _ _) as [idx|]; [|done]. cbv zeta. cbn [fst store disk].
    assert (Hs' : all_tokens P (agent_tokens (with_agent (store w) agent
      (take idx (tokens_of (store w) agent) ++ drop (S idx) (tokens_of (store w) agent))))).
    { apply all_tokens_with; [done|]. intros t Ht%elem_of_take_drop. by eapply all_tokens_of. }
    split; [done|by apply saveLocked_all].
  - unfold Update. destruct (index_of _ _) as [idx|]; [|done]. cbv zeta. cbn [fst store disk].
    assert (Hs' : all_tokens P (agent_tokens (with_agent (store w) agent
      (alter (λ t, with_config t rate block) idx (tokens_of (store w) agent))))).
    { apply all_tokens_with; [done|]. intros t [i Ht]%list_elem_of_lookup.
      destruct (decide (idx = i)) as [->|Hne].
      - rewrite list_lookup_alter_eq in Ht. apply fmap_Some in Ht as (t' & Ht & ->). apply Ho.
        apply list_elem_of_lookup_2 in Ht. by eapply all_tokens_of.
      - rewrite list_lookup_alter_ne in Ht by done. apply list_elem_of_lookup_2 in Ht. by eapply all_tokens_of. }
    split; [done|by apply saveLocked_all].
  - limiter_op.
  - limiter_op.
  - limiter_op.
  - split; [|done]. by apply started_all.
Qed.
End all_tokens.

(** Blocks do not overflow. *)
Definition block_ok (t : NamedToken) : Prop := BlockMinutes t ≤ max_block.

Lemma tokenLimitConfig_range s agent id :
  all_tokens block_ok (agent_tokens s) → 1 ≤ (tokenLimitConfig s agent id).2 ≤ max_block.
Proof.
  intros Hb. unfold tokenLimitConfig. destruct (find_first _ _) as [t|] eqn:Hf; [|by vm_compute].
  apply find_first_Some in Hf as (l1 & l2 & Hl & _). assert (t ∈ tokens_of s agent) as Ht.
  { rewrite Hl. apply elem_of_app. right. left. }
  apply (all_tokens_of block_ok) in Ht; [|done]. unfold block_ok in Ht. unfold EffectiveBlockMinutes. simpl.
  case_if; zb; [by vm_compute|lia].
Qed.

(** ** Every answer of the limiter *)

Record world_ok (clock : Z) (w : World) (m : gmap string SpecToken) : Prop := {
  wo_memory : all_tokens block_ok (agent_tokens (store w));
  wo_disk : on_disk block_ok (disk w);
  wo_limits : limits_agree clock (limits (store w)) m
}.

Lemma step_limits home w o : op_time o = None → (∀ readable, o ≠ ORestart readable) →
  limits (store (step home w o).1) = limits (store w) ∧ (step home w o).2 = (NoCall, NoAnswer).
Proof.
  intros Ho Hr. destruct o as [agent name token id ms written|agent id written|agent id rate block written| | | |r]; try done;
    cbn [step]; [..|by destruct (Hr r)].
  - unfold Create. destruct token, id; try done. by destruct (saveLocked _ _ _) as [[] f'].
  - unfold Delete. by destruct (index_of _ _).
  - unfold Update. by destruct (index_of _ _).
Qed.

Lemma Allow_agrees clock s m agent id now :
  0 ≤ clock → clock ≤ now < 2 ^ 62 → all_tokens block_ok (agent_tokens s) → limits_agree clock (limits s) m →
  let '(rate, block) := tokenLimitConfig s agent id in
  let '(s', (ok, retry)) := Allow s agent id now in
  let '(m', a) := spec_step m (CallAllow id rate block now) in
  limits_agree now (limits s') m' ∧ a = Answered ok retry ∧ agent_tokens s' = agent_tokens s.
Proof.
  intros H0 Hnow Hb Hl. pose proof (tokenLimitConfig_range s agent id Hb) as Hr. unfold Allow. cbn [spec_step].
  destruct (tokenLimitConfig s agent id) as [rate block]. simpl in Hr.
  pose proof (allow_agrees clock rate block now _ _ (Hl id) Hnow ltac:(lia) Hr) as Ha.
  destruct (allow_limit _ _ _ _) as [tl [ok retry]]. destruct (spec_allow _ _ _ _) as [sp a]. destruct Ha as [Ha ->].
  split_and!; [|done..]. simpl. apply limits_agree_insert; [|done]. eapply limits_agree_later; [|exact Hl]. lia.
Qed.

Lemma step_refines home clock w m o :
  0 ≤ clock → world_ok clock w m → timed clock [o] →
  let '(w', (c, a)) := step home w o in
  world_ok (default clock (op_time o)) w' (spec_step m c).1 ∧ a = (spec_step m c).2.
Proof.
  intros H0 [Hm Hd Hl] [Ht Hblock].
  assert (Hall : match o with OCreate _ _ _ _ _ _ => True | OUpdate _ _ _ block _ => block ≤ max_block | _ => True end) by by destruct o.
  assert (Ho : all_tokens block_ok (agent_tokens (store (step home w o).1)) ∧ on_disk block_ok (disk (step home w o).1)).
  { apply step_all; [done..|]. destruct o as [? ? [] [] ? ?| | | | | |]; done. }
  destruct (op_time o) as [now|] eqn:Hop.
  - destruct Ht as [Hnow _]. simpl.
    assert (Hl' : limits_agree now (limits (store w)) m) by (eapply limits_agree_later; [|exact Hl]; lia).
    destruct o as [| | |agent id ?|agent name ?|agent ?|]; simplify_eq/=.
    + pose proof (Allow_agrees clock (store w) m agent id now H0 Hnow Hm Hl) as Ha.
      destruct (tokenLimitConfig (store w) agent id) as [rate block]. destruct (Allow _ _ _ _) as [s' [ok retry]].
      destruct (spec_step _ _) as [m' a]. destruct Ha as (Ha & -> & _). by split; [split; [apply Ho..|]|].
    + pose proof (reset_agrees now (reset_ids (store w) agent name) (limits (store w)) m 0 ltac:(lia) Hl') as Hr.
      unfold ResetBlocks in *.
      destruct (foldl (reset_one now) _ _) as [ls' n']. cbn [spec_step fst snd] in *. destruct (foldl (spec_reset now) _ _) as [m' k].
      destruct Hr as [Hr ->]. simpl in *. by split; [split; [apply Ho..|]|].
    + destruct (quota_loop_agrees now (limits (store w)) m (tokens_of (store w) agent) ltac:(lia) Hl')
        as [H1 H2]. unfold Quota in *.
      destruct (quota_loop _ _ _) as [ls' qs]. simpl in *. by split; [split; [apply Ho..|]|rewrite H2].
  - assert (Hr : (∃ readable, o = ORestart readable) ∨ ∀ readable, o ≠ ORestart readable)
      by (destruct o; eauto; by right).
    simpl. destruct Hr as [[readable ->]|Hr].
    + assert (Hls : limits (started home (disk w) readable) = ∅).
      { unfold started, NewNamedStore. repeat case_bool_decide; try done; by destruct (disk w), readable. }
      simpl in *. split; [|done]. split; [apply Ho..|]. simpl. rewrite Hls. intros id.
      unfold sp_of. rewrite !lookup_empty. by apply agrees_none.
    + destruct (step_limits home w o Hop Hr) as [Hlim Hca].
      destruct (step home w o) as [w' ca]. simpl in *. subst ca. simpl. split; [|done]. split; [apply Ho..|]. by rewrite Hlim.
Qed.

Lemma run_refines home clock w m ops :
  0 ≤ clock → world_ok clock w m → timed clock ops →
  map snd (run home w ops).2 = (spec_run m (map fst (run home w ops).2)).2.
Proof.
  revert clock w m. induction ops as [|o ops IH]; intros clock w m H0 Hw Ht; [done|]. cbn [run].
  assert (Ht1 : timed clock [o]) by (destruct Ht as [Ht ?]; split; [|done]; by destruct (op_time o); [destruct Ht|]).
  pose proof (step_refines home clock w m o H0 Hw Ht1) as Hs. destruct (step home w o) as [w' [c a]].
  destruct Hs as [Hw' ->]. specialize (IH (default clock (op_time o)) w' (spec_step m c).1).
  destruct (run home w' ops) as [w2 cas]. cbn [snd map fst spec_run].
  destruct (spec_step m c) as [m' a']. simpl in *. destruct (spec_run m' (map fst cas)) as [m2 l]. simpl. f_equal.
  apply IH; [|done|].
  - destruct (op_time o); simpl; [|done]. destruct Ht1 as [[? _] _]. lia.
  - destruct Ht as [Ht _]. by destruct (op_time o); [destruct Ht|].
Qed.

Lemma fresh_ok home : world_ok 0 (fresh home) ∅.
Proof.
  split; [by apply started_all|done|]. intros id. unfold fresh, started, NewNamedStore, sp_of. simpl.
  case_bool_decide; simpl; rewrite !lookup_empty; by apply agrees_none.
Qed.


(** ** How many requests get through *)

(** The times at which the limiter let a token's requests through. *)
Definition accepted_time (id : string) (ca : call * answer) : option Z :=
  match ca with
  | (CallAllow id' _ _ now, Answered true _) => if bool_decide (id' = id) then Some now else None
  | _ => None
  end.

Definition accepted (id : string) (trace : list (call * answer)) : list Z := omap (accepted_time id) trace.

Lemma accepted_cons id ca trace : accepted id (ca :: trace) = accepted id [ca] ++ accepted id trace.
Proof. unfold accepted. simpl. by destruct (accepted_time id ca). Qed.

(** The call can make the limiter forget this token. *)
Definition clears (id : string) (c : call) : Prop :=
  match c with CallForget => True | CallReset ids _ => id ∈ ids | _ => False end.

(** The answers of a trace are those of the plain definition. *)
Definition follows (m : gmap string SpecToken) (trace : list (call * answer)) : Prop :=
  map snd trace = (spec_run m (map fst trace)).2.

Lemma follows_app m t1 t2 :
  follows m (t1 ++ t2) → follows m t1 ∧ follows (spec_run m (map fst t1)).1 t2.
Proof.
  unfold follows. revert m. induction t1 as [|[c a] t1 IH]; intros m; [done|]. simpl.
  destruct (spec_step m c) as [m1 a1]. specialize (IH m1).
  destruct (spec_run m1 (map fst t1)) as [m2 l], (spec_run m1 (map fst (t1 ++ t2))) as [m3 l']. simpl in *.
  intros [= -> H]. destruct (IH H) as [-> ?]. done.
Qed.

Lemma spec_reset_other now ids m n id : id ∉ ids → sp_of (foldl (spec_reset now) (m, n) ids).1 id = sp_of m id.
Proof.
  revert m n. induction ids as [|x ids IH]; intros m n Hid; [done|]. apply not_elem_of_cons in Hid as [Hx Hid].
  simpl. unfold spec_reset at 2. cbn [fst snd]. case_if; [|by apply IH]. rewrite IH by done. unfold sp_of.
  by rewrite lookup_insert_ne by congruence.
Qed.

Lemma spec_step_log m c a id :
  (spec_step m c).2 = a → ¬ clears id c →
  sp_log (sp_of (spec_step m c).1 id) = sp_log (sp_of m id) ++ accepted id [(c, a)].
Proof.
  intros <- Hc. destruct c as [id' rate block now|ids now|ts now| |]; simpl in *; try by rewrite app_nil_r.
  - destruct (spec_allow rate block now (sp_of m id')) as [sp a] eqn:Hs. simpl. unfold sp_of at 1.
    destruct (decide (id' = id)) as [->|Hne].
    + rewrite lookup_insert_eq. simpl. unfold spec_allow in Hs. rewrite bool_decide_true by done.
      destruct (now <? _); [injection Hs as <- <-; by rewrite app_nil_r|].
      destruct (rate <=? _); injection Hs as <- <-; simpl; [by rewrite app_nil_r|done].
    + rewrite lookup_insert_ne by done. rewrite bool_decide_false by done.
      destruct a as [[]| | |]; by rewrite app_nil_r.
  - pose proof (spec_reset_other now ids m 0 id Hc) as Hr. destruct (foldl _ _ _) as [m' n]. simpl in *.
    by rewrite Hr, app_nil_r.
Qed.

Lemma spec_run_log m trace id :
  follows m trace → (∀ ca, ca ∈ trace → ¬ clears id ca.1) →
  sp_log (sp_of (spec_run m (map fst trace)).1 id) = sp_log (sp_of m id) ++ accepted id trace.
Proof.
  unfold follows. revert m. induction trace as [|[c a] trace IH]; intros m; [by rewrite app_nil_r|].
  rewrite accepted_cons. cbn [map spec_run fst snd].
  destruct (spec_step m c) as [m1 a1] eqn:Hs. specialize (IH m1).
  destruct (spec_run m1 (map fst trace)) as [m2 l]. cbn [fst snd] in *. intros [= -> H] Hc.
  rewrite IH by (done || by intros ca Hca; apply Hc; right).
  pose proof (spec_step_log m c a1 id) as Hl. rewrite Hs in Hl. cbn [fst snd] in Hl. rewrite Hl by (done || apply (Hc (c, a1)); left).
  by rewrite app_assoc.
Qed.

Lemma keep_app_length {A} (p : A → bool) l1 l2 : (length (keep p l2) ≤ length (keep p (l1 ++ l2)))%nat.
Proof. rewrite keep_app, length_app. lia. Qed.

(** Requests are bounded. When the limiter lets a request of a token through,
    it has let fewer than the token's rate through in the minute before, whatever
    was done to the store, as long as the limiter was not made to forget the token
    by a restart or a reset in that time. *)
Theorem requests_bounded home ops pre mid post id rate block now retry
    (Ht : timed 0 ops)
    (Hrun : (run home (fresh home) ops).2 = pre ++ mid ++ (CallAllow id rate block now, Answered true retry) :: post)
    (Hmid : ∀ ca, ca ∈ mid → ¬ clears id ca.1) :
  Z.of_nat (length (keep (λ t, now - GoTime.minute <? t) (accepted id mid))) < rate.
Proof.
  pose proof (run_refines home 0 (fresh home) ∅ ops ltac:(done) (fresh_ok home) Ht) as Hf.
  change (follows ∅ (run home (fresh home) ops).2) in Hf. rewrite Hrun in Hf.
  apply follows_app in Hf as [_ Hf]. set (m1 := (spec_run ∅ (map fst pre)).1) in *. clearbody m1.
  apply follows_app in Hf as [Hm Hf]. pose proof (spec_run_log m1 mid id Hm Hmid) as Hlog.
  set (m2 := (spec_run m1 (map fst mid)).1) in *. clearbody m2. unfold follows in Hf. simpl in Hf.
  destruct (spec_allow rate block now (sp_of m2 id)) as [sp a] eqn:Hs.
  destruct (spec_run _ (map fst post)) as [m3 l]. simpl in Hf. injection Hf as <- _. unfold spec_allow in Hs.
  destruct (now <? _); [done|]. destruct (Z.leb_spec rate (Z.of_nat (length (recent now (sp_of m2 id))))) as [|Hr]; [done|].
  unfold recent in Hr. rewrite Hlog in Hr.
  pose proof (keep_app_length (λ t, now - GoTime.minute <? t) (sp_log (sp_of m1 id)) (accepted id mid)). lia.
Qed.

(** ** Which tokens are accepted *)

(** The secrets minted by these operations. *)
Definition minted (ops : list op) : list string :=
  omap (λ o, match o with OCreate _ _ (Some token) (Some _) _ _ => Some token | _ => None end) ops.

Section secret.
Context (tok : string).

Definition is_tok (t : NamedToken) : bool := bool_decide (nt_Token t = tok).

(** How many tokens of an agent have this secret. *)
Definition occ (m : gmap string (list NamedToken)) (agent : string) : nat := length (keep is_tok (default [] (m !! agent))).

Definition once (m : gmap string (list NamedToken)) : Prop :=
  (∀ a, occ m a ≤ 1)%nat ∧ ∀ a b, (0 < occ m a)%nat → (0 < occ m b)%nat → a = b.

Definition never (m : gmap string (list NamedToken)) : Prop := all_tokens (λ t, nt_Token t ≠ tok) m.

Definition file_once (f : file) : Prop := match f with Holds m => once m | _ => True end.

Lemma never_occ m a : never m → occ m a = 0%nat.
Proof.
  intros Hn. unfold occ. rewrite keep_none; [done|]. intros t Ht. apply bool_decide_eq_false.
  destruct (m !! a) as [l|] eqn:Hl; [by apply (Hn a l)|by apply not_elem_of_nil in Ht].
Qed.

Lemma occ_never m : (∀ a, occ m a = 0%nat) → never m.
Proof.
  intros Hn a l t Ha Ht Htok. specialize (Hn a). unfold occ in Hn. rewrite Ha in Hn. simpl in Hn.
  assert (Hk : t ∈ keep is_tok l) by (apply elem_of_keep; split; [done|by apply bool_decide_eq_true]).
  destruct (keep is_tok l); [by apply not_elem_of_nil in Hk|done].
Qed.

Lemma never_once m : never m → once m.
Proof. intros Hn. split; [intros a|intros a b]; rewrite (never_occ m a Hn); lia. Qed.

Lemma occ_with s agent l a :
  occ (agent_tokens (with_agent s agent l)) a =
  if bool_decide (a = agent) then length (keep is_tok l) else occ (agent_tokens s) a.
Proof.
  unfold occ. simpl. case_bool_decide as Ha; [subst; by rewrite lookup_insert_eq|].
  by rewrite lookup_insert_ne by congruence.
Qed.

Lemma once_with s agent l :
  once (agent_tokens s) → (length (keep is_tok l) ≤ occ (agent_tokens s) agent)%nat →
  once (agent_tokens (with_agent s agent l)).
Proof.
  intros [H1 H2] Hl. split; [intros a|intros a b]; rewrite !occ_with.
  - case_bool_decide; [|done]. specialize (H1 agent). lia.
  - intros Ha Hb. apply H2; repeat case_bool_decide; subst; lia.
Qed.

Lemma saveLocked_once s written f : once (agent_tokens s) → file_once f → file_once (saveLocked s written f).2.
Proof. intros Hs Hf. unfold saveLocked. case_bool_decide; [done|]. by destruct written. Qed.

Lemma keep_take_le (l : list NamedToken) n : (length (keep is_tok (take n l)) ≤ length (keep is_tok l))%nat.
Proof. rewrite <- (take_drop n l) at 2. rewrite keep_app, length_app. lia. Qed.

Lemma keep_remove_le (l : list NamedToken) n :
  (length (keep is_tok (take n l ++ drop (S n) l)) ≤ length (keep is_tok l))%nat.
Proof.
  rewrite <- (take_drop n l) at 3. rewrite !keep_app, !length_app.
  enough (length (keep is_tok (drop (S n) l)) ≤ length (keep is_tok (drop n l)))%nat by lia.
  destruct (drop n l) as [|x r] eqn:E.
  - rewrite (drop_ge _ (S n)); [done|]. apply (f_equal length) in E. rewrite length_drop in E. simpl in E. lia.
  - rewrite (drop_S _ x n) in E.
    + injection E as ->. simpl. case_if; simpl; lia.
    + rewrite <- (Nat.add_0_r n), <- lookup_drop, E. done.
Qed.

Lemma keep_alter (l : list NamedToken) n rate block :
  length (keep is_tok (alter (λ t, with_config t rate block) n l)) = length (keep is_tok l).
Proof.
  revert n. induction l as [|x l IH]; intros [|n]; simpl; try done.
  - unfold is_tok. simpl. by case_if.
  - specialize (IH n). case_if; simpl; [by f_equal|done].
Qed.

Lemma Create_once s f agent name token id ms written :
  once (agent_tokens s) → file_once f → (token = tok → never (agent_tokens s)) →
  let '(s', f', _) := Create s f agent name (Some token) (Some id) ms written in
  once (agent_tokens s') ∧ file_once f'.
Proof.
  intros Hs Hf Hnew. unfold Create. cbv zeta. set (nt := {| nt_ID := id |}).
  assert (Hs' : once (agent_tokens (with_agent s agent (tokens_of s agent ++ [nt])))).
  { destruct (decide (token = tok)) as [Heq|Hne].
    - specialize (Hnew Heq). pose proof (never_occ (agent_tokens s) agent Hnew) as Hz.
      assert (Hk : length (keep is_tok (tokens_of s agent ++ [nt])) = 1%nat).
      { rewrite keep_app, length_app. unfold occ, tokens_of in *. rewrite Hz. simpl.
        assert (is_tok nt = true) as -> by by apply bool_decide_eq_true. done. }
      split; [intros a|intros a b]; rewrite !occ_with, Hk.
      + case_bool_decide; [lia|]. rewrite (never_occ _ a Hnew). lia.
      + repeat case_bool_decide; rewrite ?(never_occ _ _ Hnew); try lia. by subst.
    - apply once_with; [done|]. rewrite keep_app, length_app. unfold is_tok at 2. simpl.
      rewrite (bool_decide_false _ Hne). simpl. unfold occ, tokens_of. lia. }
  pose proof (saveLocked_once _ written f Hs' Hf) as Hsv.
  destruct (saveLocked _ _ _) as [ok f']. simpl in Hsv. destruct ok; (split; [|done]); [done|].
  apply once_with; [done|]. apply keep_take_le.
Qed.

Lemma started_once p f readable : file_once f → once (agent_tokens (started p f readable)).
Proof.
  intros Hf. assert (H0 : once ∅) by (apply never_once; intros a ts t Ha; by rewrite lookup_empty in Ha).
  unfold started, NewNamedStore. repeat case_bool_decide; simpl; try done. by destruct f, readable.
Qed.

Definition world_once (w : World) : Prop := once (agent_tokens (store w)) ∧ file_once (disk w).
Definition world_never (w : World) : Prop :=
  never (agent_tokens (store w)) ∧ on_disk (λ t, nt_Token t ≠ tok) (disk w).

Lemma step_never home w o : world_never w → tok ∉ minted [o] → world_never (step home w o).1.
Proof.
  intros [Hm Hd] Ho. apply step_all; [done..|].
  destruct o as [? ? [token|] [id|] ? ?| | | | | |]; try done. simpl in *. by apply not_elem_of_cons in Ho as [Ho _].
Qed.

Lemma step_once home w o : world_once w → (tok ∈ minted [o] → world_never w) → world_once (step home w o).1.
Proof.
  intros [Hs Hd] Ho.
  destruct o as [agent name token id ms written|agent id written|agent id rate block written|agent id now|agent name now|agent now|readable];
    cbn [step].
  - destruct token as [token|], id as [id|]; try done.
    pose proof (Create_once (store w) (disk w) agent name token id ms written Hs Hd) as H.
    destruct (Create _ _ _ _ _ _ _ _) as [[s' f'] out]. apply H. intros ->. apply Ho. left.
  - unfold Delete. destruct (index_of _ _) as [idx|]; [|done]. cbv zeta.
    assert (Hs' : once (agent_tokens (with_agent (store w) agent
      (take idx (tokens_of (store w) agent) ++ drop (S idx) (tokens_of (store w) agent)))))
      by (apply once_with; [done|apply keep_remove_le]).
    split; [done|by apply saveLocked_once].
  - unfold Update. destruct (index_of _ _) as [idx|]; [|done]. cbv zeta.
    assert (Hs' : once (agent_tokens (with_agent (store w) agent
      (alter (λ t, with_config t rate block) idx (tokens_of (store w) agent)))))
      by (apply once_with; [done|by rewrite keep_alter]).
    split; [done|by apply saveLocked_once].
  - limiter_op.
  - limiter_op.
  - limiter_op.
  - split; [by apply started_once|done].
Qed.

Lemma minted_cons o ops : minted (o :: ops) = minted [o] ++ minted ops.
Proof. unfold minted. by destruct o as [? ? [] [] ? ?| | | | | |]. Qed.

Lemma minted_app ops1 ops2 : minted (ops1 ++ ops2) = minted ops1 ++ minted ops2.
Proof.
  induction ops1 as [|o ops1 IH]; [done|]. change ((o :: ops1) ++ ops2) with (o :: (ops1 ++ ops2)).
  by rewrite minted_cons, (minted_cons o ops1), IH, app_assoc.
Qed.

Lemma run_never home w ops : world_never w → tok ∉ minted ops → world_never (run home w ops).1.
Proof.
  revert w. induction ops as [|o ops IH]; intros w Hw; [done|]. rewrite minted_cons. intros [Ho Hops]%not_elem_of_app.
  cbn [run]. pose proof (step_never home w o Hw Ho) as Hs. destruct (step home w o) as [w' ca].
  specialize (IH w' Hs Hops). by destruct (run home w' ops).
Qed.

Lemma run_once home w ops :
  world_once w → (tok ∈ minted ops → world_never w) → NoDup (minted ops) → world_once (run home w ops).1.
Proof.
  revert w. induction ops as [|o ops IH]; intros w Hw; [done|]. rewrite minted_cons. intros Hnew Hnd.
  apply NoDup_app in Hnd as (_ & Hdis & Hnd). cbn [run].
  assert (Hs : world_once (step home w o).1) by (apply step_once; [done|]; intros H; apply Hnew, elem_of_app; by left).
  assert (Hn : tok ∈ minted ops → world_never (step home w o).1).
  { intros H. apply step_never; [apply Hnew, elem_of_app; by right|]. intros Ho. by apply (Hdis tok). }
  destruct (step home w o) as [w' ca]. specialize (IH w' Hs Hn Hnd). by destruct (run home w' ops).
Qed.

Lemma fresh_never home : world_never (fresh home).
Proof. split; [by apply started_all|done]. Qed.

Lemma fresh_run_once home ops : NoDup (minted ops) → world_once (run home (fresh home) ops).1.
Proof.
  intros Hnd. pose proof (fresh_never home) as Hn. apply run_once; [|done..].
  split; [apply never_once, Hn|]. unfold fresh. done.
Qed.

Lemma never_invalid `{GoRange} s : never (agent_tokens s) → ValidateWithID s tok = None.
Proof.
  intros Hn. unfold ValidateWithID. case_bool_decide; [done|]. destruct (_ ≫= _) as [|x l] eqn:Hl; [done|].
  exfalso. assert (Hx : x ∈ x :: l) by left. rewrite <- Hl in Hx.
  apply list_elem_of_bind in Hx as ([a ts] & Hx & Ha). apply elem_of_go_range in Ha.
  apply list_elem_of_omap in Hx as (t & Ht & Hx). case_bool_decide; [|done]. by eapply Hn.
Qed.

Lemma once_valid `{GoRange} s agent t :
  once (agent_tokens s) → tok ≠ "" → t ∈ tokens_of s agent → nt_Token t = tok →
  ValidateWithID s tok = Some (agent, nt_ID t).
Proof.
  intros [H1 H2] Hne Ht Htok. unfold ValidateWithID. rewrite bool_decide_false by done.
  assert (Hk : t ∈ keep is_tok (tokens_of s agent)) by (apply elem_of_keep; split; [done|by apply bool_decide_eq_true]).
  destruct (_ ≫= _) as [|x l] eqn:Hl.
  - exfalso. apply (not_elem_of_nil (agent, nt_ID t)). rewrite <- Hl. apply list_elem_of_bind.
    unfold tokens_of in Ht. destruct (agent_tokens s !! agent) as [ts|] eqn:Ha; [|by apply not_elem_of_nil in Ht].
    exists (agent, ts). split; [|by apply elem_of_go_range]. apply list_elem_of_omap. exists t. split; [done|].
    simpl. by rewrite bool_decide_true.
  - simpl. assert (Hx : x ∈ x :: l) by left. rewrite <- Hl in Hx.
    apply list_elem_of_bind in Hx as ([a ts] & Hx & Ha). apply elem_of_go_range in Ha.
    apply list_elem_of_omap in Hx as (t' & Ht' & Hx). case_bool_decide as Htok'; [|done]. injection Hx as <-. simpl.
    assert (Hk' : t' ∈ keep is_tok (tokens_of s a)).
    { apply elem_of_keep. unfold tokens_of. rewrite Ha. split; [done|by apply bool_decide_eq_true]. }
    assert (a = agent) as ->.
    { unfold tokens_of in Hk, Hk'. apply H2; unfold occ.
      - destruct (keep is_tok (default [] (agent_tokens s !! a))); [by apply not_elem_of_nil in Hk'|simpl; lia].
      - destruct (keep is_tok (default [] (agent_tokens s !! agent))); [by apply not_elem_of_nil in Hk|simpl; lia]. }
    specialize (H1 agent). unfold occ in H1. unfold tokens_of in Hk, Hk'.
    destruct (keep is_tok (default [] (agent_tokens s !! agent))) as [|y [|z r]]; simpl in H1;
      [by apply not_elem_of_nil in Hk| |lia].
    apply list_elem_of_singleton in Hk, Hk'. congruence.
Qed.

(** The agent has a token of this secret and id. *)
Definition has (agent id : string) (m : gmap string (list NamedToken)) : Prop :=
  ∃ t, t ∈ default [] (m !! agent) ∧ nt_Token t = tok ∧ nt_ID t = id.

Definition live (home agent id : string) (w : World) : Prop :=
  path (store w) = home ∧ has agent id (agent_tokens (store w)) ∧ ∃ m, disk w = Holds m ∧ has agent id m.

Lemma has_with agent id s agent' l :
  has agent id (agent_tokens s) → (agent' = agent → ∃ t, t ∈ l ∧ nt_Token t = tok ∧ nt_ID t = id) →
  has agent id (agent_tokens (with_agent s agent' l)).
Proof.
  intros Hh Hl. unfold has. simpl. destruct (decide (agent' = agent)) as [Heq|Hne].
  - rewrite Heq, lookup_insert_eq. by apply Hl.
  - by rewrite lookup_insert_ne.
Qed.

Lemma live_saved home agent id s f written :
  home ≠ "" → live home agent id {| store := s; disk := f |} →
  ∀ s', path s' = home → has agent id (agent_tokens s') →
  live home agent id {| store := s'; disk := (saveLocked s' written f).2 |}.
Proof.
  intros Hne (_ & _ & Hd) s' Hp Hh. split; [done|]. split; [done|]. unfold saveLocked. simpl.
  rewrite bool_decide_false by congruence. destruct written; simpl; [by eexists|done].
Qed.

Lemma index_of_other id id' l idx t :
  index_of id' l = Some idx → id' ≠ id → t ∈ l → nt_ID t = id → t ∈ take idx l ++ drop (S idx) l.
Proof.
  revert idx. induction l as [|x l IH]; intros idx; simpl; [done|]. case_bool_decide as Hx.
  - intros [= <-] Hne [->|Ht]%elem_of_cons Hid; [congruence|by apply elem_of_app; right].
  - destruct (index_of id' l) as [i|]; [|done]. intros [= <-] Hne [->|Ht]%elem_of_cons Hid; [left|]. right. by apply IH.
Qed.

Lemma elem_of_alter (l : list NamedToken) n rate block t :
  t ∈ l → ∃ t', t' ∈ alter (λ t, with_config t rate block) n l ∧ nt_Token t' = nt_Token t ∧ nt_ID t' = nt_ID t.
Proof.
  intros [i Hi]%list_elem_of_lookup. destruct (decide (n = i)) as [->|Hne].
  - exists (with_config t rate block). split; [|done]. apply list_elem_of_lookup. exists i.
    by rewrite list_lookup_alter_eq, Hi.
  - exists t. split; [|done]. apply list_elem_of_lookup. exists i. by rewrite list_lookup_alter_ne.
Qed.

Lemma step_live home agent id w o :
  home ≠ "" → live home agent id w → (∀ written, o ≠ ODelete agent id written) → o ≠ ORestart false →
  live home agent id (step home w o).1.
Proof.
  intros Hne Hl Hdel Hres. pose proof Hl as (Hp & Hh & Hd). pose proof Hh as (t0 & Ht0 & Htok0 & Hid0).
  pose proof (live_saved home agent id (store w) (disk w)) as Hsave.
  destruct o as [agent' name token id' ms written|agent' id' written|agent' id' rate block written|agent' id' now|agent' name now|agent' now|readable];
    cbn [step].
  - unfold Create. destruct token as [token|], id' as [id'|]; try done. cbv zeta. set (nt := {| nt_ID := id' |}).
    assert (Hh' : has agent id (agent_tokens (with_agent (store w) agent' (tokens_of (store w) agent' ++ [nt])))).
    { apply has_with; [done|]. intros ->. exists t0. split_and!; [apply elem_of_app; by left|done..]. }
    specialize (Hsave written Hne ltac:(by destruct w) (with_agent _ _ _) Hp Hh'). destruct (saveLocked _ _ _) as [[] f'] eqn:Hs; [done|].
    destruct Hsave as (_ & _ & Hd'). split; [done|]. split; [|done]. apply has_with; [done|]. intros ->.
    exists t0. split; [|done]. rewrite tokens_of_with, length_app, Nat.add_sub, take_app_length. done.
  - unfold Delete. destruct (index_of _ _) as [idx|] eqn:Hidx; [|done]. cbv zeta. apply Hsave; [done|by destruct w|done|].
    apply has_with; [done|]. intros ->. exists t0. split; [|done].
    eapply index_of_other; [done| |done|done]. intros ->. by eapply Hdel.
  - unfold Update. destruct (index_of _ _) as [idx|] eqn:Hidx; [|done]. cbv zeta. apply Hsave; [done|by destruct w|done|].
    apply has_with; [done|]. intros ->. destruct (elem_of_alter (tokens_of (store w) agent) idx rate block t0 Ht0) as (t' & H1 & H2 & H3).
    exists t'. split_and!; [done|congruence..].
  - limiter_op.
  - limiter_op.
  - limiter_op.
  - destruct readable; [|done]. destruct Hd as (m & Hm & Hd). unfold live. simpl. rewrite Hm.
    unfold started, NewNamedStore. rewrite bool_decide_false by done. simpl. split_and!; [done..|by exists m].
Qed.

Lemma run_live home agent id w ops :
  home ≠ "" → live home agent id w →
  (∀ o, o ∈ ops → (∀ written, o ≠ ODelete agent id written) ∧ o ≠ ORestart false) →
  live home agent id (run home w ops).1.
Proof.
  intros Hne. revert w. induction ops as [|o ops IH]; intros w Hl Hops; [done|]. cbn [run].
  destruct (Hops o ltac:(left)) as [H1 H2]. pose proof (step_live home agent id w o Hne Hl H1 H2) as Hs.
  destruct (step home w o) as [w' ca]. specialize (IH w' Hs ltac:(intros; apply Hops; by right)).
  by destruct (run home w' ops).
Qed.
End secret.

Lemma run_ops_app home w ops1 ops2 : (run home w (ops1 ++ ops2)).1 = (run home (run home w ops1).1 ops2).1.
Proof.
  revert w. induction ops1 as [|o ops1 IH]; intros w; [done|]. simpl. destruct (step home w o) as [w' ca].
  specialize (IH w'). destruct (run home w' ops1), (run home w' (ops1 ++ ops2)). done.
Qed.

Lemma index_of_first id l t :
  find_first (λ t, bool_decide (nt_ID t = id)) l = Some t → ∃ idx, index_of id l = Some idx ∧ l !! idx = Some t.
Proof.
  induction l as [|x l IH]; simpl; [done|]. case_bool_decide; [intros [= ->]; by exists 0%nat|].
  intros Ht. destruct (IH Ht) as (i & Hi & Hl). exists (S i). by rewrite Hi.
Qed.

Lemma step_path home w o :
  home ≠ "" → path (store w) = home → o ≠ ORestart false → path (store (step home w o).1) = home.
Proof.
  intros Hne Hp Ho.
  destruct o as [agent' name token id' ms written|agent' id' written|agent' id' rate block written|agent' id' now|agent' name now|agent' now|readable];
    cbn [step].
  - unfold Create. destruct token, id'; try done. by destruct (saveLocked _ _ _) as [[] f'].
  - unfold Delete. by destruct (index_of _ _).
  - unfold Update. by destruct (index_of _ _).
  - limiter_op.
  - limiter_op.
  - limiter_op.
  - destruct readable; [|done]. simpl. unfold started, NewNamedStore. rewrite bool_decide_false by done. by destruct (disk w).
Qed.

(** C25. A revoked token is never accepted again. Deleting a token, with the
    deletion saved, makes its secret unknown for good: after any further
    operations, with any saves failing, and any restarts, the store accepts it
    for no agent, in whatever order it looks (secrets are minted once). *)
Theorem revoked_never_accepted `{GoRange} home ops1 agent id t ops2
    (Hnd : NoDup (minted (ops1 ++ ops2)))
    (Ht : find_first (λ t, bool_decide (nt_ID t = id)) (tokens_of (store (run home (fresh home) ops1).1) agent) = Some t)
    (Hpath : path (store (run home (fresh home) ops1).1) ≠ "") :
  ValidateWithID (store (run home (fresh home) (ops1 ++ ODelete agent id true :: ops2)).1) (nt_Token t) = None.
Proof.
  rewrite minted_app in Hnd. apply NoDup_app in Hnd as (Hnd1 & Hdis & Hnd2).
  set (tok := nt_Token t). apply index_of_first in Ht as (idx & Hidx & Hl). rewrite run_ops_app.
  pose proof (fresh_run_once tok home ops1 Hnd1) as [[H1 H2] _].
  assert (Hold : tok ∈ minted ops1).
  { apply dec_stable. intros Hn. destruct (run_never tok home (fresh home) ops1 (fresh_never tok home) Hn) as [Hm _].
    pose proof (all_tokens_of _ _ _ _ Hm (list_elem_of_lookup_2 _ _ _ Hl)) as Hx. by apply Hx. }
  set (w := (run home (fresh home) ops1).1) in *. clearbody w.
  apply never_invalid. change (ODelete agent id true :: ops2) with ([ODelete agent id true] ++ ops2). rewrite run_ops_app.
  apply run_never; [|intros Hn; by apply (Hdis tok)]. simpl. unfold Delete. rewrite Hidx. cbv zeta. simpl.
  set (s' := with_agent _ _ _).
  assert (Hn : never tok (agent_tokens s')).
  { apply occ_never. intros a. subst s'. rewrite occ_with.
    assert (Ho : occ tok (agent_tokens (store w)) agent =
      S (length (keep (is_tok tok) (take idx (tokens_of (store w) agent) ++ drop (S idx) (tokens_of (store w) agent))))).
    { unfold occ. fold (tokens_of (store w) agent). rewrite <- (take_drop_middle _ _ _ Hl) at 1.
      rewrite !keep_app, !length_app. simpl. unfold is_tok at 2. rewrite bool_decide_true by done. simpl. lia. }
    pose proof (H1 agent) as Hone. rewrite Ho in Hone. case_bool_decide as Ha; [lia|].
    destruct (occ tok (agent_tokens (store w)) a) eqn:Hz; [done|]. exfalso. apply Ha, H2; lia. }
  split; [done|]. simpl. unfold saveLocked. simpl. by rewrite bool_decide_false.
Qed.

(** A token is accepted from its creation to its deletion: once creating it
    has succeeded, its secret resolves to its agent and its id after any other
    operations, whatever saves fail, and after restarts that can read the file. *)
Theorem created_accepted `{GoRange} home ops1 agent name tok id ms ops2
    (Hhome : home ≠ "") (Htok : tok ≠ "")
    (Hnd : NoDup (minted (ops1 ++ OCreate agent name (Some tok) (Some id) ms true :: ops2)))
    (Hread : ORestart false ∉ ops1 ++ ops2)
    (Hdel : ∀ written, ODelete agent id written ∉ ops2) :
  ValidateWithID (store (run home (fresh home) (ops1 ++ OCreate agent name (Some tok) (Some id) ms true :: ops2)).1) tok =
  Some (agent, id).
Proof.
  pose proof (fresh_run_once tok home _ Hnd) as [Honce _].
  apply not_elem_of_app in Hread as [Hr1 Hr2].
  assert (Hp : path (store (run home (fresh home) ops1).1) = home).
  { clear -Hhome Hr1. assert (H0 : path (store (fresh home)) = home).
    { unfold fresh, started, NewNamedStore. by rewrite bool_decide_false. }
    revert H0. generalize (fresh home). induction ops1 as [|o ops1 IH]; intros w Hw; [done|]. simpl.
    apply not_elem_of_cons in Hr1 as [Ho Hr1]. pose proof (step_path home w o Hhome Hw ltac:(congruence)) as Hs.
    destruct (step home w o) as [w' ca]. specialize (IH Hr1 w' Hs). by destruct (run home w' ops1). }
  rewrite run_ops_app in Honce |- *. set (w := (run home (fresh home) ops1).1) in *. clearbody w.
  set (o := OCreate agent name (Some tok) (Some id) ms true) in *. change (o :: ops2) with ([o] ++ ops2) in *.
  rewrite run_ops_app in Honce |- *.
  assert (Hl : live tok home agent id (run home w [o]).1).
  { simpl. unfold Create. cbv zeta. set (nt := {| nt_ID := id |}). unfold saveLocked. simpl.
    rewrite bool_decide_false by congruence. split; [done|].
    assert (Hh : has tok agent id (agent_tokens (with_agent (store w) agent (tokens_of (store w) agent ++ [nt])))).
    { exists nt. simpl. rewrite lookup_insert_eq. simpl. split; [|done]. apply elem_of_app. right. left. }
    split; [done|]. by eexists. }
  apply (run_live tok home agent id _ ops2) in Hl; [|done|].
  - destruct Hl as (_ & (t & Ht & <- & <-) & _). by apply once_valid.
  - intros x Hx. split; [intros written ->; by apply (Hdel written)|by intros ->].
Qed.

(** ** Blocks that overflow

    A length of 153722868 minutes, which the configuration accepts, wraps: the
    block ends in the past, so that the next request clears the token's hits, and
    its rate is no limit any more. *)
Example block_overflow :
  let t := {| nt_ID := "i"; nt_Name := ""; nt_Token := "x"; CreatedAtMS := 0; RatePerMin := 1; BlockMinutes := 153722868 |} in
  let s := {| path := ""; agent_tokens := {[ "a" := [t] ]}; limits := ∅ |} in
  let ask now s := Allow s "a" "i" now in
  let '(s1, a1) := ask (2 ^ 60) s in
  let '(s2, a2) := ask (2 ^ 60 + 1) s1 in
  let '(s3, a3) := ask (2 ^ 60 + 2) s2 in
  (a1.1, a2.1, a2.2 <? 0, a3.1) = (true, false, true, true).
Proof. vm_compute. reflexivity. Qed.

(** ** A store in use *)

Definition a_life : list op :=
  [OCreate "alice" "door" (Some "s1") (Some "i1") 5 true; OUpdate "alice" "i1" 1 2 true; OAllow "alice" "i1" 1000;
   OAllow "alice" "i1" 2000; OQuota "alice" 3000; ORestart true; OAllow "alice" "i1" 4000].


Lemma requests_bounded_witness :
  timed 0 [OCreate "alice" "" (Some "s1") (Some "i1") 5 true; OAllow "alice" "i1" 1000; OAllow "alice" "i1" 2000] ∧
  Z.of_nat (length (keep (λ t, 2000 - GoTime.minute <? t) (accepted "i1" [(CallAllow "i1" 30 15 1000, Answered true 0)]))) < 30.
Proof.
  assert (Ht : timed 0 [OCreate "alice" "" (Some "s1") (Some "i1") 5 true; OAllow "alice" "i1" 1000; OAllow "alice" "i1" 2000])
    by (vm_compute; repeat split; discriminate).
  split; [exact Ht|].
  apply (requests_bounded "f" _ [(NoCall, NoAnswer)] [(CallAllow "i1" 30 15 1000, Answered true 0)] [] "i1" 30 15 2000 0 Ht).
  - vm_compute. reflexivity.
  - intros ca Hca. apply list_elem_of_singleton in Hca as ->. simpl. tauto.
Defined.

Definition two_tokens : list op :=
  [OCreate "alice" "" (Some "s1") (Some "i1") 5 true; OCreate "bob" "" (Some "s2") (Some "i2") 6 false].

Definition token_1 : NamedToken :=
  {| nt_ID := "i1"; nt_Name := ""; nt_Token := "s1"; CreatedAtMS := 5; RatePerMin := 0; BlockMinutes := 0 |}.

Lemma revoked_never_accepted_witness :
  ValidateWithID (store (run "f" (fresh "f") two_tokens).1) "s1" = Some ("alice", "i1") ∧
  ValidateWithID (store (run "f" (fresh "f") (two_tokens ++ ODelete "alice" "i1" true :: [ORestart true])).1) "s1" = None.
Proof.
  split; [vm_compute; reflexivity|].
  apply (revoked_never_accepted "f" two_tokens "alice" "i1" token_1 [ORestart true]).
  - apply (bool_decide_unpack _). vm_compute. exact I.
  - vm_compute. reflexivity.
  - vm_compute. discriminate.
Defined.

Lemma created_accepted_witness :
  ValidateWithID (store (run "f" (fresh "f") (a_life ++ OCreate "bob" "" (Some "s2") (Some "i2") 6 true ::
    [OUpdate "bob" "i2" 9 9 false; ORestart true])).1) "s2" = Some ("bob", "i2").
Proof.
  apply (created_accepted "f" a_life "bob" "" "s2" "i2" 6).
  - discriminate.
  - discriminate.
  - apply (bool_decide_unpack _). vm_compute. exact I.
  - vm_compute. intros H. repeat (apply elem_of_cons in H as [H|H]; [discriminate|]). by apply not_elem_of_nil in H.
  - intros written H. repeat (apply elem_of_cons in H as [H|H]; [discriminate|]). by apply not_elem_of_nil in H.
Defined.
