(* ===== verification/MessageTokens.v ===== *)
(** * Rotating message tokens and the check of a token (msgtoken/manager.go,
      agent/loop_message_tokens.go)

    An agent's short-lived tokens: made in turn, each accepted for a number of
    windows, kept in a file. The file shows when a token is accepted, over
    rotations and restarts, how many are at once, and that the current one is;
    and what the check of an external message's token decides, over these and the
    named tokens. Times are Unix seconds; [time.Now] is read anew at each call,
    so an operation takes the times it reads. The file is represented by what it
    decodes to. *)

From stdpp Require Import base gmap strings list sorting.
From Stdlib Require Import ZArith Lia.
From S2P Require Import Prelude GoString NamedTokens.

Open Scope Z_scope.

(** ** The manager of one agent *)

Record Token := { Value : string; ExpiresAt : Z }.
Record Store := { Tokens : list Token; NextRotationAt : Z }.

Definition no_store : Store := {| Tokens := []; NextRotationAt := 0 |}.

Record Manager := { windowMinutes : Z; windowCount : Z; m_store : Store }.

Definition with_store (m : Manager) (s : Store) : Manager :=
  {| windowMinutes := windowMinutes m; windowCount := windowCount m; m_store := s |}.

Definition pruneExpired (now : Z) (s : Store) : Store :=
  {| Tokens := keep (λ t, now <? ExpiresAt t) (Tokens s); NextRotationAt := NextRotationAt s |}.

(** The times [rotate] reads: for the expiry, in [pruneExpired], and for the
    next rotation. *)
Record Times := { t_expiry : Z; t_prune : Z; t_next : Z }.

(** [rotate]; [raw] is the hexadecimal of what [rand.Read] filled in, [None] its
    error. *)
Definition rotate (m : Manager) (raw : option string) (ts : Times) : Manager :=
  match raw with
  | None => m
  | Some value =>
      let expiry := wrap64 (t_expiry ts + wrap64 (windowMinutes m * windowCount m * 60)) in
      let s := {| Tokens := Tokens (m_store m) ++ [{| Value := value; ExpiresAt := expiry |}];
                  NextRotationAt := NextRotationAt (m_store m) |} in
      let s := pruneExpired (t_prune ts) s in
      with_store m {| Tokens := Tokens s; NextRotationAt := wrap64 (t_next ts + wrap64 (windowMinutes m * 60)) |}
  end.

(** What [NewManager] returns: no manager when the endpoint is disabled, an
    error when the store cannot be saved. *)
Inductive started_manager := Disabled | Failed | Running (m : Manager).

(** [NewManager]; [content] is what the file decodes to, [None] when it is not
    there or does not; [t_load] and [t_check] are the times of its pruning and of
    the check whether to rotate, [saved] says whether saving succeeds. The file
    is removed when the endpoint is disabled, if it can be ([saved]). *)
Definition NewManager (minutes count : Z) (content : option Store) (raw : option string) (t_load t_check : Z) (ts : Times)
    (saved : bool) : started_manager * option Store :=
  if minutes =? 0 then (Disabled, if saved then None else content)
  else
    let m := {| windowMinutes := minutes; windowCount := count;
                m_store := pruneExpired t_load (default no_store content) |} in
    let m := if (NextRotationAt (m_store m) <=? t_check) || bool_decide (Tokens (m_store m) = [])
             then rotate m raw ts else m in
    if saved then (Running m, Some (m_store m)) else (Failed, content).

(** A turn of the goroutine of [NewManager]. *)
Definition rotation (m : Manager) (disk : option Store) (raw : option string) (ts : Times) (saved : bool)
    : Manager * option Store :=
  let m := rotate m raw ts in (m, if saved then Some (m_store m) else disk).

Definition Manager_Validate (m : Manager) (token : string) (now : Z) : bool :=
  existsb (λ t, bool_decide (Value t = token) && (now <? ExpiresAt t)) (Tokens (m_store m)).

Definition CurrentToken (m : Manager) : string :=
  match last (Tokens (m_store m)) with Some t => Value t | None => "" end.

(** ** The check of a token *)

Inductive MsgTokenDecision := MsgTokenInvalid | MsgTokenValid | MsgTokenRateLimited.

#[export] Instance MsgTokenDecision_eq_dec : EqDecision MsgTokenDecision.
Proof. solve_decision. Defined.

Section check.
Context `{GoRange}.

(** Who a token belongs to; the id is that of a named token. *)
Definition resolveMessageToken (named : option NamedStore) (managers : gmap string Manager) (token : string) (now : Z)
    : option (string * option string) :=
  match named ≫= λ s, ValidateWithID s token with
  | Some (agent, id) => Some (agent, Some id)
  | None =>
      (λ p : string * Manager, (p.1, None)) <$>
        find_first (λ p : string * Manager, Manager_Validate p.2 token now) (go_range managers)
  end.

(** [ValidateMessageToken] *)
Definition ValidateMessageToken (named : option NamedStore) (managers : gmap string Manager) (token : string) (now : Z)
    : option string :=
  fst <$> resolveMessageToken named managers token now.

(** [CheckMessageToken]; [now] is in seconds for the managers, [now_ns] in
    nanoseconds for the limiter. *)
Definition CheckMessageToken (named : option NamedStore) (managers : gmap string Manager) (token : string) (now now_ns : Z)
    : option NamedStore * (string * Z * MsgTokenDecision) :=
  match resolveMessageToken named managers token now with
  | None => (named, ("", 0, MsgTokenInvalid))
  | Some (agent, None) => (named, (agent, 0, MsgTokenValid))
  | Some (agent, Some id) =>
      match named with
      | None => (named, (agent, 0, MsgTokenValid))
      | Some s =>
          let '(s', (ok, retry)) := Allow s agent id now_ns in
          (Some s', if ok then (agent, 0, MsgTokenValid) else (agent, retry, MsgTokenRateLimited))
      end
  end.
End check.

(** ** A manager over time *)

(** The manager of an agent, none when it could not be started, and its file. *)
Record RWorld := { mgr : option Manager; rdisk : option Store }.

(** A rotation, and a start of the gateway. *)
Inductive event :=
| Rotation (raw : option string) (ts : Times) (saved : bool)
| Start (raw : option string) (t_load t_check : Z) (ts : Times) (saved : bool).

Definition event_raw (e : event) : option string := match e with Rotation raw _ _ | Start raw _ _ _ _ => raw end.
Definition event_times (e : event) : Times := match e with Rotation _ ts _ | Start _ _ _ ts _ => ts end.

Section over_time.
Context (W C : Z).

Definition event_step (w : RWorld) (e : event) : RWorld :=
  match e with
  | Rotation raw ts saved =>
      match mgr w with
      | Some m => let '(m', f') := rotation m (rdisk w) raw ts saved in {| mgr := Some m'; rdisk := f' |}
      | None => w
      end
  | Start raw t_load t_check ts saved =>
      match NewManager W C (rdisk w) raw t_load t_check ts saved with
      | (Running m, f') => {| mgr := Some m; rdisk := f' |}
      | (_, f') => {| mgr := None; rdisk := f' |}
      end
  end.

Definition event_run (w : RWorld) (es : list event) : RWorld := fold_left event_step es w.

(** The clock does not go back and stays where seconds and windows do not
    overflow; the goroutine wakes when a rotation is due. *)
Definition event_ok (clock : Z) (w : RWorld) (e : event) : Prop :=
  let ts := event_times e in
  t_expiry ts ≤ t_prune ts ≤ t_next ts ∧ t_next ts < 2 ^ 62 ∧
  match e with
  | Rotation _ _ _ => clock ≤ t_expiry ts ∧ (∀ m, mgr w = Some m → NextRotationAt (m_store m) ≤ t_expiry ts)
  | Start _ t_load t_check _ _ => clock ≤ t_load ≤ t_check ∧ t_check ≤ t_expiry ts
  end.

Fixpoint events_ok (clock : Z) (w : RWorld) (es : list event) : Prop :=
  match es with
  | [] => True
  | e :: rest => event_ok clock w e ∧ events_ok (t_next (event_times e)) (event_step w e) rest
  end.

(** The time after these events. *)
Fixpoint events_clock (clock : Z) (es : list event) : Z :=
  match es with [] => clock | e :: rest => events_clock (t_next (event_times e)) rest end.

Definition no_manager : RWorld := {| mgr := None; rdisk := None |}.

Context (HW : 1 ≤ W) (HC : 1 ≤ C) (Hsmall : W * C * 60 ≤ 2 ^ 61).

(** What holds of a store in memory or on disk. *)
Record store_ok (clock : Z) (s : Store) : Prop := {
  so_spaced : StronglySorted (λ a b, ExpiresAt a + W * 60 ≤ ExpiresAt b) (Tokens s);
  so_next : ∀ t, t ∈ Tokens s → ExpiresAt t ≤ NextRotationAt s - W * 60 + W * C * 60;
  so_clock : ∀ t, t ∈ Tokens s → ExpiresAt t ≤ clock + W * C * 60
}.

Lemma store_ok_none clock : store_ok clock no_store.
Proof. split; [constructor|by intros t Ht%not_elem_of_nil..]. Qed.

Lemma store_ok_later clock clock' s : clock ≤ clock' → store_ok clock s → store_ok clock' s.
Proof. intros Hle [H1 H2 H3]. split; [done..|]. intros t Ht. specialize (H3 t Ht). lia. Qed.

Lemma keep_spaced {A} (R : A → A → Prop) p l : StronglySorted R l → StronglySorted R (keep p l).
Proof.
  induction 1 as [|x l Hs IH Hx]; [constructor|]. simpl. case_if; [|done]. constructor; [done|].
  rewrite Forall_forall in *. intros y [Hy _]%elem_of_keep. by apply Hx.
Qed.

Lemma prune_ok clock now s : store_ok clock s → store_ok clock (pruneExpired now s).
Proof.
  intros [H1 H2 H3]. split; simpl; [by apply keep_spaced|intros t [Ht _]%elem_of_keep; by auto..].
Qed.

(** The expiry and the next rotation of a rotation, without overflow. *)
Lemma expiry_small m ts :
  windowMinutes m = W → windowCount m = C → 0 ≤ t_expiry ts ≤ t_next ts → t_next ts < 2 ^ 62 →
  wrap64 (t_expiry ts + wrap64 (windowMinutes m * windowCount m * 60)) = t_expiry ts + W * C * 60 ∧
  wrap64 (t_next ts + wrap64 (windowMinutes m * 60)) = t_next ts + W * 60.
Proof.
  intros -> -> H1 H2. assert (0 ≤ W * 60 ≤ W * C * 60) by nia.
  rewrite !wrap64_id; unfold in_int64, min_int64, max_int64; try lia;
    rewrite !wrap64_id; unfold in_int64, min_int64, max_int64; lia.
Qed.

Definition manager_ok (clock : Z) (m : Manager) : Prop :=
  windowMinutes m = W ∧ windowCount m = C ∧ store_ok clock (m_store m).

Lemma rotate_ok clock m raw ts :
  0 ≤ clock → manager_ok clock m → clock ≤ t_expiry ts → t_expiry ts ≤ t_next ts → t_next ts < 2 ^ 62 →
  NextRotationAt (m_store m) ≤ t_expiry ts ∨ Tokens (m_store m) = [] →
  manager_ok (t_next ts) (rotate m raw ts).
Proof.
  intros H0 (Hw & Hc & Hs) H1 H2 H3 Hdue. unfold rotate.
  destruct raw as [v|]; [|split_and!; [done..|]; eapply store_ok_later; [|exact Hs]; lia].
  destruct (expiry_small m ts Hw Hc ltac:(lia) H3) as [-> ->]. split_and!; [done..|]. destruct Hs as [S1 S2 S3]. simpl.
  assert (Hall : ∀ t, t ∈ Tokens (m_store m) → ExpiresAt t + W * 60 ≤ t_expiry ts + W * C * 60).
  { intros t Ht. destruct Hdue as [Hd|Hd]; [specialize (S2 t Ht); lia|rewrite Hd in Ht; by apply not_elem_of_nil in Ht]. }
  assert (Hin : ∀ t : Token, t ∈ keep (λ t : Token, t_prune ts <? ExpiresAt t)
     (Tokens (m_store m) ++ [{| Value := v; ExpiresAt := t_expiry ts + W * C * 60 |}]) → ExpiresAt t ≤ t_expiry ts + W * C * 60).
  { intros t [[Ht| ->%list_elem_of_singleton]%elem_of_app _]%elem_of_keep; [specialize (Hall t Ht)|simpl]; lia. }
  split; simpl.
  - apply keep_spaced, StronglySorted_app. split_and!; [|done|repeat constructor].
    intros a b Ha ->%list_elem_of_singleton. simpl. by apply Hall.
  - intros t Ht. specialize (Hin t Ht). lia.
  - intros t Ht. specialize (Hin t Ht). lia.
Qed.

Record rworld_ok (clock : Z) (w : RWorld) : Prop := {
  rw_mgr : ∀ m, mgr w = Some m → manager_ok clock m;
  rw_disk : ∀ s, rdisk w = Some s → store_ok clock s
}.

Lemma event_step_ok clock w e :
  0 ≤ clock → rworld_ok clock w → event_ok clock w e → rworld_ok (t_next (event_times e)) (event_step w e).
Proof.
  intros H0 [Hm Hd] (Ht & Hsm & He).
  assert (Hd' : ∀ clock', clock ≤ clock' → ∀ s, rdisk w = Some s → store_ok clock' s)
    by (intros c' Hc s Hs; eapply store_ok_later; [exact Hc|by apply Hd]).
  destruct e as [raw ts saved|raw t_load t_check ts saved]; simpl in *.
  - destruct (mgr w) as [m|] eqn:Hmgr; [|split; [by rewrite Hmgr|apply Hd'; lia]].
    assert (Hr : manager_ok (t_next ts) (rotate m raw ts)).
    { apply (rotate_ok clock); [done|by apply Hm|lia..|]. left. by apply He. }
    unfold rotation. split; simpl; [by intros ? [= <-]|]. destruct saved; [intros ? [= <-]; apply Hr|apply Hd'; lia].
  - unfold NewManager. rewrite (proj2 (Z.eqb_neq W 0)) by lia. cbv zeta.
    set (m0 := {| windowMinutes := W |}).
    assert (Hm0 : manager_ok clock m0).
    { split_and!; [done..|]. apply prune_ok. destruct (rdisk w) as [s|]; [by apply Hd|apply store_ok_none]. }
    set (m1 := if (NextRotationAt (m_store m0) <=? t_check) || bool_decide (Tokens (m_store m0) = []) then rotate m0 raw ts else m0).
    assert (Hr : manager_ok (t_next ts) m1).
    { subst m1. destruct (_ || _) eqn:Hb.
      - apply (rotate_ok clock); [done..|lia|lia|lia|]. apply orb_true_iff in Hb as [Hb|Hb]; [left; zb; lia|right].
        by apply bool_decide_eq_true in Hb.
      - destruct Hm0 as (? & ? & Hs). split_and!; [done..|]. eapply store_ok_later; [|exact Hs]. lia. }
    destruct saved; split; simpl; [by intros ? [= <-]|intros ? [= <-]; apply Hr|done|apply Hd'; lia].
Qed.

Lemma event_run_ok clock w es :
  0 ≤ clock → rworld_ok clock w → events_ok clock w es →
  rworld_ok (events_clock clock es) (event_run w es).
Proof.
  revert clock w. induction es as [|e es IH]; intros clock w H0 Hw; [done|]. intros [He Hes]. simpl.
  apply IH; [|by eapply event_step_ok|done]. destruct He as (H1 & H2 & H3). destruct e; simpl in *; lia.
Qed.

Lemma no_manager_ok : rworld_ok 0 no_manager.
Proof. by split. Qed.

(** Expiries spaced by a window, all within [C] windows of a time. *)
Lemma spaced_length l now :
  StronglySorted (λ a b, ExpiresAt a + W * 60 ≤ ExpiresAt b) l →
  (∀ t, t ∈ l → now < ExpiresAt t ≤ now + W * C * 60) → Z.of_nat (length l) ≤ C.
Proof.
  intros Hs Hall.
  assert (Hlast : ∀ t r, l = t :: r → ∃ u, u ∈ l ∧ ExpiresAt t + Z.of_nat (length r) * (W * 60) ≤ ExpiresAt u).
  { clear Hall. induction Hs as [|x l Hs IH Hx]; [done|]. intros t r [= <- <-].
    destruct l as [|y l]; [exists x; split; [left|simpl; lia]|].
    destruct (IH y l eq_refl) as (u & Hu & Hle). exists u. split; [by right|].
    apply Forall_cons in Hx as [Hx _]. simpl length. lia. }
  destruct l as [|t r]; [simpl; lia|]. destruct (Hlast t r eq_refl) as (u & Hu & Hle).
  pose proof (Hall t ltac:(left)). pose proof (Hall u Hu). simpl length. nia.
Qed.

(** *** When a token is accepted *)

(** [v] is accepted exactly until [E] by a store at [clock] or later. *)
Definition lasts (v : string) (E clock : Z) (s : Store) : Prop :=
  (∀ t, t ∈ Tokens s → Value t = v → ExpiresAt t = E) ∧
  ((∃ t, t ∈ Tokens s ∧ Value t = v) ∨ E ≤ clock).

Definition without (v : string) (s : Store) : Prop := ∀ t, t ∈ Tokens s → Value t ≠ v.

(** A property of stores that pruning and new tokens of other values keep. *)
Definition stable (v : string) (P : Z → Store → Prop) : Prop :=
  (∀ clock clock' s, clock ≤ clock' → P clock s → P clock' s) ∧
  (∀ clock now s, clock ≤ now → P clock s → P now (pruneExpired now s)) ∧
  (∀ clock s t next, Value t ≠ v → P clock s → P clock {| Tokens := Tokens s ++ [t]; NextRotationAt := next |}) ∧
  (∀ clock s next, P clock s → P clock {| Tokens := Tokens s; NextRotationAt := next |}).

Lemma lasts_stable v E : stable v (lasts v E).
Proof.
  split_and!.
  - intros clock clock' s Hle [H1 H2]. split; [done|]. destruct H2; [by left|right; lia].
  - intros clock now s Hle [H1 H2]. split; [intros t [Ht _]%elem_of_keep; by apply H1|].
    destruct H2 as [(t & Ht & Hv)|]; [|right; lia]. destruct (Z.ltb_spec now E) as [Hlt|]; [|by right]. left.
    exists t. split; [|done]. simpl. apply elem_of_keep. split; [done|]. rewrite (H1 t Ht Hv). by apply Z.ltb_lt.
  - intros clock s t next Hne [H1 H2]. split; simpl.
    + intros x [Hx| ->%list_elem_of_singleton]%elem_of_app; [by apply H1|done].
    + destruct H2 as [(x & Hx & Hv)|]; [left; exists x; split; [apply elem_of_app; by left|done]|by right].
  - done.
Qed.

Lemma without_stable v : stable v (λ _, without v).
Proof.
  split_and!; [done| |  |done].
  - intros clock now s _ H t [Ht _]%elem_of_keep. by apply H.
  - intros clock s t next Hne H x [Hx| ->%list_elem_of_singleton]%elem_of_app; [by apply H|done].
Qed.

Section stable.
Context (v : string) (P : Z → Store → Prop) (HP : stable v P).

Lemma rotate_stable clock m raw ts :
  raw ≠ Some v → clock ≤ t_prune ts ≤ t_next ts → P clock (m_store m) → P (t_next ts) (m_store (rotate m raw ts)).
Proof.
  destruct HP as (H1 & H2 & H3 & H4). intros Hraw Ht Hm. unfold rotate.
  destruct raw as [x|]; [|eapply H1; [|exact Hm]; lia].
  eapply (H4 _ (pruneExpired (t_prune ts) {| Tokens := _; NextRotationAt := NextRotationAt (m_store m) |})).
  eapply (H1 (t_prune ts)); [lia|]. apply (H2 clock); [lia|]. apply H3; [simpl; congruence|done].
Qed.

Definition all_stores (clock : Z) (w : RWorld) : Prop :=
  (∀ m, mgr w = Some m → P clock (m_store m)) ∧ (∀ s, rdisk w = Some s → P clock s) ∧
  (rdisk w = None → P clock no_store).

Lemma event_step_stable clock w e :
  all_stores clock w → event_ok clock w e → event_raw e ≠ Some v →
  all_stores (t_next (event_times e)) (event_step w e).
Proof.
  intros (Hm & Hd & Hn) (Ht & Hsm & He) Hraw.
  assert (Hd' : ∀ clock', clock ≤ clock' → (∀ s, rdisk w = Some s → P clock' s) ∧ (rdisk w = None → P clock' no_store))
    by (intros c' Hc; split; [intros s Hs|intros Hs]; (eapply (proj1 HP); [exact Hc|]); auto).
  destruct e as [raw ts saved|raw t_load t_check ts saved]; simpl in *.
  - destruct (mgr w) as [m|] eqn:Hmgr; [|split; [by rewrite Hmgr|apply Hd'; lia]].
    assert (Hr : P (t_next ts) (m_store (rotate m raw ts))) by (apply (rotate_stable clock); [done|lia|by apply Hm]).
    unfold rotation. split; simpl; [by intros ? [= <-]|]. destruct saved; [by split; [intros ? [= <-]|]|apply Hd'; lia].
  - unfold NewManager. rewrite (proj2 (Z.eqb_neq W 0)) by lia. cbv zeta.
    set (m0 := {| windowMinutes := W |}).
    assert (Hm0 : P t_load (m_store m0)).
    { apply (proj1 (proj2 HP) clock); [lia|]. destruct (rdisk w) as [s|]; [by apply Hd|by apply Hn]. }
    set (m1 := if (NextRotationAt (m_store m0) <=? t_check) || bool_decide (Tokens (m_store m0) = []) then rotate m0 raw ts else m0).
    assert (Hr : P (t_next ts) (m_store m1)).
    { subst m1. case_if; [apply (rotate_stable t_load); [done|lia|done]|]. eapply (proj1 HP); [|exact Hm0]. lia. }
    destruct saved; split; simpl; [by intros ? [= <-]|by split; [intros ? [= <-]|]|done|apply Hd'; lia].
Qed.

Lemma event_run_stable clock w es :
  all_stores clock w → events_ok clock w es → (∀ e, e ∈ es → event_raw e ≠ Some v) →
  all_stores (events_clock clock es) (event_run w es).
Proof.
  revert clock w. induction es as [|e es IH]; intros clock w Hw; [done|]. intros [He Hes] Hraw. simpl.
  apply IH; [eapply event_step_stable; [exact Hw|done|apply Hraw; left]|done|]. intros x Hx. apply Hraw. by right.
Qed.
End stable.

Lemma events_ok_app clock w es1 es2 :
  events_ok clock w (es1 ++ es2) ↔
  events_ok clock w es1 ∧ events_ok (events_clock clock es1) (event_run w es1) es2.
Proof.
  revert clock w. induction es1 as [|e es1 IH]; intros clock w; simpl; [tauto|]. rewrite IH. tauto.
Qed.

Lemma events_clock_app clock es1 es2 : events_clock clock (es1 ++ es2) = events_clock (events_clock clock es1) es2.
Proof. revert clock. induction es1; intros clock; simpl; [done|]. done. Qed.

Lemma events_clock_nonneg clock w es : 0 ≤ clock → events_ok clock w es → 0 ≤ events_clock clock es.
Proof.
  revert clock w. induction es as [|e es IH]; intros clock w H0; [done|]. intros [(H1 & H2 & H3) Hes].
  apply (IH _ (event_step w e)); [destruct e; simpl in *; lia|done].
Qed.

Lemma event_run_app w es1 es2 : event_run w (es1 ++ es2) = event_run (event_run w es1) es2.
Proof. apply fold_left_app. Qed.

(** A rotating token lasts its windows, no more and no less: after any
    rotations, saves that fail and restarts, before and since, the token minted
    by a rotation that was saved is accepted exactly until [window_minutes] times
    [window_count] minutes after it was minted. *)
Theorem token_lifetime es1 v ts es2 m t
    (Hok : events_ok 0 no_manager (es1 ++ Rotation (Some v) ts true :: es2))
    (Hmgr : is_Some (mgr (event_run no_manager es1)))
    (Hnew : ∀ e, e ∈ es1 ++ es2 → event_raw e ≠ Some v)
    (Hm : mgr (event_run no_manager (es1 ++ Rotation (Some v) ts true :: es2)) = Some m)
    (Ht : events_clock 0 (es1 ++ Rotation (Some v) ts true :: es2) ≤ t) :
  Manager_Validate m v t = (t <? t_expiry ts + W * C * 60).
Proof.
  rewrite event_run_app in Hm. rewrite events_clock_app in Ht. apply events_ok_app in Hok as [Hok1 [Hok Hok2]].
  pose proof (event_run_ok 0 no_manager es1 ltac:(done) no_manager_ok Hok1) as Hw.
  pose proof (events_clock_nonneg 0 _ es1 ltac:(done) Hok1) as H0.
  assert (Hwo : all_stores (λ _, without v) (events_clock 0 es1) (event_run no_manager es1)).
  { apply (event_run_stable v); [apply without_stable| |done|].
    - split_and!; [done..|]. by intros _ x Hx%not_elem_of_nil.
    - intros e He. apply Hnew, elem_of_app. by left. }
  set (w := event_run no_manager es1) in *. clearbody w. set (c := events_clock 0 es1) in *. clearbody c.
  destruct Hmgr as [m0 Hm0]. destruct (rw_mgr _ _ Hw m0 Hm0) as (HmW & HmC & _).
  destruct Hok as (Hts & Hsm & Hc & _). simpl in *.
  assert (Hl : all_stores (lasts v (t_expiry ts + W * C * 60)) (t_next ts) (event_step w (Rotation (Some v) ts true))).
  { simpl. rewrite Hm0. unfold rotation. assert (Hr : lasts v (t_expiry ts + W * C * 60) (t_next ts) (m_store (rotate m0 (Some v) ts))).
    { unfold rotate. destruct (expiry_small m0 ts HmW HmC ltac:(lia) Hsm) as [-> ->]. simpl.
      destruct (lasts_stable v (t_expiry ts + W * C * 60)) as (H1 & H2 & _ & H4).
      eapply (H4 _ (pruneExpired (t_prune ts) {| Tokens := _; NextRotationAt := NextRotationAt (m_store m0) |})).
      eapply (H1 (t_prune ts)); [lia|]. apply (H2 c); [lia|]. split; simpl.
      - intros x [Hx| ->%list_elem_of_singleton]%elem_of_app Hv; [|done]. by destruct (proj1 Hwo m0 Hm0 x Hx).
      - left. eexists. split; [apply elem_of_app; right; left|done]. }
    split_and!; simpl; [by intros ? [= <-]..|done]. }
  apply (event_run_stable v _ (lasts_stable v _)) with (es := es2) in Hl as [Hl _]; [|done|].
  - destruct (Hl m Hm) as [H1 H2]. simpl in Ht. unfold Manager_Validate.
    destruct (Z.ltb_spec t (t_expiry ts + W * C * 60)) as [Hlt|Hge].
    + destruct H2 as [(x & Hx & Hv)|]; [|lia]. apply existsb_Exists. exists x. split; [done|].
      rewrite (H1 x Hx Hv), bool_decide_true by done. by apply Z.ltb_lt.
    + apply not_true_iff_false. intros (x & Hx & Hb)%existsb_Exists. apply andb_true_iff in Hb as [Hv Hb].
      apply bool_decide_eq_true in Hv. rewrite (H1 x Hx Hv) in Hb. zb. lia.
  - intros e He. apply Hnew, elem_of_app. by right.
Qed.

(** An agent has at most [window_count] tokens at a time: at any time after
    any rotations and restarts, no more of its tokens are accepted. *)
Theorem tokens_bounded es m t
    (Hok : events_ok 0 no_manager es) (Hm : mgr (event_run no_manager es) = Some m) (Ht : events_clock 0 es ≤ t) :
  Z.of_nat (length (keep (λ tk, t <? ExpiresAt tk) (Tokens (m_store m)))) ≤ C.
Proof.
  destruct (event_run_ok 0 no_manager es ltac:(done) no_manager_ok Hok) as [Hw _].
  destruct (Hw m Hm) as (_ & _ & [S1 _ S3]). apply (spaced_length _ t); [by apply keep_spaced|].
  intros tk [Hin Hlt]%elem_of_keep. specialize (S3 tk Hin). zb. lia.
Qed.

(** *** The current token *)

(** A store's newest token outlives its next rotation. *)
Definition current_outlives (s : Store) : Prop := ∃ l t, Tokens s = l ++ [t] ∧ NextRotationAt s < ExpiresAt t.

(** The randomness is there, and a rotation takes less than a window. *)
Definition prompt (e : event) : Prop :=
  is_Some (event_raw e) ∧ t_next (event_times e) < t_expiry (event_times e) + W * 60.

Lemma rotate_outlives m v ts :
  2 ≤ C → windowMinutes m = W → windowCount m = C → 0 ≤ t_expiry ts ≤ t_prune ts → t_prune ts ≤ t_next ts →
  t_next ts < 2 ^ 62 → t_next ts < t_expiry ts + W * 60 → current_outlives (m_store (rotate m (Some v) ts)).
Proof.
  intros HC2 Hw Hc H1 H2 H3 H4. unfold rotate. destruct (expiry_small m ts Hw Hc ltac:(lia) H3) as [-> ->].
  assert (W * 60 + W * 60 ≤ W * C * 60) by nia. unfold pruneExpired. cbn [Tokens m_store with_store]. rewrite keep_app.
  exists (keep (λ t, t_prune ts <? ExpiresAt t) (Tokens (m_store m))), {| Value := v; ExpiresAt := t_expiry ts + W * C * 60 |}.
  unfold current_outlives. cbn [NextRotationAt Tokens ExpiresAt]. split; [|lia]. f_equal. simpl. case_if; [done|zb; lia].
Qed.

Lemma prune_outlives s now : current_outlives s → now ≤ NextRotationAt s → current_outlives (pruneExpired now s).
Proof.
  intros (l & t & Hl & Ht) Hnow. exists (keep (λ t, now <? ExpiresAt t) l), t. split; [|done]. simpl.
  rewrite Hl, keep_app. simpl. case_if; [done|zb; lia].
Qed.

Definition outlives (w : RWorld) : Prop :=
  (∀ m, mgr w = Some m → current_outlives (m_store m)) ∧
  (∀ s, rdisk w = Some s → current_outlives s).

Lemma event_step_outlives clock w e :
  2 ≤ C → 0 ≤ clock → rworld_ok clock w → event_ok clock w e → prompt e → outlives w → outlives (event_step w e).
Proof.
  intros HC2 H0 Hw (Ht & Hsm & He) [[v Hv] Hp] [Hm Hd].
  destruct e as [raw ts saved|raw t_load t_check ts saved]; simpl in *; subst raw.
  - destruct (mgr w) as [m|] eqn:Hmgr; [|by split; [rewrite Hmgr|]]. destruct (rw_mgr _ _ Hw m Hmgr) as (HmW & HmC & _).
    assert (Hr : current_outlives (m_store (rotate m (Some v) ts))) by (apply rotate_outlives; try done; lia).
    unfold rotation. split; simpl; [by intros ? [= <-]|]. destruct saved; [by intros ? [= <-]|done].
  - unfold NewManager. rewrite (proj2 (Z.eqb_neq W 0)) by lia. cbv zeta.
    set (m0 := {| windowMinutes := W |}).
    set (m1 := if (NextRotationAt (m_store m0) <=? t_check) || bool_decide (Tokens (m_store m0) = []) then rotate m0 (Some v) ts else m0).
    assert (Hr : current_outlives (m_store m1)).
    { subst m1. case_if; [apply rotate_outlives; try done; lia|]. apply orb_false_iff in Heqb as [Hb1 Hb2].
      apply bool_decide_eq_false in Hb2. destruct (rdisk w) as [s|]; [|done]. simpl in *.
      apply prune_outlives; [by apply Hd|]. zb. lia. }
    destruct saved; split; simpl; [by intros ? [= <-]|by intros ? [= <-]|done|done].
Qed.

Lemma event_run_outlives clock w es :
  2 ≤ C → 0 ≤ clock → rworld_ok clock w → events_ok clock w es → (∀ e, e ∈ es → prompt e) → outlives w →
  outlives (event_run w es).
Proof.
  intros HC2. revert clock w. induction es as [|e es IH]; intros clock w H0 Hw; [done|]. intros [He Hes] Hp Ho. simpl.
  apply (IH (t_next (event_times e))); [|by eapply event_step_ok|done|intros x Hx; apply Hp; by right|].
  - destruct He as (H1 & H2 & H3). destruct e; simpl in *; lia.
  - eapply event_step_outlives; [done|exact H0|done|done|apply Hp; left|done].
Qed.

(** The current token works: with two windows or more, randomness, and
    rotations that take less than a window, an agent that has a manager has a
    current token, and it is accepted at every time up to the next rotation. *)
Theorem current_token_accepted es m t
    (HC2 : 2 ≤ C) (Hok : events_ok 0 no_manager es) (Hp : ∀ e, e ∈ es → prompt e)
    (Hm : mgr (event_run no_manager es) = Some m) (Ht : t ≤ NextRotationAt (m_store m)) :
  Manager_Validate m (CurrentToken m) t = true.
Proof.
  destruct (event_run_outlives 0 no_manager es HC2 ltac:(done) no_manager_ok Hok Hp ltac:(by split)) as [Hw _].
  destruct (Hw m Hm) as (l & tk & Hl & Htk). unfold CurrentToken, Manager_Validate. rewrite Hl, last_snoc.
  apply existsb_Exists. exists tk. split; [apply elem_of_app; right; left|]. rewrite bool_decide_true by done. simpl. zb. lia.
Qed.
End over_time.

(** ** What the check decides *)

Section checking.
Context `{GoRange}.

Lemma resolveMessageToken_none named managers token now :
  resolveMessageToken named managers token now = None ↔
  (∀ s, named = Some s → ValidateWithID s token = None) ∧
  (∀ agent m, managers !! agent = Some m → Manager_Validate m token now = false).
Proof.
  unfold resolveMessageToken. destruct named as [s|]; simpl.
  - destruct (ValidateWithID s token) as [[a i]|] eqn:Hv; [split; [done|]; intros [Hs _]; specialize (Hs s eq_refl); congruence|].
    rewrite fmap_None, find_first_None, Forall_forall. split.
    + intros Hf. split; [by intros ? [= <-]|]. intros agent m Hm. apply (Hf (agent, m)). by apply elem_of_go_range.
    + intros [_ Hf] [agent m] Hm%elem_of_go_range. by eapply Hf.
  - rewrite fmap_None, find_first_None, Forall_forall. split.
    + intros Hf. split; [done|]. intros agent m Hm. apply (Hf (agent, m)). by apply elem_of_go_range.
    + intros [_ Hf] [agent m] Hm%elem_of_go_range. by eapply Hf.
Qed.

Lemma resolveMessageToken_rotating named managers token now agent :
  resolveMessageToken named managers token now = Some (agent, None) →
  (∀ s, named = Some s → ValidateWithID s token = None) ∧
  ∃ m, managers !! agent = Some m ∧ Manager_Validate m token now = true.
Proof.
  unfold resolveMessageToken. destruct (named ≫= _) as [[a i]|] eqn:Hn; [done|]. intros ([a m] & Hf & [= ->])%fmap_Some.
  split; [by intros s ->|]. apply find_first_Some in Hf as (l1 & l2 & Hl & Hv & _). exists m. split; [|done].
  apply elem_of_go_range. rewrite Hl. apply elem_of_app. right. left.
Qed.

(** An external message gets in only with a token of the agent it goes to.
    The check of a token is [MsgTokenValid] for an agent only with a named token
    of that agent that the limiter lets through, recording it, or, when no named
    token has the secret, with a rotating token of that agent that has not
    expired, and then nothing is recorded; it is rate limited only for a named
    token the limiter turns away, with the limiter's time; it is invalid exactly
    when neither store knows the token, and names no agent. *)
Theorem CheckMessageToken_spec named managers token now now_ns named' agent retry d
    (Hc : CheckMessageToken named managers token now now_ns = (named', (agent, retry, d))) :
  match d with
  | MsgTokenInvalid =>
      named' = named ∧ agent = "" ∧ (∀ s, named = Some s → ValidateWithID s token = None) ∧
      (∀ a m, managers !! a = Some m → Manager_Validate m token now = false)
  | MsgTokenValid =>
      retry = 0 ∧
      ((∃ s id s' r, named = Some s ∧ ValidateWithID s token = Some (agent, id) ∧
          Allow s agent id now_ns = (s', (true, r)) ∧ named' = Some s') ∨
       (∀ s, named = Some s → ValidateWithID s token = None) ∧ named' = named ∧
         ∃ m, managers !! agent = Some m ∧ Manager_Validate m token now = true)
  | MsgTokenRateLimited =>
      ∃ s id s', named = Some s ∧ ValidateWithID s token = Some (agent, id) ∧
        Allow s agent id now_ns = (s', (false, retry)) ∧ named' = Some s'
  end.
Proof.
  unfold CheckMessageToken in Hc. destruct (resolveMessageToken _ _ _ _) as [[a [id|]]|] eqn:Hr.
  - assert (Hs : ∃ s, named = Some s ∧ ValidateWithID s token = Some (a, id)).
    { unfold resolveMessageToken in Hr. destruct named as [s|]; simpl in Hr; [|by destruct (find_first _ _)].
      exists s. split; [done|]. destruct (ValidateWithID s token) as [[a' i']|]; [congruence|by destruct (find_first _ _)]. }
    destruct Hs as (s & -> & Hv). destruct (Allow s a id now_ns) as [s' [ok r]] eqn:Ha.
    destruct ok; injection Hc as <- <- <- <-.
    + split; [done|]. left. by exists s, id, s', r.
    + by exists s, id, s'.
  - injection Hc as <- <- <- <-. split; [done|]. right. apply resolveMessageToken_rotating in Hr as [H1 H2]. done.
  - injection Hc as <- <- <- <-. apply resolveMessageToken_none in Hr as [H1 H2]. done.
Qed.
End checking.

(** ** An agent with two windows of half an hour *)

Definition at_second (n : Z) : Times := {| t_expiry := n; t_prune := n; t_next := n |}.

(** A start, a rotation when it is due, a restart within its window, and the
    next rotation. *)
Definition a_day : list event :=
  [Start (Some "t0") 100 100 (at_second 100) true; Rotation (Some "t1") (at_second 1900) true;
   Start (Some "x") 2000 2000 (at_second 2000) true; Rotation (Some "t2") (at_second 3700) false].

Example a_day_tokens :
  (λ m, map (λ t, (Value t, ExpiresAt t)) (Tokens (m_store m))) <$> mgr (event_run 30 2 no_manager a_day) =
  Some [("t1", 5500); ("t2", 7300)].
Proof. vm_compute. reflexivity. Qed.

Definition day_manager : Manager :=
  {| windowMinutes := 30; windowCount := 2;
     m_store := {| Tokens := [{| Value := "t1"; ExpiresAt := 5500 |}; {| Value := "t2"; ExpiresAt := 7300 |}];
                   NextRotationAt := 5500 |} |}.

Lemma a_day_ok : events_ok 30 2 0 no_manager a_day.
Proof.
  cbn [a_day events_ok]. unfold event_ok. cbn [event_times at_second t_expiry t_prune t_next].
  repeat split; try lia; intros m Hm; vm_compute in Hm; injection Hm as <-; simpl; lia.
Qed.

Lemma token_lifetime_witness :
  Manager_Validate day_manager "t1" 5499 = true ∧ Manager_Validate day_manager "t1" 5500 = false.
Proof.
  assert (H : ∀ t, 3700 ≤ t → Manager_Validate day_manager "t1" t = (t <? 1900 + 30 * 2 * 60)).
  { intros t Ht. apply (token_lifetime 30 2 ltac:(lia) ltac:(lia) ltac:(lia)
      [Start (Some "t0") 100 100 (at_second 100) true] "t1" (at_second 1900)
      [Start (Some "x") 2000 2000 (at_second 2000) true; Rotation (Some "t2") (at_second 3700) false]).
    - exact a_day_ok.
    - vm_compute. by eexists.
    - intros e He. repeat (apply elem_of_cons in He as [->|He]; [discriminate|]). by apply not_elem_of_nil in He.
    - vm_compute. reflexivity.
    - exact Ht. }
  split; [rewrite (H 5499) by lia|rewrite (H 5500) by lia]; reflexivity.
Defined.

Lemma tokens_bounded_witness :
  mgr (event_run 30 2 no_manager a_day) = Some day_manager ∧
  Z.of_nat (length (keep (λ tk, 4000 <? ExpiresAt tk) (Tokens (m_store day_manager)))) ≤ 2.
Proof.
  assert (H : mgr (event_run 30 2 no_manager a_day) = Some day_manager) by (vm_compute; reflexivity).
  split; [exact H|].
  apply (tokens_bounded 30 2 ltac:(lia) ltac:(lia) ltac:(lia) a_day day_manager 4000 a_day_ok H). vm_compute. discriminate.
Defined.

Lemma current_token_accepted_witness :
  CurrentToken day_manager = "t2" ∧ Manager_Validate day_manager (CurrentToken day_manager) 5500 = true.
Proof.
  split; [vm_compute; reflexivity|].
  apply (current_token_accepted 30 2 ltac:(lia) ltac:(lia) ltac:(lia) a_day day_manager 5500 ltac:(lia) a_day_ok).
  - intros e He. repeat (apply elem_of_cons in He as [->|He]; [split; [by eexists|simpl; lia]|]).
    by apply not_elem_of_nil in He.
  - vm_compute. reflexivity.
  - vm_compute. discriminate.
Defined.

Lemma CheckMessageToken_spec_witness :
  let named := Some (store (run "f" (fresh "f") two_tokens).1) in
  CheckMessageToken named {[ "bob" := day_manager ]} "t2" 4000 4000000000000 = (named, ("bob", 0, MsgTokenValid)) ∧
  ∃ m, ({[ "bob" := day_manager ]} : gmap string Manager) !! "bob" = Some m ∧ Manager_Validate m "t2" 4000 = true.
Proof.
  intros named.
  assert (H : CheckMessageToken named {[ "bob" := day_manager ]} "t2" 4000 4000000000000 = (named, ("bob", 0, MsgTokenValid)))
    by (vm_compute; reflexivity).
  split; [exact H|]. apply CheckMessageToken_spec in H as [_ [H|(_ & _ & Hm)]]; [|exact Hm].
  destruct H as (s & id & s' & r & [= <-] & Hv & _). vm_compute in Hv. discriminate.
Defined.
