(* ===== verification/Filepath.v ===== *)
(** * File paths

    What the file tools use of Go's path/filepath on a Unix system: [Clean],
    [Join], [Dir], [Abs], [Rel] and [IsLocal], on strings, with the lemmas that
    turn them into operations on lists of components; and the two helpers of
    tools/files/filesystem.go that are about paths alone ([splitPath],
    [getSafeRelPath], [isWithinWorkspace]). *)

From stdpp Require Import base strings list sets.
From Stdlib Require Import ZArith Lia Ascii.
From S2P Require Import Prelude GoString.

Open Scope Z_scope.

(** ** path/filepath *)

Definition IsAbs (p : string) : bool := HasPrefix p "/".

(** The components of a path, without empty ones and ["."]. [splitPath] is this
    on a Unix system. *)
Definition splitPath (p : string) : list string :=
  keep (λ c, negb (bool_decide (c = "")) && negb (bool_decide (c = "."))) (Split p "/").

(** Taking a component onto a cleaned path, kept in reverse: [".."] drops the
    last component, is kept at the start of a relative path, and is nothing at
    the root. *)
Definition push (rooted : bool) (acc : list string) (c : string) : list string :=
  if bool_decide (c = "..") then
    match acc with
    | [] => if rooted then [] else [".."]
    | a :: acc' => if bool_decide (a = "..") then c :: acc else acc'
    end
  else c :: acc.

Definition cleaned (rooted : bool) (cs : list string) : list string := rev (foldl (push rooted) [] cs).

Definition render (rooted : bool) (cs : list string) : string :=
  if rooted then "/" +:+ Join cs "/" else if bool_decide (cs = []) then "." else Join cs "/".

Definition Clean (p : string) : string := render (IsAbs p) (cleaned (IsAbs p) (splitPath p)).

(** [filepath.Join] of two elements. *)
Definition Join2 (a b : string) : string :=
  if negb (bool_decide (a = "")) then Clean (a +:+ "/" +:+ b)
  else if negb (bool_decide (b = "")) then Clean b else "".

(** [Dir]: the path up to its last separator, cleaned. *)
Definition Dir (p : string) : string := Clean (of_bytes (trim_right_bytes (λ c, negb (Ascii.eqb c "/")) (bytes p))).

(** [Abs] with the working directory [cwd]. *)
Definition Abs (cwd p : string) : string := if IsAbs p then Clean p else Join2 cwd p.

Fixpoint strip_common (bs ts : list string) : list string * list string :=
  match bs, ts with
  | b :: bs', t :: ts' => if bool_decide (b = t) then strip_common bs' ts' else (bs, ts)
  | _, _ => (bs, ts)
  end.

(** [Rel]; [None] is its error. *)
Definition Rel (base targ : string) : option string :=
  let base := Clean base in
  let targ := Clean targ in
  if bool_decide (targ = base) then Some "."
  else if negb (Bool.eqb (IsAbs base) (IsAbs targ)) then None
  else
    let ts := if bool_decide (targ = ".") then ["."] else splitPath targ in
    match strip_common (splitPath base) ts with
    | (".." :: _, _ :: _) => None
    | (bs, ts) => Some (Join (map (λ _, "..") bs ++ ts) "/")
    end.

(** [IsLocal] *)
Definition IsLocal (p : string) : bool :=
  if IsAbs p || bool_decide (p = "") then false
  else
    let hasDots := existsb (λ c, bool_decide (c = ".") || bool_decide (c = "..")) (Split p "/") in
    let p := if hasDots then Clean p else p in
    negb (bool_decide (p = "..") || HasPrefix p "../").

(** ** The helpers of filesystem.go *)

Definition isWithinWorkspace (candidate workspace : string) : bool :=
  match Rel (Clean workspace) (Clean candidate) with Some rel => IsLocal rel | None => false end.

Inductive PathError := NoWorkspace | NotRelative | Escapes.

Definition getSafeRelPath (workspace path : string) : result string PathError :=
  if bool_decide (workspace = "") then Err NoWorkspace
  else
    let rel := Clean path in
    match (if IsAbs rel then Rel workspace rel else Some rel) with
    | None => Err NotRelative
    | Some rel => if IsLocal rel then Ok rel else Err Escapes
    end.

(** ** Components *)

(** A component as a directory holds it, and one of a cleaned path. *)
Definition component (c : string) : Prop := c ≠ "" ∧ c ≠ "." ∧ "/"%char ∉ bytes c.
Definition plain (c : string) : Prop := component c ∧ c ≠ "..".

Lemma dots_component : component "..".
Proof. split_and!; [done..|]. apply (bool_decide_unpack _). vm_compute. exact I. Qed.

Lemma Split_cons w rest : "/"%char ∉ bytes w → Split (w +:+ "/" +:+ rest) "/" = w :: Split rest "/".
Proof.
  intros Hw. unfold Split. rewrite !bytes_app. change (bytes "/") with ["/"%char]. cbn [app].
  rewrite split_byte_app by done. cbn [map]. by rewrite of_bytes_bytes.
Qed.

Lemma Split_one w : "/"%char ∉ bytes w → Split w "/" = [w].
Proof. intros Hw. unfold Split. rewrite split_byte_none by done. cbn [map]. by rewrite of_bytes_bytes. Qed.

Lemma Split_Join cs : cs ≠ [] → Forall (λ c, "/"%char ∉ bytes c) cs → Split (Join cs "/") "/" = cs.
Proof.
  intros Hne Hcs. induction Hcs as [|c cs Hc Hcs IH]; [done|]. destruct cs as [|d cs].
  - by apply Split_one.
  - change (Join (c :: d :: cs) "/") with (c +:+ "/" +:+ Join (d :: cs) "/"). rewrite Split_cons by done. by rewrite IH.
Qed.

Definition kept_component (c : string) : bool := negb (bool_decide (c = "")) && negb (bool_decide (c = ".")).

Lemma keep_all {A} (p : A → bool) l : (∀ x, x ∈ l → p x = true) → keep p l = l.
Proof.
  induction l as [|x l IH]; [done|]. intros H. simpl. rewrite (H x) by left. f_equal. apply IH. intros y Hy.
  apply H. by right.
Qed.

Lemma keep_component cs : Forall component cs → keep kept_component cs = cs.
Proof.
  intros Hcs. apply keep_all. intros c Hc. rewrite Forall_forall in Hcs. destruct (Hcs c Hc) as (H1 & H2 & _).
  unfold kept_component. by rewrite !bool_decide_false.
Qed.

Lemma split_byte_no_sep sep l : Forall (λ w, sep ∉ w) (split_byte sep l).
Proof.
  induction l as [|c l IH]; simpl; [by repeat constructor; apply not_elem_of_nil|].
  destruct (Ascii.eqb_spec c sep) as [->|Hne]; [constructor; [apply not_elem_of_nil|done]|].
  destruct (split_byte sep l) as [|w ws]; [constructor; [|done]; set_solver|].
  apply Forall_cons in IH as [Hw Hws]. constructor; [|done]. by apply not_elem_of_cons.
Qed.

Lemma splitPath_component p : Forall component (splitPath p).
Proof.
  apply Forall_forall. intros c [Hc Hk]%elem_of_keep. apply andb_true_iff in Hk as [H1 H2].
  apply negb_true_iff, bool_decide_eq_false in H1, H2. split_and!; [done..|].
  unfold Split in Hc. apply list_elem_of_fmap in Hc as (w & -> & Hw). rewrite bytes_of_bytes.
  pose proof (split_byte_no_sep "/" (bytes p)) as Hs. rewrite Forall_forall in Hs. by apply Hs.
Qed.

Lemma splitPath_Join cs : Forall component cs → splitPath (Join cs "/") = cs.
Proof.
  intros Hcs. destruct cs as [|c cs]; [done|]. unfold splitPath. rewrite Split_Join; [by apply keep_component|done|].
  eapply Forall_impl; [exact Hcs|]. by intros x (_ & _ & ?).
Qed.

Lemma splitPath_slash p : splitPath ("/" +:+ p) = splitPath p.
Proof. unfold splitPath. change ("/" +:+ p) with ("" +:+ "/" +:+ p). rewrite Split_cons; [done|apply not_elem_of_nil]. Qed.

Lemma splitPath_render r cs : Forall component cs → splitPath (render r cs) = cs.
Proof.
  intros Hcs. unfold render. destruct r; [rewrite splitPath_slash; by apply splitPath_Join|].
  case_bool_decide as H; [by rewrite H|by apply splitPath_Join].
Qed.

Lemma split_byte_app_all sep (a b : list ascii) : split_byte sep (a ++ sep :: b) = split_byte sep a ++ split_byte sep b.
Proof.
  induction a as [|c a IH]; simpl; [by rewrite Ascii.eqb_refl|].
  destruct (Ascii.eqb_spec c sep) as [->|Hne]; rewrite IH; [done|]. by destruct (split_byte sep a) eqn:E;
    [destruct a as [|x a]; simpl in E; [|destruct (Ascii.eqb x sep), (split_byte sep a)]|].
Qed.

Lemma splitPath_app a b : splitPath (a +:+ "/" +:+ b) = splitPath a ++ splitPath b.
Proof.
  unfold splitPath, Split. rewrite !bytes_app. change (bytes "/") with ["/"%char]. cbn [app].
  by rewrite split_byte_app_all, map_app, keep_app.
Qed.

(** *** Cleaning *)

Lemma push_plain r acc c : c ≠ ".." → push r acc c = c :: acc.
Proof. intros Hc. unfold push. by rewrite bool_decide_false. Qed.

Lemma foldl_push_plain r acc cs : Forall plain cs → foldl (push r) acc cs = rev cs ++ acc.
Proof.
  revert acc. induction cs as [|c cs IH]; intros acc Hcs; [done|]. apply Forall_cons in Hcs as [[_ Hc] Hcs]. simpl.
  by rewrite push_plain, IH, <- app_assoc.
Qed.

Lemma cleaned_plain r cs : Forall plain cs → cleaned r cs = cs.
Proof. intros Hcs. unfold cleaned. rewrite foldl_push_plain, app_nil_r by done. apply rev_involutive. Qed.

Lemma push_component r acc c : component c → Forall component acc → Forall component (push r acc c).
Proof.
  intros Hc Ha. unfold push. case_bool_decide; [|by constructor]. destruct acc as [|a acc].
  - destruct r; [constructor|]. rewrite <- H. by constructor.
  - apply Forall_cons in Ha as [Ha Hacc]. case_bool_decide; [|done]. by do 2 (constructor; [done|]).
Qed.

Lemma cleaned_component r cs : Forall component cs → Forall component (cleaned r cs).
Proof.
  intros Hcs. unfold cleaned. apply Forall_rev. assert (H0 : Forall component []) by constructor. revert H0.
  generalize (@nil string). induction Hcs as [|c cs Hc Hcs IH]; intros acc Hacc; [done|]. apply IH. by apply push_component.
Qed.

(** A rooted path cleans to plain components. *)
Lemma foldl_push_rooted acc cs : Forall component cs → Forall plain acc → Forall plain (foldl (push true) acc cs).
Proof.
  intros Hcs. revert acc. induction Hcs as [|c cs Hc Hcs IH]; intros acc Hacc; [done|]. apply IH. unfold push.
  case_bool_decide as Hd; [|by constructor]. destruct acc as [|a acc]; [constructor|].
  apply Forall_cons in Hacc as [[_ Ha] Hacc]. by rewrite bool_decide_false.
Qed.

Lemma cleaned_rooted cs : Forall component cs → Forall plain (cleaned true cs).
Proof. intros Hcs. apply Forall_rev. by apply foldl_push_rooted. Qed.

(** What a relative path keeps of [".."], it keeps at its start. *)
Lemma foldl_push_dots acc cs : ".." ∈ acc → ".." ∈ foldl (push false) acc cs.
Proof.
  revert acc. induction cs as [|c cs IH]; intros acc Hacc; [done|]. apply IH. unfold push.
  case_bool_decide; [|by right]. destruct acc as [|a acc]; [by apply not_elem_of_nil in Hacc|].
  case_bool_decide; [by right|]. apply elem_of_cons in Hacc as [|]; [congruence|done].
Qed.

Lemma foldl_push_base acc base cs :
  ".." ∉ acc → ".." ∉ foldl (push false) acc cs → Forall plain base →
  foldl (push true) (acc ++ base) cs = foldl (push false) acc cs ++ base.
Proof.
  revert acc. induction cs as [|c cs IH]; intros acc Hacc Hend Hbase; [done|]. simpl in *. unfold push in *.
  case_bool_decide as Hc.
  - destruct acc as [|a acc].
    + exfalso. apply Hend. apply foldl_push_dots. left.
    + apply not_elem_of_cons in Hacc as [Ha Hacc]. rewrite bool_decide_false in Hend by congruence. simpl.
      rewrite !bool_decide_false by congruence. by apply IH.
  - rewrite app_comm_cons. apply IH; [|done..]. apply not_elem_of_cons. split; [congruence|done].
Qed.

(** A relative path that stays below its start, joined to an absolute one. *)
Lemma cleaned_join base cs :
  Forall plain base → ".." ∉ cleaned false cs → cleaned true (base ++ cs) = base ++ cleaned false cs.
Proof.
  intros Hbase Hcs. unfold cleaned in *. rewrite foldl_app, (foldl_push_plain true [] base), app_nil_r by done.
  rewrite (foldl_push_base [] (rev base)).
  - by rewrite rev_app_distr, rev_involutive.
  - apply not_elem_of_nil.
  - intros H. apply Hcs. by apply list_elem_of_In, in_rev; rewrite rev_involutive; apply list_elem_of_In.
  - by apply Forall_rev.
Qed.

Lemma cleaned_absorb cs ds : cleaned true (cleaned true cs ++ ds) = cleaned true (cs ++ ds).
Proof.
  unfold cleaned. rewrite !foldl_app. f_equal. f_equal.
  assert (H : ∀ acc, Forall (λ c, c ≠ "..") acc → foldl (push true) [] (rev acc) = acc).
  { intros acc Ha. induction acc as [|a acc IH]; [done|]. apply Forall_cons in Ha as [Ha Hacc]. simpl.
    rewrite foldl_app, IH by done. simpl. by rewrite push_plain. }
  apply H. generalize (@nil string) (Forall_nil_2 (λ c : string, c ≠ "..")). induction cs as [|c cs IH]; intros acc Hacc; [done|].
  simpl. apply IH. unfold push. case_bool_decide; [|by constructor]. destruct acc as [|a acc]; [done|].
  apply Forall_cons in Hacc as [Ha Hacc]. by rewrite bool_decide_false.
Qed.

(** *** Cleaned strings *)

Lemma HasPrefix_slash s : HasPrefix s "/" = match bytes s with c :: _ => Ascii.eqb "/" c | [] => false end.
Proof.
  destruct s as [|c s]; [done|]. change (HasPrefix (String c s) "/") with (Ascii.eqb "/" c && HasPrefix s "").
  change (bytes (String c s)) with (c :: bytes s). destruct (Ascii.eqb "/" c); [by destruct s|done].
Qed.

Lemma IsAbs_component c rest : component c → IsAbs (c +:+ rest) = false.
Proof.
  intros (H1 & _ & H3). unfold IsAbs. rewrite HasPrefix_slash, bytes_app. destruct (bytes c) as [|x l] eqn:E.
  - destruct H1. by apply bytes_inj.
  - cbn [app]. destruct (Ascii.eqb_spec "/" x); [|done]. subst. destruct H3. left.
Qed.

Lemma Join_cons c cs : cs ≠ [] → Join (c :: cs) "/" = c +:+ "/" +:+ Join cs "/".
Proof. by destruct cs. Qed.

Lemma append_nil_r (s : string) : s +:+ "" = s.
Proof. apply bytes_inj. by rewrite bytes_app, app_nil_r. Qed.

Lemma IsAbs_render r cs : Forall component cs → IsAbs (render r cs) = r.
Proof.
  intros Hcs. unfold render. destruct r; [unfold IsAbs; by rewrite HasPrefix_slash|].
  case_bool_decide; [done|]. destruct Hcs as [|c cs Hc Hcs]; [done|]. destruct cs as [|d cs].
  - rewrite <- (append_nil_r (Join [c] "/")). by apply IsAbs_component.
  - rewrite Join_cons by done. by apply IsAbs_component.
Qed.

Lemma splitPath_Clean p : splitPath (Clean p) = cleaned (IsAbs p) (splitPath p).
Proof. apply splitPath_render, cleaned_component, splitPath_component. Qed.

Lemma IsAbs_Clean p : IsAbs (Clean p) = IsAbs p.
Proof. apply IsAbs_render, cleaned_component, splitPath_component. Qed.

Lemma Clean_render r cs : Forall plain cs → Clean (render r cs) = render r cs.
Proof.
  intros Hcs. assert (Hc : Forall component cs) by (eapply Forall_impl; [exact Hcs|]; by intros x []).
  unfold Clean. by rewrite IsAbs_render, splitPath_render, cleaned_plain.
Qed.

Lemma plain_component cs : Forall plain cs → Forall component cs.
Proof. intros H. eapply Forall_impl; [exact H|]. by intros x []. Qed.

(** An absolute path, cleaned: the components below the root. *)
Lemma Clean_abs p : IsAbs p = true → ∃ cs, Clean p = render true cs ∧ Forall plain cs ∧ cs = cleaned true (splitPath p).
Proof.
  intros Ha. exists (cleaned true (splitPath p)). unfold Clean. rewrite Ha. split; [done|]. split; [|done].
  apply cleaned_rooted, splitPath_component.
Qed.

Lemma Join2_abs ws p : IsAbs ws = true → Join2 ws p = render true (cleaned true (splitPath ws ++ splitPath p)).
Proof.
  intros Ha. unfold Join2. rewrite bool_decide_false by (by intros ->). simpl. unfold Clean. rewrite splitPath_app.
  assert (H : IsAbs (ws +:+ "/" +:+ p) = true); [|by rewrite H].
  unfold IsAbs in *. rewrite HasPrefix_slash in *. rewrite bytes_app. by destruct (bytes ws).
Qed.

(** The start of a relative path, cleaned. *)
Lemma cleaned_relative cs : Forall component cs →
  ∃ k ps, cleaned false cs = replicate k ".." ++ ps ∧ Forall plain ps.
Proof.
  intros Hcs. unfold cleaned.
  assert (H : ∀ acc, (∃ k ps, acc = ps ++ replicate k ".." ∧ Forall plain ps) →
              ∃ k ps, foldl (push false) acc cs = ps ++ replicate k ".." ∧ Forall plain ps).
  { induction Hcs as [|c cs Hc Hcs IH]; intros acc Hacc; [done|]. apply IH. destruct Hacc as (k & ps & -> & Hps).
    unfold push. case_bool_decide as Hd.
    - destruct ps as [|a ps]; simpl.
      + destruct k as [|k]; simpl; [by exists 1%nat, []|]. exists (S (S k)), []. by subst.
      + apply Forall_cons in Hps as [[_ Ha] Hps]. rewrite bool_decide_false by done. by exists k, ps.
    - exists k, (c :: ps). split; [done|]. constructor; [by split|done]. }
  destruct (H [] (ex_intro _ 0%nat (ex_intro _ [] (conj eq_refl (Forall_nil_2 _))))) as (k & ps & -> & Hps).
  exists k, (rev ps). rewrite rev_app_distr. split; [|by apply Forall_rev]. f_equal.
  clear. induction k as [|k IH]; [done|]. simpl. rewrite IH. symmetry. apply (replicate_cons_app k "..").
Qed.

(** *** Local paths *)

Lemma Split_render cs : Forall component cs → cs ≠ [] → Split (Join cs "/") "/" = cs.
Proof.
  intros Hcs Hne. apply Split_Join; [done|]. eapply Forall_impl; [exact Hcs|]. by intros x (_ & _ & ?).
Qed.

(** A string that is [".."] or starts with ["../"] splits as such. *)
Lemma Split_dots p : p = ".." ∨ HasPrefix p "../" = true → ∃ rest, Split p "/" = ".." :: rest.
Proof.
  intros [->|Hp]; [by exists []|]. apply HasPrefix_bytes in Hp as [k Hk]. exists (Split (of_bytes k) "/").
  rewrite <- Split_cons; [|apply dots_component].
  f_equal. apply bytes_inj. rewrite Hk, !bytes_app, bytes_of_bytes. done.
Qed.

Lemma IsLocal_plain cs : Forall plain cs → IsLocal (render false cs) = true.
Proof.
  intros Hcs. pose proof (plain_component cs Hcs) as Hc. unfold render. case_bool_decide as Hne; [done|].
  unfold IsLocal. assert (Ha : IsAbs (Join cs "/") = false).
  { pose proof (IsAbs_render false cs Hc) as H. unfold render in H. by rewrite bool_decide_false in H. }
  rewrite Ha. rewrite bool_decide_false; [|intros E; pose proof (Split_render cs Hc Hne) as Hs; rewrite E in Hs;
    vm_compute in Hs; subst; apply Forall_cons in Hc as [[H _] _]; done]. simpl.
  rewrite Split_render by done.
  assert (Hd : existsb (λ c, bool_decide (c = ".") || bool_decide (c = "..")) cs = false).
  { apply not_true_iff_false. rewrite existsb_Exists. intros (c & Hin & Hd). rewrite Forall_forall in Hcs.
    destruct (Hcs c Hin) as ((_ & H1 & _) & H2). rewrite !bool_decide_false in Hd by done. done. }
  rewrite Hd. apply negb_true_iff, orb_false_iff.
  assert (Hn : ¬ (Join cs "/" = ".." ∨ HasPrefix (Join cs "/") "../" = true)).
  { intros (rest & Hs)%Split_dots. rewrite Split_render in Hs by done. subst. apply Forall_cons in Hcs as [[_ H] _]. done. }
  split; [apply bool_decide_eq_false; tauto|]. apply not_true_iff_false. tauto.
Qed.

Lemma cleaned_dots cs : Forall component cs → ".." ∈ cleaned false cs →
  ∃ xs, cleaned false cs = ".." :: xs ∧ Forall component xs.
Proof.
  intros Hcs Hin. pose proof (cleaned_component false cs Hcs) as Hc.
  destruct (cleaned_relative cs Hcs) as (k & ps & E & Hps). rewrite E in *. destruct k as [|k]; simpl in *.
  - rewrite Forall_forall in Hps. by destruct (Hps ".." Hin).
  - apply Forall_cons in Hc as [_ Hc]. by exists (replicate k ".." ++ ps).
Qed.

Lemma HasPrefix_dots xs : xs ≠ [] → HasPrefix (Join (".." :: xs) "/") "../" = true.
Proof.
  intros Hne. rewrite Join_cons by done. apply HasPrefix_bytes. exists (bytes (Join xs "/")). by rewrite !bytes_app.
Qed.

Lemma dots_not_local cs : IsLocal (Join (".." :: cs) "/") = false.
Proof.
  unfold IsLocal. destruct (IsAbs (Join (".." :: cs) "/")) eqn:Ha; [done|].
  assert (Hs : ∃ rest, Split (Join (".." :: cs) "/") "/" = ".." :: rest).
  { destruct cs as [|t ts]; [by exists []|]. rewrite Join_cons by done. eexists. apply Split_cons, dots_component. }
  destruct Hs as [rest Hs]. rewrite bool_decide_false; [|intros E; rewrite E in Hs; done].
  cbn [orb]. rewrite Hs. cbn [existsb]. rewrite (bool_decide_true (".." = "..")), orb_true_r by done. cbn [orb].
  assert (Hx : ".." ∈ cleaned false (splitPath (Join (".." :: cs) "/"))).
  { unfold splitPath. rewrite Hs. cbn [keep]. rewrite !bool_decide_false by done. cbn [negb andb].
    unfold cleaned. apply list_elem_of_In. rewrite <- in_rev. apply list_elem_of_In. cbn [foldl].
    apply foldl_push_dots. vm_compute. left. }
  unfold Clean. rewrite Ha. destruct (cleaned_dots _ (splitPath_component _) Hx) as (xs & E & Hxs). rewrite E.
  unfold render. rewrite (bool_decide_false (".." :: xs = [])) by done. apply negb_false_iff, orb_true_iff.
  destruct xs as [|x xs]; [left; by apply bool_decide_eq_true|right; by apply HasPrefix_dots].
Qed.

Lemma IsLocal_clean p : IsAbs p = false → IsLocal (Clean p) = true → Forall plain (cleaned false (splitPath p)).
Proof.
  intros Ha Hl. unfold Clean in Hl. rewrite Ha in Hl. pose proof (cleaned_component false _ (splitPath_component p)) as Hc.
  destruct (decide (".." ∈ cleaned false (splitPath p))) as [Hin|Hin].
  - exfalso. destruct (cleaned_dots _ (splitPath_component p) Hin) as (xs & E & _). rewrite E in Hl. unfold render in Hl.
    rewrite (bool_decide_false (".." :: xs = [])) in Hl by done. by rewrite dots_not_local in Hl.
  - rewrite Forall_forall in *. intros c Hin'. split; [by apply Hc|]. by intros ->.
Qed.

(** *** Relative paths *)

Lemma strip_common_spec bs ts :
  ∃ cs, bs = cs ++ (strip_common bs ts).1 ∧ ts = cs ++ (strip_common bs ts).2 ∧
    (∀ b bs' t ts', (strip_common bs ts) = (b :: bs', t :: ts') → b ≠ t).
Proof.
  revert ts. induction bs as [|b bs IH]; intros [|t ts]; simpl; try by exists [].
  case_bool_decide as Hb.
  - destruct (IH ts) as (cs & H1 & H2 & H3). exists (t :: cs). subst b. simpl. split_and!; [by f_equal..|done].
  - exists []. split_and!; [done..|]. by intros ? ? ? ? [= <- <- <- <-].
Qed.

Lemma strip_common_prefix bs ts : (strip_common bs ts).1 = [] ↔ bs `prefix_of` ts.
Proof.
  revert ts. induction bs as [|b bs IH]; intros ts; [split; [intros _; apply prefix_nil|by destruct ts]|].
  destruct ts as [|t ts]; simpl; [split; [done|]; intros H; by apply prefix_nil_not in H|].
  case_bool_decide as Hb.
  - rewrite IH. subst. split; [apply prefix_cons|apply prefix_cons_inv_2].
  - split; [done|]. intros H. by apply prefix_cons_inv_1 in H.
Qed.

Lemma strip_common_app bs ts : strip_common bs (bs ++ ts) = ([], ts).
Proof. induction bs as [|b bs IH]; [by destruct ts|]. simpl. by rewrite bool_decide_true. Qed.

(** The result of [Rel] on cleaned paths of plain components. *)
Lemma Rel_render r bs ts :
  Forall plain bs → Forall plain ts →
  Rel (render r bs) (render r ts) =
    if bool_decide (render r ts = render r bs) then Some "."
    else let ts := if bool_decide (render r ts = ".") then ["."] else ts in
         Some (Join (map (λ _, "..") (strip_common bs ts).1 ++ (strip_common bs ts).2) "/").
Proof.
  intros Hb Ht. unfold Rel. cbv zeta. rewrite !Clean_render by done. case_bool_decide; [done|].
  rewrite !IsAbs_render by by apply plain_component. rewrite Bool.eqb_reflx. cbn [negb].
  rewrite !splitPath_render by by apply plain_component.
  set (ts' := if bool_decide _ then ["."] else ts). destruct (strip_common_spec bs ts') as (cs & H1 & _).
  destruct (strip_common bs ts') as [[|b bs'] rest]; [done|]. simpl in *.
  assert (b ≠ "..") as Hd by (rewrite H1 in Hb; apply Forall_app in Hb as [_ Hb]; by apply Forall_cons in Hb as [[_ ?] _]).
  destruct b as [|[[] [] [] [] [] [] [] []] b]; try done. destruct b as [|[[] [] [] [] [] [] [] []] b]; try done.
  by destruct b, rest.
Qed.

Lemma render_inj r bs ts : Forall component bs → Forall component ts → render r bs = render r ts → bs = ts.
Proof. intros Hb Ht E. rewrite <- (splitPath_render r bs), <- (splitPath_render r ts) by done. by rewrite E. Qed.

(** A path is within another when the other's components start its own. *)
Lemma isWithin_prefix r cs ws :
  Forall plain cs → Forall plain ws → isWithinWorkspace (render r cs) (render r ws) = true → ws `prefix_of` cs.
Proof.
  intros Hc Hw. unfold isWithinWorkspace. rewrite !Clean_render by done. rewrite Rel_render by done. cbv zeta.
  case_bool_decide as He.
  { intros _. apply render_inj in He as ->; [done|by apply plain_component..]. }
  set (ts := if bool_decide _ then ["."] else cs). destruct (strip_common ws ts) as [[|b bs] rest] eqn:E; cbn [map fst snd app].
  - intros _. assert (Hp : ws `prefix_of` ts) by (apply strip_common_prefix; by rewrite E). subst ts.
    case_bool_decide as Hdot; [|done]. exfalso. destruct ws as [|w ws].
    + apply He. rewrite Hdot. destruct r; [|done]. by unfold render in Hdot.
    + apply prefix_cons_inv_1 in Hp as ->. by apply Forall_cons in Hw as [((_ & Hw & _) & _) _].
  - by rewrite dots_not_local.
Qed.

Lemma strip_common_local r ws cs :
  Forall plain ws → Forall plain cs →
  (∃ rel, Rel (render r ws) (render r cs) = Some rel ∧ IsLocal rel = true) →
  ∃ ps, cs = ws ++ ps ∧ Rel (render r ws) (render r cs) = Some (render false ps).
Proof.
  intros Hw Hc (rel & Hrel & Hl).
  assert (Hp : ws `prefix_of` cs).
  { apply (isWithin_prefix r); [done..|]. unfold isWithinWorkspace. rewrite !Clean_render by done. by rewrite Hrel. }
  destruct Hp as [ps ->]. exists ps. split; [done|]. rewrite Rel_render by done. apply Forall_app in Hc as [_ Hps].
  case_bool_decide as He.
  - apply render_inj in He; [|apply Forall_app; split; by apply plain_component|by apply plain_component].
    assert (ps = []) as -> by (apply (app_inv_head ws); by rewrite app_nil_r). done.
  - cbv zeta. rewrite bool_decide_false.
    + rewrite strip_common_app. cbn [map fst snd app]. unfold render. rewrite bool_decide_false; [done|].
      intros ->. apply He. by rewrite app_nil_r.
    + intros Hd. destruct r; [by unfold render in Hd|]. unfold render in Hd.
      case_bool_decide as Hn; [apply app_eq_nil in Hn as [-> ->]; by apply He|].
      pose proof (Split_render (ws ++ ps)) as Hs. rewrite Hd in Hs.
      assert (Hpl : Forall plain (ws ++ ps)) by (by apply Forall_app).
      specialize (Hs (plain_component _ Hpl) Hn). change (Split "." "/") with ["."] in Hs. rewrite <- Hs in Hpl.
      by apply Forall_cons in Hpl as [((_ & H & _) & _) _].
Qed.

Lemma Rel_below W ps : Forall plain W → Forall plain ps → Rel (render true W) (render true (W ++ ps)) = Some (render false ps).
Proof.
  intros HW Hps. assert (Hall : Forall plain (W ++ ps)) by (by apply Forall_app). rewrite Rel_render by done.
  case_bool_decide as He.
  - apply render_inj in He; [|by apply plain_component..].
    assert (ps = []) as -> by (apply (app_inv_head W); by rewrite app_nil_r). done.
  - cbv zeta. rewrite bool_decide_false by done. rewrite strip_common_app. cbn [map fst snd app]. unfold render at 1.
    rewrite bool_decide_false; [done|]. intros E. apply He. by rewrite E, app_nil_r.
Qed.

(** What the write scope makes of a path, absolute and relative to the
    workspace, agrees with the sandbox's own relative path. *)
Lemma getSafeRelPath_same cwd ws path rel :
  IsAbs ws = true → getSafeRelPath ws path = Ok rel →
  ∃ ps, Forall plain ps ∧ rel = render false ps ∧
    (if IsAbs path then Clean path else Abs cwd (Join2 ws path)) = render true (cleaned true (splitPath ws) ++ ps) ∧
    Rel (Abs cwd ws) (if IsAbs path then Clean path else Abs cwd (Join2 ws path)) = Some rel.
Proof.
  intros Hws. unfold getSafeRelPath. case_bool_decide as He; [by subst|]. cbv zeta. rewrite IsAbs_Clean.
  destruct (Clean_abs ws Hws) as (W & HW & HpW & EW). unfold Abs at 2 3. rewrite Hws, HW.
  destruct (IsAbs path) eqn:Hp.
  - destruct (Clean_abs path Hp) as (P & HP & HpP & _). rewrite HP.
    assert (Hr : Rel ws (render true P) = Rel (render true W) (render true P)).
    { unfold Rel. rewrite HW, (Clean_render true W) by done. done. }
    rewrite Hr. destruct (Rel (render true W) (render true P)) as [rel'|] eqn:E; [|done].
    destruct (IsLocal rel') eqn:El; [|done]. intros [= <-].
    destruct (strip_common_local true W P HpW HpP) as (ps & -> & E'); [by exists rel'|]. rewrite E in E'.
    exists ps. apply Forall_app in HpP as [_ Hps]. subst W. split_and!; [done|congruence|done..].
  - destruct (IsLocal (Clean path)) eqn:El; [|done]. intros [= <-].
    pose proof (IsLocal_clean path Hp El) as Hps. set (ps := cleaned false (splitPath path)) in *.
    rewrite (Join2_abs ws path Hws). rewrite <- cleaned_absorb, <- EW.
    assert (Hcat : cleaned true (W ++ splitPath path) = W ++ ps).
    { apply cleaned_join; [done|]. intros Hin. rewrite Forall_forall in Hps. by destruct (Hps _ Hin). }
    rewrite Hcat. assert (Hall : Forall plain (W ++ ps)) by (by apply Forall_app).
    unfold Abs. rewrite IsAbs_render, Clean_render by (try apply plain_component; done).
    pose proof (Rel_below W ps HpW Hps) as Hrel.
    assert (Hclean : Clean path = render false ps) by (unfold Clean; by rewrite Hp).
    rewrite Hclean. exists ps. subst W. split_and!; done.
Qed.

Lemma Join_snoc cs c : cs ≠ [] → Join (cs ++ [c]) "/" = Join cs "/" +:+ "/" +:+ c.
Proof.
  intros Hne. induction cs as [|x cs IH]; [done|]. destruct cs as [|y cs]; [done|].
  cbn [app]. rewrite Join_cons by done. change (y :: cs ++ [c]) with ((y :: cs) ++ [c]). rewrite IH by done.
  rewrite (Join_cons x) by done. apply bytes_inj. rewrite !bytes_app. by rewrite <- !app_assoc.
Qed.

(** The directory of an absolute path. *)
Lemma Dir_render cs c : Forall plain (cs ++ [c]) → Dir (render true (cs ++ [c])) = render true cs.
Proof.
  intros Hc. pose proof (plain_component _ Hc) as Hcc. apply Forall_app in Hc as [Hcs Hc]. apply Forall_cons in Hc as [[(_ & _ & Hc) _] _].
  unfold Dir. assert (Htrim : ∀ l, trim_right_bytes (λ c, negb (Ascii.eqb c "/")) (l ++ "/"%char :: bytes c) = l ++ ["/"%char]).
  { intros l. unfold trim_right_bytes. rewrite rev_app_distr. simpl. rewrite <- app_assoc. simpl.
    assert (Hd : ∀ m rest, "/"%char ∉ m → drop_while (λ c, negb (Ascii.eqb c "/")) (m ++ "/"%char :: rest) = "/"%char :: rest).
    { intros m rest. induction m as [|x m IH]; [done|]. intros [Hx Hm]%not_elem_of_cons. simpl.
      destruct (Ascii.eqb_spec x "/"); [congruence|]. by apply IH. }
    rewrite Hd; [simpl; by rewrite rev_involutive|]. intros Hin. apply Hc. apply list_elem_of_In. apply in_rev. by apply list_elem_of_In. }
  assert (Hform : ∃ l, bytes (render true (cs ++ [c])) = l ++ "/"%char :: bytes c ∧ splitPath (of_bytes (l ++ ["/"%char])) = cs ∧
     IsAbs (of_bytes (l ++ ["/"%char])) = true).
  { clear Htrim. destruct (decide (cs = [])) as [->|Hne]; [by exists []|].
    exists (bytes ("/" +:+ Join cs "/")). split_and!.
    - unfold render. rewrite Join_snoc by done. rewrite !bytes_app. by rewrite <- app_assoc.
    - change ["/"%char] with (bytes "/"). rewrite <- bytes_app, of_bytes_bytes.
      assert (Happ : ("/" +:+ Join cs "/") +:+ "/" = "/" +:+ (Join cs "/" +:+ "/" +:+ "")).
      { apply bytes_inj. rewrite !bytes_app. by rewrite app_nil_r, app_assoc. }
      rewrite Happ, splitPath_slash, splitPath_app, splitPath_Join; [by rewrite app_nil_r|].
      by apply plain_component.
    - change ["/"%char] with (bytes "/"). rewrite <- bytes_app, of_bytes_bytes. unfold IsAbs.
      rewrite HasPrefix_slash, !bytes_app. done. }
  destruct Hform as (l & -> & Hs & Ha). rewrite Htrim. unfold Clean. rewrite Ha, Hs. by rewrite cleaned_plain.
Qed.
