(* ===== verification/WriteScope.v ===== *)
(** * Where the file tools write (tools/files/filesystem.go, mounts.go)

    The layers of file systems that a writing tool goes through: mounts, the
    write folder, the read folders, host paths that are allowed, the sandbox of
    the workspace. A workspace is a tree of files, directories and links; what
    the operating system does with a path below it, links followed and missing
    directories made, is the relation [lands]. The theorem: whatever path a tool
    is given, what is written is below the write folder, with links resolved, or
    in a writable mount, or at an allowed host path. Nothing else changes the
    workspace between the check and the write; the patterns of allowed paths are
    predicates. *)

From stdpp Require Import base gmap strings list sets.
From Stdlib Require Import ZArith Lia Ascii.
From S2P Require Import Prelude GoString Filepath.

Open Scope Z_scope.

(** ** Trees *)

(** [NSealed] is a directory that may not be searched. *)
Inductive node := NFile | NDir (entries : gmap string node) | NSealed | NLink (target : string).

(** What is at a path none of whose directories is a link. *)
Fixpoint node_at (n : node) (cs : list string) : option node :=
  match cs with
  | [] => Some n
  | c :: rest => match n with NDir m => m !! c ≫= λ n', node_at n' rest | _ => None end
  end.

(** [root.Lstat] on such a path; missing is [fs.ErrNotExist] or [ENOTDIR]. *)
Inductive lstat_result := LNode (n : node) | LMissing | LError.

Fixpoint lstat (n : node) (cs : list string) : lstat_result :=
  match cs with
  | [] => LNode n
  | c :: rest =>
      match n with
      | NDir m => match m !! c with Some n' => lstat n' rest | None => LMissing end
      | NFile => LMissing
      | NSealed | NLink _ => LError
      end
  end.

(** ** Resolving links *)

Definition maxLinkHops : nat := 40.

Inductive Resolution := Resolved (cs : list string) | NotInside | ResolveFailed.

(** [resolveInWorkspace]: [resolved] as its components, [pending] what is left
    of the path, [hops] the links that may still be followed. *)
Fixpoint resolve (hops : nat) (root : node) : list string → list string → Resolution :=
  fix go (resolved pending : list string) : Resolution :=
    match pending with
    | [] => Resolved resolved
    | c :: rest =>
        if bool_decide (c = "..") then
          if bool_decide (resolved = []) then NotInside else go (removelast resolved) rest
        else
          let next := resolved ++ [c] in
          match lstat root next with
          | LMissing => if bool_decide (".." ∈ rest) then NotInside else Resolved (next ++ rest)
          | LError => ResolveFailed
          | LNode (NLink target) =>
              match hops with
              | O => NotInside
              | S hops => if IsAbs target then NotInside else resolve hops root resolved (splitPath target ++ rest)
              end
          | LNode _ => go next rest
          end
    end.

Definition resolveInWorkspace (root : node) (rel : string) : Resolution := resolve maxLinkHops root [] (splitPath rel).

(** ** Layers *)

Inductive WriteError :=
| OutsideWriteFolder | ResolvesOutside | ReadOnlyMount (name : string)
| BadPath (e : PathError) | Unresolvable | NoRoot.

(** What a layer in the end asks the operating system to write: a host path, or
    a path relative to the root of a sandbox. *)
Inductive effect := OnHost (path : string) | InSandbox (workspace rel : string).

Record mountEntry := { mount_path : string; writable : bool }.

(** A file system with its parameters; a pattern list is the predicate of the
    paths it matches, [None] when it is empty. *)
Inductive fileSystem :=
| hostFs
| sandboxFs (workspace : string)
| whitelistFs (workspace : string) (matches : string → bool)
| readScopedFs (inner : fileSystem)
| writeScopedFs (inner : fileSystem) (workspace writeRoot : string) (matches : string → bool)
| mountFs (inner : fileSystem) (mounts : gmap string mountEntry).

(** The write operations of the interface. *)
Inductive write_op := OpWriteFile | OpWriteFileExcl | OpMkdirAll | OpRemove.

#[export] Instance write_op_eq_dec : EqDecision write_op.
Proof. solve_decision. Defined.

Section layers.
(** The working directory, and the tree below a directory that can be opened. *)
Context (cwd : string) (disk : string → option node).

(** [resolvedWithinRoot] *)
Definition resolvedWithinRoot (workspace absPath absRoot : string) : result unit WriteError :=
  let absWorkspace := Abs cwd workspace in
  match Rel absWorkspace absPath, Rel absWorkspace absRoot with
  | Some relPath, Some relRoot =>
      match disk absWorkspace with
      | None => Err NoRoot
      | Some root =>
          match resolveInWorkspace root relRoot with
          | ResolveFailed => Err Unresolvable
          | NotInside => Err ResolvesOutside
          | Resolved resolvedRoot =>
              match resolveInWorkspace root relPath with
              | ResolveFailed => Err Unresolvable
              | NotInside => Err ResolvesOutside
              | Resolved resolved =>
                  if negb (bool_decide (resolved = resolvedRoot)) &&
                     negb (isWithinWorkspace (render false resolved) (render false resolvedRoot))
                  then Err ResolvesOutside else Ok tt
              end
          end
      end
  | _, _ => Err (BadPath NotRelative)
  end.

(** The path a layer takes a tool's path for. *)
Definition abs_path (workspace path : string) : string :=
  if IsAbs path then Clean path else Abs cwd (Join2 workspace path).

Definition writeAllowed (workspace writeRoot : string) (matches : string → bool) (path : string) (parentOnly : bool)
    : result unit WriteError :=
  if matches path then Ok tt
  else
    let absRoot := Abs cwd writeRoot in
    let absPath := abs_path workspace path in
    if negb (bool_decide (absPath = absRoot)) && negb (isWithinWorkspace absPath absRoot) then Err OutsideWriteFolder
    else if parentOnly then resolvedWithinRoot workspace (Dir absPath) absRoot
    else resolvedWithinRoot workspace absPath absRoot.

(** [mountFs.resolve]: the mount, and the path below it. *)
Definition mount_resolve (mounts : gmap string mountEntry) (path : string) : option (string * mountEntry * string) :=
  let p := if HasPrefix path "./" then of_bytes (drop 2 (bytes path)) else path in
  let '(name, rest) := match SplitN p "/" 2 with
                       | [before; after] => (before, if bool_decide (after = "") then "." else after)
                       | _ => (p, ".")
                       end in
  match mounts !! name with Some me => Some (name, me, rest) | None => None end.

(** [sandboxFs.execute] up to the operation. *)
Definition execute (workspace path : string) : result effect WriteError :=
  if bool_decide (workspace = "") then Err (BadPath NoWorkspace)
  else match disk (Abs cwd workspace) with
       | None => Err NoRoot
       | Some _ => match getSafeRelPath workspace path with
                   | Ok rel => Ok (InSandbox workspace rel)
                   | Err e => Err (BadPath e)
                   end
       end.

(** [WriteFile], [WriteFileMode], [WriteFileExclMode], [MkdirAll] and [Remove] of
    every layer, up to the operation itself. *)
Fixpoint fs_write (f : fileSystem) (op : write_op) (path : string) : result effect WriteError :=
  match f with
  | hostFs => Ok (OnHost path)
  | sandboxFs ws => execute ws path
  | whitelistFs ws matches => if matches path then Ok (OnHost path) else execute ws path
  | readScopedFs inner => fs_write inner op path
  | writeScopedFs inner ws writeRoot matches =>
      (let* _ := writeAllowed ws writeRoot matches path (bool_decide (op = OpRemove)) in fs_write inner op path)%go
  | mountFs inner mounts =>
      match mount_resolve mounts path with
      | Some (name, me, rel) => if writable me then execute (mount_path me) rel else Err (ReadOnlyMount name)
      | None => fs_write inner op path
      end
  end.

(** [checkWrite] *)
Fixpoint checkWrite (f : fileSystem) (path : string) : result unit WriteError :=
  match f with
  | hostFs | sandboxFs _ | whitelistFs _ _ => Ok tt
  | readScopedFs inner => checkWrite inner path
  | writeScopedFs inner ws writeRoot matches =>
      (let* _ := writeAllowed ws writeRoot matches path false in checkWrite inner path)%go
  | mountFs inner mounts =>
      match mount_resolve mounts path with
      | Some (name, me, _) => if writable me then Ok tt else Err (ReadOnlyMount name)
      | None => checkWrite inner path
      end
  end.
End layers.

(** [buildBaseFs]; [patterns] is [None] when there are none, [readScope] says
    whether reads are confined to folders. *)
Definition buildBaseFs (workspace : string) (restrict : bool) (patterns : option (string → bool)) (readScope : bool)
    : fileSystem :=
  if negb restrict then hostFs
  else
    let inner := match patterns with Some matches => whitelistFs workspace matches | None => sandboxFs workspace end in
    if readScope && negb (bool_decide (workspace = "")) then readScopedFs inner else inner.

Definition withMounts (mounts : gmap string mountEntry) (inner : fileSystem) : fileSystem :=
  if bool_decide (mounts = ∅) then inner else mountFs inner mounts.

Definition pattern_matches (patterns : option (string → bool)) (path : string) : bool :=
  match patterns with Some matches => matches path | None => false end.

Definition buildWriteFs (workspace : string) (restrict : bool) (writeSubdir : string) (patterns : option (string → bool))
    (readScope : bool) (mounts : gmap string mountEntry) : fileSystem :=
  let base := buildBaseFs workspace restrict patterns readScope in
  if negb restrict || bool_decide (writeSubdir = "") then withMounts mounts base
  else withMounts mounts
         (writeScopedFs base workspace (Join2 workspace writeSubdir) (pattern_matches patterns)).

(** ** What the operating system does with a path

    [lands root cur pending root' loc]: from the directory at [cur], following
    [pending] within the tree [root] as [os.Root] does, with missing directories
    made on the way, leads to [loc], and the tree is then [root']. A link is
    followed from where it is; one that is absolute or leads out is refused, so
    that there is no rule for it. *)

Fixpoint make_dir (n : node) (cur : list string) (c : string) : node :=
  match n with
  | NDir m =>
      match cur with
      | [] => NDir (<[c := NDir ∅]> m)
      | x :: rest => match m !! x with Some n' => NDir (<[x := make_dir n' rest c]> m) | None => n end
      end
  | _ => n
  end.

Inductive lands : node → list string → list string → node → list string → Prop :=
| lands_here root cur : lands root cur [] root cur
| lands_up root cur x rest root' loc :
    lands root cur rest root' loc → lands root (cur ++ [x]) (".." :: rest) root' loc
| lands_in root cur c n rest root' loc :
    c ≠ ".." → node_at root (cur ++ [c]) = Some n → (∀ t, n ≠ NLink t) →
    lands root (cur ++ [c]) rest root' loc → lands root cur (c :: rest) root' loc
| lands_link root cur c target rest root' loc :
    c ≠ ".." → node_at root (cur ++ [c]) = Some (NLink target) → IsAbs target = false →
    lands root cur (splitPath target ++ rest) root' loc → lands root cur (c :: rest) root' loc
| lands_new root cur c m rest root' loc :
    c ≠ ".." → node_at root cur = Some (NDir m) → m !! c = None →
    lands (make_dir root cur c) (cur ++ [c]) rest root' loc → lands root cur (c :: rest) root' loc.

(** What each operation of a sandbox touches: [MkdirAll] the directory the path
    leads to; the others an entry of the directory its parent leads to, which
    they do not follow: a write replaces what is there by renaming a file over
    it, an exclusive one needs nothing to be there, [Remove] unlinks it. *)
Definition touches (root : node) (op : write_op) (rel : string) (loc : list string) : Prop :=
  match op with
  | OpMkdirAll => ∃ root', lands root [] (splitPath rel) root' loc
  | _ => ∃ init name root' parent m,
      splitPath rel = init ++ [name] ∧ lands root [] init root' parent ∧ node_at root' parent = Some (NDir m) ∧
      loc = parent ++ [name] ∧ (op = OpWriteFileExcl → m !! name = None)
  end.

(** ** The resolution is the operating system's *)

Lemma node_at_app n a b : node_at n (a ++ b) = node_at n a ≫= λ n', node_at n' b.
Proof.
  revert n. induction a as [|x a IH]; intros n; [done|]. simpl. destruct n as [|m| |]; try done.
  destruct (m !! x); [apply IH|done].
Qed.

Lemma lstat_node_at n cs x : node_at n cs = Some x → lstat n cs = LNode x.
Proof.
  revert n. induction cs as [|c cs IH]; intros n; simpl; [by intros [= ->]|]. destruct n as [|m| |]; try done.
  destruct (m !! c); [apply IH|done].
Qed.

Lemma lstat_missing n cur m c : node_at n cur = Some (NDir m) → m !! c = None → lstat n (cur ++ [c]) = LMissing.
Proof.
  revert n. induction cur as [|x cur IH]; intros n; simpl; [intros [= ->] Hc; by rewrite Hc|].
  destruct n as [|m'| |]; try done. destruct (m' !! x); [apply IH|done].
Qed.

Lemma node_at_make_dir n cur m c : node_at n cur = Some (NDir m) → node_at (make_dir n cur c) (cur ++ [c]) = Some (NDir ∅).
Proof.
  revert n. induction cur as [|x cur IH]; intros n; simpl; [intros [= ->]; simpl; by rewrite lookup_insert_eq|].
  destruct n as [|m'| |]; try done. destruct (m' !! x) as [n'|] eqn:Hx; [|done]. simpl. intros Hn.
  rewrite lookup_insert_eq. simpl. by apply IH.
Qed.

(** Below a new directory nothing leads anywhere else. *)
Lemma lands_fresh root cur rest root' loc :
  node_at root cur = Some (NDir ∅) → ".." ∉ rest → lands root cur rest root' loc → loc = cur ++ rest.
Proof.
  intros He Hd Hl. induction Hl as [root cur|root cur x rest root' loc Hl IH|root cur c n rest root' loc Hc Hn _ Hl IH|
    root cur c t rest root' loc Hc Hn _ Hl IH|root cur c m rest root' loc Hc Hn Hm Hl IH].
  - by rewrite app_nil_r.
  - destruct Hd. left.
  - rewrite node_at_app, He in Hn. simpl in Hn. by rewrite lookup_empty in Hn.
  - rewrite node_at_app, He in Hn. simpl in Hn. by rewrite lookup_empty in Hn.
  - apply not_elem_of_cons in Hd as [_ Hd]. rewrite IH; [by rewrite <- app_assoc|by eapply node_at_make_dir|done].
Qed.

Lemma resolve_cons hops root cur c rest :
  resolve hops root cur (c :: rest) =
    if bool_decide (c = "..") then
      if bool_decide (cur = []) then NotInside else resolve hops root (removelast cur) rest
    else match lstat root (cur ++ [c]) with
         | LMissing => if bool_decide (".." ∈ rest) then NotInside else Resolved ((cur ++ [c]) ++ rest)
         | LError => ResolveFailed
         | LNode (NLink target) =>
             match hops with
             | O => NotInside
             | S hops => if IsAbs target then NotInside else resolve hops root cur (splitPath target ++ rest)
             end
         | LNode _ => resolve hops root (cur ++ [c]) rest
         end.
Proof. by destruct hops. Qed.

(** A path that the check resolves leads where the check says. *)
Lemma resolve_lands hops root cur pending root' loc cs :
  lands root cur pending root' loc → resolve hops root cur pending = Resolved cs → loc = cs.
Proof.
  intros Hl. revert hops. induction Hl as [root cur|root cur x rest root' loc Hl IH|root cur c n rest root' loc Hc Hn Hlink Hl IH|
    root cur c t rest root' loc Hc Hn Ht Hl IH|root cur c m rest root' loc Hc Hn Hm Hl IH]; intros hops.
  - by destruct hops; intros [= <-].
  - rewrite resolve_cons, bool_decide_true by done. rewrite bool_decide_false by (by intros [_ ?]%app_eq_nil).
    rewrite removelast_last. apply IH.
  - rewrite resolve_cons, bool_decide_false by done. rewrite (lstat_node_at _ _ _ Hn).
    destruct n as [|m| |t]; [apply IH..|by destruct (Hlink t)].
  - rewrite resolve_cons, bool_decide_false by done. rewrite (lstat_node_at _ _ _ Hn).
    destruct hops as [|hops]; [done|]. rewrite Ht. apply IH.
  - rewrite resolve_cons, bool_decide_false by done. rewrite (lstat_missing _ _ _ _ Hn Hm).
    case_bool_decide as Hd; [done|]. intros [= <-]. by eapply lands_fresh; [eapply node_at_make_dir| |].
Qed.

Lemma resolve_plain hops root cur pending cs :
  Forall plain cur → Forall component pending → resolve hops root cur pending = Resolved cs → Forall plain cs.
Proof.
  revert cur pending. induction hops as [hops IHh] using lt_wf_ind. intros cur pending. revert cur.
  induction pending as [|c rest IH]; intros cur Hcur Hp; [by destruct hops; intros [= <-]|].
  apply Forall_cons in Hp as [Hc Hp]. rewrite resolve_cons. case_bool_decide as Hd.
  - case_bool_decide as He; [done|]. apply IH; [|done]. destruct (exists_last He) as (l & x & ->).
    rewrite removelast_last. by apply Forall_app in Hcur as [? _].
  - assert (Hnext : Forall plain (cur ++ [c])).
    { apply Forall_app. split; [done|]. by constructor. }
    destruct (lstat root (cur ++ [c])) as [[|m| |t]| |]; try done; try by apply IH.
    + destruct hops as [|hops]; [done|]. destruct (IsAbs t); [done|]. apply (IHh hops); [lia|done|].
      apply Forall_app. split; [apply splitPath_component|done].
    + case_bool_decide as Hdd; [done|]. intros [= <-]. apply Forall_app. split; [done|].
      rewrite Forall_forall in *. intros x Hx. split; [by apply Hp|]. by intros ->.
Qed.

Lemma lands_app root cur a b root' mid root'' loc :
  lands root cur a root' mid → lands root' mid b root'' loc → lands root cur (a ++ b) root'' loc.
Proof.
  intros Ha Hb. induction Ha as [|root cur x rest root' loc' Hl IH|root cur c n rest root' loc' Hc Hn Hlink Hl IH|
    root cur c t rest root' loc' Hc Hn Ht Hl IH|root cur c m rest root' loc' Hc Hn Hm Hl IH]; [done|..]; cbn [app].
  - apply lands_up. by apply IH.
  - eapply lands_in; [done..|]. by apply IH.
  - eapply lands_link; [done..|]. rewrite app_assoc. by apply IH.
  - eapply lands_new; [done..|]. by apply IH.
Qed.

(** ** What may be written *)

Lemma make_dir_links n cur c p t : node_at (make_dir n cur c) p = Some (NLink t) → node_at n p = Some (NLink t).
Proof.
  revert n p. induction cur as [|x cur IH]; intros n p; destruct n as [|m| |u]; simpl; try done.
  - destruct p as [|y q]; simpl; [done|]. destruct (decide (y = c)) as [->|Hne].
    + rewrite lookup_insert_eq. simpl. destruct q; simpl; [done|]. by rewrite lookup_empty.
    + by rewrite lookup_insert_ne by done.
  - destruct (m !! x) as [n'|] eqn:Hx; [|done]. destruct p as [|y q]; simpl; [done|].
    destruct (decide (y = x)) as [->|Hne].
    + rewrite lookup_insert_eq, Hx. simpl. apply IH.
    + by rewrite lookup_insert_ne by done.
Qed.

Lemma lands_links root cur pending root' loc p t :
  lands root cur pending root' loc → node_at root' p = Some (NLink t) → node_at root p = Some (NLink t).
Proof. induction 1; auto. intros Hp. eapply make_dir_links. by eauto. Qed.

(** The entry a path leads to, when it is not a link, is where the path leads. *)
Lemma lands_entry root init root' parent m name :
  lands root [] init root' parent → node_at root' parent = Some (NDir m) → name ≠ ".." →
  (∀ t, m !! name ≠ Some (NLink t)) → ∃ root'', lands root [] (init ++ [name]) root'' (parent ++ [name]).
Proof.
  intros Hl Hm Hn Hlink. destruct (m !! name) as [n|] eqn:Hname.
  - exists root'. eapply lands_app; [exact Hl|]. apply (lands_in _ _ _ n); [done| | |constructor].
    + rewrite node_at_app, Hm. simpl. by rewrite Hname.
    + intros t ->. by destruct (Hlink t).
  - eexists. eapply lands_app; [exact Hl|]. eapply lands_new; [done..|constructor].
Qed.

Section confined.
Context (cwd : string) (disk : string → option node) (ws sub : string).
Context (Hws : IsAbs ws = true).

Definition absRoot : string := Abs cwd (Join2 ws sub).

(** [loc] is in the folder that the path of the write folder leads to. *)
Definition in_write_folder (root : node) (loc : list string) : Prop :=
  ∃ relRoot, Rel (Abs cwd ws) absRoot = Some relRoot ∧
    ∀ root'' L, lands root [] (splitPath relRoot) root'' L → L `prefix_of` loc.

Lemma resolvedWithinRoot_ok absPath root :
  disk (Abs cwd ws) = Some root → resolvedWithinRoot cwd disk ws absPath absRoot = Ok tt →
  ∃ relPath relRoot R P, Rel (Abs cwd ws) absPath = Some relPath ∧ Rel (Abs cwd ws) absRoot = Some relRoot ∧
    resolveInWorkspace root relRoot = Resolved R ∧ resolveInWorkspace root relPath = Resolved P ∧ R `prefix_of` P.
Proof.
  intros Hd. unfold resolvedWithinRoot. cbv zeta. rewrite Hd.
  destruct (Rel (Abs cwd ws) absPath) as [relPath|]; [|done]. destruct (Rel (Abs cwd ws) absRoot) as [relRoot|]; [|done].
  destruct (resolveInWorkspace root relRoot) as [R| |] eqn:HR; try done.
  destruct (resolveInWorkspace root relPath) as [P| |] eqn:HP; try done.
  destruct (negb _ && negb _) eqn:Hb; [done|]. intros _. exists relPath, relRoot, R, P. split_and!; [done..|].
  apply andb_false_iff in Hb as [Hb|Hb]; apply negb_false_iff in Hb; [apply bool_decide_eq_true in Hb; by subst|].
  apply (isWithin_prefix false); [..|done]; (eapply resolve_plain; [constructor|apply splitPath_component|done]).
Qed.

(** What a path that the check lets through leads to is in the write folder. *)
Lemma within_lands relPath root R P pending root' loc relRoot :
  Rel (Abs cwd ws) absRoot = Some relRoot → resolveInWorkspace root relRoot = Resolved R →
  resolveInWorkspace root relPath = Resolved P → R `prefix_of` P → splitPath relPath = pending →
  lands root [] pending root' loc → in_write_folder root loc.
Proof.
  intros H1 H2 H3 H4 <- Hl. exists relRoot. split; [done|]. intros root'' L HL.
  rewrite (resolve_lands _ _ _ _ _ _ _ HL H2), (resolve_lands _ _ _ _ _ _ _ Hl H3). done.
Qed.

Lemma writeAllowed_confined matches op path rel root loc :
  matches path = false →
  writeAllowed cwd disk ws (Join2 ws sub) matches path (bool_decide (op = OpRemove)) = Ok tt →
  getSafeRelPath ws path = Ok rel → disk (Abs cwd ws) = Some root → touches root op rel loc →
  (op = OpWriteFile → ∀ t, node_at root loc ≠ Some (NLink t)) →
  in_write_folder root loc.
Proof.
  intros Hm Hw Hrel Hroot Ht Hlink. unfold writeAllowed in Hw. rewrite Hm in Hw. cbv zeta in Hw. fold absRoot in Hw.
  destruct (negb _ && negb _); [done|].
  destruct (getSafeRelPath_same cwd ws path rel Hws Hrel) as (ps & Hps & -> & Habs & Hrp). fold (abs_path cwd ws path) in Habs, Hrp.
  pose proof (plain_component ps Hps) as Hc. rewrite Habs in *.
  assert (HW : Abs cwd ws = render true (cleaned true (splitPath ws)) ∧ Forall plain (cleaned true (splitPath ws))).
  { unfold Abs. rewrite Hws. destruct (Clean_abs ws Hws) as (W & -> & ? & ->). done. }
  assert (Hentry : op ≠ OpMkdirAll → op ≠ OpRemove →
    resolvedWithinRoot cwd disk ws (render true (cleaned true (splitPath ws) ++ ps)) absRoot = Ok tt → in_write_folder root loc).
  { intros Ho1 Ho2 Hok. destruct (resolvedWithinRoot_ok _ root Hroot Hok) as (relPath & relRoot & R & P & E & H1 & H2 & H3 & H4).
    rewrite Hrp in E. injection E as <-.
    assert (Hent : ∃ init name root' parent m, splitPath (render false ps) = init ++ [name] ∧ lands root [] init root' parent ∧
      node_at root' parent = Some (NDir m) ∧ loc = parent ++ [name] ∧ (op = OpWriteFileExcl → m !! name = None)) by by destruct op.
    destruct Hent as (init & name & root' & parent & m & Hs & Hl & Hdir & -> & Hexcl).
    assert (Hn : name ≠ "..").
    { rewrite splitPath_render in Hs by done. subst ps. by apply Forall_app in Hps as [_ [[_ ?] _]%Forall_cons]. }
    destruct (lands_entry root init root' parent m name Hl Hdir Hn) as [root'' Hfull].
    { intros t Hmt. destruct (decide (op = OpWriteFileExcl)) as [->|Hne]; [by rewrite (Hexcl eq_refl) in Hmt|].
      apply (Hlink ltac:(by destruct op) t), (lands_links _ _ _ _ _ _ _ Hl).
      by rewrite node_at_app, Hdir; simpl; rewrite Hmt. }
    rewrite <- Hs in Hfull. eapply within_lands; [exact H1|exact H2|exact H3|exact H4|reflexivity|exact Hfull]. }
  destruct op; simpl bool_decide in Hw; try (by apply Hentry).
  - destruct (resolvedWithinRoot_ok _ root Hroot Hw) as (relPath & relRoot & R & P & E & H1 & H2 & H3 & H4).
    rewrite Hrp in E. injection E as <-. destruct Ht as [root' Hl].
    eapply within_lands; [exact H1|exact H2|exact H3|exact H4|reflexivity|exact Hl].
  - destruct Ht as (init & name & root' & parent & m & Hs & Hl & Hdir & -> & _).
    rewrite splitPath_render in Hs by done. subst ps. rewrite app_assoc in Hw.
    destruct HW as [HW HpW]. rewrite Dir_render in Hw by (rewrite <- app_assoc; by apply Forall_app).
    destruct (resolvedWithinRoot_ok _ root Hroot Hw) as (relPath & relRoot & R & P & E & H1 & H2 & H3 & H4).
    apply Forall_app in Hps as [Hinit _]. apply Forall_app in Hc as [Hci _].
    assert (Hsplit : splitPath relPath = init).
    { rewrite HW, Rel_below in E by done. assert (relPath = render false init) as -> by congruence.
      by apply splitPath_render. }
    assert (Hin : in_write_folder root parent) by (eapply within_lands; [exact H1|exact H2|exact H3|exact H4|exact Hsplit|exact Hl]).
    destruct Hin as (rr & Hrr & Hin). exists rr. split; [done|]. intros root'' L HL. etrans; [by eapply Hin|].
    by apply prefix_app_r.
Qed.
End confined.

Lemma execute_ok cwd disk workspace path eff :
  execute cwd disk workspace path = Ok eff →
  ∃ rel root, eff = InSandbox workspace rel ∧ getSafeRelPath workspace path = Ok rel ∧ disk (Abs cwd workspace) = Some root.
Proof.
  unfold execute. case_bool_decide; [done|]. destruct (disk _) as [root|]; [|done].
  destruct (getSafeRelPath workspace path) as [rel|]; [|done]. intros [= <-]. by exists rel, root.
Qed.

(** Below the mounts and the write folder: allowed host paths and the sandbox. *)
Lemma base_write cwd disk ws patterns readScope op path eff :
  fs_write cwd disk (buildBaseFs ws true patterns readScope) op path = Ok eff →
  (eff = OnHost path ∧ pattern_matches patterns path = true) ∨
  (pattern_matches patterns path = false ∧ execute cwd disk ws path = Ok eff).
Proof.
  unfold buildBaseFs. simpl. set (inner := match patterns with Some m => whitelistFs ws m | None => sandboxFs ws end).
  intros H. assert (Hi : fs_write cwd disk inner op path = Ok eff) by (by destruct (readScope && _)). clear H.
  subst inner. destruct patterns as [matches|]; simpl in *; [|by right].
  destruct (matches path); [left|by right]. by injection Hi as <-.
Qed.


(** A tool is refused before it starts: a write that the layers refuse by
    policy, for a path outside the write folder or a read-only mount, is refused
    by [checkWrite], and what [checkWrite] refuses every write but a removal is
    refused with the same error. *)
Theorem checkWrite_agrees cwd disk f op path e (Hop : op ≠ OpRemove)
    (Hc : checkWrite cwd disk f path = Err e) : fs_write cwd disk f op path = Err e.
Proof.
  induction f as [|ws|ws m|f IH|f IH ws wr m|f IH mounts]; simpl in *; try done.
  - by apply IH.
  - rewrite (bool_decide_false (op = OpRemove)) by done.
    destruct (writeAllowed _ _ _ _ _ _ _) as [[]|e'] in *; simpl in *; [by apply IH|congruence].
  - destruct (mount_resolve mounts path) as [[[name me] rest]|]; [|by apply IH]. destruct (writable me); congruence.
Qed.

(** ** Examples *)

Definition tree (l : list (string * node)) : node := NDir (list_to_map l).

(** A link in the write folder to another folder of the workspace, where a link
    leads back. *)
Definition linked : node :=
  tree [("files", tree [("d", NLink "../skills"); ("a.txt", NFile)]); ("skills", tree [("x", NLink "../files/y")])].

Definition ws_disk (p : string) : option node := if bool_decide (p = "/w") then Some linked else None.

Definition confined_fs : fileSystem := buildWriteFs "/w" true "files" None false ∅.

(** A write below the write folder is refused when a link takes it out. *)
Example link_refused :
  fs_write "/" ws_disk confined_fs OpWriteFile "files/d/new" = Err ResolvesOutside ∧
  fs_write "/" ws_disk confined_fs OpWriteFile "files/../skills/x" = Err OutsideWriteFolder ∧
  fs_write "/" ws_disk confined_fs OpWriteFile "files/sub/new" = Ok (InSandbox "/w" "files/sub/new").
Proof. vm_compute. done. Qed.

(** The case that the theorem leaves out: a write to a link outside the write
    folder that leads back into it is let through, since the check follows the
    link; but the sandbox writes by renaming a file over the link, which is in
    [skills]. *)
Theorem replaced_link_escapes :
  fs_write "/" ws_disk confined_fs OpWriteFile "files/d/x" = Ok (InSandbox "/w" "files/d/x") ∧
  touches linked OpWriteFile "files/d/x" ["skills"; "x"] ∧
  ¬ in_write_folder "/" "/w" "files" linked ["skills"; "x"].
Proof.
  split; [vm_compute; reflexivity|]. split.
  - exists ["files"; "d"], "x", linked, ["skills"]. eexists. split; [vm_compute; reflexivity|].
    split; [|split; [vm_compute; reflexivity|done]].
    eapply lands_in; [done|vm_compute; reflexivity|done|]. cbn [app].
    eapply lands_link; [done|vm_compute; reflexivity|vm_compute; reflexivity|].
    change (splitPath "../skills" ++ []) with ([".."; "skills"] : list string). apply (lands_up _ []).
    eapply lands_in; [done|vm_compute; reflexivity|done|]. constructor.
  - intros (relRoot & Hr & Hin). vm_compute in Hr. injection Hr as <-.
    specialize (Hin linked ["files"]). change (splitPath "files") with ["files"] in Hin.
    assert (Hl : lands linked [] ["files"] linked ["files"]).
    { eapply lands_in; [done|vm_compute; reflexivity|done|]. constructor. }
    specialize (Hin Hl). by apply prefix_cons_inv_1 in Hin.
Qed.


Lemma checkWrite_agrees_witness :
  checkWrite "/" ws_disk confined_fs "skills/x" = Err OutsideWriteFolder ∧
  fs_write "/" ws_disk confined_fs OpMkdirAll "skills/x" = Err OutsideWriteFolder.
Proof.
  assert (H : checkWrite "/" ws_disk confined_fs "skills/x" = Err OutsideWriteFolder) by (vm_compute; reflexivity).
  split; [exact H|]. apply (checkWrite_agrees "/" ws_disk confined_fs OpMkdirAll "skills/x"); [discriminate|exact H].
Defined.
