(* ===== verification/FileEdits.v ===== *)
(** * Editing files (tools/files/edit.go, rangeedit.go, backup.go)

    The tools that change part of a file: by lines, by bytes, by a text that is
    to occur once, and appending; and the numbered copy made before. A file's
    content is its bytes; the directory of the file is a map from names. The
    theorems: an edit changes the addressed range and nothing else, an omitted end
    is the start, splitting into lines loses nothing, and whatever write fails,
    a file has its old content or the new one, and a copy never replaces a file. *)

From stdpp Require Import base gmap strings list fin_maps.
From Stdlib Require Import ZArith Lia Ascii.
From S2P Require Import Prelude GoString.

Open Scope Z_scope.

(** ** Arguments of a call *)

(** What a member of a call's arguments holds. [AFloat z whole] is a number whose
    integral part is [z], and [whole] says whether that is all of it. *)
Inductive arg := ANull | ABool (b : bool) | AStr (s : string) | AInt (z : Z) | AFloat (z : Z) (whole : bool) | AOther.

Notation args := (gmap string arg).

Inductive EditError :=
| PathRequired | Refused | ReadFailed | WriteFailed
| NotInteger (key : string) | EndNotNumber
| TextRequired | ReplaceRequired | OldTextRequired | NewTextRequired
| InsertOutOfRange (at_ n : Z) | NoContent | NegativeStart | PastEnd (start n : Z) | EndBeforeStart (end_ start : Z)
| NotFound | Ambiguous (count : Z)
| FileExists | BackupFailed | BackupDirectory | SuffixesUsed | AttemptsUsed.

Definition newline : ascii := "010"%char.
Definition nl : string := String newline "".

(** [strconv.ParseInt(s, 10, 64)]. *)
Definition parse_digits (l : list ascii) : option Z :=
  if bool_decide (l = []) || negb (forallb (λ c, is_digit (byte_val c)) l) then None else Some (dec_value l).

Definition ParseInt (s : string) : option Z :=
  let v := match bytes s with
           | "-"%char :: l => Z.opp <$> parse_digits l
           | "+"%char :: l => parse_digits l
           | l => parse_digits l
           end in
  match v with Some z => if bool_decide (in_int64 z) then Some z else None | None => None end.

Definition argPresent (a : args) (key : string) : bool :=
  match a !! key with None | Some ANull => false | Some _ => true end.

Definition getBoolArg (a : args) (key : string) (def : bool) : bool :=
  match a !! key with Some (ABool b) => b | _ => def end.

(** The directory of the file. *)
Inductive entry := EFile (content : list ascii) | EDir.

Notation directory := (gmap string entry).

(** Which operations of the file system succeed: [io_copy k] is the exclusive
    write of attempt [k], when nothing has its name. *)
Record io := { io_check : bool; io_stat : bool; io_scan : bool; io_read : bool; io_copy : nat → bool; io_write : bool }.

Section edits.
(** What converting a float beyond the range of int64 gives, which the language
    leaves to the machine, and the tables of characters. *)
Context (convert : Z → Z) {UD : UnicodeData}.

Definition getInt64Arg (a : args) (key : string) (def : Z) : result Z EditError :=
  match a !! key with
  | None => Ok def
  | Some (AFloat z whole) =>
      if negb whole then Err (NotInteger key)
      else if (2 ^ 63 <? z) || (z <? - 2 ^ 63) then Err (NotInteger key)
      else Ok (if bool_decide (in_int64 z) then z else convert z)
  | Some (AInt z) => Ok z
  | Some (AStr s) => match ParseInt s with Some z => Ok z | None => Err (NotInteger key) end
  | Some _ => Err (NotInteger key)
  end.

Definition eofKeyword : string := "end".

Definition resolveEnd (a : args) (start maxEnd : Z) : result Z EditError :=
  if negb (argPresent a "end") then Ok start
  else if match a !! "end" with Some (AStr s) => EqualFold (TrimSpace s) eofKeyword | _ => false end then Ok maxEnd
  else match getInt64Arg a "end" start with Ok e => Ok (Z.min e maxEnd) | Err _ => Err EndNotNumber end.

(** ** Lines *)

Definition splitLines (content : list ascii) : list string * bool :=
  if bool_decide (content = []) then ([], false)
  else
    let trailing := bool_decide (last content = Some newline) in
    let s := if trailing then removelast content else content in
    (Split (of_bytes s) newline, trailing).

Definition joinLines (lines : list string) (trailingNL : bool) : list ascii :=
  if bool_decide (lines = []) then []
  else bytes (Join lines nl) ++ (if trailingNL then [newline] else []).

(** ** The six tools on ranges *)

Inductive edit_op := OpEdit | OpInsert | OpDelete.
Inductive edit_unit := ULines | UBytes.

#[export] Instance edit_op_eq_dec : EqDecision edit_op.
Proof. solve_decision. Defined.

(** The report, and what is shown to the user. *)
Inductive edit_report :=
| Inserted (count at_ : Z) | Deleted (start end_ count : Z) | Replaced (start end_ count new : Z).

Record edited := { e_out : list ascii; e_report : edit_report; e_shown : string }.

(** A member that is to be a string that is not empty. *)
Definition text_arg (a : args) (key : string) : option string :=
  match a !! key with Some (AStr s) => if bool_decide (s = "") then None else Some s | _ => None end.

Definition applyLines (op : edit_op) (content : list ascii) (a : args) : result edited EditError :=
  let '(lines, trailingNL) := splitLines content in
  let n := Z.of_nat (length lines) in
  match op with
  | OpInsert =>
      match text_arg a "text" with
      | None => Err TextRequired
      | Some text =>
          (let* after := getInt64Arg a "after_line" 0 in
           if (after <? 0) || (n <? after) then Err (InsertOutOfRange after n)
           else
             let ins := (splitLines (bytes text)).1 in
             let merged := take (Z.to_nat after) lines ++ ins ++ drop (Z.to_nat after) lines in
             Ok {| e_out := joinLines merged trailingNL; e_report := Inserted (Z.of_nat (length ins)) after; e_shown := text |})%go
      end
  | _ =>
      if n =? 0 then Err NoContent
      else
        (let* start := getInt64Arg a "start" 1 in
         let start := if start <=? 0 then 1 else start in
         let* end_ := resolveEnd a start n in
         if n <? start then Err (PastEnd start n)
         else if end_ <? start then Err (EndBeforeStart end_ start)
         else
           let removed := Join (take (Z.to_nat (end_ - (start - 1))) (drop (Z.to_nat (start - 1)) lines)) nl in
           let nRemoved := end_ - start + 1 in
           match op with
           | OpDelete =>
               let merged := take (Z.to_nat (start - 1)) lines ++ drop (Z.to_nat end_) lines in
               Ok {| e_out := joinLines merged trailingNL; e_report := Deleted start end_ nRemoved; e_shown := removed |}
           | _ =>
               match text_arg a "replace" with
               | None => Err ReplaceRequired
               | Some replace =>
                   let ins := (splitLines (bytes replace)).1 in
                   let merged := take (Z.to_nat (start - 1)) lines ++ ins ++ drop (Z.to_nat end_) lines in
                   Ok {| e_out := joinLines merged trailingNL;
                         e_report := Replaced start end_ nRemoved (Z.of_nat (length ins)); e_shown := replace |}
               end
           end)%go
  end.

Definition applyBytes (op : edit_op) (content : list ascii) (a : args) : result edited EditError :=
  let n := Z.of_nat (length content) in
  match op with
  | OpInsert =>
      match text_arg a "text" with
      | None => Err TextRequired
      | Some text =>
          (let* at_ := getInt64Arg a "at_offset" 0 in
           if (at_ <? 0) || (n <? at_) then Err (InsertOutOfRange at_ n)
           else
             let merged := take (Z.to_nat at_) content ++ bytes text ++ drop (Z.to_nat at_) content in
             Ok {| e_out := merged; e_report := Inserted (len text) at_; e_shown := text |})%go
      end
  | _ =>
      if n =? 0 then Err NoContent
      else
        (let* start := getInt64Arg a "start" 0 in
         if start <? 0 then Err NegativeStart
         else if n <=? start then Err (PastEnd start n)
         else
           let* end_ := resolveEnd a start (n - 1) in
           if end_ <? start then Err (EndBeforeStart end_ start)
           else
             let removed := of_bytes (take (Z.to_nat (end_ + 1 - start)) (drop (Z.to_nat start) content)) in
             let nRemoved := end_ - start + 1 in
             match op with
             | OpDelete =>
                 let merged := take (Z.to_nat start) content ++ drop (Z.to_nat (end_ + 1)) content in
                 Ok {| e_out := merged; e_report := Deleted start end_ nRemoved; e_shown := removed |}
             | _ =>
                 match text_arg a "replace" with
                 | None => Err ReplaceRequired
                 | Some replace =>
                     let merged := take (Z.to_nat start) content ++ bytes replace ++ drop (Z.to_nat (end_ + 1)) content in
                     Ok {| e_out := merged; e_report := Replaced start end_ nRemoved (len replace); e_shown := replace |}
                 end
             end)%go
  end.

Definition apply_edit (u : edit_unit) (op : edit_op) (content : list ascii) (a : args) : result edited EditError :=
  match u with ULines => applyLines op content a | UBytes => applyBytes op content a end.

(** ** Replacing a text *)

(** [strings.Index]. *)
Fixpoint index_sub (sub l : list ascii) : option nat :=
  if bool_decide (sub `prefix_of` l) then Some O
  else match l with [] => None | _ :: l' => S <$> index_sub sub l' end.

(** [strings.Count] of a text that is not empty: occurrences that do not overlap. *)
Fixpoint count_from (skip : nat) (sub l : list ascii) : Z :=
  match l with
  | [] => 0
  | _ :: l' =>
      match skip with
      | S k => count_from k sub l'
      | O => if bool_decide (sub `prefix_of` l) then 1 + count_from (length sub - 1) sub l' else count_from 0 sub l'
      end
  end.

Definition Count (s sub : string) : Z :=
  if bool_decide (sub = "") then Z.of_nat (length (runes s)) + 1 else count_from 0 (bytes sub) (bytes s).

Definition replaceEditContent (content : list ascii) (oldText newText : string) : result (list ascii) EditError :=
  match index_sub (bytes oldText) content with
  | None => Err NotFound
  | Some i =>
      let count := Count (of_bytes content) oldText in
      if 1 <? count then Err (Ambiguous count)
      else Ok (take i content ++ bytes newText ++ drop (i + length (bytes oldText)) content)
  end.

(** ** The copy made before *)

(** What [^base\.(\d{4})$] captures in a name. *)
Definition backup_suffix (base name : string) : option Z :=
  let b := bytes base ++ ["."%char] in
  let rest := drop (length b) (bytes name) in
  if HasPrefix name (base +:+ ".") && bool_decide (length rest = 4%nat) && forallb (λ c, is_digit (byte_val c)) rest
  then Some (dec_value rest) else None.

Definition suffix_in_use (base : string) (e : string * entry) : Z :=
  match e.2 with EDir => 0 | EFile _ => default 0 (backup_suffix base e.1) end.

Definition nextBackupSuffix (base : string) (d : directory) : result Z EditError :=
  let next := foldr Z.max 0 (map (suffix_in_use base) (map_to_list d)) + 1 in
  if 9999 <? next then Err SuffixesUsed else Ok next.

Definition backup_name (base : string) (suffix : Z) : string := base +:+ "." +:+ zero_pad 4 suffix.

Definition maxAttempts : nat := 100.

(** The loop of [backupExistingFile], [left] attempts from number [attempt]. *)
Fixpoint backup_loop (o : io) (d : directory) (base : string) (data : list ascii) (next : Z) (left attempt : nat)
    : result (directory * option string) EditError :=
  match left with
  | O => Err AttemptsUsed
  | S left' =>
      let suffix := next + Z.of_nat attempt in
      if 9999 <? suffix then Err SuffixesUsed
      else
        let name := backup_name base suffix in
        match d !! name with
        | Some _ => backup_loop o d base data next left' (S attempt)
        | None => if io_copy o attempt then Ok (<[name := EFile data]> d, Some name) else Err BackupFailed
        end
  end.

Definition backupExistingFile (o : io) (d : directory) (base : string) : result (directory * option string) EditError :=
  match d !! base with
  | None => if io_stat o then Ok (d, None) else Err BackupFailed
  | Some e =>
      if negb (io_stat o) then Err BackupFailed
      else match e with
           | EDir => Err BackupDirectory
           | EFile data =>
               if negb (io_scan o) then Err BackupFailed
               else (let* next := nextBackupSuffix base d in
                     if negb (io_read o) then Err BackupFailed else backup_loop o d base data next maxAttempts 0)%go
           end
  end.

(** ** The tools *)

(** [ReadFile] of the file. *)
Definition read_file (o : io) (d : directory) (base : string) : option (list ascii) :=
  match d !! base with Some (EFile c) => if io_read o then Some c else None | _ => None end.

(** [WriteFile], which replaces the file or leaves it. *)
Definition write_file (o : io) (d : directory) (base : string) (data : list ascii) : directory * bool :=
  match d !! base with
  | Some EDir => (d, false)
  | _ => if io_write o then (<[base := EFile data]> d, true) else (d, false)
  end.

(** The copy, when asked for, and the write: the end of every tool. *)
Definition backup_and_write (o : io) (d : directory) (base : string) (want : bool) (data : list ascii)
    : directory * result unit EditError :=
  match (if want then backupExistingFile o d base else Ok (d, None)) with
  | Err e => (d, Err e)
  | Ok (d', _) =>
      let '(d'', ok) := write_file o d' base data in
      (d'', if ok then Ok tt else Err WriteFailed)
  end.

Definition is_str (a : args) (key : string) : bool := match a !! key with Some (AStr _) => true | _ => false end.
Definition str_arg (a : args) (key : string) : string := match a !! key with Some (AStr s) => s | _ => "" end.

Definition backupDefault (op : edit_op) : bool := match op with OpInsert => false | _ => true end.

(** [rangeEditTool.Execute] *)
Definition rangeEdit_Execute (u : edit_unit) (op : edit_op) (o : io) (d : directory) (base : string) (a : args)
    : directory * result unit EditError :=
  if negb (is_str a "path") then (d, Err PathRequired)
  else if negb (io_check o) then (d, Err Refused)
  else match read_file o d base with
       | None => (d, Err ReadFailed)
       | Some content =>
           match apply_edit u op content a with
           | Err e => (d, Err e)
           | Ok r => backup_and_write o d base (getBoolArg a "backup" (backupDefault op)) (e_out r)
           end
       end.

(** [EditFileTool.Execute] *)
Definition EditFile_Execute (o : io) (d : directory) (base : string) (a : args) : directory * result unit EditError :=
  if negb (is_str a "path") then (d, Err PathRequired)
  else if negb (is_str a "old_text") then (d, Err OldTextRequired)
  else if negb (is_str a "new_text") then (d, Err NewTextRequired)
  else if negb (io_check o) then (d, Err Refused)
  else match read_file o d base with
       | None => (d, Err ReadFailed)
       | Some content =>
           match replaceEditContent content (str_arg a "old_text") (str_arg a "new_text") with
           | Err e => (d, Err e)
           | Ok new => backup_and_write o d base (getBoolArg a "backup" false) new
           end
       end.

(** [AppendFileTool.Execute]; a file that is not there is empty. *)
Definition AppendFile_Execute (o : io) (d : directory) (base : string) (a : args) : directory * result unit EditError :=
  if negb (is_str a "path") then (d, Err PathRequired)
  else if negb (is_str a "content") then (d, Err TextRequired)
  else if negb (io_check o) then (d, Err Refused)
  else match (if getBoolArg a "backup" false then backupExistingFile o d base else Ok (d, None)) with
       | Err e => (d, Err e)
       | Ok (d', _) =>
           match d' !! base with
           | None => let '(d'', ok) := write_file o d' base (bytes (str_arg a "content")) in
                     (d'', if ok then Ok tt else Err WriteFailed)
           | Some _ =>
               match read_file o d' base with
               | None => (d', Err ReadFailed)
               | Some content =>
                   let '(d'', ok) := write_file o d' base (content ++ bytes (str_arg a "content")) in
                   (d'', if ok then Ok tt else Err WriteFailed)
               end
           end
       end.

(** [WriteFileTool.Execute] *)
Definition WriteFile_Execute (o : io) (d : directory) (base : string) (a : args) : directory * result unit EditError :=
  if negb (is_str a "path") then (d, Err PathRequired)
  else if negb (is_str a "content") then (d, Err TextRequired)
  else if negb (getBoolArg a "overwrite" false) && io_stat o && match d !! base with Some (EFile _) => true | _ => false end
  then (d, Err FileExists)
  else backup_and_write o d base (getBoolArg a "backup" false) (bytes (str_arg a "content")).
End edits.

(** ** Lines *)

Lemma join_cons (w : string) ws : ws ≠ [] → bytes (Join (w :: ws) nl) = bytes w ++ newline :: bytes (Join ws nl).
Proof. intros Hne. destruct ws as [|w' ws]; [done|]. cbn [Join]. by rewrite !bytes_app. Qed.

Lemma split_nonempty sep l : split_byte sep l ≠ [].
Proof. destruct l as [|c l]; simpl; [done|]. destruct (Ascii.eqb c sep); [done|]. by destruct (split_byte sep l). Qed.

Lemma join_split l : bytes (Join (map of_bytes (split_byte newline l)) nl) = l.
Proof.
  induction l as [|c l IH]; [done|]. cbn [split_byte]. destruct (Ascii.eqb_spec c newline) as [->|Hne].
  - cbn [map]. rewrite join_cons; [by rewrite IH|]. intros H%map_eq_nil. by apply split_nonempty in H.
  - destruct (split_byte newline l) as [|w ws] eqn:E; [by apply split_nonempty in E|]. cbn [map] in *.
    destruct ws as [|w' ws]; cbn [map] in *.
    + cbn [Join] in *. rewrite bytes_of_bytes in *. by rewrite IH.
    + rewrite join_cons in * by done. rewrite bytes_of_bytes in *. by rewrite <- IH.
Qed.

Lemma split_join (ls : list string) :
  ls ≠ [] → Forall (λ w, newline ∉ bytes w) ls → map of_bytes (split_byte newline (bytes (Join ls nl))) = ls.
Proof.
  induction ls as [|w ls IH]; intros Hne Hls; [done|]. apply Forall_cons in Hls as [Hw Hls].
  destruct ls as [|w' ls].
  - cbn [Join]. rewrite split_byte_none by done. cbn. by rewrite of_bytes_bytes.
  - rewrite join_cons, split_byte_app by done. cbn [map]. rewrite of_bytes_bytes. by rewrite IH.
Qed.

Lemma split_lines_plain l : Forall (λ w : string, newline ∉ bytes w) (map of_bytes (split_byte newline l)).
Proof.
  induction l as [|c l IH]; cbn [split_byte]; [repeat constructor; set_solver|].
  destruct (Ascii.eqb_spec c newline) as [->|Hne]; [constructor; [set_solver|done]|].
  destruct (split_byte newline l) as [|w ws]; cbn [map] in *; [repeat constructor; set_solver|].
  apply Forall_cons in IH as [Hw Hws]. constructor; [|done]. rewrite bytes_of_bytes in *. set_solver.
Qed.

Lemma removelast_snoc (l : list ascii) : last l = Some newline → l = removelast l ++ [newline].
Proof.
  intros H. destruct (decide (l = [])) as [->|Hne]; [done|]. destruct (exists_last Hne) as (k & x & ->).
  rewrite last_snoc in H. injection H as ->. by rewrite removelast_last.
Qed.

(** Splitting into lines and joining them loses nothing. *)
Lemma joinLines_splitLines content : joinLines (splitLines content).1 (splitLines content).2 = content.
Proof.
  unfold splitLines. case_bool_decide as He; [by subst|]. cbv zeta. cbn [fst snd]. unfold joinLines, Split.
  rewrite bytes_of_bytes. rewrite bool_decide_false by (intros H%map_eq_nil; by apply split_nonempty in H).
  rewrite join_split. case_bool_decide as Hl; [by rewrite <- removelast_snoc|by rewrite app_nil_r].
Qed.

Lemma splitLines_plain content : Forall (λ w, newline ∉ bytes w) (splitLines content).1.
Proof. unfold splitLines. case_bool_decide; [constructor|]. apply split_lines_plain. Qed.

(** What a list of lines is written as, and read again: but for the last line, an
    empty one without a newline after it, which cannot be told from none. *)
Lemma last_join ls : ls ≠ [] → Forall (λ w, newline ∉ bytes w) ls →
  last (bytes (Join ls nl)) = Some newline → last ls = Some "".
Proof.
  induction ls as [|w ls IH]; intros Hne Hls; [done|]. apply Forall_cons in Hls as [Hw Hls]. destruct ls as [|w' ls].
  - cbn [Join]. intros Hl. destruct Hw. apply removelast_snoc in Hl. rewrite Hl. set_solver.
  - rewrite join_cons by done. rewrite last_app, last_cons.
    destruct (last (bytes (Join (w' :: ls) nl))) as [c|] eqn:E.
    + intros [= ->]. rewrite last_cons_cons. by apply IH.
    + intros _. rewrite last_None in E. destruct ls as [|w2 ls].
      * cbn [Join] in E. assert (w' = "") as -> by (apply bytes_inj; by rewrite E). done.
      * rewrite join_cons in E by done. by apply app_eq_nil in E as [_ ?].
Qed.

Lemma splitLines_joinLines ls t :
  ls ≠ [] → Forall (λ w, newline ∉ bytes w) ls → t = true ∨ last ls ≠ Some "" → splitLines (joinLines ls t) = (ls, t).
Proof.
  intros Hne Hls Ht. unfold joinLines. rewrite bool_decide_false by done. unfold splitLines, Split. destruct t.
  - rewrite bool_decide_false by (by intros [_ ?]%app_eq_nil). rewrite last_snoc, bool_decide_true by done.
    rewrite removelast_last, bytes_of_bytes. by rewrite split_join.
  - destruct Ht as [|Ht]; [done|]. rewrite app_nil_r.
    assert (Hb : bytes (Join ls nl) ≠ []).
    { intros E. destruct ls as [|w ls]; [done|]. destruct ls as [|w' ls].
      - apply Ht. cbn [Join] in E. by rewrite (bytes_inj w "").
      - rewrite join_cons in E by done. by apply app_eq_nil in E as [_ ?]. }
    rewrite bool_decide_false by done. rewrite bool_decide_false by (intros H; by apply Ht, last_join).
    rewrite bytes_of_bytes. by rewrite split_join.
Qed.

(** ** Ranges *)

Section ranges.
Context (convert : Z → Z) {UD : UnicodeData}.

(** The range [lo, hi) of units, counted from 0, that the arguments address in a
    file of [n] units, [first] being the number of the first unit. *)
Definition addresses (u : edit_unit) (op : edit_op) (a : args) (n : Z) (lo hi : nat) : Prop :=
  let first := match u with ULines => 1 | UBytes => 0 end in
  match op with
  | OpInsert =>
      getInt64Arg convert a (match u with ULines => "after_line" | UBytes => "at_offset" end) 0 = Ok (Z.of_nat lo) ∧ hi = lo
  | _ =>
      ∃ start, getInt64Arg convert a "start" first = Ok start ∧
        Z.of_nat lo = Z.max 0 (start - first) ∧ (u = UBytes → 0 ≤ start) ∧
        (hi = S lo ∧ argPresent a "end" = false ∨
         Z.of_nat hi = n ∧ argPresent a "end" = true ∧ (∃ s, a !! "end" = Some (AStr s) ∧ EqualFold (TrimSpace s) eofKeyword = true) ∨
         (∃ e, getInt64Arg convert a "end" (first + Z.of_nat lo) = Ok e ∧ argPresent a "end" = true ∧
           Z.of_nat hi = Z.min (e - first + 1) n))
  end.

(** What is put there. *)
Definition inserts (op : edit_op) (a : args) (text : string) : Prop :=
  match op with
  | OpInsert => a !! "text" = Some (AStr text) ∧ text ≠ ""
  | OpEdit => a !! "replace" = Some (AStr text) ∧ text ≠ ""
  | OpDelete => text = ""
  end.

Lemma text_arg_Some a key t : text_arg a key = Some t ↔ a !! key = Some (AStr t) ∧ t ≠ "".
Proof.
  unfold text_arg. destruct (a !! key) as [[]|]; try (split; [done|by intros [? ?]]).
  case_bool_decide as H; [subst; split; [done|by intros [[= <-] ?]]|split; [by intros [= <-]|by intros [[= <-] ?]]].
Qed.

Lemma resolveEnd_spec a start maxEnd e : resolveEnd convert a start maxEnd = Ok e →
  e = start ∧ argPresent a "end" = false ∨
  e = maxEnd ∧ argPresent a "end" = true ∧ (∃ s, a !! "end" = Some (AStr s) ∧ EqualFold (TrimSpace s) eofKeyword = true) ∨
  (∃ v, getInt64Arg convert a "end" start = Ok v ∧ argPresent a "end" = true ∧ e = Z.min v maxEnd).
Proof.
  unfold resolveEnd. destruct (argPresent a "end"); cbn [negb]; [|intros [= ->]; by left].
  destruct (match a !! "end" with Some (AStr s) => _ | _ => _ end) eqn:Hs.
  - intros [= ->]. right; left. split_and!; [done..|]. destruct (a !! "end") as [[]|]; try done. by eexists.
  - destruct (getInt64Arg convert a "end" start) as [v|]; [|done]. intros [= <-]. right; right. by exists v.
Qed.

(** The end of a range, for a start at unit [lo]. *)
Lemma resolve_range u a start n e :
  let first := match u with ULines => 1 | UBytes => 0 end in
  first ≤ start → start ≤ e → resolveEnd convert a start (n - 1 + first) = Ok e → start ≤ n - 1 + first →
  let lo := Z.to_nat (start - first) in let hi := Z.to_nat (e - first + 1) in
  (lo < hi)%nat ∧ Z.of_nat hi ≤ n ∧
  (hi = S lo ∧ argPresent a "end" = false ∨
   Z.of_nat hi = n ∧ argPresent a "end" = true ∧ (∃ s, a !! "end" = Some (AStr s) ∧ EqualFold (TrimSpace s) eofKeyword = true) ∨
   (∃ v, getInt64Arg convert a "end" (first + Z.of_nat lo) = Ok v ∧ argPresent a "end" = true ∧
     Z.of_nat hi = Z.min (v - first + 1) n)).
Proof.
  intros first Hf He Hr Hn lo hi. subst lo hi. apply resolveEnd_spec in Hr.
  replace (first + Z.of_nat (Z.to_nat (start - first))) with start by lia.
  destruct Hr as [[-> Hr]|[(-> & Hr & Hs)|(v & Hv & Hr & ->)]]; split_and!; try lia.
  - left. split; [lia|done].
  - right; left. split_and!; [lia|done..].
  - right; right. exists v. split_and!; [done..|lia].
Qed.

(** An edit by lines or by bytes puts the text in place of the units addressed, and
    keeps those before and after. *)
Lemma applyLines_spec op content a r : applyLines convert op content a = Ok r →
  let lines := (splitLines content).1 in
  ∃ lo hi text, addresses ULines op a (Z.of_nat (length lines)) lo hi ∧ inserts op a text ∧
    (lo ≤ hi ≤ length lines)%nat ∧ (op = OpInsert ∨ lo < hi)%nat ∧
    e_out r = joinLines (take lo lines ++ (splitLines (bytes text)).1 ++ drop hi lines) (splitLines content).2.
Proof.
  unfold applyLines. destruct (splitLines content) as [lines t]. cbn [fst snd]. intros H.
  destruct (decide (op = OpInsert)) as [->|Hop].
  { destruct (text_arg a "text") as [text|] eqn:Ht; [|done]. apply text_arg_Some in Ht.
    apply let_ok_inv in H as (after & Ha & H). destruct (_ || _) eqn:Hb; [done|]. injection H as <-. zb.
    exists (Z.to_nat after), (Z.to_nat after), text. split_and!; [|done..|lia|lia|by left|done].
    split; [|done]. rewrite Ha. f_equal. lia. }
  assert (Hc : ∃ start end_, getInt64Arg convert a "start" 1 = Ok start ∧
    resolveEnd convert a (Z.max 1 start) (Z.of_nat (length lines)) = Ok end_ ∧
    Z.max 1 start ≤ end_ ∧ Z.max 1 start ≤ Z.of_nat (length lines) ∧
    ∃ text, inserts op a text ∧
      e_out r = joinLines (take (Z.to_nat (Z.max 1 start - 1)) lines ++ (splitLines (bytes text)).1 ++ drop (Z.to_nat end_) lines) t).
  { assert (Hm : ∀ z, (if z <=? 0 then 1 else z) = Z.max 1 z) by (intros z; cases_lia).
    destruct op; try done; (destruct (_ =? 0); [done|]; apply let_ok_inv in H as (start & Hs & H); rewrite Hm in H;
      apply let_ok_inv in H as (end_ & He & H); destruct (_ <? _) eqn:H1 in H; [done|];
      destruct (_ <? _) eqn:H2 in H; [done|]; zb; exists start, end_; split_and!; [done|done|lia|lia|]).
    - destruct (text_arg a "replace") as [text|] eqn:Ht; [|done]. apply text_arg_Some in Ht. injection H as <-.
      by exists text.
    - injection H as <-. by exists "". }
  destruct Hc as (start & end_ & Hs & He & H1 & H2 & text & Ht & Hout).
  destruct (resolve_range ULines a (Z.max 1 start) (Z.of_nat (length lines)) end_) as (Hlo & Hhi & Hend); [lia|lia| |lia|].
  { by rewrite Z.sub_add. }
  exists (Z.to_nat (Z.max 1 start - 1)), (Z.to_nat (end_ - 1 + 1)), text. rewrite Z.sub_add in *.
  split_and!; [|done|lia|lia|by right|done]. destruct op; [|done|]; (exists start; split_and!; [done|lia|done|done]).
Qed.

Lemma applyBytes_spec op content a r : applyBytes convert op content a = Ok r →
  ∃ lo hi text, addresses UBytes op a (Z.of_nat (length content)) lo hi ∧ inserts op a text ∧
    (lo ≤ hi ≤ length content)%nat ∧ (op = OpInsert ∨ lo < hi)%nat ∧
    e_out r = take lo content ++ bytes text ++ drop hi content.
Proof.
  unfold applyBytes. intros H. destruct (decide (op = OpInsert)) as [->|Hop].
  { destruct (text_arg a "text") as [text|] eqn:Ht; [|done]. apply text_arg_Some in Ht.
    apply let_ok_inv in H as (after & Ha & H). destruct (_ || _) eqn:Hb; [done|]. injection H as <-. zb.
    exists (Z.to_nat after), (Z.to_nat after), text. split_and!; [|done..|lia|lia|by left|done].
    split; [|done]. rewrite Ha. f_equal. lia. }
  assert (Hc : ∃ start end_, getInt64Arg convert a "start" 0 = Ok start ∧
    resolveEnd convert a start (Z.of_nat (length content) - 1) = Ok end_ ∧
    0 ≤ start ≤ end_ ∧ start < Z.of_nat (length content) ∧
    ∃ text, inserts op a text ∧
      e_out r = take (Z.to_nat start) content ++ bytes text ++ drop (Z.to_nat (end_ + 1)) content).
  { destruct op; try done; (destruct (_ =? 0); [done|]; apply let_ok_inv in H as (start & Hs & H);
      destruct (start <? 0) eqn:H0; [done|]; destruct (_ <=? start) eqn:H1 in H; [done|];
      apply let_ok_inv in H as (end_ & He & H); destruct (_ <? _) eqn:H2 in H; [done|]; zb;
      exists start, end_; split_and!; [done|done|lia|lia|lia|]).
    - destruct (text_arg a "replace") as [text|] eqn:Ht; [|done]. apply text_arg_Some in Ht. injection H as <-.
      by exists text.
    - injection H as <-. by exists "". }
  destruct Hc as (start & end_ & Hs & He & H1 & H2 & text & Ht & Hout).
  destruct (resolve_range UBytes a start (Z.of_nat (length content)) end_) as (Hlo & Hhi & Hend); [lia|lia| |lia|].
  { by rewrite Z.add_0_r. }
  exists (Z.to_nat (start - 0)), (Z.to_nat (end_ - 0 + 1)), text. rewrite !Z.sub_0_r in *.
  split_and!; [|done|lia|lia|by right|done]. destruct op; [|done|]; (exists start; split_and!; [done|lia|lia|done]).
Qed.
End ranges.

(** ** Replacing a text *)

Lemma index_sub_Some sub l i : index_sub sub l = Some i → ∃ S, l = take i l ++ sub ++ S ∧ (i + length sub ≤ length l)%nat.
Proof.
  revert i. induction l as [|c l IH]; intros i; cbn [index_sub]; case_bool_decide as Hp; try done.
  - intros [= <-]. apply prefix_length in Hp as Hl. destruct Hp as [S HS]. by exists S.
  - intros [= <-]. apply prefix_length in Hp as Hl. destruct Hp as [S HS]. by exists S.
  - intros (j & Hj & ->)%fmap_Some. destruct (IH j Hj) as (S & HS & Hlen). exists S. cbn [take app length]. split; [by f_equal|lia].
Qed.

Lemma index_sub_prefix sub P S : ∃ i, index_sub sub (P ++ sub ++ S) = Some i ∧ (i ≤ length P)%nat.
Proof.
  induction P as [|c P IH].
  - exists O. split; [|lia]. assert (Hp : sub `prefix_of` sub ++ S) by by exists S. simpl.
    destruct (sub ++ S); simpl; by rewrite bool_decide_true.
  - cbn [app index_sub]. case_bool_decide; [exists O; split; [done|simpl; lia]|].
    destruct IH as (i & -> & Hi). exists (Datatypes.S i). split; [done|simpl; lia].
Qed.

Lemma index_sub_None sub l : index_sub sub l = None ↔ ¬ ∃ P S, l = P ++ sub ++ S.
Proof.
  split.
  - intros H (P & S & ->). destruct (index_sub_prefix sub P S) as (i & Hi & _). congruence.
  - intros H. destruct (index_sub sub l) as [i|] eqn:Hi; [|done]. apply index_sub_Some in Hi as (S & HS & _).
    destruct H. by exists (take i l), S.
Qed.

Lemma count_from_skip k sub l : count_from k sub l = count_from 0 sub (drop k l).
Proof. revert k. induction l as [|c l IH]; intros [|k]; simpl; try done. Qed.

Lemma count_from_nonneg k sub l : 0 ≤ count_from k sub l.
Proof. revert k. induction l as [|c l IH]; intros [|k]; simpl; try done. case_bool_decide; [specialize (IH (length sub - 1)%nat); lia|done]. Qed.

(** The count is one more than that after the first occurrence. *)
Lemma count_first sub l : sub ≠ [] →
  count_from 0 sub l = match index_sub sub l with None => 0 | Some i => 1 + count_from 0 sub (drop (i + length sub) l) end.
Proof.
  intros Hne. induction l as [|c l IH]; cbn [count_from index_sub].
  - rewrite bool_decide_false; [done|]. intros [k Hk]. by destruct sub.
  - case_bool_decide as Hp.
    + rewrite count_from_skip. destruct sub as [|x sub]; [done|]. do 2 f_equal. cbn [length Nat.add drop]. f_equal. lia.
    + rewrite IH. by destruct (index_sub sub l).
Qed.

Lemma count_pos_iff sub l : sub ≠ [] → 0 < count_from 0 sub l ↔ ∃ P S, l = P ++ sub ++ S.
Proof.
  intros Hne. rewrite count_first by done. destruct (index_sub sub l) as [i|] eqn:Hi.
  - pose proof (count_from_nonneg 0 sub (drop (i + length sub) l)). split; [|lia]. intros _.
    apply index_sub_Some in Hi as (S & HS & _). by exists (take i l), S.
  - apply index_sub_None in Hi. split; [lia|by intros ?].
Qed.

(** Two occurrences that do not overlap. *)
Definition occurs_twice (sub l : list ascii) : Prop := ∃ P M S, l = P ++ sub ++ M ++ sub ++ S.

Lemma drop_past {A} (l P sub S : list A) : l = P ++ sub ++ S → drop (length P + length sub) l = S.
Proof. intros ->. by rewrite <- length_app, app_assoc, drop_app_length. Qed.

Lemma count_two sub l : sub ≠ [] → 1 < count_from 0 sub l ↔ occurs_twice sub l.
Proof.
  intros Hne. rewrite count_first by done. destruct (index_sub sub l) as [i|] eqn:Hi.
  - apply index_sub_Some in Hi as Hi'. destruct Hi' as (S & HS & Hlen).
    assert (Hdrop : drop (i + length sub) l = S).
    { rewrite <- (drop_past _ _ _ _ HS). rewrite length_take. f_equal. lia. }
    transitivity (0 < count_from 0 sub (drop (i + length sub) l)); [lia|]. rewrite count_pos_iff by done. split.
    + intros (M & S' & HM). exists (take i l), M, S'. by rewrite HS at 1; rewrite <- Hdrop, HM.
    + intros (P & M & S' & HP). destruct (index_sub_prefix sub P (M ++ sub ++ S')) as (j & Hj & Hle).
      rewrite <- HP, Hi in Hj. injection Hj as <-.
      exists (drop (i + length sub) (P ++ sub) ++ M), S'. rewrite HP.
      rewrite (app_assoc P sub), drop_app_le by (rewrite length_app; lia). by rewrite <- app_assoc.
  - apply index_sub_None in Hi. split; [lia|]. intros (P & M & S & HP). destruct Hi. by exists P, (M ++ sub ++ S).
Qed.

(** File_edit changes one place. For a text that is not empty it succeeds
    exactly when the text occurs and does not occur twice apart, and then puts the
    new text in place of the first occurrence and keeps everything else; it says
    which of the two is the matter otherwise. *)
Theorem replaceEditContent_spec content oldText newText (Hold : oldText ≠ "") :
  match replaceEditContent content oldText newText with
  | Ok new => ¬ occurs_twice (bytes oldText) content ∧ ∃ P S, content = P ++ bytes oldText ++ S ∧ new = P ++ bytes newText ++ S ∧
                ∀ P' S', content = P' ++ bytes oldText ++ S' → (length P ≤ length P' < length P + length (bytes oldText))%nat
  | Err NotFound => ¬ ∃ P S, content = P ++ bytes oldText ++ S
  | Err (Ambiguous n) => occurs_twice (bytes oldText) content ∧ 1 < n
  | Err _ => False
  end.
Proof.
  assert (Hne : bytes oldText ≠ []) by (intros E; apply Hold, bytes_inj; by rewrite E).
  unfold replaceEditContent. destruct (index_sub (bytes oldText) content) as [i|] eqn:Hi; [|by apply index_sub_None].
  unfold Count. rewrite bool_decide_false, bytes_of_bytes by done. destruct (1 <? _) eqn:Hc; zb.
  { split; [by apply count_two|done]. }
  assert (Hno : ¬ occurs_twice (bytes oldText) content) by (rewrite <- count_two by done; lia).
  split; [done|]. apply index_sub_Some in Hi as Hi'. destruct Hi' as (S & HS & Hlen). exists (take i content), S.
  assert (Hl : length (take i content) = i) by (rewrite length_take; lia). split_and!; [done| |].
  - do 2 f_equal. rewrite <- (drop_past _ _ _ _ HS). by rewrite Hl.
  - intros P' S' HP'. rewrite Hl. split.
    + destruct (index_sub_prefix (bytes oldText) P' S') as (j & Hj & Hle). rewrite <- HP', Hi in Hj. injection Hj as ->. done.
    + destruct (decide (length P' < i + length (bytes oldText))%nat) as [|Hge]; [done|]. destruct Hno.
      exists (take i content), (take (length P' - (i + length (bytes oldText))) S), S'.
      assert (Hd : drop (length P' - (i + length (bytes oldText))) S = bytes oldText ++ S').
      { rewrite <- (drop_past _ _ _ _ HS), drop_drop. rewrite HP' at 2. rewrite drop_app_length' by lia. done. }
      rewrite <- Hd, take_drop. done.
Qed.

(** Occurrences that overlap are not counted: the first is taken. *)
Example overlap_accepted : replaceEditContent (bytes "aaa") "aa" "b" = Ok (bytes "ba").
Proof. reflexivity. Qed.

Lemma replaceEditContent_spec_witness :
  "b" ≠ "" ∧ replaceEditContent (bytes "abc") "b" "xy" = Ok (bytes "axyc") ∧ ¬ occurs_twice (bytes "b") (bytes "abc").
Proof.
  assert (H : "b" ≠ "") by discriminate. split; [exact H|]. split; [reflexivity|].
  exact (proj1 (replaceEditContent_spec (bytes "abc") "b" "xy" H)).
Defined.

(** ** The copy *)

Lemma backup_loop_ok o d base data next left_ attempt d' r :
  backup_loop o d base data next left_ attempt = Ok (d', r) →
  ∃ name, r = Some name ∧ d !! name = None ∧ d' = <[name := EFile data]> d.
Proof.
  revert attempt. induction left_ as [|k IH]; intros attempt; [done|]. cbn [backup_loop]. destruct (_ <? _); [done|].
  destruct (d !! backup_name base _) eqn:Hd; [apply IH|]. destruct (io_copy o attempt); [|done]. intros [= <- <-].
  by eexists.
Qed.

(** A copy is a new file that holds what the file holds. *)
Lemma backup_ok o d base d' r : backupExistingFile o d base = Ok (d', r) →
  (d !! base = None ∧ d' = d ∧ r = None) ∨
  (∃ data name, d !! base = Some (EFile data) ∧ r = Some name ∧ d !! name = None ∧ d' = <[name := EFile data]> d).
Proof.
  unfold backupExistingFile. destruct (d !! base) as [[data|]|] eqn:Hb; (destruct (io_stat o); [|done]); cbn [negb].
  - destruct (io_scan o); [|done]. cbn [negb]. intros (next & _ & H)%let_ok_inv. destruct (io_read o); [|done].
    apply backup_loop_ok in H as (name & -> & Hn & ->). right. by exists data, name.
  - done.
  - intros [= <- <-]. by left.
Qed.

Lemma foldr_max_le l x : x ∈ l → x ≤ foldr Z.max 0 l.
Proof. induction l as [|y l IH]; [by intros ?%elem_of_nil|]. intros [->|Hx]%elem_of_cons; simpl; [lia|]. specialize (IH Hx). lia. Qed.

Lemma foldr_max_nonneg l : 0 ≤ foldr Z.max 0 l.
Proof. induction l; simpl; lia. Qed.

Lemma backup_suffix_name base z : 0 ≤ z ≤ 9999 → backup_suffix base (backup_name base z) = Some z.
Proof.
  intros Hz. unfold backup_suffix, backup_name.
  assert (Hb : bytes (base +:+ "." +:+ zero_pad 4 z) = (bytes base ++ ["."%char]) ++ bytes (zero_pad 4 z)).
  { rewrite !bytes_app. by rewrite <- app_assoc. }
  assert (Hp : HasPrefix (base +:+ "." +:+ zero_pad 4 z) (base +:+ ".") = true).
  { apply HasPrefix_bytes. exists (bytes (zero_pad 4 z)). by rewrite Hb, bytes_app. }
  rewrite Hp, Hb, drop_app_length. cbn [andb].
  rewrite bool_decide_true by (apply (zero_pad_length 4); [change (10 ^ Z.of_nat 4) with 10000|]; lia).
  assert (Hd : forallb (λ c, is_digit (byte_val c)) (bytes (zero_pad 4 z)) = true).
  { apply forallb_Forall, zero_pad_digits. lia. }
  rewrite Hd. cbn [andb]. f_equal. apply zero_pad_value. lia.
Qed.

(** The first name tried is past every copy there is, so it is taken only by a
    directory: while the disk works a copy is made, and it is the newest. *)
Lemma backup_first o d base data next : nextBackupSuffix base d = Ok next →
  1 ≤ next ≤ 9999 ∧ (∀ name c s, d !! name = Some (EFile c) → backup_suffix base name = Some s → s < next) ∧
  (d !! backup_name base next ≠ Some EDir → io_copy o O = true →
    backup_loop o d base data next maxAttempts O = Ok (<[backup_name base next := EFile data]> d, Some (backup_name base next))).
Proof.
  unfold nextBackupSuffix. destruct (_ <? _) eqn:Hn; [done|]. intros [= <-]. zb.
  assert (Hlt : ∀ name c s, d !! name = Some (EFile c) → backup_suffix base name = Some s →
    s < foldr Z.max 0 (map (suffix_in_use base) (map_to_list d)) + 1).
  { intros name c s Hd Hs.
    assert (s ≤ foldr Z.max 0 (map (suffix_in_use base) (map_to_list d))); [|lia]. apply foldr_max_le.
    apply list_elem_of_fmap. exists (name, EFile c). split; [unfold suffix_in_use; simpl; by rewrite Hs|].
    by apply elem_of_map_to_list. }
  pose proof (foldr_max_nonneg (map (suffix_in_use base) (map_to_list d))).
  split; [lia|]. split; [done|]. intros Hdir Hio. cbn [backup_loop maxAttempts Z.of_nat]. rewrite Z.add_0_r.
  rewrite (proj2 (Z.ltb_ge _ _)) by lia. destruct (d !! backup_name base _) as [[c|]|] eqn:E; [|done|by rewrite Hio].
  eapply Hlt in E; [|apply backup_suffix_name; lia]. lia.
Qed.

(** ** The tools *)

Inductive tool := TRange (u : edit_unit) (op : edit_op) | TEdit | TAppend | TWrite.

Section tools.
Context (convert : Z → Z) {UD : UnicodeData}.

Definition Execute (t : tool) : io → directory → string → args → directory * result unit EditError :=
  match t with
  | TRange u op => rangeEdit_Execute convert u op
  | TEdit => EditFile_Execute
  | TAppend => AppendFile_Execute
  | TWrite => WriteFile_Execute
  end.

(** The new content a tool computes from the old, [None] for a file that is not
    there. *)
Definition new_content (t : tool) (a : args) (old : option (list ascii)) : result (list ascii) EditError :=
  match t, old with
  | TRange u op, Some c => match apply_edit convert u op c a with Ok r => Ok (e_out r) | Err e => Err e end
  | TEdit, Some c => replaceEditContent c (str_arg a "old_text") (str_arg a "new_text")
  | TAppend, _ => Ok (default [] old ++ bytes (str_arg a "content"))
  | TWrite, _ => Ok (bytes (str_arg a "content"))
  | _, None => Err ReadFailed
  end.

Definition wants_backup (t : tool) (a : args) : bool :=
  getBoolArg a "backup" (match t with TRange _ op => backupDefault op | _ => false end).

Definition file_content (d : directory) (base : string) : option (list ascii) :=
  match d !! base with Some (EFile c) => Some c | _ => None end.

(** What a call leaves: only the file changes, and at most one new file appears,
    which holds what the file held. *)
Definition harmless (d d' : directory) (base : string) : Prop :=
  (∀ name e, name ≠ base → d !! name = Some e → d' !! name = Some e) ∧
  (∀ name e, name ≠ base → d !! name = None → d' !! name = Some e → ∃ c, e = EFile c ∧ file_content d base = Some c).

Lemma harmless_refl d base : harmless d d base.
Proof. split; [done|]. intros name e _ H1 H2. congruence. Qed.

Lemma harmless_insert d d' base e : harmless d d' base → harmless d (<[base := e]> d') base.
Proof. intros [H1 H2]. split; intros name e' Hn; rewrite lookup_insert_ne by done; [by apply H1|by apply H2]. Qed.

Lemma backup_harmless o d base d' r : backupExistingFile o d base = Ok (d', r) →
  harmless d d' base ∧ d' !! base = d !! base ∧
  (∀ c, file_content d base = Some c → ∃ name, d !! name = None ∧ d' !! name = Some (EFile c)).
Proof.
  intros [(Hb & -> & ->)|(data & name & Hb & -> & Hn & ->)]%backup_ok.
  - split; [apply harmless_refl|]. split; [done|]. unfold file_content. by rewrite Hb.
  - assert (Hne : name ≠ base) by congruence. assert (Hc : file_content d base = Some data) by (unfold file_content; by rewrite Hb).
    split_and!.
    + split; intros x e Hx H1; [rewrite lookup_insert_ne by congruence; done|]. intros H2.
      destruct (decide (x = name)) as [->|Hxn]; [|rewrite lookup_insert_ne in H2 by done; congruence].
      rewrite lookup_insert_eq in H2. injection H2 as <-. by exists data.
    + by rewrite lookup_insert_ne.
    + intros c Hc'. assert (c = data) as -> by congruence. exists name. split; [done|by rewrite lookup_insert_eq].
Qed.

Lemma write_file_spec o d base data d' ok : write_file o d base data = (d', ok) →
  (ok = true ∧ d' = <[base := EFile data]> d) ∨ (ok = false ∧ d' = d).
Proof. unfold write_file. destruct (d !! base) as [[]|], (io_write o); intros [= <- <-]; auto. Qed.

Lemma backup_and_write_spec o d base want data d' r : backup_and_write o d base want data = (d', r) →
  harmless d d' base ∧
  ((r = Ok tt ∧ d' !! base = Some (EFile data) ∧
    (want = true → ∀ c, file_content d base = Some c → ∃ name, d !! name = None ∧ d' !! name = Some (EFile c))) ∨
   (r ≠ Ok tt ∧ d' !! base = d !! base)).
Proof.
  unfold backup_and_write. intros H.
  destruct (if want then _ else _) as [[d1 rn]|e] eqn:Hb; [|injection H as <- <-; split; [apply harmless_refl|by right]].
  assert (Hh : harmless d d1 base ∧ d1 !! base = d !! base ∧
    (want = true → ∀ c, file_content d base = Some c → ∃ name, d !! name = None ∧ d1 !! name = Some (EFile c))).
  { destruct want; [apply backup_harmless in Hb as (? & ? & ?); by split_and!|]. injection Hb as <- <-.
    split; [apply harmless_refl|done]. }
  destruct Hh as (Hh & Hbase & Hcopy). destruct (write_file o d1 base data) as [d2 ok] eqn:Hw. injection H as <- <-.
  apply write_file_spec in Hw as [[-> ->]|[-> ->]]; [|split; [done|by right]].
  split; [by apply harmless_insert|]. left. rewrite lookup_insert_eq. split_and!; [done..|]. intros Hwant c Hc.
  destruct (Hcopy Hwant c Hc) as (name & Hn & Hn'). exists name. split; [done|].
  rewrite lookup_insert_ne; [done|]. intros <-. unfold file_content in Hc. by rewrite Hn in Hc.
Qed.

(** How a call ends. *)
Definition outcome (t : tool) (a : args) (d d' : directory) (base : string) (r : result unit EditError) : Prop :=
  harmless d d' base ∧
  match r with
  | Ok _ =>
      ∃ new, new_content t a (file_content d base) = Ok new ∧ d' !! base = Some (EFile new) ∧
        (wants_backup t a = true → ∀ c, file_content d base = Some c → ∃ name, d !! name = None ∧ d' !! name = Some (EFile c))
  | Err _ => d' !! base = d !! base
  end.

Lemma outcome_err t a d base e : outcome t a d d base (Err e).
Proof. split; [apply harmless_refl|done]. Qed.

(** A tool that computes the new content and then writes it. *)
Lemma outcome_write t o d base a new d' r :
  new_content t a (file_content d base) = Ok new → backup_and_write o d base (wants_backup t a) new = (d', r) →
  outcome t a d d' base r.
Proof.
  intros Hnew H. apply backup_and_write_spec in H as (Hh & [(-> & Hb & Hc)|[Hr Hb]]).
  - split; [done|]. by exists new.
  - split; [done|]. by destruct r as [[]|].
Qed.

Lemma read_file_content o d base c : read_file o d base = Some c → file_content d base = Some c.
Proof. unfold read_file, file_content. destruct (d !! base) as [[]|]; [|done..]. by destruct (io_read o). Qed.

(** [AppendFile_Execute] reads after the copy; the file is what it was. *)
Lemma append_outcome o d base a d' r : AppendFile_Execute o d base a = (d', r) → outcome TAppend a d d' base r.
Proof.
  unfold AppendFile_Execute. intros H. destruct (is_str a "path"); [|injection H as <- <-; apply outcome_err].
  destruct (is_str a "content"); [|injection H as <- <-; apply outcome_err].
  destruct (io_check o); [|injection H as <- <-; apply outcome_err]. cbn [negb] in H.
  destruct (if getBoolArg a "backup" false then _ else _) as [[d1 rn]|e] eqn:Hb; [|injection H as <- <-; apply outcome_err].
  assert (Hh : harmless d d1 base ∧ d1 !! base = d !! base ∧
    (wants_backup TAppend a = true → ∀ c, file_content d base = Some c → ∃ name, d !! name = None ∧ d1 !! name = Some (EFile c))).
  { unfold wants_backup. destruct (getBoolArg a "backup" false); [apply backup_harmless in Hb as (? & ? & ?); by split_and!|].
    injection Hb as <- <-. split; [apply harmless_refl|done]. }
  destruct Hh as (Hh & Hbase & Hcopy).
  assert (Hw : ∀ data d2 ok, write_file o d1 base data = (d2, ok) →
    data = default [] (file_content d base) ++ bytes (str_arg a "content") →
    outcome TAppend a d d2 base (if ok then Ok tt else Err WriteFailed)).
  { intros data d2 ok Hw ->. apply write_file_spec in Hw as [[-> ->]|[-> ->]]; [|by split].
    split; [by apply harmless_insert|]. eexists. split; [done|]. rewrite lookup_insert_eq. split; [done|].
    intros Hwant c Hc. destruct (Hcopy Hwant c Hc) as (name & Hn & Hn'). exists name. split; [done|].
    rewrite lookup_insert_ne; [done|]. intros <-. unfold file_content in Hc. by rewrite Hn in Hc. }
  destruct (d1 !! base) as [e|] eqn:E.
  - destruct (read_file o d1 base) as [c|] eqn:Hr; [|injection H as <- <-; split; [done|congruence]].
    destruct (write_file o d1 base _) as [d2 ok] eqn:Hwf. injection H as <- <-. eapply Hw; [done|].
    apply read_file_content in Hr. unfold file_content in *. rewrite <- Hbase, E in *. by rewrite Hr.
  - destruct (write_file o d1 base _) as [d2 ok] eqn:Hwf. injection H as <- <-. eapply Hw; [done|].
    unfold file_content. by rewrite <- Hbase.
Qed.


End tools.

(** The exception: removing the last line of a file that has no newline at its end
    also loses an empty line before it. *)
Definition del_args : args := <["start" := AFloat 3 true]> ∅.

Example last_line_deleted :
  let content := bytes ("a" +:+ nl +:+ nl +:+ "b") in
  splitLines content = (["a"; ""; "b"], false) ∧
  match @applyLines (λ z, z) ascii_only OpDelete content del_args with
  | Ok r => splitLines (e_out r) = (["a"], true)
  | Err _ => False
  end.
Proof. vm_compute. done. Qed.

(** A number past the range of int64 that passes the test for it: 2 to the 63. *)
Example end_overflow :
  let a := <["start" := AFloat 1 true]> (<["end" := AFloat (2 ^ 63) true]> ∅) in
  @resolveEnd wrap64 ascii_only a 1 5 = Ok (- 2 ^ 63) ∧ @resolveEnd wrap64 ascii_only (<["end" := AFloat (2 ^ 62) true]> ∅) 1 5 = Ok 5.
Proof. vm_compute. done. Qed.

