(* ===== verification/FileReads.v ===== *)
(** * Reading and searching files (tools/files/filesystem.go, search.go)

    The tools that read a file in pages, by lines or by bytes, and the search that
    says at which line a text is. A file is its bytes and a directory a tree. The
    theorems: the pages of a file, each asked for as the one before says, are the
    whole file once and in order; a page is never longer than the limit; a line
    number of the search is the line that reading and editing take it for; and a
    search returns no more than it was asked for. Regular expressions are
    predicates on lines. *)

From stdpp Require Import base gmap strings list fin_maps.
From Stdlib Require Import ZArith Lia Ascii.
From S2P Require Import Prelude GoString FileEdits.

Open Scope Z_scope.

(** ** Lines as they are read *)

Definition carriage_return : ascii := "013"%char.

(** [dropCR] of bufio. *)
Definition dropCR (l : list ascii) : list ascii :=
  if bool_decide (last l = Some carriage_return) then removelast l else l.

(** The bytes up to each newline, with a carriage return that may end them. *)
Definition raw_lines (content : list ascii) : list (list ascii) :=
  if bool_decide (content = []) then []
  else split_byte newline (if bool_decide (last content = Some newline) then removelast content else content).

(** The longest line that a [bufio.Scanner] with [Buffer(make([]byte, 0, 64*1024),
    max)] reads: the buffer holds it with its newline. *)
Definition scan_limit (max : Z) : Z := Z.max (64 * 1024) max - 1.

(** ** file_read_lines *)

Definition MaxReadFileSize : Z := 32 * 1024.
Definition defaultReadLineCount : Z := 250.

(** What is answered: an error of the scanner, no lines (and the number counted),
    or the lines with their numbers, the last number, whether more follow, and
    whether the limit on bytes ended the page. *)
Inductive lines_page :=
| ScanFailed
| NoLines (counted : Z)
| LinesPage (lines : list (Z * list ascii)) (lastLine : Z) (moreFollow bytesCapped : bool).

(** ["%d: %s\n"] *)
Definition numbered (n : Z) (line : list ascii) : list ascii := bytes (itoa n) ++ [":"%char; " "%char] ++ line ++ [newline].

(** The loop over the scanner: [cur] lines read before, [out] emitted, [used] the
    length of the text so far. [None] is an error of the scanner. *)
Fixpoint read_loop (maxSize startLine endLine cur : Z) (out : list (Z * list ascii)) (used : Z) (lines : list (list ascii))
    : option (Z * list (Z * list ascii) * bool * bool) :=
  match lines with
  | [] => Some (cur, out, false, false)
  | raw :: rest =>
      if scan_limit (maxSize + 1) <? Z.of_nat (length raw) then None
      else
        let cur := cur + 1 in
        if cur <? startLine then read_loop maxSize startLine endLine cur out used rest
        else if endLine <=? cur then Some (cur, out, false, true)
        else
          let line := dropCR raw in
          if maxSize <? used + Z.of_nat (length line) + 16 then Some (cur, out, true, true)
          else read_loop maxSize startLine endLine cur (out ++ [(cur, line)])
                 (used + Z.of_nat (length (numbered cur line))) rest
  end.

Definition readLines (maxSize : Z) (content : list ascii) (startLine lineCount : Z) : lines_page :=
  match read_loop maxSize startLine (wrap64 (startLine + lineCount)) 0 [] 0 (raw_lines content) with
  | None => ScanFailed
  | Some (cur, out, bytesCapped, moreLines) =>
      match last out with
      | None => NoLines cur
      | Some (lastLine, _) => LinesPage out lastLine (bytesCapped || moreLines) bytesCapped
      end
  end.

(** ** file_read_bytes *)

Inductive bytes_page := EndOfFile | BytesPage (data : list ascii) (readEnd : Z) (hasMore : bool).

(** From the seek on, for a file that can seek. *)
Definition read_bytes (content : list ascii) (offset length_ : Z) : bytes_page :=
  let probe := take (Z.to_nat (length_ + 1)) (drop (Z.to_nat offset) content) in
  let n := Z.of_nat (length probe) in
  let hasMore := length_ <? n in
  let data := take (Z.to_nat (Z.min n length_)) probe in
  if bool_decide (data = []) then EndOfFile else BytesPage data (offset + Z.of_nat (length data)) hasMore.

(** [Execute] for a file that opens and can be read. *)
Inductive ReadError := ForeignParameter | BadArgument (e : EditError) | NegativeOffset | LengthNotPositive.
Inductive read_answer := RLines (p : lines_page) | RBytes (p : bytes_page).

(** [newReadTool]; the size of the configuration. *)
Definition tool_maxSize (maxReadFileSize : Z) : Z := if maxReadFileSize <=? 0 then MaxReadFileSize else maxReadFileSize.

Section read.
Context (convert : Z → Z).

Definition int_arg (a : args) (key : string) (def : Z) : result Z ReadError :=
  match getInt64Arg convert a key def with Ok z => Ok z | Err e => Err (BadArgument e) end.

Definition ReadFile_Execute (lineMode : bool) (maxSize : Z) (content : list ascii) (a : args) : result read_answer ReadError :=
  if (if lineMode then argPresent a "offset" || argPresent a "length" else argPresent a "start_line" || argPresent a "line_count")
  then Err ForeignParameter
  else
    (let* offset := int_arg a "offset" 0 in
     if offset <? 0 then Err NegativeOffset
     else
       let* length_ := int_arg a "length" maxSize in
       if length_ <=? 0 then Err LengthNotPositive
       else
         let length_ := Z.min length_ maxSize in
         let* startLine := int_arg a "start_line" 1 in
         let* lineCount := int_arg a "line_count" defaultReadLineCount in
         if lineMode then
           Ok (RLines (readLines maxSize content (if startLine <? 1 then 1 else startLine)
                         (if lineCount <=? 0 then defaultReadLineCount else lineCount)))
         else Ok (RBytes (read_bytes content offset length_)))%go.
End read.

(** ** The search *)

Definition maxSearchFilesScanned : Z := 5000.

Section search.
(** The regular expression on a line, or on a file for positions. *)
Context (re_match : list ascii → bool).

(** [searchFileLines]: the numbers of matching lines, for [limit > 0]. *)
Fixpoint search_lines (limit : nat) (lineNo : Z) (lines : list (list ascii)) : list (Z * list ascii) :=
  match lines with
  | [] => []
  | raw :: rest =>
      if scan_limit (2 ^ 20) <? Z.of_nat (length raw) then []
      else
        let lineNo := lineNo + 1 in
        let line := dropCR raw in
        if re_match line then
          match limit with
          | O => []
          | S limit' => (lineNo, line) :: (if bool_decide (limit' = O) then [] else search_lines limit' lineNo rest)
          end
        else search_lines limit lineNo rest
  end.

Definition searchFileLines (content : list ascii) (limit : nat) : list (Z * list ascii) :=
  search_lines limit 0 (raw_lines content).

(** A directory tree, with its entries in the order they are listed; a file that is
    too large or holds a zero byte in its first 512 is not searched. *)
Inductive tree := TFile (content : list ascii) | TDir (entries : list (string * tree)).

Definition maxSearchFileBytes : Z := 2 ^ 20.

Definition searchFile (content : list ascii) (limit : nat) : list (Z * list ascii) :=
  if bool_decide (limit = O) || (maxSearchFileBytes <? Z.of_nat (length content))
     || existsb (Ascii.eqb "000"%char) (take 512 content) then []
  else searchFileLines content limit.

(** The state of a search: the files looked at and the matches, each with the path
    of its file. *)
Record search_state := { scanned : Z; found : list (list string * Z * list ascii); truncated : bool }.

(** [visit]: the state, and whether to go on. *)
Definition visit (maxResults : nat) (path : list string) (content : list ascii) (st : search_state) : search_state * bool :=
  let hits := searchFile content (maxResults - length (found st)) in
  let out := found st ++ map (λ h, (path, h.1, h.2)) hits in
  if bool_decide (maxResults ≤ length out)%nat
  then ({| scanned := scanned st + 1; found := out; truncated := true |}, false)
  else ({| scanned := scanned st + 1; found := out; truncated := truncated st |}, scanned st + 1 <? maxSearchFilesScanned).

(** [walk] *)
Fixpoint walk (maxResults : nat) (dir : list string) (t : tree) (st : search_state) {struct t} : search_state :=
  match t with
  | TFile _ => st
  | TDir entries =>
      (fix go (es : list (string * tree)) (st : search_state) : search_state :=
         match es with
         | [] => st
         | (name, e) :: rest =>
             if HasPrefix name "." then go rest st
             else match e with
                  | TDir _ => go rest (walk maxResults (dir ++ [name]) e st)
                  | TFile content =>
                      let '(st', more) := visit maxResults (dir ++ [name]) content st in
                      if more then go rest st' else st'
                  end
         end) entries st
  end.

(** The search itself, after its arguments. *)
Definition search (maxResults : nat) (root : list string) (t : tree) : search_state :=
  let st := {| scanned := 0; found := []; truncated := false |} in
  match t with TDir _ => walk maxResults root t st | TFile content => (visit maxResults root content st).1 end.

Definition search_maxResults (asked : Z) : Z := if (asked <=? 0) || (200 <? asked) then 200 else asked.
End search.

(** ** Pages of lines *)

(** Lines with their numbers, from [k]. *)
Fixpoint number (k : Z) (lines : list (list ascii)) : list (Z * list ascii) :=
  match lines with [] => [] | l :: rest => (k, dropCR l) :: number (k + 1) rest end.

Lemma number_length k lines : length (number k lines) = length lines.
Proof. revert k. induction lines as [|l lines IH]; intros k; simpl; [done|]. by rewrite IH. Qed.

Lemma number_take_drop k j lines : number k lines = number k (take j lines) ++ number (k + Z.of_nat j) (drop j lines).
Proof.
  revert k j. induction lines as [|l lines IH]; intros k [|j]; simpl; rewrite ?Z.add_0_r; try done.
  f_equal. rewrite (IH (k + 1) j). do 2 f_equal. lia.
Qed.

Lemma number_lookup k lines i : number k lines !! i = (λ l, (k + Z.of_nat i, dropCR l)) <$> lines !! i.
Proof.
  revert k i. induction lines as [|l lines IH]; intros k [|i]; simpl; rewrite ?Z.add_0_r; try done.
  rewrite IH. destruct (lines !! i); simpl; [|done]. do 2 f_equal. lia.
Qed.

Lemma number_last k lines : lines ≠ [] → fst <$> last (number k lines) = Some (k + Z.of_nat (length lines) - 1).
Proof.
  intros Hne. rewrite last_lookup, number_lookup, number_length.
  destruct (lookup_lt_is_Some_2 lines (pred (length lines))) as [l Hl]; [destruct lines; simpl; [done|lia]|].
  rewrite Hl. simpl. f_equal. destruct lines; simpl; [done|lia].
Qed.

(** A line that fits into a page. *)
Definition fits (maxSize : Z) (raw : list ascii) : Prop := Z.of_nat (length raw) + 16 ≤ maxSize.

Lemma dropCR_length raw : (length (dropCR raw) ≤ length raw)%nat.
Proof.
  unfold dropCR. case_bool_decide as H; [|done]. destruct (decide (raw = [])) as [->|Hne]; [done|].
  destruct (exists_last Hne) as (l & x & ->). rewrite removelast_last, length_app. lia.
Qed.

Lemma fits_scan maxSize raw : fits maxSize raw → (scan_limit (maxSize + 1) <? Z.of_nat (length raw)) = false.
Proof. unfold fits, scan_limit. intros H. apply Z.ltb_ge. lia. Qed.

Lemma read_loop_skip maxSize s e cur out used lines :
  Forall (fits maxSize) lines → cur + Z.of_nat (length lines) < s →
  read_loop maxSize s e cur out used lines = Some (cur + Z.of_nat (length lines), out, false, false).
Proof.
  revert cur. induction lines as [|raw lines IH]; intros cur Hf Hc; cbn [read_loop length]; [by rewrite Z.add_0_r|].
  apply Forall_cons in Hf as [Hr Hf]. rewrite fits_scan by done. cbn [length] in Hc.
  rewrite (proj2 (Z.ltb_lt _ _)) by lia. rewrite IH by (done || lia). do 4 f_equal. lia.
Qed.

Lemma read_loop_drop maxSize s e cur out used l1 l2 :
  Forall (fits maxSize) l1 → cur + Z.of_nat (length l1) < s →
  read_loop maxSize s e cur out used (l1 ++ l2) = read_loop maxSize s e (cur + Z.of_nat (length l1)) out used l2.
Proof.
  revert cur. induction l1 as [|raw l1 IH]; intros cur Hf Hc; cbn [app length]; [by rewrite Z.add_0_r|].
  apply Forall_cons in Hf as [Hr Hf]. cbn [read_loop]. rewrite fits_scan by done. cbn [length] in Hc.
  rewrite (proj2 (Z.ltb_lt _ _)) by lia. rewrite IH by (done || lia). f_equal. lia.
Qed.

(** From the start of the page on: the lines up to where the page ends. *)
Lemma read_loop_page maxSize s e cur out used lines :
  Forall (fits maxSize) lines → s ≤ cur + 1 → cur + 1 < e →
  ∃ k cur' capped more, read_loop maxSize s e cur out used lines = Some (cur', out ++ number (cur + 1) (take k lines), capped, more) ∧
    (k ≤ length lines)%nat ∧ (capped || more = bool_decide (k < length lines)%nat) ∧
    (lines ≠ [] → used = 0 → (0 < k)%nat) ∧ (lines = [] → cur' = cur).
Proof.
  revert cur out used. induction lines as [|raw lines IH]; intros cur out used Hf Hs He; cbn [read_loop].
  { exists O, cur, false, false. simpl. rewrite app_nil_r. split_and!; try done. }
  apply Forall_cons in Hf as [Hr Hf]. rewrite fits_scan by done. rewrite (proj2 (Z.ltb_ge _ _)) by lia.
  rewrite (proj2 (Z.leb_gt _ _)) by lia. destruct (_ <? _) eqn:Hb; zb.
  { exists O, (cur + 1), true, true. simpl. rewrite app_nil_r. split_and!; try done; [lia|].
    intros _ ->. pose proof (dropCR_length raw). unfold fits in Hr. lia. }
  destruct (decide (cur + 2 < e)) as [He'|He'].
  - destruct (IH (cur + 1) (out ++ [(cur + 1, dropCR raw)]) (used + Z.of_nat (length (numbered (cur + 1) (dropCR raw)))) Hf)
      as (k & cur' & capped & more & Hl & Hk & Hm & _); [lia..|].
    exists (S k), cur', capped, more. rewrite Hl. cbn [take number length]. rewrite <- app_assoc. split_and!; try done; [lia| |lia].
    rewrite Hm. apply bool_decide_ext. lia.
  - destruct lines as [|raw2 lines].
    + exists 1%nat, (cur + 1), false, false. cbn. split_and!; try done; lia.
    + apply Forall_cons in Hf as [Hr2 Hf]. cbn [read_loop]. rewrite fits_scan by done.
      rewrite (proj2 (Z.ltb_ge _ _)) by lia. rewrite (proj2 (Z.leb_le _ _)) by lia.
      exists 1%nat, (cur + 1 + 1), false, true. cbn [take number length]. split_and!; try done; lia.
Qed.

(** A page begins with the line asked for, and says whether lines follow. *)
Lemma readLines_page maxSize content s c :
  Forall (fits maxSize) (raw_lines content) → 1 ≤ s → 1 ≤ c → s + c ≤ max_int64 →
  (Z.of_nat (length (raw_lines content)) < s ∧ readLines maxSize content s c = NoLines (Z.of_nat (length (raw_lines content)))) ∨
  (∃ k capped, (0 < k)%nat ∧ (Z.to_nat s - 1 + k ≤ length (raw_lines content))%nat ∧
    readLines maxSize content s c =
      LinesPage (number s (take k (drop (Z.to_nat s - 1) (raw_lines content)))) (s + Z.of_nat k - 1)
        (bool_decide (Z.to_nat s - 1 + k < length (raw_lines content))%nat) capped).
Proof.
  intros Hf Hs Hc Hmax. unfold readLines. rewrite wrap64_id by (unfold in_int64, min_int64, max_int64 in *; lia).
  set (lines := raw_lines content) in *. destruct (decide (Z.of_nat (length lines) < s)) as [Hlt|Hge].
  { left. split; [done|]. by rewrite read_loop_skip by (done || lia). }
  right. assert (Hlen : length (take (Z.to_nat s - 1) lines) = (Z.to_nat s - 1)%nat) by (rewrite length_take; lia).
  assert (Hskip : read_loop maxSize s (s + c) 0 [] 0 lines =
    read_loop maxSize s (s + c) (0 + Z.of_nat (Z.to_nat s - 1)) [] 0 (drop (Z.to_nat s - 1) lines)).
  { rewrite <- (take_drop (Z.to_nat s - 1) lines) at 1.
    rewrite read_loop_drop; [by rewrite Hlen|by apply Forall_take|rewrite Hlen; lia]. }
  rewrite Hskip.
  destruct (read_loop_page maxSize s (s + c) (0 + Z.of_nat (Z.to_nat s - 1)) [] 0 (drop (Z.to_nat s - 1) lines))
    as (k & cur' & capped & more & -> & Hk & Hm & Hpos & _); [by apply Forall_drop|lia..|].
  rewrite length_drop in *.
  assert (Hk0 : (0 < k)%nat) by (apply Hpos; [intros E; apply (f_equal length) in E; rewrite length_drop in E; simpl in E; lia|done]).
  replace (0 + Z.of_nat (Z.to_nat s - 1) + 1) with s by lia. cbn [app].
  assert (Hne : take k (drop (Z.to_nat s - 1) lines) ≠ []).
  { intros E. apply (f_equal length) in E. rewrite length_take, length_drop in E. simpl in E. lia. }
  pose proof (number_last s _ Hne) as Hl. rewrite length_take, length_drop in Hl.
  destruct (last _) as [[z l]|]; [|done]. simpl in Hl. injection Hl as Hl.
  exists k, capped. split; [done|]. split; [lia|]. rewrite Hm. f_equal; [lia|]. apply bool_decide_ext. lia.
Qed.

(** Reading on as each answer says, from line [start]. *)
Fixpoint read_on (fuel : nat) (maxSize : Z) (content : list ascii) (start count : Z) : option (list (Z * list ascii)) :=
  match fuel with
  | O => None
  | S fuel' =>
      match readLines maxSize content start count with
      | ScanFailed => None
      | NoLines _ => Some []
      | LinesPage lines lastLine moreFollow _ =>
          if moreFollow then (λ rest, lines ++ rest) <$> read_on fuel' maxSize content (lastLine + 1) count else Some lines
      end
  end.

Lemma read_on_all fuel maxSize content s c :
  Forall (fits maxSize) (raw_lines content) → 1 ≤ s → 1 ≤ c → Z.of_nat (length (raw_lines content)) + c ≤ max_int64 →
  s ≤ Z.of_nat (length (raw_lines content)) + 1 → (length (raw_lines content) < fuel + (Z.to_nat s - 1))%nat →
  s + c ≤ max_int64 →
  read_on fuel maxSize content s c = Some (number s (drop (Z.to_nat s - 1) (raw_lines content))).
Proof.
  intros Hf Hs Hc Hmax. revert s Hs. induction fuel as [|fuel IH]; intros s Hs Hle Hfuel Hsc; [lia|]. cbn [read_on].
  destruct (readLines_page maxSize content s c Hf Hs Hc Hsc) as [[Hlt ->]|(k & capped & Hk & Hkl & ->)].
  { by rewrite drop_ge by lia. }
  case_bool_decide as Hmore.
  - replace (s + Z.of_nat k - 1 + 1) with (s + Z.of_nat k) by lia. rewrite IH by lia. simpl. f_equal.
    rewrite (number_take_drop s k (drop _ _)), drop_drop. do 3 f_equal. lia.
  - f_equal. f_equal. rewrite take_ge; [done|]. rewrite length_drop. lia.
Qed.

(** C40. Reading a file page by page gives the whole file. When every line fits into
    a page, asking for any number of lines from line 1 on and then, as each answer
    says, from the line after the last, ends with every line of the file once,
    in order and under its number, in at most as many calls as there are lines and
    one. *)
Theorem pages_complete maxSize content c
    (Hfit : Forall (fits maxSize) (raw_lines content)) (Hc : 1 ≤ c)
    (Hsmall : Z.of_nat (length (raw_lines content)) + c < max_int64) :
  read_on (S (length (raw_lines content))) maxSize content 1 c = Some (number 1 (raw_lines content)).
Proof. rewrite read_on_all by (done || lia). by rewrite drop_0. Qed.

(** A line that does not fit stops the reader: the answer is that there is no such
    line, although it counts it. *)
Example long_line_unread :
  readLines 32 (bytes ("short" +:+ nl +:+ "a line of more than sixteen bytes" +:+ nl +:+ "next" +:+ nl)) 2 10 = NoLines 2.
Proof. vm_compute. reflexivity. Qed.

(** A count near the end of the range of integers wraps around. *)
Example count_wraps : readLines MaxReadFileSize (bytes ("a" +:+ nl +:+ "b" +:+ nl)) 2 max_int64 = NoLines 2.
Proof. vm_compute. reflexivity. Qed.

Lemma pages_complete_witness :
  read_on 4 MaxReadFileSize (bytes ("a" +:+ nl +:+ nl +:+ "c")) 1 1 = Some [(1, bytes "a"); (2, []); (3, bytes "c")].
Proof.
  apply (pages_complete MaxReadFileSize (bytes ("a" +:+ nl +:+ nl +:+ "c")) 1); [|lia|vm_compute; reflexivity].
  assert (E : raw_lines (bytes ("a" +:+ nl +:+ nl +:+ "c")) = [bytes "a"; []; bytes "c"]) by (vm_compute; reflexivity).
  rewrite E. repeat constructor; vm_compute; discriminate.
Defined.

(** ** The length of a page *)

Definition page_text (lines : list (Z * list ascii)) : list ascii := concat (map (λ nl, numbered nl.1 nl.2) lines).

Lemma numbered_length n line : 0 ≤ n < 10 ^ 13 → Z.of_nat (length (numbered n line)) ≤ Z.of_nat (length line) + 16.
Proof.
  intros Hn. unfold numbered. rewrite !length_app. cbn [length].
  destruct (itoa_digits 13 n Hn ltac:(lia)) as [Hd _]. lia.
Qed.

Lemma read_loop_text maxSize s e cur out used lines cur' out' capped more :
  used = Z.of_nat (length (page_text out)) → used ≤ maxSize → 0 ≤ cur → cur + Z.of_nat (length lines) < 10 ^ 13 →
  read_loop maxSize s e cur out used lines = Some (cur', out', capped, more) →
  Z.of_nat (length (page_text out')) ≤ maxSize.
Proof.
  revert cur out used. induction lines as [|raw lines IH]; intros cur out used Hu Hle Hc Hn; cbn [read_loop length] in *.
  { intros [= <- <- <- <-]. lia. }
  destruct (_ <? _); [done|]. destruct (_ <? _); [apply IH; [done..|lia|lia]|].
  destruct (_ <=? _); [intros [= <- <- <- <-]; lia|]. destruct (_ <? _) eqn:Hb; [intros [= <- <- <- <-]; lia|]. zb.
  pose proof (numbered_length (cur + 1) (dropCR raw) ltac:(lia)). apply IH; [|lia..].
  unfold page_text in *. rewrite map_app, concat_app, length_app. cbn [map concat fst snd]. rewrite app_nil_r. lia.
Qed.

(** A page of lines is never longer than the limit, whatever is asked for, in a
    file of fewer than ten trillion lines. *)
Theorem page_bounded maxSize content s c
    (Hn : Z.of_nat (length (raw_lines content)) < 10 ^ 13) (Hm : 0 ≤ maxSize) :
  match readLines maxSize content s c with
  | LinesPage lines _ _ _ => Z.of_nat (length (page_text lines)) ≤ maxSize
  | _ => True
  end.
Proof.
  unfold readLines. destruct (read_loop _ _ _ _ _ _ _) as [[[[cur out] capped] more]|] eqn:H; [|done].
  destruct (last out) as [[]|]; [|done]. eapply (read_loop_text maxSize s); [| | |..|exact H]; try done; simpl; lia.
Qed.

(** ** Pages of bytes *)

Fixpoint read_bytes_on (fuel : nat) (content : list ascii) (offset length_ : Z) : option (list ascii) :=
  match fuel with
  | O => None
  | S fuel' =>
      match read_bytes content offset length_ with
      | EndOfFile => Some []
      | BytesPage data readEnd hasMore =>
          if hasMore then (λ rest, data ++ rest) <$> read_bytes_on fuel' content readEnd length_ else Some data
      end
  end.

Lemma read_bytes_page content offset length_ : 0 ≤ offset → 1 ≤ length_ →
  let data := take (Z.to_nat length_) (drop (Z.to_nat offset) content) in
  read_bytes content offset length_ =
    if bool_decide (data = []) then EndOfFile
    else BytesPage data (offset + Z.of_nat (length data)) (bool_decide (Z.to_nat offset + Z.to_nat length_ < length content)%nat).
Proof.
  intros Ho Hl data. unfold read_bytes. subst data. set (rest := drop (Z.to_nat offset) content). cbv zeta.
  assert (Hd : take (Z.to_nat (Z.min (Z.of_nat (length (take (Z.to_nat (length_ + 1)) rest))) length_)) (take (Z.to_nat (length_ + 1)) rest)
    = take (Z.to_nat length_) rest).
  { rewrite take_take. rewrite length_take. destruct (decide (length rest ≤ Z.to_nat length_)%nat).
    - rewrite !take_ge by lia. done.
    - f_equal. lia. }
  rewrite Hd. case_bool_decide; [done|]. f_equal.
  assert (Hr : length rest = (length content - Z.to_nat offset)%nat) by apply length_drop.
  rewrite length_take. case_bool_decide; [apply Z.ltb_lt|apply Z.ltb_ge]; lia.
Qed.

(** Reading a file by bytes, each call from where the last one ended, gives the
    whole file. *)
Theorem byte_pages_complete content length_ (Hl : 1 ≤ length_) :
  read_bytes_on (S (length content)) content 0 length_ = Some content.
Proof.
  assert (Hgen : ∀ fuel offset, 0 ≤ offset → (Z.to_nat offset ≤ length content)%nat → (length content < fuel + Z.to_nat offset)%nat →
    read_bytes_on fuel content offset length_ = Some (drop (Z.to_nat offset) content)).
  { induction fuel as [|fuel IH]; intros offset Ho Hle Hf; [lia|]. cbn [read_bytes_on]. rewrite read_bytes_page by done. cbv zeta.
    case_bool_decide as Hd.
    { apply (f_equal length) in Hd. rewrite length_take, length_drop in Hd. simpl in Hd. by rewrite drop_ge by lia. }
    case_bool_decide as Hmore.
    - assert (Hlen : length (take (Z.to_nat length_) (drop (Z.to_nat offset) content)) = Z.to_nat length_)
        by (rewrite length_take, length_drop; lia).
      rewrite Hlen, IH by lia. simpl. f_equal.
      replace (Z.to_nat (offset + Z.of_nat (Z.to_nat length_))) with (Z.to_nat offset + Z.to_nat length_)%nat by lia.
      by rewrite <- drop_drop, take_drop.
    - f_equal. rewrite take_ge; [done|]. rewrite length_drop. lia. }
  apply (Hgen _ 0); simpl; lia.
Qed.

Lemma byte_pages_complete_witness : read_bytes_on 6 (bytes "abcde") 0 2 = Some (bytes "abcde").
Proof. apply (byte_pages_complete (bytes "abcde") 2). lia. Defined.

Lemma page_bounded_witness :
  match readLines 32 (bytes "abcde") 1 9 with LinesPage lines _ _ _ => Z.of_nat (length (page_text lines)) ≤ 32 | _ => False end.
Proof.
  pose proof (page_bounded 32 (bytes "abcde") 1 9 ltac:(vm_compute; reflexivity) ltac:(lia)) as H.
  vm_compute in H |- *. exact H.
Defined.

(** ** What a search finds *)

Section found.
Context (re_match : list ascii → bool).

(** The matching lines of a file, [k] lines after its start. *)
Fixpoint matches (k : Z) (lines : list (list ascii)) : list (Z * list ascii) :=
  match lines with
  | [] => []
  | raw :: rest => (if re_match (dropCR raw) then [(k + 1, dropCR raw)] else []) ++ matches (k + 1) rest
  end.

Definition scans (raw : list ascii) : Prop := Z.of_nat (length raw) ≤ scan_limit (2 ^ 20).

(** A search of a file finds its first matching lines. *)
Lemma search_lines_spec limit k lines : (0 < limit)%nat → Forall scans lines →
  search_lines re_match limit k lines = take limit (matches k lines).
Proof.
  revert limit k. induction lines as [|raw lines IH]; intros limit k Hl Hs; [by destruct limit|].
  apply Forall_cons in Hs as [Hr Hs]. cbn [search_lines matches]. rewrite (proj2 (Z.ltb_ge _ _)) by exact Hr.
  destruct (re_match (dropCR raw)); [|by apply IH]. destruct limit as [|[|limit]]; [lia|done|].
  cbn [app take]. rewrite bool_decide_false by done. f_equal. apply IH; [lia|done].
Qed.

Lemma search_lines_prefix limit k lines : (0 < limit)%nat → search_lines re_match limit k lines `prefix_of` take limit (matches k lines).
Proof.
  revert limit k. induction lines as [|raw lines IH]; intros limit k Hl; [by destruct limit|]. cbn [search_lines matches].
  destruct (_ <? _); [apply prefix_nil|]. destruct (re_match (dropCR raw)); [|by apply IH].
  destruct limit as [|[|limit]]; [lia|done|]. cbn [app take]. rewrite bool_decide_false by done.
  apply prefix_cons. apply IH. lia.
Qed.

Lemma matches_lookup k lines n line :
  (n, line) ∈ matches k lines ↔ ∃ i raw, n = k + 1 + Z.of_nat i ∧ lines !! i = Some raw ∧ line = dropCR raw ∧ re_match line = true.
Proof.
  revert k. induction lines as [|raw lines IH]; intros k; cbn [matches].
  { split; [by intros ?%elem_of_nil|by intros (i & raw & _ & H & _)]. }
  rewrite elem_of_app, IH. split.
  - intros [H|(i & raw' & -> & Hi & -> & Hm)].
    + destruct (re_match (dropCR raw)) eqn:Hm; [|by apply elem_of_nil in H].
      apply list_elem_of_singleton in H as [= -> ->]. exists O, raw. split_and!; [lia|done..].
    + exists (S i), raw'. split_and!; [lia|done..].
  - intros ([|i] & raw' & -> & Hi & -> & Hm).
    + left. injection Hi as ->. rewrite Hm. apply list_elem_of_singleton. f_equal. lia.
    + right. exists i, raw'. split_and!; [lia|done..].
Qed.

Lemma searchFile_sound content limit :
  searchFile re_match content limit `sublist_of` matches 0 (raw_lines content) ∧
  (length (searchFile re_match content limit) ≤ limit)%nat.
Proof.
  unfold searchFile. destruct (_ || _) eqn:Hb; [split; [apply sublist_nil_l|simpl; lia]|].
  apply orb_false_iff in Hb as [[Hl%bool_decide_eq_false _]%orb_false_iff _].
  destruct (search_lines_prefix limit 0 (raw_lines content) ltac:(lia)) as [rest Hr]. unfold searchFileLines.
  split.
  - etrans; [|apply (sublist_take _ limit)]. rewrite Hr. by apply sublist_inserts_r.
  - apply (f_equal length) in Hr. rewrite length_take, length_app in Hr. lia.
Qed.

(** Induction on trees. *)
Lemma tree_induction (P : tree → Prop) :
  (∀ c, P (TFile c)) → (∀ es, Forall (λ e, P e.2) es → P (TDir es)) → ∀ t, P t.
Proof.
  intros Hf Hd. fix IH 1. intros [c|es]; [apply Hf|]. apply Hd. induction es as [|[n e] es IHes]; constructor; [apply IH|exact IHes].
Qed.

(** The files a walk comes to, in its order. *)
Fixpoint files_of (dir : list string) (t : tree) {struct t} : list (list string * list ascii) :=
  match t with
  | TFile _ => []
  | TDir entries =>
      (fix go (es : list (string * tree)) : list (list string * list ascii) :=
         match es with
         | [] => []
         | (name, e) :: rest =>
             (if HasPrefix name "." then []
              else match e with TDir _ => files_of (dir ++ [name]) e | TFile c => [(dir ++ [name], c)] end) ++ go rest
         end) entries
  end.

Definition all_files (root : list string) (t : tree) : list (list string * list ascii) :=
  match t with TFile c => [(root, c)] | TDir _ => files_of root t end.

(** A match: the file, the line and its number, are in the tree. *)
Definition genuine (files : list (list string * list ascii)) (h : list string * Z * list ascii) : Prop :=
  ∃ content, (h.1.1, content) ∈ files ∧ (h.1.2, h.2) ∈ matches 0 (raw_lines content).

(** What a step of the search keeps. *)
Definition sound (maxResults : nat) (files : list (list string * list ascii)) (st : search_state) : Prop :=
  (length (found st) ≤ maxResults)%nat ∧ Forall (genuine files) (found st).

Lemma visit_sound maxResults path content files st :
  (path, content) ∈ files → sound maxResults files st → sound maxResults files (visit re_match maxResults path content st).1.
Proof.
  intros Hin [Hlen Hg]. unfold visit. set (hits := searchFile _ _ _).
  assert (Hh : sound maxResults files
    {| scanned := 0; found := found st ++ map (λ h, (path, h.1, h.2)) hits; truncated := false |}).
  { destruct (searchFile_sound content (maxResults - length (found st))) as [Hsub Hl]. fold hits in Hsub, Hl. split; cbn [found].
    - rewrite length_app, length_map. lia.
    - apply Forall_app. split; [done|]. apply Forall_forall. intros h ([n l] & -> & Hn)%list_elem_of_fmap. exists content.
      split; [done|]. by eapply sublist_subseteq. }
  destruct Hh as [Hh1 Hh2]. case_bool_decide; by split.
Qed.

Lemma walk_sound maxResults files t : ∀ dir st, (∀ x, x ∈ files_of dir t → x ∈ files) →
  sound maxResults files st → sound maxResults files (walk re_match maxResults dir t st).
Proof.
  induction t as [c|es IH] using tree_induction; intros dir st Hfiles Hst; [done|]. cbn [walk files_of] in *.
  revert st Hst Hfiles. induction IH as [|[name e] es He Hes IHes]; intros st Hst Hfiles; [done|]. simpl in He.
  destruct (HasPrefix name "."); [apply IHes; [done|]; intros x Hx; by apply Hfiles|]. destruct e as [c|es'].
  - assert (Hv : sound maxResults files (visit re_match maxResults (dir ++ [name]) c st).1).
    { apply visit_sound; [|done]. apply Hfiles, elem_of_app. left. by apply list_elem_of_singleton. }
    destruct (visit _ _ _ _ _) as [st' more]. destruct more; [|done]. apply IHes; [done|]. intros x Hx. apply Hfiles, elem_of_app. by right.
  - apply IHes; [|intros x Hx; apply Hfiles, elem_of_app; by right]. apply He; [|done]. intros x Hx.
    apply Hfiles, elem_of_app. by left.
Qed.

(** *** A search that is not cut short finds everything *)

Lemma search_lines_take limit L k lines : (0 < limit ≤ L)%nat →
  search_lines re_match limit k lines = take limit (search_lines re_match L k lines).
Proof.
  revert limit L k. induction lines as [|raw lines IH]; intros limit L k Hl; [by destruct limit|]. cbn [search_lines].
  destruct (_ <? _); [by destruct limit|]. destruct (re_match (dropCR raw)); [|by apply IH].
  destruct limit as [|limit], L as [|L]; try lia. cbn [take]. destruct limit as [|limit]; [done|].
  rewrite !bool_decide_false by lia. f_equal. apply IH. lia.
Qed.

Lemma searchFile_more content limit L : (limit ≤ L)%nat → (length (searchFile re_match content limit) < limit)%nat →
  searchFile re_match content limit = searchFile re_match content L.
Proof.
  unfold searchFile. intros HL. destruct limit as [|limit]; [simpl; lia|]. destruct L as [|L]; [lia|].
  rewrite !bool_decide_false by done. destruct (_ || _); [done|]. unfold searchFileLines. intros Hlen.
  rewrite (search_lines_take (S limit) (S L)) in * by lia. rewrite length_take in Hlen. apply take_ge. lia.
Qed.

Definition hits_of (maxResults : nat) (f : list string * list ascii) : list (list string * Z * list ascii) :=
  map (λ h, (f.1, h.1, h.2)) (searchFile re_match f.2 maxResults).

Definition grows (st st' : search_state) : Prop := scanned st ≤ scanned st' ∧ (length (found st) ≤ length (found st'))%nat.

Lemma visit_grows maxResults path content st : grows st (visit re_match maxResults path content st).1.
Proof. unfold visit, grows. case_bool_decide; cbn [fst scanned found]; rewrite length_app; lia. Qed.

Lemma grows_trans st1 st2 st3 : grows st1 st2 → grows st2 st3 → grows st1 st3.
Proof. unfold grows. lia. Qed.

Lemma walk_grows maxResults t : ∀ dir st, grows st (walk re_match maxResults dir t st).
Proof.
  induction t as [c|es IH] using tree_induction; intros dir st; [by split|]. cbn [walk]. revert st.
  induction IH as [|[name e] es He Hes IHes]; intros st; [by split|]. simpl in He. destruct (HasPrefix name "."); [apply IHes|].
  destruct e as [c|es']; [|eapply grows_trans; [apply He|apply IHes]].
  pose proof (visit_grows maxResults (dir ++ [name]) c st) as Hv. destruct (visit _ _ _ _ _) as [st' []]; [|done].
  eapply grows_trans; [exact Hv|apply IHes].
Qed.

(** A search that stayed below its limits. *)
Definition below (maxResults : nat) (st : search_state) : Prop := scanned st < maxSearchFilesScanned ∧ (length (found st) < maxResults)%nat.

Lemma below_grows maxResults st st' : grows st st' → below maxResults st' → below maxResults st.
Proof. unfold grows, below. lia. Qed.

Lemma visit_complete maxResults path content st : below maxResults (visit re_match maxResults path content st).1 →
  visit re_match maxResults path content st =
    ({| scanned := scanned st + 1; found := found st ++ hits_of maxResults (path, content); truncated := truncated st |}, true).
Proof.
  unfold visit, below. case_bool_decide as Hb; cbn [fst scanned found]; [lia|]. intros [Hs Hl].
  rewrite (proj2 (Z.ltb_lt _ _)) by done. unfold hits_of. cbn [fst snd].
  rewrite (searchFile_more content (maxResults - length (found st)) maxResults); [done|lia|].
  rewrite length_app, length_map in Hl. lia.
Qed.

Lemma walk_complete maxResults t : ∀ dir st, below maxResults (walk re_match maxResults dir t st) →
  found (walk re_match maxResults dir t st) = found st ++ concat (map (hits_of maxResults) (files_of dir t)).
Proof.
  induction t as [c|es IH] using tree_induction; intros dir st; [simpl; by rewrite app_nil_r|]. cbn [walk files_of]. revert st.
  induction IH as [|[name e] es He Hes IHes]; intros st; [simpl; by rewrite app_nil_r|]. simpl in He. destruct (HasPrefix name "."); [apply IHes|].
  intros Hb. rewrite map_app, concat_app. destruct e as [c|es'].
  - destruct (visit re_match maxResults (dir ++ [name]) c st) as [st' more] eqn:Hv.
    assert (Hb' : below maxResults (visit re_match maxResults (dir ++ [name]) c st).1).
    { rewrite Hv. destruct more; [|done]. eapply below_grows; [|exact Hb]. apply (walk_grows maxResults (TDir es) dir st'). }
    rewrite visit_complete in Hv by done. injection Hv as <- <-. rewrite IHes by done. cbn [found map concat].
    by rewrite app_nil_r, <- app_assoc.
  - rewrite IHes by done. rewrite He; [by rewrite <- app_assoc|]. eapply below_grows; [|exact Hb].
    apply (walk_grows maxResults (TDir es) dir).
Qed.

(** What a search finds is there, and the numbers it gives are those of the other
    tools: no more matches are returned than asked for, at most 200; every match
    is a matching line of a file of the tree, with its number; reading from that
    number starts with that line when lines fit, and editing takes the number for
    the same line. A search that stays below its limits returns, file by file,
    the matches of every file that is not hidden. *)
Theorem search_sound asked root t :
  let maxResults := Z.to_nat (search_maxResults asked) in
  let st := search re_match maxResults root t in
  (length (found st) ≤ maxResults ≤ 200)%nat ∧
  (∀ path n line, (path, n, line) ∈ found st → ∃ content raw,
    (path, content) ∈ all_files root t ∧ 1 ≤ n ∧ raw_lines content !! Z.to_nat (n - 1) = Some raw ∧
    line = dropCR raw ∧ re_match line = true ∧
    (splitLines content).1 !! Z.to_nat (n - 1) = Some (of_bytes raw) ∧
    ∀ maxSize count, Forall (fits maxSize) (raw_lines content) → 1 ≤ count → n + count ≤ max_int64 →
      ∃ rest last more capped, readLines maxSize content n count = LinesPage ((n, line) :: rest) last more capped) ∧
  (below maxResults st → found st = concat (map (hits_of maxResults) (all_files root t))).
Proof.
  intros maxResults st. assert (Hmax : (maxResults ≤ 200)%nat) by (unfold maxResults, search_maxResults; cases_lia).
  assert (Hs : sound maxResults (all_files root t) st).
  { subst st. unfold search. assert (H0 : sound maxResults (all_files root t) {| scanned := 0; found := []; truncated := false |}).
    { split; [simpl; lia|constructor]. }
    destruct t as [c|es]; [|by apply walk_sound]. apply visit_sound; [|done]. simpl. by apply list_elem_of_singleton. }
  destruct Hs as [Hlen Hg]. split; [lia|]. split.
  - intros path n line Hin. rewrite Forall_forall in Hg. destruct (Hg _ Hin) as (content & Hf & Hm). cbn [fst snd] in *.
    apply matches_lookup in Hm as (i & raw & -> & Hi & -> & Hm). exists content, raw.
    replace (Z.to_nat (0 + 1 + Z.of_nat i - 1)) with i by lia. split_and!; [done|lia|done..| |].
    + unfold splitLines, raw_lines in *. case_bool_decide; [done|]. cbn [fst]. unfold Split.
      rewrite bytes_of_bytes, list_lookup_fmap. by rewrite Hi.
    + intros maxSize count Hfit Hc Hsmall. pose proof (lookup_lt_Some _ _ _ Hi).
      destruct (readLines_page maxSize content (0 + 1 + Z.of_nat i) count Hfit) as [[Hlt _]|(k & capped & Hk & _ & ->)]; [lia..|].
      replace (Z.to_nat (0 + 1 + Z.of_nat i) - 1)%nat with i by lia. destruct k as [|k]; [lia|].
      rewrite (drop_S _ raw i) by done. cbn [take number]. by do 4 eexists.
  - subst st. unfold search. destruct t as [c|es]; intros Hb; [|by rewrite walk_complete].
    rewrite visit_complete by done. cbn [fst found all_files map concat]. by rewrite app_nil_r.
Qed.
End found.

(** The walk does not end when it is to: a directory after the last result, or after
    the last file that may be looked at, is still entered, and one file of it is
    looked at. *)
Example walk_goes_on :
  let t := TDir [("a", TDir [("x", TFile (bytes "m"))]); ("b", TDir [("y", TFile (bytes "m"))]); ("c", TFile (bytes "m"))] in
  scanned (search (λ _, true) 1 [] t) = 3 ∧ found (search (λ _, true) 1 [] t) = [(["a"; "x"], 1, bytes "m")].
Proof. vm_compute. done. Qed.
