(* ===== verification/InboundRoute.v ===== *)
(** * Which agent takes an inbound message (agentreg/registry.go, agent/routing.go, channels/base.go)

    The registry of agents as it is built from the configuration, the mention at
    the start of a message, the route of a message over both, and the session it
    runs in. The theorems: a message with an agent of its own goes to that agent or
    nowhere; any other goes to the agent its route names, unless that one is
    switched off; and the router and the registry have one default agent. *)

From stdpp Require Import base gmap strings list fin_maps.
From Stdlib Require Import ZArith Lia Ascii.
From S2P Require Import Prelude GoString AgentIds Routing.

Open Scope Z_scope.

(** ** The registry *)

(** What the code reads of an instance and its spec; [i_Temp] is [OriginTemp]. *)
Record Instance := { i_ID : string; i_Name : string; i_HumanModel : string; i_Temp : bool }.

Record Registry := { entries : gmap string Instance; order : list string; defaultID : string }.

(** [AgentConfig.IsEnabled] *)
Definition IsEnabled (a : AgentConfig) : bool := match a_Enabled a with None => true | Some b => b end.

(** The instance built for a config agent. *)
Definition config_instance (c : Config) (a : AgentConfig) : Instance :=
  {| i_ID := NormalizeAgentID (a_ID a); i_Name := a_Name a; i_HumanModel := default "" (HumanModelOf c (Some a)); i_Temp := false |}.

(** The loop of [buildConfigEntries], over the flag [explicitDefault]; [build] tells
    which instances can be built. *)
Fixpoint build_loop (c : Config) (build : AgentConfig → bool) (l : list AgentConfig) (explicit : bool) (r : Registry) : option Registry :=
  match l with
  | [] => Some r
  | a :: rest =>
      if negb (IsEnabled a) then build_loop c build rest explicit r
      else if negb (build a) then None
      else
        let id := NormalizeAgentID (a_ID a) in
        let ord := match entries r !! id with Some _ => order r | None => order r ++ [id] end in
        let ents := <[id := config_instance c a]> (entries r) in
        if IsHumanAgent c (a_ID a) then build_loop c build rest explicit {| entries := ents; order := ord; defaultID := defaultID r |}
        else
          let d := if bool_decide (defaultID r = "") then id else defaultID r in
          if a_Default a && negb explicit
          then build_loop c build rest true {| entries := ents; order := ord; defaultID := id |}
          else build_loop c build rest explicit {| entries := ents; order := ord; defaultID := d |}
  end.

Definition buildConfigEntries (c : Config) (build : AgentConfig → bool) : option Registry :=
  build_loop c build (AgentsList c) false {| entries := ∅; order := []; defaultID := "" |}.

(** A temporary agent that is created or restored, when its id is canonical and free. *)
Definition with_temp (i : Instance) (r : Registry) : Registry :=
  match bool_decide (NormalizeAgentID (i_ID i) = i_ID i), entries r !! i_ID i with
  | false, _ | _, Some _ => r
  | true, None => {| entries := <[i_ID i := {| i_ID := i_ID i; i_Name := i_Name i; i_HumanModel := i_HumanModel i; i_Temp := true |}]> (entries r);
               order := order r; defaultID := defaultID r |}
  end.

Definition Get (r : Registry) (id : string) : option Instance := entries r !! NormalizeAgentID id.

Definition GetConfigured (r : Registry) (id : string) : option Instance :=
  match entries r !! NormalizeAgentID id with
  | Some i => if i_Temp i then None else Some i
  | None => None
  end.

(** [List] and [DefaultID]. *)
Definition List_ (r : Registry) : list string := order r.
Definition DefaultID (r : Registry) : string := defaultID r.

Definition Default (r : Registry) : option Instance := entries r !! defaultID r.

(** ** Mentions *)

(** The text up to the first space, and after it. *)
Fixpoint cut_space (l : list ascii) : option (list ascii * list ascii) :=
  match l with
  | [] => None
  | x :: l' => if Ascii.eqb x " "%char then Some ([], l')
               else match cut_space l' with Some (a, b) => Some (x :: a, b) | None => None end
  end.

Section inbound.
Context {UD : UnicodeData}.

Fixpoint ExtractAgentMention (text : string) (triggers knownAgents : list string) : string * string :=
  match triggers with
  | [] => ("", text)
  | trigger :: rest =>
      if negb (HasPrefix text trigger) then ExtractAgentMention text rest knownAgents
      else match cut_space (drop (String.length trigger) (bytes text)) with
           | Some (name, stripped) =>
               if bool_decide (name = []) then ExtractAgentMention text rest knownAgents
               else match find_first (λ known, bool_decide (ToLower (of_bytes name) = known)) knownAgents with
                    | Some known => (known, of_bytes stripped)
                    | None => ExtractAgentMention text rest knownAgents
                    end
           | None => ExtractAgentMention text rest knownAgents
           end
  end.

(** ** Messages and their routes *)

Record InboundMessage := {
  m_Channel : string; m_SenderID : string; m_ChatID : string; m_Content : string;
  m_PeerKind : string; m_PeerID : string; m_Metadata : gmap string string; m_SessionKey : string
}.

Definition inboundMetadata (m : InboundMessage) (key : string) : string := default "" (m_Metadata m !! key).

Definition default_triggers : list string := ["@"; "/"; "."].

(** [extractMention]; [triggers] are [agent_mentions.triggers]. *)
Definition extractMention (triggers : list string) (r : Registry) (m : InboundMessage) : InboundMessage :=
  if negb (bool_decide (inboundMetadata m "mentioned_agent" = "")) then m
  else
    let triggers := if bool_decide (triggers = []) then default_triggers else triggers in
    let '(mentioned, stripped) := ExtractAgentMention (m_Content m) triggers (List_ r) in
    if bool_decide (mentioned = "") then m
    else {| m_Channel := m_Channel m; m_SenderID := m_SenderID m; m_ChatID := m_ChatID m; m_Content := stripped;
            m_PeerKind := m_PeerKind m; m_PeerID := m_PeerID m;
            m_Metadata := <["mentioned_agent" := mentioned]> (m_Metadata m); m_SessionKey := m_SessionKey m |}.

Definition extractPeer (m : InboundMessage) : option RoutePeer :=
  if bool_decide (m_PeerKind m = "") then None
  else Some {| rp_Kind := m_PeerKind m;
               rp_ID := if negb (bool_decide (m_PeerID m = "")) then m_PeerID m
                        else if bool_decide (m_PeerKind m = "direct") then m_SenderID m else m_ChatID m |}.

Definition extractParentPeer (m : InboundMessage) : option RoutePeer :=
  let kind := inboundMetadata m "parent_peer_kind" in
  let id := inboundMetadata m "parent_peer_id" in
  if bool_decide (kind = "") || bool_decide (id = "") then None else Some {| rp_Kind := kind; rp_ID := id |}.

Inductive route_error := AgentGone (id : string) | NoAgent (id : string).

Definition route_input (m : InboundMessage) : RouteInput :=
  {| in_Channel := m_Channel m; in_AccountID := inboundMetadata m "account_id"; in_Peer := extractPeer m; in_ParentPeer := extractParentPeer m;
     in_GuildID := inboundMetadata m "guild_id"; in_TeamID := inboundMetadata m "team_id"; MentionedAgent := inboundMetadata m "mentioned_agent" |}.

Definition resolveMessageRoute (c : Config) (r : Registry) (m : InboundMessage) : result (ResolvedRoute * Instance) route_error :=
  let preresolved := inboundMetadata m "preresolved_agent_id" in
  if negb (bool_decide (preresolved = "")) then
    let normalized := NormalizeAgentID preresolved in
    match Get r normalized with
    | None => Err (AgentGone preresolved)
    | Some agent =>
        Ok ({| r_AgentID := normalized; r_Channel := m_Channel m; r_AccountID := NormalizeAccountID (inboundMetadata m "account_id");
               SessionKey := BuildAgentMainSessionKey normalized; MatchedBy := "preresolved" |}, agent)
    end
  else
    let route := ResolveRoute c (route_input m) in
    match (match GetConfigured r (r_AgentID route) with Some a => Some a | None => Default r end) with
    | Some agent => Ok (route, agent)
    | None => Err (NoAgent (r_AgentID route))
    end.

Definition resolveScopeKey (route : ResolvedRoute) (msgSessionKey : string) : string := ResolveAgentSessionKey (r_AgentID route) msgSessionKey.

(** The part of [processMessageOutcome] that picks the agent and the session. *)
Definition take_message (c : Config) (triggers : list string) (r : Registry) (m : InboundMessage) : result (Instance * string) route_error :=
  let m := extractMention triggers r m in
  match resolveMessageRoute c r m with
  | Ok (route, agent) => Ok (agent, resolveScopeKey route (m_SessionKey m))
  | Err e => Err e
  end.

(** ** Lemmas *)

(** An entry's key is its id, and the ids of config agents are listed once. *)
Definition reg_ok (r : Registry) : Prop :=
  (∀ id i, entries r !! id = Some i → i_ID i = id ∧ NormalizeAgentID id = id) ∧
  (∀ id, id ∈ order r ↔ ∃ i, entries r !! id = Some i ∧ i_Temp i = false) ∧ NoDup (order r).

(** The ids of the agents that are switched on. *)
Definition enabled_id (l : list AgentConfig) (id : string) : Prop := ∃ a, a ∈ l ∧ IsEnabled a = true ∧ NormalizeAgentID (a_ID a) = id.

(** A registry part way: the agents of [seen] are in it. *)
Definition built (c : Config) (seen : list AgentConfig) (r : Registry) : Prop :=
  reg_ok r ∧ (∀ id i, entries r !! id = Some i → i_Temp i = false) ∧
  (∀ id, is_Some (entries r !! id) ↔ enabled_id seen id) ∧
  (defaultID r ≠ "" → ∃ a, a ∈ seen ∧ IsEnabled a = true ∧ IsHumanAgent c (a_ID a) = false ∧ NormalizeAgentID (a_ID a) = defaultID r) ∧
  (∀ a, a ∈ seen → IsEnabled a = true → IsHumanAgent c (a_ID a) = false → defaultID r ≠ "").

Definition add_entry (c : Config) (a : AgentConfig) (d : string) (r : Registry) : Registry :=
  let id := NormalizeAgentID (a_ID a) in
  {| entries := <[id := config_instance c a]> (entries r);
     order := match entries r !! id with Some _ => order r | None => order r ++ [id] end; defaultID := d |}.

Lemma add_entry_ok c a d r : (∀ id i, entries r !! id = Some i → i_Temp i = false) → reg_ok r → reg_ok (add_entry c a d r).
Proof.
  intros Ht (H1 & H2 & H3). unfold add_entry. set (id := NormalizeAgentID (a_ID a)).
  split_and!; cbn [entries order].
  - intros id' i' [[<- <-]|[_ Hi]]%lookup_insert_Some; [by split; [|apply NormalizeAgentID_idemp]|by apply H1].
  - intros id'. destruct (entries r !! id) as [i|] eqn:He.
    + rewrite H2. destruct (decide (id = id')) as [<-|Hne]; [|by rewrite lookup_insert_ne].
      rewrite lookup_insert_eq, He. specialize (Ht _ _ He). naive_solver.
    + rewrite elem_of_app, list_elem_of_singleton, H2. destruct (decide (id = id')) as [<-|Hne].
      * rewrite lookup_insert_eq. split; [intros _; by eexists|intros _; by right].
      * rewrite lookup_insert_ne by done. naive_solver.
  - destruct (entries r !! id) as [i|] eqn:He; [done|]. apply NoDup_app. split; [done|]. split; [|apply NoDup_singleton].
    intros x Hx%H2 ->%list_elem_of_singleton. destruct Hx as (i & Hi & _). congruence.
Qed.

Lemma enabled_id_snoc seen a id :
  enabled_id (seen ++ [a]) id ↔ enabled_id seen id ∨ (IsEnabled a = true ∧ NormalizeAgentID (a_ID a) = id).
Proof. unfold enabled_id. setoid_rewrite elem_of_app. setoid_rewrite list_elem_of_singleton. naive_solver. Qed.

Lemma built_add c seen a d r : built c seen r → IsEnabled a = true →
  (d = defaultID r ∧ (IsHumanAgent c (a_ID a) = false → d ≠ "") ∨ d = NormalizeAgentID (a_ID a) ∧ IsHumanAgent c (a_ID a) = false) →
  built c (seen ++ [a]) (add_entry c a d r).
Proof.
  intros (Hok & Ht & He & Hd & Hn) Hen Hcase. split_and!.
  - by apply add_entry_ok.
  - cbn [entries add_entry]. intros id i [[<- <-]|[_ Hi]]%lookup_insert_Some; [done|by eapply Ht].
  - intros id. rewrite enabled_id_snoc, <- He. cbn [entries add_entry]. rewrite lookup_insert_is_Some'. naive_solver.
  - cbn [defaultID add_entry]. setoid_rewrite elem_of_app. setoid_rewrite list_elem_of_singleton. destruct Hcase as [[-> _]|[-> Hh]].
    + intros (a' & ? & ?)%Hd. exists a'. naive_solver.
    + intros _. exists a. naive_solver.
  - cbn [defaultID add_entry]. intros a' [Ha'| ->%list_elem_of_singleton]%elem_of_app Hen' Hh'.
    + destruct Hcase as [[-> _]|[-> _]]; [by eapply Hn|apply NormalizeAgentID_nonempty].
    + destruct Hcase as [[_ H]|[-> _]]; [by apply H|apply NormalizeAgentID_nonempty].
Qed.

Lemma built_skip c seen a r : built c seen r → IsEnabled a = false → built c (seen ++ [a]) r.
Proof.
  intros (Hok & Ht & He & Hd & Hn) Hen. split_and!; [done..| | |].
  - intros id. rewrite enabled_id_snoc, He. split; [by left|]. intros [?|[? _]]; [done|congruence].
  - setoid_rewrite elem_of_app. intros (a' & ? & ?)%Hd. exists a'. naive_solver.
  - intros a' [Ha'| ->%list_elem_of_singleton]%elem_of_app Hen' Hh'; [by eapply Hn|congruence].
Qed.

Lemma build_loop_built c build l : ∀ explicit seen r r', build_loop c build l explicit r = Some r' → built c seen r → built c (seen ++ l) r'.
Proof.
  induction l as [|a l IH]; intros explicit seen r r'; cbn [build_loop]; [intros [= ->]; by rewrite app_nil_r|].
  change (a :: l) with ([a] ++ l). rewrite app_assoc. intros H Hb. destruct (IsEnabled a) eqn:Hen; cbn [negb] in H.
  - destruct (build a); [|done]. cbn [negb] in H. destruct (IsHumanAgent c (a_ID a)) eqn:Hh.
    + eapply IH; [exact H|]. apply (built_add c seen a (defaultID r) r Hb Hen). left. split; [done|congruence].
    + destruct (a_Default a && negb explicit).
      * eapply IH; [exact H|]. apply (built_add c seen a (NormalizeAgentID (a_ID a)) r Hb Hen). by right.
      * eapply IH; [exact H|]. apply (built_add c seen a _ r Hb Hen). case_bool_decide; [by right|by left].
  - eapply IH; [exact H|]. by apply built_skip.
Qed.

Lemma buildConfigEntries_built c build r : buildConfigEntries c build = Some r → built c (AgentsList c) r.
Proof.
  intros H. apply (build_loop_built c build (AgentsList c) false [] _ r) in H; [done|].
  split_and!; cbn [entries order defaultID]; try done.
  - split_and!; cbn [entries order]; [done| |constructor]. intros id. split; [by intros ?%elem_of_nil|].
    intros (i & Hi & _). by rewrite lookup_empty in Hi.
  - intros id. split; [by intros [i Hi]|]. intros (a & Ha & _). by apply elem_of_nil in Ha.
  - by intros a ?%elem_of_nil.
Qed.

(** A registry as it runs: temporary agents have been added to what was built. *)
Fixpoint with_temps (l : list Instance) (r : Registry) : Registry := match l with [] => r | i :: l' => with_temps l' (with_temp i r) end.

Lemma with_temp_cases i r : with_temp i r = r ∨
  (entries r !! i_ID i = None ∧ NormalizeAgentID (i_ID i) = i_ID i ∧ ∃ j, i_Temp j = true ∧ i_ID j = i_ID i ∧
   with_temp i r = {| entries := <[i_ID i := j]> (entries r); order := order r; defaultID := defaultID r |}).
Proof.
  unfold with_temp. case_bool_decide as Hn; [|by left]. destruct (entries r !! i_ID i); [by left|]. right. split_and!; [done..|].
  eexists. split; [|split; [|reflexivity]]; done.
Qed.

Lemma with_temps_configured l : ∀ r, (∀ id i, entries r !! id = Some i → NormalizeAgentID id = id) →
  (∀ id i, entries r !! id = Some i → entries (with_temps l r) !! id = Some i) ∧
  (∀ id i, entries (with_temps l r) !! id = Some i → NormalizeAgentID id = id ∧ (entries r !! id = Some i ∨ i_Temp i = true)) ∧
  defaultID (with_temps l r) = defaultID r.
Proof.
  induction l as [|i l IH]; intros r Hk; cbn [with_temps]; [split_and!; [done| |done]; intros id i Hi; split; [by eapply Hk|by left]|].
  destruct (with_temp_cases i r) as [->|(Hf & Hn & j & Hj & Hid & ->)]; [by apply IH|].
  destruct (IH {| entries := <[i_ID i := j]> (entries r); order := order r; defaultID := defaultID r |}) as (H1 & H2 & H3).
  { cbn [entries]. intros id i' [[<- <-]|[_ ?]]%lookup_insert_Some; [done|by eapply Hk]. }
  cbn [entries defaultID] in *. split_and!; [| |done].
  - intros id i' Hi. apply H1. rewrite lookup_insert_ne; [done|]. intros <-. congruence.
  - intros id i' Hi. destruct (H2 id i' Hi) as [? [[[_ <-]|[_ ?]]%lookup_insert_Some|?]]; (split; [done|]); [by right|by left|by right].
Qed.

(** ** Properties *)

(** Every agent of this id is switched off. *)
Definition switched_off (c : Config) (id : string) : Prop :=
  (∃ a, a ∈ AgentsList c ∧ NormalizeAgentID (a_ID a) = id) ∧ ∀ a, a ∈ AgentsList c → NormalizeAgentID (a_ID a) = id → IsEnabled a = false.

(** The router's choice is the id of an agent of the list, or the fixed default when
    the list has no agent it could be. *)
Lemma first_agent_listed c l : 
  (∃ a, a ∈ l ∧ NormalizeAgentID (a_ID a) = first_agent c l) ∨ (first_agent c l = AgentIds.DefaultAgentID ∧ ∀ a, a ∈ l → IsHumanAgent c (a_ID a) = true).
Proof.
  induction l as [|a l IH]; cbn [first_agent]; [right; split; [done|by intros a ?%elem_of_nil]|].
  destruct (IsHumanAgent c (a_ID a)) eqn:Hh.
  - destruct IH as [(a' & Ha & Hid)|[-> Hall]]; [left; exists a'; by split; [right|]|].
    right. split; [done|]. by intros a' [->|?]%elem_of_cons; [|apply Hall].
  - left. exists a. split; [left|]. case_bool_decide as He; [|done]. by rewrite He.
Qed.

Lemma default_listed c :
  (∃ a, a ∈ AgentsList c ∧ NormalizeAgentID (a_ID a) = resolveDefaultAgentID c) ∨
  (resolveDefaultAgentID c = AgentIds.DefaultAgentID ∧ ∀ a, a ∈ AgentsList c → IsHumanAgent c (a_ID a) = true).
Proof.
  unfold resolveDefaultAgentID. destruct (AgentsList c) as [|a0 l] eqn:Hl; [right; split; [done|by intros a ?%elem_of_nil]|].
  destruct (find_first (marked_default c) (a0 :: l)) as [a|] eqn:Hf; [|apply first_agent_listed].
  apply find_first_Some in Hf as (l1 & l2 & -> & _). left. exists a. split; [apply elem_of_app; right; by left|done].
Qed.

Lemma route_listed c input : AgentsList c ≠ [] →
  (∃ a, a ∈ AgentsList c ∧ NormalizeAgentID (a_ID a) = r_AgentID (ResolveRoute c input)) ∨
  (∀ a, a ∈ AgentsList c → IsHumanAgent c (a_ID a) = true).
Proof.
  intros Hne. destruct (ResolveRoute_routed c input) as (ob & _ & ->). cbn [r_AgentID route_of].
  destruct (pickAgentID_cases c (chosen c input ob)) as [->|[Hn [?|(a & Ha & Hs)]]]; [|done|].
  - destruct (default_listed c) as [?|[_ ?]]; [by left|by right].
  - left. exists a. split; [done|]. rewrite (SameAgentID_norm _ _ Hs). apply pickAgentID_norm.
Qed.

Lemma route_norm c input : NormalizeAgentID (r_AgentID (ResolveRoute c input)) = r_AgentID (ResolveRoute c input).
Proof. destruct (ResolveRoute_routed c input) as (ob & _ & ->). apply pickAgentID_norm. Qed.

Lemma extractMention_meta triggers r m key : key ≠ "mentioned_agent" →
  inboundMetadata (extractMention triggers r m) key = inboundMetadata m key.
Proof.
  intros Hk. unfold extractMention. case_if; [done|]. destruct (ExtractAgentMention _ _ _) as [mentioned stripped]. case_if; [done|].
  unfold inboundMetadata. cbn [m_Metadata]. by rewrite lookup_insert_ne by done.
Qed.

(** C26. A message reaches the agent it is for. Whatever the configuration, with any
    temporary agents: a message that was given an agent goes to that agent, and is
    dropped exactly when there is none of that id, whatever it mentions; any other
    goes to the config agent its route names, in that agent's one session, or, when
    that agent is switched off, to the default agent; and it is refused only when
    there is no default agent. *)
Theorem take_message_agent c build triggers r0 temps m (Hb : buildConfigEntries c build = Some r0) :
  let r := with_temps temps r0 in
  let pre := inboundMetadata m "preresolved_agent_id" in
  let route := ResolveRoute c (route_input (extractMention triggers r m)) in
  match take_message c triggers r m with
  | Ok (agent, key) =>
      if bool_decide (pre = "") then
        i_Temp agent = false ∧
        ((i_ID agent = r_AgentID route ∧ key = BuildAgentMainSessionKey (i_ID agent)) ∨
         (switched_off c (r_AgentID route) ∧ Default r = Some agent ∧ key = BuildAgentMainSessionKey (r_AgentID route)))
      else Get r pre = Some agent ∧ key = BuildAgentMainSessionKey pre
  | Err (AgentGone id) => id = pre ∧ pre ≠ "" ∧ Get r pre = None
  | Err (NoAgent _) => pre = "" ∧ ∀ a, a ∈ AgentsList c → IsEnabled a = true → IsHumanAgent c (a_ID a) = true
  end.
Proof.
  intros r pre route. apply buildConfigEntries_built in Hb as ((Hkey & _) & Htemp & Hen & Hdef & Hnone).
  destruct (with_temps_configured temps r0 (λ id i Hi, proj2 (Hkey id i Hi))) as (Ht1 & Ht2 & Hd). fold r in Ht1, Ht2, Hd.
  assert (Hdflt : ∀ i, entries r !! defaultID r0 = Some i → entries r0 !! defaultID r0 = Some i).
  { intros i Hi. destruct (decide (defaultID r0 = "")) as [H0|H0].
    - destruct (Ht2 _ _ Hi) as [Hn _]. rewrite H0 in Hn. by apply NormalizeAgentID_nonempty in Hn.
    - destruct (Hdef H0) as (a & Ha & He & _ & Hid). destruct (proj2 (Hen (defaultID r0))) as [j Hj]; [by exists a|].
      rewrite (Ht1 _ _ Hj) in Hi. by injection Hi as <-. }
  unfold take_message, resolveMessageRoute. rewrite extractMention_meta by done. fold pre.
  case_bool_decide as Hp; cbn [negb].
  - pose proof (route_norm c (route_input (extractMention triggers r m))) as Hn. fold route in Hn |- *.
    unfold GetConfigured, Default. rewrite Hn, Hd.
    assert (Hsome : ∀ a, a ∈ AgentsList c → IsEnabled a = true → NormalizeAgentID (a_ID a) = r_AgentID route →
      ∃ i, entries r !! r_AgentID route = Some i ∧ i_Temp i = false).
    { intros a Ha He Hid. destruct (proj2 (Hen (r_AgentID route))) as [i Hi]; [by exists a|]. exists i. split; [by apply Ht1|by eapply Htemp]. }
    destruct (match entries r !! r_AgentID route with Some i => if i_Temp i then None else Some i | None => None end) as [i|] eqn:Hg.
    + destruct (entries r !! r_AgentID route) as [i'|] eqn:He; [|done]. destruct (i_Temp i') eqn:Ht; [done|]. injection Hg as ->.
      split; [done|]. left. destruct (Ht2 _ _ He) as [_ [H0|?]]; [|congruence]. destruct (Hkey _ _ H0) as [Hid _]. split; [done|]. by rewrite Hid.
    + destruct (entries r !! defaultID r0) as [agent|] eqn:Hda.
      * pose proof (Hdflt _ eq_refl) as H0. split; [by eapply Htemp|]. right. split_and!; [|done|done].
        assert (Hd0 : defaultID r0 ≠ "") by (intros E; destruct (Hkey _ _ H0) as [_ Hk]; rewrite E in Hk; by apply NormalizeAgentID_nonempty in Hk).
        destruct (Hdef Hd0) as (a & Ha & _ & Hh & _).
        destruct (route_listed c (route_input (extractMention triggers r m))) as [Hl|Hall]; [by intros E; rewrite E in Ha; apply elem_of_nil in Ha| |by rewrite (Hall a Ha) in Hh].
        split; [exact Hl|]. intros a' Ha' Hid. destruct (IsEnabled a') eqn:He; [|done].
        destruct (Hsome a' Ha' He Hid) as (i & Hi & Ht). fold route in Hg. by rewrite Hi, Ht in Hg.
      * split; [done|]. intros a Ha He. destruct (IsHumanAgent c (a_ID a)) eqn:Hh; [done|].
        destruct (Hdef (Hnone a Ha He Hh)) as (a' & Ha' & He' & _ & Hid'). destruct (proj2 (Hen (defaultID r0))) as [j Hj]; [by exists a'|].
        by rewrite (Ht1 _ _ Hj) in Hda.
  - unfold Get. rewrite NormalizeAgentID_idemp. destruct (entries r !! NormalizeAgentID pre) as [agent|] eqn:He; [|done].
    split; [done|]. unfold resolveScopeKey, ResolveAgentSessionKey. cbn [r_AgentID]. apply main_key_eq, NormalizeAgentID_idemp.
Qed.

(** The loop's default when every agent is switched on: the first marked one that
    is not human, else the first that is not human. *)
Lemma build_loop_default c build l : ∀ explicit r r', build_loop c build l explicit r = Some r' →
  Forall (λ a, IsEnabled a = true ∧ a_ID a ≠ "") l → (explicit = true → defaultID r ≠ "") →
  defaultID r' =
    if explicit then defaultID r
    else match find_first (marked_default c) l with
         | Some a => NormalizeAgentID (a_ID a)
         | None => if bool_decide (defaultID r = "")
                   then match find_first (λ a, negb (IsHumanAgent c (a_ID a))) l with Some a => NormalizeAgentID (a_ID a) | None => "" end
                   else defaultID r
         end.
Proof.
  induction l as [|a l IH]; intros explicit r r'; cbn [build_loop find_first].
  { intros [= ->] _ _. destruct explicit; [done|]. by case_bool_decide. }
  intros H [[He Hid] Hf]%Forall_cons Hex. rewrite He in H. cbn [negb] in H. destruct (build a); [|done]. cbn [negb] in H.
  unfold marked_default at 1. rewrite (bool_decide_false (a_ID a = "")) by done. cbn [negb]. rewrite andb_true_r.
  pose proof (NormalizeAgentID_nonempty (a_ID a)) as Hne.
  destruct (IsHumanAgent c (a_ID a)) eqn:Hh; cbn [negb] in H |- *; rewrite ?andb_false_r, ?andb_true_r.
  - by apply IH in H as ->.
  - destruct explicit.
    + rewrite andb_false_r, (bool_decide_false (defaultID r = "")) in H by auto. by apply IH in H as ->.
    + destruct (a_Default a); cbn [andb negb] in H |- *; [by apply IH in H as ->|].
      apply IH in H as ->; [|done..]. cbn [defaultID]. destruct (find_first (marked_default c) l); [done|].
      destruct (decide (defaultID r = "")) as [H0|H0]; [rewrite (bool_decide_true (defaultID r = "")) by done|rewrite (bool_decide_false (defaultID r = "")) by done].
      * by rewrite bool_decide_false.
      * by rewrite bool_decide_false.
Qed.

Lemma first_agent_spec c l : Forall (λ a, a_ID a ≠ "") l →
  first_agent c l = match find_first (λ a, negb (IsHumanAgent c (a_ID a))) l with Some a => NormalizeAgentID (a_ID a) | None => AgentIds.DefaultAgentID end.
Proof.
  induction 1 as [|a l Ha _ IH]; cbn [first_agent find_first]; [done|]. destruct (IsHumanAgent c (a_ID a)); [done|]. cbn [negb].
  by rewrite bool_decide_false.
Qed.

(** The router and the registry agree on the default agent. They work it out on
    their own, and when every agent is switched on and has an id the results are
    the same, up to a registry without any: so a message that no binding matches
    runs on the agent whose session its route names. *)
Theorem one_default_agent c build r (Hb : buildConfigEntries c build = Some r)
  (Hall : Forall (λ a, IsEnabled a = true ∧ a_ID a ≠ "") (AgentsList c)) :
  resolveDefaultAgentID c = if bool_decide (defaultID r = "") then AgentIds.DefaultAgentID else defaultID r.
Proof.
  apply build_loop_default in Hb; [|done..]. rewrite Hb. clear Hb. cbn [defaultID].
  pose proof (first_agent_spec c (AgentsList c) (Forall_impl _ _ _ Hall (λ a H, proj2 H))) as Hfa. clear Hall. unfold resolveDefaultAgentID.
  destruct (AgentsList c) as [|a0 l] eqn:Hl; [done|].
  destruct (find_first (marked_default c) (a0 :: l)) as [a|]; [by rewrite bool_decide_false by apply NormalizeAgentID_nonempty|].
  rewrite (bool_decide_true ("" = "")) by done. rewrite Hfa.
  destruct (find_first (λ a, negb (IsHumanAgent c (a_ID a))) (a0 :: l)) as [a|]; [|done]. by rewrite bool_decide_false by apply NormalizeAgentID_nonempty.
Qed.
End inbound.

(** ** Concrete configurations *)

Module InboundExamples.
Open Scope string_scope.
#[local] Existing Instance ascii_only.

Definition agent (id : string) (on default : bool) : AgentConfig :=
  {| a_ID := id; a_Name := ""; a_Enabled := Some on; a_Default := default; a_Models := [] |}.

Definition office (agents : list AgentConfig) : Config := {| AgentsList := agents; Bindings := []; Models := []; Providers := [] |}.

Definition registry (c : Config) : Registry := default {| entries := ∅; order := []; defaultID := "" |} (buildConfigEntries c (λ _, true)).

Definition message (content : string) (meta : list (string * string)) : InboundMessage :=
  {| m_Channel := "device"; m_SenderID := "d1"; m_ChatID := "device:d1"; m_Content := content; m_PeerKind := "direct"; m_PeerID := "d1";
     m_Metadata := list_to_map meta; m_SessionKey := "" |}.

Definition ids (x : result (Instance * string) route_error) : result (string * string) route_error :=
  match x with Ok (i, k) => Ok (i_ID i, k) | Err e => Err e end.

Definition two : Config := office [agent "Alice" true true; agent "bob" true false].

Example mention_taken : ExtractAgentMention "@Bob do it" ["@"] ["alice"; "bob"] = ("bob", "do it").
Proof. vm_compute. reflexivity. Qed.

(** The agent marked default is switched off, so the first one takes its messages:
    in a session with the name of the other. *)
Example session_of_another :
  ids (take_message (office [agent "old" false true; agent "alice" true false]) [] (registry (office [agent "old" false true; agent "alice" true false])) (message "hi" [])) =
  Ok ("alice", "agent:old:main").
Proof. vm_compute. reflexivity. Qed.

Lemma take_message_agent_witness :
  buildConfigEntries two (λ _, true) = Some (registry two) ∧
  ids (take_message two [] (with_temps [] (registry two)) (message "@bob hi" [("preresolved_agent_id", "ALICE")])) = Ok ("alice", "agent:alice:main") ∧
  match take_message two [] (with_temps [] (registry two)) (message "hi" []) with
  | Ok (a, k) => i_Temp a = false
  | Err _ => False
  end.
Proof.
  assert (H : buildConfigEntries two (λ _, true) = Some (registry two)) by (vm_compute; reflexivity).
  split; [exact H|]. split; [vm_compute; reflexivity|].
  pose proof (take_message_agent two (λ _, true) [] (registry two) [] (message "hi" []) H) as Ht.
  assert (Hr : is_ok (take_message two [] (with_temps [] (registry two)) (message "hi" [])) = true) by (vm_compute; reflexivity).
  cbv zeta in Ht. destruct (take_message two [] (with_temps [] (registry two)) (message "hi" [])) as [[a k]|e]; [|discriminate Hr].
  rewrite bool_decide_true in Ht by (vm_compute; reflexivity). exact (proj1 Ht).
Defined.

Lemma one_default_agent_witness :
  defaultID (registry two) = "alice" ∧ resolveDefaultAgentID two = "alice".
Proof.
  split; [vm_compute; reflexivity|].
  rewrite (one_default_agent two (λ _, true) (registry two)); [vm_compute; reflexivity|vm_compute; reflexivity|].
  repeat constructor; vm_compute; discriminate.
Defined.
End InboundExamples.
