(* ===== verification/DeviceStore.v ===== *)
(** * The pairing store of devices (channels/device/store.go)

    The database of the device gateway: requests to pair that wait for an
    operator, paired devices, and the hashes of their tokens. A table is a map
    from its primary key, or the list of its rows in the order of their rowids;
    every call is one transaction, which happens whole or not at all. The
    theorems: requests stay few and one for each device; a token is accepted
    exactly from when it is handed out until the device's tokens are replaced or
    the device removed, over any sequence of calls; a token stored in the clear
    by an earlier release keeps working. *)

From stdpp Require Import base gmap strings list fin_maps sorting.
From Stdlib Require Import ZArith Lia Ascii.
From S2P Require Import Prelude GoString AgentIds SessionTokens.

Open Scope Z_scope.

(** ** Rows *)

Definition DevicePendingPairingsMax : nat := 20.
Definition DevicePendingPairingTTL : Z := 10 * 60 * 1000.
Definition MaxDeviceUserNameLen : Z := 64.

(** What a client says about itself, which both tables keep. *)
Record DeviceInfo := {
  di_PublicKey : string; di_DisplayName : string; di_Platform : string;
  di_DeviceFamily : string; di_ClientID : string; di_ClientMode : string
}.

Record PendingPairing := {
  pp_RequestID : string; pp_DeviceID : string; pp_Info : DeviceInfo;
  pp_Role : string; pp_Scopes : list string; pp_RemoteIP : string; pp_CreatedAtMs : Z
}.

(** The column [allowed_agents]: empty, a JSON array, or anything else. *)
Inductive allowed_column := AllAgents | SomeAgents (ids : list string) | Unreadable.

(** A row of [paired_devices], without its key. *)
Record DeviceRow := {
  dr_Info : DeviceInfo; dr_Roles : list string; dr_Scopes : list string;
  dr_AgentID : string; dr_UserName : string; dr_Allowed : allowed_column;
  dr_CreatedAtMs : Z; dr_ApprovedAtMs : Z; dr_LastSeenAtMs : option Z
}.

(** [PairedDevice], as it is read. *)
Record PairedDevice := { pd_DeviceID : string; pd_Row : DeviceRow; AllowedAgents : list string }.

(** A row of [device_tokens], without its key, the hash. *)
Record TokenRow := { tr_DeviceID : string; tr_Role : string; tr_Scopes : list string; tr_CreatedAtMs : Z; tr_RevokedAtMs : option Z }.

Record DeviceToken := { dt_Token : string; dt_Row : TokenRow }.

(** [pending_pairings] in the order of its rowids. *)
Record DB := { pendings : list PendingPairing; paired : gmap string DeviceRow; tokens : gmap string TokenRow }.

Definition with_pendings (db : DB) (l : list PendingPairing) : DB := {| pendings := l; paired := paired db; tokens := tokens db |}.
Definition with_paired (db : DB) (m : gmap string DeviceRow) : DB := {| pendings := pendings db; paired := m; tokens := tokens db |}.
Definition with_tokens (db : DB) (m : gmap string TokenRow) : DB := {| pendings := pendings db; paired := paired db; tokens := m |}.

Inductive StoreError := ErrPendingNotFound | ErrPairedNotFound | ErrInvalidUserName | DBError | RandError | AllowedUnreadable.

(** ** Requests to pair *)

Definition set_request (p : PendingPairing) (id : string) (created : Z) : PendingPairing :=
  {| pp_RequestID := id; pp_DeviceID := pp_DeviceID p; pp_Info := pp_Info p; pp_Role := pp_Role p;
     pp_Scopes := pp_Scopes p; pp_RemoteIP := pp_RemoteIP p; pp_CreatedAtMs := created |}.

Definition of_device (id : string) (p : PendingPairing) : bool := bool_decide (pp_DeviceID p = id).
Definition of_request (id : string) (p : PendingPairing) : bool := bool_decide (pp_RequestID p = id).

Definition pendingCutoffMs (now : Z) : Z := now - DevicePendingPairingTTL.

(** [ORDER BY created_at_ms DESC, rowid DESC]. *)
Definition newest_first (l : list PendingPairing) : list PendingPairing :=
  stable_sort (λ a b, pp_CreatedAtMs b <=? pp_CreatedAtMs a) (rev l).

(** The rows left by the last DELETE of [CreatePending]. *)
Definition keep_newest (l : list PendingPairing) : list PendingPairing :=
  let gone := map pp_RequestID (drop DevicePendingPairingsMax (newest_first l)) in
  keep (λ p, negb (bool_decide (pp_RequestID p ∈ gone))) l.

(** [CreatePending]; [now] and [cutoff_now] are the clock at the start and at the
    cutoff, [raw] the random request id, [None] its error, [ok] whether the
    database does what it is told and commits. *)
Definition CreatePending (p : PendingPairing) (now cutoff_now : Z) (raw : option string) (ok : bool) (db : DB)
    : DB * result string StoreError :=
  let created := if pp_CreatedAtMs p =? 0 then now else pp_CreatedAtMs p in
  let existingID := match find_first (of_device (pp_DeviceID p)) (pendings db) with Some q => pp_RequestID q | None => "" end in
  let id := if negb (bool_decide (existingID = "")) then Some existingID
            else if bool_decide (pp_RequestID p = "") then raw else Some (pp_RequestID p) in
  match id with
  | None => (db, Err RandError)
  | Some id =>
      let rest := keep (λ q, negb (of_device (pp_DeviceID p) q)) (pendings db) in
      if negb ok || existsb (of_request id) rest then (db, Err DBError)
      else
        let l := rest ++ [set_request p id created] in
        let l := keep (λ q, pendingCutoffMs cutoff_now <=? pp_CreatedAtMs q) l in
        (with_pendings db (keep_newest l), Ok id)
  end.

Definition ListPending (now : Z) (db : DB) : list PendingPairing :=
  stable_sort (λ a b, pp_CreatedAtMs b <=? pp_CreatedAtMs a)
    (keep (λ q, pendingCutoffMs now <=? pp_CreatedAtMs q) (pendings db)).

Definition getPending (id : string) (now : Z) (db : DB) : result PendingPairing StoreError :=
  match find_first (λ q, of_request id q && (pendingCutoffMs now <=? pp_CreatedAtMs q)) (pendings db) with
  | Some q => Ok q
  | None => Err ErrPendingNotFound
  end.

Definition Reject (id : string) (ok : bool) (db : DB) : DB * result unit StoreError :=
  if negb ok then (db, Err DBError)
  else if existsb (of_request id) (pendings db) then (with_pendings db (keep (λ q, negb (of_request id q)) (pendings db)), Ok tt)
  else (db, Err ErrPendingNotFound).

Section store.
Context {S : Sha256}.

(** ** Tokens *)

(** [insertTokens]: [raws] are what [randomHex] returns, one for each role, [None]
    its error. *)
Fixpoint insertTokens (m : gmap string TokenRow) (deviceID : string) (roles : list string) (scopes : list string) (now : Z)
    (raws : list (option string)) : result (gmap string TokenRow * list DeviceToken) StoreError :=
  match roles with
  | [] => Ok (m, [])
  | role :: roles' =>
      match raws with
      | Some tok :: raws' =>
          let row := {| tr_DeviceID := deviceID; tr_Role := role; tr_Scopes := scopes; tr_CreatedAtMs := now; tr_RevokedAtMs := None |} in
          match m !! Hash tok with
          | Some _ => Err DBError
          | None =>
              (let* r := insertTokens (<[Hash tok := row]> m) deviceID roles' scopes now raws' in
               Ok (r.1, {| dt_Token := tok; dt_Row := row |} :: r.2))%go
          end
      | _ => Err RandError
      end
  end.

Definition TokenByValue (token : string) (db : DB) : option DeviceToken :=
  match tokens db !! Hash token with
  | Some row =>
      match tr_RevokedAtMs row with
      | Some r => if 0 <? r then None else Some {| dt_Token := token; dt_Row := row |}
      | None => Some {| dt_Token := token; dt_Row := row |}
      end
  | None => None
  end.

Definition without_device (m : gmap string TokenRow) (deviceID : string) : gmap string TokenRow :=
  filter (λ kv, tr_DeviceID kv.2 ≠ deviceID) m.

Definition IssueTokens (deviceID : string) (roles scopes : list string) (now : Z) (raws : list (option string)) (ok : bool) (db : DB)
    : DB * result (list DeviceToken) StoreError :=
  let roles := if bool_decide (roles = []) then ["node"] else roles in
  match insertTokens (without_device (tokens db) deviceID) deviceID roles scopes now raws with
  | Ok (m, toks) => if ok then (with_tokens db m, Ok toks) else (db, Err DBError)
  | Err e => (db, Err e)
  end.

(** ** Approval *)

(** The roles and scopes of an approval; [None] is the nil slice. *)
Definition approved_roles (pending : PendingPairing) (roles : list string) : list string :=
  if bool_decide (roles = []) then [if bool_decide (pp_Role pending = "") then "node" else pp_Role pending] else roles.

Definition approved_scopes (pending : PendingPairing) (scopes : option (list string)) : list string :=
  default (pp_Scopes pending) scopes.

(** The row after the upsert. *)
Definition approved_row (pending : PendingPairing) (roles scopes : list string) (now : Z) (old : option DeviceRow) : DeviceRow :=
  match old with
  | None =>
      {| dr_Info := pp_Info pending; dr_Roles := roles; dr_Scopes := scopes; dr_AgentID := ""; dr_UserName := "";
         dr_Allowed := AllAgents; dr_CreatedAtMs := now; dr_ApprovedAtMs := now; dr_LastSeenAtMs := None |}
  | Some r =>
      {| dr_Info := pp_Info pending; dr_Roles := roles; dr_Scopes := scopes; dr_AgentID := dr_AgentID r; dr_UserName := dr_UserName r;
         dr_Allowed := dr_Allowed r; dr_CreatedAtMs := dr_CreatedAtMs r; dr_ApprovedAtMs := now; dr_LastSeenAtMs := dr_LastSeenAtMs r |}
  end.

(** The transaction of [Approve], for the request that was read before it. What is
    returned of the device is the request's. *)
Definition approve_tx (pending : PendingPairing) (roles : list string) (scopes : option (list string)) (now : Z)
    (raws : list (option string)) (ok : bool) (db : DB) : DB * result (PairedDevice * list DeviceToken) StoreError :=
  let roles := approved_roles pending roles in
  let scopes := approved_scopes pending scopes in
  let dev := pp_DeviceID pending in
  match insertTokens (tokens db) dev roles scopes now raws with
  | Err e => (db, Err e)
  | Ok (m, toks) =>
      if negb ok then (db, Err DBError)
      else ({| pendings := keep (λ q, negb (of_request (pp_RequestID pending) q)) (pendings db);
               paired := <[dev := approved_row pending roles scopes now (paired db !! dev)]> (paired db); tokens := m |},
            Ok ({| pd_DeviceID := dev; pd_Row := approved_row pending roles scopes now None; AllowedAgents := [] |}, toks))
  end.

(** [Approve], when nothing else happens between its two parts. *)
Definition Approve (id : string) (roles : list string) (scopes : option (list string)) (read_now now : Z)
    (raws : list (option string)) (ok : bool) (db : DB) : DB * result (PairedDevice * list DeviceToken) StoreError :=
  match getPending id read_now db with
  | Err e => (db, Err e)
  | Ok pending => approve_tx pending roles scopes now raws ok db
  end.

(** ** Paired devices *)

(** [parseAllowedAgents] *)
Definition parseAllowedAgents (c : allowed_column) : result (list string) StoreError :=
  match c with AllAgents => Ok [] | SomeAgents ids => Ok ids | Unreadable => Err AllowedUnreadable end.

Definition GetPaired (deviceID : string) (db : DB) : result (option PairedDevice) StoreError :=
  match paired db !! deviceID with
  | None => Ok None
  | Some row =>
      (let* allowed := parseAllowedAgents (dr_Allowed row) in
       Ok (Some {| pd_DeviceID := deviceID; pd_Row := row; AllowedAgents := allowed |}))%go
  end.

(** An UPDATE of one device. *)
Definition update_device (deviceID : string) (f : DeviceRow → DeviceRow) (ok : bool) (db : DB) : DB * result unit StoreError :=
  if negb ok then (db, Err DBError)
  else match paired db !! deviceID with
       | None => (db, Err ErrPairedNotFound)
       | Some row => (with_paired db (<[deviceID := f row]> (paired db)), Ok tt)
       end.

Definition SetDeviceAgent (deviceID agentID : string) : bool → DB → DB * result unit StoreError :=
  update_device deviceID (λ r, {| dr_Info := dr_Info r; dr_Roles := dr_Roles r; dr_Scopes := dr_Scopes r; dr_AgentID := agentID;
    dr_UserName := dr_UserName r; dr_Allowed := dr_Allowed r; dr_CreatedAtMs := dr_CreatedAtMs r;
    dr_ApprovedAtMs := dr_ApprovedAtMs r; dr_LastSeenAtMs := dr_LastSeenAtMs r |}).

(** [normalizeAgentIDs] *)
Definition normalizeAgentIDs (ids : list string) : list string :=
  foldl (λ out id,
    let id := TrimSpace id in
    if negb (ValidAgentID id) then out
    else let id := NormalizeAgentID id in if bool_decide (id ∈ out) then out else out ++ [id]) [] ids.

Definition SetDeviceAllowedAgents (deviceID : string) (agents : list string) : bool → DB → DB * result unit StoreError :=
  let ids := normalizeAgentIDs agents in
  let col := if bool_decide (ids = []) then AllAgents else SomeAgents ids in
  update_device deviceID (λ r, {| dr_Info := dr_Info r; dr_Roles := dr_Roles r; dr_Scopes := dr_Scopes r; dr_AgentID := dr_AgentID r;
    dr_UserName := dr_UserName r; dr_Allowed := col; dr_CreatedAtMs := dr_CreatedAtMs r;
    dr_ApprovedAtMs := dr_ApprovedAtMs r; dr_LastSeenAtMs := dr_LastSeenAtMs r |}).

(** [utf8.ValidString]. *)
Fixpoint valid_skip (skip : nat) (s : string) : bool :=
  match s with
  | EmptyString => true
  | String c s' =>
      match skip with
      | Datatypes.S k => valid_skip k s'
      | O => let '(r, w) := decode_rune s in negb ((r =? rune_error) && bool_decide (w = 1%nat)) && valid_skip (w - 1) s'
      end
  end.

(** [unicode.IsControl]. *)
Definition is_control (r : Z) : bool := in_range 0 31 r || in_range 127 159 r.

Definition validateUserName (name : string) : bool :=
  valid_skip 0 name && negb (MaxDeviceUserNameLen <? Z.of_nat (length (runes name))) && negb (existsb is_control (runes name)).

Definition SetDeviceUser (deviceID userName : string) (ok : bool) (db : DB) : DB * result unit StoreError :=
  let userName := TrimSpace userName in
  if negb (validateUserName userName) then (db, Err ErrInvalidUserName)
  else update_device deviceID (λ r, {| dr_Info := dr_Info r; dr_Roles := dr_Roles r; dr_Scopes := dr_Scopes r; dr_AgentID := dr_AgentID r;
    dr_UserName := userName; dr_Allowed := dr_Allowed r; dr_CreatedAtMs := dr_CreatedAtMs r;
    dr_ApprovedAtMs := dr_ApprovedAtMs r; dr_LastSeenAtMs := dr_LastSeenAtMs r |}) ok db.

(** [UpdateLastSeen]; a device that is not there is no error. *)
Definition UpdateLastSeen (deviceID : string) (ms : Z) (ok : bool) (db : DB) : DB * result unit StoreError :=
  if negb ok then (db, Err DBError)
  else (with_paired db (alter (λ r, {| dr_Info := dr_Info r; dr_Roles := dr_Roles r; dr_Scopes := dr_Scopes r; dr_AgentID := dr_AgentID r;
    dr_UserName := dr_UserName r; dr_Allowed := dr_Allowed r; dr_CreatedAtMs := dr_CreatedAtMs r;
    dr_ApprovedAtMs := dr_ApprovedAtMs r; dr_LastSeenAtMs := Some ms |}) deviceID (paired db)), Ok tt).

Definition RemovePaired (deviceID : string) (ok : bool) (db : DB) : DB * result unit StoreError :=
  if ok then ({| pendings := pendings db; paired := delete deviceID (paired db); tokens := without_device (tokens db) deviceID |}, Ok tt)
  else (db, Err DBError).

(** [PairedDevice.Allows] *)
Definition Allows (d : PairedDevice) (agentID : string) : bool :=
  if bool_decide (AllowedAgents d = []) then true else existsb (λ a, SameAgentID a agentID) (AllowedAgents d).

(** ** Tokens stored by an earlier release *)

(** [token NOT LIKE 'sha256:%'], which ignores the case of ASCII letters. *)
Definition stored_plain (key : string) : bool :=
  negb (bool_decide (map lower_byte (take 7 (bytes key)) = bytes Prefix)).

(** The UPDATEs of [hashPlaintextTokens]; [None] is a clash of keys, or another
    error, and then the store does not open and nothing is changed. *)
Fixpoint hash_rows (plain : list string) (m : gmap string TokenRow) : option (gmap string TokenRow) :=
  match plain with
  | [] => Some m
  | tok :: rest =>
      match m !! tok with
      | None => hash_rows rest m
      | Some row => match m !! Hash tok with
                    | Some _ => None
                    | None => hash_rows rest (<[Hash tok := row]> (delete tok m))
                    end
      end
  end.

Definition hashPlaintextTokens (m : gmap string TokenRow) (ok : bool) : option (gmap string TokenRow) :=
  let plain := keep stored_plain (map_to_list m).*1 in
  if bool_decide (plain = []) then Some m else if ok then hash_rows plain m else None.
End store.

(** ** Sequences of calls *)

Section runs.
Context {S : Sha256}.

(** A call that changes the database. An approval is its transaction, for whatever
    request was read before it, so that other calls may come in between. *)
Inductive store_op :=
| OCreate (p : PendingPairing) (now cutoff_now : Z) (raw : option string) (ok : bool)
| OReject (id : string) (ok : bool)
| OApprove (pending : PendingPairing) (roles : list string) (scopes : option (list string)) (now : Z) (raws : list (option string)) (ok : bool)
| OIssue (deviceID : string) (roles scopes : list string) (now : Z) (raws : list (option string)) (ok : bool)
| OSetAgent (deviceID agentID : string) (ok : bool)
| OSetAllowed (deviceID : string) (agents : list string) (ok : bool)
| OSetUser (deviceID userName : string) (ok : bool)
| OLastSeen (deviceID : string) (ms : Z) (ok : bool)
| ORemove (deviceID : string) (ok : bool).

(** The database after a call, and the tokens it hands out. *)
Definition apply (o : store_op) (db : DB) : DB * list DeviceToken :=
  match o with
  | OCreate p now cutoff raw ok => ((CreatePending p now cutoff raw ok db).1, [])
  | OReject id ok => ((Reject id ok db).1, [])
  | OApprove p roles scopes now raws ok =>
      let '(db', r) := approve_tx p roles scopes now raws ok db in (db', match r with Ok (_, toks) => toks | Err _ => [] end)
  | OIssue d roles scopes now raws ok =>
      let '(db', r) := IssueTokens d roles scopes now raws ok db in (db', match r with Ok toks => toks | Err _ => [] end)
  | OSetAgent d a ok => ((SetDeviceAgent d a ok db).1, [])
  | OSetAllowed d l ok => ((SetDeviceAllowedAgents d l ok db).1, [])
  | OSetUser d u ok => ((SetDeviceUser d u ok db).1, [])
  | OLastSeen d ms ok => ((UpdateLastSeen d ms ok db).1, [])
  | ORemove d ok => ((RemovePaired d ok db).1, [])
  end.

(** Whether a call ends the tokens a device has. *)
Definition ends_tokens (o : store_op) (db : DB) (deviceID : string) : bool :=
  match o with
  | OIssue d roles scopes now raws ok =>
      bool_decide (d = deviceID) && is_ok (IssueTokens d roles scopes now raws ok db).2
  | ORemove d ok => bool_decide (d = deviceID) && ok
  | _ => false
  end.

Definition empty_db : DB := {| pendings := []; paired := ∅; tokens := ∅ |}.

Fixpoint run (ops : list store_op) (db : DB) : DB :=
  match ops with [] => db | o :: rest => run rest (apply o db).1 end.

Lemma store_run_app a b db : run (a ++ b) db = run b (run a db).
Proof. revert db. induction a as [|o a IH]; intros db; simpl; [done|apply IH]. Qed.

(** *** Tokens *)

Lemma insertTokens_spec roles : ∀ m dev scopes now raws m' toks,
  insertTokens m dev roles scopes now raws = Ok (m', toks) →
  (∀ h row, m' !! h = Some row ↔ m !! h = Some row ∨ ∃ t, t ∈ toks ∧ Hash (dt_Token t) = h ∧ dt_Row t = row) ∧
  Forall (λ t, tr_DeviceID (dt_Row t) = dev ∧ tr_RevokedAtMs (dt_Row t) = None ∧ m !! Hash (dt_Token t) = None) toks ∧
  map (λ t, tr_Role (dt_Row t)) toks = roles.
Proof.
  induction roles as [|role roles IH]; intros m dev scopes now raws m' toks; cbn [insertTokens].
  - intros [= <- <-]. split; [|by split]. intros h row. split; [by left|]. intros [?|(t & Ht & _)]; [done|by apply elem_of_nil in Ht].
  - destruct raws as [|[tok|] raws]; try done. destruct (m !! Hash tok) eqn:Hm; [done|].
    intros ([m1 toks1] & H & Heq)%let_ok_inv. cbn [fst snd] in Heq. injection Heq as <- <-.
    apply IH in H as (Hl & Hf & Hr). split; [|split].
    + intros h row. rewrite Hl. split.
      * intros [Hi|(t & Ht & Hh & Hrow)]; [|right; exists t; split; [by right|done]].
        destruct (decide (h = Hash tok)) as [->|Hne]; [|rewrite lookup_insert_ne in Hi by done; by left].
        rewrite lookup_insert_eq in Hi. injection Hi as <-. right. eexists. split; [by left|done].
      * intros [Hi|(t & [->|Ht]%elem_of_cons & <- & <-)].
        -- left. rewrite lookup_insert_ne; [done|]. congruence.
        -- left. cbn [dt_Token dt_Row]. by rewrite lookup_insert_eq.
        -- right. by exists t.
    + constructor; [done|]. eapply Forall_impl; [exact Hf|]. intros t (? & ? & Ht). split_and!; [done..|].
      apply lookup_insert_None in Ht as [? _]. done.
    + cbn [map dt_Row tr_Role]. by rewrite Hr.
Qed.

Lemma without_device_lookup m dev h row :
  without_device m dev !! h = Some row ↔ m !! h = Some row ∧ tr_DeviceID row ≠ dev.
Proof. unfold without_device. by rewrite map_lookup_filter_Some. Qed.

Lemma update_device_tokens d f ok db : tokens (update_device d f ok db).1 = tokens db.
Proof. unfold update_device. destruct ok; [|done]. simpl. by destruct (paired db !! d). Qed.

(** The tokens after a call: those it hands out, and those it does not end. *)
Lemma apply_tokens o db h row :
  tokens (apply o db).1 !! h = Some row ↔
  (∃ t, t ∈ (apply o db).2 ∧ Hash (dt_Token t) = h ∧ dt_Row t = row) ∨
  (tokens db !! h = Some row ∧ ends_tokens o db (tr_DeviceID row) = false).
Proof.
  assert (Hsame : ∀ db', tokens db' = tokens db → (apply o db) = (db', []) → ends_tokens o db (tr_DeviceID row) = false →
    tokens (apply o db).1 !! h = Some row ↔
    (∃ t, t ∈ (apply o db).2 ∧ Hash (dt_Token t) = h ∧ dt_Row t = row) ∨
    (tokens db !! h = Some row ∧ ends_tokens o db (tr_DeviceID row) = false)).
  { intros db' Ht -> He. cbn [fst snd]. rewrite Ht, He. split; [by right|]. intros [(t & Ht' & _)|[? _]]; [by apply elem_of_nil in Ht'|done]. }
  destruct o as [p now cutoff raw ok|id ok|p roles scopes now raws ok|d roles scopes now raws ok|d a ok|d l ok|d u ok|d ms ok|d ok].
  - eapply Hsame; [|done..]. unfold CreatePending. destruct (if negb _ then _ else _); [|done]. by destruct (_ || _).
  - eapply Hsame; [|done..]. unfold Reject. destruct ok; [|done]. simpl. by destruct (existsb _ _).
  - cbn [apply ends_tokens]. unfold approve_tx. destruct (insertTokens _ _ _ _ _ _) as [[m toks]|e] eqn:Hi; cbn [fst snd].
    + destruct ok; cbn [negb fst snd tokens].
      * apply insertTokens_spec in Hi as (Hl & _). rewrite Hl. naive_solver.
      * split; [by right|]. intros [(t & Ht & _)|[? _]]; [by apply elem_of_nil in Ht|done].
    + split; [by right|]. intros [(t & Ht & _)|[? _]]; [by apply elem_of_nil in Ht|done].
  - cbn [apply ends_tokens]. unfold IssueTokens. destruct (insertTokens _ _ _ _ _ _) as [[m toks]|e] eqn:Hi; [destruct ok|]; cbn [fst snd is_ok].
    + apply insertTokens_spec in Hi as (Hl & _). cbn [tokens with_tokens]. rewrite Hl, without_device_lookup, andb_true_r.
      rewrite bool_decide_eq_false. naive_solver.
    + rewrite andb_false_r. split; [by right|]. intros [(t & Ht & _)|[? _]]; [by apply elem_of_nil in Ht|done].
    + rewrite andb_false_r. split; [by right|]. intros [(t & Ht & _)|[? _]]; [by apply elem_of_nil in Ht|done].
  - eapply Hsame; [apply update_device_tokens|done..].
  - eapply Hsame; [apply update_device_tokens|done..].
  - eapply Hsame; [|done..]. unfold SetDeviceUser. destruct (negb _); [done|]. apply update_device_tokens.
  - eapply Hsame; [|done..]. unfold UpdateLastSeen. by destruct ok.
  - cbn [apply ends_tokens]. unfold RemovePaired. destruct ok; cbn [fst snd tokens].
    + rewrite without_device_lookup, andb_true_r, bool_decide_eq_false. split; [naive_solver|].
      intros [(t & Ht & _)|?]; [by apply elem_of_nil in Ht|naive_solver].
    + rewrite andb_false_r. split; [by right|]. intros [(t & Ht & _)|[? _]]; [by apply elem_of_nil in Ht|done].
Qed.

(** The calls after one, none of which ends the tokens of a device. *)
Fixpoint spared (ops : list store_op) (db : DB) (deviceID : string) : Prop :=
  match ops with
  | [] => True
  | o :: rest => ends_tokens o db deviceID = false ∧ spared rest (apply o db).1 deviceID
  end.

Lemma spared_snoc ops o db d : spared (ops ++ [o]) db d ↔ spared ops db d ∧ ends_tokens o (run ops db) d = false.
Proof. revert db. induction ops as [|o' ops IH]; intros db; simpl; [tauto|]. rewrite IH. tauto. Qed.

(** A token was handed out by a call, and no call since ended the device's tokens. *)
Definition live_token (ops : list store_op) (t : DeviceToken) : Prop :=
  ∃ before o after, ops = before ++ o :: after ∧ t ∈ (apply o (run before empty_db)).2 ∧
    spared after (apply o (run before empty_db)).1 (tr_DeviceID (dt_Row t)).

Lemma live_token_snoc ops o t :
  live_token (ops ++ [o]) t ↔
  t ∈ (apply o (run ops empty_db)).2 ∨ (live_token ops t ∧ ends_tokens o (run ops empty_db) (tr_DeviceID (dt_Row t)) = false).
Proof.
  split.
  - intros (before & o' & after & Heq & Hin & Hs). destruct after as [|x after _] using rev_ind.
    + apply app_inj_tail in Heq as [-> ->]. by left.
    + change (before ++ o' :: after ++ [x]) with (before ++ (o' :: after) ++ [x]) in Heq. rewrite app_assoc in Heq.
      apply app_inj_tail in Heq as [-> ->]. right. apply spared_snoc in Hs as [Hs He]. split; [by exists before, o', after|].
      by rewrite store_run_app.
  - intros [Hin|[(before & o' & after & -> & Hin & Hs) He]].
    + exists ops, o, []. by split_and!.
    + exists before, o', (after ++ [o]). split_and!; [by rewrite <- app_assoc|done|]. apply spared_snoc. split; [done|].
      by rewrite store_run_app in He.
Qed.

Lemma tokens_live ops h row :
  tokens (run ops empty_db) !! h = Some row ↔ ∃ t, live_token ops t ∧ Hash (dt_Token t) = h ∧ dt_Row t = row.
Proof.
  induction ops as [|o ops IH] using rev_ind.
  - simpl. split; [by rewrite lookup_empty|]. intros (t & (before & o & after & H & _) & _). by destruct before.
  - rewrite store_run_app. simpl. rewrite apply_tokens, IH. setoid_rewrite live_token_snoc. naive_solver.
Qed.

Lemma minted_unrevoked o db t : t ∈ (apply o db).2 → tr_RevokedAtMs (dt_Row t) = None.
Proof.
  destruct o; cbn [apply snd]; try by intros ?%elem_of_nil.
  - unfold approve_tx. destruct (insertTokens _ _ _ _ _ _) as [[m toks]|e] eqn:Hi; [|by intros ?%elem_of_nil].
    destruct ok; [|by intros ?%elem_of_nil]. apply insertTokens_spec in Hi as (_ & Hf & _). rewrite Forall_forall in Hf. intros Ht.
    by apply Hf.
  - unfold IssueTokens. destruct (insertTokens _ _ _ _ _ _) as [[m toks]|e] eqn:Hi; [|by intros ?%elem_of_nil].
    destruct ok; [|by intros ?%elem_of_nil]. apply insertTokens_spec in Hi as (_ & Hf & _). rewrite Forall_forall in Hf. intros Ht.
    by apply Hf.
Qed.

Lemma TokenByValue_live ops token row :
  TokenByValue token (run ops empty_db) = Some {| dt_Token := token; dt_Row := row |} ↔
  ∃ t, live_token ops t ∧ Hash (dt_Token t) = Hash token ∧ dt_Row t = row.
Proof.
  unfold TokenByValue. rewrite <- tokens_live. destruct (tokens _ !! Hash token) as [r|] eqn:Hr; [|by split].
  apply tokens_live in Hr as (t & (before & o & after & _ & Hin & _) & _ & <-). rewrite (minted_unrevoked _ _ _ Hin). naive_solver.
Qed.

(** C19. A device token is good for as long as it should be. After any calls,
    concurrent ones in any order and failing ones included, a token a client
    presents is accepted exactly when a call handed it out (or one with its
    digest) and no call since replaced the tokens of its device or removed the
    device; and it is accepted for that device, role and scopes. *)
Theorem device_token_lifetime ops token row :
  TokenByValue token (run ops empty_db) = Some {| dt_Token := token; dt_Row := row |} ↔
  ∃ t, live_token ops t ∧ Hash (dt_Token t) = Hash token ∧ dt_Row t = row.
Proof. apply TokenByValue_live. Qed.

(** *** Requests to pair *)

(** Rows have request ids and devices of their own, and are few. *)
Definition pendings_ok (l : list PendingPairing) : Prop :=
  NoDup (map pp_RequestID l) ∧ NoDup (map pp_DeviceID l) ∧ (length l ≤ DevicePendingPairingsMax)%nat.

Lemma NoDup_map_keep {B} (f : PendingPairing → B) p l : NoDup (map f l) → NoDup (map f (keep p l)).
Proof. intros H. eapply sublist_NoDup; [exact H|]. apply fmap_sublist, keep_sublist. Qed.

Lemma pendings_ok_keep p l : pendings_ok l → pendings_ok (keep p l).
Proof.
  intros (H1 & H2 & H3). split_and!; [by apply NoDup_map_keep..|].
  etrans; [apply sublist_length, keep_sublist|done].
Qed.

Lemma newest_first_perm l : newest_first l ≡ₚ l.
Proof. unfold newest_first. rewrite stable_sort_perm. symmetry. apply Permutation_rev. Qed.

Lemma keep_Permutation {A} (p : A → bool) l1 l2 : l1 ≡ₚ l2 → keep p l1 ≡ₚ keep p l2.
Proof.
  induction 1; simpl; repeat case_if; try done; [by constructor|apply Permutation_swap|by etrans].
Qed.

Lemma newest_first_sorted l : StronglySorted (λ a b, (pp_CreatedAtMs b <=? pp_CreatedAtMs a) = true) (newest_first l).
Proof.
  apply stable_sort_sorted.
  - intros x y. rewrite !Z.leb_le. lia.
  - intros x y z. rewrite !Z.leb_le. lia.
Qed.

(** The rows that [CreatePending] keeps are the first of the newest. *)
Lemma keep_newest_perm l : NoDup (map pp_RequestID l) → keep_newest l ≡ₚ take DevicePendingPairingsMax (newest_first l).
Proof.
  intros Hnd. unfold keep_newest. set (n := DevicePendingPairingsMax). set (s := newest_first l).
  assert (Hs : NoDup (map pp_RequestID s)).
  { eapply NoDup_Permutation_proper; [|exact Hnd]. apply Permutation_map, newest_first_perm. }
  etrans; [apply keep_Permutation; symmetry; apply (newest_first_perm l)|]. fold s.
  set (f := λ p, negb (bool_decide (pp_RequestID p ∈ map pp_RequestID (drop n s)))).
  assert (Hsplit : keep f s = keep f (take n s) ++ keep f (drop n s)) by (by rewrite <- keep_app, take_drop).
  rewrite Hsplit. rewrite <- (take_drop n s), map_app in Hs.
  apply NoDup_app in Hs as (_ & Hdis & _). rewrite keep_id.
  - assert (Hnil : keep f (drop n s) = []).
    { apply elem_of_nil_inv. intros x [Hx Hb]%elem_of_keep. apply negb_true_iff, bool_decide_eq_false in Hb. destruct Hb.
      by apply list_elem_of_fmap_2. }
    by rewrite Hnil, app_nil_r.
  - apply Forall_forall. intros x Hx. apply negb_true_iff, bool_decide_eq_false. intros Hin.
    apply (Hdis (pp_RequestID x)); [by apply list_elem_of_fmap_2|exact Hin].
Qed.

Lemma keep_newest_ok l : NoDup (map pp_RequestID l) → NoDup (map pp_DeviceID l) → pendings_ok (keep_newest l).
Proof.
  intros H1 H2. split_and!; [by apply NoDup_map_keep..|]. rewrite (keep_newest_perm l H1), length_take. lia.
Qed.

(** What is dropped for room is not newer than what is kept. *)
Lemma keep_newest_newest l p q : NoDup (map pp_RequestID l) → p ∈ keep_newest l → q ∈ l → q ∉ keep_newest l →
  pp_CreatedAtMs q ≤ pp_CreatedAtMs p.
Proof.
  intros Hnd Hp Hq Hnq. rewrite (keep_newest_perm l Hnd) in Hp, Hnq. pose proof (newest_first_sorted l) as Hs.
  rewrite <- (newest_first_perm l) in Hq. rewrite <- (take_drop DevicePendingPairingsMax (newest_first l)) in Hq, Hs.
  apply elem_of_app in Hq as [?|Hq]; [done|]. apply StronglySorted_app in Hs as (Hs & _ & _).
  specialize (Hs p q Hp Hq). by apply Z.leb_le.
Qed.

(** A new row, when no other has its request id. *)
Lemma new_row_ids (f : PendingPairing → bool) p l :
  NoDup (map pp_RequestID l) → existsb (of_request (pp_RequestID p)) (keep f l) = false →
  NoDup (map pp_RequestID (keep f l ++ [p])).
Proof.
  intros Hl Hfresh. rewrite map_app. apply NoDup_app. split; [by apply NoDup_map_keep|]. split; [|apply NoDup_singleton].
  intros x Hx ->%list_elem_of_singleton. apply list_elem_of_fmap in Hx as (q & Hq & Hin).
  assert (Hex : existsb (of_request (pp_RequestID p)) (keep f l) = true); [|congruence].
  apply existsb_Exists. exists q. split; [done|]. by apply bool_decide_eq_true.
Qed.

Lemma create_pendings p now cutoff raw ok db : pendings_ok (pendings db) →
  pendings_ok (pendings (CreatePending p now cutoff raw ok db).1) ∧
  paired (CreatePending p now cutoff raw ok db).1 = paired db.
Proof.
  intros (H1 & H2 & H3). unfold CreatePending. destruct (if negb _ then _ else _) as [id|]; [|done].
  destruct (negb ok || existsb _ _) eqn:Hb; [done|]. apply orb_false_iff in Hb as [_ Hfresh]. split; [|done]. cbn [fst pendings with_pendings].
  set (rest := keep (λ q, negb (of_device (pp_DeviceID p) q)) (pendings db)) in *.
  assert (Hr : NoDup (map pp_RequestID (rest ++ [set_request p id (if pp_CreatedAtMs p =? 0 then now else pp_CreatedAtMs p)])))
    by by apply new_row_ids.
  assert (Hd : NoDup (map pp_DeviceID (rest ++ [set_request p id (if pp_CreatedAtMs p =? 0 then now else pp_CreatedAtMs p)]))).
  { rewrite map_app. apply NoDup_app. split; [by apply NoDup_map_keep|]. split; [|apply NoDup_singleton].
    intros x Hx ->%list_elem_of_singleton. apply list_elem_of_fmap in Hx as (q & Hq & Hin). cbn in Hq. subst rest.
    apply elem_of_keep in Hin as [_ Hin]. apply negb_true_iff, bool_decide_eq_false in Hin. congruence. }
  apply keep_newest_ok; by apply NoDup_map_keep.
Qed.

Lemma apply_pendings o db : pendings_ok (pendings db) → pendings_ok (pendings (apply o db).1).
Proof.
  intros H. destruct o as [p now cutoff raw ok|id ok|p roles scopes now raws ok|d roles scopes now raws ok|d a ok|d l ok|d u ok|d ms ok|d ok];
    cbn [apply fst].
  - by apply create_pendings.
  - unfold Reject. destruct ok; [|done]. simpl. destruct (existsb _ _); [|done]. by apply pendings_ok_keep.
  - unfold approve_tx. destruct (insertTokens _ _ _ _ _ _) as [[m toks]|e]; [|done]. destruct ok; [|done]. by apply pendings_ok_keep.
  - unfold IssueTokens. destruct (insertTokens _ _ _ _ _ _) as [[m toks]|e]; [|done]. by destruct ok.
  - unfold SetDeviceAgent, update_device. destruct ok; [|done]. simpl. by destruct (paired db !! d).
  - unfold SetDeviceAllowedAgents, update_device. destruct ok; [|done]. simpl. by destruct (paired db !! d).
  - unfold SetDeviceUser, update_device. destruct (negb (validateUserName _)); [done|]. destruct ok; [|done]. simpl. by destruct (paired db !! d).
  - unfold UpdateLastSeen. by destruct ok.
  - unfold RemovePaired. by destruct ok.
Qed.

(** Requests to pair cannot pile up. After any calls the database holds at most
    twenty of them, no two for one device or under one id; what a new request
    displaces has expired, is the same device's, or is not newer than any that
    stays. *)
Theorem pendings_bounded ops : 
  let db := run ops empty_db in
  pendings_ok (pendings db) ∧
  ∀ p now cutoff raw id db', CreatePending p now cutoff raw true db = (db', Ok id) →
    ∀ q, q ∈ pendings db → q ∉ pendings db' →
      pp_DeviceID q = pp_DeviceID p ∨ pp_CreatedAtMs q < pendingCutoffMs cutoff ∨
      (∀ r, r ∈ pendings db' → pp_CreatedAtMs q ≤ pp_CreatedAtMs r).
Proof.
  assert (Hok : ∀ db, pendings_ok (pendings db) → pendings_ok (pendings (run ops db))).
  { induction ops as [|o ops IH]; intros db Hdb; [done|]. by apply IH, apply_pendings. }
  assert (H : pendings_ok (pendings (run ops empty_db))) by (apply Hok; split_and!; [constructor..|simpl; lia]).
  intros db. split; [exact H|]. intros p now cutoff raw id db' Hc q Hq Hnq. fold db in H.
  pose proof (create_pendings p now cutoff raw true db H) as Hok'. destruct H as (H1 & _).
  unfold CreatePending in *. destruct (if negb _ then _ else _) as [id'|]; [|done].
  destruct (negb true || existsb _ _) eqn:Hb; [done|]. injection Hc as <- ->. cbn [pendings with_pendings] in *.
  set (p' := set_request p id _) in *. set (rest := keep (λ q, negb (of_device (pp_DeviceID p) q)) (pendings db)) in *.
  destruct (of_device (pp_DeviceID p) q) eqn:Hdev; [left; by apply bool_decide_eq_true in Hdev|].
  destruct (decide (pp_CreatedAtMs q < pendingCutoffMs cutoff)) as [|Hnew]; [right; by left|]. right; right. intros r Hr.
  eapply keep_newest_newest; [|exact Hr| |exact Hnq].
  - by apply NoDup_map_keep, new_row_ids.
  - apply elem_of_keep. split; [|apply Z.leb_le; lia]. apply elem_of_app. left. apply elem_of_keep. by rewrite Hdev.
Qed.
End runs.

(** ** Tokens of earlier releases *)

Section migration.
Context {S : Sha256}.

Lemma Hash_not_plain tok : stored_plain (Hash tok) = false.
Proof. unfold stored_plain, Hash. apply negb_false_iff, bool_decide_eq_true. rewrite bytes_app. done. Qed.

Lemma hash_rows_spec plain : ∀ m m', NoDup plain → Forall (λ k, stored_plain k = true) plain → hash_rows plain m = Some m' →
  ∀ k row, m' !! k = Some row ↔ (m !! k = Some row ∧ k ∉ plain) ∨ ∃ tok, tok ∈ plain ∧ k = Hash tok ∧ m !! tok = Some row.
Proof.
  induction plain as [|tok plain IH]; intros m m' Hnd Hp; cbn [hash_rows].
  { intros [= <-] k row. split; [intros ?; left; split; [done|by intros ?%elem_of_nil]|].
    intros [[? _]|(t & Ht & _)]; [done|by apply elem_of_nil in Ht]. }
  apply NoDup_cons in Hnd as [Hni Hnd]. apply Forall_cons in Hp as [Ht Hp]. rewrite Forall_forall in Hp.
  assert (Hne : ∀ t, t ∈ plain ∨ t = tok → ∀ t', Hash t' ≠ t).
  { intros t Hin t' Heq. assert (stored_plain t = true) by (destruct Hin as [? | ->]; [by apply Hp|done]).
    rewrite <- Heq, Hash_not_plain in *. done. }
  destruct (m !! tok) as [row0|] eqn:Hm.
  - destruct (m !! Hash tok) eqn:Hh; [done|]. intros H k row.
    rewrite (IH _ _ Hnd (proj2 (Forall_forall _ _) Hp) H). split.
    + intros [[Hk Hni']|(t & Hin & -> & Hk)].
      * destruct (decide (k = Hash tok)) as [->|Hkh].
        -- rewrite lookup_insert_eq in Hk. injection Hk as <-. right. exists tok. by split; [left|].
        -- rewrite lookup_insert_ne in Hk by done. apply lookup_delete_Some in Hk as [Hkt Hk]. left. split; [done|].
           by intros [? | ?]%elem_of_cons.
      * rewrite lookup_insert_ne in Hk by (intros E; by apply (Hne t (or_introl Hin) tok)).
        apply lookup_delete_Some in Hk as [_ Hk]. right. exists t. by split; [right|].
    + intros [[Hk [Hkt Hni']%not_elem_of_cons]|(t & [->|Hin]%elem_of_cons & -> & Hk)].
      * left. split; [|done]. rewrite lookup_insert_ne by congruence. by rewrite lookup_delete_ne by done.
      * left. rewrite Hm in Hk. injection Hk as <-. split; [by rewrite lookup_insert_eq|].
        intros Hin. by apply (Hne _ (or_introl Hin) tok).
      * right. exists t. split_and!; [done..|]. rewrite lookup_insert_ne by (intros E; by apply (Hne t (or_introl Hin) tok)).
        rewrite lookup_delete_ne; [done|]. by intros <-.
  - intros H k row. rewrite (IH _ _ Hnd (proj2 (Forall_forall _ _) Hp) H). setoid_rewrite elem_of_cons. split; [naive_solver|].
    intros [[Hk Hni']|(t & [->|Hin] & -> & Hk)]; [naive_solver|congruence|naive_solver].
Qed.

(** Opening a database of an earlier release keeps its tokens. Every token stored
    in the clear is replaced by its digest, with the same row, so presenting it
    still works; those stored as digests stay; and opening it again changes
    nothing. *)
Theorem migration_keeps_tokens db m' ok (Hm : hashPlaintextTokens (tokens db) ok = Some m') :
  (∀ tok row, stored_plain tok = true → tokens db !! tok = Some row → tr_RevokedAtMs row = None →
    TokenByValue tok (with_tokens db m') = Some {| dt_Token := tok; dt_Row := row |} ∧ m' !! tok = None) ∧
  (∀ h row, stored_plain h = false → tokens db !! h = Some row → m' !! h = Some row) ∧
  (∀ ok', hashPlaintextTokens m' ok' = Some m').
Proof.
  assert (Hspec : ∀ k row, m' !! k = Some row ↔
    (tokens db !! k = Some row ∧ stored_plain k = false) ∨
    ∃ tok, stored_plain tok = true ∧ k = Hash tok ∧ tokens db !! tok = Some row).
  { intros k row. unfold hashPlaintextTokens in Hm.
    assert (Hel : ∀ x, x ∈ keep stored_plain (map_to_list (tokens db)).*1 ↔ is_Some (tokens db !! x) ∧ stored_plain x = true).
    { intros x. rewrite elem_of_keep, list_elem_of_fmap. split.
      - intros [([x' r] & -> & Hx%elem_of_map_to_list) Hp]. by split; [eexists|].
      - intros [[r Hr] Hp]. split; [|done]. exists (x, r). split; [done|]. by apply elem_of_map_to_list. }
    destruct (bool_decide _) eqn:Hb.
    - injection Hm as <-. apply bool_decide_eq_true in Hb. rewrite Hb in Hel. split.
      + intros Hk. left. split; [done|]. destruct (stored_plain k) eqn:Hp; [|done].
        assert (Hin : k ∈ ([] : list string)) by (apply Hel; by split; [eexists|]). by apply elem_of_nil in Hin.
      + intros [[? _]|(tok & Hp & _ & Hr)]; [done|].
        assert (Hin : tok ∈ ([] : list string)) by (apply Hel; by split; [eexists|]). by apply elem_of_nil in Hin.
    - destruct ok; [|done]. rewrite (hash_rows_spec _ _ _ (sublist_NoDup _ _ (NoDup_fst_map_to_list _) (keep_sublist _ _))
        (proj2 (Forall_forall _ _) (λ x Hx, proj2 (proj1 (Hel x) Hx))) Hm). setoid_rewrite Hel. split.
      + intros [[Hk Hn]|(tok & [_ Hp] & -> & Hr)]; [|right; by exists tok]. left. split; [done|].
        destruct (stored_plain k); [|done]. destruct Hn. by split; [eexists|].
      + intros [[Hk Hn]|(tok & Hp & -> & Hr)]; [left; split; [done|]; intros [_ ?]; congruence|].
        right. exists tok. split_and!; [by eexists|done..]. }
  assert (Hplain : ∀ tok, stored_plain tok = true → m' !! tok = None).
  { intros tok Hp. destruct (m' !! tok) as [r|] eqn:Hr; [|done]. apply Hspec in Hr as [[_ ?]|(t & _ & -> & _)]; [congruence|].
    by rewrite Hash_not_plain in Hp. }
  split; [|split].
  - intros tok row Hp Hr Hrev. split; [|by apply Hplain]. unfold TokenByValue. cbn [tokens with_tokens].
    rewrite (proj2 (Hspec (Hash tok) row)) by (right; by exists tok). by rewrite Hrev.
  - intros h row Hp Hr. apply Hspec. by left.
  - intros ok'. unfold hashPlaintextTokens. rewrite bool_decide_true; [done|].
    apply elem_of_nil_inv. intros x [Hx Hp]%elem_of_keep. apply list_elem_of_fmap in Hx as ([x' r] & -> & Hx%elem_of_map_to_list).
    simpl in Hp. by rewrite (Hplain _ Hp) in Hx.
Qed.

(** ** Removing a device, and whom a device may talk to *)

(** A removed device is gone: it is not paired, none of its tokens is accepted,
    and no other device, token or request changes. *)
Theorem RemovePaired_spec deviceID db :
  let '(db', r) := RemovePaired deviceID true db in
  r = Ok tt ∧ GetPaired deviceID db' = Ok None ∧
  (∀ token t, TokenByValue token db' = Some t ↔ TokenByValue token db = Some t ∧ tr_DeviceID (dt_Row t) ≠ deviceID) ∧
  (∀ d, d ≠ deviceID → GetPaired d db' = GetPaired d db) ∧ pendings db' = pendings db.
Proof.
  unfold RemovePaired. split; [done|]. split; [unfold GetPaired; cbn [paired]; by rewrite lookup_delete_eq|]. split; [|split; [|done]].
  - intros token t. unfold TokenByValue. cbn [tokens].
    pose proof (without_device_lookup (tokens db) deviceID (Hash token)) as Hl.
    destruct (without_device (tokens db) deviceID !! Hash token) as [row|] eqn:Hr.
    + destruct (proj1 (Hl row) eq_refl) as [-> Hne]. destruct (tr_RevokedAtMs row) as [r|]; [case_if|]; naive_solver.
    + split; [done|]. intros [H Hne]. destruct (tokens db !! Hash token) as [row|] eqn:Ht; [|done].
      assert (dt_Row t = row) as <- by (destruct (tr_RevokedAtMs row) as [r|]; [destruct (0 <? r); [done|]|]; by injection H as <-).
      by pose proof (proj2 (Hl (dt_Row t)) (conj eq_refl Hne)).
  - intros d Hd. unfold GetPaired. cbn [paired]. by rewrite lookup_delete_ne by done.
Qed.

(** The ids stored for a device are valid and stored once; the list the caller gave
    names no other valid agent. *)
Lemma normalizeAgentIDs_spec ids :
  NoDup (normalizeAgentIDs ids) ∧
  ∀ x, x ∈ normalizeAgentIDs ids ↔ ∃ id, id ∈ ids ∧ ValidAgentID (TrimSpace id) = true ∧ x = NormalizeAgentID (TrimSpace id).
Proof.
  unfold normalizeAgentIDs. set (f := λ out id, _).
  assert (Hgen : ∀ out, NoDup out → NoDup (foldl f out ids) ∧
    ∀ x, x ∈ foldl f out ids ↔ x ∈ out ∨ ∃ id, id ∈ ids ∧ ValidAgentID (TrimSpace id) = true ∧ x = NormalizeAgentID (TrimSpace id)).
  { induction ids as [|id ids IH]; intros out Hout; cbn [foldl].
    { split; [done|]. intros x. split; [by left|]. intros [?|(id & Hid & _)]; [done|by apply elem_of_nil in Hid]. }
    setoid_rewrite elem_of_cons. subst f. cbv beta zeta. destruct (ValidAgentID (TrimSpace id)) eqn:Hv; cbn [negb].
    - case_bool_decide as Hin.
      + destruct (IH out Hout) as [H1 H2]. split; [done|]. intros x. rewrite H2. naive_solver.
      + destruct (IH (out ++ [NormalizeAgentID (TrimSpace id)])) as [H1 H2].
        { apply NoDup_app. split; [done|]. split; [|apply NoDup_singleton]. by intros y Hy ->%list_elem_of_singleton. }
        split; [done|]. intros x. rewrite H2, elem_of_app, list_elem_of_singleton. naive_solver.
    - destruct (IH out Hout) as [H1 H2]. split; [done|]. intros x. rewrite H2. naive_solver congruence. }
  destruct (Hgen [] (NoDup_nil_2)) as [H1 H2]. split; [done|]. intros x. rewrite H2. split; [|by right].
  intros [H|?]; [by apply elem_of_nil in H|done].
Qed.
End migration.
