(* ===== verification/DeviceAuth.v ===== *)
(** * How a device gets in (channels/device/server.go, throttle.go, gatewayproto)

    The lockout of addresses that fail to authenticate, the text a device signs,
    and the handshake: the gateway's secret or a device token, the device's
    signature, pairing, and the tokens handed out. Digests, signatures and the
    decoders of base64 are parameters. The theorems: a connection is accepted only
    for a device that signed this connection's nonce, that an operator paired (or
    that the gateway pairs by itself when told to), by somebody with a secret or a
    token, and holds tokens that keep it authorised; how many secrets an address
    can try; and which texts a signature stands for. *)

From stdpp Require Import base gmap strings list fin_maps sorting.
From Stdlib Require Import ZArith Lia Ascii.
From S2P Require Import Prelude GoString AgentIds SessionTokens DeviceStore.

Open Scope Z_scope.

(** ** The lockout *)

Definition DeviceAuthFailThreshold : nat := 5.
Definition DeviceAuthFailWindow : Z := 10 * GoTime.minute.
Definition DeviceAuthLockoutMin : Z := GoTime.minute.
Definition DeviceAuthLockoutMax : Z := GoTime.hour.
Definition authPruneInterval : Z := GoTime.minute.

Record authFailState := { failures : list Z; lockouts : nat; lockedUntil : Z }.

Record authThrottle := { byIP : gmap string authFailState; exempt : string → bool; lastPrune : Z }.

Definition setExempt (set : string → bool) (t : authThrottle) : authThrottle :=
  {| byIP := byIP t; exempt := set; lastPrune := lastPrune t |}.

Definition retryAfter (t : authThrottle) (now : Z) (ip : string) : Z :=
  if exempt t ip then 0
  else match byIP t !! ip with
       | Some st => let d := GoTime.sub (lockedUntil st) now in if 0 <? d then d else 0
       | None => 0
       end.

(** The last failure or the end of the lockout, whichever is later. *)
Definition last_trouble (st : authFailState) : Z :=
  match last (failures st) with
  | Some f => if GoTime.after f (lockedUntil st) then f else lockedUntil st
  | None => lockedUntil st
  end.

Definition prune (t : authThrottle) (now : Z) : authThrottle :=
  if GoTime.sub now (lastPrune t) <? authPruneInterval then t
  else {| byIP := filter (λ kv, GoTime.after (GoTime.add (last_trouble kv.2) DeviceAuthFailWindow) now = true) (byIP t);
          exempt := exempt t; lastPrune := now |}.

(** The loop that doubles the lockout. *)
Fixpoint doubled (n : nat) (lockout : Z) : Z :=
  match n with
  | O => lockout
  | S n' => if lockout <? DeviceAuthLockoutMax then doubled n' (lockout * 2) else lockout
  end.

(** The entry of an address, new when there is none. *)
Definition entry (t : authThrottle) (ip : string) : authFailState :=
  default {| failures := []; lockouts := 0; lockedUntil := GoTime.zero_time |} (byIP t !! ip).

Definition fail (t : authThrottle) (now : Z) (ip : string) : authThrottle * (Z * bool) :=
  if exempt t ip then (t, (0, false))
  else
    let t := prune t now in
    let st := entry t ip in
    let cutoff := GoTime.add now (- DeviceAuthFailWindow) in
    let recent := keep (λ f, GoTime.after f cutoff) (failures st) ++ [now] in
    let put st := {| byIP := <[ip := st]> (byIP t); exempt := exempt t; lastPrune := lastPrune t |} in
    if bool_decide (length recent < DeviceAuthFailThreshold)%nat
    then (put {| failures := recent; lockouts := lockouts st; lockedUntil := lockedUntil st |}, (0, false))
    else
      let lockout := Z.min (doubled (lockouts st) DeviceAuthLockoutMin) DeviceAuthLockoutMax in
      (put {| failures := []; lockouts := S (lockouts st); lockedUntil := GoTime.add now lockout |},
       (lockout, bool_decide (S (lockouts st) = 1%nat))).

(** ** What a device says and signs *)

Record DeviceIdentity := { id_ID : string; id_PublicKey : string; id_Signature : string; id_SignedAt : Z; id_Nonce : string }.

Record ConnectAuth := { au_Token : string; au_BootstrapToken : string; au_DeviceToken : string }.

Record ConnectParams := {
  cp_MinProtocol : Z; cp_MaxProtocol : Z;
  cp_ClientID : string; cp_DisplayName : string; cp_Platform : string; cp_DeviceFamily : string; cp_Mode : string;
  cp_Role : string; cp_Scopes : list string; cp_Device : option DeviceIdentity; cp_Auth : option ConnectAuth
}.

Definition ProtocolVersion : Z := 4.
Definition MinClientProtocolVersion : Z := 3.
Definition MinProbeProtocolVersion : Z := 3.

Definition NegotiateProtocol (clientMin clientMax : Z) (probe : bool) : Z :=
  let ourMin := if probe && (MinProbeProtocolVersion <? MinClientProtocolVersion) then MinProbeProtocolVersion else MinClientProtocolVersion in
  let negotiated := Z.min clientMax ProtocolVersion in
  if (negotiated <? clientMin) || (negotiated <? ourMin) then 0 else negotiated.

Record DeviceAuthInput := {
  in_DeviceID : string; in_ClientID : string; in_ClientMode : string; in_Role : string; in_Scopes : list string;
  in_SignedAtMs : Z; in_Token : string; in_Nonce : string; in_Platform : string; in_DeviceFamily : string
}.

(** [normalizeDeviceMetadataForAuth] *)
Definition normalizeMetadata (s : string) : string := of_bytes (map lower_byte (bytes (TrimSpace s))).

Definition v2_fields (i : DeviceAuthInput) : list string :=
  [in_DeviceID i; in_ClientID i; in_ClientMode i; in_Role i; Join (in_Scopes i) ","; itoa (in_SignedAtMs i); in_Token i; in_Nonce i].

Definition BuildDeviceAuthPayloadV3 (i : DeviceAuthInput) : string :=
  Join ("v3" :: v2_fields i ++ [normalizeMetadata (in_Platform i); normalizeMetadata (in_DeviceFamily i)]) "|".

Definition BuildDeviceAuthPayloadV2 (i : DeviceAuthInput) : string := Join ("v2" :: v2_fields i) "|".

(** The decoders of base64 that are tried in turn, and [ed25519.Verify]. *)
Class DeviceCrypto := {
  base64_decoders : list (string → option (list ascii));
  ed25519_verify : list ascii → list ascii → list ascii → bool
}.

Definition PublicKeySize : nat := 32.

Section handshake.
Context {SH : Sha256} {CR : DeviceCrypto}.

Definition DecodeKeyOrSig (s : string) : option (list ascii) :=
  foldr (λ dec rest, match dec s with Some b => Some b | None => rest end) None base64_decoders.

Definition DeviceIDFromPublicKey (pub : list ascii) : string := EncodeToString (Sum256 pub).

Definition VerifyDeviceSignature (publicKey payload signature : string) : bool :=
  match DecodeKeyOrSig publicKey with
  | Some pub =>
      if bool_decide (length pub = PublicKeySize) then
        match DecodeKeyOrSig signature with Some sig => ed25519_verify pub (bytes payload) sig | None => false end
      else false
  | None => false
  end.

(** [VerifyConnectSignature], whether it matched. *)
Definition VerifyConnectSignature (i : DeviceAuthInput) (publicKey signature : string) : bool :=
  VerifyDeviceSignature publicKey (BuildDeviceAuthPayloadV3 i) signature ||
  VerifyDeviceSignature publicKey (BuildDeviceAuthPayloadV2 i) signature.

(** ** The handshake *)

Record ServerOptions := { SharedToken : string; WordToken : string; AutoApprove : bool }.

(** What happens around a handshake: the clock at each reading (nanoseconds for the
    lockout, milliseconds else), what the random source gives, and which
    operations of the database succeed. *)
Record Env := {
  t_retry : Z; t_fail : Z; t_verify : Z; t_create : Z; t_cutoff : Z; t_read : Z; t_approve : Z; t_seen : Z; t_issue : Z;
  r_request : option string; r_approve : list (option string); r_issue : list (option string);
  ok_read : bool; ok_token : bool; ok_create : bool; ok_approve : bool; ok_seen : bool; ok_issue : bool
}.

Inductive identity_error := NonceMismatch | TimestampOutOfRange | BadPublicKey | IDMismatch | BadSignature.

Inductive refusal :=
| ProtocolMismatch | RateLimited (wait : Z) | Unauthorized | IdentityNeeded | DeviceAuthFailed (e : identity_error)
| PairingStoreError | PairingRequired (requestID : string).

Definition signatureSkewMs : Z := 5 * 60 * 1000.
Definition RoleNode : string := "node".

Definition role_of (p : ConnectParams) : string := if bool_decide (cp_Role p = "") then RoleNode else cp_Role p.

(** The token that is part of the signed text. *)
Definition signed_token (a : option ConnectAuth) : string :=
  match a with
  | None => ""
  | Some a => if negb (bool_decide (au_Token a = "")) then au_Token a
              else if negb (bool_decide (au_DeviceToken a = "")) then au_DeviceToken a else au_BootstrapToken a
  end.

Definition auth_input (p : ConnectParams) (d : DeviceIdentity) : DeviceAuthInput :=
  {| in_DeviceID := id_ID d; in_ClientID := cp_ClientID p; in_ClientMode := cp_Mode p; in_Role := role_of p; in_Scopes := cp_Scopes p;
     in_SignedAtMs := id_SignedAt d; in_Token := signed_token (cp_Auth p); in_Nonce := id_Nonce d;
     in_Platform := cp_Platform p; in_DeviceFamily := cp_DeviceFamily p |}.

Definition verifyDeviceIdentity (nonce : string) (now : Z) (p : ConnectParams) (d : DeviceIdentity) : option identity_error :=
  if negb (bool_decide (id_Nonce d = nonce)) then Some NonceMismatch
  else if (id_SignedAt d <? now - signatureSkewMs) || (now + signatureSkewMs <? id_SignedAt d) then Some TimestampOutOfRange
  else match DecodeKeyOrSig (id_PublicKey d) with
       | None => Some BadPublicKey
       | Some pub =>
           if negb (bool_decide (DeviceIDFromPublicKey pub = id_ID d)) then Some IDMismatch
           else if negb (VerifyConnectSignature (auth_input p d) (id_PublicKey d) (id_Signature d)) then Some BadSignature
           else None
       end.

(** The comparison of digests. *)
Definition same_digest (a b : string) : bool := bool_decide (Sum256 (bytes a) = Sum256 (bytes b)).

(** [TokenByValue], with an error of the database as no token. *)
Definition token_found (e : Env) (token : string) (db : DB) : option DeviceToken := if ok_token e then TokenByValue token db else None.

Definition authorizeGateway (e : Env) (o : ServerOptions) (db : DB) (p : ConnectParams) : bool :=
  match cp_Auth p with
  | None => false
  | Some a =>
      (negb (bool_decide (au_Token a = "")) &&
         existsb (λ secret, negb (bool_decide (secret = "")) && same_digest (au_Token a) secret) [SharedToken o; WordToken o])
      || existsb (λ t, negb (bool_decide (t = "")) && match token_found e t db with Some _ => true | None => false end)
           [au_DeviceToken a; au_Token a]
  end.

Definition presentedDeviceTokens (e : Env) (deviceID : string) (db : DB) (p : ConnectParams) : list DeviceToken :=
  match cp_Auth p with
  | None => []
  | Some a =>
      omap (λ t, if bool_decide (t = "") then None
                 else match token_found e t db with
                      | Some dt => if bool_decide (tr_DeviceID (dt_Row dt) = deviceID) then Some dt else None
                      | None => None
                      end) [au_DeviceToken a; au_Token a]
  end.

(** What hello-ok says of the authorisation: the role, the token for it, and all
    tokens. *)
Record Hello := { h_DeviceID : string; h_Role : string; h_DeviceToken : string; h_Tokens : list DeviceToken; h_Protocol : Z }.

Definition hello_role (row : DeviceRow) : string :=
  match dr_Roles row with
  | [] => RoleNode
  | r :: _ => if bool_decide (RoleNode ∈ dr_Roles row) then RoleNode else r
  end.

Definition buildHelloOk (e : Env) (dev : PairedDevice) (p : ConnectParams) (protocol : Z) (db : DB) : DB * Hello :=
  let role := hello_role (pd_Row dev) in
  let '(db, toks) :=
    match presentedDeviceTokens e (pd_DeviceID dev) db p with
    | [] =>
        let '(db', r) := IssueTokens (pd_DeviceID dev) (dr_Roles (pd_Row dev)) (dr_Scopes (pd_Row dev)) (t_issue e) (r_issue e) (ok_issue e) db in
        (db', match r with Ok toks => toks | Err _ => [] end)
    | toks => (db, toks)
    end in
  let main := match find_first (λ t, bool_decide (tr_Role (dt_Row t) = role)) toks with Some t => dt_Token t | None => "" end in
  (db, {| h_DeviceID := pd_DeviceID dev; h_Role := role; h_DeviceToken := main; h_Tokens := toks; h_Protocol := protocol |}).

(** What a device that is not paired with its key asks for. *)
Definition pending_of (ip : string) (p : ConnectParams) (d : DeviceIdentity) : PendingPairing :=
  {| pp_RequestID := ""; pp_DeviceID := id_ID d;
     pp_Info := {| di_PublicKey := id_PublicKey d; di_DisplayName := cp_DisplayName p; di_Platform := cp_Platform p;
                   di_DeviceFamily := cp_DeviceFamily p; di_ClientID := cp_ClientID p; di_ClientMode := cp_Mode p |};
     pp_Role := role_of p; pp_Scopes := cp_Scopes p; pp_RemoteIP := ip; pp_CreatedAtMs := 0 |}.

Definition request_pairing (e : Env) (o : ServerOptions) (ip : string) (p : ConnectParams) (d : DeviceIdentity) (db : DB) : DB * result PairedDevice refusal :=
  match CreatePending (pending_of ip p d) (t_create e) (t_cutoff e) (r_request e) (ok_create e) db with
  | (db, Err _) => (db, Err PairingStoreError)
  | (db, Ok reqID) =>
      if AutoApprove o then
        match Approve reqID [role_of p] (Some (cp_Scopes p)) (t_read e) (t_approve e) (r_approve e) (ok_approve e) db with
        | (db, Ok (dev, _)) => (db, Ok dev)
        | (db, Err _) => (db, Err (PairingRequired reqID))
        end
      else (db, Err (PairingRequired reqID))
  end.

(** The pairing decision: the paired device, or the refusal. *)
Definition pairing (e : Env) (o : ServerOptions) (ip : string) (p : ConnectParams) (d : DeviceIdentity) (db : DB) : DB * result PairedDevice refusal :=
  match (if ok_read e then GetPaired (id_ID d) db else Err DBError) with
  | Err _ => (db, Err PairingStoreError)
  | Ok (Some dev) => if bool_decide (di_PublicKey (dr_Info (pd_Row dev)) = id_PublicKey d) then (db, Ok dev) else request_pairing e o ip p d db
  | Ok None => request_pairing e o ip p d db
  end.

(** The gateway's authentication, when a secret is configured. *)
Definition gateway_auth (e : Env) (o : ServerOptions) (ip : string) (p : ConnectParams) (db : DB) (t : authThrottle)
    : authThrottle * option refusal :=
  if bool_decide (SharedToken o = "") && bool_decide (WordToken o = "") then (t, None)
  else
    let wait := retryAfter t (t_retry e) ip in
    if 0 <? wait then (t, Some (RateLimited wait))
    else if authorizeGateway e o db p then (t, None)
    else ((fail t (t_fail e) ip).1, Some Unauthorized).

(** The handshake after the gateway's authentication. *)
Definition identify (e : Env) (o : ServerOptions) (ip nonce : string) (p : ConnectParams) (protocol : Z) (db : DB) : DB * result Hello refusal :=
  match cp_Device p with
  | None => (db, Err IdentityNeeded)
  | Some d =>
      match verifyDeviceIdentity nonce (t_verify e) p d with
      | Some err => (db, Err (DeviceAuthFailed err))
      | None =>
          match pairing e o ip p d db with
          | (db, Err r) => (db, Err r)
          | (db, Ok dev) =>
              let db := (UpdateLastSeen (pd_DeviceID dev) (t_seen e) (ok_seen e) db).1 in
              let '(db, hello) := buildHelloOk e dev p protocol db in
              (db, Ok hello)
          end
      end
  end.

(** [handshake] from the decoded parameters of the connect request on. *)
Definition handshake (e : Env) (o : ServerOptions) (ip nonce : string) (p : ConnectParams) (t : authThrottle) (db : DB)
    : authThrottle * DB * result Hello refusal :=
  let protocol := NegotiateProtocol (cp_MinProtocol p) (cp_MaxProtocol p) (bool_decide (cp_Mode p = "probe")) in
  if protocol =? 0 then (t, db, Err ProtocolMismatch)
  else
    match gateway_auth e o ip p db t with
    | (t, Some r) => (t, db, Err r)
    | (t, None) => let '(db, r) := identify e o ip nonce p protocol db in (t, db, r)
    end.

(** [stillAuthorized]: a connection of a device, with the tokens it holds. *)
Definition stillAuthorized (db : DB) (deviceID : string) (toks : list string) : bool :=
  match GetPaired deviceID db with
  | Ok (Some _) => existsb (λ tok, match TokenByValue tok db with Some dt => bool_decide (tr_DeviceID (dt_Row dt) = deviceID) | None => false end) toks
  | _ => false
  end.
End handshake.

(** ** How many secrets an address can try *)

Section guesses.
Context {SH : Sha256} {CR : DeviceCrypto}.

Record Connect := { c_env : Env; c_opts : ServerOptions; c_ip : string; c_nonce : string; c_params : ConnectParams }.

(** Handshakes one after the other: the addresses, and times, whose credentials were
    found to be wrong. *)
Fixpoint wrong_guesses (l : list Connect) (t : authThrottle) (db : DB) : list (string * Z) :=
  match l with
  | [] => []
  | c :: rest =>
      match handshake (c_env c) (c_opts c) (c_ip c) (c_nonce c) (c_params c) t db with
      | (t', db', Err Unauthorized) => (c_ip c, t_fail (c_env c)) :: wrong_guesses rest t' db'
      | (t', db', _) => wrong_guesses rest t' db'
      end
  end.

(** The clock does not go back. *)
Fixpoint clocks_ordered (from : Z) (l : list Connect) : Prop :=
  match l with
  | [] => True
  | c :: rest => from ≤ t_retry (c_env c) ∧ t_retry (c_env c) ≤ t_fail (c_env c) ∧ clocks_ordered (t_fail (c_env c)) rest
  end.

Definition newAuthThrottle (set : string → bool) : authThrottle := {| byIP := ∅; exempt := set; lastPrune := GoTime.zero_time |}.

Lemma pairing_not_unauthorized e o ip p d db db' r : pairing e o ip p d db = (db', Err r) → r ≠ Unauthorized.
Proof.
  assert (Hreq : request_pairing e o ip p d db = (db', Err r) → r ≠ Unauthorized).
  { unfold request_pairing. destruct (CreatePending _ _ _ _ _ _) as [db1 [reqID|]]; [|by intros [= _ <-]].
    destruct (AutoApprove o); [|by intros [= _ <-]]. destruct (Approve _ _ _ _ _ _ _ _) as [db2 [[dev toks]|]]; [done|by intros [= _ <-]]. }
  unfold pairing. destruct (if ok_read e then _ else _) as [[dev|]|]; [|done|by intros [= _ <-]]. by destruct (bool_decide _).
Qed.

Lemma identify_not_unauthorized e o ip nonce p protocol db : (identify e o ip nonce p protocol db).2 ≠ Err Unauthorized.
Proof.
  unfold identify. destruct (cp_Device p) as [d|]; [|done]. destruct (verifyDeviceIdentity _ _ _ _); [done|].
  destruct (pairing e o ip p d db) as [db1 [dev|r]] eqn:Hp; [by destruct (buildHelloOk _ _ _ _ _)|].
  intros [= ->]. by apply pairing_not_unauthorized in Hp.
Qed.

(** A handshake touches the throttle only to count a failure, and then the address
    was not locked out. *)
Lemma handshake_throttle e o ip nonce p t db t' db' r : handshake e o ip nonce p t db = (t', db', r) →
  (r = Err Unauthorized ∧ retryAfter t (t_retry e) ip ≤ 0 ∧ t' = (fail t (t_fail e) ip).1) ∨ (r ≠ Err Unauthorized ∧ t' = t).
Proof.
  unfold handshake. destruct (_ =? 0); [intros [= <- <- <-]; by right|]. unfold gateway_auth.
  pose proof (identify_not_unauthorized e o ip nonce p (NegotiateProtocol (cp_MinProtocol p) (cp_MaxProtocol p) (bool_decide (cp_Mode p = "probe"))) db) as Hi.
  destruct (identify _ _ _ _ _ _ _) as [db1 r1]. destruct (_ && _); [intros [= <- <- <-]; by right|].
  case_if; [intros [= <- <- <-]; by right|]. destruct (authorizeGateway _ _ _ _); intros [= <- <- <-]; [by right|]. left. split_and!; [done| |done]. zb. lia.
Qed.


(** *** The failures of one address in one window *)

Section window.
Context (ip : string) (w : Z).

(** A failure that counts for the window from [w] on. *)
Definition in_window (f : Z) : bool := (w <=? f) && (f <? w + DeviceAuthFailWindow).

(** What the address' entry says of [n] failures in the window, while the window
    lasts: [L] lockouts began in it, each longer than all before it together, and
    each took five failures. *)
Definition window_ok (t : authThrottle) (n : nat) : Prop :=
  let st := entry t ip in
  exempt t ip = false ∧ (length (failures st) < DeviceAuthFailThreshold)%nat ∧
  ((0 < n)%nat → is_Some (byIP t !! ip) ∧ w ≤ last_trouble st) ∧
  ∃ L, (L ≤ 4)%nat ∧ (n ≤ 5 * L + length (keep (Z.leb w) (failures st)))%nat ∧ (L ≤ lockouts st)%nat ∧
    (L = 4%nat → keep (Z.leb w) (failures st) = []) ∧
    ((0 < L)%nat → w + (2 ^ Z.of_nat L - 1) * DeviceAuthLockoutMin ≤ lockedUntil st).

Lemma doubled_mono n k l : 0 < l → doubled n l ≤ doubled (n + k) l.
Proof.
  revert l. induction n as [|n IH]; intros l Hl; cbn [doubled Nat.add].
  - revert l Hl. induction k as [|k IHk]; intros l Hl; cbn [doubled]; [lia|]. case_if; [|lia]. specialize (IHk (l * 2)). lia.
  - case_if; [|lia]. apply IH. lia.
Qed.

(** The lockout after [L ≤ 3] earlier ones, or more. *)
Lemma lockout_length n L : (L ≤ n)%nat → (L ≤ 3)%nat →
  2 ^ Z.of_nat L * DeviceAuthLockoutMin ≤ Z.min (doubled n DeviceAuthLockoutMin) DeviceAuthLockoutMax.
Proof.
  intros Hn HL. pose proof (doubled_mono L (n - L) DeviceAuthLockoutMin ltac:(done)) as Hd. replace (L + (n - L))%nat with n in Hd by lia.
  assert (Hc : 2 ^ Z.of_nat L * DeviceAuthLockoutMin ≤ Z.min (doubled L DeviceAuthLockoutMin) DeviceAuthLockoutMax); [|lia].
  do 4 (destruct L as [|L]; [by vm_compute|]). lia.
Qed.

Lemma window_ok_le t n : window_ok t n → (n ≤ 20)%nat.
Proof.
  intros (_ & Hlen & _ & L & HL & Hn & _ & H4 & _). destruct (decide (L = 4%nat)) as [->|].
  - rewrite (H4 eq_refl) in Hn. simpl in Hn. lia.
  - pose proof (sublist_length _ _ (keep_sublist (Z.leb w) (failures (entry t ip)))).
    unfold DeviceAuthFailThreshold in Hlen. lia.
Qed.

(** Pruning forgets no entry with a failure in the window. *)
Lemma window_ok_prune t n f : window_ok t n → f < w + DeviceAuthFailWindow → window_ok (prune t f) n.
Proof.
  intros (He & Hlen & Hsome & HL) Hf. unfold prune. case_if; [by split_and!|].
  unfold window_ok, entry. cbn [byIP exempt]. set (P := λ kv : string * authFailState, _ = true).
  assert (Hkeep : filter P (byIP t) !! ip = byIP t !! ip ∨ (filter P (byIP t) !! ip = None ∧ n = 0%nat)).
  { destruct (byIP t !! ip) as [st|] eqn:Ht; [|left; apply map_lookup_filter_None; by left].
    destruct (decide (P (ip, st))) as [Hp|Hp]; [left; apply map_lookup_filter_Some; by split|].
    right. split; [apply map_lookup_filter_None; right; intros st' [= <-]%(eq_trans (eq_sym Ht)); done|].
    destruct n; [done|]. destruct (Hsome ltac:(lia)) as [_ Hw]. unfold entry in Hw. rewrite Ht in Hw.
    change (w ≤ last_trouble st) in Hw. destruct Hp. subst P. apply GoTime.after_iff. unfold GoTime.add. cbn [snd]. lia. }
  destruct Hkeep as [->|[-> ->]]; [by split_and!|]. cbn [default failures lockouts lockedUntil length keep]. unfold DeviceAuthFailThreshold. split_and!; [done|lia|lia|]. exists 0%nat. split_and!; simpl; try lia; done.
Qed.

Lemma prune_entry t f : entry (prune t f) ip = entry t ip ∨ lockouts (entry (prune t f) ip) = 0%nat.
Proof.
  unfold prune. case_if; [by left|]. unfold entry. cbn [byIP]. set (P := λ kv : string * authFailState, _ = true).
  destruct (filter P (byIP t) !! ip) as [st|] eqn:Hst; [|by right]. apply map_lookup_filter_Some in Hst as [-> _]. by left.
Qed.

(** An address that may try is not locked out. *)
Lemma retryAfter_unlocked t r f : exempt t ip = false → r ≤ f → retryAfter t r ip ≤ 0 →
  lockouts (entry (prune t f) ip) = 0%nat ∨ lockedUntil (entry (prune t f) ip) ≤ f.
Proof.
  intros He Hrf Hr. destruct (prune_entry t f) as [-> | ?]; [|by left]. unfold retryAfter in Hr. rewrite He in Hr. unfold entry.
  destruct (byIP t !! ip) as [st|]; [right|by left]. change (lockedUntil st ≤ f). revert Hr. cbv zeta. case_if; zb; [lia|]. intros _.
  unfold GoTime.sub, min_int64, max_int64 in *. lia.
Qed.

(** What the filter of a failure leaves of the window's. *)
Lemma keep_window l f : f < w + DeviceAuthFailWindow →
  keep (Z.leb w) (keep (λ g, GoTime.after g (GoTime.add f (- DeviceAuthFailWindow))) l ++ [f]) =
  keep (Z.leb w) l ++ (if in_window f then [f] else []).
Proof.
  intros Hf. rewrite keep_app, keep_keep. f_equal.
  - apply keep_ext. intros g. unfold GoTime.after, GoTime.add. destruct (w <=? g) eqn:Hg; [|by rewrite andb_false_r].
    zb. rewrite andb_true_r. apply Z.ltb_lt. lia.
  - unfold in_window. rewrite (proj2 (Z.ltb_lt f (w + DeviceAuthFailWindow)) Hf), andb_true_r. simpl. by destruct (w <=? f).
Qed.

Lemma last_trouble_snoc l f n d : last_trouble {| failures := l ++ [f]; lockouts := n; lockedUntil := d |} = Z.max f d.
Proof. unfold last_trouble. cbn [failures lockedUntil]. rewrite last_snoc. unfold GoTime.after. case_if; zb; lia. Qed.

Lemma entry_put m e p st b : entry ({| byIP := <[ip := st]> m; exempt := e; lastPrune := p |}, b : Z * bool).1 ip = st.
Proof. unfold entry. cbn [fst byIP]. by rewrite lookup_insert_eq. Qed.

Lemma window_ok_0 t : exempt t ip = false → (length (failures (entry t ip)) < DeviceAuthFailThreshold)%nat → window_ok t 0.
Proof. intros He Hl. split_and!; [done..|lia|]. exists 0%nat. split_and!; simpl; lia. Qed.

(** The lockouts of the window when its address may try. *)
Lemma lockouts_while_unlocked t n L f : window_ok t n → f < w + DeviceAuthFailWindow →
  lockouts (entry t ip) = 0%nat ∨ lockedUntil (entry t ip) ≤ f → w ≤ f → (L ≤ 4)%nat → (L ≤ lockouts (entry t ip))%nat →
  ((0 < L)%nat → w + (2 ^ Z.of_nat L - 1) * DeviceAuthLockoutMin ≤ lockedUntil (entry t ip)) →
  (L ≤ 3)%nat ∧ w + (2 ^ Z.of_nat L - 1) * DeviceAuthLockoutMin ≤ f.
Proof.
  intros _ Hf Hlock Hw HL Hlo Hlu.
  unfold DeviceAuthFailWindow, DeviceAuthLockoutMin, GoTime.minute, GoTime.second, GoTime.millisecond in *.
  destruct (decide (0 < L)%nat) as [H0|H0]; [|replace L with 0%nat by lia; split; simpl; lia].
  specialize (Hlu H0). destruct Hlock as [?|Hlock]; [lia|]. split; [|lia].
  destruct (decide (L = 4%nat)) as [->|]; [exfalso; simpl in Hlu; lia|lia].
Qed.

(** A failure of the address. *)
Lemma window_ok_fail t n r f : window_ok t n → f < w + DeviceAuthFailWindow → (n = 0%nat ∨ w ≤ f) → r ≤ f → retryAfter t r ip ≤ 0 →
  window_ok (fail t f ip).1 (if in_window f then S n else n).
Proof.
  intros Hok Hf Hnw Hrf Hr. pose proof (retryAfter_unlocked t r f (proj1 Hok) Hrf Hr) as Hlock.
  unfold fail. rewrite (proj1 Hok). apply (window_ok_prune t n f) in Hok; [|done]. generalize dependent (prune t f). clear t Hr. intros t Hok Hlock.
  pose proof (keep_window (failures (entry t ip)) f Hf) as Hk.
  set (recent := keep _ (failures (entry t ip)) ++ [f]) in *.
  unfold in_window in *. rewrite (proj2 (Z.ltb_lt f (w + DeviceAuthFailWindow)) Hf), andb_true_r in *.
  destruct (w <=? f) eqn:Hw; zb.
  - pose proof Hok as (He & Hlen & Hsome & L & HL & Hn & Hlo & H4 & Hlu).
    destruct (lockouts_while_unlocked t n L f Hok Hf Hlock Hw HL Hlo Hlu) as [HL3 HLf].
    pose proof (lockout_length (lockouts (entry t ip)) L Hlo HL3) as Hll.
    assert (Hlr := f_equal length Hk). rewrite length_app in Hlr. simpl in Hlr.
    case_bool_decide as Hc; unfold window_ok; rewrite entry_put; cbn [fst byIP exempt]; rewrite lookup_insert_eq; cbn [failures lockouts lockedUntil];
      (split; [done|]); (split; [first [done|unfold DeviceAuthFailThreshold; simpl; lia]|]); (split; [intros _; split; [by eexists|]|]).
    + unfold recent. rewrite last_trouble_snoc. lia.
    + exists L. split_and!; [lia|lia|done|lia|done].
    + change (w ≤ f + Z.min (doubled (lockouts (entry t ip)) DeviceAuthLockoutMin) DeviceAuthLockoutMax).
      assert (0 ≤ 2 ^ Z.of_nat L * DeviceAuthLockoutMin) by (apply Z.mul_nonneg_nonneg; [apply Z.pow_nonneg; lia|done]). lia.
    + exists (S L). cbn [keep length]. split_and!; [lia| |lia|done|].
      * pose proof (sublist_length _ _ (keep_sublist (Z.leb w) (failures (entry t ip)))). unfold DeviceAuthFailThreshold in Hlen. lia.
      * intros _. unfold GoTime.add. rewrite Nat2Z.inj_succ, Z.pow_succ_r by lia. lia.
  - destruct Hnw as [->|]; [|lia]. destruct Hok as (He & _).
    case_bool_decide as Hc; apply window_ok_0; try done; rewrite entry_put;
      [done|unfold DeviceAuthFailThreshold; simpl; lia].
Qed.

(** A failure of another address. *)
Lemma window_ok_other t n f ip' : ip' ≠ ip → window_ok t n → f < w + DeviceAuthFailWindow → window_ok (fail t f ip').1 n.
Proof.
  intros Hne Hok Hf. unfold fail. destruct (exempt t ip'); [done|]. apply (window_ok_prune t n f) in Hok; [|done].
  case_bool_decide; unfold window_ok, entry in *; cbn [fst byIP exempt]; by rewrite lookup_insert_ne.
Qed.

(** The failures of the address that fall in the window. *)
Definition in_window_of (g : string * Z) : bool := bool_decide (g.1 = ip) && in_window g.2.

Lemma guesses_late l : ∀ from t db, w + DeviceAuthFailWindow ≤ from → clocks_ordered from l → keep in_window_of (wrong_guesses l t db) = [].
Proof.
  induction l as [|c l IH]; intros from t db Hw; [done|]. intros (H1 & H2 & Hord). cbn [wrong_guesses].
  destruct (handshake _ _ _ _ _ _ _) as [[t' db'] r]. specialize (IH (t_fail (c_env c)) t' db' ltac:(lia) Hord).
  destruct r as [|[]]; try done. cbn [keep]. unfold in_window_of at 1. cbn [fst snd]. unfold in_window.
  destruct (bool_decide (c_ip c = ip)); cbn [andb]; [|done]. case_if; [zb; lia|done].
Qed.

Lemma guesses_in_window l : ∀ from t db n, clocks_ordered from l → (n = 0%nat ∨ w ≤ from) → window_ok t n →
  (n + length (keep in_window_of (wrong_guesses l t db)) ≤ 20)%nat.
Proof.
  induction l as [|c l IH]; intros from t db n Hord Hn Hok; [pose proof (window_ok_le t n Hok); simpl; lia|].
  pose proof Hord as (H1 & H2 & Hord'). 
  destruct (decide (t_fail (c_env c) < w + DeviceAuthFailWindow)) as [Hf|Hf].
  2:{ pose proof (window_ok_le t n Hok). cbn [wrong_guesses].
      destruct (handshake _ _ _ _ _ _ _) as [[t' db'] r]. pose proof (guesses_late l (t_fail (c_env c)) t' db' ltac:(lia) Hord') as Hl.
      destruct r as [|[]]; rewrite ?Hl; simpl; try lia. unfold in_window_of at 1, in_window. cbn [fst snd]. rewrite Hl.
      destruct (bool_decide _); cbn [andb]; [|simpl; lia]. case_if; [zb; lia|simpl; lia]. }
  cbn [wrong_guesses].
  destruct (handshake _ _ _ _ _ _ _) as [[t' db'] r] eqn:Hh. apply handshake_throttle in Hh as [(-> & Hr & ->)|[Hr ->]].
  - cbn [keep]. unfold in_window_of at 1. cbn [fst snd]. case_bool_decide as Hip; cbn [andb].
    + rewrite Hip in Hr |- *. pose proof (window_ok_fail t n (t_retry (c_env c)) (t_fail (c_env c)) Hok Hf ltac:(lia) H2 Hr) as Hok'.
      assert (Hn' : (if in_window (t_fail (c_env c)) then S n else n) = 0%nat ∨ w ≤ t_fail (c_env c)).
      { unfold in_window. destruct (w <=? _) eqn:Hw; zb; [by right|]. left. simpl. lia. }
      specialize (IH _ _ db' _ Hord' Hn' Hok'). destruct (in_window _); simpl; lia.
    + apply (IH (t_fail (c_env c))); [done|lia|]. by apply window_ok_other.
  - assert (Hgoal : (n + length (keep in_window_of (wrong_guesses l t db')) ≤ 20)%nat) by (apply (IH (t_fail (c_env c))); [done|lia|done]).
    by destruct r as [|[]].
Qed.
End window.

(** Secrets cannot be guessed fast. Whatever connects, from whatever addresses,
    an address that is not exempt is told that its credentials are wrong at most
    twenty times in any ten minutes, as long as one handshake checks and counts
    before the next; once locked out it is refused without a look at what it
    presents. *)
Theorem guesses_bounded l set db ip w (Hip : set ip = false) (Hord : clocks_ordered 0 l) :
  (length (keep (in_window_of ip w) (wrong_guesses l (newAuthThrottle set) db)) ≤ 20)%nat.
Proof.
  apply (guesses_in_window ip w l 0 _ db 0 Hord); [by left|]. apply window_ok_0; [done|].
  unfold entry. cbn [newAuthThrottle byIP]. rewrite lookup_empty. unfold DeviceAuthFailThreshold. simpl. lia.
Qed.
End guesses.

(** ** What an accepted handshake shows *)

Section sound.
Context {SH : Sha256} {CR : DeviceCrypto}.

Lemma TokenByValue_token tok db t : TokenByValue tok db = Some t → dt_Token t = tok.
Proof.
  unfold TokenByValue. destruct (tokens db !! Hash tok) as [row|]; [|done]. destruct (tr_RevokedAtMs row) as [r|]; [destruct (0 <? r); [done|]|]; by intros [= <-].
Qed.

Lemma UpdateLastSeen_tokens d ms ok db : tokens (UpdateLastSeen d ms ok db).1 = tokens db.
Proof. unfold UpdateLastSeen. by destruct ok. Qed.

Lemma UpdateLastSeen_paired d ms ok db d' row : paired db !! d' = Some row →
  ∃ row', paired (UpdateLastSeen d ms ok db).1 !! d' = Some row' ∧ dr_Info row' = dr_Info row.
Proof.
  intros H. unfold UpdateLastSeen. destruct ok; [|by exists row]. cbn [negb fst paired with_paired].
  destruct (decide (d' = d)) as [->|Hne]; [rewrite lookup_alter_eq, H; by eexists|rewrite lookup_alter_ne by done; by exists row].
Qed.

Lemma IssueTokens_ok d roles scopes now raws ok db db' toks : IssueTokens d roles scopes now raws ok db = (db', Ok toks) →
  Forall (λ t, TokenByValue (dt_Token t) db' = Some t ∧ tr_DeviceID (dt_Row t) = d) toks.
Proof.
  unfold IssueTokens. destruct (insertTokens _ _ _ _ _ _) as [[m ts]|] eqn:Hi; [|done]. destruct ok; [|done]. intros [= <- <-].
  apply insertTokens_spec in Hi as (Hl & Hf & _). rewrite Forall_forall in *. intros t Ht. destruct (Hf t Ht) as (Hd & Hr & _).
  split; [|done]. unfold TokenByValue. cbn [tokens with_tokens]. rewrite (proj2 (Hl (Hash (dt_Token t)) (dt_Row t))) by (right; by exists t).
  rewrite Hr. by destruct t.
Qed.

Lemma IssueTokens_paired d roles scopes now raws ok db : paired (IssueTokens d roles scopes now raws ok db).1 = paired db.
Proof. unfold IssueTokens. destruct (insertTokens _ _ _ _ _ _) as [[m ts]|]; [|done]. by destruct ok. Qed.

(** The request that [CreatePending] answers with is the caller's. *)
Lemma CreatePending_request p now cutoff raw ok db db' id q read_now :
  CreatePending p now cutoff raw ok db = (db', Ok id) → getPending id read_now db' = Ok q →
  pp_DeviceID q = pp_DeviceID p ∧ pp_Info q = pp_Info p.
Proof.
  unfold CreatePending. destruct (if negb _ then _ else _) as [id'|]; [|done]. destruct (negb ok || existsb _ _) eqn:Hb; [done|].
  intros [= <- ->] Hg. apply orb_false_iff in Hb as [_ Hfresh]. revert Hg. unfold getPending. cbn [pendings with_pendings].
  destruct (find_first _ _) as [q'|] eqn:Hf; [|done]. intros [= ->]. apply find_first_Some in Hf as (l1 & l2 & Heq & Hp & _).
  apply andb_true_iff in Hp as [Hid _]. assert (Hi : q ∈ l1 ++ q :: l2) by (apply elem_of_app; right; by left). rewrite <- Heq in Hi. clear Heq. unfold keep_newest in Hi.
  apply elem_of_keep in Hi as [[Hi _]%elem_of_keep _]. apply elem_of_app in Hi as [Hi|Hi%list_elem_of_singleton]; [|by subst q].
  assert (existsb (of_request id) (keep (λ q0, negb (of_device (pp_DeviceID p) q0)) (pendings db)) = true); [|congruence].
  apply existsb_Exists. by exists q.
Qed.

Lemma Approve_ok id roles scopes rnow now raws ok db db' dev toks : Approve id roles scopes rnow now raws ok db = (db', Ok (dev, toks)) →
  ∃ q row, getPending id rnow db = Ok q ∧ pd_DeviceID dev = pp_DeviceID q ∧ paired db' !! pp_DeviceID q = Some row ∧ dr_Info row = pp_Info q.
Proof.
  unfold Approve. destruct (getPending id rnow db) as [q|]; [|done]. unfold approve_tx. destruct (insertTokens _ _ _ _ _ _) as [[m ts]|]; [|done].
  destruct ok; [|done]. intros [= <- <- <-]. eexists q, _. split_and!; [done|done|cbn [paired]; by rewrite lookup_insert_eq|].
  by destruct (paired db !! pp_DeviceID q).
Qed.

Lemma request_pairing_ok e o ip p d db db' dev : request_pairing e o ip p d db = (db', Ok dev) →
  AutoApprove o = true ∧ pd_DeviceID dev = id_ID d ∧ ∃ row, paired db' !! id_ID d = Some row ∧ di_PublicKey (dr_Info row) = id_PublicKey d.
Proof.
  unfold request_pairing. destruct (CreatePending _ _ _ _ _ _) as [db1 [reqID|]] eqn:Hc; [|done]. destruct (AutoApprove o); [|done].
  destruct (Approve _ _ _ _ _ _ _ _) as [db2 [[dev' toks]|]] eqn:Ha; [|done]. intros [= -> ->].
  apply Approve_ok in Ha as (q & row & Hg & Hd & Hr & Hinfo). destruct (CreatePending_request _ _ _ _ _ _ _ _ _ _ Hc Hg) as [Hd' Hi'].
  cbn [pending_of pp_DeviceID pp_Info] in Hd', Hi'. rewrite Hd' in *. split_and!; [done..|]. exists row. by rewrite Hinfo, Hi'.
Qed.

Lemma pairing_ok e o ip p d db db' dev : pairing e o ip p d db = (db', Ok dev) →
  pd_DeviceID dev = id_ID d ∧ (∃ row, paired db' !! id_ID d = Some row ∧ di_PublicKey (dr_Info row) = id_PublicKey d) ∧
  (AutoApprove o = false → db' = db).
Proof.
  unfold pairing. destruct (ok_read e); [|done]. unfold GetPaired. destruct (paired db !! id_ID d) as [row|] eqn:Hrow.
  - destruct (parseAllowedAgents (dr_Allowed row)) as [l|]; cbn; [|done]. case_bool_decide as Hk.
    + intros [= <- <-]. split_and!; [done| |done]. by exists row.
    + intros (Ha & Hd & Hr)%request_pairing_ok. split_and!; [done..|]. by rewrite Ha.
  - intros (Ha & Hd & Hr)%request_pairing_ok. split_and!; [done..|]. by rewrite Ha.
Qed.

Lemma presented_ok e d db p t : t ∈ presentedDeviceTokens e d db p → TokenByValue (dt_Token t) db = Some t ∧ tr_DeviceID (dt_Row t) = d.
Proof.
  unfold presentedDeviceTokens. destruct (cp_Auth p) as [a|]; [|by intros ?%elem_of_nil]. intros (tok & _ & H)%list_elem_of_omap. revert H.
  case_bool_decide; [done|]. unfold token_found. destruct (ok_token e); [|done]. destruct (TokenByValue tok db) as [dt|] eqn:Ht; [|done].
  case_bool_decide; [|done]. intros [= <-]. by rewrite (TokenByValue_token _ _ _ Ht).
Qed.

Lemma buildHelloOk_ok e dev p protocol db db' h : buildHelloOk e dev p protocol db = (db', h) →
  h_DeviceID h = pd_DeviceID dev ∧ paired db' = paired db ∧
  Forall (λ t, TokenByValue (dt_Token t) db' = Some t ∧ tr_DeviceID (dt_Row t) = pd_DeviceID dev) (h_Tokens h).
Proof.
  unfold buildHelloOk. destruct (presentedDeviceTokens e (pd_DeviceID dev) db p) as [|t0 ts] eqn:Hp.
  - destruct (IssueTokens _ _ _ _ _ _ _) as [db1 r] eqn:Hi. intros [= <- <-]. cbn [h_DeviceID h_Tokens]. split; [done|]. split.
    + pose proof (IssueTokens_paired (pd_DeviceID dev) (dr_Roles (pd_Row dev)) (dr_Scopes (pd_Row dev)) (t_issue e) (r_issue e) (ok_issue e) db) as Hpd.
      by rewrite Hi in Hpd.
    + destruct r as [toks|]; [|constructor]. by eapply IssueTokens_ok.
  - intros [= <- <-]. cbn [h_DeviceID h_Tokens]. split_and!; [done..|]. apply Forall_forall. intros t Ht.
    apply (presented_ok e _ _ p). by rewrite Hp.
Qed.

Lemma verifyDeviceIdentity_ok nonce now p d : verifyDeviceIdentity nonce now p d = None →
  id_Nonce d = nonce ∧ Z.abs (now - id_SignedAt d) ≤ signatureSkewMs ∧
  ∃ pub sig, DecodeKeyOrSig (id_PublicKey d) = Some pub ∧ id_ID d = DeviceIDFromPublicKey pub ∧ DecodeKeyOrSig (id_Signature d) = Some sig ∧
    ∃ payload, payload ∈ [BuildDeviceAuthPayloadV3 (auth_input p d); BuildDeviceAuthPayloadV2 (auth_input p d)] ∧
      ed25519_verify pub (bytes payload) sig = true.
Proof.
  unfold verifyDeviceIdentity. case_bool_decide as Hn; [|done]. cbn [negb]. case_if; [done|]. destruct (DecodeKeyOrSig (id_PublicKey d)) as [pub|] eqn:Hk; [|done].
  case_bool_decide as Hid; [|done]. cbn [negb]. destruct (VerifyConnectSignature _ _ _) eqn:Hv; [|done]. intros _.
  split; [done|]. split; [zb; lia|]. unfold VerifyConnectSignature, VerifyDeviceSignature in Hv. rewrite Hk in Hv. case_bool_decide; [|done].
  destruct (DecodeKeyOrSig (id_Signature d)) as [sig|]; [|done]. exists pub, sig. split_and!; [done..|].
  apply orb_true_iff in Hv as [Hv|Hv]; eexists; (split; [|exact Hv]); [left|right; left].
Qed.

(** Somebody who may connect: who presents a secret of the gateway, or a live token
    of a device. *)
Definition has_credentials (o : ServerOptions) (db : DB) (p : ConnectParams) : Prop :=
  ∃ a, cp_Auth p = Some a ∧
    ((∃ secret, secret ∈ [SharedToken o; WordToken o] ∧ secret ≠ "" ∧ au_Token a ≠ "" ∧ Sum256 (bytes (au_Token a)) = Sum256 (bytes secret)) ∨
     (∃ tok, tok ∈ [au_DeviceToken a; au_Token a] ∧ tok ≠ "" ∧ is_Some (TokenByValue tok db))).

Lemma authorizeGateway_ok e o db p : authorizeGateway e o db p = true → has_credentials o db p.
Proof.
  unfold authorizeGateway, has_credentials. destruct (cp_Auth p) as [a|]; [|done]. intros H. exists a. split; [done|]. apply orb_true_iff in H as [H|H].
  - left. apply andb_true_iff in H as [Ha (s & Hs & Hb)%existsb_Exists].
    apply andb_true_iff in Hb as [Hb Hd]. apply negb_true_iff, bool_decide_eq_false in Ha, Hb. apply bool_decide_eq_true in Hd. by exists s.
  - right. apply existsb_Exists in H as (tok & Htok & Hb). apply andb_true_iff in Hb as [Hb Hf]. apply negb_true_iff, bool_decide_eq_false in Hb.
    exists tok. split_and!; [done..|]. unfold token_found in Hf. destruct (ok_token e); [|done]. destruct (TokenByValue tok db); [by eexists|done].
Qed.

(** C14. Only a device that proves its key, for an operator who let it in, gets a
    connection. When a handshake is accepted: with a secret configured, the address
    was not locked out and presented a secret or the live token of a device; the
    device signed this connection's nonce within five minutes of now, with the key
    its id is the digest of; it is paired with that key, and already was unless the
    gateway approves by itself; and the hello it gets is for that device and carries
    only tokens of it which are accepted afterwards. *)
Theorem handshake_sound e o ip nonce p t db t' db' h (Hh : handshake e o ip nonce p t db = (t', db', Ok h)) :
  (SharedToken o ≠ "" ∨ WordToken o ≠ "" → retryAfter t (t_retry e) ip ≤ 0 ∧ has_credentials o db p) ∧
  ∃ d pub sig payload row, cp_Device p = Some d ∧
    id_Nonce d = nonce ∧ Z.abs (t_verify e - id_SignedAt d) ≤ signatureSkewMs ∧
    DecodeKeyOrSig (id_PublicKey d) = Some pub ∧ id_ID d = DeviceIDFromPublicKey pub ∧ DecodeKeyOrSig (id_Signature d) = Some sig ∧
    payload ∈ [BuildDeviceAuthPayloadV3 (auth_input p d); BuildDeviceAuthPayloadV2 (auth_input p d)] ∧ ed25519_verify pub (bytes payload) sig = true ∧
    paired db' !! id_ID d = Some row ∧ di_PublicKey (dr_Info row) = id_PublicKey d ∧
    (AutoApprove o = false → ∃ row0, paired db !! id_ID d = Some row0 ∧ di_PublicKey (dr_Info row0) = id_PublicKey d) ∧
    h_DeviceID h = id_ID d ∧ Forall (λ tok, TokenByValue (dt_Token tok) db' = Some tok ∧ tr_DeviceID (dt_Row tok) = id_ID d) (h_Tokens h).
Proof.
  unfold handshake in Hh. destruct (_ =? 0); [done|]. destruct (gateway_auth e o ip p db t) as [t1 [r|]] eqn:Hg; [done|].
  destruct (identify _ _ _ _ _ _ _) as [db1 r] eqn:Hi. injection Hh as -> -> ->. split.
  - intros Hsec. unfold gateway_auth in Hg. destruct (bool_decide _ && bool_decide _) eqn:Hb.
    { apply andb_true_iff in Hb as [?%bool_decide_eq_true ?%bool_decide_eq_true]. tauto. }
    revert Hg. case_if; [done|]. destruct (authorizeGateway e o db p) eqn:Ha; [|done]. intros _. split; [zb; lia|]. by eapply authorizeGateway_ok.
  - clear Hg. unfold identify in Hi. destruct (cp_Device p) as [d|]; [|done]. destruct (verifyDeviceIdentity _ _ _ _) eqn:Hv; [done|].
    destruct (pairing e o ip p d db) as [db2 [dev|r]] eqn:Hp; [|done]. destruct (buildHelloOk _ _ _ _ _) as [db3 h'] eqn:Hb. injection Hi as -> ->.
    apply verifyDeviceIdentity_ok in Hv as (Hn & Hskew & pub & sig & Hk & Hid & Hsig & payload & Hpl & Hver).
    apply pairing_ok in Hp as (Hdev & (row & Hrow & Hpk) & Hauto). apply buildHelloOk_ok in Hb as (Hhd & Hpaired & Htoks).
    destruct (UpdateLastSeen_paired (pd_DeviceID dev) (t_seen e) (ok_seen e) _ _ _ Hrow) as (row' & Hrow' & Hinfo). rewrite <- Hpaired in Hrow'.
    exists d, pub, sig, payload, row'. rewrite Hdev in Hhd, Htoks. split_and!; try done; [by rewrite Hinfo|].
    intros Hf. rewrite (Hauto Hf) in Hrow. by exists row.
Qed.

(** A connection that holds tokens from its hello stays authorised until they end. *)
Lemma hello_authorized db d row toks : paired db !! d = Some row → is_ok (parseAllowedAgents (dr_Allowed row)) = true → toks ≠ [] →
  Forall (λ t, TokenByValue (dt_Token t) db = Some t ∧ tr_DeviceID (dt_Row t) = d) toks → stillAuthorized db d (map dt_Token toks) = true.
Proof.
  intros Hr Hok Hne Hf. unfold stillAuthorized, GetPaired. rewrite Hr. destruct (parseAllowedAgents _); [|done]. cbn.
  destruct toks as [|t toks]; [done|]. apply Forall_cons in Hf as [[Ht Hd] _]. cbn. by rewrite Ht, bool_decide_true.
Qed.
End sound.

(** ** A device that was removed *)

Section removed.
Context {SH : Sha256} {CR : DeviceCrypto}.

(** An approval that pairs a device. *)
Definition approves (o : store_op) (d : string) : bool :=
  match o with OApprove p _ _ _ _ _ => bool_decide (pp_DeviceID p = d) | _ => false end.

Lemma update_device_unpaired d' f ok db d : paired db !! d = None → paired (update_device d' f ok db).1 !! d = None.
Proof.
  intros H. unfold update_device. destruct ok; [|done]. cbn [negb]. destruct (paired db !! d') as [row|] eqn:Hr; [|done].
  cbn [fst paired with_paired]. rewrite lookup_insert_ne; [done|]. intros ->. congruence.
Qed.

(** Only an approval pairs a device. *)
Lemma apply_unpaired o db d : approves o d = false → paired db !! d = None → paired (apply o db).1 !! d = None.
Proof.
  intros Ho H. destruct o as [p now cutoff raw ok|id ok|p roles scopes now raws ok|d' roles scopes now raws ok|d' a ok|d' l ok|d' u ok|d' ms ok|d' ok];
    cbn [apply fst].
  - unfold CreatePending. destruct (if negb _ then _ else _); [|done]. by destruct (_ || _).
  - unfold Reject. destruct ok; [|done]. cbn [negb]. by destruct (existsb _ _).
  - cbn [approves] in Ho. apply bool_decide_eq_false in Ho. unfold approve_tx. destruct (insertTokens _ _ _ _ _ _) as [[m toks]|]; [|done].
    destruct ok; [|done]. cbn [negb fst paired]. by rewrite lookup_insert_ne.
  - pose proof (IssueTokens_paired d' roles scopes now raws ok db) as Hp. destruct (IssueTokens _ _ _ _ _ _ _) as [db' r]. cbn [fst] in *. by rewrite Hp.
  - by apply update_device_unpaired.
  - by apply update_device_unpaired.
  - unfold SetDeviceUser. destruct (negb _); [done|]. by apply update_device_unpaired.
  - unfold UpdateLastSeen. destruct ok; [|done]. cbn [negb fst paired with_paired].
    destruct (decide (d = d')) as [->|]; [by rewrite lookup_alter_eq, H|by rewrite lookup_alter_ne].
  - unfold RemovePaired. destruct ok; [|done]. cbn [fst paired]. rewrite lookup_delete_None. by right.
Qed.

Lemma run_unpaired ops : ∀ db d, Forall (λ o, approves o d = false) ops → paired db !! d = None → paired (run ops db) !! d = None.
Proof.
  induction ops as [|o ops IH]; intros db d Hf H; [done|]. apply Forall_cons in Hf as [Ho Hf]. apply IH; [done|]. by apply apply_unpaired.
Qed.

(** A live token of a device that was removed was handed out since. *)
Lemma live_since_removal before after d t : live_token (before ++ ORemove d true :: after) t → tr_DeviceID (dt_Row t) = d →
  ∃ a1 o a2, after = a1 ++ o :: a2 ∧ t ∈ (apply o (run (before ++ ORemove d true :: a1) empty_db)).2.
Proof.
  induction after as [|x after IH] using rev_ind; intros Hl Hd.
  - apply live_token_snoc in Hl as [Hin|[_ He]]; [by apply elem_of_nil in Hin|]. cbn in He. by rewrite Hd, bool_decide_true in He.
  - replace (before ++ ORemove d true :: after ++ [x]) with ((before ++ ORemove d true :: after) ++ [x]) in Hl by by rewrite <- app_assoc.
    apply live_token_snoc in Hl as [Hin|[Hl _]]; [by exists after, x, []|].
    destruct (IH Hl Hd) as (a1 & o & a2 & -> & Hin). exists a1, o, (a2 ++ [x]). split; [by rewrite <- app_assoc|done].
Qed.

(** Removing a device cuts it off. Whatever calls come before and after, none of
    its connections is authorised until an operator approves it again, whatever
    tokens they hold, even if a handshake that was under way issues it new ones;
    and afterwards only tokens that were handed out since are accepted for it. *)
Theorem removed_device_silent before after d :
  let db := run (before ++ ORemove d true :: after) empty_db in
  (Forall (λ o, approves o d = false) after → ∀ toks, stillAuthorized db d toks = false) ∧
  (∀ tok t, TokenByValue tok db = Some t → tr_DeviceID (dt_Row t) = d →
    ∃ a1 o a2 t', after = a1 ++ o :: a2 ∧ t' ∈ (apply o (run (before ++ ORemove d true :: a1) empty_db)).2 ∧ Hash (dt_Token t') = Hash tok).
Proof.
  split.
  - intros Hf toks. unfold stillAuthorized, GetPaired. rewrite store_run_app. cbn [run]. rewrite run_unpaired; [done|done|].
    cbn. by rewrite lookup_delete_eq.
  - intros tok t Ht Hd. pose proof (TokenByValue_token _ _ _ Ht) as <-. destruct t as [tok row]. cbn [dt_Token dt_Row] in *.
    apply TokenByValue_live in Ht as (t' & Hl & Hh & Hr). rewrite <- Hr in Hd.
    destruct (live_since_removal _ _ _ _ Hl Hd) as (a1 & o & a2 & ? & ?). by exists a1, o, a2, t'.
Qed.
End removed.

(** ** Concrete runs *)

Module DeviceExamples.
Open Scope string_scope.
#[local] Instance ex_sha : Sha256 := {| Sum256 := λ l, l |}.

(** A decoder that reads the bytes as they are, and signatures that repeat the key. *)
#[local] Instance ex_crypto : DeviceCrypto :=
  {| base64_decoders := [λ s, if bool_decide (s = "") then None else Some (bytes s)];
     ed25519_verify := λ pub _ sig, bool_decide (pub = sig) |}.

Definition ex_key : string := "0123456789abcdef0123456789abcdef".
Definition ex_id : string := EncodeToString (bytes ex_key).

Definition ex_info : DeviceInfo :=
  {| di_PublicKey := ex_key; di_DisplayName := "Laptop"; di_Platform := "linux"; di_DeviceFamily := ""; di_ClientID := "tui"; di_ClientMode := "node" |}.

Definition ex_env (now : Z) : Env :=
  {| t_retry := now; t_fail := now; t_verify := 5000; t_create := 5000; t_cutoff := 5000; t_read := 5000; t_approve := 5000; t_seen := 5000; t_issue := 5000;
     r_request := Some "req"; r_approve := [Some "tok-a"]; r_issue := [Some "tok-b"];
     ok_read := true; ok_token := true; ok_create := true; ok_approve := true; ok_seen := true; ok_issue := true |}.

Definition ex_opts : ServerOptions := {| SharedToken := "secret"; WordToken := ""; AutoApprove := false |}.

Definition ex_params (token : string) (dev : option DeviceIdentity) : ConnectParams :=
  {| cp_MinProtocol := 3; cp_MaxProtocol := 4; cp_ClientID := "tui"; cp_DisplayName := "Laptop"; cp_Platform := "linux"; cp_DeviceFamily := "";
     cp_Mode := "node"; cp_Role := "node"; cp_Scopes := []; cp_Device := dev;
     cp_Auth := Some {| au_Token := token; au_BootstrapToken := ""; au_DeviceToken := "" |} |}.

Definition ex_device : DeviceIdentity :=
  {| id_ID := ex_id; id_PublicKey := ex_key; id_Signature := ex_key; id_SignedAt := 4000; id_Nonce := "n1" |}.

Definition ex_db : DB :=
  {| pendings := []; tokens := ∅;
     paired := {[ ex_id := {| dr_Info := ex_info; dr_Roles := ["node"]; dr_Scopes := []; dr_AgentID := ""; dr_UserName := ""; dr_Allowed := AllAgents;
                              dr_CreatedAtMs := 1; dr_ApprovedAtMs := 1; dr_LastSeenAtMs := None |} ]} |}.

Definition ex_throttle : authThrottle := newAuthThrottle (λ _, false).

(** Nobody is let in with a wrong secret, twice with one nonce, or unpaired. *)
Example handshakes :
  map (λ p, (handshake (ex_env 1) ex_opts "10.0.0.1" "n1" p ex_throttle ex_db).2)
    [ex_params "guess" (Some ex_device); ex_params "secret" None;
     ex_params "secret" (Some {| id_ID := ex_id; id_PublicKey := ex_key; id_Signature := ex_key; id_SignedAt := 4000; id_Nonce := "n0" |})] =
    [Err Unauthorized; Err IdentityNeeded; Err (DeviceAuthFailed NonceMismatch)] ∧
  (handshake (ex_env 1) ex_opts "10.0.0.1" "n1" (ex_params "secret" (Some ex_device)) ex_throttle empty_db).2 = Err (PairingRequired "req").
Proof. split; vm_compute; reflexivity. Qed.

Lemma handshake_sound_witness :
  ∃ t' db' h, handshake (ex_env 1) ex_opts "10.0.0.1" "n1" (ex_params "secret" (Some ex_device)) ex_throttle ex_db = (t', db', Ok h) ∧
    map dt_Token (h_Tokens h) = ["tok-b"] ∧ stillAuthorized db' ex_id ["tok-b"] = true ∧
    ∃ d, cp_Device (ex_params "secret" (Some ex_device)) = Some d ∧ h_DeviceID h = id_ID d.
Proof.
  eassert (Hh : handshake (ex_env 1) ex_opts "10.0.0.1" "n1" (ex_params "secret" (Some ex_device)) ex_throttle ex_db = (_, _, Ok _)) by (vm_compute; reflexivity).
  eexists _, _, _. split; [exact Hh|]. split; [vm_compute; reflexivity|]. split; [vm_compute; reflexivity|].
  destruct (handshake_sound _ _ _ _ _ _ _ _ _ _ Hh) as (_ & d & pub & sig & payload & row & Hd & _ & _ & _ & _ & _ & _ & _ & _ & _ & _ & Hid & _).
  exists d. by split.
Defined.

(** Five wrong secrets at each of the minutes 1, 2, 4, 8 and 9. *)
Definition ex_guesses : list Connect :=
  flat_map (λ m, repeat {| c_env := ex_env (m * GoTime.minute); c_opts := ex_opts; c_ip := "10.0.0.1"; c_nonce := "n1"; c_params := ex_params "guess" None |} 5)
    [1; 2; 4; 8; 9].

(** The bound is reached. *)
Lemma guesses_bounded_witness :
  length ex_guesses = 25%nat ∧
  length (keep (in_window_of "10.0.0.1" GoTime.minute) (wrong_guesses ex_guesses ex_throttle ex_db)) = 20%nat ∧
  (length (keep (in_window_of "10.0.0.1" GoTime.minute) (wrong_guesses ex_guesses ex_throttle ex_db)) ≤ 20)%nat.
Proof.
  split; [reflexivity|]. split; [vm_compute; reflexivity|]. apply (guesses_bounded ex_guesses (λ _, false)); [reflexivity|].
  vm_compute. repeat split; discriminate.
Defined.
End DeviceExamples.
