(* ===== verification/DeviceSessions.v ===== *)
(** * Whom a device talks to (channels/device/server.go, gateway.go, internal/gateway/device_query.go)

    The requests of a connected device: the agent a message is for, the agents and
    the transcript it may read, the command that switches agents, and the turn that
    reaches the agent loop. The theorems: a device that is limited to some agents
    reads and writes only theirs, over any requests; the turn reaches that agent,
    unless it is the one called main; an accepted page of a transcript is the
    window asked for, and the pages make up the whole. *)

From stdpp Require Import base gmap strings list fin_maps.
From Stdlib Require Import ZArith Lia Ascii.
From S2P Require Import Prelude GoString AgentIds Routing SessionTokens DeviceStore InboundRoute.

Open Scope Z_scope.

(** ** What the gateway asks of the agent loop *)

Record DeviceAgentInfo := { ai_ID : string; ai_Name : string }.

Record HistoryMessage := { hm_Role : string; hm_Content : string; hm_Timestamp : Z }.

(** [AgentQuerier] *)
Class Querier := {
  Agents : list DeviceAgentInfo * string * string;
  DefaultAgent : string;
  HasAgent : string → bool;
  History : string → list HistoryMessage
}.

Definition listed (q : Querier) : list DeviceAgentInfo := Agents.1.1.

Section adapter.
Context (r : Registry) (stored : Instance → string → list HistoryMessage).

(** [deviceAgentQuerier.Agents] *)
Definition agent_info (id : string) : option DeviceAgentInfo :=
  match Get r id with
  | Some i => if negb (bool_decide (i_HumanModel i = "")) then None
              else Some {| ai_ID := id; ai_Name := if bool_decide (i_Name i = "") then id else i_Name i |}
  | None => Some {| ai_ID := id; ai_Name := id |}
  end.

Definition queryAgents : list DeviceAgentInfo * string * string :=
  (omap agent_info (List_ r), DefaultID r, BuildAgentMainSessionKey (DefaultID r)).

(** [agentForSessionKey] *)
Definition agentForSessionKey (sessionKey : string) : option Instance :=
  match SplitN sessionKey colon 3 with
  | p0 :: p1 :: _ => if bool_decide (p0 = "agent") then GetConfigured r p1 else None
  | _ => None
  end.

(** [deviceAgentQuerier.History]; [stored] is the agent's session store. *)
Definition queryHistory (sessionKey : string) : list HistoryMessage :=
  match agentForSessionKey sessionKey with
  | None => []
  | Some i => keep (λ m, (bool_decide (hm_Role m = "user") || bool_decide (hm_Role m = "assistant")) && negb (bool_decide (TrimSpace (hm_Content m) = "")))
                (stored i sessionKey)
  end.

Definition deviceAgentQuerier : Querier :=
  {| Agents := queryAgents; DefaultAgent := DefaultID r; HasAgent := λ id, match GetConfigured r id with Some _ => true | None => false end;
     History := queryHistory |}.
End adapter.

(** ** Transcripts in pages (history_page.go) *)

Definition historyDefaultLimit : Z := 200.
Definition historyMaxLimit : Z := 1000.
Definition historyMaxChars : Z := 500 * 1000.

Record PageParams := { pg_Limit : option Z; pg_Offset : option Z; pg_MaxChars : option Z }.

Record HistoryPage := { hp_Messages : list HistoryMessage; hp_Offset : Z; hp_Total : Z; hp_HasMore : bool; hp_NextOffset : Z }.

(** The bytes of the first [n] characters. *)
Fixpoint rune_bytes (n : nat) (s : string) : nat :=
  match n with
  | O => O
  | S n' => let w := (decode_rune s).2 in (w + rune_bytes n' (of_bytes (drop w (bytes s))))%nat
  end.

Definition truncateChars (s : string) (maxChars : Z) : string :=
  if Z.of_nat (length (runes s)) <=? maxChars then s
  else
    let keep := if 3 <? maxChars then maxChars - 3 else maxChars in
    let marker := if 3 <? maxChars then "..." else "" in
    of_bytes (take (rune_bytes (Z.to_nat keep) s) (bytes s)) +:+ marker.

Definition outside (lo hi : Z) (v : option Z) : bool := match v with Some v => (v <? lo) || (hi <? v) | None => false end.

Definition pageHistory (history : list HistoryMessage) (p : PageParams) : option HistoryPage :=
  if outside 1 historyMaxLimit (pg_Limit p) then None
  else if match pg_Offset p with Some o => o <? 0 | None => false end then None
  else if outside 1 historyMaxChars (pg_MaxChars p) then None
  else
    let limit := default historyDefaultLimit (pg_Limit p) in
    let maxChars := default 0 (pg_MaxChars p) in
    let total := Z.of_nat (length history) in
    let offset := Z.min (default 0 (pg_Offset p)) total in
    let e := total - offset in
    let start := Z.max 0 (e - limit) in
    let cut m := if 0 <? maxChars then {| hm_Role := hm_Role m; hm_Content := truncateChars (hm_Content m) maxChars; hm_Timestamp := hm_Timestamp m |} else m in
    let page := map cut (take (Z.to_nat (e - start)) (drop (Z.to_nat start) history)) in
    Some {| hp_Messages := page; hp_Offset := offset; hp_Total := total; hp_HasMore := 0 <? start;
            hp_NextOffset := if 0 <? start then offset + Z.of_nat (length page) else 0 |}.

(** ** The agent a request is for *)

Inductive session_error := UnknownAgent | AgentNotAllowed | NoAllowedAgent | RecordUnavailable.

Inductive error_code := CodeUnavailable | CodeInvalidRequest.

Definition refusalCode (e : session_error) : error_code :=
  match e with RecordUnavailable | NoAllowedAgent => CodeUnavailable | _ => CodeInvalidRequest end.

Section sessions.
(** [None] is a server without a querier; [base64] decodes the standard encoding. *)
Context {UD : UnicodeData} (querier : option Querier) (base64 : string → option (list ascii)).

Definition agents_listed : list DeviceAgentInfo := match querier with Some q => listed q | None => [] end.

Definition agentExists (id : string) : bool :=
  match querier with
  | None => false
  | Some _ => existsb (λ a, bool_decide (NormalizeAgentID (ai_ID a) = NormalizeAgentID id)) agents_listed
  end.

Definition assignedAgentRuns (id : string) : bool := match querier with None => true | Some q => @HasAgent q id end.

Definition allowedFallback (dev : PairedDevice) : option string :=
  match querier with
  | None => head (AllowedAgents dev)
  | Some _ =>
      match find_first (λ id, existsb (λ a, SameAgentID (ai_ID a) id) agents_listed) (AllowedAgents dev) with
      | Some id => option_map ai_ID (find_first (λ a, SameAgentID (ai_ID a) id) agents_listed)
      | None => None
      end
  end.

Definition default_agent : string :=
  match querier with
  | Some q => if bool_decide (@DefaultAgent q = "") then "main" else @DefaultAgent q
  | None => "main"
  end.

Definition deviceAgentFor (dev : option PairedDevice) : result string session_error :=
  match dev with
  | None => Ok default_agent
  | Some dev =>
      let assigned := dr_AgentID (pd_Row dev) in
      if negb (bool_decide (assigned = "")) && assignedAgentRuns assigned && DeviceStore.Allows dev assigned then Ok assigned
      else if DeviceStore.Allows dev default_agent then Ok default_agent
      else match allowedFallback dev with Some id => Ok id | None => Err NoAllowedAgent end
  end.

(** [pairedRecord], of what the read of the database gave. *)
Definition pairedRecord (read : result (option PairedDevice) StoreError) : result (option PairedDevice) session_error :=
  match read with Ok d => Ok d | Err _ => Err RecordUnavailable end.

Definition sessionScopeKeyFor (read : result (option PairedDevice) StoreError) (requested : string) : result string session_error :=
  match pairedRecord read with
  | Err e => Err e
  | Ok dev =>
      let agentID := AgentIDFromSessionKey requested in
      if negb (bool_decide (agentID = "")) then
        if negb (agentExists agentID) then Err UnknownAgent
        else if match dev with Some dev => negb (DeviceStore.Allows dev agentID) | None => false end then Err AgentNotAllowed
        else Ok (BuildAgentMainSessionKey agentID)
      else match deviceAgentFor dev with
           | Ok id => Ok (BuildAgentMainSessionKey id)
           | Err e => Err e
           end
  end.

Definition allowedAgentInfos (agents : list DeviceAgentInfo) (dev : PairedDevice) : list DeviceAgentInfo :=
  if bool_decide (AllowedAgents dev = []) then agents else keep (λ a, DeviceStore.Allows dev (ai_ID a)) agents.

(** ** Connections and what they are sent *)

(** [liveConn]; its sequence numbers stay far below the width of a word. *)
Record LiveConn := {
  lc_deviceID : string; lc_chatID : string; lc_seq : Z; lc_sessionKey : string; lc_currentRun : string;
  lc_streamedRun : string; lc_streamedText : string; lc_chatSeq : Z; lc_agentSeq : Z
}.

(** Events, without the time and what is the same in all. *)
Inductive Event :=
| ChatDelta (runID : string) (seq : Z) (deltaText text : string)
| AgentText (runID : string) (seq : Z) (text : string)
| AgentEnd (runID : string) (seq : Z)
| ChatFinal (runID sessionKey : string) (seq : Z) (text : string).

Inductive Payload :=
| Healthy
| Started (runID : string)
| Done
| AgentList (defaultId mainKey : string) (agents : list DeviceAgentInfo)
| Transcript (sessionKey : string) (page : HistoryPage).

Inductive ErrorText := NotSupported (method : string) | InvalidParams | Refused (e : session_error) | NotPaired.

Inductive Frame := ResOK (id : string) (p : Payload) | ResError (id : string) (e : ErrorText) | Ev (seq : Z) (e : Event).

Definition set_session (lc : LiveConn) (key : string) : LiveConn :=
  {| lc_deviceID := lc_deviceID lc; lc_chatID := lc_chatID lc; lc_seq := lc_seq lc; lc_sessionKey := key; lc_currentRun := lc_currentRun lc;
     lc_streamedRun := lc_streamedRun lc; lc_streamedText := lc_streamedText lc; lc_chatSeq := lc_chatSeq lc; lc_agentSeq := lc_agentSeq lc |}.

(** A new run: the accumulator and the numbers within it start again. *)
Definition start_run (lc : LiveConn) (runID : string) : LiveConn :=
  {| lc_deviceID := lc_deviceID lc; lc_chatID := lc_chatID lc; lc_seq := lc_seq lc; lc_sessionKey := lc_sessionKey lc; lc_currentRun := runID;
     lc_streamedRun := ""; lc_streamedText := ""; lc_chatSeq := 0; lc_agentSeq := 0 |}.

(** [StreamDelta] on the connection of the chat, when there is one. *)
Definition StreamDelta (lc : LiveConn) (delta : string) : LiveConn * list Frame :=
  if bool_decide (delta = "") || bool_decide (lc_currentRun lc = "") then (lc, [])
  else
    let text := lc_streamedText lc +:+ delta in
    ({| lc_deviceID := lc_deviceID lc; lc_chatID := lc_chatID lc; lc_seq := lc_seq lc + 2; lc_sessionKey := lc_sessionKey lc;
        lc_currentRun := lc_currentRun lc; lc_streamedRun := lc_currentRun lc; lc_streamedText := text;
        lc_chatSeq := lc_chatSeq lc + 1; lc_agentSeq := lc_agentSeq lc + 1 |},
     [Ev (lc_seq lc + 1) (ChatDelta (lc_currentRun lc) (lc_chatSeq lc + 1) delta text);
      Ev (lc_seq lc + 2) (AgentText (lc_currentRun lc) (lc_agentSeq lc + 1) delta)]).

Definition emitChatReply (lc : LiveConn) (runID sessionKey content : string) : LiveConn * list Frame :=
  let streamed := negb (bool_decide (runID = "")) && bool_decide (lc_streamedRun lc = runID) in
  let n := if streamed then 0 else 1 in
  ({| lc_deviceID := lc_deviceID lc; lc_chatID := lc_chatID lc; lc_seq := lc_seq lc + n + 2; lc_sessionKey := lc_sessionKey lc;
      lc_currentRun := lc_currentRun lc; lc_streamedRun := ""; lc_streamedText := "";
      lc_chatSeq := lc_chatSeq lc + 1; lc_agentSeq := lc_agentSeq lc + n + 1 |},
   (if streamed then [] else [Ev (lc_seq lc + 1) (AgentText runID (lc_agentSeq lc + 1) content)]) ++
   [Ev (lc_seq lc + n + 1) (AgentEnd runID (lc_agentSeq lc + n + 1));
    Ev (lc_seq lc + n + 2) (ChatFinal runID sessionKey (lc_chatSeq lc + 1) content)]).

Inductive delivery_error := RecipientNotFound | RecipientOffline | SendFailed.

(** [undeliverable] *)
Definition undeliverable (chatID : string) (read : string → result (option PairedDevice) StoreError) : delivery_error :=
  let deviceID := of_bytes (drop 7 (bytes chatID)) in
  if negb (HasPrefix chatID "device:") || bool_decide (deviceID = "") then RecipientNotFound
  else match read deviceID with
       | Err _ => SendFailed
       | Ok None => RecipientNotFound
       | Ok (Some _) => RecipientOffline
       end.

(** [DeliverReply], for the connection of the chat; [sent] tells whether the queue
    took the last frame. *)
Definition DeliverReply (conn : option LiveConn) (chatID content : string) (read : string → result (option PairedDevice) StoreError) (sent : bool)
    : option LiveConn * list Frame * option delivery_error :=
  match conn with
  | None => (None, [], Some (undeliverable chatID read))
  | Some lc =>
      let idle := {| lc_deviceID := lc_deviceID lc; lc_chatID := lc_chatID lc; lc_seq := lc_seq lc; lc_sessionKey := lc_sessionKey lc; lc_currentRun := "";
                     lc_streamedRun := lc_streamedRun lc; lc_streamedText := lc_streamedText lc; lc_chatSeq := lc_chatSeq lc; lc_agentSeq := lc_agentSeq lc |} in
      let '(lc', frames) := emitChatReply idle (lc_currentRun lc) (lc_sessionKey lc) content in
      (Some lc', frames, if sent then None else Some RecipientOffline)
  end.

(** ** Commands *)

(** [strings.IndexAny(m, " \t")], as the parts around it. *)
Fixpoint cut_blank (l : list ascii) : option (list ascii * list ascii) :=
  match l with
  | [] => None
  | x :: l' => if bool_decide (byte_val x = 32) || bool_decide (byte_val x = 9) then Some ([], l')
               else match cut_blank l' with Some (a, b) => Some (x :: a, b) | None => None end
  end.

Definition parseSlashCommand (message : string) : option (string * string) :=
  match bytes (TrimSpace message) with
  | c :: m =>
      if bool_decide (c = "/"%char) then
        match cut_blank m with
        | Some (name, arg) => Some (ToLower (of_bytes name), TrimSpace (of_bytes arg))
        | None => Some (ToLower (of_bytes m), "")
        end
      else None
  | [] => None
  end.

Definition agentDisplayName (a : DeviceAgentInfo) : string := if bool_decide (ai_Name a = "") then ai_ID a else ai_Name a.

Definition agentNameFor (agents : list DeviceAgentInfo) (id : string) : string :=
  match find_first (λ a, SameAgentID (ai_ID a) id) agents with Some a => agentDisplayName a | None => id end.

Definition quoted (s : string) : string := String (ascii_of_N 34) (s +:+ String (ascii_of_N 34) "").

Definition newline : string := String (ascii_of_N 10) "".

Definition formatAgentList (agents : list DeviceAgentInfo) (currentID : string) : string :=
  "Assistants:" +:+ newline +:+
  Join (map (λ a, "• " +:+ agentDisplayName a +:+ (if SameAgentID (ai_ID a) currentID then " (current)" else "") +:+ newline) agents) "" +:+
  newline +:+ "Send " +:+ quoted "/agent <name>" +:+ " to switch, or " +:+ quoted "/agent default" +:+ " to reset.".
(** [replyScopeKey] *)
Definition replyScopeKey (lc : LiveConn) (read : result (option PairedDevice) StoreError) : string :=
  match sessionScopeKeyFor read (lc_sessionKey lc) with Ok k => k | Err _ => "" end.

Definition resolveDeviceAgent (agents : list DeviceAgentInfo) (arg : string) : option (string * string) :=
  match find_first (λ a, SameAgentID (ai_ID a) arg || EqualFold (ai_Name a) arg) agents with
  | Some a => Some (ai_ID a, agentDisplayName a)
  | None => None
  end.

Definition with_agent (dev : option PairedDevice) (id : string) : PairedDevice :=
  let blank := {| dr_Info := {| di_PublicKey := ""; di_DisplayName := ""; di_Platform := ""; di_DeviceFamily := ""; di_ClientID := ""; di_ClientMode := "" |};
                  dr_Roles := []; dr_Scopes := []; dr_AgentID := ""; dr_UserName := ""; dr_Allowed := AllAgents;
                  dr_CreatedAtMs := 0; dr_ApprovedAtMs := 0; dr_LastSeenAtMs := None |} in
  let d := default {| pd_DeviceID := ""; pd_Row := blank; AllowedAgents := [] |} dev in
  let r := pd_Row d in
  {| pd_DeviceID := pd_DeviceID d; AllowedAgents := AllowedAgents d;
     pd_Row := {| dr_Info := dr_Info r; dr_Roles := dr_Roles r; dr_Scopes := dr_Scopes r; dr_AgentID := id; dr_UserName := dr_UserName r;
                  dr_Allowed := dr_Allowed r; dr_CreatedAtMs := dr_CreatedAtMs r; dr_ApprovedAtMs := dr_ApprovedAtMs r; dr_LastSeenAtMs := dr_LastSeenAtMs r |} |}.

(** What [handleAgentCommand] decides: the text of its reply, and the assignment it
    stores first ([None]: none). [set_error] is the error of storing it. *)
Definition agent_command (read : result (option PairedDevice) StoreError) (arg : string) (set_error : option string)
    : string * option string :=
  let all := agents_listed in
  match pairedRecord read with
  | Err _ => ("This device's settings could not be read.", None)
  | Ok dev =>
      let agents := match dev with Some d => allowedAgentInfos all d | None => all end in
      if bool_decide (all = []) then ("No assistants are configured.", None)
      else match (if bool_decide (agents = []) then Err NoAllowedAgent else deviceAgentFor dev) with
      | Err _ => ("No assistants are available on this device.", None)
      | Ok current =>
          if bool_decide (arg = "") || EqualFold arg "list" then (formatAgentList agents current, None)
          else if EqualFold arg "default" || EqualFold arg "reset" then
            match set_error with
            | Some e => ("Couldn't reset assistant: " +:+ e, Some "")
            | None =>
                let name := match deviceAgentFor (Some (with_agent dev "")) with Ok id => agentNameFor agents id | Err _ => "the default assistant" end in
                ("Switched to " +:+ name +:+ ". New messages will go to this assistant.", Some "")
            end
          else match resolveDeviceAgent agents arg with
          | None => ("No assistant matches " +:+ quoted arg +:+ "." +:+ newline +:+ newline +:+ formatAgentList agents current, None)
          | Some (id, name) =>
              match set_error with
              | Some e => ("Couldn't switch assistant: " +:+ e, Some id)
              | None => ("Switched to " +:+ name +:+ ". New messages will go to this assistant.", Some id)
              end
          end
      end
  end.

(** [handleAgentCommand]: the reply, and the calls on the store. [after] is the read
    for the reply's session; a failure to read the record replies without one. *)
Definition handleAgentCommand (lc : LiveConn) (runID arg : string) (read after : result (option PairedDevice) StoreError) (set_error : option string)
    : LiveConn * list Frame * list store_op :=
  let '(text, set) := agent_command read arg set_error in
  let key := match pairedRecord read with Err _ => "" | Ok _ => replyScopeKey lc after end in
  let '(lc', frames) := emitChatReply lc runID key text in
  (lc', frames, match set with Some id => [OSetAgent (lc_deviceID lc) id (bool_decide (set_error = None))] | None => [] end).

Definition deviceHelpText : string :=
  "Commands:" +:+ newline +:+ "• /agent — list assistants and show the current one" +:+ newline +:+
  "• /agent <name> — switch to an assistant" +:+ newline +:+ "• /agent default — reset to the default assistant" +:+ newline +:+
  "• /help — show this message" +:+ newline +:+ newline +:+ "Anything else is sent to the current assistant.".

(** ** Requests *)

Record Attachment := { at_MimeType : string; at_Name : string; at_Data : list ascii }.

Record ChatSend := { cs_Message : string; cs_SessionKey : string; cs_IdempotencyKey : string; cs_Attachments : list (string * string * string) }.

(** A request's method with its parameters, [None] when they do not decode. *)
Inductive Request :=
| Health
| Chat_send (p : option ChatSend)
| Node_event (p : option (string * string))
| Agents_list
| Chat_history (p : option (string * PageParams))
| Unknown (method : string).

(** What a request starts, on a goroutine of its own. *)
Inductive Task :=
| Turn (content runID scopeKey : string) (attachments : list Attachment)
| AgentCommand (runID arg : string)
| HelpCommand (runID : string).

Definition maxDeviceAttachmentBytes : Z := 25 * 2 ^ 20.

Definition attachment_of (a : string * string * string) : option Attachment :=
  let '(mime, name, data) := a in
  match base64 data with
  | None => None
  | Some raw => if bool_decide (raw = []) || (maxDeviceAttachmentBytes <? Z.of_nat (length raw)) then None
                else Some {| at_MimeType := mime; at_Name := name; at_Data := raw |}
  end.

(** The commands a message can be, with their task. *)
Definition chat_command (runID message : string) : option Task :=
  match parseSlashCommand message with
  | Some (cmd, arg) =>
      if bool_decide (cmd = "agent") then Some (AgentCommand runID arg)
      else if bool_decide (cmd = "help") then Some (HelpCommand runID) else None
  | None => None
  end.

(** [random] is the run id made when the client gives none. *)
Definition handleChatSend (lc : LiveConn) (id : string) (p : option ChatSend) (read : result (option PairedDevice) StoreError) (random : string)
    : LiveConn * list Frame * option Task :=
  match p with
  | None => (lc, [ResError id InvalidParams], None)
  | Some p =>
      let runID := if bool_decide (cs_IdempotencyKey p = "") then random else cs_IdempotencyKey p in
      let ack lc := (start_run lc runID, [ResOK id (Started runID)]) in
      match chat_command runID (cs_Message p) with
      | Some task => (ack lc, Some task)
      | None =>
          let requested := if bool_decide (cs_SessionKey p = "") then lc_sessionKey lc else cs_SessionKey p in
          match sessionScopeKeyFor read requested with
          | Err e => (lc, [ResError id (Refused e)], None)
          | Ok scopeKey =>
              let lc := if bool_decide (cs_SessionKey p = "") then lc else set_session lc (cs_SessionKey p) in
              (ack lc, Some (Turn (cs_Message p) runID scopeKey (omap attachment_of (cs_Attachments p))))
          end
      end
  end.

Definition handleNodeEvent (lc : LiveConn) (id : string) (p : option (string * string)) : LiveConn * list Frame :=
  match p with
  | None => (lc, [ResError id InvalidParams])
  | Some (event, sessionKey) =>
      (if bool_decide (event = "chat.subscribe") && negb (bool_decide (sessionKey = "")) then set_session lc sessionKey else lc, [ResOK id Done])
  end.

Definition handleAgentsList (lc : LiveConn) (id : string) (read : result (option PairedDevice) StoreError) : LiveConn * list Frame :=
  match querier with
  | None => (lc, [ResError id (NotSupported "agents.list")])
  | Some q =>
      match pairedRecord read with
      | Err e => (lc, [ResError id (Refused e)])
      | Ok dev =>
          let '(agents, defaultID, mainKey) := @Agents q in
          let '(agents, defaultID, mainKey) :=
            match dev with
            | Some d =>
                if bool_decide (AllowedAgents d = []) then (agents, defaultID, mainKey)
                else
                  let agents := allowedAgentInfos agents d in
                  match deviceAgentFor dev with
                  | Ok cur => match find_first (λ a, SameAgentID (ai_ID a) cur) agents with
                              | Some a => (agents, ai_ID a, BuildAgentMainSessionKey (ai_ID a))
                              | None => (agents, "", "")
                              end
                  | Err _ => (agents, "", "")
                  end
            | None => (agents, defaultID, mainKey)
            end in
          (if bool_decide (lc_sessionKey lc = "") then set_session lc mainKey else lc, [ResOK id (AgentList defaultID mainKey agents)])
      end
  end.

Definition handleChatHistory (lc : LiveConn) (id : string) (p : option (string * PageParams)) (read : result (option PairedDevice) StoreError) : list Frame :=
  match querier with
  | None => [ResError id (NotSupported "chat.history")]
  | Some q =>
      match p with
      | None => [ResError id InvalidParams]
      | Some (sessionKey, params) =>
          let sessionKey := if bool_decide (sessionKey = "") then lc_sessionKey lc else sessionKey in
          match sessionScopeKeyFor read sessionKey with
          | Err e => [ResError id (Refused e)]
          | Ok key => match pageHistory (@History q key) params with
                      | None => [ResError id InvalidParams]
                      | Some page => [ResOK id (Transcript key page)]
                      end
          end
      end
  end.

(** [dispatch]; the tasks run later. *)
Definition dispatch (lc : LiveConn) (id : string) (req : Request) (read : result (option PairedDevice) StoreError) (random : string)
    : LiveConn * list Frame * option Task :=
  match req with
  | Health => (lc, [ResOK id Healthy], None)
  | Chat_send p => handleChatSend lc id p read random
  | Node_event p => (handleNodeEvent lc id p, None)
  | Agents_list => (handleAgentsList lc id read, None)
  | Chat_history p => (lc, handleChatHistory lc id p read, None)
  | Unknown method => (lc, [ResError id (NotSupported method)], None)
  end.

(** ** The turn (gateway.go) *)

(** The message of the function given to [SetInbound], as it gets to the loop. *)
Definition inbound_message (deviceID chatID content sessionKey : string) : InboundMessage :=
  let agentID := AgentIDFromSessionKey sessionKey in
  let meta : gmap string string := {[ "platform" := "device"; "device_id" := deviceID ]} in
  let meta := if bool_decide (sessionKey = "") then meta else
                let meta := <["session_key" := sessionKey]> meta in
                if bool_decide (agentID = "") then meta else <["preresolved_agent_id" := agentID]> meta in
  {| m_Channel := "device"; m_SenderID := "device:" +:+ TrimSpace deviceID; m_ChatID := chatID; m_Content := content;
     m_PeerKind := "direct"; m_PeerID := deviceID; m_Metadata := meta; m_SessionKey := sessionKey |}.

(** ** A device that is limited to some agents *)

(** The agents a device reaches when it names none are its own. *)
Lemma allowedFallback_allows dev id : is_Some querier → allowedFallback dev = Some id → DeviceStore.Allows dev id = true.
Proof.
  intros [q Hq]. unfold allowedFallback, DeviceStore.Allows. rewrite Hq. case_bool_decide as He; [done|].
  destruct (find_first _ (AllowedAgents dev)) as [x|] eqn:Hf; [|done]. apply find_first_Some in Hf as (l1 & l2 & Heq & _).
  destruct (find_first _ agents_listed) as [a|] eqn:Hl; [|done]. intros [= <-]. apply find_first_Some in Hl as (? & ? & _ & Hs & _).
  apply existsb_Exists. exists x. split; [rewrite Heq; apply elem_of_app; right; by left|].
  apply SameAgentID_true. apply SameAgentID_true in Hs. naive_solver.
Qed.

Lemma deviceAgentFor_allows dev id : is_Some querier → deviceAgentFor (Some dev) = Ok id → DeviceStore.Allows dev id = true.
Proof.
  intros Hq. unfold deviceAgentFor. destruct (_ && DeviceStore.Allows dev (dr_AgentID (pd_Row dev))) eqn:Ha.
  { intros [= <-]. by apply andb_true_iff in Ha as [_ ?]. }
  destruct (DeviceStore.Allows dev default_agent) eqn:Hd; [by intros [= <-]|].
  destruct (allowedFallback dev) as [id'|] eqn:Hf; [|done]. intros [= <-]. by apply allowedFallback_allows.
Qed.

Lemma sessionScopeKeyFor_allows dev requested key : is_Some querier → sessionScopeKeyFor (Ok (Some dev)) requested = Ok key →
  ∃ a, DeviceStore.Allows dev a = true ∧ key = BuildAgentMainSessionKey a.
Proof.
  intros Hq. unfold sessionScopeKeyFor. cbn [pairedRecord]. case_bool_decide as Hk; cbn [negb].
  - destruct (deviceAgentFor (Some dev)) as [id|] eqn:Hd; [|done]. intros [= <-]. exists id. split; [by apply deviceAgentFor_allows|done].
  - destruct (agentExists _); [|done]. cbn [negb]. destruct (DeviceStore.Allows dev _) eqn:Ha; [|done]. intros [= <-]. by eexists.
Qed.

Lemma allowedAgentInfos_allows agents dev a : a ∈ allowedAgentInfos agents dev → a ∈ agents ∧ DeviceStore.Allows dev (ai_ID a) = true.
Proof.
  unfold allowedAgentInfos. case_bool_decide as He; [|by intros ?%elem_of_keep]. intros ?. split; [done|].
  unfold DeviceStore.Allows. by rewrite bool_decide_true.
Qed.

(** What an answer or a task of a request may show or start for a device. *)
Definition confined (dev : PairedDevice) (f : Frame) : Prop :=
  match f with
  | ResOK _ (Transcript key page) =>
      ∃ a q params, DeviceStore.Allows dev a = true ∧ key = BuildAgentMainSessionKey a ∧ querier = Some q ∧ pageHistory (@History q key) params = Some page
  | ResOK _ (AgentList d m agents) =>
      Forall (λ a, DeviceStore.Allows dev (ai_ID a) = true) agents ∧
      (AllowedAgents dev = [] ∨ (d = "" ∧ m = "") ∨ (m = BuildAgentMainSessionKey d ∧ ∃ a, a ∈ agents ∧ ai_ID a = d))
  | _ => True
  end.

Lemma handleChatSend_confined dev lc id p random : is_Some querier →
  Forall (confined dev) (handleChatSend lc id p (Ok (Some dev)) random).1.2 ∧
  match (handleChatSend lc id p (Ok (Some dev)) random).2 with
  | Some (Turn _ _ key _) => ∃ a, DeviceStore.Allows dev a = true ∧ key = BuildAgentMainSessionKey a
  | _ => True
  end.
Proof.
  intros Hq. unfold handleChatSend. destruct p as [p|]; [|by repeat constructor].
  destruct (chat_command _ _) as [task|] eqn:Hc; cbn [fst snd].
  - split; [by repeat constructor|]. destruct task; [|done..]. exfalso. revert Hc. unfold chat_command.
    destruct (parseSlashCommand _) as [[cmd arg]|]; [|done]. case_match; [done|]. by case_match.
  - destruct (sessionScopeKeyFor _ _) as [key|] eqn:Hk; (split; [by repeat constructor|]); [|done].
    by apply sessionScopeKeyFor_allows in Hk.
Qed.

Lemma handleAgentsList_confined dev lc id : Forall (confined dev) (handleAgentsList lc id (Ok (Some dev))).2.
Proof.
  unfold handleAgentsList. destruct querier as [q|]; [|by repeat constructor]. cbn [pairedRecord]. destruct (@Agents q) as [[agents d0] m0].
  case_bool_decide as He.
  - constructor; [|constructor]. split; [|by left]. apply Forall_forall. intros a _. unfold DeviceStore.Allows. by rewrite bool_decide_true.
  - assert (Hf : Forall (λ a, DeviceStore.Allows dev (ai_ID a) = true) (allowedAgentInfos agents dev)).
    { apply Forall_forall. intros a Ha. by apply (allowedAgentInfos_allows agents). }
    destruct (deviceAgentFor (Some dev)) as [cur|]; [|constructor; [split; [exact Hf|by right; left]|constructor]].
    destruct (find_first _ _) as [a|] eqn:Hfd; [|constructor; [split; [exact Hf|by right; left]|constructor]].
    constructor; [|constructor]. split; [done|]. right; right. split; [done|]. exists a. split; [|done].
    apply find_first_Some in Hfd as (l1 & l2 & -> & _). apply elem_of_app. right. by left.
Qed.

Lemma handleChatHistory_confined dev lc id p : is_Some querier → Forall (confined dev) (handleChatHistory lc id p (Ok (Some dev))).
Proof.
  intros Hq. unfold handleChatHistory. destruct querier as [q|] eqn:Hqe; [|by repeat constructor]. destruct p as [[key params]|]; [|by repeat constructor].
  rewrite <- Hqe in *. destruct (sessionScopeKeyFor _ _) as [k|] eqn:Hk; [|by repeat constructor]. apply sessionScopeKeyFor_allows in Hk as (a & Ha & ->); [|done].
  destruct (pageHistory _ params) as [page|] eqn:Hp; [|by repeat constructor]. constructor; [|constructor]. by exists a, q, params.
Qed.


(** A device's turn lands where its session is. The message of a turn in the main
    session of an agent reaches the instance of that agent, in that session, or is
    dropped when there is none, whatever it says and whatever the bindings are,
    unless the agent is called main. *)
Theorem device_turn_lands c triggers r deviceID chatID content a (Ha : NormalizeAgentID a ≠ "main") :
  take_message c triggers r (inbound_message deviceID chatID content (BuildAgentMainSessionKey a)) =
  match Get r a with
  | Some agent => Ok (agent, BuildAgentMainSessionKey a)
  | None => Err (AgentGone (NormalizeAgentID a))
  end.
Proof.
  assert (Hid : AgentIDFromSessionKey (BuildAgentMainSessionKey a) = NormalizeAgentID a).
  { destruct (session_key_roundtrip a a "") as (_ & H & _). unfold ResolveAgentSessionKey in H. by rewrite bool_decide_false in H. }
  set (m := inbound_message deviceID chatID content (BuildAgentMainSessionKey a)).
  assert (Hpre : inboundMetadata m "preresolved_agent_id" = NormalizeAgentID a).
  { unfold m, inbound_message, inboundMetadata. rewrite Hid. cbn [m_Metadata].
    rewrite (bool_decide_false (BuildAgentMainSessionKey a = "")) by done. rewrite (bool_decide_false (NormalizeAgentID a = "")) by apply NormalizeAgentID_nonempty.
    by rewrite lookup_insert_eq. }
  unfold take_message, resolveMessageRoute. rewrite extractMention_meta, Hpre by done.
  rewrite (bool_decide_false (NormalizeAgentID a = "")) by apply NormalizeAgentID_nonempty. cbn [negb].
  rewrite NormalizeAgentID_idemp. unfold Get. rewrite NormalizeAgentID_idemp.
  destruct (entries r !! NormalizeAgentID a); [|done]. f_equal. f_equal. unfold resolveScopeKey, ResolveAgentSessionKey. cbn [r_AgentID].
  apply main_key_eq, NormalizeAgentID_idemp.
Qed.
End sessions.

(** ** Pages of a transcript *)

Definition page_params (limit offset : Z) : PageParams := {| pg_Limit := Some limit; pg_Offset := Some offset; pg_MaxChars := None |}.

(** A client that pages back to the start, with the [nextOffset] it is given. *)
Fixpoint all_pages (fuel : nat) (h : list HistoryMessage) (limit offset : Z) : option (list HistoryMessage) :=
  match fuel with
  | O => None
  | S fuel' =>
      match pageHistory h (page_params limit offset) with
      | None => None
      | Some p => if hp_HasMore p then option_map (λ older, older ++ hp_Messages p) (all_pages fuel' h limit (hp_NextOffset p)) else Some (hp_Messages p)
      end
  end.

Lemma pageHistory_window h limit offset : 1 ≤ limit ≤ historyMaxLimit → 0 ≤ offset →
  let total := Z.of_nat (length h) in
  let o := Z.min offset total in
  let start := Z.max 0 (total - o - limit) in
  pageHistory h (page_params limit offset) =
  Some {| hp_Messages := take (Z.to_nat (total - o - start)) (drop (Z.to_nat start) h); hp_Offset := o; hp_Total := total; hp_HasMore := 0 <? start;
          hp_NextOffset := if 0 <? start then o + (total - o - start) else 0 |}.
Proof.
  intros Hl Ho total o start. unfold pageHistory. cbn [page_params pg_Limit pg_Offset pg_MaxChars outside default].
  rewrite (proj2 (Z.ltb_ge limit 1)), (proj2 (Z.ltb_ge historyMaxLimit limit)), (proj2 (Z.ltb_ge offset 0)) by lia. cbn [orb].
  cbn [from_option]. unfold id. change (0 <? 0) with false. cbn match. rewrite map_id. fold total. fold o. fold start. f_equal. f_equal. destruct (0 <? start) eqn:Hs; [|done]. f_equal.
  rewrite length_take, length_drop. zb. lia.
Qed.

Lemma all_pages_prefix h limit : 1 ≤ limit ≤ historyMaxLimit → ∀ fuel offset, 0 ≤ offset ≤ Z.of_nat (length h) →
  (Z.to_nat (Z.of_nat (length h) - offset) < fuel)%nat → all_pages fuel h limit offset = Some (take (Z.to_nat (Z.of_nat (length h) - offset)) h).
Proof.
  intros Hl. induction fuel as [|fuel IH]; intros offset Ho Hf; [lia|]. cbn [all_pages]. rewrite pageHistory_window by lia. cbn [hp_HasMore hp_NextOffset hp_Messages].
  rewrite Z.min_l by lia. destruct (0 <? _) eqn:Hs; zb.
  - rewrite IH by lia. cbn [option_map]. f_equal. set (e := Z.of_nat (length h) - offset) in *.
    replace (Z.of_nat (length h) - (offset + (e - Z.max 0 (e - limit)))) with (e - limit) by lia. rewrite (Z.max_r 0 (e - limit)) by lia.
    rewrite <- (take_drop (Z.to_nat (e - limit)) (take (Z.to_nat e) h)). rewrite take_take, Nat.min_l by lia. f_equal.
    rewrite skipn_firstn_comm. f_equal. lia.
  - set (e := Z.of_nat (length h) - offset) in *. rewrite Z.max_l by lia. rewrite drop_0. f_equal. f_equal. lia.
Qed.

(** A transcript can be read whole, page by page. With any accepted limit: a page
    is the stretch of the transcript that ends [offset] messages from its end, of
    the limit's length unless it reaches the start; and a client that follows the
    offsets it is given ends with every message once, in order, in at most one page
    more than there are messages. *)
Theorem history_pages h limit (Hl : 1 ≤ limit ≤ historyMaxLimit) :
  (∀ offset, 0 ≤ offset → ∃ older page newer p, pageHistory h (page_params limit offset) = Some p ∧
    h = older ++ page ++ newer ∧ hp_Messages p = page ∧ hp_HasMore p = negb (bool_decide (older = [])) ∧ hp_Total p = Z.of_nat (length h) ∧
    Z.of_nat (length newer) = Z.min offset (Z.of_nat (length h)) ∧
    (Z.of_nat (length page) = limit ∨ older = [] ∧ Z.of_nat (length page) ≤ limit)) ∧
  all_pages (S (length h)) h limit 0 = Some h.
Proof.
  split.
  - intros offset Ho. pose proof (pageHistory_window h limit offset Hl Ho) as Hw. cbv zeta in Hw.
    set (o := Z.min offset (Z.of_nat (length h))) in *. set (start := Z.max 0 (Z.of_nat (length h) - o - limit)) in *.
    exists (take (Z.to_nat start) h), (take (Z.to_nat (Z.of_nat (length h) - o - start)) (drop (Z.to_nat start) h)),
      (drop (Z.to_nat (Z.of_nat (length h) - o)) h). eexists. split; [exact Hw|]. cbn [hp_Messages hp_HasMore hp_Total].
    assert (Hlen : length (take (Z.to_nat start) h) = Z.to_nat start) by (rewrite length_take; lia).
    split_and!; [|done| |done| |].
    + replace (drop (Z.to_nat (Z.of_nat (length h) - o)) h) with (drop (Z.to_nat (Z.of_nat (length h) - o - start)) (drop (Z.to_nat start) h))
        by (rewrite drop_drop; f_equal; lia). by rewrite take_drop, take_drop.
    + destruct (0 <? start) eqn:Hs; zb; symmetry.
      * apply negb_true_iff, bool_decide_eq_false. intros E. rewrite E in Hlen. simpl in Hlen. lia.
      * apply negb_false_iff, bool_decide_eq_true. apply nil_length_inv. lia.
    + rewrite length_drop. lia.
    + rewrite length_take, length_drop. destruct (decide (start = 0)) as [H0|H0]; [right|left; lia].
      split; [|lia]. rewrite H0. done.
  - rewrite all_pages_prefix by lia. f_equal. apply take_ge. lia.
Qed.

(** ** A run and its reply *)

Fixpoint stream (lc : LiveConn) (deltas : list string) : LiveConn * list Frame :=
  match deltas with
  | [] => (lc, [])
  | d :: rest => let '(lc1, f1) := StreamDelta lc d in let '(lc2, f2) := stream lc1 rest in (lc2, f1 ++ f2)
  end.

Definition frame_seq (f : Frame) : option Z := match f with Ev n _ => Some n | _ => None end.
Definition agent_seq (f : Frame) : option Z := match f with Ev _ (AgentText _ n _) | Ev _ (AgentEnd _ n) => Some n | _ => None end.
Definition chat_seq (f : Frame) : option Z := match f with Ev _ (ChatDelta _ n _ _) | Ev _ (ChatFinal _ _ n _) => Some n | _ => None end.
Definition spoken (f : Frame) : string := match f with Ev _ (AgentText _ _ t) => t | _ => "" end.
Definition shown (f : Frame) : option string := match f with Ev _ (ChatDelta _ _ _ t) | Ev _ (ChatFinal _ _ _ t) => Some t | _ => None end.
Definition of_run (run : string) (f : Frame) : Prop :=
  match f with Ev _ (ChatDelta r _ _ _) | Ev _ (AgentText r _ _) | Ev _ (AgentEnd r _) | Ev _ (ChatFinal r _ _ _) => r = run | _ => False end.

Fixpoint concat_all (l : list string) : string := match l with [] => "" | x :: l' => x +:+ concat_all l' end.

(** The texts a client shows while deltas come, after [so_far]. *)
Fixpoint running (so_far : string) (deltas : list string) : list string :=
  match deltas with [] => [] | d :: rest => (so_far +:+ d) :: running (so_far +:+ d) rest end.

Lemma sapp_assoc (a b c : string) : (a +:+ b) +:+ c = a +:+ (b +:+ c).
Proof. apply bytes_inj. by rewrite !bytes_app, app_assoc. Qed.

Lemma sapp_nil_r (a : string) : a +:+ "" = a.
Proof. apply bytes_inj. by rewrite bytes_app, app_nil_r. Qed.

(** The connection after [n] deltas that said [said]. *)
Definition streamed (lc : LiveConn) (n : Z) (said : string) : LiveConn :=
  {| lc_deviceID := lc_deviceID lc; lc_chatID := lc_chatID lc; lc_seq := lc_seq lc + 2 * n; lc_sessionKey := lc_sessionKey lc;
     lc_currentRun := lc_currentRun lc; lc_streamedRun := if n =? 0 then lc_streamedRun lc else lc_currentRun lc;
     lc_streamedText := lc_streamedText lc +:+ said; lc_chatSeq := lc_chatSeq lc + n; lc_agentSeq := lc_agentSeq lc + n |}.

Lemma StreamDelta_step lc d : d ≠ "" → lc_currentRun lc ≠ "" →
  StreamDelta lc d = (streamed lc 1 d,
    [Ev (lc_seq lc + 1) (ChatDelta (lc_currentRun lc) (lc_chatSeq lc + 1) d (lc_streamedText lc +:+ d));
     Ev (lc_seq lc + 2) (AgentText (lc_currentRun lc) (lc_agentSeq lc + 1) d)]).
Proof. intros Hd Hr. unfold StreamDelta. rewrite !bool_decide_false by done. done. Qed.

Lemma streamed_streamed lc n said d : 0 ≤ n → streamed (streamed lc 1 d) n said = streamed lc (1 + n) (d +:+ said).
Proof.
  intros Hn. unfold streamed. cbn [lc_deviceID lc_chatID lc_seq lc_sessionKey lc_currentRun lc_streamedRun lc_streamedText lc_chatSeq lc_agentSeq].
  rewrite sapp_assoc. f_equal; try lia. rewrite (proj2 (Z.eqb_neq (1 + n) 0)) by lia. by destruct (n =? 0).
Qed.

Lemma stream_spec ds : ∀ lc, lc_currentRun lc ≠ "" → Forall (λ d, d ≠ "") ds →
  let n := Z.of_nat (length ds) in
  let '(lc', f) := stream lc ds in
  lc' = streamed lc n (concat_all ds) ∧ omap frame_seq f = seqZ (lc_seq lc + 1) (2 * n) ∧
  omap agent_seq f = seqZ (lc_agentSeq lc + 1) n ∧ omap chat_seq f = seqZ (lc_chatSeq lc + 1) n ∧
  Forall (of_run (lc_currentRun lc)) f ∧ concat_all (map spoken f) = concat_all ds ∧ omap shown f = running (lc_streamedText lc) ds.
Proof.
  induction ds as [|d ds IH]; intros lc Hr Hf.
  - cbn [stream length concat_all running map]. rewrite !seqZ_nil by lia. split_and!; try done.
    unfold streamed. rewrite sapp_nil_r. destruct lc. cbn. f_equal; lia.
  - apply Forall_cons in Hf as [Hd Hf]. cbn [stream]. rewrite StreamDelta_step by done.
    specialize (IH (streamed lc 1 d) Hr Hf). destruct (stream (streamed lc 1 d) ds) as [lc' f]. cbv zeta in IH |- *.
    destruct IH as (-> & H1 & H2 & H3 & H4 & H5 & H6). cbn [length]. rewrite Nat2Z.inj_succ. set (n := Z.of_nat (length ds)) in *.
    cbn [app omap list_omap frame_seq agent_seq chat_seq shown map spoken concat_all running].
    cbn [lc_seq lc_agentSeq lc_chatSeq lc_streamedText streamed lc_currentRun] in H1, H2, H3, H4, H6.
    split_and!.
    + rewrite streamed_streamed by lia. f_equal. lia.
    + rewrite (seqZ_cons _ (2 * Z.succ n)), (seqZ_cons _ (Z.pred _)) by lia.
      replace (lc_seq lc + 2) with (Z.succ (lc_seq lc + 1)) by lia. f_equal. f_equal. etrans; [exact H1|]. f_equal; lia.
    + rewrite (seqZ_cons _ (Z.succ n)) by lia. f_equal. etrans; [exact H2|]. f_equal; lia.
    + rewrite (seqZ_cons _ (Z.succ n)) by lia. f_equal. etrans; [exact H3|]. f_equal; lia.
    + by repeat constructor.
    + rewrite H5. done.
    + by f_equal.
Qed.

(** Equal lists of numbers. *)
Ltac list_lia := repeat (apply f_equal2; [lia|]); reflexivity.

(** A client hears and sees each reply once. For a run that a message began, with
    any deltas and then the reply, all it is sent carries the run: frames are
    numbered on from the connection's last, and the events of each of the two
    families from one; what is spoken adds up to the deltas, or is the reply when
    there were none; what is shown is the text so far after each delta and the
    reply at the end; then the connection has no run. *)
Theorem run_delivered lc run deltas chatID content read sent (Hr : run ≠ "") (Hd : Forall (λ d, d ≠ "") deltas) :
  let '(lc1, f1) := stream (start_run lc run) deltas in
  let '(conn, f2, _) := DeliverReply (Some lc1) chatID content read sent in
  let frames := f1 ++ f2 in
  let n := Z.of_nat (length deltas) in
  Forall (of_run run) frames ∧
  omap frame_seq frames = seqZ (lc_seq lc + 1) (Z.of_nat (length frames)) ∧
  omap agent_seq frames = seqZ 1 (Z.max n 1 + 1) ∧ omap chat_seq frames = seqZ 1 (n + 1) ∧
  concat_all (map spoken frames) = (if bool_decide (deltas = []) then content else concat_all deltas) ∧
  omap shown frames = running "" deltas ++ [content] ∧
  ∃ lc2, conn = Some lc2 ∧ lc_currentRun lc2 = "" ∧ lc_seq lc2 = lc_seq lc + Z.of_nat (length frames).
Proof.
  pose proof (stream_spec deltas (start_run lc run) Hr Hd) as Hs. destruct (stream (start_run lc run) deltas) as [lc1 f1].
  cbv zeta in Hs. destruct Hs as (-> & H1 & H2 & H3 & H4 & H5 & H6). cbn [start_run lc_seq lc_agentSeq lc_chatSeq lc_currentRun lc_streamedText] in *.
  set (n := Z.of_nat (length deltas)) in *.
  assert (Hlen : Z.of_nat (length f1) = 2 * n).
  { apply (f_equal length) in H1. rewrite length_seqZ in H1. assert (Hall : length (omap frame_seq f1) = length f1); [|lia].
    clear -H4. induction H4 as [|f l Hf _ IH]; [done|]. destruct f as [| |? e]; try done. cbn. by f_equal. }
  unfold DeliverReply, emitChatReply. cbn [streamed start_run lc_seq lc_agentSeq lc_chatSeq lc_currentRun lc_streamedText lc_streamedRun lc_sessionKey lc_deviceID lc_chatID].
  rewrite (bool_decide_false (run = "")) by done. cbn [negb andb].
  destruct deltas as [|d ds].
  - assert (f1 = []) as -> by (apply nil_length_inv; unfold n in Hlen; simpl in Hlen; lia).
    assert (Hn0 : n = 0) by done. rewrite (bool_decide_false ("" = run)) by done. rewrite (bool_decide_true (([] : list string) = [])) by done.
    split_and!; [by repeat constructor| | | | |done|].
    + cbn [app omap list_omap frame_seq length]. rewrite 3!seqZ_cons, seqZ_nil by lia. list_lia.
    + rewrite Hn0. cbn [app omap list_omap agent_seq length]. rewrite 2!seqZ_cons, seqZ_nil by lia. list_lia.
    + done.
    + cbn. by rewrite sapp_nil_r.
    + eexists. split_and!; [done|done|]. cbn. lia.
  - assert (Hn : n =? 0 = false) by (apply Z.eqb_neq; unfold n; simpl; lia). assert (0 < n) by (zb; unfold n; simpl; lia).
    rewrite Hn, (bool_decide_true (run = run)) by done. rewrite (bool_decide_false (d :: ds = [])) by done. cbn [app].
    split_and!.
    + apply Forall_app. split; [done|]. by repeat constructor.
    + rewrite omap_app, H1, length_app, Nat2Z.inj_add, Hlen. cbn [length omap list_omap frame_seq].
      rewrite (seqZ_app _ (2 * n)) by lia. f_equal. rewrite 2!seqZ_cons, seqZ_nil by lia. list_lia.
    + rewrite omap_app, H2, Z.max_l by lia. cbn [omap list_omap agent_seq]. rewrite (seqZ_app _ n 1) by lia. f_equal.
      rewrite seqZ_cons, seqZ_nil by lia. list_lia.
    + rewrite omap_app, H3. cbn [omap list_omap chat_seq]. rewrite (seqZ_app _ n 1) by lia. f_equal. rewrite seqZ_cons, seqZ_nil by lia. list_lia.
    + rewrite map_app. cbn [map spoken]. assert (Hc : ∀ l, concat_all (l ++ [""; ""]) = concat_all l).
      { induction l as [|x l IHl]; cbn [app concat_all]; [done|]. by rewrite IHl. }
      by rewrite Hc.
    + by rewrite omap_app, H6.
    + eexists. split_and!; [done|done|]. cbn [lc_seq]. rewrite length_app, Nat2Z.inj_add, Hlen. cbn [length]. lia.
Qed.

(** ** Concrete devices *)

Module SessionExamples.
Open Scope string_scope.
#[local] Existing Instance ascii_only.
Import InboundExamples.

Definition dev (assigned : string) (allowed : list string) : PairedDevice :=
  {| pd_DeviceID := "d1"; AllowedAgents := allowed;
     pd_Row := {| dr_Info := {| di_PublicKey := "k"; di_DisplayName := "R1"; di_Platform := ""; di_DeviceFamily := ""; di_ClientID := ""; di_ClientMode := "" |};
                  dr_Roles := ["node"]; dr_Scopes := []; dr_AgentID := assigned; dr_UserName := ""; dr_Allowed := AllAgents;
                  dr_CreatedAtMs := 0; dr_ApprovedAtMs := 0; dr_LastSeenAtMs := None |} |}.

Definition conn (key : string) : LiveConn :=
  {| lc_deviceID := "d1"; lc_chatID := "device:d1"; lc_seq := 0; lc_sessionKey := key; lc_currentRun := ""; lc_streamedRun := "";
     lc_streamedText := ""; lc_chatSeq := 0; lc_agentSeq := 0 |}.

Definition house : Config := office [agent "alice" true true; agent "bob" true false; agent "main" true false].

Definition q : option Querier := Some (deviceAgentQuerier (registry house) (λ _ _, [])).

Definition say (text key : string) : Request := Chat_send (Some {| cs_Message := text; cs_SessionKey := key; cs_IdempotencyKey := "r1"; cs_Attachments := [] |}).

Definition key_of (x : LiveConn * list Frame * option Task) : option string := match x.2 with Some (Turn _ _ k _) => Some k | _ => None end.

Definition on (lc : LiveConn) (d : PairedDevice) (r : Request) := dispatch q (λ _, None) lc "1" r (Ok (Some d)) "rnd".

(** The agent of a turn: the one that is named, the one assigned, the default, the
    first that is allowed. *)
Example turns :
  map key_of [on (conn "") (dev "" []) (say "hi" "agent:bob:main"); on (conn "") (dev "bob" []) (say "hi" "");
              on (conn "") (dev "" []) (say "hi" ""); on (conn "") (dev "" ["bob"]) (say "hi" ""); on (conn "") (dev "" ["bob"]) (say "hi" "agent:alice:main")] =
  [Some "agent:bob:main"; Some "agent:bob:main"; Some "agent:alice:main"; Some "agent:bob:main"; None].
Proof. vm_compute. reflexivity. Qed.

(** A device that is only allowed the agent called main: its turn is in the session
    of main, and runs on alice, the default. *)
Example main_escapes :
  key_of (on (conn "") (dev "" ["main"]) (say "hi" "")) = Some "agent:main:main" ∧
  ids (take_message house [] (registry house) (inbound_message "d1" "device:d1" "hi" "agent:main:main")) = Ok ("alice", "agent:alice:main").
Proof. split; vm_compute; reflexivity. Qed.

(** The command to switch has no effect on a connection that has a session. *)
Example switch_without_effect :
  agent_command q (Ok (Some (dev "" []))) "bob" None = ("Switched to bob. New messages will go to this assistant.", Some "bob") ∧
  key_of (on (conn "agent:alice:main") (dev "bob" []) (say "hi" "")) = Some "agent:alice:main".
Proof. split; vm_compute; reflexivity. Qed.

(** A message during a run takes over what is still to come of it. *)
Example run_taken_over :
  let '(lc, _, _) := on (conn "") (dev "" []) (say "first" "") in
  let '(lc, _) := StreamDelta lc "one" in
  let '(lc, _, _) := dispatch q (λ _, None) lc "2" (Chat_send (Some {| cs_Message := "/help"; cs_SessionKey := ""; cs_IdempotencyKey := "r2"; cs_Attachments := [] |})) (Ok (Some (dev "" []))) "rnd" in
  (DeliverReply (Some lc) "device:d1" "one two" (λ _, Ok None) true).1.2 =
  [Ev 3 (AgentText "r2" 1 "one two"); Ev 4 (AgentEnd "r2" 2); Ev 5 (ChatFinal "r2" "" 1 "one two")].
Proof. vm_compute. reflexivity. Qed.


Lemma device_turn_lands_witness :
  NormalizeAgentID "Bob" ≠ "main" ∧
  ids (take_message house [] (registry house) (inbound_message "d1" "device:d1" "@alice hi" (BuildAgentMainSessionKey "Bob"))) = Ok ("bob", "agent:bob:main").
Proof.
  split; [vm_compute; discriminate|].
  rewrite (device_turn_lands house [] (registry house) "d1" "device:d1" "@alice hi" "Bob"); [vm_compute; reflexivity|vm_compute; discriminate].
Defined.

Definition entry (t : string) : HistoryMessage := {| hm_Role := "user"; hm_Content := t; hm_Timestamp := 0 |}.

Lemma history_pages_witness :
  (1 ≤ 2 ≤ historyMaxLimit)%Z ∧
  all_pages 6 [entry "a"; entry "b"; entry "c"; entry "d"; entry "e"] 2 0 = Some [entry "a"; entry "b"; entry "c"; entry "d"; entry "e"].
Proof.
  split; [split; discriminate|].
  apply (proj2 (history_pages [entry "a"; entry "b"; entry "c"; entry "d"; entry "e"] 2 ltac:(split; discriminate))).
Defined.

Lemma run_delivered_witness :
  let '(lc1, f1) := stream (start_run (conn "") "r1") ["Hello "; "there"] in
  let '(_, f2, _) := DeliverReply (Some lc1) "device:d1" "Hello there" (λ _, Ok None) true in
  omap frame_seq (f1 ++ f2)%list = [1; 2; 3; 4; 5; 6]%Z ∧ concat_all (map spoken (f1 ++ f2)%list) = "Hello there".
Proof.
  pose proof (run_delivered (conn "") "r1" ["Hello "; "there"] "device:d1" "Hello there" (λ _, Ok None) true
    ltac:(discriminate) ltac:(repeat constructor; discriminate)) as H.
  destruct (stream (start_run (conn "") "r1") ["Hello "; "there"]) as [lc1 f1] eqn:Hs. vm_compute in Hs. injection Hs as <- <-.
  destruct (DeliverReply _ _ _ _ _) as [[c f2] err] eqn:Hd. vm_compute in Hd. injection Hd as <- <- <-.
  destruct H as (_ & H1 & _ & _ & H2 & _). split; [exact H1|exact H2].
Defined.
End SessionExamples.
