(* ===== verification/AgentLifecycle.v ===== *)
(** * The instances of agents, from build to close (agentreg/registry.go, agentreg/temp.go)

    Turns, creations, deletions, reloads, sweeps and the shutdown of the agent
    registry run at once and meet in its map, its locks and a few atomic flags. A
    state holds what they share and what each goroutine has still to do, cut at
    every lock and atomic operation; the calls a goroutine makes one after the
    other are tasks of their own here, so every interleaving of the code is one of
    the model. The theorems: whatever happens in whatever order, an instance is
    closed at most once, and not while a turn runs on it before the registry
    itself is closed; and nothing is forgotten: when nothing is left to do, every
    instance that was ever built is registered, held to be released later, or
    closed. *)

From stdpp Require Import base gmap strings list fin_maps fin_sets.
From Stdlib Require Import ZArith Lia.
From S2P Require Import Prelude.

(** ** Shared state *)

(** An entry, with its one instance; entries and [meta]s are numbered as they are
    made. A rebuilt temporary agent shares its [meta] with the entry it replaces. *)
Record Entry := { e_ID : string; e_Temp : bool; e_meta : nat }.

Record Meta := { busy : Z; deleteWhenIdle : bool }.

(** Where a goroutine is in [retireIfIdle]. *)
Inductive stage := LoadMark | LoadBusy | Swap.

(** What a goroutine does next. *)
Inductive Task :=
| Turn (e : nat)
| EndedDelete (e : nat)
| EndedRetire (e : nat)
| MarkRetire (e : nat)
| RetireIfIdle (st : stage) (e : nat)
| CloseReplaced (e : nat)
| KeepOrphan (e : nat)
| CloseInstance (e : nat)
| DeleteEntry (id : string)
| Dispose (e : nat)
| PutBack (e : nat)
| Reloading (configs rebuilt : gmap string nat) (doomed : list string).

(** [retireWhenIdle] and [retiring] are the entries whose flag is set; [closes] are
    the calls of [Close] on instances, the last first. *)
Record State := {
  infos : gmap nat Entry; metas : gmap nat Meta;
  entries : gmap string nat; orphans : list nat; closed : bool;
  retireWhenIdle : gset nat; retiring : gset nat;
  closes : list nat; tasks : list Task
}.

Definition with_tasks (s : State) (l : list Task) : State :=
  {| infos := infos s; metas := metas s; entries := entries s; orphans := orphans s; closed := closed s;
     retireWhenIdle := retireWhenIdle s; retiring := retiring s; closes := closes s; tasks := l |}.

Definition with_metas (s : State) (m : gmap nat Meta) : State :=
  {| infos := infos s; metas := m; entries := entries s; orphans := orphans s; closed := closed s;
     retireWhenIdle := retireWhenIdle s; retiring := retiring s; closes := closes s; tasks := tasks s |}.

Definition with_entries (s : State) (m : gmap string nat) : State :=
  {| infos := infos s; metas := metas s; entries := m; orphans := orphans s; closed := closed s;
     retireWhenIdle := retireWhenIdle s; retiring := retiring s; closes := closes s; tasks := tasks s |}.

Definition with_orphans (s : State) (l : list nat) : State :=
  {| infos := infos s; metas := metas s; entries := entries s; orphans := l; closed := closed s;
     retireWhenIdle := retireWhenIdle s; retiring := retiring s; closes := closes s; tasks := tasks s |}.

Definition with_flags (s : State) (r t : gset nat) : State :=
  {| infos := infos s; metas := metas s; entries := entries s; orphans := orphans s; closed := closed s;
     retireWhenIdle := r; retiring := t; closes := closes s; tasks := tasks s |}.

Definition log_close (s : State) (e : nat) : State :=
  {| infos := infos s; metas := metas s; entries := entries s; orphans := orphans s; closed := closed s;
     retireWhenIdle := retireWhenIdle s; retiring := retiring s; closes := e :: closes s; tasks := tasks s |}.

Definition with_infos (s : State) (i : gmap nat Entry) (m : gmap nat Meta) : State :=
  {| infos := i; metas := m; entries := entries s; orphans := orphans s; closed := closed s;
     retireWhenIdle := retireWhenIdle s; retiring := retiring s; closes := closes s; tasks := tasks s |}.

Definition set_closed (s : State) : State :=
  {| infos := infos s; metas := metas s; entries := entries s; orphans := []; closed := true;
     retireWhenIdle := retireWhenIdle s; retiring := retiring s; closes := closes s; tasks := tasks s |}.

Definition meta_of (s : State) (e : nat) : nat := match infos s !! e with Some i => e_meta i | None => 0%nat end.
Definition id_of (s : State) (e : nat) : string := match infos s !! e with Some i => e_ID i | None => "" end.
Definition temp (s : State) (e : nat) : bool := match infos s !! e with Some i => e_Temp i | None => false end.
Definition busy_of (s : State) (e : nat) : Z := match metas s !! meta_of s e with Some m => busy m | None => 0 end.
Definition to_delete (s : State) (e : nat) : bool := match metas s !! meta_of s e with Some m => deleteWhenIdle m | None => false end.

Definition add_busy (s : State) (e : nat) (d : Z) : State :=
  with_metas s (alter (λ m, {| busy := (busy m + d)%Z; deleteWhenIdle := deleteWhenIdle m |}) (meta_of s e) (metas s)).

Definition is_reload (t : Task) : bool := match t with Reloading _ _ _ => true | _ => false end.

Section lifecycle.
Context `{GoRange}.

(** ** What goroutines do *)

(** The loop of a reload's commit over the entries there were: the new map, the
    rebuilt entries that are left, and what is to be done with the old ones. *)
Fixpoint commit_loop (s : State) (doomed : list string) (cur : list (string * nat)) (ents rebuilt : gmap string nat)
    : gmap string nat * gmap string nat * list Task :=
  match cur with
  | [] => (ents, rebuilt, [])
  | (id, e) :: rest =>
      let idle := bool_decide (busy_of s e <= 0)%Z in
      if negb (temp s e) then
        let '(ents, rebuilt, ts) := commit_loop s doomed rest ents rebuilt in (ents, rebuilt, MarkRetire e :: ts)
      else
        match rebuilt !! id with
        | Some nb =>
            if bool_decide (meta_of s nb = meta_of s e) && idle then
              let '(ents, rebuilt, ts) := commit_loop s doomed rest (<[id := nb]> ents) (delete id rebuilt) in (ents, rebuilt, CloseReplaced e :: ts)
            else if bool_decide (id ∈ doomed) && idle then
              let '(ents, rebuilt, ts) := commit_loop s doomed rest ents rebuilt in (ents, rebuilt, Dispose e :: ts)
            else commit_loop s doomed rest (<[id := e]> ents) rebuilt
        | None =>
            if bool_decide (id ∈ doomed) && idle then
              let '(ents, rebuilt, ts) := commit_loop s doomed rest ents rebuilt in (ents, rebuilt, Dispose e :: ts)
            else commit_loop s doomed rest (<[id := e]> ents) rebuilt
        end
  end.

Definition vals (m : gmap string nat) : list nat := (map_to_list m).*2.

(** Each function below is the next step of a task: the state, and what follows.
    [ok] is what the host says: that it released the instance, or that a reload
    may commit. *)

(** [endTurn]: the turn is counted off, and then the two flags are looked at. *)
Definition turn_ends (e : nat) (s : State) : State * list Task :=
  let s := add_busy s e (-1) in
  (s, if bool_decide (busy_of s e = 0%Z) then [EndedDelete e] else []).

Definition turn_ended_delete (e : nat) (s : State) : State * list Task :=
  (s, (if to_delete s e && negb (closed s) then [DeleteEntry (id_of s e)] else []) ++ [EndedRetire e]).

Definition turn_ended_retire (e : nat) (s : State) : State * list Task :=
  (s, if bool_decide (e ∈ retireWhenIdle s) then [RetireIfIdle LoadMark e] else []).

(** The end of [Reload], for one replaced entry. *)
Definition mark_retire (e : nat) (s : State) : State * list Task :=
  (with_flags s ({[e]} ∪ retireWhenIdle s) (retiring s), [RetireIfIdle LoadMark e]).

Definition retireIfIdle (st : stage) (e : nat) (s : State) : State * list Task :=
  match st with
  | LoadMark => (s, if bool_decide (e ∈ retireWhenIdle s) then [RetireIfIdle LoadBusy e] else [])
  | LoadBusy => (s, if bool_decide (0 < busy_of s e)%Z then [] else [RetireIfIdle Swap e])
  | Swap =>
      if bool_decide (e ∈ retiring s) then (s, [])
      else (with_flags s (retireWhenIdle s) ({[e]} ∪ retiring s), [CloseReplaced e])
  end.

Definition closeReplaced (e : nat) (ok : bool) (s : State) : State * list Task := (s, if ok then [CloseInstance e] else [KeepOrphan e]).

Definition keepOrphan (e : nat) (s : State) : State * list Task :=
  if closed s then (s, [CloseInstance e]) else (with_orphans s (orphans s ++ [e]), []).

(** [closeQuietly]. *)
Definition closeQuietly (e : nat) (s : State) : State * list Task := (log_close s e, []).

Definition deleteEntry (id : string) (s : State) : State * list Task :=
  match entries s !! id with
  | Some e =>
      if closed s || negb (temp s e) || bool_decide (0 < busy_of s e)%Z then (s, [])
      else (with_entries s (delete id (entries s)), [Dispose e])
  | None => (s, [])
  end.

Definition dispose (e : nat) (ok : bool) (s : State) : State * list Task := (s, if ok then [CloseInstance e] else [PutBack e]).

Definition putBack (e : nat) (s : State) : State * list Task :=
  if closed s then (s, [CloseInstance e])
  else match entries s !! id_of s e with
       | Some _ => (s, [CloseInstance e])
       | None => (with_entries s (<[id_of s e := e]> (entries s)), [])
       end.

(** The commit of [Reload], or its abandonment. *)
Definition commit (configs rebuilt : gmap string nat) (doomed : list string) (ok : bool) (s : State) : State * list Task :=
  if closed s || negb ok then (s, map CloseInstance (vals configs ++ vals rebuilt))
  else
    let '(ents, rest, ts) := commit_loop s doomed (go_range (entries s)) configs rebuilt in
    (with_entries s ents, map CloseInstance (vals rest) ++ ts).

Definition run_task (t : Task) (ok : bool) (s : State) : State * list Task :=
  match t with
  | Turn e => turn_ends e s
  | EndedDelete e => turn_ended_delete e s
  | EndedRetire e => turn_ended_retire e s
  | MarkRetire e => mark_retire e s
  | RetireIfIdle st e => retireIfIdle st e s
  | CloseReplaced e => closeReplaced e ok s
  | KeepOrphan e => keepOrphan e s
  | CloseInstance e => closeQuietly e s
  | DeleteEntry id => deleteEntry id s
  | Dispose e => dispose e ok s
  | PutBack e => putBack e s
  | Reloading configs rebuilt doomed => commit configs rebuilt doomed ok s
  end.

(** ** Calls *)

(** The entries a reload builds: a config agent's is new with a meta of its own, a
    temporary agent's shares the meta of the entry it is for. *)
Definition config_entry (x : string * nat * nat) : nat * Entry := let '(id, e, m) := x in (e, {| e_ID := id; e_Temp := false; e_meta := m |}).

Definition rebuilt_entry (s : State) (x : string * nat) : nat * Entry :=
  let '(id, e) := x in
  (e, {| e_ID := id; e_Temp := true; e_meta := match entries s !! id with Some cur => meta_of s cur | None => 0%nat end |}).

Definition fresh_meta : Meta := {| busy := 0; deleteWhenIdle := false |}.

Inductive Call :=
(** [BeginTurn] with the instance of an entry. *)
| BeginTurn (id : string) (e : nat)
(** [create], from the insertion on: a new entry and meta, in a turn or not. *)
| Create (id : string) (e m : nat) (inTurn : bool)
| Delete (id : string)
| DeleteWhenIdle (id : string)
(** [Reload], to the commit: the entries of the configuration, the rebuilt ones
    with the [meta] of the entry they are for, and the ids that are doomed. *)
| Reload (configs : list (string * nat * nat)) (rebuilt : list (string * nat)) (doomed : list string)
| RetryOrphans
| Close.

(** What a reload can have built: entries and metas with new numbers, one for each
    id; no config agent has the id (a UUID) of a temporary one; and what is rebuilt
    are temporary agents there are. *)
Definition reload_ok (s : State) (configs : list (string * nat * nat)) (rebuilt : list (string * nat)) : bool :=
  bool_decide (NoDup (map (λ x, x.1.1) configs)) && bool_decide (NoDup (map fst rebuilt)) &&
  bool_decide (NoDup (map (λ x, x.1.2) configs ++ map snd rebuilt)) && bool_decide (NoDup (map snd configs)) &&
  forallb (λ e, bool_decide (infos s !! e = None)) (map (λ x, x.1.2) configs ++ map snd rebuilt) &&
  forallb (λ m, bool_decide (metas s !! m = None)) (map snd configs) &&
  forallb (λ x, forallb (λ i, negb (e_Temp i.2 && bool_decide (e_ID i.2 = x))) (map_to_list (infos s))) (map (λ x, x.1.1) configs) &&
  forallb (λ x, match entries s !! x.1 with Some cur => temp s cur | None => false end) rebuilt.

(** Each function below is a call's step under the lock; [None] when it cannot
    happen: numbers of new entries that are taken, the id of a new temporary agent
    (a UUID) that is, or a creation or a reload during a reload, which wait for
    [reloadMu]. Ids are normalised ones. *)

Definition beginTurn (id : string) (e : nat) (s : State) : State :=
  if bool_decide (entries s !! id = Some e) then with_tasks (add_busy s e 1) (Turn e :: tasks s) else s.

(** The count of an entry that comes too late for the registry is not read again. *)
Definition create (id : string) (e m : nat) (inTurn : bool) (s : State) : option State :=
  match existsb is_reload (tasks s), infos s !! e, metas s !! m, entries s !! id with
  | false, None, None, None =>
      let s' := with_infos s (<[e := {| e_ID := id; e_Temp := true; e_meta := m |}]> (infos s))
                  (<[m := {| busy := if inTurn && negb (closed s) then 1%Z else 0%Z; deleteWhenIdle := false |}]> (metas s)) in
      if closed s then Some (with_tasks s' (CloseInstance e :: tasks s))
      else Some (with_tasks (with_entries s' (<[id := e]> (entries s))) (if inTurn then Turn e :: tasks s else tasks s))
  | _, _, _, _ => None
  end.

(** [DeleteWhenIdle], to its call of [deleteEntry]. *)
Definition deleteIdle (id : string) (s : State) : State :=
  match entries s !! id with
  | Some e =>
      if closed s || negb (temp s e) then s
      else with_tasks (with_metas s (alter (λ m, {| busy := busy m; deleteWhenIdle := true |}) (meta_of s e) (metas s)))
             (DeleteEntry id :: tasks s)
  | None => s
  end.

Definition reload (configs : list (string * nat * nat)) (rebuilt : list (string * nat)) (doomed : list string) (s : State) : option State :=
  if existsb is_reload (tasks s) || negb (reload_ok s configs rebuilt) then None
  else
    let s' := with_infos s (list_to_map (map config_entry configs ++ map (rebuilt_entry s) rebuilt) ∪ infos s)
                (list_to_map (map (λ x, (x.2, fresh_meta)) configs) ∪ metas s) in
    Some (with_tasks s' (Reloading (list_to_map (map fst configs)) (list_to_map rebuilt) doomed :: tasks s)).

Definition retryOrphans (s : State) : State := with_tasks (with_orphans s []) (map CloseReplaced (orphans s) ++ tasks s).

Definition close_registry (s : State) : State :=
  if closed s then s
  else with_tasks (set_closed s) (map CloseInstance (vals (entries s) ++ orphans s) ++ tasks s).

Definition call (c : Call) (s : State) : option State :=
  match c with
  | BeginTurn id e => Some (beginTurn id e s)
  | Create id e m inTurn => create id e m inTurn s
  | Delete id => Some (with_tasks s (DeleteEntry id :: tasks s))
  | DeleteWhenIdle id => Some (deleteIdle id s)
  | Reload configs rebuilt doomed => reload configs rebuilt doomed s
  | RetryOrphans => Some (retryOrphans s)
  | Close => Some (close_registry s)
  end.

(** ** Runs *)

(** A task makes its next step, or a call is made. *)
Inductive Op := Run (i : nat) (ok : bool) | Do (c : Call).

Definition exec (o : Op) (s : State) : option State :=
  match o with
  | Run i ok =>
      match tasks s !! i with
      | Some t => let '(s', ts) := run_task t ok s in Some (with_tasks s' (ts ++ delete i (tasks s)))
      | None => None
      end
  | Do c => call c s
  end.

Fixpoint execs (l : list Op) (s : State) : option State := match l with [] => Some s | o :: l' => exec o s ≫= execs l' end.

(** [New]: the registry of a configuration. *)
Definition new_registry (configs : list (string * nat * nat)) : State :=
  {| infos := list_to_map (map config_entry configs); metas := list_to_map (map (λ x, (x.2, fresh_meta)) configs);
     entries := list_to_map (map fst configs); orphans := []; closed := false; retireWhenIdle := ∅; retiring := ∅; closes := []; tasks := [] |}.

Definition configs_ok (configs : list (string * nat * nat)) : Prop :=
  NoDup (map (λ x, x.1.1) configs) ∧ NoDup (map (λ x, x.1.2) configs) ∧ NoDup (map snd configs).
End lifecycle.

(** ** Where instances are *)

Section invariant.
Context `{GoRange}.

(** The entries of tasks that still belong to the registry, and those on their way
    to be closed. *)
Definition held_by (t : Task) : list nat := match t with MarkRetire e => [e] | _ => [] end.

Definition freed_by (t : Task) : list nat :=
  match t with
  | CloseReplaced e | KeepOrphan e | CloseInstance e | Dispose e | PutBack e => [e]
  | Reloading c r _ => vals c ++ vals r
  | _ => []
  end.

Definition waiting (s : State) : list nat := elements (retireWhenIdle s ∖ retiring s).
Definition registered (s : State) : list nat := if closed s then [] else vals (entries s).
Definition held (s : State) : list nat := registered s ++ flat_map held_by (tasks s) ++ waiting s.
Definition free (s : State) : list nat := orphans s ++ flat_map freed_by (tasks s) ++ closes s.

Definition known (s : State) (e : nat) : Prop := is_Some (infos s !! e).
Definition config (s : State) (e : nat) : Prop := ∃ i, infos s !! e = Some i ∧ e_Temp i = false.
Definition unregistered (s : State) (e : nat) : Prop := ∀ id, entries s !! id ≠ Some e.

Definition is_turn (s : State) (m : nat) (t : Task) : bool := match t with Turn e => bool_decide (meta_of s e = m) | _ => false end.
Definition turns (s : State) (m : nat) : Z := count (is_turn s m) (tasks s).

Definition task_ok (s : State) (t : Task) : Prop :=
  match t with
  | Turn e => known s e
  | MarkRetire e => config s e ∧ unregistered s e ∧ e ∉ retireWhenIdle s
  | RetireIfIdle LoadBusy e => e ∈ retireWhenIdle s
  | RetireIfIdle Swap e => e ∈ retireWhenIdle s ∧ (busy_of s e <= 0)%Z
  | Dispose e | PutBack e => known s e ∧ temp s e = true
  | Reloading c r _ =>
      (∀ id e, c !! id = Some e → config s e ∧ id_of s e = id ∧ e ∉ retireWhenIdle s) ∧ (∀ id e, r !! id = Some e → known s e ∧ temp s e = true ∧ id_of s e = id) ∧
      (∀ e, known s e → temp s e = true → c !! id_of s e = None)
  | _ => True
  end.

(** A task that will see to an entry that waits to be retired. *)
Definition sees_to (e : nat) (t : Task) : Prop :=
  match t with EndedDelete x | EndedRetire x | RetireIfIdle _ x => x = e | _ => False end.

Record Inv (s : State) : Prop := {
  inv_homes : held s ++ free s ≡ₚ (map_to_list (infos s)).*1;
  inv_entries : ∀ id e, entries s !! id = Some e → known s e ∧ id_of s e = id;
  inv_busy : ∀ e, known s e → is_Some (metas s !! meta_of s e) ∧ busy_of s e = turns s (meta_of s e);
  inv_flags : retiring s ⊆ retireWhenIdle s ∧ ∀ e, e ∈ retireWhenIdle s → config s e ∧ unregistered s e;
  inv_tasks : Forall (task_ok s) (tasks s);
  inv_meta : ∀ e e', config s e → known s e' → meta_of s e = meta_of s e' → e = e';
  inv_free : closed s = false → ∀ e, e ∈ free s → Turn e ∉ tasks s;
  inv_waiting : ∀ e, e ∈ waiting s → (0 < busy_of s e)%Z ∨ ∃ t, t ∈ tasks s ∧ sees_to e t
}.

(** How much work a task is, and a state: an entry may be replaced or dropped and
    put back by every reload under way. *)
Definition task_work (k : Z) (t : Task) : Z :=
  match t with
  | Turn _ => 12 | EndedDelete _ => 11 | EndedRetire _ => 7 | MarkRetire _ => 7
  | RetireIfIdle LoadMark _ => 6 | RetireIfIdle LoadBusy _ => 5 | RetireIfIdle Swap _ => 4
  | CloseReplaced _ => 3 | KeepOrphan _ => 2 | CloseInstance _ => 1
  | DeleteEntry _ => 3 | Dispose _ => k + 2 | PutBack _ => k + 1
  | Reloading c r _ => k * (Z.of_nat (size c) + Z.of_nat (size r)) + 1
  end.

Definition works (k : Z) (l : list Task) : Z := foldr (λ t n, (task_work k t + n)%Z) 0%Z l.
Definition entry_work (s : State) : Z := (8 + 3 * count is_reload (tasks s))%Z.
Definition work (s : State) : Z := (entry_work s * Z.of_nat (size (entries s)) + works (entry_work s) (tasks s))%Z.

Definition is_run (o : Op) : bool := match o with Run _ _ => true | Do _ => false end.

Ltac steps := cbn [run_task call];
  unfold turn_ends, turn_ended_delete, turn_ended_retire, mark_retire, retireIfIdle, closeReplaced, keepOrphan, closeQuietly, deleteEntry, dispose, putBack, commit,
    beginTurn, create, deleteIdle, reload, retryOrphans, close_registry.

(** *** Lists and maps *)

Lemma vals_insert m id e : m !! id = None → vals (<[id := e]> m) ≡ₚ e :: vals m.
Proof. intros Hn. unfold vals. by rewrite map_to_list_insert. Qed.

Lemma vals_delete m id e : m !! id = Some e → vals m ≡ₚ e :: vals (delete id m).
Proof. intros Hs. unfold vals. by rewrite <- (map_to_list_delete _ _ _ Hs). Qed.

Lemma elem_of_vals m e : e ∈ vals m ↔ ∃ id, m !! id = Some e.
Proof.
  unfold vals. rewrite list_elem_of_fmap. split.
  - intros ([id x] & -> & Hx%elem_of_map_to_list). by exists id.
  - intros [id Hid]. exists (id, e). split; [done|]. by apply elem_of_map_to_list.
Qed.

Lemma go_range_vals m : (go_range m).*2 ≡ₚ vals m.
Proof. unfold vals. by rewrite go_range_perm. Qed.

(** *** Consequences of the invariant *)

Lemma inv_NoDup s : Inv s → NoDup (held s ++ free s).
Proof. intros Hi. rewrite (inv_homes _ Hi). apply NoDup_fst_map_to_list. Qed.

Lemma inv_disjoint s e : Inv s → e ∈ held s → e ∈ free s → False.
Proof. intros Hi Hh Hf. pose proof (inv_NoDup s Hi) as Hn. apply NoDup_app in Hn as (_ & Hd & _). by apply (Hd e). Qed.

Lemma inv_known s e : Inv s → e ∈ held s ++ free s → known s e.
Proof.
  intros Hi. rewrite (inv_homes _ Hi). intros ([x i] & -> & Hx%elem_of_map_to_list)%list_elem_of_fmap. by exists i.
Qed.

Lemma config_temp s e : config s e → temp s e = false.
Proof. intros (i & Hi & Ht). unfold temp. by rewrite Hi. Qed.

Lemma not_temp_config s e : known s e → temp s e = false → config s e.
Proof. intros [i Hi] Ht. unfold temp in Ht. rewrite Hi in Ht. by exists i. Qed.

Lemma turn_task s e : Turn e ∈ tasks s → (0 < turns s (meta_of s e))%Z.
Proof. intros Ht. apply count_pos. exists (Turn e). split; [done|]. by apply bool_decide_eq_true. Qed.

Lemma idle_no_turn s e : Inv s → known s e → (busy_of s e <= 0)%Z → Turn e ∉ tasks s.
Proof. intros Hi Hk Hb Ht. pose proof (turn_task s e Ht). destruct (inv_busy _ Hi e Hk) as [_ Heq]. lia. Qed.

(** *** Steps that change only what is left to do *)

Lemma turns_split s told rest m : tasks s ≡ₚ told ++ rest → turns s m = (count (is_turn s m) told + count (is_turn s m) rest)%Z.
Proof. intros Hp. unfold turns. by rewrite (count_perm _ _ _ Hp), count_plus. Qed.

Lemma no_turns_count s m l : (∀ x, Turn x ∉ l) → count (is_turn s m) l = 0%Z.
Proof.
  intros Hn. apply count_zero, Forall_forall. intros t Ht. destruct t as [x| | | | | | | | | | |]; try done. by apply Hn in Ht.
Qed.

Lemma elem_of_waiting s e : e ∈ waiting s ↔ e ∈ retireWhenIdle s ∧ e ∉ retiring s.
Proof. unfold waiting. by rewrite elem_of_elements, elem_of_difference. Qed.

Lemma task_ok_frame s s1 t : infos s1 = infos s →
  (∀ e, e ∈ held_by t → config s e → unregistered s e → unregistered s1 e) → retireWhenIdle s ⊆ retireWhenIdle s1 →
  (∀ e, e ∈ held_by t ++ freed_by t → e ∉ retireWhenIdle s → e ∉ retireWhenIdle s1) →
  (∀ e, e ∈ retireWhenIdle s → (busy_of s1 e <= busy_of s e)%Z) → task_ok s t → task_ok s1 t.
Proof.
  intros Hi Hu Hr Hm Hb. destruct t as [e|e|e|e|[] e|e|e|e|id|e|e|c r d]; cbn [task_ok]; unfold known, config, temp, id_of; rewrite ?Hi; try done.
  - intros (Hc & Hun & Hn). split_and!; [done|apply Hu; [by left|done..]|apply Hm; [by left|done]].
  - intros He. by apply Hr.
  - intros [He Hle]. split; [by apply Hr|]. specialize (Hb e He). lia.
  - intros (Hc & Hr' & Hd). split_and!; [|done|done]. intros id e Hce. destruct (Hc id e Hce) as (? & ? & Hn). split_and!; [done..|].
    apply Hm; [|done]. cbn. apply elem_of_app. left. apply elem_of_vals. by exists id.
Qed.

(** What the map of entries may become: the instances it holds are known by their
    ids, and a config instance is one it held or one the step places. *)
Definition entries_ok (s : State) (told : list Task) (m : gmap string nat) : Prop :=
  ∀ id e, m !! id = Some e → known s e ∧ id_of s e = id ∧
    (config s e → entries s !! id = Some e ∨ (e ∈ flat_map freed_by told ∧ e ∉ retireWhenIdle s)).

Lemma entries_ok_same s told : Inv s → entries_ok s told (entries s).
Proof. intros Hi id e He. destruct (inv_entries _ Hi id e He). auto. Qed.

Lemma held_by_held s e t : t ∈ tasks s → e ∈ held_by t → e ∈ held s.
Proof. intros Ht He. unfold held. rewrite !elem_of_app. right. left. apply elem_of_flat_map. by exists t. Qed.

Lemma freed_by_free s e l : l ⊆ tasks s → e ∈ flat_map freed_by l → e ∈ free s.
Proof.
  intros Hl He. unfold free. rewrite !elem_of_app. right. left. apply elem_of_flat_map in He as (t & Ht & He). apply elem_of_flat_map.
  exists t. split; [by apply Hl|done].
Qed.

(** A step that changes where instances are, the map, [retiring] or [closed]. *)
Lemma inv_restate s s1 told rest ts : Inv s → tasks s ≡ₚ told ++ rest →
  infos s1 = infos s → metas s1 = metas s → (closed s1 = false → closed s = false) → retireWhenIdle s1 = retireWhenIdle s →
  entries_ok s told (entries s1) → retiring s ⊆ retiring s1 → retiring s1 ⊆ retireWhenIdle s →
  held (with_tasks s1 (ts ++ rest)) ++ free (with_tasks s1 (ts ++ rest)) ≡ₚ held s ++ free s →
  (closed s1 = false → ∀ e, e ∈ free (with_tasks s1 (ts ++ rest)) → e ∈ free s ∨ Turn e ∉ tasks s) →
  (∀ x, Turn x ∉ told) → (∀ x, Turn x ∉ ts) → Forall (task_ok s1) ts →
  (∀ e t, e ∈ waiting s → e ∉ retiring s1 → t ∈ told → sees_to e t → (0 < busy_of s e)%Z ∨ ∃ t', t' ∈ ts ∧ sees_to e t') →
  Inv (with_tasks s1 (ts ++ rest)).
Proof.
  intros Hi Hp E1 E2 E4 E5 He1 Hr1 Hr2 Hhomes Hfree Ht1 Ht2 Hok Hsee. pose proof Hi as [Hh He Hb Hf Ht Hm Hfr Hw].
  destruct s1 as [i1 m1 n1 o1 c1 w1 g1 l1 k1]. cbn [infos metas entries closed retireWhenIdle retiring] in *. subst i1 m1 w1.
  set (s' := with_tasks _ (ts ++ rest)) in *.
  assert (Hrest : ∀ t, t ∈ rest → t ∈ tasks s) by (intros t Hin; rewrite Hp; apply elem_of_app; by right).
  assert (Htold : told ⊆ tasks s) by (intros t Hin; rewrite Hp; apply elem_of_app; by left).
  assert (Hun : ∀ e, config s e → unregistered s e → e ∉ flat_map freed_by told ∨ e ∈ retireWhenIdle s → unregistered s' e).
  { intros e Hc Hu Hn id Hid. apply He1 in Hid as (_ & _ & Hid). destruct (Hid Hc) as [?|[]]; [by eapply Hu|tauto]. }
  split.
  - by rewrite Hhomes.
  - intros id e Hid. by destruct (He1 id e Hid) as (? & ? & _).
  - intros e Hk. destruct (Hb e Hk) as [Hsome Heq]. split; [done|].
    change (busy_of s' e) with (busy_of s e). rewrite Heq, (turns_split s told rest) by done.
    unfold turns. change (tasks s') with (ts ++ rest). change (is_turn s') with (is_turn s). change (meta_of s' e) with (meta_of s e).
    rewrite count_plus, (no_turns_count s _ told), (no_turns_count s _ ts) by done. done.
  - split; [exact Hr2|]. intros e Hin. destruct (proj2 Hf e Hin). split; [done|]. apply Hun; auto.
  - change (tasks s') with (ts ++ rest). apply Forall_app. split; [exact Hok|]. apply Forall_forall. intros t Hin.
    apply (task_ok_frame s); try done; [|by rewrite Forall_forall in Ht; auto]. intros e Hin' Hc Hu. apply Hun; [done..|]. left. intros Hx.
    eapply (inv_disjoint s e Hi); [by eapply held_by_held; eauto|by eapply freed_by_free].
  - exact Hm.
  - intros Hc e Hin. change (tasks s') with (ts ++ rest). rewrite elem_of_app. intros [Hx|Hx]; [by apply Ht2 in Hx|].
    apply Hfree in Hin as [Hin|Hin]; [by apply (Hfr (E4 Hc) e Hin), Hrest|by apply Hin, Hrest|done].
  - intros e Hin. change (busy_of s' e) with (busy_of s e). change (tasks s') with (ts ++ rest). apply elem_of_waiting in Hin as [Hin1 Hin2]. cbn in Hin1, Hin2.
    assert (Hin : e ∈ waiting s) by (apply elem_of_waiting; split; [done|set_solver]).
    destruct (Hw e Hin) as [?|(t & Htin & Hs)]; [by left|]. rewrite Hp, elem_of_app in Htin. destruct Htin as [Htin|Htin].
    + destruct (Hsee e t Hin Hin2 Htin Hs) as [?|(t' & Hin' & ?)]; [by left|]. right. exists t'. split; [|done]. apply elem_of_app. by left.
    + right. exists t. split; [|done]. apply elem_of_app. by right.
Qed.

Lemma inv_retask s told rest ts : Inv s → tasks s ≡ₚ told ++ rest →
  flat_map held_by ts ++ flat_map freed_by ts ≡ₚ flat_map held_by told ++ flat_map freed_by told →
  (∀ e, e ∈ flat_map freed_by ts → e ∈ flat_map freed_by told) →
  (∀ x, Turn x ∉ told) → (∀ x, Turn x ∉ ts) → Forall (task_ok s) ts →
  (∀ e t, e ∈ waiting s → t ∈ told → sees_to e t → (0 < busy_of s e)%Z ∨ ∃ t', t' ∈ ts ∧ sees_to e t') →
  Inv (with_tasks s (ts ++ rest)).
Proof.
  intros Hi Hp Hown Hfree Ht1 Ht2 Hok Hsee. apply (inv_restate s s told); try done; [exact (entries_ok_same s _ Hi)|by apply Hi| | |].
  - unfold held, free. cbn [with_tasks tasks orphans closes].
    change (registered (with_tasks s (ts ++ rest))) with (registered s). change (waiting (with_tasks s (ts ++ rest))) with (waiting s).
    rewrite (flat_map_perm held_by _ _ Hp), (flat_map_perm freed_by _ _ Hp), !flat_map_app.
    transitivity ((flat_map held_by ts ++ flat_map freed_by ts) ++ (registered s ++ flat_map held_by rest ++ waiting s ++ orphans s ++ flat_map freed_by rest ++ closes s)); [solve_Permutation|].
    rewrite Hown. solve_Permutation.
  - intros _ e Hin. left. revert Hin. unfold free. cbn [with_tasks tasks orphans closes].
    rewrite (flat_map_perm freed_by _ _ Hp), !flat_map_app, !elem_of_app. intros [?|[[?|?]|?]]; auto.
  - intros e t Hin _. by apply Hsee.
Qed.

(** *** Steps of tasks *)

Lemma add_busy_of s e d e' : is_Some (metas s !! meta_of s e') →
  busy_of (add_busy s e d) e' = (busy_of s e' + (if bool_decide (meta_of s e' = meta_of s e) then d else 0))%Z.
Proof.
  intros [m Hm]. unfold busy_of, add_busy. change (meta_of (with_metas s _) e') with (meta_of s e'). cbn [with_metas metas].
  case_bool_decide as He.
  - rewrite <- He, lookup_alter_eq, Hm. done.
  - rewrite lookup_alter_ne by done. rewrite Hm. simpl. lia.
Qed.

Lemma add_busy_some s e d k : is_Some (metas (add_busy s e d) !! k) ↔ is_Some (metas s !! k).
Proof. unfold add_busy. cbn [with_metas metas]. by rewrite lookup_alter_is_Some. Qed.

Lemma inv_end_turn s e rest : Inv s → tasks s ≡ₚ Turn e :: rest →
  Inv (with_tasks (add_busy s e (-1)) ((if bool_decide (busy_of (add_busy s e (-1)) e = 0%Z) then [EndedDelete e] else []) ++ rest)).
Proof.
  intros Hi Hp. set (s1 := add_busy s e (-1)). set (ts := if bool_decide _ then _ else _).
  assert (Hown : flat_map held_by ts = [] ∧ flat_map freed_by ts = [] ∧ ∀ m, count (is_turn s m) ts = 0%Z).
  { unfold ts. by case_bool_decide. }
  destruct Hown as (Ho1 & Ho2 & Ho3). pose proof Hi as [Hh He Hb Hf Ht Hm Hfr Hw].
  assert (Hke : known s e) by (rewrite Forall_forall in Ht; apply (Ht (Turn e)); rewrite Hp; by left).
  assert (Hbusy : ∀ e', known s e' → busy_of s1 e' = (busy_of s e' + (if bool_decide (meta_of s e' = meta_of s e) then -1 else 0))%Z).
  { intros e' Hk. apply add_busy_of. by apply Hb. }
  split; try done.
  - etrans; [|exact Hh]. unfold held, free. cbn [with_tasks tasks orphans closes].
    change (registered (with_tasks s1 (ts ++ rest))) with (registered s). change (waiting (with_tasks s1 (ts ++ rest))) with (waiting s).
    rewrite (flat_map_perm held_by _ _ Hp), (flat_map_perm freed_by _ _ Hp), !flat_map_app, Ho1, Ho2. done.
  - intros e' Hk. change (known s e') in Hk. split; [apply add_busy_some, Hb, Hk|].
    change (busy_of (with_tasks s1 (ts ++ rest)) e') with (busy_of s1 e'). rewrite Hbusy by done. destruct (Hb e' Hk) as [_ ->].
    unfold turns at 2. cbn [with_tasks tasks]. change (is_turn (with_tasks s1 (ts ++ rest))) with (is_turn s).
    change (meta_of (with_tasks s1 (ts ++ rest)) e') with (meta_of s e'). rewrite count_plus, Ho3. unfold turns. rewrite (count_perm _ _ _ Hp), count_cons.
    cbn [is_turn]. destruct (decide (meta_of s e' = meta_of s e)) as [Heq|Hne].
    + rewrite !bool_decide_true by done. lia.
    + rewrite !bool_decide_false by congruence. lia.
  - cbn [with_tasks tasks]. rewrite Hp in Ht. apply Forall_cons in Ht as [_ Ht]. apply Forall_app. split; [unfold ts; case_bool_decide; by repeat constructor|].
    eapply Forall_impl; [exact Ht|]. intros t. apply task_ok_frame; try done. intros e' He'. destruct (proj2 Hf e' He') as [(i & Hk & _) _].
    change (busy_of (with_tasks s1 (ts ++ rest)) e') with (busy_of s1 e'). rewrite Hbusy by by eexists. case_bool_decide; lia.
  - intros Hc e' Hin. cbn [with_tasks tasks closed] in *. intros Hx. apply (Hfr Hc e').
    + revert Hin. unfold free. cbn [with_tasks tasks orphans closes]. rewrite (flat_map_perm freed_by _ _ Hp), flat_map_app, Ho2. done.
    + rewrite Hp. right. apply elem_of_app in Hx as [Hx|Hx]; [|done]. unfold ts in Hx. case_bool_decide; [by apply list_elem_of_singleton in Hx|by apply elem_of_nil in Hx].
  - intros e' Hin. change (waiting (with_tasks s1 (ts ++ rest))) with (waiting s) in Hin. cbn [with_tasks tasks].
    change (busy_of (with_tasks s1 (ts ++ rest)) e') with (busy_of s1 e').
    assert (Hc' : config s e') by (apply elem_of_waiting in Hin as [Hin _]; by apply Hf). pose proof Hc' as (i & Hk & _).
    destruct (Hw e' Hin) as [Hpos|(t & Htin & Hs)].
    + rewrite Hbusy by by eexists. case_bool_decide as Heq; [|left; lia]. destruct (decide (busy_of s e' = 1%Z)) as [H1|]; [|left; lia].
      right. exists (EndedDelete e). split; [|symmetry; by apply Hm]. apply elem_of_app. left. unfold ts.
      assert (e' = e) as <- by by apply Hm. rewrite bool_decide_true; [by left|]. fold s1. rewrite Hbusy by done. rewrite bool_decide_true by done. lia.
    + right. exists t. split; [|done]. rewrite Hp in Htin. apply elem_of_cons in Htin as [->|]; [done|]. apply elem_of_app. by right.
Qed.

Lemma inv_mark s e rest : Inv s → tasks s ≡ₚ MarkRetire e :: rest →
  Inv (with_tasks (with_flags s ({[e]} ∪ retireWhenIdle s) (retiring s)) ([RetireIfIdle LoadMark e] ++ rest)).
Proof.
  intros Hi Hp. pose proof Hi as [Hh He Hb Hf Ht Hm Hfr Hw].
  rewrite Hp in Ht. apply Forall_cons in Ht as [(Hce & Hue & Hne) Ht].
  assert (Hnr : e ∉ retiring s) by (intros Hr; by apply Hf in Hr).
  set (s' := with_tasks _ _).
  assert (Hwait : waiting s' ≡ₚ e :: waiting s).
  { unfold waiting, s'. cbn [with_tasks with_flags retireWhenIdle retiring].
    replace (({[e]} ∪ retireWhenIdle s) ∖ retiring s) with ({[e]} ∪ retireWhenIdle s ∖ retiring s) by set_solver.
    apply elements_union_singleton. set_solver. }
  split; try done.
  - etrans; [|exact Hh]. unfold held, free. change (tasks s') with ([RetireIfIdle LoadMark e] ++ rest). change (registered s') with (registered s).
    change (orphans s') with (orphans s). change (closes s') with (closes s). rewrite Hwait, (flat_map_perm held_by _ _ Hp), (flat_map_perm freed_by _ _ Hp). simpl. solve_Permutation.
  - intros e' Hk. destruct (Hb e' Hk) as [Hsome Heq]. split; [done|]. change (busy_of s' e') with (busy_of s e'). rewrite Heq.
    unfold turns. rewrite (count_perm _ _ _ Hp). done.
  - split; [cbn; set_solver|]. intros e' [->%elem_of_singleton|He']%elem_of_union; [done|]. by apply Hf.
  - constructor; [done|]. apply Forall_forall. intros t Htin. rewrite Forall_forall in Ht.
    apply (task_ok_frame s); [done|done|cbn; set_solver| |done|by apply Ht].
    intros e' He' Hn [->%elem_of_singleton|?]%elem_of_union; [|done].
    assert (Hp2 : held s ++ free s ≡ₚ e :: (flat_map held_by rest ++ flat_map freed_by rest) ++ registered s ++ waiting s ++ orphans s ++ closes s).
    { unfold held, free. rewrite (flat_map_perm held_by _ _ Hp), (flat_map_perm freed_by _ _ Hp). simpl. solve_Permutation. }
    pose proof (inv_NoDup s Hi) as Hnd.
    rewrite Hp2 in Hnd. apply NoDup_cons in Hnd as [Hx _]. apply Hx, elem_of_app. left.
    apply elem_of_app in He' as [He'|He']; apply elem_of_app; [left|right]; apply elem_of_flat_map; by exists t.
  - intros Hc e' Hin. change (tasks s') with ([RetireIfIdle LoadMark e] ++ rest). intros [?|Hx]%elem_of_cons; [done|]. apply (Hfr Hc e'); [|rewrite Hp; by right].
    revert Hin. unfold free. change (tasks s') with ([RetireIfIdle LoadMark e] ++ rest). by rewrite (flat_map_perm freed_by _ _ Hp).
  - intros e'. rewrite Hwait. intros [->|Hin]%elem_of_cons; [right; exists (RetireIfIdle LoadMark e); split; [by left|done]|].
    destruct (Hw e' Hin) as [?|(t & Htin & Hs)]; [by left|]. right. exists t. split; [|done]. rewrite Hp in Htin. apply elem_of_cons in Htin as [->|]; [done|by right].
Qed.

Lemma inv_swap s e rest : Inv s → tasks s ≡ₚ RetireIfIdle Swap e :: rest → e ∉ retiring s →
  Inv (with_tasks (with_flags s (retireWhenIdle s) ({[e]} ∪ retiring s)) ([CloseReplaced e] ++ rest)).
Proof.
  intros Hi Hp Hn. pose proof (inv_tasks _ Hi) as Ht. rewrite Hp in Ht. apply Forall_cons in Ht as [[He Hb] _].
  destruct (proj2 (inv_flags _ Hi) e He) as [(i & Hk & _) _].
  apply (inv_restate s _ [RetireIfIdle Swap e]); try done.
  - exact (entries_ok_same s _ Hi).
  - cbn. set_solver.
  - cbn. pose proof (proj1 (inv_flags _ Hi)). set_solver.
  - assert (Hw : waiting s ≡ₚ e :: waiting (with_flags s (retireWhenIdle s) ({[e]} ∪ retiring s))).
    { unfold waiting. cbn [with_flags retireWhenIdle retiring].
      replace (retireWhenIdle s ∖ retiring s) with ({[e]} ∪ retireWhenIdle s ∖ ({[e]} ∪ retiring s)); [apply elements_union_singleton; set_solver|].
      apply set_eq. intros x. rewrite elem_of_union, !elem_of_difference, elem_of_union, !elem_of_singleton. destruct (decide (x = e)); naive_solver. }
    unfold held at 2. rewrite Hw. unfold held, free. cbn [with_tasks tasks orphans closes with_flags].
    rewrite (flat_map_perm held_by _ _ Hp), (flat_map_perm freed_by _ _ Hp). simpl.
    change (registered (with_tasks _ _)) with (registered s). change (waiting (with_tasks ?a _)) with (waiting a). solve_Permutation.
  - intros _ x. unfold free. cbn [with_tasks tasks orphans closes with_flags]. rewrite (flat_map_perm freed_by _ _ Hp). simpl.
    destruct (decide (x = e)) as [->|Hx]; [intros _; right; apply idle_no_turn; [done|by eexists|done]|].
    rewrite !elem_of_app, elem_of_cons, elem_of_app. naive_solver.
  - intros x Hx. by apply list_elem_of_singleton in Hx.
  - intros x Hx. by apply list_elem_of_singleton in Hx.
  - by repeat constructor.
  - intros x t _ Hx ->%list_elem_of_singleton Hs. cbn in Hs, Hx. set_solver.
Qed.

Lemma inv_keep_orphan s e rest : Inv s → tasks s ≡ₚ KeepOrphan e :: rest → Inv (with_tasks (with_orphans s (orphans s ++ [e])) ([] ++ rest)).
Proof.
  intros Hi Hp. apply (inv_restate s _ [KeepOrphan e]); try done; [exact (entries_ok_same s _ Hi)|by apply Hi| | | | |].
  - unfold held, free. cbn [with_tasks tasks orphans closes with_orphans]. rewrite (flat_map_perm held_by _ _ Hp), (flat_map_perm freed_by _ _ Hp). simpl.
    change (registered (with_tasks _ _)) with (registered s). change (waiting (with_tasks _ _)) with (waiting s). solve_Permutation.
  - intros _ x Hx. left. revert Hx. unfold free. cbn [with_tasks tasks orphans closes with_orphans]. rewrite (flat_map_perm freed_by _ _ Hp). simpl.
    rewrite !elem_of_app, !elem_of_cons, ?elem_of_app, ?elem_of_nil. tauto.
  - intros x Hx. by apply list_elem_of_singleton in Hx.
  - intros x Hx. by apply elem_of_nil in Hx.
  - intros x t _ _ ->%list_elem_of_singleton. done.
Qed.

Lemma inv_close_instance s e rest : Inv s → tasks s ≡ₚ CloseInstance e :: rest → Inv (with_tasks (log_close s e) ([] ++ rest)).
Proof.
  intros Hi Hp. apply (inv_restate s _ [CloseInstance e]); try done; [exact (entries_ok_same s _ Hi)|by apply Hi| | | | |].
  - unfold held, free. cbn [with_tasks tasks orphans closes log_close]. rewrite (flat_map_perm held_by _ _ Hp), (flat_map_perm freed_by _ _ Hp). simpl.
    change (registered (with_tasks _ _)) with (registered s). change (waiting (with_tasks _ _)) with (waiting s). solve_Permutation.
  - intros _ x Hx. left. revert Hx. unfold free. cbn [with_tasks tasks orphans closes log_close]. rewrite (flat_map_perm freed_by _ _ Hp). simpl.
    rewrite !elem_of_app, !elem_of_cons, ?elem_of_app, ?elem_of_nil. tauto.
  - intros x Hx. by apply list_elem_of_singleton in Hx.
  - intros x Hx. by apply elem_of_nil in Hx.
  - intros x t _ _ ->%list_elem_of_singleton. done.
Qed.
(** A task that is followed by others which hold the same instances. *)
Lemma inv_follow s t rest ts : Inv s → tasks s ≡ₚ t :: rest →
  flat_map held_by ts = held_by t → flat_map freed_by ts = freed_by t →
  (∀ x, Turn x ≠ t) → Forall (λ t', ∀ x, Turn x ≠ t') ts → Forall (task_ok s) ts →
  (∀ e, e ∈ waiting s → sees_to e t → (0 < busy_of s e)%Z ∨ ∃ t', t' ∈ ts ∧ sees_to e t') →
  Inv (with_tasks s (ts ++ rest)).
Proof.
  intros Hi Hp Hh Hf Ht Hts Hok Hsee. apply (inv_retask s [t]); try done; simpl; rewrite ?app_nil_r, ?Hh, ?Hf; try done.
  - intros x Hx. apply list_elem_of_singleton in Hx. by eapply Ht.
  - intros x Hx. rewrite Forall_forall in Hts. by eapply Hts.
  - intros e t' Hw Hin Hs. apply list_elem_of_singleton in Hin as ->. by apply Hsee.
Qed.

Lemma freed_close l : flat_map freed_by (map CloseInstance l) = l.
Proof. rewrite flat_map_map. apply flat_map_single. Qed.

Lemma held_close l : flat_map held_by (map CloseInstance l) = [].
Proof. rewrite flat_map_map. apply (flat_map_nil l). Qed.

Lemma no_turn_close l : Forall (λ t', ∀ x, Turn x ≠ t') (map CloseInstance l).
Proof. apply Forall_map, Forall_true. done. Qed.

Lemma closing_ok s l : Forall (task_ok s) (map CloseInstance l).
Proof. apply Forall_map, Forall_true. done. Qed.

Lemma inv_ended s e rest ts : Inv s → tasks s ≡ₚ EndedDelete e :: rest → ts = [] ∨ (∃ id, ts = [DeleteEntry id]) →
  Inv (with_tasks s ((ts ++ [EndedRetire e]) ++ rest)).
Proof.
  intros Hi Hp Hts. apply (inv_follow s (EndedDelete e)); try done; destruct Hts as [->|[id ->]]; try done; try (by repeat constructor).
  - intros x _ Hs. right. exists (EndedRetire e). split; [by left|done].
  - intros x _ Hs. right. exists (EndedRetire e). split; [by right; left|done].
Qed.

Lemma inv_ended_retire s e rest : Inv s → tasks s ≡ₚ EndedRetire e :: rest →
  Inv (with_tasks s ((if bool_decide (e ∈ retireWhenIdle s) then [RetireIfIdle LoadMark e] else []) ++ rest)).
Proof.
  intros Hi Hp. apply (inv_follow s (EndedRetire e)); try done; case_bool_decide as Hr; try done; try (by repeat constructor).
  - intros x _ Hs. right. exists (RetireIfIdle LoadMark e). split; [by left|done].
  - intros x [Hx _]%elem_of_waiting Hs. cbn in Hs. congruence.
Qed.

Lemma inv_load_mark s e rest : Inv s → tasks s ≡ₚ RetireIfIdle LoadMark e :: rest →
  Inv (with_tasks s ((if bool_decide (e ∈ retireWhenIdle s) then [RetireIfIdle LoadBusy e] else []) ++ rest)).
Proof.
  intros Hi Hp. apply (inv_follow s (RetireIfIdle LoadMark e)); try done; case_bool_decide as Hr; try done; try (by repeat constructor).
  - intros x _ Hs. right. exists (RetireIfIdle LoadBusy e). split; [by left|done].
  - intros x [Hx _]%elem_of_waiting Hs. cbn in Hs. congruence.
Qed.

Lemma inv_load_busy s e rest : Inv s → tasks s ≡ₚ RetireIfIdle LoadBusy e :: rest →
  Inv (with_tasks s ((if bool_decide (0 < busy_of s e)%Z then [] else [RetireIfIdle Swap e]) ++ rest)).
Proof.
  intros Hi Hp. pose proof (inv_tasks _ Hi) as Ht. rewrite Hp in Ht. apply Forall_cons in Ht as [He _].
  apply (inv_follow s (RetireIfIdle LoadBusy e)); try done; case_bool_decide as Hr; try done; try (by repeat constructor).
  - constructor; [|done]. cbn in *. split; [done|lia].
  - intros x _ Hs. left. cbn in Hs. congruence.
  - intros x _ Hs. right. exists (RetireIfIdle Swap e). split; [by left|done].
Qed.

Lemma inv_swapped s e rest : Inv s → tasks s ≡ₚ RetireIfIdle Swap e :: rest → e ∈ retiring s → Inv (with_tasks s ([] ++ rest)).
Proof.
  intros Hi Hp Hr. apply (inv_follow s (RetireIfIdle Swap e)); try done. intros x [_ Hx]%elem_of_waiting Hs. cbn in Hs. congruence.
Qed.

(** A task with one instance on its way to be closed. *)
Lemma inv_pass s t t' rest : Inv s → tasks s ≡ₚ t :: rest → held_by t = [] → held_by t' = [] → freed_by t' = freed_by t → freed_by t ≠ [] →
  (∀ e, sees_to e t → False) → task_ok s t' → Inv (with_tasks s ([t'] ++ rest)).
Proof.
  intros Hi Hp Hh Hh' Hf Hn Hs Hok. apply (inv_follow s t); simpl; rewrite ?app_nil_r; try done; [congruence| | | |].
  - by intros x <-.
  - constructor; [|done]. intros x <-. by rewrite <- Hf in Hn.
  - by constructor.
  - intros e _ He. by apply Hs in He.
Qed.
(** *** Steps that change the map *)

Lemma inv_delete_entry s id e rest : Inv s → tasks s ≡ₚ DeleteEntry id :: rest → closed s = false → entries s !! id = Some e →
  temp s e = true → (busy_of s e <= 0)%Z → Inv (with_tasks (with_entries s (delete id (entries s))) ([Dispose e] ++ rest)).
Proof.
  intros Hi Hp Hc He Ht Hb. destruct (inv_entries _ Hi id e He) as [Hk Hid].
  assert (Hv : registered s ≡ₚ e :: registered (with_entries s (delete id (entries s)))).
  { unfold registered. cbn [with_entries closed entries]. rewrite Hc. by apply vals_delete. }
  apply (inv_restate s _ [DeleteEntry id]); try done; [|by apply Hi| | | | | |].
  - intros id' e' He'. cbn in He'. apply lookup_delete_Some in He' as [_ He']. by apply (entries_ok_same s [] Hi) in He' as (? & ? & ?); auto.
  - unfold held, free. cbn [with_tasks tasks orphans closes with_entries]. rewrite (flat_map_perm held_by _ _ Hp), (flat_map_perm freed_by _ _ Hp), Hv. simpl.
    change (registered (with_tasks ?a _)) with (registered a). change (waiting (with_tasks _ _)) with (waiting s). solve_Permutation.
  - intros _ x Hx. destruct (decide (x = e)) as [->|Hne]; [right; by apply idle_no_turn|left]. revert Hx. unfold free. cbn [with_tasks tasks orphans closes with_entries].
    rewrite (flat_map_perm freed_by _ _ Hp). simpl. rewrite !elem_of_app, !elem_of_cons, ?elem_of_app. tauto.
  - intros x Hx. by apply list_elem_of_singleton in Hx.
  - intros x Hx. by apply list_elem_of_singleton in Hx.
  - by repeat constructor.
  - intros x t _ _ ->%list_elem_of_singleton. done.
Qed.

Lemma inv_put_back s e rest : Inv s → tasks s ≡ₚ PutBack e :: rest → closed s = false → entries s !! id_of s e = None →
  Inv (with_tasks (with_entries s (<[id_of s e := e]> (entries s))) ([] ++ rest)).
Proof.
  intros Hi Hp Hc He. pose proof (inv_tasks _ Hi) as Ht. rewrite Hp in Ht. apply Forall_cons in Ht as [[Hk Ht] _].
  assert (Hv : registered (with_entries s (<[id_of s e := e]> (entries s))) ≡ₚ e :: registered s).
  { unfold registered. cbn [with_entries closed entries]. rewrite Hc. by apply vals_insert. }
  apply (inv_restate s _ [PutBack e]); try done; [|by apply Hi| | | | |].
  - intros id' e' He'. cbn in He'. apply lookup_insert_Some in He' as [[<- <-]|[_ He']].
    + split_and!; [done..|]. intros Hcf. apply config_temp in Hcf. congruence.
    + by apply (entries_ok_same s [PutBack e] Hi).
  - unfold held, free. cbn [with_tasks tasks orphans closes with_entries]. rewrite (flat_map_perm held_by _ _ Hp), (flat_map_perm freed_by _ _ Hp).
    change (registered (with_tasks ?a _)) with (registered a). change (waiting (with_tasks _ _)) with (waiting s). rewrite Hv. simpl. solve_Permutation.
  - intros _ x Hx. left. revert Hx. unfold free. cbn [with_tasks tasks orphans closes with_entries].
    rewrite (flat_map_perm freed_by _ _ Hp). simpl. rewrite !elem_of_app, !elem_of_cons, ?elem_of_app. tauto.
  - intros x Hx. by apply list_elem_of_singleton in Hx.
  - intros x Hx. by apply elem_of_nil in Hx.
  - intros x t _ _ ->%list_elem_of_singleton. done.
Qed.

(** *** The commit of a reload *)

(** The cases of the loop, for the next entry. *)
Lemma commit_cases s doomed id e rest ents rebuilt :
  let next := commit_loop s doomed rest in
  (∃ t, (temp s e = false ∧ t = MarkRetire e ∨ temp s e = true ∧ (busy_of s e <= 0)%Z ∧ t = Dispose e) ∧
    commit_loop s doomed ((id, e) :: rest) ents rebuilt = ((next ents rebuilt).1, t :: (next ents rebuilt).2)) ∨
  (temp s e = true ∧ commit_loop s doomed ((id, e) :: rest) ents rebuilt = next (<[id := e]> ents) rebuilt) ∨
  (∃ nb, temp s e = true ∧ (busy_of s e <= 0)%Z ∧ rebuilt !! id = Some nb ∧
    commit_loop s doomed ((id, e) :: rest) ents rebuilt =
      ((next (<[id := nb]> ents) (delete id rebuilt)).1, CloseReplaced e :: (next (<[id := nb]> ents) (delete id rebuilt)).2)).
Proof.
  intros next. cbn [commit_loop]. fold next. destruct (temp s e) eqn:Ht; cbn [negb].
  - destruct (rebuilt !! id) as [nb|].
    + destruct (_ && _) eqn:Hm.
      * apply andb_true_iff in Hm as [_ Hb%bool_decide_eq_true]. right; right. exists nb. destruct (next _ _) as [[? ?] ?]; auto.
      * destruct (bool_decide (id ∈ doomed) && _) eqn:Hd; [|by right; left].
        apply andb_true_iff in Hd as [_ Hb%bool_decide_eq_true]. left. exists (Dispose e). destruct (next _ _) as [[? ?] ?]; auto.
    + destruct (bool_decide (id ∈ doomed) && _) eqn:Hd; [|by right; left].
      apply andb_true_iff in Hd as [_ Hb%bool_decide_eq_true]. left. exists (Dispose e). destruct (next _ _) as [[? ?] ?]; auto.
  - left. exists (MarkRetire e). destruct (next _ _) as [[? ?] ?]; auto.
Qed.

Lemma commit_perm s doomed cur : NoDup cur.*1 → ∀ ents rebuilt, (∀ id e, (id, e) ∈ cur → temp s e = true → ents !! id = None) →
  let '(ents', rest', ts) := commit_loop s doomed cur ents rebuilt in
  vals ents' ++ vals rest' ++ flat_map held_by ts ++ flat_map freed_by ts ≡ₚ cur.*2 ++ vals ents ++ vals rebuilt.
Proof.
  induction cur as [|[id e] cur IH]; intros Hn ents rebuilt He; [simpl; by rewrite !app_nil_r|].
  apply NoDup_cons in Hn as [Hid Hn]. specialize (IH Hn).
  assert (Hrest : ∀ nb, ∀ id' e', (id', e') ∈ cur → temp s e' = true → <[id:=nb]> ents !! id' = None).
  { intros nb id' e' Hin Ht. rewrite lookup_insert_ne; [by eapply He; [right|]|]. intros <-. apply Hid, list_elem_of_fmap. by exists (id, e'). }
  destruct (commit_cases s doomed id e cur ents rebuilt) as [(t & Ht & ->)|[[Ht ->]|(nb & Ht & Hb & Hr & ->)]].
  - specialize (IH ents rebuilt). destruct (commit_loop s doomed cur ents rebuilt) as [[ents' rest'] ts]. cbn [fst snd fmap list_fmap].
    rewrite <- app_comm_cons, <- IH by (intros; eapply He; [by right|done]). destruct Ht as [(_ & ->)|(_ & _ & ->)]; simpl; solve_Permutation.
  - specialize (IH (<[id := e]> ents) rebuilt (Hrest e)). destruct (commit_loop s doomed cur _ rebuilt) as [[ents' rest'] ts]. rewrite IH.
    rewrite vals_insert by (eapply He; [by left|done]). cbn [fst snd fmap list_fmap]. solve_Permutation.
  - specialize (IH (<[id := nb]> ents) (delete id rebuilt) (Hrest nb)). destruct (commit_loop s doomed cur _ _) as [[ents' rest'] ts]. cbn [fst snd fmap list_fmap].
    rewrite (vals_delete rebuilt id nb) by done. rewrite vals_insert in IH by (eapply He; [by left|done]). simpl.
    transitivity (e :: vals ents' ++ vals rest' ++ flat_map held_by ts ++ flat_map freed_by ts); [solve_Permutation|]. rewrite IH. solve_Permutation.
Qed.

(** What the loop puts in the map, what it leaves of the rebuilt, and what it asks
    for. *)
Definition commit_from (s : State) (cur : list (string * nat)) (ents rebuilt : gmap string nat) (x : gmap string nat * gmap string nat * list Task) : Prop :=
  (∀ id e, x.1.1 !! id = Some e → ents !! id = Some e ∨ ((id, e) ∈ cur ∧ temp s e = true) ∨ rebuilt !! id = Some e) ∧
  (∀ id e, x.1.2 !! id = Some e → rebuilt !! id = Some e) ∧
  (∀ t, t ∈ x.2 → ∃ id e, (id, e) ∈ cur ∧ (temp s e = false ∧ t = MarkRetire e ∨ temp s e = true ∧ (busy_of s e <= 0)%Z ∧ (t = Dispose e ∨ t = CloseReplaced e))).

Lemma commit_entries s doomed cur : ∀ ents rebuilt, commit_from s cur ents rebuilt (commit_loop s doomed cur ents rebuilt).
Proof.
  induction cur as [|[id e] cur IH]; intros ents rebuilt; [simpl; split_and!; [auto|auto|by intros t ?%elem_of_nil]|].
  destruct (commit_cases s doomed id e cur ents rebuilt) as [(t & Ht & ->)|[[Ht ->]|(nb & Ht & Hb & Hr & ->)]].
  - destruct (IH ents rebuilt) as (IH1 & IH2 & IH3). split_and!; [| exact IH2|].
    + intros id' e' He'. destruct (IH1 id' e' He') as [?|[[]|?]]; auto. right; left. split; [by right|done].
    + intros t' [->|Ht']%elem_of_cons; [exists id, e; split; [by left|]; destruct Ht as [?|(?&?&?)]; auto|].
      destruct (IH3 t' Ht') as (id' & e' & ? & ?). exists id', e'. split; [by right|done].
  - destruct (IH (<[id := e]> ents) rebuilt) as (IH1 & IH2 & IH3). split_and!; [| exact IH2|].
    + intros id' e' He'. destruct (IH1 id' e' He') as [Hx|[[]|?]]; auto; [|by right; left; split; [right|]].
      apply lookup_insert_Some in Hx as [[<- <-]|[_ Hx]]; [right; left; split; [by left|done]|auto].
    + intros t' Ht'. destruct (IH3 t' Ht') as (id' & e' & ? & ?). exists id', e'. split; [by right|done].
  - destruct (IH (<[id := nb]> ents) (delete id rebuilt)) as (IH1 & IH2 & IH3). split_and!.
    + intros id' e' He'. destruct (IH1 id' e' He') as [Hx|[[]|Hx]]; [|by right; left; split; [right|]|right; right; by apply lookup_delete_Some in Hx as []].
      apply lookup_insert_Some in Hx as [[<- <-]|[_ Hx]]; auto.
    + intros id' e' Hx%IH2. by apply lookup_delete_Some in Hx as [].
    + intros t' [->|Ht']%elem_of_cons; [exists id, e; split; [by left|auto]|].
      destruct (IH3 t' Ht') as (id' & e' & ? & ?). exists id', e'. split; [by right|done].
Qed.

Lemma registered_held s id e : closed s = false → entries s !! id = Some e → e ∈ held s.
Proof. intros Hc He. unfold held, registered. rewrite Hc, elem_of_app. left. apply elem_of_vals. by exists id. Qed.

(** What a committed reload leaves is as the invariant wants it. *)
Lemma commit_ok s c r d rest : Inv s → tasks s ≡ₚ Reloading c r d :: rest → closed s = false →
  let '(ents, rest', ts) := commit_loop s d (go_range (entries s)) c r in
  entries_ok s [Reloading c r d] ents ∧ Forall (task_ok (with_entries s ents)) ts.
Proof.
  intros Hi Hp Hc. pose proof (inv_tasks _ Hi) as Ht. rewrite Hp in Ht. apply Forall_cons in Ht as [(Hcs & Hrs & Hct) _].
  pose proof (commit_entries s d (go_range (entries s)) c r) as Hce. destruct (commit_loop _ _ _ _ _) as [[ents rest'] ts]. destruct Hce as (He & _ & Hts).
  assert (Hfreed : ∀ id e, c !! id = Some e → e ∈ flat_map freed_by [Reloading c r d]).
  { intros id e Hx. simpl. rewrite !elem_of_app. left. left. apply elem_of_vals. by exists id. }
  split.
  - intros id e Hx. destruct (He id e Hx) as [Hx'|[[Hin Htemp]|Hx']].
    + destruct (Hcs id e Hx') as ((i & Hk & ?) & ? & ?). split_and!; [by eexists|done|]. intros _. right. split; [by eapply Hfreed|done].
    + apply elem_of_go_range in Hin. destruct (inv_entries _ Hi id e Hin). auto.
    + destruct (Hrs id e Hx') as (? & Htemp & ?). split_and!; [done..|]. intros Hcf. apply config_temp in Hcf. congruence.
  - apply Forall_forall. intros t Hin. destruct (Hts t Hin) as (id & e & Hcur & Hcase). apply elem_of_go_range in Hcur.
    destruct (inv_entries _ Hi id e Hcur) as [Hk Hid].
    destruct Hcase as [[Htemp ->]|(Htemp & _ & [-> | ->])]; [|by split|done].
    assert (Hcf : config s e) by by apply not_temp_config. split_and!; [done| |].
    + intros id' Hx. cbn in Hx. destruct (He id' e Hx) as [Hx'|[[_ ?]|Hx']]; [|congruence|destruct (Hrs id' e Hx') as (_ & ? & _); congruence].
      eapply (inv_disjoint s e Hi); [by eapply registered_held|]. eapply freed_by_free; [|by eapply Hfreed].
      intros t ->%list_elem_of_singleton. rewrite Hp. by left.
    + intros Hr. destruct (proj2 (inv_flags _ Hi) e Hr) as [_ Hu]. by apply (Hu id).
Qed.

Lemma inv_commit s c r d rest : Inv s → tasks s ≡ₚ Reloading c r d :: rest → closed s = false →
  let '(ents, rest', ts) := commit_loop s d (go_range (entries s)) c r in
  Inv (with_tasks (with_entries s ents) ((map CloseInstance (vals rest') ++ ts) ++ rest)).
Proof.
  intros Hi Hp Hc. pose proof (inv_tasks _ Hi) as Ht. rewrite Hp in Ht. apply Forall_cons in Ht as [(Hcs & Hrs & Hct) _].
  pose proof (commit_ok s c r d rest Hi Hp Hc) as Hok. pose proof (commit_entries s d (go_range (entries s)) c r) as Hce.
  assert (Hperm : NoDup (go_range (entries s)).*1) by (rewrite go_range_perm; apply NoDup_fst_map_to_list).
  apply (commit_perm s d) with (ents := c) (rebuilt := r) in Hperm.
  2: { intros id e Hin Htemp. apply elem_of_go_range in Hin. destruct (inv_entries _ Hi id e Hin) as [Hk <-]. by apply Hct. }
  destruct (commit_loop _ _ _ _ _) as [[ents rest'] ts]. destruct Hok as [Hok1 Hok2], Hce as (_ & Hrest & Hts). cbn [fst snd] in Hrest, Hts.
  assert (Hnt : ∀ x, Turn x ∉ map CloseInstance (vals rest') ++ ts).
  { intros x [Hx|Hx]%elem_of_app; [by apply list_elem_of_fmap in Hx as (? & ? & _)|].
    destruct (Hts _ Hx) as (? & ? & _ & [[_ ?]|(_ & _ & [?|?])]); congruence. }
  apply (inv_restate s (with_entries s ents) [Reloading c r d]); try done; [by apply Hi| | | | |].
  - unfold held, free. cbn [with_tasks tasks orphans closes with_entries]. rewrite (flat_map_perm held_by _ _ Hp), (flat_map_perm freed_by _ _ Hp).
    change (waiting (with_tasks _ _)) with (waiting s). unfold registered. cbn [with_tasks closed entries with_entries]. rewrite Hc, !flat_map_app, held_close, freed_close.
    rewrite go_range_vals in Hperm. cbn [flat_map held_by freed_by app].
    transitivity ((vals ents ++ vals rest' ++ flat_map held_by ts ++ flat_map freed_by ts) ++ flat_map held_by rest ++ waiting s ++ orphans s ++ flat_map freed_by rest ++ closes s); [solve_Permutation|].
    rewrite Hperm. solve_Permutation.
  - intros _ e Hin. unfold free in Hin. cbn [with_tasks tasks orphans closes with_entries] in Hin.
    rewrite !flat_map_app, freed_close, !elem_of_app in Hin.
    assert (Hcase : e ∈ free s ∨ ∃ t, t ∈ ts ∧ e ∈ freed_by t); [|destruct Hcase as [?|(t & Hin' & Hfr)]; [by left|]].
    { unfold free. rewrite (flat_map_perm freed_by _ _ Hp). simpl. rewrite !elem_of_app. rewrite elem_of_flat_map in Hin.
      destruct Hin as [?|[[[Hin|?]|?]|?]]; auto 10. apply elem_of_vals in Hin as [id Hin%Hrest]. left. right. left. left. right. apply elem_of_vals. by exists id. }
    right. destruct (Hts _ Hin') as (id & e' & Hcur & Hc'). apply elem_of_go_range in Hcur. destruct (inv_entries _ Hi _ _ Hcur) as [Hk _].
    destruct Hc' as [[_ ->]|(_ & Hb & [-> | ->])]; [by apply elem_of_nil in Hfr| |]; apply list_elem_of_singleton in Hfr as ->; by apply idle_no_turn.
  - intros x Hx. by apply list_elem_of_singleton in Hx.
  - apply Forall_app. split; [apply closing_ok|done].
  - intros x t _ _ ->%list_elem_of_singleton. done.
Qed.
(** *** New instances *)

Lemma to_list_union {A} (m1 m2 : gmap nat A) : m1 ##ₘ m2 → map_to_list (m1 ∪ m2) ≡ₚ map_to_list m1 ++ map_to_list m2.
Proof.
  induction m1 as [|i x m1 Hn IH] using map_ind; intros Hd; [by rewrite (left_id_L ∅ (∪)), map_to_list_empty|].
  apply map_disjoint_insert_l in Hd as [Hi Hd]. rewrite <- insert_union_l, !map_to_list_insert, (IH Hd); [done|done|].
  by apply lookup_union_None.
Qed.

Section extend.
Context (s : State) (N : gmap nat Entry) (M : gmap nat Meta).
Context (Hi : Inv s) (HN : N ##ₘ infos s) (HM : M ##ₘ metas s).
Context (Hfresh : ∀ m x, M !! m = Some x → x = fresh_meta).
Context (Hmeta : ∀ e i, N !! e = Some i →
  is_Some (M !! e_meta i) ∨ (e_Temp i = true ∧ ∃ cur, known s cur ∧ temp s cur = true ∧ meta_of s cur = e_meta i)).
Context (Hown : ∀ e i e' i', N !! e = Some i → e_Temp i = false → N !! e' = Some i' → e_meta i' = e_meta i → e' = e).

Let s1 := with_infos s (N ∪ infos s) (M ∪ metas s).

Lemma extend_old e : known s e → infos s1 !! e = infos s !! e.
Proof. intros [i Hk]. unfold s1. cbn. rewrite (lookup_union_Some_r _ _ _ _ HN Hk). done. Qed.

Lemma extend_new e i : N !! e = Some i → infos s1 !! e = Some i.
Proof. intros He. unfold s1. cbn. by apply lookup_union_Some_l. Qed.

Lemma extend_known e : known s1 e → known s e ∨ ∃ i, N !! e = Some i.
Proof. intros [i Hk]. unfold s1 in Hk. cbn in Hk. apply lookup_union_Some in Hk as [Hk|Hk]; [right; by exists i|left; by exists i|done]. Qed.

Lemma extend_fresh e i : N !! e = Some i → ¬ known s e.
Proof. intros He [i' Hk]. eapply (map_disjoint_spec N (infos s)); eauto. Qed.

Lemma extend_still e : known s e → known s1 e.
Proof. intros Hk. unfold known. by rewrite (extend_old e Hk). Qed.

Lemma extend_meta e : known s e → meta_of s1 e = meta_of s e.
Proof. intros Hk. unfold meta_of. by rewrite (extend_old e Hk). Qed.

Lemma extend_old_meta m : is_Some (metas s !! m) → metas s1 !! m = metas s !! m.
Proof. intros [x Hx]. unfold s1. cbn. rewrite (lookup_union_Some_r _ _ _ _ HM Hx). done. Qed.

Lemma extend_busy e : known s e → busy_of s1 e = busy_of s e.
Proof. intros Hk. unfold busy_of. rewrite extend_meta by done. rewrite extend_old_meta; [done|]. by apply (inv_busy _ Hi). Qed.

Lemma extend_config e : config s1 e → config s e ∨ ∃ i, N !! e = Some i ∧ e_Temp i = false.
Proof.
  intros (i & Hk & Ht). destruct (extend_known e) as [Hold|[i' Hnew]]; [by exists i| |].
  - left. exists i. by rewrite <- (extend_old e Hold).
  - right. exists i'. rewrite (extend_new e i' Hnew) in Hk. by simplify_eq.
Qed.

Lemma extend_config_still e : config s e → config s1 e.
Proof. intros (i & Hk & Ht). exists i. rewrite (extend_old e); [done|by exists i]. Qed.

Lemma extend_turns m ts : (∀ x, Turn x ∉ ts) → turns (with_tasks s1 (ts ++ tasks s)) m = turns s m.
Proof.
  intros Hts. unfold turns. cbn [with_tasks tasks]. change (is_turn (with_tasks s1 (ts ++ tasks s))) with (is_turn s1).
  rewrite count_plus, (no_turns_count s1 _ ts) by done. rewrite Z.add_0_l. apply count_ext. intros t Ht. destruct t as [e| | | | | | | | | | |]; try done.
  cbn. rewrite extend_meta; [done|]. pose proof (inv_tasks _ Hi) as Hok. rewrite Forall_forall in Hok. by apply (Hok (Turn e)).
Qed.

Lemma extend_no_turns m : is_Some (M !! m) → turns s m = 0%Z.
Proof.
  intros [x Hx]. apply count_zero, Forall_forall. intros t Ht. destruct t as [e| | | | | | | | | | |]; try done.
  cbn. apply bool_decide_eq_false. intros <-. pose proof (inv_tasks _ Hi) as Hok. rewrite Forall_forall in Hok. specialize (Hok _ Ht).
  destruct (inv_busy _ Hi e Hok) as [[y Hy] _]. eapply (map_disjoint_spec M (metas s)); eauto.
Qed.

Lemma extend_busy_ok ts e : (∀ x, Turn x ∉ ts) → known s1 e →
  is_Some (metas s1 !! meta_of s1 e) ∧ busy_of s1 e = turns (with_tasks s1 (ts ++ tasks s)) (meta_of s1 e).
Proof.
  intros Hts Hk. rewrite extend_turns by done. destruct (extend_known e Hk) as [Hold|[i Hnew]].
  - destruct (inv_busy _ Hi e Hold) as [Hs Hb]. rewrite extend_busy, extend_meta, extend_old_meta by done. done.
  - assert (Hm : meta_of s1 e = e_meta i) by (unfold meta_of; by rewrite (extend_new e i)). unfold busy_of. rewrite Hm.
    destruct (Hmeta e i Hnew) as [[x Hx]|(_ & cur & Hcur & _ & Hcm)].
    + rewrite extend_no_turns by by eexists. unfold s1. cbn. rewrite (lookup_union_Some_l _ _ _ _ Hx), (Hfresh _ _ Hx). done.
    + destruct (inv_busy _ Hi cur Hcur) as [Hs Hb]. rewrite <- Hcm, extend_old_meta by done. done.
Qed.

Lemma extend_meta_ok e e' : config s1 e → known s1 e' → meta_of s1 e = meta_of s1 e' → e = e'.
Proof.
  intros Hc Hk Hm. assert (Hdis : ∀ x, is_Some (M !! meta_of s x) → known s x → False).
  { intros x [y Hy] Hx. destruct (inv_busy _ Hi x Hx) as [[z Hz] _]. eapply (map_disjoint_spec M (metas s)); eauto. }
  destruct (extend_config e Hc) as [Hold|(i & Hnew & Ht)], (extend_known e' Hk) as [Hold'|[i' Hnew']].
  - pose proof Hold as (j & Hj & _). rewrite !extend_meta in Hm by (done || by eexists). by apply (inv_meta _ Hi).
  - pose proof Hold as (j & Hj & _). rewrite extend_meta in Hm by by eexists. unfold meta_of at 2 in Hm. rewrite (extend_new e' i') in Hm by done.
    destruct (Hmeta e' i' Hnew') as [Hx|(_ & cur & Hcur & Htc & Hcm)].
    + rewrite <- Hm in Hx. destruct (Hdis e Hx). by eexists.
    + assert (e = cur) as <- by (apply (inv_meta _ Hi); congruence). apply config_temp in Hold. congruence.
  - rewrite (extend_meta e') in Hm by done. unfold meta_of at 1 in Hm. rewrite (extend_new e i) in Hm by done.
    destruct (Hmeta e i Hnew) as [Hx|(? & _)]; [|congruence]. rewrite Hm in Hx. by destruct (Hdis e' Hx).
  - unfold meta_of in Hm. rewrite (extend_new e i), (extend_new e' i') in Hm by done. symmetry. by eapply Hown.
Qed.

Lemma extend_task t : task_ok s t → is_reload t = false → task_ok s1 t.
Proof.
  destruct t as [e|e|e|e|[] e|e|e|e|id|e|e|c r d]; cbn [task_ok is_reload]; try done.
  - intros Hk _. by apply extend_still.
  - intros (Hc & Hu & Hn) _. split_and!; [by apply extend_config_still|done|done].
  - intros [He Hb] _. split; [done|]. rewrite extend_busy; [done|]. destruct (proj2 (inv_flags _ Hi) e He) as [(i & Hk & _) _]. by eexists.
  - intros [Hk Ht] _. split; [by apply extend_still|]. unfold temp. by rewrite extend_old.
  - intros [Hk Ht] _. split; [by apply extend_still|]. unfold temp. by rewrite extend_old.
Qed.

Lemma inv_extend ts : existsb is_reload (tasks s) = false → flat_map held_by ts = [] → flat_map freed_by ts ≡ₚ (map_to_list N).*1 →
  (∀ x, Turn x ∉ ts) → Forall (task_ok s1) ts → Inv (with_tasks s1 (ts ++ tasks s)).
Proof.
  intros Hre Hh Hf Hts Hok. pose proof Hi as [Hho He Hb Hfl Ht Hm Hfr Hw]. set (s' := with_tasks s1 _).
  assert (Hown' : free s' ≡ₚ (map_to_list N).*1 ++ free s).
  { unfold free, s'. cbn [with_tasks tasks orphans closes]. rewrite flat_map_app, Hf. unfold s1. cbn [with_infos orphans closes]. solve_Permutation. }
  split.
  - rewrite Hown'. change (infos s') with (N ∪ infos s). rewrite (to_list_union _ _ HN), fmap_app, <- Hho. unfold held. unfold s' at 2. cbn [with_tasks tasks].
    rewrite flat_map_app, Hh. change (registered s') with (registered s). change (waiting s') with (waiting s). simpl. solve_Permutation.
  - intros id e Hid. change (entries s !! id = Some e) in Hid. destruct (He id e Hid) as [Hk Hx]. split; [by apply extend_still|]. 
    change (id_of s1 e = id). unfold id_of. by rewrite (extend_old e Hk).
  - intros e Hk. by apply extend_busy_ok.
  - split; [apply Hfl|]. intros e Hin. destruct (proj2 Hfl e Hin) as [Hc Hu]. split; [by apply extend_config_still|exact Hu].
  - unfold s'. cbn [with_tasks tasks]. apply Forall_app. split; [exact Hok|]. apply Forall_forall. intros t Hin. apply (extend_task t).
    + rewrite Forall_forall in Ht. auto.
    + destruct (is_reload t) eqn:Hr; [|done]. assert (Hex : existsb is_reload (tasks s) = true); [|congruence]. apply existsb_Exists. by exists t.
  - exact extend_meta_ok.
  - intros Hc e. rewrite Hown', elem_of_app. unfold s'. cbn [with_tasks tasks]. intros Hin [Hx|Hx]%elem_of_app; [by apply Hts in Hx|].
    destruct Hin as [Hin|Hin]; [|by apply (Hfr Hc e Hin)]. apply list_elem_of_fmap in Hin as ([e' i] & -> & Hin%elem_of_map_to_list).
    rewrite Forall_forall in Ht. apply (extend_fresh e' i Hin). by apply (Ht (Turn e')).
  - intros e Hin. change (e ∈ waiting s) in Hin. pose proof Hin as [Hin' _]%elem_of_waiting. destruct (proj2 Hfl e Hin') as [(i & Hk & _) _].
    change (busy_of s' e) with (busy_of s1 e). rewrite extend_busy by by eexists. destruct (Hw e Hin) as [?|(t & ? & ?)]; [by left|right].
    exists t. split; [|done]. unfold s'. cbn [with_tasks tasks]. apply elem_of_app. by right.
Qed.
End extend.
(** *** Steps of calls *)

Lemma inv_begin_turn s id e : Inv s → entries s !! id = Some e → Inv (with_tasks (add_busy s e 1) (Turn e :: tasks s)).
Proof.
  intros Hi Hid. pose proof Hi as [Hh He Hb Hf Ht Hm Hfr Hw]. destruct (He id e Hid) as [Hke Hide]. set (s' := with_tasks _ _).
  assert (Hbusy : ∀ e', known s e' → busy_of s' e' = (busy_of s e' + (if bool_decide (meta_of s e' = meta_of s e) then 1 else 0))%Z).
  { intros e' Hk. apply add_busy_of. by apply Hb. }
  assert (Hret : ∀ e', e' ∈ retireWhenIdle s → busy_of s' e' = busy_of s e').
  { intros e' Hr. destruct (proj2 Hf e' Hr) as [Hc Hu]. pose proof Hc as (i & Hk & _). rewrite Hbusy by by eexists.
    rewrite bool_decide_false; [lia|]. intros Heq. apply (Hm e' e Hc Hke) in Heq as ->. by apply (Hu id). }
  split; try done.
  - intros e' Hk. change (known s e') in Hk. split; [apply add_busy_some, Hb, Hk|].
    rewrite Hbusy by done. destruct (Hb e' Hk) as [_ ->]. unfold turns at 2, s'. cbn [with_tasks tasks]. rewrite count_cons. 
    change (is_turn (with_tasks (add_busy s e 1) (Turn e :: tasks s))) with (is_turn s). change (meta_of (with_tasks _ _) e') with (meta_of s e'). cbn [is_turn].
    rewrite Z.add_comm. unfold turns. f_equal. destruct (decide (meta_of s e' = meta_of s e)); [by rewrite !bool_decide_true by done|by rewrite !bool_decide_false by congruence].
  - unfold s'. cbn [with_tasks tasks]. constructor; [exact Hke|]. eapply Forall_impl; [exact Ht|]. intros t. apply task_ok_frame; try done.
    intros e' He'. change (busy_of s' e' <= busy_of s e')%Z. rewrite Hret by done. lia.
  - intros Hc e' Hin. change (e' ∈ free s) in Hin. unfold s'. cbn [with_tasks tasks]. intros [Hx|Hx]%elem_of_cons; [|by apply (Hfr Hc e')].
    injection Hx as ->. eapply (inv_disjoint s e Hi); [|done]. by eapply registered_held.
  - intros e' Hin. change (e' ∈ waiting s) in Hin. rewrite Hret by by apply elem_of_waiting in Hin as [].
    destruct (Hw e' Hin) as [?|(t & Htin & Hs)]; [by left|right]. exists t. split; [by right|done].
Qed.

Lemma inv_add_task s t : Inv s → held_by t = [] → freed_by t = [] → (∀ x, Turn x ≠ t) → task_ok s t → Inv (with_tasks s (t :: tasks s)).
Proof.
  intros Hi Hh Hf Ht Hok. apply (inv_retask s [] (tasks s) [t]); try done; simpl; rewrite ?app_nil_r, ?Hh, ?Hf; try done.
  - intros x Hx. by apply elem_of_nil in Hx.
  - intros x Hx%list_elem_of_singleton. by apply (Ht x).
  - by constructor.
  - intros e t' _ Hx. by apply elem_of_nil in Hx.
Qed.

Lemma inv_mark_delete s k : Inv s → Inv (with_metas s (alter (λ m, {| busy := busy m; deleteWhenIdle := true |}) k (metas s))).
Proof.
  intros Hi. pose proof Hi as [Hh He Hb Hf Ht Hm Hfr Hw]. set (s' := with_metas s _).
  assert (Hbusy : ∀ e, busy_of s' e = busy_of s e).
  { intros e. unfold busy_of. change (meta_of s' e) with (meta_of s e). unfold s'. cbn [with_metas metas].
    destruct (decide (k = meta_of s e)) as [->|Hne]; [rewrite lookup_alter_eq; by destruct (metas s !! meta_of s e)|by rewrite lookup_alter_ne]. }
  split; try done.
  - intros e Hk. rewrite Hbusy. unfold s'. cbn [with_metas metas]. rewrite lookup_alter_is_Some. by apply Hb.
  - eapply Forall_impl; [exact Ht|]. intros t. apply task_ok_frame; try done. intros e _. rewrite Hbusy. lia.
  - intros e Hin. rewrite Hbusy. by apply Hw.
Qed.

Lemma inv_retry_orphans s : Inv s → Inv (with_tasks (with_orphans s []) (map CloseReplaced (orphans s) ++ tasks s)).
Proof.
  intros Hi. assert (Hf : flat_map freed_by (map CloseReplaced (orphans s)) = orphans s) by (rewrite flat_map_map; apply flat_map_single).
  assert (Hh : flat_map held_by (map CloseReplaced (orphans s)) = []) by (rewrite flat_map_map; apply (flat_map_nil (orphans s))).
  assert (Hfree : free (with_tasks (with_orphans s []) (map CloseReplaced (orphans s) ++ tasks s)) ≡ₚ free s).
  { unfold free. cbn [with_tasks with_orphans orphans tasks closes]. rewrite flat_map_app, Hf. simpl. solve_Permutation. }
  apply (inv_restate s _ [] (tasks s)); try done; [exact (entries_ok_same s _ Hi)|by apply Hi| | | | | |].
  - rewrite Hfree. unfold held. cbn [with_tasks with_orphans tasks]. by rewrite flat_map_app, Hh.
  - intros _ e Hin. left. by rewrite <- Hfree.
  - intros x Hx. by apply elem_of_nil in Hx.
  - intros x Hx. by apply list_elem_of_fmap in Hx as (? & ? & _).
  - by apply Forall_map, Forall_true.
  - intros e t _ _ Hx. by apply elem_of_nil in Hx.
Qed.

Lemma inv_close s : Inv s → closed s = false →
  Inv (with_tasks (set_closed s) (map CloseInstance (vals (entries s) ++ orphans s) ++ tasks s)).
Proof.
  intros Hi Hc. apply (inv_restate s (set_closed s) [] (tasks s)); try done; [exact (entries_ok_same s _ Hi)|by apply Hi| | | | |].
  - unfold held, free, registered. cbn [with_tasks set_closed orphans tasks closes closed entries]. rewrite Hc, !flat_map_app, held_close, freed_close.
    change (waiting (with_tasks _ _)) with (waiting s). simpl. solve_Permutation.
  - intros x Hx. by apply elem_of_nil in Hx.
  - intros x Hx. by apply list_elem_of_fmap in Hx as (? & ? & _).
  - apply closing_ok.
  - intros e t _ _ Hx. by apply elem_of_nil in Hx.
Qed.
(** A new temporary agent is first an instance to be put in the map. *)
Lemma inv_built s e i m : Inv s → existsb is_reload (tasks s) = false → infos s !! e = None → metas s !! m = None →
  e_Temp i = true → e_meta i = m → Inv (with_tasks (with_infos s (<[e := i]> (infos s)) (<[m := fresh_meta]> (metas s))) (PutBack e :: tasks s)).
Proof.
  intros Hi Hre He Hm Htemp Hmi. rewrite !insert_union_singleton_l.
  assert (HN : {[e := i]} ##ₘ infos s) by by apply map_disjoint_singleton_l_2.
  assert (HM : {[m := fresh_meta]} ##ₘ metas s) by by apply map_disjoint_singleton_l_2.
  apply (inv_extend s {[e := i]} {[m := fresh_meta]} Hi HN HM) with (ts := [PutBack e]); try done.
  - intros k x Hx. by apply lookup_singleton_Some in Hx as [_ <-].
  - intros x j Hx. apply lookup_singleton_Some in Hx as [_ <-]. left. rewrite Hmi, lookup_singleton_eq. by eexists.
  - intros x j x' j' Hx _ Hx' _. apply lookup_singleton_Some in Hx as [<- _], Hx' as [<- _]. done.
  - by rewrite map_to_list_singleton.
  - intros x Hx. by apply list_elem_of_singleton in Hx.
  - constructor; [|done]. cbn. unfold known, temp. cbn. rewrite (lookup_union_Some_l _ _ _ i); [split; [by eexists|done]|]. apply lookup_singleton_eq.
Qed.

Lemma inv_create s id e m inTurn s' : Inv s → call (Create id e m inTurn) s = Some s' → Inv s'.
Proof.
  intros Hi. steps. destruct (existsb is_reload (tasks s)) eqn:Hre; [done|]. destruct (infos s !! e) eqn:He; [done|].
  destruct (metas s !! m) eqn:Hm; [done|]. destruct (entries s !! id) eqn:Hid; [done|].
  set (i := {| e_ID := id; e_Temp := true; e_meta := m |}). pose proof (inv_built s e i m Hi Hre He Hm eq_refl eq_refl) as Hb.
  set (s1 := with_tasks _ (PutBack e :: tasks s)) in Hb. assert (Hid1 : id_of s1 e = id) by (unfold id_of, s1; cbn; by rewrite lookup_insert_eq).
  destruct (closed s) eqn:Hc.
  - intros [= <-]. rewrite andb_false_r. apply (inv_pass s1 (PutBack e) (CloseInstance e) (tasks s)); try done.
  - pose proof (inv_put_back s1 e (tasks s) Hb (reflexivity _) Hc) as Hput. rewrite Hid1 in Hput. specialize (Hput Hid).
    destruct inTurn; [|by intros [= <-]]. intros [= <-]. simpl.
    set (s2 := with_tasks _ _) in Hput. pose proof (inv_begin_turn s2 id e Hput (lookup_insert_eq _ _ _)) as Hturn.
    assert (Hmt : meta_of s2 e = m) by (unfold meta_of, s2, s1; cbn; by rewrite lookup_insert_eq).
    unfold add_busy in Hturn. rewrite Hmt in Hturn. unfold s2, s1 in Hturn. cbn in Hturn. rewrite alter_insert_eq in Hturn. exact Hturn.
Qed.

Lemma vals_list_to_map l : NoDup l.*1 → vals (list_to_map l) ≡ₚ l.*2.
Proof. intros Hn. unfold vals. by rewrite map_to_list_to_map. Qed.

(** What [reload_ok] says. *)
Record Built (s : State) (configs : list (string * nat * nat)) (rebuilt : list (string * nat)) : Prop := {
  built_configs : NoDup (map fst configs).*1;
  built_rebuilt : NoDup rebuilt.*1;
  built_entries : NoDup ((map fst configs).*2 ++ rebuilt.*2);
  built_metas : NoDup configs.*2;
  built_new : ∀ e, e ∈ (map fst configs).*2 ++ rebuilt.*2 → infos s !! e = None;
  built_new_metas : ∀ m, m ∈ configs.*2 → metas s !! m = None;
  built_ids : ∀ id e i, id ∈ (map fst configs).*1 → infos s !! e = Some i → e_Temp i = true → e_ID i ≠ id;
  built_for : ∀ id e, (id, e) ∈ rebuilt → ∃ cur, entries s !! id = Some cur ∧ temp s cur = true
}.

Lemma reload_ok_built s configs rebuilt : reload_ok s configs rebuilt = true → Built s configs rebuilt.
Proof.
  unfold reload_ok. rewrite !andb_true_iff, !bool_decide_eq_true. intros (((((((H1 & H2) & H3) & H4) & H5) & H6) & H7) & H8).
  assert (E1 : (map fst configs).*1 = map (λ x : string * nat * nat, x.1.1) configs) by apply map_map.
  assert (E2 : (map fst configs).*2 = map (λ x : string * nat * nat, x.1.2) configs) by apply map_map.
  rewrite forallb_forall in H5, H6, H7, H8. setoid_rewrite <- list_elem_of_In in H5. setoid_rewrite <- list_elem_of_In in H6.
  setoid_rewrite <- list_elem_of_In in H7. setoid_rewrite <- list_elem_of_In in H8.
  split; rewrite ?E1, ?E2; try done.
  - intros e He. by apply H5, bool_decide_eq_true in He.
  - intros m Hm. by apply H6, bool_decide_eq_true in Hm.
  - intros id e i Hid Hi Ht Heq. apply H7 in Hid. rewrite forallb_forall in Hid. specialize (Hid (e, i)). rewrite <- list_elem_of_In, elem_of_map_to_list in Hid.
    specialize (Hid Hi). cbn in Hid. rewrite Ht in Hid. by rewrite bool_decide_true in Hid.
  - intros id e Hin. apply H8 in Hin. cbn in Hin. destruct (entries s !! id) as [cur|]; [by exists cur|done].
Qed.
Section reload.
Context (s : State) (configs : list (string * nat * nat)) (rebuilt : list (string * nat)).
Context (Hi : Inv s) (HB : Built s configs rebuilt).

Let N : gmap nat Entry := list_to_map (map config_entry configs ++ map (rebuilt_entry s) rebuilt).
Let M : gmap nat Meta := list_to_map (map (λ x, (x.2, fresh_meta)) configs).
Let s1 := with_infos s (N ∪ infos s) (M ∪ metas s).

Lemma new_keys : (map config_entry configs ++ map (rebuilt_entry s) rebuilt).*1 = (map fst configs).*2 ++ rebuilt.*2.
Proof.
  rewrite fmap_app. f_equal.
  - clear. induction configs as [|[[id e] m] l IH]; [done|]. cbn in *. by f_equal.
  - clear. induction rebuilt as [|[id e] l IH]; [done|]. cbn in *. by f_equal.
Qed.

Lemma new_keys_NoDup : NoDup (map config_entry configs ++ map (rebuilt_entry s) rebuilt).*1.
Proof. rewrite new_keys. apply HB. Qed.

Lemma new_metas_keys : (map (λ x : string * nat * nat, (x.2, fresh_meta)) configs).*1 = configs.*2.
Proof. clear. induction configs as [|[[id e] m] l IH]; [done|]. cbn in *. by f_equal. Qed.

Lemma new_config e i : N !! e = Some i → (∃ id m, (id, e, m) ∈ configs ∧ i = {| e_ID := id; e_Temp := false; e_meta := m |}) ∨
  (∃ id cur, (id, e) ∈ rebuilt ∧ entries s !! id = Some cur ∧ temp s cur = true ∧ i = {| e_ID := id; e_Temp := true; e_meta := meta_of s cur |}).
Proof.
  intros He%elem_of_list_to_map; [|apply new_keys_NoDup]. apply elem_of_app in He as [He|He]; apply list_elem_of_fmap in He as (x & Hx & Hin).
  - destruct x as [[id e'] m]. injection Hx as -> ->. left. by exists id, m.
  - destruct x as [id e']. injection Hx as -> ->. right. destruct (built_for _ _ _ HB id e' Hin) as (cur & Hc & Ht). rewrite Hc. by exists id, cur.
Qed.

Lemma config_new id e m : (id, e, m) ∈ configs → N !! e = Some {| e_ID := id; e_Temp := false; e_meta := m |}.
Proof.
  intros Hin. apply elem_of_list_to_map; [apply new_keys_NoDup|]. apply elem_of_app. left. apply list_elem_of_fmap. by exists (id, e, m).
Qed.

Lemma rebuilt_new id e : (id, e) ∈ rebuilt → ∃ cur, N !! e = Some {| e_ID := id; e_Temp := true; e_meta := meta_of s cur |}.
Proof.
  intros Hin. destruct (built_for _ _ _ HB id e Hin) as (cur & Hc & Ht). exists cur. apply elem_of_list_to_map; [apply new_keys_NoDup|].
  apply elem_of_app. right. apply list_elem_of_fmap. exists (id, e). split; [cbn; by rewrite Hc|done].
Qed.

Lemma new_meta id e m : (id, e, m) ∈ configs → M !! m = Some fresh_meta.
Proof.
  intros Hin. apply elem_of_list_to_map; [rewrite new_metas_keys; apply HB|]. apply list_elem_of_fmap. by exists (id, e, m).
Qed.

Lemma new_disjoint : N ##ₘ infos s.
Proof.
  apply map_disjoint_spec. intros e i j He Hj. assert (Hk : e ∈ (map fst configs).*2 ++ rebuilt.*2).
  { rewrite <- new_keys. apply list_elem_of_fmap. exists (e, i). split; [done|]. apply elem_of_list_to_map; [apply new_keys_NoDup|done]. }
  apply (built_new _ _ _ HB) in Hk. congruence.
Qed.

Lemma new_metas_disjoint : M ##ₘ metas s.
Proof.
  apply map_disjoint_spec. intros m x y Hx Hy. assert (Hk : m ∈ configs.*2).
  { rewrite <- new_metas_keys. apply list_elem_of_fmap. exists (m, x). split; [done|]. apply elem_of_list_to_map; [rewrite new_metas_keys; apply HB|done]. }
  apply (built_new_metas _ _ _ HB) in Hk. congruence.
Qed.

Lemma meta_owner id e id' e' m : (id, e, m) ∈ configs → (id', e', m) ∈ configs → e' = e.
Proof.
  intros H1 H2. pose proof (built_metas _ _ _ HB) as Hn. apply list_elem_of_lookup in H1 as [i1 H1], H2 as [i2 H2].
  assert (i1 = i2) as ->; [|congruence]. eapply (NoDup_lookup configs.*2 i1 i2 m Hn); by rewrite list_lookup_fmap, ?H1, ?H2.
Qed.

Lemma reloading_ok doomed : task_ok s1 (Reloading (list_to_map (map fst configs)) (list_to_map rebuilt) doomed).
Proof.
  assert (HNs : ∀ e i, N !! e = Some i → infos s1 !! e = Some i) by (intros e i He; apply (lookup_union_Some_l _ _ _ _ He)).
  split_and!.
  - intros id e He%elem_of_list_to_map; [|apply HB]. apply list_elem_of_fmap in He as ([[id' e'] m] & Hx & Hin). injection Hx as -> ->.
    apply config_new in Hin as Hn. apply HNs in Hn as Hk. unfold config, id_of. rewrite Hk. split_and!; [by eexists|done|].
    intros Hr. destruct (proj2 (inv_flags _ Hi) e' Hr) as [(j & Hj & _) _]. eapply (map_disjoint_spec N (infos s)); eauto using new_disjoint.
  - intros id e He%elem_of_list_to_map; [|apply HB]. apply rebuilt_new in He as (cur & Hn). apply HNs in Hn as Hk. unfold known, temp, id_of. rewrite Hk. by eauto.
  - intros e [i Hk] Ht. unfold temp, id_of in *. rewrite Hk in *. apply not_elem_of_list_to_map_1. intros Hid.
    apply lookup_union_Some in Hk as [Hk|Hk]; [| |apply new_disjoint].
    + destruct (new_config e i Hk) as [(id & m & _ & ->)|(id & cur & _ & Hc & Htc & ->)]; [done|]. cbn in Hid.
      destruct (inv_entries _ Hi id cur Hc) as [[j Hj] Hidc]. unfold temp in Htc. unfold id_of in Hidc. rewrite Hj in *. by eapply (built_ids _ _ _ HB id cur j).
    + by eapply (built_ids _ _ _ HB (e_ID i) e i).
Qed.

Lemma inv_reload doomed : existsb is_reload (tasks s) = false →
  Inv (with_tasks s1 (Reloading (list_to_map (map fst configs)) (list_to_map rebuilt) doomed :: tasks s)).
Proof.
  intros Hre. apply (inv_extend s N M Hi new_disjoint new_metas_disjoint) with (ts := [Reloading _ _ doomed]); try done.
  - intros m x Hx%elem_of_list_to_map; [|rewrite new_metas_keys; apply HB]. by apply list_elem_of_fmap in Hx as (? & [= _ ->] & _).
  - intros e i He. destruct (new_config e i He) as [(id & m & Hin & ->)|(id & cur & _ & Hc & Ht & ->)]; [left|right].
    + cbn. rewrite (new_meta id e m Hin). by eexists.
    + split; [done|]. exists cur. by destruct (inv_entries _ Hi id cur Hc).
  - intros e i e' i' He Ht He' Hm. destruct (new_config e i He) as [(id & m & Hin & ->)|(id & cur & _ & _ & _ & ->)]; [|done]. cbn in Hm.
    destruct (new_config e' i' He') as [(id' & m' & Hin' & ->)|(id' & cur & _ & Hc & _ & ->)]; cbn in Hm; [subst m'; by eapply meta_owner|].
    destruct (inv_entries _ Hi id' cur Hc) as [Hk _]. destruct (inv_busy _ Hi cur Hk) as [[y Hy] _]. rewrite Hm in Hy.
    destruct (proj1 (map_disjoint_spec M (metas s)) new_metas_disjoint m _ _ (new_meta id e m Hin) Hy).
  - simpl. rewrite app_nil_r. rewrite !vals_list_to_map by apply HB. unfold N. rewrite map_to_list_to_map by apply new_keys_NoDup. by rewrite new_keys.
  - intros x Hx. by apply list_elem_of_singleton in Hx.
  - constructor; [|done]. apply reloading_ok.
Qed.
End reload.
(** *** Every step *)

Ltac passes t := eapply (inv_pass _ t); [eassumption|eassumption|done|done|done|discriminate|intros ? []|cbn in *; tauto].

Lemma inv_run_task s t ok rest : Inv s → tasks s ≡ₚ t :: rest → Inv (with_tasks (run_task t ok s).1 ((run_task t ok s).2 ++ rest)).
Proof.
  intros Hi Hp. pose proof (inv_tasks _ Hi) as Ht. rewrite Hp in Ht. apply Forall_cons in Ht as [Hok _].
  destruct t as [e|e|e|e|[] e|e|e|e|id|e|e|c r d]; steps.
  - by apply inv_end_turn.
  - apply (inv_ended s e); [done..|]. destruct (to_delete s e && negb (closed s)); [right; by eexists|by left].
  - by apply inv_ended_retire.
  - by apply inv_mark.
  - by apply inv_load_mark.
  - by apply inv_load_busy.
  - case_bool_decide; [by eapply inv_swapped|by apply inv_swap].
  - destruct ok; passes (CloseReplaced e).
  - destruct (closed s) eqn:Hc; [passes (KeepOrphan e)|by apply inv_keep_orphan].
  - by apply inv_close_instance.
  - destruct (entries s !! id) as [e|] eqn:He; [|by apply (inv_follow s (DeleteEntry id))].
    destruct (closed s || negb (temp s e) || bool_decide (0 < busy_of s e)%Z) eqn:Hc; [by apply (inv_follow s (DeleteEntry id))|].
    apply orb_false_iff in Hc as [[Hc Ht%negb_false_iff]%orb_false_iff Hb%bool_decide_eq_false]. apply (inv_delete_entry s id); [done..|lia].
  - destruct ok; passes (Dispose e).
  - destruct (closed s) eqn:Hc; [passes (PutBack e)|].
    destruct (entries s !! id_of s e) eqn:He; [passes (PutBack e)|by apply inv_put_back].
  - destruct (closed s || negb ok) eqn:Hc.
    + apply (inv_follow s (Reloading c r d)); try done; [apply held_close|apply freed_close|apply no_turn_close|apply closing_ok].
    + apply orb_false_iff in Hc as [Hc _]. pose proof (inv_commit s c r d rest Hi Hp Hc) as Hx.
      by destruct (commit_loop _ _ _ _ _) as [[ents rest'] ts].
Qed.

Lemma inv_call s c s' : Inv s → call c s = Some s' → Inv s'.
Proof.
  intros Hi. destruct c as [id e|id e m inTurn|id|id|configs rebuilt doomed| |]; [| by apply inv_create| | | | |]; steps.
  - case_bool_decide as He; intros [= <-]; [by apply (inv_begin_turn s id)|done].
  - intros [= <-]. by apply inv_add_task.
  - destruct (entries s !! id) as [e|]; [|by intros [= <-]]. destruct (closed s || negb (temp s e)); intros [= <-]; [done|].
    apply (inv_add_task (with_metas s _)); [|done..]. by apply inv_mark_delete.
  - destruct (existsb is_reload (tasks s)) eqn:Hre; [done|]. destruct (reload_ok s configs rebuilt) eqn:Hok; [|done]. intros [= <-].
    apply inv_reload; [done| |done]. by apply reload_ok_built.
  - intros [= <-]. by apply inv_retry_orphans.
  - destruct (closed s) eqn:Hc; intros [= <-]; [done|by apply inv_close].
Qed.

Lemma inv_exec s o s' : Inv s → exec o s = Some s' → Inv s'.
Proof.
  intros Hi. destruct o as [i ok|c]; cbn [exec]; [|by apply inv_call]. destruct (tasks s !! i) as [t|] eqn:Ht; [|done].
  pose proof (inv_run_task s t ok (delete i (tasks s)) Hi (delete_Permutation _ _ _ Ht)) as Hr.
  destruct (run_task t ok s) as [s1 ts]. by intros [= <-].
Qed.

Lemma inv_execs l s s' : Inv s → execs l s = Some s' → Inv s'.
Proof.
  revert s. induction l as [|o l IH]; intros s Hi; cbn [execs]; [by intros [= <-]|]. intros (s1 & Ho & Hl)%bind_Some.
  eapply IH; [by eapply inv_exec|done].
Qed.

Definition no_agents : State :=
  {| infos := ∅; metas := ∅; entries := ∅; orphans := []; closed := false; retireWhenIdle := ∅; retiring := ∅; closes := []; tasks := [] |}.

Lemma inv_no_agents : Inv no_agents.
Proof.
  split; try done.
  - by intros e [i Hk].
  - by intros e e' (i & Hk & _).
  - intros _ e. by intros ?%elem_of_nil.
  - by intros e [? _]%elem_of_waiting.
Qed.

Lemma go_range_empty : go_range (∅ : gmap string nat) = [].
Proof. apply Permutation_nil_r. rewrite go_range_perm. by rewrite map_to_list_empty. Qed.

Lemma inv_new_registry configs : configs_ok configs → Inv (new_registry configs).
Proof.
  intros (H1 & H2 & H3).
  assert (E1 : (map fst configs).*1 = map (λ x : string * nat * nat, x.1.1) configs) by apply map_map.
  assert (E2 : (map fst configs).*2 = map (λ x : string * nat * nat, x.1.2) configs) by apply map_map.
  assert (HB : Built no_agents configs []).
  { split; rewrite ?E1, ?E2; try done; [constructor|simpl; by rewrite app_nil_r|by intros ? ? ?%elem_of_nil]. }
  pose proof (inv_reload no_agents configs [] inv_no_agents HB [] eq_refl) as Hi. cbn [no_agents tasks] in Hi.
  pose proof (inv_run_task _ (Reloading (list_to_map (map fst configs)) ∅ []) true [] Hi (reflexivity _)) as Hr. cbn in Hr.
  assert (Hv : vals ∅ = []) by (unfold vals; by rewrite map_to_list_empty).
  rewrite go_range_empty in Hr. cbn in Hr. rewrite Hv in Hr. cbn in Hr. rewrite app_nil_r, !(right_id_L ∅ (∪)) in Hr. exact Hr.
Qed.
(** *** Work runs out *)

Lemma works_app k l1 l2 : works k (l1 ++ l2) = (works k l1 + works k l2)%Z.
Proof. induction l1 as [|t l IH]; cbn [works foldr app]; [done|]. unfold works in *. lia. Qed.

Lemma works_perm k l1 l2 : l1 ≡ₚ l2 → works k l1 = works k l2.
Proof. induction 1; cbn; unfold works in *; lia. Qed.

Lemma works_close k l : works k (map CloseInstance l) = Z.of_nat (length l).
Proof. induction l as [|x l IH]; [done|]. cbn [works map foldr length task_work] in *. unfold works in *. lia. Qed.

Lemma task_work_mono k k' t : (0 <= k <= k')%Z → (0 < task_work k t <= task_work k' t)%Z.
Proof. intros Hk. destruct t as [e|e|e|e|[] e|e|e|e|id|e|e|c r d]; cbn [task_work]; nia. Qed.

Lemma works_mono k k' l : (0 <= k <= k')%Z → (0 <= works k l <= works k' l)%Z.
Proof. intros Hk. induction l as [|t l IH]; [done|]. pose proof (task_work_mono k k' t Hk). cbn in *. unfold works in *. lia. Qed.

Lemma length_vals m : length (vals m) = size m.
Proof. unfold vals. rewrite length_fmap. apply length_map_to_list. Qed.

Lemma size_insert_le (m : gmap string nat) id e : (Z.of_nat (size (<[id := e]> m)) <= Z.of_nat (size m) + 1)%Z.
Proof. destruct (m !! id) eqn:Hm; [rewrite map_size_insert_Some by done|rewrite map_size_insert_None by done]; lia. Qed.

Lemma size_delete_some (m : gmap string nat) id e : m !! id = Some e → (Z.of_nat (size m) = Z.of_nat (size (delete id m)) + 1)%Z.
Proof. intros Hm. rewrite (map_size_delete_Some id m) by by eexists. assert (size m ≠ 0%nat); [|lia]. apply map_size_ne_0_lookup. by exists id, e. Qed.

Lemma commit_work s doomed k cur : (8 <= k)%Z → ∀ ents rebuilt,
  let '(ents', rest', ts) := commit_loop s doomed cur ents rebuilt in
  (k * Z.of_nat (size ents') + Z.of_nat (size rest') + works k ts <= (k + 2) * Z.of_nat (length cur) + k * Z.of_nat (size ents) + k * Z.of_nat (size rebuilt))%Z.
Proof.
  intros Hk. induction cur as [|[id e] cur IH]; intros ents rebuilt; [cbn [commit_loop works foldr length]; nia|].
  destruct (commit_cases s doomed id e cur ents rebuilt) as [(t & Ht & ->)|[[Ht ->]|(nb & Ht & Hb & Hr & ->)]].
  - specialize (IH ents rebuilt). destruct (commit_loop s doomed cur ents rebuilt) as [[ents' rest'] ts]. cbn [fst snd works foldr length] in *.
    assert (task_work k t <= k + 2)%Z by (destruct Ht as [(_ & ->)|(_ & _ & ->)]; cbn [task_work]; lia). unfold works in *. lia.
  - specialize (IH (<[id := e]> ents) rebuilt). destruct (commit_loop s doomed cur _ rebuilt) as [[ents' rest'] ts]. cbn [length].
    pose proof (size_insert_le ents id e). nia.
  - specialize (IH (<[id := nb]> ents) (delete id rebuilt)). destruct (commit_loop s doomed cur _ _) as [[ents' rest'] ts]. cbn [fst snd works foldr length task_work] in *.
    pose proof (size_insert_le ents id nb). pose proof (size_delete_some rebuilt id nb Hr). unfold works in *. nia.
Qed.
Lemma no_reloads_close l : count is_reload (map CloseInstance l) = 0%Z.
Proof. apply count_zero, Forall_map, Forall_true. done. Qed.

(** The step of a task other than a reload's. *)
Lemma task_work_less t ok s k : (8 <= k)%Z → is_reload t = false →
  let '(s', ts) := run_task t ok s in
  count is_reload ts = 0%Z ∧
  (k * Z.of_nat (size (entries s')) + works k ts < k * Z.of_nat (size (entries s)) + task_work k t)%Z.
Proof.
  intros Hk Hr. destruct t as [e|e|e|e|[] e|e|e|e|id|e|e|c r d]; steps; try done.
  all: repeat case_match; cbn [entries with_flags with_entries with_orphans log_close add_busy with_metas works foldr app task_work]; simplify_eq/=; try done; try (split; [done|lia]).
  - match goal with Hx : _ = Some ?x |- _ => pose proof (size_delete_some (entries s) id x Hx) end. split; [done|nia].
  - pose proof (size_insert_le (entries s) (id_of s e) e). split; [done|nia].
Qed.

Lemma work_perm s l : tasks s ≡ₚ l → work s = work (with_tasks s l).
Proof. intros Hl. unfold work, entry_work. cbn [with_tasks tasks entries]. by rewrite (count_perm _ _ _ Hl), (works_perm _ _ _ Hl). Qed.

Lemma run_task_less t ok s rest : let '(s', ts) := run_task t ok s in (work (with_tasks s' (ts ++ rest)) < work (with_tasks s (t :: rest)))%Z.
Proof.
  pose proof (count_nonneg is_reload rest) as Hn. destruct (is_reload t) eqn:Hr.
  - destruct t as [e|e|e|e|[] e|e|e|e|id|e|e|c r d]; try done. steps.
    set (k := (8 + 3 * count is_reload rest)%Z). assert (Hmono := works_mono k (k + 3) rest ltac:(lia)). destruct (closed s || negb ok).
    + unfold work, entry_work. cbn [with_tasks tasks entries]. rewrite count_plus, no_reloads_close, count_cons, works_app, works_close, length_app, !length_vals. cbn [is_reload works foldr task_work].
      replace (8 + 3 * (0 + count is_reload rest))%Z with k by lia. replace (8 + 3 * (1 + count is_reload rest))%Z with (k + 3)%Z by lia.
      fold (works (k + 3) rest). nia.
    + pose proof (commit_work s d k (go_range (entries s)) ltac:(lia) c r) as Hc. pose proof (commit_entries s d (go_range (entries s)) c r) as (_ & _ & Hts).
      destruct (commit_loop _ _ _ _ _) as [[ents rest'] ts]. cbn [fst snd] in Hts.
      assert (Hcount : count is_reload ts = 0%Z).
      { apply count_zero, Forall_forall. intros t Ht. destruct (Hts t Ht) as (? & ? & _ & [[_ ->]|(_ & _ & [-> | ->])]); done. }
      unfold work, entry_work. cbn [with_tasks with_entries tasks entries]. rewrite !count_plus, no_reloads_close, Hcount, count_cons, !works_app, works_close, length_vals. cbn [is_reload works foldr task_work].
      replace (8 + 3 * (0 + 0 + count is_reload rest))%Z with k by lia. replace (8 + 3 * (1 + count is_reload rest))%Z with (k + 3)%Z by lia.
      fold (works (k + 3) rest). assert (Hl : length (go_range (entries s)) = size (entries s)) by (rewrite go_range_perm; apply length_map_to_list). rewrite Hl in Hc. nia.
  - set (k := (8 + 3 * count is_reload rest)%Z). pose proof (task_work_less t ok s k ltac:(lia) Hr) as Hw.
    destruct (run_task t ok s) as [s' ts]. destruct Hw as [Hc Hw]. unfold work, entry_work. cbn [with_tasks tasks entries].
    rewrite count_plus, Hc, count_cons, Hr, works_app, !Z.add_0_l. cbn [works foldr]. fold k. fold (works k rest). lia.
Qed.

Lemma exec_run_less s i ok s' : exec (Run i ok) s = Some s' → (work s' < work s)%Z.
Proof.
  cbn [exec]. destruct (tasks s !! i) as [t|] eqn:Ht; [|done]. rewrite (work_perm s _ (delete_Permutation _ _ _ Ht)).
  pose proof (run_task_less t ok s (delete i (tasks s))) as Hl. destruct (run_task t ok s) as [s1 ts]. by intros [= <-].
Qed.

Lemma work_nonneg s : (0 <= work s)%Z.
Proof.
  unfold work. pose proof (count_nonneg is_reload (tasks s)). assert (0 <= entry_work s)%Z by (unfold entry_work; lia).
  pose proof (works_mono (entry_work s) (entry_work s) (tasks s)). nia.
Qed.

Lemma execs_runs l s s' : Forall is_run l → execs l s = Some s' → (Z.of_nat (length l) + work s' <= work s)%Z.
Proof.
  revert s. induction l as [|o l IH]; intros s; cbn [execs length]; [intros _ [= <-]; lia|].
  intros [Ho Hl]%Forall_cons (s1 & H1 & H2)%bind_Some. destruct o as [i ok|c]; [|done]. apply exec_run_less in H1. specialize (IH s1 Hl H2). lia.
Qed.

(** *** No orphans are kept after the shutdown *)

Lemma orphans_exec s o s' : (closed s = true → orphans s = []) → exec o s = Some s' → closed s' = true → orphans s' = [].
Proof.
  intros Ho. destruct o as [i ok|c]; cbn [exec].
  - destruct (tasks s !! i) as [t|]; [|done]. destruct t as [e|e|e|e|[] e|e|e|e|id|e|e|cs r d]; steps; repeat case_match; intros; simplify_eq/=; auto; congruence.
  - destruct c; steps; repeat case_match; intros; simplify_eq/=; auto; congruence.
Qed.

Lemma orphans_execs l s s' : (closed s = true → orphans s = []) → execs l s = Some s' → closed s' = true → orphans s' = [].
Proof.
  revert s. induction l as [|o l IH]; intros s Ho; cbn [execs]; [by intros [= <-]|]. intros (s1 & H1 & H2)%bind_Some.
  by apply (IH s1); [intros; eapply orphans_exec|].
Qed.
(** ** What holds in every reachable state *)

(** C21. However turns, creations, deletions, reloads, sweeps and the shutdown of the
    agent registry interleave, no instance is closed twice, and until the registry
    itself is closed no instance is closed while a turn runs on it; a temporary
    agent in a turn is still the one registered under its id - not deleted,
    disposed of or replaced. *)
Theorem closed_once_and_idle configs l s : configs_ok configs → execs l (new_registry configs) = Some s →
  NoDup (closes s) ∧
  (closed s = false → ∀ e, Turn e ∈ tasks s → e ∉ closes s ∧ (temp s e = true → entries s !! id_of s e = Some e)).
Proof.
  intros Hc Hl. assert (Hi : Inv s) by (eapply inv_execs; [by apply inv_new_registry|done]). split.
  - pose proof (inv_NoDup s Hi) as Hn. unfold free in Hn. rewrite !NoDup_app in Hn. tauto.
  - intros Ho e Ht. assert (Hf : e ∉ free s) by (intros Hf; by apply (inv_free _ Hi Ho e Hf)). split.
    + intros He. apply Hf. unfold free. rewrite !elem_of_app. auto.
    + intros Htemp. pose proof (inv_tasks _ Hi) as Hts. rewrite Forall_forall in Hts.
      assert (Hk : e ∈ held s ++ free s).
      { rewrite (inv_homes _ Hi). destruct (Hts _ Ht) as [i Hk]. apply list_elem_of_fmap. exists (e, i). split; [done|]. by apply elem_of_map_to_list. }
      apply elem_of_app in Hk as [Hk|Hk]; [|done]. unfold held, registered in Hk. rewrite Ho, !elem_of_app in Hk. destruct Hk as [Hk|[Hk|Hk]].
      * apply elem_of_vals in Hk as [id Hid]. destruct (inv_entries _ Hi id e Hid) as [_ ->]. done.
      * apply elem_of_flat_map in Hk as (t & Hin & Hk). apply Hts in Hin. destruct t; try by apply elem_of_nil in Hk.
        apply list_elem_of_singleton in Hk as ->. destruct Hin as [Hcf%config_temp _]. congruence.
      * apply elem_of_waiting in Hk as [Hk _]. apply (inv_flags _ Hi) in Hk as [Hcf%config_temp _]. congruence.
Qed.

(** Nothing is forgotten: when no goroutine has anything left to do, every
    instance that was ever built is registered, held as an orphan for a later
    sweep, or closed - each in one of these places - and after the shutdown every
    one has been closed, exactly once. *)
Theorem nothing_forgotten configs l s : configs_ok configs → execs l (new_registry configs) = Some s → tasks s = [] →
  registered s ++ orphans s ++ closes s ≡ₚ (map_to_list (infos s)).*1 ∧
  (closed s = true → closes s ≡ₚ (map_to_list (infos s)).*1).
Proof.
  intros Hc Hl Ht. assert (Hi : Inv s) by (eapply inv_execs; [by apply inv_new_registry|done]).
  assert (Hw : waiting s = []).
  { destruct (waiting s) as [|e w] eqn:Hw; [done|]. destruct (inv_waiting _ Hi e) as [Hb|(t & Hin & _)]; [rewrite Hw; by left| |rewrite Ht in Hin; by apply elem_of_nil in Hin].
    assert (Hr : e ∈ retireWhenIdle s) by (apply elem_of_waiting; rewrite Hw; by left). destruct (proj2 (inv_flags _ Hi) e Hr) as [(i & Hk & _) _].
    destruct (inv_busy _ Hi e) as [_ Heq]; [by eexists|]. rewrite Heq in Hb. unfold turns in Hb. by rewrite Ht in Hb. }
  assert (Hall : registered s ++ orphans s ++ closes s ≡ₚ (map_to_list (infos s)).*1).
  { rewrite <- (inv_homes _ Hi). unfold held, free. rewrite Hw, Ht. simpl. by rewrite app_nil_r. }
  split; [done|]. intros Hcl. rewrite <- Hall. unfold registered. rewrite Hcl, (orphans_execs l (new_registry configs) s); done.
Qed.

(** C22. The work runs out: the steps goroutines can make without a new call are
    bounded by a measure of the state - no chain of put-backs, retirements and
    deferred deletions goes on for ever - and as long as something is left to do,
    a step can be made, whatever the host answers. *)
Theorem work_runs_out s :
  (∀ l s', Forall is_run l → execs l s = Some s' → (Z.of_nat (length l) <= work s)%Z) ∧
  (tasks s ≠ [] → ∀ ok, is_Some (exec (Run 0 ok) s)).
Proof.
  split.
  - intros l s' Hl He. pose proof (execs_runs l s s' Hl He). pose proof (work_nonneg s'). lia.
  - intros Ht ok. cbn [exec]. destruct (tasks s) as [|t l] eqn:Hts; [done|]. cbn. destruct (run_task t ok s). by eexists.
Qed.
End invariant.

(** ** Runs *)

Module AgentLifecycleExamples.

Definition ex_configs : list (string * nat * nat) := [("main", 0%nat, 0%nat)].

(** A turn runs on [main] and another on a new temporary agent while a reload
    replaces [main] and rebuilds nothing: the old instance of [main] is retired by
    its turn's end, and the temporary agent, to be deleted, by its own. *)
Definition ex_calls : list Op :=
  [Do (BeginTurn "main" 0); Do (Create "t1" 1 1 true); Do (DeleteWhenIdle "t1"); Run 0 true;
   Do (Reload [("main", 2%nat, 2%nat)] [] ["t1"]); Run 0 true; Run 0 true].

Definition after (l : list Op) : State := default (new_registry ex_configs) (execs l (new_registry ex_configs)).

Example two_turns_run : tasks (after ex_calls) = [RetireIfIdle LoadMark 0; Turn 1; Turn 0] ∧
  map_to_list (entries (after ex_calls)) = [("main", 2%nat); ("t1", 1%nat)].
Proof. vm_compute. done. Qed.

(** The temporary agent's turn has ended, and it is gone. *)
Definition ex_mid : list Op := ex_calls ++ replicate 8 (Run 0 true).

Example one_turn_runs : tasks (after ex_mid) = [Turn 0] ∧ closes (after ex_mid) = [1%nat] ∧ map_to_list (entries (after ex_mid)) = [("main", 2%nat)].
Proof. vm_compute. done. Qed.

(** Both have; and then the registry is closed. *)
Definition ex_end : list Op := ex_mid ++ replicate 8 (Run 0 true) ++ [Do Close; Run 0 true].

Example every_instance_closed : tasks (after ex_end) = [] ∧ closes (after ex_end) = [2; 0; 1]%nat ∧ closed (after ex_end) = true.
Proof. vm_compute. done. Qed.

Lemma ex_configs_ok : configs_ok ex_configs.
Proof. split_and!; repeat constructor; by apply not_elem_of_nil. Qed.

Lemma closed_once_and_idle_witness :
  NoDup (closes (after ex_mid)) ∧
  (closed (after ex_mid) = false → ∀ e, Turn e ∈ tasks (after ex_mid) →
    e ∉ closes (after ex_mid) ∧ (temp (after ex_mid) e = true → entries (after ex_mid) !! id_of (after ex_mid) e = Some e)).
Proof. apply (closed_once_and_idle ex_configs ex_mid); [exact ex_configs_ok|vm_compute; reflexivity]. Defined.

Lemma nothing_forgotten_witness :
  registered (after ex_end) ++ orphans (after ex_end) ++ closes (after ex_end) ≡ₚ (map_to_list (infos (after ex_end))).*1 ∧
  (closed (after ex_end) = true → closes (after ex_end) ≡ₚ (map_to_list (infos (after ex_end))).*1).
Proof. apply (nothing_forgotten ex_configs ex_end); [exact ex_configs_ok|vm_compute; reflexivity|vm_compute; reflexivity]. Defined.

Lemma work_runs_out_witness :
  (∀ l s', Forall is_run l → execs l (after ex_calls) = Some s' → (Z.of_nat (length l) <= work (after ex_calls))%Z) ∧
  (tasks (after ex_calls) ≠ [] → ∀ ok, is_Some (exec (Run 0 ok) (after ex_calls))).
Proof. exact (work_runs_out (after ex_calls)). Defined.

(** [BeginTurn] does not look at [closed]: after the shutdown a turn still begins,
    on an instance that has been closed. *)
Example begins_after_close :
  let s := after [Do Close; Run 0 true; Do (BeginTurn "main" 0)] in
  closed s = true ∧ closes s = [0%nat] ∧ tasks s = [Turn 0].
Proof. vm_compute. done. Qed.
End AgentLifecycleExamples.
