(* ===== verification/TurnLoop.v ===== *)
(** * One turn of an agent's model (agent/llm_iteration.go, llm_dispatch.go, tool_exec.go, tool_result_cap.go, loop_turn.go)

    The model is asked, the tools it calls are run and their results given back,
    until it answers or the iterations are used up. A turn is a computation over
    the state the code keeps in [llmTurn] and the world outside, which is the class
    [TurnHost]: the context manager with its store, the chain of models, tools,
    the bus. What happens is recorded in a trace. The theorems: what a turn stores
    is always a conversation a provider takes (each batch of calls answered call
    by call, in order), whatever fails; how often the model is asked, poked,
    steered and let repeat itself; what the reply is; and how large a tool result
    gets. *)

From stdpp Require Import base gmap strings list sorting.
From Stdlib Require Import ZArith Lia Ascii.
From S2P Require Import Prelude GoString.

Open Scope Z_scope.

(** ** Messages *)

(** The arguments of a call: [nil], an empty map, or the JSON of one with members,
    [None] when it cannot be encoded. *)
Inductive Arguments := NilArguments | EmptyArguments | SomeArguments (json : option string).

Record FunctionCall := { fn_Name : string; fn_Arguments : string; fn_ThoughtSignature : string }.

Record ToolCall := {
  tc_ID : string; tc_Type : string; tc_Name : string; tc_Arguments : Arguments;
  tc_Function : option FunctionCall; tc_ExtraContent : string; tc_ThoughtSignature : string
}.

Record Message := {
  Role : string; Content : string; ReasoningContent : string;
  ResponsesReasoning : string; AnthropicThinking : string;
  m_ToolCalls : list ToolCall; ToolCallID : string; ToolReferences : list string;
  Media : list string; m_Error : bool
}.

Record Response := {
  r_Content : string; r_ReasoningContent : string; r_Reasoning : string;
  r_ResponsesReasoning : string; r_AnthropicThinking : string;
  r_ToolCalls : list ToolCall; Normal : bool; r_FinishReason : string; PromptTokens : Z
}.

Record ToolResult := {
  ForLLM : string; ForUser : string; Silent : bool; IsError : bool; tr_Err : option string;
  tr_Media : list string; Images : list string; tr_ToolReferences : list string
}.

(** A message with nothing but a role and a text. *)
Definition plain (role content : string) : Message :=
  {| Role := role; Content := content; ReasoningContent := ""; ResponsesReasoning := ""; AnthropicThinking := "";
     m_ToolCalls := []; ToolCallID := ""; ToolReferences := []; Media := []; m_Error := false |}.

(** ** Limits *)

Definition maxIdenticalToolBatches : Z := 4.
Definition maxEmptyRetries : Z := 2.
Definition llmMaxRetries : nat := 2.
Definition toolResultCapFloor : Z := 16 * 1024.
Definition toolResultCapCeiling : Z := 512 * 1024.
Definition toolErrorMinChars : Z := 4 * 1024.
Definition UTFMax : Z := 4.

(** A quarter of the window at four characters a token is the window; the
    multiplications by 0.25 and 4 are exact. *)
Definition toolResultCap (contextWindow : Z) : Z := Z.min (Z.max contextWindow toolResultCapFloor) toolResultCapCeiling.

(** [utf8.RuneStart] *)
Definition RuneStart (c : ascii) : bool := negb (in_range 128 191 (byte_val c)).

(** The loop that backs off continuation bytes: at most [fuel] steps. *)
Fixpoint back_off (fuel : nat) (l : list ascii) (cut : nat) : nat :=
  match fuel with
  | O => cut
  | S fuel => if (0 <? Z.of_nat cut) && match l !! cut with Some c => negb (RuneStart c) | None => false end then back_off fuel l (pred cut) else cut
  end.

Definition truncation_note (cut n : Z) : string :=
  (of_bytes ["010"%char] +:+ "[output truncated: kept " +:+ itoa cut +:+ " of " +:+ itoa n +:+ " characters. Use the tool's paging/range options or a narrower query to see more.]")%string.

Definition capToolResult (content : string) (isError : bool) (contextWindow : Z) : string :=
  let limit := toolResultCap contextWindow in
  let limit := if isError && (limit <? toolErrorMinChars) then toolErrorMinChars else limit in
  if len content <=? limit then content
  else
    let cut := back_off (Z.to_nat UTFMax) (bytes content) (Z.to_nat limit) in
    (of_bytes (take cut (bytes content)) +:+ truncation_note (Z.of_nat cut) (len content))%string.

(** ** Tool calls *)

(** [json.Marshal] of a call's arguments. *)
Definition marshal (a : Arguments) : option string :=
  match a with NilArguments => Some "null" | EmptyArguments => Some "{}" | SomeArguments j => j end.

Definition signature_part (c : ToolCall) : string :=
  let args := match tc_Arguments c with
              | SomeArguments j => default "" j
              | _ => match tc_Function c with Some f => fn_Arguments f | None => "" end
              end in
  let name := if bool_decide (tc_Name c = "") then match tc_Function c with Some f => fn_Name f | None => "" end else tc_Name c in
  (name +:+ ":" +:+ args)%string.

Definition toolCallSignature (calls : list ToolCall) : string :=
  match calls with
  | [] => ""
  | _ => Join (merge_sort String.le (map signature_part calls)) "|"
  end.

Definition wire_call (tc : ToolCall) : ToolCall :=
  let thought := match tc_Function tc with Some f => fn_ThoughtSignature f | None => "" end in
  {| tc_ID := tc_ID tc; tc_Type := "function"; tc_Name := tc_Name tc; tc_Arguments := NilArguments;
     tc_Function := Some {| fn_Name := tc_Name tc; fn_Arguments := default "{}" (marshal (tc_Arguments tc)); fn_ThoughtSignature := thought |};
     tc_ExtraContent := tc_ExtraContent tc; tc_ThoughtSignature := thought |}.

Definition assistantToolCallMessage (response : Response) (calls : list ToolCall) : Message :=
  {| Role := "assistant"; Content := r_Content response; ReasoningContent := r_ReasoningContent response;
     ResponsesReasoning := r_ResponsesReasoning response; AnthropicThinking := r_AnthropicThinking response;
     m_ToolCalls := map wire_call calls; ToolCallID := ""; ToolReferences := []; Media := []; m_Error := false |}.

(** ** The world of a turn *)

(** The [Add] methods of the context manager a turn uses. *)
Inductive StoreKind := AddUserMessage | AddToolCallMessage | AddToolResult | AddAssistantMessage.

Inductive Outbound := TextOut (content : string) | MediaOut (refs : list string).

(** What the code asks of an error: whether it is or wraps the end of a deadline,
    the reason the classifier gives, its text, and whether it is an exhausted chain
    whose every failure was the context's size. *)
Inductive Reason := FailoverTimeout | FailoverContextLimit | OtherReason.
Record CallError := { deadline_exceeded : bool; class : option Reason; e_text : string; all_context_limit : bool }.

(** Why a turn's context has ended. *)
Inductive Cause := ShuttingDown | CancelledByUser | AskerStopped | OtherCause.

Inductive ToolOutcome := Returned (r : ToolResult) | Panicked (value : string).

Record Assembled := { a_Changed : bool; a_Messages : list Message; PromptTokenEstimate : Z; Evictions : nat }.

(** Each operation may change the world [W]; [host_order] is the order in which the
    goroutines of a batch finish, and [host_normalize] is the library's
    [NormalizeToolCall]. *)
Class TurnHost (W : Type) := {
  host_assemble : W → list Message → W * option Assembled;
  host_chat : W → list Message → Z → W * result Response CallError;
  host_observe : W → Z → Z → W;
  (** the backoff before the retry of that number; the error when the turn's context ends first *)
  host_wait : W → nat → W * option CallError;
  (** [ForceCompress], then [Assemble] *)
  host_compress : W → list Message → W * option Assembled;
  host_tool : W → ToolCall → W * ToolOutcome;
  host_order : W → nat → list nat;
  host_order_perm : ∀ w n, host_order w n ≡ₚ seq 0 n;
  host_used : W → list string → W;
  (** whether the store takes the message, which is then observed into memory *)
  host_add : W → StoreKind → Message → W * bool;
  host_describe : W → list string → string → W * option string;
  host_publish : W → Outbound → W;
  host_cause : W → Cause;
  host_normalize : ToolCall → ToolCall;
  host_breadcrumb : ToolCall → string
}.

Inductive VisionMode := VisionUnset | VisionOff | VisionUserMessage | VisionToolResponse.

(** What the turn was started with. [vision] is the mode of the active model, [None]
    when it has no configuration; [toChat] and [internal] say that there is a
    channel and whether it is an internal one. *)
Record TurnConfig := {
  MaxIterations : nat; ContextWindow : Z; MaxTokens : Z; UserMessage : string;
  toChat : bool; internal : bool; showToolActivity : bool;
  StreamToolActivity : bool; ShowReasoningAsContent : bool;
  vision : option VisionMode; visionClients : bool; IsGroup : bool; SendResponse : bool
}.

(** What happened, oldest first. *)
Inductive Event :=
| Asked (request : list Message) (maxTokens : Z) (answered : bool)
| Ran (calls : list ToolCall)
| Stored (k : StoreKind) (m : Message)
| Refused (k : StoreKind) (m : Message)
| Published (o : Outbound).

(** [llmTurn], the world and the trace. *)
Record Turn (W : Type) := {
  world : W; trace : list Event;
  messages : list Message; evicted : nat; iteration : nat;
  finalContent : string; lastNormal : bool; finishReason : string; degenerate : bool; emptyRetries : Z;
  lastToolSig : string; identicalToolBatches : Z
}.
Arguments world {W}. Arguments trace {W}. Arguments messages {W}. Arguments evicted {W}. Arguments iteration {W}.
Arguments finalContent {W}. Arguments lastNormal {W}. Arguments finishReason {W}. Arguments degenerate {W}.
Arguments emptyRetries {W}. Arguments lastToolSig {W}. Arguments identicalToolBatches {W}.

Inductive TurnError :=
| StoreRejected (what : string)
| CallInterrupted
| CallStopped (c : Cause) (e : CallError)
| CallFailed (e : CallError)
| WaitEnded (e : CallError).

(** ** Computations of a turn *)

Section turn.
Context `{UnicodeData} {W : Type} `{TurnHost W} (cfg : TurnConfig).

Definition M (A : Type) : Type := Turn W → Turn W * result A TurnError.

Definition ret {A} (a : A) : M A := λ t, (t, Ok a).
Definition fail {A} (e : TurnError) : M A := λ t, (t, Err e).
Definition bind {A B} (m : M A) (f : A → M B) : M B :=
  λ t, match m t with (t', Ok a) => f a t' | (t', Err e) => (t', Err e) end.
Definition get : M (Turn W) := λ t, (t, Ok t).
Definition upd (f : Turn W → Turn W) : M unit := λ t, (f t, Ok tt).

#[local] Instance M_ret : MRet M := λ A a, ret a.
#[local] Instance M_bind : MBind M := λ A B f m, bind m f.

Definition set_world (w : W) (t : Turn W) : Turn W :=
  {| world := w; trace := trace t; messages := messages t; evicted := evicted t; iteration := iteration t;
     finalContent := finalContent t; lastNormal := lastNormal t; finishReason := finishReason t; degenerate := degenerate t;
     emptyRetries := emptyRetries t; lastToolSig := lastToolSig t; identicalToolBatches := identicalToolBatches t |}.

Definition log (e : Event) (t : Turn W) : Turn W :=
  {| world := world t; trace := trace t ++ [e]; messages := messages t; evicted := evicted t; iteration := iteration t;
     finalContent := finalContent t; lastNormal := lastNormal t; finishReason := finishReason t; degenerate := degenerate t;
     emptyRetries := emptyRetries t; lastToolSig := lastToolSig t; identicalToolBatches := identicalToolBatches t |}.

Definition set_messages (l : list Message) (t : Turn W) : Turn W :=
  {| world := world t; trace := trace t; messages := l; evicted := evicted t; iteration := iteration t;
     finalContent := finalContent t; lastNormal := lastNormal t; finishReason := finishReason t; degenerate := degenerate t;
     emptyRetries := emptyRetries t; lastToolSig := lastToolSig t; identicalToolBatches := identicalToolBatches t |}.

Definition append_message (m : Message) (t : Turn W) : Turn W := set_messages (messages t ++ [m]) t.

Definition add_evicted (n : nat) (t : Turn W) : Turn W :=
  {| world := world t; trace := trace t; messages := messages t; evicted := evicted t + n; iteration := iteration t;
     finalContent := finalContent t; lastNormal := lastNormal t; finishReason := finishReason t; degenerate := degenerate t;
     emptyRetries := emptyRetries t; lastToolSig := lastToolSig t; identicalToolBatches := identicalToolBatches t |}.

Definition next_iteration (t : Turn W) : Turn W :=
  {| world := world t; trace := trace t; messages := messages t; evicted := evicted t; iteration := S (iteration t);
     finalContent := finalContent t; lastNormal := lastNormal t; finishReason := finishReason t; degenerate := degenerate t;
     emptyRetries := emptyRetries t; lastToolSig := lastToolSig t; identicalToolBatches := identicalToolBatches t |}.

Definition set_answer (content : string) (normal : bool) (reason : string) (t : Turn W) : Turn W :=
  {| world := world t; trace := trace t; messages := messages t; evicted := evicted t; iteration := iteration t;
     finalContent := content; lastNormal := normal; finishReason := reason; degenerate := degenerate t;
     emptyRetries := emptyRetries t; lastToolSig := lastToolSig t; identicalToolBatches := identicalToolBatches t |}.

Definition set_poked (n : Z) (d : bool) (t : Turn W) : Turn W :=
  {| world := world t; trace := trace t; messages := messages t; evicted := evicted t; iteration := iteration t;
     finalContent := finalContent t; lastNormal := lastNormal t; finishReason := finishReason t; degenerate := d;
     emptyRetries := n; lastToolSig := lastToolSig t; identicalToolBatches := identicalToolBatches t |}.

Definition set_batch (sig : string) (n : Z) (t : Turn W) : Turn W :=
  {| world := world t; trace := trace t; messages := messages t; evicted := evicted t; iteration := iteration t;
     finalContent := finalContent t; lastNormal := lastNormal t; finishReason := finishReason t; degenerate := degenerate t;
     emptyRetries := emptyRetries t; lastToolSig := sig; identicalToolBatches := n |}.

Definition when (b : bool) (m : M unit) : M unit := if b then m else ret tt.

(** [PublishOutbound] and [PublishOutboundMedia]; an error is only logged. *)
Definition publish (o : Outbound) : M unit := upd (λ t, log (Published o) (set_world (host_publish (world t) o) t)).

(** ** Asking the model (llm_dispatch.go) *)

Definition assemble : M Z :=
  t ← get;
  let '(w, a) := host_assemble (world t) (messages t) in
  upd (set_world w);;
  match a with
  | None => ret 0
  | Some a =>
      upd (add_evicted (Evictions a));;
      when (a_Changed a) (upd (set_messages (a_Messages a)));;
      ret (PromptTokenEstimate a)
  end.

(** [strings.Contains] *)
Fixpoint contains (s p : string) : bool :=
  HasPrefix s p || match s with EmptyString => false | String _ s' => contains s' p end.

Definition localContextLimitPatterns : list string := ["context window"; "token limit"; "max_tokens"; "invalidparameter"].

Definition classifyLLMError (e : CallError) : bool * bool :=
  if deadline_exceeded e || match class e with Some FailoverTimeout => true | _ => false end then (true, false)
  else if match class e with Some FailoverContextLimit => true | _ => false end then (false, true)
  else if existsb (contains (ToLower (e_text e))) localContextLimitPatterns then (false, true)
  else (false, all_context_limit e).

(** [callModel]: one call, through the fallback chain or not. *)
Definition callModel (maxTokens : Z) : M (result Response CallError) :=
  t ← get;
  let '(w, r) := host_chat (world t) (messages t) maxTokens in
  upd (λ t, log (Asked (messages t) maxTokens (is_ok r)) (set_world w t));;
  ret r.

Definition waitToRetry (retry : nat) : M unit :=
  t ← get;
  let '(w, e) := host_wait (world t) retry in
  upd (set_world w);;
  match e with Some e => fail (WaitEnded e) | None => ret tt end.

(** The new bound on the answer's tokens, and the new estimate of the prompt's. *)
Definition compressForRetry (retry : nat) (maxTokens estimate : Z) : M (Z * Z) :=
  when (bool_decide (retry = 0%nat) && negb (internal cfg)) (publish (TextOut "Context window exceeded. Compressing history and retrying..."));;
  t ← get;
  let '(w, a) := host_compress (world t) (messages t) in
  upd (set_world w);;
  match a with Some a => upd (set_messages (a_Messages a)) | None => ret tt end;;
  let estimate := match a with Some a => PromptTokenEstimate a | None => estimate end in
  t' ← get;
  ret (if (length (messages t') <? length (messages t))%nat then maxTokens
       else if 512 <? maxTokens then maxTokens / 2 else maxTokens, estimate).

Definition dispatchFailed {A} (e : CallError) : M A :=
  t ← get;
  match host_cause (world t) with
  | ShuttingDown => fail CallInterrupted
  | CancelledByUser => fail (CallStopped CancelledByUser e)
  | AskerStopped => fail (CallStopped AskerStopped e)
  | OtherCause => fail (CallFailed e)
  end.

(** The loop of [requestModel]; [tries] retries are left. *)
Fixpoint request_loop (tries retry : nat) (maxTokens estimate : Z) : M Response :=
  r ← callModel maxTokens;
  match r with
  | Ok response =>
      when ((0 <? estimate) && (0 <? PromptTokens response))
        (upd (λ t, set_world (host_observe (world t) estimate (PromptTokens response)) t));;
      ret response
  | Err e =>
      match tries with
      | O => dispatchFailed e
      | S tries =>
          if (classifyLLMError e).1 then waitToRetry retry;; request_loop tries (S retry) maxTokens estimate
          else if (classifyLLMError e).2 then
            d ← compressForRetry retry maxTokens estimate;
            request_loop tries (S retry) d.1 d.2
          else dispatchFailed e
      end
  end.

Definition requestModel (estimate : Z) : M Response := request_loop llmMaxRetries 0 (MaxTokens cfg) estimate.

(** ** Answers *)

Definition poke : Message :=
  plain "user" "Your previous turn produced no reply. Make sure you have completed the user's request, then respond to the user now.".

Definition reasoning_of (response : Response) : string :=
  if bool_decide (r_ReasoningContent response = "") then r_Reasoning response else r_ReasoningContent response.

(** Whether the turn is done. *)
Definition directAnswer (response : Response) : M bool :=
  let reasoningText := reasoning_of response in
  let hasReasoning := negb (bool_decide (reasoningText = "")) in
  let content := if bool_decide (r_Content response = "") && hasReasoning && ShowReasoningAsContent cfg then reasoningText else r_Content response in
  upd (set_answer content (Normal response) (r_FinishReason response));;
  t ← get;
  if bool_decide (content = "") && hasReasoning then
    if emptyRetries t <? maxEmptyRetries then
      upd (λ t, append_message poke (set_poked (emptyRetries t + 1) (degenerate t) t));; ret false
    else upd (set_poked (emptyRetries t) true);; ret true
  else ret true.

(** ** Tools (tool_exec.go) *)

Definition loop_detected (toolNames : list string) (n : Z) : string :=
  ("Stopped: I kept making the same " +:+ Join toolNames ", " +:+ " call (" +:+ itoa n +:+ " times) without success, so I'm aborting to avoid a loop. Please check the request or rephrase it.")%string.

(** Whether the turn is stopped. *)
Definition stopRepeatedBatch (calls : list ToolCall) (toolNames : list string) : M bool :=
  let sig := toolCallSignature calls in
  if bool_decide (sig = "") then ret false
  else
    upd (λ t, if bool_decide (sig = lastToolSig t) then set_batch (lastToolSig t) (identicalToolBatches t + 1) t else set_batch sig 0 t);;
    t ← get;
    if identicalToolBatches t + 1 <? maxIdenticalToolBatches then ret false
    else upd (set_answer (loop_detected toolNames (identicalToolBatches t + 1)) (lastNormal t) "loop_detected");; ret true.

Definition guidance (toolNames : list string) (n : Z) : Message :=
  plain "user"
    ("⚠️ You have made the exact same tool call (" +:+ Join toolNames ", " +:+ ") " +:+ itoa n +:+
     " times in a row and it is not working — stop repeating the identical call. Change your approach: adjust the arguments, try a different tool, or explain the problem to the user instead of retrying the same thing." +:+
     if bool_decide ("file_edit" ∈ toolNames) then
       " For file_edit specifically: the file may have changed since you last read it, or your old_text does not match exactly (e.g. whitespace/indentation) — re-read it with file_read_lines and correct the old_text."
     else "")%string.

Definition steerFromRepeatedBatch (toolNames : list string) : M unit :=
  t ← get;
  if bool_decide (identicalToolBatches t = 0) then ret tt
  else upd (append_message (guidance toolNames (identicalToolBatches t + 1))).

Definition publishNarration (content : string) : M unit :=
  when (negb (bool_decide (content = "")) && toChat cfg && StreamToolActivity cfg) (publish (TextOut content)).

Definition keep (k : StoreKind) (m : Message) (what : string) : M unit :=
  upd (append_message m);;
  t ← get;
  let '(w, accepted) := host_add (world t) k m in
  upd (λ t, log (if accepted then Stored k m else Refused k m) (set_world w t));;
  if accepted then ret tt else fail (StoreRejected what).

(** [runToolCall]: what is put in the call's slot. *)
Definition slot_result (tc : ToolCall) (o : ToolOutcome) : ToolResult :=
  match o with
  | Returned r => r
  | Panicked v =>
      {| ForLLM := ("Tool " +:+ tc_Name tc +:+ " failed with an internal error.")%string; ForUser := ""; Silent := false; IsError := false;
         tr_Err := Some ("tool " +:+ tc_Name tc +:+ " panicked: " +:+ v)%string; tr_Media := []; Images := []; tr_ToolReferences := [] |}
  end.

(** The goroutines of a batch, in the order in which they finish. *)
Fixpoint run_calls (order : list nat) (calls : list ToolCall) (slots : list (option ToolResult)) (w : W) : W * list (option ToolResult) :=
  match order with
  | [] => (w, slots)
  | i :: order =>
      match calls !! i with
      | Some tc => let '(w, o) := host_tool w tc in run_calls order calls (<[i := Some (slot_result tc o)]> slots) w
      | None => run_calls order calls slots w
      end
  end.

Fixpoint breadcrumbs (calls : list ToolCall) : M unit :=
  match calls with
  | [] => ret tt
  | tc :: calls =>
      let line := host_breadcrumb tc in
      when (showToolActivity cfg && negb (bool_decide (line = ""))) (publish (TextOut line));; breadcrumbs calls
  end.

Definition executeToolCalls (calls : list ToolCall) : M (list (ToolCall * ToolResult)) :=
  breadcrumbs calls;;
  t ← get;
  let '(w, slots) := run_calls (host_order (world t) (length calls)) calls (replicate (length calls) None) (world t) in
  upd (λ t, log (Ran calls) (set_world w t));;
  ret (omap (λ x, (x.1,.) <$> x.2) (zip calls slots)).

Definition toolResultMessage (tc : ToolCall) (r : ToolResult) : Message :=
  let content := if bool_decide (ForLLM r = "") then default "" (tr_Err r) else ForLLM r in
  {| Role := "tool"; Content := capToolResult content (IsError r) (ContextWindow cfg); ReasoningContent := ""; ResponsesReasoning := ""; AnthropicThinking := "";
     m_ToolCalls := []; ToolCallID := tc_ID tc; ToolReferences := tr_ToolReferences r; Media := []; m_Error := IsError r |}.

(** [toolImages] *)
Record toolImages := { mode : VisionMode; followUp : list string; unseen : list string; focus : list string }.

Definition with_media (l : list string) (m : Message) : Message :=
  {| Role := Role m; Content := Content m; ReasoningContent := ReasoningContent m; ResponsesReasoning := ResponsesReasoning m; AnthropicThinking := AnthropicThinking m;
     m_ToolCalls := m_ToolCalls m; ToolCallID := ToolCallID m; ToolReferences := ToolReferences m; Media := l; m_Error := m_Error m |}.

Definition route (ti : toolImages) (r : ToolResult) (m : Message) : toolImages * Message :=
  match mode ti with
  | VisionToolResponse => (ti, with_media (Images r) m)
  | VisionUserMessage => ({| mode := mode ti; followUp := followUp ti ++ Images r; unseen := unseen ti; focus := focus ti |}, m)
  | _ =>
      match Images r with
      | [] => (ti, m)
      | imgs =>
          let f := TrimSpace (ForLLM r) in
          ({| mode := mode ti; followUp := followUp ti; unseen := unseen ti ++ imgs;
              focus := if bool_decide (f = "") then focus ti else focus ti ++ [f] |}, m)
      end
  end.

Fixpoint add_results (results : list (ToolCall * ToolResult)) (images : toolImages) : M toolImages :=
  match results with
  | [] => ret images
  | (tc, r) :: results =>
      when (StreamToolActivity cfg && negb (Silent r) && negb (bool_decide (ForUser r = ""))) (publish (TextOut (ForUser r)));;
      when (negb (bool_decide (tr_Media r = []))) (publish (MediaOut (tr_Media r)));;
      let '(images, m) := route images r (toolResultMessage tc r) in
      keep AddToolResult m "tool result";;
      add_results results images
  end.

Definition image_message (images : list string) : Message := with_media images (plain "user" "Image(s) returned by the tool call(s) above:").

Definition addToolImages (images : list string) : M unit :=
  if bool_decide (images = []) then ret tt else keep AddUserMessage (image_message images) "tool image message".

Definition nl : string := of_bytes ["010"%char].

Definition describeUnseenImages (ti : toolImages) : M unit :=
  match mode ti with
  | VisionOff =>
      if negb (visionClients cfg) || bool_decide (unseen ti = []) then ret tt
      else
        let lu := TrimSpace (UserMessage cfg) in
        let parts := if bool_decide (lu = "") then focus ti else focus ti ++ [("User's request: " +:+ lu)%string] in
        t ← get;
        let '(w, desc) := host_describe (world t) (unseen ti) (Join parts nl) in
        upd (set_world w);;
        keep AddUserMessage
          (plain "user" match desc with
                        | Some d => ("Image(s) described for you (this model cannot view images):" +:+ nl +:+ d)%string
                        | None => "An image was returned by a tool, but this model cannot view images and no description could be produced."
                        end) "vision description message"
  | _ => ret tt
  end.

Definition addToolResults (results : list (ToolCall * ToolResult)) : M unit :=
  images ← add_results results {| mode := default VisionOff (vision cfg); followUp := []; unseen := []; focus := [] |};
  addToolImages (followUp images);;
  describeUnseenImages images.

(** ** The loop (llm_iteration.go) *)

(** Whether the turn is done. *)
Definition runToolCalls (response : Response) : M bool :=
  let calls := map host_normalize (r_ToolCalls response) in
  let toolNames := map tc_Name calls in
  stopped ← stopRepeatedBatch calls toolNames;
  if stopped : bool then ret true
  else
    upd (λ t, set_world (host_used (world t) toolNames) t);;
    publishNarration (r_Content response);;
    keep AddToolCallMessage (assistantToolCallMessage response calls) "tool call message";;
    results ← executeToolCalls calls;
    addToolResults results;;
    steerFromRepeatedBatch toolNames;;
    ret false.

Definition iterate : M bool :=
  estimate ← assemble;
  response ← requestModel estimate;
  if bool_decide (length (r_ToolCalls response) = 0%nat) then directAnswer response else runToolCalls response.

Fixpoint iterations (n : nat) : M unit :=
  match n with
  | O => ret tt
  | S n => upd next_iteration;; done ← iterate; if done : bool then ret tt else iterations n
  end.

Definition newLLMTurn (w : W) (l : list Message) : Turn W :=
  {| world := w; trace := []; messages := l; evicted := 0; iteration := 0; finalContent := ""; lastNormal := false;
     finishReason := "max_iterations"; degenerate := false; emptyRetries := 0; lastToolSig := ""; identicalToolBatches := 0 |}.

Definition runLLMIteration : M unit := iterations (MaxIterations cfg).

(** ** The reply (loop_turn.go) *)

Definition noResponseSentinel : string := "!none".

Definition isNoResponseSentinel (content : string) : bool :=
  let s := TrimSpace content in
  let s := ToLower (TrimSpace (TrimLeft s (of_bytes ["034"; "'"; "`"]%char))) in
  if negb (HasPrefix s noResponseSentinel) then false
  else match drop 5 (bytes s) with
       | [] => true
       | c :: _ => negb (is_lower (byte_val c) || is_digit (byte_val c))
       end.

Inductive TurnOutcome := OutcomeEmpty | OutcomeError.

Definition couldnt_compose : string := "Sorry — I couldn't compose a reply to that. Please try again.".
Definition empty_advice : string := "The model returned an empty response. This can happen when a fallback model can't handle the request — please try again.".
Definition provider_empty (reason : string) : string :=
  ("The AI provider returned an empty response (finish reason: " +:+ reason +:+ "). Check provider logs for details.")%string.

Definition emptyReply (t : Turn W) : string * TurnOutcome :=
  if lastNormal t && negb (degenerate t) && IsGroup cfg then ("", OutcomeEmpty)
  else if degenerate t then (couldnt_compose, OutcomeEmpty)
  else if lastNormal t then (empty_advice, OutcomeEmpty)
  else (provider_empty (finishReason t), OutcomeError).

(** [saveAssistantReply]; that the session's file was not saved is only reported. *)
Definition saveAssistantReply (content : string) : M unit :=
  t ← get;
  let m := plain "assistant" content in
  let '(w, accepted) := host_add (world t) AddAssistantMessage m in
  upd (λ t, log (if accepted then Stored AddAssistantMessage m else Refused AddAssistantMessage m) (set_world w t));;
  if accepted then ret tt else fail (StoreRejected "assistant reply").

(** The reply, empty for silence, and the outcome where the turn sets one. *)
Definition finishTurn : M (string * option TurnOutcome) :=
  t ← get;
  if isNoResponseSentinel (finalContent t) then ret ("", Some OutcomeEmpty)
  else if bool_decide (finalContent t = "") then
    let '(content, outcome) := emptyReply t in
    when (negb (bool_decide (content = "")) && SendResponse cfg) (publish (TextOut content));;
    ret (content, Some outcome)
  else
    saveAssistantReply (finalContent t);;
    when (SendResponse cfg) (publish (TextOut (finalContent t)));;
    ret (finalContent t, None).

(** The turn of [runAgentLoop] from the assembled request on. *)
Definition run_turn : M (string * option TurnOutcome) := runLLMIteration;; finishTurn.
End turn.

(** ** Reasoning about computations *)

Section triples.
Context {W : Type}.

Abbreviation Assertion := (Turn W → Prop).

(** From a state with [P] a computation returns a value and a state with [Q], or
    fails, with a state and error of [E]. *)
Definition triple {A} (P : Assertion) (m : M (W := W) A) (Q : A → Assertion) (E : TurnError → Assertion) : Prop :=
  ∀ t, P t → match m t with (t', Ok a) => Q a t' | (t', Err e) => E e t' end.

Lemma triple_bind {A B} P (m : M A) (f : A → M B) R Q E :
  triple P m R E → (∀ a, triple (R a) (f a) Q E) → triple P (bind m f) Q E.
Proof.
  intros Hm Hf t Ht. unfold bind. specialize (Hm t Ht). destruct (m t) as [t' [a|e]]; [by apply Hf|done].
Qed.

Lemma triple_ret {A} (P : Assertion) (a : A) (Q : A → Assertion) E : (∀ t, P t → Q a t) → triple P (ret a) Q E.
Proof. intros HPQ t Ht. by apply HPQ. Qed.

Lemma triple_fail {A} (P : Assertion) e (Q : A → Assertion) (E : TurnError → Assertion) : (∀ t, P t → E e t) → triple P (fail e) Q E.
Proof. intros HPE t Ht. by apply HPE. Qed.

Lemma triple_upd (P : Assertion) f (Q : Assertion) E : (∀ t, P t → Q (f t)) → triple P (upd f) (λ _, Q) E.
Proof. intros HPQ t Ht. by apply HPQ. Qed.

Lemma triple_get (P : Assertion) E : triple P get (λ u t, u = t ∧ P t) E.
Proof. intros t Ht. done. Qed.

Lemma triple_conseq {A} (P P' : Assertion) (m : M A) (Q Q' : A → Assertion) E : (∀ t, P t → P' t) → (∀ a t, Q' a t → Q a t) → triple P' m Q' E → triple P m Q E.
Proof. intros HP HQ Hm t Ht. specialize (Hm t (HP t Ht)). destruct (m t) as [t' [a|e]]; auto. Qed.

Lemma triple_pre {A} (P P' : Assertion) (m : M A) Q E : (∀ t, P t → P' t) → triple P' m Q E → triple P m Q E.
Proof. intros HP. by apply triple_conseq. Qed.

Lemma triple_post {A} (P : Assertion) (m : M A) (Q Q' : A → Assertion) E : (∀ a t, Q' a t → Q a t) → triple P m Q' E → triple P m Q E.
Proof. intros HQ. by apply triple_conseq. Qed.

Lemma triple_err {A} (P : Assertion) (m : M A) Q (E E' : TurnError → Assertion) : (∀ e t, E' e t → E e t) → triple P m Q E' → triple P m Q E.
Proof. intros HE Hm t Ht. specialize (Hm t Ht). destruct (m t) as [t' [a|e]]; auto. Qed.

Lemma triple_when (P : Assertion) b m E : triple P m (λ _, P) E → triple P (when b m) (λ _, P) E.
Proof. intros Hm. destruct b; [done|]. by apply triple_ret. Qed.

(** An assertion about the state a computation starts from can be fixed. *)
Lemma triple_at {A} (P : Assertion) (m : M A) Q E : (∀ t, P t → triple (λ u, u = t) m Q E) → triple P m Q E.
Proof. intros Hm t Ht. by apply (Hm t Ht). Qed.
End triples.

(** The rules, for the computations as they are written. *)
Ltac bind_with R := eapply (triple_bind _ _ _ R).
Ltac run := cbv beta iota delta [mbind M_bind mret M_ret bind get upd ret fail]; cbn.
Ltac got := eapply triple_bind; [apply triple_get|intros ?; cbn beta].

(** ** What the parts of a turn leave alone *)

Section specs.
Context `{UnicodeData} {W : Type} `{TurnHost W} (cfg : TurnConfig).
Implicit Types (P Q : Turn W → Prop) (t : Turn W).
#[local] Existing Instance M_ret.
#[local] Existing Instance M_bind.

(** An assertion that is not about the world, the request in hand, what was published
    or (a [Calm] one) how often the model was asked. *)
Record Stable P : Prop := {
  st_world w t : P t → P (set_world w t);
  st_messages l t : P t → P (set_messages l t);
  st_evicted n t : P t → P (add_evicted n t);
  st_published o t : P t → P (log (Published o) t)
}.

Record Calm P : Prop := {
  calm_stable : Stable P;
  calm_asked l mt b t : P t → P (log (Asked l mt b) t)
}.

Lemma publish_stable P E o : Stable P → triple P (publish o) (λ _, P) E.
Proof. intros HS. apply triple_upd. intros t Ht. by apply HS, HS. Qed.

Lemma assemble_stable P E : Stable P → triple P assemble (λ _, P) E.
Proof.
  intros HS. unfold assemble. got. intros t [-> Ht]. destruct (host_assemble _ _) as [w [a|]]; cbn; [|by apply HS].
  destruct (a_Changed a); cbn; repeat first [done|apply HS].
Qed.
Lemma wait_stable P retry : Stable P → triple P (waitToRetry retry) (λ _, P) (λ _, P).
Proof. intros HS. unfold waitToRetry. got. intros t [-> Ht]. destruct (host_wait _ _) as [w [e|]]; cbn; by apply HS. Qed.

Lemma compress_stable P E retry mt est : Stable P → triple P (compressForRetry cfg retry mt est) (λ _, P) E.
Proof.
  intros HS. unfold compressForRetry. bind_with (λ (_ : unit), P); [apply triple_when; by apply publish_stable|]. intros _. got.
  intros t [-> Ht]. destruct (host_compress _ _) as [w [a|]]; cbn; repeat first [done|apply HS].
Qed.

Lemma failed_stable {A} P e : triple P (dispatchFailed (A := A) e) (λ _, P) (λ _, P).
Proof. unfold dispatchFailed. got. intros t [-> Ht]. by destruct (host_cause _). Qed.

Lemma call_calm P E mt : Calm P → triple P (callModel mt) (λ _, P) E.
Proof.
  intros [HS HA]. unfold callModel. got. intros t [-> Ht]. destruct (host_chat _ _ _) as [w r]. cbn. by apply HA, HS.
Qed.

Lemma request_calm P tries : Calm P → ∀ retry mt est, triple P (request_loop cfg tries retry mt est) (λ _, P) (λ _, P).
Proof.
  intros HC. pose proof (calm_stable _ HC) as HS. induction tries as [|tries IH]; intros retry mt est; cbn [request_loop].
  all: eapply triple_bind; [by apply call_calm|]; intros [resp|e]; cbn beta iota.
  1,3: bind_with (λ (_ : unit), P); [apply triple_when, triple_upd; intros u Hu; by apply (st_world _ HS)|]; intros _; by apply triple_ret.
  - by apply failed_stable.
  - destruct (classifyLLMError e).1; [eapply triple_bind; [by apply wait_stable|]; intros ?; apply IH|].
    destruct (classifyLLMError e).2; [eapply triple_bind; [by apply compress_stable|]; intros d; apply IH|by apply failed_stable].
Qed.

Lemma breadcrumbs_stable P E calls : Stable P → triple P (breadcrumbs cfg calls) (λ _, P) E.
Proof.
  intros HS. induction calls as [|tc calls IH]; cbn [breadcrumbs]; [by apply triple_ret|].
  bind_with (λ (_ : unit), P); [apply triple_when; by apply publish_stable|]. by intros _.
Qed.

(** The loop: [P] between iterations, [Q] once one is the last. *)
Lemma iterations_triple P Q E n : (∀ t, P t → P (next_iteration t)) → triple P (iterate cfg) (λ d t, if d : bool then Q t else P t) E →
  triple P (iterations cfg n) (λ _ t, P t ∨ Q t) E.
Proof.
  intros Hnext Hit. induction n as [|n IH]; cbn [iterations]; [apply triple_ret; auto|].
  bind_with (λ (_ : unit), P); [by apply triple_upd|]. intros _. eapply triple_bind; [exact Hit|]. intros [|]; [apply triple_ret; auto|exact IH].
Qed.

(** *** The slots of a batch *)

Lemma run_calls_length order calls w : ∀ slots, length (run_calls order calls slots w).2 = length slots.
Proof.
  revert w. induction order as [|i order IH]; intros w slots; cbn [run_calls]; [done|].
  destruct (calls !! i) as [tc|]; [|apply IH]. destruct (host_tool w tc) as [w' o]. rewrite IH. apply length_insert.
Qed.

(** A slot that is filled stays filled, and the slot of every goroutine is. *)
Lemma run_calls_filled order calls i : (i < length calls)%nat → ∀ w slots, length slots = length calls →
  i ∈ order ∨ (∃ r, slots !! i = Some (Some r)) → ∃ r, (run_calls order calls slots w).2 !! i = Some (Some r).
Proof.
  intros Hi. induction order as [|j order IH]; intros w slots Hlen Hor; cbn [run_calls].
  - destruct Hor as [Hx|Hx]; [by apply elem_of_nil in Hx|done].
  - destruct (calls !! j) as [tc|] eqn:Htc.
    + destruct (host_tool w tc) as [w' o]. apply IH; [by rewrite length_insert|]. destruct (decide (i = j)) as [<-|Hne].
      * right. exists (slot_result tc o). apply list_lookup_insert_eq. by rewrite Hlen.
      * rewrite list_lookup_insert_ne by done. rewrite elem_of_cons in Hor. naive_solver.
    + apply IH; [done|]. rewrite elem_of_cons in Hor. destruct Hor as [[->|Hx]|Hx]; [|by left|by right]. apply lookup_ge_None in Htc. lia.
Qed.

(** Every call of a batch has its result, in the order of the calls. *)
Lemma zip_filled (calls : list ToolCall) (slots : list (option ToolResult)) : length slots = length calls →
  (∀ i, (i < length calls)%nat → ∃ r, slots !! i = Some (Some r)) →
  (omap (λ x : ToolCall * option ToolResult, (x.1,.) <$> x.2) (zip calls slots)).*1 = calls.
Proof.
  revert slots. induction calls as [|c calls IH]; intros [|o slots] Hlen Hall; try done.
  destruct (Hall 0%nat) as [r Hr]; [cbn; lia|]. injection Hr as ->. cbn. f_equal. apply IH; [by injection Hlen|].
  intros i Hi. apply (Hall (S i)). cbn. lia.
Qed.

Lemma execute_spec P Q E calls : Stable P → (∀ t, P t → Q (log (Ran calls) t)) → triple P (executeToolCalls cfg calls) (λ results t, Q t ∧ results.*1 = calls) E.
Proof.
  intros HS HR. unfold executeToolCalls. bind_with (λ (_ : unit), P); [by apply breadcrumbs_stable|]. intros _. got. intros t [-> Ht].
  pose proof (run_calls_length (host_order (world t) (length calls)) calls (world t) (replicate (length calls) None)) as Hlen.
  pose proof (λ i Hi, run_calls_filled (host_order (world t) (length calls)) calls i Hi (world t) (replicate (length calls) None)) as Hfill.
  destruct (run_calls _ _ _ _) as [w slots]. cbn in *. rewrite length_replicate in Hlen. split; [by apply HR, HS|].
  apply zip_filled; [done|]. intros i Hi. apply Hfill; [done|by rewrite length_replicate|]. left. rewrite host_order_perm. apply elem_of_seq. lia.
Qed.

(** ** What a turn stores is a conversation *)

Definition stored (l : list Event) : list (StoreKind * Message) := omap (λ e, match e with Stored k m => Some (k, m) | _ => None end) l.

(** What a provider takes: after a message with calls, a result for each of them, in
    their order, and nothing else before the last. [waiting] are the calls still
    without a result. *)
Fixpoint converse (waiting : list string) (l : list (StoreKind * Message)) : option (list string) :=
  match l with
  | [] => Some waiting
  | (k, m) :: l =>
      match k, waiting with
      | AddToolCallMessage, [] => converse (map tc_ID (m_ToolCalls m)) l
      | AddToolResult, id :: waiting => if bool_decide (ToolCallID m = id) then converse waiting l else None
      | AddUserMessage, [] | AddAssistantMessage, [] => converse [] l
      | _, _ => None
      end
  end.

Definition Conv (waiting : list string) : Turn W → Prop := λ t, converse [] (stored (trace t)) = Some waiting.

(** A turn that fails may leave results out only because the store refused one. *)
Definition Broken (e : TurnError) : Turn W → Prop := λ t, ∃ waiting, Conv waiting t ∧ (waiting ≠ [] → e = StoreRejected "tool result").

Lemma converse_app w l1 l2 : converse w (l1 ++ l2) = converse w l1 ≫= λ w', converse w' l2.
Proof.
  revert w. induction l1 as [|[k m] l1 IH]; intros w; cbn [converse app]; [done|].
  destruct k, w as [|id w]; try done; try apply IH. by case_bool_decide; [apply IH|].
Qed.

Lemma stored_snoc l e : stored (l ++ [e]) = stored l ++ stored [e].
Proof. unfold stored. apply omap_app. Qed.

Lemma conv_calm w : Calm (Conv w).
Proof. split; [split|]; intros; unfold Conv in *; cbn [trace set_world set_messages add_evicted log]; rewrite ?stored_snoc; cbn; rewrite ?app_nil_r; done. Qed.

Lemma conv_stored w w' k m t : Conv w t → converse w [(k, m)] = Some w' → Conv w' (log (Stored k m) t).
Proof. unfold Conv. cbn [log trace]. intros Hw Hk. rewrite stored_snoc, converse_app, Hw. exact Hk. Qed.

Lemma conv_refused w k m t : Conv w t → Conv w (log (Refused k m) t).
Proof. unfold Conv. cbn [log trace]. intros Hw. rewrite stored_snoc. cbn. by rewrite app_nil_r. Qed.

Lemma keep_conv w w' k m what : converse w [(k, m)] = Some w' → (w ≠ [] → what = "tool result") →
  triple (Conv w) (keep k m what) (λ _, Conv w') Broken.
Proof.
  intros Hk Hwhat t Ht. unfold keep. run. destruct (host_add _ _ _) as [w1 [|]]; cbn.
  - by apply (conv_stored w w' k m (set_world w1 (append_message m t))).
  - exists w. split; [by apply (conv_refused w k m (set_world w1 (append_message m t)))|]. intros Hne. f_equal. auto.
Qed.

Lemma broken_conv w e t : Conv w t → w = [] → Broken e t.
Proof. intros Ht ->. by exists []. Qed.

Lemma route_id images r m : ToolCallID (route images r m).2 = ToolCallID m.
Proof. unfold route. by destruct (mode images), (Images r). Qed.

Lemma add_results_conv results : ∀ images,
  triple (Conv (map tc_ID results.*1)) (add_results cfg results images) (λ _, Conv []) Broken.
Proof.
  induction results as [|[tc r] results IH]; intros images; cbn [add_results]; [by apply triple_ret|].
  pose proof (calm_stable _ (conv_calm (map tc_ID ((tc, r) :: results).*1))) as HS.
  bind_with (λ (_ : unit), Conv (map tc_ID ((tc, r) :: results).*1)); [apply triple_when; by apply publish_stable|]. intros _.
  bind_with (λ (_ : unit), Conv (map tc_ID ((tc, r) :: results).*1)); [apply triple_when; by apply publish_stable|]. intros _.
  pose proof (route_id images r (toolResultMessage cfg tc r)) as Hid. destruct (route images r _) as [images' m]. cbn in Hid.
  eapply triple_bind; [|intros ?; apply IH]. apply keep_conv; [|done]. cbn. by rewrite bool_decide_true.
Qed.

Lemma keep_user_conv m what : triple (Conv []) (keep AddUserMessage m what) (λ _, Conv []) Broken.
Proof. by apply keep_conv. Qed.

Lemma addToolResults_conv results : triple (Conv (map tc_ID results.*1)) (addToolResults cfg results) (λ _, Conv []) Broken.
Proof.
  unfold addToolResults. eapply triple_bind; [apply add_results_conv|]. intros images. cbn beta.
  bind_with (λ (_ : unit), Conv []); [unfold addToolImages; case_bool_decide; [by apply triple_ret|apply keep_user_conv]|]. intros _.
  unfold describeUnseenImages. destruct (mode images); try by apply triple_ret. destruct (_ || _); [by apply triple_ret|]. got.
  intros t [-> Ht]. destruct (host_describe _ _ _) as [w d]. run. apply (keep_user_conv _ _ (set_world w t)).
  by apply (calm_stable _ (conv_calm [])).
Qed.

Lemma runToolCalls_conv response : triple (Conv []) (runToolCalls cfg response) (λ _, Conv []) Broken.
Proof.
  unfold runToolCalls. set (calls := map host_normalize (r_ToolCalls response)). pose proof (calm_stable _ (conv_calm [])) as HS.
  bind_with (λ (_ : bool), Conv []).
  { unfold stopRepeatedBatch. case_bool_decide; [by apply triple_ret|].
    intros t Ht. run. destruct (bool_decide (toolCallSignature calls = lastToolSig t)); cbn; by destruct (_ <? _). }
  intros [|]; [by apply triple_ret|]. bind_with (λ (_ : unit), Conv []); [apply triple_upd; intros t Ht; by apply HS|]. intros _.
  bind_with (λ (_ : unit), Conv []); [apply triple_when; by apply publish_stable|]. intros _.
  bind_with (λ (_ : unit), Conv (map tc_ID calls)).
  { apply keep_conv; [|done]. cbn. f_equal. unfold calls. rewrite !map_map. done. }
  intros _. eapply triple_bind; [apply (execute_spec (Conv (map tc_ID calls)) (Conv (map tc_ID calls)))|].
  - apply conv_calm.
  - intros t. unfold Conv. cbn [log trace]. rewrite stored_snoc. cbn. by rewrite app_nil_r.
  - intros results. cbn beta. bind_with (λ (_ : unit), Conv []).
    { intros t [Ht Hr]. apply addToolResults_conv. by rewrite Hr. }
    intros _. bind_with (λ (_ : unit), Conv []); [|intros _; by apply triple_ret].
    unfold steerFromRepeatedBatch. got. intros t [-> Ht]. by case_bool_decide.
Qed.

Lemma directAnswer_conv response : triple (Conv []) (directAnswer cfg response) (λ _, Conv []) Broken.
Proof. intros t Ht. unfold directAnswer. run. repeat case_match; simplify_eq/=; exact Ht. Qed.

Lemma iterate_conv : triple (Conv []) (iterate cfg) (λ _, Conv []) Broken.
Proof.
  unfold iterate. eapply triple_bind; [apply assemble_stable, conv_calm|]. intros est. cbn beta.
  eapply triple_bind; [eapply triple_err; [|apply request_calm, conv_calm]; intros e t Ht; by exists []|]. intros response. cbn beta.
  case_bool_decide; [apply directAnswer_conv|apply runToolCalls_conv].
Qed.

Lemma finishTurn_conv : triple (Conv []) (finishTurn cfg) (λ _, Conv []) Broken.
Proof.
  unfold finishTurn. got. apply triple_at. intros t [-> Ht]. destruct (isNoResponseSentinel _); [apply triple_ret; by intros ? ->|].
  case_bool_decide.
  - destruct (emptyReply cfg t) as [content outcome]. bind_with (λ (_ : unit), Conv []); [|intros _; by apply triple_ret].
    apply (triple_pre _ (Conv [])); [by intros ? ->|]. apply triple_when, publish_stable, conv_calm.
  - bind_with (λ (_ : unit), Conv []).
    { intros u ->. unfold saveAssistantReply. run. destruct (host_add _ _ _) as [w [|]]; cbn.
      - by apply (conv_stored [] [] _ _ (set_world w t)).
      - exists []. split; [by apply (conv_refused [] _ _ (set_world w t))|done]. }
    intros _. bind_with (λ (_ : unit), Conv []); [|intros _; by apply triple_ret]. apply triple_when, publish_stable, conv_calm.
Qed.

Lemma run_turn_conv : triple (Conv []) (run_turn cfg) (λ _, Conv []) Broken.
Proof.
  unfold run_turn, runLLMIteration. eapply triple_bind; [|intros ?; apply finishTurn_conv].
  eapply triple_post; [|apply (iterations_triple (Conv []) (Conv [])); [done|]]; [by intros _ t []|].
  eapply triple_post; [|apply iterate_conv]. by intros [|].
Qed.

(** ** How much a turn does *)

(** An assertion that is not about what is stored either, but for the reply. *)
Record Inert P : Prop := {
  inert_stable : Stable P;
  inert_stored k m t : k ≠ AddAssistantMessage → P t → P (log (Stored k m) t);
  inert_refused k m t : P t → P (log (Refused k m) t)
}.

Lemma keep_inert P k m what : Inert P → k ≠ AddAssistantMessage → triple P (keep k m what) (λ _, P) (λ _, P).
Proof.
  intros [HS H1 H2] Hk t Ht. unfold keep. run. destruct (host_add _ _ _) as [w [|]]; cbn; [apply H1; [done|]|apply H2]; by apply HS, HS.
Qed.

Lemma add_results_inert P results : Inert P → ∀ images, triple P (add_results cfg results images) (λ _, P) (λ _, P).
Proof.
  intros HI. pose proof (inert_stable _ HI) as HS. induction results as [|[tc r] results IH]; intros images; cbn [add_results]; [by apply triple_ret|].
  bind_with (λ (_ : unit), P); [apply triple_when; by apply publish_stable|]. intros _.
  bind_with (λ (_ : unit), P); [apply triple_when; by apply publish_stable|]. intros _.
  destruct (route images r _) as [images' m]. eapply triple_bind; [by apply keep_inert|]. intros ?. apply IH.
Qed.

Lemma addToolResults_inert P results : Inert P → triple P (addToolResults cfg results) (λ _, P) (λ _, P).
Proof.
  intros HI. pose proof (inert_stable _ HI) as HS. unfold addToolResults. eapply triple_bind; [by apply add_results_inert|]. intros images. cbn beta.
  bind_with (λ (_ : unit), P); [unfold addToolImages; case_bool_decide; [by apply triple_ret|by apply keep_inert]|]. intros _.
  unfold describeUnseenImages. destruct (mode images); try by apply triple_ret. destruct (_ || _); [by apply triple_ret|]. got.
  intros t [-> Ht]. destruct (host_describe _ _ _) as [w d]. run. apply (keep_inert P AddUserMessage _ _ HI ltac:(done) (set_world w t)). by apply HS.
Qed.

Lemma steer_stable P E names : Stable P → triple P (steerFromRepeatedBatch names) (λ _, P) E.
Proof. intros HS. unfold steerFromRepeatedBatch. got. intros t [-> Ht]. case_bool_decide; cbn; [done|]. by apply HS. Qed.

(** From the calls' message on: [P] before the batch is run, [Q] after. *)
Lemma rest_of_batch P Q E response calls names :
  Inert P → Inert Q → (∀ t, P t → Q (log (Ran calls) t)) → (∀ t, P t → E t) → (∀ t, Q t → E t) →
  triple P (upd (λ t, set_world (host_used (world t) names) t);; publishNarration cfg (r_Content response);;
            keep AddToolCallMessage (assistantToolCallMessage response calls) "tool call message";;
            results ← executeToolCalls cfg calls; addToolResults cfg results;; steerFromRepeatedBatch names;; ret false)
    (λ d t, d = false ∧ Q t) (λ _, E).
Proof.
  intros HP HQ Hran HPE HQE. pose proof (inert_stable _ HP) as HS.
  bind_with (λ (_ : unit), P); [apply triple_upd; intros t Ht; by apply HS|]. intros _.
  bind_with (λ (_ : unit), P); [apply triple_when; by apply publish_stable|]. intros _.
  bind_with (λ (_ : unit), P); [eapply triple_err; [|by apply keep_inert]; auto|]. intros _.
  eapply triple_bind; [by apply (execute_spec P Q)|]. intros results. cbn beta.
  bind_with (λ (_ : unit), Q); [eapply triple_err; [|eapply triple_pre; [|by apply addToolResults_inert]]; [auto|by intros t []]|]. intros _.
  bind_with (λ (_ : unit), Q); [by apply steer_stable, inert_stable|]. intros _. by apply triple_ret.
Qed.

Definition is_asked (e : Event) : bool := match e with Asked _ _ _ => true | _ => false end.
Definition asked (t : Turn W) : Z := count is_asked (trace t).

(** The bound on an answer's tokens: the agent's, or that halved, while it was above 512. *)
Definition tokens_ok (mt : Z) : Prop := mt = MaxTokens cfg ∨ 256 ≤ mt < MaxTokens cfg.
Definition Within (n : Z) : Turn W → Prop := λ t,
  asked t ≤ n ∧ Forall (λ e, match e with Asked _ mt _ => tokens_ok mt | _ => True end) (trace t) ∧ emptyRetries t ≤ maxEmptyRetries.

Lemma within_log n e t : is_asked e = false → Within n t → Within n (log e t).
Proof.
  intros He (Ha & Hf & Hr). unfold Within, asked in *. cbn [log trace emptyRetries]. rewrite count_snoc, He. split_and!; [lia| |done].
  apply Forall_app. split; [done|]. by destruct e; repeat constructor.
Qed.

Lemma within_inert n : Inert (Within n).
Proof. split; [split|..]; intros; try done; by apply within_log. Qed.

Lemma within_more n n' t : n ≤ n' → Within n t → Within n' t.
Proof. intros Hn (Ha & Hf & Hr). split_and!; [lia|done..]. Qed.

Lemma within_asked n l mt b t : tokens_ok mt → Within n t → Within (n + 1) (log (Asked l mt b) t).
Proof.
  intros Hmt (Ha & Hf & Hr). unfold Within, asked in *. cbn [log trace emptyRetries]. rewrite count_snoc. cbn [is_asked]. split_and!; [lia| |done].
  apply Forall_app. split; [done|]. by apply Forall_singleton.
Qed.

Lemma callModel_within n mt E : tokens_ok mt → triple (Within n) (callModel mt) (λ _, Within (n + 1)) E.
Proof.
  intros Hmt. unfold callModel. got. intros t [-> Ht]. destruct (host_chat _ _ _) as [w r]. by apply (within_asked n _ _ _ (set_world w t)).
Qed.

Lemma compress_within n retry mt est E : tokens_ok mt → triple (Within n) (compressForRetry cfg retry mt est) (λ d t, tokens_ok d.1 ∧ Within n t) E.
Proof.
  intros Hmt. pose proof (inert_stable _ (within_inert n)) as HS.
  assert (Hhalf : tokens_ok (if 512 <? mt then mt / 2 else mt)).
  { destruct (512 <? mt) eqn:Hlt; [|done]. apply Z.ltb_lt in Hlt. right.
    assert (256 <= mt / 2 < mt) by (split; [apply Z.div_le_lower_bound; lia|apply Z.div_lt; lia]). destruct Hmt; lia. }
  unfold compressForRetry. set (half := if 512 <? mt then mt / 2 else mt) in *. clearbody half.
  bind_with (λ (_ : unit), Within n); [apply triple_when; by apply publish_stable|]. intros _. got. intros t [-> Ht].
  destruct (host_compress _ _) as [w [a|]]; run; (split; [by case_match|done]).
Qed.

Lemma request_within tries : ∀ n retry mt est, tokens_ok mt →
  triple (Within n) (request_loop cfg tries retry mt est) (λ _, Within (n + Z.of_nat tries + 1)) (λ _, Within (n + Z.of_nat tries + 1)).
Proof.
  assert (Hfail : ∀ n n' e, n ≤ n' → triple (Within n) (dispatchFailed (A := Response) e) (λ _, Within n') (λ _, Within n')).
  { intros n n' e Hn. eapply triple_pre; [|apply failed_stable]. intros t. by apply within_more. }
  induction tries as [|tries IH]; intros n retry mt est Hmt; cbn [request_loop].
  all: pose proof (inert_stable _ (within_inert (n + 1))) as HS.
  all: eapply triple_bind; [by apply (callModel_within n)|]; intros [resp|e]; cbn beta iota.
  1,3: bind_with (λ (_ : unit), Within (n + 1)); [apply triple_when, triple_upd; intros u Hu; by apply (st_world _ HS)|];
    intros _; apply triple_ret; intros t; apply within_more; lia.
  - apply Hfail. lia.
  - replace (n + Z.of_nat (S tries) + 1) with (n + 1 + Z.of_nat tries + 1) by lia. destruct (classifyLLMError e).1.
    + eapply triple_bind; [eapply triple_err; [|by apply wait_stable]; intros ? t; apply within_more; lia|]. intros ?. by apply IH.
    + destruct (classifyLLMError e).2; [|apply Hfail; lia]. eapply triple_bind; [by apply compress_within|]. intros d. cbn beta.
      intros t [Hd Ht]. by apply (IH (n + 1) _ _ _ Hd).
Qed.

(** One iteration asks the model three times at most. *)
Definition per_iteration : Z := Z.of_nat llmMaxRetries + 1.

Lemma directAnswer_within n response : triple (Within n) (directAnswer cfg response) (λ _, Within n) (λ _, Within n).
Proof.
  intros t Ht. unfold directAnswer. run. repeat case_match; simplify_eq/=; try exact Ht.
  all: destruct Ht as (Ha & Hf & Hr); split_and!; [done|done|]; cbn in *; lia.
Qed.

Lemma iterate_within n : triple (Within n) (iterate cfg) (λ _, Within (n + per_iteration)) (λ _, Within (n + per_iteration)).
Proof.
  unfold iterate, requestModel. eapply triple_bind; [apply assemble_stable, inert_stable, within_inert|]. intros est. cbn beta.
  replace (n + per_iteration) with (n + Z.of_nat llmMaxRetries + 1) by (unfold per_iteration; lia).
  eapply triple_bind; [apply (request_within llmMaxRetries n); by left|]. intros response. cbn beta.
  replace (n + Z.of_nat llmMaxRetries + 1) with (n + per_iteration) by (unfold per_iteration; lia). case_bool_decide; [apply directAnswer_within|].
  unfold runToolCalls. bind_with (λ (_ : bool), Within (n + per_iteration)).
  { intros t Ht. unfold stopRepeatedBatch. run. repeat case_match; simplify_eq/=; exact Ht. }
  intros [|]; [by apply triple_ret|].
  eapply triple_post; [|apply (rest_of_batch (Within (n + per_iteration)) (Within (n + per_iteration)) (Within (n + per_iteration)));
    [apply within_inert|apply within_inert|intros t; by apply within_log|done|done]].
  by intros ? t [].
Qed.

Lemma iterations_within k : ∀ n, triple (Within n) (iterations cfg k)
  (λ _, Within (n + per_iteration * Z.of_nat k)) (λ _, Within (n + per_iteration * Z.of_nat k)).
Proof.
  assert (H0' : 0 <= per_iteration) by done. induction k as [|k IH]; intros n; cbn [iterations].
  - apply triple_ret. intros t. by replace (n + per_iteration * Z.of_nat 0) with n by lia.
  - assert (Hp : n + per_iteration + per_iteration * Z.of_nat k = n + per_iteration * Z.of_nat (S k)) by lia.
    bind_with (λ (_ : unit), Within n); [by apply triple_upd|]. intros _.
    eapply triple_bind; [eapply triple_err; [|apply iterate_within]; intros ? t; apply within_more; nia|].
    intros [|]; cbn beta iota; [apply triple_ret; intros t; apply within_more; nia|]. rewrite <- Hp. apply IH.
Qed.

Lemma finishTurn_inert P : Inert P → (∀ m t, P t → P (log (Stored AddAssistantMessage m) t)) → triple P (finishTurn cfg) (λ _, P) (λ _, P).
Proof.
  intros HI HA. pose proof (inert_stable _ HI) as HS. unfold finishTurn. got. apply triple_at. intros t [-> Ht].
  apply (triple_pre _ P); [by intros ? ->|]. destruct (isNoResponseSentinel _); [by apply triple_ret|]. case_bool_decide.
  - destruct (emptyReply cfg t) as [content outcome]. bind_with (λ (_ : unit), P); [|intros _; by apply triple_ret]. by apply triple_when, publish_stable.
  - bind_with (λ (_ : unit), P).
    { intros u Hu. unfold saveAssistantReply. run. destruct (host_add _ _ _) as [w [|]]; cbn; [apply HA|apply HI]; by apply HS. }
    intros _. bind_with (λ (_ : unit), P); [|intros _; by apply triple_ret]. by apply triple_when, publish_stable.
Qed.

(** *** Repeated batches *)

Definition batches (l : list Event) : list string := omap (λ e, match e with Ran calls => Some (toolCallSignature calls) | _ => None end) l.

(** How often [x] is at the end. *)
Fixpoint lead (x : string) (l : list string) : Z :=
  match l with y :: l => if bool_decide (y = x) then 1 + lead x l else 0 | [] => 0 end.
Definition trail (x : string) (l : list string) : Z := lead x (rev l).

(** No batch four times in a row. *)
Definition short_runs (l : list string) : Prop := ∀ l1 x l2, l ≠ l1 ++ replicate (Z.to_nat maxIdenticalToolBatches) x ++ l2.

Definition Short : Turn W → Prop := λ t, short_runs (batches (trace t)).

(** Between iterations, and once a batch has passed the check. *)
Definition Settled : Turn W → Prop := λ t,
  Short t ∧ 0 ≤ identicalToolBatches t ∧ (batches (trace t) = [] → lastToolSig t = "") ∧
  (batches (trace t) ≠ [] → trail (lastToolSig t) (batches (trace t)) = identicalToolBatches t + 1).

Definition Checked (sig : string) : Turn W → Prop := λ t,
  Short t ∧ 0 ≤ identicalToolBatches t ∧ lastToolSig t = sig ∧ trail sig (batches (trace t)) = identicalToolBatches t ∧ identicalToolBatches t + 1 < maxIdenticalToolBatches.

Lemma batches_snoc l e : batches (l ++ [e]) = batches l ++ batches [e].
Proof. unfold batches. apply omap_app. Qed.

Lemma batches_log e t : (∀ calls, e ≠ Ran calls) → batches (trace (log e t)) = batches (trace t).
Proof. intros He. cbn [log trace]. rewrite batches_snoc. destruct e; cbn; rewrite ?app_nil_r; done || by edestruct He. Qed.

Lemma trail_snoc x y l : trail x (l ++ [y]) = if bool_decide (y = x) then 1 + trail x l else 0.
Proof. unfold trail. by rewrite rev_app_distr. Qed.

Lemma lead_replicate n x l : lead x (replicate n x ++ l) = Z.of_nat n + lead x l.
Proof. induction n as [|n IH]; [done|]. cbn [replicate app lead]. rewrite bool_decide_true by done. lia. Qed.

Lemma lead_nonneg x l : 0 <= lead x l.
Proof. induction l as [|y l IH]; cbn [lead]; [done|]. case_bool_decide; lia. Qed.

(** One more batch keeps runs short when the one it repeats is not at its end three times. *)
Lemma short_runs_snoc l x : short_runs l → trail x l + 1 < maxIdenticalToolBatches → short_runs (l ++ [x]).
Proof.
  intros Hl Ht l1 y l2. destruct l2 as [|z l2 _] using rev_ind.
  - rewrite app_nil_r. intros Heq. change (replicate (Z.to_nat maxIdenticalToolBatches) y) with (replicate 3 y ++ [y]) in Heq. rewrite app_assoc in Heq.
    apply app_inj_tail in Heq as [-> ->]. unfold trail in Ht. rewrite rev_app_distr in Ht. change (rev (replicate 3 y)) with (replicate 3 y) in Ht.
    rewrite lead_replicate in Ht. pose proof (lead_nonneg y (rev l1)). unfold maxIdenticalToolBatches in Ht. lia.
  - intros Heq. rewrite !app_assoc in Heq. apply app_inj_tail in Heq as [Heq _]. rewrite <- app_assoc in Heq. by apply (Hl l1 y l2).
Qed.

Lemma short_inert : Inert Short.
Proof. split; [split|..]; intros; unfold Short in *; try done; by rewrite batches_log. Qed.

Lemma settled_log e t : (∀ calls, e ≠ Ran calls) → Settled t → Settled (log e t).
Proof. intros He. unfold Settled, Short. rewrite batches_log by done. done. Qed.

Lemma settled_inert : Inert Settled.
Proof. split; [split|..]; intros; try done; by apply settled_log. Qed.

Lemma settled_calm : Calm Settled.
Proof. split; [apply settled_inert|]. intros. by apply settled_log. Qed.

Lemma checked_inert sig : Inert (Checked sig).
Proof. split; [split|..]; intros; unfold Checked, Short in *; try done; by rewrite batches_log. Qed.

Lemma checked_ran calls t : Checked (toolCallSignature calls) t → Settled (log (Ran calls) t).
Proof.
  intros (Hs & H0' & Hsig & Ht & Hn). unfold Settled, Short in *. cbn [log trace lastToolSig identicalToolBatches]. rewrite batches_snoc. cbn.
  split_and!; [apply short_runs_snoc; [done|lia]|done|by intros [_ ?]%app_eq_nil|]. intros _. rewrite Hsig, trail_snoc, bool_decide_true by done. lia.
Qed.

Lemma stop_settled calls names E : toolCallSignature calls ≠ "" →
  triple Settled (stopRepeatedBatch calls names) (λ stop t, if stop : bool then Short t else Checked (toolCallSignature calls) t) E.
Proof.
  intros Hne t (Hs & H0' & Hnone & Hlast). unfold stopRepeatedBatch. rewrite bool_decide_false by done. run.
  set (u := if bool_decide _ then _ else _).
  assert (Htrail : trail (toolCallSignature calls) (batches (trace t)) = identicalToolBatches u).
  { unfold u. destruct (batches (trace t)) as [|b l _] eqn:Hb using rev_ind.
    - rewrite bool_decide_false by (rewrite Hnone by done; done). done.
    - assert (Hl : l ++ [b] ≠ []) by by intros [_ ?]%app_eq_nil. specialize (Hlast Hl).
      case_bool_decide as Heq; cbn [identicalToolBatches set_batch]; [by rewrite Heq|].
      rewrite trail_snoc in Hlast |- *. destruct (decide (b = toolCallSignature calls)) as [->|Hb']; [|by rewrite bool_decide_false].
      rewrite bool_decide_false in Hlast by done. lia. }
  assert (Hu : Short u ∧ 0 ≤ identicalToolBatches u ∧ lastToolSig u = toolCallSignature calls ∧ batches (trace u) = batches (trace t)).
  { unfold u. case_bool_decide; cbn; split_and!; done || lia. }
  destruct Hu as (Hus & Hu0 & Hul & Hub). clearbody u. destruct (identicalToolBatches u + 1 <? maxIdenticalToolBatches) eqn:Hlt; cbn; [|exact Hus].
  split_and!; [done|done|done|by rewrite Hub|lia].
Qed.

(** A batch has a signature. *)
Lemma signature_part_nonempty c : signature_part c ≠ "".
Proof. unfold signature_part. destruct (if bool_decide _ then _ else _); done. Qed.

Lemma Join_nonempty x l sep : x ≠ "" → Join (x :: l) sep ≠ "".
Proof. intros Hx. destruct x as [|c x]; [done|]. by destruct l. Qed.

Lemma signature_nonempty calls : calls ≠ [] → toolCallSignature calls ≠ "".
Proof.
  intros Hc. unfold toolCallSignature. destruct calls as [|c calls]; [done|].
  pose proof (merge_sort_Permutation String.le (map signature_part (c :: calls))) as Hp.
  destruct (merge_sort String.le _) as [|x l]; [by apply Permutation_nil in Hp|]. apply Join_nonempty.
  assert (Hx : x ∈ map signature_part (c :: calls)) by (rewrite <- Hp; by left).
  apply list_elem_of_fmap in Hx as (d & -> & _). apply signature_part_nonempty.
Qed.

Lemma settled_short t : Settled t → Short t.
Proof. by intros []. Qed.

Lemma iterate_settled : triple Settled (iterate cfg) (λ d t, if d : bool then Short t else Settled t) (λ _, Short).
Proof.
  unfold iterate. eapply triple_bind; [apply assemble_stable, settled_calm|]. intros est. cbn beta.
  eapply triple_bind; [eapply triple_err; [|apply request_calm, settled_calm]; intros ? t; apply settled_short|]. intros response. cbn beta.
  case_bool_decide as Hlen.
  - intros t Ht. pose proof (settled_short t Ht). unfold directAnswer. run. repeat case_match; simplify_eq/=; done.
  - unfold runToolCalls. eapply triple_bind; [apply stop_settled, signature_nonempty|].
    { intros Hn%map_eq_nil. by rewrite Hn in Hlen. }
    intros [|]; cbn beta iota; [by apply triple_ret|].
    eapply triple_post; [|apply (rest_of_batch (Checked _) Settled Short); [apply checked_inert|apply settled_inert|by apply checked_ran|by intros t []|by apply settled_short]].
    by intros ? t [-> Ht].
Qed.

Lemma run_turn_short : triple Settled (run_turn cfg) (λ _, Short) (λ _, Short).
Proof.
  unfold run_turn, runLLMIteration. eapply triple_bind; [|intros ?; apply finishTurn_inert; [apply short_inert|intros; unfold Short in *; by rewrite batches_log]].
  eapply triple_post; [|apply (iterations_triple Settled Short); [done|apply iterate_settled]]. intros _ t [Ht|Ht]; [by apply settled_short|done].
Qed.

Lemma run_turn_within : triple (Within 0) (run_turn cfg) (λ _, Within (per_iteration * Z.of_nat (MaxIterations cfg))) (λ _, Within (per_iteration * Z.of_nat (MaxIterations cfg))).
Proof.
  unfold run_turn, runLLMIteration. eapply triple_bind; [|intros ?; apply finishTurn_inert; [apply within_inert|intros; by apply within_log]]. apply (iterations_within _ 0).
Qed.

(** *** The reply *)

Definition replies (l : list Event) : list Message := omap (λ e, match e with Stored AddAssistantMessage m => Some m | _ => None end) l.
Definition NoReply : Turn W → Prop := λ t, replies (trace t) = [].

Lemma replies_log e t : replies (trace (log e t)) = replies (trace t) ++ replies [e].
Proof. unfold replies. apply omap_app. Qed.

Lemma noreply_log e t : replies [e] = [] → NoReply t → NoReply (log e t).
Proof. intros He Ht. unfold NoReply. by rewrite replies_log, Ht, He. Qed.

Lemma noreply_inert : Inert NoReply.
Proof. split; [split|..]; intros; try done; apply noreply_log; try done. by destruct k. Qed.

Lemma noreply_calm : Calm NoReply.
Proof. split; [apply noreply_inert|]. intros. by apply noreply_log. Qed.

Lemma iterate_noreply : triple NoReply (iterate cfg) (λ _, NoReply) (λ _, NoReply).
Proof.
  unfold iterate. eapply triple_bind; [apply assemble_stable, noreply_calm|]. intros est. cbn beta.
  eapply triple_bind; [apply request_calm, noreply_calm|]. intros response. cbn beta. case_bool_decide.
  - intros t Ht. unfold directAnswer. run. repeat case_match; simplify_eq/=; done.
  - unfold runToolCalls. bind_with (λ (_ : bool), NoReply).
    { intros t Ht. unfold stopRepeatedBatch. run. repeat case_match; simplify_eq/=; exact Ht. }
    intros [|]; [by apply triple_ret|].
    eapply triple_post; [|apply (rest_of_batch NoReply NoReply NoReply); [apply noreply_inert|apply noreply_inert|intros t; by apply noreply_log|done|done]].
    by intros ? t [].
Qed.

(** What the turn answers, as against what it has stored. *)
Definition Accounted (x : string * option TurnOutcome) : Turn W → Prop := λ t,
  match x with
  | (reply, None) => reply ≠ "" ∧ isNoResponseSentinel reply = false ∧ replies (trace t) = [plain "assistant" reply]
  | (reply, Some o) => replies (trace t) = [] ∧
      (reply = "" → o = OutcomeEmpty ∧ (isNoResponseSentinel (finalContent t) = true ∨ (IsGroup cfg = true ∧ finalContent t = "")))
  end.

Lemma silent_stable : Stable (λ u, NoReply u ∧ finalContent u = "").
Proof. split; try done. intros o t [Hn Hf]. split; [by apply noreply_log|exact Hf]. Qed.

Lemma replied_stable c : Stable (λ u, replies (trace u) = [plain "assistant" c]).
Proof. split; intros; try done. by rewrite replies_log, app_nil_r. Qed.

Lemma save_replied c : triple NoReply (saveAssistantReply c) (λ _ u, replies (trace u) = [plain "assistant" c]) (λ _, NoReply).
Proof.
  intros t Ht. unfold saveAssistantReply. run. destruct (host_add _ _ _) as [w [|]]; cbn.
  - change (replies (trace (log (Stored AddAssistantMessage (plain "assistant" c)) (set_world w t))) = [plain "assistant" c]).
    rewrite replies_log. cbn [set_world trace]. by rewrite Ht.
  - by apply (noreply_log _ (set_world w t)).
Qed.

Lemma finishTurn_accounted : triple NoReply (finishTurn cfg) Accounted (λ _, NoReply).
Proof.
  unfold finishTurn. got. apply triple_at. intros t [-> Ht]. destruct (isNoResponseSentinel (finalContent t)) eqn:Hs.
  - apply triple_ret. intros ? ->. split; [exact Ht|]. auto.
  - case_bool_decide as He.
    + destruct (emptyReply cfg t) as [content outcome] eqn:Hr. bind_with (λ (_ : unit) (u : Turn W), NoReply u ∧ finalContent u = "").
      { apply (triple_pre _ (λ u : Turn W, NoReply u ∧ finalContent u = "")); [by intros ? ->|]. apply triple_when, publish_stable, silent_stable. }
      intros _. apply triple_ret. intros u [Hu Hfu]. split; [exact Hu|]. intros ->. unfold emptyReply in Hr.
      destruct (lastNormal t && negb (degenerate t) && IsGroup cfg) eqn:Hg; [|by repeat case_match].
      apply andb_true_iff in Hg as [_ Hg]. injection Hr as <-. auto.
    + eapply triple_bind; [eapply triple_pre; [|apply save_replied]; by intros ? ->|]. intros ?. cbn beta.
      bind_with (λ (_ : unit) (u : Turn W), replies (trace u) = [plain "assistant" (finalContent t)]); [apply triple_when, publish_stable, replied_stable|].
      intros _. apply triple_ret. intros u Hu. split_and!; done.
Qed.

Lemma run_turn_accounted : triple NoReply (run_turn cfg) Accounted (λ _, NoReply).
Proof.
  unfold run_turn, runLLMIteration. eapply triple_bind; [|intros ?; apply finishTurn_accounted].
  eapply triple_post; [|apply (iterations_triple NoReply NoReply); [done|]]; [by intros _ t []|].
  eapply triple_post; [|apply iterate_noreply]. by intros [|].
Qed.

(** *** Tools in parallel *)

Lemma run_calls_pure (f : ToolCall → ToolOutcome) order calls : (∀ w tc, (host_tool w tc).2 = f tc) → ∀ w slots i r, length slots = length calls →
  (∀ r, slots !! i = Some (Some r) → ∃ tc, calls !! i = Some tc ∧ r = slot_result tc (f tc)) →
  (run_calls order calls slots w).2 !! i = Some (Some r) → ∃ tc, calls !! i = Some tc ∧ r = slot_result tc (f tc).
Proof.
  intros Hf. induction order as [|j order IH]; intros w slots i r Hlen Hs; cbn [run_calls]; [by intros ?%Hs|].
  destruct (calls !! j) as [tc|] eqn:Htc; [|by apply IH]. specialize (Hf w tc). destruct (host_tool w tc) as [w' o]. cbn in Hf. subst o.
  apply IH; [by rewrite length_insert|]. intros r'. destruct (decide (i = j)) as [->|Hne].
  - rewrite list_lookup_insert_eq by (rewrite Hlen; by eapply lookup_lt_Some). intros [= <-]. by exists tc.
  - rewrite list_lookup_insert_ne by done. apply Hs.
Qed.

Lemma zip_pure (f : ToolCall → ToolOutcome) (calls : list ToolCall) : ∀ slots : list (option ToolResult), length slots = length calls →
  (∀ i, (i < length calls)%nat → ∃ r, slots !! i = Some (Some r)) →
  (∀ i r, slots !! i = Some (Some r) → ∃ tc, calls !! i = Some tc ∧ r = slot_result tc (f tc)) →
  omap (λ x : ToolCall * option ToolResult, (x.1,.) <$> x.2) (zip calls slots) = map (λ tc, (tc, slot_result tc (f tc))) calls.
Proof.
  induction calls as [|c calls IH]; intros [|o slots] Hlen Hall Hval; try done.
  destruct (Hall 0%nat) as [r Hr]; [cbn; lia|]. injection Hr as ->. destruct (Hval 0%nat r eq_refl) as (tc & [= <-] & ->). cbn. f_equal.
  apply IH; [by injection Hlen| |intros i r; apply (Hval (S i) r)]. intros i Hi. apply (Hall (S i)). cbn. lia.
Qed.

(** *** Cutting a tool's result *)

Definition rune_start_at (l : list ascii) (i : nat) : Prop := ∃ c, l !! i = Some c ∧ RuneStart c = true.

Lemma back_off_range fuel l cut : (cut - fuel <= back_off fuel l cut <= cut)%nat.
Proof.
  revert cut. induction fuel as [|fuel IH]; intros cut; cbn [back_off]; [lia|].
  destruct (_ && _) eqn:Hb; [|lia]. apply andb_true_iff in Hb as [Hb _]. specialize (IH (pred cut)). lia.
Qed.

Lemma back_off_start fuel l cut : (cut < length l)%nat → (∃ i, (cut - fuel < i <= cut)%nat ∧ rune_start_at l i) → rune_start_at l (back_off fuel l cut).
Proof.
  revert cut. induction fuel as [|fuel IH]; intros cut Hcut (i & Hi & Hs); cbn [back_off]; [lia|].
  destruct (lookup_lt_is_Some_2 l cut Hcut) as [c Hc]. rewrite Hc. destruct (RuneStart c) eqn:Hr; cbn [negb].
  - rewrite andb_false_r. by exists c.
  - rewrite andb_true_r. assert (Hne : i ≠ cut) by (intros ->; destruct Hs as (d & Hd & Hds); congruence).
    destruct (0 <? Z.of_nat cut) eqn:H0'; [|lia]. apply IH; [lia|]. exists i. split; [lia|done].
Qed.

Lemma toolResultCap_range window : toolResultCapFloor ≤ toolResultCap window ≤ toolResultCapCeiling.
Proof. unfold toolResultCap, toolResultCapFloor, toolResultCapCeiling. lia. Qed.
End specs.

(** ** Theorems *)

Section theorems.
Context `{UnicodeData} {W : Type} `{TurnHost W} (cfg : TurnConfig).


(** C23. How much a turn does is bounded, whatever the model does: it is asked at most
    three times for each iteration, poked at most twice for a reply, never runs the
    same batch of tool calls four times in a row, and is never offered more tokens
    for its answer than the agent's limit, nor, when the context overflows, fewer
    than 256 (or the limit, if that is lower). *)
Theorem turn_calls_bounded (w : W) request :
  let t := (run_turn cfg (newLLMTurn w request)).1 in
  count is_asked (trace t) ≤ 3 * Z.of_nat (MaxIterations cfg) ∧ emptyRetries t ≤ maxEmptyRetries ∧
  short_runs (batches (trace t)) ∧
  Forall (λ e, match e with Asked _ mt _ => mt = MaxTokens cfg ∨ 256 ≤ mt < MaxTokens cfg | _ => True end) (trace t).
Proof.
  assert (H1 : Within cfg 0 (newLLMTurn w request)) by done.
  assert (H2 : Settled (newLLMTurn w request)).
  { split_and!; try done. intros l1 x l2 Hx. by destruct l1. }
  pose proof (run_turn_within cfg _ H1) as Hw. pose proof (run_turn_short cfg _ H2) as Hs.
  destruct (run_turn cfg _) as [t [x|e]]; cbn; destruct Hw as (Ha & Hf & Hr); by split_and!.
Qed.

(** A turn's reply is accounted for. The reply that is the model's is never empty
    nor the sign for silence, and is stored, as the one reply of the turn; a text
    that stands in for an empty reply is not stored; and a turn that does not fail
    is silent only when the model said so, or said nothing in a group. *)
Theorem reply_accounted (w : W) request :
  let '(t, r) := run_turn cfg (newLLMTurn w request) in
  match r with
  | Ok (reply, None) => reply ≠ "" ∧ isNoResponseSentinel reply = false ∧ replies (trace t) = [plain "assistant" reply]
  | Ok (reply, Some o) => replies (trace t) = [] ∧
      (reply = "" → o = OutcomeEmpty ∧ (isNoResponseSentinel (finalContent t) = true ∨ (IsGroup cfg = true ∧ finalContent t = "")))
  | Err _ => replies (trace t) = []
  end.
Proof.
  pose proof (run_turn_accounted cfg (newLLMTurn w request) eq_refl) as Hr. by destruct (run_turn cfg _) as [t [[reply [o|]]|e]].
Qed.

(** The calls of a batch run at once, and their results do not depend on which
    finishes first: when a tool's answer depends on its call alone, the results are
    those of the calls one by one, in their order; a tool that panics has a result
    as well. *)
Theorem parallel_results (f : ToolCall → ToolOutcome) calls (t : Turn W) : (∀ w tc, (host_tool w tc).2 = f tc) →
  (executeToolCalls cfg calls t).2 = Ok (map (λ tc, (tc, slot_result tc (f tc))) calls).
Proof.
  intros Hf. unfold executeToolCalls. run. destruct (breadcrumbs cfg calls t) as [t' [u|e]] eqn:Hb.
  2: { pose proof (breadcrumbs_stable cfg (λ _, True) (λ _ _, False) calls ltac:(by split)) as Hx. specialize (Hx t I). by rewrite Hb in Hx. }
  set (order := host_order (world t') (length calls)).
  pose proof (run_calls_length order calls (world t') (replicate (length calls) None)) as Hlen.
  pose proof (λ i Hi, run_calls_filled order calls i Hi (world t') (replicate (length calls) None)) as Hfill.
  pose proof (run_calls_pure f order calls Hf (world t') (replicate (length calls) None)) as Hpure.
  destruct (run_calls _ _ _ _) as [w slots]. cbn in *. rewrite length_replicate in Hlen, Hfill, Hpure. f_equal. apply zip_pure; [done|..].
  - intros i Hi. apply Hfill; [done|done|]. left. unfold order. rewrite host_order_perm. apply elem_of_seq. lia.
  - intros i r. apply Hpure; [done|]. intros r' Hr. by apply lookup_replicate in Hr as [? _].
Qed.

(** A tool's result within the cap of the context window is given to the model as
    it is. A longer one is cut at the cap, or up to four bytes before it, and says
    how much was kept; where a character starts in the last bytes before the cap
    the cut is at such a place, so no character is split. The cap is between 16 KiB
    and 512 KiB. *)
Theorem capToolResult_spec content isError window :
  let limit := toolResultCap window in
  16 * 1024 ≤ limit ≤ 512 * 1024 ∧
  (len content ≤ limit → capToolResult content isError window = content) ∧
  (limit < len content → ∃ cut, limit - UTFMax ≤ Z.of_nat cut ≤ limit ∧
    capToolResult content isError window = (of_bytes (take cut (bytes content)) +:+ truncation_note (Z.of_nat cut) (len content))%string ∧
    ((∃ i, limit - UTFMax < Z.of_nat i ≤ limit ∧ rune_start_at (bytes content) i) → rune_start_at (bytes content) cut)).
Proof.
  intros limit. pose proof (toolResultCap_range window) as Hr. fold limit in Hr. unfold toolResultCapFloor, toolResultCapCeiling in Hr.
  assert (Hcap : capToolResult content isError window = if len content <=? limit then content else
    let cut := back_off (Z.to_nat UTFMax) (bytes content) (Z.to_nat limit) in (of_bytes (take cut (bytes content)) +:+ truncation_note (Z.of_nat cut) (len content))%string).
  { unfold capToolResult. fold limit. replace (limit <? toolErrorMinChars) with false by (symmetry; apply Z.ltb_ge; unfold toolErrorMinChars; lia). by rewrite andb_false_r. }
  rewrite Hcap. split_and!; [lia|lia|..].
  - intros Hl. by rewrite (proj2 (Z.leb_le _ _) Hl).
  - intros Hl. rewrite (proj2 (Z.leb_gt _ _) Hl). cbv zeta. exists (back_off (Z.to_nat UTFMax) (bytes content) (Z.to_nat limit)).
    pose proof (back_off_range (Z.to_nat UTFMax) (bytes content) (Z.to_nat limit)) as Hb. unfold UTFMax in *. split_and!; [lia|lia|done|].
    intros (i & Hi & Hs). apply back_off_start; [rewrite bytes_length; unfold len in Hl; lia|]. exists i. split; [lia|done].
Qed.
End theorems.

(** ** Turns *)

Module TurnExamples.

(** A world that is a script of the model's answers; a store that takes everything, a
    tool named [bad] that panics and one named [shot] that returns an image. *)
Definition script := list (result Response CallError).

Definition tool_result (text : string) (images : list string) : ToolResult :=
  {| ForLLM := text; ForUser := ""; Silent := false; IsError := false; tr_Err := None; tr_Media := []; Images := images; tr_ToolReferences := [] |}.

Definition ex_tool (tc : ToolCall) : ToolOutcome :=
  if bool_decide (tc_Name tc = "bad") then Panicked "nil map"
  else if bool_decide (tc_Name tc = "shot") then Returned (tool_result "a screenshot" ["data:image/png;base64,"])
  else Returned (tool_result "done" []).

Definition no_answer : CallError := {| deadline_exceeded := false; class := Some OtherReason; e_text := "no answer"; all_context_limit := false |}.

#[local] Instance ex_unicode : UnicodeData := ascii_only.

#[local] Instance ex_host : TurnHost script := {|
  host_assemble w l := (w, Some {| a_Changed := false; a_Messages := l; PromptTokenEstimate := 0; Evictions := 0 |});
  host_chat w _ _ := match w with r :: w => (w, r) | [] => ([], Err no_answer) end;
  host_observe w _ _ := w;
  host_wait w _ := (w, None);
  host_compress w l := (w, Some {| a_Changed := true; a_Messages := l; PromptTokenEstimate := 0; Evictions := 0 |});
  host_tool w tc := (w, ex_tool tc);
  host_order _ n := rev (seq 0 n);
  host_order_perm _ n := symmetry (Permutation_rev (seq 0 n));
  host_used w _ := w;
  host_add w _ _ := (w, true);
  host_describe w _ _ := (w, Some "a cat");
  host_publish w _ := w;
  host_cause _ := OtherCause;
  host_normalize tc := tc;
  host_breadcrumb _ := ""
|}.

Definition ex_config (n : nat) (v : VisionMode) (group : bool) : TurnConfig :=
  {| MaxIterations := n; ContextWindow := 128000; MaxTokens := 8192; UserMessage := "hello"; toChat := true; internal := false; showToolActivity := false;
     StreamToolActivity := false; ShowReasoningAsContent := false; vision := Some v; visionClients := true; IsGroup := group; SendResponse := false |}.

Definition answer (content reasoning reason : string) (calls : list ToolCall) : result Response CallError :=
  Ok {| r_Content := content; r_ReasoningContent := reasoning; r_Reasoning := ""; r_ResponsesReasoning := ""; r_AnthropicThinking := "";
        r_ToolCalls := calls; Normal := true; r_FinishReason := reason; PromptTokens := 0 |}.

Definition call_of (id name : string) : ToolCall :=
  {| tc_ID := id; tc_Type := "function"; tc_Name := name; tc_Arguments := EmptyArguments; tc_Function := None; tc_ExtraContent := ""; tc_ThoughtSignature := "" |}.

Definition ex_run (n : nat) (v : VisionMode) (group : bool) (w : script) := run_turn (ex_config n v group) (newLLMTurn w [plain "user" "hello"]).

(** Two tools at once, and then an answer. *)
Definition ex_tools : script := [answer "" "" "tool_calls" [call_of "1" "list"; call_of "2" "bad"]; answer "here" "" "stop" []].

Example tools_then_answer :
  let '(t, r) := ex_run 5 VisionOff false ex_tools in
  r = Ok ("here", None) ∧ map (λ x, (ToolCallID x.2, Content x.2)) (stored (trace t)) = [("", ""); ("1", "done"); ("2", "Tool bad failed with an internal error."); ("", "here")].
Proof. vm_compute. done. Qed.

(** The same batch again and again: it is run three times, and then the turn ends. *)
Definition ex_same : script := replicate 10 (answer "" "" "tool_calls" [call_of "1" "list"]).

Example stopped_repeating :
  let '(t, r) := ex_run 10 VisionOff false ex_same in
  length (batches (trace t)) = 3%nat ∧ r = Ok (loop_detected ["list"] 4, None) ∧ finishReason t = "loop_detected".
Proof. vm_compute. done. Qed.

(** A panic is an error for the statistics, but its message is not marked as one, as
    other failures' are: what a tool did before it is taken to have succeeded. *)
Example panic_not_an_error :
  let '(t, _) := ex_run 5 VisionOff false ex_tools in map (λ x, (ToolCallID x.2, m_Error x.2)) (stored (trace t)) = [("", false); ("1", false); ("2", false); ("", false)].
Proof. vm_compute. done. Qed.

(** The images of a tool are described to a model whose vision is off, but not to one
    whose vision is not set, though that is the default and means off. *)
Definition ex_shot : script := [answer "" "" "tool_calls" [call_of "1" "shot"]; answer "here" "" "stop" []].

Example vision_off_described : let '(t, _) := ex_run 5 VisionOff false ex_shot in length (stored (trace t)) = 4%nat.
Proof. vm_compute. done. Qed.

Example vision_unset_not_described : let '(t, _) := ex_run 5 VisionUnset false ex_shot in length (stored (trace t)) = 3%nat.
Proof. vm_compute. done. Qed.

(** A reply poked for when the iterations are used up leaves the reason of the empty
    answer in place of the limit's, and counts as a normal one: in a group the
    turn says nothing. *)
Definition ex_thinking : script := [answer "" "let me think" "stop" []].

Example limit_reason_lost : let '(t, r) := ex_run 1 VisionOff false ex_thinking in finishReason t = "stop" ∧ r = Ok (empty_advice, Some OutcomeEmpty).
Proof. vm_compute. done. Qed.

Example limit_silent_in_group : let '(t, r) := ex_run 1 VisionOff true ex_thinking in r = Ok ("", Some OutcomeEmpty) ∧ emptyRetries t = 1.
Proof. vm_compute. done. Qed.

(** The limit reached by tool calls is named. *)
Example limit_named : (ex_run 1 VisionOff false ex_tools).2 = Ok (provider_empty "max_iterations", Some OutcomeError).
Proof. vm_compute. done. Qed.

Lemma parallel_results_witness :
  (executeToolCalls (ex_config 5 VisionOff false) [call_of "1" "list"; call_of "2" "bad"] (newLLMTurn [] [])).2 =
  Ok (map (λ tc, (tc, slot_result tc (ex_tool tc))) [call_of "1" "list"; call_of "2" "bad"]).
Proof. apply (parallel_results (ex_config 5 VisionOff false) ex_tool). intros w tc. reflexivity. Defined.
End TurnExamples.
