(* ===== verification/ChannelSend.v ===== *)
(** * Sending to a channel (channels/manager.go, errors.go, tuning.go, send_progress.go)

    What a channel's worker does with one message: it waits for the rate limit,
    clears what the channel showed while the message was being answered (typing,
    a reaction, a placeholder that becomes the reply), splits a long message and
    sends each chunk, again after failures worth retrying, and reports failures.
    The channel, its platform and the clock are the class [ChannelHost]; what is
    done is recorded in a trace. *)

From stdpp Require Import base gmap strings list.
From Stdlib Require Import ZArith Lia.
From S2P Require Import Prelude GoString MessageSplit.

Open Scope Z_scope.

(** ** Errors (errors.go) *)

Inductive Sentinel :=
| ErrUnknownChannel | ErrNotRunning | ErrRecipientOffline | ErrRecipientNotFound | ErrRateLimit
| ErrTemporary | ErrSendFailed | ErrReceiveOnly | ErrCanceled.

#[export] Instance Sentinel_eq_dec : EqDecision Sentinel.
Proof. solve_decision. Defined.

(** An error by what the code asks of it: the errors it wraps ([errors.Is]) and the
    wait of the [RetryAfterError] it wraps, if any ([errors.As]). *)
Record SendError := { wraps : list Sentinel; RetryAfter : option Z }.

#[export] Instance SendError_eq_dec : EqDecision SendError.
Proof. solve_decision. Defined.

Definition Is (e : SendError) (s : Sentinel) : bool := bool_decide (s ∈ wraps e).

Definition recipientUnavailable (e : SendError) : bool := Is e ErrRecipientOffline || Is e ErrRecipientNotFound.

Definition permanentSendError (e : SendError) : bool :=
  Is e ErrNotRunning || Is e ErrSendFailed || Is e ErrReceiveOnly || Is e ErrUnknownChannel || recipientUnavailable e.

Definition WithRetryAfter (e : option SendError) (after : Z) : option SendError :=
  match e with
  | Some e => if after <=? 0 then Some e else Some {| wraps := wraps e; RetryAfter := Some after |}
  | None => None
  end.

Definition failure (s : Sentinel) : SendError := {| wraps := [s]; RetryAfter := None |}.

(** ** Limits *)

Definition maxRetries : nat := 3.
#[global] Arguments maxRetries : simpl never.
Definition rateLimitDelay : Z := 1 * GoTime.second.
Definition baseBackoff : Z := 500 * GoTime.millisecond.
Definition maxBackoff : Z := 8 * GoTime.second.
Definition typingStopTTL : Z := 5 * GoTime.minute.
Definition placeholderTTL : Z := 10 * GoTime.minute.
Definition RetryAfterPadding : Z := 5 * GoTime.second.
Definition MaxSendRetryAfter : Z := GoTime.minute.

(** ** Channels and messages *)

(** A channel by which of the optional interfaces it has; its number tells two
    channels built one after the other apart. *)
Record Channel := {
  ch_id : nat; MaxMessageLength : option Z; MessageEditor : bool; MessageDeleter : bool;
  MediaSender : bool; PlaceholderCapable : bool; RemovalAware : bool
}.

#[export] Instance Channel_eq_dec : EqDecision Channel.
Proof. solve_decision. Defined.

(** [OnDelivery] is whether the sender asked to be told. *)
Record OutboundMessage := {
  m_Channel : string; ChatID : string; Content : string; ReplyToMessageID : string;
  OriginalMessageID : string; Outcome : string; OnDelivery : bool
}.

Record OutboundMediaMessage := { mm_Channel : string; mm_ChatID : string; Parts : list string }.

Definition with_chunk (m : OutboundMessage) (content reply : string) : OutboundMessage :=
  {| m_Channel := m_Channel m; ChatID := ChatID m; Content := content; ReplyToMessageID := reply;
     OriginalMessageID := OriginalMessageID m; Outcome := Outcome m; OnDelivery := OnDelivery m |}.

(** *** What a channel shows while a message is answered

    A stop or undo function is a number. *)
Record typingEntry := { stop : nat; t_createdAt : Z }.
Record reactionEntry := { undo : nat; r_createdAt : Z }.
Record placeholderEntry := { id : string; p_createdAt : Z }.

Record Shown := {
  placeholders : gmap string placeholderEntry;
  typingStops : gmap string typingEntry;
  reactionUndos : gmap string reactionEntry
}.

Definition set_placeholders (p : gmap string placeholderEntry) (sh : Shown) : Shown :=
  {| placeholders := p; typingStops := typingStops sh; reactionUndos := reactionUndos sh |}.
Definition set_typing (p : gmap string typingEntry) (sh : Shown) : Shown :=
  {| placeholders := placeholders sh; typingStops := p; reactionUndos := reactionUndos sh |}.
Definition set_reactions (p : gmap string reactionEntry) (sh : Shown) : Shown :=
  {| placeholders := placeholders sh; typingStops := typingStops sh; reactionUndos := p |}.

(** ** The world of a worker *)

(** [host_send] is given the parts of the message that earlier attempts delivered
    ([SendProgress]) and says how many more this one did. [host_wait] ends with the
    context's error when that ends first, as does [host_limiter]; [host_ctx] is
    [ctx.Err]. [host_jitter] is the random variation of a delay by up to a fifth,
    computed with floating-point numbers and cut to whole nanoseconds. *)
Class ChannelHost (W : Type) := {
  host_limiter : W → W * option SendError;
  host_ctx : W → option SendError;
  host_wait : W → Z → W * option SendError;
  host_jitter : W → Z → W * Z;
  host_jitter_range : ∀ w d, 0 ≤ d → 4 * d ≤ 5 * ((host_jitter w d).2 + 1) ∧ 5 * (host_jitter w d).2 ≤ 6 * d;
  host_send : W → Channel → OutboundMessage → nat → W * nat * option SendError;
  host_send_media : W → Channel → OutboundMediaMessage → W * option SendError;
  host_edit : W → Channel → string → string → string → W * bool;
  host_delete : W → Channel → string → string → W * bool;
  host_placeholder : W → Channel → string → W * option string
}.

Inductive Event :=
| Waited (d : Z)
| TriedSend (m : OutboundMessage) (e : option SendError)
| TriedMedia (m : OutboundMediaMessage) (e : option SendError)
| Ended (m : OutboundMessage) (e : option SendError)
| Edited (chatID id content : string) (ok : bool)
| Deleted (chatID id : string) (ok : bool)
| StopCalled (f : nat)
| UndoCalled (f : nat)
| Alerted (name what : string) (e : SendError) (retries : nat).

Record Sending (W : Type) := { world : W; trace : list Event; shown : Shown }.
Arguments world {W}. Arguments trace {W}. Arguments shown {W}.

Section sending.
Context {W : Type} `{ChannelHost W}.
Implicit Types s : Sending W.

Definition set_world (w : W) s : Sending W := {| world := w; trace := trace s; shown := shown s |}.
Definition log (e : Event) s : Sending W := {| world := world s; trace := trace s ++ [e]; shown := shown s |}.
Definition set_shown (sh : Shown) s : Sending W := {| world := world s; trace := trace s; shown := sh |}.

(** ** Typing, reactions and placeholders *)

Definition key_of (channel chatID : string) : string := (channel +:+ ":" +:+ chatID)%string.

Definition RecordPlaceholder (channel chatID placeholderID : string) (now : Z) s : Sending W :=
  set_shown (set_placeholders (<[key_of channel chatID := {| id := placeholderID; p_createdAt := now |}]> (placeholders (shown s))) (shown s)) s.

(** The channel of that name, as [chs] has it. *)
Definition UpdatePlaceholder (chs : string → option Channel) (channel chatID text : string) s : Sending W * bool :=
  match placeholders (shown s) !! key_of channel chatID with
  | None => (s, false)
  | Some entry =>
      if bool_decide (id entry = "") then (s, false)
      else
        match chs channel with
        | None => (s, false)
        | Some ch =>
            if negb (MessageEditor ch) then (s, false)
            else
              let '(w, ok) := host_edit (world s) ch chatID (id entry) text in
              (log (Edited chatID (id entry) text ok) (set_world w s), ok)
        end
  end.

Definition SendPlaceholder (chs : string → option Channel) (channel chatID : string) (now : Z) s : Sending W * bool :=
  match chs channel with
  | None => (s, false)
  | Some ch =>
      if negb (PlaceholderCapable ch) then (s, false)
      else
        let '(w, r) := host_placeholder (world s) ch chatID in
        match r with
        | None => (set_world w s, false)
        | Some phID => if bool_decide (phID = "") then (set_world w s, false) else (RecordPlaceholder channel chatID phID now (set_world w s), true)
        end
  end.

Definition RecordTypingStop (channel chatID : string) (f : nat) (now : Z) s : Sending W :=
  let key := key_of channel chatID in
  let s' := set_shown (set_typing (<[key := {| stop := f; t_createdAt := now |}]> (typingStops (shown s))) (shown s)) s in
  match typingStops (shown s) !! key with
  | Some old => log (StopCalled (stop old)) s'
  | None => s'
  end.

(** [LoadAndDelete] of the typing entry of a key, and the call of its function. *)
Definition stop_typing (key : string) s : Sending W :=
  match typingStops (shown s) !! key with
  | Some entry => log (StopCalled (stop entry)) (set_shown (set_typing (delete key (typingStops (shown s))) (shown s)) s)
  | None => s
  end.

Definition undo_reaction (key : string) s : Sending W :=
  match reactionUndos (shown s) !! key with
  | Some entry => log (UndoCalled (undo entry)) (set_shown (set_reactions (delete key (reactionUndos (shown s))) (shown s)) s)
  | None => s
  end.

Definition StopTyping (channel chatID : string) s : Sending W := stop_typing (key_of channel chatID) s.

Definition RecordReactionUndo (channel chatID messageID : string) (f : nat) (now : Z) s : Sending W :=
  set_shown (set_reactions (<[key_of (key_of channel chatID) messageID := {| undo := f; r_createdAt := now |}]> (reactionUndos (shown s))) (shown s)) s.

(** [LoadAndDelete] of a placeholder. *)
Definition take_placeholder (key : string) s : Sending W * option placeholderEntry :=
  match placeholders (shown s) !! key with
  | Some entry => (set_shown (set_placeholders (delete key (placeholders (shown s))) (shown s)) s, Some entry)
  | None => (s, None)
  end.

Definition DismissInbound (chs : string → option Channel) (channel chatID messageID : string) s : Sending W :=
  let key := key_of channel chatID in
  let s := StopTyping channel chatID s in
  let s := undo_reaction (key_of key messageID) s in
  let '(s, v) := take_placeholder key s in
  match v with
  | None => s
  | Some entry =>
      if bool_decide (id entry = "") then s
      else
        match chs channel with
        | None => s
        | Some ch =>
            let '(s, deleted) :=
              if MessageDeleter ch then
                let '(w, ok) := host_delete (world s) ch chatID (id entry) in (log (Deleted chatID (id entry) ok) (set_world w s), ok)
              else (s, false) in
            if deleted : bool then s
            else if MessageEditor ch then
              let '(w, ok) := host_edit (world s) ch chatID (id entry) "✓" in log (Edited chatID (id entry) "✓" ok) (set_world w s)
            else s
        end
  end.

(** Whether the message was edited into the placeholder. *)
Definition preSend (name : string) (m : OutboundMessage) (ch : Channel) s : Sending W * bool :=
  let key := key_of name (ChatID m) in
  let s := stop_typing key s in
  let s := undo_reaction (key_of key (OriginalMessageID m)) s in
  let '(s, v) := take_placeholder key s in
  match v with
  | None => (s, false)
  | Some entry =>
      if negb (bool_decide (id entry = "")) && MessageEditor ch then
        let '(w, ok) := host_edit (world s) ch (ChatID m) (id entry) (Content m) in
        (log (Edited (ChatID m) (id entry) (Content m) ok) (set_world w s), ok)
      else (s, false)
  end.

(** One tick of [runTTLJanitor]. *)
Definition janitor `{GoRange} (now : Z) s : Sending W :=
  let s := fold_left (λ s '(key, entry), if typingStopTTL <? GoTime.sub now (t_createdAt entry) then stop_typing key s else s) (go_range (typingStops (shown s))) s in
  let s := fold_left (λ s '(key, entry), if typingStopTTL <? GoTime.sub now (r_createdAt entry) then undo_reaction key s else s) (go_range (reactionUndos (shown s))) s in
  fold_left (λ s '(key, entry), if placeholderTTL <? GoTime.sub now (p_createdAt entry) then set_shown (set_placeholders (delete key (placeholders (shown s))) (shown s)) s else s)
    (go_range (placeholders (shown s))) s.

(** ** Sending *)

(** The delay before the next try, [None] when there is none. *)
Definition retry_delay (attempt : nat) (e : SendError) (w : W) : W * option Z :=
  if negb (Is e ErrRateLimit) then
    let '(w, d) := host_jitter w (Z.min (baseBackoff * 2 ^ Z.of_nat attempt) maxBackoff) in (w, Some d)
  else
    match RetryAfter e with
    | Some after => (w, if MaxSendRetryAfter <? after then None else if 0 <? after then Some (after + RetryAfterPadding) else Some rateLimitDelay)
    | None => (w, Some rateLimitDelay)
    end.

Section retry.
(** One try; what it carries from one to the next is the progress of the message. *)
Context {P : Type} (send : P → Sending W → Sending W * P * option SendError).

(** The retries left are [remaining]; [attempt] of them have been made. *)
Fixpoint retry_loop (remaining attempt : nat) (p : P) s : Sending W * (nat * option SendError) :=
  let '(s, p, err) := send p s in
  match err with
  | None => (s, (attempt, None))
  | Some e =>
      if permanentSendError e then (s, (attempt, Some e))
      else
        match remaining with
        | O => (s, (attempt, Some e))
        | S remaining =>
            let '(w, delay) := retry_delay attempt e (world s) in
            let s := set_world w s in
            match delay with
            | None => (s, (attempt, Some e))
            | Some d =>
                let '(w, ended) := host_wait (world s) d in
                let s := log (Waited d) (set_world w s) in
                match ended with
                | Some c => (s, (attempt, Some c))
                | None => retry_loop remaining (S attempt) p s
                end
            end
        end
  end.

Definition retrySend (p : P) s : Sending W * (nat * option SendError) := retry_loop maxRetries 0 p s.
End retry.

(** The alert of a failure; what is only logged is left out. *)
Definition reportSendFailure (name what : string) (e : SendError) (retries : nat) s : Sending W :=
  if Is e ErrReceiveOnly then s else if recipientUnavailable e then s else log (Alerted name what e retries) s.

(** [w.ch.Send] with the progress of the message. *)
Definition try_send (ch : Channel) (m : OutboundMessage) (delivered : nat) s : Sending W * nat * option SendError :=
  let '(w, marked, e) := host_send (world s) ch m delivered in
  (log (TriedSend m e) (set_world w s), (delivered + marked)%nat, e).

Definition try_media (ch : Channel) (m : OutboundMediaMessage) (_ : unit) s : Sending W * unit * option SendError :=
  let '(w, e) := host_send_media (world s) ch m in (log (TriedMedia m e) (set_world w s), tt, e).

Definition sendWithRetry (name : string) (ch : Channel) (m : OutboundMessage) s : Sending W * option SendError :=
  let '(w, e) := host_limiter (world s) in
  let s := set_world w s in
  match e with
  | Some e => (log (Ended m (Some e)) s, Some e)
  | None =>
      let '(s, edited) := preSend name m ch s in
      if edited : bool then (log (Ended m None) s, None)
      else
        let '(s, (retries, e)) := retrySend (try_send ch m) 0%nat s in
        let s := match e, host_ctx (world s) with Some e, None => reportSendFailure name "message" e retries s | _, _ => s end in
        (log (Ended m e) s, e)
  end.

Definition sendMediaWithRetry (name : string) (ch : Channel) (m : OutboundMediaMessage) s : Sending W :=
  if negb (MediaSender ch) then s
  else
    let '(w, e) := host_limiter (world s) in
    let s := set_world w s in
    match e with
    | Some _ => s
    | None =>
        let '(s, (retries, e)) := retrySend (try_media ch m) tt s in
        match e, host_ctx (world s) with Some e, None => reportSendFailure name "file" e retries s | _, _ => s end
    end.

(** The messages of the chunks: only the first is a reply. *)
Definition chunk_messages (m : OutboundMessage) (chunks : list string) : list OutboundMessage :=
  imap (λ i chunk, with_chunk m chunk (if bool_decide (0 < i)%nat then "" else ReplyToMessageID m)) chunks.

(** The loop over the chunks; [first] is the first error. *)
Fixpoint send_chunks (name : string) (ch : Channel) (l : list OutboundMessage) (first : option SendError) s : Sending W * option SendError :=
  match l with
  | [] => (s, first)
  | m :: l =>
      let '(s, e) := sendWithRetry name ch m s in
      let first := match first with Some _ => first | None => e end in
      match e with
      | Some e => if recipientUnavailable e then (s, first) else send_chunks name ch l first s
      | None => send_chunks name ch l first s
      end
  end.

(** [MaxMessageLength] of a channel that has one. *)
Definition max_len (ch : Channel) : Z := default 0 (MaxMessageLength ch).

Definition needs_split (ch : Channel) (m : OutboundMessage) : bool :=
  negb (max_len ch <=? 0) && negb (Z.of_nat (length (GoString.runes (Content m))) <=? max_len ch).

(** [None] when the splitting has not ended after [fuel] iterations. *)
Definition sendSplit (fuel : nat) (name : string) (ch : Channel) (m : OutboundMessage) s : option (Sending W * option SendError) :=
  if negb (needs_split ch m) then Some (sendWithRetry name ch m s)
  else
    match SplitMessage (max_len ch) fuel (GoString.runes (Content m)) with
    | Finished l => Some (send_chunks name ch (chunk_messages m (map of_runes l)) None s)
    | More _ | Panicked => None
    end.
End sending.

(** ** What is shown while a message is answered *)

Section shown.
Context {W : Type} `{ChannelHost W} `{GoRange}.
Implicit Types s : Sending W.

(** The calls that register, clear and sweep. *)
Inductive ShownCall :=
| CallRecordPlaceholder (channel chatID placeholderID : string)
| CallUpdatePlaceholder (channel chatID text : string)
| CallSendPlaceholder (channel chatID : string)
| CallRecordTypingStop (channel chatID : string) (f : nat)
| CallStopTyping (channel chatID : string)
| CallRecordReactionUndo (channel chatID messageID : string) (f : nat)
| CallDismissInbound (channel chatID messageID : string)
| CallSend (name : string) (ch : Channel) (m : OutboundMessage)
| CallJanitor.

(** A call at time [now], with the channels there are. *)
Definition shown_step (chs : string → option Channel) (c : ShownCall) (now : Z) s : Sending W :=
  match c with
  | CallRecordPlaceholder channel chatID i => RecordPlaceholder channel chatID i now s
  | CallUpdatePlaceholder channel chatID text => (UpdatePlaceholder chs channel chatID text s).1
  | CallSendPlaceholder channel chatID => (SendPlaceholder chs channel chatID now s).1
  | CallRecordTypingStop channel chatID f => RecordTypingStop channel chatID f now s
  | CallStopTyping channel chatID => StopTyping channel chatID s
  | CallRecordReactionUndo channel chatID messageID f => RecordReactionUndo channel chatID messageID f now s
  | CallDismissInbound channel chatID messageID => DismissInbound chs channel chatID messageID s
  | CallSend name ch m => (sendWithRetry name ch m s).1
  | CallJanitor => janitor now s
  end.

Definition run_calls (chs : string → option Channel) (l : list (ShownCall * Z)) s : Sending W :=
  fold_left (λ s '(c, now), shown_step chs c now s) l s.

Definition recorded_stop (c : ShownCall) : list nat := match c with CallRecordTypingStop _ _ f => [f] | _ => [] end.
Definition recorded_undo (c : ShownCall) : list nat := match c with CallRecordReactionUndo _ _ _ f => [f] | _ => [] end.

Definition stops (tr : list Event) : list nat := omap (λ e, match e with StopCalled f => Some f | _ => None end) tr.
Definition undos (tr : list Event) : list nat := omap (λ e, match e with UndoCalled f => Some f | _ => None end) tr.

(** The functions registered and not called yet. *)
Definition pending_stops (sh : Shown) : list nat := map (λ p, stop p.2) (map_to_list (typingStops sh)).
Definition pending_undos (sh : Shown) : list nat := map (λ p, undo p.2) (map_to_list (reactionUndos sh)).

(** The stop functions of a state: called or pending. *)
Definition all_stops s : list nat := stops (trace s) ++ pending_stops (shown s).
Definition all_undos s : list nat := undos (trace s) ++ pending_undos (shown s).
End shown.

(** ** Lemmas *)

Section lemmas.
Context {W : Type} `{ChannelHost W} `{GoRange}.
Implicit Types s : Sending W.

(** *** Typing and reactions *)

(** From [s] to [s'] the functions [rs] and [us] are registered: no stop function is
    lost or called twice, and no undo function is called twice. *)
Definition accounts (rs us : list nat) s s' : Prop :=
  all_stops s' ≡ₚ all_stops s ++ rs ∧ all_undos s' ⊆+ all_undos s ++ us.

Lemma accounts_refl s : accounts [] [] s s.
Proof. unfold accounts. by rewrite !app_nil_r. Qed.

Lemma accounts_trans r1 r2 u1 u2 s1 s2 s3 : accounts r1 u1 s1 s2 → accounts r2 u2 s2 s3 → accounts (r1 ++ r2) (u1 ++ u2) s1 s3.
Proof.
  intros [H1 H2] [H3 H4]. split.
  - by rewrite H3, H1, app_assoc.
  - rewrite app_assoc. etrans; [exact H4|]. by apply submseteq_app.
Qed.

Lemma accounts_trans_nil rs us s1 s2 s3 : accounts [] [] s1 s2 → accounts rs us s2 s3 → accounts rs us s1 s3.
Proof. apply (accounts_trans [] rs [] us). Qed.

(** A change that touches neither. *)
Lemma accounts_quiet s s' : typingStops (shown s') = typingStops (shown s) → reactionUndos (shown s') = reactionUndos (shown s) →
  (∃ tr, trace s' = trace s ++ tr ∧ stops tr = [] ∧ undos tr = []) → accounts [] [] s s'.
Proof.
  intros Ht Hr (tr & Htr & Hs & Hu). unfold accounts, all_stops, all_undos, pending_stops, pending_undos.
  rewrite Ht, Hr, Htr. unfold stops, undos in *. rewrite !omap_app, Hs, Hu, !app_nil_r. done.
Qed.

Lemma pending_delete {V} (f : V → nat) (m : gmap string V) k v :
  m !! k = Some v → map (λ p, f p.2) (map_to_list m) ≡ₚ f v :: map (λ p, f p.2) (map_to_list (delete k m)).
Proof.
  intros Hk. rewrite <- (insert_delete_id m k v Hk) at 1. rewrite map_to_list_insert by apply lookup_delete_eq. done.
Qed.

Lemma pending_insert {V} (f : V → nat) (m : gmap string V) k v :
  map (λ p, f p.2) (map_to_list (<[k:=v]> m)) ≡ₚ f v :: map (λ p, f p.2) (map_to_list (delete k m)).
Proof. rewrite <- insert_delete_eq. rewrite map_to_list_insert by apply lookup_delete_eq. done. Qed.

Lemma stop_typing_accounts key s : accounts [] [] s (stop_typing key s).
Proof.
  unfold stop_typing. destruct (typingStops (shown s) !! key) as [entry|] eqn:Hk; [|apply accounts_refl].
  unfold accounts, all_stops, all_undos, pending_stops, pending_undos. cbn. unfold stops, undos. rewrite !omap_app. cbn. rewrite !app_nil_r. split; [|done].
  rewrite (pending_delete stop _ _ _ Hk), <- app_assoc. done.
Qed.

Lemma undo_reaction_accounts key s : accounts [] [] s (undo_reaction key s).
Proof.
  unfold undo_reaction. destruct (reactionUndos (shown s) !! key) as [entry|] eqn:Hk; [|apply accounts_refl].
  unfold accounts, all_stops, all_undos, pending_stops, pending_undos. cbn. unfold stops, undos. rewrite !omap_app. cbn. rewrite !app_nil_r. split; [done|].
  by rewrite (pending_delete undo _ _ _ Hk), <- app_assoc.
Qed.

Lemma record_typing_accounts channel chatID f now s : accounts [f] [] s (RecordTypingStop channel chatID f now s).
Proof.
  unfold RecordTypingStop. destruct (typingStops (shown s) !! _) as [old|] eqn:Hk;
    unfold accounts, all_stops, all_undos, pending_stops, pending_undos; cbn; unfold stops, undos; rewrite ?omap_app; cbn; rewrite !app_nil_r; (split; [|done]).
  - rewrite (pending_delete stop _ _ _ Hk), (pending_insert stop). cbn. rewrite <- !app_assoc. cbn. apply Permutation_app_head.
    apply Permutation_cons; [done|]. by rewrite Permutation_cons_append.
  - rewrite (pending_insert stop), delete_id by done. cbn. rewrite <- app_assoc. apply Permutation_app_head. by rewrite Permutation_cons_append.
Qed.

Lemma record_undo_accounts channel chatID messageID f now s : accounts [] [f] s (RecordReactionUndo channel chatID messageID f now s).
Proof.
  unfold RecordReactionUndo, accounts, all_stops, all_undos, pending_stops, pending_undos. cbn. rewrite !app_nil_r. split; [done|].
  rewrite (pending_insert undo), <- app_assoc. cbn. apply submseteq_app; [done|]. rewrite Permutation_cons_append. apply submseteq_app; [|done].
  apply fmap_submseteq, map_to_list_submseteq, delete_subseteq.
Qed.

Lemma take_placeholder_accounts key s : accounts [] [] s (take_placeholder key s).1.
Proof.
  unfold take_placeholder. destruct (placeholders (shown s) !! key); [|apply accounts_refl].
  apply accounts_quiet; [done|done|]. exists []. by rewrite app_nil_r.
Qed.

(** An event that is neither call keeps the account. *)
Lemma log_accounts w ev s : stops [ev] = [] → undos [ev] = [] → accounts [] [] s (log ev (set_world w s)).
Proof. intros Hs Hu. apply accounts_quiet; [done|done|]. by exists [ev]. Qed.

Lemma world_accounts w s : accounts [] [] s (set_world w s).
Proof. apply accounts_quiet; [done|done|]. exists []. by rewrite app_nil_r. Qed.

Lemma fold_accounts {V} (f : Sending W → string * V → Sending W) (l : list (string * V)) s :
  (∀ s p, accounts [] [] s (f s p)) → accounts [] [] s (fold_left f l s).
Proof.
  intros Hf. revert s. induction l as [|p l IH]; intros s; [apply accounts_refl|]. cbn. eapply accounts_trans_nil; [apply Hf|apply IH].
Qed.

Lemma janitor_accounts now s : accounts [] [] s (janitor now s).
Proof.
  unfold janitor. set (s1 := fold_left _ _ s). set (s2 := fold_left _ _ s1).
  apply (accounts_trans_nil _ _ s s1), (accounts_trans_nil _ _ s1 s2); apply fold_accounts; intros s0 [key entry]; case_if;
    try apply accounts_refl; [apply stop_typing_accounts|apply undo_reaction_accounts|].
  apply accounts_quiet; [done|done|]. exists []. by rewrite app_nil_r.
Qed.

Lemma retry_loop_accounts {P} (send : P → Sending W → Sending W * P * option SendError) remaining attempt p s :
  (∀ p s, accounts [] [] s (send p s).1.1) → accounts [] [] s (retry_loop send remaining attempt p s).1.
Proof.
  intros Hsend. revert attempt p s. induction remaining as [|remaining IH]; intros attempt p s; cbn;
    specialize (Hsend p s); destruct (send p s) as [[s1 p1] [e|]]; cbn in Hsend; try done; destruct (permanentSendError e); try done.
  destruct (retry_delay attempt e (world s1)) as [w [d|]]; [|eapply accounts_trans_nil; [exact Hsend|apply world_accounts]].
  cbn. destruct (host_wait w d) as [w' [c|]]; cbn.
  - eapply accounts_trans_nil; [exact Hsend|]. by apply (log_accounts w' (Waited d) s1).
  - eapply accounts_trans_nil; [exact Hsend|]. eapply accounts_trans_nil; [by apply (log_accounts w' (Waited d) s1)|apply IH].
Qed.

Lemma preSend_accounts name m ch s : accounts [] [] s (preSend name m ch s).1.
Proof.
  unfold preSend. set (s1 := stop_typing _ s). set (s2 := undo_reaction _ s1).
  assert (Hs : accounts [] [] s s2) by (eapply accounts_trans_nil; [apply stop_typing_accounts|apply undo_reaction_accounts]).
  pose proof (take_placeholder_accounts (key_of name (ChatID m)) s2) as Ht. destruct (take_placeholder _ s2) as [s3 [entry|]]; cbn in *;
    [|by eapply accounts_trans_nil]. case_if; [|by eapply accounts_trans_nil].
  destruct (host_edit _ _ _ _ _) as [w ok]. cbn. eapply accounts_trans_nil; [exact Hs|]. eapply accounts_trans_nil; [exact Ht|]. by apply (log_accounts w (Edited _ _ _ ok)).
Qed.

Lemma report_accounts name what e n s : accounts [] [] s (reportSendFailure name what e n s).
Proof.
  unfold reportSendFailure. repeat case_if; try apply accounts_refl. apply accounts_quiet; [done|done|]. by exists [Alerted name what e n].
Qed.

Lemma ended_accounts m e s : accounts [] [] s (log (Ended m e) s).
Proof. apply accounts_quiet; [done|done|]. by exists [Ended m e]. Qed.

Lemma try_send_accounts ch m p s : accounts [] [] s (try_send ch m p s).1.1.
Proof. unfold try_send. destruct (host_send _ _ _ _) as [[w marked] e]. cbn. by apply (log_accounts w (TriedSend m e)). Qed.

Lemma sendWithRetry_accounts name ch m s : accounts [] [] s (sendWithRetry name ch m s).1.
Proof.
  unfold sendWithRetry. destruct (host_limiter _) as [w [e|]]; cbn.
  { eapply accounts_trans_nil; [apply (world_accounts w)|apply ended_accounts]. }
  pose proof (preSend_accounts name m ch (set_world w s)) as Hp. destruct (preSend _ _ _ _) as [s1 [|]]; cbn in *.
  { eapply accounts_trans_nil; [apply (world_accounts w)|]. eapply accounts_trans_nil; [exact Hp|apply ended_accounts]. }
  pose proof (retry_loop_accounts (try_send ch m) maxRetries 0 0%nat s1 (try_send_accounts ch m)) as Hr.
  unfold retrySend. destruct (retry_loop _ _ _ _ _) as [s2 [n e]]; cbn in *.
  eapply accounts_trans_nil; [apply (world_accounts w)|]. eapply accounts_trans_nil; [exact Hp|]. eapply accounts_trans_nil; [exact Hr|].
  destruct e as [e|]; [destruct (host_ctx (world s2))|]; try apply ended_accounts. eapply accounts_trans_nil; [apply report_accounts|apply ended_accounts].
Qed.

Lemma dismiss_accounts chs channel chatID messageID s : accounts [] [] s (DismissInbound chs channel chatID messageID s).
Proof.
  unfold DismissInbound, StopTyping. set (s1 := stop_typing _ s). set (s2 := undo_reaction _ s1).
  assert (Hs : accounts [] [] s s2) by (eapply accounts_trans_nil; [apply stop_typing_accounts|apply undo_reaction_accounts]).
  pose proof (take_placeholder_accounts (key_of channel chatID) s2) as Ht. destruct (take_placeholder _ s2) as [s3 [entry|]]; cbn in *;
    [|by eapply accounts_trans_nil]. assert (Hs3 : accounts [] [] s s3) by (by eapply accounts_trans_nil).
  case_if; [done|]. destruct (chs channel) as [ch|]; [|done].
  destruct (MessageDeleter ch).
  - destruct (host_delete _ _ _ _) as [w [|]]; cbn; (eapply accounts_trans_nil; [exact Hs3|]).
    + by apply (log_accounts w (Deleted _ _ true)).
    + destruct (MessageEditor ch); [|by apply (log_accounts w (Deleted _ _ false))]. destruct (host_edit _ _ _ _ _) as [w' ok].
      eapply accounts_trans_nil; [by apply (log_accounts w (Deleted chatID (id entry) false))|]. by apply (log_accounts w' (Edited _ _ _ ok)).
  - destruct (MessageEditor ch); [|done]. destruct (host_edit _ _ _ _ _) as [w' ok].
    eapply accounts_trans_nil; [exact Hs3|]. by apply (log_accounts w' (Edited _ _ _ ok)).
Qed.

Lemma placeholder_accounts channel chatID i now s : accounts [] [] s (RecordPlaceholder channel chatID i now s).
Proof. apply accounts_quiet; [done|done|]. exists []. by rewrite app_nil_r. Qed.

Lemma shown_step_accounts chs c now s : accounts (recorded_stop c) (recorded_undo c) s (shown_step chs c now s).
Proof.
  destruct c; cbn.
  - apply placeholder_accounts.
  - unfold UpdatePlaceholder. destruct (placeholders (shown s) !! _) as [entry|]; [|apply accounts_refl]. case_if; [apply accounts_refl|].
    destruct (chs channel) as [ch|]; [|apply accounts_refl]. case_if; [apply accounts_refl|]. destruct (host_edit _ _ _ _ _) as [w ok].
    by apply (log_accounts w (Edited _ _ _ ok)).
  - unfold SendPlaceholder. destruct (chs channel) as [ch|]; [|apply accounts_refl]. case_if; [apply accounts_refl|].
    destruct (host_placeholder _ _ _) as [w [i|]]; [|apply world_accounts]. case_if; [apply world_accounts|]. cbn.
    eapply accounts_trans_nil; [apply (world_accounts w)|apply placeholder_accounts].
  - apply record_typing_accounts.
  - apply stop_typing_accounts.
  - apply record_undo_accounts.
  - apply dismiss_accounts.
  - apply sendWithRetry_accounts.
  - apply janitor_accounts.
Qed.

Lemma run_calls_accounts chs l s : accounts (flat_map (λ c, recorded_stop c.1) l) (flat_map (λ c, recorded_undo c.1) l) s (run_calls chs l s).
Proof.
  revert s. induction l as [|[c now] l IH]; intros s; [apply accounts_refl|]. cbn. eapply accounts_trans; [apply shown_step_accounts|apply IH].
Qed.
End lemmas.

(** *** Tries *)

(** The outcomes of the tries, and the waits between them. *)
Definition tries (tr : list Event) : list (option SendError) := omap (λ e, match e with TriedSend _ r => Some r | _ => None end) tr.
Definition waits (tr : list Event) : list Z := omap (λ e, match e with Waited d => Some d | _ => None end) tr.
Definition ended (tr : list Event) : list (OutboundMessage * option SendError) := omap (λ e, match e with Ended m r => Some (m, r) | _ => None end) tr.

(** An outcome that is an error. *)
Definition is_bad (e : option SendError) : bool := if e then true else false.

(** A failure after which the code tries again. *)
Definition worth_retry (e : SendError) : Prop :=
  permanentSendError e = false ∧ ¬ (Is e ErrRateLimit = true ∧ ∃ after, RetryAfter e = Some after ∧ MaxSendRetryAfter < after).

(** The longest wait between two tries. *)
Definition longest_wait : Z := MaxSendRetryAfter + RetryAfterPadding.

Section retries.
Context {W : Type} `{ChannelHost W}.
Implicit Types s : Sending W.

Lemma retry_delay_spec attempt e (w : W) : permanentSendError e = false →
  match (retry_delay attempt e w).2 with
  | Some d => worth_retry e ∧ 0 ≤ d ≤ longest_wait
  | None => ¬ worth_retry e
  end.
Proof.
  intros Hp. unfold retry_delay, worth_retry, longest_wait, MaxSendRetryAfter, RetryAfterPadding, rateLimitDelay, GoTime.minute, GoTime.second, GoTime.millisecond.
  destruct (Is e ErrRateLimit); cbn [negb].
  - destruct (RetryAfter e) as [a|]; cbn [snd].
    + destruct (Z.ltb_spec (60 * (1000 * (1000 * 1000))) a); [intros [_ Hn]; apply Hn; split; [done|]; by exists a|].
      destruct (Z.ltb_spec 0 a); (split; [split; [done|]; intros (_ & x & [= <-] & Hx); lia|lia]).
    + split; [split; [done|]; by intros (_ & x & Hx & _)|lia].
  - set (d0 := Z.min _ _). assert (Hd : 500000000 ≤ d0 ≤ 8000000000).
    { unfold d0, baseBackoff, maxBackoff, GoTime.second, GoTime.millisecond. assert (1 ≤ 2 ^ Z.of_nat attempt) by (apply Z.lt_pred_le, Z.pow_pos_nonneg; lia). lia. }
    pose proof (host_jitter_range w d0 ltac:(lia)) as Hj. destruct (host_jitter w d0) as [w' d]. cbn in *.
    split; [split; [done|]; by intros []|lia].
Qed.

(** One message's tries: at most one more than the retries left; each but the last
    failed in a way worth a retry, and the last is delivered, or not worth one, or
    out of retries, or was followed by the end of the context. *)
Lemma retry_loop_spec ch m remaining attempt p s :
  let '(s', (n, r)) := retry_loop (try_send ch m) remaining attempt p s in
  ∃ tr errs final, trace s' = trace s ++ tr ∧ tries tr = map Some errs ++ [final] ∧ ended tr = [] ∧ n = (attempt + length errs)%nat ∧
    (length errs ≤ remaining)%nat ∧ Forall worth_retry errs ∧ Forall (λ d, 0 ≤ d ≤ longest_wait) (waits tr) ∧ (length (waits tr) ≤ remaining)%nat ∧
    (r = final ∧ (∀ e, final = Some e → worth_retry e → length errs = remaining) ∨ (∃ e, final = Some e ∧ worth_retry e ∧ is_Some r)).
Proof.
  revert attempt p s. induction remaining as [|k IH]; intros attempt p s; cbn; unfold try_send at 1;
    destruct (host_send (world s) ch m p) as [[w marked] [e|]]; cbn [fst snd].
  - destruct (permanentSendError e) eqn:Hp; (exists [TriedSend m (Some e)], [], (Some e); split_and!; try done; try (cbn; lia); by left).
  - exists [TriedSend m None], [], None. split_and!; try done; try (cbn; lia). by left.
  - destruct (permanentSendError e) eqn:Hp.
    { exists [TriedSend m (Some e)], [], (Some e). split_and!; try done; try (cbn; lia).
      left. split; [done|]. intros e' [= <-] [Hw _]. congruence. }
    cbn [world log set_world]. pose proof (retry_delay_spec attempt e w Hp) as Hd. destruct (retry_delay attempt e w) as [w1 [d|]]; cbn in Hd.
    + destruct Hd as [Hworth Hd]. cbn [world set_world log]. destruct (host_wait w1 d) as [w2 [c|]].
      * exists [TriedSend m (Some e); Waited d], [], (Some e). split_and!; try done; try (cbn; lia); [cbn; by rewrite <- app_assoc|by apply Forall_singleton|].
        right. exists e. split_and!; [done|done|by eexists].
      * specialize (IH (S attempt) (p + marked)%nat (log (Waited d) (set_world w2 (set_world w1 (log (TriedSend m (Some e)) (set_world w s)))))).
        destruct (retry_loop _ k _ _ _) as [s' [n r]]. destruct IH as (tr & errs & final & Htr & Ht & He & Hn & Hl & Hw & Hwaits & Hlw & Hr).
        exists ([TriedSend m (Some e); Waited d] ++ tr), (e :: errs), final. split_and!.
        -- rewrite Htr. cbn. by rewrite <- !app_assoc.
        -- cbn. unfold tries in *. by rewrite Ht.
        -- done.
        -- cbn. lia.
        -- cbn. lia.
        -- by constructor.
        -- cbn. by constructor.
        -- change (S (length (waits tr)) ≤ S k)%nat. lia.
        -- destruct Hr as [[-> Hf]|Hr]; [left; split; [done|]; intros e' He' Hw'; cbn; f_equal; by eapply Hf|by right].
    + exists [TriedSend m (Some e)], [], (Some e). split_and!; try done; try (cbn; lia).
      left. split; [done|]. by intros e' [= <-] Hw.
  - exists [TriedSend m None], [], None. split_and!; try done; try (cbn; lia). by left.
Qed.

(** What sending one message does to the trace. *)
Lemma preSend_trace name m ch s :
  ∃ tr, trace (preSend name m ch s).1 = trace s ++ tr ∧ tries tr = [] ∧ waits tr = [] ∧ ended tr = [] ∧
    ((preSend name m ch s).2 = true → ∃ i, Edited (ChatID m) i (Content m) true ∈ tr).
Proof.
  unfold preSend. set (s1 := stop_typing _ s). set (s2 := undo_reaction _ s1).
  assert (∃ tr, trace s2 = trace s ++ tr ∧ tries tr = [] ∧ waits tr = [] ∧ ended tr = []) as (tr & Htr & H1 & H2 & H3).
  { unfold s2, s1, undo_reaction, stop_typing. destruct (typingStops (shown s) !! _) as [e|]; cbn; destruct (reactionUndos (shown s) !! _) as [e'|]; cbn.
    - exists [StopCalled (stop e); UndoCalled (undo e')]. by rewrite <- app_assoc.
    - by exists [StopCalled (stop e)].
    - by exists [UndoCalled (undo e')].
    - exists []. by rewrite app_nil_r. }
  assert (Hsame : trace (take_placeholder (key_of name (ChatID m)) s2).1 = trace s2) by (unfold take_placeholder; by destruct (placeholders _ !! _)).
  destruct (take_placeholder _ s2) as [s3 [entry|]]; cbn in *; [case_if|]; [|exists tr; cbn; rewrite Hsame; by split_and!..].
  destruct (host_edit (world s3) _ _ _ _) as [w ok]; cbn. exists (tr ++ [Edited (ChatID m) (id entry) (Content m) ok]). rewrite Hsame, Htr, <- app_assoc.
  unfold tries, waits, ended in *. rewrite !omap_app, H1, H2, H3. split_and!; try done. intros ->. exists (id entry). rewrite elem_of_app, list_elem_of_singleton. by right.
Qed.

(** One message: tried at most four times, the tries after failures worth it; where
    it ends well it was delivered by the last try or by editing a placeholder. *)
Lemma sendWithRetry_spec name ch m s :
  let '(s', r) := sendWithRetry name ch m s in
  ∃ tr, trace s' = trace s ++ tr ∧ ended tr = [(m, r)] ∧ (length (tries tr) ≤ S maxRetries)%nat ∧
    Forall (λ t, t ≠ None) (removelast (tries tr)) ∧ Forall (λ d, 0 ≤ d ≤ longest_wait) (waits tr) ∧ (length (waits tr) ≤ maxRetries)%nat ∧
    (r = None → last (tries tr) = Some None ∨ ∃ i, Edited (ChatID m) i (Content m) true ∈ tr).
Proof.
  unfold sendWithRetry. destruct (host_limiter _) as [w [e|]]; cbn.
  { exists [Ended m (Some e)]. split_and!; try done; cbn; unfold maxRetries; lia. }
  destruct (preSend_trace name m ch (set_world w s)) as (tr1 & Htr1 & Ht1 & Hw1 & He1 & Hed). destruct (preSend _ _ _ _) as [s1 [|]]; cbn in *.
  { exists (tr1 ++ [Ended m None]). rewrite Htr1, <- app_assoc. unfold tries, waits, ended in *. rewrite !omap_app, Ht1, Hw1, He1. split_and!; try done; try (cbn; lia).
    intros _. right. destruct (Hed eq_refl) as [i Hi]. exists i. rewrite elem_of_app. by left. }
  pose proof (retry_loop_spec ch m maxRetries 0 0%nat s1) as Hr. unfold retrySend.
  destruct (retry_loop _ _ _ _ _) as [s2 [n r]]; cbn in *. destruct Hr as (tr2 & errs & final & Htr2 & Ht2 & He2 & _ & Hl & _ & Hw2 & Hlw & Hr).
  assert (∃ tr3, trace (match r, host_ctx (world s2) with Some e, None => reportSendFailure name "message" e n s2 | _, _ => s2 end) = trace s2 ++ tr3 ∧
    tries tr3 = [] ∧ waits tr3 = [] ∧ ended tr3 = []) as (tr3 & Htr3 & Ht3 & Hw3 & He3).
  { destruct r as [e|]; [destruct (host_ctx (world s2))|]; try (exists []; by rewrite app_nil_r). unfold reportSendFailure.
    repeat case_if; try (exists []; by rewrite app_nil_r). by eexists [_]. }
  exists (tr1 ++ tr2 ++ tr3 ++ [Ended m r]). split.
  { cbn. rewrite Htr3, Htr2, Htr1. by rewrite <- !app_assoc. }
  unfold tries, waits, ended in *. rewrite !omap_app, Ht1, Ht2, Ht3, Hw1, Hw3, He1, He2, He3. cbn. rewrite !app_nil_r, !length_app, length_map. cbn.
  split_and!; try done; try lia.
  - rewrite removelast_last. apply Forall_forall. intros t (e & -> & _)%list_elem_of_fmap. done.
  - intros ->. left. rewrite last_snoc. destruct Hr as [[<- _]|(e & _ & _ & [x Hx])]; [done|congruence].
Qed.

(** The loop over the chunks: those attempted are the first ones, each ending as
    recorded; it stops early only at an unavailable recipient, and its error is
    the first there was. *)
Lemma send_chunks_spec name ch l first s :
  let '(s', r) := send_chunks name ch l first s in
  ∃ tr k errs, trace s' = trace s ++ tr ∧ ended tr = zip (take k l) errs ∧ length errs = k ∧ (k ≤ length l)%nat ∧
    (length (tries tr) ≤ S maxRetries * k)%nat ∧
    r = match first with Some _ => first | None => find_first is_bad errs ≫= λ e, e end ∧
    ((k < length l)%nat → ∃ e, last errs = Some (Some e) ∧ recipientUnavailable e = true).
Proof.
  revert first s. induction l as [|m l IH]; intros first s; cbn.
  { exists [], 0%nat, []. rewrite app_nil_r. split_and!; try done; [by destruct first|cbn; lia]. }
  pose proof (sendWithRetry_spec name ch m s) as Hs. destruct (sendWithRetry name ch m s) as [s1 r1]. destruct Hs as (tr1 & Htr1 & He1 & Ht1 & _).
  assert (Hgo : ∀ first', let '(s', r) := send_chunks name ch l first' s1 in
    first' = (match first with Some _ => first | None => r1 end) →
    ∃ tr k errs, trace s' = trace s ++ tr ∧ ended tr = zip (take k (m :: l)) errs ∧ length errs = k ∧ (k ≤ S (length l))%nat ∧
      (length (tries tr) ≤ S maxRetries * k)%nat ∧ r = match first with Some _ => first | None => find_first is_bad errs ≫= λ e, e end ∧
      ((k < S (length l))%nat → ∃ e, last errs = Some (Some e) ∧ recipientUnavailable e = true)).
  { intros first'. specialize (IH first' s1). destruct (send_chunks name ch l first' s1) as [s' r].
    destruct IH as (tr & k & errs & Htr & He & Hk & Hkl & Ht & Hr & Hlast). intros Hfirst. exists (tr1 ++ tr), (S k), (r1 :: errs). split_and!.
    - by rewrite Htr, Htr1, <- app_assoc.
    - unfold ended in *. by rewrite omap_app, He1, He.
    - cbn. by f_equal.
    - lia.
    - unfold tries in *. rewrite omap_app, length_app. lia.
    - rewrite Hr, Hfirst. destruct first; [done|]. by destruct r1.
    - intros Hlt. destruct (Hlast ltac:(lia)) as (e & He' & Hu). exists e. split; [|done]. rewrite last_cons, He'. done. }
  destruct r1 as [e|]; [destruct (recipientUnavailable e) eqn:Hu|].
  - exists tr1, 1%nat, [Some e]. split_and!; [done|done|done|lia|lia|by destruct first|]. intros _. by exists e.
  - specialize (Hgo (match first with Some _ => first | None => Some e end)). destruct (send_chunks _ _ _ _ _). by apply Hgo.
  - specialize (Hgo (match first with Some _ => first | None => None end)). destruct (send_chunks _ _ _ _ _). by apply Hgo.
Qed.
End retries.

(** *** Sweeping *)

Section sweep.
Context {V : Type} (stale : V → bool).

Definition sweep_list (l : list (string * V)) (m : gmap string V) : gmap string V :=
  fold_left (λ m '(k, v), if stale v then delete k m else m) l m.

Lemma sweep_list_lookup l m k v :
  sweep_list l m !! k = Some v ↔ m !! k = Some v ∧ ∀ v', (k, v') ∈ l → stale v' = false.
Proof.
  revert m. induction l as [|[k' v'] l IH]; intros m; cbn.
  - split; [intros Hm; split; [done|]; by intros v' ?%elem_of_nil|by intros []].
  - rewrite IH. setoid_rewrite elem_of_cons. destruct (stale v') eqn:Hs; [rewrite lookup_delete_Some|].
    + split; [intros [[Hk Hm] Hl]|intros [Hm Hl]].
      * split; [done|]. intros v'' [[= -> ->]|Hin]; [done|by apply Hl].
      * split_and!; [|done|intros v'' Hin; apply Hl; by right]. intros <-. assert (stale v' = false) by (apply Hl; by left). congruence.
    + split; [intros [Hm Hl]|intros [Hm Hl]]; (split; [done|]); intros v'' Hin; [|by apply Hl; right].
      destruct Hin as [[= -> ->]|Hin]; [done|by apply Hl].
Qed.

Lemma sweep_go_range `{GoRange} m : sweep_list (go_range m) m = filter (λ p, stale p.2 = false) m.
Proof.
  apply map_eq. intros k. apply option_eq. intros v. rewrite sweep_list_lookup, map_lookup_filter_Some.
  split; (intros [Hm Hl]; split; [done|]).
  - apply Hl. by apply elem_of_go_range.
  - intros v' Hin%elem_of_go_range. rewrite Hm in Hin. injection Hin as <-. exact Hl.
Qed.
End sweep.

Section janitor.
Context {W : Type} `{ChannelHost W} `{GoRange}.
Implicit Types s : Sending W.

(** A fold whose steps act on a part [g] of the state as [h]. *)
Lemma fold_left_proj {V G} (g : Sending W → G) (f : Sending W → string * V → Sending W) (h : G → string * V → G) l s :
  (∀ s p, g (f s p) = h (g s) p) → g (fold_left f l s) = fold_left h l (g s).
Proof. intros Hg. revert s. induction l as [|p l IH]; intros s; [done|]. cbn. by rewrite IH, Hg. Qed.

Lemma fold_left_frame {V G} (g : Sending W → G) (f : Sending W → string * V → Sending W) l s :
  (∀ s p, g (f s p) = g s) → g (fold_left f l s) = g s.
Proof. intros Hg. revert s. induction l as [|p l IH]; intros s; [done|]. cbn. by rewrite IH, Hg. Qed.

Definition old (now ttl created : Z) : bool := ttl <? GoTime.sub now created.

Lemma stop_typing_maps key s :
  typingStops (shown (stop_typing key s)) = delete key (typingStops (shown s)) ∧
  reactionUndos (shown (stop_typing key s)) = reactionUndos (shown s) ∧ placeholders (shown (stop_typing key s)) = placeholders (shown s).
Proof. unfold stop_typing. destruct (typingStops (shown s) !! key) eqn:Hk; cbn; [done|]. by rewrite delete_id. Qed.

Lemma undo_reaction_maps key s :
  reactionUndos (shown (undo_reaction key s)) = delete key (reactionUndos (shown s)) ∧
  typingStops (shown (undo_reaction key s)) = typingStops (shown s) ∧ placeholders (shown (undo_reaction key s)) = placeholders (shown s).
Proof. unfold undo_reaction. destruct (reactionUndos (shown s) !! key) eqn:Hk; cbn; [done|]. by rewrite delete_id. Qed.

(** A tick of the janitor leaves exactly what is not too old. *)
Lemma janitor_sweeps now s :
  let sh := shown (janitor now s) in
  typingStops sh = filter (λ p, old now typingStopTTL (t_createdAt p.2) = false) (typingStops (shown s)) ∧
  reactionUndos sh = filter (λ p, old now typingStopTTL (r_createdAt p.2) = false) (reactionUndos (shown s)) ∧
  placeholders sh = filter (λ p, old now placeholderTTL (p_createdAt p.2) = false) (placeholders (shown s)).
Proof.
  unfold janitor. set (f1 := λ s '(key, entry), if _ <? GoTime.sub now (t_createdAt entry) then _ else _).
  set (f2 := λ s '(key, entry), if _ <? GoTime.sub now (r_createdAt entry) then _ else _).
  set (f3 := λ s '(key, entry), if _ <? GoTime.sub now (p_createdAt entry) then _ else _).
  set (s1 := fold_left f1 _ s). set (s2 := fold_left f2 _ s1). cbv zeta.
  assert (E1 : typingStops (shown s1) = filter (λ p, old now typingStopTTL (t_createdAt p.2) = false) (typingStops (shown s)) ∧
    reactionUndos (shown s1) = reactionUndos (shown s) ∧ placeholders (shown s1) = placeholders (shown s)).
  { split_and!; [rewrite <- (sweep_go_range (λ v, old now typingStopTTL (t_createdAt v)));
      apply (fold_left_proj (λ s, typingStops (shown s)))|apply (fold_left_frame (λ s, reactionUndos (shown s)))|apply (fold_left_frame (λ s, placeholders (shown s)))];
      intros s0 [key entry]; cbn; unfold old; case_if; try done; apply stop_typing_maps. }
  assert (E2 : reactionUndos (shown s2) = filter (λ p, old now typingStopTTL (r_createdAt p.2) = false) (reactionUndos (shown s1)) ∧
    typingStops (shown s2) = typingStops (shown s1) ∧ placeholders (shown s2) = placeholders (shown s1)).
  { split_and!; [rewrite <- (sweep_go_range (λ v, old now typingStopTTL (r_createdAt v)));
      apply (fold_left_proj (λ s, reactionUndos (shown s)))|apply (fold_left_frame (λ s, typingStops (shown s)))|apply (fold_left_frame (λ s, placeholders (shown s)))];
      intros s0 [key entry]; cbn; unfold old; case_if; try done; apply undo_reaction_maps. }
  destruct E1 as (E11 & E12 & E13), E2 as (E21 & E22 & E23). split_and!.
  - rewrite <- E11, <- E22. apply (fold_left_frame (λ s, typingStops (shown s))). intros s0 [key entry]. cbn. by case_if.
  - rewrite <- E12, <- E21. apply (fold_left_frame (λ s, reactionUndos (shown s))). intros s0 [key entry]. cbn. by case_if.
  - rewrite <- E13, <- E23, <- (sweep_go_range (λ v, old now placeholderTTL (p_createdAt v))).
    apply (fold_left_proj (λ s, placeholders (shown s))). intros s0 [key entry]. cbn. unfold old. by case_if.
Qed.
End janitor.

(** The first error of chunks attempted up to an unavailable recipient. *)
Lemma first_error (errs : list (option SendError)) k n :
  length errs = k → (k ≤ n)%nat → ((k < n)%nat → ∃ e, last errs = Some (Some e) ∧ recipientUnavailable e = true) →
  (find_first is_bad errs ≫= (λ e, e)) = None ↔ k = n ∧ Forall (λ e, e = None) errs.
Proof.
  intros Hk Hkn Hlast.
  assert (Hf : (find_first is_bad errs ≫= (λ e, e)) = None ↔ Forall (λ e, e = None) errs).
  { clear. induction errs as [|[e|] errs IH]; cbn; [done| |by rewrite IH, Forall_cons; naive_solver]. split; [done|]. by intros [? _]%Forall_cons. }
  rewrite Hf. split; [|by intros []]. intros Hall. split; [|done]. destruct (decide (k = n)) as [|Hne]; [done|].
  destruct Hlast as (e & He & _); [lia|]. apply last_Some_elem_of in He. by rewrite Forall_forall in Hall; apply Hall in He.
Qed.

(** ** Properties *)

Section theorems.
Context {W : Type} `{ChannelHost W} `{GoRange}.
Implicit Types s : Sending W.


(** What a channel shows while a message is answered is cleared once. Whatever is
    recorded, sent, dismissed and swept, in any order, every function that stops a
    typing indicator has been called exactly once or is still registered, no
    function that undoes a reaction is called twice, and a tick of the janitor
    leaves exactly the entries within their time to live. *)
Theorem indicators_accounted chs (l : list (ShownCall * Z)) (w : W) now :
  let s := run_calls chs l {| world := w; trace := []; shown := {| placeholders := ∅; typingStops := ∅; reactionUndos := ∅ |} |} in
  all_stops s ≡ₚ flat_map (λ c, recorded_stop c.1) l ∧ all_undos s ⊆+ flat_map (λ c, recorded_undo c.1) l ∧
  let sh := shown (janitor now s) in
  typingStops sh = filter (λ p, old now typingStopTTL (t_createdAt p.2) = false) (typingStops (shown s)) ∧
  reactionUndos sh = filter (λ p, old now typingStopTTL (r_createdAt p.2) = false) (reactionUndos (shown s)) ∧
  placeholders sh = filter (λ p, old now placeholderTTL (p_createdAt p.2) = false) (placeholders (shown s)).
Proof.
  cbv zeta. set (s0 := {| world := w; trace := _; shown := _ |}).
  destruct (run_calls_accounts chs l s0) as [Hs Hu].
  assert (E : all_stops s0 = [] ∧ all_undos s0 = []) by (unfold all_stops, all_undos, pending_stops, pending_undos; cbn; by rewrite !map_to_list_empty).
  destruct E as [E1 E2]. rewrite E1 in Hs. rewrite E2 in Hu. split; [exact Hs|]. split; [exact Hu|]. apply janitor_sweeps.
Qed.
End theorems.

(** ** A channel *)

Module ChannelSendExamples.

(** A platform that answers as the list says, each answer being that of one try. *)
Definition script := list (option SendError).

#[local] Instance ex_host : ChannelHost script.
Proof.
  refine {| host_limiter w := (w, None); host_ctx _ := None; host_wait w _ := (w, None); host_jitter w d := (w, d);
    host_send w _ _ _ := match w with e :: w => (w, 1%nat, e) | [] => ([], 1%nat, None) end;
    host_send_media w _ _ := (w, None); host_edit w _ _ _ _ := (w, true); host_delete w _ _ _ := (w, true); host_placeholder w _ _ := (w, Some "p1") |}.
  intros w d Hd. cbn. lia.
Defined.

Definition ex_channel : Channel :=
  {| ch_id := 1; MaxMessageLength := Some 300; MessageEditor := true; MessageDeleter := false; MediaSender := false; PlaceholderCapable := true; RemovalAware := false |}.

Definition ex_message (content : string) : OutboundMessage :=
  {| m_Channel := "telegram"; ChatID := "7"; Content := content; ReplyToMessageID := "41"; OriginalMessageID := "41"; Outcome := "ok"; OnDelivery := true |}.

Definition ex_empty (w : script) : Sending script := {| world := w; trace := []; shown := {| placeholders := ∅; typingStops := ∅; reactionUndos := ∅ |} |}.

(** Seven hundred times the same letter, in three chunks. *)
Fixpoint letters (n : nat) : string := match n with O => "" | S n => ("a" +:+ letters n)%string end.

Definition ex_long : OutboundMessage := ex_message (letters 700).

(** The first chunk after two failures, the second refused because the recipient
    went offline: the third is not tried. *)
Definition ex_offline : script := [Some (failure ErrTemporary); Some (failure ErrRateLimit); None; Some (failure ErrRecipientOffline)].

Example rest_not_tried :
  match sendSplit 701 "telegram" ex_channel ex_long (ex_empty ex_offline) with
  | Some (s, r) => r = Some (failure ErrRecipientOffline) ∧ map (λ p, (ReplyToMessageID p.1, String.length (Content p.1), bool_decide (p.2 = None))) (ended (trace s)) = [("41", 250%nat, true); ("", 250%nat, false)] ∧
      waits (trace s) = [500 * GoTime.millisecond; GoTime.second]
  | None => False
  end.
Proof. vm_compute. done. Qed.

(** A server that asks for more than a minute is not waited for. *)
Example long_wait_refused :
  (sendWithRetry "telegram" ex_channel (ex_message "hi") (ex_empty [WithRetryAfter (Some (failure ErrRateLimit)) (61 * GoTime.second)])).2 =
  Some {| wraps := [ErrRateLimit]; RetryAfter := Some (61 * GoTime.second) |}.
Proof. vm_compute. done. Qed.

(** The placeholder takes the place of the reply. *)
Example placeholder_becomes_reply :
  let s := RecordPlaceholder "telegram" "7" "p1" 0 (ex_empty []) in
  let '(s, r) := sendWithRetry "telegram" ex_channel (ex_message "hi") s in
  r = None ∧ trace s = [Edited "7" "p1" "hi" true; Ended (ex_message "hi") None] ∧ placeholders (shown s) = ∅.
Proof. vm_compute. done. Qed.

(** The undo function of a reaction recorded again for the same message is not
    called any more. *)
Example undo_overwritten :
  let l := [(CallRecordReactionUndo "telegram" "7" "41" 1, 0); (CallRecordReactionUndo "telegram" "7" "41" 2, 0); (CallDismissInbound "telegram" "7" "41", 0)] in
  all_undos (run_calls (λ _, Some ex_channel) l (ex_empty [])) = [2%nat].
Proof. vm_compute. done. Qed.

Lemma ex_no_fence : fence_lines_short 93 (GoString.runes (letters 700)).
Proof.
  intros a b c Heq. exfalso.
  assert (Hx : existsb (Z.eqb backtick) (GoString.runes (letters 700)) = true) by (rewrite Heq, existsb_app, (existsb_app _ fence); by rewrite orb_true_r).
  vm_compute in Hx. done.
Qed.

End ChannelSendExamples.
