(* ===== verification/ChannelPlan.v ===== *)
(** * The channels a configuration asks for (channels/plan.go, manager.go, registry.go, config/channels.go)

    [plan] lists them, each with a fingerprint of what it is built from: a
    reload rebuilds a channel only when that changes. The accounts of a SecMsg
    daemon that pins none are asked of the daemon. The theorem: the names are
    those asked for, each once, the first entry of a name winning and built-in
    channels last; and a daemon that does not answer keeps what runs for it. *)

From stdpp Require Import base gmap strings list sorting.
From Stdlib Require Import ZArith Lia.
From S2P Require Import Prelude GoString.

Open Scope Z_scope.

(** ** Configuration (config/channels.go) *)

Record GroupTriggerConfig := { MentionOnly : bool; Prefixes : list string }.

Record TelegramBotConfig := { tb_ID : string; tb_Enabled : bool; tb_Token : string; tb_AllowFrom : list string; tb_rest : string }.

Definition TelegramChannelName (b : TelegramBotConfig) : string :=
  if bool_decide (tb_ID b = "") || bool_decide (tb_ID b = "default") then "telegram" else ("telegram-" +:+ tb_ID b)%string.

Record SecMsgAccountConfig := { Account : string; sa_Name : string; sa_AllowFrom : list string; sa_GroupTrigger : GroupTriggerConfig }.

Record SecMsgConfig := {
  sm_Name : string; sm_Enabled : bool; Address : string; sm_AllowFrom : list string; sm_GroupTrigger : GroupTriggerConfig; Accounts : list SecMsgAccountConfig
}.

Definition WithDefaults (s : SecMsgConfig) (a : SecMsgAccountConfig) : SecMsgAccountConfig :=
  {| Account := Account a; sa_Name := sa_Name a;
     sa_AllowFrom := if bool_decide (sa_AllowFrom a = []) then sm_AllowFrom s else sa_AllowFrom a;
     sa_GroupTrigger := if negb (MentionOnly (sa_GroupTrigger a)) && bool_decide (Prefixes (sa_GroupTrigger a) = []) then sm_GroupTrigger s else sa_GroupTrigger a |}.

Definition AccountChannelName (daemon : SecMsgConfig) (a : SecMsgAccountConfig) : string :=
  if negb (bool_decide (sa_Name a = "")) then sa_Name a
  else
    let base := if bool_decide (sm_Name daemon = "") then "secmsg" else sm_Name daemon in
    if bool_decide (Account a = "") then base else (base +:+ "-" +:+ Account a)%string.

(** One of the channels with a section of its own: whether it is enabled, and
    whether what it cannot do without is set. *)
Record SectionConfig := { sc_Enabled : bool; sc_Required : list string; sc_AllowFrom : list string }.

Record ChannelsConfig := {
  Telegram : list TelegramBotConfig; SecMsg : list SecMsgConfig;
  Discord : SectionConfig; Slack : SectionConfig; Matrix : SectionConfig; WebUI : SectionConfig; Device : SectionConfig
}.

Definition section_on (s : SectionConfig) : bool := sc_Enabled s && forallb (λ v, negb (bool_decide (v = ""))) (sc_Required s).

(** ** Specs (plan.go) *)

(** What a channel is built from. *)
Inductive Build := BuildTelegram (b : TelegramBotConfig) | BuildSecMsg (d : SecMsgConfig) (a : SecMsgAccountConfig) | BuildFactory (name : string) | BuildBuiltin (name : string).

Record channelSpec := {
  name : string; display : string; platform : string; inputs : string; build : Build;
  allowFrom : list string; checkAllowFrom : bool; daemon : string
}.

(** The digests of the JSON of a value, empty when it has none; and what the
    subpackages have registered: which factories there are, what a factory reads
    ([None] when it has not said), and the built-in channels. *)
Class Registered := {
  fp_bot : TelegramBotConfig → string;
  fp_daemon : SecMsgConfig → string;
  fp_account : SecMsgConfig → SecMsgAccountConfig → string;
  getTelegramBotFactory : bool;
  getSecMsgFactory : bool;
  getFactory : string → bool;
  getFactoryInputs : string → option (ChannelsConfig → string);
  builtins : gset string;
  getSecMsgDiscovery : bool
}.

(** An alert of discovery: that it failed, or that the daemon has no account. *)
Inductive DiscoveryAlert := DiscoveryFailed (daemon : string) | NoLinkedAccounts (daemon : string).

(** [discoveryFailing], and the alerts sent. *)
Record Discovery := { failing : gset string; alerts : list DiscoveryAlert }.

Section plan.
Context `{Registered}.

(** [discoveryFailed]: whether this starts a streak of failures. *)
Definition discoveryFailed (n : string) (failed : bool) (d : Discovery) : Discovery * bool :=
  let was := bool_decide (n ∈ failing d) in
  ({| failing := if failed then {[ n ]} ∪ failing d else failing d ∖ {[ n ]}; alerts := alerts d |}, failed && negb was).

Definition alert (a : DiscoveryAlert) (d : Discovery) : Discovery := {| failing := failing d; alerts := alerts d ++ [a] |}.

Definition no_account (id : string) : SecMsgAccountConfig :=
  {| Account := id; sa_Name := ""; sa_AllowFrom := []; sa_GroupTrigger := {| MentionOnly := false; Prefixes := [] |} |}.

(** The answer of a daemon is given by its address, [None] when it does not answer. *)
Definition resolveSecMsgAccounts (discover : string → option (list string)) (cfg : SecMsgConfig) (d : Discovery) : Discovery * option (list SecMsgAccountConfig) :=
  if negb (bool_decide (length (Accounts cfg) = 0%nat)) then (d, Some (map (WithDefaults cfg) (Accounts cfg)))
  else if negb getSecMsgDiscovery then (d, Some [WithDefaults cfg (no_account "")])
  else
    match discover (Address cfg) with
    | None =>
        let '(d, first) := discoveryFailed (sm_Name cfg) true d in
        (if first : bool then alert (DiscoveryFailed (sm_Name cfg)) d else d, None)
    | Some ids =>
        let '(d, _) := discoveryFailed (sm_Name cfg) false d in
        match ids with
        | [] => (alert (NoLinkedAccounts (sm_Name cfg)) d, Some [])
        | _ => (d, Some (map (λ id, WithDefaults cfg (no_account id)) ids))
        end
    end.

Definition spec_le (a b : channelSpec) : Prop := String.le (name a) (name b).
#[local] Instance spec_le_dec a b : Decision (spec_le a b) := decide (String.le (name a) (name b)).

(** The specs a manager last built or kept, by name. *)
Definition runningSpecs (specs : gmap string channelSpec) (dm : string) : list channelSpec :=
  merge_sort spec_le (filter (λ s, daemon s = dm) (map snd (map_to_list specs))).

Definition telegramSpec (bot : TelegramBotConfig) : option channelSpec :=
  if negb getTelegramBotFactory then None
  else
    let d := if negb (bool_decide (tb_ID bot = "")) && negb (bool_decide (tb_ID bot = "default")) then ("Telegram (" +:+ tb_ID bot +:+ ")")%string else "Telegram" in
    Some {| name := TelegramChannelName bot; display := d; platform := "telegram"; inputs := fp_bot bot; build := BuildTelegram bot;
            allowFrom := tb_AllowFrom bot; checkAllowFrom := true; daemon := "" |}.

Definition account_spec (cfg : SecMsgConfig) (a : SecMsgAccountConfig) : channelSpec :=
  let n := AccountChannelName cfg a in
  {| name := n; display := ("SecMsg (" +:+ n +:+ ")")%string; platform := "secmsg"; inputs := fp_account cfg a; build := BuildSecMsg cfg a;
     allowFrom := sa_AllowFrom a; checkAllowFrom := true; daemon := fp_daemon cfg |}.

Definition secmsgSpecs (specs : gmap string channelSpec) discover (cfg : SecMsgConfig) (d : Discovery) : Discovery * list channelSpec :=
  if negb getSecMsgFactory then (d, [])
  else
    let '(d, accounts) := resolveSecMsgAccounts discover cfg d in
    match accounts with
    | None => (d, runningSpecs specs (fp_daemon cfg))
    | Some l => (d, map (account_spec cfg) l)
    end.

Definition factorySpec (cfg : ChannelsConfig) (n disp : string) (allow : list string) : option channelSpec :=
  if negb (getFactory n) then None
  else
    Some {| name := n; display := disp; platform := n; inputs := match getFactoryInputs n with Some f => f cfg | None => "" end; build := BuildFactory n;
            allowFrom := allow; checkAllowFrom := true; daemon := "" |}.

Definition builtin_spec (n : string) : channelSpec :=
  {| name := n; display := n; platform := n; inputs := ""; build := BuildBuiltin n; allowFrom := []; checkAllowFrom := false; daemon := "" |}.

(** [builtinNames] *)
Definition builtinNames : list string := merge_sort String.le (elements builtins).

(** The closure [add] of [plan]. *)
Definition add (specs : list channelSpec) (s : channelSpec) : list channelSpec :=
  if bool_decide (name s ∈ map name specs) then specs else specs ++ [s].

Definition withBuiltins (specs : list channelSpec) : list channelSpec :=
  specs ++ map builtin_spec (filter (λ n, n ∉ map name specs) builtinNames).

(** The specs asked for, in the order of the configuration, before duplicates are left out. *)
Definition telegram_specs (cfg : ChannelsConfig) : list channelSpec :=
  omap (λ bot, if tb_Enabled bot && negb (bool_decide (tb_Token bot = "")) then telegramSpec bot else None) (Telegram cfg).

Fixpoint secmsg_specs (specs : gmap string channelSpec) discover (l : list SecMsgConfig) (d : Discovery) : Discovery * list channelSpec :=
  match l with
  | [] => (d, [])
  | sm :: l =>
      let '(d, here) := if sm_Enabled sm && negb (bool_decide (Address sm = "")) then secmsgSpecs specs discover sm d else (d, []) in
      let '(d, rest) := secmsg_specs specs discover l d in
      (d, here ++ rest)
  end.

Definition section_spec (cfg : ChannelsConfig) (n disp : string) (s : SectionConfig) : list channelSpec :=
  if section_on s then match factorySpec cfg n disp (sc_AllowFrom s) with Some s => [s] | None => [] end else [].

Definition section_specs (cfg : ChannelsConfig) : list channelSpec :=
  section_spec cfg "discord" "Discord" (Discord cfg) ++ section_spec cfg "slack" "Slack" (Slack cfg) ++
  section_spec cfg "matrix" "Matrix" (Matrix cfg) ++ section_spec cfg "webui" "WebUI" (WebUI cfg) ++ section_spec cfg "device" "Device" (Device cfg).

(** The channels asked for; [specs] is what the manager runs. *)
Definition plan (specs : gmap string channelSpec) discover (cfg : ChannelsConfig) (d : Discovery) : Discovery * list channelSpec :=
  let '(d, sm) := secmsg_specs specs discover (SecMsg cfg) d in
  (d, withBuiltins (fold_left add (telegram_specs cfg ++ sm ++ section_specs cfg) [])).
End plan.

(** ** Properties *)

Section theorems.
Context `{Registered}.

Lemma add_names l acc : NoDup (map name acc) → NoDup (map name (fold_left add l acc)).
Proof.
  revert acc. induction l as [|s l IH]; intros acc Hn; [done|]. cbn. apply IH. unfold add. case_bool_decide; [done|].
  rewrite map_app. apply NoDup_app. split_and!; [done| |cbn; apply NoDup_singleton]. intros n Hin Hn'%list_elem_of_singleton. by subst.
Qed.

(** What the closure [add] has collected: of each name, the first. *)
Lemma add_first l acc s : s ∈ fold_left add l acc ↔ s ∈ acc ∨ (find_first (λ s', bool_decide (name s' = name s)) l = Some s ∧ name s ∉ map name acc).
Proof.
  revert acc. induction l as [|x l IH]; intros acc; cbn.
  { split; [by left|]. by intros [?|[? _]]. }
  rewrite IH. unfold add. case_bool_decide as Hx.
  - destruct (bool_decide (name x = name s)) eqn:E; [|done]. apply bool_decide_eq_true in E. rewrite E in Hx. split; [intros [?|[_ ?]]; [by left|done]|]. intros [?|[_ ?]]; [by left|done].
  - rewrite map_app. cbn. rewrite !elem_of_app, !list_elem_of_singleton. destruct (bool_decide (name x = name s)) eqn:E.
    + apply bool_decide_eq_true in E. split; [intros [[? | ->]|[_ Hn]]; [by left|by right|by exfalso; apply Hn; right]|].
      intros [?|[[= ->] Hn]]; left; [by left|by right].
    + apply bool_decide_eq_false in E. split; [intros [[? | ->]|[Hf Hn]]; [by left|done|right; split; [done|]; intros Hin; apply Hn; by left]|].
      intros [?|[Hf Hn]]; [by left; left|]. right. split; [done|]. intros [?|Heq]; [done|]. by rewrite Heq in E.
Qed.

Lemma add_has l n : n ∈ map name (fold_left add l []) ↔ n ∈ map name l.
Proof.
  split.
  - intros (s & -> & Hs)%list_elem_of_fmap. apply add_first in Hs as [Hs|[Hs _]]; [by apply elem_of_nil in Hs|].
    apply find_first_Some in Hs as (l1 & l2 & -> & _). apply list_elem_of_fmap. exists s. split; [done|]. rewrite elem_of_app, elem_of_cons. tauto.
  - intros (s & -> & Hs)%list_elem_of_fmap. destruct (find_first (λ s', bool_decide (name s' = name s)) l) as [s'|] eqn:Hf.
    + pose proof Hf as Hf'. apply find_first_Some in Hf' as (l1 & l2 & _ & Hn%bool_decide_eq_true & _). apply list_elem_of_fmap. exists s'. split; [done|].
      apply add_first. right. rewrite Hn. split; [exact Hf|by intros ?%elem_of_nil].
    + apply find_first_None in Hf. rewrite Forall_forall in Hf. specialize (Hf s Hs). by rewrite bool_decide_eq_true_2 in Hf.
Qed.

(** The specs of all entries, before duplicates are left out. *)
Definition candidates (specs : gmap string channelSpec) discover (cfg : ChannelsConfig) (d : Discovery) : list channelSpec :=
  telegram_specs cfg ++ (secmsg_specs specs discover (SecMsg cfg) d).2 ++ section_specs cfg.

Lemma plan_candidates specs discover cfg d : (plan specs discover cfg d).2 = withBuiltins (fold_left add (candidates specs discover cfg d) []).
Proof. unfold plan, candidates. by destruct (secmsg_specs specs discover (SecMsg cfg) d). Qed.

Lemma elem_of_builtinNames n : n ∈ builtinNames ↔ n ∈ builtins.
Proof. unfold builtinNames. by rewrite merge_sort_Permutation, elem_of_elements. Qed.

Lemma secmsg_specs_keeps specs discover l d sm s :
  sm ∈ l → sm_Enabled sm = true → Address sm ≠ "" → getSecMsgFactory = true → getSecMsgDiscovery = true → Accounts sm = [] → discover (Address sm) = None →
  (∃ n, specs !! n = Some s) → daemon s = fp_daemon sm → s ∈ (secmsg_specs specs discover l d).2.
Proof.
  intros Hin He Ha Hf Hd Hacc Hdis [n Hs] Hdm. revert d. induction l as [|x l IH]; intros d; [by apply elem_of_nil in Hin|].
  apply elem_of_cons in Hin. cbn. destruct Hin as [<-|Hin].
  - rewrite He, bool_decide_eq_false_2 by done. cbn. unfold secmsgSpecs. rewrite Hf. cbn. unfold resolveSecMsgAccounts. rewrite Hacc, bool_decide_eq_true_2, Hd, Hdis by done. cbn.
    match goal with |- context [secmsg_specs specs discover l ?x] => destruct (secmsg_specs specs discover l x) as [d' rest] end. cbn. rewrite elem_of_app. left. unfold runningSpecs. rewrite merge_sort_Permutation.
    apply list_elem_of_filter. split; [done|]. apply list_elem_of_fmap. exists (n, s). split; [done|]. by apply elem_of_map_to_list.
  - destruct (if sm_Enabled x && _ then _ else _) as [d1 here]. specialize (IH Hin d1). destruct (secmsg_specs specs discover l d1) as [d2 rest]. cbn in *. rewrite elem_of_app. by right.
Qed.

(** A configuration's channels are each built once. The plan holds no name twice;
    of each name asked for it holds the first entry; a built-in channel is there
    exactly when no entry has its name; and a SecMsg daemon that does not answer
    loses none of the channels that run for its entry. *)
Theorem plan_exact specs discover cfg d :
  let l := (plan specs discover cfg d).2 in let c := candidates specs discover cfg d in
  NoDup (map name l) ∧
  (∀ s, s ∈ l ↔ find_first (λ s', bool_decide (name s' = name s)) c = Some s ∨ (∃ n, n ∈ builtins ∧ n ∉ map name c ∧ s = builtin_spec n)) ∧
  (∀ n, n ∈ map name l ↔ n ∈ map name c ∨ n ∈ builtins) ∧
  (∀ sm s n, sm ∈ SecMsg cfg → sm_Enabled sm = true → Address sm ≠ "" → getSecMsgFactory = true → getSecMsgDiscovery = true → Accounts sm = [] →
     discover (Address sm) = None → specs !! n = Some s → daemon s = fp_daemon sm → name s ∈ map name l).
Proof.
  cbv zeta. rewrite plan_candidates. set (c := candidates specs discover cfg d). unfold withBuiltins.
  assert (Hin : ∀ s, s ∈ fold_left add c [] ↔ find_first (λ s', bool_decide (name s' = name s)) c = Some s).
  { intros s. rewrite add_first. split; [intros [Hx|[? _]]; [by apply elem_of_nil in Hx|done]|]. intros ?. right. split; [done|by intros ?%elem_of_nil]. }
  assert (Hb : ∀ n, n ∈ map name (map builtin_spec (filter (λ n, n ∉ map name (fold_left add c [])) builtinNames)) ↔ n ∈ builtins ∧ n ∉ map name c).
  { intros n. rewrite map_map, map_id, list_elem_of_filter, elem_of_builtinNames, add_has. naive_solver. }
  assert (Hnames : ∀ n, n ∈ map name (fold_left add c [] ++ map builtin_spec (filter (λ n, n ∉ map name (fold_left add c [])) builtinNames)) ↔ n ∈ map name c ∨ n ∈ builtins).
  { intros n. rewrite map_app, elem_of_app, Hb, add_has. destruct (decide (n ∈ map name c)); naive_solver. }
  split_and!.
  - rewrite map_app. apply NoDup_app. split_and!; [apply add_names; constructor| |].
    + intros n Hn Hx%Hb. rewrite add_has in Hn. naive_solver.
    + rewrite map_map, map_id. apply NoDup_filter. unfold builtinNames. rewrite merge_sort_Permutation. apply NoDup_elements.
  - intros s. rewrite elem_of_app, Hin, list_elem_of_fmap. setoid_rewrite list_elem_of_filter. setoid_rewrite elem_of_builtinNames. setoid_rewrite add_has. naive_solver.
  - exact Hnames.
  - intros sm s n Hsm He Ha Hf Hd Hacc Hdis Hs Hdm. apply Hnames. left. apply list_elem_of_fmap. exists s. split; [done|].
    unfold c, candidates. rewrite !elem_of_app. right. left. eapply secmsg_specs_keeps; eauto.
Qed.
End theorems.

(** ** A configuration *)

Module ChannelPlanExamples.

Definition ex_factory_reads (n : string) : option (ChannelsConfig → string) := if bool_decide (n = "discord") then Some (λ _, "d1") else None.

#[local] Instance ex_registered : Registered := {|
  fp_bot b := tb_Token b; fp_daemon d := sm_Name d; fp_account d a := (sm_Name d +:+ "/" +:+ Account a)%string;
  getTelegramBotFactory := true; getSecMsgFactory := true; getFactory _ := true; getFactoryInputs := ex_factory_reads; builtins := {[ "notes" ]}; getSecMsgDiscovery := true
|}.

Definition ex_off : SectionConfig := {| sc_Enabled := false; sc_Required := []; sc_AllowFrom := [] |}.

Definition ex_bot (i : string) : TelegramBotConfig := {| tb_ID := i; tb_Enabled := true; tb_Token := ("token-" +:+ i)%string; tb_AllowFrom := ["*"]; tb_rest := "" |}.

Definition ex_signal : SecMsgConfig := {| sm_Name := "signal"; sm_Enabled := true; Address := "127.0.0.1:7000"; sm_AllowFrom := ["*"]; sm_GroupTrigger := {| MentionOnly := true; Prefixes := [] |}; Accounts := [] |}.

Definition ex_config : ChannelsConfig :=
  {| Telegram := [ex_bot ""; ex_bot "alice"; ex_bot "default"]; SecMsg := [ex_signal]; Discord := {| sc_Enabled := true; sc_Required := ["t"]; sc_AllowFrom := [] |};
     Slack := ex_off; Matrix := ex_off; WebUI := ex_off; Device := ex_off |}.

Definition ex_answers (a : string) : option (list string) := Some ["droid1"; "droid2"].

Example ex_planned :
  map name (plan ∅ ex_answers ex_config {| failing := ∅; alerts := [] |}).2 = ["telegram"; "telegram-alice"; "signal-droid1"; "signal-droid2"; "discord"; "notes"].
Proof. vm_compute. done. Qed.

(** The daemon goes away: what runs for it stays, and the alert is sent once. *)
Definition ex_specs : gmap string channelSpec := list_to_map (map (λ s, (name s, s)) (plan ∅ ex_answers ex_config {| failing := ∅; alerts := [] |}).2).

Example ex_kept :
  let '(d, l) := plan ex_specs (λ _, None) ex_config {| failing := ∅; alerts := [] |} in
  map name l = ["telegram"; "telegram-alice"; "signal-droid1"; "signal-droid2"; "discord"; "notes"] ∧ alerts d = [DiscoveryFailed "signal"] ∧
  alerts (plan ex_specs (λ _, None) ex_config d).1 = [DiscoveryFailed "signal"].
Proof. vm_compute. done. Qed.

(** An account takes the daemon's lists where it has none. *)
Example ex_defaults : sa_AllowFrom (WithDefaults ex_signal (no_account "droid1")) = ["*"] ∧ MentionOnly (sa_GroupTrigger (WithDefaults ex_signal (no_account "droid1"))) = true.
Proof. vm_compute. done. Qed.
End ChannelPlanExamples.
