(* ===== verification/ChannelManager.v ===== *)
(** * The channel manager (channels/manager.go, lifecycle.go, reload.go)

    Outbound messages come off the bus by two dispatchers, one for texts and one
    for media, and are routed to the worker of their channel, which has a queue
    and a goroutine for each of the two. Channels are started concurrently and
    retried in the background, rebuilt or removed by a reload, and stopped; what
    comes for a channel being started is held. Everything a goroutine does
    between two blocking points, or in one critical section, is one step; which
    goroutine steps next, and how calls to channels end, is in the label.

    ChannelOrder and ChannelRuns show, for every sequence of steps, that no message is
    lost or told twice, that the messages of a channel are sent in the order they were
    published unless a worker had to be left behind, that holds and queues are
    bounded, that no channel is left running, and that a shutdown ends.

    Retries and splitting of one message are ChannelSend, the channels a
    configuration asks for are ChannelPlan. *)

From stdpp Require Import base gmap strings list sorting.
From Stdlib Require Import ZArith Lia.
From S2P Require Import Prelude GoString MessageSplit ChannelSend ChannelPlan.

Open Scope nat_scope.

(** ** Limits *)

Definition defaultChannelQueueSize : nat := 16.
Definition maxHeldPerChannel : nat := 1000.
Definition StartRetryMin : Z := (5 * GoTime.second)%Z.
Definition StartRetryMax : Z := (5 * GoTime.minute)%Z.
Definition StartRetryAlertAfter : nat := 10.

#[global] Arguments maxHeldPerChannel : simpl never.
#[global] Arguments defaultChannelQueueSize : simpl never.

(** ** Messages *)

Inductive Kind := Text | Media.

#[export] Instance Kind_eq_dec : EqDecision Kind.
Proof. solve_decision. Defined.

(** A message by its number, in the order the dispatchers take them off the bus. *)
Record Packet := { number : nat; kind : Kind; to : string }.

#[export] Instance Packet_eq_dec : EqDecision Packet.
Proof. solve_decision. Defined.

(** How the delivery of a message ends: with the result of sending it, or dropped
    with an error. For a text, it is what [OnDelivery] is called with. *)
Inductive Fate := Sent (e : option SendError) | Dropped (e : SendError).

(** A channel instance: its name, and a number told apart from every other instance built. *)
Record Chan := { c_name : string; c_id : nat }.

#[export] Instance Chan_eq_dec : EqDecision Chan.
Proof. solve_decision. Defined.

#[export] Instance Chan_countable : Countable Chan.
Proof. apply (inj_countable' (λ c, (c_name c, c_id c)) (λ p, {| c_name := p.1; c_id := p.2 |})). by intros []. Defined.

Inductive Event :=
| Published (p : Packet)
| Attempted (c : Chan) (p : Packet)
| Finished (p : Packet) (f : Fate)
| Stopped (c : Chan)
| LeftBehind (name : string)
| StartAlert (c : Chan).

(** ** Workers *)

(** Where the goroutine of a queue is: taking messages, telling those still queued
    that they are not sent, past its last look at the queue, or gone ([done] closed). *)
Inductive LanePc := Running | Draining | Returning | Exited.

#[export] Instance LanePc_eq_dec : EqDecision LanePc.
Proof. solve_decision. Defined.

Record Lane := { pc : LanePc; flight : option Packet; backlog : list Packet; queue : list Packet }.

Record Worker := { w_chan : Chan; w_ctx : nat; closed : bool; text : Lane; media : Lane }.

Definition lane (k : Kind) (w : Worker) : Lane := match k with Text => text w | Media => media w end.

Definition set_lane (k : Kind) (l : Lane) (w : Worker) : Worker :=
  match k with
  | Text => {| w_chan := w_chan w; w_ctx := w_ctx w; closed := closed w; text := l; media := media w |}
  | Media => {| w_chan := w_chan w; w_ctx := w_ctx w; closed := closed w; text := text w; media := l |}
  end.

Definition set_closed (w : Worker) : Worker :=
  {| w_chan := w_chan w; w_ctx := w_ctx w; closed := true; text := text w; media := media w |}.

Definition set_pc (p : LanePc) (l : Lane) : Lane := {| pc := p; flight := flight l; backlog := backlog l; queue := queue l |}.
Definition set_queue (q : list Packet) (l : Lane) : Lane := {| pc := pc l; flight := flight l; backlog := backlog l; queue := q |}.
Definition set_backlog (q : list Packet) (l : Lane) : Lane := {| pc := pc l; flight := flight l; backlog := q; queue := queue l |}.
Definition set_flight (p : option Packet) (l : Lane) : Lane := {| pc := pc l; flight := p; backlog := backlog l; queue := queue l |}.

Definition new_lane (b : list Packet) : Lane := {| pc := Running; flight := None; backlog := b; queue := [] |}.

(** [newChannelWorker], with the backlogs. *)
Definition new_worker (c : Chan) (ctx : nat) (t m : list Packet) : Worker :=
  {| w_chan := c; w_ctx := ctx; closed := false; text := new_lane t; media := new_lane m |}.

(** [heldOutbound] *)
Record Hold := { h_text : list Packet; h_media : list Packet; overflowed : bool }.

Definition no_hold : Hold := {| h_text := []; h_media := []; overflowed := false |}.

(** [holdText], [holdMedia]: [None] when it is full. *)
Definition hold (h : Hold) (p : Packet) : option Hold :=
  if maxHeldPerChannel <=? length (h_text h) + length (h_media h) then None
  else
    Some (match kind p with
          | Text => {| h_text := h_text h ++ [p]; h_media := h_media h; overflowed := overflowed h |}
          | Media => {| h_text := h_text h; h_media := h_media h ++ [p]; overflowed := overflowed h |}
          end).

Definition set_overflowed (h : Hold) : Hold := {| h_text := h_text h; h_media := h_media h; overflowed := true |}.

(** ** Goroutines *)

(** [routeOutbound]: looking the channel up, about to take the worker's lock, and
    waiting in the select of [enqueueOn] with that lock held for reading. *)
Inductive Dispatcher := DIdle | DLooking (p : Packet) | DTarget (p : Packet) (w : nat) | DBlocked (p : Packet) (w : nat) | DEnded.

(** [retryChannelStart]: waiting, or in the call of [Start]. *)
Record Retrier := { r_chan : Chan; r_ctx : nat; calling : bool; attempt : nat; backoff : Z }.

(** A channel being stopped (reload.go's [detached]): about to close its worker's
    queues, waiting for the worker, waiting once more after it was cancelled, or
    calling [Stop]. *)
Inductive StopPc := SClose | SWait | SGrace | SStop.

#[export] Instance StopPc_eq_dec : EqDecision StopPc.
Proof. solve_decision. Defined.

Record Detached := { d_chan : Chan; d_worker : option nat; d_cancel : option nat; removed : bool; d_pc : StopPc }.

(** A first start in progress, and whether its context has been cancelled. *)
Record Pending := { p_chan : Chan; p_cancelled : bool }.

(** What the holder of [reloadMu] is doing; in [CtlStopAll] it holds [m.mu] too. *)
Inductive Ctl :=
| CtlIdle
| CtlStarting (ps : list Pending)
| CtlStopping (ds : list Detached) (specs : list channelSpec)
| CtlBuilding (specs : list channelSpec) (toStart : list Chan)
| CtlStopAll (ds : list Detached).

(** [dispatchCtx]: not made yet, live, or cancelled by [StopAll]. *)
Inductive Phase := NotStarted | Live | Ended.

#[export] Instance Phase_eq_dec : EqDecision Phase.
Proof. solve_decision. Defined.

(** ** The manager *)

(** The maps guarded by [m.mu]; a worker is its place in the table of all workers. *)
Record Maps := {
  channels : gmap string Chan; workers : gmap string nat; cancels : gmap string nat;
  inputs : gmap string string; specs : gmap string channelSpec; held : gmap string Hold
}.

(** [ended] are the contexts of channels that were cancelled by themselves, and [up]
    the channels whose last [Start] succeeded and which have not been stopped since. *)
Record State := {
  maps : Maps; mediaStore : nat; dispatch : Phase; ended : gset nat;
  next_ctx : nat; next_chan : nat; next_number : nat;
  table : list Worker; retriers : list Retrier; d_text : Dispatcher; d_media : Dispatcher; ctl : Ctl;
  up : gset Chan; trace : list Event
}.

Definition set_maps (m : Maps) (s : State) : State :=
  {| maps := m; mediaStore := mediaStore s; dispatch := dispatch s; ended := ended s; next_ctx := next_ctx s; next_chan := next_chan s; next_number := next_number s;
     table := table s; retriers := retriers s; d_text := d_text s; d_media := d_media s; ctl := ctl s; up := up s; trace := trace s |}.
Definition set_table (t : list Worker) (s : State) : State :=
  {| maps := maps s; mediaStore := mediaStore s; dispatch := dispatch s; ended := ended s; next_ctx := next_ctx s; next_chan := next_chan s; next_number := next_number s;
     table := t; retriers := retriers s; d_text := d_text s; d_media := d_media s; ctl := ctl s; up := up s; trace := trace s |}.
Definition set_retriers (r : list Retrier) (s : State) : State :=
  {| maps := maps s; mediaStore := mediaStore s; dispatch := dispatch s; ended := ended s; next_ctx := next_ctx s; next_chan := next_chan s; next_number := next_number s;
     table := table s; retriers := r; d_text := d_text s; d_media := d_media s; ctl := ctl s; up := up s; trace := trace s |}.
Definition set_ctl (c : Ctl) (s : State) : State :=
  {| maps := maps s; mediaStore := mediaStore s; dispatch := dispatch s; ended := ended s; next_ctx := next_ctx s; next_chan := next_chan s; next_number := next_number s;
     table := table s; retriers := retriers s; d_text := d_text s; d_media := d_media s; ctl := c; up := up s; trace := trace s |}.
Definition set_ended (e : gset nat) (s : State) : State :=
  {| maps := maps s; mediaStore := mediaStore s; dispatch := dispatch s; ended := e; next_ctx := next_ctx s; next_chan := next_chan s; next_number := next_number s;
     table := table s; retriers := retriers s; d_text := d_text s; d_media := d_media s; ctl := ctl s; up := up s; trace := trace s |}.
Definition set_up (u : gset Chan) (s : State) : State :=
  {| maps := maps s; mediaStore := mediaStore s; dispatch := dispatch s; ended := ended s; next_ctx := next_ctx s; next_chan := next_chan s; next_number := next_number s;
     table := table s; retriers := retriers s; d_text := d_text s; d_media := d_media s; ctl := ctl s; up := u; trace := trace s |}.
Definition set_dispatch (p : Phase) (s : State) : State :=
  {| maps := maps s; mediaStore := mediaStore s; dispatch := p; ended := ended s; next_ctx := next_ctx s; next_chan := next_chan s; next_number := next_number s;
     table := table s; retriers := retriers s; d_text := d_text s; d_media := d_media s; ctl := ctl s; up := up s; trace := trace s |}.
Definition set_store (n : nat) (s : State) : State :=
  {| maps := maps s; mediaStore := n; dispatch := dispatch s; ended := ended s; next_ctx := next_ctx s; next_chan := next_chan s; next_number := next_number s;
     table := table s; retriers := retriers s; d_text := d_text s; d_media := d_media s; ctl := ctl s; up := up s; trace := trace s |}.
Definition set_disp (k : Kind) (d : Dispatcher) (s : State) : State :=
  {| maps := maps s; mediaStore := mediaStore s; dispatch := dispatch s; ended := ended s; next_ctx := next_ctx s; next_chan := next_chan s; next_number := next_number s;
     table := table s; retriers := retriers s; d_text := match k with Text => d | Media => d_text s end; d_media := match k with Text => d_media s | Media => d end;
     ctl := ctl s; up := up s; trace := trace s |}.
(** A new context, channel or message number is taken. *)
Definition bump (c h n : nat) (s : State) : State :=
  {| maps := maps s; mediaStore := mediaStore s; dispatch := dispatch s; ended := ended s; next_ctx := c + next_ctx s; next_chan := h + next_chan s; next_number := n + next_number s;
     table := table s; retriers := retriers s; d_text := d_text s; d_media := d_media s; ctl := ctl s; up := up s; trace := trace s |}.
Definition log (l : list Event) (s : State) : State :=
  {| maps := maps s; mediaStore := mediaStore s; dispatch := dispatch s; ended := ended s; next_ctx := next_ctx s; next_chan := next_chan s; next_number := next_number s;
     table := table s; retriers := retriers s; d_text := d_text s; d_media := d_media s; ctl := ctl s; up := up s; trace := trace s ++ l |}.

Definition disp (k : Kind) (s : State) : Dispatcher := match k with Text => d_text s | Media => d_media s end.

Definition set_channels (x : gmap string Chan) (m : Maps) : Maps :=
  {| channels := x; workers := workers m; cancels := cancels m; inputs := inputs m; specs := specs m; held := held m |}.
Definition set_workers (x : gmap string nat) (m : Maps) : Maps :=
  {| channels := channels m; workers := x; cancels := cancels m; inputs := inputs m; specs := specs m; held := held m |}.
Definition set_cancels (x : gmap string nat) (m : Maps) : Maps :=
  {| channels := channels m; workers := workers m; cancels := x; inputs := inputs m; specs := specs m; held := held m |}.
Definition set_specs (i : gmap string string) (x : gmap string channelSpec) (m : Maps) : Maps :=
  {| channels := channels m; workers := workers m; cancels := cancels m; inputs := i; specs := x; held := held m |}.
Definition set_held (x : gmap string Hold) (m : Maps) : Maps :=
  {| channels := channels m; workers := workers m; cancels := cancels m; inputs := inputs m; specs := specs m; held := x |}.

Definition on_maps (f : Maps → Maps) (s : State) : State := set_maps (f (maps s)) s.

(** Whether a channel's context has ended: by itself, or with the dispatchers'. *)
Definition ctx_done (s : State) (c : nat) : bool := bool_decide (dispatch s = Ended) || bool_decide (c ∈ ended s).

(** [m.mu] is free: [StopAll] holds it while it waits. *)
Definition mu_free (s : State) : bool := match ctl s with CtlStopAll _ => false | _ => true end.

Definition not_running : SendError := failure ErrNotRunning.
Definition unknown_channel : SendError := failure ErrUnknownChannel.
Definition ctx_error : SendError := failure ErrCanceled.

(** ** Dispatching *)

(** The internal channels (constants/channels.go) *)
Definition internalChannels : list string := ["cli"; "system"; "subagent"; "recovery"; "agent_message"].
Definition IsInternalChannel (n : string) : bool := bool_decide (n ∈ internalChannels).

(** The bus hands a message to the dispatcher of its kind. *)
Definition publish (k : Kind) (n : string) (s : State) : option State :=
  match disp k s with
  | DIdle =>
      if IsInternalChannel n then Some s
      else
        let p := {| number := next_number s; kind := k; to := n |} in
        Some (log [Published p] (set_disp k (DLooking p) (bump 0 0 1 s)))
  | _ => None
  end.

(** The subscription ends with the dispatchers' context. *)
Definition dispatcher_ends (k : Kind) (s : State) : option State :=
  match disp k s with
  | DIdle => if bool_decide (dispatch s = Ended) then Some (set_disp k DEnded s) else None
  | _ => None
  end.

Definition drop (p : Packet) (e : SendError) (s : State) : State := log [Finished p (Dropped e)] s.

(** One round of [routeOutbound] up to [enqueueOn]. *)
Definition route (k : Kind) (s : State) : option State :=
  match disp k s with
  | DLooking p =>
      if bool_decide (dispatch s = Ended) then Some (drop p ctx_error (set_disp k DEnded s))
      else if negb (mu_free s) then None
      else
        match held (maps s) !! to p with
        | Some h =>
            match hold h p with
            | Some h' => Some (set_disp k DIdle (on_maps (set_held (<[to p := h']> (held (maps s)))) s))
            | None => Some (drop p not_running (set_disp k DIdle (on_maps (set_held (<[to p := set_overflowed h]> (held (maps s)))) s)))
            end
        | None =>
            match channels (maps s) !! to p with
            | None => Some (drop p unknown_channel (set_disp k DIdle s))
            | Some _ =>
                match workers (maps s) !! to p with
                | None => Some (drop p not_running (set_disp k DIdle s))
                | Some w => Some (set_disp k (DTarget p w) s)
                end
            end
        end
  | _ => None
  end.

(** [enqueueOn]: the worker's lock is taken, and whether it is closed looked at. *)
Definition lock_worker (k : Kind) (s : State) : option State :=
  match disp k s with
  | DTarget p i =>
      match table s !! i with
      | Some w => Some (set_disp k (if closed w then DLooking p else DBlocked p i) s)
      | None => None
      end
  | _ => None
  end.

(** The three cases of its select. *)
Inductive SelectCase := IntoQueue | WorkerExited | ContextDone.

Definition enqueue (k : Kind) (c : SelectCase) (s : State) : option State :=
  match disp k s with
  | DBlocked p i =>
      match table s !! i with
      | Some w =>
          let l := lane k w in
          match c with
          | IntoQueue =>
              if length (queue l) <? defaultChannelQueueSize then
                Some (set_disp k DIdle (set_table (<[i := set_lane k (set_queue (queue l ++ [p]) l) w]> (table s)) s))
              else None
          | WorkerExited => if bool_decide (pc l = Exited) then Some (set_disp k (DLooking p) s) else None
          | ContextDone => if bool_decide (dispatch s = Ended) then Some (drop p ctx_error (set_disp k DEnded s)) else None
          end
      | None => None
      end
  | _ => None
  end.

(** ** The worker's goroutines ([runWorker], [runMediaWorker]) *)

(** A step of the goroutine of one lane of worker [i]. *)
Definition on_lane (i : nat) (k : Kind) (f : Worker → Lane → option (Lane * list Event)) (s : State) : option State :=
  match table s !! i with
  | Some w =>
      match f w (lane k w) with
      | Some (l, evs) => Some (log evs (set_table (<[i := set_lane k l w]> (table s)) s))
      | None => None
      end
  | None => None
  end.

Definition dropped (e : SendError) (l : list Packet) : list Event := map (λ p, Finished p (Dropped e)) l.

(** The next message: of the backlog first, unless the context has ended, and then of the queue. *)
Definition take_next (s : State) (k : Kind) (w : Worker) (l : Lane) : option (Lane * list Event) :=
  match pc l, flight l with
  | Running, None =>
      match backlog l with
      | p :: rest =>
          if ctx_done s (w_ctx w) then
            match k with
            | Text => Some (set_backlog rest l, dropped ctx_error [p])
            | Media => Some (set_backlog [] l, dropped ctx_error (p :: rest))
            end
          else Some (set_flight (Some p) (set_backlog rest l), [Attempted (w_chan w) p])
      | [] =>
          match queue l with
          | p :: rest => Some (set_flight (Some p) (set_queue rest l), [Attempted (w_chan w) p])
          | [] => None
          end
      end
  | _, _ => None
  end.

(** [sendSplit] or [sendMediaWithRetry] returns. *)
Definition send_returns (r : option SendError) (_ : Worker) (l : Lane) : option (Lane * list Event) :=
  match flight l with
  | Some p => Some (set_flight None l, [Finished p (Sent r)])
  | None => None
  end.

(** The context has ended: a text worker tells those queued, a media worker returns. *)
Definition notice_done (s : State) (k : Kind) (w : Worker) (l : Lane) : option (Lane * list Event) :=
  match pc l, flight l, backlog l with
  | Running, None, [] => if ctx_done s (w_ctx w) then Some (set_pc (match k with Text => Draining | Media => Returning end) l, []) else None
  | _, _, _ => None
  end.

Definition drain_one (_ : Worker) (l : Lane) : option (Lane * list Event) :=
  match pc l, queue l with
  | Draining, p :: rest => Some (set_queue rest l, dropped ctx_error [p])
  | _, _ => None
  end.

(** The queue is empty: closed, or the drain's [default]. *)
Definition queue_empty (w : Worker) (l : Lane) : option (Lane * list Event) :=
  match pc l, flight l, backlog l, queue l with
  | Draining, None, [], [] => Some (set_pc Returning l, [])
  | Running, None, [], [] => if closed w then Some (set_pc Returning l, []) else None
  | _, _, _, _ => None
  end.

Definition lane_exits (_ : Worker) (l : Lane) : option (Lane * list Event) :=
  if bool_decide (pc l = Returning) then Some (set_pc Exited l, []) else None.

(** ** Starting (lifecycle.go) *)

(** [takeHeldLocked] *)
Definition takeHeld (n : string) (s : State) : State * (list Packet * list Packet) :=
  match held (maps s) !! n with
  | Some h => (on_maps (set_held (delete n (held (maps s)))) s, (h_text h, h_media h))
  | None => (s, ([], []))
  end.

(** [dropHeld] *)
Definition dropHeld (t m : list Packet) (s : State) : State := log (dropped not_running (t ++ m)) s.

Definition starting (ps : list Pending) : Ctl := match ps with [] => CtlIdle | _ => CtlStarting ps end.

Definition pend (c : Chan) : Pending := {| p_chan := c; p_cancelled := false |}.

Definition add_worker (w : Worker) (n : string) (s : State) : State :=
  on_maps (set_workers (<[n := length (table s)]> (workers (maps s)))) (set_table (table s ++ [w]) s).

(** [abandonStart] *)
Definition abandonStart (n : string) (s : State) : State :=
  let '(s, (t, m)) := takeHeld n s in dropHeld t m s.

(** [started], after the first [Start], whose result is [ok]. *)
Definition started (c : Chan) (ok : bool) (s : State) : State :=
  let '(s, (t, m)) := takeHeld (c_name c) s in
  if negb (bool_decide (dispatch s = Live)) || negb (bool_decide (channels (maps s) !! c_name c = Some c)) then dropHeld t m s
  else
    let ctx := next_ctx s in
    let s := on_maps (set_cancels (<[c_name c := ctx]> (cancels (maps s)))) (bump 1 0 0 s) in
    if ok then add_worker (new_worker c ctx t m) (c_name c) s
    else
      dropHeld t m (set_retriers (retriers s ++ [{| r_chan := c; r_ctx := ctx; calling := false; attempt := 1; backoff := StartRetryMin |}]) s).

Definition remove_at {A} (i : nat) (l : list A) : list A := take i l ++ list.drop (S i) l.

(** [StartAll], up to the starts. *)
Definition StartAll (s : State) : option State :=
  match ctl s, dispatch s with
  | CtlIdle, NotStarted =>
      let chs := map snd (map_to_list (channels (maps s))) in
      if bool_decide (chs = []) then None
      else
        Some (set_ctl (starting (map pend chs)) (set_disp Text DIdle (set_disp Media DIdle
               (on_maps (set_held (fmap (λ _, no_hold) (channels (maps s)))) (set_dispatch Live s)))))
  | _, _ => None
  end.

(** The [i]-th start in progress returns. *)
Definition start_returns (i : nat) (ok : bool) (s : State) : option State :=
  match ctl s with
  | CtlStarting ps =>
      match ps !! i with
      | Some p =>
          let c := p_chan p in
          let s := set_ctl (starting (remove_at i ps)) (if ok then set_up ({[ c ]} ∪ up s) s else s) in
          Some (if p_cancelled p then abandonStart (c_name c) s else started c ok s)
      | None => None
      end
  | _ => None
  end.

(** The first section of [StopAll]: the starts in progress are cancelled. *)
Definition cancel_starts (s : State) : option State :=
  match ctl s with
  | CtlStarting ps => Some (set_ctl (CtlStarting (map (λ p, {| p_chan := p_chan p; p_cancelled := true |}) ps)) s)
  | _ => Some s
  end.

(** *** Retries *)

Definition retry_wakes (i : nat) (s : State) : option State :=
  match retriers s !! i with
  | Some r =>
      if calling r then None
      else Some (set_retriers (<[i := {| r_chan := r_chan r; r_ctx := r_ctx r; calling := true; attempt := attempt r; backoff := backoff r |}]> (retriers s)) s)
  | None => None
  end.

Definition retry_quits (i : nat) (s : State) : option State :=
  match retriers s !! i with
  | Some r => if negb (calling r) && ctx_done s (r_ctx r) then Some (set_retriers (remove_at i (retriers s)) s) else None
  | None => None
  end.

(** [Start] returns: registered if the channel is still current, undone if not. *)
Definition retry_returns (i : nat) (ok : bool) (s : State) : option State :=
  match retriers s !! i with
  | Some r =>
      if negb (calling r) then None
      else if ok then
        if negb (mu_free s) then None
        else
          let c := r_chan r in
          let s' := set_retriers (remove_at i (retriers s)) s in
          if negb (ctx_done s (r_ctx r)) && bool_decide (channels (maps s) !! c_name c = Some c) then
            Some (set_up ({[ c ]} ∪ up s) (add_worker (new_worker c (r_ctx r) [] []) (c_name c) s'))
          else Some (log [Stopped c] (set_up (up s ∖ {[ c ]}) s'))
      else if ctx_done s (r_ctx r) then Some (set_retriers (remove_at i (retriers s)) s)
      else
        let r' := {| r_chan := r_chan r; r_ctx := r_ctx r; calling := false; attempt := S (attempt r); backoff := Z.min (backoff r * 2) StartRetryMax |} in
        Some (log (if attempt r =? StartRetryAlertAfter then [StartAlert (r_chan r)] else []) (set_retriers (<[i := r']> (retriers s)) s))
  | None => None
  end.

(** ** Reloading (reload.go) *)

(** [detachLocked] *)
Definition detachLocked (c : Chan) (rm : bool) (s : State) : State * Detached :=
  let n := c_name c in
  let w := workers (maps s) !! n in
  let ctx := cancels (maps s) !! n in
  let d := {| d_chan := c; d_worker := w; d_cancel := ctx; removed := rm; d_pc := SClose |} in
  let s := match w, ctx with None, Some x => set_ended ({[ x ]} ∪ ended s) s | _, _ => s end in
  (on_maps (λ m, set_cancels (delete n (cancels m)) (set_workers (delete n (workers m)) m)) s, d).

(** [ReloadResult], with what is to be stopped and built. *)
Record Sorting := { Kept : list string; Restarted : list string; Started : list string; StoppedNames : list string; stopping : list Detached; building : list channelSpec }.

Definition new_hold (running : bool) (n : string) (s : State) : State :=
  if running then on_maps (set_held (<[n := no_hold]> (held (maps s)))) s else s.

(** One spec of the plan. *)
Definition sort_spec (storeChanged : bool) (sp : channelSpec) (x : State * Sorting) : State * Sorting :=
  let '(s, r) := x in
  let n := name sp in
  let running := bool_decide (dispatch s = Live) in
  match channels (maps s) !! n with
  | Some c =>
      if negb storeChanged && negb (bool_decide (ChannelPlan.inputs sp = "")) && bool_decide (Some (ChannelPlan.inputs sp) = inputs (maps s) !! n) then
        (on_maps (λ m, set_specs (inputs m) (<[n := sp]> (specs m)) m) s,
         {| Kept := Kept r ++ [n]; Restarted := Restarted r; Started := Started r; StoppedNames := StoppedNames r; stopping := stopping r; building := building r |})
      else
        let '(s, d) := detachLocked c false s in
        (new_hold running n s,
         {| Kept := Kept r; Restarted := Restarted r ++ [n]; Started := Started r; StoppedNames := StoppedNames r; stopping := stopping r ++ [d]; building := building r ++ [sp] |})
  | None =>
      (new_hold running n s,
       {| Kept := Kept r; Restarted := Restarted r; Started := Started r ++ [n]; StoppedNames := StoppedNames r; stopping := stopping r; building := building r ++ [sp] |})
  end.

(** A channel that is not asked for any more. *)
Definition sort_gone (wanted : list string) (x : State * Sorting) (p : string * Chan) : State * Sorting :=
  let '(s, r) := x in
  let '(n, c) := p in
  if bool_decide (n ∈ wanted) then (s, r)
  else
    let '(s, d) := detachLocked c true s in
    (on_maps (λ m, set_specs (delete n (inputs m)) (delete n (specs m)) (set_channels (delete n (channels m)) m)) s,
     {| Kept := Kept r; Restarted := Restarted r; Started := Started r; StoppedNames := StoppedNames r ++ [n]; stopping := stopping r ++ [d]; building := building r |}).

Definition no_sorting : Sorting := {| Kept := []; Restarted := []; Started := []; StoppedNames := []; stopping := []; building := [] |}.

(** The critical section of [Reload]. *)
Definition sort_specs `{GoRange} (l : list channelSpec) (store : nat) (s : State) : State * Sorting :=
  let changed := negb (bool_decide (store = mediaStore s)) in
  let x := fold_left (λ x sp, sort_spec changed sp x) l (set_store store s, no_sorting) in
  fold_left (sort_gone (map name l)) (go_range (channels (maps x.1))) x.

(** What comes after the channels are stopped, and after they are built. *)
Definition built (toStart : list Chan) (s : State) : State :=
  set_ctl (if bool_decide (dispatch s = Live) then starting (map pend toStart) else CtlIdle) s.

Definition next_build (l : list channelSpec) (toStart : list Chan) (s : State) : State :=
  match l with [] => built toStart s | _ => set_ctl (CtlBuilding l toStart) s end.

Definition after_stop (ds : list Detached) (l : list channelSpec) (s : State) : State :=
  match ds with [] => next_build l [] s | _ => set_ctl (CtlStopping ds l) s end.

Definition Reload `{GoRange} (l : list channelSpec) (store : nat) (s : State) : option State :=
  match ctl s with
  | CtlIdle => let '(s, r) := sort_specs l store s in Some (after_stop (stopping r) (building r) s)
  | _ => None
  end.

(** The next channel is built, or not: the factory fails or declines. *)
Definition build_next (ok : bool) (s : State) : option State :=
  match ctl s with
  | CtlBuilding (sp :: l) toStart =>
      let n := name sp in
      if ok then
        let c := {| c_name := n; c_id := next_chan s |} in
        let s := on_maps (λ m, set_specs (<[n := ChannelPlan.inputs sp]> (inputs m)) (<[n := sp]> (specs m)) (set_channels (<[n := c]> (channels m)) m)) (bump 0 1 0 s) in
        Some (next_build l (toStart ++ [c]) s)
      else
        let s := on_maps (λ m, set_specs (delete n (inputs m)) (delete n (specs m)) (set_channels (delete n (channels m)) m)) s in
        let '(s, (t, m)) := takeHeld n s in
        Some (next_build l toStart (dropHeld t m s))
  | _ => None
  end.

(** ** Stopping *)

(** The channels the control is stopping, and whether [StopAll] does. *)
Definition detached_of (s : State) : option (list Detached * bool) :=
  match ctl s with CtlStopping ds _ => Some (ds, false) | CtlStopAll ds => Some (ds, true) | _ => None end.

Definition set_detached (ds : list Detached) (s : State) : State :=
  match ctl s with
  | CtlStopping _ l => after_stop ds l s
  | CtlStopAll _ => set_ctl (match ds with [] => CtlIdle | _ => CtlStopAll ds end) s
  | _ => s
  end.

Definition set_spc (p : StopPc) (d : Detached) : Detached :=
  {| d_chan := d_chan d; d_worker := d_worker d; d_cancel := d_cancel d; removed := removed d; d_pc := p |}.

(** No dispatcher waits in [enqueueOn] for worker [i], whose lock it holds. *)
Definition lock_free (i : nat) (s : State) : bool :=
  match d_text s with DBlocked _ j => negb (i =? j) | _ => true end && match d_media s with DBlocked _ j => negb (i =? j) | _ => true end.

Definition has_exited (i : nat) (s : State) : bool :=
  match table s !! i with Some w => bool_decide (pc (text w) = Exited) && bool_decide (pc (media w) = Exited) | None => true end.

(** [StopAll] closes all queues before it waits for any worker, and waits for all
    workers before it stops any channel. *)
Definition pc_rank (p : StopPc) : nat := match p with SClose => 0 | SWait | SGrace => 1 | SStop => 2 end.
Definition may_go (all : bool) (ds : list Detached) (d : Detached) : bool :=
  negb all || forallb (λ d', pc_rank (d_pc d) <=? pc_rank (d_pc d')) ds.

Inductive StopStep := StopClose | StopExited | StopTimeout | StopLeave | StopReturns.

(** [stopDetached] and [waitWorker], for the [i]-th channel being stopped. *)
Definition stop_step (i : nat) (c : StopStep) (s : State) : option State :=
  match detached_of s with
  | Some (ds, all) =>
      match ds !! i with
      | Some d =>
          if negb (may_go all ds d) then None
          else
            match c, d_pc d with
            | StopClose, SClose =>
                match d_worker d with
                | None => Some (set_detached (<[i := set_spc SStop d]> ds) s)
                | Some w =>
                    if negb (lock_free w s) then None
                    else Some (set_detached (<[i := set_spc SWait d]> ds) (set_table (alter set_closed w (table s)) s))
                end
            | StopExited, (SWait | SGrace) =>
                match d_worker d with
                | Some w => if has_exited w s then Some (set_detached (<[i := set_spc SStop d]> ds) s) else None
                | None => None
                end
            | StopTimeout, SWait =>
                Some (set_detached (<[i := set_spc SGrace d]> ds) (match d_cancel d with Some x => set_ended ({[ x ]} ∪ ended s) s | None => s end))
            | StopLeave, SGrace => Some (log [LeftBehind (c_name (d_chan d))] (set_detached (<[i := set_spc SStop d]> ds) s))
            | StopReturns, SStop =>
                let s := match d_cancel d with Some x => set_ended ({[ x ]} ∪ ended s) s | None => s end in
                Some (log [Stopped (d_chan d)] (set_detached (remove_at i ds) (set_up (up s ∖ {[ d_chan d ]}) s)))
            | _, _ => None
            end
      | None => None
      end
  | None => None
  end.

(** The critical section of [StopAll]. *)
Definition StopAll `{GoRange} (s : State) : option State :=
  match ctl s with
  | CtlIdle =>
      let s := set_dispatch (if bool_decide (dispatch s = Live) then Ended else dispatch s) s in
      let s := fold_left (λ s '(n, _), abandonStart n s) (go_range (held (maps s))) (on_maps (set_cancels ∅) s) in
      let ds := map (λ p, {| d_chan := p.2; d_worker := workers (maps s) !! p.1; d_cancel := None; removed := false; d_pc := SClose |}) (map_to_list (channels (maps s))) in
      Some (set_ctl (match ds with [] => CtlIdle | _ => CtlStopAll ds end) s)
  | _ => None
  end.

(** ** Runs *)

Inductive Label :=
| LPublish (k : Kind) (n : string) | LDispatcherEnds (k : Kind) | LRoute (k : Kind) | LLock (k : Kind) | LEnqueue (k : Kind) (c : SelectCase)
| LTake (i : nat) (k : Kind) | LSent (i : nat) (k : Kind) (r : option SendError) | LDone (i : nat) (k : Kind) | LDrain (i : nat) (k : Kind)
| LEmpty (i : nat) (k : Kind) | LExit (i : nat) (k : Kind)
| LStartAll | LStarted (i : nat) (ok : bool) | LCancelStarts | LRetry (i : nat) | LRetryQuits (i : nat) | LRetried (i : nat) (ok : bool)
| LReload (l : list channelSpec) (store : nat) | LBuild (ok : bool) | LStop (i : nat) (c : StopStep) | LStopAll.

Definition step `{GoRange} (l : Label) (s : State) : option State :=
  match l with
  | LPublish k n => publish k n s
  | LDispatcherEnds k => dispatcher_ends k s
  | LRoute k => route k s
  | LLock k => lock_worker k s
  | LEnqueue k c => enqueue k c s
  | LTake i k => on_lane i k (take_next s k) s
  | LSent i k r => on_lane i k (send_returns r) s
  | LDone i k => on_lane i k (notice_done s k) s
  | LDrain i k => on_lane i k drain_one s
  | LEmpty i k => on_lane i k queue_empty s
  | LExit i k => on_lane i k lane_exits s
  | LStartAll => StartAll s
  | LStarted i ok => start_returns i ok s
  | LCancelStarts => cancel_starts s
  | LRetry i => retry_wakes i s
  | LRetryQuits i => retry_quits i s
  | LRetried i ok => retry_returns i ok s
  | LReload l store => Reload l store s
  | LBuild ok => build_next ok s
  | LStop i c => stop_step i c s
  | LStopAll => StopAll s
  end.

Fixpoint run `{GoRange} (ls : list Label) (s : State) : option State :=
  match ls with
  | [] => Some s
  | l :: ls => match step l s with Some s' => run ls s' | None => None end
  end.

(** What a plan gives: each name once. The numbers of channels are those the
    manager was made with. *)
Definition label_ok (l : Label) : Prop := match l with LReload l _ => NoDup (map name l) | _ => True end.

(** [NewManager], after the channels of the plan were built: [chs] are those that could be. *)
Definition new_manager (l : list channelSpec) (store : nat) : State :=
  let chs := imap (λ i sp, (name sp, {| c_name := name sp; c_id := i |})) l in
  {| maps := {| channels := list_to_map chs; workers := ∅; cancels := ∅; inputs := list_to_map (map (λ sp, (name sp, ChannelPlan.inputs sp)) l);
                specs := list_to_map (map (λ sp, (name sp, sp)) l); held := ∅ |};
     mediaStore := store; dispatch := NotStarted; ended := ∅; next_ctx := 0; next_chan := length l; next_number := 0;
     table := []; retriers := []; d_text := DEnded; d_media := DEnded; ctl := CtlIdle; up := ∅; trace := [] |}.
