(* ===== verification/ChannelControl.v ===== *)
(** * What every step of the channel manager keeps

    Two groups of lemmas on the steps of ChannelManager: that a step loses no message
    ([moves]), and that the manager's maps agree with each other and with what is
    under way ([InvA]), among them that a channel that is up is current or about
    to be stopped. *)

From stdpp Require Import base gmap strings list sorting.
From Stdlib Require Import ZArith Lia.
From S2P Require Import Prelude GoString MessageSplit ChannelSend ChannelPlan ChannelManager.

Open Scope nat_scope.

(** ** Every message is somewhere *)

Definition published (l : list Event) : list Packet := omap (λ e, match e with Published p => Some p | _ => None end) l.
Definition finished (l : list Event) : list Packet := omap (λ e, match e with Finished p _ => Some p | _ => None end) l.

Definition hand (d : Dispatcher) : list Packet := match d with DLooking p | DTarget p _ | DBlocked p _ => [p] | _ => [] end.
Definition in_flight (l : Lane) : list Packet := match flight l with Some p => [p] | None => [] end.
Definition lane_packets (l : Lane) : list Packet := in_flight l ++ backlog l ++ queue l.
Definition worker_packets (w : Worker) : list Packet := lane_packets (text w) ++ lane_packets (media w).
Definition hold_packets (h : Hold) : list Packet := h_text h ++ h_media h.
Definition held_packets (m : gmap string Hold) : list Packet := flat_map (λ p, hold_packets p.2) (map_to_list m).

(** The messages taken off the bus whose delivery has not ended. *)
Definition waiting (s : State) : list Packet :=
  hand (d_text s) ++ hand (d_media s) ++ held_packets (held (maps s)) ++ flat_map worker_packets (table s).

(** From [s] to [s'] messages are published, moved and finished. *)
Definition moves (s s' : State) : Prop :=
  ∃ evs, trace s' = trace s ++ evs ∧ published evs ++ waiting s ≡ₚ finished evs ++ waiting s'.

Lemma published_app l1 l2 : published (l1 ++ l2) = published l1 ++ published l2.
Proof. apply omap_app. Qed.

Lemma finished_app l1 l2 : finished (l1 ++ l2) = finished l1 ++ finished l2.
Proof. apply omap_app. Qed.

Lemma finished_dropped e l : finished (dropped e l) = l ∧ published (dropped e l) = [].
Proof. induction l as [|p l [IH1 IH2]]; [done|]. cbn. by rewrite <- IH1 at 2. Qed.

Lemma moves_refl s : moves s s.
Proof. exists []. by rewrite app_nil_r. Qed.

Lemma moves_trans s1 s2 s3 : moves s1 s2 → moves s2 s3 → moves s1 s3.
Proof.
  intros (e1 & H1 & P1) (e2 & H2 & P2). exists (e1 ++ e2). rewrite H2, H1, <- app_assoc. split; [done|].
  rewrite published_app, finished_app, <- (app_assoc (finished e1)), <- P2, (Permutation_app_comm (published e1)), <- !app_assoc, P1. solve_Permutation.
Qed.

(** A step that only says something else. *)
Lemma moves_quiet s s' evs : trace s' = trace s ++ evs → published evs = [] → finished evs = [] → waiting s ≡ₚ waiting s' → moves s s'.
Proof. intros Ht Hp Hf Hw. exists evs. by rewrite Hp, Hf. Qed.

(** Messages that stop waiting are finished by what is said. *)
Lemma moves_finish s s' evs l : trace s' = trace s ++ evs → published evs = [] → finished evs = l → waiting s ≡ₚ l ++ waiting s' → moves s s'.
Proof. intros Ht Hp Hf Hw. exists evs. by rewrite Hp, Hf. Qed.

Lemma flat_map_insert {A B} (f : A → list B) (l : list A) i x :
  l !! i = Some x → ∃ rest, flat_map f l ≡ₚ f x ++ rest ∧ ∀ y, flat_map f (<[i:=y]> l) ≡ₚ f y ++ rest.
Proof.
  intros Hi. apply list_elem_of_split_length in Hi as (l1 & l2 & -> & ->). exists (flat_map f l1 ++ flat_map f l2). split.
  - rewrite flat_map_app. cbn. solve_Permutation.
  - intros y. rewrite insert_app_r_alt, Nat.sub_diag by done. cbn. rewrite flat_map_app. cbn. solve_Permutation.
Qed.

Lemma held_insert m n h : held_packets (<[n:=h]> m) ≡ₚ hold_packets h ++ held_packets (delete n m).
Proof. unfold held_packets. rewrite <- insert_delete_eq, map_to_list_insert by apply lookup_delete_eq. done. Qed.

Lemma held_delete m n h : m !! n = Some h → held_packets m ≡ₚ hold_packets h ++ held_packets (delete n m).
Proof. intros Hn. rewrite <- held_insert. by rewrite insert_id. Qed.

(** *** Steps of dispatchers and workers *)

Lemma publish_moves k n s s' : publish k n s = Some s' → moves s s'.
Proof.
  unfold publish. destruct (disp k s) eqn:Hd; try done. case_if; intros [= <-]; [apply moves_refl|].
  set (p := {| number := _; kind := k; to := n |}). exists [Published p]. split; [done|]. unfold waiting. destruct k; cbn in *; rewrite Hd; cbn; solve_Permutation.
Qed.

Lemma dispatcher_ends_moves k s s' : dispatcher_ends k s = Some s' → moves s s'.
Proof.
  unfold dispatcher_ends. destruct (disp k s) eqn:Hd; try done. case_if; [|done]. intros [= <-]. apply (moves_quiet _ _ []); [by rewrite app_nil_r|done|done|].
  unfold waiting. destruct k; cbn in *; by rewrite Hd.
Qed.

Lemma hold_adds h p h' : hold h p = Some h' → hold_packets h' ≡ₚ p :: hold_packets h.
Proof.
  unfold hold, hold_packets. case_if; [done|]. destruct (kind p); intros [= <-]; cbn; solve_Permutation.
Qed.

(** A dispatcher lets go of its message, which is dropped. *)
Lemma hand_drops k d d' p e s s' : disp k s = d → hand d = [p] → hand d' = [] → maps s' = maps s → table s' = table s → trace s' = trace s ++ [Finished p (Dropped e)] →
  d_text s' = match k with Text => d' | Media => d_text s end → d_media s' = match k with Text => d_media s | Media => d' end → moves s s'.
Proof.
  intros Hd Hh Hh' Hm Ht Htr H1 H2. apply (moves_finish _ _ [Finished p (Dropped e)] [p]); [done..|]. unfold waiting. rewrite Hm, Ht, H1, H2.
  destruct k; cbn in Hd; rewrite Hd, Hh, Hh'; cbn; solve_Permutation.
Qed.

Lemma route_moves k s s' : route k s = Some s' → moves s s'.
Proof.
  unfold route. destruct (disp k s) as [|p|p i|p i|] eqn:Hd; try done.
  case_if; [intros [= <-]; by eapply (hand_drops k _ DEnded p)|]. case_if; [done|].
  destruct (held (maps s) !! to p) as [h|] eqn:Hh.
  - destruct (hold h p) as [h'|] eqn:Hho; intros [= <-].
    + apply (moves_quiet _ _ []); [by rewrite app_nil_r|done|done|]. apply hold_adds in Hho. unfold waiting. cbn.
      rewrite held_insert, Hho, (held_delete _ _ _ Hh). destruct k; cbn in Hd; rewrite Hd; cbn; solve_Permutation.
    + apply (moves_finish _ _ [Finished p (Dropped not_running)] [p]); [done..|]. unfold waiting. cbn.
      rewrite held_insert, (held_delete _ _ _ Hh). destruct k; cbn in Hd; rewrite Hd; cbn; solve_Permutation.
  - destruct (channels (maps s) !! to p); [|intros [= <-]; by eapply (hand_drops k _ DIdle p)].
    destruct (workers (maps s) !! to p); intros [= <-]; [|by eapply (hand_drops k _ DIdle p)].
    apply (moves_quiet _ _ []); [by rewrite app_nil_r|done|done|]. unfold waiting. destruct k; cbn in Hd; by rewrite Hd.
Qed.

Lemma lock_worker_moves k s s' : lock_worker k s = Some s' → moves s s'.
Proof.
  unfold lock_worker. destruct (disp k s) as [|p|p i|p i|] eqn:Hd; try done. destruct (table s !! i) as [w|]; [|done]. intros [= <-].
  apply (moves_quiet _ _ []); [by rewrite app_nil_r|done|done|]. unfold waiting. destruct k; cbn in Hd; rewrite Hd; by destruct (closed w).
Qed.

Lemma worker_lane k w l : worker_packets (set_lane k l w) ≡ₚ lane_packets l ++ worker_packets (set_lane k (new_lane []) w).
Proof. unfold worker_packets. destruct k; cbn; solve_Permutation. Qed.

Lemma worker_lane_self k w : worker_packets w ≡ₚ lane_packets (lane k w) ++ worker_packets (set_lane k (new_lane []) w).
Proof. unfold worker_packets. destruct k; cbn; solve_Permutation. Qed.

Lemma enqueue_moves k c s s' : enqueue k c s = Some s' → moves s s'.
Proof.
  unfold enqueue. destruct (disp k s) as [|p|p i|p i|] eqn:Hd; try done. destruct (table s !! i) as [w|] eqn:Hi; [|done].
  destruct c; (case_if; [|done]); intros [= <-].
  - apply (moves_quiet _ _ []); [by rewrite app_nil_r|done|done|]. destruct (flat_map_insert worker_packets _ _ _ Hi) as (rest & Hr & Hr').
    unfold waiting. cbn. rewrite Hr, Hr', (worker_lane_self k w), (worker_lane k w). unfold lane_packets. cbn.
    destruct k; cbn in Hd; rewrite Hd; cbn; solve_Permutation.
  - apply (moves_quiet _ _ []); [by rewrite app_nil_r|done|done|]. unfold waiting. destruct k; cbn in Hd; by rewrite Hd.
  - by eapply (hand_drops k _ DEnded p).
Qed.

(** A goroutine's step keeps its messages or finishes them. *)
Definition lane_keeps (f : Worker → Lane → option (Lane * list Event)) : Prop :=
  ∀ w l l' evs, f w l = Some (l', evs) → published evs = [] ∧ lane_packets l ≡ₚ finished evs ++ lane_packets l'.

Lemma on_lane_moves i k f s s' : lane_keeps f → on_lane i k f s = Some s' → moves s s'.
Proof.
  intros Hf. unfold on_lane. destruct (table s !! i) as [w|] eqn:Hi; [|done]. destruct (f w (lane k w)) as [[l evs]|] eqn:Hl; [|done]. intros [= <-].
  destruct (Hf _ _ _ _ Hl) as [Hp Hk]. apply (moves_finish _ _ evs (finished evs)); [done..|]. destruct (flat_map_insert worker_packets _ _ _ Hi) as (rest & Hr & Hr').
  unfold waiting. cbn. rewrite Hr, Hr', (worker_lane_self k w), (worker_lane k w l), Hk. solve_Permutation.
Qed.

Lemma take_next_keeps s k : lane_keeps (take_next s k).
Proof.
  intros w [[] fl b q] l' evs; unfold take_next; cbn; try done. destruct fl; [done|]. destruct b as [|p b].
  - destruct q as [|p q]; [done|]. intros [= <- <-]. split; [done|]. unfold lane_packets. cbn. done.
  - destruct (finished_dropped ctx_error (p :: b)) as [Hfin Hpub].
    destruct (ctx_done s (w_ctx w)); [destruct k|]; intros [= <- <-]; [done| |done]. split; [exact Hpub|].
    change ((p :: b) ++ q ≡ₚ finished (dropped ctx_error (p :: b)) ++ q). by rewrite Hfin.
Qed.

Lemma send_returns_keeps r : lane_keeps (send_returns r).
Proof. intros w [p fl b q] l' evs. unfold send_returns. cbn. destruct fl; [|done]. by intros [= <- <-]. Qed.

Lemma notice_done_keeps s k : lane_keeps (notice_done s k).
Proof. intros w [[] [] [] q] l' evs; unfold notice_done; cbn; try done. case_if; [|done]. by intros [= <- <-]. Qed.

Lemma drain_one_keeps : lane_keeps drain_one.
Proof. intros w [[] fl b [|p q]] l' evs; unfold drain_one; cbn; try done. intros [= <- <-]. split; [done|]. unfold lane_packets. cbn. solve_Permutation. Qed.

Lemma queue_empty_keeps : lane_keeps queue_empty.
Proof. intros w [[] [] [] []] l' evs; unfold queue_empty; cbn; try done; [case_if; [|done]|]; by intros [= <- <-]. Qed.

Lemma lane_exits_keeps : lane_keeps lane_exits.
Proof. intros w l l' evs. unfold lane_exits. case_if; [|done]. by intros [= <- <-]. Qed.

(** *** Starting and stopping *)

Lemma takeHeld_waiting n s s' t m : takeHeld n s = (s', (t, m)) → trace s' = trace s ∧ waiting s ≡ₚ (t ++ m) ++ waiting s'.
Proof.
  unfold takeHeld. destruct (held (maps s) !! n) as [h|] eqn:Hh; intros [= <- <- <-]; (split; [done|]); [|done].
  unfold waiting. cbn. rewrite (held_delete _ _ _ Hh). unfold hold_packets. solve_Permutation.
Qed.

Lemma dropHeld_moves n s s' s2 t m : takeHeld n s = (s', (t, m)) → trace s2 = trace s' → waiting s2 ≡ₚ waiting s' → moves s (dropHeld t m s2).
Proof.
  intros [Ht Hw]%takeHeld_waiting Ht2 Hw2. destruct (finished_dropped not_running (t ++ m)) as [Hf Hp].
  apply (moves_finish _ _ (dropped not_running (t ++ m)) (t ++ m)); [cbn; by rewrite Ht2, Ht|done|done|]. rewrite Hw. by apply Permutation_app_head.
Qed.

Lemma abandon_moves n s : moves s (abandonStart n s).
Proof. unfold abandonStart. destruct (takeHeld n s) as [s' [t m]] eqn:Ht. by apply (dropHeld_moves n s s'). Qed.

Lemma started_moves c ok s : moves s (started c ok s).
Proof.
  unfold started. destruct (takeHeld (c_name c) s) as [s' [t m]] eqn:Ht. case_if; [by apply (dropHeld_moves (c_name c) s s')|].
  destruct ok; [|by apply (dropHeld_moves (c_name c) s s')]. apply takeHeld_waiting in Ht as [Ht Hw]. apply (moves_quiet _ _ []); [by rewrite app_nil_r|done|done|].
  rewrite Hw. unfold waiting. cbn. rewrite flat_map_app. cbn. rewrite app_nil_r. unfold worker_packets, lane_packets. cbn. rewrite !app_nil_r. solve_Permutation.
Qed.

(** A step that touches neither messages nor the trace. *)
Lemma moves_same s s' : trace s' = trace s → d_text s' = d_text s → d_media s' = d_media s → held (maps s') = held (maps s) → table s' = table s → moves s s'.
Proof. intros Ht H1 H2 H3 H4. apply (moves_quiet _ _ []); [by rewrite Ht, app_nil_r|done|done|]. unfold waiting. by rewrite H1, H2, H3, H4. Qed.

Lemma start_returns_moves i ok s s' : start_returns i ok s = Some s' → moves s s'.
Proof.
  unfold start_returns. destruct (ctl s); try done. destruct (ps !! i) as [p|]; [|done]. set (s1 := set_ctl _ _). intros [= <-].
  apply (moves_trans _ s1); [unfold s1; destruct ok; by apply moves_same|]. case_if; [apply abandon_moves|apply started_moves].
Qed.

Lemma retry_returns_moves i ok s s' : retry_returns i ok s = Some s' → moves s s'.
Proof.
  unfold retry_returns. destruct (retriers s !! i) as [r|]; [|done]. case_if; [done|]. destruct ok; [case_if; [done|]; case_if|case_if]; intros [= <-].
  - apply (moves_quiet _ _ []); [by rewrite app_nil_r|done|done|]. unfold waiting. cbn. rewrite flat_map_app. cbn. by rewrite !app_nil_r.
  - by apply (moves_quiet _ _ [Stopped (r_chan r)]).
  - by apply moves_same.
  - eapply moves_quiet; [done|by case_if|by case_if|done].
Qed.

Lemma worker_packets_closed w : worker_packets (set_closed w) = worker_packets w.
Proof. done. Qed.

Lemma table_closed i (t : list Worker) : flat_map worker_packets (alter set_closed i t) = flat_map worker_packets t.
Proof.
  revert i. induction t as [|w t IH]; intros i; [done|]. destruct i as [|i]; [done|].
  change (alter set_closed (S i) (w :: t)) with (w :: alter set_closed i t). cbn. by rewrite IH.
Qed.

Lemma next_build_same l ts s : trace (next_build l ts s) = trace s ∧ waiting (next_build l ts s) = waiting s.
Proof. by destruct l. Qed.

Lemma set_detached_same ds s : trace (set_detached ds s) = trace s ∧ waiting (set_detached ds s) = waiting s.
Proof. unfold set_detached. destruct (ctl s); try done. destruct ds; [apply next_build_same|done]. Qed.

Lemma set_detached_moves s ds s' evs : trace s' = trace s → waiting s ≡ₚ waiting s' → published evs = [] → finished evs = [] → moves s (log evs (set_detached ds s')).
Proof.
  intros Ht Hw Hp Hf. destruct (set_detached_same ds s') as [H1 H2].
  apply (moves_quiet _ _ evs); [cbn; by rewrite H1, Ht|done|done|]. change (waiting (log evs (set_detached ds s'))) with (waiting (set_detached ds s')). by rewrite H2.
Qed.

Lemma log_nil s : log [] s = s.
Proof. unfold log. rewrite app_nil_r. by destruct s. Qed.

Lemma stop_step_moves i c s s' : stop_step i c s = Some s' → moves s s'.
Proof.
  unfold stop_step. destruct (detached_of s) as [[ds all]|]; [|done]. destruct (ds !! i) as [d|]; [|done]. case_if; [done|].
  destruct c, (d_pc d); try done.
  - destruct (d_worker d) as [w|]; [case_if; [done|]|]; intros [= <-]; rewrite <- (log_nil (set_detached _ _)); apply set_detached_moves; try done.
    unfold waiting. cbn. by rewrite table_closed.
  - destruct (d_worker d) as [w|]; [|done]. case_if; [|done]. intros [= <-]; rewrite <- (log_nil (set_detached _ _)); by apply set_detached_moves.
  - destruct (d_worker d) as [w|]; [|done]. case_if; [|done]. intros [= <-]; rewrite <- (log_nil (set_detached _ _)); by apply set_detached_moves.
  - intros [= <-]; rewrite <- (log_nil (set_detached _ _)); apply set_detached_moves; try done; by destruct (d_cancel d).
  - intros [= <-]. by apply set_detached_moves.
  - intros [= <-]. apply set_detached_moves; try done; by destruct (d_cancel d).
Qed.

Lemma build_next_moves ok s s' : build_next ok s = Some s' → moves s s'.
Proof.
  unfold build_next. destruct (ctl s) as [| | |[|sp l] ts|]; try done. destruct ok; [intros [= <-]|].
  - match goal with |- moves _ (next_build _ _ ?x) => destruct (next_build_same l (ts ++ [{| c_name := name sp; c_id := next_chan s |}]) x) as [H1 H2] end.
    apply (moves_quiet _ _ []); [by rewrite H1, app_nil_r|done|done|by rewrite H2].
  - destruct (takeHeld _ _) as [s2 [t m]] eqn:Ht. intros [= <-].
    destruct (next_build_same l ts (dropHeld t m s2)) as [H1 H2].
    eapply (moves_trans _ (dropHeld t m s2)); [|apply (moves_quiet _ _ []); [by rewrite H1, app_nil_r|done|done|by rewrite H2]].
    eapply moves_trans; [|by eapply dropHeld_moves]. by apply moves_same.
Qed.

(** ** Channels, workers and retries *)

(** What the holder of [reloadMu] still has to start, to build and to stop. *)
Definition starts (c : Ctl) : list Chan := match c with CtlStarting ps => map p_chan ps | CtlBuilding _ ts => ts | _ => [] end.
Definition to_build (c : Ctl) : list string := match c with CtlStopping _ l | CtlBuilding l _ => map name l | _ => [] end.
Definition stops (c : Ctl) : list Detached := match c with CtlStopping ds _ | CtlStopAll ds => ds | _ => [] end.
Definition taken_out (c : Ctl) : list Detached := match c with CtlStopping ds _ => ds | _ => [] end.
Definition awaiting (c : Ctl) : list string := to_build c ++ map c_name (starts c).
Definition d_name (d : Detached) : string := c_name (d_chan d).

(** Workers and retries by the channel and the context they have. *)
Definition ids (s : State) : list (Chan * nat) := map (λ w, (w_chan w, w_ctx w)) (table s).
Definition rids (s : State) : list (Chan * nat) := map (λ r, (r_chan r, r_ctx r)) (retriers s).

(** The maps agree with each other and with what is under way: a name that is to be
    built or started has no worker and no context; a worker in the maps, and a
    retry that may still succeed, have the context the maps have for their name;
    and a channel that is up is the current one of its name or about to be
    stopped. *)
Record InvA (s : State) : Prop := {
  ia_names : ∀ n c, channels (maps s) !! n = Some c → c_name c = n ∧ c_id c < next_chan s;
  ia_held : ∀ n, is_Some (held (maps s) !! n) → n ∈ awaiting (ctl s) ∧ dispatch s = Live;
  ia_dom : ∀ n, is_Some (workers (maps s) !! n) ∨ is_Some (cancels (maps s) !! n) → is_Some (channels (maps s) !! n);
  ia_free : ∀ n, n ∈ awaiting (ctl s) ++ map d_name (taken_out (ctl s)) → workers (maps s) !! n = None ∧ cancels (maps s) !! n = None;
  ia_nodup : NoDup (awaiting (ctl s));
  ia_fresh : dispatch s = NotStarted → workers (maps s) = ∅ ∧ cancels (maps s) = ∅ ∧ ids s = [] ∧ rids s = [];
  ia_ctx : NoDup ((ids s).*2 ++ (rids s).*2) ∧ Forall (λ x, x < next_ctx s) ((ids s).*2 ++ (rids s).*2);
  ia_worker : ∀ n i, workers (maps s) !! n = Some i → ∃ c x, ids s !! i = Some (c, x) ∧ c_name c = n ∧ (dispatch s ≠ Ended → cancels (maps s) !! n = Some x);
  ia_retrier : ∀ c x, (c, x) ∈ rids s → ctx_done s x = false → cancels (maps s) !! c_name c = Some x;
  ia_stops : ∀ d i, d ∈ stops (ctl s) → d_worker d = Some i → ∃ c x, ids s !! i = Some (c, x) ∧ c_name c = d_name d;
  ia_starts : ∀ c, c ∈ starts (ctl s) → channels (maps s) !! c_name c = Some c;
  ia_up : ∀ c, c ∈ up s → channels (maps s) !! c_name c = Some c ∨ c ∈ map d_chan (stops (ctl s));
  ia_build : ∀ n c, n ∈ to_build (ctl s) → channels (maps s) !! n = Some c → c ∈ up s → c ∈ map d_chan (stops (ctl s))
}.

(** It says nothing of messages. *)
Lemma InvA_ext s s' :
  channels (maps s') = channels (maps s) → workers (maps s') = workers (maps s) → cancels (maps s') = cancels (maps s) →
  (∀ n, is_Some (held (maps s') !! n) → is_Some (held (maps s) !! n)) → dispatch s' = dispatch s → ended s' = ended s → next_ctx s' = next_ctx s →
  next_chan s' = next_chan s → ids s' = ids s → rids s' = rids s → ctl s' = ctl s → up s' = up s → InvA s → InvA s'.
Proof.
  intros E1 E2 E3 E4 E5 E6 E7 E8 E9 E10 E11 E12 []. split; rewrite ?E1, ?E2, ?E3, ?E5, ?E7, ?E8, ?E9, ?E10, ?E11, ?E12; try done.
  - intros n Hn. by apply ia_held0, E4.
  - intros c x. unfold ctx_done. rewrite E5, E6. apply ia_retrier0.
Qed.

Lemma ids_insert i w w' (t : list Worker) : t !! i = Some w → w_chan w' = w_chan w → w_ctx w' = w_ctx w →
  map (λ w, (w_chan w, w_ctx w)) (<[i:=w']> t) = map (λ w, (w_chan w, w_ctx w)) t.
Proof.
  intros Hi H1 H2. rewrite list_fmap_insert. apply list_insert_id. rewrite list_lookup_fmap, Hi. cbn. by rewrite H1, H2.
Qed.

Lemma lane_same k l w : w_chan (set_lane k l w) = w_chan w ∧ w_ctx (set_lane k l w) = w_ctx w ∧ closed (set_lane k l w) = closed w.
Proof. by destruct k. Qed.

Lemma on_lane_A i k f s s' : on_lane i k f s = Some s' → InvA s → InvA s'.
Proof.
  unfold on_lane. destruct (table s !! i) as [w|] eqn:Hi; [|done]. destruct (f _ _) as [[l evs]|]; [|done]. intros [= <-].
  apply InvA_ext; try done. unfold ids. cbn. by apply (ids_insert _ w); [|apply lane_same..].
Qed.

(** A step that only changes a dispatcher and the trace. *)
Lemma InvA_disp s s' : maps s' = maps s → dispatch s' = dispatch s → ended s' = ended s → next_ctx s' = next_ctx s → next_chan s' = next_chan s →
  table s' = table s → retriers s' = retriers s → ctl s' = ctl s → up s' = up s → InvA s → InvA s'.
Proof. intros E1 E2 E3 E4 E5 E6 E7 E8 E9. apply InvA_ext; try done; unfold ids, rids; by rewrite ?E1, ?E6, ?E7. Qed.

Lemma publish_A k n s s' : publish k n s = Some s' → InvA s → InvA s'.
Proof. unfold publish. destruct (disp k s); try done. case_if; intros [= <-]; [done|by apply InvA_disp]. Qed.

Lemma dispatcher_ends_A k s s' : dispatcher_ends k s = Some s' → InvA s → InvA s'.
Proof. unfold dispatcher_ends. destruct (disp k s); try done. case_if; [|done]. intros [= <-]. by apply InvA_disp. Qed.

Lemma route_A k s s' : route k s = Some s' → InvA s → InvA s'.
Proof.
  unfold route. destruct (disp k s) as [|p| | |]; try done. case_if; [intros [= <-]; by apply InvA_disp|]. case_if; [done|].
  destruct (held (maps s) !! to p) as [h|] eqn:Hh.
  - destruct (hold h p); intros [= <-]; apply InvA_ext; try done; cbn; intros n; (destruct (decide (n = to p)) as [->|]; [by rewrite Hh|by rewrite lookup_insert_ne]).
  - destruct (channels (maps s) !! to p); [destruct (workers (maps s) !! to p)|]; intros [= <-]; by apply InvA_disp.
Qed.

Lemma lock_worker_A k s s' : lock_worker k s = Some s' → InvA s → InvA s'.
Proof. unfold lock_worker. destruct (disp k s); try done. destruct (table s !! w); [|done]. intros [= <-]. by apply InvA_disp. Qed.

Lemma enqueue_A k c s s' : enqueue k c s = Some s' → InvA s → InvA s'.
Proof.
  unfold enqueue. destruct (disp k s) as [| | |p i|]; try done. destruct (table s !! i) as [w|] eqn:Hi; [|done].
  destruct c; (case_if; [|done]); intros [= <-]; [|by apply InvA_disp..]. apply InvA_ext; try done.
  unfold ids. cbn. by apply (ids_insert _ w); [|apply lane_same..].
Qed.

(** *** Starting *)

(** A hold ends. *)
Lemma takeHeld_held n s s' t m : takeHeld n s = (s', (t, m)) →
  s' = on_maps (set_held (delete n (held (maps s)))) s.
Proof.
  unfold takeHeld. destruct (held (maps s) !! n) eqn:Hn; intros [= <- <- <-]; [done|]. unfold on_maps, set_held. rewrite delete_id by done.
  by destruct s as [[] ? ? ? ? ? ? ? ? ? ? ? ? ?].
Qed.

Lemma starting_ctl ps : starts (starting ps) = map p_chan ps ∧ to_build (starting ps) = [] ∧ stops (starting ps) = [] ∧ taken_out (starting ps) = [].
Proof. by destruct ps. Qed.

Lemma remove_at_split {A} (l : list A) i x : l !! i = Some x → ∃ l1 l2, l = l1 ++ x :: l2 ∧ remove_at i l = l1 ++ l2.
Proof.
  intros Hi. apply list_elem_of_split_length in Hi as (l1 & l2 & -> & ->). exists l1, l2. split; [done|]. unfold remove_at.
  rewrite take_app_length. f_equal. rewrite drop_app_ge by lia. by replace (S (length l1) - length l1) with 1 by lia.
Qed.

(** A start that is over: its name is not awaited any more, and holds nothing. *)
Lemma start_over i ps p s : ctl s = CtlStarting ps → ps !! i = Some p → InvA s → ∀ u, (∀ c, c ∈ u → c = p_chan p ∨ c ∈ up s) →
  let s' := on_maps (set_held (delete (c_name (p_chan p)) (held (maps s)))) (set_ctl (starting (remove_at i ps)) (set_up u s)) in
  InvA s' ∧ c_name (p_chan p) ∉ awaiting (ctl s') ∧ workers (maps s') !! c_name (p_chan p) = None ∧ cancels (maps s') !! c_name (p_chan p) = None ∧
  channels (maps s') !! c_name (p_chan p) = Some (p_chan p).
Proof.
  intros Hc Hi [] u Hu. destruct (remove_at_split _ _ _ Hi) as (l1 & l2 & Hps & Hr). cbv zeta.
  destruct (starting_ctl (remove_at i ps)) as (S1 & S2 & S3 & S4).
  rewrite Hc in *. cbn in ia_held0, ia_free0, ia_nodup0, ia_starts0, ia_stops0, ia_up0, ia_build0. unfold awaiting in *. cbn in ia_held0, ia_free0, ia_nodup0.
  assert (Haw : ∀ n, n ∈ map c_name (map p_chan ps) → n = c_name (p_chan p) ∨ n ∈ map c_name (map p_chan (remove_at i ps))).
  { intros n. rewrite Hr, Hps, !map_app. cbn. rewrite !elem_of_app, elem_of_cons. naive_solver. }
  assert (Haw' : ∀ c, c ∈ map p_chan (remove_at i ps) → c ∈ map p_chan ps).
  { intros c. rewrite Hr, Hps, !map_app. cbn. rewrite !elem_of_app, elem_of_cons. naive_solver. }
  assert (Hnot : c_name (p_chan p) ∉ map c_name (map p_chan (remove_at i ps)) ∧ NoDup (map c_name (map p_chan (remove_at i ps)))).
  { rewrite Hps, !map_app in ia_nodup0. cbn in ia_nodup0. rewrite Hr, !map_app. split.
    - intros Hx. apply NoDup_app in ia_nodup0 as (_ & Hd & [Hn _]%NoDup_cons). rewrite elem_of_app in Hx. destruct Hx as [Hx|Hx]; [|done].
      apply (Hd _ Hx). by left.
    - apply NoDup_app in ia_nodup0 as (Ha & Hd & [_ Hb]%NoDup_cons). apply NoDup_app. split_and!; [done| |done]. intros x Hx Hx'. apply (Hd _ Hx). by right. }
  assert (Hin : p_chan p ∈ map p_chan ps) by (rewrite Hps, map_app; cbn; rewrite elem_of_app, elem_of_cons; tauto).
  split; [|split_and!].
  - split; unfold awaiting; cbn; rewrite ?S1, ?S2, ?S3, ?S4; try done; cbn.
    + intros n [h Hh]. apply lookup_delete_Some in Hh as [Hne Hh]. destruct (ia_held0 n) as [Hx Hy]; [by eexists|]. split; [|done]. destruct (Haw _ Hx); [congruence|done].
    + intros n Hn. rewrite app_nil_r in *. apply ia_free0. apply list_elem_of_fmap in Hn as (c & -> & Hc'). apply list_elem_of_fmap. exists c. split; [done|by apply Haw'].
    + apply Hnot.
    + intros c Hc'. by apply ia_starts0, Haw'.
    + intros c [->|Hc']%Hu; [left; by apply ia_starts0|by apply ia_up0].
    + intros n c Hn. by apply elem_of_nil in Hn.
  - unfold awaiting. cbn. rewrite S1, S2. apply Hnot.
  - apply ia_free0. rewrite app_nil_r. by apply list_elem_of_fmap_2.
  - apply ia_free0. rewrite app_nil_r. by apply list_elem_of_fmap_2.
  - by apply ia_starts0.
Qed.

Lemma ctx_fresh s : InvA s → next_ctx s ∉ (ids s).*2 ++ (rids s).*2.
Proof. intros [] Hin. destruct ia_ctx0 as [_ Hf]. rewrite Forall_forall in Hf. apply Hf in Hin. lia. Qed.

(** A name that is current and free gets a new context, with a worker or a retry. *)
Lemma new_context_A c (w : bool) s s' :
  InvA s → c_name c ∉ awaiting (ctl s) → c_name c ∉ map d_name (taken_out (ctl s)) → dispatch s = Live →
  workers (maps s) !! c_name c = None → cancels (maps s) !! c_name c = None → channels (maps s) !! c_name c = Some c →
  channels (maps s') = channels (maps s) → held (maps s') = held (maps s) → dispatch s' = dispatch s → ended s' = ended s → next_ctx s' = S (next_ctx s) → next_chan s' = next_chan s →
  ctl s' = ctl s → up s' = up s → cancels (maps s') = <[c_name c := next_ctx s]> (cancels (maps s)) →
  (if w then workers (maps s') = <[c_name c := length (table s)]> (workers (maps s)) ∧ ids s' = ids s ++ [(c, next_ctx s)] ∧ rids s' = rids s
   else workers (maps s') = workers (maps s) ∧ ids s' = ids s ∧ rids s' = rids s ++ [(c, next_ctx s)]) → InvA s'.
Proof.
  intros Hinv Hna Hnt Hlive Hw Hcan Hch E1 E2 E3 E4 E5 E6 E7 E8 E9 E10. pose proof (ctx_fresh _ Hinv) as Hfresh. destruct Hinv.
  assert (Hperm : (ids s').*2 ++ (rids s').*2 ≡ₚ next_ctx s :: ((ids s).*2 ++ (rids s).*2)).
  { destruct w; destruct E10 as (_ & -> & ->); rewrite fmap_app; cbn; solve_Permutation. }
  assert (Hids : ∀ i y, ids s !! i = Some y → ids s' !! i = Some y).
  { intros i y Hy. destruct w; destruct E10 as (_ & -> & _); [by apply lookup_app_l_Some|done]. }
  split; rewrite ?E1, ?E2, ?E3, ?E5, ?E6, ?E7, ?E8, ?E9; try done.
  - intros n Hn. destruct (decide (n = c_name c)) as [->|Hne]; [by eexists|]. apply ia_dom0. rewrite lookup_insert_ne in Hn by done.
    destruct w; destruct E10 as (E10 & _); rewrite E10 in Hn; [rewrite lookup_insert_ne in Hn by done|]; exact Hn.
  - intros n Hn. assert (n ≠ c_name c) by (intros ->; rewrite elem_of_app in Hn; tauto). rewrite lookup_insert_ne by done.
    destruct w; destruct E10 as (-> & _); rewrite ?lookup_insert_ne by done; by apply ia_free0.
  - by rewrite Hlive.
  - rewrite Hperm. destruct ia_ctx0 as [Hn Hf]. split; [by constructor|]. constructor; [lia|]. eapply Forall_impl; [exact Hf|]. intros x Hx. cbn in *. lia.
  - intros n i. destruct (decide (n = c_name c)) as [->|Hne].
    + destruct w; destruct E10 as (E10 & Ei & _); rewrite E10, ?Ei.
      * rewrite lookup_insert_eq. intros [= <-]. exists c, (next_ctx s). rewrite lookup_insert_eq. split; [|done].
        unfold ids. rewrite lookup_app_r by (by rewrite length_map). by rewrite length_map, Nat.sub_diag.
      * by rewrite Hw.
    + intros Hi. assert (Hi' : workers (maps s) !! n = Some i) by (destruct w; destruct E10 as (E10 & _); rewrite E10 in Hi; [rewrite lookup_insert_ne in Hi by done|]; exact Hi).
      destruct (ia_worker0 _ _ Hi') as (c' & x & Hx & Hcn & Hcx). exists c', x. split_and!; [by apply Hids|done|]. rewrite lookup_insert_ne by done. exact Hcx.
  - intros c' x Hin Hdone. unfold ctx_done in Hdone. rewrite E3, E4 in Hdone. change (ctx_done s x = false) in Hdone.
    assert (Hor : (c', x) ∈ rids s ∨ (c', x) = (c, next_ctx s)).
    { destruct w; destruct E10 as (_ & _ & E10); rewrite E10 in Hin; [by left|]. by rewrite elem_of_app, list_elem_of_singleton in Hin. }
    destruct Hor as [Hin'|[= -> ->]]; [|by rewrite lookup_insert_eq]. pose proof (ia_retrier0 _ _ Hin' Hdone) as Hr.
    rewrite lookup_insert_ne; [done|]. intros Heq. rewrite <- Heq in Hr. congruence.
  - intros d i Hd Hi. destruct (ia_stops0 _ _ Hd Hi) as (c' & x & Hx & Hn). exists c', x. split; [by apply Hids|done].
Qed.

Lemma set_up_id s : set_up (up s) s = s.
Proof. by destruct s. Qed.

Lemma dropHeld_A t m s : InvA s → InvA (dropHeld t m s).
Proof. by apply InvA_disp. Qed.

Lemma start_returns_A i ok s s' : start_returns i ok s = Some s' → InvA s → InvA s'.
Proof.
  unfold start_returns. destruct (ctl s) as [|ps| | |] eqn:Hc; try done. destruct (ps !! i) as [p|] eqn:Hi; [|done]. intros [= <-] Hinv.
  set (c := p_chan p). set (u := if ok then {[ c ]} ∪ up s else up s).
  assert (Hs1 : set_ctl (starting (remove_at i ps)) (if ok then set_up ({[ c ]} ∪ up s) s else s) = set_ctl (starting (remove_at i ps)) (set_up u s)).
  { unfold u. destruct ok; [done|]. by rewrite set_up_id. }
  rewrite Hs1. destruct (start_over i ps p s Hc Hi Hinv u) as (Hs2 & Hna & Hw & Hcan & Hch).
  { unfold u. destruct ok; [intros x; rewrite elem_of_union, elem_of_singleton; tauto|by right]. }
  fold c in Hna, Hw, Hcan, Hch. set (s1 := set_ctl _ _). set (s2 := on_maps _ (set_ctl (starting (remove_at i ps)) (set_up u s))) in *.
  assert (Hnt : c_name c ∉ map d_name (taken_out (ctl s2))).
  { unfold s2. cbn. rewrite (proj2 (proj2 (proj2 (starting_ctl _)))). by intros ?%elem_of_nil. }
  case_if; unfold abandonStart, started; destruct (takeHeld (c_name c) s1) as [s2' [t m]] eqn:Ht;
    (assert (E : s2' = s2) by (by apply takeHeld_held in Ht)); rewrite E; [by apply dropHeld_A|].
  case_if; [by apply dropHeld_A|]. apply orb_false_iff in Heqb0 as [Hlive%negb_false_iff%bool_decide_eq_true _].
  destruct ok; [|apply dropHeld_A].
  - apply (new_context_A c true s2); try done. split_and!; [done| |done]. unfold ids. cbn. by rewrite map_app.
  - apply (new_context_A c false s2); try done. split_and!; [done|done|]. unfold rids. cbn. by rewrite map_app.
Qed.

Lemma cancel_starts_A s s' : cancel_starts s = Some s' → InvA s → InvA s'.
Proof.
  unfold cancel_starts. destruct (ctl s) as [|ps| | |] eqn:Hc; intros [= <-]; try done. intros [].
  set (ps' := map (λ p, {| p_chan := p_chan p; p_cancelled := true |}) ps).
  assert (E : map p_chan ps' = map p_chan ps) by (unfold ps'; by rewrite map_map).
  rewrite Hc in *. split; cbn [set_ctl ctl maps dispatch ended next_ctx next_chan up ids rids table retriers]; unfold awaiting in *; cbn [starts to_build stops taken_out] in *; rewrite ?E; done.
Qed.

Lemma StartAll_A s s' : StartAll s = Some s' → InvA s → InvA s'.
Proof.
  unfold StartAll. destruct (ctl s) eqn:Hc, (dispatch s) eqn:Hd; try done. case_if; [done|]. intros [= <-] [].
  set (ps := map pend (map snd (map_to_list (channels (maps s))))). destruct (starting_ctl ps) as (S1 & S2 & S3 & S4).
  assert (E : map p_chan ps = map snd (map_to_list (channels (maps s)))) by (unfold ps; by rewrite map_map, map_id).
  assert (En : map c_name (map p_chan ps) = map fst (map_to_list (channels (maps s)))).
  { rewrite E, map_map. apply map_ext_in. intros [n c] Hin%list_elem_of_In%elem_of_map_to_list. cbn. by apply ia_names0. }
  destruct ia_fresh0 as (F1 & F2 & F3 & F4); [done|].
  split; unfold awaiting; cbn; rewrite ?S1, ?S2, ?S3, ?S4, ?F1, ?F2; try done.
  - intros n [h Hh]. rewrite En. split; [|done]. rewrite lookup_fmap in Hh. destruct (channels (maps s) !! n) as [c|] eqn:Hn; [|done].
    apply list_elem_of_fmap. exists (n, c). split; [done|]. by apply elem_of_map_to_list.
  - intros n [Hn|Hn]; by destruct Hn.
  - cbn. rewrite En. apply NoDup_fst_map_to_list.
  - intros c x. fold (rids s). rewrite F4. by intros ?%elem_of_nil.
  - intros d j Hd'. by apply elem_of_nil in Hd'.
  - intros c. rewrite E. intros ([n c'] & -> & Hin%elem_of_map_to_list)%list_elem_of_fmap. cbn. by rewrite (proj1 (ia_names0 _ _ Hin)).
  - intros c Hup. rewrite Hc in ia_up0. destruct (ia_up0 c Hup) as [?|Hx]; [by left|by apply elem_of_nil in Hx].
  - intros n c Hn. by apply elem_of_nil in Hn.
Qed.

(** *** Retries *)

Lemma rids_insert i r r' (l : list Retrier) : l !! i = Some r → r_chan r' = r_chan r → r_ctx r' = r_ctx r →
  map (λ r, (r_chan r, r_ctx r)) (<[i:=r']> l) = map (λ r, (r_chan r, r_ctx r)) l.
Proof.
  intros Hi H1 H2. rewrite list_fmap_insert. apply list_insert_id. rewrite list_lookup_fmap, Hi. cbn. by rewrite H1, H2.
Qed.

Lemma retry_wakes_A i s s' : retry_wakes i s = Some s' → InvA s → InvA s'.
Proof.
  unfold retry_wakes. destruct (retriers s !! i) as [r|] eqn:Hi; [|done]. case_if; [done|]. intros [= <-]. apply InvA_ext; try done.
  unfold rids. cbn. by apply (rids_insert _ r).
Qed.

(** A retry that is given up. *)
Lemma retry_gone_A i r s s' : retriers s !! i = Some r → retriers s' = remove_at i (retriers s) → maps s' = maps s → dispatch s' = dispatch s → ended s' = ended s →
  next_ctx s' = next_ctx s → next_chan s' = next_chan s → table s' = table s → ctl s' = ctl s → (∀ c, c ∈ up s' → c ∈ up s) → InvA s → InvA s'.
Proof.
  intros Hi E1 E2 E3 E4 E5 E6 E7 E8 Hup []. destruct (remove_at_split _ _ _ Hi) as (l1 & l2 & Hl & Hr).
  assert (Hids : ids s' = ids s) by (unfold ids; by rewrite E7).
  assert (Hperm : rids s ≡ₚ (r_chan r, r_ctx r) :: rids s') by (unfold rids; rewrite E1, Hr, Hl, !map_app; cbn; solve_Permutation).
  split; rewrite ?E2, ?E3, ?E5, ?E6, ?E8, ?Hids; try done.
  - intros Hd. destruct (ia_fresh0 Hd) as (? & ? & ? & Hx). rewrite Hx in Hperm. by apply Permutation_nil_cons in Hperm.
  - destruct ia_ctx0 as [Hn Hf]. assert (Hp2 : (ids s).*2 ++ (rids s).*2 ≡ₚ r_ctx r :: ((ids s).*2 ++ (rids s').*2)) by (rewrite Hperm; cbn; solve_Permutation).
    rewrite Hp2 in Hn, Hf. apply NoDup_cons in Hn as [_ Hn]. by apply Forall_cons in Hf as [_ Hf].
  - intros c x Hin. unfold ctx_done. rewrite E3, E4. apply ia_retrier0. rewrite Hperm. by right.
  - intros c Hc. by apply ia_up0, Hup.
  - intros n c Hn Hch Hc. by eapply ia_build0, Hup.
Qed.

Lemma retry_quits_A i s s' : retry_quits i s = Some s' → InvA s → InvA s'.
Proof. unfold retry_quits. destruct (retriers s !! i) as [r|] eqn:Hi; [|done]. case_if; [|done]. intros [= <-]. by eapply retry_gone_A. Qed.

(** A name with a retry that may still succeed is free. *)
Lemma retry_free s c x : InvA s → (c, x) ∈ rids s → ctx_done s x = false →
  workers (maps s) !! c_name c = None ∧ c_name c ∉ awaiting (ctl s) ++ map d_name (taken_out (ctl s)).
Proof.
  intros [] Hin Hd. pose proof (ia_retrier0 _ _ Hin Hd) as Hcan. split.
  - destruct (workers (maps s) !! c_name c) as [i|] eqn:Hw; [|done]. exfalso. destruct (ia_worker0 _ _ Hw) as (c' & x' & Hids & _ & Hx).
    assert (dispatch s ≠ Ended) as Hne by (intros He; unfold ctx_done in Hd; by rewrite He in Hd). specialize (Hx Hne). assert (x' = x) as -> by congruence.
    destruct ia_ctx0 as [Hn _]. apply NoDup_app in Hn as (_ & Hn & _). apply (Hn x).
    + apply list_elem_of_fmap. exists (c', x). split; [done|]. by apply list_elem_of_lookup_2 in Hids.
    + apply list_elem_of_fmap. by exists (c, x).
  - intros [_ Hn]%ia_free0. congruence.
Qed.

Lemma retry_returns_A i ok s s' : retry_returns i ok s = Some s' → InvA s → InvA s'.
Proof.
  unfold retry_returns. destruct (retriers s !! i) as [r|] eqn:Hi; [|done]. case_if; [done|]. destruct ok; [case_if; [done|]; case_if|case_if]; intros [= <-].
  - intros Hinv. apply andb_true_iff in Heqb1 as [Hd%negb_true_iff Hch%bool_decide_eq_true].
    assert (Hin : (r_chan r, r_ctx r) ∈ rids s) by (apply list_elem_of_fmap; exists r; split; [done|]; by eapply list_elem_of_lookup_2).
    destruct (retry_free s _ _ Hinv Hin Hd) as [Hw Hnot]. pose proof (ia_retrier _ Hinv _ _ Hin Hd) as Hcan.
    destruct (remove_at_split _ _ _ Hi) as (l1 & l2 & Hl & Hr). set (c := r_chan r) in *. destruct Hinv.
    set (s' := set_up _ _).
    assert (Hids : ids s' = ids s ++ [(c, r_ctx r)]) by (unfold ids; cbn; by rewrite map_app).
    assert (Hperm : rids s ≡ₚ (c, r_ctx r) :: rids s') by (unfold rids; cbn; rewrite Hr, Hl, !map_app; cbn; solve_Permutation).
    assert (Hctx : (ids s').*2 ++ (rids s').*2 ≡ₚ (ids s).*2 ++ (rids s).*2) by (rewrite Hids, Hperm, fmap_app; cbn; solve_Permutation).
    assert (Hold : ∀ j y, ids s !! j = Some y → ids s' !! j = Some y) by (intros j y Hj; rewrite Hids; by apply lookup_app_l_Some).
    split; cbn [s' set_up add_worker on_maps set_maps set_table set_retriers set_workers maps channels workers cancels held ctl dispatch next_ctx next_chan up table]; try done.
    + intros n Hn. destruct (decide (n = c_name c)) as [->|Hne]; [by eexists|]. apply ia_dom0. by rewrite lookup_insert_ne in Hn by done.
    + intros n Hn. assert (n ≠ c_name c) by (intros ->; tauto). rewrite lookup_insert_ne by done. by apply ia_free0.
    + intros Hns. destruct (ia_fresh0 Hns) as (_ & _ & _ & Hx). rewrite Hx in Hperm. by apply Permutation_nil_cons in Hperm.
    + by rewrite Hctx.
    + intros n j. destruct (decide (n = c_name c)) as [->|Hne].
      * rewrite lookup_insert_eq. intros [= <-]. exists c, (r_ctx r). rewrite Hids. split; [|done]. unfold ids. rewrite lookup_app_r by (by rewrite length_map). by rewrite length_map, Nat.sub_diag.
      * rewrite lookup_insert_ne by done. intros Hj. destruct (ia_worker0 _ _ Hj) as (c' & x & Hx & Hy). exists c', x. split; [by apply Hold|done].
    + intros c' x Hin' Hd'. apply ia_retrier0; [rewrite Hperm; by right|done].
    + intros d j Hdd Hj. destruct (ia_stops0 _ _ Hdd Hj) as (c' & x & Hx & Hn). exists c', x. split; [by apply Hold|done].
    + intros c' [->%elem_of_singleton|Hc']%elem_of_union; [by left|by apply ia_up0].
    + intros n c' Hn Hc' [->%elem_of_singleton|Hup]%elem_of_union; [|by eapply ia_build0].
      exfalso. apply Hnot. destruct (ia_names0 _ _ Hc') as [<- _]. unfold awaiting. rewrite !elem_of_app. by left; left.
  - eapply retry_gone_A; try done. cbn. intros c. rewrite elem_of_difference. tauto.
  - by eapply retry_gone_A.
  - apply InvA_ext; try done. unfold rids. cbn. by apply (rids_insert _ r).
Qed.

(** *** Reloading *)

(** The state of a reload in its critical section, as if what it has sorted so far
    were under way. *)
Definition sorting (s : State) (r : Sorting) : State := set_ctl (CtlStopping (stopping r) (building r)) s.

Lemma detach_A c rm ds l s : InvA (set_ctl (CtlStopping ds l) s) → channels (maps s) !! c_name c = Some c →
  let '(s', d) := detachLocked c rm s in
  InvA (set_ctl (CtlStopping (ds ++ [d]) l) s') ∧ d_chan d = c ∧ removed d = rm ∧ workers (maps s') !! c_name c = None ∧ cancels (maps s') !! c_name c = None ∧
  channels (maps s') = channels (maps s) ∧ dispatch s' = dispatch s.
Proof.
  intros Hinv Hch. set (d := (detachLocked c rm s).2). set (s' := (detachLocked c rm s).1).
  change (InvA (set_ctl (CtlStopping (ds ++ [d]) l) s') ∧ d_chan d = c ∧ removed d = rm ∧ workers (maps s') !! c_name c = None ∧ cancels (maps s') !! c_name c = None ∧
    channels (maps s') = channels (maps s) ∧ dispatch s' = dispatch s).
  pose proof (retry_free _ : ∀ c x, InvA (set_ctl (CtlStopping ds l) s) → _) as Hfree.
  set (s1 := match workers (maps s) !! c_name c, cancels (maps s) !! c_name c with None, Some x => set_ended ({[ x ]} ∪ ended s) s | _, _ => s end).
  assert (Hs1 : maps s1 = maps s ∧ dispatch s1 = dispatch s ∧ next_ctx s1 = next_ctx s ∧ next_chan s1 = next_chan s ∧ table s1 = table s ∧ retriers s1 = retriers s ∧ up s1 = up s ∧ ended s ⊆ ended s1).
  { unfold s1. destruct (workers (maps s) !! c_name c); [done|]. destruct (cancels (maps s) !! c_name c); [|done]. split_and!; try done. cbn. set_solver. }
  destruct Hs1 as (M & D & N1 & N2 & T & R & U & Hend).
  assert (Hs' : s' = on_maps (λ m, set_cancels (delete (c_name c) (cancels m)) (set_workers (delete (c_name c) (workers m)) m)) s1) by done.
  assert (Hdw : d_worker d = workers (maps s) !! c_name c) by done.
  split; [|split_and!; try done; rewrite Hs'; cbn; rewrite ?M; try done; apply lookup_delete_eq].
  assert (Hlive : ∀ c' x, (c', x) ∈ rids s → ctx_done s1 x = false → c_name c' ≠ c_name c ∧ ctx_done s x = false).
  { intros c' x Hin Hd. assert (Hd0 : ctx_done s x = false).
    { unfold ctx_done in *. rewrite D in Hd. apply orb_false_iff in Hd as [-> Hd]. apply bool_decide_eq_false in Hd. apply bool_decide_eq_false_2. set_solver. }
    split; [|done]. intros Heq. pose proof (ia_retrier _ Hinv _ _ Hin Hd0) as Hcan. cbn in Hcan. destruct (Hfree c' x Hinv Hin Hd0) as [Hw _]. cbn in Hw.
    rewrite Heq in Hcan, Hw. unfold s1 in Hd. rewrite Hw, Hcan in Hd. unfold ctx_done in Hd. cbn in Hd. apply orb_false_iff in Hd as [_ Hd].
    apply bool_decide_eq_false in Hd. set_solver. }
  clear Hfree. destruct Hinv. rewrite Hs'. cbn in *. unfold awaiting, ids, rids, ctx_done in *. cbn in *.
  split; unfold awaiting, ids, rids, ctx_done; cbn; rewrite ?M, ?D, ?N1, ?N2, ?T, ?R, ?U; try done.
  - intros n Hn. apply ia_dom0. destruct Hn as [[y Hn]|[y Hn]]; apply lookup_delete_Some in Hn as [_ Hn]; [left|right]; by eexists.
  - intros n Hn. destruct (decide (n = c_name c)) as [->|Hne]; [by rewrite !lookup_delete_eq|]. rewrite !lookup_delete_ne by done. apply ia_free0.
    rewrite map_app, !elem_of_app in *. cbn in Hn. rewrite list_elem_of_singleton in Hn. naive_solver.
  - intros Hns. destruct (ia_fresh0 Hns) as (E1 & E2 & ? & ?). by rewrite E1, E2, !delete_empty.
  - intros n j Hj. apply lookup_delete_Some in Hj as [Hne Hj]. destruct (ia_worker0 _ _ Hj) as (c' & x & Hx & Hy & Hz). exists c', x. split_and!; [done|done|].
    by rewrite lookup_delete_ne.
  - intros c' x Hin Hd. rewrite <- D in Hd. destruct (Hlive c' x Hin Hd) as [Hne Hd']. rewrite lookup_delete_ne by done. by apply ia_retrier0.
  - intros d' j. rewrite elem_of_app, list_elem_of_singleton. intros [Hd'| ->] Hj; [by apply (ia_stops0 d')|]. change (workers (maps s) !! c_name c = Some j) in Hj.
    destruct (ia_worker0 _ _ Hj) as (c' & x & Hx & Hy & _). by exists c', x.
  - intros c' Hc'. destruct (ia_up0 c' Hc') as [?|Hx]; [by left|]. right. rewrite map_app, elem_of_app. by left.
  - intros n c' Hn Hc' Hu. rewrite map_app, elem_of_app. left. by eapply ia_build0.
Qed.

Lemma add_build_A sp ds l s : InvA (set_ctl (CtlStopping ds l) s) → name sp ∉ map name l → workers (maps s) !! name sp = None → cancels (maps s) !! name sp = None →
  (∀ c, channels (maps s) !! name sp = Some c → c ∈ up s → c ∈ map d_chan ds) →
  InvA (set_ctl (CtlStopping ds (l ++ [sp])) (new_hold (bool_decide (dispatch s = Live)) (name sp) s)).
Proof.
  intros [] Hn Hw Hcan Hup. set (s' := new_hold _ _ s).
  assert (Hs' : channels (maps s') = channels (maps s) ∧ workers (maps s') = workers (maps s) ∧ cancels (maps s') = cancels (maps s) ∧ dispatch s' = dispatch s ∧ ended s' = ended s ∧
    next_ctx s' = next_ctx s ∧ next_chan s' = next_chan s ∧ table s' = table s ∧ retriers s' = retriers s ∧ up s' = up s) by (unfold s', new_hold; by case_if).
  destruct Hs' as (E1 & E2 & E3 & E4 & E5 & E6 & E7 & E8 & E9 & E10). unfold awaiting, ids, rids, ctx_done in *. cbn in *.
  split; unfold awaiting, ids, rids, ctx_done; cbn; rewrite ?E1, ?E2, ?E3, ?E4, ?E5, ?E6, ?E7, ?E8, ?E9, ?E10; try done; rewrite ?map_app, ?app_nil_r in *; cbn.
  - intros n [h Hh]. unfold s', new_hold in Hh. destruct (bool_decide (dispatch s = Live)) eqn:Hl.
    + apply bool_decide_eq_true in Hl. cbn in Hh. rewrite elem_of_app, list_elem_of_singleton. destruct (decide (n = name sp)) as [->|Hne]; [by split; [right|]|].
      rewrite lookup_insert_ne in Hh by done. destruct (ia_held0 n) as [? _]; [by eexists|]. split; [by left|done].
    + destruct (ia_held0 n) as [? Hl']; [by eexists|]. by rewrite bool_decide_eq_false in Hl.
  - intros n. rewrite !elem_of_app, list_elem_of_singleton. intros [[Hx| ->]|Hx]; [apply ia_free0; rewrite elem_of_app; by left|done|apply ia_free0; rewrite elem_of_app; by right].
  - apply NoDup_app. split_and!; [done| |apply NoDup_singleton]. intros x Hx Hx'%list_elem_of_singleton. by subst.
  - intros n c. rewrite elem_of_app, list_elem_of_singleton. intros [Hx| ->]; [by apply ia_build0|by apply Hup].
Qed.

Lemma sort_spec_A changed sp s r : InvA (sorting s r) → name sp ∉ map name (building r) →
  let '(s', r') := sort_spec changed sp (s, r) in InvA (sorting s' r') ∧ (∀ n, n ∈ map name (building r') → n = name sp ∨ n ∈ map name (building r)).
Proof.
  intros Hinv Hn. unfold sort_spec. destruct (channels (maps s) !! name sp) as [c|] eqn:Hch.
  - destruct (ia_names _ Hinv _ _ Hch) as [Hcn _]. case_if.
    { split; [|by right]. revert Hinv. by apply InvA_ext. }
    rewrite <- Hcn in Hch. pose proof (detach_A c false _ _ s Hinv Hch) as Hd. destruct (detachLocked c false s) as [s1 d].
    destruct Hd as (Hs1 & Hdc & _ & Hw & Hcan & Hchs & Hdis). rewrite Hcn in Hw, Hcan. cbn. rewrite <- Hdis. split.
    + apply add_build_A; try done. rewrite Hchs, <- Hcn. intros c' Hc' _. rewrite Hch in Hc'. injection Hc' as <-.
      cbn. rewrite map_app, elem_of_app. right. cbn. rewrite Hdc. by left.
    + cbn. intros n. rewrite map_app, elem_of_app. cbn. rewrite list_elem_of_singleton. tauto.
  - cbn. split.
    + apply (add_build_A sp (stopping r) (building r) s); try done; [| |intros c Hc; congruence];
        [destruct (workers (maps s) !! name sp) eqn:Hx|destruct (cancels (maps s) !! name sp) eqn:Hx]; try done;
        (destruct (ia_dom _ Hinv (name sp)) as [c Hc]; [cbn; rewrite Hx; eauto|cbn in Hc; congruence]).
    + intros n. rewrite map_app, elem_of_app. cbn. rewrite list_elem_of_singleton. tauto.
Qed.

(** A channel that is not asked for any more leaves the maps. *)
Lemma sort_gone_A wanted n c s r : InvA (sorting s r) → channels (maps s) !! n = Some c →
  let '(s', r') := sort_gone wanted (s, r) (n, c) in InvA (sorting s' r') ∧ (∀ n', n' ≠ n → channels (maps s') !! n' = channels (maps s) !! n').
Proof.
  intros Hinv Hch. unfold sort_gone. case_if; [done|]. destruct (ia_names _ Hinv _ _ Hch) as [Hcn _]. rewrite <- Hcn in Hch.
  pose proof (detach_A c true _ _ s Hinv Hch) as Hd. destruct (detachLocked c true s) as [s1 d]. destruct Hd as (Hs1 & Hdc & _ & Hw & Hcan & Hchs & Hdis).
  split; [|intros n' Hne; cbn; by rewrite lookup_delete_ne, Hchs]. destruct Hs1. unfold awaiting, ids, rids, ctx_done in *. cbn in *.
  split; unfold awaiting, ids, rids, ctx_done; cbn; try done.
  - intros n' c' Hx. apply lookup_delete_Some in Hx as [_ Hx]. by apply ia_names0.
  - intros n' Hn'. rewrite lookup_delete_ne; [by apply ia_dom0|]. intros <-. rewrite Hcn in Hw, Hcan. rewrite Hw, Hcan in Hn'. destruct Hn' as [[? ?]|[? ?]]; done.
  - intros c' Hc'. by apply elem_of_nil in Hc'.
  - intros c' Hc'. destruct (decide (c_name c' = n)) as [Heq|Hne].
    + right. destruct (ia_up0 c' Hc') as [Hx|Hx]; [|done]. rewrite Heq, <- Hcn, Hchs, Hch in Hx. injection Hx as <-. rewrite map_app, elem_of_app. right. cbn. rewrite Hdc. by left.
    + destruct (ia_up0 c' Hc') as [Hx|Hx]; [left; by rewrite lookup_delete_ne|by right].
  - intros n' c' Hn' Hx. apply lookup_delete_Some in Hx as [_ Hx]. by apply (ia_build0 n').
Qed.

Lemma sort_specs_A `{GoRange} l store s : NoDup (map name l) → InvA s → ctl s = CtlIdle →
  let '(s', r) := sort_specs l store s in InvA (sorting s' r).
Proof.
  intros Hnd Hinv Hc. unfold sort_specs. set (changed := negb _). set (f := λ x sp, sort_spec changed sp x).
  assert (H1 : ∀ l s r, NoDup (map name l) → InvA (sorting s r) → (∀ n, n ∈ map name (building r) → n ∉ map name l) →
    InvA (sorting (fold_left f l (s, r)).1 (fold_left f l (s, r)).2)).
  { clear -changed. clearbody changed. intros l0. induction l0 as [|sp l0 IH]; intros s0 r Hnd Hinv Hb; [done|]. cbn in Hnd. apply NoDup_cons in Hnd as [Hn Hnd].
    cbn [fold_left]. unfold f at 2 4. pose proof (sort_spec_A changed sp s0 r Hinv) as Hs. destruct (sort_spec changed sp (s0, r)) as [s1 r1].
    destruct Hs as [Hs Hb1]; [intros Hx; apply (Hb _ Hx); cbn; by left|]. apply IH; [done|done|]. intros n Hx Hin. destruct (Hb1 _ Hx) as [->|Hx']; [done|].
    apply (Hb _ Hx'). cbn. by right. }
  specialize (H1 l (set_store store s) no_sorting Hnd). destruct (fold_left f l (set_store store s, no_sorting)) as [s1 r1].
  assert (H2 : ∀ ps s r, NoDup (map fst ps) → InvA (sorting s r) → (∀ n c, (n, c) ∈ ps → channels (maps s) !! n = Some c) →
    let '(s', r') := fold_left (sort_gone (map name l)) ps (s, r) in InvA (sorting s' r')).
  { clear. intros ps. induction ps as [|[n c] ps IH]; intros s0 r Hnd Hinv Hch; [done|]. cbn in Hnd. apply NoDup_cons in Hnd as [Hn Hnd].
    cbn [fold_left]. pose proof (sort_gone_A (map name l) n c s0 r Hinv) as Hs. destruct (sort_gone (map name l) (s0, r) (n, c)) as [s1 r1].
    destruct Hs as [Hs Hsame]; [apply Hch; by left|]. apply IH; [done|done|]. intros n' c' Hin. rewrite Hsame; [apply Hch; by right|].
    intros ->. apply Hn. apply list_elem_of_fmap. by exists (n, c'). }
  apply H2; [apply go_range_NoDup| |intros n c; apply elem_of_go_range]. cbn. apply H1; [|by intros n ?%elem_of_nil].
  revert Hinv. unfold sorting. cbn. intros []. rewrite Hc in *. split; try done.
Qed.

Lemma built_A ts s : InvA (set_ctl (CtlBuilding [] ts) s) → InvA (built ts s).
Proof.
  intros []. unfold built. destruct (bool_decide (dispatch s = Live)) eqn:Hl; unfold awaiting, ids, rids, ctx_done in *; cbn in *.
  - destruct (starting_ctl (map pend ts)) as (S1 & S2 & S3 & S4). assert (E : map p_chan (map pend ts) = ts) by (by rewrite map_map, map_id).
    split; unfold awaiting, ids, rids, ctx_done; cbn; rewrite ?S1, ?S2, ?S3, ?S4, ?E; done.
  - split; unfold awaiting, ids, rids, ctx_done; cbn; try done.
    + intros n Hn. destruct (ia_held0 n Hn) as [_ Hx]. by apply bool_decide_eq_false in Hl.
    + intros n Hn. by apply elem_of_nil in Hn.
    + constructor.
    + intros c Hc. by apply elem_of_nil in Hc.
Qed.

Lemma next_build_A l ts s : InvA (set_ctl (CtlBuilding l ts) s) → InvA (next_build l ts s).
Proof. destruct l; [apply built_A|done]. Qed.

Lemma after_stop_A ds l s : InvA (set_ctl (CtlStopping ds l) s) → InvA (after_stop ds l s).
Proof.
  destruct ds as [|d ds]; [|done]. intros []. apply next_build_A. unfold awaiting in *. cbn in *. split; try done.
Qed.

Lemma Reload_A `{GoRange} l store s s' : NoDup (map name l) → Reload l store s = Some s' → InvA s → InvA s'.
Proof.
  unfold Reload. destruct (ctl s) eqn:Hc; try done. intros Hnd. pose proof (sort_specs_A l store s Hnd) as Hs. destruct (sort_specs l store s) as [s1 r].
  intros [= <-] Hinv. by apply after_stop_A, Hs.
Qed.

(** A built channel takes the place of the one of its name; one that was not built
    leaves its name free. *)
Lemma build_next_A ok s s' : build_next ok s = Some s' → InvA s → InvA s'.
Proof.
  unfold build_next. destruct (ctl s) as [| | |[|sp l] ts|] eqn:Hc; try done. set (n := name sp). intros Hs Hinv.
  assert (Hnd : n ∉ map name l ∧ n ∉ map c_name ts ∧ NoDup (map name l ++ map c_name ts)).
  { pose proof (ia_nodup _ Hinv) as Hx. rewrite Hc in Hx. unfold awaiting in Hx. cbn in Hx. apply NoDup_cons in Hx as [Hx Hy]. rewrite elem_of_app in Hx. tauto. }
  destruct Hnd as (Hnl & Hnts & Hnd). destruct (ia_free _ Hinv n) as [Hw Hcan]; [rewrite Hc; unfold awaiting; cbn; by left|].
  assert (Hold : ∀ c, c ∈ up s → channels (maps s) !! c_name c = Some c ∧ c_name c ≠ n).
  { intros c Hup. destruct (ia_up _ Hinv c Hup) as [Hch|Hx]; [|rewrite Hc in Hx; by apply elem_of_nil in Hx]. split; [done|]. intros Heq.
    assert (Hx : c ∈ map d_chan (stops (ctl s))); [|rewrite Hc in Hx; by apply elem_of_nil in Hx].
    apply (ia_build _ Hinv n); [rewrite Hc; by left|by rewrite <- Heq|done]. }
  destruct Hinv. rewrite Hc in *. unfold awaiting, ids, rids, ctx_done in *. cbn in *. destruct ok; [injection Hs as <-|].
  - apply next_build_A. set (c := {| c_name := n; c_id := next_chan s |}).
    assert (Hp : map name l ++ map c_name (ts ++ [c]) ≡ₚ n :: map name l ++ map c_name ts) by (rewrite map_app; cbn; solve_Permutation).
    split; unfold awaiting, ids, rids, ctx_done; cbn; try done.
    + intros n' c'. destruct (decide (n' = n)) as [->|Hne]; [rewrite lookup_insert_eq; intros [= <-]; cbn; split; [done|lia]|].
      rewrite lookup_insert_ne by done. intros Hx. destruct (ia_names0 _ _ Hx). split; [done|lia].
    + intros n' Hx. rewrite Hp. by apply ia_held0.
    + intros n' Hx. destruct (decide (n' = n)) as [->|Hne]; [rewrite lookup_insert_eq; by eexists|]. rewrite lookup_insert_ne by done. by apply ia_dom0.
    + intros n'. rewrite app_nil_r, Hp. intros Hx. apply ia_free0. by rewrite app_nil_r.
    + rewrite Hp. done.
    + intros c'. rewrite elem_of_app, list_elem_of_singleton. intros [Hx| ->]; [|by rewrite lookup_insert_eq]. rewrite lookup_insert_ne; [by apply ia_starts0|].
      intros Heq. apply Hnts. change (name sp) with n in Heq. rewrite Heq. by apply list_elem_of_fmap_2.
    + intros c' Hup. left. destruct (Hold c' Hup) as [Hx Hne]. rewrite lookup_insert_ne; [done|congruence].
    + intros n' c' Hn' Hx Hup. destruct (Hold c' Hup) as [Hy _]. assert (n' ≠ n) by (intros ->; done). rewrite lookup_insert_ne in Hx by done.
      apply (ia_build0 n'); [by right|done|done].
  - destruct (takeHeld n _) as [s2 [t m]] eqn:Ht. injection Hs as <-. apply takeHeld_held in Ht. apply next_build_A.
    assert (Hp : n :: map name l ++ map c_name ts ≡ₚ n :: (map name l ++ map c_name ts)) by done.
    rewrite Ht. split; unfold awaiting, ids, rids, ctx_done; cbn; try done.
    + intros n' c' Hx. apply lookup_delete_Some in Hx as [_ Hx]. by apply ia_names0.
    + intros n' [h Hx]. apply lookup_delete_Some in Hx as [Hne Hx]. destruct (ia_held0 n') as [Hy Hl]; [by eexists|]. split; [|done].
      apply elem_of_cons in Hy as [Hy|Hy]; [by rewrite Hy in Hne|done].
    + intros n' Hx. rewrite lookup_delete_ne; [by apply ia_dom0|]. intros <-. change (name sp) with n in Hx. rewrite Hw, Hcan in Hx. by destruct Hx as [[? ?]|[? ?]].
    + intros n' Hx. apply ia_free0. by right.
    + intros c' Hx. rewrite lookup_delete_ne; [by apply ia_starts0|]. intros Heq. change (name sp) with n in Heq. apply Hnts. rewrite Heq. by apply list_elem_of_fmap_2.
    + intros c' Hup. left. destruct (Hold c' Hup) as [Hx Hne]. rewrite lookup_delete_ne; [done|congruence].
    + intros n' c' Hn' Hx Hup. apply lookup_delete_Some in Hx as [_ Hx]. apply (ia_build0 n'); [by right|done|done].
Qed.

(** *** Stopping *)

(** The channels being stopped go on, or some are stopped. *)
Lemma set_detached_A s s0 ds ds' all : detached_of s = Some (ds, all) → InvA s →
  maps s0 = maps s → dispatch s0 = dispatch s → ended s ⊆ ended s0 → next_ctx s0 = next_ctx s → next_chan s0 = next_chan s → ids s0 = ids s → rids s0 = rids s → ctl s0 = ctl s →
  (∀ c, c ∈ up s0 → c ∈ up s ∧ (c ∈ map d_chan ds → c ∈ map d_chan ds')) →
  (∀ d', d' ∈ ds' → ∃ d, d ∈ ds ∧ d_chan d' = d_chan d ∧ d_worker d' = d_worker d) → InvA (set_detached ds' s0).
Proof.
  intros Hd [] M D E N1 N2 I R C U W. unfold set_detached, detached_of in *. rewrite C.
  assert (Hret : ∀ c x, (c, x) ∈ rids s → ctx_done s0 x = false → cancels (maps s) !! c_name c = Some x).
  { intros c x Hin Hx. apply ia_retrier0; [done|]. unfold ctx_done in *. rewrite D in Hx. apply orb_false_iff in Hx as [-> Hx]. apply bool_decide_eq_false in Hx. apply bool_decide_eq_false_2. set_solver. }
  assert (Hst : ∀ d' i, d' ∈ ds' → d_worker d' = Some i → ∃ c x, ids s !! i = Some (c, x) ∧ c_name c = d_name d').
  { intros d' i Hin Hi. destruct (W _ Hin) as (d & Hdd & Hc & Hw). unfold d_name. rewrite Hc. apply (ia_stops0 d); [destruct (ctl s); by simplify_eq|congruence]. }
  destruct (ctl s) as [| |ds0 l| |ds0]; simplify_eq; unfold awaiting in *; cbn in *.
  - apply after_stop_A. split; unfold awaiting; cbn [set_ctl ctl maps dispatch next_ctx next_chan up starts to_build stops taken_out]; rewrite ?M, ?D, ?N1, ?N2; try done.
    + intros n Hn. apply ia_free0. rewrite !elem_of_app in *. destruct Hn as [Hn|Hn]; [by left|right]. apply list_elem_of_fmap in Hn as (d' & -> & Hin).
      destruct (W _ Hin) as (d & Hdd & Hc & _). apply list_elem_of_fmap. exists d. unfold d_name. by rewrite Hc.
    + change (dispatch s = NotStarted → workers (maps s) = ∅ ∧ cancels (maps s) = ∅ ∧ ids s0 = [] ∧ rids s0 = []). by rewrite I, R.
    + change (NoDup ((ids s0).*2 ++ (rids s0).*2) ∧ Forall (λ x, x < next_ctx s) ((ids s0).*2 ++ (rids s0).*2)). by rewrite I, R.
    + change (ids (set_ctl _ s0)) with (ids s0). by rewrite I.
    + change (rids (set_ctl _ s0)) with (rids s0). by rewrite R.
    + change (ids (set_ctl _ s0)) with (ids s0). by rewrite I.
    + intros c [Hc Hc']%U. destruct (ia_up0 c Hc) as [?|Hx]; [by left|right; by apply Hc'].
    + intros n c Hn Hch [Hc Hc']%U. apply Hc'. by apply (ia_build0 n).
  - set (c' := match ds' with [] => CtlIdle | _ => CtlStopAll ds' end).
    assert (Hc' : starts c' = [] ∧ to_build c' = [] ∧ taken_out c' = [] ∧ stops c' = ds') by (unfold c'; by destruct ds'). destruct Hc' as (C1 & C2 & C3 & C4).
    split; unfold awaiting; cbn [set_ctl ctl maps dispatch next_ctx next_chan up]; rewrite ?M, ?D, ?N1, ?N2, ?C1, ?C2, ?C3, ?C4; try done.
    + change (dispatch s = NotStarted → workers (maps s) = ∅ ∧ cancels (maps s) = ∅ ∧ ids s0 = [] ∧ rids s0 = []). by rewrite I, R.
    + change (NoDup ((ids s0).*2 ++ (rids s0).*2) ∧ Forall (λ x, x < next_ctx s) ((ids s0).*2 ++ (rids s0).*2)). by rewrite I, R.
    + change (ids (set_ctl _ s0)) with (ids s0). by rewrite I.
    + change (rids (set_ctl _ s0)) with (rids s0). by rewrite R.
    + change (ids (set_ctl _ s0)) with (ids s0). by rewrite I.
    + intros c [Hc Hx']%U. destruct (ia_up0 c Hc) as [?|Hx]; [by left|right; by apply Hx'].
    + intros n c Hn. by apply elem_of_nil in Hn.
Qed.

Lemma ids_closed i (t : list Worker) : map (λ w, (w_chan w, w_ctx w)) (alter set_closed i t) = map (λ w, (w_chan w, w_ctx w)) t.
Proof.
  revert i. induction t as [|w t IH]; intros i; [done|]. destruct i as [|i]; [done|].
  change (alter set_closed (S i) (w :: t)) with (w :: alter set_closed i t). cbn. by rewrite IH.
Qed.

Lemma stop_step_A i c s s' : stop_step i c s = Some s' → InvA s → InvA s'.
Proof.
  unfold stop_step. destruct (detached_of s) as [[ds all]|] eqn:Hd; [|done]. destruct (ds !! i) as [d|] eqn:Hi; [|done]. case_if; [done|]. intros Hs Hinv.
  assert (Hmove : ∀ p s0, maps s0 = maps s → dispatch s0 = dispatch s → ended s ⊆ ended s0 → next_ctx s0 = next_ctx s → next_chan s0 = next_chan s → ids s0 = ids s →
    rids s0 = rids s → ctl s0 = ctl s → up s0 = up s → InvA (set_detached (<[i := set_spc p d]> ds) s0)).
  { intros p s0 E1 E2 E3 E4 E5 E6 E7 E8 E9. apply (set_detached_A s s0 ds _ all); try done.
    - intros c0 Hc0. rewrite E9 in Hc0. split; [done|]. rewrite list_fmap_insert. cbn. rewrite list_insert_id; [done|]. by rewrite list_lookup_fmap, Hi.
    - intros d' Hd'. apply list_elem_of_lookup in Hd' as [j Hj]. destruct (decide (i = j)) as [<-|Hne].
      + rewrite list_lookup_insert_eq in Hj by (by eapply lookup_lt_Some). injection Hj as <-. exists d. split; [by eapply list_elem_of_lookup_2|done].
      + rewrite list_lookup_insert_ne in Hj by done. exists d'. split; [by eapply list_elem_of_lookup_2|done]. }
  destruct c, (d_pc d); try done.
  - destruct (d_worker d) as [w|]; [case_if_in Hs; [done|]|]; injection Hs as <-; apply Hmove; try done. unfold ids. cbn. apply ids_closed.
  - destruct (d_worker d) as [w|]; [|done]. case_if_in Hs; [|done]. injection Hs as <-. by apply Hmove.
  - destruct (d_worker d) as [w|]; [|done]. case_if_in Hs; [|done]. injection Hs as <-. by apply Hmove.
  - injection Hs as <-. apply Hmove; destruct (d_cancel d); try done. cbn. set_solver.
  - injection Hs as <-. apply InvA_disp with (set_detached (<[i := set_spc SStop d]> ds) s); try done. by apply Hmove.
  - injection Hs as <-. set (s1 := match d_cancel d with Some x => _ | None => s end).
    apply InvA_disp with (set_detached (remove_at i ds) (set_up (up s1 ∖ {[d_chan d]}) s1)); try done.
    destruct (remove_at_split _ _ _ Hi) as (l1 & l2 & Hl & Hr).
    apply (set_detached_A s _ ds _ all); try done; try (unfold s1; by destruct (d_cancel d)).
    + unfold s1. destruct (d_cancel d); [cbn; set_solver|done].
    + intros c0. cbn. rewrite elem_of_difference, not_elem_of_singleton. intros [Hc0 Hne]. split; [unfold s1 in Hc0; by destruct (d_cancel d)|].
      rewrite Hr, Hl, !map_app. cbn. rewrite !elem_of_app, elem_of_cons. tauto.
    + intros d' Hd'. exists d'. rewrite Hr in Hd'. rewrite Hl. split; [|done]. rewrite elem_of_app, elem_of_cons. rewrite elem_of_app in Hd'. tauto.
Qed.

(** Nothing is held when nothing is under way. *)
Lemma idle_no_hold s : InvA s → ctl s = CtlIdle → held (maps s) = ∅.
Proof.
  intros Hinv Hc. apply map_empty. intros n. apply eq_None_not_Some. intros Hh. destruct (ia_held _ Hinv n Hh) as [Hx _]. rewrite Hc in Hx. by apply elem_of_nil in Hx.
Qed.

Lemma go_range_nothing `{GoRange} {V} : go_range (∅ : gmap string V) = [].
Proof. apply Permutation_nil_r. by rewrite go_range_perm, map_to_list_empty. Qed.

(** The critical section of [StopAll], which finds nothing held. *)
Lemma StopAll_eq `{GoRange} s s' : StopAll s = Some s' → InvA s →
  let ds := map (λ p, {| d_chan := p.2; d_worker := workers (maps s) !! p.1; d_cancel := None; removed := false; d_pc := SClose |}) (map_to_list (channels (maps s))) in
  s' = set_ctl (match ds with [] => CtlIdle | _ => CtlStopAll ds end) (on_maps (set_cancels ∅) (set_dispatch (if bool_decide (dispatch s = Live) then Ended else dispatch s) s)).
Proof.
  unfold StopAll. destruct (ctl s) eqn:Hc; try done. intros [= <-] Hinv. cbn. by rewrite (idle_no_hold _ Hinv Hc), go_range_nothing.
Qed.

Lemma StopAll_A `{GoRange} s s' : StopAll s = Some s' → InvA s → InvA s'.
Proof.
  intros Hs Hinv. pose proof (StopAll_eq _ _ Hs Hinv) as ->. unfold StopAll in Hs. destruct (ctl s) eqn:Hc; try done. clear Hs.
  pose proof (idle_no_hold _ Hinv Hc) as Hheld. destruct Hinv. set (ds := map _ (map_to_list (channels (maps s)))).
  assert (Hds : ∀ d, d ∈ ds → channels (maps s) !! d_name d = Some (d_chan d) ∧ d_worker d = workers (maps s) !! d_name d).
  { intros d ([n c] & -> & Hin%elem_of_map_to_list)%list_elem_of_fmap. cbn in *. unfold d_name. cbn. by rewrite (proj1 (ia_names0 _ _ Hin)). }
  set (c' := match ds with [] => CtlIdle | _ => CtlStopAll ds end).
  assert (Hc' : starts c' = [] ∧ to_build c' = [] ∧ taken_out c' = [] ∧ stops c' = ds) by (unfold c'; by destruct ds). destruct Hc' as (C1 & C2 & C3 & C4).
  rewrite Hc in *. unfold ids, rids, ctx_done, awaiting in *. cbn in *.
  split; unfold ids, rids, ctx_done, awaiting; cbn; rewrite ?C1, ?C2, ?C3, ?C4; try done.
  - intros n. rewrite Hheld. by intros [? ?].
  - intros n [Hn|[? Hn]]; [by apply ia_dom0; left|done].
  - intros n Hn. by apply elem_of_nil in Hn.
  - intros Hd. assert (Hns : dispatch s = NotStarted) by (by destruct (dispatch s)). destruct (ia_fresh0 Hns) as (? & ? & ? & ?). done.
  - intros n i Hi. destruct (ia_worker0 _ _ Hi) as (c & x & Hx & Hn & Hcx). exists c, x. split_and!; [done|done|]. intros Hd. exfalso. apply Hd.
    destruct (dispatch s) eqn:Hdis; try done. destruct (ia_fresh0 eq_refl) as (E & _). by rewrite E in Hi.
  - intros c x Hin Hd. exfalso. destruct (dispatch s) eqn:Hdis; try done. destruct (ia_fresh0 eq_refl) as (_ & _ & _ & E). rewrite E in Hin. by apply elem_of_nil in Hin.
  - intros d i Hd Hi. destruct (Hds d Hd) as [_ Hw]. rewrite Hw in Hi. destruct (ia_worker0 _ _ Hi) as (c & x & Hx & Hn & _). by exists c, x.
  - intros c Hup. destruct (ia_up0 c Hup) as [?|Hx]; [by left|by apply elem_of_nil in Hx].
  - intros n c Hn. by apply elem_of_nil in Hn.
Qed.

(** *** Every state *)

Lemma step_A `{GoRange} l s s' : label_ok l → step l s = Some s' → InvA s → InvA s'.
Proof.
  destruct l; cbn; intros Hok Hs; eauto using publish_A, dispatcher_ends_A, route_A, lock_worker_A, enqueue_A, on_lane_A, StartAll_A, start_returns_A, cancel_starts_A,
    retry_wakes_A, retry_quits_A, retry_returns_A, Reload_A, build_next_A, stop_step_A, StopAll_A.
Qed.

(** *** Messages through the control's steps *)

(** The dispatchers run only once the channels are started. *)
Definition quiet_before (s : State) : Prop := dispatch s = NotStarted → d_text s = DEnded ∧ d_media s = DEnded.

Lemma held_no_holds (m : gmap string Chan) : held_packets (fmap (λ _, no_hold) m) = [].
Proof. unfold held_packets. rewrite map_to_list_fmap. generalize (map_to_list m). intros l. induction l as [|[n c] l IH]; [done|]. cbn. exact IH. Qed.

Lemma StartAll_moves s s' : StartAll s = Some s' → InvA s → quiet_before s → moves s s'.
Proof.
  unfold StartAll. destruct (ctl s) eqn:Hc, (dispatch s) eqn:Hd; try done. case_if; [done|]. intros [= <-] Hinv Hq. destruct (Hq Hd) as [Q1 Q2].
  apply (moves_quiet _ _ []); [by rewrite app_nil_r|done|done|]. unfold waiting. cbn. by rewrite Q1, Q2, (idle_no_hold _ Hinv Hc), held_no_holds.
Qed.

Lemma detach_same c rm s : let '(s', d) := detachLocked c rm s in
  trace s' = trace s ∧ d_text s' = d_text s ∧ d_media s' = d_media s ∧ held (maps s') = held (maps s) ∧ table s' = table s ∧ next_number s' = next_number s ∧ dispatch s' = dispatch s.
Proof. unfold detachLocked. destruct (workers (maps s) !! c_name c), (cancels (maps s) !! c_name c); done. Qed.

Lemma new_hold_moves b n s : held (maps s) !! n = None → moves s (new_hold b n s).
Proof.
  intros Hn. unfold new_hold. destruct b; [|apply moves_refl]. apply (moves_quiet _ _ []); [by rewrite app_nil_r|done|done|].
  unfold waiting. cbn. by rewrite held_insert, (delete_id _ n Hn).
Qed.

Lemma sorting_no_hold s r n : InvA (sorting s r) → n ∉ map name (building r) → held (maps s) !! n = None.
Proof.
  intros Hinv Hn. apply eq_None_not_Some. intros Hh. destruct (ia_held _ Hinv n Hh) as [Hx _]. unfold awaiting in Hx. cbn in Hx. by rewrite app_nil_r in Hx.
Qed.

Lemma sort_spec_moves changed sp s r : InvA (sorting s r) → name sp ∉ map name (building r) → moves s (sort_spec changed sp (s, r)).1.
Proof.
  intros Hinv Hn. pose proof (sorting_no_hold _ _ _ Hinv Hn) as Hh. unfold sort_spec. destruct (channels (maps s) !! name sp) as [c|]; [|by apply new_hold_moves].
  case_if; [by apply moves_same|]. pose proof (detach_same c false s) as Hd. destruct (detachLocked c false s) as [s1 d]. destruct Hd as (E1 & E2 & E3 & E4 & E5 & _). cbn.
  apply (moves_trans _ s1); [by apply moves_same|]. apply new_hold_moves. by rewrite E4.
Qed.

Lemma sort_gone_moves wanted p s r : moves s (sort_gone wanted (s, r) p).1.
Proof.
  destruct p as [n c]. unfold sort_gone. case_if; [apply moves_refl|]. pose proof (detach_same c true s) as Hd. destruct (detachLocked c true s) as [s1 d].
  destruct Hd as (E1 & E2 & E3 & E4 & E5 & _). by apply moves_same.
Qed.

(** A property of the states of the reload's two loops. *)
Lemma sort_specs_ind `{GoRange} (P : State → Sorting → Prop) l store s :
  NoDup (map name l) → InvA s → ctl s = CtlIdle → P (set_store store s) no_sorting →
  (∀ changed sp s r, InvA (sorting s r) → name sp ∉ map name (building r) → P s r → let '(s', r') := sort_spec changed sp (s, r) in P s' r') →
  (∀ n c s r, InvA (sorting s r) → channels (maps s) !! n = Some c → P s r → let '(s', r') := sort_gone (map name l) (s, r) (n, c) in P s' r') →
  let '(s', r') := sort_specs l store s in P s' r'.
Proof.
  intros Hnd Hinv Hc HP Hspec Hgone. unfold sort_specs. set (changed := negb _). set (f := λ x sp, sort_spec changed sp x).
  assert (H1 : ∀ l s r, NoDup (map name l) → InvA (sorting s r) → P s r → (∀ n, n ∈ map name (building r) → n ∉ map name l) →
    InvA (sorting (fold_left f l (s, r)).1 (fold_left f l (s, r)).2) ∧ P (fold_left f l (s, r)).1 (fold_left f l (s, r)).2).
  { clear -Hspec. clearbody changed. intros l0. induction l0 as [|sp l0 IH]; intros s0 r Hnd Hinv HP Hb; [done|]. cbn in Hnd. apply NoDup_cons in Hnd as [Hn Hnd].
    assert (Hnb : name sp ∉ map name (building r)) by (intros Hx; apply (Hb _ Hx); cbn; by left).
    pose proof (sort_spec_A changed sp s0 r Hinv Hnb) as Hs. pose proof (Hspec changed sp s0 r Hinv Hnb HP) as HP1.
    change (fold_left f (sp :: l0) (s0, r)) with (fold_left f l0 (sort_spec changed sp (s0, r))). destruct (sort_spec changed sp (s0, r)) as [s1 r1].
    destruct Hs as [Hs Hb1]. apply IH; [done|done|done|]. intros n Hx Hin. destruct (Hb1 _ Hx) as [->|Hx']; [done|]. apply (Hb _ Hx'). cbn. by right. }
  assert (Hstart : InvA (sorting (set_store store s) no_sorting)).
  { clear -Hinv Hc. revert Hinv. unfold sorting. cbn. intros []. rewrite Hc in *. split; try done. }
  specialize (H1 l (set_store store s) no_sorting Hnd Hstart HP). destruct (fold_left f l (set_store store s, no_sorting)) as [s1 r1].
  assert (H2 : ∀ ps s r, NoDup (map fst ps) → InvA (sorting s r) → P s r → (∀ n c, (n, c) ∈ ps → channels (maps s) !! n = Some c) →
    let '(s', r') := fold_left (sort_gone (map name l)) ps (s, r) in P s' r').
  { clear -Hgone. intros ps. induction ps as [|[n c] ps IH]; intros s0 r Hnd Hinv HP Hch; [done|]. cbn in Hnd. apply NoDup_cons in Hnd as [Hn Hnd].
    assert (Hc : channels (maps s0) !! n = Some c) by (apply Hch; by left). pose proof (sort_gone_A (map name l) n c s0 r Hinv Hc) as Hs.
    pose proof (Hgone n c s0 r Hinv Hc HP) as HP1. cbn [fold_left]. destruct (sort_gone (map name l) (s0, r) (n, c)) as [s1 r1].
    destruct Hs as [Hs Hsame]. apply IH; [done|done|done|]. intros n' c' Hin. rewrite Hsame; [apply Hch; by right|].
    intros ->. apply Hn. apply list_elem_of_fmap. by exists (n, c'). }
  cbn in H1. destruct H1 as [H1 HP1]; [by intros n ?%elem_of_nil|]. apply H2; [apply go_range_NoDup|done|done|]. intros n c. apply elem_of_go_range.
Qed.

Lemma after_stop_same ds l s : trace (after_stop ds l s) = trace s ∧ waiting (after_stop ds l s) = waiting s.
Proof. unfold after_stop. destruct ds; [apply next_build_same|done]. Qed.

Lemma Reload_moves `{GoRange} l store s s' : NoDup (map name l) → Reload l store s = Some s' → InvA s → moves s s'.
Proof.
  unfold Reload. destruct (ctl s) eqn:Hc; try done. intros Hnd Hr Hinv.
  pose proof (sort_specs_ind (λ s1 _, moves s s1) l store s Hnd Hinv Hc) as Hm. destruct (sort_specs l store s) as [s1 r]. injection Hr as <-.
  apply (moves_trans _ s1); [apply Hm|].
  - by apply moves_same.
  - intros changed sp s0 r0 Hs0 Hn Hm0. pose proof (sort_spec_moves changed sp s0 r0 Hs0 Hn) as Hx. destruct (sort_spec changed sp (s0, r0)). by eapply moves_trans.
  - intros n c s0 r0 Hs0 _ Hm0. pose proof (sort_gone_moves (map name l) (n, c) s0 r0) as Hx. destruct (sort_gone (map name l) (s0, r0) (n, c)). by eapply moves_trans.
  - destruct (after_stop_same (stopping r) (building r) s1) as [E1 E2]. apply (moves_quiet _ _ []); [by rewrite E1, app_nil_r|done|done|by rewrite E2].
Qed.

Lemma StopAll_moves `{GoRange} s s' : StopAll s = Some s' → InvA s → moves s s'.
Proof. intros Hs Hinv. rewrite (StopAll_eq _ _ Hs Hinv). by apply moves_same. Qed.

Lemma step_moves `{GoRange} l s s' : label_ok l → InvA s → quiet_before s → step l s = Some s' → moves s s'.
Proof.
  destruct l; cbn; intros Hok Hinv Hq Hs; eauto using publish_moves, dispatcher_ends_moves, route_moves, lock_worker_moves, enqueue_moves, StartAll_moves, start_returns_moves,
    retry_returns_moves, Reload_moves, build_next_moves, stop_step_moves, StopAll_moves.
  - eapply on_lane_moves; [apply take_next_keeps|done].
  - eapply on_lane_moves; [apply send_returns_keeps|done].
  - eapply on_lane_moves; [apply notice_done_keeps|done].
  - eapply on_lane_moves; [apply drain_one_keeps|done].
  - eapply on_lane_moves; [apply queue_empty_keeps|done].
  - eapply on_lane_moves; [apply lane_exits_keeps|done].
  - unfold cancel_starts in Hs. destruct (ctl s); injection Hs as <-; try apply moves_refl. by apply moves_same.
  - unfold retry_wakes in Hs. destruct (retriers s !! i); [|done]. case_if_in Hs; [done|]. injection Hs as <-. by apply moves_same.
  - unfold retry_quits in Hs. destruct (retriers s !! i); [|done]. case_if_in Hs; [|done]. injection Hs as <-. by apply moves_same.
Qed.

(** What a control step leaves as it is: the dispatchers, the messages published and
    the number of the next one, and whether the dispatchers have started. *)
Definition keeps_disp (s s' : State) : Prop :=
  d_text s' = d_text s ∧ d_media s' = d_media s ∧ next_number s' = next_number s ∧ published (trace s') = published (trace s) ∧ (dispatch s' = NotStarted → dispatch s = NotStarted).

Lemma keeps_refl s : keeps_disp s s.
Proof. done. Qed.

Lemma keeps_trans s1 s2 s3 : keeps_disp s1 s2 → keeps_disp s2 s3 → keeps_disp s1 s3.
Proof. intros (A1 & A2 & A3 & A4 & A5) (B1 & B2 & B3 & B4 & B5). split_and!; try congruence. auto. Qed.

Ltac kd := unfold keeps_disp in *; cbn in *; rewrite ?published_app, ?(proj2 (finished_dropped _ _)); cbn; rewrite ?app_nil_r; done.

Lemma takeHeld_keeps n s : keeps_disp s (takeHeld n s).1.
Proof. unfold takeHeld. by destruct (held (maps s) !! n). Qed.

Lemma started_keeps c ok s : keeps_disp s (started c ok s).
Proof.
  unfold started. pose proof (takeHeld_keeps (c_name c) s) as Hk. destruct (takeHeld (c_name c) s) as [s' [t m]]. case_if; [kd|]. destruct ok; kd.
Qed.

Lemma abandon_keeps n s : keeps_disp s (abandonStart n s).
Proof. unfold abandonStart. pose proof (takeHeld_keeps n s) as Hk. destruct (takeHeld n s) as [s' [t m]]. kd. Qed.

Lemma next_build_keeps l ts s : keeps_disp s (next_build l ts s).
Proof. by destruct l. Qed.

Lemma set_detached_keeps ds s : keeps_disp s (set_detached ds s).
Proof. unfold set_detached. destruct (ctl s); try done. destruct ds; [apply next_build_keeps|done]. Qed.

Lemma control_keeps `{GoRange} l s s' : label_ok l → InvA s → step l s = Some s' →
  match l with LStarted _ _ | LCancelStarts | LRetry _ | LRetryQuits _ | LRetried _ _ | LReload _ _ | LBuild _ | LStop _ _ | LStopAll => keeps_disp s s' | _ => True end.
Proof.
  intros Hok Hinv. destruct l; try done; cbn.
  - unfold start_returns. destruct (ctl s); try done. destruct (ps !! i) as [p|]; [|done]. set (s1 := set_ctl _ _). intros [= <-].
    apply (keeps_trans _ s1); [unfold s1; by destruct ok|]. case_if; [apply abandon_keeps|apply started_keeps].
  - unfold cancel_starts. destruct (ctl s); by intros [= <-].
  - unfold retry_wakes. destruct (retriers s !! i); [|done]. case_if; [done|]. by intros [= <-].
  - unfold retry_quits. destruct (retriers s !! i); [|done]. case_if; [|done]. by intros [= <-].
  - unfold retry_returns. destruct (retriers s !! i); [|done]. case_if; [done|]. destruct ok; [case_if; [done|]; case_if|case_if]; intros [= <-]; try done; [kd|case_if; kd].
  - unfold Reload. destruct (ctl s) eqn:Hc; try done. pose proof (sort_specs_ind (λ s1 _, keeps_disp s s1) l store s Hok Hinv Hc) as Hm.
    destruct (sort_specs l store s) as [s1 r]. intros [= <-]. apply (keeps_trans _ s1); [apply Hm|].
    + done.
    + intros changed sp s0 r0 _ _ Hm0. unfold sort_spec. destruct (channels (maps s0) !! name sp) as [c|]; [case_if; [done|]|by unfold new_hold; case_if].
      pose proof (detach_same c false s0) as Hd. destruct (detachLocked c false s0) as [s2 d]. destruct Hd as (E1 & E2 & E3 & _ & _ & E6 & E7).
      apply (keeps_trans _ _ _ Hm0). unfold new_hold. case_if; cbn; unfold keeps_disp; cbn; rewrite E1, E2, E3, E6, E7; done.
    + intros n c s0 r0 _ _ Hm0. unfold sort_gone. case_if; [done|]. pose proof (detach_same c true s0) as Hd. destruct (detachLocked c true s0) as [s2 d].
      destruct Hd as (E1 & E2 & E3 & _ & _ & E6 & E7). apply (keeps_trans _ _ _ Hm0). unfold keeps_disp. cbn. rewrite E1, E2, E3, E6, E7. done.
    + unfold after_stop. destruct (stopping r); [apply next_build_keeps|done].
  - unfold build_next. destruct (ctl s) as [| | |[|sp l] ts|]; try done. destruct ok.
    + intros [= <-]. match goal with |- keeps_disp _ (next_build _ _ ?x) => apply (keeps_trans _ x); [done|apply next_build_keeps] end.
    + match goal with |- context [takeHeld _ ?x] => set (s0 := x); pose proof (takeHeld_keeps (name sp) s0) as Hk end. destruct (takeHeld _ s0) as [s2 [t m]]. intros [= <-].
      eapply keeps_trans; [|apply next_build_keeps]. kd.
  - unfold stop_step. destruct (detached_of s) as [[ds all]|]; [|done]. destruct (ds !! i) as [d|]; [|done]. case_if; [done|].
    destruct c, (d_pc d); try done.
    + destruct (d_worker d); [case_if; [done|]|]; intros [= <-]; (eapply keeps_trans; [|apply set_detached_keeps]); done.
    + destruct (d_worker d); [case_if; [|done]|done]; intros [= <-]; apply set_detached_keeps.
    + destruct (d_worker d); [case_if; [|done]|done]; intros [= <-]; apply set_detached_keeps.
    + intros [= <-]. eapply keeps_trans; [|apply set_detached_keeps]. by destruct (d_cancel d).
    + intros [= <-]. apply (keeps_trans _ (set_detached (<[i:=set_spc SStop d]> ds) s)); [apply set_detached_keeps|kd].
    + intros [= <-]. set (s1 := match d_cancel d with Some x => _ | None => s end).
      apply (keeps_trans _ (set_detached (remove_at i ds) (set_up (up s1 ∖ {[d_chan d]}) s1))); [|kd]. eapply keeps_trans; [|apply set_detached_keeps]. unfold s1. by destruct (d_cancel d).
  - intros Hs. rewrite (StopAll_eq _ _ Hs Hinv). unfold keeps_disp. cbn. split_and!; try done. case_if; [done|by intros ->].
Qed.

(** *** After a shutdown *)

(** Starts are under way only while the dispatchers run, and once they have ended what
    is up is being stopped. *)
Definition winding_down (s : State) : Prop :=
  (∀ ps, ctl s = CtlStarting ps → dispatch s = Live) ∧ (dispatch s = Ended → ∀ c, c ∈ up s → c ∈ map d_chan (stops (ctl s))).

Lemma wind_ctl s s' : dispatch s' = dispatch s → up s' = up s → ctl s' = ctl s → winding_down s → winding_down s'.
Proof. unfold winding_down. by intros -> -> ->. Qed.

Lemma built_wind ts s : (dispatch s = Ended → ∀ c, c ∉ up s) → winding_down (built ts s).
Proof.
  intros Hup. unfold built, winding_down. cbn. split.
  - intros ps. case_bool_decide as Hl; [done|done].
  - intros Hd c Hc. by destruct (Hup Hd c).
Qed.

Lemma next_build_wind l ts s : (dispatch s = Ended → ∀ c, c ∉ up s) → winding_down (next_build l ts s).
Proof.
  intros Hup. destruct l as [|sp l]; [by apply built_wind|]. split; [done|]. cbn. intros Hd c Hc. by destruct (Hup Hd c).
Qed.

Lemma after_stop_wind ds l s : (dispatch s = Ended → ∀ c, c ∈ up s → c ∈ map d_chan ds) → winding_down (after_stop ds l s).
Proof.
  intros Hup. unfold after_stop. destruct ds as [|d ds]; [|by split].
  apply next_build_wind. intros Hd c Hc. specialize (Hup Hd c Hc). by apply elem_of_nil in Hup.
Qed.

Lemma set_detached_wind ds ds' all s s0 : detached_of s = Some (ds, all) → ctl s0 = ctl s → dispatch s0 = dispatch s → winding_down s →
  (∀ c, c ∈ up s0 → c ∈ up s ∧ (c ∈ map d_chan ds → c ∈ map d_chan ds')) → winding_down (set_detached ds' s0).
Proof.
  intros Hd C D [_ Hup] U. unfold set_detached, detached_of in *. rewrite C. destruct (ctl s) as [| |ds0 l| |ds0]; simplify_eq; cbn in *.
  - apply after_stop_wind. rewrite D. intros He c [Hc Hc']%U. by apply Hc', Hup.
  - split; cbn; [destruct ds'; done|]. rewrite D. intros He c [Hc Hc']%U. specialize (Hup He c Hc). destruct ds'; cbn; by apply Hc'.
Qed.

Lemma stop_step_wind i c s s' : stop_step i c s = Some s' → winding_down s → winding_down s'.
Proof.
  unfold stop_step. destruct (detached_of s) as [[ds all]|] eqn:Hd; [|done]. destruct (ds !! i) as [d|] eqn:Hi; [|done]. case_if; [done|]. intros Hs Hw.
  assert (Hmove : ∀ p s0, ctl s0 = ctl s → dispatch s0 = dispatch s → up s0 = up s → winding_down (set_detached (<[i := set_spc p d]> ds) s0)).
  { intros p s0 E1 E2 E3. apply (set_detached_wind ds _ all s); try done. intros c0 Hc0. rewrite E3 in Hc0. split; [done|].
    rewrite list_fmap_insert. cbn. rewrite list_insert_id; [done|]. by rewrite list_lookup_fmap, Hi. }
  destruct c, (d_pc d); try done.
  - destruct (d_worker d); [case_if_in Hs; [done|]|]; injection Hs as <-; by apply Hmove.
  - destruct (d_worker d); [|done]. case_if_in Hs; [|done]. injection Hs as <-. by apply Hmove.
  - destruct (d_worker d); [|done]. case_if_in Hs; [|done]. injection Hs as <-. by apply Hmove.
  - injection Hs as <-. apply Hmove; by destruct (d_cancel d).
  - injection Hs as <-. apply wind_ctl with (set_detached (<[i := set_spc SStop d]> ds) s); try done. by apply Hmove.
  - injection Hs as <-. set (s1 := match d_cancel d with Some x => _ | None => s end).
    apply wind_ctl with (set_detached (remove_at i ds) (set_up (up s1 ∖ {[d_chan d]}) s1)); try done.
    destruct (remove_at_split _ _ _ Hi) as (l1 & l2 & Hl & Hr). apply (set_detached_wind ds _ all s); try done; try (unfold s1; by destruct (d_cancel d)).
    intros c0. cbn. rewrite elem_of_difference, not_elem_of_singleton. intros [Hc0 Hne]. split; [unfold s1 in Hc0; by destruct (d_cancel d)|].
    rewrite Hr, Hl, !map_app. cbn. rewrite !elem_of_app, elem_of_cons. tauto.
Qed.

Lemma started_same c ok s : ctl (started c ok s) = ctl s ∧ dispatch (started c ok s) = dispatch s ∧ up (started c ok s) = up s.
Proof.
  unfold started. assert (Hk : ctl (takeHeld (c_name c) s).1 = ctl s ∧ dispatch (takeHeld (c_name c) s).1 = dispatch s ∧ up (takeHeld (c_name c) s).1 = up s)
    by (unfold takeHeld; by destruct (held (maps s) !! c_name c)). destruct (takeHeld (c_name c) s) as [s' [t m]]. case_if; [done|]. by destruct ok.
Qed.

Lemma abandon_same n s : ctl (abandonStart n s) = ctl s ∧ dispatch (abandonStart n s) = dispatch s ∧ up (abandonStart n s) = up s.
Proof. unfold abandonStart, takeHeld. by destruct (held (maps s) !! n). Qed.

Lemma step_wind `{GoRange} l s s' : label_ok l → InvA s → step l s = Some s' → winding_down s → winding_down s'.
Proof.
  intros Hok Hinv. destruct l; cbn.
  - unfold publish. destruct (disp k s); try done. case_if; by intros [= <-].
  - unfold dispatcher_ends. destruct (disp k s); try done. case_if; [|done]. by intros [= <-].
  - unfold route. destruct (disp k s); try done. case_if; [by intros [= <-]|]. case_if; [done|].
    destruct (held (maps s) !! to p); [destruct (hold _ _)|destruct (channels (maps s) !! to p); [destruct (workers (maps s) !! to p)|]]; by intros [= <-].
  - unfold lock_worker. destruct (disp k s); try done. destruct (table s !! w); [|done]. by intros [= <-].
  - unfold enqueue. destruct (disp k s); try done. destruct (table s !! w); [|done]. destruct c; (case_if; [|done]); by intros [= <-].
  - unfold on_lane. destruct (table s !! i); [|done]. destruct (take_next _ _ _ _) as [[? ?]|]; [|done]. by intros [= <-].
  - unfold on_lane. destruct (table s !! i); [|done]. destruct (send_returns _ _ _) as [[? ?]|]; [|done]. by intros [= <-].
  - unfold on_lane. destruct (table s !! i); [|done]. destruct (notice_done _ _ _ _) as [[? ?]|]; [|done]. by intros [= <-].
  - unfold on_lane. destruct (table s !! i); [|done]. destruct (drain_one _ _) as [[? ?]|]; [|done]. by intros [= <-].
  - unfold on_lane. destruct (table s !! i); [|done]. destruct (queue_empty _ _) as [[? ?]|]; [|done]. by intros [= <-].
  - unfold on_lane. destruct (table s !! i); [|done]. destruct (lane_exits _ _) as [[? ?]|]; [|done]. by intros [= <-].
  - unfold StartAll. destruct (ctl s), (dispatch s); try done. case_if; [done|]. by intros [= <-] _.
  - unfold start_returns. destruct (ctl s) as [|ps| | |] eqn:Hc; try done. destruct (ps !! i) as [p|]; [|done]. set (s1 := set_ctl _ _). intros [= <-] [Hl _].
    specialize (Hl ps Hc). assert (H1 : winding_down s1) by (unfold winding_down, s1; cbn; destruct ok; cbn; by rewrite Hl).
    case_if; [destruct (abandon_same (c_name (p_chan p)) s1) as (? & ? & ?)|destruct (started_same (p_chan p) ok s1) as (? & ? & ?)]; by apply wind_ctl with s1.
  - unfold cancel_starts. destruct (ctl s) as [|ps| | |] eqn:Hc; intros [= <-]; try done. intros [Hl _]. specialize (Hl ps Hc). split; cbn; [done|by rewrite Hl].
  - unfold retry_wakes. destruct (retriers s !! i); [|done]. case_if; [done|]. by intros [= <-].
  - unfold retry_quits. destruct (retriers s !! i); [|done]. case_if; [|done]. by intros [= <-].
  - unfold retry_returns. destruct (retriers s !! i) as [r|]; [|done]. case_if; [done|]. destruct ok; [case_if; [done|]; case_if|case_if]; intros [= <-]; try done.
    + intros [Hl _]. split; [done|]. cbn. intros Hd. apply andb_true_iff in Heqb1 as [Hx%negb_true_iff _]. unfold ctx_done in Hx. by rewrite Hd in Hx.
    + intros [Hl Hu]. split; [done|]. cbn. intros Hd c. rewrite elem_of_difference. intros [Hc _]. by apply Hu.
  - unfold Reload. destruct (ctl s) eqn:Hc; try done. intros Hr [_ Hu].
    pose proof (sort_specs_ind (λ s1 _, dispatch s1 = dispatch s ∧ up s1 = up s) l store s Hok Hinv Hc) as Hm. destruct (sort_specs l store s) as [s1 r]. injection Hr as <-.
    destruct Hm as [E1 E2]; [done|..].
    + intros changed sp s0 r0 _ _ [M1 M2]. unfold sort_spec. destruct (channels (maps s0) !! name sp) as [c|]; [case_if; [done|]|by unfold new_hold; case_if].
      unfold detachLocked, new_hold. destruct (workers (maps s0) !! c_name c), (cancels (maps s0) !! c_name c); by case_if.
    + intros n c s0 r0 _ _ [M1 M2]. unfold sort_gone. case_if; [done|]. unfold detachLocked. by destruct (workers (maps s0) !! c_name c), (cancels (maps s0) !! c_name c).
    + apply after_stop_wind. rewrite E1, E2. intros Hd c Hcu. specialize (Hu Hd c Hcu). rewrite Hc in Hu. by apply elem_of_nil in Hu.
  - unfold build_next. destruct (ctl s) as [| | |[|sp l] ts|] eqn:Hc; try done. intros Hs [_ Hu].
    assert (Hno : dispatch s = Ended → ∀ c, c ∉ up s) by (intros Hd c Hcu; specialize (Hu Hd c Hcu); rewrite Hc in Hu; by apply elem_of_nil in Hu).
    destruct ok; [injection Hs as <-; by apply next_build_wind|]. destruct (takeHeld _ _) as [s2 [t m]] eqn:Ht. injection Hs as <-. apply takeHeld_held in Ht.
    apply next_build_wind. rewrite Ht. exact Hno.
  - apply stop_step_wind.
  - intros Hs [_ Hu]. rewrite (StopAll_eq _ _ Hs Hinv). unfold StopAll in Hs. destruct (ctl s) eqn:Hc; try done. set (ds := map _ (map_to_list (channels (maps s)))).
    split; cbn; [destruct ds; done|]. intros Hd c Hcu. assert (Hx : c ∈ map d_chan ds); [|by destruct ds].
    destruct (ia_up _ Hinv c Hcu) as [Hch|Hx]; [|rewrite Hc in Hx; by apply elem_of_nil in Hx].
    unfold ds. rewrite map_map. apply list_elem_of_fmap. exists (c_name c, c). split; [done|]. by apply elem_of_map_to_list.
Qed.

(** ** Reachable states *)

Definition numbered (s : State) : Prop := map number (published (trace s)) = seq 0 (next_number s).

Lemma numbered_same s s' : next_number s' = next_number s → published (trace s') = published (trace s) → numbered s → numbered s'.
Proof. unfold numbered. by intros -> ->. Qed.

Lemma on_lane_numbered i k f s s' : lane_keeps f → on_lane i k f s = Some s' → numbered s → numbered s'.
Proof.
  intros Hf. unfold on_lane. destruct (table s !! i) as [w|]; [|done]. destruct (f w (lane k w)) as [[l evs]|] eqn:Hl; [|done]. intros [= <-].
  apply numbered_same; [done|]. cbn. by rewrite published_app, (proj1 (Hf _ _ _ _ Hl)), app_nil_r.
Qed.

Lemma step_numbered `{GoRange} l s s' : label_ok l → InvA s → step l s = Some s' → numbered s → numbered s'.
Proof.
  intros Hok Hinv Hs. pose proof (control_keeps l s s' Hok Hinv Hs) as Hk.
  destruct l; try (destruct Hk as (_ & _ & E1 & E2 & _); by apply numbered_same); cbn in Hs; clear Hk.
  - unfold publish in Hs. destruct (disp k s); try done. case_if_in Hs; injection Hs as <-; [done|]. unfold numbered. intros Hn. cbn.
    rewrite published_app, map_app, Hn. cbn. by rewrite <- seq_S.
  - unfold dispatcher_ends in Hs. destruct (disp k s); try done. case_if_in Hs; [|done]. by injection Hs as <-.
  - unfold route in Hs. destruct (disp k s) as [|p| | |]; try done.
    assert (Hd : ∀ s1 e, next_number s1 = next_number s → trace s1 = trace s → numbered s → numbered (drop p e s1)).
    { intros s1 e E1 E2. apply numbered_same; [done|]. cbn. by rewrite published_app, E2, app_nil_r. }
    case_if_in Hs; [injection Hs as <-; by apply Hd|]. case_if_in Hs; [done|].
    destruct (held (maps s) !! to p); [destruct (hold _ _)|destruct (channels (maps s) !! to p); [destruct (workers (maps s) !! to p)|]]; injection Hs as <-; try done; by apply Hd.
  - unfold lock_worker in Hs. destruct (disp k s); try done. destruct (table s !! w); [|done]. by injection Hs as <-.
  - unfold enqueue in Hs. destruct (disp k s); try done. destruct (table s !! w); [|done]. destruct c; (case_if_in Hs; [|done]); injection Hs as <-; try done.
    apply numbered_same; [done|]. cbn. by rewrite published_app, app_nil_r.
  - eapply on_lane_numbered; [apply take_next_keeps|done].
  - eapply on_lane_numbered; [apply send_returns_keeps|done].
  - eapply on_lane_numbered; [apply notice_done_keeps|done].
  - eapply on_lane_numbered; [apply drain_one_keeps|done].
  - eapply on_lane_numbered; [apply queue_empty_keeps|done].
  - eapply on_lane_numbered; [apply lane_exits_keeps|done].
  - unfold StartAll in Hs. destruct (ctl s), (dispatch s); try done. case_if_in Hs; [done|]. by injection Hs as <-.
Qed.

Lemma step_quiet `{GoRange} l s s' : label_ok l → InvA s → step l s = Some s' → quiet_before s → quiet_before s'.
Proof.
  intros Hok Hinv Hs. pose proof (control_keeps l s s' Hok Hinv Hs) as Hk. unfold quiet_before.
  destruct l; try (destruct Hk as (E1 & E2 & _ & _ & E3); rewrite E1, E2; by auto); cbn in Hs; clear Hk.
  - unfold publish in Hs. destruct (disp k s) eqn:Hd; try done. case_if_in Hs; injection Hs as <-; [done|]. cbn. intros Hq Hns. destruct (Hq Hns) as [Q1 Q2].
    destruct k; cbn in Hd; congruence.
  - unfold dispatcher_ends in Hs. destruct (disp k s) eqn:Hd; try done. case_if_in Hs; [|done]. injection Hs as <-. cbn. intros Hq Hns. destruct (Hq Hns). destruct k; cbn in *; congruence.
  - intros Hq Hns. assert (Hx : dispatch s = NotStarted ∧ disp k s ≠ DEnded); [|destruct (Hq (proj1 Hx)); destruct k; cbn in Hx; naive_solver].
    unfold route in Hs. destruct (disp k s) as [|p| | |]; try done. split; [|done].
    case_if_in Hs; [by injection Hs as <-|]. case_if_in Hs; [done|].
    destruct (held (maps s) !! to p); [destruct (hold _ _)|destruct (channels (maps s) !! to p); [destruct (workers (maps s) !! to p)|]]; by injection Hs as <-.
  - intros Hq Hns. unfold lock_worker in Hs. destruct (disp k s) as [| |p i| |] eqn:Hd; try done. destruct (table s !! i); [|done]. injection Hs as <-. destruct (Hq Hns). destruct k; cbn in *; congruence.
  - intros Hq Hns. unfold enqueue in Hs. destruct (disp k s) as [| | |p i|] eqn:Hd; try done. destruct (table s !! i); [|done].
    destruct c; (case_if_in Hs; [|done]); injection Hs as <-; destruct (Hq Hns); destruct k; cbn in *; congruence.
  - unfold on_lane in Hs. destruct (table s !! i); [|done]. destruct (take_next _ _ _ _) as [[? ?]|]; [|done]. by injection Hs as <-.
  - unfold on_lane in Hs. destruct (table s !! i); [|done]. destruct (send_returns _ _ _) as [[? ?]|]; [|done]. by injection Hs as <-.
  - unfold on_lane in Hs. destruct (table s !! i); [|done]. destruct (notice_done _ _ _ _) as [[? ?]|]; [|done]. by injection Hs as <-.
  - unfold on_lane in Hs. destruct (table s !! i); [|done]. destruct (drain_one _ _) as [[? ?]|]; [|done]. by injection Hs as <-.
  - unfold on_lane in Hs. destruct (table s !! i); [|done]. destruct (queue_empty _ _) as [[? ?]|]; [|done]. by injection Hs as <-.
  - unfold on_lane in Hs. destruct (table s !! i); [|done]. destruct (lane_exits _ _) as [[? ?]|]; [|done]. by injection Hs as <-.
  - unfold StartAll in Hs. destruct (ctl s), (dispatch s); try done. case_if_in Hs; [done|]. by injection Hs as <-.
Qed.

(** What holds in every state of a manager, as far as messages and channels go. *)
Record Sound (s : State) : Prop := { so_A : InvA s; so_quiet : quiet_before s; so_wind : winding_down s; so_numbers : numbered s }.

Lemma new_manager_names l store n c : channels (maps (new_manager l store)) !! n = Some c → c_name c = n ∧ c_id c < length l.
Proof.
  cbn. intros Hin%elem_of_list_to_map_2. apply list_elem_of_lookup in Hin as [i Hi]. rewrite list_lookup_imap in Hi.
  destruct (l !! i) as [sp|] eqn:Hsp; [|done]. cbn in Hi. injection Hi as <- <-. cbn. split; [done|]. by eapply lookup_lt_Some.
Qed.

Lemma new_manager_sound l store : Sound (new_manager l store).
Proof.
  split; [|done|by split|done]. split; unfold awaiting, ids, rids; cbn [new_manager ctl starts to_build stops taken_out app map]; try done.
  - apply new_manager_names.
  - intros n [? Hn]. done.
  - intros n [[? Hn]|[? Hn]]; done.
  - constructor.
  - split; constructor.
  - intros c x Hc. by apply elem_of_nil in Hc.
  - intros d i Hd. by apply elem_of_nil in Hd.
  - intros c Hc. by apply elem_of_nil in Hc.
Qed.

Lemma step_sound `{GoRange} l s s' : label_ok l → step l s = Some s' → Sound s → Sound s'.
Proof. intros Hok Hs []. split; [by eapply step_A|by eapply step_quiet|by eapply step_wind|by eapply step_numbered]. Qed.

(** A property that steps from sound states keep holds after every run. *)
Lemma run_ind `{GoRange} (P : State → Prop) ls s s' : Forall label_ok ls → run ls s = Some s' → Sound s → P s →
  (∀ l s s', label_ok l → Sound s → step l s = Some s' → P s → P s') → Sound s' ∧ P s'.
Proof.
  intros Hok Hr Hs HP Hstep. revert s Hr Hs HP. induction Hok as [|l ls Hl Hok IH]; intros s Hr Hs HP; cbn in Hr; [by simplify_eq|].
  destruct (step l s) as [s1|] eqn:Hst; [|done]. apply (IH s1); [done|by eapply step_sound|by eapply Hstep].
Qed.
