(* ===== verification/ChannelOrder.v ===== *)
(** * The order of a channel's messages

    The messages of one kind for one channel
    stand in a line: those already given to a worker to send, those in the workers'
    backlogs and queues, those held while the channel starts, and the one in the
    dispatcher's hand. The line is in the order of publication in every state,
    and each step moves the head or drops a message. That needs that at most one
    worker of a name still takes messages, unless one had to be left behind. *)

From stdpp Require Import base gmap strings list sorting.
From Stdlib Require Import ZArith Lia.
From S2P Require Import Prelude GoString MessageSplit ChannelSend ChannelPlan ChannelManager ChannelControl.

Open Scope nat_scope.

(** ** What the control does to messages *)

(** The messages given to a worker to send. *)
Definition attempted (l : list Event) : list (Chan * Packet) := omap (λ e, match e with Attempted c p => Some (c, p) | _ => None end) l.

(** The ways in which starting, stopping and reloading touch workers and holds: not at
    all, ending a hold, with or without a worker that gets what was held, adding a
    worker with nothing, closing a worker's queues, and beginning holds. *)
Inductive touch (s s' : State) : Prop :=
| T_same : table s' = table s → held (maps s') = held (maps s) → attempted (trace s') = attempted (trace s) → touch s s'
| T_drop n : table s' = table s → held (maps s') = delete n (held (maps s)) → attempted (trace s') = attempted (trace s) → touch s s'
| T_spawn c x h : table s' = table s ++ [new_worker c x (h_text h) (h_media h)] → h = default no_hold (held (maps s) !! c_name c) →
    held (maps s') = delete (c_name c) (held (maps s)) → attempted (trace s') = attempted (trace s) → touch s s'
| T_empty c x : table s' = table s ++ [new_worker c x [] []] → held (maps s') = held (maps s) → attempted (trace s') = attempted (trace s) → touch s s'
| T_close i : table s' = alter set_closed i (table s) → held (maps s') = held (maps s) → attempted (trace s') = attempted (trace s) → touch s s'
| T_hold : table s' = table s → (∀ n h, held (maps s') !! n = Some h → h = no_hold ∨ held (maps s) !! n = Some h) → attempted (trace s') = attempted (trace s) → touch s s'.

Definition touches : State → State → Prop := rtc touch.

Lemma attempted_app l1 l2 : attempted (l1 ++ l2) = attempted l1 ++ attempted l2.
Proof. apply omap_app. Qed.

Lemma attempted_dropped e l : attempted (dropped e l) = [].
Proof. by induction l. Qed.

Lemma attempted_log t evs : attempted evs = [] → attempted (t ++ evs) = attempted t.
Proof. intros He. by rewrite attempted_app, He, app_nil_r. Qed.

Lemma touches_same s s' : table s' = table s → held (maps s') = held (maps s) → attempted (trace s') = attempted (trace s) → touches s s'.
Proof. intros. by apply rtc_once, T_same. Qed.

(** What is done after does not touch them. *)
Lemma touches_after s s1 s2 : table s2 = table s1 → held (maps s2) = held (maps s1) → attempted (trace s2) = attempted (trace s1) → touches s s1 → touches s s2.
Proof. intros E1 E2 E3 Ht. eapply rtc_r; [exact Ht|]. by apply T_same. Qed.

Lemma taken s n s' t m : takeHeld n s = (s', (t, m)) →
  s' = on_maps (set_held (delete n (held (maps s)))) s ∧ t = h_text (default no_hold (held (maps s) !! n)) ∧ m = h_media (default no_hold (held (maps s) !! n)).
Proof.
  intros Ht. split; [by eapply takeHeld_held|]. unfold takeHeld in Ht. by destruct (held (maps s) !! n); injection Ht as <- <- <-.
Qed.

Lemma touches_drop s0 s n s' t m : takeHeld n s = (s', (t, m)) → touches s0 s → touches s0 (dropHeld t m s').
Proof.
  intros Ht Hs. apply taken in Ht as (-> & _). eapply rtc_r; [exact Hs|]. apply (T_drop _ _ n); [done|done|]. by apply (attempted_log (trace s)), attempted_dropped.
Qed.

Lemma touches_abandon s0 n s : touches s0 s → touches s0 (abandonStart n s).
Proof. intros Hs. unfold abandonStart. destruct (takeHeld n s) as [s' [t m]] eqn:Ht. by eapply touches_drop. Qed.

Lemma touches_started s0 c ok s : touches s0 s → touches s0 (started c ok s).
Proof.
  intros Hs. unfold started. destruct (takeHeld (c_name c) s) as [s' [t m]] eqn:Ht. case_if; [by eapply touches_drop|].
  destruct ok; [|pose proof (touches_drop _ _ _ _ _ _ Ht Hs) as Hd; revert Hd; by apply touches_after].
  apply taken in Ht as (-> & -> & ->). eapply rtc_r; [exact Hs|]. by eapply T_spawn.
Qed.

Lemma touches_next_build s0 l ts s : touches s0 s → touches s0 (next_build l ts s).
Proof. by apply touches_after; destruct l. Qed.

Lemma touches_after_stop s0 ds l s : touches s0 s → touches s0 (after_stop ds l s).
Proof. unfold after_stop. destruct ds; [apply touches_next_build|by apply touches_after]. Qed.

Lemma touches_set_detached s0 ds s : touches s0 s → touches s0 (set_detached ds s).
Proof. unfold set_detached. destruct (ctl s); try done; [apply touches_after_stop|by apply touches_after]. Qed.

Lemma touches_new_hold s0 b n s : touches s0 s → touches s0 (new_hold b n s).
Proof.
  intros Hs. unfold new_hold. destruct b; [|done]. eapply rtc_r; [exact Hs|]. apply T_hold; [done| |done]. cbn. intros n' h Hx.
  apply lookup_insert_Some in Hx as [[_ <-]|[_ Hx]]; [by left|by right].
Qed.

Lemma touches_detach s0 c rm s : touches s0 s → touches s0 (detachLocked c rm s).1.
Proof.
  pose proof (detach_same c rm s) as Hd. destruct (detachLocked c rm s) as [s1 d]. destruct Hd as (E0 & _ & _ & E1 & E2 & _). apply touches_after; [done|done|]. cbn. by rewrite E0.
Qed.

Definition is_control (l : Label) : bool :=
  match l with LStarted _ _ | LCancelStarts | LRetry _ | LRetryQuits _ | LRetried _ _ | LReload _ _ | LBuild _ | LStop _ _ | LStopAll | LStartAll => true | _ => false end.

Lemma stop_step_touches i c s s' : stop_step i c s = Some s' → touches s s'.
Proof.
  unfold stop_step. destruct (detached_of s) as [[ds all]|]; [|done]. destruct (ds !! i) as [d|]; [|done]. case_if; [done|]. intros Hs. destruct c, (d_pc d); try done.
  - destruct (d_worker d); [case_if_in Hs; [done|]|]; injection Hs as <-; apply touches_set_detached; [|apply rtc_refl]. by eapply rtc_once, T_close.
  - destruct (d_worker d); [case_if_in Hs; [|done]|done]; injection Hs as <-; apply touches_set_detached, rtc_refl.
  - destruct (d_worker d); [case_if_in Hs; [|done]|done]; injection Hs as <-; apply touches_set_detached, rtc_refl.
  - injection Hs as <-. apply touches_set_detached. apply touches_same; by destruct (d_cancel d).
  - injection Hs as <-. apply (touches_after _ (set_detached (<[i:=set_spc SStop d]> ds) s)); [done|done|by apply attempted_log|]. apply touches_set_detached, rtc_refl.
  - injection Hs as <-. set (s1 := match d_cancel d with Some x => _ | None => s end).
    apply (touches_after _ (set_detached (remove_at i ds) (set_up (up s1 ∖ {[d_chan d]}) s1))); [done|done|by apply attempted_log|]. apply touches_set_detached.
    apply touches_same; unfold s1; by destruct (d_cancel d).
Qed.

Lemma Reload_touches `{GoRange} l store s s' : NoDup (map name l) → InvA s → Reload l store s = Some s' → touches s s'.
Proof.
  intros Hok Hinv. unfold Reload. destruct (ctl s) eqn:Hc; try done. pose proof (sort_specs_ind (λ s1 _, touches s s1) l store s Hok Hinv Hc) as Hm.
  destruct (sort_specs l store s) as [s1 r]. intros [= <-]. apply touches_after_stop, Hm.
  - by apply touches_same.
  - intros changed sp s0 r0 _ _ Hl0. unfold sort_spec. destruct (channels (maps s0) !! name sp) as [c|]; [|by apply touches_new_hold].
    case_if; [revert Hl0; by apply touches_after|].
    pose proof (touches_detach _ c false s0 Hl0) as Hd. destruct (detachLocked c false s0) as [s2 d]. by apply touches_new_hold.
  - intros n c s0 r0 _ _ Hl0. unfold sort_gone. case_if; [done|]. pose proof (touches_detach _ c true s0 Hl0) as Hd. destruct (detachLocked c true s0).
    revert Hd. by apply touches_after.
Qed.

Lemma control_touches `{GoRange} l s s' : label_ok l → InvA s → is_control l = true → step l s = Some s' → touches s s'.
Proof.
  intros Hok Hinv. destruct l; try done; intros _; cbn.
  - unfold StartAll. destruct (ctl s), (dispatch s); try done. case_if; [done|]. intros [= <-]. apply rtc_once, T_hold; [done| |done]. cbn. intros n h Hx.
    rewrite lookup_fmap in Hx. destruct (channels (maps s) !! n); [|done]. injection Hx as <-. by left.
  - unfold start_returns. destruct (ctl s); try done. destruct (ps !! i) as [p|]; [|done]. set (s1 := set_ctl _ _). intros [= <-].
    assert (Hl1 : touches s s1) by (apply touches_same; unfold s1; by destruct ok). case_if; [by apply touches_abandon|by apply touches_started].
  - unfold cancel_starts. destruct (ctl s); intros [= <-]; by apply touches_same.
  - unfold retry_wakes. destruct (retriers s !! i); [|done]. case_if; [done|]. intros [= <-]. by apply touches_same.
  - unfold retry_quits. destruct (retriers s !! i); [|done]. case_if; [|done]. intros [= <-]. by apply touches_same.
  - unfold retry_returns. destruct (retriers s !! i) as [r|]; [|done]. case_if; [done|]. destruct ok; [case_if; [done|]; case_if|case_if]; intros [= <-].
    + by eapply rtc_once, T_empty.
    + apply touches_same; [done|done|by apply (attempted_log (trace s))].
    + by apply touches_same.
    + apply touches_same; [done|done|]. apply (attempted_log (trace s)). by case_if.
  - intros Hs. by eapply Reload_touches.
  - unfold build_next. destruct (ctl s) as [| | |[|sp l] ts|]; try done. destruct ok.
    + intros [= <-]. apply touches_next_build. by apply touches_same.
    + destruct (takeHeld _ _) as [s2 [t m]] eqn:Ht. intros [= <-]. apply touches_next_build. eapply touches_drop; [exact Ht|]. by apply touches_same.
  - apply stop_step_touches.
  - intros Hs. rewrite (StopAll_eq _ _ Hs Hinv). by apply touches_same.
Qed.

(** ** What holds of each worker and each hold *)

Section local.
Context (PW : Worker → Prop) (PH : string → Hold → Prop).
Hypothesis PW_closed : ∀ w, PW w → PW (set_closed w).
Hypothesis PH_new : ∀ n, PH n no_hold.
Hypothesis PW_new : ∀ c x h, PH (c_name c) h → PW (new_worker c x (h_text h) (h_media h)).

Definition Local (s : State) : Prop := (∀ i w, table s !! i = Some w → PW w) ∧ (∀ n h, held (maps s) !! n = Some h → PH n h).

Lemma local_ext s s' : table s' = table s → held (maps s') = held (maps s) → Local s → Local s'.
Proof. unfold Local. by intros -> ->. Qed.

Lemma local_append w s s' : PW w → table s' = table s ++ [w] → (∀ n h, held (maps s') !! n = Some h → held (maps s) !! n = Some h) → Local s → Local s'.
Proof.
  intros Hw E Hh [Ht Hp]. split; [|by eauto]. rewrite E. intros i w' Hi. apply lookup_app_Some in Hi as [Hi|[_ Hi]]; [by eapply Ht|].
  by apply list_lookup_singleton_Some in Hi as [_ <-].
Qed.

Lemma local_touch s s' : touch s s' → Local s → Local s'.
Proof.
  intros Ht Hl. destruct Ht as [E1 E2 _|n E1 E2 _|c x h E1 -> E2 _|c x E1 E2 _|i E1 E2 _|E1 E2 _].
  - by apply (local_ext s).
  - destruct Hl as [Hw Hp]. split; [by rewrite E1|]. rewrite E2. intros n' h' Hx. apply lookup_delete_Some in Hx as [_ Hx]. by apply Hp.
  - eapply local_append; [|exact E1| |exact Hl]; [|rewrite E2; by intros n' h' [_ Hx]%lookup_delete_Some].
    apply PW_new. destruct (held (maps s) !! c_name c) as [h|] eqn:Hh; [by apply Hl|apply PH_new].
  - eapply local_append; [|exact E1|by rewrite E2|exact Hl]. apply (PW_new _ _ no_hold), PH_new.
  - destruct Hl as [Hw Hp]. split; [|by rewrite E2]. rewrite E1. intros j w Hj. destruct (decide (i = j)) as [<-|Hne].
    + rewrite list_lookup_alter_eq in Hj. destruct (table s !! i) as [w0|] eqn:Hi; [|done]. injection Hj as <-. by eapply PW_closed, Hw.
    + rewrite list_lookup_alter_ne in Hj by done. by eapply Hw.
  - destruct Hl as [Hw Hp]. split; [by rewrite E1|]. intros n h Hx. destruct (E2 n h Hx) as [->|Hy]; [apply PH_new|by apply Hp].
Qed.

Lemma local_control `{GoRange} l s s' : label_ok l → InvA s → is_control l = true → step l s = Some s' → Local s → Local s'.
Proof.
  intros Hok Hinv Hc Hs. pose proof (control_touches l s s' Hok Hinv Hc Hs) as Ht. clear Hs Hinv.
  induction Ht as [|s1 s2 s3 H1 _ IH]; [done|]. intros Hl. by eapply IH, local_touch.
Qed.
End local.

(** *** Messages are where their kind and channel say *)

Definition of_lane (n : string) (k : Kind) (p : Packet) : Prop := to p = n ∧ kind p = k.

Definition worker_kinds (w : Worker) : Prop := ∀ k, Forall (of_lane (c_name (w_chan w)) k) (lane_packets (lane k w)).
Definition hold_kinds (n : string) (h : Hold) : Prop := Forall (of_lane n Text) (h_text h) ∧ Forall (of_lane n Media) (h_media h).

Definition Kinds (s : State) : Prop := Local worker_kinds hold_kinds s ∧ (∀ k p, p ∈ hand (disp k s) → kind p = k) ∧
  (∀ k p i, disp k s = DTarget p i ∨ disp k s = DBlocked p i → ∃ w, table s !! i = Some w ∧ c_name (w_chan w) = to p).

Lemma lane_set k k' l w : lane k' (set_lane k l w) = if decide (k' = k) then l else lane k' w.
Proof. by destruct k, k'. Qed.

Lemma kinds_new c x h : hold_kinds (c_name c) h → worker_kinds (new_worker c x (h_text h) (h_media h)).
Proof. intros [H1 H2] []; unfold lane_packets; cbn; by rewrite app_nil_r. Qed.

Lemma table_target (t t' : list Worker) i w n : (∀ j w, t !! j = Some w → ∃ w', t' !! j = Some w' ∧ w_chan w' = w_chan w) →
  t !! i = Some w → c_name (w_chan w) = n → ∃ w', t' !! i = Some w' ∧ c_name (w_chan w') = n.
Proof. intros Ht Hi Hn. destruct (Ht i w Hi) as (w' & Hw & Hc). exists w'. by rewrite Hc. Qed.

(** Workers keep their channel, and none is forgotten. *)
Definition grows (s s' : State) : Prop := ∀ j w, table s !! j = Some w → ∃ w', table s' !! j = Some w' ∧ w_chan w' = w_chan w.

Lemma grows_same s s' : table s' = table s → grows s s'.
Proof. intros E j w Hj. exists w. by rewrite E. Qed.

Lemma grows_lane s i w k l : table s !! i = Some w → ∀ s', table s' = <[i := set_lane k l w]> (table s) → grows s s'.
Proof.
  intros Hi s' E j w' Hj. rewrite E. destruct (decide (i = j)) as [<-|Hne]; [|exists w'; by rewrite list_lookup_insert_ne].
  rewrite Hi in Hj. injection Hj as <-. exists (set_lane k l w). split; [|apply lane_same]. apply list_lookup_insert_eq. by eapply lookup_lt_Some.
Qed.

Lemma kinds_lane i k f s s' : on_lane i k f s = Some s' → lane_keeps f → Kinds s → Kinds s'.
Proof.
  unfold on_lane. destruct (table s !! i) as [w|] eqn:Hi; [|done]. destruct (f w (lane k w)) as [[l evs]|] eqn:Hl; [|done]. intros [= <-] Hf ([Hw Hp] & Hh & Ht).
  destruct (Hf _ _ _ _ Hl) as [_ Hperm]. split_and!.
  - split; [|done]. cbn. intros j w' Hj. destruct (decide (i = j)) as [<-|Hne]; [|rewrite list_lookup_insert_ne in Hj by done; by eapply Hw].
    rewrite list_lookup_insert_eq in Hj by (by eapply lookup_lt_Some). injection Hj as <-. intros k'. rewrite lane_set, (proj1 (lane_same k l w)). specialize (Hw _ _ Hi k').
    case_decide as E; [subst|done]. rewrite Hperm in Hw. by apply Forall_app in Hw as [_ Hw].
  - done.
  - intros k' p j Hd. destruct (Ht k' p j Hd) as (w' & Hj & Hn). eapply table_target; [|exact Hj|exact Hn].
    exact (grows_lane s i w k l Hi (set_table (<[i:=set_lane k l w]> (table s)) s) eq_refl).
Qed.

Lemma disp_set k k' d s : disp k' (set_disp k d s) = if decide (k' = k) then d else disp k' s.
Proof. by destruct k, k'. Qed.

(** A dispatcher's step: its hand is empty or as it was, and a worker it aims at is there. *)
Lemma kinds_disp k d s s' : disp k s' = d → (∀ k', k' ≠ k → disp k' s' = disp k' s) → Local worker_kinds hold_kinds s' → grows s s' →
  (∀ p, p ∈ hand d → kind p = k) → (∀ p i, d = DTarget p i ∨ d = DBlocked p i → ∃ w, table s' !! i = Some w ∧ c_name (w_chan w) = to p) → Kinds s → Kinds s'.
Proof.
  intros Hd Hne Hl Hg Hk Ht (_ & Hh & Htt). split_and!; [done|..].
  - intros k' p Hp. destruct (decide (k' = k)) as [->|E]; [rewrite Hd in Hp; by apply Hk|]. rewrite Hne in Hp by done. by apply Hh.
  - intros k' p i Hp. destruct (decide (k' = k)) as [->|E]; [rewrite Hd in Hp; by apply Ht|]. rewrite Hne in Hp by done.
    destruct (Htt _ _ _ Hp) as (w & Hw & Hn). by eapply table_target.
Qed.

Lemma other_disp k k' d s : k' ≠ k → disp k' (set_disp k d s) = disp k' s.
Proof. intros Hne. rewrite disp_set. by case_decide. Qed.

Lemma this_disp k d s : disp k (set_disp k d s) = d.
Proof. rewrite disp_set. by case_decide. Qed.

Lemma kinds_publish k n s s' : publish k n s = Some s' → Kinds s → Kinds s'.
Proof.
  unfold publish. destruct (disp k s); try done. case_if; intros [= <-] Hk; [done|]. set (p := {| number := _; kind := k; to := n |}).
  apply (kinds_disp k (DLooking p) s); [exact (this_disp k _ (bump 0 0 1 s))|intros k'; exact (other_disp k k' _ (bump 0 0 1 s))|by apply Hk|by apply grows_same| |intros ? ? [? | ?]; done|done].
  intros p' Hp. cbn in Hp. by apply list_elem_of_singleton in Hp as ->.
Qed.

Lemma kinds_dispatcher_ends k s s' : dispatcher_ends k s = Some s' → Kinds s → Kinds s'.
Proof.
  unfold dispatcher_ends. destruct (disp k s); try done. case_if; [|done]. intros [= <-] Hk.
  apply (kinds_disp k DEnded s); [apply this_disp|intros k'; apply other_disp|by apply Hk|by apply grows_same|intros p Hp; by apply elem_of_nil in Hp|intros ? ? [? | ?]; done|done].
Qed.

(** The hand is emptied, and nothing else of a worker or a hold changes. *)
Lemma kinds_letgo k d s s' : disp k s' = d → hand d = [] → (∀ p i, d ≠ DTarget p i ∧ d ≠ DBlocked p i) → (∀ k', k' ≠ k → disp k' s' = disp k' s) → table s' = table s →
  held (maps s') = held (maps s) → Kinds s → Kinds s'.
Proof.
  intros Hd Hh Hno Hne E1 E2 Hk. apply (kinds_disp k d s); [done|done| |by apply grows_same|intros p Hp; rewrite Hh in Hp; by apply elem_of_nil in Hp| |done].
  - destruct Hk as [Hl _]. revert Hl. by apply local_ext.
  - intros p i [E|E]; by destruct (Hno p i).
Qed.

Lemma kinds_hold h n p k h' : hold_kinds n h → of_lane n k p → hold h p = Some h' → hold_kinds n h'.
Proof.
  intros [H1 H2] [Hn Hk]. unfold hold. case_if; [done|]. destruct (kind p) eqn:E; intros [= <-]; split; cbn; try done; apply Forall_app; (split; [done|]); by apply Forall_singleton.
Qed.

Lemma kinds_route k s s' : InvA s → route k s = Some s' → Kinds s → Kinds s'.
Proof.
  intros Hinv. unfold route. destruct (disp k s) as [|p| | |] eqn:Hd; try done.
  assert (Hgo : ∀ s1 e d, hand d = [] → (∀ p i, d ≠ DTarget p i ∧ d ≠ DBlocked p i) → table s1 = table s → held (maps s1) = held (maps s) → (∀ k', disp k' s1 = disp k' s) →
    Kinds s → Kinds (drop p e (set_disp k d s1))).
  { intros s1 e d H1 H2 E1 E2 E3 Hk. apply (kinds_letgo k d s); try done; [exact (this_disp k d s1)|]. intros k' Hne. rewrite <- E3. exact (other_disp k k' d s1 Hne). }
  case_if; [intros [= <-]; by apply Hgo|]. case_if; [done|]. destruct (held (maps s) !! to p) as [h|] eqn:Hh.
  - intros Hs Hk. assert (Hp : of_lane (to p) k p) by (split; [done|]; apply Hk; rewrite Hd; by left).
    assert (Hl : ∀ h', hold_kinds (to p) h' → Local worker_kinds hold_kinds (on_maps (set_held (<[to p := h']> (held (maps s)))) s)).
    { intros h' Hh'. destruct Hk as [[Hw Hx] _]. split; [done|]. cbn. intros n h0 Hn. apply lookup_insert_Some in Hn as [[<- <-]|[_ Hn]]; [done|by apply Hx]. }
    assert (Hold : hold_kinds (to p) h) by (by apply Hk). destruct (hold h p) as [h'|] eqn:Hho; injection Hs as <-.
    + apply (kinds_disp k DIdle s); [apply this_disp|intros k'; exact (other_disp k k' DIdle _)|apply Hl; by eapply kinds_hold|by apply grows_same|
        intros q Hq; by apply elem_of_nil in Hq|intros ? ? [? | ?]; done|done].
    + apply (kinds_disp k DIdle s); [exact (this_disp k DIdle _)|intros k'; exact (other_disp k k' DIdle _)|apply (Hl (set_overflowed h)), Hold|by apply grows_same|
        intros q Hq; by apply elem_of_nil in Hq|intros ? ? [? | ?]; done|done].
  - destruct (channels (maps s) !! to p) as [ch|]; [|intros [= <-]; by apply Hgo]. destruct (workers (maps s) !! to p) as [i|] eqn:Hw; intros [= <-] Hk; [|by apply Hgo].
    apply (kinds_disp k (DTarget p i) s); [apply this_disp|intros k'; apply other_disp|by apply Hk|by apply grows_same| | |done].
    + intros q Hq. apply list_elem_of_singleton in Hq as ->. apply Hk. rewrite Hd. by left.
    + intros q j [[= -> ->]|E]; [|done]. destruct (ia_worker _ Hinv _ _ Hw) as (c & x & Hx & Hn & _). unfold ids in Hx. rewrite list_lookup_fmap in Hx. cbn.
      destruct (table s !! j) as [w|] eqn:Hj; [|done]. cbn in Hx. injection Hx as <- _. by exists w.
Qed.

Lemma kinds_lock k s s' : lock_worker k s = Some s' → Kinds s → Kinds s'.
Proof.
  unfold lock_worker. destruct (disp k s) as [| |p i| |] eqn:Hd; try done. destruct (table s !! i) as [w|] eqn:Hi; [|done]. intros [= <-] Hk.
  assert (Hp : kind p = k) by (apply Hk; rewrite Hd; by left). destruct Hk as (Hl & Hh & Ht). destruct (Ht k p i) as (w' & Hw' & Hn); [by left|].
  apply (kinds_disp k (if closed w then DLooking p else DBlocked p i) s); [apply this_disp|intros k'; apply other_disp|done|by apply grows_same| | |done].
  - intros q Hq. assert (q = p) as ->; [|done]. destruct (closed w); cbn in Hq; by apply list_elem_of_singleton in Hq.
  - intros q j [E|E]; destruct (closed w); simplify_eq; eauto.
Qed.

Lemma kinds_enqueue k c s s' : enqueue k c s = Some s' → Kinds s → Kinds s'.
Proof.
  unfold enqueue. destruct (disp k s) as [| | |p i|] eqn:Hd; try done. destruct (table s !! i) as [w|] eqn:Hi; [|done].
  destruct c; (case_if; [|done]); intros [= <-] Hk.
  - assert (Hp : kind p = k) by (apply Hk; rewrite Hd; by left). destruct (proj2 (proj2 Hk) k p i) as (w' & Hw' & Hn); [by right|]. rewrite Hi in Hw'. injection Hw' as <-.
    set (l' := set_queue _ _). set (s1 := set_table (<[i:=set_lane k l' w]> (table s)) s).
    apply (kinds_disp k DIdle s); [apply this_disp|intros k'; exact (other_disp k k' DIdle s1)| |exact (grows_lane s i w k l' Hi s1 eq_refl)|
      intros q Hq; by apply elem_of_nil in Hq|intros ? ? [? | ?]; done|done].
    destruct Hk as [[Hw Hh] _]. split; [|done]. cbn. intros j w0 Hj. destruct (decide (i = j)) as [<-|Hne]; [|rewrite list_lookup_insert_ne in Hj by done; by eapply Hw].
    rewrite list_lookup_insert_eq in Hj by (by eapply lookup_lt_Some). injection Hj as <-. intros k'. rewrite lane_set, (proj1 (lane_same k l' w)). specialize (Hw _ _ Hi k').
    case_decide as E; [subst k'|done]. unfold lane_packets, l' in *. cbn. rewrite !app_assoc in *. apply Forall_app. split; [done|]. by apply Forall_singleton.
  - apply (kinds_disp k (DLooking p) s); [apply this_disp|intros k'; apply other_disp|by apply Hk|by apply grows_same| |intros ? ? [? | ?]; done|done].
    intros q Hq. apply Hk. rewrite Hd. exact Hq.
  - apply (kinds_letgo k DEnded s); try done; [exact (this_disp k DEnded s)|]. intros k'. exact (other_disp k k' DEnded s).
Qed.

Lemma workers_grow_trans s1 s2 s3 : grows s1 s2 → grows s2 s3 → grows s1 s3.
Proof. intros H1 H2 j w Hj. destruct (H1 j w Hj) as (w' & Hw' & E). destruct (H2 j w' Hw') as (w2 & Hw2 & E2). exists w2. by rewrite E2. Qed.

Lemma grows_append s s' l : table s' = table s ++ l → grows s s'.
Proof. intros E j w Hj. exists w. rewrite E. split; [by apply lookup_app_l_Some|done]. Qed.

Lemma touch_grows s s' : touch s s' → grows s s'.
Proof.
  intros [E _ _|n E _ _|c x h E _ _ _|c x E _ _|i E _ _|E _ _]; try by apply grows_same; try (by eapply grows_append).
  - by eapply grows_append.
  - by eapply grows_append.
  - intros j w Hj. rewrite E. destruct (decide (i = j)) as [<-|Hne].
    + exists (set_closed w). by rewrite list_lookup_alter_eq, Hj.
    + exists w. by rewrite list_lookup_alter_ne.
Qed.

Lemma control_grows `{GoRange} l s s' : label_ok l → InvA s → is_control l = true → step l s = Some s' → grows s s'.
Proof.
  intros Hok Hinv Hc Hs. pose proof (control_touches l s s' Hok Hinv Hc Hs) as Ht. clear Hs Hinv.
  induction Ht as [s|s1 s2 s3 H1 _ IH]; [by apply grows_same|]. eapply workers_grow_trans; [by apply touch_grows|done].
Qed.

Lemma set_detached_table ds s : table (set_detached ds s) = table s.
Proof. unfold set_detached, after_stop, next_build. destruct (ctl s) as [| |ds0 l| |]; try done. destruct ds; [|done]. by destruct l. Qed.

Lemma step_kinds `{GoRange} l s s' : label_ok l → InvA s → quiet_before s → step l s = Some s' → Kinds s → Kinds s'.
Proof.
  intros Hok Hinv Hq Hs Hk. destruct (is_control l) eqn:Hc.
  - pose proof (control_grows l s s' Hok Hinv Hc Hs) as Hg. pose proof (control_keeps l s s' Hok Hinv Hs) as Hd. destruct Hk as (Hl & Hh & Ht).
    assert (Hl' : Local worker_kinds hold_kinds s') by
      (refine (local_control worker_kinds hold_kinds _ _ kinds_new l s s' Hok Hinv Hc Hs Hl); [by intros w Hw k; specialize (Hw k); destruct k|done]).
    assert (Hst : (∀ k, disp k s' = disp k s) ∨ (∀ k, hand (disp k s') = [] ∧ ∀ p i, disp k s' ≠ DTarget p i ∧ disp k s' ≠ DBlocked p i)).
    { destruct l; try done; try (left; destruct Hd as (E1 & E2 & _); intros []; done). right. cbn in Hs. unfold StartAll in Hs. destruct (ctl s), (dispatch s); try done.
      case_if_in Hs; [done|]. injection Hs as <-. by intros []. }
    split_and!; [done|..].
    + intros k p Hp. destruct Hst as [E|E]; [rewrite E in Hp; by apply Hh|]. rewrite (proj1 (E k)) in Hp. by apply elem_of_nil in Hp.
    + intros k p i Hp. destruct Hst as [E|E]; [|destruct (proj2 (E k) p i); tauto]. rewrite E in Hp. destruct (Ht k p i Hp) as (w & Hw & Hn). by eapply table_target.
  - destruct l; try done; cbn in Hs; eauto using kinds_publish, kinds_dispatcher_ends, kinds_route, kinds_lock, kinds_enqueue.
    + eapply kinds_lane; [done|apply take_next_keeps|done].
    + eapply kinds_lane; [done|apply send_returns_keeps|done].
    + eapply kinds_lane; [done|apply notice_done_keeps|done].
    + eapply kinds_lane; [done|apply drain_one_keeps|done].
    + eapply kinds_lane; [done|apply queue_empty_keeps|done].
    + eapply kinds_lane; [done|apply lane_exits_keeps|done].
Qed.

(** ** One worker of a name takes messages *)

(** No worker of that name had to be left behind. *)
Definition clean (n : string) (s : State) : Prop := LeftBehind n ∉ trace s.

Definition w_name (w : Worker) : string := c_name (w_chan w).
Definition running (k : Kind) (w : Worker) : Prop := pc (lane k w) = Running.

(** A worker that still takes messages is the one in the maps, or is being waited for;
    an earlier worker of the same name does not. *)
Record InvR (s : State) : Prop := {
  ir_running : ∀ i w k, clean (w_name w) s → table s !! i = Some w → running k w →
    workers (maps s) !! w_name w = Some i ∨ ∃ d, d ∈ taken_out (ctl s) ∧ d_worker d = Some i ∧ d_name d = w_name w ∧ d_pc d ≠ SStop;
  ir_one : ∀ i j wi wj k, clean (w_name wi) s → table s !! i = Some wi → table s !! j = Some wj → i < j → w_name wi = w_name wj → ¬ running k wi
}.

(** Workers keep their channel, and do not run again. *)
Definition fades (s s' : State) : Prop :=
  ∀ i w', table s' !! i = Some w' → ∃ w, table s !! i = Some w ∧ w_chan w' = w_chan w ∧ ∀ k, running k w' → running k w.

Lemma fades_same s s' : table s' = table s → fades s s'.
Proof. intros E i w' Hi. rewrite E in Hi. by exists w'. Qed.

Lemma clean_mono n s s' evs : trace s' = trace s ++ evs → clean n s' → clean n s.
Proof. unfold clean. intros -> Hn Hx. apply Hn. rewrite elem_of_app. by left. Qed.

Lemma InvR_ext s s' : fades s s' → (∀ n, clean n s' → clean n s) → workers (maps s') = workers (maps s) →
  (∀ d i w k, d ∈ taken_out (ctl s) → d_worker d = Some i → d_name d = w_name w → d_pc d ≠ SStop → clean (w_name w) s' → table s' !! i = Some w → running k w →
     ∃ d', d' ∈ taken_out (ctl s') ∧ d_worker d' = Some i ∧ d_name d' = w_name w ∧ d_pc d' ≠ SStop) → InvR s → InvR s'.
Proof.
  intros Hf Hc Hw Hd [H1 H2]. split.
  - intros i w' k Hcl Hi Hr. destruct (Hf _ _ Hi) as (w & Hiw & E & Hk). assert (En : w_name w' = w_name w) by (unfold w_name; by rewrite E).
    rewrite Hw. destruct (H1 i w k) as [Hx|(d & Hdd & Hdw & Hdn & Hdp)]; [rewrite <- En; by apply Hc|done|by apply Hk| |].
    + left. by rewrite En.
    + right. apply (Hd d i w' k); try done. by rewrite En.
  - intros i j wi wj k Hcl Hi Hj Hij En Hr. destruct (Hf _ _ Hi) as (w1 & Hi1 & E1 & Hk1). destruct (Hf _ _ Hj) as (w2 & Hj2 & E2 & _).
    unfold w_name in *. rewrite E1, E2 in *. by apply (H2 i j w1 w2 k); [apply Hc| | | | |apply Hk1].
Qed.

(** Nothing changes for the control. *)
Lemma InvR_same s s' evs : fades s s' → trace s' = trace s ++ evs → workers (maps s') = workers (maps s) → taken_out (ctl s') = taken_out (ctl s) → InvR s → InvR s'.
Proof.
  intros Hf Ht Hw Hc. apply InvR_ext; [done|intros n; by eapply clean_mono|done|]. intros d i w k Hd Hi Hn Hp _ _ _. exists d. by rewrite Hc.
Qed.

Lemma fades_insert i w w' s s' : table s !! i = Some w → table s' = <[i := w']> (table s) → w_chan w' = w_chan w → (∀ k, running k w' → running k w) → fades s s'.
Proof.
  intros Hi E Hc Hr j w0 Hj. rewrite E in Hj. destruct (decide (i = j)) as [<-|Hne].
  - rewrite list_lookup_insert_eq in Hj by (by eapply lookup_lt_Some). injection Hj as <-. by exists w.
  - rewrite list_lookup_insert_ne in Hj by done. by exists w0.
Qed.

Definition lane_fades (f : Worker → Lane → option (Lane * list Event)) : Prop := ∀ w l l' evs, f w l = Some (l', evs) → pc l' = Running → pc l = Running.

Lemma R_lane i k f s s' : lane_fades f → on_lane i k f s = Some s' → InvR s → InvR s'.
Proof.
  intros Hf. unfold on_lane. destruct (table s !! i) as [w|] eqn:Hi; [|done]. destruct (f w (lane k w)) as [[l evs]|] eqn:Hl; [|done]. intros [= <-].
  apply (InvR_same _ _ evs); try done. eapply (fades_insert i w); [done|done|apply lane_same|]. intros k'. unfold running. rewrite lane_set. case_decide as E; [subst|done]. by eapply Hf.
Qed.

Lemma take_next_fades s k : lane_fades (take_next s k).
Proof. by intros w [[] [] b q] l' evs. Qed.
Lemma send_returns_fades r : lane_fades (send_returns r).
Proof. intros w [p [] b q] l' evs; unfold send_returns; cbn; [|done]. by intros [= <- <-]. Qed.
Lemma notice_done_fades s k : lane_fades (notice_done s k).
Proof. by intros w [[] [] [] q] l' evs; unfold notice_done; cbn. Qed.
Lemma drain_one_fades : lane_fades drain_one.
Proof. by intros w [[] fl b [|p q]] l' evs; unfold drain_one; cbn; try done; intros [= <- <-]. Qed.
Lemma queue_empty_fades : lane_fades queue_empty.
Proof. by intros w [[] [] [] []] l' evs; unfold queue_empty; cbn; try done; intros [= <- <-]. Qed.
Lemma lane_exits_fades : lane_fades lane_exits.
Proof. intros w l l' evs. unfold lane_exits. case_if; [|done]. by intros [= <- <-]. Qed.

(** A new worker of a name that has none. *)
Lemma R_spawn s s' c x t m : InvR s → table s' = table s ++ [new_worker c x t m] → workers (maps s') = <[c_name c := length (table s)]> (workers (maps s)) →
  taken_out (ctl s') = taken_out (ctl s) → (∀ n, clean n s' → clean n s) → workers (maps s) !! c_name c = None → c_name c ∉ map d_name (taken_out (ctl s)) → InvR s'.
Proof.
  intros [H1 H2] Et Ew Ec Hcl Hw Hn. set (w := new_worker c x t m) in *.
  assert (Hno : ∀ i w0 k, clean (c_name c) s' → table s !! i = Some w0 → w_name w0 = c_name c → ¬ running k w0).
  { intros i w0 k Hc Hi En Hr. destruct (H1 i w0 k) as [Hx|(d & Hd & _ & Hdn & _)]; [rewrite En; by apply Hcl|done|done|congruence|].
    apply Hn. apply list_elem_of_fmap. exists d. split; [congruence|done]. }
  assert (Hcase : ∀ i w0, table s' !! i = Some w0 → table s !! i = Some w0 ∨ i = length (table s) ∧ w0 = w).
  { intros i w0 Hi. rewrite Et in Hi. apply lookup_app_Some in Hi as [Hi|[Hge Hi]]; [by left|right]. apply list_lookup_singleton_Some in Hi as [Hi <-]. split; [lia|done]. }
  split.
  - intros i w0 k Hc Hi Hr. rewrite Ew, Ec. destruct (Hcase i w0 Hi) as [Hi0|[-> ->]]; [|left; unfold w_name; cbn; by rewrite lookup_insert_eq].
    destruct (decide (w_name w0 = c_name c)) as [E|E]; [exfalso; eapply Hno; [rewrite <- E; exact Hc|exact Hi0|exact E|exact Hr]|].
    destruct (H1 i w0 k) as [Hx|Hx]; [by apply Hcl|done|done| |by right]. left. by rewrite lookup_insert_ne.
  - intros i j wi wj k Hc Hi Hj Hij En Hr. destruct (Hcase i wi Hi) as [Hi0|[-> ->]].
    + destruct (Hcase j wj Hj) as [Hj0|[-> ->]]; [by eapply (H2 i j wi wj k); [apply Hcl| | | | |]|].
      eapply Hno; [|exact Hi0|exact En|exact Hr]. change (c_name c) with (w_name w). by rewrite <- En.
    + assert (Hlt := lookup_lt_Some _ _ _ Hj). rewrite Et, length_app in Hlt. cbn in Hlt. lia.
Qed.

Lemma R_publish k n s s' : publish k n s = Some s' → InvR s → InvR s'.
Proof. unfold publish. destruct (disp k s); try done. case_if; intros [= <-]; [done|]. eapply InvR_same; [by apply fades_same|done..]. Qed.

Lemma R_nil s s' : fades s s' → trace s' = trace s → workers (maps s') = workers (maps s) → taken_out (ctl s') = taken_out (ctl s) → InvR s → InvR s'.
Proof. intros Hf Ht. apply (InvR_same s s' []); [done|by rewrite Ht, app_nil_r]. Qed.

Lemma R_route k s s' : route k s = Some s' → InvR s → InvR s'.
Proof.
  unfold route. destruct (disp k s); try done. case_if; [intros [= <-]; eapply InvR_same; [by apply fades_same|done..]|]. case_if; [done|].
  destruct (held (maps s) !! to p); [destruct (hold _ _)|destruct (channels (maps s) !! to p); [destruct (workers (maps s) !! to p)|]]; intros [= <-];
    solve [apply R_nil; [by apply fades_same|done..]|eapply InvR_same; [by apply fades_same|done..]].
Qed.

Lemma R_enqueue k c s s' : enqueue k c s = Some s' → InvR s → InvR s'.
Proof.
  unfold enqueue. destruct (disp k s); try done. destruct (table s !! w) as [w0|] eqn:Hi; [|done]. destruct c; (case_if; [|done]); intros [= <-].
  - apply R_nil; [|done..]. eapply (fades_insert w w0); [done|done|apply lane_same|]. intros k'. unfold running. rewrite lane_set. by case_decide as E; [subst|].
  - apply R_nil; [by apply fades_same|done..].
  - eapply InvR_same; [by apply fades_same|done..].
Qed.

Lemma taken_starting ps : taken_out (starting ps) = [].
Proof. by destruct ps. Qed.

Lemma R_start_returns i ok s s' : start_returns i ok s = Some s' → InvA s → InvR s → InvR s'.
Proof.
  unfold start_returns. destruct (ctl s) as [|ps| | |] eqn:Hc; try done. destruct (ps !! i) as [p|] eqn:Hi; [|done]. set (s1 := set_ctl _ _). intros [= <-] Hinv Hr.
  assert (E : table s1 = table s ∧ trace s1 = trace s ∧ maps s1 = maps s ∧ taken_out (ctl s1) = []) by (unfold s1; destruct ok; cbn; by rewrite taken_starting).
  destruct E as (E1 & E2 & E3 & E4). assert (Hr1 : InvR s1) by (revert Hr; apply R_nil; [by apply fades_same|done|by rewrite E3|by rewrite E4, Hc]).
  destruct (ia_free _ Hinv (c_name (p_chan p))) as [Hw _].
  { rewrite Hc. unfold awaiting. cbn. rewrite app_nil_r. apply list_elem_of_fmap_2, list_elem_of_fmap_2. by eapply list_elem_of_lookup_2. }
  unfold abandonStart, started. destruct (takeHeld (c_name (p_chan p)) s1) as [s2 [t m]] eqn:Ht. apply takeHeld_held in Ht. subst s2.
  case_if; [revert Hr1; eapply InvR_same; [by apply fades_same|done..]|]. case_if; [revert Hr1; eapply InvR_same; [by apply fades_same|done..]|].
  destruct ok; [|revert Hr1; eapply InvR_same; [by apply fades_same|done..]].
  eapply (R_spawn s1); [done|done|done|done|done|by rewrite E3|by rewrite E4; intros ?%elem_of_nil].
Qed.

Lemma R_retry_returns i ok s s' : retry_returns i ok s = Some s' → InvA s → InvR s → InvR s'.
Proof.
  unfold retry_returns. destruct (retriers s !! i) as [r|] eqn:Hi; [|done]. case_if; [done|]. destruct ok; [case_if; [done|]; case_if|case_if]; intros [= <-] Hinv Hr.
  - apply andb_true_iff in Heqb1 as [Hd%negb_true_iff _]. destruct (retry_free s (r_chan r) (r_ctx r) Hinv) as [Hw Hn]; [|done|].
    { apply list_elem_of_fmap. exists r. split; [done|]. by eapply list_elem_of_lookup_2. }
    rewrite elem_of_app in Hn. eapply (R_spawn s); try done. tauto.
  - revert Hr. eapply InvR_same; [by apply fades_same|done..].
  - revert Hr. apply R_nil; [by apply fades_same|done..].
  - revert Hr. eapply InvR_same; [by apply fades_same|done..].
Qed.

(** The channels being stopped: their workers keep running until they are waited for. *)
Lemma R_set_detached ds ds' all s s0 evs : detached_of s = Some (ds, all) → ctl s0 = ctl s → fades s s0 → trace s0 = trace s → workers (maps s0) = workers (maps s) →
  (∀ d i w k, d ∈ ds → d_worker d = Some i → d_name d = w_name w → d_pc d ≠ SStop → LeftBehind (w_name w) ∉ evs → table s0 !! i = Some w → running k w →
     ∃ d', d' ∈ ds' ∧ d_worker d' = Some i ∧ d_name d' = w_name w ∧ d_pc d' ≠ SStop) → InvR s → InvR (log evs (set_detached ds' s0)).
Proof.
  intros Hd C Hf Ht Hw Hds. assert (E : workers (maps (set_detached ds' s0)) = workers (maps s0) ∧ trace (set_detached ds' s0) = trace s0).
  { unfold set_detached, after_stop, next_build. destruct (ctl s0) as [| |ds0 l| |]; try done. destruct ds' as [|d ds']; [|done]. by destruct l. }
  destruct E as [E1 E2]. apply InvR_ext.
  - intros i w'. cbn. rewrite set_detached_table. apply Hf.
  - intros n. eapply clean_mono. cbn. by rewrite E2, Ht.
  - cbn. by rewrite E1.
  - intros d i w k Hin Hi Hn Hp Hc Hti Hrun. cbn in *. rewrite set_detached_table in Hti.
    assert (Htk : taken_out (ctl (set_detached ds' s0)) = ds').
    { unfold set_detached, detached_of in *. rewrite C in *. destruct (ctl s) as [| |ds0 l| |]; simplify_eq; try by apply elem_of_nil in Hin.
      unfold after_stop. destruct ds' as [|d' ds']; [|done]. unfold next_build, built. destruct l; [|done]. cbn. case_bool_decide; [by destruct (map pend [])|done]. }
    rewrite Htk. apply (Hds d i w k); try done; [unfold detached_of in Hd; destruct (ctl s); cbn in *; simplify_eq; [done|by apply elem_of_nil in Hin]|].
    unfold clean in Hc. cbn in Hc. rewrite elem_of_app in Hc. tauto.
Qed.

Lemma R_stop_step i c s s' : stop_step i c s = Some s' → InvR s → InvR s'.
Proof.
  unfold stop_step. destruct (detached_of s) as [[ds all]|] eqn:Hd; [|done]. destruct (ds !! i) as [d|] eqn:Hi; [|done]. case_if; [done|]. intros Hs.
  assert (Hlen : i < length ds) by (by eapply lookup_lt_Some).
  assert (Hmove : ∀ p s0 evs, ctl s0 = ctl s → fades s s0 → trace s0 = trace s → workers (maps s0) = workers (maps s) →
    (p ≠ SStop ∨ ∀ j w k, d_worker d = Some j → d_name d = w_name w → LeftBehind (w_name w) ∉ evs → table s0 !! j = Some w → ¬ running k w) →
    InvR s → InvR (log evs (set_detached (<[i := set_spc p d]> ds) s0))).
  { intros p s0 evs E1 E2 E3 E4 Hp. eapply R_set_detached; try done. intros d0 j w k Hin Hj Hn Hpc Hev Hti Hrun.
    apply list_elem_of_lookup in Hin as [x Hx]. destruct (decide (i = x)) as [<-|Hne].
    - rewrite Hi in Hx. injection Hx as <-. destruct Hp as [Hp|Hp]; [|by destruct (Hp j w k)]. exists (set_spc p d). split; [|done].
      apply list_elem_of_lookup. exists i. by apply list_lookup_insert_eq.
    - exists d0. split; [|done]. apply list_elem_of_lookup. exists x. by rewrite list_lookup_insert_ne. }
  destruct c, (d_pc d) eqn:Hpc; try done.
  - destruct (d_worker d) as [j|] eqn:Hw; [case_if_in Hs; [done|]|]; injection Hs as <-; rewrite <- (log_nil (set_detached _ _)); apply Hmove; try done; try (by left); [|by apply fades_same|by right].
    intros x w' Hx. cbn in Hx. destruct (decide (j = x)) as [<-|Hne].
    + rewrite list_lookup_alter_eq in Hx. destruct (table s !! j) as [w|] eqn:Hj; [|done]. injection Hx as <-. exists w. split_and!; [done|done|by intros []].
    + rewrite list_lookup_alter_ne in Hx by done. by exists w'.
  - destruct (d_worker d) as [j|] eqn:Hw; [|done]. case_if_in Hs; [|done]. injection Hs as <-. rewrite <- (log_nil (set_detached _ _)). apply Hmove; try done; [by apply fades_same|].
    right. intros j' w k [= <-] _ _ Hj. unfold has_exited in Heqb0. rewrite Hj in Heqb0. apply andb_true_iff in Heqb0 as [H1%bool_decide_eq_true H2%bool_decide_eq_true].
    unfold running. by destruct k; cbn; rewrite ?H1, ?H2.
  - destruct (d_worker d) as [j|] eqn:Hw; [|done]. case_if_in Hs; [|done]. injection Hs as <-. rewrite <- (log_nil (set_detached _ _)). apply Hmove; try done; [by apply fades_same|].
    right. intros j' w k [= <-] _ _ Hj. unfold has_exited in Heqb0. rewrite Hj in Heqb0. apply andb_true_iff in Heqb0 as [H1%bool_decide_eq_true H2%bool_decide_eq_true].
    unfold running. by destruct k; cbn; rewrite ?H1, ?H2.
  - injection Hs as <-. rewrite <- (log_nil (set_detached _ _)). apply Hmove; try (by destruct (d_cancel d)); [apply fades_same; by destruct (d_cancel d)|by left].
  - injection Hs as <-. apply Hmove; try done; [by apply fades_same|]. right. intros j w k _ Hn Hev. exfalso. apply Hev. unfold d_name in Hn. rewrite Hn. by left.
  - injection Hs as <-. set (s1 := match d_cancel d with Some x => _ | None => s end). destruct (remove_at_split _ _ _ Hi) as (l1 & l2 & Hl & Hr).
    apply (R_set_detached ds _ all s (set_up (up s1 ∖ {[d_chan d]}) s1)); try done; try (unfold s1; by destruct (d_cancel d)); [apply fades_same; unfold s1; by destruct (d_cancel d)|].
    intros d0 j w k Hin Hj Hn Hp _ _ _. exists d0. split; [|done]. rewrite Hr. rewrite Hl in Hin. rewrite elem_of_app, elem_of_cons in Hin. rewrite elem_of_app.
    destruct Hin as [?|[->|?]]; [by left|congruence|by right].
Qed.

Lemma R_detach c rm ds l s : InvR (set_ctl (CtlStopping ds l) s) → let '(s', d) := detachLocked c rm s in InvR (set_ctl (CtlStopping (ds ++ [d]) l) s').
Proof.
  intros [H1 H2]. pose proof (detach_same c rm s) as Hs. set (s' := (detachLocked c rm s).1). set (d := (detachLocked c rm s).2).
  change (InvR (set_ctl (CtlStopping (ds ++ [d]) l) s')).
  assert (E : trace s' = trace s ∧ table s' = table s) by (revert Hs; unfold s'; destruct (detachLocked c rm s) as [s1 d1]; naive_solver). destruct E as [Et Etb].
  assert (Ew : workers (maps s') = delete (c_name c) (workers (maps s))) by (unfold s', detachLocked; cbn; by destruct (workers (maps s) !! c_name c), (cancels (maps s) !! c_name c)).
  split; unfold clean in *; cbn in *; rewrite Et, Etb; [|done].
  intros i w k Hc Hi Hr. rewrite Ew. destruct (H1 i w k Hc Hi Hr) as [Hx|(d0 & Hd0 & Hx)].
  - destruct (decide (w_name w = c_name c)) as [E|E]; [|left; by rewrite lookup_delete_ne]. right. exists d. rewrite elem_of_app, list_elem_of_singleton. split; [by right|].
    rewrite E in Hx. split_and!; [exact Hx|done|done].
  - right. exists d0. rewrite elem_of_app. split; [by left|done].
Qed.

Lemma R_Reload `{GoRange} l store s s' : NoDup (map name l) → Reload l store s = Some s' → InvA s → InvR s → InvR s'.
Proof.
  unfold Reload. destruct (ctl s) eqn:Hc; try done. intros Hnd Hr Hinv HR.
  pose proof (sort_specs_ind (λ s1 r1, InvR (sorting s1 r1)) l store s Hnd Hinv Hc) as Hm. destruct (sort_specs l store s) as [s1 r]. injection Hr as <-.
  assert (H1 : InvR (sorting s1 r)).
  { apply Hm.
    - revert HR. apply R_nil; [by apply fades_same|done|done|by rewrite Hc].
    - intros changed sp s0 r0 _ _ H0. unfold sort_spec. destruct (channels (maps s0) !! name sp) as [c|].
      + case_if; [revert H0; apply R_nil; [by apply fades_same|done..]|]. pose proof (R_detach c false _ _ _ H0) as Hd. destruct (detachLocked c false s0) as [s2 d].
        revert Hd. unfold new_hold. case_if; (apply R_nil; [by apply fades_same|done..]).
      + revert H0. unfold new_hold. case_if; (apply R_nil; [by apply fades_same|done..]).
    - intros n c s0 r0 _ _ H0. unfold sort_gone. case_if; [done|]. pose proof (R_detach c true _ _ _ H0) as Hd. destruct (detachLocked c true s0) as [s2 d].
      revert Hd. apply R_nil; [by apply fades_same|done..]. }
  revert H1. unfold sorting, after_stop. destruct (stopping r) as [|d ds]; [|done]. apply R_nil.
  - apply fades_same. by destruct (building r).
  - by destruct (building r).
  - by destruct (building r).
  - destruct (building r); [|done]. cbn. by case_bool_decide.
Qed.

Lemma step_R `{GoRange} l s s' : label_ok l → InvA s → step l s = Some s' → InvR s → InvR s'.
Proof.
  intros Hok Hinv. destruct l; cbn; intros Hs; eauto using R_publish, R_route, R_enqueue, R_start_returns, R_retry_returns, R_stop_step, R_Reload.
  - unfold dispatcher_ends in Hs. destruct (disp k s); try done. case_if_in Hs; [|done]. injection Hs as <-. apply R_nil; [by apply fades_same|done..].
  - unfold lock_worker in Hs. destruct (disp k s); try done. destruct (table s !! w); [|done]. injection Hs as <-. apply R_nil; [by apply fades_same|done..].
  - eapply R_lane; [apply take_next_fades|done].
  - eapply R_lane; [apply send_returns_fades|done].
  - eapply R_lane; [apply notice_done_fades|done].
  - eapply R_lane; [apply drain_one_fades|done].
  - eapply R_lane; [apply queue_empty_fades|done].
  - eapply R_lane; [apply lane_exits_fades|done].
  - unfold StartAll in Hs. destruct (ctl s) eqn:Hc, (dispatch s); try done. case_if_in Hs; [done|]. injection Hs as <-.
    apply R_nil; [by apply fades_same|done|done|]. cbn. by rewrite taken_starting, Hc.
  - unfold cancel_starts in Hs. destruct (ctl s) eqn:Hc; injection Hs as <-; try done. apply R_nil; [by apply fades_same|done|done|by rewrite Hc].
  - unfold retry_wakes in Hs. destruct (retriers s !! i); [|done]. case_if_in Hs; [done|]. injection Hs as <-. apply R_nil; [by apply fades_same|done..].
  - unfold retry_quits in Hs. destruct (retriers s !! i); [|done]. case_if_in Hs; [|done]. injection Hs as <-. apply R_nil; [by apply fades_same|done..].
  - unfold build_next in Hs. destruct (ctl s) as [| | |[|sp l] ts|] eqn:Hc; try done.
    assert (E : ∀ ts s0, taken_out (ctl (next_build l ts s0)) = [] ∧ table (next_build l ts s0) = table s0 ∧ trace (next_build l ts s0) = trace s0 ∧ maps (next_build l ts s0) = maps s0).
    { intros ts0 s0. unfold next_build, built. destruct l; cbn; [|done]. case_bool_decide; by rewrite ?taken_starting. }
    destruct ok; [injection Hs as <-|].
    + match goal with |- _ → InvR (next_build _ ?ts ?x) => destruct (E ts x) as (E1 & E2 & E3 & E4) end. apply R_nil; [apply fades_same; by rewrite E2|by rewrite E3|by rewrite E4|by rewrite E1, Hc].
    + destruct (takeHeld _ _) as [s2 [t m]] eqn:Ht. injection Hs as <-. apply takeHeld_held in Ht. destruct (E ts (dropHeld t m s2)) as (E1 & E2 & E3 & E4).
      eapply InvR_same; [apply fades_same; by rewrite E2, Ht|by rewrite E3, Ht|by rewrite E4, Ht|by rewrite E1, Hc].
  - rewrite (StopAll_eq _ _ Hs Hinv). unfold StopAll in Hs. destruct (ctl s) eqn:Hc; try done. apply R_nil; [by apply fades_same|done|done|].
    cbn. rewrite Hc. by destruct (map _ (map_to_list (channels (maps s)))).
Qed.

(** ** The line of a channel *)

(** What a goroutine that still takes messages has not taken yet. *)
Definition rest (l : Lane) : list Packet := match pc l with Running => backlog l ++ queue l | _ => [] end.

Definition rests (n : string) (k : Kind) (t : list Worker) : list Packet :=
  flat_map (λ w, if decide (w_name w = n) then rest (lane k w) else []) t.

Definition h_of (k : Kind) (h : Hold) : list Packet := match k with Text => h_text h | Media => h_media h end.
Definition held_of (n : string) (k : Kind) (m : gmap string Hold) : list Packet := h_of k (default no_hold (m !! n)).

(** What the workers from the [i]-th on, and the hold, have for a channel. *)
Definition behind (i : nat) (n : string) (k : Kind) (s : State) : list Packet := rests n k (list.drop i (table s)) ++ held_of n k (held (maps s)).
Definition hand_of (n : string) (k : Kind) (s : State) : list Packet := filter (λ p, to p = n) (hand (disp k s)).

(** The messages of a kind given to the workers of a channel to send. *)
Definition given (n : string) (k : Kind) (l : list (Chan * Packet)) : list Packet := map snd (filter (λ x, c_name x.1 = n ∧ kind x.2 = k) l).
Definition attempts (n : string) (k : Kind) (l : list Event) : list Packet := given n k (attempted l).

Definition line (n : string) (k : Kind) (s : State) : list Packet := attempts n k (trace s) ++ behind 0 n k s ++ hand_of n k s.

(** A dispatcher that has found a worker is about to put its message behind everything
    else there is for the channel. *)
Definition aims (k : Kind) (s : State) (p : Packet) (i : nat) : Prop := disp k s = DTarget p i ∨ disp k s = DBlocked p i.

Record InvL (n : string) (k : Kind) (s : State) : Prop := {
  il_sorted : clean n s → StronglySorted lt (map number (line n k s) ++ [next_number s]);
  il_target : clean n s → ∀ p i, aims k s p i → to p = n → behind (S i) n k s = []
}.

Lemma sorted_sublist (l1 l2 : list nat) : l1 `sublist_of` l2 → StronglySorted lt l2 → StronglySorted lt l1.
Proof.
  induction 1 as [|x l1 l2 Hs IH|x l1 l2 Hs IH]; [done|..]; intros [Hf Hl]%StronglySorted_cons; [|by apply IH].
  apply StronglySorted_cons. split; [|by apply IH]. rewrite Forall_forall in *. eauto using elem_of_sublist.
Qed.

Lemma rests_app n k l1 l2 : rests n k (l1 ++ l2) = rests n k l1 ++ rests n k l2.
Proof. apply flat_map_app. Qed.

Lemma rests_closed n k j i t : rests n k (list.drop j (alter set_closed i t)) = rests n k (list.drop j t).
Proof.
  revert i j. induction t as [|w t IH]; intros [|i] [|j]; try (by destruct k); cbn.
  - f_equal. apply (IH i 0).
  - apply IH.
Qed.

Lemma touch_behind n k s s' : touch s s' → length (table s) ≤ length (table s') ∧ ∀ j, j ≤ length (table s) → behind j n k s' `sublist_of` behind j n k s.
Proof.
  intros Ht. unfold behind, held_of. destruct Ht as [E1 E2 _|m E1 E2 _|c x h E1 -> E2 _|c x E1 E2 _|i E1 E2 _|E1 E2 _]; rewrite E1; rewrite ?E2.
  - done.
  - split; [done|]. intros j _. apply sublist_app; [done|]. destruct (decide (m = n)) as [->|Hne]; [|by rewrite lookup_delete_ne].
    rewrite lookup_delete_eq. destruct k; apply sublist_nil_l.
  - rewrite length_app. split; [lia|]. intros j Hj. rewrite drop_app_le, rests_app, <- app_assoc by done. apply sublist_app; [done|]. cbn. unfold w_name. cbn. rewrite app_nil_r.
    case_decide as E; [subst n; rewrite lookup_delete_eq|by rewrite lookup_delete_ne]. destruct k; cbn; by rewrite !app_nil_r.
  - rewrite length_app. split; [lia|]. intros j Hj. rewrite drop_app_le, rests_app, <- app_assoc by done. apply sublist_app; [done|]. cbn. by destruct (decide _), k.
  - rewrite length_alter. split; [done|]. intros j _. by rewrite rests_closed.
  - split; [done|]. intros j _. apply sublist_app; [done|]. destruct (held (maps s') !! n) as [h|] eqn:Hh; cbn; [|destruct k; apply sublist_nil_l].
    destruct (E2 n h Hh) as [-> | ->]; [destruct k; apply sublist_nil_l|done].
Qed.

(** Nothing is added, and nothing comes behind a message about to be enqueued. *)
Lemma L_shrinks n k s s' : (clean n s' → clean n s) → (clean n s → line n k s' `sublist_of` line n k s) → next_number s' = next_number s →
  (clean n s → ∀ p i, aims k s' p i → to p = n → aims k s p i ∧ behind (S i) n k s' `sublist_of` behind (S i) n k s ∨ behind (S i) n k s' = []) → InvL n k s → InvL n k s'.
Proof.
  intros Hc Hl Hn Ht [H1 H2]. split.
  - intros Hcl%Hc. rewrite Hn. eapply sorted_sublist; [|by apply H1]. apply sublist_app; [|done]. apply (fmap_sublist number). by apply Hl.
  - intros Hcl%Hc p i Hd Hp. destruct (Ht Hcl p i Hd Hp) as [[Ha Hs]|Hs]; [|done]. rewrite (H2 Hcl p i Ha Hp) in Hs. by apply sublist_nil_r in Hs.
Qed.

Lemma L_control n k s s' : (clean n s' → clean n s) → touches s s' → disp k s' = disp k s ∨ (∀ p i, ¬ aims k s' p i) ∧ hand (disp k s') = [] → next_number s' = next_number s →
  (∀ p i, aims k s p i → i < length (table s)) → InvL n k s → InvL n k s'.
Proof.
  intros Hc Ht Hd Hn Hlen. assert (Hb : length (table s) ≤ length (table s') ∧ (∀ j, j ≤ length (table s) → behind j n k s' `sublist_of` behind j n k s) ∧ attempted (trace s') = attempted (trace s)).
  { clear -Ht. induction Ht as [s|s1 s2 s3 H1 _ (A1 & A2 & A3)]; [by split_and!|]. destruct (touch_behind n k _ _ H1) as [B1 B2]. split_and!; [lia| |rewrite A3; by destruct H1].
    intros j Hj. transitivity (behind j n k s2); [apply A2; lia|by apply B2]. }
  destruct Hb as (_ & Hb & Ha). apply L_shrinks; [done| |done|].
  - intros _. unfold line, attempts, hand_of. rewrite Ha. apply sublist_app; [done|]. apply sublist_app; [apply Hb; lia|]. destruct Hd as [->|[_ ->]]; [done|apply sublist_nil_l].
  - intros _ p i Hx Hp. left. destruct Hd as [E|[E _]]; [|by destruct (E p i)]. unfold aims in *. rewrite E in Hx. split; [done|]. apply Hb. apply Hlen in Hx. lia.
Qed.

(** *** The workers' steps *)

(** A worker's step takes the head of what it has left, or lets some go. *)
Definition takes_head (f : Worker → Lane → option (Lane * list Event)) : Prop := ∀ w l l' evs, f w l = Some (l', evs) →
  attempted evs = [] ∧ rest l' `sublist_of` rest l ∨ ∃ p, pc l = Running ∧ attempted evs = [(w_chan w, p)] ∧ rest l = p :: rest l'.

Lemma take_next_head s k : takes_head (take_next s k).
Proof.
  intros w [[] [] b q] l' evs; unfold take_next; cbn; try done. destruct b as [|p b].
  - destruct q as [|p q]; intros [= <- <-]. right. by exists p.
  - destruct (ctx_done s (w_ctx w)); [|intros [= <- <-]; right; by exists p]. destruct k; intros [= <- <-]; left; cbn.
    + split; [done|]. by apply sublist_cons.
    + split; [apply attempted_dropped|]. by apply sublist_cons, sublist_inserts_l.
Qed.
Lemma send_returns_head r : takes_head (send_returns r).
Proof. intros w [p [] b q] l' evs; unfold send_returns; cbn; [|done]. intros [= <- <-]. by left. Qed.
Lemma notice_done_head s k : takes_head (notice_done s k).
Proof.
  intros w [[] [] [] q] l' evs; unfold notice_done; cbn; try done. case_if; [|done]. intros [= <- <-]. left. split; [done|]. destruct k; apply sublist_nil_l.
Qed.
Lemma drain_one_head : takes_head drain_one.
Proof. intros w [[] ? ? [|]] l' evs; unfold drain_one; cbn; try done. intros [= <- <-]. by left. Qed.
Lemma queue_empty_head : takes_head queue_empty.
Proof. intros w [[] [] [] []] l' evs; unfold queue_empty; cbn; try done; [case_if; [|done]|]; intros [= <- <-]; by left. Qed.
Lemma lane_exits_head : takes_head lane_exits.
Proof. intros w [[] ? ? ?] l' evs; unfold lane_exits; cbn; try done. intros [= <- <-]. by left. Qed.

(** What one worker has for a channel. *)
Definition item (n : string) (k : Kind) (w : Worker) : list Packet := if decide (w_name w = n) then rest (lane k w) else [].

Lemma rests_nil n k t : (∀ j w, t !! j = Some w → w_name w = n → ¬ running k w) → rests n k t = [].
Proof.
  induction t as [|w t IH]; intros Ht; [done|]. change (item n k w ++ rests n k t = []). rewrite IH by (intros j; apply (Ht (S j))). rewrite app_nil_r. unfold item. case_decide as E; [|done].
  specialize (Ht 0 w eq_refl E). unfold running in Ht. unfold rest. by destruct (pc (lane k w)).
Qed.

Lemma rests_insert n k t i w w' j : t !! i = Some w → item n k w' `sublist_of` item n k w → rests n k (list.drop j (<[i:=w']> t)) `sublist_of` rests n k (list.drop j t).
Proof.
  revert i j. induction t as [|w0 t IH]; intros [|i] [|j] Hi Hs; try done; cbn.
  - injection Hi as ->. by apply sublist_app.
  - apply sublist_app; [done|]. by apply (IH i 0).
  - by apply IH.
Qed.

Lemma rests_insert_same n k t i w w' j : t !! i = Some w → item n k w' = item n k w → rests n k (list.drop j (<[i:=w']> t)) = rests n k (list.drop j t).
Proof.
  revert i j. induction t as [|w0 t IH]; intros [|i] [|j] Hi Hs; try done; cbn.
  - injection Hi as ->. by f_equal.
  - f_equal. by apply (IH i 0).
  - by apply IH.
Qed.

Lemma rests_split n k t i w w' : t !! i = Some w → rests n k (<[i:=w']> t) = rests n k (take i t) ++ item n k w' ++ rests n k (list.drop (S i) t).
Proof. intros Hi. rewrite insert_take_drop by (by eapply lookup_lt_Some). by rewrite rests_app. Qed.

Lemma rests_here n k t i w : t !! i = Some w → rests n k t = rests n k (take i t) ++ item n k w ++ rests n k (list.drop (S i) t).
Proof. intros Hi. rewrite <- (rests_split n k t i w w Hi). by rewrite list_insert_id. Qed.

Lemma item_set n k k' l w : item n k (set_lane k' l w) = if decide (k = k') then if decide (w_name w = n) then rest l else [] else item n k w.
Proof. unfold item, w_name. rewrite (proj1 (lane_same k' l w)), lane_set. by destruct (decide (k = k')). Qed.

Lemma attempts_app n k l evs : attempts n k (l ++ evs) = attempts n k l ++ attempts n k evs.
Proof. unfold attempts, given. by rewrite attempted_app, filter_app, map_app. Qed.

Lemma attempts_quiet n k l evs : attempted evs = [] → attempts n k (l ++ evs) = attempts n k l.
Proof. intros He. rewrite attempts_app. unfold attempts at 2. by rewrite He, app_nil_r. Qed.

(** The head a worker takes is one of its channel's and kind's. *)
Lemma head_kind s i w k p : Kinds s → table s !! i = Some w → pc (lane k w) = Running → rest (lane k w) = p :: tail (rest (lane k w)) → of_lane (w_name w) k p.
Proof.
  intros [[Hw _] _] Hi Hr Hp. specialize (Hw i w Hi k). unfold rest in Hp. rewrite Hr in Hp. unfold lane_packets in Hw. rewrite Hp in Hw.
  apply Forall_app in Hw as [_ Hw]. by apply Forall_cons in Hw as [Hw _].
Qed.

Lemma L_lane n k i k' f s s' : takes_head f → on_lane i k' f s = Some s' → Kinds s → InvR s → InvL n k s → InvL n k s'.
Proof.
  intros Hf. unfold on_lane. destruct (table s !! i) as [w|] eqn:Hi; [|done]. destruct (f w (lane k' w)) as [[l evs]|] eqn:Hl; [|done]. intros [= <-] Hk Hr.
  specialize (Hf _ _ _ _ Hl). assert (Hit : item n k (set_lane k' l w) `sublist_of` item n k w).
  { rewrite item_set. case_decide as E; [subst k'|done]. unfold item. case_decide; [|done]. destruct Hf as [[_ Hf]|(p & _ & _ & ->)]; [done|by apply sublist_cons]. }
  apply L_shrinks; [by eapply clean_mono| |done|].
  - intros Hc. unfold line, hand_of, behind. cbn [trace log set_table table maps]. rewrite !drop_0. destruct Hf as [[He _]|(p & Hpc & He & Hp)].
    + rewrite attempts_quiet by done. apply sublist_app; [done|]. apply sublist_app; [|by destruct k]. apply sublist_app; [|done]. by apply (rests_insert n k (table s) i w _ 0).
    + assert (Hof : of_lane (w_name w) k' p) by (eapply head_kind; [done|exact Hi|done|by rewrite Hp]). destruct Hof as [_ Hof].
      rewrite attempts_app, (rests_split n k _ i w) by done. replace (disp k (log _ _)) with (disp k s) by (by destruct k).
      rewrite (rests_here n k (table s) i w), item_set by done. unfold attempts at 2, given. rewrite He.
      destruct (decide (k = k')) as [<-|E1]; [destruct (decide (w_name w = n)) as [E2|E2]|].
      * rewrite filter_cons_True by done. unfold item. rewrite decide_True, Hp by done. rewrite (rests_nil n k (take i (table s))); [by rewrite <- !app_assoc|].
        intros j wj Hj En. apply lookup_take_Some in Hj as [Hj Hlt]. apply (ir_one _ Hr j i wj w k); [by rewrite En|done..|congruence].
      * rewrite filter_cons_False by (intros [? _]; done). unfold item. rewrite decide_False by done. by rewrite app_nil_r.
      * rewrite filter_cons_False by (intros [_ Hx]; cbn in Hx; congruence). by rewrite app_nil_r.
  - intros _ p j Ha _. left. split; [by destruct k|]. unfold behind. cbn. apply sublist_app; [|done]. by eapply (rests_insert n k _ i w).
Qed.

(** *** The dispatchers' steps *)

Lemma L_keep n k s s' evs : trace s' = trace s ++ evs → attempted evs = [] → next_number s' = next_number s → (∀ j, behind j n k s' = behind j n k s) →
  hand_of n k s' `sublist_of` hand_of n k s → (clean n s → ∀ p i, aims k s' p i → to p = n → aims k s p i ∨ behind (S i) n k s = []) → InvL n k s → InvL n k s'.
Proof.
  intros Ht He Hn Hb Hh Ha. apply L_shrinks; [by eapply clean_mono| |done|].
  - intros _. unfold line. rewrite Ht, attempts_quiet, Hb by done. by repeat apply sublist_app.
  - intros Hc p i Hx Hp. rewrite Hb. destruct (Ha Hc p i Hx Hp) as [H|H]; [by left|by right].
Qed.

Lemma sorted_next l x y : x < y → StronglySorted lt (l ++ [x]) → StronglySorted lt (l ++ [y]) ∧ StronglySorted lt ((l ++ [x]) ++ [y]).
Proof.
  intros Hxy Hs. pose proof Hs as Hx. apply StronglySorted_app in Hx as (Hlt & Hl & _).
  assert (H1 : ∀ z, StronglySorted lt [z]) by (intros z; apply StronglySorted_cons; split; [done|constructor]).
  split; apply StronglySorted_app; (split; [|by split]); intros a b Ha ->%list_elem_of_singleton.
  - specialize (Hlt a x Ha ltac:(by left)). lia.
  - apply elem_of_app in Ha as [Ha| ->%list_elem_of_singleton]; [|done]. specialize (Hlt a x Ha ltac:(by left)). lia.
Qed.

Lemma L_publish n k k' n' s s' : publish k' n' s = Some s' → InvL n k s → InvL n k s'.
Proof.
  unfold publish. destruct (disp k' s) eqn:Hd; try done. case_if; intros [= <-]; [done|]. set (p := {| number := _; kind := k'; to := n' |}). set (s' := log _ _).
  intros [H1 H2]. assert (Hc : clean n s' → clean n s) by (apply (clean_mono n s s' [Published p] eq_refl)).
  assert (Hat : attempts n k (trace s') = attempts n k (trace s)) by (by apply attempts_quiet).
  destruct (decide (k = k')) as [<-|Hne].
  - assert (Eh : hand_of n k s = [] ∧ hand_of n k s' = filter (λ p, to p = n) [p]) by (unfold hand_of; rewrite Hd; split; [done|]; by destruct k).
    destruct Eh as [Eh Eh']. split; [|intros _ p0 i [E|E]; by destruct k].
    intros Hcl%Hc. specialize (H1 Hcl). unfold line in *. rewrite Hat, Eh' in *. rewrite Eh, app_nil_r in H1. change (behind 0 n k s') with (behind 0 n k s). cbn [next_number s' log set_disp bump].
    assert (Hlt : next_number s < 1 + next_number s) by lia. destruct (decide (to p = n)) as [E|E].
    + rewrite filter_cons_True by done. rewrite app_assoc, map_app. by apply (sorted_next _ _ _ Hlt).
    + rewrite filter_cons_False, app_nil_r by done. by apply (sorted_next _ _ _ Hlt).
  - assert (Ed : disp k s' = disp k s) by (destruct k, k'; done). split.
    + intros Hcl%Hc. specialize (H1 Hcl). unfold line, hand_of in *. rewrite Hat, Ed. eapply sorted_next; [|exact H1]. cbn. lia.
    + intros Hcl%Hc p0 i Ha Hp. unfold aims in Ha. rewrite Ed in Ha. exact (H2 Hcl p0 i Ha Hp).
Qed.

Lemma behind_same n k s s' : table s' = table s → held_of n k (held (maps s')) = held_of n k (held (maps s)) → ∀ j, behind j n k s' = behind j n k s.
Proof. intros E1 E2 j. unfold behind. by rewrite E1, E2. Qed.

Lemma hand_empty n k d s s' : disp k s' = d → hand d = [] → hand_of n k s' `sublist_of` hand_of n k s.
Proof. intros E1 E2. unfold hand_of. rewrite E1, E2. apply sublist_nil_l. Qed.

Lemma aims_not k s d : disp k s = d → (∀ p i, d ≠ DTarget p i ∧ d ≠ DBlocked p i) → ∀ p i, ¬ aims k s p i.
Proof. intros E Hd p i [Hx|Hx]; rewrite E in Hx; destruct (Hd p i); tauto. Qed.

(** The message in a dispatcher's hand is dropped, or nothing is in it. *)
Lemma L_letgo n k k' d s s' evs : disp k' s' = d → hand d = [] → (∀ p i, d ≠ DTarget p i ∧ d ≠ DBlocked p i) → (k ≠ k' → disp k s' = disp k s) → trace s' = trace s ++ evs →
  attempted evs = [] → next_number s' = next_number s → (∀ j, behind j n k s' = behind j n k s) → InvL n k s → InvL n k s'.
Proof.
  intros Hd Hh Hno Hne Ht He Hn Hb. apply (L_keep n k s s' evs); try done.
  - destruct (decide (k = k')) as [->|E]; [by eapply hand_empty|]. unfold hand_of. by rewrite Hne.
  - intros _ p i Ha _. destruct (decide (k = k')) as [->|E]; [by destruct (aims_not k' s' d Hd Hno p i)|]. left. unfold aims in *. by rewrite Hne in Ha.
Qed.

Lemma L_dispatcher_ends n k k' s s' : dispatcher_ends k' s = Some s' → InvL n k s → InvL n k s'.
Proof.
  unfold dispatcher_ends. destruct (disp k' s); try done. case_if; [|done]. intros [= <-].
  apply (L_letgo n k k' DEnded s _ []); try done; [apply this_disp|intros Hne; by apply other_disp|by rewrite app_nil_r].
Qed.

(** A hold gets the message at its end, or is as it was for the other kind. *)
Lemma hold_of h p h' k : hold h p = Some h' → h_of k h' = h_of k h ++ (if decide (kind p = k) then [p] else []).
Proof. unfold hold. case_if; [done|]. destruct (kind p), k; intros [= <-]; cbn; by rewrite ?app_nil_r. Qed.

(** Once a message is aimed at the worker in the maps, no other one has anything. *)
Lemma others_rest n k i s : InvA s → InvR s → clean n s → workers (maps s) !! n = Some i → rests n k (list.drop (S i) (table s)) = [].
Proof.
  intros Hinv Hr Hc Hw. apply rests_nil. intros j w Hj En Hrun. rewrite lookup_drop in Hj.
  destruct (ir_running _ Hr (S i + j) w k) as [Hx|(d & Hd & _ & Hn & _)]; [by rewrite En|done|done| |].
  - rewrite En, Hw in Hx. injection Hx as Hx. lia.
  - destruct (ia_free _ Hinv n) as [Hx _]; [|congruence]. apply elem_of_app. right. apply list_elem_of_fmap. exists d. by rewrite <- En, <- Hn.
Qed.

Lemma L_hold n k k' p h h' s : disp k' s = DLooking p → kind p = k' → held (maps s) !! to p = Some h → hold h p = Some h' → InvL n k s →
  InvL n k (set_disp k' DIdle (on_maps (set_held (<[to p := h']> (held (maps s)))) s)).
Proof.
  intros Hd Hkp Hh Hho. set (s1 := on_maps _ s).
  assert (Hx : held_of n k (held (maps s1)) = held_of n k (held (maps s)) ++ (if decide (to p = n ∧ k = k') then [p] else [])).
  { unfold held_of. cbn. destruct (decide (to p = n)) as [E|E].
    - subst n. rewrite lookup_insert_eq, Hh. cbn. rewrite (hold_of _ _ _ k Hho). f_equal. by destruct (decide (kind p = k)), (decide (to p = to p ∧ k = k')); naive_solver.
    - rewrite lookup_insert_ne by done. rewrite decide_False by naive_solver. by rewrite app_nil_r. }
  destruct (decide (to p = n ∧ k = k')) as [[E1 ->]|E].
  - apply L_shrinks; [done| |by destruct k'|].
    + intros _. unfold line, behind, hand_of. rewrite this_disp, Hd. cbn [hand]. rewrite filter_cons_True, filter_nil by done.
      change (attempts n k' (trace (set_disp k' DIdle s1))) with (attempts n k' (trace s)). change (held (maps (set_disp k' DIdle s1))) with (held (maps s1)). rewrite Hx.
      change (table (set_disp k' DIdle s1)) with (table s). by rewrite app_nil_r, <- !app_assoc.
    + intros _ q i [Hq|Hq]; by rewrite this_disp in Hq.
  - rewrite app_nil_r in Hx. apply (L_letgo n k k' DIdle s _ []); try done; [exact (this_disp k' DIdle s1)|intros Hne; exact (other_disp k' k DIdle s1 Hne)|by rewrite app_nil_r|].
    by apply behind_same.
Qed.

Lemma L_route n k k' s s' : InvA s → InvR s → Kinds s → route k' s = Some s' → InvL n k s → InvL n k s'.
Proof.
  intros Hinv Hr Hk. unfold route. destruct (disp k' s) as [|p| | |] eqn:Hd; try done.
  assert (Hgo : ∀ s1 e d, hand d = [] → (∀ p i, d ≠ DTarget p i ∧ d ≠ DBlocked p i) → table s1 = table s → held_of n k (held (maps s1)) = held_of n k (held (maps s)) → trace s1 = trace s →
    next_number s1 = next_number s → disp k s1 = disp k s → InvL n k s → InvL n k (drop p e (set_disp k' d s1))).
  { intros s1 e d H1 H2 E1 E2 E3 E4 E5. apply (L_letgo n k k' d s _ [Finished p (Dropped e)]); try done; [exact (this_disp k' d s1)|intros Hne; rewrite <- E5; exact (other_disp k' k d s1 Hne)|cbn; by rewrite E3|].
    by apply behind_same. }
  case_if; [intros [= <-]; by apply Hgo|]. case_if; [done|]. destruct (held (maps s) !! to p) as [h|] eqn:Hh.
  - assert (Hkp : kind p = k') by (apply Hk; rewrite Hd; by left). destruct (hold h p) as [h'|] eqn:Hho; intros [= <-]; [by eapply L_hold|].
    apply (Hgo (on_maps _ s)); try done. unfold held_of. cbn. destruct (decide (to p = n)) as [<-|E]; [by rewrite lookup_insert_eq, Hh; destruct k|by rewrite lookup_insert_ne].
  - destruct (channels (maps s) !! to p) as [ch|]; [|intros [= <-]; by apply Hgo]. destruct (workers (maps s) !! to p) as [i|] eqn:Hw; intros [= <-]; [|by apply Hgo].
    apply (L_keep n k s _ []); try done; [by rewrite app_nil_r| |].
    + destruct (decide (k = k')) as [->|E]; unfold hand_of; [by rewrite this_disp, Hd|by rewrite other_disp].
    + intros Hc q j Ha Hq. destruct (decide (k = k')) as [->|E]; [|left; unfold aims in *; by rewrite other_disp in Ha]. right.
      destruct Ha as [Ha|Ha]; rewrite this_disp in Ha; [|done]. injection Ha as <- <-. subst n. unfold behind. rewrite others_rest by done. unfold held_of. rewrite Hh. by destruct k'.
Qed.

Lemma L_lock n k k' s s' : lock_worker k' s = Some s' → InvL n k s → InvL n k s'.
Proof.
  unfold lock_worker. destruct (disp k' s) as [| |p i| |] eqn:Hd; try done. destruct (table s !! i) as [w|]; [|done]. intros [= <-].
  apply (L_keep n k s _ []); try done; [by rewrite app_nil_r| |].
  - destruct (decide (k = k')) as [->|E]; unfold hand_of; [rewrite this_disp, Hd|by rewrite other_disp]. by destruct (closed w).
  - intros _ q j Ha _. left. unfold aims in *. destruct (decide (k = k')) as [->|E]; [|by rewrite other_disp in Ha]. rewrite this_disp in Ha. rewrite Hd. destruct (closed w); destruct Ha; simplify_eq; by left.
Qed.

Lemma rest_queue l p : rest (set_queue (queue l ++ [p]) l) = rest l ++ (if decide (pc l = Running) then [p] else []).
Proof. unfold rest. cbn. by destruct (pc l); cbn; rewrite ?app_assoc. Qed.

Lemma L_enqueue n k k' c s s' : Kinds s → enqueue k' c s = Some s' → InvL n k s → InvL n k s'.
Proof.
  intros Hk. unfold enqueue. destruct (disp k' s) as [| | |p i|] eqn:Hd; try done. destruct (table s !! i) as [w|] eqn:Hi; [|done]. destruct c; (case_if; [|done]); intros [= <-].
  - set (l' := set_queue _ _). set (s1 := set_table _ s). destruct (proj2 (proj2 Hk) k' p i) as (w' & Hw' & En); [by right|]. rewrite Hi in Hw'. injection Hw' as <-.
    destruct (decide (k = k' ∧ w_name w = n)) as [[-> E]|E].
    + intros HL. assert (Hpn : to p = n) by (rewrite <- En; done). revert HL. intros HL. pose proof (il_target _ _ _ HL) as Htg. revert HL. apply L_shrinks; [done| |by destruct k'|].
      * intros Hc. specialize (Htg Hc p i (or_intror Hd) Hpn). unfold behind in Htg. apply app_nil in Htg as [Hrt Hho]. unfold line, behind, hand_of. rewrite this_disp, Hd, !drop_0. cbn [hand].
        rewrite filter_cons_True, !filter_nil by done. change (attempts n k' (trace (set_disp k' DIdle s1))) with (attempts n k' (trace s)).
        change (table (set_disp k' DIdle s1)) with (<[i:=set_lane k' l' w]> (table s)). change (held (maps (set_disp k' DIdle s1))) with (held (maps s)).
        rewrite (rests_split n k' _ i w), (rests_here n k' (table s) i w), Hrt, Hho, item_set, !app_nil_r by done. rewrite decide_True by done. unfold item. rewrite !decide_True by done.
        unfold l'. rewrite rest_queue, <- !app_assoc. repeat (apply sublist_app; [done|]). case_decide; [done|apply sublist_nil_l].
      * intros _ q j [Hq|Hq]; by rewrite this_disp in Hq.
    + apply (L_letgo n k k' DIdle s _ []); try done; [exact (this_disp k' DIdle s1)|intros Hne; exact (other_disp k' k DIdle s1 Hne)|by rewrite app_nil_r|].
      intros j. unfold behind. cbn. f_equal. eapply (rests_insert_same n k _ i w); [done|]. rewrite item_set. destruct (decide (k = k')) as [<-|]; [|done]. unfold item.
      rewrite !decide_False by tauto. done.
  - apply (L_keep n k s _ []); try done; [by rewrite app_nil_r| |].
    + destruct (decide (k = k')) as [->|E]; unfold hand_of; [by rewrite this_disp, Hd|by rewrite other_disp].
    + intros _ q j Ha _. left. unfold aims in *. destruct (decide (k = k')) as [->|E]; [|by rewrite other_disp in Ha]. rewrite this_disp in Ha. by destruct Ha.
  - apply (L_letgo n k k' DEnded s _ [Finished p (Dropped ctx_error)]); try done; [exact (this_disp k' DEnded s)|intros Hne; exact (other_disp k' k DEnded s Hne)].
Qed.

(** A name stays clean backwards. *)
Lemma step_clean `{GoRange} n l s s' : label_ok l → InvA s → quiet_before s → step l s = Some s' → clean n s' → clean n s.
Proof. intros Hok Hinv Hq Hs. destruct (step_moves l s s' Hok Hinv Hq Hs) as (evs & Ht & _). by eapply clean_mono. Qed.

Lemma step_L `{GoRange} n k l s s' : label_ok l → Sound s → Kinds s → InvR s → step l s = Some s' → InvL n k s → InvL n k s'.
Proof.
  intros Hok [Hinv Hq _ _] Hk Hr Hs. destruct (is_control l) eqn:Hc.
  - pose proof (control_touches l s s' Hok Hinv Hc Hs) as Ht. pose proof (control_keeps l s s' Hok Hinv Hs) as Hd. pose proof (step_clean n l s s' Hok Hinv Hq Hs) as Hcl.
    assert (Hlen : ∀ p i, aims k s p i → i < length (table s)).
    { intros p i Ha. destruct (proj2 (proj2 Hk) k p i Ha) as (w & Hw & _). by eapply lookup_lt_Some. }
    apply L_control; try done.
    + destruct l; try done; try (left; destruct Hd as (E1 & E2 & _); by destruct k). right. cbn in Hs. unfold StartAll in Hs. destruct (ctl s), (dispatch s); try done.
      case_if_in Hs; [done|]. injection Hs as <-. split; [|by destruct k]. intros p i [Ha|Ha]; by destruct k.
    + destruct l; try done; try by destruct Hd as (_ & _ & E & _). cbn in Hs. unfold StartAll in Hs. destruct (ctl s), (dispatch s); try done. case_if_in Hs; [done|]. by injection Hs as <-.
  - destruct l; try done; cbn in Hs; eauto using L_publish, L_dispatcher_ends, L_route, L_lock, L_enqueue.
    + eapply L_lane; [apply take_next_head|done..].
    + eapply L_lane; [apply send_returns_head|done..].
    + eapply L_lane; [apply notice_done_head|done..].
    + eapply L_lane; [apply drain_one_head|done..].
    + eapply L_lane; [apply queue_empty_head|done..].
    + eapply L_lane; [apply lane_exits_head|done..].
Qed.

Lemma new_manager_order l store n k : Kinds (new_manager l store) ∧ InvR (new_manager l store) ∧ InvL n k (new_manager l store).
Proof.
  split_and!.
  - split_and!; [split; [by intros ? ?|by intros ? ?]|intros [] p Hp; by apply elem_of_nil in Hp|by intros [] p i [?|?]].
  - split; by intros ? ?.
  - split; [|by intros _ p i []; destruct k]. intros _. unfold line, behind, hand_of. replace (hand (disp k _)) with (@nil Packet) by (by destruct k).
    replace (held_of n k _) with (@nil Packet) by (by destruct k). cbn. apply StronglySorted_cons. by split; [|constructor].
Qed.

(** The messages of a channel are in line after every run. *)
Lemma run_order `{GoRange} n k ls l store s : Forall label_ok ls → run ls (new_manager l store) = Some s → Sound s ∧ Kinds s ∧ InvR s ∧ InvL n k s.
Proof.
  intros Hok Hr. eapply (run_ind (λ s, Kinds s ∧ InvR s ∧ InvL n k s)); [done|done|apply new_manager_sound|apply new_manager_order|].
  intros lb s1 s2 Hlb Hsound Hs (H1 & H2 & H3). destruct Hsound as [Hinv Hq ? ?] eqn:E. split_and!; [by eapply step_kinds|by eapply step_R|by eapply step_L].
Qed.

(** ** Theorem *)

(** C10. Messages of one kind are given to a channel to send in the order they were
    taken off the bus, each at most once, in every run: through the hold of a channel
    being started, a worker's backlog and queue, restarts by a reload, retries of a
    failed start, and a shutdown, however the goroutines are scheduled and whichever
    sends and starts fail; unless a worker of the channel had to be left behind
    because a send did not return in time, when its rest and the next worker's
    messages may be sent in any order. *)
Theorem sent_in_order `{GoRange} n k ls l store s : Forall label_ok ls → run ls (new_manager l store) = Some s → LeftBehind n ∉ trace s →
  StronglySorted lt (map number (attempts n k (trace s))).
Proof.
  intros Hok Hr Hc. destruct (run_order n k ls l store s Hok Hr) as (_ & _ & _ & HL). apply il_sorted in HL; [|done].
  unfold line in HL. rewrite map_app, <- app_assoc in HL. by eapply StronglySorted_app_1_l.
Qed.

Module ChannelOrderExamples.

Definition spec (n i : string) : channelSpec :=
  {| name := n; display := n; platform := n; ChannelPlan.inputs := i; build := BuildBuiltin n; allowFrom := []; checkAllowFrom := false; daemon := "" |}.

Definition start : State := new_manager [spec "slack" "x"] 0.

(** A text comes to its channel's worker. *)
Definition text (n : string) : list Label := [LPublish Text n; LRoute Text; LLock Text; LEnqueue Text IntoQueue].

(** Two texts are held while the channel starts, a third is queued, the channel is
    rebuilt by a reload while the third is being sent, and a fourth waits in the new
    hold meanwhile. *)
Definition restarted : list Label :=
  [LStartAll; LPublish Text "slack"; LRoute Text; LPublish Text "slack"; LRoute Text; LStarted 0 true] ++ text "slack" ++
  [LTake 0 Text; LSent 0 Text None; LTake 0 Text; LSent 0 Text (Some (failure ErrTemporary)); LTake 0 Text;
   LReload [spec "slack" "y"] 0; LPublish Text "slack"; LRoute Text; LStop 0 StopClose; LSent 0 Text None; LEmpty 0 Text; LExit 0 Text; LEmpty 0 Media; LExit 0 Media;
   LStop 0 StopExited; LStop 0 StopReturns; LBuild true; LStarted 0 true; LTake 1 Text].

Definition restarted_state : State := default start (run restarted start).

Lemma sent_in_order_witness :
  map number (attempts "slack" Text (trace restarted_state)) = [0; 1; 2; 3] ∧ StronglySorted lt (map number (attempts "slack" Text (trace restarted_state))).
Proof.
  split; [by vm_compute|]. apply (sent_in_order "slack" Text restarted [spec "slack" "x"] 0).
  - repeat constructor. by intros ?%elem_of_nil.
  - by vm_compute.
  - vm_compute. intros Hx. repeat (apply elem_of_cons in Hx as [Hx|Hx]; [done|]). by apply elem_of_nil in Hx.
Defined.

End ChannelOrderExamples.
