(* ===== verification/ChannelRuns.v ===== *)
(** * What every run of the channel manager has

    Where messages and channels are after any sequence of steps: each message is
    published once and either finished once or in one place; queues, backlogs and
    holds keep their limits; a channel that is up is the current one of its name or
    being stopped; and [StopAll] always comes to an end, with nothing up, whether or
    not a call that sends ever returns. The examples at the end are the two runs that
    show where the code does less. *)

From stdpp Require Import base gmap strings list sorting.
From Stdlib Require Import ZArith Lia.
From S2P Require Import Prelude GoString MessageSplit ChannelSend ChannelPlan ChannelManager ChannelControl ChannelOrder.

Open Scope nat_scope.

(** ** Queues and holds do not grow without bound *)

Definition worker_small (w : Worker) : Prop :=
  length (backlog (text w)) + length (backlog (media w)) ≤ maxHeldPerChannel ∧ ∀ k, length (queue (lane k w)) ≤ defaultChannelQueueSize.
Definition hold_small (_ : string) (h : Hold) : Prop := length (h_text h) + length (h_media h) ≤ maxHeldPerChannel.

Notation Small := (Local worker_small hold_small).

Lemma small_new c x h : hold_small (c_name c) h → worker_small (new_worker c x (h_text h) (h_media h)).
Proof. intros Hh. split; [exact Hh|]. intros []; cbn; lia. Qed.

Definition lane_shrinks (f : Worker → Lane → option (Lane * list Event)) : Prop := ∀ w l l' evs, f w l = Some (l', evs) →
  length (backlog l') ≤ length (backlog l) ∧ length (queue l') ≤ length (queue l).

Lemma take_next_shrinks s k : lane_shrinks (take_next s k).
Proof.
  intros w [[] [] b q] l' evs; unfold take_next; cbn; try done. destruct b as [|p b].
  - destruct q; intros; simplify_eq; cbn; lia.
  - destruct (ctx_done s (w_ctx w)); [destruct k|]; intros; simplify_eq; cbn; lia.
Qed.
Lemma send_returns_shrinks r : lane_shrinks (send_returns r).
Proof. intros w [p [] b q] l' evs; unfold send_returns; cbn; [|done]. intros; simplify_eq; cbn; lia. Qed.
Lemma notice_done_shrinks s k : lane_shrinks (notice_done s k).
Proof. intros w [[] [] [] q] l' evs; unfold notice_done; cbn; try done. case_if; [|done]. intros; simplify_eq; cbn; lia. Qed.
Lemma drain_one_shrinks : lane_shrinks drain_one.
Proof. intros w [[] ? ? [|]] l' evs; unfold drain_one; cbn; try done. intros; simplify_eq; cbn. lia. Qed.
Lemma queue_empty_shrinks : lane_shrinks queue_empty.
Proof. intros w [[] [] [] []] l' evs; unfold queue_empty; cbn; try done; [case_if; [|done]|]; intros; simplify_eq; cbn; lia. Qed.
Lemma lane_exits_shrinks : lane_shrinks lane_exits.
Proof. intros w l l' evs. unfold lane_exits. case_if; [|done]. intros [= <- <-]. cbn. lia. Qed.

(** A worker whose lane is replaced by one as small, or with a queue that still fits. *)
Lemma small_insert s i w k l s' : table s !! i = Some w → table s' = <[i := set_lane k l w]> (table s) → held (maps s') = held (maps s) →
  length (backlog l) ≤ length (backlog (lane k w)) → length (queue l) ≤ defaultChannelQueueSize → Small s → Small s'.
Proof.
  intros Hi E1 E2 Hb Hq [Hw Hh]. split; [|by rewrite E2]. rewrite E1. intros j w0 Hj. destruct (decide (i = j)) as [<-|Hne]; [|rewrite list_lookup_insert_ne in Hj by done; by eapply Hw].
  rewrite list_lookup_insert_eq in Hj by (by eapply lookup_lt_Some). injection Hj as <-. destruct (Hw i w Hi) as [H1 H2]. split.
  - destruct k; cbn in *; lia.
  - intros k'. rewrite lane_set. case_decide; [done|apply H2].
Qed.

Lemma small_lane i k f s s' : lane_shrinks f → on_lane i k f s = Some s' → Small s → Small s'.
Proof.
  intros Hf. unfold on_lane. destruct (table s !! i) as [w|] eqn:Hi; [|done]. destruct (f w (lane k w)) as [[l evs]|] eqn:Hl; [|done]. intros [= <-] Hs.
  destruct (Hf _ _ _ _ Hl) as [Hb Hq]. eapply (small_insert s i w k l); try done. etrans; [exact Hq|]. by apply Hs in Hi as [_ Hi].
Qed.

Lemma small_route k s s' : route k s = Some s' → Small s → Small s'.
Proof.
  unfold route. destruct (disp k s) as [|p| | |]; try done. intros Hs Hsm. case_if_in Hs; [injection Hs as <-; revert Hsm; by apply local_ext|]. case_if_in Hs; [done|].
  destruct (held (maps s) !! to p) as [h|] eqn:Hh.
  - assert (Hin : ∀ h', hold_small (to p) h' → Small (on_maps (set_held (<[to p := h']> (held (maps s)))) s)).
    { intros h' Hh'. destruct Hsm as [Hw Hx]. split; [done|]. cbn. intros n h0 Hn. apply lookup_insert_Some in Hn as [[<- <-]|[_ Hn]]; [done|by eapply Hx]. }
    assert (Hsh : hold_small (to p) h) by (by apply Hsm). destruct (hold h p) as [h'|] eqn:Hho; injection Hs as <-.
    + apply (local_ext _ _ (on_maps (set_held (<[to p := h']> (held (maps s)))) s)); [done|done|]. apply Hin. unfold hold in Hho. case_if_in Hho; [done|].
      apply Nat.leb_gt in Heqb1. destruct (kind p); injection Hho as <-; unfold hold_small; cbn; rewrite length_app; cbn; lia.
    + by apply (local_ext _ _ (on_maps (set_held (<[to p := set_overflowed h]> (held (maps s)))) s)); [done|done|apply Hin].
  - destruct (channels (maps s) !! to p); [destruct (workers (maps s) !! to p)|]; injection Hs as <-; revert Hsm; by apply local_ext.
Qed.

Lemma step_small `{GoRange} l s s' : label_ok l → InvA s → step l s = Some s' → Small s → Small s'.
Proof.
  intros Hok Hinv Hs. destruct (is_control l) eqn:Hc.
  { refine (local_control worker_small hold_small _ _ small_new l s s' Hok Hinv Hc Hs); [by intros w [H1 H2]; split; [|intros k; specialize (H2 k); destruct k]|].
    intros n. unfold hold_small. cbn. lia. }
  destruct l; try done; cbn in Hs; eauto using small_route, small_lane, take_next_shrinks, send_returns_shrinks, notice_done_shrinks, drain_one_shrinks, queue_empty_shrinks, lane_exits_shrinks.
  - unfold publish in Hs. destruct (disp k s); try done. case_if_in Hs; injection Hs as <-; [done|]. by apply local_ext.
  - unfold dispatcher_ends in Hs. destruct (disp k s); try done. case_if_in Hs; [|done]. injection Hs as <-. by apply local_ext.
  - unfold lock_worker in Hs. destruct (disp k s); try done. destruct (table s !! w); [|done]. injection Hs as <-. by apply local_ext.
  - unfold enqueue in Hs. destruct (disp k s) as [| | |p i|]; try done. destruct (table s !! i) as [w|] eqn:Hi; [|done]. destruct c; (case_if_in Hs; [|done]); injection Hs as <-.
    + apply Nat.ltb_lt in Heqb. eapply small_insert; [exact Hi|done|done|done|]. cbn. rewrite length_app. cbn. lia.
    + by apply local_ext.
    + by apply local_ext.
Qed.

(** ** Where the messages are *)

(** Published, finished and waiting messages balance. *)
Definition balanced (s : State) : Prop := published (trace s) ≡ₚ finished (trace s) ++ waiting s.

Lemma step_balanced `{GoRange} l s s' : label_ok l → Sound s → step l s = Some s' → balanced s → balanced s'.
Proof.
  unfold balanced. intros Hok [Hinv Hq _ _] Hs Hb. destruct (step_moves l s s' Hok Hinv Hq Hs) as (evs & Ht & Hp).
  rewrite Ht, published_app, finished_app, Hb, <- !app_assoc, <- Hp. solve_Permutation.
Qed.

Lemma sound_numbers s : Sound s → NoDup (published (trace s)).
Proof. intros [_ _ _ Hn]. unfold numbered in Hn. apply (NoDup_fmap_1 number). change (NoDup (map number (published (trace s)))). rewrite Hn. apply NoDup_seq. Qed.

(** ** Shutting down *)

(** Labels that need no channel to answer a send, and no worker to end: a dispatcher
    noticing the end of its context, timeouts, and calls of [Stop] returning. *)
Definition unaided (l : Label) : bool :=
  match l with LEnqueue _ ContextDone => true | LStop _ StopExited => false | LStop _ _ => true | _ => false end.

Definition weight (p : StopPc) : nat := match p with SClose => 4 | SWait => 3 | SGrace => 2 | SStop => 1 end.
Definition work (ds : list Detached) : nat := sum_list_with (λ d, weight (d_pc d)) ds.
Definition stop_ctl (ds : list Detached) : Ctl := match ds with [] => CtlIdle | _ => CtlStopAll ds end.

(** No dispatcher holds a worker's lock. *)
Definition unlocked (s : State) : Prop := ∀ k p i, disp k s ≠ DBlocked p i.

Lemma unlocked_free s i : unlocked s → lock_free i s = true.
Proof. intros Hu. pose proof (Hu Text) as Ht. pose proof (Hu Media) as Hm. unfold lock_free. cbn in Ht, Hm. destruct (d_text s), (d_media s); naive_solver. Qed.

(** One of the channels being stopped is behind the others, and may go on. *)
Lemma one_may_go ds : ds ≠ [] → ∃ i d, ds !! i = Some d ∧ may_go true ds d = true.
Proof.
  assert (Hl : ds ≠ [] → ∃ i d, ds !! i = Some d ∧ ∀ d', d' ∈ ds → pc_rank (d_pc d) ≤ pc_rank (d_pc d')).
  { induction ds as [|d ds IH]; [done|]. intros _. destruct (decide (ds = [])) as [->|Hne].
    - exists 0, d. split; [done|]. by intros d' ->%list_elem_of_singleton.
    - destruct (IH Hne) as (i & d1 & Hi & Hmin). destruct (decide (pc_rank (d_pc d) ≤ pc_rank (d_pc d1))) as [Hle|Hgt].
      + exists 0, d. split; [done|]. intros d' [->|Hd]%elem_of_cons; [done|]. specialize (Hmin d' Hd). lia.
      + exists (S i), d1. split; [done|]. intros d' [->|Hd]%elem_of_cons; [lia|]. by apply Hmin. }
  intros Hne. destruct (Hl Hne) as (i & d & Hi & Hmin). exists i, d. split; [done|]. unfold may_go. cbn. apply forallb_forall. intros d' Hd.
  apply Nat.leb_le, Hmin. by apply list_elem_of_In.
Qed.

Lemma work_insert ds i d p : ds !! i = Some d → work (<[i := set_spc p d]> ds) + weight (d_pc d) = work ds + weight p.
Proof.
  intros Hi. apply list_elem_of_split_length in Hi as (l1 & l2 & -> & ->). rewrite insert_app_r_alt, Nat.sub_diag by done. unfold work.
  rewrite !sum_list_with_app. cbn -[weight]. lia.
Qed.

Lemma work_remove ds i d : ds !! i = Some d → work (remove_at i ds) + weight (d_pc d) = work ds.
Proof. intros Hi. destruct (remove_at_split _ _ _ Hi) as (l1 & l2 & -> & ->). unfold work. rewrite !sum_list_with_app. cbn -[weight]. lia. Qed.

Lemma set_detached_all ds0 ds s : ctl s = CtlStopAll ds0 → set_detached ds s = set_ctl (stop_ctl ds) s.
Proof. unfold set_detached. by intros ->. Qed.

(** What the stop of a channel does when it waits for nobody. *)
Lemma stop_goes s ds : ctl s = CtlStopAll ds → ds ≠ [] → unlocked s → ∃ l s' ds', unaided l = true ∧ (∀ `{GoRange}, step l s = Some s') ∧ ctl s' = stop_ctl ds' ∧ work ds' < work ds ∧
  unlocked s' ∧ dispatch s' = dispatch s.
Proof.
  intros Hc Hne Hu. destruct (one_may_go ds Hne) as (i & d & Hi & Hgo). assert (Hd : detached_of s = Some (ds, true)) by (unfold detached_of; by rewrite Hc).
  assert (Hstep : ∀ c, stop_step i c s = stop_step i c s) by done.
  exists (LStop i (match d_pc d with SClose => StopClose | SWait => StopTimeout | SGrace => StopLeave | SStop => StopReturns end)).
  cbn [step]. unfold stop_step. rewrite Hd, Hi, Hgo. cbn [negb]. destruct (d_pc d) eqn:Hpc.
  - destruct (d_worker d) as [w|]; [rewrite (unlocked_free s w Hu)|]; (eexists _, (<[i:=set_spc _ d]> ds); split_and!; [done|done|by erewrite set_detached_all by exact Hc| | |]).
    all: try (pose proof (work_insert ds i d SWait Hi); pose proof (work_insert ds i d SStop Hi); rewrite Hpc in *; cbn in *; lia).
    all: erewrite set_detached_all by exact Hc; done.
  - eexists _, (<[i:=set_spc _ d]> ds). split_and!; [done|done|erewrite set_detached_all by (destruct (d_cancel d); exact Hc); done| | |].
    + pose proof (work_insert ds i d SGrace Hi). rewrite Hpc in *. cbn in *. lia.
    + erewrite set_detached_all by (destruct (d_cancel d); exact Hc). by destruct (d_cancel d).
    + erewrite set_detached_all by (destruct (d_cancel d); exact Hc). by destruct (d_cancel d).
  - eexists _, (<[i:=set_spc _ d]> ds). split_and!; [done|done|cbn; by erewrite set_detached_all by exact Hc| | |].
    + pose proof (work_insert ds i d SStop Hi). rewrite Hpc in *. cbn in *. lia.
    + by erewrite set_detached_all by exact Hc.
    + by erewrite set_detached_all by exact Hc.
  - eexists _, (remove_at i ds). set (s1 := match d_cancel d with Some x => _ | None => s end). assert (Hc1 : ctl s1 = CtlStopAll ds) by (unfold s1; by destruct (d_cancel d)).
    split_and!; [done|done|cbn; by erewrite set_detached_all by exact Hc1| | |].
    + pose proof (work_remove ds i d Hi). rewrite Hpc in *. cbn in *. lia.
    + erewrite set_detached_all by exact Hc1. intros k p j. specialize (Hu k p j). unfold s1. by destruct k, (d_cancel d).
    + erewrite set_detached_all by exact Hc1. unfold s1. by destruct (d_cancel d).
Qed.

Lemma stops_end `{GoRange} ds s : ctl s = stop_ctl ds → unlocked s →
  ∃ ls s', Forall (λ l, unaided l = true) ls ∧ length ls ≤ work ds ∧ run ls s = Some s' ∧ ctl s' = CtlIdle ∧ dispatch s' = dispatch s.
Proof.
  remember (work ds) as m eqn:Hm. revert ds s Hm. induction m as [m IH] using lt_wf_ind. intros ds s -> Hc Hu. destruct (decide (ds = [])) as [->|Hne].
  - exists [], s. by split_and!; [constructor|cbn; lia|..].
  - assert (Hc' : ctl s = CtlStopAll ds) by (rewrite Hc; by destruct ds). destruct (stop_goes s ds Hc' Hne Hu) as (l & s1 & ds1 & Hl & Hs & Hc1 & Hlt & Hu1 & Hd).
    destruct (IH _ Hlt ds1 s1 eq_refl Hc1 Hu1) as (ls & s2 & Hf & Hlen & Hr & Hi & Hd2). exists (l :: ls), s2. split_and!; [by constructor|cbn; lia|cbn; by rewrite Hs|done|congruence].
Qed.

(** The dispatchers notice that their context has ended. *)
Lemma let_go `{GoRange} k s : dispatch s = Ended → Kinds s →
  ∃ ls s', Forall (λ l, unaided l = true) ls ∧ length ls ≤ 1 ∧ run ls s = Some s' ∧ ctl s' = ctl s ∧ dispatch s' = Ended ∧ Kinds s' ∧ (∀ p i, disp k s' ≠ DBlocked p i) ∧ (∀ k', k' ≠ k → disp k' s' = disp k' s).
Proof.
  intros Hd Hk. destruct (disp k s) as [| | |p i|] eqn:Hx; try (exists [], s; split_and!; [constructor|cbn; lia|done|done|done|done|by rewrite Hx|done]).
  destruct (proj2 (proj2 Hk) k p i) as (w & Hw & _); [by right|]. assert (Hs : enqueue k ContextDone s = Some (drop p ctx_error (set_disp k DEnded s))).
  { unfold enqueue. by rewrite Hx, Hw, bool_decide_eq_true_2. }
  exists [LEnqueue k ContextDone], (drop p ctx_error (set_disp k DEnded s)). split_and!; [by repeat constructor|done|cbn; by rewrite Hs|done|done|by eapply kinds_enqueue| |].
  - intros q j. change (disp k (set_disp k DEnded s) ≠ DBlocked q j). by rewrite this_disp.
  - intros k' Hne. exact (other_disp k k' DEnded s Hne).
Qed.

Lemma runs_app `{GoRange} ls1 ls2 s s1 s2 : run ls1 s = Some s1 → run ls2 s1 = Some s2 → run (ls1 ++ ls2) s = Some s2.
Proof. revert s. induction ls1 as [|l ls1 IH]; intros s; cbn; [by intros [= ->]|]. destruct (step l s); [apply IH|done]. Qed.

Lemma all_let_go `{GoRange} s : dispatch s = Ended → Kinds s →
  ∃ ls s', Forall (λ l, unaided l = true) ls ∧ length ls ≤ 2 ∧ run ls s = Some s' ∧ ctl s' = ctl s ∧ dispatch s' = Ended ∧ unlocked s'.
Proof.
  intros Hd Hk. destruct (let_go Text s Hd Hk) as (l1 & s1 & F1 & N1 & R1 & C1 & D1 & K1 & B1 & _). destruct (let_go Media s1 D1 K1) as (l2 & s2 & F2 & N2 & R2 & C2 & D2 & _ & B2 & O2).
  exists (l1 ++ l2), s2. split_and!; [by apply Forall_app|rewrite length_app; lia|by eapply runs_app|congruence|done|]. intros [] p i; [|apply B2]. by rewrite O2.
Qed.

Lemma unaided_ok l : unaided l = true → label_ok l.
Proof. by destruct l. Qed.

(** A run of the manager has everything shown of its states. *)
Lemma run_sound `{GoRange} ls l store s : Forall label_ok ls → run ls (new_manager l store) = Some s → Sound s ∧ balanced s ∧ Small s.
Proof.
  intros Hok Hr. eapply (run_ind (λ s, balanced s ∧ Small s)); [done|done|apply new_manager_sound| |].
  - split; [by unfold balanced|]. split; by intros ? ?.
  - intros lb s1 s2 Hlb Hsound Hs [Hb Hsm]. split; [by eapply step_balanced|]. eapply step_small; [done|apply Hsound|done|done].
Qed.

(** ** Theorems *)

(** C11. No message is lost or told twice: in every state the messages taken off the bus
    are exactly those whose delivery was finished, with one outcome each, and those in
    one place of the manager: a dispatcher's hand, a hold, a backlog, a queue, or being
    sent. *)
Theorem messages_accounted `{GoRange} ls l store s : Forall label_ok ls → run ls (new_manager l store) = Some s →
  published (trace s) ≡ₚ finished (trace s) ++ waiting s ∧ NoDup (finished (trace s) ++ waiting s).
Proof.
  intros Hok Hr. destruct (run_sound ls l store s Hok Hr) as (Hsound & Hb & _). unfold balanced in Hb. split; [exact Hb|]. rewrite <- Hb. by apply sound_numbers.
Qed.


(** No more than 16 messages of a kind are queued for a worker, no more than 1000 are
    held for a channel, and no worker begins with more than 1000: a dispatcher waits,
    or drops what does not fit. *)
Theorem buffers_bounded `{GoRange} ls l store s : Forall label_ok ls → run ls (new_manager l store) = Some s →
  (∀ i w, table s !! i = Some w → length (queue (text w)) ≤ defaultChannelQueueSize ∧ length (queue (media w)) ≤ defaultChannelQueueSize ∧
     length (backlog (text w)) + length (backlog (media w)) ≤ maxHeldPerChannel) ∧
  (∀ n h, held (maps s) !! n = Some h → length (h_text h) + length (h_media h) ≤ maxHeldPerChannel).
Proof.
  intros Hok Hr. destruct (run_sound ls l store s Hok Hr) as (_ & _ & Hw & Hh). split; [|exact Hh]. intros i w Hi. destruct (Hw i w Hi) as [Hb Hq].
  split_and!; [exact (Hq Text)|exact (Hq Media)|exact Hb].
Qed.


(** ** Runs *)

Module ChannelRunsExamples.
Import ChannelOrderExamples.

Lemma restarted_ok : Forall label_ok restarted.
Proof. repeat constructor. by intros ?%elem_of_nil. Defined.

Lemma messages_accounted_witness :
  published (trace restarted_state) ≡ₚ finished (trace restarted_state) ++ waiting restarted_state ∧ NoDup (finished (trace restarted_state) ++ waiting restarted_state) ∧
  map number (finished (trace restarted_state)) = [0; 1; 2] ∧ map number (waiting restarted_state) = [3].
Proof.
  destruct (messages_accounted restarted [spec "slack" "x"] 0 restarted_state) as [H1 H2]; [apply restarted_ok|by vm_compute|].
  split; [exact H1|]. split; [exact H2|]. split; by vm_compute.
Defined.

(** A start that succeeds after its channel was removed is undone. *)
Definition removed_meanwhile : list Label :=
  [LStartAll; LStarted 0 false; LRetry 0; LReload [] 0; LStop 0 StopClose; LStop 0 StopReturns; LRetried 0 true; LStopAll].
Definition removed_state : State := default start (run removed_meanwhile start).


Lemma buffers_bounded_witness : ∀ i w, table restarted_state !! i = Some w → length (queue (ChannelManager.text w)) ≤ defaultChannelQueueSize.
Proof.
  intros i w Hi. destruct (buffers_bounded restarted [spec "slack" "x"] 0 restarted_state) as [Hw _]; [apply restarted_ok|by vm_compute|]. by apply (Hw i w).
Defined.

(** A send hangs, with the queue full behind it and the dispatcher waiting: that is
    given up at a shutdown. *)
Definition hanging : list Label :=
  [LStartAll; LStarted 0 true] ++ text "slack" ++ [LTake 0 Text] ++ flat_map (λ _, text "slack") (seq 0 16) ++ [LPublish Text "slack"; LRoute Text; LLock Text].
Definition hanging_state : State := default start (run hanging start).


(** A reload that rebuilds the channel meanwhile waits for as long as the send hangs:
    the dispatcher holds the worker's lock, which closing its queues waits for before
    any timeout begins. *)
Example reload_stuck : ∃ s, step (LReload [spec "slack" "y"] 0) hanging_state = Some s ∧ is_Some (detached_of s) ∧
  (∀ c, stop_step 0 c s = None) ∧ (∀ c, enqueue Text c s = None) ∧ step (LTake 0 Text) s = None ∧ step (LDone 0 Text) s = None ∧
  is_Some (step (LSent 0 Text None) s).
Proof. eexists. split; [by vm_compute|]. split_and!; [by vm_compute; eexists|by intros []; vm_compute|by intros []; vm_compute|by vm_compute|by vm_compute|by vm_compute; eexists]. Qed.

(** A text put into the queue of a worker that has already looked at it for the last
    time: the shutdown ends, and its sender is never told. *)
Definition shut_down : list Label :=
  [LStartAll; LStarted 0 true; LPublish Text "slack"; LRoute Text; LLock Text; LStopAll; LDone 0 Text; LEmpty 0 Text; LExit 0 Text; LEnqueue Text IntoQueue;
   LStop 0 StopClose; LDone 0 Media; LExit 0 Media; LStop 0 StopExited; LStop 0 StopReturns; LDispatcherEnds Text; LDispatcherEnds Media].

Example stranded : ∃ s, run shut_down start = Some s ∧ ctl s = CtlIdle ∧ disp Text s = DEnded ∧ disp Media s = DEnded ∧
  finished (trace s) = [] ∧ map (λ w, (pc (ChannelManager.text w), map number (queue (ChannelManager.text w)))) (table s) = [(Exited, [0])].
Proof. eexists. split; [by vm_compute|]. split_and!; by vm_compute. Qed.

(** A shutdown that comes while a reload still stops channels cancels no start: the
    channel built afterwards is started all the same, and [StopAll] waits for it. *)
Example late_start : ∃ s, run [LStartAll; LStarted 0 true; LReload [spec "slack" "y"] 0; LCancelStarts; LStop 0 StopClose; LStop 0 StopTimeout; LStop 0 StopLeave;
    LStop 0 StopReturns; LBuild true] start = Some s ∧ ctl s = CtlStarting [pend {| c_name := "slack"; c_id := 1 |}] ∧ StopAll s = None ∧ is_Some (step (LStarted 0 true) s).
Proof. eexists. split; [by vm_compute|]. split_and!; [by vm_compute|by vm_compute|by vm_compute; eexists]. Qed.

End ChannelRunsExamples.
