(* ===== verification/Asks.v ===== *)
(** * Agents asking one another (agent/ask.go, agent/turn_slot.go, agent/turn_reply.go, tools/turnscope.go, part of agent/messenger.go)

    What an ask is made of: the chain of agents waiting in one exchange, the depth it
    runs at, the graph of who waits for whom across exchanges, the registry of the
    asks waiting for a reply, the slot a turn lends while it waits, and what the
    sender of a message is told when its turn ends. The file AskRuns puts the parts
    together as a step system. *)

From stdpp Require Import base gmap strings list fin_maps relations.
From Stdlib Require Import ZArith Lia Ascii.
From S2P Require Import Prelude GoString AgentIds SessionDispatch.

Open Scope string_scope.
Open Scope list_scope.
Open Scope Z_scope.

(** ** The ask chain *)

(** [WithAskChainAgent] on the chain of the context. *)
Definition WithAskChainAgent (chain : list string) (agentID : string) : list string :=
  if bool_decide (agentID = "") || bool_decide (agentID ∈ chain) then chain else chain ++ [agentID].

Definition metadataKeyAskChain : string := "ask_chain".
Definition metadataKeyAskFrom : string := "ask_from".
Definition metadataKeyPreresolvedAgentID : string := "preresolved_agent_id".

Definition add_waiting (chain : list string) (id : string) : list string :=
  let id := TrimSpace id in
  if negb (bool_decide (id = "")) && negb (bool_decide (id ∈ chain)) then chain ++ [id] else chain.

Definition comma : ascii := ","%char.

Definition withInboundAskChain (chain : list string) (m : InboundMessage) : list string :=
  let raw := inboundMetadata m metadataKeyAskChain in
  if bool_decide (raw = "") then chain else foldl add_waiting chain (Split raw comma).

(** ** Depth *)

Definition MetaSpawnDepth : string := "spawn_depth".

(** [strconv.Atoi]. *)
Definition Atoi (s : string) : option Z :=
  let '(neg, l) := match bytes s with
                   | "+"%char :: l => (false, l)
                   | "-"%char :: l => (true, l)
                   | l => (false, l)
                   end in
  if bool_decide (l = []) || negb (forallb (λ c, is_digit (byte_val c)) l) then None
  else let v := if neg then - dec_value l else dec_value l in
       if (- 2 ^ 63 <=? v) && (v <? 2 ^ 63) then Some v else None.

Definition SetSpawnDepth (meta : gmap string string) (depth : Z) : gmap string string :=
  if depth <=? 0 then meta else <[MetaSpawnDepth := itoa depth]> meta.

(** [withInboundSpawnDepth] on the depth of the context. *)
Definition withInboundSpawnDepth (depth : Z) (m : InboundMessage) (maxDepth : Z) : Z :=
  let raw := inboundMetadata m MetaSpawnDepth in
  if bool_decide (raw = "") then depth
  else match Atoi (TrimSpace raw) with
  | None => depth
  | Some d => if d <? 0 then depth else
              let d := Z.min d maxDepth in if d <=? depth then depth else d
  end.

(** ** Who waits for whom *)

(** [waitGraph.edges]: caller, target, asks in flight. *)
Notation waitGraph := (gmap string (gmap string nat)).

Definition row (g : waitGraph) (caller : string) : gmap string nat := default ∅ (g !! caller).
Definition in_flight (g : waitGraph) (caller target : string) : nat := default 0%nat (row g caller !! target).

(** The loop over the agents a caller waits on. *)
Fixpoint any_reaches (visit : string → gset string → bool * gset string) (nexts : list string) (seen : gset string) : bool * gset string :=
  match nexts with
  | [] => (false, seen)
  | next :: nexts' =>
    let '(found, seen') := visit next seen in
    if found then (true, seen') else any_reaches visit nexts' seen'
  end.

Section graph.
(** The keys in the order in which a map is ranged over, which Go leaves open. *)
Variable range : gmap string nat → list string.

(** The fuel bounds the depth of the recursion. *)
Fixpoint reachesLocked (fuel : nat) (g : waitGraph) (to from : string) (seen : gset string) : bool * gset string :=
  match fuel with
  | O => (false, seen)
  | S fuel' =>
    if bool_decide (from = to) then (true, seen)
    else if bool_decide (from ∈ seen) then (false, seen)
    else any_reaches (reachesLocked fuel' g to) (range (row g from)) ({[from]} ∪ seen)
  end.

Definition waits_begin (g : waitGraph) (caller target : string) : option waitGraph :=
  if fst (reachesLocked (S (size g)) g caller target ∅) then None
  else Some (<[caller := <[target := S (in_flight g caller target)]> (row g caller)]> g).
End graph.

Definition waits_end (g : waitGraph) (caller target : string) : waitGraph :=
  if (in_flight g caller target <=? 1)%nat then
    let r := delete target (row g caller) in
    if bool_decide (r = ∅) then delete caller g else <[caller := r]> g
  else <[caller := <[target := pred (in_flight g caller target)]> (row g caller)]> g.

(** ** The asks waiting for a reply *)

Record AgentReply := { reply_Text : string; reply_Outcome : string }.

Record pendingAsk := { from : string; deadline : Z; stopTurn : bool }.

(** [askRegistry]: the asks of [waiting], the buffer of the reply channel of every
    ask opened so far, and the asks whose channel [gone] is closed. *)
Record askRegistry := { waiting : gmap string pendingAsk; replies : gmap string (option AgentReply); gone : gset string }.

Definition no_asks : askRegistry := {| waiting := ∅; replies := ∅; gone := ∅ |}.

Definition open_ask (id : string) (p : pendingAsk) (r : askRegistry) : askRegistry :=
  {| waiting := <[id := p]> (waiting r); replies := <[id := None]> (replies r); gone := gone r |}.

Definition takeLocked (id : string) (r : askRegistry) : askRegistry * bool :=
  match waiting r !! id with
  | Some _ => ({| waiting := delete id (waiting r); replies := replies r; gone := {[id]} ∪ gone r |}, true)
  | None => (r, false)
  end.

Definition close_ask (id : string) (r : askRegistry) : askRegistry := fst (takeLocked id r).

(** A send on a channel whose buffer is full would wait; [reply_once] of AskRuns
    shows that it never is. *)
Definition deliver (id : string) (reply : AgentReply) (r : askRegistry) : askRegistry * bool :=
  let '(r', ok) := takeLocked id r in
  if ok then ({| waiting := waiting r'; replies := <[id := Some reply]> (replies r'); gone := gone r' |}, true) else (r', false).

Definition isWaiting (id : string) (r : askRegistry) : bool := bool_decide (is_Some (waiting r !! id)).

(** A receive from the reply channel. *)
Definition receive (id : string) (r : askRegistry) : option (AgentReply * askRegistry) :=
  match replies r !! id with
  | Some (Some reply) => Some (reply, {| waiting := waiting r; replies := <[id := None]> (replies r); gone := gone r |})
  | _ => None
  end.

(** [giveUp] of [awaitAskReply]. *)
Definition giveUp (id : string) (r : askRegistry) : askRegistry * option AgentReply :=
  let r := close_ask id r in
  match receive id r with Some (reply, r') => (r', Some reply) | None => (r, None) end.

(** ** The slot of a turn *)

Record turnSlot := { held : bool; lent : Z; done : bool }.

(** [&turnSlot{al: al}]. *)
Definition new_slot : turnSlot := {| held := false; lent := 0; done := false |}.

Section slots.
(** [cap(turnSem)], if there is a limit. *)
Variable limit : option nat.

(** A slot taken from the semaphore, of which [used] are; [None] while it waits. *)
Definition acquireTurnSlot (used : nat) : option nat :=
  match limit with
  | None => Some used
  | Some n => if (used <? n)%nat then Some (S used) else None
  end.

Definition releaseTurnSlot (used : nat) : nat := match limit with None => used | Some _ => pred used end.

Definition slot_acquire (s : turnSlot) (used : nat) : option (turnSlot * nat) :=
  match acquireTurnSlot used with
  | Some used' => Some ({| held := true; lent := lent s; done := done s |}, used')
  | None => None
  end.

Definition slot_release (s : turnSlot) (used : nat) : turnSlot * nat :=
  ({| held := false; lent := lent s; done := true |}, if held s then releaseTurnSlot used else used).

Definition slot_lend (s : turnSlot) (used : nat) : turnSlot * nat :=
  ({| held := false; lent := lent s + 1; done := done s |}, if held s then releaseTurnSlot used else used).
End slots.

(** The part of [reclaim] before it waits, and whether it does. *)
Definition slot_reclaim (s : turnSlot) : turnSlot * bool :=
  ({| held := held s; lent := lent s - 1; done := done s |}, (lent s - 1 =? 0) && negb (held s) && negb (done s)).

(** ** Sending an ask *)

Record sender := { s_id : string; s_name : string; s_note : string }.

Definition label (s : sender) : string :=
  if bool_decide (s_note s = "") then s_name s else s_name s +:+ " (" +:+ s_note s +:+ ")".

Definition askHeader (from : sender) : string :=
  "[Message from " +:+ label from +:+ " — " +:+ s_name from +:+ " is waiting for your reply]".

(** The parts of an [AgentInstance] an ask reads; [t_active] is
    [getActiveModelIndex] of its main session. *)
Record Target := { t_ID : string; t_DisplayName : string; t_Model : string; t_Candidates : list (string * string); t_active : Z }.

(** The registry, the configuration and [running]; timeouts are in seconds. *)
Record Host := {
  agents : gmap string Target;
  running : bool;
  maxSubagentDepth : Z;
  maxConcurrentTurns : option nat;
  modelTimeouts : gmap string Z;
  defaultTimeout : Z
}.

Definition second : Z := 1000000000.

Definition active_model (t : Target) : string :=
  match t_Candidates t with
  | [] => t_Model t
  | c :: cs =>
    let idx := if (t_active t <? 0) || (Z.of_nat (length (c :: cs)) <=? t_active t) then 0 else t_active t in
    let '(alias, model) := default c ((c :: cs) !! Z.to_nat idx) in
    if negb (bool_decide (alias = "")) then alias else if negb (bool_decide (model = "")) then model else t_Model t
  end.

Definition requestTimeoutFor (h : Host) (t : Target) : Z :=
  match modelTimeouts h !! active_model t with
  | Some n => if 0 <? n then n * second else if 0 <? defaultTimeout h then defaultTimeout h * second else 0
  | None => if 0 <? defaultTimeout h then defaultTimeout h * second else 0
  end.

Inductive AskError := SenderRequired | MessageEmpty | WaitNotPositive | ErrNoSuchAgent | NotRunning | ErrMaxDepth | ErrAskLoop.

(** What an ask reads of its context: the ask chain, the depth and the time left
    until the deadline, if there is one. *)
Record AskCtx := { x_chain : list string; x_depth : Z; x_left : option Z }.

(** The arguments of [ask]. *)
Record Request := { r_from : sender; r_agent : string; r_message : string; r_wait : Z; r_stop : bool }.

Definition askTarget (h : Host) (x : AskCtx) (q : Request) : Target + AskError :=
  if bool_decide (s_name (r_from q) = "") then inr SenderRequired
  else if bool_decide (TrimSpace (r_message q) = "") then inr MessageEmpty
  else if r_wait q <=? 0 then inr WaitNotPositive
  else match agents h !! NormalizeAgentID (r_agent q) with
  | None => inr ErrNoSuchAgent
  | Some t =>
    if negb (running h) then inr NotRunning
    else if maxSubagentDepth h <=? x_depth x then inr ErrMaxDepth
    else if bool_decide (t_ID t ∈ x_chain x) then inr ErrAskLoop
    else inl t
  end.

Definition askWaitFor (h : Host) (x : AskCtx) (t : Target) (wait : Z) : Z :=
  let rt := requestTimeoutFor h t in
  let wait := if (0 <? rt) && (rt <? wait) then rt else wait in
  match x_left x with
  | Some rest => if rest <? wait then rest else wait
  | None => wait
  end.

Definition no_sender_info : SenderInfo := {| Platform := ""; PlatformID := ""; CanonicalID := ""; Username := ""; DisplayName := "" |}.

Definition ask_metadata (from : sender) (target : string) (chain : list string) (depth : Z) : gmap string string :=
  let meta := <[metadataKeyAskFrom := s_name from]> (<[MetaReplyRequired := "1"]> {[metadataKeyPreresolvedAgentID := target]}) in
  let meta := match chain with [] => meta | _ => <[metadataKeyAskChain := Join chain (String comma "")]> meta end in
  SetSpawnDepth meta (depth + 1).

(** The message of [publishAsk]. *)
Definition publishAsk (id : string) (from : sender) (target : string) (message : string) (chain : list string) (depth : Z) : InboundMessage :=
  {| Channel := AgentMessageChannel; SenderID := label from; Sender := no_sender_info; ChatID := id;
     Content := askHeader from +:+ String "010" message; Media := []; m_Peer := {| peer_Kind := ""; peer_ID := "" |};
     MessageID := id; MediaScope := ""; SessionKey := ""; Metadata := ask_metadata from target chain depth; IsRetry := false; Internal := true |}.

(** ** How a turn's end reaches its sender *)

(** The errors and causes the code tells apart with [errors.Is] and [errors.As]. *)
Inductive errKind := errAgentGone | humanNotAsked | errAskerStopped | errHumanCancelled | humanUnreachable | errCancelledByUser.

#[export] Instance errKind_eq_dec : EqDecision errKind.
Proof. solve_decision. Defined.

(** An error, by what it wraps and its text. *)
Record TurnError := { kinds : list errKind; e_text : string }.

Definition is_err (k : errKind) (e : option TurnError) : bool :=
  match e with None => false | Some e => bool_decide (k ∈ kinds e) end.

Definition OutcomeOK : string := "ok".
Definition OutcomeError : string := "error".
Definition OutcomeCancelled : string := "cancelled".
Definition OutcomeEmpty : string := "empty".
Definition OutcomePersonCancelled : string := "person_cancelled".
Definition OutcomePersonUnreachable : string := "person_unreachable".

Record turnEnd := {
  e_response : string; e_outcome : string; e_err : option TurnError; e_cause : option TurnError;
  e_ask : bool; e_replyRequired : bool; e_fromPerson : bool; e_agentID : string
}.

Inductive replyAction := replySend | replyTurnError | replyDrop | replyDropAskCancelled | replyDropPersonAskerStopped.

Definition agentGoneText (agentID : string) : string :=
  if bool_decide (agentID = "") then "That agent no longer exists." else "Agent " +:+ agentID +:+ " no longer exists.".

Definition err_text (e : option TurnError) : string := match e with Some e => e_text e | None => "" end.

Definition cancelledText : string := "⚠️ Cancelled by /cancel. Some steps may have completed — ask me to continue if needed.".

Definition decideTurnReply (e : turnEnd) : replyAction * string * string :=
  let failed := match e_err e with Some _ => true | None => false end in
  if is_err errAgentGone (e_err e) then
    if negb (e_replyRequired e) then (replyDrop, "", "") else (replySend, agentGoneText (e_agentID e), OutcomeError)
  else if is_err humanNotAsked (e_err e) then
    if negb (e_replyRequired e) && negb (e_fromPerson e) then (replyDrop, "", "") else (replySend, err_text (e_err e), OutcomeError)
  else if failed && e_ask e && is_err errAskerStopped (e_cause e) then (replyDropAskCancelled, "", "")
  else if is_err errAskerStopped (e_err e) then (replyDropPersonAskerStopped, "", "")
  else if is_err errHumanCancelled (e_err e) then (replySend, err_text (e_err e), OutcomeCancelled)
  else if is_err humanUnreachable (e_err e) then (replySend, err_text (e_err e), OutcomeError)
  else if failed && is_err errCancelledByUser (e_cause e) then (replySend, cancelledText, OutcomeCancelled)
  else if failed then (replyTurnError, e_response e, OutcomeError)
  else if bool_decide (e_response e = "") || bool_decide (e_outcome e = OutcomeEmpty) then
    if e_replyRequired e then (replySend, "", OutcomeEmpty) else (replySend, e_response e, OutcomeEmpty)
  else if bool_decide (e_outcome e = "") then (replySend, e_response e, OutcomeOK)
  else (replySend, e_response e, e_outcome e).

Definition askReplyOutcome (err : option TurnError) (outcome : string) : string :=
  if is_err errHumanCancelled err then OutcomePersonCancelled
  else if is_err humanUnreachable err then OutcomePersonUnreachable
  else outcome.

(** ** The wait graph *)

(** [a] waits on [b]. *)
Definition waits_on (g : waitGraph) (a b : string) : Prop := is_Some (row g a !! b).

(** Counts are positive and no caller is kept without a target. *)
Definition graph_ok (g : waitGraph) : Prop :=
  (∀ a r, g !! a = Some r → r ≠ ∅) ∧ (∀ a b n, row g a !! b = Some n → (0 < n)%nat).

Definition acyclic (g : waitGraph) : Prop := ∀ a, ¬ tc (waits_on g) a a.

(** The keys of a map, as a range visits them. *)
Definition map_keys `{GoRange} (m : gmap string nat) : list string := (go_range m).*1.

(** What a range over a map gives. *)
Definition ranges (range : gmap string nat → list string) : Prop := ∀ m k, k ∈ range m ↔ is_Some (m !! k).

Lemma map_keys_ranges `{GoRange} : ranges map_keys.
Proof.
  intros m k. unfold map_keys. rewrite list_elem_of_fmap. split.
  - intros ([k' n] & -> & Hn%elem_of_go_range). by exists n.
  - intros [n Hn]. exists (k, n). by rewrite elem_of_go_range.
Qed.

Lemma row_insert g a r c : row (<[a := r]> g) c = if decide (c = a) then r else row g c.
Proof. unfold row. case_decide as Hc; [subst; by rewrite lookup_insert_eq|by rewrite lookup_insert_ne by congruence]. Qed.

Lemma row_delete g a c : row (delete a g) c = if decide (c = a) then ∅ else row g c.
Proof. unfold row. case_decide as Hc; [subst; by rewrite lookup_delete_eq|by rewrite lookup_delete_ne by congruence]. Qed.

Lemma in_flight_edge g a b : graph_ok g → waits_on g a b ↔ (0 < in_flight g a b)%nat.
Proof.
  intros [_ Hp]. unfold waits_on, in_flight. destruct (row g a !! b) as [n|] eqn:Hn; cbn.
  - split; [intros _; by eapply Hp|by eexists].
  - split; [by intros [? [=]]|lia].
Qed.

(** Visits leave what they were asked for out of [seen], and [seen] closed under
    the graph but for the agents that were in it before. *)
Definition visited (g : waitGraph) (to : string) (seen seen' : gset string) : Prop :=
  seen ⊆ seen' ∧ (to ∈ seen' → to ∈ seen) ∧ ∀ x y, x ∈ seen' → x ∉ seen → waits_on g x y → y ∈ seen'.

Lemma visited_trans g to s1 s2 s3 : visited g to s1 s2 → visited g to s2 s3 → visited g to s1 s3.
Proof.
  intros (H1 & H2 & H3) (H4 & H5 & H6). split_and!; [set_solver|naive_solver|].
  intros x y Hx Hn Hxy. destruct (decide (x ∈ s2)); [apply H4; eauto|eauto].
Qed.

Section reaching.
Context (range : gmap string nat → list string) (range_ok : ranges range).
Implicit Types g : waitGraph.

Notation visit := (reachesLocked range).

Lemma reaches_sound fuel g to from seen seen' : visit fuel g to from seen = (true, seen') → rtc (waits_on g) from to.
Proof.
  revert from seen seen'. induction fuel as [|fuel IH]; intros from seen seen'; cbn; [done|].
  case_bool_decide as Hft; [by subst|]. case_bool_decide; [done|]. assert (Hr : ∀ n, n ∈ range (row g from) → waits_on g from n) by (intros n; apply range_ok).
  generalize ({[from]} ∪ seen). revert Hr. induction (range (row g from)) as [|n ns IHn]; intros Hr sn; cbn; [done|].
  destruct (visit fuel g to n sn) as [[] sn'] eqn:Hv.
  - intros _. eapply rtc_l; [apply Hr; by left|by eapply IH].
  - apply IHn. intros m Hm. apply Hr. by right.
Qed.

Lemma reaches_complete fuel g to from seen seen' :
  (size (dom g ∖ seen) < fuel)%nat → visit fuel g to from seen = (false, seen') → visited g to seen seen' ∧ from ∈ seen'.
Proof.
  revert from seen seen'. induction fuel as [|fuel IH]; intros from seen seen' Hf; [lia|]. cbn.
  case_bool_decide as Hft; [done|]. case_bool_decide as Hin; [intros [= <-]; split; [split_and!; set_solver|done]|]. intros Hv.
  assert (Hloop : ∀ ns sn s', from ∈ sn → seen ⊆ sn → (∀ n, n ∈ ns → waits_on g from n) → any_reaches (visit fuel g to) ns sn = (false, s') →
    visited g to sn s' ∧ ∀ n, n ∈ ns → n ∈ s').
  { induction ns as [|n ns IHn]; intros sn s' Hfs Hss Hns; cbn; [intros [= <-]; split; [split_and!; set_solver|set_solver]|].
    destruct (visit fuel g to n sn) as [[] sn'] eqn:Hn; [done|]. intros Hrest. apply IH in Hn as [Hn1 Hn2].
    - pose proof Hn1 as (Hsub & _). apply IHn in Hrest as [Hr1 Hr2]; [|set_solver|set_solver|intros m Hm; apply Hns; by right].
      split; [by eapply visited_trans|]. intros m [->|Hm]%elem_of_cons; [|auto]. destruct Hr1 as (Hr1 & _). set_solver.
    - assert (Hfd : from ∈ dom g). { destruct (Hns n ltac:(by left)) as [k Hk]. unfold row in Hk. apply elem_of_dom. destruct (g !! from); [by eexists|done]. }
      assert (Hlt : (size (dom g ∖ sn) < size (dom g ∖ seen))%nat) by (apply subset_size; set_solver). lia. }
  apply Hloop in Hv as [(H1 & H2 & H3) Hns]; [|set_solver|set_solver|intros n; apply range_ok].
  split; [|set_solver]. split_and!; [set_solver|set_solver|]. intros x y Hx Hn Hxy. destruct (decide (x = from)) as [->|Hne].
  - apply Hns. by apply range_ok.
  - eapply H3; [exact Hx|set_solver|done].
Qed.

Lemma reaches_iff g to from : fst (visit (S (size g)) g to from ∅) = true ↔ rtc (waits_on g) from to.
Proof.
  destruct (visit (S (size g)) g to from ∅) as [[] seen'] eqn:Hv; cbn; (split; [try done|]).
  - intros _. by eapply reaches_sound.
  - done.
  - intros Hr. apply reaches_complete in Hv as [(_ & H2 & H3) Hfrom].
    2: { rewrite difference_empty_L, size_dom. lia. }
    exfalso. assert (Hto : to ∈ seen'); [|by apply H2 in Hto; set_solver]. clear H2.
    induction Hr as [|x y z Hxy _ IH]; [done|]. apply IH. eapply H3; [exact Hfrom|apply not_elem_of_empty|done].
Qed.

(** An ask is refused exactly when its target already waits on the caller, directly or
    through others (or is the caller): otherwise one more ask is in flight, and nothing
    else changes. The order in which the maps are gone through does not matter. *)
Lemma begin_spec g caller target :
  match waits_begin range g caller target with
  | None => rtc (waits_on g) target caller
  | Some g' => ¬ rtc (waits_on g) target caller ∧ g' = <[caller := <[target := S (in_flight g caller target)]> (row g caller)]> g
  end.
Proof.
  unfold waits_begin. pose proof (reaches_iff g caller target) as Hr. destruct (fst _); [by apply Hr|]. split; [|done]. intros H. by apply Hr in H.
Qed.
End reaching.

Lemma in_flight_begin range g caller target g' a b : ranges range → waits_begin range g caller target = Some g' →
  in_flight g' a b = (in_flight g a b + if bool_decide ((a, b) = (caller, target)) then 1 else 0)%nat.
Proof.
  intros Hr Hb. pose proof (begin_spec range Hr g caller target) as Hs. rewrite Hb in Hs. destruct Hs as [_ ->]. unfold in_flight. rewrite row_insert.
  case_decide as Ha; [subst a|rewrite bool_decide_eq_false_2 by congruence; lia]. destruct (decide (b = target)) as [->|Hne].
  - rewrite lookup_insert_eq, bool_decide_eq_true_2 by done. cbn. unfold in_flight. lia.
  - rewrite lookup_insert_ne by done. rewrite bool_decide_eq_false_2 by congruence. lia.
Qed.

Lemma in_flight_end g caller target a b :
  in_flight (waits_end g caller target) a b = (in_flight g a b - if bool_decide ((a, b) = (caller, target)) then 1 else 0)%nat.
Proof.
  assert (Hrow : row (waits_end g caller target) caller =
    (if (in_flight g caller target <=? 1)%nat then delete target (row g caller) else <[target := pred (in_flight g caller target)]> (row g caller)) ∧
    ∀ c, c ≠ caller → row (waits_end g caller target) c = row g c).
  { unfold waits_end. case_if; [case_bool_decide as He|]; (split; [rewrite ?row_delete, ?row_insert, decide_True by done; congruence|]);
      intros c Hc; by rewrite ?row_delete, ?row_insert, decide_False by done. }
  destruct Hrow as [H1 H2]. unfold in_flight at 1 2. destruct (decide (a = caller)) as [->|Hne]; [|rewrite H2, bool_decide_eq_false_2 by congruence; lia].
  rewrite H1. destruct (decide (b = target)) as [->|Hb].
  - rewrite bool_decide_eq_true_2 by done. destruct (_ <=? _)%nat eqn:Hle; [rewrite lookup_delete_eq|rewrite lookup_insert_eq].
    + apply Nat.leb_le in Hle. unfold in_flight in Hle. cbn. lia.
    + cbn. unfold in_flight. lia.
  - rewrite bool_decide_eq_false_2 by congruence. case_if; [rewrite lookup_delete_ne by done|rewrite lookup_insert_ne by done]; lia.
Qed.

Lemma graph_ok_begin range g caller target g' : ranges range → waits_begin range g caller target = Some g' → graph_ok g → graph_ok g'.
Proof.
  intros Hr Hb [H1 H2]. pose proof (begin_spec range Hr g caller target) as Hs. rewrite Hb in Hs. destruct Hs as [_ ->]. split.
  - intros a r [[<- <-]|[_ Ha]]%lookup_insert_Some; [apply insert_non_empty|by eapply H1].
  - intros a b n. rewrite row_insert. case_decide as Ha; [|apply H2]. intros [[<- <-]|[_ Hn]]%lookup_insert_Some; [lia|by eapply H2].
Qed.

Lemma graph_ok_end g caller target : graph_ok g → graph_ok (waits_end g caller target).
Proof.
  intros [H1 H2]. unfold waits_end. destruct (_ <=? _)%nat eqn:Hle; [case_bool_decide as He|]; split.
  - intros a r [_ Ha]%lookup_delete_Some. by eapply H1.
  - intros a b n. rewrite row_delete. case_decide; [by rewrite lookup_empty|apply H2].
  - intros a r [[<- <-]|[_ Ha]]%lookup_insert_Some; [done|by eapply H1].
  - intros a b n. rewrite row_insert. case_decide as Ha; [|apply H2]. intros [_ Hn]%lookup_delete_Some. by eapply H2.
  - intros a r [[<- <-]|[_ Ha]]%lookup_insert_Some; [apply insert_non_empty|by eapply H1].
  - apply Nat.leb_gt in Hle. intros a b n. rewrite row_insert. case_decide as Ha; [|apply H2]. intros [[<- <-]|[_ Hn]]%lookup_insert_Some; [lia|by eapply H2].
Qed.

(** One more edge closes a cycle only when there is a way back along it. *)
Lemma tc_add_edge {A} (R R' : relation A) c t :
  (∀ x y, R' x y → R x y ∨ (x = c ∧ y = t)) → ¬ rtc R t c → ∀ a b, tc R' a b → tc R a b ∨ (rtc R a c ∧ rtc R t b).
Proof.
  intros Hsub Hn a b Hab. induction Hab as [x y Hxy|x y z Hxy _ IH].
  - destruct (Hsub _ _ Hxy) as [?|[-> ->]]; [left; by apply tc_once|right; by split].
  - destruct (Hsub _ _ Hxy) as [Hr|[-> ->]].
    + destruct IH as [IH|[IH1 IH2]]; [left; by eapply tc_l|right; split; [by eapply rtc_l|done]].
    + right. split; [done|]. destruct IH as [IH|[IH1 _]]; [by apply tc_rtc|done].
Qed.

Lemma acyclic_begin range g caller target g' : ranges range → graph_ok g → waits_begin range g caller target = Some g' → acyclic g → acyclic g'.
Proof.
  intros Hr Hg Hb Ha a Hc. assert (Hg' : graph_ok g') by (by eapply graph_ok_begin).
  pose proof (begin_spec range Hr g caller target) as Hs. rewrite Hb in Hs. destruct Hs as [Hn _].
  assert (Hsub : ∀ x y, waits_on g' x y → waits_on g x y ∨ (x = caller ∧ y = target)).
  { intros x y. rewrite !in_flight_edge, (in_flight_begin _ _ _ _ _ x y Hr Hb) by done. case_bool_decide as Hxy; [injection Hxy as -> ->; auto|rewrite Nat.add_0_r; auto]. }
  destruct (tc_add_edge _ _ _ _ Hsub Hn a a Hc) as [H|[H1 H2]]; [by eapply Ha|apply Hn; by etrans].
Qed.

Lemma acyclic_end g caller target : graph_ok g → acyclic g → acyclic (waits_end g caller target).
Proof.
  intros Hg Ha a Hc. apply (Ha a). assert (Hsub : ∀ x y, waits_on (waits_end g caller target) x y → waits_on g x y).
  { intros x y. rewrite !in_flight_edge by auto using graph_ok_end. rewrite in_flight_end. lia. }
  clear Ha. revert Hc. generalize a at 1 3. intros b Hc. induction Hc as [x y Hxy|x y z Hxy _ IH]; [by apply tc_once, Hsub|by eapply tc_l; [apply Hsub|]].
Qed.

Lemma graph_ok_empty : graph_ok ∅.
Proof. split; [intros a r; by rewrite lookup_empty|intros a b n; unfold row; by rewrite lookup_empty]. Qed.

Lemma acyclic_empty : acyclic ∅.
Proof.
  intros a Ht. assert (∀ x y, ¬ waits_on ∅ x y) as Hn by (intros x y [n Hn]; unfold row in Hn; by rewrite lookup_empty in Hn).
  destruct Ht as [x y Hxy|x y z Hxy _]; by apply Hn in Hxy.
Qed.

(** ** Chains and depths *)

(** Agent ids as the registry has them. *)
Definition plain_id (id : string) : Prop := valid_id (bytes id).

Lemma plain_id_facts id : plain_id id → TrimSpace id = id ∧ id ≠ "" ∧ comma ∉ bytes id.
Proof.
  intros Hv. split_and!.
  - pose proof (valid_id_trim _ Hv) as H. by rewrite of_bytes_bytes in H.
  - intros ->. by destruct Hv as [c l Hl _ _ _].
  - intros Hc. destruct Hv as [d l' _ _ Hall _]. rewrite Forall_forall in Hall. apply Hall in Hc. by vm_compute in Hc.
Qed.

Lemma Split_ids ids : ids ≠ [] → Forall plain_id ids → Split (Join ids (String comma "")) comma = ids.
Proof.
  intros Hne Hall. unfold Split. induction Hall as [|id ids Hid Hall IH]; [done|]. apply plain_id_facts in Hid as (_ & _ & Hc).
  destruct ids as [|id2 ids]; cbn [Join].
  - rewrite split_byte_none by done. cbn. by rewrite of_bytes_bytes.
  - rewrite !bytes_app. change (bytes (String comma "")) with [comma]. cbn [app]. rewrite split_byte_app by done. cbn [map]. rewrite of_bytes_bytes. f_equal. by apply IH.
Qed.

Lemma add_waiting_all ids chain : Forall plain_id ids → NoDup (chain ++ ids) → foldl add_waiting chain ids = chain ++ ids.
Proof.
  intros Hall. revert chain. induction Hall as [|id ids Hid _ IH]; intros chain Hn; [by rewrite app_nil_r|]. apply plain_id_facts in Hid as (Ht & Hne & _).
  cbn. unfold add_waiting at 2. rewrite Ht, bool_decide_eq_false_2 by done. rewrite bool_decide_eq_false_2.
  - cbn. rewrite IH; [by rewrite <- app_assoc|]. by rewrite <- app_assoc.
  - rewrite NoDup_app in Hn. destruct Hn as (_ & Hd & _). intros Hin. apply (Hd id Hin). by left.
Qed.

(** The metadata of an ask, read back. *)
Lemma ask_metadata_chain id from target message chain depth : Forall plain_id chain → NoDup chain →
  withInboundAskChain [] (publishAsk id from target message chain depth) = chain.
Proof.
  intros Hall Hn. unfold withInboundAskChain, inboundMetadata, publishAsk, ask_metadata, SetSpawnDepth. cbn [Metadata].
  assert (∀ (m : gmap string string) v, <[MetaSpawnDepth := v]> m !! metadataKeyAskChain = m !! metadataKeyAskChain) as Hd by (intros; by rewrite lookup_insert_ne).
  assert (∀ (m : gmap string string), (if depth + 1 <=? 0 then m else <[MetaSpawnDepth := itoa (depth + 1)]> m) !! metadataKeyAskChain = m !! metadataKeyAskChain) as -> by (intros; case_if; auto).
  destruct chain as [|c cs]; [done|]. rewrite lookup_insert_eq. cbn [default from_option]. change (Datatypes.id ?x) with x. rewrite bool_decide_eq_false_2.
  - rewrite Split_ids by done. by rewrite add_waiting_all.
  - intros Hj. assert (Hc : bytes (Join (c :: cs) (String comma "")) = []) by (by rewrite Hj). apply Forall_cons_1 in Hall as [Hc' _]. apply plain_id_facts in Hc' as (_ & Hc' & _).
    destruct cs; cbn in Hc; rewrite ?bytes_app in Hc; destruct c; done.
Qed.

Lemma Atoi_itoa n : 0 ≤ n < 2 ^ 63 → Atoi (TrimSpace (itoa n)) = Some n.
Proof.
  intros Hn. pose proof (itoa_all_digits n ltac:(lia)) as Hd. pose proof (dec_value_itoa n ltac:(lia)) as Hv.
  assert (Hplain : ∀ c, c ∈ bytes (itoa n) → plain_byte c).
  { intros c Hc. rewrite Forall_forall in Hd. apply Hd in Hc. unfold is_digit, in_range in Hc. split; unfold ascii_byte, ascii_space, in_range; zb; lia. }
  destruct (bytes (itoa n)) as [|c l] eqn:Hb; [cbn in Hv|].
  { assert (n = 0) as -> by lia. by vm_compute in Hb. }
  assert (Htrim : TrimSpace (itoa n) = itoa n).
  { destruct (exists_last (l:=c :: l)) as (l2 & d & Hl); [done|]. rewrite <- (of_bytes_bytes (itoa n)), Hb.
    eapply TrimSpace_id; [done|exact Hl|apply Hplain; by left|apply Hplain; rewrite Hl; set_solver]. }
  rewrite Htrim. unfold Atoi. rewrite Hb. assert (Hc : is_digit (byte_val c) = true) by (rewrite Forall_forall in Hd; apply Hd; by left).
  assert (Hall : forallb (λ c, is_digit (byte_val c)) (c :: l) = true) by (apply forallb_forall; rewrite Forall_forall in Hd; intros x Hx; apply Hd; by apply list_elem_of_In).
  assert (∀ A (f g h : list ascii → A), match c :: l with "+"%char :: l' => f l' | "-"%char :: l' => g l' | l' => h l' end = h (c :: l)) as Hm.
  { intros A f g h. destruct c as [[] [] [] [] [] [] [] []]; try done; by vm_compute in Hc. }
  rewrite (Hm _ (λ l, (false, l)) (λ l, (true, l)) (λ l, (false, l))). rewrite Hall, bool_decide_eq_false_2 by done. cbn [orb negb].
  rewrite Hv. destruct (Z.leb_spec (- 2 ^ 63) n); [|lia]. by destruct (Z.ltb_spec n (2 ^ 63)); [|lia].
Qed.

Lemma ask_metadata_depth id from target message chain depth maxDepth : 0 ≤ depth < maxDepth → maxDepth < 2 ^ 63 →
  withInboundSpawnDepth 0 (publishAsk id from target message chain depth) maxDepth = depth + 1.
Proof.
  intros Hd Hm. unfold withInboundSpawnDepth, inboundMetadata, publishAsk, ask_metadata, SetSpawnDepth. cbn [Metadata].
  destruct (Z.leb_spec (depth + 1) 0); [lia|]. rewrite lookup_insert_eq. cbn [default from_option]. change (Datatypes.id ?x) with x. rewrite bool_decide_eq_false_2.
  - rewrite Atoi_itoa by lia. destruct (Z.ltb_spec (depth + 1) 0); [lia|]. destruct (Z.leb_spec (Z.min (depth + 1) maxDepth) 0); lia.
  - intros He. pose proof (dec_value_itoa (depth + 1) ltac:(lia)) as Hv. rewrite He in Hv. cbn in Hv. lia.
Qed.

Lemma publishAsk_alone id from target message chain depth : ReplyRequired (publishAsk id from target message chain depth) = true.
Proof.
  unfold ReplyRequired, inboundMetadata, publishAsk, ask_metadata, SetSpawnDepth. cbn [Metadata]. apply bool_decide_eq_true_2.
  case_if; destruct chain; rewrite ?(lookup_insert_ne _ MetaSpawnDepth), ?(lookup_insert_ne _ metadataKeyAskChain), (lookup_insert_ne _ metadataKeyAskFrom), lookup_insert_eq by done; done.
Qed.

Lemma publishAsk_target id from target message chain depth : inboundMetadata (publishAsk id from target message chain depth) metadataKeyPreresolvedAgentID = target.
Proof.
  unfold inboundMetadata, publishAsk, ask_metadata, SetSpawnDepth. cbn [Metadata].
  case_if; destruct chain; rewrite ?(lookup_insert_ne _ MetaSpawnDepth), ?(lookup_insert_ne _ metadataKeyAskChain), (lookup_insert_ne _ metadataKeyAskFrom), (lookup_insert_ne _ MetaReplyRequired), lookup_singleton_eq by done; done.
Qed.
