(* ===== verification/AskRuns.v ===== *)
(** * Agents waiting on one another: every run (agent/ask.go, agent/turn_slot.go, agent/session_dispatch.go, agent/turn_reply.go)

    Turns, the queues of their sessions, and the asks in flight, as a step system
    whose steps interleave in any order. What holds in every run: turns never use
    more slots than there are, agents never wait on one another in a circle, an ask
    is in one place until it is answered, and each asker gets one reply or gives up. *)

From stdpp Require Import base gmap strings list fin_maps relations.
From Stdlib Require Import ZArith Lia Ascii.
From S2P Require Import Prelude GoString AgentIds SessionDispatch Asks.

Open Scope string_scope.
Open Scope list_scope.
Open Scope nat_scope.

(** ** State *)

(** Where a turn is: in [turnSlot.acquire], at the beginning of [runTurn], or in the
    model loop. *)
Inductive TurnPc := WantsSlot | Starting | Working.

(** A turn of a session; the agent, the chain and the depth of its context are those
    it works with; an asked turn has no slot. *)
Record Turn := { t_msg : InboundMessage; t_pc : TurnPc; t_agent : option string; t_chain : list string; t_depth : Z; t_slot : option turnSlot }.

(** [sessionState]: the queue and the turn its owner runs. *)
Record Sess := { queue : list InboundMessage; turn : option Turn }.

Definition idle : Sess := {| queue := []; turn := None |}.

(** Where a call of [ask] is: after [open], after [publishAsk], in [awaitAskReply],
    at the deferred [reclaim] with its result, and waiting for a slot in there, with
    the slot's lock. *)
Inductive CallPc := Opened | Published | Waiting | Ended (r : option AgentReply) | Acquiring (r : option AgentReply).

(** A call of [ask]: the session whose turn waits for it, the agent it waits for in
    the graph, the agent asked, and whether its context has the turn's slot. *)
Record Call := { c_turn : option string; c_caller : option string; c_target : string; c_slot : bool; c_msg : InboundMessage; c_pc : CallPc }.

(** [given] are the replies handed over by asked turns and [got] what each ended ask
    returned, [None] for a timeout or an error. *)
Record State := {
  arriving : list InboundMessage;
  sess : gmap string Sess;
  calls : gmap string Call;
  asks : askRegistry;
  waits : waitGraph;
  used : nat;
  given : gmap string AgentReply;
  got : list (string * option AgentReply)
}.

Definition start : State := {| arriving := []; sess := ∅; calls := ∅; asks := no_asks; waits := ∅; used := 0; given := ∅; got := [] |}.

Definition sess_at (s : State) (k : string) : Sess := default idle (sess s !! k).
Definition turn_at (s : State) (k : string) : option Turn := turn (sess_at s k).

Definition on_sess (f : gmap string Sess → gmap string Sess) (s : State) : State :=
  {| arriving := arriving s; sess := f (sess s); calls := calls s; asks := asks s; waits := waits s; used := used s; given := given s; got := got s |}.
Definition on_calls (f : gmap string Call → gmap string Call) (s : State) : State :=
  {| arriving := arriving s; sess := sess s; calls := f (calls s); asks := asks s; waits := waits s; used := used s; given := given s; got := got s |}.
Definition set_asks (r : askRegistry) (s : State) : State :=
  {| arriving := arriving s; sess := sess s; calls := calls s; asks := r; waits := waits s; used := used s; given := given s; got := got s |}.
Definition set_waits (g : waitGraph) (s : State) : State :=
  {| arriving := arriving s; sess := sess s; calls := calls s; asks := asks s; waits := g; used := used s; given := given s; got := got s |}.
Definition set_used (u : nat) (s : State) : State :=
  {| arriving := arriving s; sess := sess s; calls := calls s; asks := asks s; waits := waits s; used := u; given := given s; got := got s |}.
Definition set_arriving (l : list InboundMessage) (s : State) : State :=
  {| arriving := l; sess := sess s; calls := calls s; asks := asks s; waits := waits s; used := used s; given := given s; got := got s |}.
Definition set_given (g : gmap string AgentReply) (s : State) : State :=
  {| arriving := arriving s; sess := sess s; calls := calls s; asks := asks s; waits := waits s; used := used s; given := g; got := got s |}.
Definition add_got (x : string * option AgentReply) (s : State) : State :=
  {| arriving := arriving s; sess := sess s; calls := calls s; asks := asks s; waits := waits s; used := used s; given := given s; got := got s ++ [x] |}.

Definition put_queue (k : string) (q : list InboundMessage) (s : State) : State :=
  on_sess (<[k := {| queue := q; turn := turn_at s k |}]>) s.
Definition put_turn (k : string) (t : option Turn) (s : State) : State :=
  on_sess (<[k := {| queue := queue (sess_at s k); turn := t |}]>) s.

Definition set_slot (sl : turnSlot) (t : Turn) : Turn :=
  {| t_msg := t_msg t; t_pc := t_pc t; t_agent := t_agent t; t_chain := t_chain t; t_depth := t_depth t; t_slot := Some sl |}.
Definition set_tpc (pc : TurnPc) (t : Turn) : Turn :=
  {| t_msg := t_msg t; t_pc := pc; t_agent := t_agent t; t_chain := t_chain t; t_depth := t_depth t; t_slot := t_slot t |}.
Definition set_cpc (pc : CallPc) (c : Call) : Call :=
  {| c_turn := c_turn c; c_caller := c_caller c; c_target := c_target c; c_slot := c_slot c; c_msg := c_msg c; c_pc := pc |}.
Definition put_call (id : string) (c : Call) (s : State) : State := on_calls (<[id := c]>) s.

Definition is_ask (m : InboundMessage) : bool := bool_decide (Channel m = AgentMessageChannel).

(** ** Asking *)

(** Who asks: a turn through its tools, a turn of a command-line agent through the MCP
    server, a sub-agent that a turn waits for, or work that no turn waits for (/ask, a
    sub-agent in the background). *)
Inductive Origin := InTurn (k : string) | OverMCP (k : string) | InClone (k clone : string) | Detached (chain : list string) (depth : Z).

Record AskEnv := { v_turn : option string; v_slot : bool; v_chain : list string; v_depth : Z }.

Definition has_slot (t : Turn) : bool := match t_slot t with Some _ => true | None => false end.

(** The turn of [k], if it works for an agent that has not gone. *)
Definition working (s : State) (k : string) : option Turn :=
  match turn_at s k with
  | Some t => match t_pc t, t_agent t with Working, Some _ => Some t | _, _ => None end
  | None => None
  end.

(** The context an ask is made with. Over MCP the chain and the depth are those the
    turn recorded on its token, and the request's context has no slot. *)
Definition ask_env (s : State) (o : Origin) : option AskEnv :=
  match o with
  | InTurn k => match working s k with Some t => Some {| v_turn := Some k; v_slot := has_slot t; v_chain := t_chain t; v_depth := t_depth t |} | None => None end
  | OverMCP k => match working s k with Some t => Some {| v_turn := Some k; v_slot := false; v_chain := t_chain t; v_depth := t_depth t |} | None => None end
  | InClone k clone =>
    match working s k with
    | Some t => Some {| v_turn := Some k; v_slot := has_slot t; v_chain := WithAskChainAgent (t_chain t) clone; v_depth := (t_depth t + 1)%Z |}
    | None => None
    end
  | Detached chain depth => Some {| v_turn := None; v_slot := false; v_chain := chain; v_depth := depth |}
  end.

Section runs.
Context {GR : GoRange}.

Section machine.
Variable h : Host.

Notation limit := (maxConcurrentTurns h).

Definition begin_wait (g : waitGraph) (chain : list string) (target : string) : option (waitGraph * option string) :=
  match last chain with
  | None => Some (g, None)
  | Some caller => match waits_begin map_keys g caller target with Some g' => Some (g', Some caller) | None => None end
  end.

Definition end_wait (g : waitGraph) (caller : option string) (target : string) : waitGraph :=
  match caller with Some caller => waits_end g caller target | None => g end.

(** [ask] up to [publishAsk]; a refused ask leaves everything as it is. *)
Definition ask (id : string) (o : Origin) (q : Request) (rest : option Z) (now : Z) (s : State) : option State :=
  match ask_env s o with
  | None => None
  | Some v =>
    let x := {| x_chain := v_chain v; x_depth := v_depth v; x_left := rest |} in
    match askTarget h x q with
    | inr _ => Some s
    | inl t =>
      match begin_wait (waits s) (v_chain v) (t_ID t) with
      | None => Some s
      | Some (g, caller) =>
        let wait := askWaitFor h x t (r_wait q) in
        if (wait <=? 0)%Z then Some (set_waits (end_wait g caller (t_ID t)) s)
        else if bool_decide (is_Some (replies (asks s) !! id)) then None
        else
          let p := {| from := s_name (r_from q); deadline := (now + wait)%Z; stopTurn := r_stop q |} in
          let m := publishAsk id (r_from q) (t_ID t) (r_message q) (v_chain v) (v_depth v) in
          Some (put_call id {| c_turn := v_turn v; c_caller := caller; c_target := t_ID t; c_slot := v_slot v; c_msg := m; c_pc := Opened |}
                  (set_asks (open_ask id p (asks s)) (set_waits g s)))
      end
    end
  end.

(** [ask] returns [r]. *)
Definition finish (id : string) (c : Call) (r : option AgentReply) (s : State) : State :=
  add_got (id, r) (set_waits (end_wait (waits s) (c_caller c) (c_target c)) (on_calls (delete id) s)).

Definition published (id : string) (ok : bool) (s : State) : option State :=
  match calls s !! id with
  | Some c =>
    match c_pc c with
    | Opened =>
      if ok then Some (put_call id (set_cpc Published c) (set_arriving (arriving s ++ [c_msg c]) s))
      else Some (finish id c None (set_asks (close_ask id (asks s)) s))
    | _ => None
    end
  | None => None
  end.

(** The slot on the context of a call. *)
Definition own_slot (s : State) (c : Call) : option (string * Turn * turnSlot) :=
  if c_slot c then
    match c_turn c with
    | Some k => match turn_at s k with Some t => match t_slot t with Some sl => Some (k, t, sl) | None => None end | None => None end
    | None => None
    end
  else None.

(** Whether a call holds the lock of the slot of [k]'s turn, waiting in [reclaim]. *)
Definition acquiring (k : string) (c : Call) : bool :=
  match c_pc c with Acquiring _ => bool_decide (c_turn c = Some k) | _ => false end.
Definition slot_locked (s : State) (k : string) : bool := existsb (λ x, acquiring k x.2) (map_to_list (calls s)).

Definition lend (id : string) (s : State) : option State :=
  match calls s !! id with
  | Some c =>
    match c_pc c with
    | Published =>
      match own_slot s c with
      | None => Some (put_call id (set_cpc Waiting c) s)
      | Some (k, t, sl) =>
        if slot_locked s k then None
        else let '(sl', u) := slot_lend limit sl (used s) in
             Some (put_call id (set_cpc Waiting c) (put_turn k (Some (set_slot sl' t)) (set_used u s)))
      end
    | _ => None
    end
  | None => None
  end.

(** [awaitAskReply]: a reply arrives, or it stops waiting. *)
Definition answered (id : string) (s : State) : option State :=
  match calls s !! id with
  | Some c =>
    match c_pc c, receive id (asks s) with
    | Waiting, Some (reply, r) => Some (put_call id (set_cpc (Ended (Some reply)) c) (set_asks r s))
    | _, _ => None
    end
  | None => None
  end.

Definition gives_up (id : string) (s : State) : option State :=
  match calls s !! id with
  | Some c =>
    match c_pc c with
    | Waiting => let '(r, reply) := giveUp id (asks s) in Some (put_call id (set_cpc (Ended reply) c) (set_asks r s))
    | _ => None
    end
  | None => None
  end.

Definition reclaim (id : string) (s : State) : option State :=
  match calls s !! id with
  | Some c =>
    match c_pc c with
    | Ended r =>
      match own_slot s c with
      | None => Some (finish id c r s)
      | Some (k, t, sl) =>
        if slot_locked s k then None
        else let '(sl', wants) := slot_reclaim sl in
             let s' := put_turn k (Some (set_slot sl' t)) s in
             if wants then Some (put_call id (set_cpc (Acquiring r) c) s') else Some (finish id c r s')
      end
    | _ => None
    end
  | None => None
  end.

(** The wait in [reclaim] ends with a slot, or with the end of the context. *)
Definition reacquire (id : string) (ok : bool) (s : State) : option State :=
  match calls s !! id with
  | Some c =>
    match c_pc c, own_slot s c with
    | Acquiring r, Some (k, t, sl) =>
      if ok then
        match slot_acquire limit sl (used s) with
        | Some (sl', u) => Some (finish id c r (put_turn k (Some (set_slot sl' t)) (set_used u s)))
        | None => None
        end
      else Some (finish id c r s)
    | _, _ => None
    end
  | None => None
  end.

(** ** Turns *)

Definition inbound (m : InboundMessage) (s : State) : option State :=
  if is_ask m || negb (bool_decide (inboundMetadata m metadataKeyAskChain = "")) then None
  else Some (set_arriving (arriving s ++ [m]) s).

Definition stamp (k : string) (m : InboundMessage) : InboundMessage :=
  {| Channel := Channel m; SenderID := SenderID m; Sender := Sender m; ChatID := ChatID m; Content := Content m; Media := Media m; m_Peer := m_Peer m;
     MessageID := MessageID m; MediaScope := MediaScope m; SessionKey := k; Metadata := Metadata m; IsRetry := IsRetry m; Internal := Internal m |}.

(** An agent a message may be routed to: an ask is routed to the agent asked. *)
Definition routable (m : InboundMessage) (a : string) : bool :=
  bool_decide (is_Some (agents h !! a)) &&
  (negb (is_ask m) || bool_decide (a = NormalizeAgentID (inboundMetadata m metadataKeyPreresolvedAgentID))).

(** [dispatchKey] and the queueing of a message, which is routed to the agent [a] or,
    with [None], to none. *)
Definition arrive (i : nat) (a : option string) (s : State) : option State :=
  match arriving s !! i with
  | None => None
  | Some m =>
    let s' := set_arriving (delete i (arriving s)) s in
    match a with
    | Some a =>
      if routable m a then let k := BuildAgentMainSessionKey a in Some (put_queue k (queue (sess_at s k) ++ [stamp k m]) s') else None
    | None => let k := Channel m +:+ ":" +:+ ChatID m in Some (put_queue k (queue (sess_at s k) ++ [m]) s')
    end
  end.

(** The owner of a session takes the next batch. *)
Definition take_turn (k : string) (alone : bool) (s : State) : option State :=
  match turn_at s k, takeBatch (queue (sess_at s k)) alone with
  | None, Some (m, rest) =>
    let t := {| t_msg := m; t_pc := if is_ask m then Starting else WantsSlot; t_agent := None; t_chain := []; t_depth := 0%Z;
                t_slot := if is_ask m then None else Some new_slot |} in
    Some (on_sess (<[k := {| queue := rest; turn := Some t |}]>) s)
  | _, _ => None
  end.

Definition get_slot (k : string) (s : State) : option State :=
  match turn_at s k with
  | Some t =>
    match t_pc t, t_slot t with
    | WantsSlot, Some sl =>
      match slot_acquire limit sl (used s) with
      | Some (sl', u) => Some (put_turn k (Some (set_tpc Starting (set_slot sl' t))) (set_used u s))
      | None => None
      end
    | _, _ => None
    end
  | None => None
  end.

(** The turn's context ends before it gets a slot. *)
Definition no_slot (k : string) (s : State) : option State :=
  match turn_at s k with
  | Some t => match t_pc t with WantsSlot => Some (put_turn k None s) | _ => None end
  | None => None
  end.

(** [runQueuedTurn] returns. *)
Definition end_turn (k : string) (t : Turn) (s : State) : State :=
  match t_slot t with
  | Some sl => put_turn k None (set_used (snd (slot_release limit sl (used s))) s)
  | None => put_turn k None s
  end.

(** [runTurn] up to the model loop, for the agent [a]; [None] when the agent the turn
    is for has gone. *)
Definition begin_turn (k : string) (a : option string) (s : State) : option State :=
  match turn_at s k with
  | Some t =>
    match t_pc t with
    | Starting =>
      let m := t_msg t in
      if is_ask m && negb (isWaiting (ChatID m) (asks s)) then Some (end_turn k t s)
      else match a with
      | Some a =>
        if routable m a && bool_decide (k = BuildAgentMainSessionKey a) then
          Some (put_turn k (Some {| t_msg := m; t_pc := Working; t_agent := Some a; t_chain := WithAskChainAgent (withInboundAskChain [] m) a;
                                    t_depth := withInboundSpawnDepth 0 m (maxSubagentDepth h); t_slot := t_slot t |}) s)
        else None
      | None => Some (put_turn k (Some (set_tpc Working t)) s)
      end
    | _ => None
    end
  | None => None
  end.

(** [deliverAskReply]. *)
Definition deliver_reply (id : string) (reply : AgentReply) (s : State) : State :=
  let '(r, ok) := deliver id reply (asks s) in
  if ok then set_given (<[id := reply]> (given s)) (set_asks r s) else s.

(** How a turn ended; [o_rendered] is the text of its error. *)
Record TurnOutcome := { o_response : string; o_outcome : string; o_err : option TurnError; o_cause : option TurnError; o_rendered : string }.

Definition turn_end (m : InboundMessage) (o : TurnOutcome) : turnEnd :=
  {| e_response := o_response o; e_outcome := o_outcome o; e_err := o_err o; e_cause := o_cause o; e_ask := is_ask m;
     e_replyRequired := ReplyRequired m; e_fromPerson := negb (Internal m); e_agentID := inboundMetadata m metadataKeyPreresolvedAgentID |}.

(** The part of [runTurn] after the model loop, for an ask. *)
Definition answer (m : InboundMessage) (o : TurnOutcome) (s : State) : State :=
  match decideTurnReply (turn_end m o) with
  | (replySend, text, outcome) => deliver_reply (ChatID m) {| reply_Text := text; reply_Outcome := askReplyOutcome (o_err o) outcome |} s
  | (replyTurnError, _, outcome) => deliver_reply (ChatID m) {| reply_Text := o_rendered o; reply_Outcome := askReplyOutcome (o_err o) outcome |} s
  | _ => s
  end.

(** A turn fails with [errAskerStopped] only once nobody waits for its ask. *)
Definition outcome_ok (m : InboundMessage) (o : TurnOutcome) (s : State) : bool :=
  negb (is_ask m && isWaiting (ChatID m) (asks s)) || negb (is_err errAskerStopped (o_err o) || is_err errAskerStopped (o_cause o)).

Definition waits_for (k : string) (c : Call) : bool := bool_decide (c_turn c = Some k).
Definition waits_in (k : string) (s : State) : bool := existsb (λ x, waits_for k x.2) (map_to_list (calls s)).

(** The model loop ends: the tool calls of the turn have all returned. *)
Definition over (k : string) (o : TurnOutcome) (s : State) : option State :=
  match turn_at s k with
  | Some t =>
    match t_pc t with
    | Working =>
      if waits_in k s || negb (outcome_ok (t_msg t) o s) then None
      else Some (end_turn k t (if is_ask (t_msg t) then answer (t_msg t) o s else s))
    | _ => None
    end
  | None => None
  end.

(** [publishCancelledReplies] on the asks among the messages dropped. *)
Definition cancelled_reply : AgentReply := {| reply_Text := "Cancelled by /cancel before it started."; reply_Outcome := OutcomeCancelled |}.

Definition cancelled_asks (ms : list InboundMessage) (s : State) : State :=
  foldl (λ s m, if ReplyRequired m && is_ask m then deliver_reply (ChatID m) cancelled_reply s else s) s ms.

(** /cancel in the session [k]: the queue is dropped, and the running turn's context
    ends, after which its waits give up and it ends. *)
Definition cancel_session (k : string) (s : State) : option State :=
  Some (cancelled_asks (queue (sess_at s k)) (put_queue k [] s)).

(** ** Runs *)

Inductive Label :=
| LInbound (m : InboundMessage) | LArrive (i : nat) (a : option string) | LTake (k : string) (alone : bool)
| LSlot (k : string) | LNoSlot (k : string) | LBegin (k : string) (a : option string) | LOver (k : string) (o : TurnOutcome) | LCancel (k : string)
| LAsk (id : string) (o : Origin) (q : Request) (rest : option Z) (now : Z)
| LPublished (id : string) (ok : bool) | LLend (id : string) | LAnswered (id : string) | LGiveUp (id : string)
| LReclaim (id : string) | LReacquire (id : string) (ok : bool).

Definition step (l : Label) (s : State) : option State :=
  match l with
  | LInbound m => inbound m s
  | LArrive i a => arrive i a s
  | LTake k alone => take_turn k alone s
  | LSlot k => get_slot k s
  | LNoSlot k => no_slot k s
  | LBegin k a => begin_turn k a s
  | LOver k o => over k o s
  | LCancel k => cancel_session k s
  | LAsk id o q rest now => ask id o q rest now s
  | LPublished id ok => published id ok s
  | LLend id => lend id s
  | LAnswered id => answered id s
  | LGiveUp id => gives_up id s
  | LReclaim id => reclaim id s
  | LReacquire id ok => reacquire id ok s
  end.

Fixpoint run (ls : list Label) (s : State) : option State :=
  match ls with
  | [] => Some s
  | l :: ls' => match step l s with Some s' => run ls' s' | None => None end
  end.
End machine.

(** ** The steps as a relation *)

Section effects.
Variable h : Host.

Notation limit := (maxConcurrentTurns h).

Definition new_turn (m : InboundMessage) : Turn :=
  {| t_msg := m; t_pc := if is_ask m then Starting else WantsSlot; t_agent := None; t_chain := []; t_depth := 0%Z;
     t_slot := if is_ask m then None else Some new_slot |}.

Definition working_turn (t : Turn) (a : string) : Turn :=
  {| t_msg := t_msg t; t_pc := Working; t_agent := Some a; t_chain := WithAskChainAgent (withInboundAskChain [] (t_msg t)) a;
     t_depth := withInboundSpawnDepth 0 (t_msg t) (maxSubagentDepth h); t_slot := t_slot t |}.

Definition same_message (m m' : InboundMessage) : Prop := Channel m' = Channel m ∧ ChatID m' = ChatID m ∧ Metadata m' = Metadata m.

(** Each way a step can go. *)
Inductive effect (s : State) : Label → State → Prop :=
| EInbound m : is_ask m = false → inboundMetadata m metadataKeyAskChain = "" → effect s (LInbound m) (set_arriving (arriving s ++ [m]) s)
| EArrive i a m m' k : arriving s !! i = Some m → same_message m m' →
    (∀ b, a = Some b → routable h m b = true ∧ k = BuildAgentMainSessionKey b) → (a = None → k = Channel m +:+ ":" +:+ ChatID m) →
    effect s (LArrive i a) (put_queue k (queue (sess_at s k) ++ [m']) (set_arriving (delete i (arriving s)) s))
| ETake k alone m rest : turn_at s k = None → takeBatch (queue (sess_at s k)) alone = Some (m, rest) →
    effect s (LTake k alone) (on_sess (<[k := {| queue := rest; turn := Some (new_turn m) |}]>) s)
| ESlot k t sl sl' u : turn_at s k = Some t → t_pc t = WantsSlot → t_slot t = Some sl → slot_acquire limit sl (used s) = Some (sl', u) →
    effect s (LSlot k) (put_turn k (Some (set_tpc Starting (set_slot sl' t))) (set_used u s))
| ENoSlot k t : turn_at s k = Some t → t_pc t = WantsSlot → effect s (LNoSlot k) (put_turn k None s)
| ESkip k a t : turn_at s k = Some t → t_pc t = Starting → is_ask (t_msg t) = true → isWaiting (ChatID (t_msg t)) (asks s) = false →
    effect s (LBegin k a) (end_turn h k t s)
| EWork k a t : turn_at s k = Some t → t_pc t = Starting → (is_ask (t_msg t) = true → isWaiting (ChatID (t_msg t)) (asks s) = true) →
    routable h (t_msg t) a = true → k = BuildAgentMainSessionKey a → effect s (LBegin k (Some a)) (put_turn k (Some (working_turn t a)) s)
| EGone k t : turn_at s k = Some t → t_pc t = Starting → (is_ask (t_msg t) = true → isWaiting (ChatID (t_msg t)) (asks s) = true) →
    effect s (LBegin k None) (put_turn k (Some (set_tpc Working t)) s)
| EOver k o t : turn_at s k = Some t → t_pc t = Working → waits_in k s = false → outcome_ok (t_msg t) o s = true →
    effect s (LOver k o) (end_turn h k t (if is_ask (t_msg t) then answer (t_msg t) o s else s))
| ECancel k : effect s (LCancel k) (cancelled_asks (queue (sess_at s k)) (put_queue k [] s))
| ERefused id o q rest now : effect s (LAsk id o q rest now) s
| ENoTime id o q rest now v g caller target : ask_env s o = Some v → begin_wait (waits s) (v_chain v) target = Some (g, caller) →
    effect s (LAsk id o q rest now) (set_waits (end_wait g caller target) s)
| EAsk id o q rest now v g caller t p : ask_env s o = Some v → askTarget h {| x_chain := v_chain v; x_depth := v_depth v; x_left := rest |} q = inl t →
    begin_wait (waits s) (v_chain v) (t_ID t) = Some (g, caller) → replies (asks s) !! id = None →
    effect s (LAsk id o q rest now)
      (put_call id {| c_turn := v_turn v; c_caller := caller; c_target := t_ID t; c_slot := v_slot v;
                      c_msg := publishAsk id (r_from q) (t_ID t) (r_message q) (v_chain v) (v_depth v); c_pc := Opened |}
         (set_asks (open_ask id p (asks s)) (set_waits g s)))
| EPublished id c : calls s !! id = Some c → c_pc c = Opened →
    effect s (LPublished id true) (put_call id (set_cpc Published c) (set_arriving (arriving s ++ [c_msg c]) s))
| EUnpublished id c : calls s !! id = Some c → c_pc c = Opened → effect s (LPublished id false) (finish id c None (set_asks (close_ask id (asks s)) s))
| EWait id c : calls s !! id = Some c → c_pc c = Published → own_slot s c = None → effect s (LLend id) (put_call id (set_cpc Waiting c) s)
| ELend id c k t sl sl' u : calls s !! id = Some c → c_pc c = Published → own_slot s c = Some (k, t, sl) → slot_locked s k = false →
    slot_lend limit sl (used s) = (sl', u) →
    effect s (LLend id) (put_call id (set_cpc Waiting c) (put_turn k (Some (set_slot sl' t)) (set_used u s)))
| EAnswered id c reply r : calls s !! id = Some c → c_pc c = Waiting → receive id (asks s) = Some (reply, r) →
    effect s (LAnswered id) (put_call id (set_cpc (Ended (Some reply)) c) (set_asks r s))
| EGiveUp id c r reply : calls s !! id = Some c → c_pc c = Waiting → giveUp id (asks s) = (r, reply) →
    effect s (LGiveUp id) (put_call id (set_cpc (Ended reply) c) (set_asks r s))
| EReturn id c r : calls s !! id = Some c → c_pc c = Ended r → own_slot s c = None → effect s (LReclaim id) (finish id c r s)
| EBack id c r k t sl sl' : calls s !! id = Some c → c_pc c = Ended r → own_slot s c = Some (k, t, sl) → slot_locked s k = false →
    slot_reclaim sl = (sl', false) → effect s (LReclaim id) (finish id c r (put_turn k (Some (set_slot sl' t)) s))
| EAcquire id c r k t sl sl' : calls s !! id = Some c → c_pc c = Ended r → own_slot s c = Some (k, t, sl) → slot_locked s k = false →
    slot_reclaim sl = (sl', true) → effect s (LReclaim id) (put_call id (set_cpc (Acquiring r) c) (put_turn k (Some (set_slot sl' t)) s))
| EReacquired id c r k t sl sl' u : calls s !! id = Some c → c_pc c = Acquiring r → own_slot s c = Some (k, t, sl) →
    slot_acquire limit sl (used s) = Some (sl', u) →
    effect s (LReacquire id true) (finish id c r (put_turn k (Some (set_slot sl' t)) (set_used u s)))
| EWithout id c r k t sl : calls s !! id = Some c → c_pc c = Acquiring r → own_slot s c = Some (k, t, sl) → effect s (LReacquire id false) (finish id c r s).

Lemma stamp_same k m : same_message m (stamp k m).
Proof. by split_and!. Qed.

Lemma turn_step_effect l s s' :
  match l with LInbound _ | LArrive _ _ | LTake _ _ | LSlot _ | LNoSlot _ | LBegin _ _ | LOver _ _ | LCancel _ => True | _ => False end →
  step h l s = Some s' → effect s l s'.
Proof.
  intros Hl Hs. destruct l; try done; cbn in Hs.
  - unfold inbound in Hs. destruct (is_ask m) eqn:Hm; [done|]. cbn in Hs. case_bool_decide; [|done]. injection Hs as <-. by constructor.
  - unfold arrive in Hs. destruct (arriving s !! i) as [m|] eqn:Hi; [|done]. destruct a as [a|]; [destruct (routable h m a) eqn:Hr; [|done]|]; injection Hs as <-.
    + eapply EArrive; [exact Hi|apply stamp_same| |done]. by intros b [= <-].
    + eapply EArrive; [exact Hi|by split_and!|done|done].
  - unfold take_turn in Hs. destruct (turn_at s k) eqn:Ht; [done|]. destruct (takeBatch _ _) as [[m rest]|] eqn:Hb; [|done]. injection Hs as <-. by eapply ETake.
  - unfold get_slot in Hs. destruct (turn_at s k) as [t|] eqn:Ht; [|done]. destruct (t_pc t) eqn:Hp, (t_slot t) as [sl|] eqn:Hsl; try done.
    destruct (slot_acquire _ sl _) as [[sl' u]|] eqn:Ha; [|done]. injection Hs as <-. by eapply ESlot.
  - unfold no_slot in Hs. destruct (turn_at s k) as [t|] eqn:Ht; [|done]. destruct (t_pc t) eqn:Hp; try done. injection Hs as <-. by eapply ENoSlot.
  - unfold begin_turn in Hs. destruct (turn_at s k) as [t|] eqn:Ht; [|done]. destruct (t_pc t) eqn:Hp; try done.
    destruct (is_ask (t_msg t)) eqn:Hm, (isWaiting (ChatID (t_msg t)) (asks s)) eqn:Hw; cbn in Hs;
      try (destruct a as [a|]; [destruct (routable h (t_msg t) a) eqn:Hr; [cbn in Hs; case_bool_decide; [|done]|done]|]); injection Hs as <-;
      (apply EWork; [done|done|congruence|done|done]) || (apply EGone; [done|done|congruence]) || by apply ESkip.
  - unfold over in Hs. destruct (turn_at s k) as [t|] eqn:Ht; [|done]. destruct (t_pc t) eqn:Hp; try done.
    destruct (waits_in k s) eqn:Hw; [done|]. destruct (outcome_ok (t_msg t) o s) eqn:Ho; [|done]. injection Hs as <-. by apply EOver.
  - injection Hs as <-. constructor.
Qed.

Lemma step_effect l s s' : step h l s = Some s' → effect s l s'.
Proof.
  intros Hs. destruct l; try by apply turn_step_effect. all: cbn in Hs.
  - unfold ask in Hs. destruct (ask_env s o) as [v|] eqn:Hv; [|done]. destruct (askTarget _ _ _) as [t|] eqn:Ht; [|injection Hs as <-; apply ERefused].
    destruct (begin_wait _ _ _) as [[g caller]|] eqn:Hb; [|injection Hs as <-; apply ERefused].
    destruct (_ <=? 0)%Z; [injection Hs as <-; by eapply ENoTime|]. case_bool_decide as Hr; [done|]. injection Hs as <-. eapply EAsk; [done|done|done|]. by apply eq_None_not_Some.
  - unfold published in Hs. destruct (calls s !! id) as [c|] eqn:Hc; [|done]. destruct (c_pc c) eqn:Hp; try done. destruct ok; injection Hs as <-; [by eapply EPublished|by eapply EUnpublished].
  - unfold lend in Hs. destruct (calls s !! id) as [c|] eqn:Hc; [|done]. destruct (c_pc c) eqn:Hp; try done.
    destruct (own_slot s c) as [[[k t] sl]|] eqn:Ho; [|injection Hs as <-; by eapply EWait]. destruct (slot_locked s k) eqn:Hl; [done|].
    destruct (slot_lend _ _ _) as [sl' u] eqn:Hle. injection Hs as <-. by eapply ELend.
  - unfold answered in Hs. destruct (calls s !! id) as [c|] eqn:Hc; [|done]. destruct (c_pc c) eqn:Hp, (receive id (asks s)) as [[reply r2]|] eqn:Hr; try done. injection Hs as <-. by eapply EAnswered.
  - unfold gives_up in Hs. destruct (calls s !! id) as [c|] eqn:Hc; [|done]. destruct (c_pc c) eqn:Hp; try done. destruct (giveUp id (asks s)) as [r reply] eqn:Hr. injection Hs as <-. by eapply EGiveUp.
  - unfold reclaim in Hs. destruct (calls s !! id) as [c|] eqn:Hc; [|done]. destruct (c_pc c) eqn:Hp; try done.
    destruct (own_slot s c) as [[[k t] sl]|] eqn:Ho; [|injection Hs as <-; by eapply EReturn]. destruct (slot_locked s k) eqn:Hl; [done|].
    destruct (slot_reclaim sl) as [sl' []] eqn:Hr; injection Hs as <-; [by eapply EAcquire|by eapply EBack].
  - unfold reacquire in Hs. destruct (calls s !! id) as [c|] eqn:Hc; [|done]. destruct (c_pc c) eqn:Hp, (own_slot s c) as [[[k t] sl]|] eqn:Ho; try done.
    destruct ok; [destruct (slot_acquire _ _ _) as [[sl' u]|] eqn:Ha; [|done]|]; injection Hs as <-; [by eapply EReacquired|by eapply EWithout].
Qed.
End effects.

(** ** Counting the entries of a map *)

Definition flat {A B} (f : A → list B) (m : gmap string A) : list B := map_to_list m ≫= λ x, f x.2.

Lemma flat_insert_fresh {A B} (f : A → list B) m k x : m !! k = None → flat f (<[k := x]> m) ≡ₚ f x ++ flat f m.
Proof. intros Hk. unfold flat. by rewrite map_to_list_insert by done. Qed.

Lemma flat_delete {A B} (f : A → list B) m k x : m !! k = Some x → flat f m ≡ₚ f x ++ flat f (delete k m).
Proof. intros Hk. rewrite <- (insert_delete_id m k x) at 1 by done. apply flat_insert_fresh. apply lookup_delete_eq. Qed.

Lemma flat_insert {A B} (f : A → list B) m k x : flat f (<[k := x]> m) ≡ₚ f x ++ flat f (delete k m).
Proof. rewrite <- insert_delete_eq. apply flat_insert_fresh, lookup_delete_eq. Qed.

Lemma flat_elem {A B} (f : A → list B) m y : y ∈ flat f m ↔ ∃ k x, m !! k = Some x ∧ y ∈ f x.
Proof.
  unfold flat. rewrite list_elem_of_bind. split.
  - intros ([k x] & Hy & Hk%elem_of_map_to_list). eauto.
  - intros (k & x & Hk & Hy). exists (k, x). split; [done|]. by apply elem_of_map_to_list.
Qed.

Definition count {A} (p : A → bool) (m : gmap string A) : nat := length (flat (λ x, if p x then [()] else []) m).

Definition one (b : bool) : nat := if b then 1 else 0.

Lemma count_fresh {A} (p : A → bool) m k x : m !! k = None → count p (<[k := x]> m) = one (p x) + count p m.
Proof. intros Hk. unfold count. rewrite flat_insert_fresh, length_app by done. by destruct (p x). Qed.

Lemma count_delete {A} (p : A → bool) m k x : m !! k = Some x → count p m = one (p x) + count p (delete k m).
Proof. intros Hk. unfold count. rewrite (flat_delete _ m k x), length_app by done. by destruct (p x). Qed.

Lemma count_insert {A} (p : A → bool) m k x y : m !! k = Some x → count p (<[k := y]> m) + one (p x) = count p m + one (p y).
Proof. intros Hk. unfold count. rewrite flat_insert, (flat_delete _ m k x), !length_app by done. destruct (p x), (p y); cbn; lia. Qed.

Lemma count_empty {A} (p : A → bool) : count p ∅ = 0.
Proof. unfold count, flat. by rewrite map_to_list_empty. Qed.

Lemma some_counted {A} (p : A → bool) m : 0 < count p m ↔ ∃ k x, m !! k = Some x ∧ p x = true.
Proof.
  unfold count. destruct (flat _ m) as [|u l] eqn:Hf; cbn.
  - split; [lia|]. intros (k & x & Hk & Hp). assert (() ∈ flat (λ x, if p x then [()] else []) m) as Hin; [|rewrite Hf in Hin; by apply not_elem_of_nil in Hin].
    apply flat_elem. exists k, x. rewrite Hp. split; [done|]. by left.
  - split; [intros _|lia]. assert (u ∈ flat (λ x, if p x then [()] else []) m) as Hin by (rewrite Hf; by left).
    apply flat_elem in Hin as (k & x & Hk & Hu). exists k, x. destruct (p x); [done|]. by apply not_elem_of_nil in Hu.
Qed.

Lemma none_counted {A} (p : A → bool) m : (∀ k x, m !! k = Some x → p x = false) → count p m = 0.
Proof. intros Hp. destruct (Nat.eq_0_gt_0_cases (count p m)) as [?|(k & x & Hk & Hx)%some_counted]; [done|]. by rewrite (Hp k x Hk) in Hx. Qed.

Lemma existsb_map {A} (p : A → bool) (m : gmap string A) : existsb (λ x, p x.2) (map_to_list m) = true ↔ ∃ k x, m !! k = Some x ∧ p x = true.
Proof.
  rewrite existsb_exists. split.
  - intros ([k x] & Hin%list_elem_of_In & Hp). exists k, x. by apply elem_of_map_to_list in Hin.
  - intros (k & x & Hk & Hp). exists (k, x). split; [|done]. by apply list_elem_of_In, elem_of_map_to_list.
Qed.

(** ** Nobody waits in a circle *)

Definition asks_of (a b : string) (c : Call) : bool := bool_decide (c_caller c = Some a ∧ c_target c = b).

(** The graph has one edge for each ask in flight, and no cycle. *)
Record GraphInv (s : State) : Prop := {
  g_ok : graph_ok (waits s);
  g_acyclic : acyclic (waits s);
  g_count : ∀ a b, in_flight (waits s) a b = count (asks_of a b) (calls s)
}.

Lemma graph_ext s s' : waits s' = waits s → calls s' = calls s → GraphInv s → GraphInv s'.
Proof. intros E1 E2 [H1 H2 H3]. split; rewrite E1; rewrite ?E2; done. Qed.

Lemma graph_call s s' id c c' : calls s !! id = Some c → calls s' = <[id := c']> (calls s) → waits s' = waits s →
  c_caller c' = c_caller c → c_target c' = c_target c → GraphInv s → GraphInv s'.
Proof.
  intros Hc Ec Ew E1 E2 [H1 H2 H3]. split; rewrite Ew; [done|done|]. intros a b. rewrite Ec. pose proof (count_insert (asks_of a b) (calls s) id c c' Hc) as Hi.
  assert (asks_of a b c' = asks_of a b c) as E by (unfold asks_of; by rewrite E1, E2). rewrite E in Hi. rewrite H3. lia.
Qed.

Lemma graph_done s s' id c : calls s !! id = Some c → calls s' = delete id (calls s) → waits s' = end_wait (waits s) (c_caller c) (c_target c) →
  GraphInv s → GraphInv s'.
Proof.
  intros Hc Ec Ew [H1 H2 H3]. split; rewrite Ew.
  - destruct (c_caller c); cbn; auto using graph_ok_end.
  - destruct (c_caller c); cbn; auto using acyclic_end.
  - intros a b. rewrite Ec. specialize (H3 a b). rewrite (count_delete _ _ _ _ Hc) in H3. unfold end_wait, asks_of in *. destruct (c_caller c) as [caller|].
    + rewrite in_flight_end, H3. unfold one. repeat case_bool_decide; try lia; naive_solver.
    + rewrite bool_decide_eq_false_2 in H3 by naive_solver. done.
Qed.

Lemma begin_wait_spec g chain target g' caller : graph_ok g → acyclic g → begin_wait g chain target = Some (g', caller) →
  graph_ok g' ∧ acyclic g' ∧ caller = last chain ∧
  ∀ a b, in_flight g' a b = in_flight g a b + one (bool_decide (caller = Some a ∧ target = b)).
Proof.
  intros H1 H2. unfold begin_wait. destruct (last chain) as [c|] eqn:Hl.
  - destruct (waits_begin map_keys g c target) as [g2|] eqn:Hb; [|done]. intros [= <- <-]. split_and!; [|by eapply acyclic_begin; eauto using map_keys_ranges|done|].
    + eapply graph_ok_begin; [apply map_keys_ranges|exact Hb|done].
    + intros a b. pose proof (in_flight_begin _ _ _ _ _ a b map_keys_ranges Hb) as ->. unfold one. repeat case_bool_decide; try lia; naive_solver.
  - intros [= <- <-]. split_and!; [done|done|done|]. intros a b. rewrite bool_decide_eq_false_2 by naive_solver. cbn. lia.
Qed.

(** *** What delivering a reply leaves alone *)

Definition but_asks (s s' : State) : Prop :=
  calls s' = calls s ∧ waits s' = waits s ∧ sess s' = sess s ∧ arriving s' = arriving s ∧ used s' = used s ∧ got s' = got s.

Lemma deliver_but_asks id r s : but_asks s (deliver_reply id r s).
Proof. unfold deliver_reply. destruct (deliver id r (asks s)) as [r' []]; by split_and!. Qed.

Lemma but_asks_trans s1 s2 s3 : but_asks s1 s2 → but_asks s2 s3 → but_asks s1 s3.
Proof. unfold but_asks. intuition congruence. Qed.

Lemma answer_but_asks m o s : but_asks s (answer m o s).
Proof. unfold answer. destruct (decideTurnReply _) as [[[] ?] ?]; by (apply deliver_but_asks || split_and!). Qed.

Lemma cancelled_but_asks ms s : but_asks s (cancelled_asks ms s).
Proof.
  unfold cancelled_asks. revert s. induction ms as [|m ms IH]; intros s; [by split_and!|]. cbn. eapply but_asks_trans; [|apply IH].
  case_if; [apply deliver_but_asks|by split_and!].
Qed.

Lemma ended_calls h k t s : calls (end_turn h k t s) = calls s ∧ waits (end_turn h k t s) = waits s.
Proof. unfold end_turn. by destruct (t_slot t). Qed.

Definition calls_known (s : State) : Prop := ∀ id c, calls s !! id = Some c → is_Some (replies (asks s) !! id).

Lemma step_graph h l s s' : effect h s l s' → calls_known s → GraphInv s → GraphInv s'.
Proof.
  intros He Hk Hg. destruct He; try (by apply (graph_ext s)); try (by eapply graph_call); try (by eapply graph_done).
  - destruct (ended_calls h k t s) as [E1 E2]. by eapply graph_ext.
  - set (s1 := if is_ask (t_msg t) then _ else s). assert (but_asks s s1) as (E1 & E2 & _) by (subst s1; destruct (is_ask _); [apply answer_but_asks|by split_and!]).
    destruct (ended_calls h k t s1) as [E3 E4]. eapply graph_ext; [by rewrite E4|by rewrite E3|done].
  - destruct (cancelled_but_asks (queue (sess_at s k)) (put_queue k [] s)) as (E1 & E2 & _). eapply graph_ext; [exact E2|exact E1|by apply (graph_ext s)].
  - destruct Hg as [H1 H2 H3]. eapply begin_wait_spec in H0 as (B1 & B2 & _ & B3); [|done|done]. split; cbn.
    + destruct caller; cbn; auto using graph_ok_end.
    + destruct caller; cbn; auto using acyclic_end.
    + intros a b. rewrite <- H3. specialize (B3 a b). unfold end_wait. destruct caller; [rewrite in_flight_end|]; rewrite B3; unfold one; repeat case_bool_decide; try lia; naive_solver.
  - destruct Hg as [H3 H4 H5]. eapply begin_wait_spec in H1 as (B1 & B2 & _ & B3); [|done|done]. split; [done|done|]. intros a b. cbn.
    rewrite B3, H5, count_fresh; [unfold asks_of; cbn; lia|]. destruct (calls s !! id) eqn:E; [apply Hk in E as [? E]; congruence|done].
Qed.

(** ** Slots *)

Definition turn_of (ss : gmap string Sess) (k : string) : option Turn := turn (default idle (ss !! k)).

Definition holds (x : Sess) : bool :=
  match turn x with Some t => match t_slot t with Some sl => held sl | None => false end | None => false end.

(** A call that has lent the slot of [k]'s turn and not taken it back. *)
Definition lent_by (k : string) (c : Call) : bool :=
  match c_pc c with Waiting | Ended _ => c_slot c && bool_decide (c_turn c = Some k) | _ => false end.

Definition slot_fits (k : string) (t : Turn) (sl : turnSlot) (cs : gmap string Call) : Prop :=
  is_ask (t_msg t) = false ∧ done sl = false ∧ lent sl = Z.of_nat (count (lent_by k) cs) ∧ count (acquiring k) cs ≤ 1 ∧
  (held sl = true → lent sl = 0%Z ∧ t_pc t ≠ WantsSlot ∧ count (acquiring k) cs = 0) ∧ (0 < count (acquiring k) cs → lent sl = 0%Z).

Definition turn_fits (k : string) (t : Turn) (cs : gmap string Call) : Prop :=
  match t_slot t with None => is_ask (t_msg t) = true ∧ t_pc t ≠ WantsSlot | Some sl => slot_fits k t sl cs end.

Definition call_fits (ss : gmap string Sess) (c : Call) : Prop :=
  (∀ k, c_turn c = Some k → ∃ t, turn_of ss k = Some t ∧ t_pc t = Working ∧ t_agent t ≠ None ∧ (c_slot c = true → has_slot t = true)) ∧
  (c_turn c = None → c_slot c = false) ∧ (∀ r, c_pc c = Acquiring r → c_slot c = true).

(** Calls belong to working turns; a slot counts the waits it is lent for, is back
    only when there are none, and one wait at most takes it back; the slots in use
    are those that turns hold. *)
Record TurnInv (limit : option nat) (ss : gmap string Sess) (cs : gmap string Call) (u : nat) : Prop := {
  ti_calls : ∀ id c, cs !! id = Some c → call_fits ss c;
  ti_turns : ∀ k t, turn_of ss k = Some t → turn_fits k t cs;
  ti_used : ∀ n, limit = Some n → u = count holds ss ∧ u ≤ n
}.

Lemma turn_of_insert ss k x k' : turn_of (<[k := x]> ss) k' = if decide (k' = k) then turn x else turn_of ss k'.
Proof. unfold turn_of. case_decide; [subst; by rewrite lookup_insert_eq|by rewrite lookup_insert_ne by congruence]. Qed.

Lemma count_holds ss k x : count holds (<[k := x]> ss) + one (holds (default idle (ss !! k))) = count holds ss + one (holds x).
Proof.
  destruct (ss !! k) as [y|] eqn:Hk; cbn [default].
  - by apply count_insert.
  - rewrite count_fresh by done. change (holds idle) with false. cbn. lia.
Qed.

Lemma holds_turn ss k : holds (default idle (ss !! k)) = match turn_of ss k with Some t => match t_slot t with Some sl => held sl | None => false end | None => false end.
Proof. done. Qed.

Section slot_lemmas.
Variable limit : option nat.
Notation TI := (TurnInv limit).
Implicit Types (ss : gmap string Sess) (cs : gmap string Call).

(** Calls that differ in where they are. *)
Definition same_links cs cs' : Prop :=
  ∀ id c, cs' !! id = Some c → ∃ c0, cs !! id = Some c0 ∧ c_turn c = c_turn c0 ∧ c_slot c = c_slot c0 ∧ (∀ r, c_pc c = Acquiring r → c_slot c0 = true).

Lemma same_links_put cs id c pc : cs !! id = Some c → (∀ r, pc = Acquiring r → c_slot c = true) → (∀ r, c_pc c = Acquiring r → c_slot c = true) →
  (∀ id' c', cs !! id' = Some c' → ∀ r, c_pc c' = Acquiring r → c_slot c' = true) → same_links cs (<[id := set_cpc pc c]> cs).
Proof. intros Hc Hp _ Hall id' c' [[<- <-]|[_ H]]%lookup_insert_Some; [by exists c|]. exists c'. eauto. Qed.

Lemma same_links_delete cs id : (∀ id' c', cs !! id' = Some c' → ∀ r, c_pc c' = Acquiring r → c_slot c' = true) → same_links cs (delete id cs).
Proof. intros Hall id' c' [_ H]%lookup_delete_Some. exists c'. eauto. Qed.

Lemma call_fits_links ss cs cs' : same_links cs cs' → (∀ id c, cs !! id = Some c → call_fits ss c) → ∀ id c, cs' !! id = Some c → call_fits ss c.
Proof. intros Hl Hc id c Hi. destruct (Hl id c Hi) as (c0 & H0 & E1 & E2 & H3). destruct (Hc id c0 H0) as (F1 & F2 & _). split; [|split]; rewrite ?E1, ?E2; auto. Qed.

Lemma turn_fits_counts k t cs cs' : count (lent_by k) cs' = count (lent_by k) cs → count (acquiring k) cs' = count (acquiring k) cs →
  turn_fits k t cs → turn_fits k t cs'.
Proof. unfold turn_fits, slot_fits. intros -> ->. done. Qed.

Lemma slots_calls ss cs cs' u : same_links cs cs' → (∀ k, count (lent_by k) cs' = count (lent_by k) cs ∧ count (acquiring k) cs' = count (acquiring k) cs) →
  TI ss cs u → TI ss cs' u.
Proof. intros Hl Hn [H1 H2 H3]. split; [by eapply call_fits_links| |done]. intros k t Ht. destruct (Hn k). eapply turn_fits_counts; eauto. Qed.

Lemma slots_ask ss cs u id c : cs !! id = None → c_pc c = Opened → call_fits ss c → TI ss cs u → TI ss (<[id := c]> cs) u.
Proof.
  intros Hf Hp Hc [H1 H2 H3]. split; [|intros k t Ht; eapply turn_fits_counts; [..|by apply H2]; rewrite count_fresh by done|done].
  - intros id' c' [[<- <-]|[_ H]]%lookup_insert_Some; eauto.
  - unfold lent_by. by rewrite Hp.
  - unfold acquiring. by rewrite Hp.
Qed.

(** The slot of a turn changes, with the calls it counts. *)
Lemma slots_slot ss cs cs' u u' k q t sl sl' pc : TI ss cs u → same_links cs cs' →
  (∀ k', k' ≠ k → count (lent_by k') cs' = count (lent_by k') cs ∧ count (acquiring k') cs' = count (acquiring k') cs) →
  turn_of ss k = Some t → t_slot t = Some sl → (t_pc t = Working → pc = Working) → slot_fits k (set_tpc pc t) sl' cs' →
  (∀ n, limit = Some n → u' + one (held sl) = u + one (held sl') ∧ u' ≤ n) →
  TI (<[k := {| queue := q; turn := Some (set_tpc pc (set_slot sl' t)) |}]> ss) cs' u'.
Proof.
  intros [H1 H2 H3] Hl Hn Ht Hsl Hpc Hf Hu. split.
  - intros id c Hi. destruct (call_fits_links _ _ _ Hl H1 id c Hi) as (F1 & F2 & F3). split; [|done]. intros k' Hk'. rewrite turn_of_insert.
    destruct (F1 k' Hk') as (t0 & E1 & E2 & E3 & E4). case_decide as Hd; [subst k'|by exists t0]. assert (t0 = t) as -> by congruence. cbn. eexists. split; [done|]. cbn. auto.
  - intros k' t'. rewrite turn_of_insert. case_decide as Hd; [subst k'; intros [= <-]; exact Hf|]. intros Ht'. destruct (Hn k' Hd). eapply turn_fits_counts; eauto.
  - intros n Hlim. destruct (H3 n Hlim) as [-> Hle], (Hu n Hlim) as [Hu1 Hu2]. split; [|done]. pose proof (count_holds ss k {| queue := q; turn := Some (set_tpc pc (set_slot sl' t)) |}) as Hc.
    rewrite holds_turn, Ht, Hsl in Hc. cbn [holds turn t_slot set_tpc set_slot] in Hc. change (holds {| queue := q; turn := Some (set_tpc pc (set_slot sl' t)) |}) with (held sl') in Hc. lia.
Qed.

(** A turn that waits for nothing is replaced. *)
Lemma slots_turn ss cs u u' k x : TI ss cs u → (∀ id c, cs !! id = Some c → c_turn c ≠ Some k) → (∀ t, turn x = Some t → turn_fits k t cs) →
  (∀ n, limit = Some n → u' + one (holds (default idle (ss !! k))) = u + one (holds x) ∧ u' ≤ n) → TI (<[k := x]> ss) cs u'.
Proof.
  intros [H1 H2 H3] Hno Hf Hu. split.
  - intros id c Hi. destruct (H1 id c Hi) as (F1 & F2 & F3). split; [|done]. intros k' Hk'. rewrite turn_of_insert. rewrite decide_False; [by apply F1|].
    intros ->. by eapply Hno.
  - intros k' t'. rewrite turn_of_insert. case_decide as Hd; [subst k'; apply Hf|apply H2].
  - intros n Hlim. destruct (H3 n Hlim) as [-> Hle], (Hu n Hlim) as [Hu1 Hu2]. split; [|done]. pose proof (count_holds ss k x). lia.
Qed.

(** Only the queue changes, or a turn without calls begins to work. *)
Lemma slots_queue ss cs u k q : TI ss cs u → TI (<[k := {| queue := q; turn := turn_of ss k |}]> ss) cs u.
Proof.
  intros [H1 H2 H3]. assert (He : ∀ k', turn_of (<[k := {| queue := q; turn := turn_of ss k |}]> ss) k' = turn_of ss k') by (intros k'; rewrite turn_of_insert; case_decide; [by subst|done]).
  split.
  - intros id c Hi. destruct (H1 id c Hi) as (F1 & F2 & F3). split; [|done]. intros k'. rewrite He. apply F1.
  - intros k' t. rewrite He. apply H2.
  - intros n Hlim. destruct (H3 n Hlim) as [-> Hle]. split; [|done]. pose proof (count_holds ss k {| queue := q; turn := turn_of ss k |}) as Hc.
    rewrite holds_turn in Hc. change (holds {| queue := q; turn := turn_of ss k |}) with (match turn_of ss k with Some t => match t_slot t with Some sl => held sl | None => false end | None => false end) in Hc. lia.
Qed.

Lemma no_calls_count cs k : (∀ id c, cs !! id = Some c → c_turn c ≠ Some k) → count (lent_by k) cs = 0 ∧ count (acquiring k) cs = 0.
Proof.
  intros Hno. split; apply none_counted; intros id c Hc; apply Hno in Hc; unfold lent_by, acquiring; destruct (c_pc c); try done;
    by rewrite bool_decide_eq_false_2, ?andb_false_r.
Qed.

(** A turn that is not working has no calls. *)
Lemma idle_no_calls ss cs u k : TI ss cs u → (∀ t, turn_of ss k = Some t → t_pc t ≠ Working) → ∀ id c, cs !! id = Some c → c_turn c ≠ Some k.
Proof. intros [H1 _ _] Hn id c Hc Hk. destruct (H1 id c Hc) as (F1 & _). destruct (F1 k Hk) as (t & Ht & Hp & _). by apply (Hn t). Qed.
End slot_lemmas.

(** A call that moves on, or returns. *)
Definition moved (cs : gmap string Call) (id : string) (c : Call) (pc : option CallPc) : gmap string Call :=
  match pc with Some pc => <[id := set_cpc pc c]> cs | None => delete id cs end.

Definition moved_to (p : Call → bool) (c : Call) (pc : option CallPc) : bool := match pc with Some pc => p (set_cpc pc c) | None => false end.

Lemma count_moved p cs id c pc : cs !! id = Some c → count p (moved cs id c pc) + one (p c) = count p cs + one (moved_to p c pc).
Proof. intros Hc. destruct pc as [pc|]; cbn; [by apply count_insert|]. rewrite (count_delete p cs id c Hc). lia. Qed.

Lemma moved_links ss cs u limit id c pc : TurnInv limit ss cs u → cs !! id = Some c → (∀ r, pc = Some (Acquiring r) → c_slot c = true) → same_links cs (moved cs id c pc).
Proof.
  intros [H1 _ _] Hc Hp. assert (Hall : ∀ id' c', cs !! id' = Some c' → ∀ r, c_pc c' = Acquiring r → c_slot c' = true) by (intros id' c' Hi; apply (H1 id' c' Hi)).
  destruct pc as [pc|]; [|by apply same_links_delete]. apply same_links_put; eauto. intros r ->. by eapply Hp.
Qed.

Lemma slots_moved limit ss cs u id c pc : TurnInv limit ss cs u → cs !! id = Some c → (∀ r, pc = Some (Acquiring r) → c_slot c = true) →
  (∀ k, moved_to (lent_by k) c pc = lent_by k c ∧ moved_to (acquiring k) c pc = acquiring k c) → TurnInv limit ss (moved cs id c pc) u.
Proof.
  intros Hi Hc Hp Hk. eapply slots_calls; [by eapply moved_links| |done]. intros k. destruct (Hk k) as [E1 E2].
  pose proof (count_moved (lent_by k) cs id c pc Hc). pose proof (count_moved (acquiring k) cs id c pc Hc). rewrite E1 in *. rewrite E2 in *. lia.
Qed.

Lemma own_slot_Some s c k t sl : own_slot s c = Some (k, t, sl) → c_slot c = true ∧ c_turn c = Some k ∧ turn_at s k = Some t ∧ t_slot t = Some sl.
Proof. unfold own_slot. destruct (c_slot c), (c_turn c) as [k'|]; try done. destruct (turn_at s k') as [t'|] eqn:Ht; [|done]. destruct (t_slot t') eqn:Hs; [|done]. by intros [= <- <- <-]. Qed.

Lemma own_slot_None s c : call_fits (sess s) c → own_slot s c = None → c_slot c = false.
Proof.
  intros (F1 & F2 & _). unfold own_slot. destruct (c_slot c); [|done]. destruct (c_turn c) as [k|]; [|by intros _; apply F2].
  destruct (F1 k eq_refl) as (t & Ht & _ & _ & Hs). change (turn_at s k) with (turn_of (sess s) k). rewrite Ht. specialize (Hs eq_refl). unfold has_slot in Hs. by destruct (t_slot t).
Qed.

Lemma slot_unlocked s k : slot_locked s k = false → count (acquiring k) (calls s) = 0.
Proof. intros Hl. apply none_counted. intros id c Hc. destruct (acquiring k c) eqn:Ha; [|done]. assert (slot_locked s k = true) by (apply existsb_map; eauto). congruence. Qed.

(** The slot of a call's turn changes as the call moves. *)
Lemma slots_own limit s id c pc k t sl sl' u' : TurnInv limit (sess s) (calls s) (used s) → calls s !! id = Some c → own_slot s c = Some (k, t, sl) →
  lent sl' = (lent sl + Z.of_nat (one (moved_to (lent_by k) c pc)) - Z.of_nat (one (lent_by k c)))%Z → done sl' = done sl →
  let aq := count (acquiring k) (moved (calls s) id c pc) in
  aq ≤ 1 → (held sl' = true → lent sl' = 0%Z ∧ aq = 0) → (0 < aq → lent sl' = 0%Z) →
  (∀ n, limit = Some n → u' + one (held sl) = used s + one (held sl') ∧ u' ≤ n) →
  TurnInv limit (<[k := {| queue := queue (sess_at s k); turn := Some (set_slot sl' t) |}]> (sess s)) (moved (calls s) id c pc) u'.
Proof.
  intros Hi Hc (Hcs & Hct & Ht & Hsl)%own_slot_Some El Ed aq Ha Hh Hz Hu. pose proof Hi as [H1 H2 H3].
  destruct (H1 id c Hc) as (F1 & _). destruct (F1 k Hct) as (t0 & E0 & Hpc & _). change (turn_of (sess s) k = Some t) in Ht. assert (t0 = t) as -> by congruence.
  pose proof (H2 k t Ht) as Hf. unfold turn_fits in Hf. rewrite Hsl in Hf. destruct Hf as (G1 & G2 & G3 & _).
  apply (slots_slot limit (sess s) (calls s) (moved (calls s) id c pc) (used s) u' k (queue (sess_at s k)) t sl sl' (t_pc t)); try done.
  - by eapply moved_links.
  - intros k' Hk'. pose proof (count_moved (lent_by k') (calls s) id c pc Hc) as C1. pose proof (count_moved (acquiring k') (calls s) id c pc Hc) as C2.
    assert (Hz1 : ∀ pc', lent_by k' (set_cpc pc' c) = false ∧ acquiring k' (set_cpc pc' c) = false).
    { intros pc'. unfold lent_by, acquiring. cbn. rewrite Hct, bool_decide_eq_false_2 by congruence. destruct pc'; by rewrite ?andb_false_r. }
    assert (lent_by k' c = false ∧ acquiring k' c = false) as [Z1 Z2] by (destruct c; apply (Hz1 c_pc0)).
    assert (moved_to (lent_by k') c pc = false ∧ moved_to (acquiring k') c pc = false) as [Z3 Z4] by (destruct pc; [apply Hz1|done]).
    rewrite Z1, Z3 in C1. rewrite Z2, Z4 in C2. cbn in C1, C2. lia.
  - unfold slot_fits. cbn. pose proof (count_moved (lent_by k) (calls s) id c pc Hc). rewrite Hpc. split_and!; [done|congruence|lia|done| |done].
    intros Hhe. destruct (Hh Hhe). by split_and!.
Qed.

Lemma slots_end h s k t : TurnInv (maxConcurrentTurns h) (sess s) (calls s) (used s) → turn_at s k = Some t → (∀ id c, calls s !! id = Some c → c_turn c ≠ Some k) →
  TurnInv (maxConcurrentTurns h) (sess (end_turn h k t s)) (calls (end_turn h k t s)) (used (end_turn h k t s)).
Proof.
  intros Hi Ht Hno. pose proof (count_holds (sess s) k {| queue := queue (sess_at s k); turn := None |}) as Hc. rewrite holds_turn in Hc.
  change (turn_of (sess s) k) with (turn_at s k) in Hc. rewrite Ht in Hc. unfold end_turn. pose proof (ti_used _ _ _ _ Hi) as Hu.
  destruct (t_slot t) as [sl|] eqn:Hsl; (apply (slots_turn _ (sess s) (calls s) (used s)); [exact Hi|exact Hno|done|]); intros n Hn; destruct (Hu n Hn) as [E Hle]; rewrite holds_turn;
    change (turn_of (sess s) k) with (turn_at s k); rewrite Ht, Hsl; cbn -[count]; [|by split].
  unfold releaseTurnSlot. rewrite Hn. destruct (held sl); cbn -[count] in *; [|by split]. change (holds {| queue := _; turn := None |}) with false in Hc. cbn -[count] in Hc. lia.
Qed.

Lemma acquire_used limit sl u sl' u' : slot_acquire limit sl u = Some (sl', u') →
  held sl' = true ∧ lent sl' = lent sl ∧ done sl' = done sl ∧ ∀ n, limit = Some n → u' = S u ∧ u' ≤ n.
Proof.
  unfold slot_acquire, acquireTurnSlot. destruct limit as [n|].
  - destruct (u <? n) eqn:Hlt; [|done]. intros [= <- <-]. split_and!; [done..|]. intros n' [= <-]. apply Nat.ltb_lt in Hlt. lia.
  - intros [= <- <-]. by split_and!.
Qed.

Lemma turn_fits_slot limit ss cs u k t sl : TurnInv limit ss cs u → turn_of ss k = Some t → t_slot t = Some sl → slot_fits k t sl cs.
Proof. intros [_ H2 _] Ht Hsl. specialize (H2 k t Ht). unfold turn_fits in H2. by rewrite Hsl in H2. Qed.

Lemma acquiring_at k c pc : c_pc c = pc → acquiring k c = match pc with Acquiring _ => bool_decide (c_turn c = Some k) | _ => false end.
Proof. by intros <-. Qed.

Lemma slots_wait_steps h l s s' : effect h s l s' → match l with LPublished _ _ | LLend _ | LAnswered _ | LGiveUp _ => True | _ => False end →
  TurnInv (maxConcurrentTurns h) (sess s) (calls s) (used s) → TurnInv (maxConcurrentTurns h) (sess s') (calls s') (used s').
Proof.
  intros He Hl Hi. pose proof (ti_used _ _ _ _ Hi) as Hu. destruct He; try done.
  - apply (slots_moved _ _ _ _ id c (Some Published)); [done|done|done|]. intros k. unfold moved_to, lent_by, acquiring. cbn. by rewrite H0.
  - apply (slots_moved _ _ _ _ id c None); [done|done|done|]. intros k. unfold moved_to, lent_by, acquiring. by rewrite H0.
  - apply (slots_moved _ _ _ _ id c (Some Waiting)); [done|done|done|]. intros k. unfold moved_to, lent_by, acquiring. cbn. rewrite H0.
    by rewrite (own_slot_None s c) by (done || by eapply (ti_calls _ _ _ _ Hi)).
  - pose proof (own_slot_Some _ _ _ _ _ H1) as (Hcs & Hct & Ht & Hsl). pose proof (slot_unlocked _ _ H2) as Haq. injection H3 as <- <-.
    pose proof (count_moved (acquiring k) (calls s) id c (Some Waiting) H) as Hm. rewrite (acquiring_at k c Published) in Hm by done. cbn [moved_to acquiring set_cpc c_pc one] in Hm.
    apply (slots_own _ s id c (Some Waiting) k t sl); try done; try lia; try (intros; exfalso; lia).
    + unfold moved_to, lent_by. cbn. rewrite Hcs, Hct, H0, bool_decide_eq_true_2 by done. cbn. lia.
    + intros n Hn. destruct (Hu n Hn) as [E Hle]. unfold releaseTurnSlot. rewrite Hn. cbn [used put_call finish add_got set_waits on_calls put_turn on_sess set_used held]. destruct (held sl) eqn:Hh; cbn [one]; [|lia].
      pose proof (count_holds (sess s) k idle) as Hc. rewrite holds_turn in Hc. change (turn_of (sess s) k) with (turn_at s k) in Hc. rewrite Ht, Hsl, Hh in Hc. change (holds idle) with false in Hc. cbn [one] in Hc. lia.
  - apply (slots_moved _ _ _ _ id c (Some (Ended (Some reply)))); [done|done|done|]. intros k. unfold moved_to, lent_by, acquiring. cbn. by rewrite H0.
  - apply (slots_moved _ _ _ _ id c (Some (Ended reply))); [done|done|done|]. intros k. unfold moved_to, lent_by, acquiring. cbn. by rewrite H0.
Qed.

Lemma same_turn s k t sl : turn_at s k = Some t → t_slot t = Some sl → <[k := {| queue := queue (sess_at s k); turn := Some (set_slot sl t) |}]> (sess s) = sess s.
Proof.
  unfold turn_at, sess_at. intros Ht Hsl. destruct (sess s !! k) as [[q x]|] eqn:Hk; cbn in *; [|done]. subst x. rewrite insert_id; [done|]. rewrite Hk.
  destruct t; cbn in *. by subst.
Qed.

Lemma slots_reclaim_steps h l s s' : effect h s l s' → match l with LReclaim _ | LReacquire _ _ => True | _ => False end →
  TurnInv (maxConcurrentTurns h) (sess s) (calls s) (used s) → TurnInv (maxConcurrentTurns h) (sess s') (calls s') (used s').
Proof.
  intros He Hl Hi. pose proof (ti_used _ _ _ _ Hi) as Hu. destruct He; try done.
  - apply (slots_moved _ _ _ _ id c None); [done|done|done|]. intros k. unfold moved_to, lent_by, acquiring. rewrite H0.
    by rewrite (own_slot_None s c) by (done || by eapply (ti_calls _ _ _ _ Hi)).
  - pose proof (own_slot_Some _ _ _ _ _ H1) as (Hcs & Hct & Ht & Hsl). pose proof (slot_unlocked _ _ H2) as Haq. injection H3 as <- Hw.
    pose proof (count_moved (acquiring k) (calls s) id c None H) as Hm. rewrite (acquiring_at k c (Ended r)) in Hm by done. cbn [moved_to one] in Hm.
    destruct (turn_fits_slot _ _ _ _ _ _ _ Hi Ht Hsl) as (_ & _ & G3 & _ & G5 & _).
    apply (slots_own _ s id c None k t sl); try done; try lia; try (intros; exfalso; lia).
    + unfold moved_to, lent_by. rewrite Hcs, Hct, H0, bool_decide_eq_true_2 by done. cbn. lia.
    + cbn [used put_call finish add_got set_waits on_calls put_turn on_sess set_used held]. intros Hh. destruct (G5 Hh) as (G6 & _). assert (lent_by k c = true) as Hlb by (unfold lent_by; rewrite Hcs, Hct, H0, bool_decide_eq_true_2 by done; done).
      assert (0 < count (lent_by k) (calls s)) by (apply some_counted; eauto). lia.
    + intros n Hn. destruct (Hu n Hn). cbn [used put_call finish add_got set_waits on_calls put_turn on_sess set_used held]. lia.
  - pose proof (own_slot_Some _ _ _ _ _ H1) as (Hcs & Hct & Ht & Hsl). pose proof (slot_unlocked _ _ H2) as Haq. injection H3 as <- Hw.
    pose proof (count_moved (acquiring k) (calls s) id c (Some (Acquiring r)) H) as Hm. rewrite (acquiring_at k c (Ended r)) in Hm by done.
    assert (moved_to (acquiring k) c (Some (Acquiring r)) = true) as Hac by (by apply bool_decide_eq_true_2). rewrite Hac in Hm. cbn [one] in Hm.
    apply andb_true_iff in Hw as [[Hz Hh]%andb_true_iff _]. apply Z.eqb_eq in Hz. apply negb_true_iff in Hh.
    apply (slots_own _ s id c (Some (Acquiring r)) k t sl); try done; try lia; try (intros; exfalso; lia).
    + unfold moved_to, lent_by. cbn. rewrite Hcs, Hct, H0, bool_decide_eq_true_2 by done. cbn. lia.
    + cbn [held]. congruence.
    + intros n Hn. destruct (Hu n Hn). cbn [used put_call finish add_got set_waits on_calls put_turn on_sess set_used held]. lia.
  - pose proof (own_slot_Some _ _ _ _ _ H1) as (Hcs & Hct & Ht & Hsl). apply acquire_used in H2 as (A1 & A2 & A3 & A4).
    pose proof (count_moved (acquiring k) (calls s) id c None H) as Hm. rewrite (acquiring_at k c (Acquiring r)), bool_decide_eq_true_2 in Hm by done. cbn [moved_to one] in Hm.
    destruct (turn_fits_slot _ _ _ _ _ _ _ Hi Ht Hsl) as (_ & _ & _ & G4 & G5 & G6).
    assert (0 < count (acquiring k) (calls s)) as Hp by lia. specialize (G6 Hp).
    apply (slots_own _ s id c None k t sl); try done; try lia; try (intros; exfalso; lia).
    + unfold moved_to, lent_by. rewrite H0. cbn. lia.
    + intros n Hn. destruct (Hu n Hn) as [E Hle], (A4 n Hn) as [-> Hle']. cbn [used put_call finish add_got set_waits on_calls put_turn on_sess set_used]. rewrite A1.
      destruct (held sl) eqn:Hh; [destruct (G5 eq_refl) as (_ & _ & ?); lia|]. cbn [one]. lia.
  - pose proof (own_slot_Some _ _ _ _ _ H1) as (Hcs & Hct & Ht & Hsl).
    pose proof (count_moved (acquiring k) (calls s) id c None H) as Hm. rewrite (acquiring_at k c (Acquiring r)), bool_decide_eq_true_2 in Hm by done. cbn [moved_to one] in Hm.
    destruct (turn_fits_slot _ _ _ _ _ _ _ Hi Ht Hsl) as (_ & _ & _ & G4 & G5 & G6). specialize (G6 ltac:(lia)).
    cbn [sess finish add_got set_waits on_calls]. rewrite <- (same_turn s k t sl) by done. apply (slots_own _ s id c None k t sl); try done; try lia; try (intros; exfalso; lia).
    + unfold moved_to, lent_by. rewrite H0. cbn. lia.
    + intros n Hn. destruct (Hu n Hn). cbn [used finish add_got set_waits on_calls]. lia.
Qed.

Lemma waits_none k s : waits_in k s = false → ∀ id c, calls s !! id = Some c → c_turn c ≠ Some k.
Proof.
  intros Hw id c Hc Hk. assert (waits_in k s = true); [|congruence]. unfold waits_in.
  apply existsb_map. exists id, c. split; [done|]. by apply bool_decide_eq_true_2.
Qed.

(** A turn that is not working yet. *)
Lemma early_turn limit s k t : TurnInv limit (sess s) (calls s) (used s) → turn_at s k = Some t → t_pc t ≠ Working →
  (∀ id c, calls s !! id = Some c → c_turn c ≠ Some k) ∧ count (lent_by k) (calls s) = 0 ∧ count (acquiring k) (calls s) = 0.
Proof.
  intros Hi Ht Hp. assert (Hno : ∀ id c, calls s !! id = Some c → c_turn c ≠ Some k).
  { eapply idle_no_calls; [done|]. intros t' Ht'. change (turn_at s k = Some t') in Ht'. congruence. }
  split; [done|]. by apply no_calls_count.
Qed.

(** It goes on with the slot it has. *)
Lemma slots_goes_on limit s k t t' : TurnInv limit (sess s) (calls s) (used s) → turn_at s k = Some t → t_pc t = Starting →
  t_msg t' = t_msg t → t_slot t' = t_slot t → t_pc t' = Working → TurnInv limit (sess (put_turn k (Some t') s)) (calls s) (used s).
Proof.
  intros Hi Ht Hp Em Es Ew. destruct (early_turn _ s k t Hi Ht) as (Hno & Z1 & Z2); [congruence|]. apply (slots_turn _ (sess s) (calls s) (used s)); [done|done| |].
  - intros t0 [= <-]. pose proof (ti_turns _ _ _ _ Hi k t Ht) as Hf. unfold turn_fits, slot_fits in *. rewrite Es, Em, Ew, Hp in *. destruct (t_slot t); naive_solver.
  - intros n Hn. destruct (ti_used _ _ _ _ Hi n Hn). rewrite holds_turn. change (turn_of (sess s) k) with (turn_at s k). rewrite Ht. unfold holds. cbn -[count]. rewrite Es. lia.
Qed.

Lemma slots_turn_steps h l s s' : effect h s l s' → match l with LTake _ _ | LSlot _ | LNoSlot _ | LBegin _ _ | LOver _ _ => True | _ => False end →
  TurnInv (maxConcurrentTurns h) (sess s) (calls s) (used s) → TurnInv (maxConcurrentTurns h) (sess s') (calls s') (used s').
Proof.
  intros He Hl Hi. pose proof (ti_used _ _ _ _ Hi) as Hu. destruct He as [| |k alone m rest Ht Hb|k t sl sl' u Ht Hp Hsl Ha|k t Ht Hp|k a t Ht Hp Hm Hw|k a t Ht Hp Hw Hr Hk|k t Ht Hp Hw|k o t Ht Hp Hw Ho| | | | | | | | | | | | | | |]; try done.
  - assert (Hno : ∀ id c, calls s !! id = Some c → c_turn c ≠ Some k) by (eapply idle_no_calls; [done|]; intros t Ht'; change (turn_at s k = Some t) in Ht'; congruence).
    destruct (no_calls_count (calls s) k Hno) as [Z1 Z2]. apply (slots_turn _ (sess s) (calls s) (used s)); [done|done| |].
    + intros t [= <-]. unfold turn_fits, new_turn. cbn. destruct (is_ask m) eqn:Hm; [done|]. unfold slot_fits. cbn. rewrite Z1, Z2, Hm. by split_and!; (lia || done).
    + intros n Hn. destruct (Hu n Hn). rewrite holds_turn. change (turn_of (sess s) k) with (turn_at s k). rewrite Ht. unfold holds. cbn. destruct (is_ask m); cbn; lia.
  - destruct (early_turn _ s k t Hi Ht) as (Hno & Z1 & Z2); [congruence|]. apply acquire_used in Ha as (A1 & A2 & A3 & A4).
    destruct (turn_fits_slot _ _ _ _ _ _ _ Hi Ht Hsl) as (G1 & G2 & G3 & _ & G5 & _). apply (slots_turn _ (sess s) (calls s) (used s)); [done|done| |].
    + intros t0 [= <-]. unfold turn_fits, slot_fits. cbn -[count]. rewrite Z1, Z2, A2, A3, G3, Z1. by split_and!; (lia || done).
    + intros n Hn. destruct (Hu n Hn), (A4 n Hn) as [-> Hle]. rewrite holds_turn. change (turn_of (sess s) k) with (turn_at s k). rewrite Ht, Hsl.
      change (holds _) with (held sl'). rewrite A1. destruct (held sl) eqn:Hh; [destruct (G5 eq_refl) as (_ & ? & _); congruence|]. cbn -[count]. lia.
  - destruct (early_turn _ s k t Hi Ht) as (Hno & _); [congruence|]. apply (slots_turn _ (sess s) (calls s) (used s)); [done|done|done|].
    intros n Hn. destruct (Hu n Hn). rewrite holds_turn. change (turn_of (sess s) k) with (turn_at s k). rewrite Ht. destruct (t_slot t) as [sl|] eqn:Hsl; [|cbn -[count]; lia].
    destruct (turn_fits_slot _ _ _ _ _ _ _ Hi Ht Hsl) as (_ & _ & _ & _ & G5 & _). destruct (held sl); [destruct (G5 eq_refl) as (_ & ? & _); congruence|]. cbn -[count]. lia.
  - apply slots_end; [done|done|]. by apply (early_turn _ s k t Hi Ht); rewrite Hp.
  - by apply (slots_goes_on _ s k t).
  - by apply (slots_goes_on _ s k t).
  - assert (Hno := waits_none _ _ Hw). set (s1 := if is_ask (t_msg t) then _ else s).
    assert (but_asks s s1) as (E1 & _ & E2 & _ & E3 & _) by (subst s1; destruct (is_ask _); [apply answer_but_asks|by split_and!]).
    apply slots_end; [by rewrite E1, E2, E3|by unfold turn_at, sess_at; rewrite E2|by rewrite E1].
Qed.

Lemma step_slots h l s s' : effect h s l s' → calls_known s → TurnInv (maxConcurrentTurns h) (sess s) (calls s) (used s) →
  TurnInv (maxConcurrentTurns h) (sess s') (calls s') (used s').
Proof.
  intros He Hk Hi. destruct l; try (by eapply slots_turn_steps); try (by eapply slots_wait_steps); try (by eapply slots_reclaim_steps); inversion He; subst; try done.
  - by apply slots_queue.
  - destruct (cancelled_but_asks (queue (sess_at s k)) (put_queue k [] s)) as (E1 & _ & E2 & _ & E3 & _). rewrite E1, E2, E3. by apply slots_queue.
  - apply slots_ask; [|done| |done].
    + destruct (calls s !! id) eqn:E; [apply Hk in E as [? E]; congruence|done].
    + match goal with H : ask_env s o = Some v |- _ => revert H end. unfold ask_env, working, call_fits. destruct o as [k|k|k cl|ch d]; cbn; try (destruct (turn_at s k) as [t0|] eqn:Ht; [|done]; destruct (t_pc t0) eqn:Hp, (t_agent t0) eqn:Ha; try done);
        intros [= <-]; cbn; (split_and!; [|done|done]); intros k' Hk'; simplify_eq; exists t0; split_and!; try done; congruence.
Qed.
End runs.
