(* ===== verification/AskReplies.v ===== *)
(** * Where asks are, and what becomes of them (agent/ask.go, agent/turn_reply.go)

    Every run of AskRuns keeps the chain an ask carries exact, so nobody is asked by
    somebody who waits for them in the same exchange and exchanges are as deep as the
    configuration allows at most; an ask somebody waits for is in one queue or one
    turn, until its asker has the reply. *)

From stdpp Require Import base gmap strings list fin_maps relations.
From Stdlib Require Import ZArith Lia Ascii.
From S2P Require Import Prelude GoString AgentIds SessionDispatch Asks AskRuns.

Open Scope string_scope.
Open Scope list_scope.
Open Scope nat_scope.

(** ** Messages and chains *)

(** What the registry and the configuration have. *)
Definition host_ok (h : Host) : Prop :=
  (0 ≤ maxSubagentDepth h < 2 ^ 63)%Z ∧ ∀ a t, agents h !! a = Some t → t_ID t = a ∧ NormalizeAgentID a = a.

(** A chain of agents that wait for one another, in a turn [depth] levels deep. *)
Definition chain_ok (chain : list string) (depth : Z) : Prop :=
  Forall plain_id chain ∧ NoDup chain ∧ (0 ≤ depth)%Z ∧ (Z.of_nat (length chain) ≤ depth + 1)%Z.

Definition msg_ok (h : Host) (m : InboundMessage) : Prop :=
  if is_ask m then
    ∃ id from target text chain depth, same_message (publishAsk id from target text chain depth) m ∧
      chain_ok chain depth ∧ target ∉ chain ∧ NormalizeAgentID target = target ∧ (depth < maxSubagentDepth h)%Z ∧ is_Some (agents h !! target)
  else inboundMetadata m metadataKeyAskChain = "".

(** An ask is in the session of the agent asked, or in one of its own when that agent
    is not there. *)
Definition placed (k : string) (m : InboundMessage) : Prop :=
  is_ask m = true → k = BuildAgentMainSessionKey (inboundMetadata m metadataKeyPreresolvedAgentID) ∨ k = AgentMessageChannel +:+ ":" +:+ ChatID m.

(** A working turn ends its chain, and runs in its agent's session. *)
Definition turn_ok (h : Host) (k : string) (t : Turn) : Prop :=
  msg_ok h (t_msg t) ∧ placed k (t_msg t) ∧
  ∀ a, t_agent t = Some a → k = BuildAgentMainSessionKey a ∧ NormalizeAgentID a = a ∧ last (t_chain t) = Some a ∧
    chain_ok (t_chain t) (t_depth t) ∧ (t_depth t ≤ maxSubagentDepth h)%Z.

Definition call_ok (h : Host) (id : string) (c : Call) : Prop :=
  is_ask (c_msg c) = true ∧ ChatID (c_msg c) = id ∧ inboundMetadata (c_msg c) metadataKeyPreresolvedAgentID = c_target c ∧ msg_ok h (c_msg c).

Definition sess_of (ss : gmap string Sess) (k : string) : Sess := default idle (ss !! k).

Record MsgInv (h : Host) (arr : list InboundMessage) (ss : gmap string Sess) (cs : gmap string Call) : Prop := {
  mi_arriving : ∀ m, m ∈ arr → msg_ok h m;
  mi_queues : ∀ k m, m ∈ queue (sess_of ss k) → msg_ok h m ∧ placed k m;
  mi_turns : ∀ k t, turn_of ss k = Some t → turn_ok h k t;
  mi_calls : ∀ id c, cs !! id = Some c → call_ok h id c
}.

(** Who may ask without a turn waiting, and from a sub-agent. *)
Definition label_ok (l : Label) : Prop :=
  match l with
  | LAsk _ (Detached chain depth) _ _ _ => chain_ok chain depth
  | LAsk _ (InClone _ clone) _ _ _ => plain_id clone
  | _ => True
  end.

Lemma metadata_same m m' key : same_message m m' → inboundMetadata m' key = inboundMetadata m key.
Proof. intros (_ & _ & E). unfold inboundMetadata. by rewrite E. Qed.

Lemma is_ask_same m m' : same_message m m' → is_ask m' = is_ask m.
Proof. intros (E & _). unfold is_ask. by rewrite E. Qed.

Lemma msg_ok_same h m m' : same_message m m' → msg_ok h m → msg_ok h m'.
Proof.
  intros Hs. unfold msg_ok. rewrite (is_ask_same _ _ Hs), (metadata_same _ _ _ Hs). destruct (is_ask m); [|done].
  intros (id & from & target & text & chain & depth & (E1 & E2 & E3) & H). destruct Hs as (E4 & E5 & E6). exists id, from, target, text, chain, depth. split; [split_and!; congruence|done].
Qed.

Lemma msg_ok_ask h m : is_ask m = true → msg_ok h m → runsAlone m = true ∧ ReplyRequired m = true.
Proof.
  intros Hm. unfold msg_ok. rewrite Hm. intros (id & from & target & text & chain & depth & Hs & _).
  assert (ReplyRequired m = true) as Hr.
  { unfold ReplyRequired. rewrite (metadata_same _ _ _ Hs). apply publishAsk_alone. }
  unfold runsAlone. by rewrite Hr, orb_true_r.
Qed.

(** *** The next batch *)

Lemma take_loop_perm chat stop l : let '(batch, rest) := take_loop chat stop l in l ≡ₚ batch ++ rest.
Proof.
  revert stop. induction l as [|m l IH]; intros stop; [by constructor|]. cbn. pose proof (IH stop) as H1. pose proof (IH true) as H2.
  destruct (negb stop && _), (negb (runsAlone m)), (take_loop chat stop l), (take_loop chat true l); cbn.
  all: (by rewrite H1) || (by rewrite H1, Permutation_middle) || (by rewrite H2, Permutation_middle).
Qed.

(** An ask is taken alone; what is merged holds no ask. *)
Lemma takeBatch_asks h q alone m rest : (∀ x, x ∈ q → msg_ok h x) → takeBatch q alone = Some (m, rest) →
  ∃ batch, q ≡ₚ batch ++ rest ∧ msg_ok h m ∧ (batch = [m] ∨ is_ask m = false ∧ ∀ x, x ∈ batch → is_ask x = false).
Proof.
  intros Hq Ht. unfold takeBatch, split_batch in Ht. destruct q as [|first q]; [done|].
  pose proof (take_loop_spec (queuedChat first) (alone || runsAlone first) q) as Hl. pose proof (take_loop_perm (queuedChat first) (alone || runsAlone first) q) as Hp.
  destruct (take_loop _ _ q) as [batch rest']. destruct Hl as (Hb & _ & Hstop & _). destruct batch as [|m2 batch].
  { injection Ht as <- <-. exists [first]. cbn. rewrite Hp. split_and!; [done|apply Hq; by left|by left]. }
  assert (Hrun : runsAlone first = false) by (destruct (runsAlone first); [rewrite orb_true_r in Hstop; by specialize (Hstop eq_refl)|done]).
  assert (Hnone : ∀ x, x ∈ first :: m2 :: batch → is_ask x = false).
  { intros x Hx. destruct (is_ask x) eqn:Ha; [|done]. assert (runsAlone x = true) as Hr.
    { apply (msg_ok_ask h x Ha). apply Hq. rewrite Hp. set_solver. }
    apply elem_of_cons in Hx as [->|Hx]; [congruence|]. rewrite Forall_forall in Hb. apply Hb in Hx as [_ Hx]. congruence. }
  unfold mergeMessages in Ht. destruct (last (first :: m2 :: batch)) as [l|] eqn:Hlast; [|done]. injection Ht as <- <-.
  assert (Hin : l ∈ first :: m2 :: batch) by (by apply last_Some_elem_of).
  exists (first :: m2 :: batch). set (merged := {| Channel := Channel l |}). assert (same_message l merged) as Hs by (by split_and!). split_and!.
  - cbn. by rewrite Hp.
  - eapply msg_ok_same; [exact Hs|]. apply Hq. rewrite Hp. set_solver.
  - right. split; [|done]. rewrite (is_ask_same _ _ Hs). by apply Hnone.
Qed.

Section runs.
Context {GR : GoRange}.

(** *** Steps keep messages and chains *)

Lemma sess_of_insert ss k x k' : sess_of (<[k := x]> ss) k' = if decide (k' = k) then x else sess_of ss k'.
Proof. unfold sess_of. case_decide; [subst; by rewrite lookup_insert_eq|by rewrite lookup_insert_ne by congruence]. Qed.

Lemma msgs_sess h arr ss cs k x : MsgInv h arr ss cs → (∀ m, m ∈ queue x → msg_ok h m ∧ placed k m) → (∀ t, turn x = Some t → turn_ok h k t) →
  MsgInv h arr (<[k := x]> ss) cs.
Proof.
  intros [H1 H2 H3 H4] Hq Ht. split; [done| | |done].
  - intros k' m. rewrite sess_of_insert. case_decide; [subst; apply Hq|apply H2].
  - intros k' t. rewrite turn_of_insert. case_decide; [subst; apply Ht|apply H3].
Qed.

(** The turn of a session changes, its queue does not. *)
Lemma msgs_turn h s cs k ot : MsgInv h (arriving s) (sess s) cs → (∀ t, ot = Some t → turn_ok h k t) → MsgInv h (arriving s) (sess (put_turn k ot s)) cs.
Proof. intros Hi Ht. apply msgs_sess; [done| |done]. intros m Hm. by eapply (mi_queues _ _ _ _ Hi k). Qed.

Lemma msgs_moved h arr ss cs id c pc : MsgInv h arr ss cs → cs !! id = Some c → MsgInv h arr ss (moved cs id c pc).
Proof.
  intros [H1 H2 H3 H4] Hc. split; [done..|]. intros id' c'. destruct pc as [pc|]; cbn.
  - intros [[<- <-]|[_ H]]%lookup_insert_Some; [exact (H4 id c Hc)|by apply H4].
  - intros [_ H]%lookup_delete_Some. by apply H4.
Qed.

Lemma msgs_end h s cs k t : MsgInv h (arriving s) (sess s) cs → MsgInv h (arriving s) (sess (end_turn h k t s)) cs.
Proof. intros Hi. unfold end_turn. destruct (t_slot t); by apply (msgs_turn h s). Qed.

Lemma spawn_depth_range h m : (0 ≤ maxSubagentDepth h)%Z → (0 ≤ withInboundSpawnDepth 0 m (maxSubagentDepth h) ≤ maxSubagentDepth h)%Z.
Proof.
  intros Hm. unfold withInboundSpawnDepth. case_bool_decide; [lia|]. destruct (Atoi _) as [d|]; [|lia].
  destruct (Z.ltb_spec d 0); [lia|]. destruct (Z.leb_spec (Z.min d (maxSubagentDepth h)) 0); lia.
Qed.

Lemma plain_normal a : NormalizeAgentID a = a → plain_id a.
Proof. unfold plain_id. intros <-. apply NormalizeAgentID_valid_id. Qed.

Lemma chain_ok_add chain depth a : plain_id a → chain_ok chain depth → chain_ok (WithAskChainAgent chain a) (depth + 1) ∧
  (a ∉ chain → WithAskChainAgent chain a = chain ++ [a]).
Proof.
  intros Ha (H1 & H2 & H3 & H4). destruct (plain_id_facts a Ha) as (_ & Hne & _). unfold WithAskChainAgent. rewrite bool_decide_eq_false_2 by done. cbn. case_bool_decide as Hin.
  - split; [split_and!; [done|done|lia|lia]|done].
  - split; [|done]. split_and!; [by apply Forall_app; split; [|constructor]| |lia|rewrite length_app; cbn; lia].
    apply NoDup_app. split_and!; [done|set_solver|apply NoDup_singleton].
Qed.

(** What a turn works with. *)
Lemma working_ok h k a t : host_ok h → routable h (t_msg t) a = true → k = BuildAgentMainSessionKey a → turn_ok h k t → turn_ok h k (working_turn h t a).
Proof.
  intros [Hd Hreg] Hr Hk (Hm & Hp & _). split; [exact Hm|]. split; [exact Hp|]. intros a' [= <-]. cbn. apply andb_true_iff in Hr as [[t0 Ht0]%bool_decide_eq_true_1 Hr].
  destruct (Hreg a t0 Ht0) as [_ Hn]. pose proof (plain_normal a Hn) as Hpl. unfold msg_ok in Hm. destruct (is_ask (t_msg t)) eqn:Ha; cbn in Hr.
  - destruct Hm as (id & from & target & text & chain & depth & Hs & Hc & Hni & Hnt & Hlt & _). apply bool_decide_eq_true_1 in Hr.
    rewrite (metadata_same _ _ _ Hs), publishAsk_target in Hr. assert (a = target) as -> by congruence. pose proof Hc as (C1 & C2 & C3 & C4).
    assert (withInboundAskChain [] (t_msg t) = chain) as ->. { unfold withInboundAskChain. rewrite (metadata_same _ _ _ Hs). by apply ask_metadata_chain. }
    assert (withInboundSpawnDepth 0 (t_msg t) (maxSubagentDepth h) = depth + 1)%Z as ->.
    { unfold withInboundSpawnDepth. rewrite (metadata_same _ _ _ Hs). apply ask_metadata_depth; lia. }
    destruct (chain_ok_add chain depth target Hpl Hc) as [H1 H2]. split_and!; [done|done| |done|lia]. rewrite H2 by done. apply last_snoc.
  - assert (withInboundAskChain [] (t_msg t) = []) as -> by (unfold withInboundAskChain; by rewrite Hm).
    destruct (plain_id_facts a Hpl) as (_ & Hne & _). unfold WithAskChainAgent. rewrite bool_decide_eq_false_2 by done. rewrite bool_decide_eq_false_2 by apply not_elem_of_nil. cbn.
    pose proof (spawn_depth_range h (t_msg t) ltac:(lia)). split_and!; try done; try apply H. destruct H as [H _]. split_and!; [by repeat constructor|apply NoDup_singleton|done|change (length [a]) with 1; lia].
Qed.

(** The chain and the depth an ask is made with. *)
Lemma env_ok h s id o q rest now v : MsgInv h (arriving s) (sess s) (calls s) → label_ok (LAsk id o q rest now) → ask_env s o = Some v → chain_ok (v_chain v) (v_depth v).
Proof.
  intros Hi Hl. assert (Hw : ∀ k t, working s k = Some t → chain_ok (t_chain t) (t_depth t)).
  { intros k t. unfold working. destruct (turn_at s k) as [t0|] eqn:Ht; [|done]. destruct (t_pc t0), (t_agent t0) as [a|] eqn:Ha; try done. intros [= <-].
    destruct (mi_turns _ _ _ _ Hi k t0 Ht) as (_ & _ & H). by apply (H a Ha). }
  unfold ask_env. destruct o as [k|k|k cl|ch d]; [| | |by intros [= <-]]; (destruct (working s k) as [t|] eqn:Ht; [|done]); intros [= <-]; cbn; [by eapply Hw|by eapply Hw|].
  by apply chain_ok_add; [|eapply Hw].
Qed.

Lemma asked_target h x q t : host_ok h → askTarget h x q = inl t →
  NormalizeAgentID (t_ID t) = t_ID t ∧ t_ID t ∉ x_chain x ∧ (x_depth x < maxSubagentDepth h)%Z ∧ is_Some (agents h !! t_ID t).
Proof.
  intros [_ Hreg]. unfold askTarget. repeat (case_bool_decide; [done|]). destruct (Z.leb_spec (r_wait q) 0); [done|].
  destruct (agents h !! _) as [t0|] eqn:Ht; [|done]. destruct (running h); [|done]. cbn. destruct (Z.leb_spec (maxSubagentDepth h) (x_depth x)); [done|].
  case_bool_decide as Hin; [done|]. intros [= <-]. destruct (Hreg _ _ Ht) as [E1 E2]. rewrite E1. split_and!; [done| |done|by eexists]. congruence.
Qed.

Lemma msgs_turn_steps h l s s' : host_ok h → effect h s l s' → match l with LInbound _ | LArrive _ _ | LTake _ _ | LSlot _ | LNoSlot _ | LBegin _ _ | LOver _ _ | LCancel _ => True | _ => False end →
  MsgInv h (arriving s) (sess s) (calls s) → MsgInv h (arriving s') (sess s') (calls s').
Proof.
  intros Hh He Hl Hi. pose proof (mi_turns _ _ _ _ Hi) as Ht. pose proof (mi_queues _ _ _ _ Hi) as Hq.
  destruct He as [m Hm Hc|i a m m' k Hm Hs Ha Hn|k alone m rest Hk Hb|k t sl sl' u Hk Hp Hsl Hu|k t Hk Hp|k a t Hk Hp Hm Hw|k a t Hk Hp Hw Hr Ek|k t Hk Hp Hw|k o t Hk Hp Hw Ho|k| | | | | | | | | | | | | |]; try done.
  - split; try apply Hi. cbn. intros m' [Hin | ->%list_elem_of_singleton]%elem_of_app; [by eapply mi_arriving|]. unfold msg_ok. by rewrite Hm.
  - assert (Hok : msg_ok h m) by (eapply mi_arriving; [done|by eapply list_elem_of_lookup_2]). assert (Hi' : MsgInv h (delete i (arriving s)) (sess s) (calls s)).
    { split; try apply Hi. intros m0 Hm0. eapply mi_arriving; [exact Hi|]. by eapply (sublist_subseteq _ _ (sublist_delete _ i)). }
    apply (msgs_sess h _ _ _ k _ Hi'); [|apply Ht]. cbn. intros m0 [Hin | ->%list_elem_of_singleton]%elem_of_app; [by apply Hq|]. split; [by eapply msg_ok_same|].
    intros Hask. rewrite (is_ask_same _ _ Hs) in Hask. rewrite (metadata_same _ _ _ Hs). destruct a as [a|].
    + left. destruct (Ha a eq_refl) as [Hr ->]. apply andb_true_iff in Hr as [_ Hr]. rewrite Hask in Hr. apply bool_decide_eq_true_1 in Hr. subst a.
      unfold BuildAgentMainSessionKey. by rewrite NormalizeAgentID_idemp.
    + right. rewrite Hn by done. destruct Hs as (_ & -> & _). apply bool_decide_eq_true_1 in Hask. by rewrite Hask.
  - destruct (takeBatch_asks h (queue (sess_at s k)) alone m rest) as (batch & Hp & Hok & Hb2); [intros x Hx; by apply (Hq k)|done|].
    apply msgs_sess; [done| |]; cbn.
    + intros x Hx. apply Hq. change (x ∈ queue (sess_at s k)). rewrite Hp. set_solver.
    + intros t [= <-]. split; [done|]. split; [|done]. cbn. destruct Hb2 as [-> | [Hna _]]; [|intros Ha; congruence]. apply Hq. change (m ∈ queue (sess_at s k)). rewrite Hp. set_solver.
  - apply (msgs_turn h s); [done|]. intros t0 [= <-]. exact (Ht k t Hk).
  - by apply (msgs_turn h s).
  - destruct (ended_calls h k t s) as [-> _]. replace (arriving (end_turn h k t s)) with (arriving s) by (unfold end_turn; by destruct (t_slot t)). by apply msgs_end.
  - apply (msgs_turn h s); [done|]. intros t0 [= <-]. apply working_ok; try done. by apply Ht.
  - apply (msgs_turn h s); [done|]. intros t0 [= <-]. destruct (Ht k t Hk) as (H1 & H2 & H3). split; [done|]. split; [done|]. exact H3.
  - set (s1 := if is_ask (t_msg t) then _ else s). assert (but_asks s s1) as (E1 & _ & E2 & E3 & _) by (subst s1; destruct (is_ask _); [apply answer_but_asks|by split_and!]).
    destruct (ended_calls h k t s1) as [-> _]. replace (arriving (end_turn h k t s1)) with (arriving s1) by (unfold end_turn; by destruct (t_slot t)).
    apply msgs_end. by rewrite E1, E2, E3.
  - destruct (cancelled_but_asks (queue (sess_at s k)) (put_queue k [] s)) as (E1 & _ & E2 & E3 & _). rewrite E1, E2, E3. apply msgs_sess; [done| |apply Ht]. intros m Hm. by apply not_elem_of_nil in Hm.
Qed.

Lemma msgs_call_steps h l s s' : host_ok h → effect h s l s' → label_ok l →
  match l with LInbound _ | LArrive _ _ | LTake _ _ | LSlot _ | LNoSlot _ | LBegin _ _ | LOver _ _ | LCancel _ => False | _ => True end →
  MsgInv h (arriving s) (sess s) (calls s) → MsgInv h (arriving s') (sess s') (calls s').
Proof.
  intros Hh He Hl Hlab Hi. destruct He; try done.
  - assert (env : chain_ok (v_chain v) (v_depth v)) by (eapply env_ok; [exact Hi|exact Hl|done]). apply (asked_target h _ _ _ Hh) in H0 as (T1 & T2 & T3 & T4). cbn in T2, T3.
    split; try apply Hi. intros id' c'; cbn; intros [[<- <-]|[_ H']]%lookup_insert_Some; [|by apply Hi]. unfold call_ok. cbn [c_msg c_target]. split_and!; [done|done|apply publishAsk_target|].
    unfold msg_ok. change (is_ask _) with true. cbn iota. exists id, (r_from q), (t_ID t), (r_message q), (v_chain v), (v_depth v). by split_and!; try apply env.
  - assert (Hok : call_ok h id c) by by eapply mi_calls.
    assert (Hi' : MsgInv h (arriving s ++ [c_msg c]) (sess s) (calls s)).
    { split; try apply Hi. intros m [Hin | ->%list_elem_of_singleton]%elem_of_app; [by eapply mi_arriving|apply Hok]. }
    by apply (msgs_moved _ _ _ _ id c (Some Published) Hi').
  - by apply (msgs_moved _ _ _ _ id c None).
  - by apply (msgs_moved _ _ _ _ id c (Some Waiting)).
  - apply (msgs_moved _ _ _ _ id c (Some Waiting)); [|done]. apply own_slot_Some in H1 as (_ & _ & Ht & _). apply (msgs_turn h s); [done|]. intros t0 [= <-]. exact (mi_turns _ _ _ _ Hi k t Ht).
  - by apply (msgs_moved _ _ _ _ id c (Some (Ended (Some reply)))).
  - by apply (msgs_moved _ _ _ _ id c (Some (Ended reply))).
  - by apply (msgs_moved _ _ _ _ id c None).
  - apply (msgs_moved _ _ _ _ id c None); [|done]. apply own_slot_Some in H1 as (_ & _ & Ht & _). apply (msgs_turn h s); [done|]. intros t0 [= <-]. exact (mi_turns _ _ _ _ Hi k t Ht).
  - apply (msgs_moved _ _ _ _ id c (Some (Acquiring r))); [|done]. apply own_slot_Some in H1 as (_ & _ & Ht & _). apply (msgs_turn h s); [done|]. intros t0 [= <-]. exact (mi_turns _ _ _ _ Hi k t Ht).
  - apply (msgs_moved _ _ _ _ id c None); [|done]. apply own_slot_Some in H1 as (_ & _ & Ht & _). apply (msgs_turn h s); [done|]. intros t0 [= <-]. exact (mi_turns _ _ _ _ Hi k t Ht).
  - by apply (msgs_moved _ _ _ _ id c None).
Qed.

Lemma step_msgs h l s s' : host_ok h → effect h s l s' → label_ok l → MsgInv h (arriving s) (sess s) (calls s) → MsgInv h (arriving s') (sess s') (calls s').
Proof. intros Hh He Hl Hi. destruct l; (by eapply msgs_turn_steps) || (by eapply msgs_call_steps). Qed.

(** ** Asks in their places *)

(** The ask a message is, and the agent asked. *)
Definition tag (m : InboundMessage) : list (string * string) :=
  if is_ask m then [(ChatID m, inboundMetadata m metadataKeyPreresolvedAgentID)] else [].

Definition sess_tags (x : Sess) : list (string * string) := (queue x ≫= tag) ++ match turn x with Some t => tag (t_msg t) | None => [] end.

(** The asks published and not dealt with. *)
Definition tags (s : State) : list (string * string) := (arriving s ≫= tag) ++ flat sess_tags (sess s).

(** What is known of the reply to a call's ask. *)
Definition call_reply (id : string) (c : Call) (r : askRegistry) (gv : gmap string AgentReply) : Prop :=
  match c_pc c with
  | Opened => is_Some (waiting r !! id) ∧ replies r !! id = Some None ∧ gv !! id = None
  | Published | Waiting => (is_Some (waiting r !! id) ∧ replies r !! id = Some None ∧ gv !! id = None) ∨
      (waiting r !! id = None ∧ ∃ x, replies r !! id = Some (Some x) ∧ gv !! id = Some x)
  | Ended x | Acquiring x => waiting r !! id = None ∧ gv !! id = x
  end.

(** An ask that is not closed is where its call says, once; the reply given is in the
    buffer until the asker takes it, and is what the ask returns. *)
Record PlaceInv (L : list (string * string)) (cs : gmap string Call) (r : askRegistry) (gv : gmap string AgentReply) (gt : list (string * option AgentReply)) : Prop := {
  w_nodup : NoDup L.*1;
  w_known : ∀ id b, (id, b) ∈ L → is_Some (replies r !! id) ∧ ∀ c, cs !! id = Some c → c_target c = b ∧ c_pc c ≠ Opened;
  w_found : ∀ id, is_Some (waiting r !! id) → ∃ c, cs !! id = Some c ∧ match c_pc c with Opened => True | Published | Waiting => (id, c_target c) ∈ L | _ => False end;
  w_calls : ∀ id c, cs !! id = Some c → is_Some (replies r !! id) ∧ call_reply id c r gv;
  w_got : NoDup gt.*1 ∧ ∀ id x, (id, x) ∈ gt → is_Some (replies r !! id) ∧ cs !! id = None ∧ gv !! id = x;
  w_gone : ∀ id, id ∈ gone r → waiting r !! id = None ∧ is_Some (replies r !! id);
  w_given : ∀ id x, gv !! id = Some x → is_Some (replies r !! id)
}.

Local Notation Place s L := (PlaceInv L (calls s) (asks s) (given s) (got s)).

Lemma place_perm L L' cs r gv gt : L ≡ₚ L' → PlaceInv L cs r gv gt → PlaceInv L' cs r gv gt.
Proof.
  intros Hp [H1 H2 H3 H4 H5 H6 H7]. split; try done.
  - by rewrite <- Hp.
  - intros id b. rewrite <- Hp. apply H2.
  - intros id Hw. destruct (H3 id Hw) as (c & Hc & Hm). exists c. split; [done|]. destruct (c_pc c); try done; by rewrite <- Hp.
Qed.

(** An ask nobody waits for is dropped. *)
Lemma place_drop L cs r gv gt id b : waiting r !! id = None → PlaceInv ((id, b) :: L) cs r gv gt → PlaceInv L cs r gv gt.
Proof.
  intros Hw [H1 H2 H3 H4 H5 H6 H7]. split; try done.
  - by apply NoDup_cons in H1 as [_ H1].
  - intros id' b' Hin. apply H2. by right.
  - intros id' Hw'. destruct (H3 id' Hw') as (c & Hc & Hm). exists c. split; [done|]. destruct (c_pc c); try done; apply elem_of_cons in Hm as [[= -> _]|Hm]; try done; rewrite Hw in Hw'; by destruct Hw'.
Qed.

Lemma deliver_waiting id x s : is_Some (waiting (asks s) !! id) →
  deliver_reply id x s = set_given (<[id := x]> (given s)) (set_asks {| waiting := delete id (waiting (asks s)); replies := <[id := Some x]> (replies (asks s)); gone := {[id]} ∪ gone (asks s) |} s).
Proof. intros [p Hp]. unfold deliver_reply, deliver, takeLocked. by rewrite Hp. Qed.

Lemma deliver_nobody id x s : waiting (asks s) !! id = None → deliver_reply id x s = s.
Proof. intros Hp. unfold deliver_reply, deliver, takeLocked. by rewrite Hp. Qed.

Lemma is_Some_insert {A} (m : gmap string A) i j x : is_Some (m !! j) → is_Some (<[i := x]> m !! j).
Proof. intros H. rewrite lookup_insert_is_Some. destruct (decide (i = j)); auto. Qed.

Lemma place_deliver s L id b x : Place s ((id, b) :: L) → Place (deliver_reply id x s) L.
Proof.
  intros Hi. destruct (waiting (asks s) !! id) as [p|] eqn:Hp; [|rewrite deliver_nobody by done; by eapply place_drop].
  rewrite deliver_waiting by done. destruct Hi as [H1 H2 H3 H4 H5 H6 H7]. destruct (H3 id ltac:(by eexists)) as (c & Hc & Hm). destruct (H4 id c Hc) as [_ Hr].
  destruct (H2 id b ltac:(by left)) as [Hrep Hc2]. destruct (Hc2 c Hc) as [_ Hop]. assert (Hgv : given s !! id = None).
  { unfold call_reply in Hr. destruct (c_pc c); try done; destruct Hr as [(_ & _ & ?)|(? & _)]; congruence. }
  apply NoDup_cons in H1 as [Hni H1]. split; cbn.
  - done.
  - intros id' b' Hin. destruct (H2 id' b' ltac:(by right)) as [E1 E2]. split; [by apply is_Some_insert|done].
  - intros id' [p' [Hne Hp']%lookup_delete_Some]. destruct (H3 id' ltac:(by eexists)) as (c' & Hc' & Hm'). exists c'. split; [done|].
    destruct (c_pc c'); try done; apply elem_of_cons in Hm' as [[= ? _]|?]; done.
  - intros id' c' Hc'. destruct (H4 id' c' Hc') as [E1 E2]. split; [by apply is_Some_insert|]. unfold call_reply in *. cbn. destruct (decide (id = id')) as [<-|Hne].
    + assert (c' = c) as -> by congruence. rewrite lookup_delete_eq, !lookup_insert_eq. destruct (c_pc c); try done; right; eauto.
    + by rewrite lookup_delete_ne, !lookup_insert_ne by done.
  - destruct H5 as [E1 E2]. split; [done|]. intros id' x' Hin. destruct (E2 id' x' Hin) as (F1 & F2 & F3). split_and!; [by apply is_Some_insert|done|].
    rewrite lookup_insert_ne; [done|]. intros ->. congruence.
  - intros id' [->%elem_of_singleton|Hin]%elem_of_union; [split; [apply lookup_delete_eq|rewrite lookup_insert_eq; by eexists]|].
    destruct (H6 id' Hin) as [E1 E2]. split; [by rewrite lookup_delete_None; right|by apply is_Some_insert].
  - intros id' x' [[<- _]|[_ Hx]]%lookup_insert_Some; [rewrite lookup_insert_eq; by eexists|by eapply is_Some_insert, H7].
Qed.

(** The asks of a queue that is dropped. *)
Lemma place_cancelled ms s L : (∀ m, m ∈ ms → is_ask m = true → ReplyRequired m = true) → Place s ((ms ≫= tag) ++ L) → Place (cancelled_asks ms s) L.
Proof.
  revert s. induction ms as [|m ms IH]; intros s Hr Hi; [done|]. unfold cancelled_asks. cbn [foldl]. apply IH; [intros m' Hm'; apply Hr; by right|].
  assert ((m :: ms) ≫= tag = tag m ++ (ms ≫= tag)) as E by done. rewrite E in Hi. clear E. unfold tag at 1 in Hi.
  pose proof (Hr m ltac:(by left)) as Hm. destruct (is_ask m); [rewrite Hm by done; cbn [andb]; eapply place_deliver; exact Hi|]. by rewrite andb_false_r.
Qed.

(** *** Calls that move *)

(** A call moves with its ask as it was. *)
Lemma place_moved L cs r gv gt id c pc : cs !! id = Some c → match c_pc c, pc with
  | Published, Waiting => True | Ended x, Acquiring y => x = y | _, _ => False end →
  PlaceInv L cs r gv gt → PlaceInv L (<[id := set_cpc pc c]> cs) r gv gt.
Proof.
  intros Hc Hm [H1 H2 H3 H4 H5 H6 H7]. split; try done.
  - intros id' b Hin. destruct (H2 id' b Hin) as [E1 E2]. split; [done|]. intros c' [[<- <-]|[_ Hc']]%lookup_insert_Some; [|by apply E2].
    destruct (E2 c Hc). split; [done|]. cbn. by destruct (c_pc c), pc.
  - intros id' Hw. destruct (H3 id' Hw) as (c' & Hc' & Hp). destruct (decide (id = id')) as [<-|Hne].
    + assert (c' = c) as -> by congruence. exists (set_cpc pc c). rewrite lookup_insert_eq. split; [done|]. cbn. by destruct (c_pc c), pc.
    + exists c'. by rewrite lookup_insert_ne.
  - intros id' c' [[<- <-]|[_ Hc']]%lookup_insert_Some; [|by apply H4]. destruct (H4 id c Hc) as [E1 E2]. split; [done|]. unfold call_reply in *. cbn.
    destruct (c_pc c), pc; try done. by subst.
  - destruct H5 as [E1 E2]. split; [done|]. intros id' x Hin. destruct (E2 id' x Hin) as (F1 & F2 & F3). split_and!; [done| |done].
    rewrite lookup_insert_ne; [done|]. intros ->. congruence.
Qed.

(** A call returns. *)
Lemma place_return L cs r gv gt id c x : cs !! id = Some c → (c_pc c = Ended x ∨ c_pc c = Acquiring x) →
  PlaceInv L cs r gv gt → PlaceInv L (delete id cs) r gv (gt ++ [(id, x)]).
Proof.
  intros Hc Hp [H1 H2 H3 H4 H5 H6 H7]. destruct (H4 id c Hc) as [Hr Hcr]. assert (waiting r !! id = None ∧ gv !! id = x) as [Hw Hg] by (unfold call_reply in Hcr; destruct Hp as [Hp|Hp]; by rewrite Hp in Hcr).
  split; try done.
  - intros id' b Hin. destruct (H2 id' b Hin) as [E1 E2]. split; [done|]. intros c' [_ Hc']%lookup_delete_Some. by apply E2.
  - intros id' Hw'. destruct (H3 id' Hw') as (c' & Hc' & Hm). exists c'. split; [|done]. apply lookup_delete_Some. split; [|done]. intros <-. rewrite Hw in Hw'. by destruct Hw'.
  - intros id' c' [_ Hc']%lookup_delete_Some. by apply H4.
  - destruct H5 as [E1 E2]. split.
    + rewrite fmap_app, NoDup_app. split_and!; [done| |apply NoDup_singleton]. intros id' Hin. cbn. rewrite list_elem_of_singleton. intros ->.
      apply list_elem_of_fmap in Hin as ([id' x'] & -> & Hin). destruct (E2 _ _ Hin) as (_ & ? & _). cbn in *. congruence.
    + intros id' x' [Hin|[= -> ->]%list_elem_of_singleton]%elem_of_app; [|split_and!; [done|apply lookup_delete_eq|done]].
      destruct (E2 id' x' Hin) as (F1 & F2 & F3). split_and!; [done| |done]. rewrite lookup_delete_None. by right.
Qed.

Lemma place_open L cs r gv gt id c p : replies r !! id = None → c_pc c = Opened → PlaceInv L cs r gv gt → PlaceInv L (<[id := c]> cs) (open_ask id p r) gv gt.
Proof.
  intros Hf Hp [H1 H2 H3 H4 H5 H6 H7]. assert (Hne : ∀ id', is_Some (replies r !! id') → id ≠ id') by (intros id' [? Hs] ->; congruence).
  assert (Hk : ∀ id', is_Some (replies r !! id') → is_Some (<[id := None]> (replies r) !! id')) by (intros id'; apply is_Some_insert).
  split; cbn; try done.
  - intros id' b Hin. destruct (H2 id' b Hin) as [E1 E2]. split; [auto|]. rewrite lookup_insert_ne by auto. done.
  - intros id' Hw. destruct (decide (id = id')) as [<-|Hn]; [exists c; rewrite lookup_insert_eq, Hp; done|]. rewrite lookup_insert_ne in Hw by done.
    destruct (H3 id' Hw) as (c' & Hc' & Hm). exists c'. by rewrite lookup_insert_ne.
  - intros id' c' [[<- <-]|[Hn Hc']]%lookup_insert_Some.
    + rewrite lookup_insert_eq. split; [by eexists|]. unfold call_reply. rewrite Hp. cbn. rewrite !lookup_insert_eq. split_and!; [by eexists|done|].
      destruct (gv !! id) eqn:E; [|done]. apply H7 in E as [? E]. congruence.
    + destruct (H4 id' c' Hc') as [E1 E2]. split; [auto|]. unfold call_reply in *. cbn. by rewrite !lookup_insert_ne by done.
  - destruct H5 as [E1 E2]. split; [done|]. intros id' x Hin. destruct (E2 id' x Hin) as (F1 & F2 & F3). split_and!; [auto| |done]. by rewrite lookup_insert_ne by auto.
  - intros id' Hin. destruct (H6 id' Hin) as [E1 E2]. split; [|auto]. by rewrite lookup_insert_ne by auto.
  - intros id' x Hx. apply Hk. by eapply H7.
Qed.

Lemma place_publish L cs r gv gt id c : cs !! id = Some c → c_pc c = Opened → PlaceInv L cs r gv gt → PlaceInv ((id, c_target c) :: L) (<[id := set_cpc Published c]> cs) r gv gt.
Proof.
  intros Hc Hp [H1 H2 H3 H4 H5 H6 H7]. assert (Hni : id ∉ L.*1).
  { intros ([id' b] & -> & Hin)%list_elem_of_fmap. destruct (H2 id' b Hin) as [_ E]. by destruct (E c Hc). }
  split; try done.
  - by apply NoDup_cons.
  - intros id' b [[= -> ->]|Hin]%elem_of_cons.
    + split; [by eapply H4|]. intros c'. rewrite lookup_insert_eq. by intros [= <-].
    + destruct (H2 id' b Hin) as [E1 E2]. split; [done|]. intros c' [[<- <-]|[_ Hc']]%lookup_insert_Some; [by destruct (E2 c Hc)|by apply E2].
  - intros id' Hw. destruct (H3 id' Hw) as (c' & Hc' & Hm). destruct (decide (id = id')) as [<-|Hn].
    + exists (set_cpc Published c). rewrite lookup_insert_eq. split; [done|]. by left.
    + exists c'. rewrite lookup_insert_ne by done. split; [done|]. destruct (c_pc c'); try done; by right.
  - intros id' c' [[<- <-]|[_ Hc']]%lookup_insert_Some; [|by apply H4]. destruct (H4 id c Hc) as [E1 E2]. split; [done|]. unfold call_reply in *. rewrite Hp in E2. by left.
  - destruct H5 as [E1 E2]. split; [done|]. intros id' x Hin. destruct (E2 id' x Hin) as (F1 & F2 & F3). split_and!; [done| |done].
    rewrite lookup_insert_ne; [done|]. intros ->. congruence.
Qed.

(** Nobody waits for an ask any more. *)
Lemma place_close L cs r gv gt id c x : cs !! id = Some c → (c_pc c = Opened ∨ c_pc c = Published ∨ c_pc c = Waiting) → gv !! id = x →
  PlaceInv L cs r gv gt → PlaceInv L (<[id := set_cpc (Ended x) c]> cs) (close_ask id r) gv gt.
Proof.
  intros Hc Hp Hx [H1 H2 H3 H4 H5 H6 H7].
  assert (Hr : replies (close_ask id r) = replies r ∧ waiting (close_ask id r) = delete id (waiting r) ∧ gone (close_ask id r) ⊆ {[id]} ∪ gone r).
  { unfold close_ask, takeLocked. destruct (waiting r !! id) eqn:Hw; cbn; [by split_and!|]. split_and!; [done|by rewrite delete_id|set_solver]. }
  destruct Hr as (Er & Ew & Eg). split; rewrite ?Er, ?Ew; try done.
  - intros id' b Hin. destruct (H2 id' b Hin) as [E1 E2]. split; [done|]. intros c' [[<- <-]|[_ Hc']]%lookup_insert_Some; [|by apply E2]. by destruct (E2 c Hc).
  - intros id' [p [Hne Hw]%lookup_delete_Some]. destruct (H3 id' ltac:(by eexists)) as (c' & Hc' & Hm). exists c'. by rewrite lookup_insert_ne.
  - intros id' c' [[<- <-]|[Hne Hc']]%lookup_insert_Some; destruct (H4 _ _ ltac:(done)) as [E1 E2]; (split; [done|]); unfold call_reply in *; cbn; rewrite ?Ew, ?Er.
    + by rewrite lookup_delete_eq.
    + by rewrite lookup_delete_ne.
  - destruct H5 as [E1 E2]. split; [done|]. intros id' x' Hin. destruct (E2 id' x' Hin) as (F1 & F2 & F3). split_and!; [done| |done].
    rewrite lookup_insert_ne; [done|]. intros ->. congruence.
  - intros id' Hin. apply Eg in Hin as [->%elem_of_singleton|Hin]%elem_of_union; [split; [apply lookup_delete_eq|by eapply H4]|].
    destruct (H6 id' Hin). split; [|done]. rewrite lookup_delete_None. by right.
Qed.

(** The reply is taken from the buffer. *)
Lemma place_receive L cs r gv gt id : (∀ c, cs !! id = Some c → ∃ x, c_pc c = Ended x) → waiting r !! id = None → PlaceInv L cs r gv gt →
  PlaceInv L cs {| waiting := waiting r; replies := <[id := None]> (replies r); gone := gone r |} gv gt.
Proof.
  intros Hc Hw [H1 H2 H3 H4 H5 H6 H7]. assert (Hk : ∀ id', is_Some (replies r !! id') → is_Some (<[id := None]> (replies r) !! id')) by (intros id'; apply is_Some_insert).
  split; cbn; try done.
  - intros id' b Hin. destruct (H2 id' b Hin). auto.
  - intros id' c' Hc'. destruct (H4 id' c' Hc') as [E1 E2]. split; [auto|]. unfold call_reply in *. cbn. destruct (decide (id = id')) as [<-|Hne]; [|by rewrite lookup_insert_ne].
    destruct (Hc c' Hc') as [x Hx]. by rewrite Hx in *.
  - destruct H5 as [E1 E2]. split; [done|]. intros id' x Hin. destruct (E2 id' x Hin) as (F1 & F2 & F3). auto.
  - intros id' Hin. destruct (H6 id' Hin). auto.
  - intros id' x Hx. apply Hk. by eapply H7.
Qed.

Lemma close_idle id r : waiting r !! id = None → close_ask id r = r.
Proof. unfold close_ask, takeLocked. by intros ->. Qed.

Lemma place_answered L cs r r' gv gt id c x : cs !! id = Some c → c_pc c = Waiting → receive id r = Some (x, r') → PlaceInv L cs r gv gt →
  PlaceInv L (<[id := set_cpc (Ended (Some x)) c]> cs) r' gv gt.
Proof.
  intros Hc Hp Hr Hi. unfold receive in Hr. destruct (replies r !! id) as [[x'|]|] eqn:Hrep; try done. injection Hr as -> <-.
  destruct (w_calls _ _ _ _ _ Hi id c Hc) as [_ Hcr]. unfold call_reply in Hcr. rewrite Hp in Hcr. destruct Hcr as [(_ & ? & _)|(Hw & x2 & E1 & E2)]; [congruence|].
  apply place_receive; [intros c'; rewrite lookup_insert_eq; intros [= <-]; by eexists|done|]. rewrite <- (close_idle id r) by done. eapply place_close; [done|by right; right|congruence|done].
Qed.

Lemma place_gives_up L cs r r' gv gt id c x : cs !! id = Some c → c_pc c = Waiting → giveUp id r = (r', x) → PlaceInv L cs r gv gt →
  PlaceInv L (<[id := set_cpc (Ended x) c]> cs) r' gv gt.
Proof.
  intros Hc Hp Hg Hi. destruct (w_calls _ _ _ _ _ Hi id c Hc) as [_ Hcr]. unfold call_reply in Hcr. rewrite Hp in Hcr. unfold giveUp in Hg.
  destruct Hcr as [(Hw & Hrep & Hgv)|(Hw & y & Hrep & Hgv)].
  - assert (receive id (close_ask id r) = None) as Hn. { unfold receive, close_ask, takeLocked. destruct Hw as [p ->]. cbn. by rewrite Hrep. }
    rewrite Hn in Hg. injection Hg as <- <-. eapply place_close; [done|by right; right|done|done].
  - rewrite close_idle in Hg by done. unfold receive in Hg. rewrite Hrep in Hg. injection Hg as <- <-. eapply place_answered; [done|done| |done]. unfold receive. by rewrite Hrep.
Qed.

(** *** Where a step puts an ask *)

Definition elsewhere (s : State) (k : string) : list (string * string) := (arriving s ≫= tag) ++ flat sess_tags (delete k (sess s)).

Lemma tags_at s k : tags s ≡ₚ sess_tags (sess_at s k) ++ elsewhere s k.
Proof.
  unfold tags, elsewhere, sess_at. destruct (sess s !! k) as [x|] eqn:Hk; cbn [default].
  - rewrite (flat_delete _ _ _ _ Hk). solve_Permutation.
  - rewrite delete_id by done. done.
Qed.

Lemma tags_put arr ss k x : (arr ≫= tag) ++ flat sess_tags (<[k := x]> ss) ≡ₚ sess_tags x ++ (arr ≫= tag) ++ flat sess_tags (delete k ss).
Proof. rewrite flat_insert. solve_Permutation. Qed.

(** The turn of [k] becomes one with as many asks. *)
Lemma tags_turn s k ot : tags (put_turn k ot s) ≡ₚ (queue (sess_at s k) ≫= tag) ++ match ot with Some t => tag (t_msg t) | None => [] end ++ elsewhere s k.
Proof. unfold tags. cbn. rewrite tags_put. unfold sess_tags. cbn. by rewrite <- app_assoc. Qed.

Lemma tags_turn_same s k t t' : turn_at s k = Some t → t_msg t' = t_msg t → tags (put_turn k (Some t') s) ≡ₚ tags s.
Proof. intros Ht Em. rewrite tags_turn, (tags_at s k). unfold sess_tags. change (turn (sess_at s k)) with (turn_at s k). rewrite Ht, Em. by rewrite <- app_assoc. Qed.

Lemma tags_turn_over s k t : turn_at s k = Some t → tags s ≡ₚ tag (t_msg t) ++ tags (put_turn k None s).
Proof. intros Ht. rewrite tags_turn, (tags_at s k). unfold sess_tags. change (turn (sess_at s k)) with (turn_at s k). rewrite Ht. solve_Permutation. Qed.

(** The turn of an ask somebody waits for hands over a reply, whatever it ended with. *)
Lemma answer_delivers m o s : is_ask m = true → ReplyRequired m = true → outcome_ok m o s = true →
  (∃ x, answer m o s = deliver_reply (ChatID m) x s) ∨ (waiting (asks s) !! ChatID m = None ∧ answer m o s = s).
Proof.
  intros Ha Hr Ho. unfold answer. destruct (decideTurnReply (turn_end m o)) as [[act text] outcome] eqn:Hd.
  destruct (isWaiting (ChatID m) (asks s)) eqn:Hw.
  - left. unfold outcome_ok in Ho. rewrite Ha, Hw in Ho. cbn in Ho. apply negb_true_iff, orb_false_iff in Ho as [O1 O2].
    unfold decideTurnReply, turn_end in Hd. cbn in Hd. rewrite Hr, O1, O2, !andb_false_r in Hd. cbn in Hd.
    destruct act; eauto; repeat (case_if_in Hd; try done).
  - unfold isWaiting in Hw. apply bool_decide_eq_false_1, eq_None_not_Some in Hw. destruct act; eauto.
Qed.

Lemma place_answer m o s b L : is_ask m = true → ReplyRequired m = true → outcome_ok m o s = true → Place s ((ChatID m, b) :: L) → Place (answer m o s) L.
Proof.
  intros Ha Hr Ho Hi. destruct (answer_delivers m o s Ha Hr Ho) as [[x ->]|[Hw ->]]; [by eapply place_deliver|by eapply place_drop].
Qed.

Lemma ended_place h k t s : tags (end_turn h k t s) = tags (put_turn k None s) ∧ asks (end_turn h k t s) = asks s ∧ given (end_turn h k t s) = given s ∧ got (end_turn h k t s) = got s.
Proof. unfold end_turn. by destruct (t_slot t). Qed.

Lemma place_end h k t s : Place s (tags (put_turn k None s)) → Place (end_turn h k t s) (tags (end_turn h k t s)).
Proof. destruct (ended_place h k t s) as (-> & -> & -> & ->). by destruct (ended_calls h k t s) as [-> _]. Qed.

Lemma tags_same s s' : arriving s' = arriving s → sess s' = sess s → tags s' = tags s.
Proof. unfold tags. by intros -> ->. Qed.

Lemma tag_same m m' : same_message m m' → tag m' = tag m.
Proof. intros Hs. unfold tag. rewrite (is_ask_same _ _ Hs), (metadata_same _ _ _ Hs). by destruct Hs as (_ & -> & _). Qed.

Lemma no_tags ms : (∀ m, m ∈ ms → is_ask m = false) → ms ≫= tag = [].
Proof. induction ms as [|m ms IH]; intros Hm; [done|]. cbn. unfold tag at 1. rewrite Hm by (by left). cbn. apply IH. intros m' ?. apply Hm. by right. Qed.

Lemma tags_take h k alone m rest s : MsgInv h (arriving s) (sess s) (calls s) → turn_at s k = None → takeBatch (queue (sess_at s k)) alone = Some (m, rest) →
  tags (on_sess (<[k := {| queue := rest; turn := Some (new_turn m) |}]>) s) ≡ₚ tags s.
Proof.
  intros Hi Ht Hb. destruct (takeBatch_asks h _ _ _ _ (λ x Hx, proj1 (mi_queues _ _ _ _ Hi k x Hx)) Hb) as (batch & Hp & _ & Hm).
  rewrite (tags_at s k). unfold tags. cbn. rewrite tags_put. unfold sess_tags. cbn. change (turn (sess_at s k)) with (turn_at s k). rewrite Ht, Hp.
  unfold elsewhere. destruct Hm as [-> | [Hn Hall]].
  - cbn. solve_Permutation.
  - rewrite (bind_app tag batch rest), (no_tags batch Hall). assert (tag m = []) as -> by (unfold tag; by rewrite Hn). cbn. by rewrite !app_nil_r.
Qed.

Lemma place_turn_steps h l s s' : effect h s l s' → match l with LInbound _ | LArrive _ _ | LTake _ _ | LSlot _ | LNoSlot _ | LBegin _ _ | LOver _ _ | LCancel _ => True | _ => False end →
  TurnInv (maxConcurrentTurns h) (sess s) (calls s) (used s) → MsgInv h (arriving s) (sess s) (calls s) → Place s (tags s) → Place s' (tags s').
Proof.
  intros He Hl Hti Hmi Hi.
  destruct He as [m Hm Hc|i a m m' k Hm Hs Ha Hn|k alone m rest Hk Hb|k t sl sl' u Hk Hp Hsl Hu|k t Hk Hp|k a t Hk Hp Hm Hw|k a t Hk Hp Hw Hr Ek|k t Hk Hp Hw|k o t Hk Hp Hw Ho|k| | | | | | | | | | | | | |]; try done.
  - eapply place_perm; [|exact Hi]. unfold tags. cbn. rewrite bind_app. cbn. assert (tag m = []) as -> by (unfold tag; by rewrite Hm). by rewrite !app_nil_r.
  - eapply place_perm; [|exact Hi]. rewrite (tags_at s k). unfold tags, elsewhere, put_queue. cbn. rewrite tags_put. unfold sess_tags. cbn. change (turn (sess_at s k)) with (turn_at s k).
    rewrite (delete_Permutation _ _ _ Hm) at 1. cbn. rewrite bind_app. cbn. rewrite (tag_same _ _ Hs). change (turn_at (set_arriving _ s) k) with (turn_at s k). solve_Permutation.
  - eapply place_perm; [|exact Hi]. symmetry. by eapply tags_take.
  - eapply place_perm; [|exact Hi]. symmetry. by apply (tags_turn_same (set_used u s) k t).
  - eapply place_perm; [|exact Hi]. rewrite (tags_turn_over s k t Hk). unfold tag at 1. pose proof (ti_turns _ _ _ _ Hti k t Hk) as Hf. unfold turn_fits in Hf.
    destruct (t_slot t); [by destruct Hf as [-> _]|by destruct Hf].
  - apply place_end. apply (place_perm _ _ _ _ _ _ (tags_turn_over s k t Hk)) in Hi. unfold tag at 1 in Hi. rewrite Hm in Hi. eapply place_drop; [|exact Hi].
    unfold isWaiting in Hw. by apply bool_decide_eq_false_1, eq_None_not_Some in Hw.
  - eapply place_perm; [|exact Hi]. symmetry. by apply (tags_turn_same s k t).
  - eapply place_perm; [|exact Hi]. symmetry. by apply (tags_turn_same s k t).
  - apply place_end. apply (place_perm _ _ _ _ _ _ (tags_turn_over s k t Hk)) in Hi. unfold tag at 1 in Hi. destruct (mi_turns _ _ _ _ Hmi k t Hk) as (Hok & _).
    destruct (is_ask (t_msg t)) eqn:Ha; [|exact Hi]. destruct (answer_but_asks (t_msg t) o s) as (_ & _ & E1 & E2 & _).
    rewrite (tags_same (put_turn k None s)); [|done|cbn; unfold sess_at; by rewrite E1]. eapply place_answer; [done|by eapply msg_ok_ask|done|exact Hi].
  - destruct (cancelled_but_asks (queue (sess_at s k)) (put_queue k [] s)) as (_ & _ & E1 & E2 & _). rewrite (tags_same (put_queue k [] s)) by done. apply place_cancelled.
    + intros m Hm Ha. eapply msg_ok_ask; [exact Ha|]. by eapply mi_queues.
    + eapply place_perm; [|exact Hi]. rewrite (tags_at s k). unfold tags, put_queue, elsewhere. cbn. rewrite tags_put. unfold sess_tags. cbn. change (turn (sess_at s k)) with (turn_at s k). solve_Permutation.
Qed.

Lemma place_call_steps h l s s' : effect h s l s' →
  match l with LInbound _ | LArrive _ _ | LTake _ _ | LSlot _ | LNoSlot _ | LBegin _ _ | LOver _ _ | LCancel _ => False | _ => True end →
  MsgInv h (arriving s) (sess s) (calls s) → Place s (tags s) → Place s' (tags s').
Proof.
  intros He Hl Hmi Hi. assert (Hown : ∀ c k t sl sl' u, own_slot s c = Some (k, t, sl) → tags s ≡ₚ tags (put_turn k (Some (set_slot sl' t)) (set_used u s))).
  { intros c k t sl sl' u (_ & _ & Ht & _)%own_slot_Some. symmetry. by apply (tags_turn_same (set_used u s) k t). }
  destruct He; try done.
  - by apply (place_open (tags s)).
  - destruct (mi_calls _ _ _ _ Hmi id c H) as (M1 & M2 & M3 & _). eapply place_perm; [|eapply (place_publish (tags s)); [exact H|done|exact Hi]].
    unfold tags. cbn. rewrite bind_app. cbn. unfold tag at 3. rewrite M1, M2, M3. solve_Permutation.
  - assert (given s !! id = None) as Hg by (destruct (w_calls _ _ _ _ _ Hi id c H) as [_ Hr]; unfold call_reply in Hr; rewrite H0 in Hr; naive_solver).
    pose proof (place_close (tags s) _ _ _ _ id c None H (or_introl H0) Hg Hi) as Hc. apply (place_return _ _ _ _ _ id (set_cpc (Ended None) c) None) in Hc; [|apply lookup_insert_eq|by left].
    by rewrite delete_insert_eq in Hc.
  - apply (place_moved (tags s)); [done|by rewrite H0|done].
  - eapply place_perm; [by eapply (Hown c k t sl)|]. apply (place_moved (tags s)); [done|by rewrite H0|done].
  - by eapply (place_answered (tags s)).
  - by eapply (place_gives_up (tags s)).
  - apply (place_return (tags s) _ _ _ _ id c r); [done|by left|done].
  - eapply place_perm; [by eapply (Hown c k t sl _ (used s))|]. apply (place_return (tags s) _ _ _ _ id c r); [done|by left|done].
  - eapply place_perm; [by eapply (Hown c k t sl _ (used s))|]. apply (place_moved (tags s)); [done|by rewrite H0|done].
  - eapply place_perm; [by eapply (Hown c k t sl)|]. apply (place_return (tags s) _ _ _ _ id c r); [done|by right|done].
  - apply (place_return (tags s) _ _ _ _ id c r); [done|by right|done].
Qed.

(** ** Every run *)

Record Sound (h : Host) (s : State) : Prop := {
  snd_graph : GraphInv s;
  snd_slots : TurnInv (maxConcurrentTurns h) (sess s) (calls s) (used s);
  snd_msgs : MsgInv h (arriving s) (sess s) (calls s);
  snd_place : Place s (tags s)
}.

Lemma start_sound h : Sound h start.
Proof.
  split.
  - split; [apply graph_ok_empty|apply acyclic_empty|]. intros a b. cbn. rewrite count_empty. unfold in_flight, row. by rewrite lookup_empty.
  - split; cbn; [by intros id c H|by intros k t H|]. intros n _. rewrite count_empty. lia.
  - split; cbn; [intros m H; by apply not_elem_of_nil in H|intros k m H; by apply not_elem_of_nil in H|by intros k t H|by intros id c H].
  - split; cbn; try done.
    + constructor.
    + intros id b H. by apply not_elem_of_nil in H.
    + by intros id [? H].
    + split; [constructor|]. intros id x H. by apply not_elem_of_nil in H.
Qed.

Lemma ask_step_sound h l s s' : host_ok h → label_ok l → step h l s = Some s' → Sound h s → Sound h s'.
Proof.
  intros Hh Hl Hs%step_effect [H1 H2 H3 H4]. assert (Hk : calls_known s) by (intros id c Hc; by eapply w_calls). split.
  - by eapply step_graph.
  - by eapply step_slots.
  - by eapply step_msgs.
  - destruct l; (by eapply place_turn_steps) || (by eapply place_call_steps).
Qed.

Lemma ask_run_sound h ls s s' : host_ok h → Forall label_ok ls → run h ls s = Some s' → Sound h s → Sound h s'.
Proof.
  intros Hh Hl. revert s. induction Hl as [|l ls Hl _ IH]; intros s; cbn; [by intros [= <-]|].
  destruct (step h l s) as [s1|] eqn:Hs; [|done]. intros Hr Hi. eapply IH; [exact Hr|]. by eapply ask_step_sound.
Qed.

Lemma reachable_sound h ls s : host_ok h → Forall label_ok ls → run h ls start = Some s → Sound h s.
Proof. intros. eapply ask_run_sound; eauto using start_sound. Qed.

(** The graph is who waits for whom. *)
Lemma graph_calls h s a b : Sound h s → waits_on (waits s) a b ↔ ∃ id c, calls s !! id = Some c ∧ c_caller c = Some a ∧ c_target c = b.
Proof.
  intros [[H1 _ H3] _ _ _]. rewrite in_flight_edge, H3, some_counted by done. split; intros (id & c & Hc & Hp); exists id, c; (split; [done|]).
  - by apply bool_decide_eq_true_1 in Hp.
  - by apply bool_decide_eq_true_2.
Qed.

(** C7. Agents never wait on one another in a circle, across exchanges, in any run:
    the graph holds one wait for each ask in flight, from the agent that asks to the
    one asked; it has no cycle; and an ask is refused exactly when the agent asked
    already waits, itself or through others, on the agent that asks, in whatever order
    the maps are gone through. *)
Theorem no_circular_wait (h : Host) (ls : list Label) (s : State) (Hh : host_ok h) (Hl : Forall label_ok ls) (Hr : run h ls start = Some s) :
  let waiting_for a b := ∃ id c, calls s !! id = Some c ∧ c_caller c = Some a ∧ c_target c = b in
  (∀ a, ¬ tc waiting_for a a) ∧
  (∀ a b, in_flight (waits s) a b = count (asks_of a b) (calls s)) ∧
  ∀ range caller target, ranges range → (waits_begin range (waits s) caller target = None ↔ rtc waiting_for target caller).
Proof.
  intros waiting_for. pose proof (reachable_sound h ls s Hh Hl Hr) as Hi. assert (He : ∀ a b, waits_on (waits s) a b ↔ waiting_for a b) by (intros; by apply (graph_calls h)).
  assert (Hsub : ∀ a b, rtc (waits_on (waits s)) a b ↔ rtc waiting_for a b) by (intros; split; intros Hab; (induction Hab as [|x y z Hxy _ IH]; [done|eapply rtc_l; [by apply He|done]])).
  split_and!.
  - intros a Hc. apply (g_acyclic _ (snd_graph _ _ Hi) a). revert Hc. generalize a at 1 3. intros b Hc.
    induction Hc as [x y Hxy|x y z Hxy _ IH]; [by apply tc_once, He|by eapply tc_l; [apply He|]].
  - apply Hi.
  - intros range caller target Hra. rewrite <- Hsub. pose proof (begin_spec range Hra (waits s) caller target) as Hs.
    destruct (waits_begin range (waits s) caller target); [|done]. destruct Hs as [Hn _]. split; [done|]. intros H. by apply Hn in H.
Qed.

(** C9. Turns never use more slots than there are, whatever they wait for and however
    many waits of one turn begin and end at once: the slots in use are those held by
    turns; an asked turn has none; a turn holds its own only while none of its waits
    has it lent, and one wait at most is taking it back. *)
Theorem slots_bounded (h : Host) (ls : list Label) (s : State) (n : nat) (Hh : host_ok h) (Hl : Forall label_ok ls) (Hr : run h ls start = Some s)
  (Hn : maxConcurrentTurns h = Some n) :
  used s ≤ n ∧ used s = count holds (sess s) ∧
  ∀ k t, turn_at s k = Some t →
    (t_slot t = None ↔ is_ask (t_msg t) = true) ∧
    ∀ sl, t_slot t = Some sl → lent sl = Z.of_nat (count (lent_by k) (calls s)) ∧ count (acquiring k) (calls s) ≤ 1 ∧
      (held sl = true → ∀ id c, calls s !! id = Some c → lent_by k c = false ∧ acquiring k c = false).
Proof.
  destruct (reachable_sound h ls s Hh Hl Hr) as [_ [_ H2 H3] _ _]. destruct (H3 n Hn) as [H4 H5]. split_and!; [done|done|]. intros k t Ht.
  specialize (H2 k t Ht). unfold turn_fits in H2. destruct (t_slot t) as [sl|].
  - destruct H2 as (G1 & G2 & G3 & G4 & G5 & _). split; [split; intros; congruence|]. intros sl' [= <-]. split_and!; [done|done|]. intros Hh' id c Hc. destruct (G5 Hh') as (E1 & _ & E2). split.
    + destruct (lent_by k c) eqn:E; [|done]. assert (0 < count (lent_by k) (calls s)) by (apply some_counted; eauto). lia.
    + destruct (acquiring k c) eqn:E; [|done]. assert (0 < count (acquiring k) (calls s)) by (apply some_counted; eauto). lia.
  - destruct H2 as [G1 _]. split; [done|]. by intros sl'.
Qed.


(** An exchange is never deeper than the configuration allows: the chain of a
    working turn are the agents that wait for one another's replies, each once, ending
    with the turn's own, and there is one more of them than levels at most, up to
    max_subagent_depth; and no agent is asked from a chain it is in. *)
Theorem exchanges_bounded (h : Host) (ls : list Label) (s : State) (Hh : host_ok h) (Hl : Forall label_ok ls) (Hr : run h ls start = Some s) :
  (∀ k t a, turn_at s k = Some t → t_agent t = Some a →
    k = BuildAgentMainSessionKey a ∧ last (t_chain t) = Some a ∧ NoDup (t_chain t) ∧ (Z.of_nat (length (t_chain t)) ≤ t_depth t + 1 ≤ maxSubagentDepth h + 1)%Z) ∧
  ∀ id c, calls s !! id = Some c → let chain := withInboundAskChain [] (c_msg c) in
    NoDup chain ∧ c_target c ∉ chain ∧ (Z.of_nat (length chain) ≤ maxSubagentDepth h)%Z.
Proof.
  destruct (reachable_sound h ls s Hh Hl Hr) as [_ _ [_ _ H3 H4] _]. split.
  - intros k t a Ht Ha. destruct (H3 k t Ht) as (_ & _ & H). destruct (H a Ha) as (E1 & E2 & E3 & (E4 & E5 & E6 & E7) & E8). split_and!; try done; lia.
  - intros id c Hc. destruct (H4 id c Hc) as (E1 & _ & E3 & E4). unfold msg_ok in E4. rewrite E1 in E4.
    destruct E4 as (id' & from & target & text & chain & depth & Hs & (C1 & C2 & C3 & C4) & C5 & _ & C6 & _). rewrite (metadata_same _ _ _ Hs), publishAsk_target in E3.
    cbv zeta. assert (withInboundAskChain [] (c_msg c) = chain) as ->. { unfold withInboundAskChain. rewrite (metadata_same _ _ _ Hs). by apply ask_metadata_chain. }
    subst target. split_and!; [done|done|lia].
Qed.
End runs.
