(* ===== verification/AskProgress.v ===== *)
(** * Every ask is answered (agent/ask.go, agent/turn_slot.go)

    With any number of slots, agents that ask one another through their tools never
    come to a stop: lending slots and refusing circles leave something that can go on,
    until every turn has ended and every asker has its reply. The two runs at the end
    show why this needs the asks to be made in the turn itself: over MCP the slot is
    not lent, and a sub-agent's wait is not its agent's. *)

From stdpp Require Import base gmap strings list fin_maps relations.
From Stdlib Require Import ZArith Lia Ascii.
From S2P Require Import Prelude GoString AgentIds SessionDispatch Asks AskRuns AskReplies.

Open Scope string_scope.
Open Scope list_scope.
Open Scope nat_scope.

Section runs.
Context {GR : GoRange}.

(** ** Asks made in turns *)

(** Asks come from a turn's own tools, or from work that no turn waits for. *)
Definition plain (l : Label) : Prop :=
  label_ok l ∧ match l with LAsk _ (OverMCP _) _ _ _ | LAsk _ (InClone _ _) _ _ _ => False | _ => True end.

Definition from_turn (ss : gmap string Sess) (c : Call) : Prop :=
  ∀ k, c_turn c = Some k → ∃ t, turn_of ss k = Some t ∧ c_caller c = t_agent t ∧ (has_slot t = true → c_slot c = true).

Definition PlainInv (s : State) : Prop := ∀ id c, calls s !! id = Some c → from_turn (sess s) c.

(** A step that leaves the agent and the slot of every turn with a call. *)
Lemma plain_turns s s' : (∀ id c', calls s' !! id = Some c' → ∃ c, calls s !! id = Some c ∧ c_turn c' = c_turn c ∧ c_caller c' = c_caller c ∧ c_slot c' = c_slot c) →
  (∀ k t, turn_of (sess s) k = Some t → (∃ id c, calls s !! id = Some c ∧ c_turn c = Some k) →
    ∃ t', turn_of (sess s') k = Some t' ∧ t_agent t' = t_agent t ∧ has_slot t' = has_slot t) → PlainInv s → PlainInv s'.
Proof.
  intros Hc Ht Hi id c' Hc' k Hk. destruct (Hc id c' Hc') as (c & H0 & E1 & E2 & E3). rewrite E1 in Hk. destruct (Hi id c H0 k Hk) as (t & T1 & T2 & T3).
  destruct (Ht k t T1) as (t' & U1 & U2 & U3); [eauto|]. exists t'. split_and!; [done|congruence|]. rewrite U3, E3. done.
Qed.

Lemma same_calls s s' : calls s' = calls s → ∀ id c', calls s' !! id = Some c' → ∃ c, calls s !! id = Some c ∧ c_turn c' = c_turn c ∧ c_caller c' = c_caller c ∧ c_slot c' = c_slot c.
Proof. intros -> id c H. by exists c. Qed.

Lemma moved_calls s s' id c pc : calls s !! id = Some c → calls s' = moved (calls s) id c pc →
  ∀ id' c', calls s' !! id' = Some c' → ∃ c, calls s !! id' = Some c ∧ c_turn c' = c_turn c ∧ c_caller c' = c_caller c ∧ c_slot c' = c_slot c.
Proof.
  intros Hc -> id' c'. destruct pc as [pc|]; cbn; [intros [[<- <-]|[_ H]]%lookup_insert_Some; [by exists c|by exists c']|].
  intros [_ H]%lookup_delete_Some. by exists c'.
Qed.

(** The turn of [k] changes, to one with the same agent and slot if a call is waited for. *)
Lemma put_turns s k x : (∀ t, turn_of (sess s) k = Some t → (∃ id c, calls s !! id = Some c ∧ c_turn c = Some k) →
    ∃ t', turn x = Some t' ∧ t_agent t' = t_agent t ∧ has_slot t' = has_slot t) →
  ∀ ss', ss' = <[k := x]> (sess s) → ∀ k' t, turn_of (sess s) k' = Some t → (∃ id c, calls s !! id = Some c ∧ c_turn c = Some k') →
    ∃ t', turn_of ss' k' = Some t' ∧ t_agent t' = t_agent t ∧ has_slot t' = has_slot t.
Proof. intros Hx ss' -> k' t Ht Hc. rewrite turn_of_insert. case_decide as Hd; [subst; by apply Hx|by exists t]. Qed.

Lemma end_sess h k t s : sess (end_turn h k t s) = <[k := {| queue := queue (sess_at s k); turn := None |}]> (sess s).
Proof. unfold end_turn. by destruct (t_slot t). Qed.

Lemma plain_turn_steps h l s s' : effect h s l s' → match l with LInbound _ | LArrive _ _ | LTake _ _ | LSlot _ | LNoSlot _ | LBegin _ _ | LOver _ _ | LCancel _ => True | _ => False end →
  Sound h s → PlainInv s → PlainInv s'.
Proof.
  intros He Hl [_ Hti _ _] Hi. assert (Hearly : ∀ k, (∀ t, turn_of (sess s) k = Some t → t_pc t ≠ Working) → ∀ id c, calls s !! id = Some c → c_turn c ≠ Some k) by (intros k; by apply (idle_no_calls _ _ _ _ k Hti)).
  assert (Hno : ∀ k x, (∀ id c, calls s !! id = Some c → c_turn c ≠ Some k) → ∀ t, turn_of (sess s) k = Some t → (∃ id c, calls s !! id = Some c ∧ c_turn c = Some k) →
    ∃ t', turn x = Some t' ∧ t_agent t' = t_agent t ∧ has_slot t' = has_slot t) by (intros k x Hn t _ (id & c & Hc & Hk); by apply Hn in Hc).
  assert (Hpc : ∀ k t, turn_at s k = Some t → t_pc t ≠ Working → ∀ t', turn_of (sess s) k = Some t' → t_pc t' ≠ Working) by (intros k t Ht Hp t' Ht'; change (turn_at s k = Some t') in Ht'; congruence).
  destruct He as [m Hm Hc|i a m m' k Hm Hs Ha Hn|k alone m rest Hk Hb|k t sl sl' u Hk Hp Hsl Hu|k t Hk Hp|k a t Hk Hp Hm Hw|k a t Hk Hp Hw Hr Ek|k t Hk Hp Hw|k o t Hk Hp Hw Ho|k| | | | | | | | | | | | | |]; try done.
  - eapply (plain_turns s); [by apply same_calls| |done]. eapply put_turns; [|done]. intros t Ht _. by exists t.
  - eapply (plain_turns s); [by apply same_calls| |done]. eapply put_turns; [|done]. apply Hno, Hearly. intros t Ht. change (turn_at s k = Some t) in Ht. congruence.
  - eapply (plain_turns s); [by apply same_calls| |done]. eapply put_turns; [|done]. apply Hno, Hearly. eapply Hpc; [done|congruence].
  - eapply (plain_turns s); [by apply same_calls| |done]. eapply put_turns; [|done]. apply Hno, Hearly. eapply Hpc; [done|congruence].
  - destruct (ended_calls h k t s) as [E _]. eapply (plain_turns s); [by apply same_calls| |done]. eapply put_turns; [|apply end_sess]. apply Hno, Hearly. eapply Hpc; [done|congruence].
  - eapply (plain_turns s); [by apply same_calls| |done]. eapply put_turns; [|done]. apply Hno, Hearly. eapply Hpc; [done|congruence].
  - eapply (plain_turns s); [by apply same_calls| |done]. eapply put_turns; [|done]. apply Hno, Hearly. eapply Hpc; [done|congruence].
  - set (s1 := if is_ask (t_msg t) then _ else s). assert (but_asks s s1) as (E1 & _ & E2 & _) by (subst s1; destruct (is_ask _); [apply answer_but_asks|by split_and!]).
    destruct (ended_calls h k t s1) as [E _]. eapply (plain_turns s); [apply same_calls; congruence| |done]. eapply put_turns; [|rewrite end_sess; unfold sess_at; by rewrite E2]. by apply Hno, waits_none.
  - destruct (cancelled_but_asks (queue (sess_at s k)) (put_queue k [] s)) as (E1 & _ & E2 & _). eapply (plain_turns s); [by apply same_calls| |done].
    eapply put_turns; [|by rewrite E2]. intros t Ht _. by exists t.
Qed.

Lemma plain_call_steps h l s s' : effect h s l s' → plain l → match l with LInbound _ | LArrive _ _ | LTake _ _ | LSlot _ | LNoSlot _ | LBegin _ _ | LOver _ _ | LCancel _ => False | _ => True end →
  Sound h s → PlainInv s → PlainInv s'.
Proof.
  intros He Hpl Hl [[Hg1 Hg2 _] Hti Hmi _] Hi.
  assert (Hsame : ∀ k t, turn_of (sess s) k = Some t → (∃ id c, calls s !! id = Some c ∧ c_turn c = Some k) → ∃ t', turn_of (sess s) k = Some t' ∧ t_agent t' = t_agent t ∧ has_slot t' = has_slot t) by (intros k t Ht _; by exists t).
  assert (Hslot : ∀ c k t sl sl' s1, own_slot s c = Some (k, t, sl) → sess s1 = sess (put_turn k (Some (set_slot sl' t)) s) →
    ∀ k' t', turn_of (sess s) k' = Some t' → (∃ id c, calls s !! id = Some c ∧ c_turn c = Some k') → ∃ t2, turn_of (sess s1) k' = Some t2 ∧ t_agent t2 = t_agent t' ∧ has_slot t2 = has_slot t').
  { intros c k t sl sl' s1 (_ & _ & Ht & Hsl)%own_slot_Some E. eapply put_turns; [|exact E]. intros t0 Ht0 _. change (turn_at s k = Some t0) in Ht0. assert (t0 = t) as -> by congruence.
    eexists. split; [done|]. split; [done|]. unfold has_slot. by rewrite Hsl. }
  destruct He; try done; try (by eapply (plain_turns s); [by apply same_calls|done|done]).
  - destruct Hpl as [_ Hpl]. eapply begin_wait_spec in H1 as (_ & _ & Hca & _); [|done|done]. subst caller. intros id' c'. cbn. intros [[<- <-]|[_ Hc']]%lookup_insert_Some; [|by eapply Hi].
    intros k. cbn. unfold ask_env in H. destruct o as [k'| | |chain depth]; try done; [|by injection H as <-]. unfold working in H. destruct (turn_at s k') as [t0|] eqn:Ht; [|done].
    destruct (t_pc t0), (t_agent t0) as [a|] eqn:Ha; try done. injection H as <-. cbn. intros [= <-]. exists t0. split; [done|]. split; [|done].
    destruct (mi_turns _ _ _ _ Hmi k' t0 Ht) as (_ & _ & Hok). destruct (Hok a Ha) as (_ & _ & E & _). congruence.
  - by eapply (plain_turns s); [by eapply (moved_calls s _ id c (Some Published))|done|done].
  - by eapply (plain_turns s); [by eapply (moved_calls s _ id c None)|done|done].
  - by eapply (plain_turns s); [by eapply (moved_calls s _ id c (Some Waiting))|done|done].
  - by eapply (plain_turns s); [by eapply (moved_calls s _ id c (Some Waiting))|by eapply Hslot|done].
  - by eapply (plain_turns s); [by eapply (moved_calls s _ id c (Some (Ended (Some reply))))|done|done].
  - by eapply (plain_turns s); [by eapply (moved_calls s _ id c (Some (Ended reply)))|done|done].
  - by eapply (plain_turns s); [by eapply (moved_calls s _ id c None)|done|done].
  - by eapply (plain_turns s); [by eapply (moved_calls s _ id c None)|by eapply Hslot|done].
  - by eapply (plain_turns s); [by eapply (moved_calls s _ id c (Some (Acquiring r)))|by eapply Hslot|done].
  - by eapply (plain_turns s); [by eapply (moved_calls s _ id c None)|by eapply Hslot|done].
  - by eapply (plain_turns s); [by eapply (moved_calls s _ id c None)|done|done].
Qed.

Lemma step_plain h l s s' : plain l → step h l s = Some s' → Sound h s → PlainInv s → PlainInv s'.
Proof. intros Hl Hs%step_effect Hi Hp. destruct l; (by eapply plain_turn_steps) || (by eapply plain_call_steps). Qed.

Lemma run_plain h ls s s' : host_ok h → Forall plain ls → run h ls s = Some s' → Sound h s → PlainInv s → Sound h s' ∧ PlainInv s'.
Proof.
  intros Hh Hl. revert s. induction Hl as [|l ls Hl _ IH]; intros s; cbn; [by intros [= <-]|].
  destruct (step h l s) as [s1|] eqn:Hs; [|done]. intros Hr Hi Hp. eapply IH; [exact Hr|eapply ask_step_sound; [done|apply Hl|done|done]|by eapply step_plain].
Qed.

(** ** Going forward *)

(** The turn ends well. *)
Definition fine : TurnOutcome := {| o_response := "done"; o_outcome := ""; o_err := None; o_cause := None; o_rendered := "" |}.

(** The steps that need nobody to ask, to write or to give up: an ask is routed to the
    agent asked, as is its turn when it is in that agent's session; a published
    message is; a context does not end. *)
Definition forward (s : State) (l : Label) : Prop :=
  match l with
  | LArrive i a => ∀ m, arriving s !! i = Some m → is_ask m = true → a = Some (inboundMetadata m metadataKeyPreresolvedAgentID)
  | LBegin k a => ∀ t, turn_at s k = Some t → is_ask (t_msg t) = true → k = BuildAgentMainSessionKey (inboundMetadata (t_msg t) metadataKeyPreresolvedAgentID) →
      a = Some (inboundMetadata (t_msg t) metadataKeyPreresolvedAgentID)
  | LPublished _ ok | LReacquire _ ok => ok = true
  | LTake _ _ | LSlot _ | LOver _ _ | LLend _ | LAnswered _ | LReclaim _ => True
  | _ => False
  end.

Lemma forward_plain s l : forward s l → plain l.
Proof. by destruct l. Qed.

(** *** Every such step uses up work *)

Definition total {A} (f : A → nat) (m : gmap string A) : nat := length (flat (λ x, replicate (f x) ()) m).

Lemma total_delete {A} (f : A → nat) m k x : m !! k = Some x → total f m = f x + total f (delete k m).
Proof. intros Hk. unfold total. by rewrite (flat_delete _ m k x), length_app, length_replicate. Qed.

Lemma total_insert {A} (f : A → nat) m k x : total f (<[k := x]> m) = f x + total f (delete k m).
Proof. unfold total. by rewrite flat_insert, length_app, length_replicate. Qed.

Lemma total_at {A} (f : A → nat) m k d : f d = 0 → total f m = f (default d (m !! k)) + total f (delete k m).
Proof. intros Hd. destruct (m !! k) as [x|] eqn:Hk; cbn [default]; [by apply total_delete|]. rewrite Hd. by rewrite delete_id. Qed.

Definition turn_work (t : Turn) : nat := match t_pc t with WantsSlot => 3 | Starting => 2 | Working => 1 end.
Definition sess_work (x : Sess) : nat := 4 * length (queue x) + match turn x with Some t => turn_work t | None => 0 end.
Definition call_work (c : Call) : nat := match c_pc c with Opened => 9 | Published => 3 | Waiting => 2 | Ended _ => 1 | Acquiring _ => 0 end.

(** The steps there are for what is on its way, queued, running and in flight. *)
Definition work (s : State) : nat := 5 * length (arriving s) + total sess_work (sess s) + total (λ c, S (call_work c)) (calls s).

Lemma work_sess s k x : total sess_work (<[k := x]> (sess s)) + sess_work (sess_at s k) = total sess_work (sess s) + sess_work x.
Proof. rewrite total_insert, (total_at sess_work (sess s) k idle) by done. unfold sess_at. lia. Qed.

Lemma work_call s id c pc : calls s !! id = Some c → total (λ c, S (call_work c)) (<[id := set_cpc pc c]> (calls s)) + S (call_work c) = total (λ c, S (call_work c)) (calls s) + S (call_work (set_cpc pc c)).
Proof. intros Hc. rewrite total_insert, (total_delete _ (calls s) id c) by done. lia. Qed.

Lemma work_turn s k t ot u : turn_at s k = Some t → work (put_turn k ot (set_used u s)) + turn_work t = work s + match ot with Some t' => turn_work t' | None => 0 end.
Proof.
  intros Ht. unfold work. cbn -[total]. pose proof (work_sess s k {| queue := queue (sess_at s k); turn := ot |}) as Hw. unfold sess_work in Hw at 2 4. cbn -[total] in Hw.
  change (turn (sess_at s k)) with (turn_at s k) in Hw. rewrite Ht in Hw. change (sess_at (set_used u s) k) with (sess_at s k). lia.
Qed.

Lemma work_same_turn s k t sl u : turn_at s k = Some t → work (put_turn k (Some (set_slot sl t)) (set_used u s)) = work s.
Proof. intros Ht. pose proof (work_turn s k t (Some (set_slot sl t)) u Ht) as Hw. cbv iota beta in Hw. change (turn_work (set_slot sl t)) with (turn_work t) in Hw. lia. Qed.

Lemma work_end h s k t : turn_at s k = Some t → t_pc t ≠ WantsSlot → work (end_turn h k t s) < work s.
Proof.
  intros Ht Hp. assert (work (end_turn h k t s) + turn_work t = work s) as Hw.
  { unfold end_turn. destruct (t_slot t) as [sl|]; [rewrite (work_turn s k t None) by done; lia|]. pose proof (work_turn s k t None (used s) Ht) as Hw. cbv iota in Hw. change (work (put_turn k None (set_used (used s) s))) with (work (put_turn k None s)) in Hw. lia. }
  unfold turn_work in Hw. destruct (t_pc t); [done|lia|lia].
Qed.

Lemma work_but_asks s s' : but_asks s s' → work s' = work s.
Proof. intros (E1 & _ & E2 & E3 & _). unfold work. by rewrite E1, E2, E3. Qed.

Lemma work_moved s s' id c pc : calls s !! id = Some c → calls s' = <[id := set_cpc pc c]> (calls s) → work s + S (call_work (set_cpc pc c)) = total sess_work (sess s) + 5 * length (arriving s) + total (λ c, S (call_work c)) (calls s') + S (call_work c).
Proof. intros Hc E. rewrite E. pose proof (work_call s id c pc Hc). unfold work. lia. Qed.

Lemma forward_turn_work h s l s' : effect h s l s' → match l with LArrive _ _ | LTake _ _ | LSlot _ | LBegin _ _ | LOver _ _ => True | _ => False end → work s' < work s.
Proof.
  intros He Hl.
  destruct He as [m Hm Hc|i a m m' k Hm Hs Ha Hn|k alone m rest Hk Hb|k t sl sl' u Hk Hp Hsl Hu|k t Hk Hp|k a t Hk Hp Hm Hw|k a t Hk Hp Hw Hr Ek|k t Hk Hp Hw|k o t Hk Hp Hw Ho|k| | | | | | | | | | | | | |]; try done.
  - unfold work, put_queue. cbn -[total]. pose proof (work_sess s k {| queue := queue (sess_at s k) ++ [m']; turn := turn_at s k |}) as Hw. unfold sess_work in Hw at 2 4. cbn -[total] in Hw.
    change (turn (sess_at s k)) with (turn_at s k) in Hw. rewrite length_app in Hw. cbn -[total] in Hw. change (turn_at (set_arriving _ s) k) with (turn_at s k). rewrite (length_delete (arriving s) i) by (by eexists). pose proof (lookup_lt_Some _ _ _ Hm). lia.
  - destruct (takeBatch_spec _ _ _ _ Hb) as (first & batch & _ & _ & _ & _ & _ & _ & _ & _ & Hlen). cbn in Hlen. unfold work. cbn -[total].
    pose proof (work_sess s k {| queue := rest; turn := Some (new_turn m) |}) as Hw. unfold sess_work in Hw at 2 4. cbn -[total] in Hw. change (turn (sess_at s k)) with (turn_at s k) in Hw. rewrite Hk in Hw.
    assert (turn_work (new_turn m) ≤ 3) by (unfold turn_work, new_turn; cbn; destruct (is_ask m); lia). lia.
  - pose proof (work_turn s k t (Some (set_tpc Starting (set_slot sl' t))) u Hk) as Hw. unfold turn_work in Hw. rewrite Hp in Hw. change (t_pc (set_tpc Starting (set_slot sl' t))) with Starting in Hw. cbv iota in Hw. lia.
  - apply work_end; [done|congruence].
  - pose proof (work_turn s k t (Some (working_turn h t a)) (used s) Hk) as Hwk. unfold turn_work in Hwk. rewrite Hp in Hwk.
    change (work (put_turn k (Some (working_turn h t a)) s) + 2 = work s + 1) in Hwk. lia.
  - pose proof (work_turn s k t (Some (set_tpc Working t)) (used s) Hk) as Hwk. unfold turn_work in Hwk. rewrite Hp in Hwk.
    change (work (put_turn k (Some (set_tpc Working t)) s) + 2 = work s + 1) in Hwk. lia.
  - set (s1 := if is_ask (t_msg t) then _ else s). assert (but_asks s s1) as Hb by (subst s1; destruct (is_ask _); [apply answer_but_asks|by split_and!]).
    rewrite <- (work_but_asks _ _ Hb). apply work_end; [|congruence]. destruct Hb as (_ & _ & E & _). unfold turn_at, sess_at. by rewrite E.
Qed.

(** What a step does with the call of an ask, in numbers. *)
Lemma work_call_put s s1 id c pc : calls s !! id = Some c → work s1 = work s → calls s1 = calls s → call_work (set_cpc pc c) < call_work c → work (put_call id (set_cpc pc c) s1) < work s.
Proof. intros Hc Ew Ec Hlt. pose proof (work_call s id c pc Hc) as Hw. rewrite <- Ew. unfold work. cbn -[total call_work]. rewrite Ec. lia. Qed.

Lemma work_finish s s1 id c r : calls s !! id = Some c → work s1 = work s → calls s1 = calls s → work (finish id c r s1) < work s.
Proof. intros Hc Ew Ec. rewrite <- Ew. unfold work. cbn -[total call_work]. rewrite Ec, (total_delete _ (calls s) id c) by done. lia. Qed.

Lemma forward_work h s l s' : step h l s = Some s' → forward s l → work s' < work s.
Proof.
  intros He%step_effect Hf. assert (Hown : ∀ c k t sl sl' u, own_slot s c = Some (k, t, sl) → work (put_turn k (Some (set_slot sl' t)) (set_used u s)) = work s).
  { intros c k t sl sl' u (_ & _ & Ht & _)%own_slot_Some. by apply work_same_turn. }
  pose proof He as He0. destruct He; try done; try (by apply (forward_turn_work h _ _ _ He0)).
  - pose proof (work_call s id c Published H) as Hw. unfold work. cbn -[total]. rewrite length_app. cbn -[total]. unfold call_work in Hw at 2 4. rewrite H0 in Hw. cbn -[total] in Hw. lia.
  - eapply work_call_put; [done|done|done|]. unfold call_work. cbn. rewrite H0. lia.
  - eapply work_call_put; [done|by eapply Hown|done|]. unfold call_work. cbn. rewrite H0. lia.
  - eapply (work_call_put s (set_asks r s)); [done|done|done|]. unfold call_work. cbn. rewrite H0. lia.
  - by eapply work_finish.
  - eapply work_finish; [done|by eapply (Hown c k t sl _ (used s))|done].
  - eapply work_call_put; [done|by eapply (Hown c k t sl _ (used s))|done|]. unfold call_work. cbn. rewrite H0. lia.
  - eapply work_finish; [done|by eapply Hown|done].
Qed.

(** *** As long as anything is left, something can be done *)

Definition quiet (s : State) : Prop := arriving s = [] ∧ calls s = ∅ ∧ ∀ k, queue (sess_at s k) = [] ∧ turn_at s k = None.

Section stuck.
Context (h : Host) (s : State) (Hs : Sound h s) (Hp : PlainInv s) (Hlim : maxConcurrentTurns h ≠ Some 0).
Context (Hstuck : ∀ l, forward s l → step h l s = None).

Lemma ask_message m : is_ask m = true → msg_ok h m →
  routable h m (inboundMetadata m metadataKeyPreresolvedAgentID) = true ∧ NormalizeAgentID (inboundMetadata m metadataKeyPreresolvedAgentID) = inboundMetadata m metadataKeyPreresolvedAgentID.
Proof.
  unfold msg_ok. intros Ha. rewrite Ha. intros (id & from & target & text & chain & depth & Hsm & _ & _ & Hn & _ & Hr).
  rewrite !(metadata_same _ _ _ Hsm), publishAsk_target. split; [|done]. unfold routable. rewrite Ha, !(metadata_same _ _ _ Hsm), publishAsk_target. cbn.
  rewrite bool_decide_eq_true_2 by done. by apply bool_decide_eq_true_2.
Qed.

Lemma stuck_arriving : arriving s = [].
Proof.
  destruct (arriving s) as [|m l] eqn:Ha; [done|]. exfalso. pose proof (snd_msgs _ _ Hs) as Hm. destruct (is_ask m) eqn:Hask.
  - destruct (ask_message m Hask) as [Hr _]; [eapply mi_arriving; [exact Hm|]; rewrite Ha; by left|].
    specialize (Hstuck (LArrive 0 (Some (inboundMetadata m metadataKeyPreresolvedAgentID)))). cbn in Hstuck. unfold arrive in Hstuck. rewrite Ha in Hstuck. cbn in Hstuck. rewrite Hr in Hstuck.
    discriminate Hstuck. by intros m' [= <-].
  - specialize (Hstuck (LArrive 0 None)). cbn in Hstuck. unfold arrive in Hstuck. rewrite Ha in Hstuck. cbn in Hstuck. discriminate Hstuck. intros m' [= <-]. congruence.
Qed.

Lemma stuck_queue k : turn_at s k = None → queue (sess_at s k) = [].
Proof.
  intros Ht. specialize (Hstuck (LTake k false) I). cbn in Hstuck. unfold take_turn in Hstuck. rewrite Ht in Hstuck.
  destruct (takeBatch (queue (sess_at s k)) false) as [[m rest]|] eqn:Hb; [done|]. by apply takeBatch_None in Hb.
Qed.

Lemma stuck_turn k t : turn_at s k = Some t →
  (t_pc t = WantsSlot → acquireTurnSlot (maxConcurrentTurns h) (used s) = None) ∧ t_pc t ≠ Starting ∧
  (t_pc t = Working → ∃ id c, calls s !! id = Some c ∧ c_turn c = Some k).
Proof.
  intros Ht. pose proof (ti_turns _ _ _ _ (snd_slots _ _ Hs) k t Ht) as Hf. destruct (mi_turns _ _ _ _ (snd_msgs _ _ Hs) k t Ht) as (Hok & _). split_and!; intros Hpc.
  - specialize (Hstuck (LSlot k) I). cbn in Hstuck. unfold get_slot in Hstuck. rewrite Ht, Hpc in Hstuck. unfold turn_fits in Hf. destruct (t_slot t) as [sl|]; [|by destruct Hf].
    unfold slot_acquire in Hstuck. by destruct (acquireTurnSlot _ _).
  - assert (Hb : ∀ a, forward s (LBegin k a) → (a = None ∨ ∃ b, a = Some b ∧ routable h (t_msg t) b = true ∧ k = BuildAgentMainSessionKey b) → False).
    { intros a Hf2 Ha. specialize (Hstuck _ Hf2). cbn in Hstuck. unfold begin_turn in Hstuck. rewrite Ht, Hpc in Hstuck. destruct (is_ask (t_msg t) && _); [done|].
      destruct Ha as [-> | (b & -> & Hr & Hk)]; [done|]. rewrite Hr, bool_decide_eq_true_2 in Hstuck by done. done. }
    destruct (is_ask (t_msg t)) eqn:Ha; [|apply (Hb None); [intros t' Ht' Ha'; congruence|by left]].
    destruct (decide (k = BuildAgentMainSessionKey (inboundMetadata (t_msg t) metadataKeyPreresolvedAgentID))) as [Hk|Hk].
    + eapply Hb; [|right; eexists; split; [done|]; split; [by apply ask_message|done]]. intros t' Ht' _ _. congruence.
    + apply (Hb None); [|by left]. intros t' Ht' _ Hk'. assert (t' = t) as -> by congruence. done.
  - specialize (Hstuck (LOver k fine) I). cbn in Hstuck. unfold over in Hstuck. rewrite Ht, Hpc in Hstuck. unfold outcome_ok in Hstuck. cbn in Hstuck. rewrite orb_true_r, orb_false_r in Hstuck.
    destruct (waits_in k s) eqn:Hw; [|done]. apply existsb_map in Hw as (id & c & Hc & Hk). apply bool_decide_eq_true_1 in Hk. eauto.
Qed.

Lemma unlocked k : (∀ id c r, calls s !! id = Some c → c_turn c = Some k → c_pc c ≠ Acquiring r) → slot_locked s k = false.
Proof.
  intros Hn. destruct (slot_locked s k) eqn:Hl; [|done]. apply existsb_map in Hl as (id & c & Hc & Ha). unfold acquiring in Ha.
  destruct (c_pc c) eqn:E; try done. apply bool_decide_eq_true_1 in Ha. by eapply Hn in E.
Qed.

(** A call of a turn that nobody has the lock of, or without a slot. *)
Lemma stuck_call id c : calls s !! id = Some c → (∀ k, c_turn c = Some k → slot_locked s k = false) →
  (∃ r, c_pc c = Acquiring r) ∨ c_pc c = Waiting ∧ (id, c_target c) ∈ tags s.
Proof.
  intros Hc Hl. assert (Hl' : ∀ k t sl, own_slot s c = Some (k, t, sl) → slot_locked s k = false) by (intros k t sl (_ & Ht & _)%own_slot_Some; by apply Hl).
  destruct (c_pc c) as [| | |r|r] eqn:E; [| | | |by left; eexists]; [exfalso| |right|exfalso].
  - specialize (Hstuck (LPublished id true) eq_refl). cbn in Hstuck. unfold published in Hstuck. by rewrite Hc, E in Hstuck.
  - specialize (Hstuck (LLend id) I). cbn in Hstuck. unfold lend in Hstuck. rewrite Hc, E in Hstuck. destruct (own_slot s c) as [[[k t] sl]|]; [|done].
    rewrite (Hl' k t sl) in Hstuck by done. done.
  - split; [done|]. specialize (Hstuck (LAnswered id) I). cbn in Hstuck. unfold answered, receive in Hstuck. rewrite Hc, E in Hstuck. destruct (w_calls _ _ _ _ _ (snd_place _ _ Hs) id c Hc) as [_ Hr].
    unfold call_reply in Hr. rewrite E in Hr. destruct Hr as [(Hw & _)|(_ & x & Hr & _)]; [|by rewrite Hr in Hstuck].
    destruct (w_found _ _ _ _ _ (snd_place _ _ Hs) id Hw) as (c' & Hc' & Ht). assert (c' = c) as -> by congruence. by rewrite E in Ht.
  - specialize (Hstuck (LReclaim id) I). cbn in Hstuck. unfold reclaim in Hstuck. rewrite Hc, E in Hstuck. destruct (own_slot s c) as [[[k t] sl]|]; [|done].
    rewrite (Hl' k t sl) in Hstuck by done. destruct (slot_reclaim sl) as [sl' []]; done.
Qed.

(** A turn that holds a slot can go on, so there are slots. *)
Lemma stuck_free : acquireTurnSlot (maxConcurrentTurns h) (used s) ≠ None.
Proof.
  unfold acquireTurnSlot. destruct (maxConcurrentTurns h) as [n|] eqn:Hn; [|done]. destruct (used s <? n) eqn:Hlt; [done|]. apply Nat.ltb_ge in Hlt. intros _.
  destruct (ti_used _ _ _ _ (snd_slots _ _ Hs) n Hn) as [E Hle]. assert (0 < count holds (sess s)) as Hpos by (assert (n ≠ 0) by congruence; lia).
  apply some_counted in Hpos as (k & x & Hk & Hx). unfold holds in Hx. destruct (turn x) as [t|] eqn:Htx; [|done]. destruct (t_slot t) as [sl|] eqn:Hsl; [|done].
  assert (Ht : turn_at s k = Some t) by (unfold turn_at, sess_at; by rewrite Hk). destruct (turn_fits_slot _ _ _ _ _ _ _ (snd_slots _ _ Hs) Ht Hsl) as (_ & _ & G3 & _ & G5 & _).
  destruct (G5 Hx) as (G6 & G7 & G8). destruct (stuck_turn k t Ht) as (_ & S2 & S3). destruct S3 as (id & c & Hc & Hct); [by destruct (t_pc t)|].
  assert (Hno : ∀ id c, calls s !! id = Some c → acquiring k c = false ∧ lent_by k c = false).
  { intros id' c' Hc'. split; [destruct (acquiring k c') eqn:Ea; [|done]; assert (0 < count (acquiring k) (calls s)) by (apply some_counted; eauto); lia|].
    destruct (lent_by k c') eqn:Eb; [|done]. assert (0 < count (lent_by k) (calls s)) by (apply some_counted; eauto). lia. }
  assert (Hcs : c_slot c = true). { destruct (Hp id c Hc k Hct) as (t' & T1 & _ & T3). change (turn_at s k = Some t') in T1. assert (t' = t) as -> by congruence. apply T3. unfold has_slot. by rewrite Hsl. }
  destruct (Hno id c Hc) as [N1 N2]. destruct (stuck_call id c Hc) as [[r E2]|[E2 _]].
  - intros k' Hk'. assert (k' = k) as -> by congruence. apply unlocked. intros id' c' r Hc' Hk2 E2. destruct (Hno id' c' Hc') as [E3 _]. unfold acquiring in E3. rewrite E2, bool_decide_eq_true_2 in E3; done.
  - unfold acquiring in N1. by rewrite E2, bool_decide_eq_true_2 in N1.
  - unfold lent_by in N2. by rewrite E2, Hcs, bool_decide_eq_true_2 in N2.
Qed.

(** So no turn waits for a slot, to begin or to go on, and every call waits for its reply. *)
Lemma stuck_calls id c : calls s !! id = Some c → c_pc c = Waiting ∧ (id, c_target c) ∈ tags s.
Proof.
  intros Hc. assert (Hacq : ∀ id c r, calls s !! id = Some c → c_pc c ≠ Acquiring r).
  { intros id' c' r Hc' E. destruct (ti_calls _ _ _ _ (snd_slots _ _ Hs) id' c' Hc') as (F1 & F2 & F3). specialize (F3 r E). destruct (c_turn c') as [k|] eqn:Hk; [|by rewrite F2 in F3].
    destruct (F1 k eq_refl) as (t & Ht & _ & _ & Hsl). specialize (Hsl F3). unfold has_slot in Hsl. destruct (t_slot t) as [sl|] eqn:Esl; [|done].
    assert (Ho : own_slot s c' = Some (k, t, sl)) by (unfold own_slot; rewrite F3, Hk; change (turn_at s k) with (turn_of (sess s) k); by rewrite Ht, Esl).
    pose proof stuck_free as Hfree. specialize (Hstuck (LReacquire id' true) eq_refl). cbn in Hstuck. unfold reacquire in Hstuck. rewrite Hc', E, Ho in Hstuck. unfold slot_acquire in Hstuck.
    destruct (acquireTurnSlot _ _); done. }
  destruct (stuck_call id c Hc) as [[r E]|?]; [|by eapply Hacq in E|done]. intros k _. apply unlocked. intros id' c' r Hc' _. by eapply Hacq.
Qed.

(** An ask is in the session of a turn at work for the agent asked. *)
Lemma stuck_place id b : (id, b) ∈ tags s → ∃ k t, turn_at s k = Some t ∧ t_pc t = Working ∧ t_agent t = Some b.
Proof.
  unfold tags. rewrite stuck_arriving. cbn. intros (k & x & Hk & Hx)%flat_elem. assert (Hat : sess_at s k = x) by (unfold sess_at; by rewrite Hk).
  assert (Hm : ∃ m, (m ∈ queue x ∨ ∃ t, turn x = Some t ∧ t_msg t = m) ∧ is_ask m = true ∧ ChatID m = id ∧ inboundMetadata m metadataKeyPreresolvedAgentID = b).
  { assert (Htag : ∀ m, (id, b) ∈ tag m → is_ask m = true ∧ ChatID m = id ∧ inboundMetadata m metadataKeyPreresolvedAgentID = b).
    { intros m. unfold tag. destruct (is_ask m); [|intros H; by apply not_elem_of_nil in H]. intros [= -> ->]%list_elem_of_singleton. by split_and!. }
    unfold sess_tags in Hx. apply elem_of_app in Hx as [(m & Hm & Hin)%list_elem_of_bind|Hx]; [exists m; split; [by left|by apply Htag]|].
    destruct (turn x) as [t|] eqn:Ht; [exists (t_msg t); split; [right; by exists t|by apply Htag]|by apply not_elem_of_nil in Hx]. }
  destruct Hm as (m & Hin & Ha & Hid & Hb). pose proof (snd_msgs _ _ Hs) as Hmi.
  assert (Hok : msg_ok h m ∧ placed k m).
  { destruct Hin as [Hin|(t & Ht & <-)]; [apply (mi_queues _ _ _ _ Hmi k m); change (sess_of (sess s) k) with (sess_at s k); by rewrite Hat|].
    destruct (mi_turns _ _ _ _ Hmi k t) as (H1 & H2 & _); [|done]. change (turn (sess_at s k) = Some t). by rewrite Hat. }
  destruct Hok as [Hok Hpl]. destruct (turn_at s k) as [t|] eqn:Ht.
  2: { pose proof (stuck_queue k Ht) as Hq. unfold turn_at in Ht. rewrite Hat in *. rewrite Hq in Hin. destruct Hin as [Hin|(t & Ht' & _)]; [by apply not_elem_of_nil in Hin|congruence]. }
  destruct (stuck_turn k t Ht) as (S1 & S2 & S3). assert (Hw : t_pc t = Working) by (destruct (t_pc t) eqn:E; [by destruct (stuck_free (S1 eq_refl))|done|done]).
  exists k, t. split_and!; [done|done|]. destruct (S3 Hw) as (id' & c & Hc & Hct). destruct (ti_calls _ _ _ _ (snd_slots _ _ Hs) id' c Hc) as (F1 & _). destruct (F1 k Hct) as (t' & Ht' & _ & Hag & _).
  change (turn_at s k = Some t') in Ht'. assert (t' = t) as -> by congruence. destruct (t_agent t) as [a|] eqn:Eag; [|done]. destruct (mi_turns _ _ _ _ Hmi k t Ht) as (_ & _ & Hag2). destruct (Hag2 a Eag) as (K1 & K2 & _).
  destruct (ask_message m Ha Hok) as [_ Hn]. rewrite Hb in Hn. destruct (Hpl Ha) as [Hk1|Hk1]; rewrite K1 in Hk1.
  - rewrite Hb in Hk1. apply main_key_eq in Hk1. congruence.
  - by unfold BuildAgentMainSessionKey, AgentMessageChannel in Hk1.
Qed.

Lemma graph_finite g a : pred_finite (tc (waits_on g) a).
Proof.
  exists (map_to_list g ≫= λ x, map_keys x.2). intros y Hy. assert (Hin : ∀ x y, waits_on g x y → y ∈ (map_to_list g ≫= λ x, map_keys x.2)).
  { intros x z [n Hz]. unfold row in Hz. destruct (g !! x) as [r|] eqn:Hr; [|done]. cbn in Hz. apply list_elem_of_bind. exists (x, r). split; [|by apply elem_of_map_to_list].
    apply map_keys_ranges. by eexists. }
  induction Hy as [x y Hxy|x y z _ _ IH]; [by eapply Hin|done].
Qed.

(** A turn at work would wait for another, and that one for another, without end. *)
Lemma stuck_nobody a k t : turn_at s k = Some t → t_pc t = Working → t_agent t = Some a → False.
Proof.
  assert (Hsn : sn (waits_on (waits s)) a) by (apply tc_finite_sn; [exact (g_acyclic _ (snd_graph _ _ Hs))|apply graph_finite]).
  revert k t. induction Hsn as [a _ IH]. intros k t Ht Hw Ha. destruct (stuck_turn k t Ht) as (_ & _ & S3). destruct (S3 Hw) as (id & c & Hc & Hct).
  destruct (stuck_calls id c Hc) as [_ Htag]. destruct (stuck_place _ _ Htag) as (k' & t' & Ht' & Hw' & Ha'). refine (IH (c_target c) _ k' t' Ht' Hw' Ha').
  apply (graph_calls h s a (c_target c) Hs). exists id, c. split; [done|]. split; [|done]. destruct (Hp id c Hc k Hct) as (t2 & T1 & T2 & _). change (turn_at s k = Some t2) in T1. congruence.
Qed.

Lemma stuck_quiet : quiet s.
Proof.
  assert (Hno : ∀ k, turn_at s k = None).
  { intros k. destruct (turn_at s k) as [t|] eqn:Ht; [|done]. exfalso. destruct (stuck_turn k t Ht) as (S1 & S2 & S3).
    assert (Hw : t_pc t = Working) by (destruct (t_pc t) eqn:E; [by destruct (stuck_free (S1 eq_refl))|done|done]). destruct (S3 Hw) as (id & c & Hc & Hct).
    destruct (ti_calls _ _ _ _ (snd_slots _ _ Hs) id c Hc) as (F1 & _). destruct (F1 k Hct) as (t' & Ht' & _ & Hag & _). change (turn_at s k = Some t') in Ht'. assert (t' = t) as -> by congruence.
    destruct (t_agent t) as [a|] eqn:Ea; [|done]. by eapply stuck_nobody. }
  split_and!; [apply stuck_arriving| |].
  - apply map_empty. intros id. destruct (calls s !! id) as [c|] eqn:Hc; [|done]. destruct (stuck_calls id c Hc) as [_ Ht]. destruct (stuck_place _ _ Ht) as (k & t & Ht' & _). by rewrite Hno in Ht'.
  - intros k. split; [by apply stuck_queue|done].
Qed.
End stuck.

(** *** Replies are not lost on the way *)

(** The asker of [id] has its reply, or waits for it. *)
Definition unfailed (s : State) (id : string) : Prop :=
  (∃ r, (id, Some r) ∈ got s) ∨ ∃ c, calls s !! id = Some c ∧ match c_pc c with Ended None | Acquiring None => False | _ => True end.

Lemma unfailed_got s s' id : calls s' = calls s → got s' = got s → unfailed s id → unfailed s' id.
Proof. unfold unfailed. by intros -> ->. Qed.

Lemma unfailed_call s s' id id' c pc : calls s !! id' = Some c → calls s' = <[id' := set_cpc pc c]> (calls s) → got s' = got s →
  match pc with Ended None | Acquiring None => match c_pc c with Ended None | Acquiring None => True | _ => False end | _ => True end → unfailed s id → unfailed s' id.
Proof.
  intros Hc Ec Eg Hp [Hg|(c0 & Hc0 & Hm)]; [left; by rewrite Eg|right]. rewrite Ec. destruct (decide (id' = id)) as [<-|Hne].
  - exists (set_cpc pc c). rewrite lookup_insert_eq. split; [done|]. assert (c0 = c) as -> by congruence. cbn. destruct pc as [| | |[]|[]]; try done; by destruct (c_pc c) as [| | |[]|[]].
  - exists c0. by rewrite lookup_insert_ne.
Qed.

Lemma unfailed_finish s s1 id id' c r : calls s1 = calls s → got s1 = got s → calls s !! id' = Some c → (c_pc c = Ended r ∨ c_pc c = Acquiring r) → unfailed s id → unfailed (finish id' c r s1) id.
Proof.
  intros Ec Eg Hc Hp [[x Hg]|(c0 & Hc0 & Hm)].
  - left. exists x. cbn. rewrite Eg. apply elem_of_app. by left.
  - destruct (decide (id' = id)) as [<-|Hne].
    + left. assert (c0 = c) as -> by congruence. assert (∃ x, r = Some x) as [x ->]; [|exists x; cbn; apply elem_of_app; right; by left].
      destruct Hp as [Hp|Hp]; rewrite Hp in Hm; (destruct r; [by eexists|done]).
    + right. exists c0. cbn. by rewrite Ec, lookup_delete_ne.
Qed.

Lemma forward_unfailed h l s s' id : step h l s = Some s' → forward s l → unfailed s id → unfailed s' id.
Proof.
  intros He%step_effect Hf Hu. destruct He; try done; try (by eapply (unfailed_got s)); try (by eapply (unfailed_call s)).
  - eapply (unfailed_got s); [apply ended_calls| |done]. by destruct (ended_place h k t s) as (_ & _ & _ & ->).
  - set (s1 := if is_ask (t_msg t) then _ else s). assert (but_asks s s1) as (E1 & _ & _ & _ & _ & E2) by (subst s1; destruct (is_ask _); [apply answer_but_asks|by split_and!]).
    eapply (unfailed_got s); [destruct (ended_calls h k t s1) as [-> _]; done| |done]. by destruct (ended_place h k t s1) as (_ & _ & _ & ->).
  - apply (unfailed_finish s); [done|done|done|by left|done].
  - apply (unfailed_finish s); [done|done|done|by left|done].
  - eapply (unfailed_call s); [exact H|done|done| |done]. cbn. rewrite H0. by destruct r.
  - apply (unfailed_finish s); [done|done|done|by right|done].
Qed.

(** A run of such steps. *)
Inductive onward (h : Host) : list Label → State → State → Prop :=
| onward_nil s : onward h [] s s
| onward_cons l ls s s1 s2 : forward s l → step h l s = Some s1 → onward h ls s1 s2 → onward h (l :: ls) s s2.

Lemma onward_facts h ls s s' : host_ok h → onward h ls s s' → Sound h s → PlainInv s →
  Sound h s' ∧ PlainInv s' ∧ length ls + work s' ≤ work s ∧ ∀ id, unfailed s id → unfailed s' id.
Proof.
  intros Hh Hon. induction Hon as [s|l ls s s1 s2 Hf Hst _ IH]; intros Hs Hp; [split_and!; auto|]. pose proof (forward_plain _ _ Hf) as Hpl. pose proof (forward_work _ _ _ _ Hst Hf).
  destruct IH as (H1 & H2 & H3 & H4); [eapply ask_step_sound; [done|apply Hpl|done|done]|by eapply step_plain|]. split_and!; [done|done|cbn [length]; lia|].
  intros id Hu. apply H4. by eapply forward_unfailed.
Qed.


End runs.

(** ** Examples *)

Module AskExamples.

Definition target (id : string) : Target := {| t_ID := id; t_DisplayName := id; t_Model := "m"; t_Candidates := []; t_active := 0 |}.

(** Two agents, and one slot. *)
Definition host : Host :=
  {| agents := <["alice" := target "alice"]> {["bob" := target "bob"]}; running := true; maxSubagentDepth := 3; maxConcurrentTurns := Some 1;
     modelTimeouts := ∅; defaultTimeout := 60 |}.

Lemma example_host : host_ok host.
Proof.
  split; [cbn; lia|]. intros a t. cbn. intros [[<- <-]|[_ Hb]]%lookup_insert_Some; [by split|]. apply lookup_singleton_Some in Hb as [<- <-]. by split.
Qed.

Definition write (text : string) : InboundMessage :=
  {| Channel := "telegram"; SenderID := "me"; Sender := no_sender_info; ChatID := "1"; Content := text; Media := []; m_Peer := {| peer_Kind := ""; peer_ID := "" |};
     MessageID := "1"; MediaScope := ""; SessionKey := ""; Metadata := ∅; IsRetry := false; Internal := false |}.

Definition question (from to : string) : Request := {| r_from := {| s_id := from; s_name := from; s_note := "" |}; r_agent := to; r_message := "?"; r_wait := 10; r_stop := false |}.

Definition key (a : string) : string := BuildAgentMainSessionKey a.

(** Someone writes to an agent, whose turn begins. *)
Definition turn_for (a : string) : list Label := [LInbound (write a); LArrive 0 (Some a); LTake (key a) false; LSlot (key a); LBegin (key a) (Some a)].

(** An agent asks another, and its message arrives. *)
Definition asks_agent (id : string) (o : Origin) (from to : string) : list Label := [LAsk id o (question from to) None 0; LPublished id true; LArrive 0 (Some to); LLend id].

Definition reached (h : Host) (ls : list Label) : State := default start (run h ls start).

Ltac reach := by vm_compute.

(** Alice asks bob, whose turn has begun on no slot, with the only one lent. *)
Definition exchange : list Label := turn_for "alice" ++ asks_agent "a1" (InTurn (key "alice")) "alice" "bob" ++ [LTake (key "bob") false; LBegin (key "bob") (Some "bob")].

Lemma exchange_ok : Forall plain exchange.
Proof. repeat constructor. Qed.

Lemma exchange_label_ok : Forall label_ok exchange.
Proof. repeat constructor. Qed.

(** Bob is refused when it asks alice in turn, in its exchange or in another. *)
Lemma no_circular_wait_witness :
  (∀ range, ranges range → waits_begin range (waits (reached host exchange)) "bob" "alice" = None) ∧ is_Some (waits_begin map_keys (waits (reached host exchange)) "alice" "bob").
Proof.
  destruct (no_circular_wait host exchange (reached host exchange)) as (_ & _ & Hb); [apply example_host|apply exchange_label_ok|reach|].
  split; [|by vm_compute; eexists]. intros range Hr. apply (Hb range "bob" "alice" Hr). apply (Hb map_keys "bob" "alice" map_keys_ranges). by vm_compute.
Defined.

Lemma slots_bounded_witness : used (reached host (turn_for "alice")) = 1 ∧ count holds (sess (reached host (turn_for "alice"))) = 1 ∧ used (reached host exchange) = 0.
Proof.
  destruct (slots_bounded host (turn_for "alice") (reached host (turn_for "alice")) 1) as (_ & H & _); [apply example_host|by repeat constructor|reach|done|].
  split; [by vm_compute|]. split; [|by vm_compute]. rewrite <- H. by vm_compute.
Defined.


Lemma exchanges_bounded_witness : ∃ t, turn_at (reached host exchange) (key "bob") = Some t ∧ t_chain t = ["alice"; "bob"] ∧ (t_depth t ≤ 3)%Z.
Proof.
  destruct (exchanges_bounded host exchange (reached host exchange)) as [H _]; [apply example_host|apply exchange_label_ok|reach|].
  destruct (turn_at (reached host exchange) (key "bob")) as [t|] eqn:Ht; [|by vm_compute in Ht]. exists t. split; [done|].
  assert (t_agent t = Some "bob" ∧ t_chain t = ["alice"; "bob"]) as [Ha Hc] by (vm_compute in Ht; injection Ht as <-; by split). split; [exact Hc|].
  destruct (H (key "bob") t "bob" Ht Ha) as (_ & _ & _ & _ & Hd). change (maxSubagentDepth host) with 3%Z in Hd. lia.
Defined.

(** The rest of the exchange. *)
Definition ending : list Label := [LOver (key "bob") fine; LAnswered "a1"; LReclaim "a1"; LReacquire "a1" true; LOver (key "alice") fine].

Definition asked : State := reached host exchange.
Definition ended : State := default start (run host ending asked).

Definition ends (l : Label) : bool := match l with LOver _ _ | LAnswered _ | LReclaim _ | LReacquire _ true => true | _ => false end.

Lemma run_onward h ls s s' : forallb ends ls = true → run h ls s = Some s' → onward h ls s s'.
Proof.
  revert s. induction ls as [|l ls IH]; intros s; cbn [forallb run]; [intros _ [= <-]; constructor|]. intros [Hl Hls]%andb_true_iff.
  destruct (step h l s) as [s1|] eqn:Hs; [|done]. intros Hr. eapply onward_cons; [|exact Hs|by apply IH]. destruct l as [| | | | | | | | | | | | | |? []]; done.
Qed.

(** Where nothing is left, nothing goes on. *)
Lemma quiet_stuck h s : quiet s → ∀ l, forward s l → step h l s = None.
Proof.
  intros (Q1 & Q2 & Q3) l Hf. assert (Hc : ∀ id, calls s !! id = None) by (intros id; by rewrite Q2). destruct l; try done; cbn.
  - unfold arrive. by rewrite Q1.
  - unfold take_turn. destruct (Q3 k) as [-> ->]. done.
  - unfold get_slot. by destruct (Q3 k) as [_ ->].
  - unfold begin_turn. by destruct (Q3 k) as [_ ->].
  - unfold over. by destruct (Q3 k) as [_ ->].
  - unfold published. by rewrite Hc.
  - unfold lend. by rewrite Hc.
  - unfold answered. by rewrite Hc.
  - unfold reclaim. by rewrite Hc.
  - unfold reacquire. by rewrite Hc.
Qed.

Definition is_idle (x : Sess) : bool := match queue x, turn x with [], None => true | _, _ => false end.

Lemma idle_sessions (m : gmap string Sess) k : forallb (λ x, is_idle x.2) (map_to_list m) = true → is_idle (default idle (m !! k)) = true.
Proof.
  rewrite forallb_forall. intros Ha. destruct (m !! k) as [x|] eqn:Hk; [|done]. apply elem_of_map_to_list, list_elem_of_In in Hk. by apply Ha in Hk.
Qed.

Lemma ended_quiet : quiet ended.
Proof.
  split; [by vm_compute|]. split; [by vm_compute|]. intros k. assert (Ha : is_idle (sess_at ended k) = true) by (apply idle_sessions; by vm_compute).
  unfold turn_at. generalize dependent (sess_at ended k). intros [[] []]; by cbn.
Qed.


(** Over MCP the slot stays taken: bob, with a turn queued ahead of the ask, waits for
    alice's slot, and alice for bob, until the ask times out. In the turn itself the
    same ask lends the slot, and bob goes on. *)
Definition busy_bob (o : Origin) : list Label :=
  turn_for "alice" ++ [LInbound (write "bob"); LArrive 0 (Some "bob"); LTake (key "bob") false] ++ asks_agent "a1" o "alice" "bob".

Definition stalled : State := reached host (busy_bob (OverMCP (key "alice"))).
Definition lending : State := reached host (busy_bob (InTurn (key "alice"))).

Example mcp_stalls : run host (busy_bob (OverMCP (key "alice"))) start = Some stalled ∧ used stalled = 1 ∧
  step host (LSlot (key "bob")) stalled = None ∧ step host (LTake (key "bob") false) stalled = None ∧ step host (LAnswered "a1") stalled = None ∧
  (∀ o, step host (LOver (key "alice") o) stalled = None) ∧ is_Some (step host (LGiveUp "a1") stalled) ∧
  run host (busy_bob (InTurn (key "alice"))) start = Some lending ∧ used lending = 0 ∧ is_Some (step host (LSlot (key "bob")) lending).
Proof. split_and!; try (intros o); by vm_compute; try eexists. Qed.

(** A sub-agent that alice waits for asks bob, and bob asks alice in a turn of its own:
    the graph has the sub-agent's wait and not alice's, the second ask is taken, and
    each of the two turns waits for the other until a timeout. *)
Definition two_slots : Host :=
  {| agents := agents host; running := true; maxSubagentDepth := 3; maxConcurrentTurns := Some 2; modelTimeouts := ∅; defaultTimeout := 60 |}.

Definition circle : list Label :=
  turn_for "alice" ++ turn_for "bob" ++ asks_agent "a1" (InClone (key "alice") "alice-2") "alice" "bob" ++ asks_agent "b1" (InTurn (key "bob")) "bob" "alice".

Definition circled : State := reached two_slots circle.

Example clone_circle : run two_slots circle start = Some circled ∧ size (calls circled) = 2 ∧ used circled = 0 ∧
  (∀ o, step two_slots (LOver (key "alice") o) circled = None) ∧ (∀ o, step two_slots (LOver (key "bob") o) circled = None) ∧
  step two_slots (LAnswered "a1") circled = None ∧ step two_slots (LAnswered "b1") circled = None ∧
  step two_slots (LTake (key "alice") false) circled = None ∧ step two_slots (LTake (key "bob") false) circled = None.
Proof. split_and!; try (intros o); by vm_compute. Qed.

End AskExamples.
